(* ===== verification/_CoqProject ===== *)
-Q . S2P
Prelude.v
RustStr.v
Decimal.v
Ident.v
Fgrn.v
Forest.v
Spine.v
Selector.v
Grants.v
Visibility.v
Delegation.v
Store.v
Event.v
Org.v
Rbac.v
EventStore.v
Dynamo.v
DynamoLog.v
DynamoStore.v
DynamoSigned.v
Action.v
Features.v
Authn.v
Jwt.v
UserSchema.v
UserPool.v
Seed.v
ReadModel.v
Handlers.v
MachineAuth.v
Api.v
Http.v
Cors.v
Pipeline.v
Engine.v
CedarPolicy.v
CpEngine.v
Adapters.v
App.v
Proxy.v
VpEngine.v
Dfs.v
Policies.v
Config.v
Startup.v
Cli.v
DynamoReads.v
DynamoReplay.v
VerifyEvents.v
