(* ===== verification/Prelude.v ===== *)
(** ForgeGuard: authorization for multi-tenant organizations.

    * The system

    ForgeGuard decides whether a principal of an organization may perform an
    action on a resource.  Its parts, by crate of the repository:

    - [crates/core] has the vocabulary: validated identifiers, stable names
      (FGRNs), the organizational spine, principals, sets, grants, delegation
      chains, selectors, visibility, feature flags, declared policies and
      their compilation to Cedar;
    - [crates/authz-core] has the versioned model store, the event log of an
      organization and its fold, role-based groups, and the embedded Cedar
      engine that decides over slices of the store;
    - [crates/authz] asks the Verified Permissions service instead, behind a
      cache in memory and one in Redis;
    - [crates/authn-core] and [crates/authn] resolve credentials to
      identities and sign and verify requests;
    - [crates/http] matches routes, answers CORS, validates a configuration
      and projects an identity to headers; [crates/proxy-core] is the request
      pipeline that puts authentication, membership, feature gates and the
      policy engine together; [crates/proxy] (Pingora) and
      [lib/forgeguard-axum] run the pipeline in front of an upstream or a
      handler;
    - [crates/control-plane] administers organizations: every mutation
      appends a signed event to the organization's log, in memory or in
      DynamoDB.

    * The files

    [Prelude] (this file): the [result] type of fallible code, ordered
    iteration of sets, loops with [?], list and option lemmas, the hint
    databases and tactics.  [RustStr]: the part of [str] the sources use, on
    byte strings.  [Decimal]: printed and zero-padded numbers.  [Forest],
    [Dfs]: parent forests and depth-first cycle search, shared by components.

    - [Ident], [Fgrn], [Action]: [core/src/segment.rs], [native_id.rs],
      [verb.rs], [cedar_ident.rs], [fgrn.rs], [action.rs], [vp_fgrn.rs].
      Parsers accept exactly their grammars and printing is inverse to them.
    - [Spine], [Selector], [Grants], [Visibility], [Delegation]:
      [core/src/spine.rs] and its neighbours.  Spine validation accepts
      exactly the single-rooted trees; [add] and [reparent] keep them so and
      move exactly one subtree; effective rights of a delegation chain are
      the intersection over its links.
    - [Features]: [core/src/features/mod.rs].  The precedence of overrides,
      rollout and defaults, and the agreement of the two evaluators.
    - [Policies]: [core/src/permission.rs], [core/src/cedar/],
      [http/src/validate.rs].  Compilation and validation decide definedness
      and acyclicity of groups, a validated configuration compiles, and the
      generated schema declares what compiled statements name.
    - [Store], [Event], [Rbac]: [authz-core/src/store/], [event/], [rbac/].
      A slice has what a decision needs and nothing else; a store read at a
      revision does not change later; inheritance is the reflexive-transitive
      closure, and conflicts and cycles are reported.
    - [Org], [EventStore]: organization and key lifecycles
      ([core/src/org.rs], [control-plane/src/signing_key.rs],
      [handlers/lifecycle.rs]) and the in-memory model event store
      ([control-plane/src/model_event_store/in_memory.rs]).  Replaying the log
      of an organization gives its live state, in pages or at once; logs are
      densely numbered and signed.
    - [Dynamo], [DynamoLog], [DynamoStore], [DynamoSigned]: the same store on
      DynamoDB ([event_log.rs], [model_event_store/mod.rs], [groups.rs],
      [dynamo_store/mod.rs]).  Operations are programs of service calls that
      interleave; the service is a class [DynamoLaws] with its documented
      behaviour, instantiated by a table in memory.  Appends linearize, take
      effect at most once, make progress, and every event of a log is signed
      with the one key of its organization.
    - [DynamoReads], [DynamoReplay], [VerifyEvents]: the reads
      ([dynamo_store/], [event_log.rs], [model_event_store/mod.rs]) and the
      external verifier ([xtask/src/control_plane/verify_events.rs]).  The
      service cuts its answers into pages where it likes; listings hide that,
      a replay returns the right state or an error, and what is served of a
      log written by concurrent requests verifies under the published key.
      Item reads are consistent, as the code asks; the queries of the log do
      not ask for it, and may each be answered from any earlier table.
    - [Authn]: [authn-core/src/], [authn/src/ed25519_resolver.rs],
      [http/src/credential.rs].  Signed requests verify, a signature
      authenticates exactly one request, and acceptance is characterised.
    - [Http], [Cors], [Pipeline]: [http/src/route.rs], [public.rs],
      [cors.rs], [proxy-core/src/pipeline.rs].  When a request is forwarded,
      and that observing a policy changes nothing but the answer.
    - [Engine]: [authz-core/src/engine_cedar/], [snapshot/].  Decisions of a
      chain intersect; a forwarded decision can be replayed later at its
      recorded revision.
    - [Adapters], [Proxy]: [lib/forgeguard-axum/src/], [http/src/headers.rs],
      [proxy/src/proxy.rs], [proxy-core/src/tenant.rs].  Identity headers that
      reach a handler come from the middleware; what reaches the upstream was
      authorized, but for one method-handling gap, which is proved too.
    - [VpEngine]: [authz/src/].  Cache keys identify what they should, and a
      decision, cached or not, is an allow exactly when the service replied
      so recently, with any number of instances sharing Redis.
    - [ReadModel], [Handlers], [Api]: the control plane's HTTP interface.
      [ReadModel] has the two store traits ([OrgStore], [ModelEventStore]) as
      classes with laws, and the in-memory pair that satisfies them
      ([control-plane/src/store/], [etag.rs], [model_event_store/]).
      [Handlers] has every handler of [handlers/], written against the
      traits.  [Api] proves them, over any store with the laws, to refine one
      abstract specification of a request: it changes nothing, or appends one
      event with one allowed change.  What follows for any sequence of
      requests: stored groups stay usable, statuses follow the lifecycle, of
      two writes conditional on one revision one fails, a watch ends in time.
    - [CedarPolicy], [CpEngine]: [authz-core/src/engine_cp/], [cp_model.rs].
      The engine that guards the control plane's own API allows nothing across
      organizations.  [CedarPolicy] specifies the part of Cedar that the
      compiled text is written in, its syntax as a lexer and a parser and its
      meaning as a relation; the library promises that an allowed request
      satisfies a permit read from the text, and what the text compiled from
      roles and machine policies reads as is proved.
    - [App]: [control-plane/src/app.rs].  The route tables agree, and a
      request followed through middleware, router, extractors and handler
      cannot touch an organization other than the caller's; without
      authentication everything is open.
    - [Jwt]: [authn/src/config.rs], [claims.rs], [jwks.rs], [resolver.rs].
      Requests that share the key cache run concurrently, a step at a time;
      an identity is that of a token the issuer's key vouched for, with a key
      no older than the TTL, and a request on its own ends in six steps.
    - [MachineAuth]: [control-plane/src/signing_key_store.rs].  A key that is
      revoked or past its deadline authenticates no later request, whatever
      else happens to the organization's keys.
    - [UserSchema], [UserPool], [Seed]: [authn-core/src/user_schema/],
      [authn/src/user_pool/], [authn-core/src/membership/],
      [control-plane/src/membership_store.rs], [xtask's seed/].  The errors of
      attribute validation are exact, accepted schema changes keep users
      valid but for added required attributes; seeding a file that validates
      ends, can be repeated, and the groups it wrote are those resolved.
    - [Config], [Startup]: [http/src/config.rs], [config_raw.rs],
      [config_types.rs], [proxy/src/main.rs].  A file is accepted exactly when
      every field is valid and is then the configuration it declares; a
      started proxy authenticates whom the file declares and serves the routes
      it declares, under the engine it names.  The entities of the schema
      section reach the types of the generated schema when they are named by
      segments.
    - [Cli]: [cli/src/policies/], [check.rs].  A policy test asks the service
      what the engine asks it; syncing only ever adds policies; checking a
      file does not validate it.

    A file has its components as Modules with the names of the source; the
    state of a component is a Record, a handler or method one definition over
    it.  Definitions come first, then lemmas, then the theorems, each with a
    witness that applies it to a concrete case where it has hypotheses.

    * How the code is represented

    Strings are byte strings; [u64] and [u8] are [N] with the wrap-around or
    check the code has; [HashMap] and [BTreeMap] are [gmap]s, read in the
    order of [BTreeMap] through [btree_iter] where the order is observable;
    [Result] is [result], whose third constructor [Stuck] stands for a panic
    or an exhausted bound.  Theorems show that [Stuck] does not occur, or say
    when it does.  Fuel appears where recursion is not structural, and every
    bound is computed by the definition itself from its input: the number of
    nodes for walks over spines, sets, groups and inheritance, the length for
    string loops, the number of attempts the source has for retries, the
    length of the log for pages.  The theorems about these definitions show
    that the bound is enough, since [Stuck] is excluded.

    Cryptography (Ed25519, SHA-256), base64, JSON and TOML text, the Cedar
    evaluator, the router, the LRU map, DynamoDB, Redis and clocks are
    libraries or services.  They are arguments, or classes with the
    documented laws the code relies on, and each class has an instance.  JSON
    text is promised to be read back as written only for values without
    floating-point numbers, with sorted keys and at most 128 levels deep.

    * Not modelled

    Network and process code (servers, AWS clients, deployment and developer
    tooling), language bindings, logging and tracing; deserialization by derived code.  Of
    the control plane, the metrics text and the timeout layer: a request that
    is cut off by it has the outcome of a request whose answer is lost.  Of
    the command line, the route table, key generation and the AWS client.

    * What is left

    Not yet modelled, though it could be: a refinement of the store laws of
    [ReadModel] by the operations over DynamoDB, reads that span several pages
    of a table while it changes (but for the event log), the seeding of
    organizations and groups. *)

From stdpp Require Export base gmap strings list list_numbers sorting relations fin_maps.
From Stdlib Require Export Ascii ZArith NArith Lia.

#[export] Set Default Goal Selector "!".

(** String concatenation computes on a constructor. *)
#[global] Arguments String.append : simpl nomatch.
#[global] Arguments Ascii.eqb : simpl never.

(** * Results *)

(** Rust's [Result<A, E>], with a third constructor for an evaluation that
    does not return: an [unreachable!()] that is reached, or a loop whose
    bound is exhausted.  Theorems about operations exclude [Stuck]. *)
Inductive result (E A : Type) : Type :=
| Ok (a : A)
| Err (e : E)
| Stuck (why : string).
Arguments Ok {_ _} _.
Arguments Err {_ _} _.
Arguments Stuck {_ _} _.

#[global] Instance result_ret E : MRet (result E) := λ A a, Ok a.
#[global] Instance result_bind E : MBind (result E) := λ A B f r,
  match r with Ok a => f a | Err e => Err e | Stuck w => Stuck w end.
#[global] Instance result_fmap E : FMap (result E) := λ A B f r,
  match r with Ok a => Ok (f a) | Err e => Err e | Stuck w => Stuck w end.

#[global] Instance result_eq_dec `{EqDecision E, EqDecision A} : EqDecision (result E A).
Proof. solve_decision. Defined.

Definition map_err {E F A} (f : E → F) (r : result E A) : result F A :=
  match r with Ok a => Ok a | Err e => Err (f e) | Stuck w => Stuck w end.

Definition ok_or {E A} (o : option A) (e : E) : result E A :=
  match o with Some a => Ok a | None => Err e end.

Definition unwrap_or {E A} (r : result E A) (d : A) : A :=
  match r with Ok a => a | _ => d end.

(** [unwrap_or_else(|_| unreachable!(..))]. *)
Definition expect_ok {E F A} (r : result E A) (why : string) : result F A :=
  match r with Ok a => Ok a | _ => Stuck why end.

Definition is_ok {E A} (r : result E A) : bool :=
  match r with Ok _ => true | _ => false end.

Section result_lemmas.
Context {E A B : Type}.
Implicit Types (r : result E A) (f : A → result E B).

Lemma bind_Ok r f b : (r ≫= f) = Ok b ↔ ∃ a, r = Ok a ∧ f a = Ok b.
Proof. destruct r; naive_solver. Qed.
Lemma bind_Err r f e :
  (r ≫= f) = Err e ↔ r = Err e ∨ ∃ a, r = Ok a ∧ f a = Err e.
Proof. destruct r; naive_solver. Qed.
Lemma fmap_Ok (g : A → B) r b : g <$> r = Ok b ↔ ∃ a, r = Ok a ∧ b = g a.
Proof. destruct r; naive_solver. Qed.
Lemma ok_or_Ok (o : option A) (e : E) a : ok_or o e = Ok a ↔ o = Some a.
Proof. destruct o; naive_solver. Qed.
Lemma map_err_Ok {F} (g : E → F) r a : map_err g r = Ok a ↔ r = Ok a.
Proof. destruct r; naive_solver. Qed.
Lemma expect_ok_Ok {F} r why a : @expect_ok E F A r why = Ok a ↔ r = Ok a.
Proof. destruct r; naive_solver. Qed.
Lemma is_ok_true r : is_ok r = true ↔ ∃ a, r = Ok a.
Proof. destruct r; naive_solver. Qed.
End result_lemmas.

Lemma mapM_Ok {E A B} (f : A → result E B) l k :
  mapM f l = Ok k ↔ Forall2 (λ x y, f x = Ok y) l k.
Proof.
  revert k. induction l as [|x l IH]; intros k; simpl.
  - split; [intros [=<-]; constructor|by inversion 1].
  - rewrite bind_Ok. split.
    + intros (y & Hy & (k' & Hk & [=<-])%bind_Ok). constructor; [done|by apply IH].
    + inversion 1 as [|? y ? k' Hy Hk]; subst. exists y. split; [done|].
      apply bind_Ok. exists k'. split; [by apply IH|done].
Qed.

(** Inverts the hypotheses that say a computation returned [Ok]. *)
Ltac inv_ok_step :=
  match goal with
  | H : Err _ = Ok _ |- _ => discriminate H
  | H : Stuck _ = Ok _ |- _ => discriminate H
  | H : Ok _ = Ok _ |- _ => injection H as H
  | H : mret _ = Ok _ |- _ => injection H as H
  | H : mbind _ _ = Ok _ |- _ => apply bind_Ok in H as (? & ? & H)
  | H : fmap _ _ = Ok _ |- _ => apply fmap_Ok in H as (? & ? & H)
  | H : ok_or _ _ = Ok _ |- _ => apply ok_or_Ok in H
  | H : map_err _ _ = Ok _ |- _ => apply map_err_Ok in H
  | H : expect_ok _ _ = Ok _ |- _ => apply expect_ok_Ok in H
  | H : (if ?b then _ else _) = Ok _ |- _ =>
      let E := fresh "Hif" in destruct b eqn:E; try discriminate H
  | H : match ?x with _ => _ end = Ok _ |- _ =>
      let E := fresh "Hcase" in destruct x eqn:E; try discriminate H
  end.
Ltac inv_ok := repeat (inv_ok_step; simplify_eq/=).

(** ** Computations that return *)

(** The computation returns a value or an error: no [unreachable!] is
    reached and no loop bound is exhausted. *)
Definition returns {E A} (r : result E A) : Prop := ∀ w, r ≠ Stuck w.

Create HintDb returns.
Section returns.
Context {E A : Type}.
Implicit Types (r : result E A).
Lemma returns_Ok (a : A) : returns (Ok (E:=E) a).
Proof. done. Qed.
Lemma returns_Err (e : E) : returns (Err (A:=A) e).
Proof. done. Qed.
Lemma returns_ok_or (o : option A) (e : E) : returns (ok_or o e).
Proof. by destruct o. Qed.
Lemma returns_bind {B} r (f : A → result E B) :
  returns r → (∀ a, r = Ok a → returns (f a)) → returns (r ≫= f).
Proof. intros Hr Hf w. destruct r; simpl; [by apply Hf|done|by destruct (Hr why)]. Qed.
Lemma returns_fmap {B} r (f : A → B) : returns r → returns (f <$> r).
Proof. intros Hr w. destruct r; simpl; [done..|by destruct (Hr why)]. Qed.
Lemma returns_map_err {F} r (f : E → F) : returns r → returns (map_err f r).
Proof. intros Hr w. destruct r; simpl; [done..|by destruct (Hr why)]. Qed.
End returns.
#[export] Hint Resolve returns_Ok returns_Err returns_ok_or returns_fmap returns_map_err : returns.

(** Walks through binds and branches. *)
Ltac solve_returns :=
  repeat first
    [ solve [eauto with returns]
    | apply returns_bind; [|intros ? _]
    | apply returns_fmap
    | apply returns_map_err
    | case_match ].

(** * Booleans *)

(** Close a decidable goal by evaluating its decision procedure; the values
    compared (finite maps among them) are never written out. *)
Ltac by_eval := apply (bool_decide_unpack _); vm_cast_no_check I.

(** Turns the boolean equations of a code condition into propositions. *)
Ltac bool_prop :=
  repeat match goal with
  | H : negb _ = true |- _ => apply negb_true_iff in H
  | H : negb _ = false |- _ => apply negb_false_iff in H
  | H : _ && _ = true |- _ => apply andb_true_iff in H as [? ?]
  | H : _ || _ = false |- _ => apply orb_false_iff in H as [? ?]
  | H : bool_decide _ = true |- _ => apply bool_decide_eq_true in H
  | H : bool_decide _ = false |- _ => apply bool_decide_eq_false in H
  end.

(** * Comparison functions *)

(** A comparison function that decides a total order, as Rust's derived
    [Ord] does. *)
Class Comparator {A} (cmp : A → A → comparison) : Prop := {
  cmp_eq x y : cmp x y = Eq ↔ x = y;
  cmp_opp x y : cmp y x = CompOpp (cmp x y);
  cmp_lt_trans x y z : cmp x y = Lt → cmp y z = Lt → cmp x z = Lt;
}.

Arguments cmp_eq {A} cmp {_} x y.
Arguments cmp_opp {A} cmp {_} x y.
Arguments cmp_lt_trans {A} cmp {_} x y z _ _.

Definition cmp_le {A} (cmp : A → A → comparison) (x y : A) : Prop := cmp x y ≠ Gt.
#[global] Instance cmp_le_dec {A} (cmp : A → A → comparison) : RelDecision (cmp_le cmp).
Proof. intros x y. unfold cmp_le. apply _. Defined.

Section comparator.
Context {A} (cmp : A → A → comparison) `{!Comparator cmp}.

#[global] Instance cmp_le_trans : Transitive (cmp_le cmp).
Proof.
  intros x y z. unfold cmp_le. destruct (cmp x y) eqn:Hxy; [| |done].
  - by apply (cmp_eq cmp) in Hxy as ->.
  - destruct (cmp y z) eqn:Hyz; [| |done].
    + apply (cmp_eq cmp) in Hyz as <-. by rewrite Hxy.
    + by rewrite (cmp_lt_trans _ _ _ _ Hxy Hyz).
Qed.
#[global] Instance cmp_le_total : Total (cmp_le cmp).
Proof.
  intros x y. unfold cmp_le. rewrite (cmp_opp cmp x y). destruct (cmp x y); simpl; auto.
Qed.
#[global] Instance cmp_le_antisymm : AntiSymm (=) (cmp_le cmp).
Proof.
  intros x y. unfold cmp_le. rewrite (cmp_opp cmp x y). destruct (cmp x y) eqn:H; [|done..].
  by apply (cmp_eq cmp) in H.
Qed.
End comparator.

(** Lexicographic composition. *)
Definition cmp_then (c d : comparison) : comparison :=
  match c with Eq => d | c => c end.
Definition cmp_pair {A B} (ca : A → A → comparison) (cb : B → B → comparison)
    (x y : A * B) : comparison :=
  cmp_then (ca x.1 y.1) (cb x.2 y.2).
(** [None] sorts before [Some]. *)
Definition cmp_option {A} (ca : A → A → comparison) (x y : option A) : comparison :=
  match x, y with
  | None, None => Eq
  | None, Some _ => Lt
  | Some _, None => Gt
  | Some x, Some y => ca x y
  end.
(** Order through an injective key. *)
Definition cmp_key {A K} (key : A → K) (ck : K → K → comparison) (x y : A) : comparison :=
  ck (key x) (key y).

#[global] Instance cmp_pair_ok {A B} (ca : A → A → comparison) (cb : B → B → comparison) :
  Comparator ca → Comparator cb → Comparator (cmp_pair ca cb).
Proof.
  intros Ha Hb. split.
  - intros [x1 x2] [y1 y2]. unfold cmp_pair; simpl. destruct (ca x1 y1) eqn:H; simpl.
    + apply (cmp_eq ca) in H as ->. rewrite (cmp_eq cb). naive_solver.
    + split; [done|]. intros [= -> ->]. by rewrite (proj2 (cmp_eq ca y1 y1)) in H.
    + split; [done|]. intros [= -> ->]. by rewrite (proj2 (cmp_eq ca y1 y1)) in H.
  - intros [x1 x2] [y1 y2]. unfold cmp_pair; simpl. rewrite (cmp_opp ca x1 y1).
    destruct (ca x1 y1); [simpl; apply (cmp_opp cb)|done..].
  - intros [x1 x2] [y1 y2] [z1 z2]. unfold cmp_pair; simpl.
    destruct (ca x1 y1) eqn:Hxy; [| |done]; destruct (ca y1 z1) eqn:Hyz; try done; simpl.
    + apply (cmp_eq ca) in Hxy as ->, Hyz as ->. rewrite (proj2 (cmp_eq ca z1 z1)) by done.
      apply (cmp_lt_trans cb).
    + apply (cmp_eq ca) in Hxy as ->. by rewrite Hyz.
    + apply (cmp_eq ca) in Hyz as <-. by rewrite Hxy.
    + by rewrite (cmp_lt_trans _ _ _ _ Hxy Hyz).
Qed.
#[global] Instance cmp_option_ok {A} (ca : A → A → comparison) :
  Comparator ca → Comparator (cmp_option ca).
Proof.
  intros Ha. split.
  - intros [x|] [y|]; simpl; rewrite ?(cmp_eq ca); naive_solver.
  - intros [x|] [y|]; simpl; try done. apply (cmp_opp ca).
  - intros [x|] [y|] [z|]; simpl; try done. apply (cmp_lt_trans ca).
Qed.
#[global] Instance cmp_key_ok {A K} (key : A → K) (ck : K → K → comparison) :
  Comparator ck → Inj (=) (=) key → Comparator (cmp_key key ck).
Proof.
  intros Hk Hinj. unfold cmp_key. split.
  - intros x y. rewrite (cmp_eq ck). naive_solver.
  - intros x y. apply (cmp_opp ck).
  - intros x y z. apply (cmp_lt_trans ck).
Qed.
#[global] Instance string_compare_ok : Comparator String.compare.
Proof.
  split.
  - intros x y. split; [apply String.compare_eq_iff|intros ->].
    pose proof (String.compare_antisym y y) as H. by destruct (String.compare y y).
  - intros. apply String.compare_antisym.
  - intros x y z Hxy Hyz.
    assert (String.le x z) as Hle.
    { apply (transitivity (R := String.le) (y := y)); unfold String.le, String.leb;
        by rewrite ?Hxy, ?Hyz. }
    unfold String.le, String.leb in Hle. destruct (String.compare x z) eqn:Hxz; [|done..].
    apply String.compare_eq_iff in Hxz as ->. rewrite String.compare_antisym, Hxy in Hyz. done.
Qed.
#[global] Instance nat_compare_ok : Comparator Nat.compare.
Proof.
  split.
  - intros. apply Nat.compare_eq_iff.
  - intros. apply Nat.compare_antisym.
  - intros x y z. rewrite !Nat.compare_lt_iff. lia.
Qed.

(** * Ordered sets *)

(** The elements of a [BTreeSet] in iteration order. *)
Definition btree_iter {A} `{Countable A} (cmp : A → A → comparison) (s : gset A) : list A :=
  merge_sort (cmp_le cmp) (elements s).
Lemma elem_of_btree_iter {A} `{Countable A} (cmp : A → A → comparison) (s : gset A) x :
  x ∈ btree_iter cmp s ↔ x ∈ s.
Proof. unfold btree_iter. rewrite merge_sort_Permutation. apply elem_of_elements. Qed.

Lemma size_list_to_set_le {A} `{Countable A} (l : list A) :
  size (list_to_set l : gset A) ≤ length l.
Proof.
  induction l as [|x l IH]; [done|]. cbn [list_to_set length].
  destruct (decide (x ∈ (list_to_set l : gset A))) as [Hx|Hx].
  - rewrite subseteq_union_1_L by set_solver. lia.
  - rewrite size_union, size_singleton by set_solver. lia.
Qed.

(** * Loops in the result monad *)

(** [for x in l { f(x)?; }]. *)
Fixpoint for_each {E A} (f : A → result E ()) (l : list A) : result E () :=
  match l with
  | [] => Ok ()
  | x :: l => _ ← f x; for_each f l
  end.

Lemma for_each_Ok {E A} (f : A → result E ()) l :
  for_each f l = Ok () ↔ ∀ x, x ∈ l → f x = Ok ().
Proof.
  induction l as [|x l IH]; simpl; [set_solver|]. rewrite bind_Ok. setoid_rewrite elem_of_cons.
  split.
  - intros ([] & Hx & Hl) y [->|Hy]; [done|]. by apply IH.
  - intros Hall. exists (). split; [auto|]. apply IH. auto.
Qed.
(** A loop that does not return [Ok] stops at some element. *)
Lemma for_each_stop {E A} (f : A → result E ()) l r :
  for_each f l = r → r ≠ Ok () → ∃ x, x ∈ l ∧ f x = r.
Proof.
  induction l as [|x l IH]; simpl; [congruence|]. destruct (f x) as [[]|e|w] eqn:Hx; simpl.
  - intros Hr Hne. destruct (IH Hr Hne) as (y & Hy & Hfy). exists y. split; [by right|done].
  - intros <- _. exists x. split; [left|done].
  - intros <- _. exists x. split; [left|done].
Qed.

(** [l.any(|x| f(x))] with a mutable state threaded through [f]. *)
Fixpoint any_state {E A S} (f : A → S → result E (bool * S)) (l : list A) (s : S)
    : result E (bool * S) :=
  match l with
  | [] => Ok (false, s)
  | x :: l =>
      '(b, s) ← f x s;
      if (b : bool) then Ok (true, s) else any_state f l s
  end.

(** [l.filter(f).flat_map(g).collect::<BTreeSet<_>>()] with a fallible filter. *)
Fixpoint union_where {E A B} `{Countable B} (f : A → result E bool) (g : A → gset B)
    (l : list A) : result E (gset B) :=
  match l with
  | [] => Ok ∅
  | x :: l =>
      keep ← f x;
      rest ← union_where f g l;
      Ok (if (keep : bool) then g x ∪ rest else rest)
  end.

Lemma union_where_Ok {E A B} `{Countable B} (f : A → result E bool) (g : A → gset B)
    (P : A → Prop) l :
  (∀ x, x ∈ l → ∃ b, f x = Ok b ∧ (b = true ↔ P x)) →
  ∃ s, union_where f g l = Ok s ∧ ∀ y, y ∈ s ↔ ∃ x, x ∈ l ∧ P x ∧ y ∈ g x.
Proof.
  induction l as [|x l IH]; intros Hf; simpl.
  { exists ∅. split; [done|]. set_solver. }
  destruct (Hf x) as (b & Hb & HP); [left|].
  destruct IH as (s & Hs & Hspec); [intros; apply Hf; by right|].
  rewrite Hb. cbn [mbind result_bind]. rewrite Hs. cbn [mbind result_bind].
  eexists. split; [done|]. intros y. setoid_rewrite elem_of_cons.
  destruct b; [rewrite elem_of_union|]; rewrite Hspec; naive_solver.
Qed.

(** [for x in l { s = f(s, x)?; }]. *)
Fixpoint try_fold {E A S} (f : S → A → result E S) (l : list A) (s : S) : result E S :=
  match l with
  | [] => Ok s
  | x :: l => s ← f s x; try_fold f l s
  end.

Lemma try_fold_inv {E A S} (f : S → A → result E S) (I : list A → S → Prop) l s s' :
  I [] s →
  (∀ done x s s', x ∈ l → I done s → f s x = Ok s' → I (done ++ [x]) s') →
  try_fold f l s = Ok s' → I l s'.
Proof.
  intros H0 Hstep.
  assert (∀ done todo s, (∀ x, x ∈ todo → x ∈ l) → I done s →
            try_fold f todo s = Ok s' → I (done ++ todo) s') as Hgen.
  { clear H0 s. intros done todo. revert done.
    induction todo as [|x todo IH]; intros done s Hin HI; simpl.
    - intros [= <-]. by rewrite app_nil_r.
    - intros (s1 & Hx & Hl)%bind_Ok. replace (done ++ x :: todo) with ((done ++ [x]) ++ todo)
        by by rewrite <-app_assoc.
      apply (IH _ s1); [intros; apply Hin; by right| |done].
      eapply Hstep; [apply Hin; left|done..]. }
  intros. by apply (Hgen [] l s).
Qed.
(** A fold that does not return [Ok] stops at some element, after the ones
    before it. *)
Lemma try_fold_stop {E A S} (f : S → A → result E S) (I : S → Prop) l s (r : result E S) :
  I s → (∀ x s s', x ∈ l → I s → f s x = Ok s' → I s') →
  try_fold f l s = r → (∀ a, r ≠ Ok a) →
  ∃ x s', x ∈ l ∧ I s' ∧ f s' x = r.
Proof.
  revert s. induction l as [|x l IH]; intros s HI Hstep; simpl; [naive_solver|].
  destruct (f s x) as [s1|e|w] eqn:Hx; simpl; intros Hr Hne.
  - destruct (IH s1) as (y & s' & ? & ? & ?); [|intros|done..|].
    + eapply Hstep; [left|done..].
    + eapply Hstep; [right|..]; done.
    + exists y, s'. split; [by right|done].
  - exists x, s. subst. split_and!; [left|done..].
  - exists x, s. subst. split_and!; [left|done..].
Qed.

(** * Keyed vectors *)

(** A [Vec] used as a map: [find] by key, [retain] and [push] as upsert. *)
Section keyed.
Context {A K : Type} `{EqDecision K} (key : A → K).
Implicit Types (l : list A) (x : A) (k : K).

Definition find_key k l : option A := List.find (λ y, bool_decide (key y = k)) l.
Definition upsert x l : list A := filter (λ y, key y ≠ key x) l ++ [x].

Lemma find_key_Some k l x : find_key k l = Some x → x ∈ l ∧ key x = k.
Proof.
  intros [Hin Hk]%List.find_some. bool_prop. split; [by apply list_elem_of_In|done].
Qed.
Lemma find_key_None k l : find_key k l = None ↔ ∀ x, x ∈ l → key x ≠ k.
Proof.
  split.
  - intros Hn x Hx%list_elem_of_In Hk.
    pose proof (List.find_none _ _ Hn x Hx) as Hf. simpl in Hf. by bool_prop.
  - intros Hall. destruct (find_key k l) as [x|] eqn:Hx; [|done].
    apply find_key_Some in Hx as [Hx Hk]. by destruct (Hall x Hx).
Qed.
Lemma find_key_In l x : NoDup (key <$> l) → x ∈ l → find_key (key x) l = Some x.
Proof.
  induction l as [|y l IH]; intros Hnd Hx; [by apply not_elem_of_nil in Hx|].
  unfold find_key; simpl. apply NoDup_cons in Hnd as [Hy Hnd].
  apply elem_of_cons in Hx as [->|Hx]; [by rewrite bool_decide_eq_true_2|].
  rewrite bool_decide_eq_false_2; [by apply IH|].
  intros Heq. apply Hy. rewrite Heq. apply list_elem_of_fmap. eauto.
Qed.
Lemma find_key_upsert k l x :
  find_key k (upsert x l) = if decide (k = key x) then Some x else find_key k l.
Proof.
  unfold upsert, find_key. induction l as [|y l IH]; simpl.
  - destruct (decide (k = key x)) as [->|Hne].
    + by rewrite bool_decide_eq_true_2.
    + by rewrite bool_decide_eq_false_2.
  - rewrite filter_cons. destruct (decide (key y ≠ key x)) as [Hyx|Hyx]; simpl; rewrite IH.
    + case_bool_decide as Hy; [|done]. subst. by rewrite decide_False.
    + destruct (decide (k = key x)) as [->|Hne]; [done|].
      rewrite bool_decide_eq_false_2; [done|]. intros Heq. apply Hyx. congruence.
Qed.
Lemma elem_of_upsert l x y : y ∈ upsert x l ↔ y = x ∨ (y ∈ l ∧ key y ≠ key x).
Proof.
  unfold upsert. rewrite elem_of_app, list_elem_of_filter, list_elem_of_singleton. naive_solver.
Qed.
Lemma upsert_NoDup l x : NoDup (key <$> l) → NoDup (key <$> upsert x l).
Proof.
  intros Hnd. unfold upsert. rewrite fmap_app. apply NoDup_app. split_and!.
  - revert Hnd. induction l as [|y l IH]; [done|]. rewrite filter_cons.
    cbn [fmap list_fmap]. rewrite NoDup_cons. intros [Hy Hnd].
    case_decide; [|by apply IH]. cbn [fmap list_fmap]. apply NoDup_cons.
    split; [|by apply IH]. rewrite list_elem_of_fmap. intros (z & Hz & Hin).
    apply list_elem_of_filter in Hin as [_ Hin].
    apply Hy. rewrite Hz. apply list_elem_of_fmap. eauto.
  - intros k (y & -> & Hy)%list_elem_of_fmap ?%list_elem_of_singleton.
    apply list_elem_of_filter in Hy as [Hy _]. done.
  - apply NoDup_singleton.
Qed.
End keyed.

Lemma NoDup_key_inj {A K} (key : A → K) l x y :
  NoDup (key <$> l) → x ∈ l → y ∈ l → key x = key y → x = y.
Proof.
  induction l as [|z l IH]; intros Hnd Hx Hy Heq; [by apply not_elem_of_nil in Hx|].
  apply NoDup_cons in Hnd as [Hz Hnd].
  apply elem_of_cons in Hx as [->|Hx], Hy as [->|Hy]; [done| | |by apply IH].
  - destruct Hz. rewrite Heq. apply list_elem_of_fmap. eauto.
  - destruct Hz. rewrite <-Heq. apply list_elem_of_fmap. eauto.
Qed.

(** * Stateful computations *)

(** A fallible computation over a mutable state; an error keeps the
    mutations made before it. *)
Definition M (S E A : Type) : Type := S → S * result E A.
#[global] Instance M_ret S E : MRet (M S E) := λ A a s, (s, Ok a).
#[global] Instance M_bind S E : MBind (M S E) := λ A B f m s,
  match m s with
  | (s', Ok a) => f a s'
  | (s', Err e) => (s', Err e)
  | (s', Stuck w) => (s', Stuck w)
  end.
Definition lift {S E A} (r : result E A) : M S E A := λ s, (s, r).
Definition gets {S E A} (f : S → A) : M S E A := λ s, (s, Ok (f s)).
Definition modify {S E} (f : S → S) : M S E () := λ s, (f s, Ok ()).

Lemma M_bind_Ok {S E A B} (m : M S E A) (f : A → M S E B) s s' b :
  (m ≫= f) s = (s', Ok b) ↔ ∃ s1 a, m s = (s1, Ok a) ∧ f a s1 = (s', Ok b).
Proof.
  unfold mbind, M_bind. destruct (m s) as [s1 [a|e|w]]; naive_solver.
Qed.
