(* ===== verification/RustStr.v ===== *)
(** Byte strings and the part of Rust's [str]/[String] API that the sources
    use.  A Rust string is its UTF-8 byte sequence, here a Standard Library
    [string] whose characters are bytes. *)

From S2P Require Import Prelude.

(** * Bytes *)

Definition byte_val (c : ascii) : N := N_of_ascii c.

Definition is_ascii_lowercase (c : ascii) : bool :=
  ((97 <=? byte_val c) && (byte_val c <=? 122))%N.
Definition is_ascii_uppercase (c : ascii) : bool :=
  ((65 <=? byte_val c) && (byte_val c <=? 90))%N.
Definition is_ascii_digit (c : ascii) : bool :=
  ((48 <=? byte_val c) && (byte_val c <=? 57))%N.
Definition is_ascii_alphabetic (c : ascii) : bool :=
  is_ascii_lowercase c || is_ascii_uppercase c.
Definition is_ascii_alphanumeric (c : ascii) : bool :=
  is_ascii_alphabetic c || is_ascii_digit c.
Definition is_ascii_graphic (c : ascii) : bool :=
  ((33 <=? byte_val c) && (byte_val c <=? 126))%N.

(** * Strings *)

Definition is_empty (s : string) : bool :=
  match s with EmptyString => true | _ => false end.

(** [s.bytes().all(p)] and [s.bytes().any(p)]. *)
Fixpoint str_all (p : ascii → bool) (s : string) : bool :=
  match s with EmptyString => true | String a s => p a && str_all p s end.
Fixpoint str_any (p : ascii → bool) (s : string) : bool :=
  match s with EmptyString => false | String a s => p a || str_any p s end.

(** [s.contains(c)] for a [char] and [s.contains(p)] for a [&str]. *)
Definition contains_char (c : ascii) (s : string) : bool := str_any (Ascii.eqb c) s.
Fixpoint contains_str (p s : string) : bool :=
  String.prefix p s || match s with EmptyString => false | String _ s => contains_str p s end.

(** The first byte satisfies [p]; [s.starts_with(p)]. *)
Definition starts_with (p : ascii → bool) (s : string) : bool :=
  match s with EmptyString => false | String a _ => p a end.
(** [s.ends_with(c)]. *)
Fixpoint ends_with_char (c : ascii) (s : string) : bool :=
  match s with
  | EmptyString => false
  | String a EmptyString => Ascii.eqb a c
  | String _ s => ends_with_char c s
  end.

(** [s.split_once(c)]. *)
Fixpoint split_once (c : ascii) (s : string) : option (string * string) :=
  match s with
  | EmptyString => None
  | String a s' =>
      if Ascii.eqb a c then Some (EmptyString, s')
      else match split_once c s' with
           | Some (x, y) => Some (String a x, y)
           | None => None
           end
  end.

(** [s.splitn(n, c)]: at most [n] pieces, the last one unsplit. *)
Fixpoint splitn (n : nat) (c : ascii) (s : string) : list string :=
  match n with
  | 0 => []
  | S n' =>
      match n' with
      | 0 => [s]
      | S _ => match split_once c s with
               | Some (x, y) => x :: splitn n' c y
               | None => [s]
               end
      end
  end.

(** [s.split(c)]: always at least one piece. *)
Fixpoint split (c : ascii) (s : string) : list string :=
  match s with
  | EmptyString => [EmptyString]
  | String a s' =>
      if Ascii.eqb a c then EmptyString :: split c s'
      else match split c s' with
           | x :: l => String a x :: l
           | [] => [String a EmptyString]
           end
  end.

(** [s.strip_prefix(p)] and [s.strip_suffix(p)]. *)
Fixpoint strip_prefix (p s : string) : option string :=
  match p, s with
  | EmptyString, _ => Some s
  | String a p', String b s' => if Ascii.eqb a b then strip_prefix p' s' else None
  | String _ _, EmptyString => None
  end.
Fixpoint strip_suffix (p s : string) : option string :=
  if bool_decide (s = p) then Some EmptyString
  else match s with
       | EmptyString => None
       | String a s' => String a <$> strip_suffix p s'
       end.

(** [s.replace(a, b)] for single characters. *)
Fixpoint replace_char (a b : ascii) (s : string) : string :=
  match s with
  | EmptyString => EmptyString
  | String x s => String (if Ascii.eqb x a then b else x) (replace_char a b s)
  end.

(** [v.join(sep)]. *)
Definition join (sep : string) (l : list string) : string := String.concat sep l.
#[global] Arguments join : simpl never.

(** * Lemmas *)

Create Rewrite HintDb rstr.

Lemma str_app_cons a x y : String a x +:+ y = String a (x +:+ y).
Proof. done. Qed.
Lemma str_one c r : String c EmptyString +:+ r = String c r.
Proof. done. Qed.
Lemma str_app_nil_r x : x +:+ EmptyString = x.
Proof. induction x as [|a x IH]; simpl; congruence. Qed.
Lemma str_app_assoc x y z : (x +:+ y) +:+ z = x +:+ (y +:+ z).
Proof. induction x as [|a x IH]; simpl; congruence. Qed.
Lemma str_app_length x y : String.length (x +:+ y) = String.length x + String.length y.
Proof. induction x as [|a x IH]; simpl; congruence. Qed.
#[export] Hint Rewrite str_app_cons str_app_assoc : rstr.

Lemma str_app_inj_l x y z : x +:+ y = x +:+ z → y = z.
Proof. induction x as [|a x IH]; simpl; [done|intros [= ?]; auto]. Qed.

Lemma is_empty_true s : is_empty s = true ↔ s = EmptyString.
Proof. by destruct s. Qed.
Lemma is_empty_false s : is_empty s = false ↔ s ≠ EmptyString.
Proof. by destruct s. Qed.

Lemma str_all_app p x y : str_all p (x +:+ y) = str_all p x && str_all p y.
Proof. induction x as [|a x IH]; simpl; [done|]. rewrite IH. by destruct (p a). Qed.
Lemma str_any_app p x y : str_any p (x +:+ y) = str_any p x || str_any p y.
Proof. induction x as [|a x IH]; simpl; [done|]. rewrite IH. by destruct (p a). Qed.
Lemma contains_char_app c x y :
  contains_char c (x +:+ y) = contains_char c x || contains_char c y.
Proof. apply str_any_app. Qed.
Lemma contains_char_cons c a x :
  contains_char c (String a x) = Ascii.eqb c a || contains_char c x.
Proof. done. Qed.
#[export] Hint Rewrite str_all_app contains_char_app contains_char_cons : rstr.

Lemma str_all_impl (p q : ascii → bool) s :
  (∀ a, p a = true → q a = true) → str_all p s = true → str_all q s = true.
Proof.
  intros Hpq. induction s as [|a s IH]; simpl; [done|].
  intros [Ha Hs]%andb_true_iff. by rewrite (Hpq a Ha), IH.
Qed.
(** A string all of whose bytes differ from [c] does not contain [c]. *)
Lemma str_all_not_contains (p : ascii → bool) c s :
  p c = false → str_all p s = true → contains_char c s = false.
Proof.
  intros Hc. induction s as [|a s IH]; simpl; [done|].
  intros [Ha Hs]%andb_true_iff. rewrite contains_char_cons, IH by done.
  rewrite orb_false_r. destruct (Ascii.eqb_spec c a); [congruence|done].
Qed.

Lemma split_once_Some c s x y :
  split_once c s = Some (x, y) ↔ s = x +:+ String c y ∧ contains_char c x = false.
Proof.
  revert x y. induction s as [|a s IH]; intros x y; simpl.
  { split; [done|]. intros [Heq _]. by destruct x. }
  destruct (Ascii.eqb_spec a c) as [->|Hne].
  - split; [intros [= <- <-]; done|]. intros [Heq Hx].
    destruct x as [|b x]; [by simplify_eq/=|]. injection Heq as -> _.
    rewrite contains_char_cons, Ascii.eqb_refl in Hx. done.
  - split.
    + destruct (split_once c s) as [[x' y']|] eqn:Hs; [|done]. intros [= <- <-].
      destruct (proj1 (IH x' y') eq_refl) as [-> Hx]. split; [done|].
      rewrite contains_char_cons, Hx, orb_false_r. apply Ascii.eqb_neq. congruence.
    + intros [Heq Hx]. destruct x as [|b x]; [by simplify_eq/=|].
      injection Heq as -> ->. rewrite contains_char_cons in Hx.
      apply orb_false_iff in Hx as [_ Hx].
      by rewrite (proj2 (IH x y) (conj eq_refl Hx)).
Qed.

Lemma split_once_None c s : split_once c s = None ↔ contains_char c s = false.
Proof.
  induction s as [|a s IH]; simpl; [done|].
  rewrite contains_char_cons. destruct (Ascii.eqb_spec a c) as [->|Hne].
  { by rewrite Ascii.eqb_refl. }
  assert (Ascii.eqb c a = false) as -> by (apply Ascii.eqb_neq; congruence). simpl.
  rewrite <-IH. by destruct (split_once c s) as [[??]|].
Qed.

Lemma split_once_app c x y :
  contains_char c x = false → split_once c (x +:+ String c y) = Some (x, y).
Proof. intros. by apply split_once_Some. Qed.

(** A separator that occurs in neither left part separates uniquely. *)
Lemma sep_inj c x y x' y' :
  contains_char c x = false → contains_char c x' = false →
  x +:+ String c y = x' +:+ String c y' → x = x' ∧ y = y'.
Proof.
  intros Hx Hx' Heq. apply (split_once_app c x y) in Hx. rewrite Heq in Hx.
  apply (split_once_app c x' y') in Hx'. rewrite Hx in Hx'. by simplify_eq.
Qed.

Lemma splitn_S n c s :
  splitn (S (S n)) c s =
  match split_once c s with Some (x, y) => x :: splitn (S n) c y | None => [s] end.
Proof. done. Qed.
Lemma splitn_1 c s : splitn 1 c s = [s].
Proof. done. Qed.
Lemma splitn_app n c x y :
  contains_char c x = false → splitn (S (S n)) c (x +:+ String c y) = x :: splitn (S n) c y.
Proof. intros. by rewrite splitn_S, split_once_app. Qed.
Lemma splitn_none n c s : contains_char c s = false → splitn (S n) c s = [s].
Proof. intros Hs. destruct n; [done|]. by rewrite splitn_S, (proj2 (split_once_None c s)). Qed.

(** The pieces of [splitn] rebuild the string; all but the last are free of
    the separator. *)
Lemma splitn_cons_inv n c s x l :
  splitn (S (S n)) c s = x :: l → l ≠ [] →
  ∃ y, s = x +:+ String c y ∧ contains_char c x = false ∧ l = splitn (S n) c y.
Proof.
  rewrite splitn_S. destruct (split_once c s) as [[x' y']|] eqn:Hs.
  - apply split_once_Some in Hs as [-> Hx]. intros [= <- <-] _. eauto.
  - by intros [= <- <-].
Qed.

Lemma split_nonempty c s : split c s ≠ [].
Proof. destruct s as [|a s]; simpl; [done|]. by destruct (Ascii.eqb a c), (split c s). Qed.

Lemma join_cons sep x l : l ≠ [] → join sep (x :: l) = x +:+ sep +:+ join sep l.
Proof. by destruct l. Qed.
Lemma join_singleton sep x : join sep [x] = x.
Proof. done. Qed.

Lemma split_app c x y :
  contains_char c x = false → split c (x +:+ String c y) = x :: split c y.
Proof.
  induction x as [|a x IH]; simpl; [by rewrite Ascii.eqb_refl|].
  rewrite contains_char_cons, orb_false_iff. intros [Ha Hx].
  destruct (Ascii.eqb_spec a c) as [->|Hne]; [by rewrite Ascii.eqb_refl in Ha|].
  by rewrite IH.
Qed.
Lemma split_none c s : contains_char c s = false → split c s = [s].
Proof.
  induction s as [|a s IH]; simpl; [done|].
  rewrite contains_char_cons, orb_false_iff. intros [Ha Hs].
  destruct (Ascii.eqb_spec a c) as [->|Hne]; [by rewrite Ascii.eqb_refl in Ha|].
  by rewrite IH.
Qed.

(** [split] inverts [join]: pieces free of the separator come back. *)
Lemma split_join c l :
  l ≠ [] → Forall (λ x, contains_char c x = false) l →
  split c (join (String c EmptyString) l) = l.
Proof.
  intros Hl Hall. induction Hall as [|x l Hx Hall IH]; [done|].
  destruct l as [|y l]; [by apply split_none|].
  rewrite join_cons by done. rewrite <-(IH ltac:(done)) at 2.
  by apply split_app.
Qed.
(** ... and [join] inverts [split]. *)
Lemma join_split c s : join (String c EmptyString) (split c s) = s.
Proof.
  induction s as [|a s IH]; simpl; [done|].
  pose proof (split_nonempty c s) as Hne.
  destruct (Ascii.eqb_spec a c) as [->|].
  { rewrite join_cons, IH by done. done. }
  destruct (split c s) as [|x l]; [done|].
  destruct l as [|y l]; [by simplify_eq/=|]. rewrite join_cons in IH |- * by done.
  simpl in *. congruence.
Qed.
Lemma split_pieces c s : Forall (λ x, contains_char c x = false) (split c s).
Proof.
  induction s as [|a s IH]; simpl; [by repeat constructor|].
  destruct (Ascii.eqb_spec a c) as [->|Hne]; [by constructor|].
  destruct IH as [|x l Hx Hl]; repeat constructor; [| |done];
    rewrite contains_char_cons, orb_false_iff; (split; [apply Ascii.eqb_neq; congruence|done]).
Qed.

Lemma strip_prefix_Some p s r : strip_prefix p s = Some r ↔ s = p +:+ r.
Proof.
  revert s. induction p as [|a p IH]; intros s; simpl; [naive_solver|].
  destruct s as [|b s]; [done|]. destruct (Ascii.eqb_spec a b) as [->|].
  - rewrite IH. naive_solver.
  - naive_solver.
Qed.
Lemma strip_suffix_Some p s r : strip_suffix p s = Some r ↔ s = r +:+ p.
Proof.
  revert r. induction s as [|a s IH]; intros r; simpl.
  - case_bool_decide; [subst; split; [by intros [= <-]|]|].
    + destruct r; naive_solver.
    + split; [done|]. destruct r; naive_solver.
  - case_bool_decide as Hp; [subst p; split; [by intros [= <-]|]|].
    + destruct r as [|b r]; [done|]. intros Heq.
      apply (f_equal String.length) in Heq. rewrite str_app_length in Heq. simpl in Heq. lia.
    + rewrite fmap_Some. setoid_rewrite IH. split; [naive_solver|].
      destruct r as [|b r]; simpl; [congruence|]. naive_solver.
Qed.

Lemma replace_char_app a b x y :
  replace_char a b (x +:+ y) = replace_char a b x +:+ replace_char a b y.
Proof. induction x as [|c x IH]; simpl; congruence. Qed.
Lemma replace_char_inj a b x y :
  contains_char b x = false → contains_char b y = false →
  replace_char a b x = replace_char a b y → x = y.
Proof.
  revert y. induction x as [|c x IH]; intros [|d y]; [done..|].
  rewrite !contains_char_cons, !orb_false_iff, !Ascii.eqb_neq. simpl.
  intros [? ?] [? ?] [= Hcd Hxy]. f_equal; [|by apply IH].
  revert Hcd. destruct (Ascii.eqb_spec c a), (Ascii.eqb_spec d a); congruence.
Qed.
Lemma str_all_replace_char (p : ascii → bool) a b s :
  p b = true → str_all (λ c, p c || Ascii.eqb c a) s = true →
  str_all p (replace_char a b s) = true.
Proof.
  intros Hb. induction s as [|c s IH]; simpl; [done|].
  intros [Hc Hs]%andb_true_iff. rewrite IH, andb_true_r by done.
  destruct (Ascii.eqb_spec c a); [done|]. by rewrite orb_false_r in Hc.
Qed.

Lemma contains_str_cons p a s :
  contains_str p (String a s) = false → contains_str p s = false.
Proof. simpl. by intros [? ?]%orb_false_iff. Qed.

Definition dd (c : ascii) : string := String c (String c EmptyString).

(** A doubled separator separates uniquely words that neither contain it nor
    end with its character. *)
Lemma dsep_inj c x y x' y' :
  contains_str (dd c) x = false → contains_str (dd c) x' = false →
  ends_with_char c x = false → ends_with_char c x' = false →
  x +:+ dd c +:+ y = x' +:+ dd c +:+ y' → x = x' ∧ y = y'.
Proof.
  assert (∀ w z z', contains_str (dd c) w = false → ends_with_char c w = false →
            dd c +:+ z = w +:+ dd c +:+ z' → w = EmptyString) as Haux.
  { intros [|a w] z z' Hw He Heq; [done|exfalso]. simpl in Heq. injection Heq as <- Heq.
    destruct w as [|b w]; simpl in *; [by rewrite Ascii.eqb_refl in He|].
    injection Heq as <- _. unfold dd in Hw. simpl in Hw.
    revert Hw. destruct (ascii_dec c c); [by destruct w|done]. }
  revert x'. induction x as [|a x IH]; intros x' Hx Hx' He He' Heq.
  { assert (x' = EmptyString) as -> by (by eapply Haux). by simplify_eq/=. }
  destruct x' as [|b x'].
  { symmetry in Heq. by apply Haux in Heq. }
  injection Heq as -> Heq.
  destruct (IH x') as [-> ->]; [by eapply contains_str_cons..| | |done|done].
  - by destruct x.
  - by destruct x'.
Qed.
