(* ===== verification/Decimal.v ===== *)
(** Decimal strings: [u64]'s [FromStr], zero padding, and the facts about
    printed numbers that the sort keys and header values rely on. *)

From S2P Require Import Prelude RustStr.
From stdpp Require Import pretty.

(** * Decimal strings *)

(** [u64]'s [FromStr]: an optional plus sign and digits, without overflow. *)
Fixpoint dec_value (acc : N) (s : string) : option N :=
  match s with
  | EmptyString => Some acc
  | String c s =>
      if is_ascii_digit c then dec_value (10 * acc + (byte_val c - 48)) s else None
  end.
Definition parse_u64 (s : string) : option N :=
  let digits := match s with String "+" rest => rest | _ => s end in
  if is_empty digits then None
  else n ← dec_value 0 digits; if bool_decide (n < 2 ^ 64)%N then Some n else None.
(** [{:0w$}]. *)
Fixpoint zeros (n : nat) : string :=
  match n with 0 => "" | S n => String "0" (zeros n) end.
Definition zero_pad (width : nat) (s : string) : string := zeros (width - String.length s) +:+ s.

(** * Facts *)
Module DecimalFacts.
Lemma digit_char (d : N) : (d < 10)%N →
  is_ascii_digit (pretty_N_char d) = true ∧ byte_val (pretty_N_char d) = (d + 48)%N.
Proof.
  intros Hd.
  assert (d = 0 ∨ d = 1 ∨ d = 2 ∨ d = 3 ∨ d = 4 ∨ d = 5 ∨ d = 6 ∨ d = 7 ∨ d = 8 ∨ d = 9)%N
    as Hc by lia.
  by destruct_or! Hc; subst d.
Qed.

Lemma dec_value_pretty_go n s :
  dec_value 0 (pretty_N_go n s) = dec_value n s.
Proof.
  revert s. induction (N.lt_wf_0 n) as [n _ IH]. intros s.
  destruct (decide (n = 0%N)) as [->|Hn]; [by rewrite pretty_N_go_0|].
  rewrite pretty_N_go_step by lia.
  rewrite IH by (apply N.div_lt; lia). simpl.
  destruct (digit_char (n mod 10)) as [-> ->]; [by apply N.mod_lt|].
  f_equal. rewrite N.add_sub. pose proof (N.div_mod n 10). lia.
Qed.
Lemma dec_value_pretty (n : N) : dec_value 0 (pretty n) = Some n.
Proof.
  unfold pretty, pretty_N. case_decide as Hn; [by rewrite Hn|].
  by rewrite (dec_value_pretty_go n "").
Qed.
Lemma dec_value_zeros k s : dec_value 0 (zeros k +:+ s) = dec_value 0 s.
Proof. induction k; simpl; done. Qed.

Lemma pretty_go_length n s k :
  (n < 10 ^ N.of_nat k)%N → String.length (pretty_N_go n s) ≤ k + String.length s.
Proof.
  revert n s. induction k as [|k IH]; intros n s Hn.
  - assert (n = 0%N) as -> by (simpl in Hn; lia). by rewrite pretty_N_go_0.
  - destruct (decide (n = 0%N)) as [->|H0]; [rewrite pretty_N_go_0; lia|].
    rewrite pretty_N_go_step by lia. etrans; [apply IH|simpl; lia].
    apply N.Div0.div_lt_upper_bound.
    replace (N.of_nat (S k)) with (N.succ (N.of_nat k)) in Hn by lia.
    by rewrite N.pow_succ_r' in Hn.
Qed.
Lemma pretty_length (n : N) k :
  0 < k → (n < 10 ^ N.of_nat k)%N → String.length (pretty n) ≤ k.
Proof.
  intros Hk Hn. unfold pretty, pretty_N. case_decide; [simpl; lia|].
  etrans; [by apply pretty_go_length|]. simpl. lia.
Qed.
Lemma pretty_digits (n : N) : str_all is_ascii_digit (pretty n) = true.
Proof.
  unfold pretty, pretty_N. case_decide as H0; [done|]. clear H0.
  assert (∀ s, str_all is_ascii_digit s = true →
            str_all is_ascii_digit (pretty_N_go n s) = true) as Hgo; [|by apply Hgo].
  induction (N.lt_wf_0 n) as [m _ IH]. intros s Hs.
  destruct (decide (m = 0%N)) as [->|Hm]; [by rewrite pretty_N_go_0|].
  rewrite pretty_N_go_step by lia. apply IH; [apply N.div_lt; lia|]. simpl.
  destruct (digit_char (m mod 10)) as [-> _]; [by apply N.mod_lt|done].
Qed.
Lemma pretty_nonempty (n : N) : is_empty (pretty n) = false.
Proof.
  pose proof (dec_value_pretty n) as H. destruct (pretty n) eqn:E; [|done].
  injection H as <-. discriminate E.
Qed.
Lemma parse_u64_pretty (n : N) : (n < 2 ^ 64)%N → parse_u64 (pretty n) = Some n.
Proof.
  intros Hn. unfold parse_u64.
  assert (match pretty n with String "+" rest => rest | _ => pretty n end = pretty n) as ->.
  { pose proof (pretty_digits n) as H. destruct (pretty n) as [|c s]; [done|].
    simpl in H. apply andb_true_iff in H as [H _].
    destruct c as [[] [] [] [] [] [] [] []]; done. }
  rewrite pretty_nonempty, dec_value_pretty. simpl. by rewrite bool_decide_eq_true_2.
Qed.

(** Digit strings of one length compare as the numbers they spell. *)
Lemma digits_lt s t a b x y :
  String.length s = String.length t → dec_value a s = Some x → dec_value b t = Some y →
  (a < b)%N → (x < y)%N.
Proof.
  revert t a b. induction s as [|c s IH]; intros [|d t] a b Hl Hx Hy Hab; simplify_eq/=; [done|].
  destruct (is_ascii_digit c) eqn:Hc; [|done]. destruct (is_ascii_digit d) eqn:Hd; [|done].
  eapply (IH t); [done|exact Hx|exact Hy|]. unfold is_ascii_digit in *.
  apply andb_true_iff in Hc as [?%N.leb_le ?%N.leb_le], Hd as [?%N.leb_le ?%N.leb_le]. lia.
Qed.
Lemma digits_compare s t a x y :
  String.length s = String.length t → dec_value a s = Some x → dec_value a t = Some y →
  String.compare s t = N.compare x y.
Proof.
  revert t a. induction s as [|c s IH]; intros [|d t] a Hl Hx Hy; simplify_eq/=.
  { by rewrite N.compare_refl. }
  destruct (is_ascii_digit c) eqn:Hc; [|done]. destruct (is_ascii_digit d) eqn:Hd; [|done].
  assert (48 ≤ byte_val c ∧ 48 ≤ byte_val d)%N as [Hc' Hd'].
  { unfold is_ascii_digit in *.
    by apply andb_true_iff in Hc as [?%N.leb_le _], Hd as [?%N.leb_le _]. }
  unfold Ascii.compare. fold (byte_val c) (byte_val d).
  destruct (N.compare_spec (byte_val c) (byte_val d)) as [He|Hlt|Hgt].
  - rewrite He in Hx. by eapply IH.
  - symmetry. apply N.compare_lt_iff. by eapply (digits_lt s t); [done|exact Hx|exact Hy|lia].
  - symmetry. apply N.compare_gt_iff. by eapply (digits_lt t s); [done|exact Hy|exact Hx|lia].
Qed.
Lemma zero_pad_length w s : String.length s ≤ w → String.length (zero_pad w s) = w.
Proof.
  intros Hs. unfold zero_pad. remember (w - String.length s) as k eqn:Hk.
  assert (k + String.length s = w) as <- by lia. clear.
  induction k; simpl; [done|]. by f_equal.
Qed.
Lemma append_compare p s t : String.compare (p +:+ s) (p +:+ t) = String.compare s t.
Proof.
  induction p as [|c p IH]; [done|]. simpl. unfold Ascii.compare. by rewrite N.compare_refl.
Qed.
Lemma string_append_inj p s t : p +:+ s = p +:+ t → s = t.
Proof. induction p as [|c p IH]; simpl; [done|]. intros [= H]. by apply IH. Qed.
End DecimalFacts.
