(* ===== verification/Ident.v ===== *)
(** Validated identifiers of [crates/core]: the error type ([error.rs]),
    [Segment] and the typed ids generated by [define_id!] ([segment.rs]),
    [NativeId] ([native_id.rs]), [Verb] ([verb.rs]) and the Cedar identifier
    newtypes that depend on segments alone ([cedar_ident.rs]).

    Each newtype is a record with one field; [wf] says that the value is one
    its validating constructor returns, which in Rust is the only way to hold
    one. *)

From stdpp Require Import pretty.
From S2P Require Import Prelude RustStr.

(** * Errors of forgeguard_core *)
Module Error.
Inductive t : Type :=
| Parse (field value reason : string)
| Config (msg : string)
| InvalidFlagType (name : string)
| InvalidPercentage (value : N)
| InvalidConfigVersion (raw : string)
| Spine (fgrn reason : string)
| Grant (fgrn reason : string).

#[global] Instance t_eq_dec : EqDecision t.
Proof. solve_decision. Defined.
End Error.
(** [Display]. *)
Definition core_error_str (e : Error.t) : string :=
  match e with
  | Error.Parse field value reason =>
      "invalid " +:+ field +:+ ": '" +:+ value +:+ "' — " +:+ reason
  | Error.Config m => "configuration error: " +:+ m
  | Error.InvalidFlagType m => "unknown feature flag type: " +:+ m
  | Error.InvalidPercentage v =>
      "invalid percentage: " +:+ pretty v +:+ " (expected 0..=100)"
  | Error.InvalidConfigVersion raw =>
      "invalid config version: " +:+ raw +:+ " (expected YYYY-MM-DD)"
  | Error.Spine f r => "spine violation: " +:+ r +:+ ": " +:+ f
  | Error.Grant f r => "grant violation: " +:+ r +:+ ": " +:+ f
  end.

(** * Cedar identifiers *)
Module CedarIdent.
Record t := mk { as_str : string }.

Definition new (s : string) : result Error.t t :=
  if is_empty s then Err (Error.Parse "cedar_ident" s "cannot be empty")
  else if negb (starts_with (Ascii.eqb "_") s) && negb (starts_with is_ascii_alphabetic s)
  then Err (Error.Parse "cedar_ident" s "must start with an underscore or ASCII letter")
  else if negb (str_all (λ b, Ascii.eqb b "_" || is_ascii_alphanumeric b) s)
  then Err (Error.Parse "cedar_ident" s
              "must contain only underscores, ASCII letters, and digits")
  else Ok (mk s).

(** The constructor that does not validate. *)
Definition from_valid (s : string) : t := mk s.
End CedarIdent.

(** * Segments *)
Module Segment.
Record t := mk { as_str : string }.

#[global] Instance t_eq_dec : EqDecision t.
Proof. solve_decision. Defined.
#[global] Program Instance t_countable : Countable t := inj_countable' as_str mk _.
Next Obligation. by intros []. Qed.

(** The bytes a segment is made of. *)
Definition seg_byte (b : ascii) : bool :=
  is_ascii_lowercase b || is_ascii_digit b || Ascii.eqb b "-".

Definition try_new (s : string) : result Error.t t :=
  if is_empty s then Err (Error.Parse "segment" s "cannot be empty")
  else if negb (starts_with is_ascii_lowercase s) && negb (starts_with is_ascii_digit s)
  then Err (Error.Parse "segment" s "must start with a lowercase letter or digit")
  else if ends_with_char "-" s
  then Err (Error.Parse "segment" s "must not end with a hyphen")
  else if contains_str "--" s
  then Err (Error.Parse "segment" s "consecutive hyphens are not allowed")
  else if negb (str_all seg_byte s)
  then Err (Error.Parse "segment" s
              "must contain only lowercase letters, digits, and hyphens")
  else Ok (mk s).

Definition to_cedar_ident (x : t) : CedarIdent.t :=
  CedarIdent.from_valid (replace_char "-" "_" (as_str x)).

(** The [Ord] derived on the newtype is byte-wise string order. *)
Definition le (x y : t) : Prop := String.le (as_str x) (as_str y).

Definition wf (x : t) : Prop := try_new (as_str x) = Ok x.

(** A word of a segment: a non-empty run of lowercase letters and digits. *)
Definition word (w : string) : Prop :=
  w ≠ EmptyString ∧ str_all (λ b, is_ascii_lowercase b || is_ascii_digit b) w = true.

(** The grammar of segments: words separated by single hyphens. *)
Definition grammar (s : string) : Prop :=
  ∃ ws, ws ≠ [] ∧ Forall word ws ∧ s = join "-" ws.
End Segment.

(** * Typed ids: [define_id!] applied six times *)
Inductive id_kind := UserIdK | TenantIdK | ProjectIdK | GroupNameK | PolicyNameK | OrganizationIdK.

Module Id.
Record t (k : id_kind) := mk { as_segment : Segment.t }.
Arguments mk {k} _.
Arguments as_segment {k} _.

#[global] Instance t_eq_dec k : EqDecision (t k).
Proof. solve_decision. Defined.
#[global] Program Instance t_countable k : Countable (t k) := inj_countable' as_segment mk _.
Next Obligation. by intros ? []. Qed.

Definition new {k} (raw : string) : result Error.t (t k) := mk <$> Segment.try_new raw.
Definition as_str {k} (x : t k) : string := Segment.as_str (as_segment x).
Definition wf {k} (x : t k) : Prop := Segment.wf (as_segment x).

(** [impl From<OrganizationId> for TenantId]. *)
Definition tenant_of_org (org : t OrganizationIdK) : t TenantIdK := mk (as_segment org).
End Id.

Abbreviation UserId := (Id.t UserIdK).
Abbreviation TenantId := (Id.t TenantIdK).
Abbreviation ProjectId := (Id.t ProjectIdK).
Abbreviation GroupName := (Id.t GroupNameK).
Abbreviation PolicyName := (Id.t PolicyNameK).
Abbreviation OrganizationId := (Id.t OrganizationIdK).

(** * Application-native identifiers *)
Module NativeId.
Record t := mk { as_str : string }.

#[global] Instance t_eq_dec : EqDecision t.
Proof. solve_decision. Defined.
#[global] Program Instance t_countable : Countable t := inj_countable' as_str mk _.
Next Obligation. by intros []. Qed.

Definition try_new (s : string) : result Error.t t :=
  if is_empty s then Err (Error.Parse "native_id" s "cannot be empty")
  else if negb (str_all is_ascii_graphic s)
  then Err (Error.Parse "native_id" s "must be visible ASCII only")
  else if contains_char ":" s
  then Err (Error.Parse "native_id" s "must not contain ':'")
  else if contains_char "*" s
  then Err (Error.Parse "native_id" s "must not contain '*'")
  else Ok (mk s).

Definition le (x y : t) : Prop := String.le (as_str x) (as_str y).
Definition wf (x : t) : Prop := try_new (as_str x) = Ok x.
End NativeId.

(** * Grant action words *)
Module Verb.
Record t := mk { as_str : string }.

#[global] Instance t_eq_dec : EqDecision t.
Proof. solve_decision. Defined.
#[global] Program Instance t_countable : Countable t := inj_countable' as_str mk _.
Next Obligation. by intros []. Qed.

Definition try_new (s : string) : result Error.t t :=
  if is_empty s then Err (Error.Parse "verb" s "must not be empty")
  else if bool_decide (64 < String.length s)
  then Err (Error.Parse "verb" s "must be at most 64 characters")
  else if negb (starts_with is_ascii_lowercase s)
  then Err (Error.Parse "verb" s "must start with a lowercase letter")
  else if negb (str_all (λ c, is_ascii_lowercase c || is_ascii_digit c || Ascii.eqb c "-") s)
  then Err (Error.Parse "verb" s
              "must contain only lowercase letters, digits, and hyphens")
  else Ok (mk s).

Definition le (x y : t) : Prop := String.le (as_str x) (as_str y).
Definition wf (x : t) : Prop := try_new (as_str x) = Ok x.
End Verb.

(** * Cedar entity types and namespaces *)
Module CedarEntityType.
Record t := mk { as_str : string }.

Definition new_from_segments (namespace entity : Segment.t) : t :=
  let ns_ident := Segment.to_cedar_ident namespace in
  let entity_ident := Segment.to_cedar_ident entity in
  mk (CedarIdent.as_str ns_ident +:+ "__" +:+ CedarIdent.as_str entity_ident).

Definition user : t := mk "User".
Definition group : t := mk "Group".
End CedarEntityType.

Module CedarNamespace.
Record t := mk { as_ident : CedarIdent.t }.
Definition from_project (project : ProjectId) : t :=
  mk (Segment.to_cedar_ident (Id.as_segment project)).
Definition as_str (x : t) : string := CedarIdent.as_str (as_ident x).
End CedarNamespace.

(** * Lemmas: bytes *)

(** Decides a statement about all bytes by evaluation. *)
Ltac all_bytes :=
  let a := fresh "a" in
  intros a; destruct a as [[][][][][][][][]]; vm_compute; try done; try congruence.

Lemma seg_byte_graphic b : Segment.seg_byte b = true → is_ascii_graphic b = true.
Proof. revert b. all_bytes. Qed.

Lemma segment_try_new_returns s : returns (Segment.try_new s).
Proof. unfold Segment.try_new. solve_returns. Qed.
Lemma native_id_try_new_returns s : returns (NativeId.try_new s).
Proof. unfold NativeId.try_new. solve_returns. Qed.
Lemma verb_try_new_returns s : returns (Verb.try_new s).
Proof. unfold Verb.try_new. solve_returns. Qed.
#[export] Hint Resolve segment_try_new_returns native_id_try_new_returns verb_try_new_returns
  : returns.

(** * Lemmas: segments *)
Module SegmentFacts.
Import Segment.

Lemma segment_try_new_Ok s x :
  try_new s = Ok x ↔
  x = mk s ∧
  (starts_with is_ascii_lowercase s = true ∨ starts_with is_ascii_digit s = true) ∧
  ends_with_char "-" s = false ∧ contains_str "--" s = false ∧ str_all seg_byte s = true.
Proof.
  unfold try_new. destruct s as [|a s]; [naive_solver|]. cbn [is_empty].
  destruct (starts_with is_ascii_lowercase _), (starts_with is_ascii_digit _),
    (ends_with_char _ _), (contains_str _ _), (str_all _ _); naive_solver.
Qed.

Lemma segment_try_new_wf s x : try_new s = Ok x → wf x.
Proof. intros H. pose proof H as (-> & _)%segment_try_new_Ok. exact H. Qed.
Lemma segment_try_new_as_str s x : try_new s = Ok x → as_str x = s.
Proof. by intros (-> & _)%segment_try_new_Ok. Qed.

Lemma segment_as_str_inj x y : as_str x = as_str y → x = y.
Proof. destruct x, y; simpl; congruence. Qed.

Lemma wf_bytes x : wf x → str_all seg_byte (as_str x) = true.
Proof. by intros (_ & _ & _ & _ & ?)%segment_try_new_Ok. Qed.
Lemma wf_no_dd x : wf x → contains_str (dd "-") (as_str x) = false.
Proof. by intros (_ & _ & _ & ? & _)%segment_try_new_Ok. Qed.
Lemma wf_no_end x : wf x → ends_with_char "-" (as_str x) = false.
Proof. by intros (_ & _ & ? & _)%segment_try_new_Ok. Qed.
Lemma wf_nonempty x : wf x → as_str x ≠ EmptyString.
Proof. intros (_ & [H|H] & _)%segment_try_new_Ok Heq; by rewrite Heq in H. Qed.

(** A byte outside the segment alphabet does not occur in a segment. *)
Lemma wf_no_byte c x : seg_byte c = false → wf x → contains_char c (as_str x) = false.
Proof. intros Hc Hx%wf_bytes. by eapply str_all_not_contains. Qed.

Lemma wf_no_hyphen_start x : wf x → starts_with (Ascii.eqb "-") (as_str x) = false.
Proof.
  intros (_ & Hs & _)%segment_try_new_Ok. destruct (as_str x) as [|a s]; [done|]. simpl in *.
  destruct (Ascii.eqb_spec "-" a) as [<-|]; [|done]. by destruct Hs.
Qed.

Lemma split_no_dd s :
  contains_str "--" s = false → ends_with_char "-" s = false → s ≠ EmptyString →
  ∃ x l, split "-" s = x :: l ∧ (starts_with (Ascii.eqb "-") s = false → x ≠ EmptyString) ∧
    Forall (.≠ EmptyString) l.
Proof.
  induction s as [|a s IH]; [done|]. intros Hd He _. cbn [split].
  destruct (decide (s = EmptyString)) as [->|Hs].
  { simpl in He. rewrite He. by exists (String a EmptyString), []. }
  assert (ends_with_char "-" s = false) as He' by (by destruct s).
  destruct (IH (contains_str_cons _ _ _ Hd) He' Hs) as (x & l & Hx & Hstart & Hl).
  rewrite Hx. destruct (Ascii.eqb_spec a "-") as [->|Hne].
  - exists EmptyString, (x :: l). split; [done|]. split; [done|]. constructor; [|done].
    apply Hstart. destruct s as [|b s]; [done|]. simpl in *.
    apply orb_false_iff in Hd as [Hd _]. destruct (Ascii.eqb_spec "-" b) as [<-|]; [|done].
    by destruct s.
  - by exists (String a x), l.
Qed.

Lemma join_all_pieces (p : ascii → bool) c ws :
  str_all p (join (String c EmptyString) ws) = true →
  Forall (λ w, str_all p w = true) ws.
Proof.
  induction ws as [|w ws IH]; [constructor|]. destruct ws as [|w' ws].
  - intros H. by repeat constructor.
  - rewrite join_cons by done. rewrite !str_all_app. intros H. bool_prop.
    constructor; auto.
Qed.

Lemma words_of_segment s x : try_new s = Ok x → Forall word (split "-" s).
Proof.
  intros (-> & Hs & He & Hd & Ha)%segment_try_new_Ok.
  assert (s ≠ EmptyString) as Hne by (intros ->; naive_solver).
  destruct (split_no_dd s Hd He Hne) as (w & ws & Hsp & Hw & Hws).
  assert (Forall (.≠ EmptyString) (split "-" s)) as Hall.
  { rewrite Hsp. constructor; [|done]. apply Hw. destruct s as [|a s]; [done|]. simpl in *.
    destruct (Ascii.eqb_spec "-" a) as [<-|]; [|done]. by destruct Hs. }
  rewrite <-(join_split "-" s) in Ha. apply join_all_pieces in Ha.
  pose proof (split_pieces "-" s) as Hp.
  apply Forall_forall. intros v Hv. rewrite Forall_forall in Hall, Ha, Hp.
  split; [by apply Hall|]. specialize (Ha v Hv). specialize (Hp v Hv). clear -Ha Hp.
  induction v as [|a v IH]; [done|]. rewrite contains_char_cons in Hp. simpl in *. bool_prop.
  rewrite IH, andb_true_r by done. unfold seg_byte in *.
  destruct (Ascii.eqb_spec a "-") as [->|]; [done|]. by rewrite orb_false_r in *.
Qed.

(** Prepending a word does not create a double hyphen or a final hyphen. *)
Lemma word_app_no_dd w r :
  str_all (λ b, is_ascii_lowercase b || is_ascii_digit b) w = true →
  contains_str "--" (w +:+ r) = contains_str "--" r.
Proof.
  induction w as [|a w IH]; [done|]. intros Ha. simpl in Ha. bool_prop.
  cbn [String.append contains_str]. rewrite IH by done.
  cbn [String.prefix]. destruct (ascii_dec "-" a) as [<-|]; done.
Qed.
Lemma word_app_end w r :
  r ≠ EmptyString → ends_with_char "-" (w +:+ r) = ends_with_char "-" r.
Proof.
  intros Hr. induction w as [|a w IH]; [done|]. rewrite str_app_cons. simpl. rewrite <-IH.
  by destruct w, r.
Qed.
Lemma word_end w :
  str_all (λ b, is_ascii_lowercase b || is_ascii_digit b) w = true →
  ends_with_char "-" w = false.
Proof.
  induction w as [|a w IH]; [done|]. simpl. intros H. bool_prop. destruct w; [|auto].
  destruct (Ascii.eqb_spec a "-") as [->|]; done.
Qed.
Lemma word_start w r :
  word w →
  starts_with is_ascii_lowercase (w +:+ r) || starts_with is_ascii_digit (w +:+ r) = true.
Proof. intros [Hne Hw]. destruct w as [|a w]; [done|]. simpl in *. by bool_prop. Qed.

Lemma hyphen_app_dd r :
  contains_str "--" ("-" +:+ r) = starts_with (Ascii.eqb "-") r || contains_str "--" r.
Proof.
  simpl. destruct r as [|a r]; [done|]. f_equal. cbn [String.prefix starts_with].
  destruct (ascii_dec "-" a) as [<-|Hne]; [by destruct r|].
  symmetry. by apply Ascii.eqb_neq.
Qed.

Lemma join_words ws :
  ws ≠ [] → Forall word ws →
  contains_str "--" (join "-" ws) = false ∧ ends_with_char "-" (join "-" ws) = false ∧
  str_all seg_byte (join "-" ws) = true ∧ join "-" ws ≠ EmptyString ∧
  starts_with (Ascii.eqb "-") (join "-" ws) = false.
Proof.
  intros Hne Hall. induction Hall as [|w ws Hw Hall IH]; [done|].
  assert (str_all seg_byte w = true) as Hsb.
  { eapply str_all_impl, Hw. intros a Ha. unfold seg_byte. by rewrite Ha. }
  assert (∀ r, starts_with (Ascii.eqb "-") (w +:+ r) = false) as Hst.
  { intros r. destruct Hw as [Hw0 Hw]. destruct w as [|a w]; [done|]. simpl in *. bool_prop.
    destruct (Ascii.eqb_spec "-" a) as [<-|]; done. }
  destruct ws as [|w' ws].
  - rewrite join_singleton. rewrite <-(str_app_nil_r w) at 1.
    rewrite word_app_no_dd by apply Hw. rewrite word_end by apply Hw.
    split_and!; [done..|apply Hw|]. rewrite <-(str_app_nil_r w). apply Hst.
  - destruct IH as (Hd & He & Ha & Hn & Hs0); [done|]. rewrite join_cons by done.
    rewrite word_app_no_dd by apply Hw. rewrite word_app_end by done.
    rewrite !str_all_app, Hsb, Ha. split_and!; [|..|done| |apply Hst].
    + by rewrite hyphen_app_dd, Hd, Hs0.
    + by rewrite (word_app_end "-").
    + by destruct w.
Qed.
End SegmentFacts.

(** Typed ids are their text. *)
Lemma id_as_str_inj {k} (x y : Id.t k) : Id.as_str x = Id.as_str y → x = y.
Proof. destruct x, y. unfold Id.as_str. simpl. by intros ->%SegmentFacts.segment_as_str_inj. Qed.
#[global] Instance id_as_str_Inj {k} : Inj (=) (=) (@Id.as_str k).
Proof. intros x y. apply id_as_str_inj. Qed.
Lemma id_new_Ok {k} raw (x : Id.t k) : Id.new raw = Ok x ↔ Id.as_str x = raw ∧ Id.wf x.
Proof.
  unfold Id.new, Id.wf, Segment.wf, Id.as_str. rewrite fmap_Ok. split.
  - intros (seg & Hs & ->). simpl. pose proof (SegmentFacts.segment_try_new_as_str _ _ Hs) as <-.
    split; [done|]. by apply SegmentFacts.segment_try_new_wf in Hs.
  - intros [<- Hwf]. exists (Id.as_segment x). split; [done|]. by destruct x.
Qed.
Lemma id_new_returns {k} s : returns (Id.new (k := k) s).
Proof. unfold Id.new. solve_returns. Qed.

(** the validating constructor accepts exactly the grammar. *)
Theorem segment_try_new_grammar s :
  is_ok (Segment.try_new s) = true ↔ Segment.grammar s.
Proof.
  rewrite is_ok_true. split.
  - intros [x Hx]. exists (split "-" s). split; [apply split_nonempty|].
    split; [by eapply SegmentFacts.words_of_segment|symmetry; apply join_split].
  - intros (ws & Hne & Hall & ->). exists (Segment.mk (join "-" ws)).
    apply SegmentFacts.segment_try_new_Ok.
    destruct (SegmentFacts.join_words ws Hne Hall) as (? & ? & ? & ? & ?).
    split_and!; try done. apply orb_true_iff.
    destruct Hall as [|w ws Hw Hall]; [done|]. destruct ws as [|w' ws].
    + rewrite join_singleton, <-(str_app_nil_r w). by apply SegmentFacts.word_start.
    + rewrite join_cons by done. by apply SegmentFacts.word_start.
Qed.

(** * Lemmas: native ids and verbs *)
Module NativeIdFacts.
Import NativeId.

Lemma native_id_try_new_Ok s x :
  try_new s = Ok x ↔
  x = mk s ∧ s ≠ EmptyString ∧ str_all is_ascii_graphic s = true ∧
  contains_char ":" s = false ∧ contains_char "*" s = false.
Proof.
  unfold try_new. destruct s as [|a s]; [naive_solver|]. cbn [is_empty].
  destruct (str_all _ _), (contains_char ":" _), (contains_char "*" _); naive_solver.
Qed.
Lemma native_id_try_new_wf s x : try_new s = Ok x → wf x.
Proof. intros H. pose proof H as (-> & _)%native_id_try_new_Ok. exact H. Qed.
Lemma native_id_try_new_as_str s x : try_new s = Ok x → as_str x = s.
Proof. by intros (-> & _)%native_id_try_new_Ok. Qed.
Lemma native_id_as_str_inj x y : as_str x = as_str y → x = y.
Proof. destruct x, y; simpl; congruence. Qed.
Lemma wf_no_colon x : wf x → contains_char ":" (as_str x) = false.
Proof. by intros (_ & _ & _ & ? & _)%native_id_try_new_Ok. Qed.
Lemma wf_graphic x : wf x → str_all is_ascii_graphic (as_str x) = true.
Proof. by intros (_ & _ & ? & _)%native_id_try_new_Ok. Qed.

(** A segment's text is a native id. *)
Lemma segment_native x : Segment.wf x → try_new (Segment.as_str x) = Ok (mk (Segment.as_str x)).
Proof.
  intros Hx. apply native_id_try_new_Ok. split_and!; [done|by apply SegmentFacts.wf_nonempty|..].
  - eapply str_all_impl, SegmentFacts.wf_bytes, Hx. apply seg_byte_graphic.
  - by apply SegmentFacts.wf_no_byte.
  - by apply SegmentFacts.wf_no_byte.
Qed.

(** [{resource_type}/{native_id}] is always a native id. *)
Lemma compound_native t n :
  Segment.wf t → wf n →
  try_new (Segment.as_str t +:+ "/" +:+ as_str n) =
  Ok (mk (Segment.as_str t +:+ "/" +:+ as_str n)).
Proof.
  intros Ht Hn. pose proof (segment_native t Ht) as (_ & Hne & Hg & Hc & Hs)%native_id_try_new_Ok.
  apply native_id_try_new_Ok in Hn as (_ & _ & Hg' & Hc' & Hs').
  apply native_id_try_new_Ok. split_and!; [done|by destruct (Segment.as_str t)|..];
    autorewrite with rstr; rewrite ?Hg, ?Hg', ?Hc, ?Hc', ?Hs, ?Hs'; done.
Qed.
End NativeIdFacts.

Module VerbFacts.
Import Verb.

Lemma verb_try_new_Ok s x :
  try_new s = Ok x ↔
  x = mk s ∧ String.length s ≤ 64 ∧ starts_with is_ascii_lowercase s = true ∧
  str_all Segment.seg_byte s = true.
Proof.
  unfold try_new. destruct s as [|a s]; [naive_solver|]. cbn [is_empty].
  change (λ c, is_ascii_lowercase c || is_ascii_digit c || Ascii.eqb c "-") with Segment.seg_byte.
  case_bool_decide; destruct (starts_with _ _), (str_all _ _); naive_solver lia.
Qed.
Lemma verb_try_new_wf s x : try_new s = Ok x → wf x.
Proof. intros H. pose proof H as (-> & _)%verb_try_new_Ok. exact H. Qed.
Lemma verb_try_new_as_str s x : try_new s = Ok x → as_str x = s.
Proof. by intros (-> & _)%verb_try_new_Ok. Qed.
End VerbFacts.

(** * Cedar identifiers *)
Module CedarFacts.

Lemma contains_dd_replace a b s :
  contains_char b s = false →
  contains_str (dd b) (replace_char a b s) = contains_str (dd a) s.
Proof.
  assert (∀ c, contains_char b (String c EmptyString) = false →
    (if ascii_dec b (if Ascii.eqb c a then b else c) then true else false) =
    (if ascii_dec a c then true else false)) as Hc.
  { intros c. rewrite contains_char_cons, orb_false_r, Ascii.eqb_neq. intros Hbc.
    destruct (Ascii.eqb_spec c a), (ascii_dec b _), (ascii_dec a c); congruence. }
  induction s as [|c s IH]; [done|]. rewrite contains_char_cons. intros H. bool_prop.
  cbn [replace_char contains_str]. rewrite IH by done. f_equal.
  unfold dd. cbn [String.prefix].
  assert (∀ (P Q : Prop) (p : {P} + {¬P}) (q : {Q} + {¬Q}) (x y : bool),
    (if p then true else false) = (if q then true else false) → x = y →
    (if p then x else false) = (if q then y else false)) as Hif.
  { by intros ?? [] [] ??. }
  apply Hif; [apply Hc; rewrite contains_char_cons, orb_false_r; done|].
  destruct s as [|d s]; [done|]. rewrite contains_char_cons in *. bool_prop.
  cbn [replace_char String.prefix]. apply Hif; [|by destruct (replace_char a b s), s].
  apply Hc. by rewrite contains_char_cons, orb_false_r.
Qed.

Lemma ends_replace a b s :
  contains_char b s = false →
  ends_with_char b (replace_char a b s) = ends_with_char a s.
Proof.
  induction s as [|c s IH]; [done|]. rewrite contains_char_cons, orb_false_iff, Ascii.eqb_neq.
  intros [Hbc Hs]. specialize (IH Hs). destruct s as [|d s]; [|exact IH]. simpl.
  destruct (Ascii.eqb_spec c a); [apply Ascii.eqb_refl|].
  apply Ascii.eqb_neq. congruence.
Qed.

Lemma seg_no_underscore x : Segment.wf x → contains_char "_" (Segment.as_str x) = false.
Proof. by apply SegmentFacts.wf_no_byte. Qed.

Lemma to_cedar_ident_inj x y :
  Segment.wf x → Segment.wf y →
  Segment.to_cedar_ident x = Segment.to_cedar_ident y → x = y.
Proof.
  intros Hx Hy [= Heq]. apply SegmentFacts.segment_as_str_inj.
  by apply replace_char_inj in Heq; [..|apply seg_no_underscore|apply seg_no_underscore].
Qed.
End CedarFacts.

(** [Segment::to_cedar_ident] yields a valid Cedar identifier exactly for
    the segments that start with a letter. *)
Theorem to_cedar_ident_valid_iff x :
  Segment.wf x →
  (CedarIdent.new (CedarIdent.as_str (Segment.to_cedar_ident x)) =
     Ok (Segment.to_cedar_ident x) ↔
   starts_with is_ascii_lowercase (Segment.as_str x) = true).
Proof.
  intros Hx. pose proof (SegmentFacts.wf_bytes x Hx) as Hb.
  apply SegmentFacts.segment_try_new_Ok in Hx as (_ & Hs & _).
  unfold Segment.to_cedar_ident, CedarIdent.from_valid, CedarIdent.new. simpl.
  rewrite str_all_replace_char; [|done|].
  2: { eapply str_all_impl, Hb. all_bytes. }
  destruct (Segment.as_str x) as [|a s]; [naive_solver|]. simpl in *. bool_prop.
  clear -Hs. revert a Hs. all_bytes; naive_solver.
Qed.

(** Witness: ["todo-app"] becomes the identifier ["todo_app"], ["3d"] an invalid one. *)
Lemma to_cedar_ident_valid_iff_witness :
  CedarIdent.new "todo_app" = Ok (Segment.to_cedar_ident (Segment.mk "todo-app")) ∧
  CedarIdent.new "3d" ≠ Ok (Segment.to_cedar_ident (Segment.mk "3d")).
Proof.
  split.
  - apply (to_cedar_ident_valid_iff (Segment.mk "todo-app")); reflexivity.
  - intros H. apply (to_cedar_ident_valid_iff (Segment.mk "3d")) in H; [discriminate|reflexivity].
Defined.

(** a Cedar entity type determines its namespace and its entity. *)
Theorem cedar_entity_type_inj ns e ns' e' :
  Segment.wf ns → Segment.wf e → Segment.wf ns' → Segment.wf e' →
  CedarEntityType.new_from_segments ns e = CedarEntityType.new_from_segments ns' e' →
  ns = ns' ∧ e = e'.
Proof.
  intros Hns He Hns' He' [= Heq].
  apply (dsep_inj "_") in Heq as [Hl Hr].
  - split; apply CedarFacts.to_cedar_ident_inj; try done;
      unfold Segment.to_cedar_ident; congruence.
  - rewrite CedarFacts.contains_dd_replace by (by apply CedarFacts.seg_no_underscore).
    by apply SegmentFacts.wf_no_dd.
  - rewrite CedarFacts.contains_dd_replace by (by apply CedarFacts.seg_no_underscore).
    by apply SegmentFacts.wf_no_dd.
  - rewrite CedarFacts.ends_replace by (by apply CedarFacts.seg_no_underscore).
    by apply SegmentFacts.wf_no_end.
  - rewrite CedarFacts.ends_replace by (by apply CedarFacts.seg_no_underscore).
    by apply SegmentFacts.wf_no_end.
Qed.

(** Witness: ["a-b" "c"] and ["a-b" "c"] name the type ["a_b__c"]. *)
Lemma cedar_entity_type_inj_witness :
  CedarEntityType.as_str
    (CedarEntityType.new_from_segments (Segment.mk "a-b") (Segment.mk "c")) = "a_b__c" ∧
  Segment.mk "a-b" = Segment.mk "a-b" ∧ Segment.mk "c" = Segment.mk "c".
Proof.
  split; [reflexivity|].
  apply (cedar_entity_type_inj (Segment.mk "a-b") (Segment.mk "c")
           (Segment.mk "a-b") (Segment.mk "c")); reflexivity.
Defined.

