(* ===== verification/Fgrn.v ===== *)
(** FGRNs ([crates/core/src/fgrn.rs]): stable names
    [fgrn:{organization}:{type}:{id}], their parser, their builders and the
    order derived on them. *)

From S2P Require Import Prelude RustStr Ident.

Module FgrnKind.
Inductive t := OrgUnit | Principal | PrincipalSet | Resource.

#[global] Instance t_eq_dec : EqDecision t.
Proof. solve_decision. Defined.

Definition as_str (k : t) : string :=
  match k with
  | OrgUnit => "orgunit"
  | Principal => "principal"
  | PrincipalSet => "principal-set"
  | Resource => "resource"
  end.

Definition from_str (s : string) : result Error.t t :=
  if bool_decide (s = "orgunit") then Ok OrgUnit
  else if bool_decide (s = "principal") then Ok Principal
  else if bool_decide (s = "principal-set") then Ok PrincipalSet
  else if bool_decide (s = "resource") then Ok Resource
  else Err (Error.Parse "fgrn" s
              "unknown kind — expected orgunit, principal, principal-set, or resource").

(** Position in the declaration: the order Rust derives. *)
Definition rank (k : t) : nat :=
  match k with OrgUnit => 0 | Principal => 1 | PrincipalSet => 2 | Resource => 3 end.
Definition of_rank (n : nat) : t :=
  match n with 0 => OrgUnit | 1 => Principal | 2 => PrincipalSet | _ => Resource end.

#[global] Program Instance t_countable : Countable t := inj_countable' rank of_rank _.
Next Obligation. by intros []. Qed.

Lemma fgrn_kind_from_str_as_str k : from_str (as_str k) = Ok k.
Proof. by destruct k. Qed.
Lemma fgrn_kind_from_str_Ok s k : from_str s = Ok k → s = as_str k.
Proof. unfold from_str. intros. by inv_ok; bool_prop; subst. Qed.
Lemma as_str_no_colon k : contains_char ":" (as_str k) = false.
Proof. by destruct k. Qed.
End FgrnKind.

Module Fgrn.
Record t := mk {
  organization : Segment.t;
  kind : FgrnKind.t;
  id : NativeId.t;
  resource_type : option Segment.t;
  native_id : option NativeId.t;
  raw : string;
}.

#[global] Instance t_eq_dec : EqDecision t.
Proof. solve_decision. Defined.
Definition to_tuple (f : t) :=
  (organization f, (kind f, (id f, (resource_type f, (native_id f, raw f))))).
Definition of_tuple '(o, (k, (i, (rt, (n, r))))) : t := mk o k i rt n r.
#[global] Program Instance t_countable : Countable t := inj_countable' to_tuple of_tuple _.
Next Obligation. by intros []. Qed.

Definition to_string (f : t) : string := raw f.

Definition parse (s : string) : result Error.t t :=
  match splitn 4 ":" s with
  | [tag; organization; kind; id] =>
      if bool_decide (tag = "fgrn") then
        organization ← Segment.try_new organization;
        kind ← FgrnKind.from_str kind;
        if bool_decide (kind = FgrnKind.Resource) then
          match split_once "/" id with
          | Some (rtype, nid) =>
              resource_type ← Segment.try_new rtype;
              native_id ← NativeId.try_new nid;
              id ← NativeId.try_new id;
              Ok (mk organization kind id (Some resource_type) (Some native_id) s)
          | None => Err (Error.Parse "fgrn" s "resource id must be {resource_type}/{native_id}")
          end
        else
          id ← NativeId.try_new id;
          Ok (mk organization kind id None None s)
      else Err (Error.Parse "fgrn" s "expected fgrn:{organization}:{type}:{id}")
  | _ => Err (Error.Parse "fgrn" s "expected fgrn:{organization}:{type}:{id}")
  end.

Definition new (organization : Segment.t) (kind : FgrnKind.t) (id : NativeId.t)
    (resource_type : option Segment.t) (native_id : option NativeId.t) : t :=
  mk organization kind id resource_type native_id
    ("fgrn:" +:+ Segment.as_str organization +:+ ":" +:+ FgrnKind.as_str kind +:+ ":" +:+
     NativeId.as_str id).

Definition org_unit (organization : Segment.t) (id : NativeId.t) : t :=
  new organization FgrnKind.OrgUnit id None None.
Definition principal (organization : Segment.t) (id : NativeId.t) : t :=
  new organization FgrnKind.Principal id None None.
Definition principal_set (organization : Segment.t) (id : NativeId.t) : t :=
  new organization FgrnKind.PrincipalSet id None None.

(** The compound id is built through the validating constructor, whose error
    branch is [unreachable!]. *)
Definition resource (organization resource_type : Segment.t) (native_id : NativeId.t)
    : result Error.t t :=
  compound ← expect_ok
    (NativeId.try_new (Segment.as_str resource_type +:+ "/" +:+ NativeId.as_str native_id))
    "Segment and NativeId are both '/'-safe";
  Ok (new organization FgrnKind.Resource compound (Some resource_type) (Some native_id)).

Definition resource_parts (f : t) : option (Segment.t * NativeId.t) :=
  match resource_type f, native_id f with
  | Some rt, Some n => Some (rt, n)
  | _, _ => None
  end.

(** The derived [Ord]: lexicographic over the fields in order. *)
Definition cmp : t → t → comparison :=
  cmp_key to_tuple
    (cmp_pair (cmp_key Segment.as_str String.compare)
    (cmp_pair (cmp_key FgrnKind.rank Nat.compare)
    (cmp_pair (cmp_key NativeId.as_str String.compare)
    (cmp_pair (cmp_option (cmp_key Segment.as_str String.compare))
    (cmp_pair (cmp_option (cmp_key NativeId.as_str String.compare))
       String.compare))))).

(** A value the parser returns. *)
Definition wf (f : t) : Prop := parse (raw f) = Ok f.

(** The values the four public builders return on valid parts. *)
Inductive built : t → Prop :=
| built_org_unit o i : Segment.wf o → NativeId.wf i → built (org_unit o i)
| built_principal o i : Segment.wf o → NativeId.wf i → built (principal o i)
| built_principal_set o i : Segment.wf o → NativeId.wf i → built (principal_set o i)
| built_resource o rt n f :
    Segment.wf o → Segment.wf rt → NativeId.wf n → resource o rt n = Ok f → built f.
End Fgrn.

(** * Lemmas *)
Module FgrnFacts.
Import Fgrn.

#[global] Instance to_tuple_inj : Inj (=) (=) to_tuple.
Proof. intros [] [] [=]. simpl in *. congruence. Qed.
#[global] Instance segment_str_inj : Inj (=) (=) Segment.as_str.
Proof. intros [] []. simpl. congruence. Qed.
#[global] Instance native_str_inj : Inj (=) (=) NativeId.as_str.
Proof. intros [] []. simpl. congruence. Qed.
#[global] Instance kind_rank_inj : Inj (=) (=) FgrnKind.rank.
Proof. by intros [] []. Qed.
Lemma kind_from_str_returns s : returns (FgrnKind.from_str s).
Proof. unfold FgrnKind.from_str. solve_returns. Qed.
#[export] Hint Resolve kind_from_str_returns : returns.
#[global] Instance cmp_ok : Comparator cmp.
Proof. unfold cmp. apply _. Qed.

Lemma resource_Ok o rt n :
  Segment.wf rt → NativeId.wf n →
  resource o rt n =
  Ok (new o FgrnKind.Resource
        (NativeId.mk (Segment.as_str rt +:+ "/" +:+ NativeId.as_str n)) (Some rt) (Some n)).
Proof. intros Hrt Hn. unfold resource. by rewrite NativeIdFacts.compound_native. Qed.

Lemma splitn_new o k i :
  Segment.wf o → NativeId.wf i →
  splitn 4 ":" ("fgrn:" +:+ Segment.as_str o +:+ ":" +:+ FgrnKind.as_str k +:+ ":" +:+
                NativeId.as_str i) =
  ["fgrn"; Segment.as_str o; FgrnKind.as_str k; NativeId.as_str i].
Proof.
  intros Ho Hi.
  change ("fgrn:" +:+ ?r) with ("fgrn" +:+ String ":" r). rewrite splitn_app by done. f_equal.
  rewrite !str_one.
  rewrite splitn_app by (by apply SegmentFacts.wf_no_byte). f_equal.
  rewrite splitn_app by apply FgrnKind.as_str_no_colon. done.
Qed.

(** One step of the parser's [?] chain. *)
Ltac step_ok H := rewrite H; cbn [mbind result_bind].

Lemma parse_plain o k i :
  Segment.wf o → NativeId.wf i → k ≠ FgrnKind.Resource →
  parse (raw (new o k i None None)) = Ok (new o k i None None).
Proof.
  intros Ho Hi Hk. unfold parse. cbn [raw new]. rewrite splitn_new by done.
  cbv beta iota. rewrite bool_decide_eq_true_2 by done.
  step_ok Ho. step_ok (FgrnKind.fgrn_kind_from_str_as_str k).
  rewrite bool_decide_eq_false_2 by done. by step_ok Hi.
Qed.

Lemma parse_resource o rt n f :
  Segment.wf o → Segment.wf rt → NativeId.wf n → resource o rt n = Ok f →
  parse (raw f) = Ok f.
Proof.
  intros Ho Hrt Hn. rewrite resource_Ok by done. intros [= <-].
  assert (NativeId.wf (NativeId.mk (Segment.as_str rt +:+ "/" +:+ NativeId.as_str n))) as Hi
    by (by apply NativeIdFacts.compound_native).
  unfold parse. cbn [raw new]. rewrite splitn_new by done.
  cbv beta iota. rewrite bool_decide_eq_true_2 by done.
  step_ok Ho. step_ok (FgrnKind.fgrn_kind_from_str_as_str FgrnKind.Resource).
  rewrite bool_decide_eq_true_2 by done. cbn [NativeId.as_str].
  rewrite split_once_app by (by apply SegmentFacts.wf_no_byte).
  step_ok Hrt. step_ok Hn. unfold NativeId.wf in Hi. cbn [NativeId.as_str] in Hi.
  rewrite str_one in Hi. by rewrite Hi.
Qed.

Lemma built_wf f : built f → wf f.
Proof.
  unfold wf. intros [| | |o rt n g Ho Hrt Hn Hg]; [by apply parse_plain..|].
  by apply (parse_resource o rt n).
Qed.

Lemma splitn4_inv s a b c d :
  splitn 4 ":" s = [a; b; c; d] →
  s = a +:+ ":" +:+ b +:+ ":" +:+ c +:+ ":" +:+ d.
Proof.
  intros H. apply splitn_cons_inv in H as (y & -> & _ & H); [|done].
  symmetry in H. apply splitn_cons_inv in H as (z & -> & _ & H); [|done].
  symmetry in H. apply splitn_cons_inv in H as (w & -> & _ & H); [|done].
  by injection H as ->.
Qed.

Lemma parse_Ok s f : parse s = Ok f → raw f = s ∧ built f.
Proof.
  unfold parse. intros H. destruct (splitn 4 ":" s) as [|tag [|o [|k [|i [|]]]]] eqn:Hs;
    try discriminate H.
  apply splitn4_inv in Hs. destruct (bool_decide _) eqn:Htag; [|discriminate H].
  bool_prop. subst tag. apply bind_Ok in H as (o' & Ho & H).
  apply bind_Ok in H as (k' & Hk & H). apply FgrnKind.fgrn_kind_from_str_Ok in Hk as ->.
  pose proof (SegmentFacts.segment_try_new_wf _ _ Ho) as Ho'. apply SegmentFacts.segment_try_new_as_str in Ho as <-.
  destruct (bool_decide _) eqn:Hkind; bool_prop.
  - subst k'. destruct (split_once "/" i) as [[rt n]|] eqn:Hi; [|discriminate H].
    apply split_once_Some in Hi as [-> Hnr].
    apply bind_Ok in H as (rt' & Hrt & H). apply bind_Ok in H as (n' & Hn & H).
    apply bind_Ok in H as (i' & Hi & [= <-]). split; [done|].
    pose proof (SegmentFacts.segment_try_new_wf _ _ Hrt). pose proof (NativeIdFacts.native_id_try_new_wf _ _ Hn).
    apply SegmentFacts.segment_try_new_as_str in Hrt as <-. apply NativeIdFacts.native_id_try_new_as_str in Hn as <-.
    apply (built_resource o' rt' n'); try done. rewrite resource_Ok by done.
    apply NativeIdFacts.native_id_try_new_Ok in Hi as [-> _]. by rewrite Hs.
  - apply bind_Ok in H as (i' & Hi & [= <-]). split; [done|].
    pose proof (NativeIdFacts.native_id_try_new_wf _ _ Hi). apply NativeIdFacts.native_id_try_new_as_str in Hi as <-.
    rewrite Hs. by destruct k'; [apply built_org_unit|apply built_principal
      |apply built_principal_set|].
Qed.

Lemma wf_built f : wf f ↔ built f.
Proof. split; [by intros [_ ?]%parse_Ok|apply built_wf]. Qed.

Lemma parse_returns s : returns (parse s).
Proof. unfold parse. solve_returns. Qed.
Lemma wf_org f : wf f → Segment.wf (organization f).
Proof.
  rewrite wf_built. destruct 1 as [| | |o rt n f Ho Hrt Hn Hf]; simpl; try done.
  rewrite resource_Ok in Hf by done. by inv_ok.
Qed.
Lemma built_new f : built f →
  f = new (organization f) (kind f) (id f) (resource_type f) (native_id f).
Proof.
  intros []; try done. rewrite resource_Ok in * by done. by simplify_eq.
Qed.

(** Two well-formed FGRNs of a non-resource kind agree as soon as their
    organization, kind and id agree. *)
Lemma wf_plain_eq f g :
  wf f → wf g → organization f = organization g → kind f = kind g → id f = id g →
  kind f ≠ FgrnKind.Resource → f = g.
Proof.
  rewrite !wf_built. intros Hf Hg Ho Hk Hi Hr.
  destruct Hf, Hg; simpl in *; try congruence;
    rewrite resource_Ok in * by done; simplify_eq/=.
Qed.
End FgrnFacts.

(** parsing and printing FGRNs are mutually inverse: the parser accepts
    exactly the printed forms of the four builders on valid parts, and
    returns the FGRN that was printed. *)
Theorem fgrn_parse_print s f :
  Fgrn.parse s = Ok f ↔ Fgrn.built f ∧ s = Fgrn.to_string f.
Proof.
  split.
  - intros [<- Hb]%FgrnFacts.parse_Ok. done.
  - intros [Hb ->]. by apply FgrnFacts.wf_built.
Qed.

(** [Fgrn::resource] never reaches its [unreachable!] and its parts come
    back unchanged. *)
Theorem fgrn_resource_total o rt n :
  Segment.wf rt → NativeId.wf n →
  ∃ f, Fgrn.resource o rt n = Ok f ∧ Fgrn.resource_parts f = Some (rt, n) ∧
       Fgrn.organization f = o ∧ Fgrn.kind f = FgrnKind.Resource ∧
       Fgrn.to_string f = "fgrn:" +:+ Segment.as_str o +:+ ":resource:" +:+
                          Segment.as_str rt +:+ "/" +:+ NativeId.as_str n.
Proof.
  intros Hrt Hn. eexists. split; [by apply FgrnFacts.resource_Ok|done].
Qed.

(** Witness: a document of [acme]. *)
Lemma fgrn_resource_total_witness :
  ∃ f, Fgrn.resource (Segment.mk "acme") (Segment.mk "doc") (NativeId.mk "a/1") = Ok f ∧
       Fgrn.to_string f = "fgrn:acme:resource:doc/a/1".
Proof.
  destruct (fgrn_resource_total (Segment.mk "acme") (Segment.mk "doc") (NativeId.mk "a/1"))
    as (f & Hf & _ & _ & _ & Hs); [reflexivity|reflexivity|].
  exists f. split; [exact Hf|exact Hs].
Defined.

