(* ===== verification/Forest.v ===== *)
(** Parent forests: finite maps from a node to its optional parent, the
    shape behind [Spine::units] and the parent maps derived from it.  The
    path of a node to its root is an inductive relation; the lemmas here say
    that it is unique, repetition-free, bounded by the size of the map and
    that its members are the ancestors of the node. *)

From S2P Require Import Prelude.

Section forest.
Context {K : Type} `{Countable K}.
Implicit Types (m : gmap K (option K)) (x y p : K) (l : list K).

Definition parent_edge m x y : Prop := m !! x = Some (Some y).

(** [up_path m x l]: [l] lists [x], its parent, ... up to a root. *)
Inductive up_path m : K → list K → Prop :=
| up_root x : m !! x = Some None → up_path m x [x]
| up_step x p l : parent_edge m x p → up_path m p l → up_path m x (x :: l).

Definition parents_exist m : Prop := ∀ x p, parent_edge m x p → is_Some (m !! p).

Lemma up_path_head m x l : up_path m x l → ∃ l', l = x :: l'.
Proof. destruct 1; eauto. Qed.
Lemma up_path_in_dom m x l : up_path m x l → is_Some (m !! x).
Proof. destruct 1 as [x Hx|x p l Hx]; rewrite Hx; eauto. Qed.

Lemma up_path_det m x l l' : up_path m x l → up_path m x l' → l = l'.
Proof.
  intros Hl. revert l'. induction Hl as [x Hx|x p l Hx Hl IH]; intros l' Hl'.
  - destruct Hl' as [x _|x p l Hp]; [done|]. unfold parent_edge in Hp. congruence.
  - destruct Hl' as [x Hp|x p' l' Hp Hl']; unfold parent_edge in *; [congruence|].
    assert (p = p') as <- by congruence. f_equal. by apply IH.
Qed.

(** Every member of a path heads a suffix of it. *)
Lemma up_path_suffix m x l y :
  up_path m x l → y ∈ l → ∃ l1 l2, l = l1 ++ l2 ∧ up_path m y l2.
Proof.
  induction 1 as [x Hx|x p l Hx Hl IH]; intros Hy.
  - apply list_elem_of_singleton in Hy as ->. exists [], [x]. split; [done|by constructor].
  - apply elem_of_cons in Hy as [->|Hy].
    + exists [], (x :: l). split; [done|by econstructor].
    + destruct (IH Hy) as (l1 & l2 & -> & Hy'). by exists (x :: l1), l2.
Qed.

Lemma up_path_suffix_at m x l1 y l2 :
  up_path m x (l1 ++ y :: l2) → up_path m y (y :: l2).
Proof.
  revert x. induction l1 as [|a l1 IH]; intros x Hx; simpl in Hx.
  - by destruct (up_path_head _ _ _ Hx) as [l' [= -> ->]].
  - inversion Hx as [? ? Heq|? p ? ? Hl]; [by destruct l1|]. by apply IH in Hl.
Qed.

Lemma up_path_NoDup m x l : up_path m x l → NoDup l.
Proof.
  induction 1 as [x Hx|x p l Hx Hl IH]; [apply NoDup_singleton|].
  apply NoDup_cons. split; [|done]. intros Hin.
  destruct (up_path_suffix m p l x Hl Hin) as (l1 & l2 & Heq & Hl2).
  assert (x :: l = l2) as <- by (eapply up_path_det; [by econstructor|done]).
  apply (f_equal length) in Heq. rewrite length_app in Heq. simpl in Heq. lia.
Qed.

Lemma up_path_dom m x l y : up_path m x l → y ∈ l → is_Some (m !! y).
Proof.
  intros Hl (l1 & l2 & -> & Hy)%(up_path_suffix m x l y Hl). by eapply up_path_in_dom.
Qed.

Lemma up_path_length m x l : up_path m x l → length l ≤ size m.
Proof.
  intros Hl. rewrite <-size_dom.
  rewrite <-(size_list_to_set (C := gset K) l) by (by eapply up_path_NoDup).
  apply subseteq_size. intros y Hy. apply elem_of_list_to_set in Hy.
  apply elem_of_dom. by eapply up_path_dom.
Qed.

(** The members of the path are the ancestors of the node. *)
Lemma up_path_ancestors m x l y : up_path m x l → (y ∈ l ↔ rtc (parent_edge m) x y).
Proof.
  intros Hl. split.
  - induction Hl as [x Hx|x p l Hx Hl IH]; intros Hy.
    + apply list_elem_of_singleton in Hy as ->. done.
    + apply elem_of_cons in Hy as [->|Hy]; [done|]. eapply rtc_l; [done|auto].
  - intros Hr. revert l Hl. induction Hr as [x|x z y Hxz Hr IH]; intros l Hl.
    + destruct (up_path_head _ _ _ Hl) as [l' ->]. left.
    + destruct Hl as [x Hx|x p l Hx Hl]; unfold parent_edge in *; [congruence|].
      assert (z = p) as -> by congruence. right. by apply IH.
Qed.

Lemma up_path_acyclic m x l : up_path m x l → ¬ tc (parent_edge m) x x.
Proof.
  intros Hl Hc. pose proof (up_path_NoDup _ _ _ Hl) as Hnd.
  destruct Hl as [x Hx|x p l Hx Hl].
  - inversion Hc; unfold parent_edge in *; congruence.
  - apply NoDup_cons in Hnd as [Hnd _]. apply Hnd. apply (up_path_ancestors m p l x Hl).
    inversion Hc as [? y Hxy|? y z Hxy Hyz]; subst; unfold parent_edge in *.
    + by assert (x = p) as <- by congruence.
    + assert (y = p) as <- by congruence. by apply tc_rtc.
Qed.

(** The last member of the path is a root. *)
Lemma up_path_last m x l : up_path m x l → ∃ r, last l = Some r ∧ m !! r = Some None.
Proof.
  induction 1 as [x Hx|x p l Hx Hl (r & Hr & Hm)]; [by exists x|].
  exists r. split; [|done]. destruct (up_path_head _ _ _ Hl) as [l' ->]. done.
Qed.

(** Consecutive members are linked by a parent edge. *)
Lemma up_path_adjacent m x l i a b :
  up_path m x l → l !! i = Some b → l !! S i = Some a → parent_edge m b a.
Proof.
  intros Hl. revert i. induction Hl as [x Hx|x p l Hx Hl IH]; intros i Hb Ha.
  - by destruct i.
  - destruct i as [|i]; [|by apply (IH i)]. injection Hb as <-.
    destruct (up_path_head _ _ _ Hl) as [l' ->]. by injection Ha as <-.
Qed.
(** Following parents from [x] reaches a root exactly when a path exists. *)
Lemma up_path_of_rtc m x r :
  rtc (parent_edge m) x r → m !! r = Some None → ∃ l, up_path m x l.
Proof.
  intros Hr Hm. induction Hr as [x|x p r Hx Hr IH].
  - exists [x]. by constructor.
  - destruct (IH Hm) as [l Hl]. exists (x :: l). by econstructor.
Qed.

(** Changing the parent of a node outside the path leaves the path. *)
Lemma up_path_insert_notin m x l n o :
  up_path m x l → n ∉ l → up_path (<[n:=o]> m) x l.
Proof.
  induction 1 as [x Hx|x p l Hx Hl IH]; intros Hn.
  - apply up_root. rewrite lookup_insert_ne; set_solver.
  - apply not_elem_of_cons in Hn as [Hn1 Hn2]. apply (up_step _ _ p); [|by apply IH].
    unfold parent_edge. by rewrite lookup_insert_ne.
Qed.
(** Moving [n] below [p]: the nodes above [n] in the path are replaced by the
    path of [p]. *)
Lemma up_path_insert_in m x l1 l2 n p lp :
  up_path m x (l1 ++ n :: l2) → n ∉ l1 → up_path m p lp → n ∉ lp →
  up_path (<[n:=Some p]> m) x (l1 ++ n :: lp).
Proof.
  revert x. induction l1 as [|a l1 IH]; intros x Hx Hn Hp Hlp; simpl in *.
  - destruct (up_path_head _ _ _ Hx) as [l' [= <- _]].
    apply (up_step _ _ p); [by apply lookup_insert_eq|by apply up_path_insert_notin].
  - destruct (up_path_head _ _ _ Hx) as [l' [= <- _]].
    apply not_elem_of_cons in Hn as [Hna Hn].
    inversion Hx as [? ? Heq|? q l Hq Hl]; subst; [by destruct l1|].
    apply (up_step _ _ q); [|by apply IH]. unfold parent_edge. by rewrite lookup_insert_ne.
Qed.
End forest.
