(* ===== verification/Spine.v ===== *)
(** The organizational spine ([crates/core/src/spine.rs]): org units with one
    parent edge each, validated into a single-rooted tree, and the two
    structural mutations [add] and [reparent]. *)

From S2P Require Import Prelude RustStr Ident Fgrn Forest.

Module OrgUnit.
Record t := mk { fgrn : Fgrn.t; parent : option Fgrn.t }.

#[global] Instance t_eq_dec : EqDecision t.
Proof. solve_decision. Defined.

Definition try_new (fgrn : Fgrn.t) (parent : option Fgrn.t) : result Error.t t :=
  if negb (bool_decide (Fgrn.kind fgrn = FgrnKind.OrgUnit))
  then Err (Error.Spine (Fgrn.to_string fgrn) "org unit fgrn must have kind orgunit")
  else
    match parent with
    | Some p =>
        if negb (bool_decide (Fgrn.kind p = FgrnKind.OrgUnit))
        then Err (Error.Spine (Fgrn.to_string p) "parent fgrn must have kind orgunit")
        else if bool_decide (p = fgrn)
        then Err (Error.Spine (Fgrn.to_string fgrn) "org unit cannot be its own parent")
        else if negb (bool_decide (Fgrn.organization p = Fgrn.organization fgrn))
        then Err (Error.Spine (Fgrn.to_string p) "parent must belong to the same organization")
        else Ok (mk fgrn parent)
    | None => Ok (mk fgrn parent)
    end.

Definition wf (u : t) : Prop := try_new (fgrn u) (parent u) = Ok u.

Lemma wf_kind u : wf u → Fgrn.kind (fgrn u) = FgrnKind.OrgUnit.
Proof. unfold wf, try_new. case_bool_decide; [done|]. discriminate. Qed.
Lemma unit_try_new_wf f p u : try_new f p = Ok u → wf u ∧ u = mk f p.
Proof.
  intros H. assert (u = mk f p) as -> by (unfold try_new in H; by inv_ok). done.
Qed.
End OrgUnit.

Module Spine.
Record t := mk {
  units : gmap Fgrn.t (option Fgrn.t);
  root : Fgrn.t;
  organization : Segment.t;
}.

#[global] Instance t_eq_dec : EqDecision t.
Proof. solve_decision. Defined.

(** The insertion loop of [try_new]. *)
Fixpoint insert_units (organization : Segment.t) (us : list OrgUnit.t)
    (map : gmap Fgrn.t (option Fgrn.t)) (root : option Fgrn.t)
    : result Error.t (gmap Fgrn.t (option Fgrn.t) * option Fgrn.t) :=
  match us with
  | [] => Ok (map, root)
  | OrgUnit.mk fgrn parent :: us =>
      if bool_decide (is_Some (map !! fgrn))
      then Err (Error.Spine (Fgrn.to_string fgrn) "duplicate org unit")
      else if negb (bool_decide (Fgrn.organization fgrn = organization))
      then Err (Error.Spine (Fgrn.to_string fgrn)
                  "all org units must belong to one organization")
      else
        match parent, root with
        | None, Some _ =>
            Err (Error.Spine (Fgrn.to_string fgrn) "spine must have exactly one root")
        | None, None => insert_units organization us (<[fgrn:=parent]> map) (Some fgrn)
        | Some _, _ => insert_units organization us (<[fgrn:=parent]> map) root
        end
  end.

(** [for parent in map.values().flatten()]: every parent is a key. *)
Fixpoint check_parents (map : gmap Fgrn.t (option Fgrn.t)) (values : list (option Fgrn.t))
    : result Error.t unit :=
  match values with
  | [] => Ok ()
  | None :: vs => check_parents map vs
  | Some parent :: vs =>
      if negb (bool_decide (is_Some (map !! parent)))
      then Err (Error.Spine (Fgrn.to_string parent) "unknown parent")
      else check_parents map vs
  end.

(** The climb from one node: [true] when more than [map.len()] steps are
    taken; [steps_left] is [map.len() - steps]. *)
Fixpoint climbs_too_far (map : gmap Fgrn.t (option Fgrn.t)) (steps_left : nat) (current : Fgrn.t)
    : bool :=
  match map !! current with
  | Some (Some parent) =>
      match steps_left with
      | 0 => true
      | S steps_left => climbs_too_far map steps_left parent
      end
  | _ => false
  end.

Fixpoint check_cycles (map : gmap Fgrn.t (option Fgrn.t)) (keys : list Fgrn.t)
    : result Error.t unit :=
  match keys with
  | [] => Ok ()
  | node :: keys =>
      if climbs_too_far map (size map) node
      then Err (Error.Spine (Fgrn.to_string node) "cycle detected")
      else check_cycles map keys
  end.

Definition try_new (us : list OrgUnit.t) : result Error.t t :=
  match us with
  | [] => Err (Error.Spine "(empty)" "spine must contain at least one org unit")
  | first :: _ =>
      let organization := Fgrn.organization (OrgUnit.fgrn first) in
      '(map, root) ← insert_units organization us ∅ None;
      match root with
      | None => Err (Error.Spine "(none)" "spine must have exactly one root")
      | Some root =>
          _ ← check_parents map (map_to_list map).*2;
          _ ← check_cycles map (map_to_list map).*1;
          Ok (mk map root organization)
      end
  end.

Definition len (s : t) : nat := size (units s).
Definition is_empty (s : t) : bool := bool_decide (size (units s) = 0).
Definition contains (s : t) (fgrn : Fgrn.t) : bool := bool_decide (is_Some (units s !! fgrn)).

Definition unknown_unit (fgrn : Fgrn.t) : Error.t :=
  Error.Spine (Fgrn.to_string fgrn) "unknown org unit".

Definition parent (s : t) (fgrn : Fgrn.t) : result Error.t (option Fgrn.t) :=
  ok_or (units s !! fgrn) (unknown_unit fgrn).

(** The [while let] loop of [path], bounded by [fuel]. *)
Fixpoint path_loop (map : gmap Fgrn.t (option Fgrn.t)) (fuel : nat) (current : Fgrn.t)
    (path : list Fgrn.t) : result Error.t (list Fgrn.t) :=
  match map !! current with
  | Some (Some parent) =>
      match fuel with
      | 0 => Stuck "path: loop bound"
      | S fuel =>
          match map !! parent with
          | None => Stuck "a held Spine proves every parent exists"
          | Some _ => path_loop map fuel parent (path ++ [parent])
          end
      end
  | _ => Ok path
  end.

Definition path (s : t) (fgrn : Fgrn.t) : result Error.t (list Fgrn.t) :=
  _ ← ok_or (units s !! fgrn) (unknown_unit fgrn);
  path ← path_loop (units s) (size (units s)) fgrn [fgrn];
  Ok (reverse path).

Definition is_at_or_below (s : t) (node ancestor : Fgrn.t) : result Error.t bool :=
  path ← path s node;
  if negb (contains s ancestor) then Err (unknown_unit ancestor)
  else Ok (bool_decide (ancestor ∈ path)).

(** [keys()] of the map: some fixed enumeration of the units. *)
Definition unit_list (s : t) : list Fgrn.t := (map_to_list (units s)).*1.

Definition add (s : t) (unit : OrgUnit.t) : result Error.t t :=
  let 'OrgUnit.mk fgrn parent := unit in
  match parent with
  | None => Err (Error.Spine (Fgrn.to_string fgrn) "spine already has a root")
  | Some parent =>
      if negb (contains s parent)
      then Err (Error.Spine (Fgrn.to_string parent) "unknown parent")
      else if contains s fgrn
      then Err (Error.Spine (Fgrn.to_string fgrn) "duplicate org unit")
      else if negb (bool_decide (Fgrn.organization fgrn = organization s))
      then Err (Error.Spine (Fgrn.to_string fgrn)
                  "all org units must belong to one organization")
      else Ok (mk (<[fgrn:=Some parent]> (units s)) (root s) (organization s))
  end.

Definition reparent (s : t) (node new_parent : Fgrn.t) : result Error.t t :=
  if negb (contains s node) then Err (unknown_unit node)
  else if bool_decide (node = root s)
  then Err (Error.Spine (Fgrn.to_string node) "cannot reparent the root")
  else if negb (contains s new_parent)
  then Err (Error.Spine (Fgrn.to_string new_parent) "unknown parent")
  else
    below ← is_at_or_below s new_parent node;
    if (below : bool)
    then Err (Error.Spine (Fgrn.to_string node) "reparent would create a cycle")
    else Ok (mk (<[node:=Some new_parent]> (units s)) (root s) (organization s)).

(** * The invariant *)

Definition edge (s : t) : relation Fgrn.t := parent_edge (units s).

(** A validated spine: the root is the only unit without a parent, every
    unit reaches it along parent edges, and all units are org units of the
    spine's organization. *)
Record wf (s : t) : Prop := {
  wf_root : units s !! root s = Some None;
  wf_one_root x : units s !! x = Some None → x = root s;
  wf_parents : parents_exist (units s);
  wf_rooted x : is_Some (units s !! x) → rtc (edge s) x (root s);
  wf_org x : is_Some (units s !! x) → Fgrn.organization x = organization s;
  wf_kind x : is_Some (units s !! x) → Fgrn.kind x = FgrnKind.OrgUnit;
}.

(** What a list of org units has to satisfy to be a tree: the units are
    distinct and of one organization, exactly one of them claims to be the
    root, and every unit reaches it along the declared parents. *)
Definition unit_map (us : list OrgUnit.t) : gmap Fgrn.t (option Fgrn.t) :=
  list_to_map ((λ u, (OrgUnit.fgrn u, OrgUnit.parent u)) <$> us).
Record is_tree (us : list OrgUnit.t) (r : Fgrn.t) : Prop := {
  tree_distinct : NoDup (OrgUnit.fgrn <$> us);
  tree_org u v : u ∈ us → v ∈ us →
    Fgrn.organization (OrgUnit.fgrn u) = Fgrn.organization (OrgUnit.fgrn v);
  tree_root u : u ∈ us → OrgUnit.parent u = None → OrgUnit.fgrn u = r;
  tree_rooted u : u ∈ us → rtc (parent_edge (unit_map us)) (OrgUnit.fgrn u) r;
  tree_has_root : unit_map us !! r = Some None;
}.

(** Spines reachable from a validated one by the mutating operations. *)
Inductive reachable : t → Prop :=
| reach_new us s : Forall OrgUnit.wf us → try_new us = Ok s → reachable s
| reach_add s u s' : reachable s → OrgUnit.wf u → add s u = Ok s' → reachable s'
| reach_reparent s n p s' : reachable s → reparent s n p = Ok s' → reachable s'.
End Spine.

(** * Lemmas *)
Module SpineFacts.
Import Spine.
Implicit Types (m : gmap Fgrn.t (option Fgrn.t)) (us : list OrgUnit.t) (s : t).

Definition roots (us : list OrgUnit.t) : list Fgrn.t :=
  OrgUnit.fgrn <$> filter (λ u, OrgUnit.parent u = None) us.
Definition opt_list {A} (o : option A) : list A := from_option (λ x, [x]) [] o.

Lemma unit_map_lookup us f p :
  NoDup (OrgUnit.fgrn <$> us) →
  (unit_map us !! f = Some p ↔ OrgUnit.mk f p ∈ us).
Proof.
  intros Hnd. unfold unit_map. rewrite <-elem_of_list_to_map.
  - rewrite list_elem_of_fmap. split.
    + by intros ([f' p'] & [= -> ->] & Hin).
    + intros Hin. by exists (OrgUnit.mk f p).
  - by rewrite <-list_fmap_compose.
Qed.
Lemma unit_map_in us f : is_Some (unit_map us !! f) ↔ f ∈ (OrgUnit.fgrn <$> us).
Proof.
  unfold unit_map. rewrite <-not_eq_None_Some, <-not_elem_of_list_to_map.
  rewrite <-list_fmap_compose.
  split; [|tauto]. intros Hnn. by apply dec_stable.
Qed.

(** The insertion loop succeeds exactly on fresh, distinct units of the
    organization with at most one root, and collects them. *)
Lemma insert_units_Ok org us m r m' r' :
  insert_units org us m r = Ok (m', r') ↔
  NoDup (OrgUnit.fgrn <$> us) ∧
  (∀ u, u ∈ us → m !! OrgUnit.fgrn u = None ∧ Fgrn.organization (OrgUnit.fgrn u) = org) ∧
  length (opt_list r ++ roots us) ≤ 1 ∧
  m' = unit_map us ∪ m ∧ r' = head (opt_list r ++ roots us).
Proof.
  revert m r. induction us as [|[f p] us IH]; intros m r; simpl.
  - rewrite !app_nil_r. unfold unit_map; simpl. rewrite (left_id_L ∅ (∪)).
    destruct r; simpl; split; [intros [= <- <-]|naive_solver|intros [= <- <-]|naive_solver];
      (split_and!; [constructor|set_solver|lia|done|done]).
  - unfold unit_map; simpl; fold (unit_map us). rewrite NoDup_cons.
    assert ((f ∉ (OrgUnit.fgrn <$> us)) → (<[f:=p]> (unit_map us)) ∪ m = unit_map us ∪ <[f:=p]> m)
      as Hmap.
    { intros Hf. rewrite <-insert_union_l, insert_union_r; [done|].
      apply eq_None_not_Some. by rewrite unit_map_in. }
    assert ((∀ u, u ∈ OrgUnit.mk f p :: us →
              m !! OrgUnit.fgrn u = None ∧ Fgrn.organization (OrgUnit.fgrn u) = org) ↔
            (m !! f = None ∧ Fgrn.organization f = org) ∧
            ∀ u, u ∈ us → m !! OrgUnit.fgrn u = None ∧
                 Fgrn.organization (OrgUnit.fgrn u) = org) as ->.
    { setoid_rewrite elem_of_cons. naive_solver. }
    assert (∀ r1, (NoDup (OrgUnit.fgrn <$> us) ∧
       (∀ u, u ∈ us → <[f:=p]> m !! OrgUnit.fgrn u = None ∧
             Fgrn.organization (OrgUnit.fgrn u) = org) ∧
       length (opt_list r1 ++ roots us) ≤ 1 ∧
       m' = unit_map us ∪ <[f:=p]> m ∧ r' = head (opt_list r1 ++ roots us)) ↔
       ((f ∉ (OrgUnit.fgrn <$> us)) ∧ NoDup (OrgUnit.fgrn <$> us)) ∧
       (∀ u, u ∈ us → m !! OrgUnit.fgrn u = None ∧
             Fgrn.organization (OrgUnit.fgrn u) = org) ∧
       length (opt_list r1 ++ roots us) ≤ 1 ∧
       m' = (<[f:=p]> (unit_map us)) ∪ m ∧ r' = head (opt_list r1 ++ roots us)) as Hstep.
    { intros r1. split.
      - intros (Hnd & Hu & Hl & -> & ->).
        assert (f ∉ (OrgUnit.fgrn <$> us)) as Hf.
        { intros ([f' p'] & -> & Hin)%list_elem_of_fmap. destruct (Hu _ Hin) as [Hn _].
          by rewrite lookup_insert_eq in Hn. }
        split_and!; [done..| |done|by rewrite Hmap|done]. intros u Hin.
        destruct (Hu u Hin) as [Hn Ho]. split; [|done].
        rewrite lookup_insert_ne in Hn; [done|]. intros ->. by rewrite lookup_insert_eq in Hn.
      - intros ([Hf Hnd] & Hu & Hl & -> & ->). rewrite Hmap by done.
        split_and!; [done| |done..]. intros u Hin. destruct (Hu u Hin) as [Hn Ho].
        split; [|done]. rewrite lookup_insert_ne; [done|]. intros ->.
        apply Hf. by apply list_elem_of_fmap_2. }
    case_bool_decide as Hin; simpl.
    { split; [done|]. intros (_ & ((Hn & _) & _) & _). destruct Hin. congruence. }
    apply eq_None_not_Some in Hin.
    case_bool_decide as Horg; simpl; [|naive_solver].
    unfold roots. rewrite filter_cons. simpl.
    destruct p as [p|]; simpl.
    + rewrite IH, Hstep. naive_solver.
    + destruct r as [r|]; simpl.
      * split; [done|]. intros (_ & _ & Hlen & _). lia.
      * rewrite IH, Hstep. naive_solver.
Qed.

Lemma check_parents_Ok m vs :
  check_parents m vs = Ok () ↔ ∀ p, Some p ∈ vs → is_Some (m !! p).
Proof.
  induction vs as [|[p|] vs IH]; simpl.
  - split; [set_solver|done].
  - case_bool_decide as Hp; simpl.
    + rewrite IH. setoid_rewrite elem_of_cons. naive_solver.
    + split; [done|]. intros Hall. destruct Hp. apply Hall. left.
  - rewrite IH. setoid_rewrite elem_of_cons. naive_solver.
Qed.

Lemma parents_exist_values m :
  (∀ p, Some p ∈ (map_to_list m).*2 → is_Some (m !! p)) ↔ parents_exist m.
Proof.
  unfold parents_exist, parent_edge. split.
  - intros Hv x p Hx. apply Hv. apply list_elem_of_fmap. exists (x, Some p).
    split; [done|]. by apply elem_of_map_to_list.
  - intros Hp p ([x o] & Ho & Hx%elem_of_map_to_list)%list_elem_of_fmap. simpl in Ho. subst.
    by eapply Hp.
Qed.

Lemma climbs_spec m n x :
  parents_exist m → is_Some (m !! x) →
  (climbs_too_far m n x = false ↔ ∃ l, up_path m x l ∧ length l ≤ S n).
Proof.
  intros Hp. revert x. induction n as [|n IH]; intros x [o Hx]; simpl; rewrite Hx.
  - destruct o as [p|].
    + split; [done|]. intros (l & Hl & Hlen). inversion Hl as [|? q l' Hq Hl']; subst.
      * congruence.
      * destruct (up_path_head _ _ _ Hl') as [? ->]. simpl in Hlen. lia.
    + split; [|done]. intros _. exists [x]. split; [by constructor|simpl; lia].
  - destruct o as [p|].
    + rewrite IH by (by eapply Hp). split.
      * intros (l & Hl & Hlen). exists (x :: l). split; [by econstructor|simpl; lia].
      * intros (l & Hl & Hlen). inversion Hl as [|? q l' Hq Hl']; subst; [congruence|].
        unfold parent_edge in Hq. simplify_eq. exists l'. simpl in Hlen. split; [done|lia].
    + split; [|done]. intros _. exists [x]. split; [by constructor|simpl; lia].
Qed.

Lemma check_cycles_Ok m ks :
  check_cycles m ks = Ok () ↔ ∀ x, x ∈ ks → climbs_too_far m (size m) x = false.
Proof.
  induction ks as [|k ks IH]; simpl; [set_solver|].
  destruct (climbs_too_far m (size m) k) eqn:Hk.
  - split; [done|]. intros Hall. specialize (Hall k). rewrite Hk in Hall. set_solver.
  - rewrite IH. setoid_rewrite elem_of_cons. naive_solver.
Qed.

Lemma keys_elem (m : gmap Fgrn.t (option Fgrn.t)) x :
  x ∈ (map_to_list m).*1 ↔ is_Some (m !! x).
Proof.
  rewrite list_elem_of_fmap. split.
  - intros ([y o] & -> & Hy%elem_of_map_to_list). by exists o.
  - intros [o Hx]. exists (x, o). split; [done|]. by apply elem_of_map_to_list.
Qed.

Lemma unit_list_elem s x : x ∈ unit_list s ↔ is_Some (units s !! x).
Proof. apply keys_elem. Qed.

Lemma cycles_up_paths m :
  parents_exist m →
  (check_cycles m (map_to_list m).*1 = Ok () ↔
   ∀ x, is_Some (m !! x) → ∃ l, up_path m x l).
Proof.
  intros Hp. rewrite check_cycles_Ok. setoid_rewrite keys_elem. split.
  - intros Hc x Hx. specialize (Hc x Hx). apply climbs_spec in Hc as (l & Hl & _); eauto.
  - intros Hu x Hx. destruct (Hu x Hx) as [l Hl]. apply climbs_spec; [done..|].
    exists l. split; [done|]. pose proof (up_path_length _ _ _ Hl). lia.
Qed.

Lemma spine_try_new_Ok us s :
  try_new us = Ok s ↔
  ∃ first us' r, us = first :: us' ∧ s = mk (unit_map us) r (Fgrn.organization (OrgUnit.fgrn first)) ∧
  NoDup (OrgUnit.fgrn <$> us) ∧
  (∀ u, u ∈ us → Fgrn.organization (OrgUnit.fgrn u) = organization s) ∧
  roots us = [r] ∧ parents_exist (unit_map us) ∧
  (∀ x, is_Some (unit_map us !! x) → ∃ l, up_path (unit_map us) x l).
Proof.
  unfold try_new. destruct us as [|first us']; [naive_solver|].
  set (us := first :: us'). set (org := Fgrn.organization (OrgUnit.fgrn first)).
  split.
  - intros H. apply bind_Ok in H as ([m r] & Hi & H).
    apply insert_units_Ok in Hi as (Hnd & Hu & Hl & Hm & Hr).
    rewrite map_union_empty in Hm. subst m. simpl in Hr, Hl.
    destruct r as [r|]; [|discriminate H].
    apply bind_Ok in H as ([] & Hc1 & H). apply bind_Ok in H as ([] & Hc2 & [= <-]).
    rewrite check_parents_Ok, parents_exist_values in Hc1.
    rewrite cycles_up_paths in Hc2 by done.
    exists first, us', r. split_and!; try done; [by intros u [_ ?]%Hu|].
    destruct (roots us) as [|r' [|]]; simplify_eq/=; [done|lia].
  - intros (? & ? & r & [= <- <-] & -> & Hnd & Hu & Hr & Hp & Hup).
    simpl in Hu. apply bind_Ok. exists (unit_map us, Some r). split.
    + apply insert_units_Ok. rewrite map_union_empty. simpl. rewrite Hr.
      split_and!; try done. intros u Hin. split; [done|by apply Hu].
    + apply bind_Ok. exists (). rewrite check_parents_Ok, parents_exist_values. split; [done|].
      apply bind_Ok. exists (). by rewrite cycles_up_paths.
Qed.

Lemma roots_elem us r : r ∈ roots us ↔ OrgUnit.mk r None ∈ us.
Proof.
  unfold roots. rewrite list_elem_of_fmap. split.
  - intros ([f p] & -> & [Hp Hin]%list_elem_of_filter). simpl in *. by subst.
  - intros Hin. exists (OrgUnit.mk r None). by rewrite list_elem_of_filter.
Qed.

(** ** Consequences of the invariant *)

Lemma wf_up_path s x : wf s → is_Some (units s !! x) → ∃ l, up_path (units s) x l.
Proof. intros Hs Hx. eapply up_path_of_rtc; [by apply wf_rooted|by apply wf_root]. Qed.

Lemma contains_true s x : contains s x = true ↔ is_Some (units s !! x).
Proof. apply bool_decide_eq_true. Qed.
Lemma contains_false s x : contains s x = false ↔ units s !! x = None.
Proof. unfold contains. rewrite bool_decide_eq_false. symmetry. apply eq_None_not_Some. Qed.

Lemma up_path_to_root s x l :
  wf s → up_path (units s) x l → last l = Some (root s).
Proof.
  intros Hs Hl. destruct (up_path_last _ _ _ Hl) as (r & Hr & Hm).
  by rewrite (wf_one_root s Hs r Hm) in Hr.
Qed.

(** Rootedness along up-paths: the form the operations preserve. *)
Lemma wf_rooted_iff s :
  units s !! root s = Some None → (∀ x, units s !! x = Some None → x = root s) →
  ((∀ x, is_Some (units s !! x) → rtc (edge s) x (root s)) ↔
   ∀ x, is_Some (units s !! x) → ∃ l, up_path (units s) x l).
Proof.
  intros Hr Hone. split; intros Hx x Hin.
  - eapply up_path_of_rtc; [by apply Hx|done].
  - destruct (Hx x Hin) as [l Hl]. apply (up_path_ancestors _ _ _ _ Hl).
    destruct (up_path_last _ _ _ Hl) as (r & Hlast & Hm). apply Hone in Hm as <-.
    by apply last_Some_elem_of in Hlast.
Qed.

Lemma path_loop_Ok m fuel x l acc :
  parents_exist m → up_path m x (x :: l) → length l ≤ fuel →
  path_loop m fuel x acc = Ok (acc ++ l).
Proof.
  intros Hp. revert x l acc. induction fuel as [|fuel IH]; intros x l acc Hx Hlen; simpl.
  - destruct l; [|simpl in Hlen; lia]. inversion Hx as [? Hr|? q l' Hq Hl']; subst.
    + by rewrite Hr, app_nil_r.
    + by destruct (up_path_head _ _ _ Hl').
  - inversion Hx as [? Hr|? q l' Hq Hl']; subst; [by rewrite Hr, app_nil_r|].
    rewrite Hq. destruct (up_path_in_dom _ _ _ Hl') as [o Ho]. rewrite Ho.
    destruct (up_path_head _ _ _ Hl') as [l'' ->]. simpl in Hlen.
    rewrite (IH q l''); [by rewrite <-app_assoc|done|lia].
Qed.

Lemma path_Ok s x p :
  wf s → (path s x = Ok p ↔ up_path (units s) x (reverse p)).
Proof.
  intros Hs. unfold path. split.
  - intros H. apply bind_Ok in H as (o & Ho%ok_or_Ok & H).
    apply bind_Ok in H as (l & Hl & [= <-]). rewrite reverse_involutive.
    destruct (wf_up_path s x Hs) as [l' Hl']; [by eexists|].
    destruct (up_path_head _ _ _ Hl') as [l'' ->].
    rewrite (path_loop_Ok _ _ _ l'') in Hl; [by injection Hl as <-|by apply wf_parents|done|].
    pose proof (up_path_length _ _ _ Hl'). simpl in *. lia.
  - intros Hup. destruct (up_path_head _ _ _ Hup) as [l Hl].
    destruct (up_path_in_dom _ _ _ Hup) as [o Ho]. rewrite Ho. cbn [mbind result_bind ok_or].
    rewrite Hl in Hup. rewrite (path_loop_Ok _ _ _ l); [|by apply wf_parents|done|].
    + cbn [mbind result_bind]. simpl. by rewrite <-Hl, reverse_involutive.
    + pose proof (up_path_length _ _ _ Hup). simpl in *. lia.
Qed.
Lemma path_total s x : wf s → is_Some (units s !! x) → ∃ p, path s x = Ok p.
Proof.
  intros Hs Hx. destruct (wf_up_path s x Hs Hx) as [l Hl]. exists (reverse l).
  apply path_Ok; [done|]. by rewrite reverse_involutive.
Qed.
Lemma path_unknown s x : units s !! x = None → path s x = Err (unknown_unit x).
Proof. intros Hx. unfold path. by rewrite Hx. Qed.

Lemma path_elem s x p a : wf s → path s x = Ok p → (a ∈ p ↔ rtc (edge s) x a).
Proof.
  intros Hs Hp%path_Ok; [|done]. rewrite <-(up_path_ancestors _ _ _ a Hp).
  by rewrite elem_of_reverse.
Qed.

Lemma path_adjacent s x p i a b :
  wf s → path s x = Ok p → p !! i = Some a → p !! S i = Some b →
  parent s b = Ok (Some a).
Proof.
  intros Hs Hp%path_Ok Ha Hb; [|done].
  assert (S i < length p) as Hi by (by eapply lookup_lt_Some).
  rewrite <-(reverse_involutive p) in Ha, Hb.
  apply reverse_lookup_Some in Ha as [Ha _], Hb as [Hb _]. rewrite length_reverse in *.
  apply ok_or_Ok. apply (up_path_adjacent _ _ _ (length p - S (S i)) _ _ Hp Hb).
  by replace (S (length p - S (S i))) with (length p - S i) by lia.
Qed.

Lemma below_spec s x a :
  wf s → is_Some (units s !! x) → is_Some (units s !! a) →
  ∃ b, is_at_or_below s x a = Ok b ∧ (b = true ↔ rtc (edge s) x a).
Proof.
  intros Hs Hx Ha. destruct (path_total s x Hs Hx) as [p Hp].
  unfold is_at_or_below. rewrite Hp. cbn [mbind result_bind].
  rewrite (proj2 (contains_true s a) Ha). simpl. eexists. split; [done|].
  rewrite bool_decide_eq_true. by apply path_elem.
Qed.
Lemma below_Ok s x a b :
  wf s → is_at_or_below s x a = Ok b →
  is_Some (units s !! x) ∧ is_Some (units s !! a) ∧ (b = true ↔ rtc (edge s) x a).
Proof.
  intros Hs H. assert (is_Some (units s !! x)) as Hx.
  { destruct (units s !! x) eqn:Hx; [done|]. unfold is_at_or_below in H.
    by rewrite path_unknown in H. }
  assert (is_Some (units s !! a)) as Ha.
  { unfold is_at_or_below in H. inv_ok. bool_prop. by apply contains_true. }
  destruct (below_spec s x a Hs Hx Ha) as (b' & Hb & Hiff). rewrite Hb in H.
  by simplify_eq.
Qed.

Lemma below_not_Stuck s x a w : wf s → is_at_or_below s x a ≠ Stuck w.
Proof.
  intros Hs. unfold is_at_or_below. destruct (units s !! x) eqn:Hx.
  - destruct (path_total s x Hs) as [p ->]; [by eexists|]. cbn [mbind result_bind].
    by case_match.
  - by rewrite path_unknown.
Qed.

(** ** The mutations *)

Lemma add_Ok s f o s' :
  add s (OrgUnit.mk f o) = Ok s' ↔
  ∃ p, o = Some p ∧ is_Some (units s !! p) ∧ units s !! f = None ∧
       Fgrn.organization f = organization s ∧
       s' = mk (<[f:=Some p]> (units s)) (root s) (organization s).
Proof.
  unfold add. destruct o as [p|]; [|naive_solver].
  destruct (contains s p) eqn:Hp; simpl.
  2: { apply contains_false in Hp. split; [done|].
       intros (? & [= <-] & [] & _). congruence. }
  apply contains_true in Hp. destruct (contains s f) eqn:Hf.
  { apply contains_true in Hf as [? Hf]. split; [done|]. naive_solver congruence. }
  apply contains_false in Hf. case_bool_decide; naive_solver.
Qed.

Lemma reparent_Ok s n p s' :
  wf s →
  (reparent s n p = Ok s' ↔
   is_Some (units s !! n) ∧ n ≠ root s ∧ is_Some (units s !! p) ∧ ¬ rtc (edge s) p n ∧
   s' = mk (<[n:=Some p]> (units s)) (root s) (organization s)).
Proof.
  intros Hs. unfold reparent. destruct (contains s n) eqn:Hn; simpl.
  2: { apply contains_false in Hn. split; [done|]. intros [[] _]. congruence. }
  apply contains_true in Hn. case_bool_decide as Hr; [naive_solver|].
  destruct (contains s p) eqn:Hp; simpl.
  2: { apply contains_false in Hp. split; [done|]. intros (_ & _ & [] & _). congruence. }
  apply contains_true in Hp.
  destruct (below_spec s p n Hs Hp Hn) as (b & Hb & Hiff). rewrite Hb.
  cbn [mbind result_bind]. destruct b; naive_solver.
Qed.

Lemma wf_intro_up s :
  units s !! root s = Some None → (∀ x, units s !! x = Some None → x = root s) →
  (∀ x, is_Some (units s !! x) → ∃ l, up_path (units s) x l) →
  (∀ x, is_Some (units s !! x) →
        Fgrn.organization x = organization s ∧ Fgrn.kind x = FgrnKind.OrgUnit) →
  wf s.
Proof.
  intros Hr Hone Hup Hok. split; [done|done| |by apply wf_rooted_iff|by apply Hok..].
  intros x p Hxp. destruct (Hup x) as [l Hl]; [by eexists|].
  inversion Hl as [|? q l' Hq Hl']; subst; unfold parent_edge in *; [congruence|].
  assert (p = q) as -> by congruence. by eapply up_path_in_dom.
Qed.

Lemma spine_try_new_wf us s : Forall OrgUnit.wf us → try_new us = Ok s → wf s.
Proof.
  intros Hus (first & us' & r & Heq & -> & Hnd & Horg & Hr & Hp & Hup)%spine_try_new_Ok.
  simpl in Horg. apply wf_intro_up; simpl; [| |done|].
  - apply unit_map_lookup; [done|]. apply roots_elem. rewrite Hr. left.
  - intros x Hx%unit_map_lookup; [|done]. apply roots_elem in Hx.
    rewrite Hr in Hx. by apply list_elem_of_singleton in Hx.
  - intros x ([f p] & -> & Hin)%unit_map_in%list_elem_of_fmap. simpl.
    split; [by apply (Horg _ Hin)|].
    rewrite Forall_forall in Hus. apply (OrgUnit.wf_kind _ (Hus _ Hin)).
Qed.

Lemma add_wf s u s' : wf s → OrgUnit.wf u → add s u = Ok s' → wf s'.
Proof.
  intros Hs Hu H. destruct u as [f o].
  apply add_Ok in H as (p & -> & Hp & Hf & Horg & ->).
  apply wf_intro_up; simpl.
  - rewrite lookup_insert_ne; [by apply wf_root|]. intros ->. by rewrite (wf_root s Hs) in Hf.
  - intros x. rewrite lookup_insert. case_decide; [done|]. by apply wf_one_root.
  - assert (∀ x l, up_path (units s) x l → up_path (<[f:=Some p]> (units s)) x l) as Hmono.
    { intros x l Hl. apply up_path_insert_notin; [done|]. intros Hin.
      destruct (up_path_dom _ _ _ _ Hl Hin). congruence. }
    intros x. rewrite lookup_insert. case_decide as Hfx.
    + subst x. intros _. destruct (wf_up_path s p Hs Hp) as [l Hl]. exists (f :: l).
      apply (up_step _ _ p); [by apply lookup_insert_eq|by apply Hmono].
    + intros Hx. destruct (wf_up_path s x Hs Hx) as [l Hl]. eauto.
  - intros x. rewrite lookup_insert. case_decide as Hfx.
    + subst x. intros _. split; [done|]. by apply OrgUnit.wf_kind in Hu.
    + intros Hx. split; [by apply wf_org|by apply (wf_kind s)].
Qed.

Lemma reparent_wf s n p s' : wf s → reparent s n p = Ok s' → wf s'.
Proof.
  intros Hs H. apply reparent_Ok in H as (Hn & Hr & Hp & Hnp & ->); [|done].
  destruct (wf_up_path s p Hs Hp) as [lp Hlp].
  assert (n ∉ lp) as Hnlp by (by rewrite (up_path_ancestors _ _ _ n Hlp)).
  assert (∀ x, is_Some (<[n:=Some p]> (units s) !! x) → is_Some (units s !! x)) as Hdom.
  { intros x. rewrite lookup_insert. by case_decide; subst. }
  apply wf_intro_up; simpl.
  - rewrite lookup_insert_ne by done. by apply wf_root.
  - intros x. rewrite lookup_insert. case_decide; [done|]. by apply wf_one_root.
  - intros x Hx%Hdom. destruct (wf_up_path s x Hs Hx) as [l Hl].
    destruct (decide (n ∈ l)) as [Hin|Hnin].
    + apply list_elem_of_split_l in Hin as (l1 & l2 & -> & Hl1).
      exists (l1 ++ n :: lp). by eapply up_path_insert_in.
    + exists l. by apply up_path_insert_notin.
  - intros x Hx%Hdom. split; [by apply wf_org|by apply (wf_kind s)].
Qed.

Lemma reachable_wf s : reachable s → wf s.
Proof.
  induction 1; eauto using spine_try_new_wf, add_wf, reparent_wf.
Qed.

Lemma reverse_cons_app {A} (x : A) l1 l2 :
  reverse (l1 ++ x :: l2) = reverse l2 ++ x :: reverse l1.
Proof. rewrite reverse_app, reverse_cons, <-app_assoc. done. Qed.
End SpineFacts.

(** validation accepts exactly the lists of org units that form a
    single-rooted tree, and the spine it returns is that tree. *)
Theorem spine_try_new_iff_tree us r :
  (∃ s, Spine.try_new us = Ok s ∧ Spine.root s = r ∧ Spine.units s = Spine.unit_map us) ↔
  Spine.is_tree us r.
Proof.
  split.
  - intros (s & (first & us' & r' & Heq & -> & Hnd & Horg & Hr & Hp & Hup)%SpineFacts.spine_try_new_Ok
              & <- & _). simpl in *.
    assert (Spine.unit_map us !! r' = Some None) as Hroot.
    { apply SpineFacts.unit_map_lookup; [done|]. apply SpineFacts.roots_elem. rewrite Hr. left. }
    assert (∀ x, Spine.unit_map us !! x = Some None → x = r') as Hone.
    { intros x Hx%SpineFacts.unit_map_lookup%SpineFacts.roots_elem; [|done].
      rewrite Hr in Hx. by apply list_elem_of_singleton in Hx. }
    split; [done| | | |done].
    + intros u v Hu Hv. by rewrite (Horg u), (Horg v).
    + intros [f o] Hu Ho. simpl in *. subst o. apply Hone.
      by apply SpineFacts.unit_map_lookup.
    + intros u Hu.
      apply (SpineFacts.wf_rooted_iff (Spine.mk (Spine.unit_map us) r' (Fgrn.organization r')));
        simpl; [done..|]. apply SpineFacts.unit_map_in. by apply list_elem_of_fmap_2.
  - intros [Hnd Horg Hroot Hrooted Hhas].
    destruct us as [|first us']; [done|]. set (us := first :: us') in *.
    assert (∀ x, is_Some (Spine.unit_map us !! x) → rtc (parent_edge (Spine.unit_map us)) x r)
      as Hrtc.
    { intros x (u & -> & Hu)%SpineFacts.unit_map_in%list_elem_of_fmap. by apply Hrooted. }
    assert (∀ x, is_Some (Spine.unit_map us !! x) → ∃ l, up_path (Spine.unit_map us) x l) as Hup.
    { intros x Hx. eapply up_path_of_rtc; [by apply Hrtc|done]. }
    eexists. split; [|split]; [apply SpineFacts.spine_try_new_Ok; exists first, us', r; split_and!;
      [done|done|done| | | |done]|done|done]; simpl.
    + intros u Hu. apply Horg; [done|left].
    + assert (r ∈ SpineFacts.roots us) as Hin
        by (by apply SpineFacts.roots_elem, SpineFacts.unit_map_lookup).
      assert (NoDup (SpineFacts.roots us)) as Hnd'.
      { eapply sublist_NoDup; [done|]. apply fmap_sublist, sublist_filter. }
      assert (∀ x, x ∈ SpineFacts.roots us → x = r) as Hall.
      { intros x Hx%SpineFacts.roots_elem. by apply (Hroot _ Hx). }
      destruct (SpineFacts.roots us) as [|a [|b l]]; [set_solver|f_equal; apply Hall; left|].
      exfalso. assert (a = r) as -> by (apply Hall; left).
      assert (b = r) as -> by (apply Hall; right; left).
      apply NoDup_cons in Hnd' as [Hnd' _]. apply Hnd'. left.
    + intros x p Hxp. destruct (Hup x) as [l Hl]; [by eexists|].
      inversion Hl as [|? q l' Hq Hl']; subst; unfold parent_edge in *; [congruence|].
      assert (p = q) as -> by congruence. by eapply up_path_in_dom.
Qed.

(** A small organization: [root] above [eng] and [ops], [web] below [eng]. *)
Module SpineSample.
Definition unit (id : string) : Fgrn.t := Fgrn.org_unit (Segment.mk "acme") (NativeId.mk id).
Definition root : Fgrn.t := unit "root".
Definition eng : Fgrn.t := unit "eng".
Definition ops : Fgrn.t := unit "ops".
Definition web : Fgrn.t := unit "web".
Definition units : list OrgUnit.t :=
  [OrgUnit.mk root None; OrgUnit.mk eng (Some root); OrgUnit.mk ops (Some root);
   OrgUnit.mk web (Some eng)].
Definition spine : Spine.t := Spine.mk (Spine.unit_map units) root (Segment.mk "acme").

Lemma spine_valid : Forall OrgUnit.wf units ∧ Spine.try_new units = Ok spine.
Proof. split; [repeat constructor|by_eval]. Qed.
Lemma spine_wf : Spine.wf spine.
Proof. destruct spine_valid. by eapply SpineFacts.spine_try_new_wf. Qed.
End SpineSample.

(** C38: every spine reachable by construction, [add] and [reparent] is a
    single-rooted tree of one organization, and has no cycle. *)
Theorem spine_reachable_wf s :
  Spine.reachable s → Spine.wf s ∧ ∀ x, ¬ tc (Spine.edge s) x x.
Proof.
  intros Hs%SpineFacts.reachable_wf. split; [done|]. intros x Hc.
  assert (is_Some (Spine.units s !! x)) as Hx.
  { inversion Hc as [? y Hxy|? y ? Hxy]; subst; unfold Spine.edge, parent_edge in Hxy;
      by eexists. }
  destruct (SpineFacts.wf_up_path s x Hs Hx) as [l Hl].
  by apply (up_path_acyclic _ _ _ Hl).
Qed.

(** Witness: the sample spine with [web] moved below [ops]. *)
Lemma spine_reachable_wf_witness :
  ∃ s, Spine.reparent SpineSample.spine SpineSample.web SpineSample.ops = Ok s ∧
       Spine.wf s ∧ ∀ x, ¬ tc (Spine.edge s) x x.
Proof.
  exists (Spine.mk (<[SpineSample.web := Some SpineSample.ops]> (Spine.units SpineSample.spine))
            SpineSample.root (Segment.mk "acme")).
  split; [by_eval|]. apply spine_reachable_wf.
  apply (Spine.reach_reparent SpineSample.spine SpineSample.web SpineSample.ops); [|by_eval].
  by eapply Spine.reach_new; apply SpineSample.spine_valid.
Defined.

(** [path] returns, root first, the repetition-free chain of ancestors
    of a unit; it terminates without panicking and fails only on unknown
    units. *)
Theorem spine_path_correct s x :
  Spine.wf s →
  match Spine.units s !! x with
  | None => Spine.path s x = Err (Spine.unknown_unit x)
  | Some _ => ∃ p, Spine.path s x = Ok p ∧ head p = Some (Spine.root s) ∧ last p = Some x ∧
      NoDup p ∧ (∀ a, a ∈ p ↔ rtc (Spine.edge s) x a) ∧
      (∀ i a b, p !! i = Some a → p !! S i = Some b → Spine.parent s b = Ok (Some a))
  end.
Proof.
  intros Hs. destruct (Spine.units s !! x) eqn:Hx; [|by apply SpineFacts.path_unknown].
  destruct (SpineFacts.path_total s x Hs) as [p Hp]; [by eexists|].
  pose proof Hp as Hup%SpineFacts.path_Ok; [|done]. exists p.
  split; [done|]. split_and!.
  - rewrite <-(reverse_involutive p), head_reverse. by apply SpineFacts.up_path_to_root in Hup.
  - rewrite <-(reverse_involutive p), last_reverse.
    by destruct (up_path_head _ _ _ Hup) as [l' ->].
  - rewrite <-(reverse_Permutation p). by eapply up_path_NoDup.
  - intros a. by apply SpineFacts.path_elem.
  - intros i a b. by apply (SpineFacts.path_adjacent s x p).
Qed.

(** Witness: the path of [web]. *)
Lemma spine_path_correct_witness :
  Spine.path SpineSample.spine SpineSample.web =
    Ok [SpineSample.root; SpineSample.eng; SpineSample.web] ∧
  ∃ p, Spine.path SpineSample.spine SpineSample.web = Ok p ∧
       ∀ a, a ∈ p ↔ rtc (Spine.edge SpineSample.spine) SpineSample.web a.
Proof.
  split; [by_eval|].
  pose proof (spine_path_correct SpineSample.spine SpineSample.web SpineSample.spine_wf) as H.
  replace (Spine.units SpineSample.spine !! SpineSample.web) with (Some (Some SpineSample.eng))
    in H by by_eval.
  destruct H as (p & Hp & _ & _ & _ & Ha & _).
  exists p. split; [exact Hp|exact Ha].
Defined.

(** [is_at_or_below] decides the subtree relation: it answers on known
    units, [true] exactly when the first is the second or a descendant. *)
Theorem spine_below_decides s x a :
  Spine.wf s →
  (∃ b, Spine.is_at_or_below s x a = Ok b ∧
        is_Some (Spine.units s !! x) ∧ is_Some (Spine.units s !! a) ∧
        (b = true ↔ rtc (Spine.edge s) x a)) ∨
  (Spine.units s !! x = None ∧ Spine.is_at_or_below s x a = Err (Spine.unknown_unit x)) ∨
  (is_Some (Spine.units s !! x) ∧ Spine.units s !! a = None ∧
   Spine.is_at_or_below s x a = Err (Spine.unknown_unit a)).
Proof.
  intros Hs. destruct (Spine.units s !! x) eqn:Hx.
  2: { right; left. split; [done|]. unfold Spine.is_at_or_below.
       by rewrite SpineFacts.path_unknown. }
  destruct (Spine.units s !! a) eqn:Ha.
  - left. destruct (SpineFacts.below_spec s x a Hs) as (b & Hb & Hiff); [by eexists..|].
    exists b. split_and!; try done; by eexists.
  - right; right. split_and!; [done..|]. unfold Spine.is_at_or_below.
    destruct (SpineFacts.path_total s x Hs) as [p ->]; [by eexists|].
    cbn [mbind result_bind]. by rewrite (proj2 (SpineFacts.contains_false s a) Ha).
Qed.

(** Witness: [web] is below [eng]; about an unknown unit the question is an error. *)
Lemma spine_below_decides_witness :
  Spine.is_at_or_below SpineSample.spine SpineSample.web SpineSample.eng = Ok true ∧
  rtc (Spine.edge SpineSample.spine) SpineSample.web SpineSample.eng.
Proof.
  assert (Spine.is_at_or_below SpineSample.spine SpineSample.web SpineSample.eng = Ok true)
    as E by by_eval.
  split; [exact E|].
  destruct (spine_below_decides SpineSample.spine SpineSample.web SpineSample.eng
              SpineSample.spine_wf) as [(b & Hb & _ & _ & Hi)|[[_ Hn]|(_ & _ & Hn)]]; [|congruence..].
  apply Hi. congruence.
Defined.

(** C37: [reparent] succeeds exactly when both units exist, the node is not the
    root and the new parent is not below the node; it changes one edge, keeps
    every other path, and moves the whole subtree below the new parent. *)
Theorem spine_reparent_moves_subtree s n p :
  Spine.wf s →
  (is_ok (Spine.reparent s n p) = true ↔
   is_Some (Spine.units s !! n) ∧ n ≠ Spine.root s ∧ is_Some (Spine.units s !! p) ∧
   ¬ rtc (Spine.edge s) p n) ∧
  ∀ s' pp, Spine.reparent s n p = Ok s' → Spine.path s p = Ok pp →
    Spine.units s' = <[n:=Some p]> (Spine.units s) ∧ Spine.root s' = Spine.root s ∧
    (∀ x px, Spine.path s x = Ok px → n ∉ px → Spine.path s' x = Ok px) ∧
    (∀ x l1 l2, Spine.path s x = Ok (l1 ++ n :: l2) → n ∉ l2 →
                Spine.path s' x = Ok (pp ++ n :: l2)).
Proof.
  intros Hs. split.
  - rewrite is_ok_true. setoid_rewrite SpineFacts.reparent_Ok; [|done]. naive_solver.
  - intros s' pp H Hpp. pose proof (SpineFacts.reparent_wf s n p s' Hs H) as Hs'.
    apply SpineFacts.reparent_Ok in H as (Hn & Hr & Hp & Hnp & ->); [|done].
    apply SpineFacts.path_Ok in Hpp; [|done].
    assert (n ∉ reverse pp) as Hnpp by (by rewrite (up_path_ancestors _ _ _ n Hpp)).
    split_and!; [done|done|..].
    + intros x px Hpx%SpineFacts.path_Ok Hnin; [|done]. apply SpineFacts.path_Ok; [done|].
      apply up_path_insert_notin; [done|]. by rewrite elem_of_reverse.
    + intros x l1 l2 Hpx%SpineFacts.path_Ok Hnin; [|done]. apply SpineFacts.path_Ok; [done|].
      rewrite SpineFacts.reverse_cons_app in Hpx |- *.
      eapply up_path_insert_in; [done|by rewrite elem_of_reverse|done|done].
Qed.

(** Witness: [eng] moves below [ops] and takes [web] along; [eng] cannot move below [web]. *)
Lemma spine_reparent_moves_subtree_witness :
  is_ok (Spine.reparent SpineSample.spine SpineSample.eng SpineSample.web) = false ∧
  ∃ s', Spine.reparent SpineSample.spine SpineSample.eng SpineSample.ops = Ok s' ∧
    Spine.path s' SpineSample.web =
      Ok [SpineSample.root; SpineSample.ops; SpineSample.eng; SpineSample.web].
Proof.
  split; [by_eval|].
  exists (Spine.mk (<[SpineSample.eng := Some SpineSample.ops]> (Spine.units SpineSample.spine))
            SpineSample.root (Segment.mk "acme")).
  split; [by_eval|].
  apply (spine_reparent_moves_subtree SpineSample.spine SpineSample.eng SpineSample.ops
           SpineSample.spine_wf) with
    (pp := [SpineSample.root; SpineSample.ops]) (l1 := [SpineSample.root])
    (l2 := [SpineSample.web]).
  - by_eval.
  - by_eval.
  - by_eval.
  - by_eval.
Defined.

(** [add] succeeds exactly for a fresh unit of the organization below a
    known parent; it hangs the unit below that parent and keeps every path. *)
Theorem spine_add_extends s f o :
  Spine.wf s →
  (is_ok (Spine.add s (OrgUnit.mk f o)) = true ↔
   ∃ p, o = Some p ∧ is_Some (Spine.units s !! p) ∧ Spine.units s !! f = None ∧
        Fgrn.organization f = Spine.organization s) ∧
  ∀ s' p pp, OrgUnit.wf (OrgUnit.mk f o) → Spine.add s (OrgUnit.mk f o) = Ok s' →
    o = Some p → Spine.path s p = Ok pp →
    Spine.path s' f = Ok (pp ++ [f]) ∧
    (∀ x px, Spine.path s x = Ok px → Spine.path s' x = Ok px).
Proof.
  intros Hs. split.
  - rewrite is_ok_true. setoid_rewrite SpineFacts.add_Ok. naive_solver.
  - intros s' p pp Hu H -> Hpp. pose proof (SpineFacts.add_wf s _ s' Hs Hu H) as Hs'.
    apply SpineFacts.add_Ok in H as (p' & [= <-] & Hp & Hf & Horg & ->).
    apply SpineFacts.path_Ok in Hpp; [|done].
    assert (∀ x l, up_path (Spine.units s) x l →
                   up_path (<[f:=Some p]> (Spine.units s)) x l) as Hmono.
    { intros x l Hl. apply up_path_insert_notin; [done|]. intros Hin.
      destruct (up_path_dom _ _ _ _ Hl Hin). congruence. }
    split.
    + apply SpineFacts.path_Ok; [done|]. rewrite reverse_snoc.
      apply (up_step _ _ p); [by apply lookup_insert_eq|by apply Hmono].
    + intros x px Hpx%SpineFacts.path_Ok; [|done]. apply SpineFacts.path_Ok; [done|].
      by apply Hmono.
Qed.

(** Witness: a unit added below [web]. *)
Lemma spine_add_extends_witness :
  ∃ s', Spine.add SpineSample.spine (OrgUnit.mk (SpineSample.unit "css") (Some SpineSample.web))
          = Ok s' ∧
    Spine.path s' (SpineSample.unit "css") =
      Ok [SpineSample.root; SpineSample.eng; SpineSample.web; SpineSample.unit "css"].
Proof.
  exists (Spine.mk (<[SpineSample.unit "css" := Some SpineSample.web]>
                      (Spine.units SpineSample.spine)) SpineSample.root (Segment.mk "acme")).
  split; [by_eval|].
  refine (proj1 (proj2 (spine_add_extends SpineSample.spine (SpineSample.unit "css")
                  (Some SpineSample.web) SpineSample.spine_wf) _ SpineSample.web
                  [SpineSample.root; SpineSample.eng; SpineSample.web] _ _ eq_refl _)); by_eval.
Defined.

