(* ===== verification/Selector.v ===== *)
(** Selectors ([crates/core/src/selector.rs]): position queries
    [org:{organization}.{id}...[/**]], parsed, printed and resolved against a
    spine. *)

From S2P Require Import Prelude RustStr Ident Fgrn Forest Spine.

Module SelectorScope.
Inductive t := Node | Subtree.
#[global] Instance t_eq_dec : EqDecision t.
Proof. solve_decision. Defined.
End SelectorScope.

Module Selector.
Record t := new {
  organization : Segment.t;
  path : list NativeId.t;
  scope : SelectorScope.t;
}.

Definition to_string (x : t) : string :=
  "org:" +:+ Segment.as_str (organization x) +:+
  join "" ((λ segment, "." +:+ NativeId.as_str segment) <$> path x) +:+
  (if bool_decide (scope x = SelectorScope.Subtree) then "/**" else "").

Definition from_str (s : string) : result Error.t t :=
  match strip_prefix "org:" s with
  | None => Err (Error.Parse "selector" s "selector must start with org:")
  | Some body =>
      let '(body, scope) :=
        match strip_suffix "/**" body with
        | Some stripped => (stripped, SelectorScope.Subtree)
        | None => (body, SelectorScope.Node)
        end in
      if contains_char "/" body
      then Err (Error.Parse "selector" s "selector path may only end with /**")
      else
        let parts := split "." body in
        organization ← Segment.try_new (default EmptyString (head parts));
        path ← mapM NativeId.try_new (tail parts);
        Ok (new organization path scope)
  end.

(** The inner loop: the first unit with the given id below [current]. *)
Fixpoint find_child (spine : Spine.t) (segment : NativeId.t) (current : Fgrn.t)
    (us : list Fgrn.t) : result Error.t (option Fgrn.t) :=
  match us with
  | [] => Ok None
  | unit :: us =>
      if bool_decide (Fgrn.id unit = segment) then
        parent ← Spine.parent spine unit;
        if bool_decide (parent = Some current) then Ok (Some unit)
        else find_child spine segment current us
      else find_child spine segment current us
  end.

(** The outer loop: descend along the path. *)
Fixpoint descend (self : t) (spine : Spine.t) (segments : list NativeId.t) (current : Fgrn.t)
    : result Error.t Fgrn.t :=
  match segments with
  | [] => Ok current
  | segment :: segments =>
      next ← find_child spine segment current (Spine.unit_list spine);
      current ← ok_or next
        (Error.Spine (to_string self) "selector path does not match any org unit");
      descend self spine segments current
  end.

Fixpoint collect_below (spine : Spine.t) (current : Fgrn.t) (us : list Fgrn.t)
    : result Error.t (list Fgrn.t) :=
  match us with
  | [] => Ok []
  | unit :: us =>
      below ← Spine.is_at_or_below spine unit current;
      rest ← collect_below spine current us;
      Ok (if (below : bool) then unit :: rest else rest)
  end.

Definition resolve (self : t) (spine : Spine.t) : result Error.t (list Fgrn.t) :=
  if negb (bool_decide (Spine.organization spine = organization self))
  then Err (Error.Spine (to_string self) "selector organization does not match spine")
  else
    current ← descend self spine (path self) (Spine.root spine);
    match scope self with
    | SelectorScope.Node => Ok [current]
    | SelectorScope.Subtree =>
        resolved ← collect_below spine current (Spine.unit_list spine);
        Ok (merge_sort (cmp_le Fgrn.cmp) resolved)
    end.

Definition wf (x : t) : Prop :=
  Segment.wf (organization x) ∧ Forall NativeId.wf (path x).

(** The ids a selector path can spell: no separator of the selector syntax. *)
Definition spellable (i : NativeId.t) : Prop :=
  contains_char "." (NativeId.as_str i) = false ∧
  contains_char "/" (NativeId.as_str i) = false.

(** [u] is the unit whose path below the root has the given ids. *)
Definition addresses (s : Spine.t) (ids : list NativeId.t) (u : Fgrn.t) : Prop :=
  ∃ us, Spine.path s u = Ok (Spine.root s :: us) ∧ Fgrn.id <$> us = ids.
End Selector.

Module SelectorFacts.
Import Selector.

(** ** Printing and parsing *)

Definition dotted (o : Segment.t) (p : list NativeId.t) : list string :=
  Segment.as_str o :: (NativeId.as_str <$> p).

Lemma body_join o p :
  Segment.as_str o +:+ join "" ((λ segment, "." +:+ NativeId.as_str segment) <$> p) =
  join "." (dotted o p).
Proof.
  unfold dotted. generalize (Segment.as_str o). induction p as [|i p IH]; intros x; simpl.
  - apply str_app_nil_r.
  - rewrite (join_cons "." x) by done. rewrite <-IH. f_equal.
    destruct p; simpl; [by rewrite str_app_nil_r|done].
Qed.

Lemma join_contains c d l :
  contains_char c (String d EmptyString) = false →
  Forall (λ x, contains_char c x = false) l →
  contains_char c (join (String d EmptyString) l) = false.
Proof.
  intros Hd. induction 1 as [|x l Hx Hl IH]; [done|].
  destruct l as [|y l]; [done|]. rewrite join_cons by done.
  rewrite !contains_char_app, Hx, Hd, IH. done.
Qed.
Lemma join_contains_inv c d l x :
  contains_char c (join (String d EmptyString) l) = false → x ∈ l → contains_char c x = false.
Proof.
  induction l as [|y l IH]; [set_solver|]. destruct l as [|z l].
  - intros Hc ->%list_elem_of_singleton. done.
  - rewrite join_cons by done. rewrite !contains_char_app. intros Hc Hx. bool_prop.
    apply elem_of_cons in Hx as [->|Hx]; auto.
Qed.

Lemma native_pieces l p :
  mapM NativeId.try_new l = Ok p ↔ l = NativeId.as_str <$> p ∧ Forall NativeId.wf p.
Proof.
  rewrite mapM_Ok. split.
  - induction 1 as [|x y l p Hx Hl [-> Hp]]; [done|]. simpl.
    rewrite (NativeIdFacts.native_id_try_new_as_str _ _ Hx). split; [done|]. constructor; [|done].
    by eapply NativeIdFacts.native_id_try_new_wf.
  - intros [-> Hp]. by induction Hp; constructor.
Qed.

Lemma body_parse scope' s0 body x :
  (if contains_char "/" body
   then Err (Error.Parse "selector" s0 "selector path may only end with /**")
   else
     organization ← Segment.try_new (default EmptyString (head (split "." body)));
     path ← mapM NativeId.try_new (tail (split "." body));
     Ok (new organization path scope')) = Ok x ↔
  wf x ∧ Forall spellable (path x) ∧ scope x = scope' ∧
  body = join "." (dotted (organization x) (path x)).
Proof.
  split.
  - intros H. destruct (contains_char "/" body) eqn:Hslash; [discriminate H|].
    apply bind_Ok in H as (o & Ho & H). apply bind_Ok in H as (p & Hp & [= <-]).
    apply native_pieces in Hp as [Hp Hwf]. pose proof (split_nonempty "." body) as Hne.
    pose proof (split_pieces "." body) as Hpc. pose proof (join_split "." body) as Hj.
    destruct (split "." body) as [|x l]; [done|]. simpl in *. subst l.
    pose proof (SegmentFacts.segment_try_new_wf _ _ Ho). apply SegmentFacts.segment_try_new_as_str in Ho as <-.
    split_and!; [done| |done|done]. apply Forall_forall. intros i Hi. split.
    + apply Forall_cons in Hpc as [_ Hpc]. rewrite Forall_forall in Hpc.
      apply Hpc. by apply list_elem_of_fmap_2.
    + rewrite <-Hj in Hslash. eapply join_contains_inv; [done|]. right.
      by apply list_elem_of_fmap_2.
  - intros ((Ho & Hp) & Hsp & <- & ->). destruct x as [o p sc]. simpl in *.
    rewrite Forall_forall in Hsp.
    rewrite join_contains; [|done|].
    2: { apply Forall_cons. split; [by apply SegmentFacts.wf_no_byte|].
         apply Forall_forall. intros ? (i & -> & Hi)%list_elem_of_fmap. by apply Hsp. }
    rewrite split_join; [|done|].
    2: { apply Forall_cons. split; [by apply SegmentFacts.wf_no_byte|].
         apply Forall_forall. intros ? (i & -> & Hi)%list_elem_of_fmap. by apply Hsp. }
    simpl. rewrite Ho. cbn [mbind result_bind].
    by rewrite (proj2 (native_pieces _ p)).
Qed.

Lemma dotted_no_slash x :
  wf x → Forall spellable (path x) →
  contains_char "/" (join "." (dotted (organization x) (path x))) = false.
Proof.
  intros [Ho _] Hsp. apply join_contains; [done|]. apply Forall_cons.
  split; [by apply SegmentFacts.wf_no_byte|]. rewrite Forall_forall in Hsp.
  apply Forall_forall. intros ? (i & -> & Hi)%list_elem_of_fmap. by apply Hsp.
Qed.

(** The two ways the body ends. *)
Lemma suffix_scope (sc : SelectorScope.t) body d :
  contains_char "/" d = false →
  (body = d +:+ (if bool_decide (sc = SelectorScope.Subtree) then "/**" else "") ↔
   match strip_suffix "/**" body with
   | Some b => sc = SelectorScope.Subtree ∧ b = d
   | None => sc = SelectorScope.Node ∧ body = d
   end).
Proof.
  intros Hd. destruct (strip_suffix "/**" body) as [b|] eqn:Hb.
  - apply strip_suffix_Some in Hb as ->. destruct sc; simpl.
    + split; [|naive_solver]. rewrite str_app_nil_r. intros <-.
      rewrite contains_char_app in Hd. by apply orb_false_iff in Hd as [_ Hd].
    + split; [|naive_solver]. intros Heq. split; [done|].
      assert (strip_suffix "/**" (d +:+ "/**") = Some b) as Hb by (by apply strip_suffix_Some).
      rewrite (proj2 (strip_suffix_Some "/**" _ d) eq_refl) in Hb. by simplify_eq.
  - destruct sc; simpl; [rewrite str_app_nil_r; naive_solver|].
    split; [|naive_solver]. intros ->. exfalso. apply eq_None_not_Some in Hb. apply Hb.
    eexists. by apply strip_suffix_Some.
Qed.

(** ** Resolution *)

Lemma path_child s v c pc :
  Spine.wf s → Spine.edge s v c → Spine.path s c = Ok pc → Spine.path s v = Ok (pc ++ [v]).
Proof.
  intros Hs He Hpc%SpineFacts.path_Ok; [|done]. apply SpineFacts.path_Ok; [done|].
  rewrite reverse_snoc. by eapply up_step.
Qed.
Lemma path_prefix s u c pc w us :
  Spine.wf s → Spine.path s c = Ok pc → Spine.path s u = Ok (pc ++ w :: us) →
  Spine.edge s w c.
Proof.
  intros Hs Hc%SpineFacts.path_Ok Hu%SpineFacts.path_Ok; [|done..].
  rewrite SpineFacts.reverse_cons_app in Hu. apply up_path_suffix_at in Hu.
  destruct (up_path_head _ _ _ Hc) as [l Hl]. rewrite Hl in Hu.
  inversion Hu as [|? q ? Hq Hup]; subst. by destruct (up_path_head _ _ _ Hup) as [? [= <- _]].
Qed.
Lemma path_inj s u v p : Spine.wf s → Spine.path s u = Ok p → Spine.path s v = Ok p → u = v.
Proof.
  intros Hs Hu%SpineFacts.path_Ok Hv%SpineFacts.path_Ok; [|done..].
  destruct (up_path_head _ _ _ Hu) as [? Hu'], (up_path_head _ _ _ Hv) as [? Hv']. congruence.
Qed.
Lemma path_dom s u p x : Spine.wf s → Spine.path s u = Ok p → x ∈ p → is_Some (Spine.units s !! x).
Proof.
  intros Hs Hu%SpineFacts.path_Ok Hx; [|done]. eapply up_path_dom; [done|].
  by rewrite elem_of_reverse.
Qed.

Lemma find_child_spec s seg c us :
  (∀ x, x ∈ us → is_Some (Spine.units s !! x)) →
  ∃ o, find_child s seg c us = Ok o ∧
       match o with
       | Some u => u ∈ us ∧ Fgrn.id u = seg ∧ Spine.edge s u c
       | None => ∀ u, u ∈ us → Fgrn.id u = seg → ¬ Spine.edge s u c
       end.
Proof.
  induction us as [|v us IH]; intros Hus; simpl.
  { exists None. split; [done|]. set_solver. }
  destruct IH as (o & Ho & Hspec); [set_solver|].
  assert ((Fgrn.id v = seg → ¬ Spine.edge s v c) →
    ∃ o, find_child s seg c us = Ok o ∧
       match o with
       | Some u => u ∈ v :: us ∧ Fgrn.id u = seg ∧ Spine.edge s u c
       | None => ∀ u, u ∈ v :: us → Fgrn.id u = seg → ¬ Spine.edge s u c
       end) as Hskip.
  { intros Hv. exists o. split; [done|]. destruct o as [u|].
    - destruct Hspec as (? & ? & ?). split_and!; [by right|done..].
    - intros u [->|Hu]%elem_of_cons; eauto. }
  case_bool_decide as Hid; [|by apply Hskip].
  destruct (Hus v) as [p Hp]; [left|]. unfold Spine.parent. rewrite Hp.
  cbn [mbind result_bind ok_or]. case_bool_decide as Hpc.
  - exists (Some v). split; [done|]. split_and!; [left|done|]. unfold Spine.edge, parent_edge.
    congruence.
  - apply Hskip. intros _. unfold Spine.edge, parent_edge. congruence.
Qed.

Definition units_wf (s : Spine.t) : Prop := ∀ x, is_Some (Spine.units s !! x) → Fgrn.wf x.

(** In a spine of well-formed FGRNs the id determines the unit. *)
Lemma unit_id_inj s x y :
  Spine.wf s → units_wf s → is_Some (Spine.units s !! x) → is_Some (Spine.units s !! y) →
  Fgrn.id x = Fgrn.id y → x = y.
Proof.
  intros Hs Hu Hx Hy Hid. apply FgrnFacts.wf_plain_eq; [by apply Hu..| | |done|].
  - by rewrite (Spine.wf_org s Hs x), (Spine.wf_org s Hs y).
  - by rewrite (Spine.wf_kind s Hs x), (Spine.wf_kind s Hs y).
  - by rewrite (Spine.wf_kind s Hs x).
Qed.

Lemma descend_spec self s ids c pc u :
  Spine.wf s → units_wf s → Spine.path s c = Ok pc →
  (descend self s ids c = Ok u ↔
   ∃ us, Spine.path s u = Ok (pc ++ us) ∧ Fgrn.id <$> us = ids).
Proof.
  intros Hs Hwf. revert c pc. induction ids as [|seg ids IH]; intros c pc Hc; simpl.
  { split.
    - intros [= <-]. exists []. by rewrite app_nil_r.
    - intros (us & Hu & ->%fmap_nil_inv). rewrite app_nil_r in Hu. f_equal. by eapply path_inj. }
  assert (∀ x, x ∈ Spine.unit_list s ↔ is_Some (Spine.units s !! x)) as Hlist
    by apply SpineFacts.unit_list_elem.
  destruct (find_child_spec s seg c (Spine.unit_list s)) as (o & Ho & Hspec); [apply Hlist|].
  rewrite Ho. cbn [mbind result_bind].
  assert (∀ us, Spine.path s u = Ok (pc ++ us) → Fgrn.id <$> us = seg :: ids →
    ∃ w us', us = w :: us' ∧ Fgrn.id w = seg ∧ Fgrn.id <$> us' = ids ∧
             is_Some (Spine.units s !! w) ∧ Spine.edge s w c) as Hsplit.
  { intros [|w us] Hu Hids; [done|]. injection Hids as Hw Hids. exists w, us.
    split_and!; [done..| |by eapply path_prefix]. eapply path_dom; [done..|set_solver]. }
  destruct o as [v|]; cbn [mbind result_bind ok_or].
  - destruct Hspec as (Hv%Hlist & Hid & He).
    rewrite (IH v (pc ++ [v])) by (by eapply path_child). split.
    + intros (us & Hu & <-). exists (v :: us). by rewrite <-app_assoc in Hu; subst.
    + intros (us & Hu & Hids). destruct (Hsplit us Hu Hids) as (w & us' & -> & Hw & <- & Hin & _).
      assert (w = v) as -> by (eapply unit_id_inj; [done..|congruence]).
      exists us'. by rewrite <-app_assoc.
  - split; [done|]. intros (us & Hu & Hids).
    destruct (Hsplit us Hu Hids) as (w & us' & -> & Hw & _ & Hin & He).
    destruct (Hspec w); [by apply Hlist|done|done].
Qed.

Lemma collect_below_spec s c us :
  Spine.wf s → is_Some (Spine.units s !! c) →
  (∀ x, x ∈ us → is_Some (Spine.units s !! x)) → NoDup us →
  ∃ l, collect_below s c us = Ok l ∧ NoDup l ∧
       ∀ x, x ∈ l ↔ x ∈ us ∧ rtc (Spine.edge s) x c.
Proof.
  intros Hs Hc Hus Hnd. induction Hnd as [|v us Hv Hnd IH]; simpl.
  { exists []. split; [done|]. split; [constructor|set_solver]. }
  destruct IH as (l & Hl & Hlnd & Hspec); [set_solver|].
  destruct (SpineFacts.below_spec s v c Hs) as (b & Hb & Hiff); [apply Hus; left|done|].
  rewrite Hb. cbn [mbind result_bind]. rewrite Hl. cbn [mbind result_bind].
  eexists. split; [done|]. destruct b.
  - split; [apply NoDup_cons; split; [by rewrite Hspec; intros [? _]|done]|].
    intros x. rewrite !elem_of_cons, Hspec. naive_solver.
  - split; [done|]. intros x. rewrite elem_of_cons, Hspec. naive_solver.
Qed.
End SelectorFacts.

(** [FromStr] and [Display] of selectors are mutually inverse on the
    selectors whose ids contain neither ['.'] nor ['/'], and the parser
    produces no other selector. *)
Theorem selector_parse_print s x :
  Selector.from_str s = Ok x ↔
  Selector.wf x ∧ Forall Selector.spellable (Selector.path x) ∧ s = Selector.to_string x.
Proof.
  unfold Selector.from_str, Selector.to_string.
  rewrite <-str_app_assoc with (x := Segment.as_str _), SelectorFacts.body_join.
  destruct (strip_prefix "org:" s) as [body|] eqn:Hs.
  2: { split; [done|]. intros (_ & _ & ->). exfalso.
       apply eq_None_not_Some in Hs. apply Hs. eexists. by apply strip_prefix_Some. }
  apply strip_prefix_Some in Hs as ->.
  assert ((Selector.wf x ∧ Forall Selector.spellable (Selector.path x) ∧
           "org:" +:+ body = "org:" +:+
             join "." (SelectorFacts.dotted (Selector.organization x) (Selector.path x)) +:+
             (if bool_decide (Selector.scope x = SelectorScope.Subtree) then "/**" else "")) ↔
          (Selector.wf x ∧ Forall Selector.spellable (Selector.path x) ∧
           match strip_suffix "/**" body with
           | Some b => Selector.scope x = SelectorScope.Subtree ∧
               b = join "." (SelectorFacts.dotted (Selector.organization x) (Selector.path x))
           | None => Selector.scope x = SelectorScope.Node ∧
               body = join "." (SelectorFacts.dotted (Selector.organization x) (Selector.path x))
           end)) as ->.
  { split; intros (Hwf & Hsp & Heq); (split_and!; [done|done|]).
    - apply SelectorFacts.suffix_scope; [by apply SelectorFacts.dotted_no_slash|].
      by apply str_app_inj_l in Heq.
    - f_equal. apply SelectorFacts.suffix_scope; [by apply SelectorFacts.dotted_no_slash|done]. }
  destruct (strip_suffix "/**" body) as [b|]; rewrite SelectorFacts.body_parse; naive_solver.
Qed.

(** resolution is exact.  A selector resolves in a spine of its
    organization exactly when some unit has the selector's ids on its path
    below the root; [Node] then yields that unit and [Subtree] the sorted,
    repetition-free list of it and its descendants. *)
Theorem selector_resolve_exact x s :
  Spine.wf s → SelectorFacts.units_wf s →
  (is_ok (Selector.resolve x s) = true ↔
   Spine.organization s = Selector.organization x ∧
   ∃ u, Selector.addresses s (Selector.path x) u) ∧
  ∀ l, Selector.resolve x s = Ok l →
    ∃ u, Selector.addresses s (Selector.path x) u ∧
    match Selector.scope x with
    | SelectorScope.Node => l = [u]
    | SelectorScope.Subtree =>
        StronglySorted (cmp_le Fgrn.cmp) l ∧ NoDup l ∧
        ∀ y, y ∈ l ↔ is_Some (Spine.units s !! y) ∧ rtc (Spine.edge s) y u
    end.
Proof.
  intros Hs Hwf.
  assert (Spine.path s (Spine.root s) = Ok [Spine.root s]) as Hroot.
  { apply SpineFacts.path_Ok; [done|]. apply up_root. by apply Spine.wf_root. }
  assert (∀ u, Selector.descend x s (Selector.path x) (Spine.root s) = Ok u ↔
               Selector.addresses s (Selector.path x) u) as Hdesc
    by (intros u; by apply (SelectorFacts.descend_spec x s _ _ [Spine.root s] u)).
  assert (∀ u, Selector.addresses s (Selector.path x) u →
    ∃ l, Selector.collect_below s u (Spine.unit_list s) = Ok l ∧ NoDup l ∧
       ∀ y, y ∈ l ↔ is_Some (Spine.units s !! y) ∧ rtc (Spine.edge s) y u) as Hcol.
  { intros u (us & Hu & _).
    assert (is_Some (Spine.units s !! u)) as Hin.
    { apply SpineFacts.path_Ok in Hu; [|done]. by eapply up_path_in_dom. }
    destruct (SelectorFacts.collect_below_spec s u (Spine.unit_list s) Hs Hin)
      as (l & Hl & Hnd & Hspec).
    - apply SpineFacts.unit_list_elem.
    - apply NoDup_fst_map_to_list.
    - exists l. split_and!; [done..|]. intros y. by rewrite Hspec, SpineFacts.unit_list_elem. }
  unfold Selector.resolve. case_bool_decide as Horg; simpl; [|naive_solver].
  split.
  - rewrite is_ok_true. split.
    + intros [l H]. apply bind_Ok in H as (u & Hu & _). split; [done|]. exists u. by apply Hdesc.
    + intros (_ & u & Hu). rewrite (proj2 (Hdesc u) Hu). cbn [mbind result_bind].
      destruct (Selector.scope x); [eauto|]. destruct (Hcol u Hu) as (l & -> & _). eauto.
  - intros l H. apply bind_Ok in H as (u & Hu%Hdesc & H). exists u. split; [done|].
    destruct (Selector.scope x); [by injection H as <-|].
    apply bind_Ok in H as (l' & Hl' & [= <-]).
    destruct (Hcol u Hu) as (l'' & Heq & Hnd & Hspec). rewrite Heq in Hl'. injection Hl' as ->.
    split_and!.
    + by apply StronglySorted_merge_sort; apply _.
    + by rewrite merge_sort_Permutation.
    + intros y. by rewrite merge_sort_Permutation.
Qed.

(** Witness: [org:acme.eng/**] in the sample spine. *)
Lemma selector_resolve_exact_witness :
  Selector.from_str "org:acme.eng/**" =
    Ok (Selector.new (Segment.mk "acme") [NativeId.mk "eng"] SelectorScope.Subtree) ∧
  ∃ l u, Selector.resolve
           (Selector.new (Segment.mk "acme") [NativeId.mk "eng"] SelectorScope.Subtree)
           SpineSample.spine = Ok l ∧
    l = [SpineSample.eng; SpineSample.web] ∧
    Selector.addresses SpineSample.spine [NativeId.mk "eng"] u ∧
    ∀ y, y ∈ l ↔ is_Some (Spine.units SpineSample.spine !! y) ∧
                 rtc (Spine.edge SpineSample.spine) y u.
Proof.
  split; [reflexivity|].
  set (x := Selector.new (Segment.mk "acme") [NativeId.mk "eng"] SelectorScope.Subtree).
  assert (SelectorFacts.units_wf SpineSample.spine) as Hu.
  { intros y [v Hy]. revert y v Hy.
    change (map_Forall (λ y _, Fgrn.parse (Fgrn.raw y) = Ok y) (Spine.units SpineSample.spine)).
    by_eval. }
  assert (Selector.resolve x SpineSample.spine = Ok [SpineSample.eng; SpineSample.web]) as Hr
    by by_eval.
  destruct (selector_resolve_exact x SpineSample.spine SpineSample.spine_wf Hu) as [_ H].
  destruct (H _ Hr) as (u & Ha & _ & _ & Hl).
  exists [SpineSample.eng; SpineSample.web], u. split_and!; [exact Hr|reflexivity|exact Ha|exact Hl].
Defined.

