(* ===== verification/Grants.v ===== *)
(** The lateral half of the authorization model in [crates/core]: resource
    type declarations ([resource_type.rs]), principals ([principal.rs]),
    principal sets and their cycle check ([principal_set.rs]), grants
    ([grant.rs]), unpromoted resources ([anchored_resource.rs]) and promotion
    by sharing ([promotion.rs]). *)

From S2P Require Import Prelude RustStr Ident Fgrn Spine.

(** * Resource type declarations *)
Module UserBoundary.
Inductive t := Opaque | Transparent.
#[global] Instance t_eq_dec : EqDecision t.
Proof. solve_decision. Defined.

Definition as_str (b : t) : string :=
  match b with Opaque => "opaque" | Transparent => "transparent" end.
Definition from_str (s : string) : result Error.t t :=
  if bool_decide (s = "opaque") then Ok Opaque
  else if bool_decide (s = "transparent") then Ok Transparent
  else Err (Error.Parse "user_boundary" s "unknown boundary — expected opaque or transparent").
End UserBoundary.

Module Anchoring.
Inductive t := OrgUnit | Principal (user_boundary : UserBoundary.t) | PrincipalSet.
Definition anchor_kind (a : t) : FgrnKind.t :=
  match a with
  | OrgUnit => FgrnKind.OrgUnit
  | Principal _ => FgrnKind.Principal
  | PrincipalSet => FgrnKind.PrincipalSet
  end.
End Anchoring.

Module ResourceTypeDecl.
Record t := new { name : Segment.t; anchoring : Anchoring.t }.
End ResourceTypeDecl.

(** * Principals *)
Module PrincipalKind.
Inductive t := Human | Service | Agent.
#[global] Instance t_eq_dec : EqDecision t.
Proof. solve_decision. Defined.

Definition as_str (k : t) : string :=
  match k with Human => "human" | Service => "service" | Agent => "agent" end.
Definition from_str (s : string) : result Error.t t :=
  if bool_decide (s = "human") then Ok Human
  else if bool_decide (s = "service") then Ok Service
  else if bool_decide (s = "agent") then Ok Agent
  else Err (Error.Parse "principal_kind" s "unknown kind — expected human, service, or agent").
End PrincipalKind.

Module Principal.
Record t := mk { fgrn : Fgrn.t; kind : PrincipalKind.t; anchor : Fgrn.t }.
#[global] Instance t_eq_dec : EqDecision t.
Proof. solve_decision. Defined.

Definition try_new (fgrn : Fgrn.t) (kind : PrincipalKind.t) (anchor : Fgrn.t)
    : result Error.t t :=
  if negb (bool_decide (Fgrn.kind fgrn = FgrnKind.Principal))
  then Err (Error.Spine (Fgrn.to_string fgrn) "principal fgrn must have kind principal")
  else if negb (bool_decide (Fgrn.kind anchor = FgrnKind.OrgUnit))
  then Err (Error.Spine (Fgrn.to_string anchor) "principal anchor must be an org unit")
  else if negb (bool_decide (Fgrn.organization anchor = Fgrn.organization fgrn))
  then Err (Error.Spine (Fgrn.to_string anchor) "anchor must belong to the same organization")
  else Ok (mk fgrn kind anchor).

Definition wf (p : t) : Prop := try_new (fgrn p) (kind p) (anchor p) = Ok p.

Lemma wf_iff p : wf p ↔
  Fgrn.kind (fgrn p) = FgrnKind.Principal ∧ Fgrn.kind (anchor p) = FgrnKind.OrgUnit ∧
  Fgrn.organization (anchor p) = Fgrn.organization (fgrn p).
Proof.
  destruct p as [f k a]. unfold wf, try_new; simpl. repeat case_bool_decide; naive_solver.
Qed.
End Principal.

(** * Principal sets *)
Module PrincipalSet.
Record t := mk { fgrn : Fgrn.t; anchor : Fgrn.t; members : gset Fgrn.t }.
#[global] Instance t_eq_dec : EqDecision t.
Proof. solve_decision. Defined.

Definition try_new (fgrn anchor : Fgrn.t) : result Error.t t :=
  if negb (bool_decide (Fgrn.kind fgrn = FgrnKind.PrincipalSet))
  then Err (Error.Spine (Fgrn.to_string fgrn) "principal set fgrn must have kind principal-set")
  else if negb (bool_decide (Fgrn.kind anchor = FgrnKind.OrgUnit))
  then Err (Error.Spine (Fgrn.to_string anchor) "principal set anchor must be an org unit")
  else if negb (bool_decide (Fgrn.organization anchor = Fgrn.organization fgrn))
  then Err (Error.Spine (Fgrn.to_string anchor) "anchor must belong to the same organization")
  else Ok (mk fgrn anchor ∅).

(** [members()]: the ordered set, in iteration order. *)
Definition member_list (s : t) : list Fgrn.t := btree_iter Fgrn.cmp (members s).
Definition contains (s : t) (member : Fgrn.t) : bool := bool_decide (member ∈ members s).

(** [&mut self]: the new set and whether the member was newly added. *)
Definition add_member (s : t) (member : Fgrn.t) : result Error.t (t * bool) :=
  if negb (bool_decide (Fgrn.kind member = FgrnKind.Principal)) &&
     negb (bool_decide (Fgrn.kind member = FgrnKind.PrincipalSet))
  then Err (Error.Grant (Fgrn.to_string member) "member must be a principal or principal-set")
  else if bool_decide (member = fgrn s)
  then Err (Error.Grant (Fgrn.to_string member) "set cannot be a member of itself")
  else if negb (bool_decide (Fgrn.organization member = Fgrn.organization (fgrn s)))
  then Err (Error.Grant (Fgrn.to_string member) "member must belong to the same organization")
  else Ok (mk (fgrn s) (anchor s) ({[member]} ∪ members s), negb (contains s member)).

Definition remove_member (s : t) (member : Fgrn.t) : t * bool :=
  (mk (fgrn s) (anchor s) (members s ∖ {[member]}), contains s member).

(** [sets.iter().map(|s| (&s.fgrn, s)).collect()]: a later set replaces an
    earlier one with the same FGRN. *)
Definition by_fgrn (sets : list t) : gmap Fgrn.t t :=
  list_to_map (reverse ((λ s, (fgrn s, s)) <$> sets)).

Definition cycle_error (f : Fgrn.t) : Error.t :=
  Error.Grant (Fgrn.to_string f) "principal-set membership cycle detected".

(** Path-based depth-first search, bounded by [fuel]. *)
Fixpoint visit (fuel : nat) (f : Fgrn.t) (by_fgrn : gmap Fgrn.t t) (path : list Fgrn.t)
    : result Error.t () :=
  match fuel with
  | 0 => Stuck "visit: recursion bound"
  | S fuel =>
      if bool_decide (f ∈ path) then Err (cycle_error f)
      else
        match by_fgrn !! f with
        | None => Ok ()
        | Some current_set =>
            for_each
              (λ member,
                 if bool_decide (Fgrn.kind member = FgrnKind.PrincipalSet) &&
                    bool_decide (is_Some (by_fgrn !! member))
                 then visit fuel member by_fgrn (path ++ [f])
                 else Ok ())
              (member_list current_set)
        end
  end.

Definition assert_acyclic (sets : list t) : result Error.t () :=
  let by_fgrn := by_fgrn sets in
  for_each (λ set, visit (S (size by_fgrn)) (fgrn set) by_fgrn []) sets.

(** The shape a constructed set keeps: its own FGRN is a set's, it is
    anchored in its organization, and its members are principals or other
    sets of the same organization. *)
Record wf (s : t) : Prop := {
  wf_kind : Fgrn.kind (fgrn s) = FgrnKind.PrincipalSet;
  wf_anchor : Fgrn.kind (anchor s) = FgrnKind.OrgUnit;
  wf_anchor_org : Fgrn.organization (anchor s) = Fgrn.organization (fgrn s);
  wf_member_kind m : m ∈ members s →
    Fgrn.kind m = FgrnKind.Principal ∨ Fgrn.kind m = FgrnKind.PrincipalSet;
  wf_irrefl : fgrn s ∉ members s;
  wf_member_org m : m ∈ members s → Fgrn.organization m = Fgrn.organization (fgrn s);
}.

(** Membership edges between the sets of a collection. *)
Definition set_edge (by_fgrn : gmap Fgrn.t t) (x y : Fgrn.t) : Prop :=
  ∃ s, by_fgrn !! x = Some s ∧ y ∈ members s ∧
       Fgrn.kind y = FgrnKind.PrincipalSet ∧ is_Some (by_fgrn !! y).
End PrincipalSet.

(** * Grants *)
Module Grant.
Record t := mk { resource : Fgrn.t; actions : gset Verb.t; to : Fgrn.t }.
#[global] Instance t_eq_dec : EqDecision t.
Proof. solve_decision. Defined.

Definition try_new (resource : Fgrn.t) (actions : list Verb.t) (to : Fgrn.t)
    : result Error.t t :=
  if bool_decide (actions = [])
  then Err (Error.Grant (Fgrn.to_string resource) "grant must carry at least one action")
  else if negb (bool_decide (Fgrn.kind resource = FgrnKind.Resource))
  then Err (Error.Grant (Fgrn.to_string resource) "grant resource must have kind resource")
  else if negb (bool_decide (Fgrn.kind to = FgrnKind.Principal)) &&
          negb (bool_decide (Fgrn.kind to = FgrnKind.PrincipalSet))
  then Err (Error.Grant (Fgrn.to_string to) "grantee must be a principal or principal-set")
  else if negb (bool_decide (Fgrn.organization to = Fgrn.organization resource))
  then Err (Error.Grant (Fgrn.to_string to) "grantee must belong to the same organization")
  else Ok (mk resource (list_to_set actions) to).

Definition verb_cmp : Verb.t → Verb.t → comparison := cmp_key Verb.as_str String.compare.
(** [actions()]: sorted. *)
Definition action_list (g : t) : list Verb.t := btree_iter verb_cmp (actions g).
Definition permits (g : t) (verb : Verb.t) : bool := bool_decide (verb ∈ actions g).

Record wf (g : t) : Prop := {
  wf_actions : actions g ≠ ∅;
  wf_resource : Fgrn.kind (resource g) = FgrnKind.Resource;
  wf_to : Fgrn.kind (to g) = FgrnKind.Principal ∨ Fgrn.kind (to g) = FgrnKind.PrincipalSet;
  wf_org : Fgrn.organization (to g) = Fgrn.organization (resource g);
}.
End Grant.

(** * Anchored resources and promotion *)
Module AnchoredResource.
Record t := mk { resource_type : Segment.t; anchor : Fgrn.t }.
Definition try_new (resource_type : Segment.t) (anchor : Fgrn.t) : result Error.t t :=
  match Fgrn.kind anchor with
  | FgrnKind.OrgUnit | FgrnKind.Principal | FgrnKind.PrincipalSet =>
      Ok (mk resource_type anchor)
  | FgrnKind.Resource =>
      Err (Error.Spine (Fgrn.to_string anchor)
             "resource anchor must be an org unit, principal, or principal-set")
  end.
Definition wf (r : t) : Prop :=
  Segment.wf (resource_type r) ∧ Fgrn.wf (anchor r) ∧ Fgrn.kind (anchor r) ≠ FgrnKind.Resource.
End AnchoredResource.

Module PromotedResource.
Record t := mk { fgrn : Fgrn.t; anchor : Fgrn.t }.
#[global] Instance t_eq_dec : EqDecision t.
Proof. solve_decision. Defined.
End PromotedResource.

Module Promotion.
Record ShareRequest := {
  resource : AnchoredResource.t;
  native_id : NativeId.t;
  to : Fgrn.t;
  actions : list Verb.t;
}.

Definition share (request : ShareRequest) : result Error.t (PromotedResource.t * Grant.t) :=
  minted ← Fgrn.resource (Fgrn.organization (AnchoredResource.anchor (resource request)))
             (AnchoredResource.resource_type (resource request)) (native_id request);
  grant ← Grant.try_new minted (actions request) (to request);
  Ok (PromotedResource.mk minted (AnchoredResource.anchor (resource request)), grant).
End Promotion.

(** * Facts about principal sets *)
Module PrincipalSetFacts.
Import PrincipalSet.

Lemma elem_of_member_list s m : m ∈ member_list s ↔ m ∈ members s.
Proof. apply elem_of_btree_iter. Qed.

Lemma by_fgrn_Some sets x s : by_fgrn sets !! x = Some s → s ∈ sets ∧ fgrn s = x.
Proof.
  unfold by_fgrn. intros Hx%elem_of_list_to_map_2.
  rewrite elem_of_reverse, list_elem_of_fmap in Hx. naive_solver.
Qed.
Lemma by_fgrn_is_Some sets x : is_Some (by_fgrn sets !! x) ↔ ∃ s, s ∈ sets ∧ fgrn s = x.
Proof.
  split; [intros [s Hs%by_fgrn_Some]; eauto|]. intros (s & Hs & <-).
  apply not_eq_None_Some. intros Hn. unfold by_fgrn in Hn.
  apply not_elem_of_list_to_map in Hn. apply Hn.
  rewrite list_elem_of_fmap. exists (fgrn s, s). split; [done|].
  rewrite elem_of_reverse, list_elem_of_fmap. eauto.
Qed.

Section visit.
Context (by_fgrn : gmap Fgrn.t t).
#[local] Abbreviation edge := (set_edge by_fgrn).

Lemma set_edge_guard f s m :
  by_fgrn !! f = Some s → m ∈ member_list s →
  edge f m ↔ (bool_decide (Fgrn.kind m = FgrnKind.PrincipalSet) &&
              bool_decide (is_Some (by_fgrn !! m))) = true.
Proof.
  rewrite elem_of_member_list. intros Hs Hm.
  rewrite andb_true_iff, !bool_decide_eq_true. unfold set_edge. naive_solver.
Qed.
Lemma set_edge_Some f s m :
  by_fgrn !! f = Some s → edge f m → m ∈ member_list s.
Proof. rewrite elem_of_member_list. unfold set_edge. naive_solver. Qed.

(** What an error or an exhausted bound of a visit comes from. *)
Lemma visit_stop fuel f path r :
  visit (S fuel) f by_fgrn path = r → r ≠ Ok () →
  (f ∈ path ∧ r = Err (cycle_error f)) ∨
  ((f ∉ path) ∧ is_Some (by_fgrn !! f) ∧
   ∃ m, edge f m ∧ visit fuel m by_fgrn (path ++ [f]) = r).
Proof.
  simpl. case_bool_decide as Hf; [naive_solver|].
  destruct (by_fgrn !! f) as [s|] eqn:Hs; [|congruence].
  intros Hr Hne. right. split; [done|]. split; [by eauto|].
  destruct (for_each_stop _ _ _ Hr Hne) as (m & Hm & Hv).
  exists m. pose proof (set_edge_guard f s m Hs Hm) as Hg.
  destruct (bool_decide (Fgrn.kind m = _) && (bool_decide _)); [by split; [apply Hg|]|congruence].
Qed.

Lemma visit_Ok fuel f path :
  visit fuel f by_fgrn path = Ok () →
  (∀ y, y ∈ path → ¬ rtc edge f y) ∧ ¬ tc edge f f.
Proof.
  revert f path. induction fuel as [|fuel IH]; intros f path; [done|]. simpl.
  case_bool_decide as Hf; [done|]. intros Hok.
  assert (∀ m, edge f m → ∀ y, y ∈ path ++ [f] → ¬ rtc edge m y) as Hsub.
  { intros m Hm. destruct (by_fgrn !! f) as [s|] eqn:Hs.
    - pose proof (set_edge_Some f s m Hs Hm) as Hin.
      rewrite for_each_Ok in Hok. specialize (Hok m Hin).
      rewrite (set_edge_guard f s m Hs Hin) in Hm. rewrite Hm in Hok.
      by apply IH in Hok as [? _].
    - destruct Hm as (s & ? & _). congruence. }
  split.
  - intros y Hy Hr. inversion Hr as [|? m ? Hm Hr']; subst; [done|].
    apply (Hsub m Hm y); [set_solver|done].
  - intros Hc. inversion Hc as [? ? Hm|? m ? Hm Hr]; subst.
    + apply (Hsub f Hm f); [set_solver|done].
    + apply (Hsub m Hm f); [set_solver|by apply tc_rtc].
Qed.

Lemma visit_Err fuel f path e :
  (∀ y, y ∈ path → tc edge y f) →
  visit fuel f by_fgrn path = Err e → ∃ x, e = cycle_error x ∧ tc edge x x.
Proof.
  revert f path. induction fuel as [|fuel IH]; intros f path Hpath; [done|].
  intros Hv. apply visit_stop in Hv as [[Hf ?]|(_ & _ & m & Hm & Hv)]; [| |done].
  { simplify_eq. eauto. }
  apply IH in Hv; [done|].
  intros y [Hy| ->%list_elem_of_singleton]%elem_of_app; [|by apply tc_once].
  eapply tc_r; [by apply Hpath|done].
Qed.

Lemma visit_not_Stuck fuel f path w :
  NoDup path → (∀ y, y ∈ path → is_Some (by_fgrn !! y)) →
  size by_fgrn < fuel + length path → visit fuel f by_fgrn path ≠ Stuck w.
Proof.
  revert f path. induction fuel as [|fuel IH]; intros f path Hnd Hdom Hsz.
  - assert (length path ≤ size by_fgrn); [|lia].
    rewrite <-size_dom, <-(size_list_to_set (C := gset Fgrn.t) path) by done.
    apply subseteq_size. intros y. rewrite elem_of_list_to_set, elem_of_dom. auto.
  - intros Hv. apply visit_stop in Hv as [[_ ?]|(Hf & Hs & m & _ & Hv)]; [done| |done].
    revert Hv. apply IH.
    + apply NoDup_app. split; [done|]. split; [set_solver|apply NoDup_singleton].
    + intros y [?| ->%list_elem_of_singleton]%elem_of_app; auto.
    + rewrite length_app. simpl. lia.
Qed.
End visit.

Lemma add_member_Ok s m s' b :
  add_member s m = Ok (s', b) ↔
  (Fgrn.kind m = FgrnKind.Principal ∨ Fgrn.kind m = FgrnKind.PrincipalSet) ∧
  m ≠ fgrn s ∧ Fgrn.organization m = Fgrn.organization (fgrn s) ∧
  s' = mk (fgrn s) (anchor s) ({[m]} ∪ members s) ∧ b = negb (contains s m).
Proof.
  unfold add_member.
  destruct (decide (Fgrn.kind m = FgrnKind.Principal ∨ Fgrn.kind m = FgrnKind.PrincipalSet))
    as [Hk|Hk]; repeat case_bool_decide; naive_solver.
Qed.

Lemma set_try_new_Ok f a s :
  try_new f a = Ok s ↔
  Fgrn.kind f = FgrnKind.PrincipalSet ∧ Fgrn.kind a = FgrnKind.OrgUnit ∧
  Fgrn.organization a = Fgrn.organization f ∧ s = mk f a ∅.
Proof. unfold try_new. repeat case_bool_decide; naive_solver. Qed.

Lemma set_try_new_wf f a s : try_new f a = Ok s → wf s.
Proof.
  rewrite set_try_new_Ok. intros (? & ? & ? & ->). split; simpl; try done; set_solver.
Qed.
Lemma add_member_wf s m s' b : wf s → add_member s m = Ok (s', b) → wf s'.
Proof.
  rewrite add_member_Ok. intros [] (Hk & Hne & Horg & -> & _).
  split; simpl; try done; set_solver.
Qed.
Lemma remove_member_wf s m : wf s → wf (remove_member s m).1.
Proof. intros []. split; simpl; try done; set_solver. Qed.
End PrincipalSetFacts.

(** A membership edit of a principal set. *)
Inductive member_op := AddMember (m : Fgrn.t) | RemoveMember (m : Fgrn.t).
Definition run_member_op (s : PrincipalSet.t) (op : member_op) : result Error.t PrincipalSet.t :=
  match op with
  | AddMember m => '(s', _) ← PrincipalSet.add_member s m; Ok s'
  | RemoveMember m => Ok (PrincipalSet.remove_member s m).1
  end.
Fixpoint run_member_ops (s : PrincipalSet.t) (ops : list member_op)
    : result Error.t PrincipalSet.t :=
  match ops with
  | [] => Ok s
  | op :: ops => s' ← run_member_op s op; run_member_ops s' ops
  end.
(** The last edit of a member decides whether it is in the set. *)
Fixpoint last_edit (m : Fgrn.t) (ops : list member_op) (before : Prop) : Prop :=
  match ops with
  | [] => before
  | AddMember x :: ops => last_edit m ops (if decide (x = m) then True else before)
  | RemoveMember x :: ops => last_edit m ops (if decide (x = m) then False else before)
  end.

(** * Facts about grants *)
Module GrantFacts.
Import Grant.

#[global] Instance verb_cmp_ok : Comparator verb_cmp.
Proof. apply cmp_key_ok; [apply _|]. intros [x] [y]. simpl. by intros ->. Qed.

Lemma grant_try_new_Ok r acts to g :
  try_new r acts to = Ok g ↔
  acts ≠ [] ∧ Fgrn.kind r = FgrnKind.Resource ∧
  (Fgrn.kind to = FgrnKind.Principal ∨ Fgrn.kind to = FgrnKind.PrincipalSet) ∧
  Fgrn.organization to = Fgrn.organization r ∧ g = mk r (list_to_set acts) to.
Proof.
  unfold try_new.
  destruct (decide (Fgrn.kind to = FgrnKind.Principal ∨ Fgrn.kind to = FgrnKind.PrincipalSet))
    as [Hk|Hk]; repeat case_bool_decide; naive_solver.
Qed.
Lemma grant_try_new_wf r acts to g : try_new r acts to = Ok g → wf g.
Proof.
  rewrite grant_try_new_Ok. intros (Ha & ? & ? & ? & ->). split; simpl; try done.
  destruct acts; [done|set_solver].
Qed.
(** [Grant::try_new] from the parts of a well-formed grant gives it back. *)
Lemma wf_try_new g : wf g → try_new (resource g) (action_list g) (to g) = Ok g.
Proof.
  intros []. rewrite grant_try_new_Ok. split_and!; [|done..|].
  - intros Hnil. apply wf_actions0. apply set_eq. intros v.
    rewrite <-(elem_of_btree_iter verb_cmp). fold (action_list g). rewrite Hnil. set_solver.
  - destruct g as [r a t]; simpl. f_equal. apply set_eq. intros v.
    unfold action_list; simpl. by rewrite elem_of_list_to_set, elem_of_btree_iter.
Qed.
Lemma try_new_not_Stuck r acts to w : try_new r acts to ≠ Stuck w.
Proof. unfold try_new. repeat case_match; done. Qed.
End GrantFacts.

(** * Theorems *)

(** [PrincipalSet::assert_acyclic] terminates within the recursion bound
    and decides acyclicity: it accepts a collection exactly when no set is a
    transitive member of itself through sets of the collection, and
    otherwise its error names a set on such a cycle. *)
Theorem assert_acyclic_decides (sets : list PrincipalSet.t) :
  (PrincipalSet.assert_acyclic sets = Ok () ∧
   ∀ x, ¬ tc (PrincipalSet.set_edge (PrincipalSet.by_fgrn sets)) x x) ∨
  (∃ x, PrincipalSet.assert_acyclic sets = Err (PrincipalSet.cycle_error x) ∧
        tc (PrincipalSet.set_edge (PrincipalSet.by_fgrn sets)) x x).
Proof.
  destruct (PrincipalSet.assert_acyclic sets) as [[]|e|w] eqn:Hr;
    unfold PrincipalSet.assert_acyclic in Hr.
  - left. split; [done|]. intros x Hc. rewrite for_each_Ok in Hr.
    assert (is_Some (PrincipalSet.by_fgrn sets !! x))
      as (s & Hs & <-)%PrincipalSetFacts.by_fgrn_is_Some.
    { inversion Hc as [? ? (s & ? & _)|? ? ? (s & ? & _)]; eauto. }
    by apply Hr, PrincipalSetFacts.visit_Ok in Hs as [_ Hn].
  - right. destruct (for_each_stop _ _ _ Hr) as (s & _ & Hv); [done|].
    apply PrincipalSetFacts.visit_Err in Hv as (x & -> & Hx); [eauto|set_solver].
  - destruct (for_each_stop _ _ _ Hr) as (s & _ & Hv); [done|].
    apply PrincipalSetFacts.visit_not_Stuck in Hv as []; [constructor|set_solver|simpl; lia].
Qed.

(** The members after a sequence of edits. *)
Lemma run_member_ops_spec s ops s' :
  PrincipalSet.wf s → run_member_ops s ops = Ok s' →
  PrincipalSet.wf s' ∧ PrincipalSet.fgrn s' = PrincipalSet.fgrn s ∧
  PrincipalSet.anchor s' = PrincipalSet.anchor s ∧
  ∀ m (P : Prop), (m ∈ PrincipalSet.members s ↔ P) →
    m ∈ PrincipalSet.members s' ↔ last_edit m ops P.
Proof.
  revert s. induction ops as [|[x|x] ops IH]; intros s Hwf; simpl.
  - by intros [= <-].
  - intros (? & ([s1 fresh] & Hadd & [= <-])%bind_Ok & Hrun)%bind_Ok.
    pose proof (PrincipalSetFacts.add_member_wf _ _ _ _ Hwf Hadd) as Hwf1.
    destruct (IH _ Hwf1 Hrun) as (? & Hf & Ha & Hm).
    apply PrincipalSetFacts.add_member_Ok in Hadd as (_ & _ & _ & -> & _); simpl in *.
    split_and!; [done..|]. intros m P HP. apply Hm. destruct (decide (x = m)); set_solver.
  - intros Hrun.
    destruct (IH _ (PrincipalSetFacts.remove_member_wf _ x Hwf) Hrun) as (? & Hf & Ha & Hm).
    simpl in *. split_and!; [done..|]. intros m P HP. apply Hm.
    destruct (decide (x = m)); set_solver.
Qed.

(** Two principals, a set and a document of the sample organization. *)
Module GrantSample.
Definition acme : Segment.t := Segment.mk "acme".
Definition alice : Fgrn.t := Fgrn.principal acme (NativeId.mk "alice").
Definition bob : Fgrn.t := Fgrn.principal acme (NativeId.mk "bob").
Definition team : Fgrn.t := Fgrn.principal_set acme (NativeId.mk "team").
Definition doc : Fgrn.t :=
  Fgrn.new acme FgrnKind.Resource (NativeId.mk "doc/1") (Some (Segment.mk "doc"))
    (Some (NativeId.mk "1")).
Definition read : Verb.t := Verb.mk "read".
Definition write : Verb.t := Verb.mk "write".
Definition team_set : PrincipalSet.t := PrincipalSet.mk team SpineSample.eng {[alice; bob]}.
Definition team_grant : Grant.t := Grant.mk doc {[read]} team.
Definition alice_grant : Grant.t := Grant.mk doc {[read; write]} alice.
Definition alice_principal : Principal.t := Principal.mk alice PrincipalKind.Human SpineSample.web.

Lemma team_set_wf : PrincipalSet.wf team_set.
Proof.
  split; [reflexivity..| | |].
  - change (set_Forall (λ m, Fgrn.kind m = FgrnKind.Principal ∨
                             Fgrn.kind m = FgrnKind.PrincipalSet) (PrincipalSet.members team_set)).
    by_eval.
  - by_eval.
  - change (set_Forall (λ m, Fgrn.organization m = acme) (PrincipalSet.members team_set)).
    by_eval.
Qed.
Lemma team_grant_wf : Grant.wf team_grant.
Proof. apply (GrantFacts.grant_try_new_wf doc [read] team). by_eval. Qed.
Lemma alice_grant_wf : Grant.wf alice_grant.
Proof. apply (GrantFacts.grant_try_new_wf doc [read; write] alice). by_eval. Qed.
End GrantSample.

(** Every sequence of [add_member] and [remove_member] calls on a set built
    by [PrincipalSet::try_new] keeps the set well formed (kind, anchor,
    members principals or sets of the same organization, never itself),
    leaves its identity and anchor alone, and its members are exactly those
    whose last edit was an addition. *)
Theorem principal_set_edits f a s ops s' :
  PrincipalSet.try_new f a = Ok s → run_member_ops s ops = Ok s' →
  PrincipalSet.wf s' ∧ PrincipalSet.fgrn s' = f ∧ PrincipalSet.anchor s' = a ∧
  ∀ m, PrincipalSet.contains s' m = true ↔ last_edit m ops False.
Proof.
  intros Hs Hops. pose proof (PrincipalSetFacts.set_try_new_wf _ _ _ Hs) as Hwf.
  apply PrincipalSetFacts.set_try_new_Ok in Hs as (_ & _ & _ & ->).
  destruct (run_member_ops_spec _ _ _ Hwf Hops) as (? & ? & ? & Hm). split_and!; [done..|].
  intros m. unfold PrincipalSet.contains. rewrite bool_decide_eq_true. apply Hm. set_solver.
Qed.

(** Witness: two additions and a removal. *)
Lemma principal_set_edits_witness :
  ∃ s, run_member_ops (PrincipalSet.mk GrantSample.team SpineSample.eng ∅)
         [AddMember GrantSample.alice; AddMember GrantSample.bob; RemoveMember GrantSample.alice]
       = Ok s ∧
    PrincipalSet.wf s ∧ PrincipalSet.contains s GrantSample.bob = true.
Proof.
  set (ops := [AddMember GrantSample.alice; AddMember GrantSample.bob;
               RemoveMember GrantSample.alice]).
  set (s := PrincipalSet.mk GrantSample.team SpineSample.eng {[GrantSample.bob]}).
  assert (run_member_ops (PrincipalSet.mk GrantSample.team SpineSample.eng ∅) ops = Ok s) as Hr
    by by_eval.
  destruct (principal_set_edits GrantSample.team SpineSample.eng _ ops s eq_refl Hr)
    as (Hw & _ & _ & Hm).
  exists s. split_and!; [exact Hr|exact Hw|]. apply Hm. exact I.
Defined.

(** Promotion: sharing a well-formed anchored resource never fails to mint
    an FGRN; it succeeds exactly when the first grant is admissible (actions
    given, grantee a principal or set of the anchor's organization), and then
    the minted FGRN is a well-formed resource of that organization whose
    (type, native id) parts are the request's, the anchor is kept, and the
    grant is a well-formed grant on exactly that FGRN. *)
Theorem share_promotes (q : Promotion.ShareRequest) :
  AnchoredResource.wf (Promotion.resource q) → NativeId.wf (Promotion.native_id q) →
  (∃ p g, Promotion.share q = Ok (p, g) ∧
     Promotion.actions q ≠ [] ∧
     Fgrn.wf (PromotedResource.fgrn p) ∧
     Fgrn.kind (PromotedResource.fgrn p) = FgrnKind.Resource ∧
     Fgrn.resource_parts (PromotedResource.fgrn p) =
       Some (AnchoredResource.resource_type (Promotion.resource q), Promotion.native_id q) ∧
     PromotedResource.anchor p = AnchoredResource.anchor (Promotion.resource q) ∧
     Grant.wf g ∧ Grant.resource g = PromotedResource.fgrn p ∧ Grant.to g = Promotion.to q ∧
     Grant.actions g = list_to_set (Promotion.actions q)) ∨
  (∃ e, Promotion.share q = Err e ∧
     (Promotion.actions q = [] ∨
      (Fgrn.kind (Promotion.to q) ≠ FgrnKind.Principal ∧
       Fgrn.kind (Promotion.to q) ≠ FgrnKind.PrincipalSet) ∨
      Fgrn.organization (Promotion.to q) ≠
        Fgrn.organization (AnchoredResource.anchor (Promotion.resource q)))).
Proof.
  destruct q as [[rt an] n to acts]. unfold AnchoredResource.wf, Promotion.share; simpl.
  intros (Hrt & Han & Hk) Hn. rewrite FgrnFacts.resource_Ok by done. cbn [mbind result_bind].
  set (f := Fgrn.new _ _ _ _ _).
  assert (Fgrn.wf f) as Hf.
  { apply FgrnFacts.wf_built. apply (Fgrn.built_resource (Fgrn.organization an) rt n).
    - by apply FgrnFacts.wf_org.
    - done.
    - done.
    - by apply FgrnFacts.resource_Ok. }
  destruct (Grant.try_new f acts to) as [g|e|w] eqn:Hg.
  - left. pose proof (GrantFacts.grant_try_new_wf _ _ _ _ Hg) as Hwf.
    apply GrantFacts.grant_try_new_Ok in Hg as (? & ? & ? & ? & ->).
    eexists _, _. by split_and!.
  - right. exists e. split; [done|]. unfold Grant.try_new in Hg.
    repeat case_bool_decide; simplify_eq/=; naive_solver.
  - by apply GrantFacts.try_new_not_Stuck in Hg.
Qed.

(** Witness: sharing a document of [web] with the team. *)
Lemma share_promotes_witness :
  ∃ p g, Promotion.share {|
      Promotion.resource := AnchoredResource.mk (Segment.mk "doc") SpineSample.web;
      Promotion.native_id := NativeId.mk "1"; Promotion.to := GrantSample.team;
      Promotion.actions := [GrantSample.read] |} = Ok (p, g) ∧
    Fgrn.to_string (PromotedResource.fgrn p) = "fgrn:acme:resource:doc/1" ∧ Grant.wf g.
Proof.
  set (q := {| Promotion.resource := AnchoredResource.mk (Segment.mk "doc") SpineSample.web;
               Promotion.native_id := NativeId.mk "1"; Promotion.to := GrantSample.team;
               Promotion.actions := [GrantSample.read] |}).
  assert (∃ p, Promotion.share q = Ok (p, GrantSample.team_grant) ∧
               Fgrn.to_string (PromotedResource.fgrn p) = "fgrn:acme:resource:doc/1") as (p & Hp & Hs).
  { exists (PromotedResource.mk GrantSample.doc SpineSample.web). split; reflexivity. }
  destruct (share_promotes q) as [(p' & g & Hq & _ & _ & _ & _ & _ & Hg & _)|(e & He & _)].
  - split_and!; [reflexivity|reflexivity|discriminate].
  - reflexivity.
  - exists p', g. split_and!; [exact Hq| |exact Hg]. congruence.
  - congruence.
Defined.

