(* ===== verification/Visibility.v ===== *)
(** Ambient subtree visibility ([crates/core/src/visibility.rs]): whether a
    requester scoped at an org unit sees a resource by position alone, with
    the boundary rule for principal-anchored resources. *)

From S2P Require Import Prelude Ident Fgrn Forest Spine Grants.

Module Visibility.
Inductive ResolvedAnchor :=
| OrgUnit (anchor : Fgrn.t)
| Principal (owner anchored_at : Fgrn.t) (boundary : UserBoundary.t)
| PrincipalSet (anchored_at : Fgrn.t).

Record VisibilityQuery := {
  requester : Fgrn.t;
  scope : Fgrn.t;
  anchor : ResolvedAnchor;
  spine : Spine.t;
}.

Definition expect_kind (fgrn : Fgrn.t) (kind : FgrnKind.t) (reason : string)
    : result Error.t () :=
  if bool_decide (Fgrn.kind fgrn = kind) then Ok ()
  else Err (Error.Spine (Fgrn.to_string fgrn) reason).

Definition subtree_visible (query : VisibilityQuery) : result Error.t bool :=
  if negb (bool_decide (Fgrn.kind (requester query) = FgrnKind.Principal))
  then Err (Error.Spine (Fgrn.to_string (requester query))
              "visibility requester must be a principal")
  else if negb (bool_decide (Fgrn.kind (scope query) = FgrnKind.OrgUnit))
  then Err (Error.Spine (Fgrn.to_string (scope query)) "visibility scope must be an org unit")
  else
    match anchor query with
    | OrgUnit anchor =>
        _ ← expect_kind anchor FgrnKind.OrgUnit "resource anchor must be an org unit";
        Spine.is_at_or_below (spine query) anchor (scope query)
    | PrincipalSet anchored_at =>
        _ ← expect_kind anchored_at FgrnKind.OrgUnit "set anchor must be an org unit";
        Spine.is_at_or_below (spine query) anchored_at (scope query)
    | Principal owner anchored_at boundary =>
        _ ← expect_kind owner FgrnKind.Principal "resource owner must be a principal";
        _ ← expect_kind anchored_at FgrnKind.OrgUnit "owner anchor must be an org unit";
        below ← Spine.is_at_or_below (spine query) anchored_at (scope query);
        if negb below then Ok false
        else if bool_decide (requester query = owner) then Ok true
        else Ok (bool_decide (boundary = UserBoundary.Transparent))
    end.

(** ** The boundary rule *)

(** The org unit a resource sits at. *)
Definition position (a : ResolvedAnchor) : Fgrn.t :=
  match a with OrgUnit u => u | Principal _ u _ => u | PrincipalSet u => u end.
(** An opaque user node hides its resources from everyone but the owner. *)
Definition crosses_boundary (who : Fgrn.t) (a : ResolvedAnchor) : Prop :=
  match a with
  | Principal owner _ UserBoundary.Opaque => who = owner
  | _ => True
  end.
Definition owner_kind_ok (a : ResolvedAnchor) : Prop :=
  match a with Principal owner _ _ => Fgrn.kind owner = FgrnKind.Principal | _ => True end.
Definition visible (q : VisibilityQuery) : Prop :=
  rtc (Spine.edge (spine q)) (position (anchor q)) (scope q) ∧
  crosses_boundary (requester q) (anchor q).

(** The queries that are answered. *)
Record admissible (q : VisibilityQuery) : Prop := {
  adm_requester : Fgrn.kind (requester q) = FgrnKind.Principal;
  adm_scope : Fgrn.kind (scope q) = FgrnKind.OrgUnit;
  adm_owner : owner_kind_ok (anchor q);
  adm_position : Fgrn.kind (position (anchor q)) = FgrnKind.OrgUnit;
  adm_known : is_Some (Spine.units (spine q) !! position (anchor q));
  adm_scope_known : is_Some (Spine.units (spine q) !! scope q);
}.
End Visibility.

Module VisibilityFacts.
Import Visibility.

Lemma expect_kind_Ok f k why : expect_kind f k why = Ok () ↔ Fgrn.kind f = k.
Proof. unfold expect_kind. case_bool_decide; naive_solver. Qed.

Lemma subtree_visible_Ok q :
  Spine.wf (spine q) → admissible q →
  ∃ b, subtree_visible q = Ok b ∧ (b = true ↔ visible q).
Proof.
  intros Hs [Hr Hsc Ho Hp Hk Hsk]. unfold subtree_visible, visible.
  rewrite !bool_decide_eq_true_2 by done. simpl.
  destruct (SpineFacts.below_spec _ _ _ Hs Hk Hsk) as (b & Hb & Hspec).
  destruct q as [who sc a sp]; destruct a as [u|o u bd|u]; simpl in *;
    rewrite !(proj2 (expect_kind_Ok _ _ _)) by done; cbn [mbind result_bind]; rewrite Hb.
  - exists b. naive_solver.
  - cbn [mbind result_bind]. destruct b; simpl; [|exists false; naive_solver].
    case_bool_decide; [exists true; destruct bd; naive_solver|].
    eexists. split; [done|]. rewrite bool_decide_eq_true. destruct bd; naive_solver.
  - exists b. naive_solver.
Qed.

Lemma subtree_visible_admissible q b :
  Spine.wf (spine q) → subtree_visible q = Ok b → admissible q.
Proof.
  intros Hs. unfold subtree_visible.
  case_bool_decide; [simpl|done]. case_bool_decide; [simpl|done].
  destruct q as [who sc a sp]; destruct a as [u|o u bd|u]; simpl in *.
  - intros ([] & ?%expect_kind_Ok & (? & ? & _)%SpineFacts.below_Ok)%bind_Ok; done.
  - intros ([] & ?%expect_kind_Ok & ([] & ?%expect_kind_Ok &
      (? & (? & ? & _)%SpineFacts.below_Ok & _)%bind_Ok)%bind_Ok)%bind_Ok; done.
  - intros ([] & ?%expect_kind_Ok & (? & ? & _)%SpineFacts.below_Ok)%bind_Ok; done.
Qed.

Lemma subtree_visible_not_Stuck q w : Spine.wf (spine q) → subtree_visible q ≠ Stuck w.
Proof.
  intros Hs. pose proof (λ x a w, SpineFacts.below_not_Stuck (spine q) x a w Hs) as Hb.
  unfold subtree_visible, expect_kind.
  repeat (case_match; cbn [mbind result_bind]; try done); try apply Hb;
    (destruct (Spine.is_at_or_below _ _ _) eqn:Hbel; cbn [mbind result_bind];
     repeat case_match; naive_solver).
Qed.
End VisibilityFacts.

(** The boundary rule.  On a well-formed spine [subtree_visible] answers
    exactly the admissible queries (a principal asking from a known org unit
    about a resource whose position is a known org unit) and rejects every
    other one with an error; its answer is [true] exactly when the resource's
    position is at or below the scope and the user boundary does not stop it:
    an opaque principal's resource is seen by its owner only, a transparent
    one, an org unit's and a set's by everyone in scope. *)
Theorem subtree_visible_boundary_rule q :
  Spine.wf (Visibility.spine q) →
  (∃ b, Visibility.admissible q ∧ Visibility.subtree_visible q = Ok b ∧
        (b = true ↔ Visibility.visible q)) ∨
  (∃ e, ¬ Visibility.admissible q ∧ Visibility.subtree_visible q = Err e).
Proof.
  intros Hs. destruct (Visibility.subtree_visible q) as [b|e|w] eqn:Hv.
  - left. pose proof (VisibilityFacts.subtree_visible_admissible _ _ Hs Hv) as Ha.
    destruct (VisibilityFacts.subtree_visible_Ok q Hs Ha) as (b' & Hb' & Hspec).
    rewrite Hb' in Hv. injection Hv as <-. by exists b'.
  - right. exists e. split; [|done]. intros Ha.
    destruct (VisibilityFacts.subtree_visible_Ok q Hs Ha) as (b & ? & _). congruence.
  - by apply VisibilityFacts.subtree_visible_not_Stuck in Hv.
Qed.

(** Witness: alice's opaque document at [web] is visible to her from [eng], not to bob. *)
Lemma subtree_visible_boundary_rule_witness :
  Visibility.visible {| Visibility.requester := GrantSample.alice;
    Visibility.scope := SpineSample.eng; Visibility.spine := SpineSample.spine;
    Visibility.anchor := Visibility.Principal GrantSample.alice SpineSample.web
                           UserBoundary.Opaque |} ∧
  ¬ Visibility.visible {| Visibility.requester := GrantSample.bob;
    Visibility.scope := SpineSample.eng; Visibility.spine := SpineSample.spine;
    Visibility.anchor := Visibility.Principal GrantSample.alice SpineSample.web
                           UserBoundary.Opaque |}.
Proof.
  split.
  - match goal with |- Visibility.visible ?q =>
      assert (Visibility.subtree_visible q = Ok true) as E by by_eval;
      destruct (subtree_visible_boundary_rule q SpineSample.spine_wf)
        as [(b & _ & Hb & Hi)|(e & _ & He)]; [apply Hi|]; congruence end.
  - match goal with |- ¬ Visibility.visible ?q =>
      assert (Visibility.subtree_visible q = Ok false) as E by by_eval;
      destruct (subtree_visible_boundary_rule q SpineSample.spine_wf)
        as [(b & _ & Hb & Hi)|(e & _ & He)]; [intros H%Hi|]; congruence end.
Defined.

(** Visibility is monotone in the scope and bounded by it: what is visible
    from a unit is visible from every unit above it, and nothing outside the
    subtree of the scope is ever visible, even to its owner. *)
Theorem subtree_visible_scope_monotone q wider :
  Spine.wf (Visibility.spine q) →
  Visibility.subtree_visible q = Ok true →
  Spine.is_at_or_below (Visibility.spine q) (Visibility.scope q) wider = Ok true →
  Fgrn.kind wider = FgrnKind.OrgUnit →
  Visibility.subtree_visible
    {| Visibility.requester := Visibility.requester q; Visibility.scope := wider;
       Visibility.anchor := Visibility.anchor q; Visibility.spine := Visibility.spine q |}
  = Ok true ∧
  Spine.is_at_or_below (Visibility.spine q) (Visibility.position (Visibility.anchor q))
    (Visibility.scope q) = Ok true.
Proof.
  intros Hs Hv Hb Hk.
  pose proof (VisibilityFacts.subtree_visible_admissible _ _ Hs Hv) as Ha.
  destruct (VisibilityFacts.subtree_visible_Ok q Hs Ha) as (b & Hb' & Hspec).
  assert (b = true) as -> by congruence. destruct (proj1 Hspec eq_refl) as [Hbel Hcr].
  apply SpineFacts.below_Ok in Hb as (_ & Hw & Hr); [|done]. destruct Ha as [? ? ? ? Hpos Hsc].
  split.
  - set (q' := Visibility.Build_VisibilityQuery _ _ _ _).
    destruct (VisibilityFacts.subtree_visible_Ok q') as (b & -> & Hspec'); [done|by split|].
    f_equal. apply Hspec'. split; [|done]. simpl. etrans; [done|]. by apply Hr.
  - destruct (SpineFacts.below_spec _ _ _ Hs Hpos Hsc) as (b & -> & Hb).
    f_equal. by apply Hb.
Qed.

(** Witness: what alice sees from [web] she sees from [eng]. *)
Lemma subtree_visible_scope_monotone_witness :
  Visibility.subtree_visible {| Visibility.requester := GrantSample.alice;
    Visibility.scope := SpineSample.eng; Visibility.spine := SpineSample.spine;
    Visibility.anchor := Visibility.OrgUnit SpineSample.web |} = Ok true.
Proof.
  apply (subtree_visible_scope_monotone {| Visibility.requester := GrantSample.alice;
    Visibility.scope := SpineSample.web; Visibility.spine := SpineSample.spine;
    Visibility.anchor := Visibility.OrgUnit SpineSample.web |} SpineSample.eng
    SpineSample.spine_wf); by_eval.
Defined.

