(* ===== verification/Delegation.v ===== *)
(** Delegation chains and their effective scope
    ([crates/core/src/delegation.rs]).  The membership walk is a depth-first
    search that threads its visited list; it is proved to decide transitive
    membership, and the early-exit intersection loop is proved to compute the
    intersection of the rights of all the links. *)

From S2P Require Import Prelude Ident Fgrn Spine Grants.

Module DelegationChain.
Record t := mk { links : list Fgrn.t }.

Definition link_kind_error (link : Fgrn.t) : Error.t :=
  Error.Grant (Fgrn.to_string link) "delegation link must be a principal".
Definition link_org_error (link : Fgrn.t) : Error.t :=
  Error.Grant (Fgrn.to_string link) "delegation links must belong to the same organization".

Definition try_new (links : list Fgrn.t) : result Error.t t :=
  if bool_decide (length links < 2)
  then Err (Error.Grant (default "" (Fgrn.to_string <$> head links))
              "delegation chain must have at least two links")
  else
    _ ← for_each
      (λ link, if negb (bool_decide (Fgrn.kind link = FgrnKind.Principal))
               then Err (link_kind_error link) else Ok ()) links;
    match links with
    | [] => Stuck "links[0]: index out of bounds"
    | first :: rest =>
        _ ← for_each
          (λ link, if negb (bool_decide (Fgrn.organization link = Fgrn.organization first))
                   then Err (link_org_error link) else Ok ()) rest;
        Ok (mk links)
    end.

(** Indexing panics out of range. *)
Definition actor (c : t) : result Error.t Fgrn.t :=
  match links c !! 0 with Some f => Ok f | None => Stuck "links[0]: index out of bounds" end.
Definition subject (c : t) : result Error.t Fgrn.t :=
  match links c !! (length (links c) - 1) with
  | Some f => Ok f
  | None => Stuck "links[len - 1]: index out of bounds"
  end.
Definition len (c : t) : nat := length (links c).

Record wf (c : t) : Prop := {
  wf_len : 2 ≤ length (links c);
  wf_kind l : l ∈ links c → Fgrn.kind l = FgrnKind.Principal;
  wf_org l l' : l ∈ links c → l' ∈ links c → Fgrn.organization l = Fgrn.organization l';
}.
End DelegationChain.

Module Delegation.
Record EffectiveScopeQuery := {
  chain : DelegationChain.t;
  resource : Fgrn.t;
  grants : list Grant.t;
  sets : list PrincipalSet.t;
}.

Definition find_set (sets : list PrincipalSet.t) (set_fgrn : Fgrn.t) : option PrincipalSet.t :=
  find_key PrincipalSet.fgrn set_fgrn sets.

(** The inner [walk] of [set_contains]; [visited] is the [&mut Vec]. *)
Fixpoint walk (fuel : nat) (sets : list PrincipalSet.t) (set_fgrn principal : Fgrn.t)
    (visited : list Fgrn.t) : result Error.t (bool * list Fgrn.t) :=
  match fuel with
  | 0 => Stuck "walk: recursion bound"
  | S fuel =>
      match find_set sets set_fgrn with
      | None => Ok (false, visited)
      | Some set =>
          if bool_decide (PrincipalSet.fgrn set ∈ visited) then Ok (false, visited)
          else
            let visited := visited ++ [PrincipalSet.fgrn set] in
            if PrincipalSet.contains set principal then Ok (true, visited)
            else any_state (λ m, walk fuel sets m principal)
                   (filter (λ m, Fgrn.kind m = FgrnKind.PrincipalSet)
                      (PrincipalSet.member_list set)) visited
      end
  end.

Definition set_contains (sets : list PrincipalSet.t) (set_fgrn principal : Fgrn.t)
    : result Error.t bool :=
  fst <$> walk (S (length sets)) sets set_fgrn principal [].

Definition verbs_held (link : Fgrn.t) (query : EffectiveScopeQuery)
    : result Error.t (gset Verb.t) :=
  union_where
    (λ g, if negb (bool_decide (Grant.resource g = resource query)) then Ok false
          else if bool_decide (Grant.to g = link) then Ok true
          else set_contains (sets query) (Grant.to g) link)
    Grant.actions (grants query).

(** The loop of [effective_verbs], which stops at an empty intersection. *)
Fixpoint intersect_links (query : EffectiveScopeQuery) (links : list Fgrn.t)
    (effective : option (gset Verb.t)) : result Error.t (option (gset Verb.t)) :=
  match links with
  | [] => Ok effective
  | link :: rest =>
      held ← verbs_held link query;
      let effective := match effective with None => held | Some prev => prev ∩ held end in
      if bool_decide (effective = ∅) then Ok (Some effective)
      else intersect_links query rest (Some effective)
  end.

Definition effective_verbs (query : EffectiveScopeQuery) : result Error.t (gset Verb.t) :=
  if negb (bool_decide (Fgrn.kind (resource query) = FgrnKind.Resource))
  then Err (Error.Grant (Fgrn.to_string (resource query))
              "effective scope resource must have kind resource")
  else
    effective ← intersect_links query (DelegationChain.links (chain query)) None;
    Ok (default ∅ effective).

(** ** Specification *)

(** Transitive membership of a principal in a set, through sets of the
    collection. *)
Inductive member_of (sets : list PrincipalSet.t) (p : Fgrn.t) : Fgrn.t → Prop :=
| member_direct f s :
    find_set sets f = Some s → p ∈ PrincipalSet.members s → member_of sets p f
| member_nested f s m :
    find_set sets f = Some s → m ∈ PrincipalSet.members s →
    Fgrn.kind m = FgrnKind.PrincipalSet → member_of sets p m → member_of sets p f.

(** A principal's right to a verb on the resource, by a grant to it or to a
    set it is transitively in. *)
Definition holds_verb (q : EffectiveScopeQuery) (p : Fgrn.t) (v : Verb.t) : Prop :=
  ∃ g, g ∈ grants q ∧ Grant.resource g = resource q ∧
       (Grant.to g = p ∨ member_of (sets q) p (Grant.to g)) ∧ v ∈ Grant.actions g.
End Delegation.

Module DelegationFacts.
Import Delegation.

Lemma find_set_Some sets f s : find_set sets f = Some s → s ∈ sets ∧ PrincipalSet.fgrn s = f.
Proof. apply find_key_Some. Qed.

Section walk.
Context (sets : list PrincipalSet.t) (p : Fgrn.t).

Definition keys : gset Fgrn.t := list_to_set (PrincipalSet.fgrn <$> sets).
Definition nested (x y : Fgrn.t) : Prop :=
  ∃ s, find_set sets x = Some s ∧ y ∈ PrincipalSet.members s ∧
       Fgrn.kind y = FgrnKind.PrincipalSet.
Definition holds (x : Fgrn.t) : Prop :=
  ∃ s, find_set sets x = Some s ∧ p ∈ PrincipalSet.members s.

Lemma member_of_rtc f : member_of sets p f ↔ ∃ x, rtc nested f x ∧ holds x.
Proof.
  split.
  - induction 1 as [f s Hs Hp|f s m Hs Hm Hk _ (x & Hx & Hh)].
    + exists f. split; [done|]. by exists s.
    + exists x. split; [|done]. eapply rtc_l; [|done]. by exists s.
  - intros (x & Hx & Hh). induction Hx as [x|f m x (s & Hs & Hm & Hk) _ IH].
    + destruct Hh as (s & ? & ?). by eapply member_direct.
    + eapply member_nested; eauto.
Qed.

(** What a walk that finds nothing leaves behind: the sets it visited do
    not hold the principal, and their nested sets were visited too. *)
Definition swept (v v' : list Fgrn.t) : Prop :=
  ∀ x, x ∈ v' → x ∉ v →
    ¬ holds x ∧ ∀ y, nested x y → y ∈ v' ∨ find_set sets y = None.

Lemma swept_trans v v1 v2 : v1 ⊆ v2 → swept v v1 → swept v1 v2 → swept v v2.
Proof.
  intros Hsub H1 H2 x Hx Hv. destruct (decide (x ∈ v1)) as [Hx1|Hx1]; [|by apply H2].
  destruct (H1 x Hx1 Hv) as [? Hy]. split; [done|]. intros y [?|?]%Hy; auto.
Qed.

Definition post (f : Fgrn.t) (v : list Fgrn.t) (r : result Error.t (bool * list Fgrn.t)) : Prop :=
  ∃ b v', r = Ok (b, v') ∧ v ⊆ v' ∧
    if (b : bool) then ∃ x, rtc nested f x ∧ holds x
    else swept v v' ∧ (f ∈ v' ∨ find_set sets f = None).

(** The loop over the nested sets of [f], given the walks of its members. *)
Lemma any_walk f (g : Fgrn.t → list Fgrn.t → result Error.t (bool * list Fgrn.t)) v0 ms v :
  (∀ m v, m ∈ ms → v0 ⊆ v → post m v (g m v)) → (∀ m, m ∈ ms → nested f m) → v0 ⊆ v →
  ∃ b v', any_state g ms v = Ok (b, v') ∧ v ⊆ v' ∧
    if (b : bool) then ∃ x, rtc nested f x ∧ holds x
    else swept v v' ∧ ∀ m, m ∈ ms → m ∈ v' ∨ find_set sets m = None.
Proof.
  intros Hg Hn. revert v. induction ms as [|m ms IH]; intros v Hv; simpl.
  { exists false, v. split_and!; [done..|by intros x|set_solver]. }
  destruct (Hg m v) as (b & v1 & -> & Hv1 & Hpost); [left|done|]. cbn [mbind result_bind].
  destruct b.
  { exists true, v1. split_and!; try done. destruct Hpost as (x & Hx & Hh).
    exists x. split; [|done]. eapply rtc_l; [apply Hn; left|done]. }
  destruct Hpost as [Hsw Hm].
  destruct (IH) with (v := v1) as (b & v2 & -> & Hv2 & Hpost); [set_solver..|].
  exists b, v2. split_and!; [done|set_solver|]. destruct b; [done|].
  destruct Hpost as [Hsw2 Hms]. split; [by eapply swept_trans|].
  intros m' [->|Hm']%elem_of_cons; [|by apply Hms]. destruct Hm; auto.
Qed.

Lemma walk_spec fuel f v :
  size (keys ∖ list_to_set v) < fuel → post f v (walk fuel sets f p v).
Proof.
  revert f v. induction fuel as [|fuel IH]; intros f v Hsz; [lia|]. simpl.
  destruct (find_set sets f) as [s|] eqn:Hs.
  2: { exists false, v. split_and!; try done; auto. }
  destruct (find_set_Some _ _ _ Hs) as [Hin Hf]. rewrite Hf.
  case_bool_decide as Hvis.
  { exists false, v. split_and!; try done; auto. }
  unfold PrincipalSet.contains. case_bool_decide as Hp.
  { exists true, (v ++ [f]). split_and!; [done|set_solver|].
    exists f. split; [done|]. by exists s. }
  assert (∀ m, m ∈ filter (λ m, Fgrn.kind m = FgrnKind.PrincipalSet)
                     (PrincipalSet.member_list s) ↔ nested f m) as Hms.
  { intros m. rewrite list_elem_of_filter, PrincipalSetFacts.elem_of_member_list.
    unfold nested. naive_solver. }
  destruct (any_walk f (λ m, walk fuel sets m p) (v ++ [f])
    (filter (λ m, Fgrn.kind m = FgrnKind.PrincipalSet) (PrincipalSet.member_list s))
    (v ++ [f])) as (b & v' & Hr & Hv' & Hpost); [|by intros m Hm%Hms|done|].
  { intros m w _ Hw. apply IH.
    assert (keys ∖ list_to_set w ⊂ keys ∖ list_to_set v); [|apply subset_size in H; lia].
    assert (f ∈ keys).
    { unfold keys. rewrite elem_of_list_to_set, list_elem_of_fmap. eauto. }
    set_solver. }
  exists b, v'. split_and!; [done|set_solver|]. destruct b; [done|].
  destruct Hpost as [Hsw Hch]. split; [|left; set_solver].
  intros x Hx Hxv. destruct (decide (x = f)) as [->|Hne]; [|apply Hsw; set_solver]. split.
  - intros (s' & ? & ?). congruence.
  - intros y Hy%Hms. by apply Hch.
Qed.
End walk.

(** [set_contains] terminates within its bound and decides transitive
    membership. *)
Lemma set_contains_spec sets f p :
  ∃ b, set_contains sets f p = Ok b ∧ (b = true ↔ member_of sets p f).
Proof.
  unfold set_contains.
  destruct (walk_spec sets p (S (length sets)) f []) as (b & v & -> & _ & Hpost).
  { apply Nat.lt_succ_r. etrans; [apply subseteq_size with (Y := keys sets); set_solver|].
    unfold keys. rewrite <-(length_fmap PrincipalSet.fgrn sets). apply size_list_to_set_le. }
  exists b. split; [done|]. rewrite member_of_rtc. destruct b; [done|]. split; [done|].
  destruct Hpost as [Hsw Hf]. intros (x & Hx & Hh).
  assert (x ∈ v ∨ find_set sets x = None) as [Hv|Hv].
  { clear Hh. induction Hx as [|f y x Hfy Hyx IH]; [done|]. apply IH.
    destruct Hf as [Hf|Hf]; [|destruct Hfy as (? & ? & _); congruence].
    destruct (Hsw f Hf) as [_ Hn]; [set_solver|]. by apply Hn. }
  - by destruct (Hsw x Hv) as [? _]; [set_solver|].
  - destruct Hh as (? & ? & _). congruence.
Qed.

Lemma verbs_held_spec link q :
  ∃ vs, verbs_held link q = Ok vs ∧ ∀ v, v ∈ vs ↔ holds_verb q link v.
Proof.
  unfold verbs_held.
  destruct (union_where_Ok
    (λ g, if negb (bool_decide (Grant.resource g = resource q)) then Ok false
          else if bool_decide (Grant.to g = link) then Ok true
          else set_contains (sets q) (Grant.to g) link)
    Grant.actions
    (λ g, Grant.resource g = resource q ∧
          (Grant.to g = link ∨ member_of (sets q) link (Grant.to g))) (grants q))
    as (vs & -> & Hvs).
  { intros g _. case_bool_decide; simpl; [|exists false; naive_solver].
    case_bool_decide; [exists true; naive_solver|].
    destruct (set_contains_spec (sets q) (Grant.to g) link) as (b & ? & ?).
    exists b. naive_solver. }
  exists vs. split; [done|]. intros v. rewrite Hvs. unfold holds_verb. naive_solver.
Qed.

Lemma intersect_links_spec q links acc :
  ∃ r, intersect_links q links acc = Ok r ∧
    ((r = None ↔ acc = None ∧ links = [])) ∧
    ∀ vs, r = Some vs →
      ∀ v, v ∈ vs ↔ (∀ prev, acc = Some prev → v ∈ prev) ∧ ∀ l, l ∈ links → holds_verb q l v.
Proof.
  revert acc. induction links as [|l links IH]; intros acc; simpl.
  { exists acc. split_and!; [done|naive_solver|]. intros vs -> v. set_solver. }
  destruct (verbs_held_spec l q) as (held & -> & Hheld). cbn [mbind result_bind].
  set (eff := match acc with None => held | Some prev => prev ∩ held end).
  assert (∀ v, v ∈ eff ↔ (∀ prev, acc = Some prev → v ∈ prev) ∧ holds_verb q l v) as Heff.
  { intros v. rewrite <-Hheld. unfold eff. destruct acc; set_solver. }
  case_bool_decide as Hemp.
  - exists (Some eff). split_and!; [done|naive_solver|]. intros vs [= <-] v. split.
    + rewrite Hemp. set_solver.
    + intros [Hacc Hl]. apply Heff. split; [done|]. apply Hl. left.
  - destruct (IH (Some eff)) as (r & Hr & Hnone & Hspec). exists r. split_and!; [done|naive_solver|].
    intros vs Hvs v. rewrite (Hspec vs Hvs). setoid_rewrite elem_of_cons. split.
    + intros [Hv Hall]. specialize (Hv eff eq_refl). apply Heff in Hv as [? ?]. naive_solver.
    + intros [Hacc Hall]. split; [|auto]. intros prev [= <-]. apply Heff. auto.
Qed.

Lemma chain_try_new_Ok ls c :
  DelegationChain.try_new ls = Ok c ↔
  DelegationChain.links c = ls ∧ DelegationChain.wf c.
Proof.
  unfold DelegationChain.try_new. case_bool_decide as Hlen.
  { split; [done|]. intros [<- []]. lia. }
  split.
  - intros ([] & Hk & Hr)%bind_Ok. rewrite for_each_Ok in Hk. destruct ls as [|a ls]; [done|].
    apply bind_Ok in Hr as ([] & Ho & [= <-]). rewrite for_each_Ok in Ho. split; [done|].
    assert (∀ l, l ∈ a :: ls → Fgrn.organization l = Fgrn.organization a) as Horg.
    { intros l [->|Hl]%elem_of_cons; [done|]. specialize (Ho l Hl).
      revert Ho. by case_bool_decide. }
    split; simpl in *; [lia| |].
    + intros l Hl. specialize (Hk l Hl). revert Hk. by case_bool_decide.
    + intros l l' Hl Hl'. by rewrite (Horg l Hl), (Horg l' Hl').
  - destruct c as [cl]; simpl. intros [-> [? Hk Ho]]; simpl in *. apply bind_Ok. exists ().
    split.
    + apply for_each_Ok. intros l Hl. by rewrite bool_decide_eq_true_2 by auto.
    + destruct ls as [|a ls]; [simpl in *; lia|]. apply bind_Ok. exists (). split; [|done].
      apply for_each_Ok. intros l Hl.
      rewrite bool_decide_eq_true_2; [done|]. apply Ho; [by right|left].
Qed.
End DelegationFacts.

(** [set_contains] (the delegation walk with a visited list) terminates on
    every collection of sets, cyclic ones included, within a recursion depth
    of the number of sets plus one, and decides transitive membership. *)
Theorem set_contains_decides sets f p :
  ∃ b, Delegation.set_contains sets f p = Ok b ∧
       (b = true ↔ Delegation.member_of sets p f).
Proof. apply DelegationFacts.set_contains_spec. Qed.

(** A delegation chain is accepted exactly when it has at least two links,
    all of them principals of one organization; its actor and subject are
    then the first and the last link, and no index is out of range. *)
Theorem delegation_chain_valid ls c :
  DelegationChain.try_new ls = Ok c →
  DelegationChain.wf c ∧
  (∃ a s, DelegationChain.actor c = Ok a ∧ DelegationChain.subject c = Ok s ∧
          head ls = Some a ∧ last ls = Some s ∧
          Fgrn.organization a = Fgrn.organization s) ∧
  DelegationChain.len c = length ls.
Proof.
  intros [<- Hwf]%DelegationFacts.chain_try_new_Ok. split; [done|]. split; [|done].
  destruct Hwf as [Hlen _ Horg]. unfold DelegationChain.actor, DelegationChain.subject.
  destruct (DelegationChain.links c) as [|a [|b l]] eqn:Hl; simpl in *; [lia..|].
  destruct (lookup_lt_is_Some_2 (b :: l) (length l)) as [s Hs]; [simpl; lia|].
  rewrite Hs. exists a, s. split_and!; [done..| |].
  - by rewrite last_lookup.
  - apply Horg; [left|right]. by apply list_elem_of_lookup_2 in Hs.
Qed.

(** Witness: alice acting for bob. *)
Lemma delegation_chain_valid_witness :
  ∃ c, DelegationChain.try_new [GrantSample.alice; GrantSample.bob] = Ok c ∧
       DelegationChain.wf c ∧ DelegationChain.len c = 2.
Proof.
  assert (DelegationChain.try_new [GrantSample.alice; GrantSample.bob] =
          Ok (DelegationChain.mk [GrantSample.alice; GrantSample.bob])) as E by reflexivity.
  eexists. split; [exact E|].
  destruct (delegation_chain_valid _ _ E) as (Hw & _ & Hl). split; [exact Hw|exact Hl].
Defined.

(** C17: The effective scope of a delegation chain is the intersection of its
    links' rights: [effective_verbs] returns, for every resource and every
    collection of grants and sets, exactly the verbs that every link holds on
    the resource by a grant to it or to a set it is transitively in; in
    particular a chain never gains a verb one of its links lacks. *)
Theorem effective_verbs_intersection q :
  DelegationChain.wf (Delegation.chain q) →
  Fgrn.kind (Delegation.resource q) = FgrnKind.Resource →
  ∃ vs, Delegation.effective_verbs q = Ok vs ∧
    ∀ v, v ∈ vs ↔
      ∀ l, l ∈ DelegationChain.links (Delegation.chain q) → Delegation.holds_verb q l v.
Proof.
  intros [Hlen _ _] Hk. unfold Delegation.effective_verbs. rewrite bool_decide_eq_true_2 by done.
  simpl. destruct (DelegationFacts.intersect_links_spec q
    (DelegationChain.links (Delegation.chain q)) None) as (r & -> & Hnone & Hspec).
  cbn [mbind result_bind]. destruct r as [vs|].
  - exists vs. split; [done|]. intros v. rewrite (Hspec vs eq_refl). naive_solver.
  - destruct (proj1 Hnone eq_refl) as [_ Hnil]. rewrite Hnil in Hlen. simpl in Hlen. lia.
Qed.

(** Witness: alice may write, bob (in the team) may only read; together they read. *)
Lemma effective_verbs_intersection_witness :
  let q := {| Delegation.chain := DelegationChain.mk [GrantSample.alice; GrantSample.bob];
              Delegation.resource := GrantSample.doc;
              Delegation.grants := [GrantSample.team_grant; GrantSample.alice_grant];
              Delegation.sets := [GrantSample.team_set] |} in
  Delegation.effective_verbs q = Ok {[GrantSample.read]} ∧
  Delegation.holds_verb q GrantSample.bob GrantSample.read ∧
  ¬ (Delegation.holds_verb q GrantSample.alice GrantSample.write ∧
     Delegation.holds_verb q GrantSample.bob GrantSample.write).
Proof.
  intros q.
  assert (Delegation.effective_verbs q = Ok {[GrantSample.read]}) as E by by_eval.
  destruct (effective_verbs_intersection q) as (vs & Hv & Hi).
  - apply (DelegationFacts.chain_try_new_Ok [GrantSample.alice; GrantSample.bob]). reflexivity.
  - reflexivity.
  - assert (vs = {[GrantSample.read]}) as -> by congruence.
    split_and!; [exact E| |].
    + apply (Hi GrantSample.read); [set_solver|]. right. left.
    + intros [Ha Hb]. assert (GrantSample.write ∈ ({[GrantSample.read]} : gset Verb.t)) as H.
      { apply Hi. intros l Hl. simpl in Hl. set_unfold in Hl.
        destruct Hl as [->|[->|[]]]; assumption. }
      apply elem_of_singleton in H. discriminate.
Defined.

