(* ===== verification/Store.v ===== *)
(** The versioned store of [crates/authz-core/src/store]: the model value of
    one revision ([model.rs]), decision-scoped slice selection ([slice.rs]),
    the store interface ([traits.rs]) and its in-memory implementation
    ([memory.rs], [revision.rs]). *)

From S2P Require Import Prelude Ident Fgrn Forest Spine Grants Delegation.

(** The crate's error type ([authz-core/src/error.rs]). *)
Module AuthzError.
Inductive t : Type :=
| EvaluationFailed (msg : string)
| UnknownRevision (requested latest : N)
| UnknownEntity (entity : string)
| Core (e : Error.t)
| InvalidPolicy (msg : string)
| ChainActorMismatch (principal actor : string)
| UnknownEventKind (kind : string)
| InvalidEventId (msg : string)
| UnfoldableEvent (seq : N) (reason : string)
| InvalidScopePath (msg : string).
#[global] Instance t_eq_dec : EqDecision t.
Proof. solve_decision. Defined.
End AuthzError.

(** * Revisions *)
Module Revision.
(** A [u64]; [next] wraps at the width (release profile). *)
Record t := new { value : N }.
#[global] Instance t_eq_dec : EqDecision t.
Proof. solve_decision. Defined.
Definition next (r : t) : t := new ((value r + 1) mod 2 ^ 64).
End Revision.

(** * The model of one revision *)
Module ModelState.
Record t := mk {
  spine : Spine.t;
  principals : list Principal.t;
  sets : list PrincipalSet.t;
  grants : list Grant.t;
  promotions : list PromotedResource.t;
}.

Definition new (spine : Spine.t) : t := mk spine [] [] [] [].

Definition with_spine (m : t) (spine : Spine.t) : t :=
  mk spine (principals m) (sets m) (grants m) (promotions m).

Definition upsert_principal (m : t) (principal : Principal.t) : t :=
  mk (spine m)
     (upsert Principal.fgrn principal (principals m))
     (sets m) (grants m) (promotions m).

Definition principal (m : t) (fgrn : Fgrn.t) : option Principal.t :=
  find_key Principal.fgrn fgrn (principals m).

Definition upsert_principal_set (m : t) (set : PrincipalSet.t) : t :=
  mk (spine m) (principals m)
     (upsert PrincipalSet.fgrn set (sets m))
     (grants m) (promotions m).

Definition add_grant (m : t) (grant : Grant.t) : t :=
  mk (spine m) (principals m) (sets m) (grants m ++ [grant]) (promotions m).

(** The new model and whether a grant was removed. *)
Definition remove_grant (m : t) (resource to : Fgrn.t) : t * bool :=
  let kept := filter (λ g, ¬ (Grant.resource g = resource ∧ Grant.to g = to)) (grants m) in
  (mk (spine m) (principals m) (sets m) kept (promotions m),
   negb (bool_decide (length kept = length (grants m)))).

Definition upsert_promotion (m : t) (promotion : PromotedResource.t) : t :=
  mk (spine m) (principals m) (sets m) (grants m)
     (upsert PromotedResource.fgrn promotion (promotions m)).

Definition promotion (m : t) (fgrn : Fgrn.t) : option PromotedResource.t :=
  find_key PromotedResource.fgrn fgrn (promotions m).

(** The shape every write keeps: a validated spine and one record per FGRN. *)
Record wf (m : t) : Prop := {
  wf_spine : Spine.wf (spine m);
  wf_principals : NoDup (Principal.fgrn <$> principals m);
  wf_principal p : p ∈ principals m → Principal.wf p;
  wf_sets : NoDup (PrincipalSet.fgrn <$> sets m);
  wf_set s : s ∈ sets m → PrincipalSet.wf s;
  wf_grant g : g ∈ grants m → Grant.wf g;
  wf_promotions : NoDup (PromotedResource.fgrn <$> promotions m);
}.
End ModelState.

(** * Slices *)
Module EntitySlice.
Record t := mk {
  principal : Principal.t;
  principal_sets : list PrincipalSet.t;
  org_units : list OrgUnit.t;
  grants : list Grant.t;
  promotion : option PromotedResource.t;
  revision : Revision.t;
}.
End EntitySlice.

Module Slice.
(** One pass of the fixpoint over the sets: [selected], [member_fgrns] and
    [grew] are the loop's mutable state. *)
Fixpoint pass (all_sets selected : list PrincipalSet.t) (member_fgrns : list Fgrn.t)
    (grew : bool) : list PrincipalSet.t * list Fgrn.t * bool :=
  match all_sets with
  | [] => (selected, member_fgrns, grew)
  | set :: rest =>
      if existsb (λ s, bool_decide (PrincipalSet.fgrn s = PrincipalSet.fgrn set)) selected
      then pass rest selected member_fgrns grew
      else if existsb (PrincipalSet.contains set) member_fgrns
      then pass rest (selected ++ [set]) (member_fgrns ++ [PrincipalSet.fgrn set]) true
      else pass rest selected member_fgrns grew
  end.

(** [for _ in 0..n] around the passes, with its [break]. *)
Fixpoint passes (n : nat) (all_sets selected : list PrincipalSet.t) (member_fgrns : list Fgrn.t)
    : list PrincipalSet.t :=
  match n with
  | 0 => selected
  | S n =>
      let '(selected, member_fgrns, grew) := pass all_sets selected member_fgrns false in
      if negb grew then selected else passes n all_sets selected member_fgrns
  end.

Definition transitive_principal_sets (model : ModelState.t) (member : Fgrn.t)
    : list PrincipalSet.t :=
  let all_sets := ModelState.sets model in
  passes (S (length all_sets)) all_sets [] [member].

(** The inner loop of [spine_ancestry], over one path. *)
Fixpoint add_path (spine : Spine.t) (nodes : list Fgrn.t) (org_units : list OrgUnit.t)
    : result AuthzError.t (list OrgUnit.t) :=
  match nodes with
  | [] => Ok org_units
  | node :: rest =>
      if existsb (λ u, bool_decide (OrgUnit.fgrn u = node)) org_units
      then add_path spine rest org_units
      else
        parent ← map_err AuthzError.Core (Spine.parent spine node);
        unit ← map_err AuthzError.Core (OrgUnit.try_new node parent);
        add_path spine rest (org_units ++ [unit])
  end.

Fixpoint add_anchors (spine : Spine.t) (anchors : list Fgrn.t) (org_units : list OrgUnit.t)
    : result AuthzError.t (list OrgUnit.t) :=
  match anchors with
  | [] => Ok org_units
  | anchor :: rest =>
      if negb (bool_decide (Fgrn.kind anchor = FgrnKind.OrgUnit))
      then add_anchors spine rest org_units
      else
        path ← map_err AuthzError.Core (Spine.path spine anchor);
        org_units ← add_path spine path org_units;
        add_anchors spine rest org_units
  end.

Definition spine_ancestry (model : ModelState.t) (anchors : list Fgrn.t)
    : result AuthzError.t (list OrgUnit.t) :=
  add_anchors (ModelState.spine model) anchors [].

Definition select_slice (model : ModelState.t) (principal resource : Fgrn.t)
    (revision : Revision.t) : result AuthzError.t EntitySlice.t :=
  principal ← ok_or (ModelState.principal model principal)
                (AuthzError.UnknownEntity (Fgrn.to_string principal));
  let selected := transitive_principal_sets model (Principal.fgrn principal) in
  let promotion := ModelState.promotion model resource in
  let anchors :=
    [Principal.anchor principal] ++
    match promotion with Some promo => [PromotedResource.anchor promo] | None => [] end in
  org_units ← spine_ancestry model anchors;
  let grants := filter (λ g, Grant.resource g = resource) (ModelState.grants model) in
  Ok (EntitySlice.mk principal selected org_units grants promotion revision).
End Slice.

(** * The store interface *)
Module SliceQuery.
Record t := mk { principal : Fgrn.t; resource : Fgrn.t; revision : option Revision.t }.
Definition new (principal resource : Fgrn.t) : t := mk principal resource None.
Definition at_revision (q : t) (r : Revision.t) : t := mk (principal q) (resource q) (Some r).
End SliceQuery.

Module StoreWrite.
Inductive t :=
| PutOrgUnit (unit : OrgUnit.t)
| PutPrincipal (principal : Principal.t)
| PutPrincipalSet (set : PrincipalSet.t)
| PutGrant (grant : Grant.t)
| RemoveGrant (resource to : Fgrn.t)
| PutPromotion (promotion : PromotedResource.t).

(** What the constructors of the written values guarantee. *)
Definition wf (w : t) : Prop :=
  match w with
  | PutOrgUnit u => OrgUnit.wf u
  | PutPrincipal p => Principal.wf p
  | PutPrincipalSet s => PrincipalSet.wf s
  | PutGrant g => Grant.wf g
  | RemoveGrant _ _ => True
  | PutPromotion _ => True
  end.
End StoreWrite.

(** The trait's operations; [apply] takes the store to its next state. *)
Class AuthzStore (S : Type) := {
  slice : S → SliceQuery.t → result AuthzError.t EntitySlice.t;
  apply : S → StoreWrite.t → S * result AuthzError.t Revision.t;
  latest_revision : S → result AuthzError.t Revision.t;
}.

(** What the interface promises its clients: a write produces the next
    revision, a rejected write changes nothing, a revision once produced is
    read the same for ever, an unpinned read is a read of the latest
    revision, a slice carries the revision it was read at, and a revision
    never produced is an error. *)
Class AuthzStoreLaws (S : Type) `{AuthzStore S} (valid : S → Prop) : Prop := {
  law_apply_ok s w s' r : valid s → apply s w = (s', Ok r) →
    valid s' ∧ latest_revision s' = Ok r ∧
    ∃ l, latest_revision s = Ok l ∧ Revision.value r = (Revision.value l + 1)%N;
  law_apply_total s w why : valid s → (apply s w).2 ≠ Stuck why;
  law_apply_err s w s' e : valid s → apply s w = (s', Err e) → s' = s;
  law_stable s w q r l : valid s → latest_revision s = Ok l →
    (0 < Revision.value r ≤ Revision.value l)%N →
    slice (apply s w).1 (SliceQuery.at_revision q r) = slice s (SliceQuery.at_revision q r);
  law_latest s q l : valid s → latest_revision s = Ok l → SliceQuery.revision q = None →
    slice s q = slice s (SliceQuery.at_revision q l);
  law_revision s q r sl : valid s →
    slice s (SliceQuery.at_revision q r) = Ok sl → EntitySlice.revision sl = r;
  law_unknown s q r l : valid s → latest_revision s = Ok l →
    (Revision.value r = 0 ∨ Revision.value l < Revision.value r)%N →
    slice s (SliceQuery.at_revision q r) =
      Err (AuthzError.UnknownRevision (Revision.value r) (Revision.value l));
}.

(** * The in-memory store *)
Module MemoryStore.
(** [Mutex<Vec<ModelState>>]: revision [n] is [history[n-1]].  A lock is
    poisoned when a holder panics. *)
Record t := mk { history : list ModelState.t; poisoned : bool }.

Definition new (initial : ModelState.t) : t := mk [initial] false.

Definition locked (s : t) : result AuthzError.t (list ModelState.t) :=
  if poisoned s
  then Err (AuthzError.EvaluationFailed
              ("memory store lock poisoned: " +:+
               "poisoned lock: another task failed inside"))
  else Ok (history s).

Definition len_u64 {A} (l : list A) : N := N.of_nat (length l).

Definition slice (s : t) (query : SliceQuery.t) : result AuthzError.t EntitySlice.t :=
  history ← locked s;
  let latest := len_u64 history in
  let revision := default (Revision.new latest) (SliceQuery.revision query) in
  let index := Revision.value revision in
  if bool_decide (index = 0%N) || bool_decide (latest < index)%N
  then Err (AuthzError.UnknownRevision index latest)
  else
    match history !! N.to_nat (index - 1) with
    | None => Stuck "history[index - 1]: index out of bounds"
    | Some model =>
        Slice.select_slice model (SliceQuery.principal query) (SliceQuery.resource query) revision
    end.

(** The effect of one write on a model. *)
Definition write_model (next : ModelState.t) (write : StoreWrite.t)
    : result AuthzError.t ModelState.t :=
  match write with
  | StoreWrite.PutOrgUnit unit =>
      spine ← map_err AuthzError.Core (Spine.add (ModelState.spine next) unit);
      Ok (ModelState.with_spine next spine)
  | StoreWrite.PutPrincipal p => Ok (ModelState.upsert_principal next p)
  | StoreWrite.PutPrincipalSet s => Ok (ModelState.upsert_principal_set next s)
  | StoreWrite.PutGrant g => Ok (ModelState.add_grant next g)
  | StoreWrite.RemoveGrant resource to => Ok (ModelState.remove_grant next resource to).1
  | StoreWrite.PutPromotion p => Ok (ModelState.upsert_promotion next p)
  end.

Definition apply (s : t) (write : StoreWrite.t) : t * result AuthzError.t Revision.t :=
  match
    history ← locked s;
    next ← ok_or (last history) (AuthzError.EvaluationFailed "memory store has no state");
    next ← write_model next write;
    Ok (history ++ [next])
  with
  | Ok history => (mk history (poisoned s), Ok (Revision.new (len_u64 history)))
  | Err e => (s, Err e)
  | Stuck w => (mk (history s) true, Stuck w)
  end.

Definition latest_revision (s : t) : result AuthzError.t Revision.t :=
  history ← locked s;
  Ok (Revision.new (len_u64 history)).

#[global] Instance memory_store : AuthzStore t := {
  slice := slice; apply := apply; latest_revision := latest_revision;
}.

(** A store whose lock no holder has panicked under, with a first model. *)
Record valid (s : t) : Prop := {
  valid_lock : poisoned s = false;
  valid_history : history s ≠ [];
}.
End MemoryStore.

(** * Facts about slices *)
Module SliceFacts.
Import Slice.

Section fixpoint_sets.
Context (sets : list PrincipalSet.t) (p : Fgrn.t).
Context (Hnd : NoDup (PrincipalSet.fgrn <$> sets)).
Context (Hwf : ∀ s, s ∈ sets → PrincipalSet.wf s).
Implicit Types (sel : list PrincipalSet.t).

(** The loop's state: the selected sets are members' sets, without
    repetition; [member_fgrns] is the principal and their FGRNs. *)
Record sound sel : Prop := {
  sound_sub s : s ∈ sel → s ∈ sets;
  sound_nodup : NoDup (PrincipalSet.fgrn <$> sel);
  sound_member s : s ∈ sel → Delegation.member_of sets p (PrincipalSet.fgrn s);
}.
Definition closed sel : Prop :=
  ∀ s, s ∈ sets → PrincipalSet.fgrn s ∈ PrincipalSet.fgrn <$> sel ∨
    ∀ m, m ∈ p :: (PrincipalSet.fgrn <$> sel) → m ∉ PrincipalSet.members s.

Lemma selected_iff sel s :
  existsb (λ x, bool_decide (PrincipalSet.fgrn x = PrincipalSet.fgrn s)) sel = true ↔
  PrincipalSet.fgrn s ∈ PrincipalSet.fgrn <$> sel.
Proof.
  rewrite existsb_exists, list_elem_of_fmap. setoid_rewrite bool_decide_eq_true.
  setoid_rewrite <-list_elem_of_In. naive_solver.
Qed.
Lemma touches_iff ms s :
  existsb (PrincipalSet.contains s) ms = true ↔ ∃ m, m ∈ ms ∧ m ∈ PrincipalSet.members s.
Proof.
  rewrite existsb_exists. unfold PrincipalSet.contains. setoid_rewrite bool_decide_eq_true.
  by setoid_rewrite <-list_elem_of_In.
Qed.

Lemma sound_snoc sel s m :
  sound sel → s ∈ sets → (PrincipalSet.fgrn s ∉ (PrincipalSet.fgrn <$> sel)) →
  m ∈ p :: (PrincipalSet.fgrn <$> sel) → m ∈ PrincipalSet.members s → sound (sel ++ [s]).
Proof.
  intros [Hsub Hsnd Hmem] Hs Hnew Hm Hin. split.
  - set_solver.
  - rewrite fmap_app. apply NoDup_app. split_and!; [done|set_solver|apply NoDup_singleton].
  - intros s' [?| ->%list_elem_of_singleton]%elem_of_app; [by apply Hmem|].
    assert (Delegation.find_set sets (PrincipalSet.fgrn s) = Some s) as Hfind
      by (by apply find_key_In).
    apply elem_of_cons in Hm as [->|(s' & -> & Hs')%list_elem_of_fmap].
    + by eapply Delegation.member_direct.
    + eapply Delegation.member_nested; [done..| |by apply Hmem].
      by apply Hwf, Hsub.
Qed.

Lemma pass_spec todo sel grew sel' ms' grew' :
  (∀ s, s ∈ todo → s ∈ sets) → sound sel →
  pass todo sel (p :: (PrincipalSet.fgrn <$> sel)) grew = (sel', ms', grew') →
  sound sel' ∧ ms' = p :: (PrincipalSet.fgrn <$> sel') ∧
  (if grew' then grew = true ∨ length sel < length sel'
   else grew = false ∧ sel' = sel ∧
        ∀ s, s ∈ todo → PrincipalSet.fgrn s ∈ PrincipalSet.fgrn <$> sel ∨
          ∀ m, m ∈ p :: (PrincipalSet.fgrn <$> sel) → m ∉ PrincipalSet.members s) ∧
  length sel ≤ length sel'.
Proof.
  revert sel grew. induction todo as [|s todo IH]; intros sel grew Htodo Hsound; cbn [pass].
  { intros [= <- <- <-]. split_and!; [done..| |lia]. destruct grew; [auto|].
    split_and!; [done..|set_solver]. }
  destruct (existsb _ sel) eqn:Hsel.
  { apply selected_iff in Hsel. intros Hp.
    apply IH in Hp as (? & ? & Hg & ?); [|set_solver|done]. split_and!; [done..| |done].
    destruct grew'; [done|]. destruct Hg as (? & -> & Hg). split_and!; [done..|].
    intros x [->|Hx]%elem_of_cons; auto. }
  destruct (existsb (PrincipalSet.contains s) _) eqn:Htouch.
  - apply touches_iff in Htouch as (m & Hm & Hin). intros Hp.
    replace ((p :: (PrincipalSet.fgrn <$> sel)) ++ [PrincipalSet.fgrn s])
      with (p :: (PrincipalSet.fgrn <$> (sel ++ [s]))) in Hp by by rewrite fmap_app.
    apply IH in Hp as (? & ? & Hg & Hlen); [|set_solver|].
    + rewrite length_app in Hlen; simpl in Hlen. split_and!; [done..| |lia].
      destruct grew'; [right; lia|naive_solver].
    + eapply sound_snoc; [done|set_solver| |done..]. by rewrite <-selected_iff, Hsel.
  - intros Hp. apply IH in Hp as (? & ? & Hg & ?); [|set_solver|done].
    split_and!; [done..| |done]. destruct grew'; [done|]. destruct Hg as (? & -> & Hg).
    split_and!; [done..|]. intros x [->|Hx]%elem_of_cons; [|by auto]. right.
    intros m Hm Hin. apply not_true_iff_false in Htouch. apply Htouch.
    apply touches_iff. eauto.
Qed.

Lemma sound_length sel : sound sel → length sel ≤ length sets.
Proof.
  intros [Hsub Hsnd _]. rewrite <-(length_fmap PrincipalSet.fgrn sel),
    <-(length_fmap PrincipalSet.fgrn sets). apply submseteq_length, NoDup_submseteq; [done|].
  intros x (s & -> & Hs)%list_elem_of_fmap. apply list_elem_of_fmap. eauto.
Qed.

Lemma passes_spec n sel :
  sound sel → length sets < n + length sel →
  sound (passes n sets sel (p :: (PrincipalSet.fgrn <$> sel))) ∧
  closed (passes n sets sel (p :: (PrincipalSet.fgrn <$> sel))).
Proof.
  revert sel. induction n as [|n IH]; intros sel Hs Hlen; cbn [passes].
  { pose proof (sound_length sel Hs). simpl in Hlen. lia. }
  destruct (pass _ _ _ _) as [[sel' ms'] grew] eqn:Hp.
  apply pass_spec in Hp as (Hs' & -> & Hg & Hle); [|done..]. destruct grew; simpl.
  - apply IH; [done|]. destruct Hg as [?|?]; [done|lia].
  - destruct Hg as (_ & -> & Hg). split; [done|]. exact Hg.
Qed.

(** A closed selection has every set the principal is in. *)
Lemma closed_complete sel f :
  closed sel → Delegation.member_of sets p f → f ∈ PrincipalSet.fgrn <$> sel.
Proof.
  intros Hc. induction 1 as [f s Hs Hp|f s m Hs Hm _ _ IH];
    apply DelegationFacts.find_set_Some in Hs as [Hin <-];
    destruct (Hc s Hin) as [?|Hn]; try done; exfalso.
  - by apply (Hn p); [left|].
  - by apply (Hn m); [right|].
Qed.

Lemma passes_exact s :
  s ∈ passes (S (length sets)) sets [] [p] ↔
  s ∈ sets ∧ Delegation.member_of sets p (PrincipalSet.fgrn s).
Proof.
  destruct (passes_spec (S (length sets)) []) as [Hsound Hclosed].
  { split; [set_solver|constructor|set_solver]. }
  { simpl. lia. }
  cbn [fmap list_fmap] in *. split.
  - intros Hs. split; by apply Hsound.
  - intros [Hs Hm]. pose proof (closed_complete _ _ Hclosed Hm) as Hin.
    apply list_elem_of_fmap in Hin as (s' & Heq & Hs').
    assert (s = s') as ->; [|done].
    eapply NoDup_key_inj; [done..| |done]. by apply Hsound.
Qed.
End fixpoint_sets.

Section ancestry.
Context (sp : Spine.t) (Hsp : Spine.wf sp).

(** The units collected so far: each is a spine unit with its parent. *)
Definition recorded (us : list OrgUnit.t) : Prop :=
  NoDup (OrgUnit.fgrn <$> us) ∧
  ∀ u, u ∈ us → Spine.units sp !! OrgUnit.fgrn u = Some (OrgUnit.parent u).

Lemma unit_try_new x o :
  Spine.units sp !! x = Some o → OrgUnit.try_new x o = Ok (OrgUnit.mk x o).
Proof.
  intros Hx. unfold OrgUnit.try_new.
  rewrite (bool_decide_eq_true_2 (Fgrn.kind x = _)) by (by eapply Spine.wf_kind).
  destruct o as [y|]; [|done]. simpl.
  assert (is_Some (Spine.units sp !! y)) as Hy by (by eapply Spine.wf_parents).
  rewrite (bool_decide_eq_true_2 (Fgrn.kind y = _)) by (by eapply Spine.wf_kind). simpl.
  rewrite bool_decide_eq_false_2.
  2: { intros ->. destruct (SpineFacts.wf_up_path sp x Hsp) as [l Hl]; [by eexists|].
       by apply (up_path_acyclic _ _ _ Hl), tc_once. }
  rewrite bool_decide_eq_true_2; [done|].
  rewrite !(Spine.wf_org sp Hsp); [done|by eexists|done].
Qed.

Lemma add_path_spec nodes us :
  (∀ x, x ∈ nodes → is_Some (Spine.units sp !! x)) → recorded us →
  ∃ us', add_path sp nodes us = Ok us' ∧ recorded us' ∧
    ∀ x, x ∈ OrgUnit.fgrn <$> us' ↔ x ∈ OrgUnit.fgrn <$> us ∨ x ∈ nodes.
Proof.
  revert us. induction nodes as [|x nodes IH]; intros us Hn Hrec; simpl.
  { exists us. split_and!; [done..|set_solver]. }
  destruct (existsb _ us) eqn:Hex.
  - apply existsb_exists in Hex as (u & Hu%list_elem_of_In & Hx). bool_prop.
    destruct (IH us) as (us' & -> & ? & Hiff); [set_solver|done|].
    exists us'. split_and!; [done..|]. intros y. rewrite Hiff.
    assert (x ∈ OrgUnit.fgrn <$> us) by (apply list_elem_of_fmap; eauto). set_solver.
  - assert (x ∉ (OrgUnit.fgrn <$> us)) as Hnew.
    { intros (u & -> & Hu)%list_elem_of_fmap. apply not_true_iff_false in Hex. apply Hex.
      apply existsb_exists. exists u. split; [by apply list_elem_of_In|].
      by apply bool_decide_eq_true. }
    destruct (Hn x) as [o Ho]; [left|]. unfold Spine.parent. rewrite Ho.
    cbn [ok_or map_err mbind result_bind]. rewrite (unit_try_new x o Ho).
    cbn [map_err mbind result_bind].
    destruct (IH (us ++ [OrgUnit.mk x o])) as (us' & -> & ? & Hiff); [set_solver| |].
    + destruct Hrec as [Hnd Hrec]. split.
      * rewrite fmap_app. apply NoDup_app. split_and!; [done|set_solver|apply NoDup_singleton].
      * intros u [?| ->%list_elem_of_singleton]%elem_of_app; auto.
    + exists us'. split_and!; [done..|]. intros y. rewrite Hiff, fmap_app. simpl. set_solver.
Qed.

Definition needed (anchors : list Fgrn.t) (x : Fgrn.t) : Prop :=
  ∃ a, a ∈ anchors ∧ Fgrn.kind a = FgrnKind.OrgUnit ∧ rtc (Spine.edge sp) a x.

Lemma path_known a path x :
  Spine.path sp a = Ok path → x ∈ path → is_Some (Spine.units sp !! x).
Proof.
  intros Hp Hx. rewrite SpineFacts.path_Ok in Hp by done.
  apply (up_path_dom _ a (reverse path)); [done|]. by apply elem_of_reverse.
Qed.

Lemma add_anchors_spec anchors us :
  recorded us →
  (∀ a, a ∈ anchors → Fgrn.kind a = FgrnKind.OrgUnit → is_Some (Spine.units sp !! a)) →
  ∃ us', add_anchors sp anchors us = Ok us' ∧ recorded us' ∧
    ∀ x, x ∈ OrgUnit.fgrn <$> us' ↔ x ∈ OrgUnit.fgrn <$> us ∨ needed anchors x.
Proof.
  revert us. induction anchors as [|a anchors IH]; intros us Hrec Hk; simpl.
  { exists us. split_and!; [done..|]. unfold needed. set_solver. }
  assert (∀ x, needed (a :: anchors) x ↔
    (Fgrn.kind a = FgrnKind.OrgUnit ∧ rtc (Spine.edge sp) a x) ∨ needed anchors x) as Hneed.
  { intros x. unfold needed. setoid_rewrite elem_of_cons. naive_solver. }
  case_bool_decide as Ha; simpl.
  - destruct (SpineFacts.path_total sp a Hsp) as [path Hp]; [apply Hk; [left|done]|].
    rewrite Hp. cbn [map_err mbind result_bind].
    destruct (add_path_spec path us) as (us1 & -> & Hrec1 & Hiff1); [|done|].
    { intros x. by apply path_known with a. }
    cbn [mbind result_bind].
    destruct (IH us1) as (us' & -> & Hrec' & Hiff); [done|set_solver|].
    exists us'. split_and!; [done..|]. intros x. rewrite Hiff, Hiff1, Hneed.
    rewrite (SpineFacts.path_elem sp a path x Hsp Hp). naive_solver.
  - destruct (IH us) as (us' & -> & Hrec' & Hiff); [done|set_solver|].
    exists us'. split_and!; [done..|]. intros x. rewrite Hiff, Hneed. naive_solver.
Qed.

Lemma add_anchors_unknown anchors us :
  recorded us →
  (¬ ∀ a, a ∈ anchors → Fgrn.kind a = FgrnKind.OrgUnit → is_Some (Spine.units sp !! a)) →
  ∃ a, a ∈ anchors ∧ Fgrn.kind a = FgrnKind.OrgUnit ∧ Spine.units sp !! a = None ∧
    add_anchors sp anchors us = Err (AuthzError.Core (Spine.unknown_unit a)).
Proof.
  revert us. induction anchors as [|a anchors IH]; intros us Hrec Hk; simpl; [set_solver|].
  case_bool_decide as Ha; simpl.
  - destruct (Spine.units sp !! a) eqn:Hu.
    + destruct (SpineFacts.path_total sp a Hsp) as [path Hp]; [by eexists|].
      rewrite Hp. cbn [map_err mbind result_bind].
      destruct (add_path_spec path us) as (us1 & -> & Hrec1 & _); [|done|].
      { intros x. by apply path_known with a. }
      cbn [mbind result_bind]. destruct (IH us1) as (a' & ? & ? & ? & ->); [done| |].
      { contradict Hk. intros b [->|Hb]%elem_of_cons; [by eexists|auto]. }
      exists a'. split_and!; [by right|done..].
    + exists a. rewrite SpineFacts.path_unknown by done. split_and!; [left|done..].
  - destruct (IH us) as (a' & ? & ? & ? & ->); [done| |].
    { contradict Hk. intros b [->|Hb]%elem_of_cons; [done|auto]. }
    exists a'. split_and!; [by right|done..].
Qed.
End ancestry.
End SliceFacts.

(** * Facts about the store *)
Module StoreFacts.
Import MemoryStore.

Lemma write_model_not_Stuck m w why : write_model m w ≠ Stuck why.
Proof.
  destruct w as [[f o]| | | | |]; simpl; try done.
  unfold Spine.add. by repeat case_match; simplify_eq/=.
Qed.

Lemma write_model_wf m w m' :
  ModelState.wf m → StoreWrite.wf w → write_model m w = Ok m' → ModelState.wf m'.
Proof.
  intros [] Hw. destruct w as [u|p|s|g|r t|p]; simpl in *.
  - intros (sp & Hsp%map_err_Ok & [= <-])%bind_Ok. split; simpl; try done.
    by eapply SpineFacts.add_wf.
  - intros [= <-]. split; simpl; try done; [by apply upsert_NoDup|].
    intros x [->|[? _]]%elem_of_upsert; auto.
  - intros [= <-]. split; simpl; try done; [by apply upsert_NoDup|].
    intros x [->|[? _]]%elem_of_upsert; auto.
  - intros [= <-]. split; simpl; try done.
    intros x [?| ->%list_elem_of_singleton]%elem_of_app; auto.
  - intros [= <-]. split; simpl; try done.
    intros x [_ ?]%list_elem_of_filter. auto.
  - intros [= <-]. split; simpl; try done. by apply upsert_NoDup.
Qed.

Lemma apply_cases s w :
  valid s →
  ∃ m, last (history s) = Some m ∧
  ((∃ m', write_model m w = Ok m' ∧
     apply s w = (mk (history s ++ [m']) false, Ok (Revision.new (len_u64 (history s) + 1)))) ∨
   (∃ e, write_model m w = Err e ∧ apply s w = (s, Err e))).
Proof.
  intros [Hl Hh]. destruct s as [h pois]; simpl in *. subst pois.
  destruct (last h) as [m|] eqn:Hm; [|by apply last_None in Hm].
  exists m. split; [done|]. unfold apply, locked; simpl. rewrite Hm. cbn [ok_or mbind result_bind].
  destruct (write_model m w) as [m'|e|why] eqn:Hw; cbn [mbind result_bind].
  - left. exists m'. split; [done|]. unfold len_u64. rewrite length_app. simpl.
    do 2 f_equal. f_equal. lia.
  - right. by exists e.
  - by apply write_model_not_Stuck in Hw.
Qed.

Lemma apply_valid s w : valid s → valid (apply s w).1.
Proof.
  intros Hs. destruct (apply_cases s w Hs) as (m & _ & [(m' & _ & ->)|(e & _ & ->)]); [|done].
  split; [done|]. simpl. by destruct (history s).
Qed.
Lemma apply_prefix s w : valid s → history s `prefix_of` history (apply s w).1.
Proof.
  intros Hs. destruct (apply_cases s w Hs) as (m & _ & [(m' & _ & ->)|(e & _ & ->)]); [|done].
  by apply prefix_app_r.
Qed.

Lemma latest_valid s : valid s → latest_revision s = Ok (Revision.new (len_u64 (history s))).
Proof. intros [Hl _]. unfold latest_revision, locked. by rewrite Hl. Qed.

Lemma slice_latest s q :
  valid s → SliceQuery.revision q = None →
  slice s q = slice s (SliceQuery.at_revision q (Revision.new (len_u64 (history s)))).
Proof.
  intros Hs Hq. unfold slice, locked. rewrite (valid_lock _ Hs). cbn [mbind result_bind].
  by rewrite Hq.
Qed.
(** A pinned read of a produced revision. *)
Lemma slice_pinned s q r m :
  valid s → (0 < Revision.value r)%N → history s !! N.to_nat (Revision.value r - 1) = Some m →
  slice s (SliceQuery.at_revision q r) =
  Slice.select_slice m (SliceQuery.principal q) (SliceQuery.resource q) r.
Proof.
  intros [Hl _] Hr Hm. unfold slice, locked. rewrite Hl. cbn [mbind result_bind].
  pose proof (lookup_lt_Some _ _ _ Hm) as Hlt. simpl. unfold len_u64.
  rewrite !bool_decide_eq_false_2 by lia. simpl. by rewrite Hm.
Qed.
Lemma slice_unknown s q r :
  valid s → (Revision.value r = 0 ∨ len_u64 (history s) < Revision.value r)%N →
  slice s (SliceQuery.at_revision q r) =
  Err (AuthzError.UnknownRevision (Revision.value r) (len_u64 (history s))).
Proof.
  intros [Hl _] Hr. unfold slice, locked. rewrite Hl. cbn [mbind result_bind]. simpl.
  destruct Hr as [Hr|Hr].
  - by rewrite (bool_decide_eq_true_2 (_ = 0%N)).
  - rewrite (bool_decide_eq_true_2 (_ < _)%N) by done. by rewrite orb_true_r.
Qed.
Lemma select_slice_revision m p r rev sl :
  Slice.select_slice m p r rev = Ok sl → EntitySlice.revision sl = rev.
Proof. unfold Slice.select_slice. intros. by inv_ok. Qed.

#[global] Instance memory_store_laws : AuthzStoreLaws t valid.
Proof.
  split; simpl.
  - intros s w s' r Hs Ha. pose proof (apply_valid s w Hs) as Hv. rewrite Ha in Hv.
    destruct (apply_cases s w Hs) as (m & _ & [(m' & _ & Heq)|(e & _ & Heq)]);
      rewrite Heq in Ha; simplify_eq/=. rewrite !latest_valid by done. split; [done|]. simpl.
    split; [|by eexists]. unfold len_u64. rewrite length_app. simpl. do 2 f_equal. lia.
  - intros s w why Hs.
    by destruct (apply_cases s w Hs) as (m & _ & [(m' & _ & ->)|(e & _ & ->)]).
  - intros s w s' e Hs Ha.
    destruct (apply_cases s w Hs) as (m & _ & [(m' & _ & Heq)|(e' & _ & Heq)]);
      rewrite Heq in Ha; by simplify_eq/=.
  - intros s w q r l Hs Hl Hr. rewrite latest_valid in Hl by done. simplify_eq/=.
    destruct (lookup_lt_is_Some_2 (history s) (N.to_nat (Revision.value r - 1))) as [m Hm].
    { unfold len_u64 in Hr. lia. }
    rewrite (slice_pinned s q r m) by (done || lia).
    apply slice_pinned; [by apply apply_valid|lia|].
    by eapply prefix_lookup_Some, apply_prefix.
  - intros s q l Hs Hl Hq. rewrite latest_valid in Hl by done. simplify_eq/=.
    by apply slice_latest.
  - intros s q r sl Hs Hsl.
    destruct (decide (Revision.value r = 0 ∨ len_u64 (history s) < Revision.value r)%N) as [Hr|Hr].
    { by rewrite slice_unknown in Hsl. }
    destruct (lookup_lt_is_Some_2 (history s) (N.to_nat (Revision.value r - 1))) as [m Hm].
    { unfold len_u64 in Hr. lia. }
    rewrite (slice_pinned s q r m) in Hsl by (done || lia). by eapply select_slice_revision.
  - intros s q r l Hs Hl Hr. rewrite latest_valid in Hl by done. simplify_eq/=.
    by apply slice_unknown.
Qed.
End StoreFacts.

(** * Runs of writes *)

(** A sequence of writes, rejected ones included. *)
Fixpoint run_writes {S} `{AuthzStore S} (s : S) (ws : list StoreWrite.t) : S :=
  match ws with [] => s | w :: ws => run_writes (apply s w).1 ws end.

(** The models a sequence of writes produces, as a fold without a store:
    a rejected write produces none. *)
Fixpoint replay (m : ModelState.t) (ws : list StoreWrite.t) : list ModelState.t :=
  match ws with
  | [] => [m]
  | w :: ws =>
      match MemoryStore.write_model m w with
      | Ok m' => m :: replay m' ws
      | _ => replay m ws
      end
  end.

(** What a slice has to be. *)
Definition slice_anchors (m : ModelState.t) (p : Principal.t) (r : Fgrn.t) : list Fgrn.t :=
  Principal.anchor p ::
  match ModelState.promotion m r with Some x => [PromotedResource.anchor x] | None => [] end.
Record slice_of (m : ModelState.t) (p : Principal.t) (r : Fgrn.t) (sl : EntitySlice.t) : Prop := {
  slice_principal : EntitySlice.principal sl = p;
  slice_sets s : s ∈ EntitySlice.principal_sets sl ↔
    s ∈ ModelState.sets m ∧
    Delegation.member_of (ModelState.sets m) (Principal.fgrn p) (PrincipalSet.fgrn s);
  slice_units u : u ∈ EntitySlice.org_units sl ↔
    Spine.units (ModelState.spine m) !! OrgUnit.fgrn u = Some (OrgUnit.parent u) ∧
    ∃ a, a ∈ slice_anchors m p r ∧ Fgrn.kind a = FgrnKind.OrgUnit ∧
         rtc (Spine.edge (ModelState.spine m)) a (OrgUnit.fgrn u);
  slice_units_once : NoDup (OrgUnit.fgrn <$> EntitySlice.org_units sl);
  slice_grants g : g ∈ EntitySlice.grants sl ↔ g ∈ ModelState.grants m ∧ Grant.resource g = r;
  slice_promotion : EntitySlice.promotion sl = ModelState.promotion m r;
  slice_anchor_known a : a ∈ slice_anchors m p r → Fgrn.kind a = FgrnKind.OrgUnit →
    is_Some (Spine.units (ModelState.spine m) !! a);
}.

(** A model of the sample organization and a sequence of writes to it. *)
Module StoreSample.
Definition model : ModelState.t :=
  ModelState.mk SpineSample.spine [GrantSample.alice_principal] [GrantSample.team_set]
    [GrantSample.team_grant] [].
Definition writes : list StoreWrite.t :=
  [StoreWrite.PutGrant GrantSample.alice_grant;
   StoreWrite.PutOrgUnit (OrgUnit.mk SpineSample.eng (Some SpineSample.root));
   StoreWrite.RemoveGrant GrantSample.doc GrantSample.team].

Lemma model_wf : ModelState.wf model.
Proof.
  split; simpl.
  - apply SpineSample.spine_wf.
  - apply NoDup_singleton.
  - intros p ->%list_elem_of_singleton. reflexivity.
  - apply NoDup_singleton.
  - intros s ->%list_elem_of_singleton. apply GrantSample.team_set_wf.
  - intros g ->%list_elem_of_singleton. apply GrantSample.team_grant_wf.
  - constructor.
Qed.
Lemma writes_wf w : w ∈ writes → StoreWrite.wf w.
Proof.
  unfold writes. rewrite !elem_of_cons. intros [->|[->|[->|[]%not_elem_of_nil]]].
  - apply GrantSample.alice_grant_wf.
  - by_eval.
  - exact I.
Qed.
End StoreSample.

Section client.
Context {S : Type} `{AuthzStoreLaws S valid}.

(** A write keeps the store valid and never lowers the latest revision. *)
Lemma apply_step s w l :
  valid s → latest_revision s = Ok l →
  valid (apply s w).1 ∧
  ∃ l', latest_revision (apply s w).1 = Ok l' ∧ (Revision.value l ≤ Revision.value l')%N.
Proof.
  intros Hs Hl. pose proof (law_apply_total s w) as Ht.
  destruct (apply s w) as [s' [r|e|why]] eqn:Ha; simpl in *.
  - destruct (law_apply_ok _ _ _ _ Hs Ha) as (? & ? & l' & Hl' & Hr).
    split; [done|]. exists r. split; [done|]. assert (l = l') as -> by congruence. lia.
  - rewrite (law_apply_err _ _ _ _ Hs Ha). eauto.
  - by destruct (Ht why Hs).
Qed.

(** A produced revision reads the same after any writes. *)
Lemma run_writes_stable (s : S) ws q r l :
  valid s → latest_revision s = Ok l → (0 < Revision.value r ≤ Revision.value l)%N →
  slice (run_writes s ws) (SliceQuery.at_revision q r) =
  slice s (SliceQuery.at_revision q r).
Proof.
  revert s l. induction ws as [|w ws IH]; intros s l Hs Hl Hr; simpl; [done|].
  destruct (apply_step s w l Hs Hl) as (Hs' & l' & Hl' & Hle).
  rewrite (IH _ l' Hs' Hl') by lia. by eapply law_stable.
Qed.

(** Snapshot stability, for every implementation of the store interface:
    a revision already produced reads the same after any sequence of
    accepted and rejected writes; a decision made at a revision can be
    reproduced later. *)
Theorem store_time_travel (s : S) ws q r l :
  valid s → latest_revision s = Ok l → (0 < Revision.value r ≤ Revision.value l)%N →
  slice (run_writes s ws) (SliceQuery.at_revision q r) =
  slice s (SliceQuery.at_revision q r).
Proof. apply run_writes_stable. Qed.
End client.

(** Witness: the in-memory store, where revision 1 is read after three writes. *)
Lemma store_time_travel_witness :
  slice (run_writes (MemoryStore.new StoreSample.model) StoreSample.writes)
    (SliceQuery.at_revision (SliceQuery.new GrantSample.alice GrantSample.doc) (Revision.new 1)) =
  slice (MemoryStore.new StoreSample.model)
    (SliceQuery.at_revision (SliceQuery.new GrantSample.alice GrantSample.doc) (Revision.new 1)).
Proof.
  apply (store_time_travel (valid := MemoryStore.valid) (MemoryStore.new StoreSample.model) StoreSample.writes
           (SliceQuery.new GrantSample.alice GrantSample.doc) (Revision.new 1) (Revision.new 1)).
  - by split.
  - reflexivity.
  - split; reflexivity || discriminate.
Defined.

(** The store reads back the replay of its writes. *)
Lemma history_run h m ws :
  MemoryStore.history (run_writes (MemoryStore.mk (h ++ [m]) false) ws) = h ++ replay m ws ∧
  MemoryStore.poisoned (run_writes (MemoryStore.mk (h ++ [m]) false) ws) = false.
Proof.
  revert h m. induction ws as [|w ws IH]; intros h m; simpl; [done|].
  destruct (StoreFacts.apply_cases (MemoryStore.mk (h ++ [m]) false) w)
    as (m0 & Hm0 & Hcases); [split; [done|by destruct h]|].
  simpl in Hm0. rewrite last_snoc in Hm0. injection Hm0 as <-.
  destruct Hcases as [(m' & Hw & ->)|(e & Hw & ->)]; rewrite Hw.
  - simpl. destruct (IH (h ++ [m]) m') as [-> ->]. by rewrite <-app_assoc.
  - apply IH.
Qed.

Lemma replay_wf m ws :
  ModelState.wf m → (∀ w, w ∈ ws → StoreWrite.wf w) →
  ∀ x, x ∈ replay m ws → ModelState.wf x.
Proof.
  revert m. induction ws as [|w ws IH]; intros m Hm Hws; simpl.
  { by intros x ->%list_elem_of_singleton. }
  assert (∀ w, w ∈ ws → StoreWrite.wf w) by set_solver.
  destruct (MemoryStore.write_model m w) as [m'| |] eqn:Hw; [|by apply IH..].
  intros x [->|Hx]%elem_of_cons; [done|]. apply (IH m'); [|done..].
  eapply StoreFacts.write_model_wf; [done| |done]. apply Hws. left.
Qed.

(** The in-memory store is the replay of its writes: after any sequence of
    writes, accepted or rejected, its revisions are exactly the models of the
    pure replay, the lock is not poisoned, the latest revision is their
    number, every model keeps its invariant (validated spine, one record per
    FGRN, valid sets and grants), and an unpinned read sees the last one. *)
Theorem memory_store_replays m ws q :
  ModelState.wf m → (∀ w, w ∈ ws → StoreWrite.wf w) →
  let s := run_writes (MemoryStore.new m) ws in
  let models := replay m ws in
  MemoryStore.history s = models ∧
  MemoryStore.latest_revision s = Ok (Revision.new (N.of_nat (length models))) ∧
  (∀ x, x ∈ models → ModelState.wf x) ∧
  ∃ x, last models = Some x ∧
    MemoryStore.slice s (SliceQuery.new (SliceQuery.principal q) (SliceQuery.resource q)) =
    Slice.select_slice x (SliceQuery.principal q) (SliceQuery.resource q)
      (Revision.new (N.of_nat (length models))).
Proof.
  intros Hm Hws. simpl. destruct (history_run [] m ws) as [Hh Hp]. simpl in Hh, Hp.
  change (MemoryStore.mk [m] false) with (MemoryStore.new m) in Hh, Hp.
  set (s := run_writes (MemoryStore.new m) ws) in *.
  assert (MemoryStore.valid s) as Hv.
  { split; [done|]. rewrite Hh. clear. revert m.
    induction ws as [|w ws IH]; intros m; simpl; [done|]. by case_match. }
  assert (is_Some (last (replay m ws))) as [x Hx].
  { rewrite <-Hh. apply last_is_Some. by destruct Hv. }
  split_and!; [done| | |].
  - by rewrite StoreFacts.latest_valid, Hh.
  - by apply replay_wf.
  - exists x. split; [done|].
    rewrite StoreFacts.slice_latest, Hh by done.
    simpl. rewrite last_lookup in Hx. pose proof (lookup_lt_Some _ _ _ Hx) as Hlt.
    apply (StoreFacts.slice_pinned s
      (SliceQuery.new (SliceQuery.principal q) (SliceQuery.resource q))); [done|simpl; lia|].
    simpl. rewrite Hh, <-Hx. f_equal. lia.
Qed.

(** Witness: of the sample's three writes the second is rejected, which leaves three revisions. *)
Lemma memory_store_replays_witness :
  length (replay StoreSample.model StoreSample.writes) = 3 ∧
  MemoryStore.latest_revision
    (run_writes (MemoryStore.new StoreSample.model) StoreSample.writes) =
  Ok (Revision.new (N.of_nat (length (replay StoreSample.model StoreSample.writes)))).
Proof.
  split; [by_eval|].
  apply (memory_store_replays StoreSample.model StoreSample.writes
           (SliceQuery.new GrantSample.alice GrantSample.doc)
           StoreSample.model_wf StoreSample.writes_wf).
Defined.

(** The outcomes of slice selection. *)
Lemma select_slice_cases m p r rev :
  ModelState.wf m →
  (ModelState.principal m p = None ∧
   Slice.select_slice m p r rev = Err (AuthzError.UnknownEntity (Fgrn.to_string p))) ∨
  (∃ pr, ModelState.principal m p = Some pr ∧ Principal.fgrn pr = p ∧
   ((∃ a, a ∈ slice_anchors m pr r ∧ Fgrn.kind a = FgrnKind.OrgUnit ∧
          Spine.units (ModelState.spine m) !! a = None ∧
          Slice.select_slice m p r rev = Err (AuthzError.Core (Spine.unknown_unit a))) ∨
    (∃ sl, Slice.select_slice m p r rev = Ok sl ∧ slice_of m pr r sl ∧
           EntitySlice.revision sl = rev))).
Proof.
  intros Hm. unfold Slice.select_slice.
  destruct (ModelState.principal m p) as [pr|] eqn:Hp; [right|by left].
  exists pr. split; [done|]. split; [by apply find_key_Some in Hp as [_ ?]|].
  cbn [ok_or mbind result_bind]. fold (slice_anchors m pr r).
  change ([Principal.anchor pr] ++ ?x) with (Principal.anchor pr :: x).
  fold (slice_anchors m pr r). unfold Slice.spine_ancestry.
  destruct (decide (Forall (λ a, Fgrn.kind a = FgrnKind.OrgUnit →
    is_Some (Spine.units (ModelState.spine m) !! a)) (slice_anchors m pr r))) as [Hk|Hk];
    rewrite Forall_forall in Hk.
  - right. destruct (SliceFacts.add_anchors_spec (ModelState.spine m) (ModelState.wf_spine _ Hm)
      (slice_anchors m pr r) []) as (us & -> & [Hnd Hrec] & Hus); [|done|].
    { split; [constructor|set_solver]. }
    cbn [mbind result_bind]. eexists. split; [done|]. split; [|done]. split; simpl; try done.
    + intros s. apply SliceFacts.passes_exact; by destruct Hm.
    + intros u. split.
      * intros Hu. split; [by apply Hrec|].
        destruct (proj1 (Hus (OrgUnit.fgrn u))) as [?|?]; [|set_solver|done].
        apply list_elem_of_fmap. eauto.
      * intros [Hu Ha].
        pose proof (proj2 (Hus (OrgUnit.fgrn u)) (or_intror Ha)) as Hin.
        apply list_elem_of_fmap in Hin as (u' & Heq & Hu').
        pose proof (Hrec u' Hu') as Hp'. destruct u as [f o], u' as [f' o']; simpl in *. congruence.
    + intros g. rewrite list_elem_of_filter. naive_solver.
  - left. destruct (SliceFacts.add_anchors_unknown (ModelState.spine m) (ModelState.wf_spine _ Hm)
      (slice_anchors m pr r) []) as (a & ? & ? & ? & ->); [|done|].
    { split; [constructor|set_solver]. }
    exists a. by split_and!.
Qed.
Lemma select_slice_of m p r rev sl :
  ModelState.wf m → Slice.select_slice m p r rev = Ok sl →
  ∃ pr, ModelState.principal m p = Some pr ∧ Principal.fgrn pr = p ∧ slice_of m pr r sl ∧
    EntitySlice.revision sl = rev.
Proof.
  intros Hm Hs. destruct (select_slice_cases m p r rev Hm)
    as [[_ He]|(pr & Hp & Hf & [(a & _ & _ & _ & He)|(sl' & Hs' & Hsl & Hr)])]; [congruence..|].
  exists pr. assert (sl = sl') as -> by congruence. done.
Qed.

(** C39: Slice selection is exact on every well-formed model: an unknown
    principal or an anchor missing from the spine is an error; otherwise the
    slice holds the principal, exactly the sets it is in directly or
    transitively (the same relation the delegation walk decides), exactly
    the ancestry of the principal's and the promoted resource's org-unit
    anchors, each unit once and with its own parent, exactly the grants on
    the resource and its promotion record. *)
Theorem select_slice_exact m p r rev :
  ModelState.wf m →
  (ModelState.principal m p = None ∧
   Slice.select_slice m p r rev = Err (AuthzError.UnknownEntity (Fgrn.to_string p))) ∨
  (∃ pr, ModelState.principal m p = Some pr ∧ Principal.fgrn pr = p ∧
   ((∃ a, a ∈ slice_anchors m pr r ∧ Fgrn.kind a = FgrnKind.OrgUnit ∧
          Spine.units (ModelState.spine m) !! a = None ∧
          Slice.select_slice m p r rev = Err (AuthzError.Core (Spine.unknown_unit a))) ∨
    (∃ sl, Slice.select_slice m p r rev = Ok sl ∧ slice_of m pr r sl ∧
           EntitySlice.revision sl = rev))).
Proof. apply select_slice_cases. Qed.

(** Witness: alice's slice of the sample model for the document. *)
Lemma select_slice_exact_witness :
  ∃ sl, Slice.select_slice StoreSample.model GrantSample.alice GrantSample.doc (Revision.new 1)
        = Ok sl ∧
    slice_of StoreSample.model GrantSample.alice_principal GrantSample.doc sl ∧
    EntitySlice.grants sl = [GrantSample.team_grant] ∧
    length (EntitySlice.org_units sl) = 3.
Proof.
  assert (is_ok (Slice.select_slice StoreSample.model GrantSample.alice GrantSample.doc
                   (Revision.new 1)) = true ∧
          (EntitySlice.grants <$> Slice.select_slice StoreSample.model GrantSample.alice
             GrantSample.doc (Revision.new 1)) = Ok [GrantSample.team_grant] ∧
          ((λ sl, length (EntitySlice.org_units sl)) <$> Slice.select_slice StoreSample.model
             GrantSample.alice GrantSample.doc (Revision.new 1)) = Ok 3) as (Hok & Hg & Hu)
    by (split_and!; by_eval).
  destruct (select_slice_exact StoreSample.model GrantSample.alice GrantSample.doc
              (Revision.new 1) StoreSample.model_wf)
    as [[_ He]|(pr & Hp & _ & [(a & _ & _ & _ & He)|(sl & Hs & Hsl & _)])].
  - rewrite He in Hok. discriminate Hok.
  - rewrite He in Hok. discriminate Hok.
  - exists sl. rewrite Hs in Hg, Hu. cbv [fmap result_fmap] in Hg, Hu.
    injection Hg as Hg. injection Hu as Hu. split_and!; [exact Hs| |exact Hg|exact Hu].
    replace GrantSample.alice_principal with pr; [exact Hsl|].
    assert (ModelState.principal StoreSample.model GrantSample.alice =
            Some GrantSample.alice_principal) as E by reflexivity. congruence.
Defined.

