(* ===== verification/Event.v ===== *)
(** The per-organization event log of [crates/authz-core/src/event]: event
    kinds ([kind.rs]), drafts and envelopes ([envelope.rs]), their canonical
    bytes ([canonical.rs]), the fold of a log prefix into entity state
    ([fold.rs]), the upsert decision ([upsert.rs]) and the in-memory log
    ([log.rs]). *)

From S2P Require Import Prelude RustStr Ident Fgrn Store.
From stdpp Require Import pretty.

(** * JSON values *)

(** [serde_json::Value].  An object is a [BTreeMap], here the list of its
    fields in key order; a float is the bits of a finite double. *)
Module Json.
Inductive number := PosInt (n : N) | NegInt (z : Z) | Float (bits : N).
#[global] Instance number_eq_dec : EqDecision number.
Proof. solve_decision. Defined.

Inductive t :=
| Null
| Bool (b : bool)
| Number (n : number)
| String (s : string)
| Array (items : list t)
| Object (fields : list (string * t)).

(** [Map::insert] and [Map::remove] on the sorted fields. *)
Fixpoint obj_insert (k : string) (v : t) (fields : list (string * t)) : list (string * t) :=
  match fields with
  | [] => [(k, v)]
  | (k', v') :: rest =>
      match String.compare k k' with
      | Lt => (k, v) :: (k', v') :: rest
      | Eq => (k, v) :: rest
      | Gt => (k', v') :: obj_insert k v rest
      end
  end.
Fixpoint obj_remove (k : string) (fields : list (string * t)) : list (string * t) :=
  match fields with
  | [] => []
  | (k', v') :: rest =>
      if bool_decide (k' = k) then rest else (k', v') :: obj_remove k rest
  end.
Fixpoint obj_get (k : string) (fields : list (string * t)) : option t :=
  match fields with
  | [] => None
  | (k', v') :: rest => if bool_decide (k' = k) then Some v' else obj_get k rest
  end.

(** [json!({ .. })]: insertion in the order written. *)
Definition object (fields : list (string * t)) : t :=
  Object (foldl (λ m '(k, v), obj_insert k v m) [] fields).

(** [Value::get] by key: only an object has fields. *)
Definition get (v : t) (k : string) : option t :=
  match v with Object fields => obj_get k fields | _ => None end.
(** [v[k]]: a missing field reads as null. *)
Definition index (v : t) (k : string) : t := default Null (get v k).
Definition as_str (v : t) : option string :=
  match v with String s => Some s | _ => None end.
Definition is_object (v : t) : bool := match v with Object _ => true | _ => false end.

(** [PartialEq]: structural, with [==] on doubles (both zeros are equal). *)
Definition float_eqb (a b : N) : bool :=
  bool_decide (a = b) ||
  (bool_decide (a = 0%N ∨ a = (2 ^ 63)%N) && bool_decide (b = 0%N ∨ b = (2 ^ 63)%N)).
Definition number_eqb (a b : number) : bool :=
  match a, b with
  | PosInt m, PosInt n => bool_decide (m = n)
  | NegInt m, NegInt n => bool_decide (m = n)
  | Float m, Float n => float_eqb m n
  | _, _ => false
  end.
Fixpoint eqb (x y : t) {struct x} : bool :=
  match x, y with
  | Null, Null => true
  | Bool a, Bool b => Bool.eqb a b
  | Number a, Number b => number_eqb a b
  | String a, String b => bool_decide (a = b)
  | Array xs, Array ys =>
      (fix go (xs ys : list t) : bool :=
         match xs, ys with
         | [], [] => true
         | x :: xs, y :: ys => eqb x y && go xs ys
         | _, _ => false
         end) xs ys
  | Object xs, Object ys =>
      (fix go (xs ys : list (string * t)) : bool :=
         match xs, ys with
         | [], [] => true
         | (k, x) :: xs, (l, y) :: ys => bool_decide (k = l) && eqb x y && go xs ys
         | _, _ => false
         end) xs ys
  | _, _ => false
  end.
End Json.

(** * Event kinds *)
Module EventKind.
Inductive t :=
| OrgCreated | OrgUpdated | OrgUnitPut | PrincipalUpserted | PrincipalSetPut
| GrantAdded | GrantRemoved | ResourcePromoted | ResourceTombstoned
| DenyCreated | DenyRemoved | OrgActivated | OrgSuspended | OrgRestored
| OrgKeyGenerated | OrgKeyRevoked | OrgKeyRotated | GroupPut | GroupDeleted.
#[global] Instance t_eq_dec : EqDecision t.
Proof. solve_decision. Defined.

Definition as_str (k : t) : string :=
  match k with
  | OrgCreated => "org.created"
  | OrgUpdated => "org.updated"
  | OrgUnitPut => "org_unit.put"
  | PrincipalUpserted => "principal.upserted"
  | PrincipalSetPut => "principal_set.put"
  | GrantAdded => "grant.added"
  | GrantRemoved => "grant.removed"
  | ResourcePromoted => "resource.promoted"
  | ResourceTombstoned => "resource.tombstoned"
  | DenyCreated => "deny.created"
  | DenyRemoved => "deny.removed"
  | OrgActivated => "org.activated"
  | OrgSuspended => "org.suspended"
  | OrgRestored => "org.restored"
  | OrgKeyGenerated => "org.key_generated"
  | OrgKeyRevoked => "org.key_revoked"
  | OrgKeyRotated => "org.key_rotated"
  | GroupPut => "group.put"
  | GroupDeleted => "group.deleted"
  end.

Definition narrowing (k : t) : bool :=
  match k with
  | GrantRemoved | ResourceTombstoned | DenyCreated | OrgSuspended | OrgKeyRevoked
  | GroupPut | GroupDeleted => true
  | _ => false
  end.

Definition from_str (s : string) : result AuthzError.t t :=
  if bool_decide (s = "org.created") then Ok OrgCreated
  else if bool_decide (s = "org.updated") then Ok OrgUpdated
  else if bool_decide (s = "org_unit.put") then Ok OrgUnitPut
  else if bool_decide (s = "principal.upserted") then Ok PrincipalUpserted
  else if bool_decide (s = "principal_set.put") then Ok PrincipalSetPut
  else if bool_decide (s = "grant.added") then Ok GrantAdded
  else if bool_decide (s = "grant.removed") then Ok GrantRemoved
  else if bool_decide (s = "resource.promoted") then Ok ResourcePromoted
  else if bool_decide (s = "resource.tombstoned") then Ok ResourceTombstoned
  else if bool_decide (s = "deny.created") then Ok DenyCreated
  else if bool_decide (s = "deny.removed") then Ok DenyRemoved
  else if bool_decide (s = "org.activated") then Ok OrgActivated
  else if bool_decide (s = "org.suspended") then Ok OrgSuspended
  else if bool_decide (s = "org.restored") then Ok OrgRestored
  else if bool_decide (s = "org.key_generated") then Ok OrgKeyGenerated
  else if bool_decide (s = "org.key_revoked") then Ok OrgKeyRevoked
  else if bool_decide (s = "org.key_rotated") then Ok OrgKeyRotated
  else if bool_decide (s = "group.put") then Ok GroupPut
  else if bool_decide (s = "group.deleted") then Ok GroupDeleted
  else Err (AuthzError.UnknownEventKind s).
End EventKind.

(** * Drafts and envelopes *)
Module Envelope.
Record EventId := mk_id { id_str : string }.
Definition event_id_try_new (value : string) : result AuthzError.t EventId :=
  if bool_decide (value = "") then Err (AuthzError.InvalidEventId value) else Ok (mk_id value).

Inductive Actor := Principal (f : Fgrn.t) | Machine (key_id : string) | System.

Definition SCHEMA_VERSION : N := 1.

Record EventDraftParams := {
  p_event_id : EventId;
  p_seq : Revision.t;
  p_kind : EventKind.t;
  p_occurred_at : string;
  p_actor : Actor;
  p_payload : Json.t;
}.
Record EventDraft := {
  d_event_id : EventId;
  d_seq : Revision.t;
  d_kind : EventKind.t;
  d_occurred_at : string;
  d_actor : Actor;
  d_narrowing : bool;
  d_payload : Json.t;
}.
Definition draft_new (p : EventDraftParams) : EventDraft := {|
  d_event_id := p_event_id p;
  d_seq := p_seq p;
  d_kind := p_kind p;
  d_occurred_at := p_occurred_at p;
  d_actor := p_actor p;
  d_narrowing := EventKind.narrowing (p_kind p);
  d_payload := p_payload p;
|}.

Record t := mk {
  event_id : EventId;
  seq : Revision.t;
  kind : EventKind.t;
  occurred_at : string;
  actor : Actor;
  narrowing : bool;
  schema_version : N;
  payload : Json.t;
  key_id : string;
  signature : string;
}.
Definition from_signed (draft : EventDraft) (key_id signature_b64 : string) : t :=
  mk (d_event_id draft) (d_seq draft) (d_kind draft) (d_occurred_at draft) (d_actor draft)
     (d_narrowing draft) SCHEMA_VERSION (d_payload draft) key_id signature_b64.
End Envelope.

(** * Canonical bytes *)
Module Canonical.
Record CanonicalFields := {
  c_seq : N;
  c_event_id : string;
  c_kind : string;
  c_occurred_at : string;
  c_narrowing : bool;
  c_schema_version : N;
  c_payload : Json.t;
}.
Definition from_draft (d : Envelope.EventDraft) : CanonicalFields := {|
  c_seq := Revision.value (Envelope.d_seq d);
  c_event_id := Envelope.id_str (Envelope.d_event_id d);
  c_kind := EventKind.as_str (Envelope.d_kind d);
  c_occurred_at := Envelope.d_occurred_at d;
  c_narrowing := Envelope.d_narrowing d;
  c_schema_version := Envelope.SCHEMA_VERSION;
  c_payload := Envelope.d_payload d;
|}.
Definition from_envelope (e : Envelope.t) : CanonicalFields := {|
  c_seq := Revision.value (Envelope.seq e);
  c_event_id := Envelope.id_str (Envelope.event_id e);
  c_kind := EventKind.as_str (Envelope.kind e);
  c_occurred_at := Envelope.occurred_at e;
  c_narrowing := Envelope.narrowing e;
  c_schema_version := Envelope.schema_version e;
  c_payload := Envelope.payload e;
|}.

Definition bool_str (b : bool) : string := if b then "true" else "false".
Definition nl : ascii := "010"%char.
Definition line (label value : string) : string := label +:+ value +:+ String nl "".

Section bytes.
(** [serde_json::to_vec] and the hex SHA-256 digest. *)
Context (to_vec : Json.t → string) (sha256_hex : string → string).

Definition canonical_bytes (f : CanonicalFields) (org_id : string) : string :=
  line "forgeguard-event-v1" "" +:+
  line "org:" org_id +:+
  line "seq:" (pretty (c_seq f)) +:+
  line "event_id:" (c_event_id f) +:+
  line "kind:" (c_kind f) +:+
  line "occurred_at:" (c_occurred_at f) +:+
  line "narrowing:" (bool_str (c_narrowing f)) +:+
  line "schema_version:" (pretty (c_schema_version f)) +:+
  line "payload_sha256:" (sha256_hex (to_vec (c_payload f))).

Definition canonical_event_bytes (d : Envelope.EventDraft) (org_id : string) : string :=
  canonical_bytes (from_draft d) org_id.
Definition canonical_envelope_bytes (e : Envelope.t) (org_id : string) : string :=
  canonical_bytes (from_envelope e) org_id.
End bytes.
End Canonical.

(** * The upsert decision *)
Module Upsert.
Inductive UpsertDecision := NoOp | Changed (payload : Json.t).
Definition decide_upsert (existing : option Json.t) (incoming : Json.t) : UpsertDecision :=
  match existing with
  | Some current => if Json.eqb current incoming then NoOp else Changed incoming
  | None => Changed incoming
  end.
End Upsert.

(** * The fold *)
Module Fold.
Definition principal_event_payload (native_id : NativeId.t) (principal : Json.t) : Json.t :=
  Json.object [("native_id", Json.String (NativeId.as_str native_id)); ("principal", principal)].
Definition key_event_payload (key_id : string) (keys : Json.t) : Json.t :=
  Json.object [("key_id", Json.String key_id); ("keys", keys)].
Definition org_event_payload (organization : Json.t) (config : option Json.t) : Json.t :=
  Json.object [("organization", organization); ("config", default Json.Null config)].
Definition group_put_payload (name : string) (group : Json.t) : Json.t :=
  Json.object [("name", Json.String name); ("group", group)].
Definition group_deleted_payload (name : string) : Json.t :=
  Json.object [("name", Json.String name)].

(** The payload without [organization.updated_at]. *)
Definition org_semantic_view (payload : Json.t) : Json.t :=
  match payload with
  | Json.Object fields =>
      match Json.obj_get "organization" fields with
      | Some (Json.Object org) =>
          Json.Object (Json.obj_insert "organization"
                         (Json.Object (Json.obj_remove "updated_at" org)) fields)
      | _ => payload
      end
  | _ => payload
  end.

Record FoldedState := mk {
  revision : Revision.t;
  principals : gmap string Json.t;
  promotions : gmap (string * string) string;
  org : option Json.t;
  org_keys : option Json.t;
  groups : gmap string Json.t;
}.
Definition empty : FoldedState := mk (Revision.new 0) ∅ ∅ None None ∅.

Definition set_principals (s : FoldedState) x : FoldedState :=
  mk (revision s) x (promotions s) (org s) (org_keys s) (groups s).
Definition set_promotions (s : FoldedState) x : FoldedState :=
  mk (revision s) (principals s) x (org s) (org_keys s) (groups s).
Definition set_org (s : FoldedState) x : FoldedState :=
  mk (revision s) (principals s) (promotions s) x (org_keys s) (groups s).
Definition set_org_keys (s : FoldedState) x : FoldedState :=
  mk (revision s) (principals s) (promotions s) (org s) x (groups s).
Definition set_groups (s : FoldedState) x : FoldedState :=
  mk (revision s) (principals s) (promotions s) (org s) (org_keys s) x.

(** One fold step. *)
Definition apply_event (event : Envelope.t) (state : FoldedState)
    : result AuthzError.t FoldedState :=
  let seq := Revision.value (Envelope.seq event) in
  let kind := EventKind.as_str (Envelope.kind event) in
  let payload := Envelope.payload event in
  let unfoldable reason := AuthzError.UnfoldableEvent seq reason in
  let payload_str field :=
    ok_or (Json.as_str (Json.index payload field))
      (unfoldable (kind +:+ " payload missing string field " +:+ field)) in
  match Envelope.kind event with
  | EventKind.PrincipalUpserted =>
      native_id ← map_err
        (λ _, unfoldable "principal.upserted payload missing native_id (pre-V5 event)")
        (payload_str "native_id");
      doc ← ok_or (Json.get payload "principal")
        (unfoldable "principal.upserted payload missing principal doc (pre-V5 event)");
      Ok (set_principals state (<[native_id := doc]> (principals state)))
  | EventKind.ResourcePromoted =>
      fgrn ← payload_str "fgrn";
      resource_type ← payload_str "resource_type";
      native_id ← payload_str "native_id";
      Ok (set_promotions state (<[(resource_type, native_id) := fgrn]> (promotions state)))
  | EventKind.ResourceTombstoned =>
      resource_type ← payload_str "resource_type";
      native_id ← payload_str "native_id";
      Ok (set_promotions state (delete (resource_type, native_id) (promotions state)))
  | EventKind.OrgCreated | EventKind.OrgUpdated | EventKind.OrgActivated
  | EventKind.OrgSuspended | EventKind.OrgRestored =>
      if negb (Json.is_object (Json.index payload "organization"))
      then Err (unfoldable (kind +:+ " payload missing object field organization"))
      else Ok (set_org state (Some payload))
  | EventKind.OrgKeyGenerated | EventKind.OrgKeyRevoked | EventKind.OrgKeyRotated =>
      keys ← ok_or (Json.get payload "keys")
        (unfoldable (kind +:+ " payload missing field keys"));
      Ok (set_org_keys state (Some keys))
  | EventKind.GroupPut =>
      name ← payload_str "name";
      group ← ok_or (Json.get payload "group")
        (unfoldable (kind +:+ " payload missing field group"));
      Ok (set_groups state (<[name := group]> (groups state)))
  | EventKind.GroupDeleted =>
      name ← payload_str "name";
      Ok (set_groups state (delete name (groups state)))
  | EventKind.OrgUnitPut | EventKind.PrincipalSetPut | EventKind.GrantAdded
  | EventKind.GrantRemoved | EventKind.DenyCreated | EventKind.DenyRemoved =>
      Err (unfoldable ("no fold rule for kind " +:+ kind))
  end.

(** The loop over the enumerated events, with its early [break]. *)
Fixpoint fold_loop (events : list Envelope.t) (index requested : N) (state : FoldedState)
    : result AuthzError.t FoldedState :=
  match events with
  | [] => Ok state
  | event :: rest =>
      let seq := Revision.value (Envelope.seq event) in
      let expected := (index + 1)%N in
      if negb (bool_decide (seq = expected))
      then Err (AuthzError.UnfoldableEvent seq
                  ("event log gap: expected seq " +:+ pretty expected))
      else if bool_decide (requested < seq)%N then Ok state
      else
        state ← apply_event event state;
        fold_loop rest (index + 1) requested state
  end.

Definition fold_events (events : list Envelope.t) (at_rev : Revision.t)
    : result AuthzError.t FoldedState :=
  let latest := default 0%N ((λ e, Revision.value (Envelope.seq e)) <$> last events) in
  let requested := Revision.value at_rev in
  if bool_decide (requested = 0%N) || bool_decide (latest < requested)%N
  then Err (AuthzError.UnknownRevision requested latest)
  else fold_loop events 0 requested (mk at_rev ∅ ∅ None None ∅).
End Fold.

(** * The in-memory log *)
Module InMemoryEventLog.
(** The locked vector; appends under a poisoned lock are dropped. *)
Record t := mk { events : list Envelope.t; poisoned : bool }.
Definition new : t := mk [] false.
Definition locked (l : t) : result AuthzError.t (list Envelope.t) :=
  if poisoned l
  then Err (AuthzError.EvaluationFailed
              ("in-memory event log lock poisoned: " +:+
               "poisoned lock: another task failed inside"))
  else Ok (events l).
Definition push (l : t) (e : Envelope.t) : t :=
  match locked l with Ok es => mk (es ++ [e]) (poisoned l) | _ => l end.
Definition events_after (l : t) (after : Revision.t) (limit : nat)
    : result AuthzError.t (list Envelope.t) :=
  (λ es, take limit
           (filter (λ e, Revision.value after < Revision.value (Envelope.seq e))%N es))
  <$> locked l.
Definition latest_revision (l : t) : result AuthzError.t Revision.t :=
  (λ es, default (Revision.new 0) (Envelope.seq <$> last es)) <$> locked l.
End InMemoryEventLog.

(** * Facts about events *)
Module EventKindFacts.
Import EventKind.
Lemma event_kind_from_str_as_str k : from_str (as_str k) = Ok k.
Proof. by destruct k. Qed.
Lemma event_kind_from_str_Ok s k : from_str s = Ok k → s = as_str k.
Proof.
  unfold from_str.
  do 19 (case_bool_decide as Hs; [intros [= <-]; exact Hs|clear Hs]). discriminate.
Qed.
Lemma event_kind_as_str_inj k k' : as_str k = as_str k' → k = k'.
Proof.
  intros H. pose proof (event_kind_from_str_as_str k) as Hk. rewrite H, event_kind_from_str_as_str in Hk.
  by injection Hk.
Qed.
End EventKindFacts.

(** The gap-free logs: the event at index [i] has sequence number [i + 1]. *)
Definition gap_free (l : list Envelope.t) : Prop :=
  ∀ i e, l !! i = Some e → Revision.value (Envelope.seq e) = N.of_nat (S i).

(** Folding every event of a list. *)
Fixpoint apply_all (l : list Envelope.t) (s : Fold.FoldedState)
    : result AuthzError.t Fold.FoldedState :=
  match l with
  | [] => Ok s
  | e :: l => s ← Fold.apply_event e s; apply_all l s
  end.

(** What an event writes to one entry of the folded state: nothing, a
    deletion, or a value. *)
Section writes.
Import Fold.
Definition str_field (e : Envelope.t) (k : string) : option string :=
  Json.as_str (Json.index (Envelope.payload e) k).
Definition principal_write (id : string) (e : Envelope.t) : option (option Json.t) :=
  match Envelope.kind e with
  | EventKind.PrincipalUpserted =>
      if bool_decide (str_field e "native_id" = Some id)
      then Some (Json.get (Envelope.payload e) "principal") else None
  | _ => None
  end.
Definition promotion_write (key : string * string) (e : Envelope.t) : option (option string) :=
  let here := bool_decide (str_field e "resource_type" = Some key.1 ∧
                           str_field e "native_id" = Some key.2) in
  match Envelope.kind e with
  | EventKind.ResourcePromoted => if here then Some (str_field e "fgrn") else None
  | EventKind.ResourceTombstoned => if here then Some None else None
  | _ => None
  end.
Definition group_write (name : string) (e : Envelope.t) : option (option Json.t) :=
  let here := bool_decide (str_field e "name" = Some name) in
  match Envelope.kind e with
  | EventKind.GroupPut =>
      if here then Some (Json.get (Envelope.payload e) "group") else None
  | EventKind.GroupDeleted => if here then Some None else None
  | _ => None
  end.
Definition org_write (e : Envelope.t) : option (option Json.t) :=
  match Envelope.kind e with
  | EventKind.OrgCreated | EventKind.OrgUpdated | EventKind.OrgActivated
  | EventKind.OrgSuspended | EventKind.OrgRestored => Some (Some (Envelope.payload e))
  | _ => None
  end.
Definition keys_write (e : Envelope.t) : option (option Json.t) :=
  match Envelope.kind e with
  | EventKind.OrgKeyGenerated | EventKind.OrgKeyRevoked | EventKind.OrgKeyRotated =>
      Some (Json.get (Envelope.payload e) "keys")
  | _ => None
  end.
(** The entry after the events of a log: the last write wins. *)
Definition last_write {V} (w : Envelope.t → option (option V)) (l : list Envelope.t) : option V :=
  default None (last (omap w l)).
End writes.

Module FoldFacts.
Import Fold.

Lemma apply_event_not_Stuck e s w : apply_event e s ≠ Stuck w.
Proof.
  unfold apply_event, ok_or.
  destruct (Envelope.kind e); repeat (case_match; simplify_eq/=); done.
Qed.
Lemma apply_event_revision e s s' : apply_event e s = Ok s' → revision s' = revision s.
Proof. unfold apply_event. destruct (Envelope.kind e); intros; by inv_ok. Qed.

(** One step, entry by entry. *)
Lemma apply_event_principals e s s' id :
  apply_event e s = Ok s' → principals s' !! id = default (principals s !! id) (principal_write id e).
Proof.
  unfold apply_event, principal_write, str_field. destruct (Envelope.kind e); intros; inv_ok; try done.
  case_bool_decide as Hid; simpl; simplify_eq.
  - by rewrite lookup_insert_eq.
  - rewrite lookup_insert_ne; [done|congruence].
Qed.
Lemma apply_event_promotions e s s' k :
  apply_event e s = Ok s' → promotions s' !! k = default (promotions s !! k) (promotion_write k e).
Proof.
  unfold apply_event, promotion_write, str_field. destruct k as [rt n].
  destruct (Envelope.kind e); intros; inv_ok; try done; case_bool_decide as Hid; simpl in *.
  - destruct Hid as [? ?]. simplify_eq. by rewrite lookup_insert_eq.
  - rewrite lookup_insert_ne; [done|naive_solver].
  - destruct Hid as [? ?]. simplify_eq. by rewrite lookup_delete_eq.
  - rewrite lookup_delete_ne; [done|naive_solver].
Qed.
Lemma apply_event_groups e s s' n :
  apply_event e s = Ok s' → groups s' !! n = default (groups s !! n) (group_write n e).
Proof.
  unfold apply_event, group_write, str_field.
  destruct (Envelope.kind e); intros; inv_ok; try done; case_bool_decide as Hid; simpl in *;
    simplify_eq.
  - by rewrite lookup_insert_eq.
  - rewrite lookup_insert_ne; [done|congruence].
  - by rewrite lookup_delete_eq.
  - rewrite lookup_delete_ne; [done|congruence].
Qed.
Lemma apply_event_org e s s' : apply_event e s = Ok s' → org s' = default (org s) (org_write e).
Proof. unfold apply_event, org_write. destruct (Envelope.kind e); intros; by inv_ok. Qed.
Lemma apply_event_keys e s s' :
  apply_event e s = Ok s' → org_keys s' = default (org_keys s) (keys_write e).
Proof. unfold apply_event, keys_write. destruct (Envelope.kind e); intros; by inv_ok. Qed.

(** An entry that every step updates by its write ends at the last write. *)
Lemma apply_all_last {V} (w : Envelope.t → option (option V)) (entry : FoldedState → option V) l s s' :
  (∀ e s s', apply_event e s = Ok s' → entry s' = default (entry s) (w e)) →
  apply_all l s = Ok s' → entry s' = default (entry s) (last (omap w l)).
Proof.
  intros Hstep. revert s. induction l as [|e l IH]; intros s; simpl; [by intros [= <-]|].
  intros (s1 & He & Hl)%bind_Ok. rewrite (IH s1 Hl). clear IH. apply Hstep in He. rewrite He.
  destruct (w e) as [v|] eqn:Hw; simpl; [|done]. rewrite last_cons.
  change (list_omap _ _ w l) with (omap w l). by destruct (last (omap w l)).
Qed.

Lemma apply_all_revision l s s' : apply_all l s = Ok s' → revision s' = revision s.
Proof.
  revert s. induction l as [|e l IH]; intros s; simpl; [by intros [= <-]|].
  intros (s1 & He & Hl)%bind_Ok. rewrite (IH s1 Hl). by eapply apply_event_revision.
Qed.
Lemma apply_all_app l l' s : apply_all (l ++ l') s = (s' ← apply_all l s; apply_all l' s').
Proof.
  revert s. induction l as [|e l IH]; intros s; simpl; [done|].
  destruct (apply_event e s); simpl; [apply IH|done..].
Qed.

(** The loop applies the requested prefix of a log without gaps. *)
Lemma fold_loop_prefix l index req s :
  (∀ i e, l !! i = Some e → Revision.value (Envelope.seq e) = index + N.of_nat (S i))%N →
  (index ≤ req)%N →
  fold_loop l index req s = apply_all (take (N.to_nat (req - index)) l) s.
Proof.
  revert index s. induction l as [|e l IH]; intros index s Hgap Hle; simpl.
  { by rewrite take_nil. }
  rewrite (Hgap 0 e) by done. rewrite bool_decide_eq_true_2 by lia. simpl.
  case_bool_decide as Hreq.
  - replace (N.to_nat (req - index)) with 0 by lia. done.
  - replace (N.to_nat (req - index)) with (S (N.to_nat (req - (index + 1)))) by lia. simpl.
    destruct (apply_event e s) as [s1| |]; simpl; [|done..]. apply IH; [|lia].
    intros i e' He'. rewrite (Hgap (S i) e') by done. lia.
Qed.

Lemma gap_free_latest l :
  gap_free l →
  default 0%N ((λ e, Revision.value (Envelope.seq e)) <$> last l) = N.of_nat (length l).
Proof.
  intros Hg. destruct (last l) as [e|] eqn:Hl; simpl.
  - rewrite last_lookup in Hl. rewrite (Hg _ _ Hl).
    apply lookup_lt_Some in Hl. lia.
  - by apply last_None in Hl as ->.
Qed.

Definition start (r : Revision.t) : FoldedState := mk r ∅ ∅ None None ∅.

Lemma fold_events_prefix l r :
  gap_free l → (0 < Revision.value r ≤ N.of_nat (length l))%N →
  fold_events l r = apply_all (take (N.to_nat (Revision.value r)) l) (start r).
Proof.
  intros Hg Hr. unfold fold_events. rewrite gap_free_latest by done.
  rewrite !bool_decide_eq_false_2 by lia. simpl.
  rewrite fold_loop_prefix; [by rewrite N.sub_0_r| |lia]. intros i e He. by rewrite (Hg i e He).
Qed.
Lemma fold_events_unknown l r :
  gap_free l → (Revision.value r = 0 ∨ N.of_nat (length l) < Revision.value r)%N →
  fold_events l r = Err (AuthzError.UnknownRevision (Revision.value r) (N.of_nat (length l))).
Proof.
  intros Hg Hr. unfold fold_events. rewrite gap_free_latest by done. destruct Hr.
  - by rewrite bool_decide_eq_true_2.
  - rewrite (bool_decide_eq_true_2 (_ < _)%N) by done. by rewrite orb_true_r.
Qed.

(** A fold that succeeds applied its prefix, whatever follows it. *)
Lemma fold_loop_Ok l index req s s' :
  (index ≤ req)%N → fold_loop l index req s = Ok s' →
  apply_all (take (N.to_nat (req - index)) l) s = Ok s'.
Proof.
  revert index s. induction l as [|e l IH]; intros index s Hle; simpl.
  { by rewrite take_nil. }
  case_bool_decide as Hseq; simpl; [|done]. case_bool_decide as Hreq.
  - intros [= <-]. by replace (N.to_nat (req - index)) with 0 by lia.
  - intros (s1 & He & Hl)%bind_Ok.
    replace (N.to_nat (req - index)) with (S (N.to_nat (req - (index + 1)))) by lia. simpl.
    rewrite He. cbn [mbind result_bind]. apply IH; [lia|done].
Qed.
Lemma fold_events_Ok l r s :
  fold_events l r = Ok s → apply_all (take (N.to_nat (Revision.value r)) l) (start r) = Ok s.
Proof.
  unfold fold_events. case_match; [done|]. intros H'.
  apply fold_loop_Ok in H'; [|lia]. by rewrite N.sub_0_r in H'.
Qed.
End FoldFacts.

(** * Facts about JSON values *)
Module JsonFacts.
Import Json.

(** Induction through arrays and objects. *)
Section ind.
Context (P : t → Prop).
Context (Hnull : P Null) (Hbool : ∀ b, P (Bool b)) (Hnum : ∀ n, P (Number n)).
Context (Hstr : ∀ s, P (String s)).
Context (Harr : ∀ l, Forall P l → P (Array l)).
Context (Hobj : ∀ l, Forall (λ kv, P kv.2) l → P (Object l)).
Fixpoint json_ind (v : t) : P v :=
  match v with
  | Null => Hnull
  | Bool b => Hbool b
  | Number n => Hnum n
  | String s => Hstr s
  | Array l => Harr l ((fix go l : Forall P l :=
      match l with
      | [] => List.Forall_nil P
      | x :: l => @List.Forall_cons _ P x l (json_ind x) (go l)
      end) l)
  | Object l => Hobj l ((fix go l : Forall (λ kv : string * t, P kv.2) l :=
      match l with
      | [] => List.Forall_nil _
      | x :: l => @List.Forall_cons _ (λ kv : string * t, P kv.2) x l (json_ind x.2) (go l)
      end) l)
  end.
End ind.

Lemma number_eqb_refl n : number_eqb n n = true.
Proof.
  destruct n; simpl; unfold float_eqb; by rewrite ?bool_decide_eq_true_2 by done.
Qed.
Lemma eqb_refl v : eqb v v = true.
Proof.
  induction v as [|b|n|s|l IH|l IH] using json_ind; simpl.
  - done.
  - by destruct b.
  - apply number_eqb_refl.
  - by rewrite bool_decide_eq_true_2.
  - induction IH as [|x l Hx _ IHl]; [done|]. by rewrite Hx, IHl.
  - induction IH as [|[k x] l Hx _ IHl]; [done|]. simpl in Hx.
    by rewrite bool_decide_eq_true_2, Hx, IHl.
Qed.

(** No float in the value. *)
Fixpoint float_free (v : t) : bool :=
  match v with
  | Number (Float _) => false
  | Array l => (fix go l := match l with [] => true | x :: l => float_free x && go l end) l
  | Object l =>
      (fix go l := match l with [] => true | (_, x) :: l => float_free x && go l end) l
  | _ => true
  end.
Lemma eqb_eq v w : float_free v = true → eqb v w = true → v = w.
Proof.
  revert w. induction v as [|b|n|s|l IH|l IH] using json_ind; intros w Hf; destruct w; simpl; try done.
  - destruct b, b0; done.
  - destruct n as [n|z|bits], n0; simpl; try done; intros ?; bool_prop; congruence.
  - intros. bool_prop. by f_equal.
  - intros He. f_equal. revert items He Hf. induction IH as [|x l Hx _ IHl];
      intros [|y ys]; simpl; try done. intros He Hf. bool_prop. f_equal; auto.
  - intros He. f_equal. revert fields He Hf. induction IH as [|[k x] l Hx _ IHl];
      intros [|[k' y] ys]; simpl; try done. intros He Hf. bool_prop. simpl in Hx.
    f_equal; [f_equal|]; auto.
Qed.
End JsonFacts.

(** * Theorems *)

(** The wire names of event kinds round-trip: every kind parses back from
    its name, and the parser accepts nothing but the names, rejecting any
    other string by naming it. *)
Theorem event_kind_roundtrip s :
  (∀ k, EventKind.from_str (EventKind.as_str k) = Ok k) ∧
  ((∃ k, EventKind.from_str s = Ok k ∧ s = EventKind.as_str k) ∨
   (EventKind.from_str s = Err (AuthzError.UnknownEventKind s) ∧
    ∀ k, s ≠ EventKind.as_str k)).
Proof.
  split; [apply EventKindFacts.event_kind_from_str_as_str|].
  destruct (EventKind.from_str s) as [k|e|w] eqn:Hs.
  - left. exists k. split; [done|]. by apply EventKindFacts.event_kind_from_str_Ok.
  - right. split.
    + unfold EventKind.from_str in Hs. repeat case_bool_decide; congruence.
    + intros k ->. by rewrite EventKindFacts.event_kind_from_str_as_str in Hs.
  - unfold EventKind.from_str in Hs. repeat case_bool_decide; congruence.
Qed.

(** A log of three events: a principal is written twice and a group once. *)
Module EventSample.
Definition event (n : N) (kind : EventKind.t) (payload : Json.t) : Envelope.t :=
  Envelope.from_signed
    (Envelope.draft_new {|
       Envelope.p_event_id := Envelope.mk_id "01J"; Envelope.p_seq := Revision.new n;
       Envelope.p_kind := kind; Envelope.p_occurred_at := "2025-01-01T00:00:00+00:00";
       Envelope.p_actor := Envelope.System; Envelope.p_payload := payload |}) "key" "sig".
Definition alice_v1 : Json.t := Json.String "v1".
Definition alice_v2 : Json.t := Json.String "v2".
Definition log : list Envelope.t :=
  [event 1 EventKind.PrincipalUpserted
     (Fold.principal_event_payload (NativeId.mk "alice") alice_v1);
   event 2 EventKind.GroupPut (Fold.group_put_payload "admins" (Json.Bool true))].
Definition later : list Envelope.t :=
  [event 3 EventKind.PrincipalUpserted
     (Fold.principal_event_payload (NativeId.mk "alice") alice_v2)].

Lemma log_gap_free : gap_free (log ++ later).
Proof. intros [|[|[|i]]] e He; simpl in He; simplify_eq; reflexivity. Qed.
End EventSample.

(** Folding is last-writer-wins.  When a fold at revision [r] succeeds, the
    state is pinned to [r] and each of its entries is what the last event of
    the first [r] that touches it wrote: principals by native id, promotions
    by type and id (a tombstone removes them), groups by name (a deletion
    removes them), the organization record and its signing keys. *)
Theorem fold_last_writer l r s :
  Fold.fold_events l r = Ok s →
  let prefix := take (N.to_nat (Revision.value r)) l in
  Fold.revision s = r ∧
  (∀ id, Fold.principals s !! id = last_write (principal_write id) prefix) ∧
  (∀ key, Fold.promotions s !! key = last_write (promotion_write key) prefix) ∧
  (∀ name, Fold.groups s !! name = last_write (group_write name) prefix) ∧
  Fold.org s = last_write org_write prefix ∧
  Fold.org_keys s = last_write keys_write prefix.
Proof.
  intros H%FoldFacts.fold_events_Ok. simpl. unfold last_write. split_and!.
  - by rewrite (FoldFacts.apply_all_revision _ _ _ H).
  - intros id. by rewrite (FoldFacts.apply_all_last (principal_write id)
      (λ s, Fold.principals s !! id) _ _ _ (λ e s s', FoldFacts.apply_event_principals e s s' id) H).
  - intros k. by rewrite (FoldFacts.apply_all_last (promotion_write k)
      (λ s, Fold.promotions s !! k) _ _ _ (λ e s s', FoldFacts.apply_event_promotions e s s' k) H).
  - intros n. by rewrite (FoldFacts.apply_all_last (group_write n)
      (λ s, Fold.groups s !! n) _ _ _ (λ e s s', FoldFacts.apply_event_groups e s s' n) H).
  - by rewrite (FoldFacts.apply_all_last org_write Fold.org _ _ _ FoldFacts.apply_event_org H).
  - by rewrite (FoldFacts.apply_all_last keys_write Fold.org_keys _ _ _
      FoldFacts.apply_event_keys H).
Qed.

(** Witness: at revision 3 alice has her second payload and the group is there. *)
Lemma fold_last_writer_witness :
  ∃ s, Fold.fold_events (EventSample.log ++ EventSample.later) (Revision.new 3) = Ok s ∧
    Fold.principals s !! "alice" = Some EventSample.alice_v2 ∧
    Fold.groups s !! "admins" = Some (Json.Bool true) ∧ Fold.org s = None.
Proof.
  assert (is_ok (Fold.fold_events (EventSample.log ++ EventSample.later) (Revision.new 3)) = true)
    as Hok by by_eval.
  destruct (Fold.fold_events (EventSample.log ++ EventSample.later) (Revision.new 3))
    as [s| |] eqn:E; [|discriminate Hok..].
  exists s. split; [reflexivity|].
  destruct (fold_last_writer _ _ _ E) as (_ & Hp & _ & Hg & Ho & _).
  rewrite Hp, Hg, Ho. split_and!; reflexivity.
Defined.

(** History is stable: for a log without gaps, a revision it has folds the
    same however many events are appended later; a revision outside the log
    is [UnknownRevision]; and folding never gets stuck. *)
Theorem fold_time_travel l l' r :
  gap_free (l ++ l') →
  ((0 < Revision.value r ≤ N.of_nat (length l))%N →
     Fold.fold_events (l ++ l') r = Fold.fold_events l r ∧
     ∀ w, Fold.fold_events l r ≠ Stuck w) ∧
  ((Revision.value r = 0 ∨ N.of_nat (length (l ++ l')) < Revision.value r)%N →
     Fold.fold_events (l ++ l') r =
     Err (AuthzError.UnknownRevision (Revision.value r) (N.of_nat (length (l ++ l'))))).
Proof.
  intros Hg. split; [|by apply FoldFacts.fold_events_unknown]. intros Hr.
  assert (gap_free l) as Hgl by (intros i e He; apply Hg; by apply lookup_app_l_Some).
  rewrite !FoldFacts.fold_events_prefix by (done || rewrite ?length_app; lia).
  rewrite take_app_le by lia. split; [done|]. intros w.
  generalize (FoldFacts.start r). generalize (take (N.to_nat (Revision.value r)) l).
  intros k. induction k as [|e k IH]; intros s; simpl; [done|].
  destruct (Fold.apply_event e s) eqn:He; simpl; [apply IH|done|].
  by apply FoldFacts.apply_event_not_Stuck in He.
Qed.

(** Witness: revision 2 folds the same before and after the third event. *)
Lemma fold_time_travel_witness :
  Fold.fold_events (EventSample.log ++ EventSample.later) (Revision.new 2) =
  Fold.fold_events EventSample.log (Revision.new 2).
Proof.
  apply (proj1 (fold_time_travel EventSample.log EventSample.later (Revision.new 2)
                  EventSample.log_gap_free)).
  split; [reflexivity|discriminate].
Defined.

(** Decimal digits contain no newline. *)
Lemma pretty_N_no_nl (n : N) : contains_char Canonical.nl (pretty n) = false.
Proof.
  unfold pretty, pretty_N. case_decide; [done|].
  assert (∀ s, contains_char Canonical.nl s = false →
    contains_char Canonical.nl (pretty_N_go n s) = false) as Hgo; [|by apply Hgo].
  clear. induction (N.lt_wf_0 n) as [n _ IH]. intros s Hs.
  destruct (decide (0 < n)%N) as [Hn|Hn].
  - rewrite pretty_N_go_step by done. apply IH; [by apply N.div_lt|].
    rewrite contains_char_cons, Hs, orb_false_r. unfold pretty_N_char. by repeat case_match.
  - assert (n = 0%N) as -> by lia. by rewrite pretty_N_go_0.
Qed.
Lemma kind_no_nl k : contains_char Canonical.nl (EventKind.as_str k) = false.
Proof. by destruct k. Qed.
Lemma bool_no_nl b : contains_char Canonical.nl (Canonical.bool_str b) = false.
Proof. by destruct b. Qed.

Lemma snoc_inj c x y : x +:+ String c "" = y +:+ String c "" → x = y.
Proof.
  revert y. induction x as [|a x IH]; intros [|b y]; simpl; [done| | |].
  - intros [= <- Hy]. by destruct y.
  - intros [= <- Hx]. by destruct x.
  - intros [= <- Hxy]. f_equal. by apply IH.
Qed.

Lemma line_inj label x y x' y' :
  contains_char Canonical.nl x = false → contains_char Canonical.nl x' = false →
  Canonical.line label x +:+ y = Canonical.line label x' +:+ y' → x = x' ∧ y = y'.
Proof.
  intros Hx Hx'. unfold Canonical.line. rewrite !str_app_assoc.
  intros H%(inj (String.append label)). by apply sep_inj in H.
Qed.

(** The fields the shell provides are single lines. *)
Definition single_line (e : Envelope.t) (org_id : string) : Prop :=
  contains_char Canonical.nl org_id = false ∧
  contains_char Canonical.nl (Envelope.id_str (Envelope.event_id e)) = false ∧
  contains_char Canonical.nl (Envelope.occurred_at e) = false.

(** What an event signature covers.  A sealed envelope has the canonical
    bytes its draft was signed over, whatever key id and signature it is
    sealed with, and its narrowing flag and schema version are determined by
    its kind and the crate; and the bytes determine the organization, the
    sequence number, event id, kind, timestamp, narrowing flag, schema
    version and payload digest: two envelopes with single-line fields that
    have the same bytes agree on all of them. *)
Theorem canonical_bytes_cover to_vec sha256_hex p key_id sig e e' org org' :
  single_line e org → single_line e' org' →
  Canonical.canonical_envelope_bytes to_vec sha256_hex e org =
    Canonical.canonical_envelope_bytes to_vec sha256_hex e' org' →
  Canonical.canonical_envelope_bytes to_vec sha256_hex
    (Envelope.from_signed (Envelope.draft_new p) key_id sig) org =
    Canonical.canonical_event_bytes to_vec sha256_hex (Envelope.draft_new p) org ∧
  org = org' ∧ Envelope.seq e = Envelope.seq e' ∧ Envelope.event_id e = Envelope.event_id e' ∧
  Envelope.kind e = Envelope.kind e' ∧ Envelope.occurred_at e = Envelope.occurred_at e' ∧
  Envelope.narrowing e = Envelope.narrowing e' ∧
  Envelope.schema_version e = Envelope.schema_version e' ∧
  sha256_hex (to_vec (Envelope.payload e)) = sha256_hex (to_vec (Envelope.payload e')).
Proof.
  intros (Ho & Hi & Ht) (Ho' & Hi' & Ht') H. split; [done|].
  unfold Canonical.canonical_envelope_bytes, Canonical.canonical_bytes in H.
  cbn [Canonical.from_envelope Canonical.c_seq Canonical.c_event_id Canonical.c_kind
    Canonical.c_occurred_at Canonical.c_narrowing Canonical.c_schema_version
    Canonical.c_payload] in H.
  apply (inj (String.append (Canonical.line "forgeguard-event-v1" ""))) in H.
  apply line_inj in H as [-> H]; [|done..].
  apply line_inj in H as [Hseq H]; [|apply pretty_N_no_nl..].
  apply line_inj in H as [Hid H]; [|done..].
  apply line_inj in H as [Hk H]; [|apply kind_no_nl..].
  apply line_inj in H as [-> H]; [|done..].
  apply line_inj in H as [Hn H]; [|apply bool_no_nl..].
  apply line_inj in H as [Hv H]; [|apply pretty_N_no_nl..].
  unfold Canonical.line in H. apply (inj (String.append "payload_sha256:")), snoc_inj in H.
  apply (inj pretty) in Hseq, Hv. apply EventKindFacts.event_kind_as_str_inj in Hk.
  destruct (Envelope.seq e), (Envelope.seq e'), (Envelope.event_id e), (Envelope.event_id e').
  simpl in *. split_and!; try congruence.
  revert Hn. by destruct (Envelope.narrowing e), (Envelope.narrowing e').
Qed.

(** Witness: the sample's second event, with a digest that keeps the payload. *)
Lemma canonical_bytes_cover_witness :
  let e := EventSample.event 2 EventKind.GroupPut (Json.String "x") in
  let to_vec := λ j, match j with Json.String s => s | _ => "" end in
  Canonical.canonical_envelope_bytes to_vec id e "acme" =
    Canonical.canonical_envelope_bytes to_vec id e "acme" ∧
  Envelope.kind e = EventKind.GroupPut.
Proof.
  intros e to_vec. split; [reflexivity|].
  destruct (canonical_bytes_cover to_vec id
    {| Envelope.p_event_id := Envelope.mk_id "01J"; Envelope.p_seq := Revision.new 2;
       Envelope.p_kind := EventKind.GroupPut; Envelope.p_occurred_at := "t";
       Envelope.p_actor := Envelope.System; Envelope.p_payload := Json.Null |}
    "k" "s" (EventSample.event 2 EventKind.GroupPut (Json.String "x")) e "acme" "acme")
    as (_ & _ & _ & _ & Hk & _); [by split|by split|reflexivity|].
  rewrite <-Hk. reflexivity.
Defined.

(** An upsert settles: whatever was stored, writing the decided payload and
    deciding the same incoming value again is a no-op; and on values without
    floating-point numbers a no-op means that the stored value is the
    incoming one. *)
Theorem decide_upsert_settles existing incoming :
  (∀ p, Upsert.decide_upsert existing incoming = Upsert.Changed p →
     p = incoming ∧ Upsert.decide_upsert (Some p) incoming = Upsert.NoOp) ∧
  (Upsert.decide_upsert existing incoming = Upsert.NoOp →
     ∃ v, existing = Some v ∧ (JsonFacts.float_free v = true → v = incoming)).
Proof.
  unfold Upsert.decide_upsert. split.
  - intros p Hp. assert (p = incoming) as -> by (repeat case_match; congruence).
    by rewrite JsonFacts.eqb_refl.
  - destruct existing as [v|]; [|done]. destruct (Json.eqb v incoming) eqn:He; [|done].
    intros _. exists v. split; [done|]. intros Hf. by apply JsonFacts.eqb_eq.
Qed.
