(* ===== verification/Org.v ===== *)
(** Organizations and their request-signing keys: the status machine of
    [crates/core/src/org.rs], the lifecycle verbs of
    [control-plane/src/handlers/lifecycle.rs] and the key lifecycle of
    [control-plane/src/signing_key.rs]. *)

From S2P Require Import Prelude RustStr Ident.

(** An instant ([DateTime<Utc>]), in the clock's own unit. *)
Abbreviation instant := Z.

(** The error type of the control plane ([control-plane/src/error.rs]),
    the variants the modelled code raises. *)
Module CpError.
Inductive t :=
| Config (msg : string)
| Conflict (msg : string)
| NotFound (msg : string)
| RevisionMismatch (current : N)
| InvalidEtag (raw : string)
| Store (msg : string).
#[global] Instance t_eq_dec : EqDecision t.
Proof. solve_decision. Defined.
End CpError.

(** * Entity tags ([control-plane/src/etag.rs]) *)
Module Etag.
Record t := mk { as_str : string }.
#[global] Instance t_eq_dec : EqDecision t.
Proof. solve_decision. Defined.
Definition try_new (raw : string) : result CpError.t t :=
  if is_empty raw then Err (CpError.InvalidEtag raw) else Ok (mk raw).
End Etag.

(** * Organization status *)
Module OrgStatus.
Inductive t := Draft | Active | Suspended | Deleting | Deleted.
#[global] Instance t_eq_dec : EqDecision t.
Proof. solve_decision. Defined.

Definition can_transition_to (self target : t) : bool :=
  match self, target with
  | Draft, Active | Active, Suspended | Suspended, Active
  | Active, Deleting | Suspended, Deleting | Deleting, Deleted => true
  | _, _ => false
  end.

Definition to_string (s : t) : string :=
  match s with
  | Draft => "draft" | Active => "active" | Suspended => "suspended"
  | Deleting => "deleting" | Deleted => "deleted"
  end.
Definition from_str (s : string) : result Error.t t :=
  if bool_decide (s = "draft") then Ok Draft
  else if bool_decide (s = "active") then Ok Active
  else if bool_decide (s = "suspended") then Ok Suspended
  else if bool_decide (s = "deleting") then Ok Deleting
  else if bool_decide (s = "deleted") then Ok Deleted
  else Err (Error.Parse "org_status" s
              "expected one of: draft, active, suspended, deleting, deleted").
End OrgStatus.

Module Organization.
Record t := mk {
  org_id : OrganizationId;
  name : string;
  status : OrgStatus.t;
  cognito_pool_id : option string;
  cognito_jwks_url : option string;
  policy_store_id : option string;
  created_at : instant;
  updated_at : instant;
}.
Definition new (org_id : OrganizationId) (name : string) (status : OrgStatus.t) (now : instant) : t :=
  mk org_id name status None None None now now.
Definition with_aws_resources (o : t) (pool url store : option string) : t :=
  mk (org_id o) (name o) (status o) pool url store (created_at o) (updated_at o).
Definition with_updated_at (o : t) (updated_at : instant) : t :=
  mk (org_id o) (name o) (status o) (cognito_pool_id o) (cognito_jwks_url o) (policy_store_id o)
     (created_at o) updated_at.
Definition transition_to (o : t) (target : OrgStatus.t) (now : instant) : result Error.t t :=
  if negb (OrgStatus.can_transition_to (status o) target)
  then Err (Error.Parse "org_status"
              (OrgStatus.to_string (status o) +:+ " → " +:+ OrgStatus.to_string target)
              "invalid status transition")
  else Ok (mk (org_id o) (name o) target (cognito_pool_id o) (cognito_jwks_url o)
             (policy_store_id o) (created_at o) now).
Definition update_name (o : t) (name : string) (now : instant) : t :=
  mk (org_id o) name (status o) (cognito_pool_id o) (cognito_jwks_url o) (policy_store_id o)
     (created_at o) now.

(** Statuses reachable through [transition_to]. *)
Definition step (a b : OrgStatus.t) : Prop := OrgStatus.can_transition_to a b = true.
End Organization.

(** * Lifecycle verbs *)
Module LifecycleVerb.
Inductive t := Activate | Suspend | Restore.
Definition target (v : t) : OrgStatus.t :=
  match v with Activate | Restore => OrgStatus.Active | Suspend => OrgStatus.Suspended end.
Definition valid_from (v : t) (from : OrgStatus.t) : bool :=
  match v, from with
  | Activate, OrgStatus.Draft | Suspend, OrgStatus.Active | Restore, OrgStatus.Suspended => true
  | _, _ => false
  end.

(** What [transition_handler] does with a record it read: its answer, before
    the event is appended. *)
Inductive decision :=
| NotFound
| AlreadyThere
| InvalidTransition (from to : OrgStatus.t)
| Append (org : Organization.t).
Definition decide_transition (v : t) (o : Organization.t) (now : instant) : decision :=
  if bool_decide (Organization.status o = OrgStatus.Deleted) then NotFound
  else
    let from := Organization.status o in
    let target := target v in
    if bool_decide (from = target) then AlreadyThere
    else if negb (valid_from v from) then InvalidTransition from target
    else
      match Organization.transition_to o target now with
      | Ok org => Append org
      | _ => InvalidTransition from target
      end.
End LifecycleVerb.

(** * Signing keys *)
Module SigningKey.
Inductive status := Active | Rotating (expires_at : instant) | Revoked.
#[global] Instance status_eq_dec : EqDecision status.
Proof. solve_decision. Defined.

Record entry := mk {
  key_id : string;
  public_key_pem : string;
  key_status : status;
  created_at : instant;
  expires_at : option instant;
}.
Definition new (key_id pem : string) (st : status) (created_at : instant)
    (expires_at : option instant) : result CpError.t entry :=
  if bool_decide (key_id = "") then Err (CpError.Store "key_id must not be empty")
  else Ok (mk key_id pem st created_at expires_at).

Definition is_active (e : entry) (now : instant) : bool :=
  match key_status e with
  | Active => true
  | Rotating expires_at => bool_decide (now < expires_at)%Z
  | Revoked => false
  end.
Definition revoke (e : entry) : entry :=
  mk (key_id e) (public_key_pem e) Revoked (created_at e) None.
Definition begin_rotating (e : entry) (expires_at : instant) : entry :=
  mk (key_id e) (public_key_pem e) (Rotating expires_at) (created_at e) (Some expires_at).

Definition position (target : string) (l : list entry) : option nat :=
  fst <$> list_find (λ e, key_id e = target) l.

Definition rotate_entries (existing : list entry) (target : string) (new_entry : entry)
    (now grace : Z) : result CpError.t (list entry) :=
  idx ← ok_or (position target existing)
          (CpError.NotFound ("signing key '" +:+ target +:+ "' not found"));
  match existing !! idx with
  | None => Stuck "existing[idx]: index out of bounds"
  | Some e =>
      match key_status e with
      | Active =>
          let expires_at := (now + grace)%Z in
          Ok (<[idx := begin_rotating e expires_at]> existing ++ [new_entry])
      | Rotating _ =>
          Err (CpError.Conflict ("signing key '" +:+ target +:+ "' is already rotating"))
      | Revoked => Err (CpError.Conflict ("signing key '" +:+ target +:+ "' is revoked"))
      end
  end.

(** [None]: absent or already revoked. *)
Definition revoke_entries (existing : list entry) (target : string) : option (list entry) :=
  idx ← position target existing;
  e ← existing !! idx;
  match key_status e with
  | Revoked => None
  | _ => Some (<[idx := revoke e]> existing)
  end.

(** The three transitions of an organization's key list: the affected key and
    the new list, or [None] when there is nothing to append. *)
Definition transition_result := result CpError.t (option (string * list entry)).
Definition generate_key_transition (new_entry : entry) (keys : list entry) : transition_result :=
  Ok (Some (key_id new_entry, keys ++ [new_entry])).
Definition revoke_key_transition (target : string) (keys : list entry) : transition_result :=
  Ok ((λ new_keys, (target, new_keys)) <$> revoke_entries keys target).
Definition rotate_key_transition (target : string) (new_entry : entry) (now grace : Z)
    (keys : list entry) : transition_result :=
  updated ← rotate_entries keys target new_entry now grace;
  Ok (Some (target, updated)).

(** A key mutation. *)
Inductive op :=
| Generate (new_entry : entry)
| Revoke (target : string)
| Rotate (target : string) (new_entry : entry) (now grace : Z).
Definition transition (o : op) (keys : list entry) : transition_result :=
  match o with
  | Generate e => generate_key_transition e keys
  | Revoke k => revoke_key_transition k keys
  | Rotate k e now grace => rotate_key_transition k e now grace keys
  end.
(** The list after a mutation; a rejected one leaves it alone. *)
Definition run (keys : list entry) (o : op) : list entry :=
  match transition o keys with Ok (Some (_, keys')) => keys' | _ => keys end.

(** The order of a key's life: a status never goes back. *)
Definition status_le (a b : status) : Prop :=
  match a, b with
  | Active, _ => True
  | Rotating x, Rotating y => x = y
  | Rotating _, Revoked => True
  | Revoked, Revoked => True
  | _, _ => False
  end.
#[global] Instance status_le_preorder : PreOrder status_le.
Proof. split; [by intros []|]. intros [] [] []; naive_solver. Qed.
End SigningKey.

Module SigningKeyFacts.
Import SigningKey.

Lemma position_Some target l i :
  position target l = Some i → ∃ e, l !! i = Some e ∧ key_id e = target.
Proof.
  unfold position. destruct (list_find _ l) as [[j e]|] eqn:Hf; [|done].
  intros [= <-]. apply list_find_Some in Hf as (? & ? & _). eauto.
Qed.

Lemma rotate_entries_Ok existing target ne now grace l :
  rotate_entries existing target ne now grace = Ok l ↔
  ∃ i e, position target existing = Some i ∧ existing !! i = Some e ∧ key_status e = Active ∧
    l = <[i := begin_rotating e (now + grace)%Z]> existing ++ [ne].
Proof.
  unfold rotate_entries. split.
  - intros (i & Hp%ok_or_Ok & H)%bind_Ok. destruct (existing !! i) as [e|] eqn:He; [|done].
    destruct (key_status e) eqn:Hs; try done. injection H as <-. eauto 10.
  - intros (i & e & -> & He & Hs & ->). cbn [ok_or mbind result_bind]. by rewrite He, Hs.
Qed.
Lemma revoke_entries_Some existing target l :
  revoke_entries existing target = Some l ↔
  ∃ i e, position target existing = Some i ∧ existing !! i = Some e ∧ key_status e ≠ Revoked ∧
    l = <[i := revoke e]> existing.
Proof.
  unfold revoke_entries. split.
  - destruct (position target existing) as [i|]; simpl; [|done].
    destruct (existing !! i) as [e|] eqn:He; simpl; [|done].
    destruct (key_status e) eqn:Hs; intros [= <-]; exists i, e; split_and!; congruence.
  - intros (i & e & -> & He & Hs & ->). simpl. rewrite He. simpl. by destruct (key_status e).
Qed.

Lemma rotate_returns existing target ne now grace :
  returns (rotate_entries existing target ne now grace).
Proof.
  unfold rotate_entries. destruct (position target existing) as [i|] eqn:Hp; [|done].
  destruct (position_Some _ _ _ Hp) as (e & He & _). cbn [ok_or mbind result_bind].
  rewrite He. solve_returns.
Qed.

(** One mutation keeps every entry's place, identity and key, and moves its
    status forward only. *)
Lemma run_step keys o i e :
  keys !! i = Some e →
  ∃ e', run keys o !! i = Some e' ∧ key_id e' = key_id e ∧
    public_key_pem e' = public_key_pem e ∧ status_le (key_status e) (key_status e').
Proof.
  intros Hi. unfold run, transition. destruct o as [ne|k|k ne now grace].
  - exists e. simpl. rewrite lookup_app_l by (by eapply lookup_lt_Some). done.
  - unfold revoke_key_transition. destruct (revoke_entries keys k) as [l|] eqn:Hr; simpl; [|by exists e].
    apply revoke_entries_Some in Hr as (j & e0 & _ & Hj & Hs & ->).
    destruct (decide (i = j)) as [<-|Hne].
    + rewrite list_lookup_insert_eq by (by eapply lookup_lt_Some). simplify_eq.
      eexists. split_and!; [done..|]. simpl. by destruct (key_status e).
    + rewrite list_lookup_insert_ne by done. by exists e.
  - unfold rotate_key_transition. destruct (rotate_entries keys k ne now grace) as [l| |] eqn:Hr;
      simpl; [|by exists e..].
    apply rotate_entries_Ok in Hr as (j & e0 & _ & Hj & Hs & ->).
    rewrite lookup_app_l by (rewrite length_insert; by eapply lookup_lt_Some).
    destruct (decide (i = j)) as [<-|Hne].
    + rewrite list_lookup_insert_eq by (by eapply lookup_lt_Some). simplify_eq.
      eexists. split_and!; [done..|]. by rewrite Hs.
    + rewrite list_lookup_insert_ne by done. by exists e.
Qed.

Lemma run_all_step ops keys i e :
  keys !! i = Some e →
  ∃ e', foldl run keys ops !! i = Some e' ∧ key_id e' = key_id e ∧
    public_key_pem e' = public_key_pem e ∧ status_le (key_status e) (key_status e').
Proof.
  revert keys e. induction ops as [|o ops IH]; intros keys e Hi; simpl; [by exists e|].
  destruct (run_step keys o i e Hi) as (e1 & H1 & Hk1 & Hp1 & Hs1).
  destruct (IH _ _ H1) as (e2 & H2 & Hk2 & Hp2 & Hs2). exists e2.
  split_and!; [done|congruence..|by etrans].
Qed.
End SigningKeyFacts.

(** A signing key never regains power: through any sequence of generate,
    rotate and revoke operations (rejected ones included) every stored key
    keeps its position, id and public key and its status only moves forward
    (active, rotating, revoked); so a key unusable at an instant because it
    is revoked stays unusable, and a rotating key keeps its deadline. *)
Theorem signing_keys_monotone ops keys i e now later :
  keys !! i = Some e → SigningKey.is_active e now = false → (now ≤ later)%Z →
  ∃ e', foldl SigningKey.run keys ops !! i = Some e' ∧
        SigningKey.key_id e' = SigningKey.key_id e ∧
        SigningKey.public_key_pem e' = SigningKey.public_key_pem e ∧
        SigningKey.status_le (SigningKey.key_status e) (SigningKey.key_status e') ∧
        SigningKey.is_active e' later = false.
Proof.
  intros Hi Hn Hle. destruct (SigningKeyFacts.run_all_step ops keys i e Hi)
    as (e' & H & Hk & Hp & Hs). exists e'. split_and!; [done..|].
  unfold SigningKey.is_active in *.
  destruct (SigningKey.key_status e), (SigningKey.key_status e'); simpl in Hs; try done.
  bool_prop. subst. apply bool_decide_eq_false. lia.
Qed.

(** Witness: a key rotated out at 10 is unusable at 20 and stays so. *)
Lemma signing_keys_monotone_witness :
  let k := SigningKey.mk "k1" "pem" (SigningKey.Rotating 10) 0 (Some 10%Z) in
  ∃ e', foldl SigningKey.run [k]
          [SigningKey.Generate (SigningKey.mk "k2" "pem2" SigningKey.Active 15 None);
           SigningKey.Rotate "k1" (SigningKey.mk "k3" "pem3" SigningKey.Active 16 None) 16 24;
           SigningKey.Revoke "k1"] !! 0 = Some e' ∧
    SigningKey.key_status e' = SigningKey.Revoked ∧ SigningKey.is_active e' 30 = false.
Proof.
  intros k.
  destruct (signing_keys_monotone
    [SigningKey.Generate (SigningKey.mk "k2" "pem2" SigningKey.Active 15 None);
     SigningKey.Rotate "k1" (SigningKey.mk "k3" "pem3" SigningKey.Active 16 None) 16 24;
     SigningKey.Revoke "k1"] [k] 0 k 20 30) as (e' & He & _ & _ & _ & Ha).
  - reflexivity.
  - reflexivity.
  - discriminate.
  - exists e'. split_and!; [exact He| |exact Ha]. vm_compute in He.
    injection He as <-. reflexivity.
Defined.

(** Rotation overlaps the old and the new key: it succeeds exactly on a
    known, active key; then the target is accepted until [now + grace] and
    not after, the new entry is appended, and every other entry is the same;
    otherwise the error says not found, or conflict for a rotating or revoked
    key. *)
Theorem rotate_entries_overlap existing target ne now grace :
  (∃ i e, SigningKey.position target existing = Some i ∧ existing !! i = Some e ∧
     SigningKey.key_status e = SigningKey.Active ∧
     ∃ l, SigningKey.rotate_entries existing target ne now grace = Ok l ∧
       length l = S (length existing) ∧ last l = Some ne ∧
       (∀ j, j ≠ i → j < length existing → l !! j = existing !! j) ∧
       ∃ e', l !! i = Some e' ∧ SigningKey.key_id e' = target ∧
         ∀ t, SigningKey.is_active e' t = true ↔ (t < now + grace)%Z) ∨
  (∃ err, SigningKey.rotate_entries existing target ne now grace = Err err ∧
     ((SigningKey.position target existing = None ∧ ∃ m, err = CpError.NotFound m) ∨
      (∃ i e, SigningKey.position target existing = Some i ∧ existing !! i = Some e ∧
        SigningKey.key_status e ≠ SigningKey.Active ∧ ∃ m, err = CpError.Conflict m))).
Proof.
  destruct (SigningKey.position target existing) as [i|] eqn:Hp.
  2: { right. unfold SigningKey.rotate_entries. rewrite Hp. simpl. eauto 10. }
  destruct (SigningKeyFacts.position_Some _ _ _ Hp) as (e & He & Hk).
  destruct (decide (SigningKey.key_status e = SigningKey.Active)) as [Hs|Hs].
  - left. exists i, e. split_and!; [done..|]. eexists. split.
    { apply SigningKeyFacts.rotate_entries_Ok. eauto 10. }
    pose proof (lookup_lt_Some _ _ _ He) as Hlt. split_and!.
    + rewrite length_app, length_insert. simpl. lia.
    + by rewrite last_snoc.
    + intros j Hj Hlen. rewrite lookup_app_l by (by rewrite length_insert).
      by rewrite list_lookup_insert_ne.
    + eexists. split; [rewrite lookup_app_l by (by rewrite length_insert);
        by apply list_lookup_insert_eq|]. split; [done|].
      intros t. unfold SigningKey.is_active. simpl. by rewrite bool_decide_eq_true.
  - right. unfold SigningKey.rotate_entries. rewrite Hp. simpl. rewrite He.
    destruct (SigningKey.key_status e) eqn:Hst; [done| |];
      (eexists; split; [done|]; right; exists i, e; split_and!; [done..| |by eexists]; congruence).
Qed.

(** The organization lifecycle.  No transition leads back to [Draft] and
    none leaves [Deleted]; a verb's handler appends exactly when the verb is
    valid from the current status, and then [transition_to] succeeds (its
    error branch is dead), keeps identity, configuration and creation time,
    and moves the status to the verb's target; a record already at the
    target appends nothing. *)
Theorem lifecycle_decides v o now :
  (∀ a, rtc Organization.step OrgStatus.Deleted a → a = OrgStatus.Deleted) ∧
  (∀ a, ¬ Organization.step a OrgStatus.Draft) ∧
  match LifecycleVerb.decide_transition v o now with
  | LifecycleVerb.NotFound => Organization.status o = OrgStatus.Deleted
  | LifecycleVerb.AlreadyThere => Organization.status o = LifecycleVerb.target v
  | LifecycleVerb.InvalidTransition from to =>
      from = Organization.status o ∧ to = LifecycleVerb.target v ∧
      LifecycleVerb.valid_from v from = false
  | LifecycleVerb.Append o' =>
      LifecycleVerb.valid_from v (Organization.status o) = true ∧
      Organization.transition_to o (LifecycleVerb.target v) now = Ok o' ∧
      Organization.status o' = LifecycleVerb.target v ∧
      Organization.org_id o' = Organization.org_id o ∧
      Organization.created_at o' = Organization.created_at o ∧
      Organization.updated_at o' = now
  end.
Proof.
  split_and!.
  - intros a Ha. by inversion Ha as [|? b ? Hb]; [|destruct b].
  - by intros [].
  - unfold LifecycleVerb.decide_transition, Organization.transition_to.
    by destruct v, o as [? ? [] ? ? ? ? ?].
Qed.
