(* ===== verification/Rbac.v ===== *)
(** Role-based groups ([crates/authz-core/src/rbac]): role definitions and
    their compilation to Cedar permit statements ([mod.rs], [permits.rs]),
    inheritance resolution, and the validation of group writes
    ([validation.rs]). *)

From S2P Require Import Prelude RustStr Ident.

Module Rbac.
Record RbacEntry := {
  name : string;
  description : option string;
  inherits : list string;
  allow : list string;
  tenant_scoped : bool;
}.
Record TenantConfig := {
  enabled : bool;
  principal_attribute : string;
  resource_attribute : string;
}.
Definition tenant_default : TenantConfig :=
  {| enabled := true; principal_attribute := "tenant_id"; resource_attribute := "tenant_id" |}.

Definition quote : ascii := "034"%char.
Definition backslash : ascii := "092"%char.
Definition nl : string := String "010"%char "".

(** [char::is_control] over UTF-8 bytes: U+0000..U+001F, U+007F, and
    U+0080..U+009F, encoded [C2 80] to [C2 9F]. *)
Fixpoint has_control (s : string) : bool :=
  match s with
  | EmptyString => false
  | String a rest =>
      (byte_val a <? 32)%N || (byte_val a =? 127)%N ||
      ((byte_val a =? 194)%N &&
       match rest with
       | String b _ => (128 <=? byte_val b)%N && (byte_val b <=? 159)%N
       | EmptyString => false
       end) ||
      has_control rest
  end.

(** [{value:?}]: a quoted string with its escapes; bytes outside ASCII are
    printed as they are. *)
Definition hex_digit (n : N) : ascii :=
  if (n <? 10)%N then ascii_of_N (48 + n) else ascii_of_N (87 + n).
Definition debug_char (a : ascii) : string :=
  let v := byte_val a in
  if Ascii.eqb a quote then String backslash (String quote "")
  else if Ascii.eqb a backslash then String backslash (String backslash "")
  else if (v =? 9)%N then String backslash "t"
  else if (v =? 10)%N then String backslash "n"
  else if (v =? 13)%N then String backslash "r"
  else if (v =? 0)%N then String backslash "0"
  else if (v <? 32)%N || (v =? 127)%N then
    String backslash "u{" +:+
    (if (v <? 16)%N then "" else String (hex_digit (v / 16)) "") +:+
    String (hex_digit (v mod 16)) "}"
  else String a "".
Fixpoint debug_chars (s : string) : string :=
  match s with EmptyString => "" | String a s => debug_char a +:+ debug_chars s end.
Definition debug_str (s : string) : string := String quote (debug_chars s +:+ String quote "").

Definition validate_cedar_ident (value label : string) : result string () :=
  if is_empty value then Err (label +:+ " must not be empty")
  else if contains_char quote value || contains_char backslash value || has_control value
  then Err (label +:+ " contains invalid characters: " +:+ debug_str value)
  else Ok ().

(** One element of the [action in] list, and the clauses of the statement. *)
Definition action_ref (namespace a : string) : string :=
  namespace +:+ "::Action::" +:+ String quote (a +:+ String quote "").
Definition scope_clause (e : RbacEntry) (tenant : TenantConfig) : string :=
  if tenant_scoped e && enabled tenant
  then "  resource" +:+ nl +:+ ") when { principal." +:+ principal_attribute tenant +:+
       " == resource." +:+ resource_attribute tenant +:+ " };"
  else "  resource" +:+ nl +:+ ");".
Definition statement (e : RbacEntry) (tenant : TenantConfig) (namespace : string) : string :=
  "permit(" +:+ nl +:+
  "  principal in " +:+ namespace +:+ "::Group::" +:+
    String quote (name e +:+ String quote ("," +:+ nl +:+
  "  action in [" +:+ join ", " (action_ref namespace <$> allow e) +:+ "]," +:+ nl +:+
  scope_clause e tenant)).

Definition compile_rbac_to_cedar (e : RbacEntry) (tenant : TenantConfig) (namespace : string)
    : result string string :=
  _ ← validate_cedar_ident (name e) "role name";
  _ ← (if bool_decide (allow e = [])
       then Err ("RBAC policy '" +:+ name e +:+
                 "' has an empty allow list; cannot compile to Cedar")
       else Ok ());
  _ ← for_each (λ action, validate_cedar_ident action "action") (allow e);
  _ ← (if tenant_scoped e && enabled tenant
       then _ ← validate_cedar_ident (principal_attribute tenant) "tenant principal_attribute";
            validate_cedar_ident (resource_attribute tenant) "tenant resource_attribute"
       else Ok ());
  Ok (statement e tenant namespace).

(** ** Inheritance *)

Definition CYCLE_PREFIX : string := "cycle detected".

(** Both lookup maps; a later entry replaces an earlier one. *)
Definition rbac_map (entries : list RbacEntry) : gmap string RbacEntry :=
  foldl (λ m e, <[name e := e]> m) ∅ entries.

Record walker := {
  collected : list string;
  seen_actions : gset string;
  visiting : gset string;
  visited : gset string;
}.
Definition walker_new : walker :=
  {| collected := []; seen_actions := ∅; visiting := ∅; visited := ∅ |}.

Definition add_action (w : walker) (a : string) : walker :=
  if decide (a ∈ seen_actions w) then w
  else {| collected := collected w ++ [a]; seen_actions := {[a]} ∪ seen_actions w;
          visiting := visiting w; visited := visited w |}.
Definition enter (w : walker) (role : string) : walker :=
  {| collected := collected w; seen_actions := seen_actions w;
     visiting := {[role]} ∪ visiting w; visited := visited w |}.
Definition leave (w : walker) (role : string) : walker :=
  {| collected := collected w; seen_actions := seen_actions w;
     visiting := visiting w ∖ {[role]}; visited := {[role]} ∪ visited w |}.

Definition cycle_msg (role : string) : string :=
  CYCLE_PREFIX +:+ " in role inheritance: '" +:+ role +:+ "'".
Definition missing_msg (role : string) : string :=
  "RBAC role '" +:+ role +:+ "' not found (referenced via inherits)".

Fixpoint collect (fuel : nat) (m : gmap string RbacEntry) (w : walker) (role : string)
    : result string walker :=
  match fuel with
  | 0 => Stuck "collect: recursion bound"
  | S fuel =>
      if bool_decide (role ∈ visiting w) then Err (cycle_msg role)
      else if bool_decide (role ∈ visited w) then Ok w
      else
        let w := enter w role in
        e ← ok_or (m !! role) (missing_msg role);
        let w := foldl add_action w (allow e) in
        w ← try_fold (collect fuel m) (inherits e) w;
        Ok (leave w role)
  end.

Definition resolve_inherits (entries : list RbacEntry) (target_name : string)
    : result string (list string) :=
  let m := rbac_map entries in
  if negb (bool_decide (is_Some (m !! target_name)))
  then Err ("RBAC role '" +:+ target_name +:+ "' not found")
  else collected <$> collect (S (size m)) m walker_new target_name.

(** The inheritance graph. *)
Definition parent (m : gmap string RbacEntry) (x y : string) : Prop :=
  ∃ e, m !! x = Some e ∧ y ∈ inherits e.
Definition grants (m : gmap string RbacEntry) (x a : string) : Prop :=
  ∃ e, m !! x = Some e ∧ a ∈ allow e.
End Rbac.

(** * Permits *)
Module Permits.
Import Rbac.
Record NamedPermit := { permit_name : string; permit_statement : string }.
Record MaterializeCompileError := { entry_name : string; reason : string }.

Definition policy_name_for_group (group_name : string) : string := "cp-rbac-" +:+ group_name.

Definition compile_one (namespace : string) (tenant : TenantConfig) (e : RbacEntry)
    : result MaterializeCompileError NamedPermit :=
  stmt ← map_err (λ reason, {| entry_name := name e; reason := reason |})
           (compile_rbac_to_cedar e tenant namespace);
  Ok {| permit_name := policy_name_for_group (name e); permit_statement := stmt |}.

(** [sort_by_key] is stable. *)
Definition name_le (a b : RbacEntry) : Prop := cmp_le String.compare (name a) (name b).
#[global] Instance name_le_dec : RelDecision name_le.
Proof. intros a b. unfold name_le. apply _. Defined.

Definition groups_to_permits (entries : list RbacEntry) (namespace : string)
    (tenant : TenantConfig) : result MaterializeCompileError (list NamedPermit) :=
  mapM (compile_one namespace tenant) (merge_sort name_le entries).
End Permits.

(** * Validation of group writes *)
Module Validation.
Import Rbac.
Inductive GroupValidationError :=
| BadNameRegex (name : string)
| BadActionId (action : string)
| BadActionFormat (action : string)
| EmptyAllow
| InheritCycle (msg : string)
| UnknownInherit (msg : string)
| DescriptionTooLong
| NameMismatch (path_name body_name : string).

(** [Display]. *)
Definition message (e : GroupValidationError) : string :=
  match e with
  | BadNameRegex n => "name " +:+ debug_str n +:+ " must match [a-z][a-z0-9_-]*"
  | BadActionId a => "action id " +:+ debug_str a +:+
      " must match [a-z][a-z0-9_-]* (hyphenated form, e.g. cp-organization-read)"
  | BadActionFormat a => "action " +:+ debug_str a +:+ " must match <namespace>:<entity>:<verb>"
  | EmptyAllow => "allow list must not be empty"
  | InheritCycle m => "inherit cycle detected: " +:+ m
  | UnknownInherit m => "inherits references unknown group " +:+ debug_str m
  | DescriptionTooLong => "description longer than 1024 chars"
  | NameMismatch p b => "path name " +:+ debug_str p +:+ " does not match body name " +:+ debug_str b
  end.

(** [^[a-z][a-z0-9_-]*$]. *)
Definition name_byte (a : ascii) : bool :=
  is_ascii_lowercase a || is_ascii_digit a || Ascii.eqb a "_" || Ascii.eqb a "-".
Definition GROUP_NAME_RE (s : string) : bool :=
  match s with
  | EmptyString => false
  | String a rest => is_ascii_lowercase a && str_all name_byte rest
  end.
(** Three such names separated by colons. *)
Definition ACTION_FORMAT_RE (s : string) : bool :=
  match split ":" s with
  | [a; b; c] => GROUP_NAME_RE a && GROUP_NAME_RE b && GROUP_NAME_RE c
  | _ => false
  end.

Definition validate_group_name (name : string) : result GroupValidationError () :=
  if GROUP_NAME_RE name then Ok () else Err (BadNameRegex name).
Definition validate_action_id (action : string) : result GroupValidationError () :=
  if GROUP_NAME_RE action then Ok () else Err (BadActionId action).
Definition validate_action_format (action : string) : result GroupValidationError () :=
  if ACTION_FORMAT_RE action then Ok () else Err (BadActionFormat action).

Definition map_resolve_err (s : string) : GroupValidationError :=
  if String.prefix CYCLE_PREFIX s then InheritCycle s else UnknownInherit s.

Definition validate_rbac_entry (proposed : RbacEntry) (all_after : list RbacEntry)
    : result GroupValidationError RbacEntry :=
  _ ← validate_group_name (name proposed);
  _ ← (if bool_decide (allow proposed = []) then Err EmptyAllow else Ok ());
  _ ← (match description proposed with
       | Some d => if (1024 <? String.length d)%nat then Err DescriptionTooLong else Ok ()
       | None => Ok ()
       end);
  _ ← for_each validate_action_format (allow proposed);
  _ ← map_err map_resolve_err (resolve_inherits all_after (name proposed));
  Ok proposed.
End Validation.

(** * Facts about inheritance *)
Module RbacFacts.
Import Rbac.

Lemma rbac_map_Some entries x e :
  rbac_map entries !! x = Some e → e ∈ entries ∧ name e = x.
Proof.
  unfold rbac_map.
  assert (∀ m : gmap string RbacEntry, foldl (λ m e, <[name e := e]> m) m entries !! x = Some e →
    (e ∈ entries ∧ name e = x) ∨ m !! x = Some e) as Hgen.
  { induction entries as [|e0 entries IH]; intros m; simpl; [by right|].
    intros [[??]|Hm]%IH; [left; split; [by right|done]|].
    rewrite lookup_insert in Hm. case_decide; simplify_eq; [|by right].
    left. split; [left|done]. }
  intros [?|?]%Hgen; [done|]. by rewrite lookup_empty in *.
Qed.

(** Adding a role's own actions. *)
Lemma add_actions_sets l w :
  visiting (foldl add_action w l) = visiting w ∧ visited (foldl add_action w l) = visited w.
Proof.
  revert w. induction l as [|a l IH]; intros w; simpl; [done|].
  destruct (IH (add_action w a)) as [-> ->]. unfold add_action. by case_decide.
Qed.
Definition tidy (w : walker) : Prop :=
  NoDup (collected w) ∧ ∀ a, a ∈ collected w ↔ a ∈ seen_actions w.
Lemma add_actions_tidy l w :
  tidy w →
  tidy (foldl add_action w l) ∧
  ∀ a, a ∈ collected (foldl add_action w l) ↔ a ∈ collected w ∨ a ∈ l.
Proof.
  revert w. induction l as [|x l IH]; intros w Hw; simpl; [set_solver|].
  assert (tidy (add_action w x) ∧
    ∀ a, a ∈ collected (add_action w x) ↔ a ∈ collected w ∨ a = x) as [Hw1 H1].
  { unfold add_action. destruct Hw as [Hnd Hseen]. case_decide as Hx.
    - split; [done|]. intros a. set_solver.
    - split; [split|]; simpl; [|set_solver..].
      apply NoDup_app. split_and!; [done|set_solver|apply NoDup_singleton]. }
  destruct (IH _ Hw1) as [Hw2 H2]. split; [done|]. intros a. rewrite H2, H1. set_solver.
Qed.

Section walk.
Context (m : gmap string RbacEntry) (target : string).

(** The invariant of the traversal: finished roles are known, free of
    cycles, closed under inheritance and fully collected; nothing else is
    collected than what reachable roles allow. *)
Record inv (w : walker) : Prop := {
  inv_tidy : tidy w;
  inv_known x : x ∈ visiting w ∪ visited w → is_Some (m !! x);
  inv_closed x y : x ∈ visited w → parent m x y → y ∈ visited w;
  inv_collected x a : x ∈ visited w → grants m x a → a ∈ collected w;
  inv_sound a : a ∈ collected w → ∃ x, rtc (parent m) target x ∧ grants m x a;
  inv_acyclic x : x ∈ visited w → ¬ tc (parent m) x x;
  inv_disjoint x : x ∈ visiting w → x ∉ visited w;
}.
(** The roles in progress lead to the current one. *)
Definition on_path (w : walker) (role : string) : Prop :=
  rtc (parent m) target role ∧ ∀ y, y ∈ visiting w → tc (parent m) y role.

Lemma inv_closed_rtc w x y : inv w → x ∈ visited w → rtc (parent m) x y → y ∈ visited w.
Proof. intros Hw Hx Hr. induction Hr; [done|]. eauto using inv_closed. Qed.

(** The loop over the parents extends the walker. *)
Record extends (w w' : walker) : Prop := {
  ext_inv : inv w';
  ext_visiting : visiting w' = visiting w;
  ext_visited : visited w ⊆ visited w';
  ext_collected a : a ∈ collected w → a ∈ collected w';
}.

(** Entering a role and adding its actions. *)
Definition entered (w : walker) (role : string) (e : RbacEntry) : walker :=
  foldl add_action (enter w role) (allow e).
Lemma entered_inv w role e :
  inv w → on_path w role → role ∉ visited w → m !! role = Some e →
  inv (entered w role e) ∧ visiting (entered w role e) = {[role]} ∪ visiting w ∧
  visited (entered w role e) = visited w ∧
  ∀ a, a ∈ collected (entered w role e) ↔ a ∈ collected w ∨ a ∈ allow e.
Proof.
  intros Hw [Hr _] Hv He. unfold entered.
  destruct (add_actions_sets (allow e) (enter w role)) as [Hs1 Hs2].
  assert (tidy (enter w role)) as Ht by (by destruct Hw).
  destruct (add_actions_tidy (allow e) _ Ht) as [Ht' Hc]. simpl in *.
  split; [|done]. destruct Hw as [_ Hk Hcl Hco Hso Hac Hdi].
  split; rewrite ?Hs1, ?Hs2; [done| |done| |..].
  - intros x. rewrite !elem_of_union, elem_of_singleton. intros [[->|?]|?]; [by eexists|..];
      apply Hk; set_solver.
  - intros x a Hx Ha. apply Hc. left. by eapply Hco.
  - intros a [Ha|Ha]%Hc; [by apply Hso|]. exists role. split; [done|]. by exists e.
  - done.
  - intros x. rewrite elem_of_union, elem_of_singleton. intros [->|?]; [done|by apply Hdi].
Qed.

(** Leaving a role whose parents are all finished. *)
Lemma leave_inv w w1 role e :
  inv w1 → m !! role = Some e → visiting w1 = {[role]} ∪ visiting w → role ∉ visiting w →
  (∀ y, y ∈ inherits e → y ∈ visited w1) → (∀ a, a ∈ allow e → a ∈ collected w1) →
  inv (leave w1 role) ∧ visiting (leave w1 role) = visiting w.
Proof.
  intros Hw1 He Hvis Hnv Hpar Hact.
  assert (¬ tc (parent m) role role) as Hnc.
  { intros Hc. assert (role ∈ visited w1) as Hin.
    { inversion Hc as [? ? (e' & ? & ?)|? y ? (e' & ? & Hy) Hyr]; simplify_eq; [by apply Hpar|].
      eapply inv_closed_rtc; [done|by apply Hpar|by apply tc_rtc]. }
    revert Hin. apply (inv_disjoint w1 Hw1). set_solver. }
  destruct Hw1 as [Ht Hk Hcl Hco Hso Hac Hdi]. split; [|simpl; rewrite Hvis; set_solver].
  split; simpl; [done| | | |done| |].
  - intros x. rewrite !elem_of_union, elem_of_difference, elem_of_singleton.
    intros [[? _]|[->|?]]; [apply Hk; set_solver|by eexists|apply Hk; set_solver].
  - intros x y. rewrite !elem_of_union, elem_of_singleton. intros [->|Hx] Hxy.
    + destruct Hxy as (e' & ? & ?). simplify_eq. right. auto.
    + right. by eapply Hcl.
  - intros x a. rewrite elem_of_union, elem_of_singleton. intros [->|Hx] Ha; [|by eapply Hco].
    destruct Ha as (e' & ? & ?). simplify_eq. auto.
  - intros x. rewrite elem_of_union, elem_of_singleton. intros [->|Hx]; [done|by apply Hac].
  - intros x. rewrite elem_of_difference, elem_of_union, elem_of_singleton.
    intros [Hx Hne] [?|?]; [done|]. by apply (Hdi x).
Qed.

Lemma collect_Ok fuel w role w' :
  inv w → on_path w role → collect fuel m w role = Ok w' →
  extends w w' ∧ role ∈ visited w'.
Proof.
  revert w role w'. induction fuel as [|fuel IH]; intros w role w' Hw Hp; simpl; [done|].
  case_bool_decide as Hvg; [done|]. case_bool_decide as Hvd.
  { intros [= <-]. split; [by split|done]. }
  intros (e & He%ok_or_Ok & (w2 & Hfold & [= <-])%bind_Ok)%bind_Ok.
  destruct (entered_inv w role e Hw Hp Hvd He) as (Hi1 & Hvg1 & Hvd1 & Hc1).
  fold (entered w role e) in Hfold. set (w1 := entered w role e) in *.
  assert (extends w1 w2 ∧ ∀ y, y ∈ inherits e → y ∈ visited w2) as [Hext Hpar].
  { refine (try_fold_inv (collect fuel m)
      (λ seen w', extends w1 w' ∧ ∀ y, y ∈ seen → y ∈ visited w') (inherits e) w1 w2 _ _ Hfold).
    - split; [by split|set_solver].
    - intros seen x s s' Hx [Hs Hseen] Hstep.
      assert (parent m role x) as Hedge by (by exists e).
      destruct (IH s x s') as [Hs' Hx']; [by destruct Hs| |done|].
      + destruct Hp as [Hr Hpath]. split; [by eapply rtc_r|]. intros y.
        rewrite (ext_visiting _ _ Hs), Hvg1, elem_of_union, elem_of_singleton.
        intros [->|Hy]; [by apply tc_once|]. eapply tc_r; [by apply Hpath|done].
      + destruct Hs, Hs'. split; [split; [done|congruence|set_solver|auto]|set_solver]. }
  destruct Hext as [Hi2 Hvg2 Hvd2 Hc2].
  destruct (leave_inv w w2 role e) as [Hi3 Hvg3]; [done|done|by rewrite Hvg2|done|done| |].
  { intros a Ha. apply Hc2, Hc1. by right. }
  split; [split; [done|done|simpl; set_solver|]|simpl; set_solver].
  intros a Ha. simpl. apply Hc2, Hc1. by left.
Qed.

(** A parent of an entered role is on its path, whatever was finished since. *)
Lemma on_path_parent w w1 s role e x :
  on_path w role → m !! role = Some e → x ∈ inherits e →
  visiting w1 = {[role]} ∪ visiting w → extends w1 s → on_path s x.
Proof.
  intros [Hr Hpath] He Hx Hvg Hs. assert (parent m role x) as Hedge by (by exists e).
  split; [by eapply rtc_r|]. intros y.
  rewrite (ext_visiting _ _ Hs), Hvg, elem_of_union, elem_of_singleton.
  intros [->|Hy]; [by apply tc_once|]. eapply tc_r; [by apply Hpath|done].
Qed.

(** Where a traversal that does not succeed stops. *)
Lemma collect_stop fuel w role r :
  inv w → on_path w role → collect (S fuel) m w role = r → (∀ a, r ≠ Ok a) →
  (role ∈ visiting w ∧ r = Err (cycle_msg role)) ∨
  (m !! role = None ∧ r = Err (missing_msg role)) ∨
  (is_Some (m !! role) ∧ (role ∉ visiting w) ∧
   ∃ x s, inv s ∧ on_path s x ∧ visiting s = {[role]} ∪ visiting w ∧ collect fuel m s x = r).
Proof.
  intros Hw Hp. simpl. case_bool_decide as Hvg; [naive_solver|].
  case_bool_decide as Hvd; [naive_solver|].
  destruct (m !! role) as [e|] eqn:He; simpl; [|naive_solver]. intros Hr Hne.
  right; right. split; [done|]. split; [done|].
  destruct (entered_inv w role e Hw Hp Hvd He) as (Hi1 & Hvg1 & Hvd1 & Hc1).
  fold (entered w role e) in Hr. set (w1 := entered w role e) in *.
  destruct (try_fold (collect fuel m) (inherits e) w1) as [w2|err|why] eqn:Hfold;
    [by subst; destruct (Hne (leave w2 role))|..]; subst r.
  all: destruct (try_fold_stop _ (extends w1) _ _ _ ltac:(by split)
    ltac:(intros x s s' Hx Hs Hstep;
          destruct (collect_Ok fuel s x s') as [Hs' _];
            [by destruct Hs|by eapply on_path_parent|done|];
          destruct Hs, Hs'; split; [done|congruence|set_solver|auto]) Hfold)
    as (x & s & Hx & Hs & Hstop); [done|].
  all: exists x, s; split_and!; [by destruct Hs|by eapply on_path_parent| |done];
    by rewrite (ext_visiting _ _ Hs).
Qed.

Lemma collect_Err fuel w role err :
  inv w → on_path w role → collect fuel m w role = Err err →
  ∃ x, rtc (parent m) target x ∧
    ((err = cycle_msg x ∧ tc (parent m) x x) ∨ (err = missing_msg x ∧ m !! x = None)).
Proof.
  revert w role. induction fuel as [|fuel IH]; intros w role Hw Hp; [done|]. intros Hc.
  apply collect_stop in Hc as [[Hv ?]|[[Hn ?]|(_ & _ & x & s & Hs & Hx & _ & Hstop)]];
    [..|by eapply IH|done|done|done].
  - simplify_eq. exists role. destruct Hp as [Hr Hpath]. split; [done|]. left. auto.
  - simplify_eq. exists role. destruct Hp as [Hr Hpath]. split; [done|]. by right.
Qed.

Lemma collect_not_Stuck fuel w role why :
  inv w → on_path w role → size m < fuel + size (visiting w) →
  collect fuel m w role ≠ Stuck why.
Proof.
  revert w role. induction fuel as [|fuel IH]; intros w role Hw Hp Hsz.
  { assert (size (visiting w) ≤ size m); [|lia]. rewrite <-(size_dom m).
    apply subseteq_size. intros x Hx. apply elem_of_dom, (inv_known w Hw). set_solver. }
  intros Hc. apply collect_stop in Hc
    as [[_ ?]|[[_ ?]|(_ & Hnv & x & s & Hs & Hx & Hvg & Hstop)]]; [done|done|..|done|done|done].
  revert Hstop. apply IH; [done..|]. rewrite Hvg, size_union, size_singleton by set_solver. lia.
Qed.

Lemma walker_inv_new : inv walker_new.
Proof. split; simpl; try set_solver. split; simpl; [constructor|set_solver]. Qed.
Lemma on_path_new : on_path walker_new target.
Proof. split; [done|set_solver]. Qed.
End walk.

(** What a successful resolution says about the graph. *)
Lemma resolve_Ok entries target acts : resolve_inherits entries target = Ok acts →
  let m := rbac_map entries in
  NoDup acts ∧
  (∀ x, rtc (parent m) target x → is_Some (m !! x) ∧ ¬ tc (parent m) x x) ∧
  ∀ a, a ∈ acts ↔ ∃ x, rtc (parent m) target x ∧ grants m x a.
Proof.
  unfold resolve_inherits. cbv zeta. set (m := rbac_map entries). case_match; [done|].
  intros (w & Hc & ->)%fmap_Ok.
  destruct (collect_Ok m target _ _ _ _ (walker_inv_new m target) (on_path_new m target) Hc)
    as [[Hw _ _ _] Ht].
  split; [apply Hw|]. split.
  - intros x Hx. assert (x ∈ visited w) by (by eapply inv_closed_rtc).
    split; [apply (inv_known m target w Hw); set_solver|by eapply inv_acyclic].
  - intros a. split; [by apply inv_sound|]. intros (x & Hx & Ha).
    apply (inv_collected m target w Hw x); [|done]. by eapply inv_closed_rtc.
Qed.
End RbacFacts.

(** C16: Inheritance resolution.  [resolve_inherits] terminates on every role
    graph, diamonds and cycles included.  It succeeds exactly when the target
    exists, every role reachable from it exists and none of them inherits
    itself; the result then has no duplicates and is exactly the union of the
    reachable roles' allow lists.  Otherwise the error names a missing target,
    a missing reachable role, or a reachable role on a cycle. *)
Theorem resolve_inherits_exact entries target :
  let m := Rbac.rbac_map entries in
  (∃ acts, Rbac.resolve_inherits entries target = Ok acts ∧ NoDup acts ∧
     (∀ x, rtc (Rbac.parent m) target x → is_Some (m !! x) ∧ ¬ tc (Rbac.parent m) x x) ∧
     ∀ a, a ∈ acts ↔ ∃ x, rtc (Rbac.parent m) target x ∧ Rbac.grants m x a) ∨
  (m !! target = None ∧
   Rbac.resolve_inherits entries target = Err ("RBAC role '" +:+ target +:+ "' not found")) ∨
  (∃ x, rtc (Rbac.parent m) target x ∧
     ((Rbac.resolve_inherits entries target = Err (Rbac.cycle_msg x) ∧
       tc (Rbac.parent m) x x) ∨
      (Rbac.resolve_inherits entries target = Err (Rbac.missing_msg x) ∧ m !! x = None))).
Proof.
  simpl. unfold Rbac.resolve_inherits. set (m := Rbac.rbac_map entries).
  destruct (m !! target) as [e|] eqn:He.
  2: { right; left. split; [done|]. rewrite bool_decide_eq_false_2; [done|].
       by intros [? [=]]. }
  rewrite bool_decide_eq_true_2 by (by eexists). simpl negb.
  pose proof (RbacFacts.walker_inv_new m target) as Hi. pose proof (RbacFacts.on_path_new m target) as Hp.
  destruct (Rbac.collect _ m _ target) as [w|err|why] eqn:Hc.
  - left. eexists. split; [done|]. apply (RbacFacts.resolve_Ok entries target).
    unfold Rbac.resolve_inherits. fold m. rewrite He, bool_decide_eq_true_2 by (by eexists).
    by rewrite Hc.
  - right; right. destruct (RbacFacts.collect_Err _ _ _ _ _ _ Hi Hp Hc)
      as (x & Hx & [[-> ?]|[-> ?]]); exists x; auto.
  - apply (RbacFacts.collect_not_Stuck m target) in Hc as []; [done..|]. lia.
Qed.

(** * Facts about compilation *)
Module CompileFacts.
Import Rbac.

Lemma validate_Ok v label :
  validate_cedar_ident v label = Ok () ↔
  v ≠ "" ∧ contains_char quote v = false ∧ contains_char backslash v = false ∧
  has_control v = false.
Proof.
  unfold validate_cedar_ident. destruct v as [|a v]; [naive_solver|]. cbn [is_empty].
  destruct (contains_char quote _), (contains_char backslash _), (has_control _); naive_solver.
Qed.
Lemma validate_not_Stuck v label w : validate_cedar_ident v label ≠ Stuck w.
Proof. unfold validate_cedar_ident. by repeat case_match. Qed.

(** What compilation accepts. *)
Record compilable (e : RbacEntry) (tenant : TenantConfig) : Prop := {
  comp_name : validate_cedar_ident (name e) "role name" = Ok ();
  comp_allow : allow e ≠ [];
  comp_actions a : a ∈ allow e → validate_cedar_ident a "action" = Ok ();
  comp_tenant : tenant_scoped e && enabled tenant = true →
    validate_cedar_ident (principal_attribute tenant) "tenant principal_attribute" = Ok () ∧
    validate_cedar_ident (resource_attribute tenant) "tenant resource_attribute" = Ok ();
}.
Lemma compile_Ok e tenant ns s :
  compile_rbac_to_cedar e tenant ns = Ok s ↔ compilable e tenant ∧ s = statement e tenant ns.
Proof.
  unfold compile_rbac_to_cedar. split.
  - intros ([] & Hn & ([] & Ha & ([] & Hacts & ([] & Ht & [= <-])%bind_Ok)%bind_Ok)%bind_Ok)%bind_Ok.
    split; [|done]. split; [done| |by apply for_each_Ok|].
    + intros Hnil. by rewrite bool_decide_eq_true_2 in Ha.
    + intros Hten. rewrite Hten in Ht. by apply bind_Ok in Ht as ([] & ? & ?).
  - intros [[Hn Ha Hacts Ht] ->]. rewrite Hn. cbn [mbind result_bind].
    rewrite bool_decide_eq_false_2 by done. cbn [mbind result_bind].
    rewrite (proj2 (for_each_Ok _ _) Hacts). cbn [mbind result_bind].
    destruct (tenant_scoped e && enabled tenant) eqn:Hten; [|done].
    destruct (Ht eq_refl) as [-> ->]. done.
Qed.
Lemma compile_not_Stuck e tenant ns w : compile_rbac_to_cedar e tenant ns ≠ Stuck w.
Proof.
  unfold compile_rbac_to_cedar.
  destruct (validate_cedar_ident (name e) _) eqn:H1; [|done|by apply validate_not_Stuck in H1].
  cbn [mbind result_bind]. case_bool_decide; [done|]. cbn [mbind result_bind].
  destruct (for_each _ (allow e)) eqn:H2; [|done|].
  2: { intros _. apply for_each_stop in H2 as (x & _ & Hx); [|done].
       by apply validate_not_Stuck in Hx. }
  cbn [mbind result_bind]. destruct (tenant_scoped e && enabled tenant); [|done].
  destruct (validate_cedar_ident (principal_attribute tenant) _) eqn:H3;
    [|done|by apply validate_not_Stuck in H3]. cbn [mbind result_bind].
  destruct (validate_cedar_ident (resource_attribute tenant) _) eqn:H4;
    [done|done|by apply validate_not_Stuck in H4].
Qed.

(** A quoted word is read back up to its closing quote. *)
Lemma action_ref_inj ns a b r r' :
  contains_char quote a = false → contains_char quote b = false →
  action_ref ns a +:+ r = action_ref ns b +:+ r' → a = b ∧ r = r'.
Proof.
  intros Ha Hb. unfold action_ref. rewrite !str_app_assoc.
  intros H%str_app_inj_l%str_app_inj_l. rewrite !str_app_cons in H. injection H as H.
  rewrite !str_app_assoc, !str_one in H. by apply sep_inj in H.
Qed.
Lemma action_list_inj ns l l' r r' :
  l ≠ [] → l' ≠ [] →
  (∀ a, a ∈ l → contains_char quote a = false) →
  (∀ a, a ∈ l' → contains_char quote a = false) →
  join ", " (action_ref ns <$> l) +:+ String "]" r =
  join ", " (action_ref ns <$> l') +:+ String "]" r' → l = l' ∧ r = r'.
Proof.
  revert l'. induction l as [|a l IH]; intros [|b l'] Hl Hl' Hq Hq'; [done..|].
  cbn [fmap list_fmap]. change (list_fmap _ _ (action_ref ns)) with (fmap (M:=list) (action_ref ns)).
  intros H. destruct l as [|a2 l], l' as [|b2 l'].
  - rewrite !join_singleton in H. apply action_ref_inj in H as [-> H]; [|apply Hq; left|apply Hq'; left].
    by simplify_eq/=.
  - rewrite join_singleton in H. cbn [fmap list_fmap] in H. rewrite join_cons in H by done.
    rewrite !str_app_assoc in H.
    apply action_ref_inj in H as [_ H]; [|apply Hq; left|apply Hq'; left]. done.
  - rewrite join_singleton in H. cbn [fmap list_fmap] in H. rewrite join_cons in H by done.
    rewrite !str_app_assoc in H.
    apply action_ref_inj in H as [_ H]; [|apply Hq; left|apply Hq'; left]. done.
  - rewrite !join_cons in H by done. rewrite !str_app_assoc in H.
    apply action_ref_inj in H as [-> H]; [|apply Hq; left|apply Hq'; left].
    apply str_app_inj_l in H.
    destruct (IH (b2 :: l')) as [Heq ->]; [done|done|set_solver|set_solver|done|].
    by rewrite Heq.
Qed.

Lemma scope_clause_inj e e' tenant :
  scope_clause e tenant = scope_clause e' tenant →
  tenant_scoped e && enabled tenant = tenant_scoped e' && enabled tenant.
Proof.
  unfold scope_clause.
  by destruct (tenant_scoped e && enabled tenant), (tenant_scoped e' && enabled tenant).
Qed.
End CompileFacts.

(** Two roles, one inheriting the other, and one inheriting itself. *)
Module RbacSample.
Definition viewer : Rbac.RbacEntry :=
  {| Rbac.name := "viewer"; Rbac.description := None; Rbac.inherits := [];
     Rbac.allow := ["todo:list:read"]; Rbac.tenant_scoped := true |}.
Definition editor : Rbac.RbacEntry :=
  {| Rbac.name := "editor"; Rbac.description := None; Rbac.inherits := ["viewer"];
     Rbac.allow := ["todo:list:write"]; Rbac.tenant_scoped := true |}.
Definition looping : Rbac.RbacEntry :=
  {| Rbac.name := "looping"; Rbac.description := None; Rbac.inherits := ["looping"];
     Rbac.allow := ["todo:list:write"]; Rbac.tenant_scoped := true |}.
End RbacSample.

(** Compiled permits are unambiguous: when two roles compile to the same
    Cedar statement under one namespace and tenant configuration, they have
    the same group name, the same action list in the same order and the same
    tenant scoping; no name or action can be crafted to imitate another
    role's statement. *)
Theorem compile_rbac_unambiguous e e' tenant ns s :
  Rbac.compile_rbac_to_cedar e tenant ns = Ok s →
  Rbac.compile_rbac_to_cedar e' tenant ns = Ok s →
  Rbac.name e = Rbac.name e' ∧ Rbac.allow e = Rbac.allow e' ∧
  Rbac.tenant_scoped e && Rbac.enabled tenant = Rbac.tenant_scoped e' && Rbac.enabled tenant.
Proof.
  rewrite !CompileFacts.compile_Ok. intros [[Hn Ha Hacts _] ->] [[Hn' Ha' Hacts' _] H].
  unfold Rbac.statement in H. do 4 apply str_app_inj_l in H. apply str_app_inj_l in H.
  injection H as H. apply CompileFacts.validate_Ok in Hn as (_ & Hq & _), Hn' as (_ & Hq' & _).
  apply sep_inj in H as [Hname H]; [|done..]. injection H as H.
  apply CompileFacts.action_list_inj in H as [Hallow H]; [|done|done|..].
  - injection H as H. by apply CompileFacts.scope_clause_inj in H.
  - intros a Hin. by apply Hacts, CompileFacts.validate_Ok in Hin as (_ & ? & _).
  - intros a Hin. by apply Hacts', CompileFacts.validate_Ok in Hin as (_ & ? & _).
Qed.

(** Witness: the viewer role. *)
Lemma compile_rbac_unambiguous_witness :
  ∃ s, Rbac.compile_rbac_to_cedar RbacSample.viewer Rbac.tenant_default "ns" = Ok s ∧
       Rbac.name RbacSample.viewer = Rbac.name RbacSample.viewer.
Proof.
  assert (Rbac.compile_rbac_to_cedar RbacSample.viewer Rbac.tenant_default "ns" =
          Ok (Rbac.statement RbacSample.viewer Rbac.tenant_default "ns")) as E by reflexivity.
  eexists. split; [exact E|].
  apply (compile_rbac_unambiguous _ _ Rbac.tenant_default "ns" _ E E).
Defined.

(** * Facts about permits and validation *)
Module PermitFacts.
Import Rbac Permits.

#[global] Instance name_le_trans : Transitive name_le.
Proof. intros a b c. unfold name_le. apply transitivity. Qed.
#[global] Instance name_le_total : Total name_le.
Proof. intros a b. unfold name_le. apply total, _. Qed.

Lemma compile_one_Ok ns tenant e p :
  compile_one ns tenant e = Ok p ↔
  permit_name p = policy_name_for_group (name e) ∧
  compile_rbac_to_cedar e tenant ns = Ok (permit_statement p).
Proof.
  unfold compile_one. destruct (compile_rbac_to_cedar e tenant ns) as [s| |]; simpl; destruct p; naive_solver.
Qed.

Lemma mapM_stop {E A B} (f : A → result E B) l r :
  mapM f l = r → (∀ k, r ≠ Ok k) →
  ∃ x, x ∈ l ∧ match r with Err e => f x = Err e | Stuck w => f x = Stuck w | Ok _ => False end.
Proof.
  revert r. induction l as [|x l IH]; intros r Hr Hne; simpl in Hr; [naive_solver|].
  destruct (f x) as [y|e|w] eqn:Hx; simpl in Hr.
  - destruct (mapM f l) as [k|e|w] eqn:Hl; simpl in Hr; [naive_solver|..]; subst r;
      (destruct (IH _ eq_refl) as (z & Hz & Hfz); [done|]; exists z; split; [by right|done]).
  - subst r. exists x. split; [left|done].
  - subst r. exists x. split; [left|done].
Qed.
End PermitFacts.

(** [groups_to_permits] either compiles every group, once each and in name
    order, each permit named after its group and holding that group's
    statement, or fails as a whole with the name and reason of a group that
    does not compile; it never returns a partial list. *)
Theorem groups_to_permits_exact entries ns tenant :
  (∃ ps sorted, Permits.groups_to_permits entries ns tenant = Ok ps ∧
     sorted ≡ₚ entries ∧ StronglySorted Permits.name_le sorted ∧
     Forall2 (λ e p, Permits.permit_name p = Permits.policy_name_for_group (Rbac.name e) ∧
                     Rbac.compile_rbac_to_cedar e tenant ns = Ok (Permits.permit_statement p))
       sorted ps) ∨
  (∃ e reason, e ∈ entries ∧ Rbac.compile_rbac_to_cedar e tenant ns = Err reason ∧
     Permits.groups_to_permits entries ns tenant =
       Err {| Permits.entry_name := Rbac.name e; Permits.reason := reason |}).
Proof.
  unfold Permits.groups_to_permits.
  destruct (mapM _ _) as [ps|err|w] eqn:Hm.
  - left. exists ps, (merge_sort Permits.name_le entries).
    split; [done|]. split; [apply merge_sort_Permutation|].
    split; [apply StronglySorted_merge_sort; apply _|].
    apply mapM_Ok in Hm. eapply Forall2_impl; [done|]. intros e p. simpl.
    by rewrite PermitFacts.compile_one_Ok.
  - right. apply PermitFacts.mapM_stop in Hm as (e & He & Hf); [|done].
    rewrite merge_sort_Permutation in He. unfold Permits.compile_one in Hf.
    destruct (Rbac.compile_rbac_to_cedar e tenant ns) as [s|reason|] eqn:Hc; simpl in Hf; try done.
    exists e, reason. split_and!; [done..|]. congruence.
  - apply PermitFacts.mapM_stop in Hm as (e & He & Hf); [|done].
    unfold Permits.compile_one in Hf.
    destruct (Rbac.compile_rbac_to_cedar e tenant ns) as [s|reason|] eqn:Hc; simpl in Hf; try done.
    by apply CompileFacts.compile_not_Stuck in Hc.
Qed.

Module ValidationFacts.
Import Rbac Validation.

(** Bytes that need no escaping in a Cedar string. *)
Definition plain_byte (a : ascii) : bool := is_ascii_graphic a && negb (Ascii.eqb a quote) &&
  negb (Ascii.eqb a backslash).
Lemma plain_no_control s : str_all plain_byte s = true → has_control s = false.
Proof.
  induction s as [|a s IH]; [done|]. simpl. intros [Ha Hs]%andb_true_iff. rewrite IH by done.
  rewrite orb_false_r.
  assert ((byte_val a <? 32)%N = false ∧ (byte_val a =? 127)%N = false ∧
          (byte_val a =? 194)%N = false) as (-> & -> & ->).
  { revert Ha. clear. revert a. all_bytes. }
  done.
Qed.
Lemma plain_valid s label :
  s ≠ "" → str_all plain_byte s = true → validate_cedar_ident s label = Ok ().
Proof.
  intros Hne Hs. apply CompileFacts.validate_Ok. split_and!; [done|..|by apply plain_no_control].
  - by apply (str_all_not_contains plain_byte).
  - by apply (str_all_not_contains plain_byte).
Qed.
Lemma name_plain s : GROUP_NAME_RE s = true → s ≠ "" ∧ str_all plain_byte s = true.
Proof.
  destruct s as [|a s]; [done|]. cbn [GROUP_NAME_RE str_all]. intros [Ha Hs]%andb_true_iff.
  split; [done|]. apply andb_true_iff. split.
  - revert Ha. clear. revert a. all_bytes.
  - eapply str_all_impl, Hs. all_bytes.
Qed.
Lemma action_plain s : ACTION_FORMAT_RE s = true → s ≠ "" ∧ str_all plain_byte s = true.
Proof.
  unfold ACTION_FORMAT_RE. pose proof (join_split ":" s) as Hj.
  destruct (split ":" s) as [|a [|b [|c [|]]]]; try done.
  intros [[Ha Hb]%andb_true_iff Hc]%andb_true_iff.
  apply name_plain in Ha as [? Ha], Hb as [? Hb], Hc as [? Hc].
  rewrite <-Hj. rewrite !join_cons, join_singleton by done.
  rewrite !str_all_app, Ha, Hb, Hc. split; [|done]. by destruct a.
Qed.

Lemma validate_rbac_Ok p all v :
  validate_rbac_entry p all = Ok v →
  v = p ∧ GROUP_NAME_RE (name p) = true ∧ allow p ≠ [] ∧
  (∀ d, description p = Some d → String.length d ≤ 1024) ∧
  (∀ a, a ∈ allow p → ACTION_FORMAT_RE a = true) ∧
  ∃ acts, resolve_inherits all (name p) = Ok acts.
Proof.
  unfold validate_rbac_entry. intros ([] & Hn & ([] & Ha & ([] & Hd & ([] & Hacts &
    (acts & Hr%map_err_Ok & [= <-])%bind_Ok)%bind_Ok)%bind_Ok)%bind_Ok)%bind_Ok.
  split_and!; [done|..|by exists acts].
  - unfold validate_group_name in Hn. by destruct (GROUP_NAME_RE (name p)).
  - intros Hnil. by rewrite bool_decide_eq_true_2 in Ha.
  - intros d Hdesc. rewrite Hdesc in Hd. destruct (1024 <? String.length d)%nat eqn:Hl; [done|].
    by apply Nat.ltb_ge in Hl.
  - rewrite for_each_Ok in Hacts. intros a Hin. specialize (Hacts a Hin).
    unfold validate_action_format in Hacts. by destruct (ACTION_FORMAT_RE a).
Qed.
End ValidationFacts.

(** Validation guards compilation: a group write that [validate_rbac_entry]
    accepts (well-formed name and actions, non-empty allow list, resolvable
    inheritance among the groups after the write) is returned unchanged, and
    compiles to a Cedar permit under the default tenant configuration in
    every namespace. *)
Theorem validated_entry_compiles p all v ns :
  Validation.validate_rbac_entry p all = Ok v →
  v = p ∧
  Rbac.compile_rbac_to_cedar v Rbac.tenant_default ns =
    Ok (Rbac.statement v Rbac.tenant_default ns) ∧
  ∃ acts, Rbac.resolve_inherits all (Rbac.name v) = Ok acts.
Proof.
  intros (-> & Hn & Ha & _ & Hacts & Hr)%ValidationFacts.validate_rbac_Ok.
  split_and!; [done| |done]. apply CompileFacts.compile_Ok. split; [|done]. split; [|done|..].
  - apply ValidationFacts.name_plain in Hn as [??]. by apply ValidationFacts.plain_valid.
  - intros a Hin. apply Hacts, ValidationFacts.action_plain in Hin as [??].
    by apply ValidationFacts.plain_valid.
  - intros _. split; by apply ValidationFacts.plain_valid.
Qed.

(** Witness: the editor role, which inherits the viewer role. *)
Lemma validated_entry_compiles_witness :
  Validation.validate_rbac_entry RbacSample.editor [RbacSample.viewer; RbacSample.editor] =
    Ok RbacSample.editor ∧
  Rbac.compile_rbac_to_cedar RbacSample.editor Rbac.tenant_default "ns" =
    Ok (Rbac.statement RbacSample.editor Rbac.tenant_default "ns").
Proof.
  assert (Validation.validate_rbac_entry RbacSample.editor [RbacSample.viewer; RbacSample.editor] =
          Ok RbacSample.editor) as E by (vm_compute; reflexivity).
  split; [exact E|]. apply (validated_entry_compiles _ _ _ "ns" E).
Defined.

(** A rejected inheritance is classified by what is wrong with the graph:
    when the fields are fine and resolution fails, the error is
    [InheritCycle] exactly for a cycle reachable from the group, and
    [UnknownInherit] for a role that does not exist. *)
Theorem inherit_errors_classified all target e :
  Rbac.resolve_inherits all target = Err e →
  let m := Rbac.rbac_map all in
  (Validation.map_resolve_err e = Validation.InheritCycle e ∧
   ∃ x, rtc (Rbac.parent m) target x ∧ tc (Rbac.parent m) x x) ∨
  (Validation.map_resolve_err e = Validation.UnknownInherit e ∧
   ∃ x, rtc (Rbac.parent m) target x ∧ m !! x = None).
Proof.
  simpl. unfold Rbac.resolve_inherits. set (m := Rbac.rbac_map all).
  destruct (decide (is_Some (m !! target))) as [Hs|Hs].
  - rewrite bool_decide_eq_true_2 by done. cbn [negb].
    destruct (Rbac.collect _ m _ target) as [w|err|why] eqn:Hc; [done| |done]. intros [= <-].
    destruct (RbacFacts.collect_Err m target _ _ _ _ (RbacFacts.walker_inv_new m target)
      (RbacFacts.on_path_new m target) Hc) as (x & Hx & [[-> ?]|[-> ?]]); [left|right]; eauto.
  - rewrite bool_decide_eq_false_2 by done. simpl. intros [= <-]. right. split; [done|].
    exists target. split; [done|]. by apply eq_None_not_Some.
Qed.

(** Witness: a role that inherits itself. *)
Lemma inherit_errors_classified_witness :
  ∃ e, Rbac.resolve_inherits [RbacSample.looping] "looping" = Err e ∧
    Validation.map_resolve_err e = Validation.InheritCycle e ∧
    ∃ x, tc (Rbac.parent (Rbac.rbac_map [RbacSample.looping])) x x.
Proof.
  assert (Rbac.resolve_inherits [RbacSample.looping] "looping" =
          Err (Rbac.cycle_msg "looping")) as E by (vm_compute; reflexivity).
  eexists. split; [exact E|].
  destruct (inherit_errors_classified _ _ _ E) as [[Hm (x & _ & Hx)]|[Hm _]].
  - split; [exact Hm|]. exists x. exact Hx.
  - vm_compute in Hm. discriminate Hm.
Defined.

