(* ===== verification/EventStore.v ===== *)
(** The model event store of the control plane
    ([control-plane/src/model_event_store]): the in-memory implementation
    ([in_memory.rs]), the signed-envelope builder ([support.rs]), promotion
    payloads ([promotion_store.rs]) and revision-pinned reads by paged replay
    ([mod.rs], [fold_at]).  The store keeps, per organization, an event log
    and live state maps; the main theorem says that replaying the log gives
    exactly the live state. *)

From S2P Require Import Prelude RustStr Ident Fgrn Store Event Org Rbac.
From stdpp Require Import pretty.

(** [Display] of the errors the store embeds in its messages. *)
Definition authz_error_str (e : AuthzError.t) : string :=
  match e with
  | AuthzError.EvaluationFailed m => "policy evaluation failed: " +:+ m
  | AuthzError.UnknownRevision r l =>
      "unknown revision " +:+ pretty r +:+ " (latest is " +:+ pretty l +:+ ")"
  | AuthzError.UnknownEntity x => "unknown entity: " +:+ x
  | AuthzError.Core e => core_error_str e
  | AuthzError.InvalidPolicy m => "invalid policy: " +:+ m
  | AuthzError.ChainActorMismatch p a =>
      "chain actor mismatch: query principal " +:+ p +:+ ", chain actor " +:+ a
  | AuthzError.UnknownEventKind k => "unknown event kind: " +:+ k
  | AuthzError.InvalidEventId m => "invalid event id: " +:+ m
  | AuthzError.UnfoldableEvent s r => "unfoldable event at seq " +:+ pretty s +:+ ": " +:+ r
  | AuthzError.InvalidScopePath m => "invalid scope path: " +:+ m
  end.
Definition store_err (e : AuthzError.t) : CpError.t := CpError.Store (authz_error_str e).

(** * Promotion payloads *)
Module PromotionStore.
Record PromotionEntry := { entry_fgrn : string; entry_native_id : string }.

Definition promotion_fgrn (org_id : string) (resource_type : Segment.t) (native_id : NativeId.t)
    : result CpError.t Fgrn.t :=
  org ← map_err (λ e, CpError.Store ("org id is not a valid FGRN segment: " +:+ core_error_str e))
          (Segment.try_new org_id);
  map_err (λ e, CpError.Store (core_error_str e)) (Fgrn.resource org resource_type native_id).

Definition promotion_event_payload (fgrn : Fgrn.t) (resource_type : Segment.t)
    (native_id : NativeId.t) : Json.t :=
  Json.object [("fgrn", Json.String (Fgrn.to_string fgrn));
               ("resource_type", Json.String (Segment.as_str resource_type));
               ("native_id", Json.String (NativeId.as_str native_id))].
End PromotionStore.

(** * Paged replay *)

(** [ModelEventStore::fold_at] is a default method of the trait: it is
    written against the two reads it calls, for any store. *)
Module Replay.
Section replay.
Context {S : Type}.
Context (latest_revision : string → M S CpError.t Revision.t).
Context (events_after : string → Revision.t → nat → M S CpError.t (list Envelope.t)).

Definition FOLD_PAGE_SIZE : nat := 100.

(** The paging loop, bounded by [fuel]. *)
Fixpoint fetch_pages (fuel : nat) (org_id : string) (target : Revision.t)
    (after : Revision.t) (events : list Envelope.t) : M S CpError.t (list Envelope.t) :=
  match fuel with
  | 0 => lift (Stuck "fold_at: loop bound")
  | Datatypes.S fuel =>
      page ← events_after org_id after FOLD_PAGE_SIZE;
      match last page with
      | None => mret events
      | Some last =>
          let after := Envelope.seq last in
          let exhausted := bool_decide (length page < FOLD_PAGE_SIZE) in
          let events := events ++ page in
          if exhausted || bool_decide (Revision.value target ≤ Revision.value after)%N
          then mret events
          else fetch_pages fuel org_id target after events
      end
  end.

Definition fold_at (fuel : nat) (org_id : string) (at_rev : option Revision.t)
    : M S CpError.t Fold.FoldedState :=
  latest ← latest_revision org_id;
  let replay target :=
    events ← fetch_pages fuel org_id target (Revision.new 0) [];
    lift (map_err store_err (Fold.fold_events events target)) in
  match at_rev with
  | Some revision => replay revision
  | None =>
      if bool_decide (Revision.value latest = 0%N) then mret Fold.empty else replay latest
  end.
End replay.
End Replay.

Module EventStore.
Section store.
(** Serialization ([serde_json::to_vec], [to_value]), the digest and the
    signature are libraries; the configuration type is opaque here. *)
Context (to_vec : Json.t → string) (sha256_hex sign_b64 : string → string).
Context {OrgConfig : Type}.
Context (org_value : Organization.t → result string Json.t).
Context (config_value : OrgConfig → result string Json.t).
Context (keys_value : list SigningKey.entry → result string Json.t).
Context (group_value : Rbac.RbacEntry → result string Json.t).

Record ConfiguredConfig := { cc_config : OrgConfig; cc_etag : Etag.t }.
Record OrgRecord := { org : Organization.t; configured : option ConfiguredConfig }.
Definition config (r : OrgRecord) : option OrgConfig := cc_config <$> configured r.

Definition org_payload (r : OrgRecord) : result CpError.t Json.t :=
  organization ← map_err (λ e, CpError.Store ("serialize organization: " +:+ e))
                   (org_value (org r));
  config ← match config r with
           | Some c => Some <$> map_err (λ e, CpError.Store ("serialize org config: " +:+ e))
                                  (config_value c)
           | None => Ok None
           end;
  Ok (Fold.org_event_payload organization config).

(** What the shell provides to one append: a fresh event id and the time. *)
Record stamp := { ulid : string; occurred_at : string }.

Definition IN_MEMORY_KEY_ID : string := "in-memory-test-key".

Definition build_model_event (st : stamp) (org_id : string) (kind : EventKind.t)
    (actor : Envelope.Actor) (payload : Json.t) (key_id : string) (revision : Revision.t)
    : result CpError.t (Envelope.t * string) :=
  event_id ← expect_ok (Envelope.event_id_try_new (ulid st)) "ulid string is always non-empty";
  let draft := Envelope.draft_new {|
    Envelope.p_event_id := event_id; Envelope.p_seq := revision; Envelope.p_kind := kind;
    Envelope.p_occurred_at := occurred_at st; Envelope.p_actor := actor;
    Envelope.p_payload := payload |} in
  let payload_bytes := to_vec payload in
  let canonical := Canonical.canonical_event_bytes to_vec sha256_hex draft org_id in
  Ok (Envelope.from_signed draft key_id (sign_b64 canonical), payload_bytes).

(** The maps behind the store's locks. *)
Record t := mk {
  principals : gmap (string * NativeId.t) Json.t;
  logs : gmap string InMemoryEventLog.t;
  promotions : gmap (string * string * string) string;
  orgs : gmap string OrgRecord;
  signing_keys : gmap string (list SigningKey.entry);
  groups : gmap (string * string) Rbac.RbacEntry;
}.
Definition new : t := mk ∅ ∅ ∅ ∅ ∅ ∅.

Definition with_principals f (s : t) : t :=
  mk (f (principals s)) (logs s) (promotions s) (orgs s) (signing_keys s) (groups s).
Definition with_logs f (s : t) : t :=
  mk (principals s) (f (logs s)) (promotions s) (orgs s) (signing_keys s) (groups s).
Definition with_promotions f (s : t) : t :=
  mk (principals s) (logs s) (f (promotions s)) (orgs s) (signing_keys s) (groups s).
Definition with_orgs f (s : t) : t :=
  mk (principals s) (logs s) (promotions s) (f (orgs s)) (signing_keys s) (groups s).
Definition with_keys f (s : t) : t :=
  mk (principals s) (logs s) (promotions s) (orgs s) (f (signing_keys s)) (groups s).
Definition with_groups f (s : t) : t :=
  mk (principals s) (logs s) (promotions s) (orgs s) (signing_keys s) (f (groups s)).

Abbreviation op A := (M t CpError.t A).

(** The organization's log, created empty on first use. *)
Definition log_for (org_id : string) : op InMemoryEventLog.t := λ s,
  match logs s !! org_id with
  | Some log => (s, Ok log)
  | None => (with_logs <[org_id := InMemoryEventLog.new]> s, Ok InMemoryEventLog.new)
  end.
Definition push (org_id : string) (e : Envelope.t) : op () :=
  modify (with_logs (alter (λ log, InMemoryEventLog.push log e) org_id)).

Definition latest_revision (org_id : string) : op Revision.t :=
  log ← log_for org_id;
  lift (map_err store_err (InMemoryEventLog.latest_revision log)).
Definition events_after (org_id : string) (after : Revision.t) (limit : nat)
    : op (list Envelope.t) :=
  log ← log_for org_id;
  lift (map_err store_err (InMemoryEventLog.events_after log after limit)).

Definition mint_and_push (st : stamp) (org_id : string) (kind : EventKind.t)
    (actor : Envelope.Actor) (payload : Json.t) : op Revision.t :=
  log ← log_for org_id;
  current ← lift (map_err store_err (InMemoryEventLog.latest_revision log));
  let revision := Revision.next current in
  built ← lift (build_model_event st org_id kind actor payload IN_MEMORY_KEY_ID revision);
  _ ← push org_id built.1;
  mret revision.

Definition check_expected_revision (current : Revision.t) (expected : option Revision.t)
    : result CpError.t () :=
  match expected with
  | Some e =>
      if negb (bool_decide (current = e))
      then Err (CpError.RevisionMismatch (Revision.value current))
      else Ok ()
  | None => Ok ()
  end.

Definition record_id (r : OrgRecord) : string := Id.as_str (Organization.org_id (org r)).

Definition append_org_state (st : stamp) (record : OrgRecord) (kind : EventKind.t)
    (actor : Envelope.Actor) (expected : option Revision.t) : op Revision.t :=
  let org_id := record_id record in
  current ← latest_revision org_id;
  _ ← lift (check_expected_revision current expected);
  payload ← lift (org_payload record);
  revision ← mint_and_push st org_id kind actor payload;
  _ ← modify (with_orgs <[org_id := record]>);
  mret revision.

Definition append_org_keys (st : stamp) (org_id : string) (kind : EventKind.t)
    (actor : Envelope.Actor)
    (transition : list SigningKey.entry → SigningKey.transition_result)
    : op (option Revision.t) :=
  known ← gets (λ s, bool_decide (is_Some (orgs s !! org_id)));
  if negb known
  then lift (Err (CpError.NotFound ("organization '" +:+ org_id +:+ "' not found")))
  else
    existing ← gets (λ s, default [] (signing_keys s !! org_id));
    outcome ← lift (transition existing);
    match outcome with
    | None => mret None
    | Some (affected, new_keys) =>
        keys_json ← lift (map_err (λ e, CpError.Store ("serialize signing_keys: " +:+ e))
                            (keys_value new_keys));
        let payload := Fold.key_event_payload affected keys_json in
        revision ← mint_and_push st org_id kind actor payload;
        _ ← modify (with_keys <[org_id := new_keys]>);
        mret (Some revision)
    end.

(** ** The trait's operations *)

Definition get_principal (org_id : string) (native_id : NativeId.t) : op (option Json.t) :=
  gets (λ s, principals s !! (org_id, native_id)).

Definition upsert_changed (st : stamp) (org_id : string) (native_id : NativeId.t)
    (actor : Envelope.Actor) (payload : Json.t) : op Revision.t :=
  let event_payload := Fold.principal_event_payload native_id payload in
  revision ← mint_and_push st org_id EventKind.PrincipalUpserted actor event_payload;
  _ ← modify (with_principals <[(org_id, native_id) := payload]>);
  mret revision.

Definition promotion_key (org_id : string) (rt : Segment.t) (n : NativeId.t)
    : string * string * string := (org_id, Segment.as_str rt, NativeId.as_str n).

Definition get_promotion (org_id : string) (rt : Segment.t) (n : NativeId.t)
    : op (option string) :=
  gets (λ s, promotions s !! promotion_key org_id rt n).

Definition put_promotion (st : stamp) (org_id : string) (rt : Segment.t) (n : NativeId.t)
    (actor : Envelope.Actor) : op Revision.t :=
  fgrn ← lift (PromotionStore.promotion_fgrn org_id rt n);
  let payload := PromotionStore.promotion_event_payload fgrn rt n in
  revision ← mint_and_push st org_id EventKind.ResourcePromoted actor payload;
  _ ← modify (with_promotions <[promotion_key org_id rt n := Fgrn.to_string fgrn]>);
  mret revision.

Definition tombstone_promotion (st : stamp) (org_id : string) (rt : Segment.t)
    (n : NativeId.t) (actor : Envelope.Actor) : op (option Revision.t) :=
  stored ← get_promotion org_id rt n;
  match stored with
  | None => mret None
  | Some raw =>
      fgrn ← lift (map_err (λ e, CpError.Store ("stored promotion fgrn invalid: " +:+
                                                core_error_str e)) (Fgrn.parse raw));
      let payload := PromotionStore.promotion_event_payload fgrn rt n in
      revision ← mint_and_push st org_id EventKind.ResourceTombstoned actor payload;
      _ ← modify (with_promotions (delete (promotion_key org_id rt n)));
      mret (Some revision)
  end.

Definition create_org (st : stamp) (record : OrgRecord) (actor : Envelope.Actor)
    : op Revision.t :=
  let org_id := record_id record in
  known ← gets (λ s, bool_decide (is_Some (orgs s !! org_id)));
  if (known : bool)
  then lift (Err (CpError.Conflict ("organization '" +:+ org_id +:+ "' already exists")))
  else
    payload ← lift (org_payload record);
    revision ← mint_and_push st org_id EventKind.OrgCreated actor payload;
    _ ← modify (with_orgs <[org_id := record]>);
    mret revision.
Definition update_org (st : stamp) (record : OrgRecord) (actor : Envelope.Actor)
    (expected : option Revision.t) : op Revision.t :=
  append_org_state st record EventKind.OrgUpdated actor expected.
Definition transition_org (st : stamp) (record : OrgRecord) (kind : EventKind.t)
    (actor : Envelope.Actor) (expected : Revision.t) : op Revision.t :=
  append_org_state st record kind actor (Some expected).

(** The key material is generated by the shell. *)
Definition expect_some {A} (why : string) (o : option A) : op A :=
  match o with Some a => mret a | None => lift (Stuck why) end.
Definition generate_org_key (st : stamp) (org_id : string) (new_entry : SigningKey.entry)
    (actor : Envelope.Actor) : op Revision.t :=
  outcome ← append_org_keys st org_id EventKind.OrgKeyGenerated actor
              (SigningKey.generate_key_transition new_entry);
  expect_some "generate_org_key never no-ops" outcome.
Definition revoke_org_key (st : stamp) (org_id key_id : string) (actor : Envelope.Actor)
    : op (option Revision.t) :=
  append_org_keys st org_id EventKind.OrgKeyRevoked actor
    (SigningKey.revoke_key_transition key_id).
Definition rotate_org_key (st : stamp) (org_id key_id : string) (new_entry : SigningKey.entry)
    (now grace : Z) (actor : Envelope.Actor) : op Revision.t :=
  outcome ← append_org_keys st org_id EventKind.OrgKeyRotated actor
              (SigningKey.rotate_key_transition key_id new_entry now grace);
  expect_some "rotate_org_key never no-ops" outcome.

Inductive GroupWriteOutcome := NoOp (current : Revision.t) | Applied (revision : Revision.t).

Definition put_group (st : stamp) (org_id : string) (entry : Rbac.RbacEntry)
    (actor : Envelope.Actor) (expected : option Revision.t) : op GroupWriteOutcome :=
  let name := Rbac.name entry in
  let key := (org_id, name) in
  existing ← gets (λ s, groups s !! key);
  existing_value ←
    lift match existing with
         | Some e => Some <$> map_err (λ x, CpError.Store
                                         ("serialize existing group entry: " +:+ x)) (group_value e)
         | None => Ok None
         end;
  new_value ← lift (map_err (λ x, CpError.Store ("serialize group entry: " +:+ x))
                      (group_value entry));
  match Upsert.decide_upsert existing_value new_value with
  | Upsert.NoOp =>
      current ← latest_revision org_id;
      mret (NoOp current)
  | Upsert.Changed _ =>
      current ← latest_revision org_id;
      _ ← lift (check_expected_revision current expected);
      let payload := Fold.group_put_payload name new_value in
      revision ← mint_and_push st org_id EventKind.GroupPut actor payload;
      _ ← modify (with_groups <[key := entry]>);
      mret (Applied revision)
  end.

Definition delete_group (st : stamp) (org_id name : string) (actor : Envelope.Actor)
    (expected : option Revision.t) : op GroupWriteOutcome :=
  let key := (org_id, name) in
  exists_ ← gets (λ s, bool_decide (is_Some (groups s !! key)));
  if negb exists_
  then current ← latest_revision org_id; mret (NoOp current)
  else
    current ← latest_revision org_id;
    _ ← lift (check_expected_revision current expected);
    let payload := Fold.group_deleted_payload name in
    revision ← mint_and_push st org_id EventKind.GroupDeleted actor payload;
    _ ← modify (with_groups (delete key));
    mret (Applied revision).

(** ** Paged replay: the trait's default method over this store *)
Definition fetch_pages := Replay.fetch_pages events_after.
Definition fold_at := Replay.fold_at latest_revision events_after.

(** ** Runs *)

(** One mutation of the store, with what the shell provides to it. *)
Inductive Op :=
| UpsertChanged (st : stamp) (org_id : string) (id : NativeId.t) (a : Envelope.Actor) (p : Json.t)
| PutPromotion (st : stamp) (org_id : string) (rt : Segment.t) (n : NativeId.t) (a : Envelope.Actor)
| TombstonePromotion (st : stamp) (org_id : string) (rt : Segment.t) (n : NativeId.t)
    (a : Envelope.Actor)
| CreateOrg (st : stamp) (r : OrgRecord) (a : Envelope.Actor)
| UpdateOrg (st : stamp) (r : OrgRecord) (a : Envelope.Actor) (expected : option Revision.t)
| TransitionOrg (st : stamp) (r : OrgRecord) (v : LifecycleVerb.t) (a : Envelope.Actor)
    (expected : Revision.t)
| GenerateKey (st : stamp) (org_id : string) (e : SigningKey.entry) (a : Envelope.Actor)
| RevokeKey (st : stamp) (org_id key_id : string) (a : Envelope.Actor)
| RotateKey (st : stamp) (org_id key_id : string) (e : SigningKey.entry) (now grace : Z)
    (a : Envelope.Actor)
| PutGroup (st : stamp) (org_id : string) (e : Rbac.RbacEntry) (a : Envelope.Actor)
    (expected : option Revision.t)
| DeleteGroup (st : stamp) (org_id name : string) (a : Envelope.Actor)
    (expected : option Revision.t).

(** [LifecycleVerb::kind]. *)
Definition verb_kind (v : LifecycleVerb.t) : EventKind.t :=
  match v with
  | LifecycleVerb.Activate => EventKind.OrgActivated
  | LifecycleVerb.Suspend => EventKind.OrgSuspended
  | LifecycleVerb.Restore => EventKind.OrgRestored
  end.

Definition ignore {A} (m : op A) : op () := _ ← m; mret ().
Definition exec (o : Op) : op () :=
  match o with
  | UpsertChanged st org_id id a p => ignore (upsert_changed st org_id id a p)
  | PutPromotion st org_id rt n a => ignore (put_promotion st org_id rt n a)
  | TombstonePromotion st org_id rt n a => ignore (tombstone_promotion st org_id rt n a)
  | CreateOrg st r a => ignore (create_org st r a)
  | UpdateOrg st r a e => ignore (update_org st r a e)
  | TransitionOrg st r v a e => ignore (transition_org st r (verb_kind v) a e)
  | GenerateKey st org_id e a => ignore (generate_org_key st org_id e a)
  | RevokeKey st org_id k a => ignore (revoke_org_key st org_id k a)
  | RotateKey st org_id k e now grace a => ignore (rotate_org_key st org_id k e now grace a)
  | PutGroup st org_id e a x => ignore (put_group st org_id e a x)
  | DeleteGroup st org_id name a x => ignore (delete_group st org_id name a x)
  end.
(** A sequence of mutations: an error does not undo the ones before it. *)
Definition run (ops : list Op) (s : t) : t := foldl (λ s o, (exec o s).1) s ops.

Definition op_stamp (o : Op) : stamp :=
  match o with
  | UpsertChanged st _ _ _ _ | PutPromotion st _ _ _ _ | TombstonePromotion st _ _ _ _
  | CreateOrg st _ _ | UpdateOrg st _ _ _ | TransitionOrg st _ _ _ _ | GenerateKey st _ _ _
  | RevokeKey st _ _ _ | RotateKey st _ _ _ _ _ _ | PutGroup st _ _ _ _
  | DeleteGroup st _ _ _ _ => st
  end.
(** ULIDs are not empty and typed arguments are what their constructors build. *)
Definition op_wf (o : Op) : Prop :=
  ulid (op_stamp o) ≠ "" ∧
  match o with PutPromotion _ _ rt n _ => Segment.wf rt ∧ NativeId.wf n | _ => True end.
End store.
End EventStore.

(** * The builders and the fold agree *)
Module PayloadFacts.
Import Fold.

Lemma apply_principal e st n p :
  Envelope.kind e = EventKind.PrincipalUpserted →
  Envelope.payload e = principal_event_payload n p →
  apply_event e st = Ok (set_principals st (<[NativeId.as_str n := p]> (principals st))).
Proof. intros Hk Hp. unfold apply_event. by rewrite Hk, Hp. Qed.
Lemma apply_promoted e st f rt n :
  Envelope.kind e = EventKind.ResourcePromoted →
  Envelope.payload e = PromotionStore.promotion_event_payload f rt n →
  apply_event e st = Ok (set_promotions st
    (<[(Segment.as_str rt, NativeId.as_str n) := Fgrn.to_string f]> (promotions st))).
Proof. intros Hk Hp. unfold apply_event. by rewrite Hk, Hp. Qed.
Lemma apply_tombstoned e st f rt n :
  Envelope.kind e = EventKind.ResourceTombstoned →
  Envelope.payload e = PromotionStore.promotion_event_payload f rt n →
  apply_event e st = Ok (set_promotions st
    (delete (Segment.as_str rt, NativeId.as_str n) (promotions st))).
Proof. intros Hk Hp. unfold apply_event. by rewrite Hk, Hp. Qed.
Definition org_kind (k : EventKind.t) : bool :=
  match k with
  | EventKind.OrgCreated | EventKind.OrgUpdated | EventKind.OrgActivated
  | EventKind.OrgSuspended | EventKind.OrgRestored => true
  | _ => false
  end.
Lemma apply_org e st o c :
  org_kind (Envelope.kind e) = true → Json.is_object o = true →
  Envelope.payload e = org_event_payload o c →
  apply_event e st = Ok (set_org st (Some (org_event_payload o c))).
Proof.
  intros Hk Ho Hp. unfold apply_event. rewrite Hp.
  assert (Json.index (org_event_payload o c) "organization" = o) as -> by done. rewrite Ho.
  by destruct (Envelope.kind e).
Qed.
Definition key_kind (k : EventKind.t) : bool :=
  match k with
  | EventKind.OrgKeyGenerated | EventKind.OrgKeyRevoked | EventKind.OrgKeyRotated => true
  | _ => false
  end.
Lemma apply_keys e st k v :
  key_kind (Envelope.kind e) = true → Envelope.payload e = key_event_payload k v →
  apply_event e st = Ok (set_org_keys st (Some v)).
Proof.
  intros Hk Hp. unfold apply_event. rewrite Hp. by destruct (Envelope.kind e).
Qed.
Lemma apply_group_put e st n v :
  Envelope.kind e = EventKind.GroupPut → Envelope.payload e = group_put_payload n v →
  apply_event e st = Ok (set_groups st (<[n := v]> (groups st))).
Proof. intros Hk Hp. unfold apply_event. by rewrite Hk, Hp. Qed.
Lemma apply_group_deleted e st n :
  Envelope.kind e = EventKind.GroupDeleted → Envelope.payload e = group_deleted_payload n →
  apply_event e st = Ok (set_groups st (delete n (groups st))).
Proof. intros Hk Hp. unfold apply_event. by rewrite Hk, Hp. Qed.
End PayloadFacts.

(** * The store against its log *)
Module EventStoreFacts.
Import EventStore.
Section facts.
Context (to_vec : Json.t → string) (sha256_hex sign_b64 : string → string).
Context {OrgConfig : Type}.
Context (org_value : Organization.t → result string Json.t).
Context (config_value : OrgConfig → result string Json.t).
Context (keys_value : list SigningKey.entry → result string Json.t).
Context (group_value : Rbac.RbacEntry → result string Json.t).
#[local] Abbreviation store := (@EventStore.t OrgConfig).
#[local] Abbreviation mint := (mint_and_push (OrgConfig:=OrgConfig) to_vec sha256_hex sign_b64).
#[local] Abbreviation payload_of := (org_payload org_value config_value).

Definition log_of (s : store) (o : string) : list Envelope.t :=
  default [] (InMemoryEventLog.events <$> logs s !! o).

(** A live value and its folded image. *)
Definition agrees {A E} (f : A → result E Json.t) (live : option A) (folded : option Json.t)
    : Prop :=
  match live with
  | Some a => ∃ v, f a = Ok v ∧ folded = Some v
  | None => folded = None
  end.
(** The folded state of an organization is its live state. *)
Record matches (s : store) (o : string) (st : Fold.FoldedState) : Prop := {
  m_principals id : Fold.principals st !! NativeId.as_str id = principals s !! (o, id);
  m_promotions rt n : Fold.promotions st !! (rt, n) = promotions s !! (o, rt, n);
  m_org : agrees payload_of (orgs s !! o) (Fold.org st);
  m_keys : agrees keys_value (signing_keys s !! o) (Fold.org_keys st);
  m_groups n : agrees group_value (groups s !! (o, n)) (Fold.groups st !! n);
}.

(** The store's invariant: logs are usable, gap-free and short, and
    replaying a log gives the live state. *)
Definition signed (o : string) (e : Envelope.t) : Prop :=
  Envelope.signature e =
  sign_b64 (Canonical.canonical_envelope_bytes to_vec sha256_hex e o).
Record inv (n : nat) (s : store) : Prop := {
  i_signed o e : e ∈ log_of s o → signed o e;
  i_lock o log : logs s !! o = Some log → InMemoryEventLog.poisoned log = false;
  i_gap o : gap_free (log_of s o);
  i_len o : length (log_of s o) ≤ n;
  i_replay o r : ∃ st, apply_all (log_of s o) (FoldFacts.start r) = Ok st ∧ matches s o st;
}.

Lemma inv_mono n n' s : n ≤ n' → inv n s → inv n' s.
Proof. intros Hn [? ? ? Hl ?]. split; [done..| |done]. intros o. specialize (Hl o). lia. Qed.

Lemma store_inv_new : inv 0 new.
Proof.
  split; unfold log_of; simpl.
  - intros o e. rewrite lookup_empty. simpl. set_solver.
  - intros o log. by rewrite lookup_empty.
  - intros o. rewrite lookup_empty. by intros i e.
  - intros o. by rewrite lookup_empty.
  - intros o r. rewrite lookup_empty. eexists. split; [done|].
    split; simpl; intros; by rewrite ?lookup_empty.
Qed.

(** Only the log map differs, and no log grew. *)
Lemma log_for_spec n s o :
  inv n s →
  ∃ s' log, log_for o s = (s', Ok log) ∧ inv n s' ∧
    log = InMemoryEventLog.mk (log_of s o) false ∧ logs s' !! o = Some log ∧
    (∀ o', log_of s' o' = log_of s o') ∧ s' = with_logs (λ _, logs s') s.
Proof.
  intros Hs. unfold log_for. destruct (logs s !! o) as [log|] eqn:Hl.
  - exists s, log. pose proof (i_lock n s Hs o log Hl) as Hp.
    split_and!; [done..| |done|done|by destruct s].
    destruct log as [es p]; simpl in *. subst p. unfold log_of. by rewrite Hl.
  - eexists _, _. split; [done|].
    assert (∀ o', log_of (with_logs <[o:=InMemoryEventLog.new]> s) o' = log_of s o') as Hlog.
    { intros o'. unfold log_of. simpl. rewrite lookup_insert.
      case_decide; [|done]. subst. by rewrite Hl. }
    split_and!; [| |simpl; by rewrite lookup_insert_eq|done|done].
    + destruct Hs as [Hsg Hlk Hg Hn Hr]. split.
      * intros o' e. rewrite Hlog. apply Hsg.
      * intros o' log. simpl. rewrite lookup_insert. case_decide; [|by apply Hlk].
        by intros [= <-].
      * intros o'. rewrite Hlog. done.
      * intros o'. rewrite Hlog. done.
      * intros o' r. rewrite Hlog. destruct (Hr o' r) as (st & Hst & Hm).
        exists st. split; [done|]. by destruct Hm.
    + unfold log_of. by rewrite Hl.
Qed.

Lemma log_latest n s o :
  inv n s → InMemoryEventLog.latest_revision (InMemoryEventLog.mk (log_of s o) false) =
    Ok (Revision.new (N.of_nat (length (log_of s o)))).
Proof.
  intros Hs. unfold InMemoryEventLog.latest_revision. simpl. f_equal.
  pose proof (FoldFacts.gap_free_latest _ (i_gap n s Hs o)) as Hl.
  destruct (last (log_of s o)) as [e|]; simpl in *; rewrite <-Hl; [|done].
  by destruct (Envelope.seq e).
Qed.

Lemma latest_revision_spec n s o :
  inv n s →
  ∃ s', latest_revision o s = (s', Ok (Revision.new (N.of_nat (length (log_of s o))))) ∧
    inv n s' ∧ (∀ o', log_of s' o' = log_of s o') ∧ s' = with_logs (λ _, logs s') s.
Proof.
  intros Hs. destruct (log_for_spec n s o Hs) as (s' & log & Hl & Hs' & -> & _ & Hlog & Heq).
  exists s'. unfold latest_revision, mbind, M_bind. rewrite Hl. unfold lift.
  by rewrite (log_latest n s o Hs).
Qed.

Definition event_at (e : Envelope.t) (len : nat) (k : EventKind.t) (p : Json.t) : Prop :=
  Envelope.kind e = k ∧ Envelope.payload e = p ∧
  Revision.value (Envelope.seq e) = N.of_nat (S len).

Lemma build_spec st o k actor p key rev :
  ulid st ≠ "" →
  ∃ e b, build_model_event to_vec sha256_hex sign_b64 st o k actor p key rev = Ok (e, b) ∧
    Envelope.kind e = k ∧ Envelope.payload e = p ∧ Envelope.seq e = rev ∧ signed o e.
Proof.
  intros Hu. unfold build_model_event, Envelope.event_id_try_new.
  rewrite bool_decide_eq_false_2 by done. simpl. eexists _, _. by split_and!.
Qed.

Lemma log_at n s o log :
  inv n s → logs s !! o = Some log → log = InMemoryEventLog.mk (log_of s o) false.
Proof.
  intros Hs Hl. pose proof (i_lock n s Hs o log Hl) as Hp. unfold log_of. rewrite Hl.
  destruct log; simpl in *. by subst.
Qed.

Lemma with_logs_ext f g (s : store) : f (logs s) = g (logs s) → with_logs f s = with_logs g s.
Proof. unfold with_logs. by intros ->. Qed.

Lemma mint_spec n s st o k actor p :
  inv n s → (N.of_nat (S n) < 2 ^ 64)%N → ulid st ≠ "" →
  ∃ s' e, mint st o k actor p s = (s', Ok (Revision.new (N.of_nat (S (length (log_of s o)))))) ∧
    event_at e (length (log_of s o)) k p ∧ signed o e ∧
    (∀ o', logs s' !! o' = if decide (o' = o)
      then Some (InMemoryEventLog.mk (log_of s o ++ [e]) false)
      else logs s !! o') ∧ s' = with_logs (λ _, logs s') s.
Proof.
  intros Hs Hn Hu.
  assert (Revision.next (Revision.new (N.of_nat (length (log_of s o)))) =
          Revision.new (N.of_nat (S (length (log_of s o))))) as Hnext.
  { pose proof (i_len n s Hs o). unfold Revision.next. simpl. f_equal.
    rewrite N.mod_small; lia. }
  destruct (build_spec st o k actor p IN_MEMORY_KEY_ID
    (Revision.new (N.of_nat (S (length (log_of s o)))))) as (e & b & Hb & Hk & Hp & Hseq & Hsig); [done|].
  set (log' := InMemoryEventLog.mk (log_of s o ++ [e]) false).
  exists (with_logs <[o := log']> s), e.
  assert (mint st o k actor p s = (with_logs <[o := log']> s,
    Ok (Revision.new (N.of_nat (S (length (log_of s o))))))) as ->.
  { unfold mint_and_push, mbind, M_bind, log_for, push, modify, lift, mret, M_ret.
    destruct (logs s !! o) as [log|] eqn:Hl.
    - pose proof (log_at n s o log Hs Hl) as ->. rewrite (log_latest n s o Hs). simpl.
      rewrite Hnext, Hb. f_equal. apply with_logs_ext, map_eq.
      intros o'. destruct (decide (o = o')) as [<-|Hne].
      + by rewrite lookup_alter_eq, lookup_insert_eq, Hl.
      + by rewrite lookup_alter_ne, lookup_insert_ne.
    - assert (log_of s o = []) as Hnil by (unfold log_of; by rewrite Hl).
      assert (InMemoryEventLog.latest_revision InMemoryEventLog.new =
        Ok (Revision.new (N.of_nat (length (log_of s o))))) as -> by (by rewrite Hnil).
      cbn [map_err]. rewrite Hnext, Hb. unfold log'. rewrite Hnil. f_equal.
      change (with_logs ?f (with_logs ?g s)) with (with_logs (λ m, f (g m)) s).
      apply with_logs_ext, map_eq. intros o'. destruct (decide (o = o')) as [<-|Hne].
      + by rewrite lookup_alter_eq, !lookup_insert_eq.
      + by rewrite lookup_alter_ne, !lookup_insert_ne. }
  split; [done|]. split; [|split; [done|split]].
  - split_and!; [done..|]. by rewrite Hseq.
  - intros o'. simpl. rewrite lookup_insert. destruct (decide (o = o')), (decide (o' = o)); naive_solver.
  - done.
Qed.

(** Appending an event and updating a live map, as every mutation does. *)
Lemma append_spec {B} n s st o k actor p (upd : store → store) (ret : Revision.t → B) :
  inv n s → (N.of_nat (S n) < 2 ^ 64)%N → ulid st ≠ "" →
  (∀ g s, upd (with_logs g s) = with_logs g (upd s)) →
  (∀ e fs, Envelope.kind e = k → Envelope.payload e = p → matches s o fs →
     ∃ fs', Fold.apply_event e fs = Ok fs' ∧ matches (upd s) o fs') →
  (∀ o' fs, o' ≠ o → matches s o' fs → matches (upd s) o' fs) →
  ∃ s', (revision ← mint st o k actor p; _ ← modify upd; mret (ret revision)) s =
          (s', Ok (ret (Revision.new (N.of_nat (S (length (log_of s o))))))) ∧ inv (S n) s'.
Proof.
  intros Hs Hn Hu Hupd Hhere Hthere.
  destruct (mint_spec n s st o k actor p Hs Hn Hu) as (s1 & e & Hm & (Hk & Hp & Hseq) & Hsig & Hl & Heq).
  exists (upd s1). split; [unfold mbind, M_bind; rewrite Hm; done|].
  rewrite Heq, Hupd.
  assert (∀ o', log_of (with_logs (λ _, logs s1) (upd s)) o' =
    if decide (o' = o) then log_of s o ++ [e] else log_of s o') as Hlog.
  { intros o'. unfold log_of at 1. simpl. rewrite Hl. by case_decide. }
  assert (∀ o' fs, matches (upd s) o' fs → matches (with_logs (λ _, logs s1) (upd s)) o' fs)
    as Hsame by (by intros o' fs []).
  split.
  - intros o' e'. rewrite Hlog. case_decide; [subst|by apply (i_signed n s Hs)].
    intros [?| ->%list_elem_of_singleton]%elem_of_app; [by apply (i_signed n s Hs)|done].
  - intros o' log. simpl. rewrite Hl. case_decide; [by intros [= <-]|by apply (i_lock n s Hs)].
  - intros o'. rewrite Hlog. case_decide; [|by apply (i_gap n s Hs)].
    intros i e' [He'|[Hi He']]%lookup_app_Some; [by apply (i_gap n s Hs o)|].
    apply list_lookup_singleton_Some in He' as [Hi' <-]. rewrite Hseq. f_equal. lia.
  - intros o'. rewrite Hlog. pose proof (i_len n s Hs o'). case_decide; [|lia]. subst.
    rewrite length_app. simpl. lia.
  - intros o' r. rewrite Hlog. destruct (i_replay n s Hs o' r) as (fs & Hfs & Hmatch).
    case_decide as Ho; [|exists fs; split; [done|]; by apply Hsame, Hthere]. subst o'.
    destruct (Hhere e fs Hk Hp Hmatch) as (fs' & Hstep & Hm').
    exists fs'. split; [|by apply Hsame]. rewrite FoldFacts.apply_all_app, Hfs. simpl.
    by rewrite Hstep.
Qed.

(** An operation keeps the invariant, on success and on error. *)
Definition keeps {A} (n : nat) (s : store) (m : M store CpError.t A) : Prop :=
  ∃ s' r, m s = (s', r) ∧ inv (S n) s' ∧ returns r.

Lemma keeps_Err {A} n s (m : M store CpError.t A) e : inv n s → m s = (s, Err e) → keeps n s m.
Proof. intros Hs Hm. exists s, (Err e). split_and!; [done| |done]. eapply inv_mono, Hs. lia. Qed.
Lemma keeps_Ok {A} n s s' (m : M store CpError.t A) a :
  inv n s' → m s = (s', Ok a) → keeps n s m.
Proof. intros Hs Hm. exists s', (Ok a). split_and!; [done| |done]. eapply inv_mono, Hs. lia. Qed.
Lemma keeps_lift {A B} n s (r : result CpError.t A) (f : A → M store CpError.t B) :
  inv n s → returns r → (∀ a, r = Ok a → keeps n s (f a)) → keeps n s (lift r ≫= f).
Proof.
  intros Hs Hst Hf. destruct r as [a|e|w]; [|by eapply keeps_Err|by destruct (Hst w)].
  by apply (Hf a).
Qed.
Lemma keeps_gets {A B} n s (g : store → A) (f : A → M store CpError.t B) :
  keeps n s (f (g s)) → keeps n s (gets g ≫= f).
Proof. done. Qed.
Lemma keeps_latest {B} n s o (f : Revision.t → M store CpError.t B) :
  inv n s →
  (∀ s', inv n s' → s' = with_logs (λ _, logs s') s →
    keeps n s' (f (Revision.new (N.of_nat (length (log_of s o)))))) →
  keeps n s (latest_revision o ≫= f).
Proof.
  intros Hs Hf. destruct (latest_revision_spec n s o Hs) as (s' & Hl & Hs' & _ & Heq).
  destruct (Hf s' Hs' Heq) as (s2 & r & Hr & ? & ?). exists s2, r. split_and!; [|done..].
  unfold mbind, M_bind. by rewrite Hl.
Qed.
Lemma keeps_append {B} n s st o k actor p (upd : store → store) (ret : Revision.t → B) :
  inv n s → (N.of_nat (S n) < 2 ^ 64)%N → ulid st ≠ "" →
  (∀ g s, upd (with_logs g s) = with_logs g (upd s)) →
  (∀ e fs, Envelope.kind e = k → Envelope.payload e = p → matches s o fs →
     ∃ fs', Fold.apply_event e fs = Ok fs' ∧ matches (upd s) o fs') →
  (∀ o' fs, o' ≠ o → matches s o' fs → matches (upd s) o' fs) →
  keeps n s (revision ← mint st o k actor p; _ ← modify upd; mret (ret revision)).
Proof.
  intros Hs Hn Hu Hupd Hh Ht.
  destruct (append_spec n s st o k actor p upd ret Hs Hn Hu Hupd Hh Ht) as (s' & Hr & Hi).
  exists s', (Ok (ret (Revision.new (N.of_nat (S (length (log_of s o))))))). by split_and!.
Qed.

(** The matching of a changed map, entry by entry. *)
Lemma upsert_keeps n s st o id actor p :
  inv n s → (N.of_nat (S n) < 2 ^ 64)%N → ulid st ≠ "" →
  keeps n s (upsert_changed to_vec sha256_hex sign_b64 st o id actor p).
Proof.
  intros Hs Hn Hu. apply (keeps_append (B:=Revision.t) n s st o _ actor _
    (with_principals <[(o, id) := p]>) (λ r, r)); [done..| |].
  - intros e fs Hk Hp []. rewrite (PayloadFacts.apply_principal e fs id p Hk Hp).
    eexists. split; [done|]. split; simpl; try done. intros id'.
    rewrite !lookup_insert. destruct (decide (_ = _)) as [Hid|Hid], (decide (_ = _)) as [Heq|Heq];
      [done| | |done].
    + destruct id, id'; simpl in *; congruence.
    + congruence.
  - intros o' fs Ho []. split; simpl; try done. intros id'.
    rewrite lookup_insert_ne by congruence. done.
Qed.

Lemma put_promotion_keeps n s st o rt nid actor :
  inv n s → (N.of_nat (S n) < 2 ^ 64)%N → ulid st ≠ "" → Segment.wf rt → NativeId.wf nid →
  keeps n s (put_promotion to_vec sha256_hex sign_b64 st o rt nid actor).
Proof.
  intros Hs Hn Hu Hrt Hnid. apply keeps_lift; [done| |].
  { unfold PromotionStore.promotion_fgrn. apply returns_bind; [solve_returns|].
    intros os _. by rewrite FgrnFacts.resource_Ok. }
  intros f _. apply (keeps_append n s st o _ actor _
    (with_promotions <[promotion_key o rt nid := Fgrn.to_string f]>) (λ r, r)); [done..| |].
  - intros e fs Hk Hp []. rewrite (PayloadFacts.apply_promoted e fs f rt nid Hk Hp).
    eexists. split; [done|]. split; simpl; try done. intros rt' n'. unfold promotion_key.
    rewrite !lookup_insert. do 2 case_decide; naive_solver.
  - intros o' fs Ho []. split; simpl; try done. intros rt' n'. unfold promotion_key.
    rewrite lookup_insert_ne by congruence. done.
Qed.

Lemma tombstone_keeps n s st o rt nid actor :
  inv n s → (N.of_nat (S n) < 2 ^ 64)%N → ulid st ≠ "" →
  keeps n s (tombstone_promotion to_vec sha256_hex sign_b64 st o rt nid actor).
Proof.
  intros Hs Hn Hu. unfold tombstone_promotion, get_promotion. apply keeps_gets.
  destruct (promotions s !! promotion_key o rt nid) as [raw|]; [|by eapply keeps_Ok].
  apply keeps_lift; [done| |].
  { apply returns_map_err, FgrnFacts.parse_returns. }
  intros f _. apply (keeps_append n s st o _ actor _
    (with_promotions (delete (promotion_key o rt nid))) Some); [done..| |].
  - intros e fs Hk Hp []. rewrite (PayloadFacts.apply_tombstoned e fs f rt nid Hk Hp).
    eexists. split; [done|]. split; simpl; try done. intros rt' n'. unfold promotion_key.
    rewrite !lookup_delete. do 2 case_decide; naive_solver.
  - intros o' fs Ho []. split; simpl; try done. intros rt' n'. unfold promotion_key.
    rewrite lookup_delete_ne by congruence. done.
Qed.

(** [serde] serializes a struct as an object. *)
Context (Horg : ∀ o v, org_value o = Ok v → Json.is_object v = true).
Context (Hto_value : (∀ o, returns (org_value o)) ∧ (∀ c, returns (config_value c)) ∧
                     (∀ k, returns (keys_value k)) ∧ (∀ g, returns (group_value g))).

Lemma org_payload_returns r : returns (payload_of r).
Proof.
  destruct Hto_value as (H1 & H2 & _). unfold org_payload. solve_returns.
Qed.
Lemma org_payload_object r p :
  payload_of r = Ok p → ∃ o c, p = Fold.org_event_payload o c ∧ Json.is_object o = true.
Proof.
  intros (v & Hv%map_err_Ok & (c & _ & [= <-])%bind_Ok)%bind_Ok. eexists _, _.
  split; [done|]. by eapply Horg.
Qed.
Lemma check_revision_returns c e : returns (check_expected_revision c e).
Proof. unfold check_expected_revision. solve_returns. Qed.
Hint Resolve org_payload_returns check_revision_returns : returns.

(** Recording an organization under an org event. *)
Lemma org_append_keeps n s st r k actor p :
  inv n s → (N.of_nat (S n) < 2 ^ 64)%N → ulid st ≠ "" → PayloadFacts.org_kind k = true →
  payload_of r = Ok p →
  keeps n s (revision ← mint st (record_id r) k actor p;
             _ ← modify (with_orgs <[record_id r := r]>); mret revision).
Proof.
  intros Hs Hn Hu Hk Hp. destruct (org_payload_object r p Hp) as (o & c & -> & Ho).
  apply (keeps_append n s st (record_id r) k actor _ (with_orgs <[record_id r := r]>) (λ x, x));
    [done..| |].
  - intros e fs He Hpe []. rewrite (PayloadFacts.apply_org e fs o c) by (done || by rewrite He).
    eexists. split; [done|]. split; simpl; try done. rewrite lookup_insert_eq. simpl. eauto.
  - intros o' fs Ho' []. split; simpl; try done. by rewrite lookup_insert_ne by congruence.
Qed.

Lemma append_org_state_keeps n s st r k actor exp :
  inv n s → (N.of_nat (S n) < 2 ^ 64)%N → ulid st ≠ "" → PayloadFacts.org_kind k = true →
  keeps n s (append_org_state to_vec sha256_hex sign_b64 org_value config_value st r k actor exp).
Proof.
  intros Hs Hn Hu Hk. apply keeps_latest; [done|]. intros s' Hs' Heq.
  apply keeps_lift; [done|eauto with returns|]. intros _ _.
  apply keeps_lift; [done|eauto with returns|]. intros p Hp. by apply org_append_keeps.
Qed.
Lemma create_org_keeps n s st r actor :
  inv n s → (N.of_nat (S n) < 2 ^ 64)%N → ulid st ≠ "" →
  keeps n s (create_org to_vec sha256_hex sign_b64 org_value config_value st r actor).
Proof.
  intros Hs Hn Hu. unfold create_org. apply keeps_gets. case_bool_decide; [by eapply keeps_Err|].
  apply keeps_lift; [done|eauto with returns|]. intros p Hp. by apply org_append_keeps.
Qed.

Lemma append_org_keys_keeps n s st o k actor tr :
  inv n s → (N.of_nat (S n) < 2 ^ 64)%N → ulid st ≠ "" → PayloadFacts.key_kind k = true →
  (∀ ks, returns (tr ks)) →
  keeps n s (append_org_keys to_vec sha256_hex sign_b64 keys_value st o k actor tr).
Proof.
  intros Hs Hn Hu Hk Htr. unfold append_org_keys. apply keeps_gets.
  case_bool_decide; simpl negb; cbv iota; [|by eapply keeps_Err].
  apply keeps_gets. apply keeps_lift; [done|apply Htr|].
  intros [[aff ks]|] _; [|by eapply keeps_Ok].
  apply keeps_lift; [done|apply returns_map_err; by apply Hto_value|]. intros v Hv%map_err_Ok.
  apply (keeps_append n s st o k actor _ (with_keys <[o := ks]>) Some); [done..| |].
  - intros e fs He Hpe []. rewrite (PayloadFacts.apply_keys e fs aff v) by (done || by rewrite He).
    eexists. split; [done|]. split; simpl; try done. rewrite lookup_insert_eq. simpl. eauto.
  - intros o' fs Ho' []. split; simpl; try done. by rewrite lookup_insert_ne by congruence.
Qed.

Lemma put_group_keeps n s st o entry actor exp :
  inv n s → (N.of_nat (S n) < 2 ^ 64)%N → ulid st ≠ "" →
  keeps n s (put_group to_vec sha256_hex sign_b64 group_value st o entry actor exp).
Proof.
  intros Hs Hn Hu. unfold put_group. apply keeps_gets. apply keeps_lift; [done| |].
  { destruct Hto_value as (_ & _ & _ & Hg). case_match; [|done].
    apply returns_fmap, returns_map_err, Hg. }
  intros ev _. apply keeps_lift; [done|apply returns_map_err; by apply Hto_value|].
  intros v Hv%map_err_Ok. destruct (Upsert.decide_upsert ev v).
  { apply keeps_latest; [done|]. intros s' Hs' _. by eapply keeps_Ok. }
  apply keeps_latest; [done|]. intros s' Hs' _. apply keeps_lift; [done|eauto with returns|].
  intros _ _. apply (keeps_append n s' st o _ actor _
    (with_groups <[(o, Rbac.name entry) := entry]>) Applied); [done..| |].
  - intros e fs He Hpe []. rewrite (PayloadFacts.apply_group_put e fs (Rbac.name entry) v) by done.
    eexists. split; [done|]. split; simpl; try done. intros nm. rewrite !lookup_insert.
    destruct (decide (Rbac.name entry = nm)) as [Hne|Hne],
      (decide ((o, Rbac.name entry) = (o, nm))) as [Heq|Heq];
      [simpl; eauto|congruence|congruence|done].
  - intros o' fs Ho' []. split; simpl; try done. intros nm.
    by rewrite lookup_insert_ne by congruence.
Qed.

Lemma delete_group_keeps n s st o name actor exp :
  inv n s → (N.of_nat (S n) < 2 ^ 64)%N → ulid st ≠ "" →
  keeps n s (delete_group to_vec sha256_hex sign_b64 st o name actor exp).
Proof.
  intros Hs Hn Hu. unfold delete_group. apply keeps_gets.
  case_bool_decide; simpl negb; cbv iota.
  2: { apply keeps_latest; [done|]. intros s' Hs' _. by eapply keeps_Ok. }
  apply keeps_latest; [done|]. intros s' Hs' _. apply keeps_lift; [done|eauto with returns|].
  intros _ _. apply (keeps_append n s' st o _ actor _
    (with_groups (delete (o, name))) Applied); [done..| |].
  - intros e fs He Hpe []. rewrite (PayloadFacts.apply_group_deleted e fs name) by done.
    eexists. split; [done|]. split; simpl; try done. intros nm. rewrite !lookup_delete.
    destruct (decide (name = nm)) as [Hne|Hne], (decide ((o, name) = (o, nm))) as [Heq|Heq];
      [done|congruence|congruence|done].
  - intros o' fs Ho' []. split; simpl; try done. intros nm.
    by rewrite lookup_delete_ne by congruence.
Qed.

Lemma keeps_ignore {A} n s (m : M store CpError.t A) : keeps n s m → keeps n s (ignore m).
Proof.
  intros (s' & r & Hm & Hi & Hr). unfold ignore.
  exists s', (r ≫= λ _, Ok ()). split_and!; [|done|].
  - unfold mbind, M_bind. rewrite Hm. by destruct r.
  - by apply returns_bind.
Qed.
Lemma keeps_expect {A} n s (m : M store CpError.t (option A)) why :
  keeps n s m → (∀ s', m s ≠ (s', Ok None)) → keeps n s (m ≫= expect_some why).
Proof.
  intros (s' & r & Hm & Hi & Hr) Hn. destruct r as [[a|]|e|w].
  - exists s', (Ok a). split_and!; [|done..]. unfold mbind, M_bind. by rewrite Hm.
  - by destruct (Hn s').
  - exists s', (Err e). split_and!; [|done..]. unfold mbind, M_bind. by rewrite Hm.
  - by destruct (Hr w).
Qed.

(** A key operation reports a no-op only when its transition does. *)
Lemma append_org_keys_Some st o k actor tr s s' :
  (∀ ks, tr ks ≠ Ok None) →
  append_org_keys to_vec sha256_hex sign_b64 keys_value st o k actor tr (s : store)
    ≠ (s', Ok None).
Proof.
  intros Htr H. unfold append_org_keys in H.
  apply M_bind_Ok in H as (s1 & known & _ & H). destruct known; simpl in H; [|done].
  apply M_bind_Ok in H as (s2 & ks & _ & H). apply M_bind_Ok in H as (s3 & out & Ht & H).
  unfold lift in Ht. injection Ht as -> Ht. destruct out as [[aff new]|]; [|by apply Htr in Ht].
  apply M_bind_Ok in H as (? & v & _ & H). apply M_bind_Ok in H as (? & r & _ & H).
  apply M_bind_Ok in H as (? & u & _ & H). done.
Qed.

Lemma exec_keeps n s o :
  inv n s → (N.of_nat (S n) < 2 ^ 64)%N → op_wf o →
  keeps n s (exec to_vec sha256_hex sign_b64 org_value config_value keys_value group_value o).
Proof.
  intros Hs Hn [Hu Hw]. destruct o; simpl in Hu; apply keeps_ignore.
  - by apply upsert_keeps.
  - apply put_promotion_keeps; naive_solver.
  - by apply tombstone_keeps.
  - by apply create_org_keeps.
  - by apply append_org_state_keeps.
  - apply append_org_state_keeps; [done..|]. by destruct v.
  - apply keeps_expect; [by apply append_org_keys_keeps|]. intros s'.
    by apply append_org_keys_Some.
  - by apply append_org_keys_keeps.
  - apply keeps_expect; [apply append_org_keys_keeps; [done..|]|].
    + intros ks. apply returns_bind; [apply SigningKeyFacts.rotate_returns|done].
    + intros s'. apply append_org_keys_Some. intros ks.
      unfold SigningKey.rotate_key_transition. by destruct (SigningKey.rotate_entries _ _ _ _ _).
  - by apply put_group_keeps.
  - by apply delete_group_keeps.
Qed.

Lemma run_inv ops n s :
  inv n s → (N.of_nat (n + length ops) < 2 ^ 64)%N → Forall op_wf ops →
  inv (n + length ops)
    (run to_vec sha256_hex sign_b64 org_value config_value keys_value group_value ops s).
Proof.
  revert n s. induction ops as [|o ops IH]; intros n s Hs Hn Hw; simpl in *.
  { by rewrite Nat.add_0_r. }
  apply Forall_cons in Hw as [Ho Hw].
  destruct (exec_keeps n s o Hs) as (s' & r & Hr & Hi & _); [lia|done|].
  rewrite Hr. simpl. replace (n + S (length ops)) with (S n + length ops) by lia.
  apply IH; [done|lia|done].
Qed.

(** ** Paging *)
Lemma filter_after l base k :
  (∀ i e, l !! i = Some e → Revision.value (Envelope.seq e) = base + N.of_nat (S i))%N →
  (base ≤ k)%N →
  filter (λ e, k < Revision.value (Envelope.seq e))%N l = drop (N.to_nat (k - base)) l.
Proof.
  revert base. induction l as [|e l IH]; intros base Hg Hk; [by rewrite drop_nil|].
  rewrite filter_cons. rewrite (Hg 0 e) by done. case_decide as Hlt.
  - replace (N.to_nat (k - base)) with 0 by lia. simpl. f_equal.
    clear IH. assert (∀ x, x ∈ l → (k < Revision.value (Envelope.seq x))%N) as Hall.
    { intros x [j Hj]%list_elem_of_lookup. rewrite (Hg (S j) x) by done. lia. }
    clear Hg. induction l as [|x l IH]; [done|]. rewrite filter_cons.
    rewrite decide_True by (apply Hall; left). f_equal. apply IH. intros. apply Hall. by right.
  - replace (N.to_nat (k - base)) with (S (N.to_nat (k - (base + 1)))) by lia. simpl.
    apply IH; [|lia]. intros i x Hx. rewrite (Hg (S i) x) by done. lia.
Qed.

Lemma events_after_spec n s o k limit :
  inv n s →
  ∃ s', events_after o (Revision.new (N.of_nat k)) limit s =
          (s', Ok (take limit (drop k (log_of s o)))) ∧
    inv n s' ∧ (∀ o', log_of s' o' = log_of s o') ∧ s' = with_logs (λ _, logs s') s.
Proof.
  intros Hs. destruct (log_for_spec n s o Hs) as (s' & log & Hl & Hs' & -> & _ & Hlog & Heq).
  exists s'. unfold events_after, mbind, M_bind. rewrite Hl. unfold lift. split_and!; [|done..].
  unfold InMemoryEventLog.events_after. simpl.
  rewrite (filter_after _ 0) by (done || lia || intros i e He; by rewrite (i_gap n s Hs o i e He)).
  by rewrite N.sub_0_r, Nat2N.id.
Qed.

Lemma fetch_pages_spec fuel n s o target k :
  inv n s → k ≤ length (log_of s o) → length (log_of s o) < fuel * Replay.FOLD_PAGE_SIZE + k →
  ∃ s' k', fetch_pages fuel o target (Revision.new (N.of_nat k)) (take k (log_of s o)) s =
             (s', Ok (take k' (log_of s o))) ∧
    inv n s' ∧ (∀ o', log_of s' o' = log_of s o') ∧ s' = with_logs (λ _, logs s') s ∧
    k' ≤ length (log_of s o) ∧
    (k' = length (log_of s o) ∨ (Revision.value target ≤ N.of_nat k')%N).
Proof.
  revert s k. induction fuel as [|fuel IH]; intros s k Hs Hk Hfuel; [lia|].
  destruct (events_after_spec n s o k Replay.FOLD_PAGE_SIZE Hs) as (s1 & Hev & Hs1 & Hlog1 & Heq1).
  unfold fetch_pages in *. cbn [Replay.fetch_pages]. unfold mbind at 1, M_bind at 1. rewrite Hev.
  set (page := take Replay.FOLD_PAGE_SIZE (drop k (log_of s o))).
  assert (length page = min Replay.FOLD_PAGE_SIZE (length (log_of s o) - k)) as Hlen.
  { unfold page. by rewrite length_take, length_drop. }
  assert (take k (log_of s o) ++ page = take (k + length page) (log_of s o)) as Happ.
  { rewrite <-(take_take_drop _ k (length page)). f_equal. rewrite Hlen. unfold page.
    destruct (Nat.min_spec Replay.FOLD_PAGE_SIZE (length (log_of s o) - k)) as [[? ->]|[? ->]]; [done|].
    by rewrite !take_ge by (rewrite length_drop; lia). }
  destruct (last page) as [e|] eqn:Hlast.
  - assert (Envelope.seq e = Revision.new (N.of_nat (k + length page))) as Hseq.
    { rewrite last_lookup in Hlast. pose proof (lookup_lt_Some _ _ _ Hlast) as Hlt.
      assert (log_of s o !! (k + pred (length page)) = Some e) as Hl.
      { rewrite <-lookup_drop. revert Hlast. generalize (pred (length page)). intros j.
        unfold page. by intros [? _]%lookup_take_Some. }
      clear Hlast. apply (i_gap n s Hs o) in Hl as Hlast.
      destruct (Envelope.seq e); simpl in *. f_equal. rewrite Hlast. f_equal. lia. }
    rewrite Hseq, Happ. simpl Revision.value.
    destruct (bool_decide (length page < Replay.FOLD_PAGE_SIZE)) eqn:Hex; bool_prop; simpl orb; cbv iota.
    { exists s1, (k + length page). split_and!; [done..|lia|]. left. lia. }
    case_bool_decide as Ht.
    { exists s1, (k + length page). split_and!; [done..|lia|]. by right. }
    destruct (IH s1 (k + length page)) as (s2 & k2 & Hr & Hs2 & Hl2 & Heq2 & Hk2 & Hd);
      [done|rewrite Hlog1; lia|rewrite Hlog1; lia|].
    rewrite Hlog1 in Hr, Hk2, Hd. exists s2, k2. split_and!; [exact Hr|done| |by rewrite Heq2, Heq1|done..].
    intros o'. by rewrite Hl2.
  - apply last_None in Hlast. assert (length page = 0) as H0 by (by rewrite Hlast).
    exists s1, k. split_and!; [done..|]. left. unfold Replay.FOLD_PAGE_SIZE in Hlen. lia.
Qed.

(** A pinned read replays the log, page by page. *)
Lemma fold_at_pinned fuel n s o r :
  inv n s → n < fuel * Replay.FOLD_PAGE_SIZE → (0 < Revision.value r)%N →
  ∃ s', fold_at fuel o (Some r) s =
          (s', map_err store_err (Fold.fold_events (log_of s o) r)) ∧ inv n s'.
Proof.
  intros Hs Hf Hr. unfold fold_at, Replay.fold_at.
  destruct (latest_revision_spec n s o Hs) as (s1 & Hl & Hs1 & Hlog1 & Heq1).
  unfold mbind at 1, M_bind at 1. rewrite Hl.
  destruct (fetch_pages_spec fuel n s1 o r 0) as (s2 & k & Hp & Hs2 & _ & _ & Hk & Hd);
    [done|lia|pose proof (i_len n s1 Hs1 o); lia|].
  change (take 0 _) with (@nil Envelope.t) in Hp. unfold fetch_pages in Hp. simpl Revision.value in Hp.
  exists s2. split; [|done]. unfold mbind, M_bind. change (N.of_nat 0) with 0%N in Hp.
  rewrite Hp. unfold lift. f_equal. f_equal. rewrite Hlog1 in *.
  pose proof (i_gap n s Hs o) as Hg. set (l := log_of s o) in *.
  assert (gap_free (take k l)) as Hgk by (intros i e [He _]%lookup_take_Some; by apply Hg).
  destruct (decide (Revision.value r ≤ N.of_nat (length l))%N) as [Hle|Hgt].
  - rewrite !FoldFacts.fold_events_prefix; [|done|lia|done|rewrite length_take; lia].
    rewrite take_take. do 2 f_equal. lia.
  - assert (k = length l) as -> by (destruct Hd as [->|?]; [done|lia]).
    by rewrite firstn_all.
Qed.

(** An unpinned read gives the live state. *)
Lemma fold_at_live fuel n s o :
  inv n s → n < fuel * Replay.FOLD_PAGE_SIZE →
  ∃ s' st, fold_at fuel o None s = (s', Ok st) ∧ inv n s' ∧ matches s o st ∧
    Fold.revision st = Revision.new (N.of_nat (length (log_of s o))).
Proof.
  intros Hs Hf. destruct (latest_revision_spec n s o Hs) as (s1 & Hl & Hs1 & Hlog1 & Heq1).
  destruct (decide (length (log_of s o) = 0)) as [H0|H0].
  - apply nil_length_inv in H0. exists s1, Fold.empty.
    unfold fold_at, Replay.fold_at, mbind, M_bind. rewrite Hl, H0. split_and!; [done..| |done].
    destruct (i_replay n s Hs o (Revision.new 0)) as (st & Hst & Hm).
    rewrite H0 in Hst. by injection Hst as <-.
  - set (r := Revision.new (N.of_nat (length (log_of s o)))).
    destruct (fold_at_pinned fuel n s o r Hs Hf) as (s2 & Hr & Hs2); [simpl; lia|].
    destruct (i_replay n s Hs o r) as (st & Hst & Hm). exists s2, st.
    rewrite FoldFacts.fold_events_prefix in Hr; [|by apply (i_gap n s Hs)|simpl; lia].
    simpl in Hr. rewrite Nat2N.id, firstn_all, Hst in Hr. simpl in Hr. split_and!; [|done|done|].
    + rewrite <-Hr. unfold fold_at, Replay.fold_at, mbind, M_bind. rewrite Hl. fold r.
      rewrite bool_decide_eq_false_2 by (simpl; lia). done.
    + by apply FoldFacts.apply_all_revision in Hst.
Qed.
End facts.
End EventStoreFacts.

(** A concrete serialization, and a run that touches every map of the store. *)
Module EventStoreSample.
Definition to_vec (j : Json.t) : string := match j with Json.String s => s | _ => "" end.
Definition org_value (o : Organization.t) : result string Json.t :=
  Ok (Json.object [("name", Json.String (Organization.name o))]).
Definition config_value (_ : ()) : result string Json.t := Ok Json.Null.
Definition keys_value (l : list SigningKey.entry) : result string Json.t :=
  Ok (Json.String (default "" (SigningKey.key_id <$> last l))).
Definition group_value (g : Rbac.RbacEntry) : result string Json.t :=
  Ok (Json.String (Rbac.name g)).

Definition st : EventStore.stamp := EventStore.Build_stamp "01J" "2025-01-01T00:00:00+00:00".
Definition acme : EventStore.OrgRecord :=
  {| EventStore.org := Organization.new (Id.mk (Segment.mk "acme")) "Acme" OrgStatus.Draft 0;
     EventStore.configured := Some {| EventStore.cc_config := ();
                                      EventStore.cc_etag := Etag.mk "etag" |} |}.
Definition key : SigningKey.entry := SigningKey.mk "k1" "pem" SigningKey.Active 0 None.
Definition ops : list (@EventStore.Op ()) :=
  [EventStore.CreateOrg st acme Envelope.System;
   EventStore.CreateOrg st acme Envelope.System;
   EventStore.GenerateKey st "acme" key Envelope.System;
   EventStore.UpsertChanged st "acme" (NativeId.mk "alice") Envelope.System (Json.Bool true);
   EventStore.PutPromotion st "acme" (Segment.mk "doc") (NativeId.mk "1") Envelope.System;
   EventStore.PutGroup st "acme" RbacSample.viewer Envelope.System (Some (Revision.new 4));
   EventStore.DeleteGroup st "acme" "viewer" Envelope.System None].

Lemma ops_wf : Forall EventStore.op_wf ops.
Proof. repeat constructor; discriminate. Qed.
Lemma org_is_object o v : org_value o = Ok v → Json.is_object v = true.
Proof. by intros [= <-]. Qed.
Lemma to_value_returns :
  (∀ o, returns (org_value o)) ∧ (∀ c, returns (config_value c)) ∧
  (∀ k, returns (keys_value k)) ∧ (∀ g, returns (group_value g)).
Proof. by split_and!. Qed.
End EventStoreSample.

(** * Theorems *)
Section theorems.
Context (to_vec : Json.t → string) (sha256_hex sign_b64 : string → string).
Context {OrgConfig : Type}.
Context (org_value : Organization.t → result string Json.t).
Context (config_value : OrgConfig → result string Json.t).
Context (keys_value : list SigningKey.entry → result string Json.t).
Context (group_value : Rbac.RbacEntry → result string Json.t).
(** Serialization returns, and an organization serializes as an object. *)
Context (Horg : ∀ o v, org_value o = Ok v → Json.is_object v = true).
Context (Hto_value : (∀ o, returns (org_value o)) ∧ (∀ c, returns (config_value c)) ∧
                     (∀ k, returns (keys_value k)) ∧ (∀ g, returns (group_value g))).
#[local] Abbreviation run :=
  (EventStore.run to_vec sha256_hex sign_b64 org_value config_value keys_value group_value).

(** C3: Event sourcing is faithful.  After any sequence of mutations
    (principal upserts, promotions and tombstones, organization creation,
    update and lifecycle, key generation, rotation and revocation, group
    writes and deletions; rejected ones included) replaying an
    organization's event log, in pages of 100, up to its latest revision
    succeeds and rebuilds exactly the live state of that organization:
    every principal, promotion, group, its record and its signing keys. *)
Theorem event_store_replays_to_live ops o fuel :
  Forall EventStore.op_wf ops → (N.of_nat (length ops) < 2 ^ 64)%N →
  length ops < fuel * Replay.FOLD_PAGE_SIZE →
  let s := run ops EventStore.new in
  ∃ s' st, EventStore.fold_at fuel o None s = (s', Ok st) ∧
    EventStoreFacts.matches org_value config_value keys_value group_value s o st ∧
    Fold.revision st = Revision.new (N.of_nat (length (EventStoreFacts.log_of s o))).
Proof.
  intros Hw Hn Hf. simpl.
  pose proof (EventStoreFacts.run_inv to_vec sha256_hex sign_b64 org_value config_value keys_value
    group_value Horg Hto_value ops 0 _ (EventStoreFacts.store_inv_new _ _ _ _ _ _ _) Hn Hw) as Hi.
  destruct (EventStoreFacts.fold_at_live _ _ _ _ _ _ _ fuel _ _ o Hi Hf)
    as (s' & st & ? & _ & ? & ?). eauto.
Qed.

(** The event logs stay sound: after any sequence of mutations every
    organization's log is gap-free from sequence number 1, has at most one
    event per mutation, every event carries the signature over its own
    canonical bytes for that organization, and the next mutation returns a
    value or an error (no [unreachable!] is reached). *)
Theorem event_store_logs_sound ops op o :
  Forall EventStore.op_wf (ops ++ [op]) → (N.of_nat (S (length ops)) < 2 ^ 64)%N →
  let s := run ops EventStore.new in
  gap_free (EventStoreFacts.log_of s o) ∧
  length (EventStoreFacts.log_of s o) ≤ length ops ∧
  (∀ e, e ∈ EventStoreFacts.log_of s o →
     Envelope.signature e =
     sign_b64 (Canonical.canonical_envelope_bytes to_vec sha256_hex e o)) ∧
  returns (EventStore.exec to_vec sha256_hex sign_b64 org_value config_value keys_value
             group_value op s).2.
Proof.
  intros [Hw Hop]%Forall_app Hn. simpl. apply Forall_cons in Hop as [Hop _].
  pose proof (EventStoreFacts.run_inv to_vec sha256_hex sign_b64 org_value config_value keys_value
    group_value Horg Hto_value ops 0 _ (EventStoreFacts.store_inv_new _ _ _ _ _ _ _) ltac:(simpl; lia) Hw)
    as Hi. simpl in Hi. split_and!.
  - by apply (EventStoreFacts.i_gap _ _ _ _ _ _ _ _ _ Hi).
  - by apply (EventStoreFacts.i_len _ _ _ _ _ _ _ _ _ Hi).
  - intros e He. by apply (EventStoreFacts.i_signed _ _ _ _ _ _ _ _ _ Hi) in He.
  - destruct (EventStoreFacts.exec_keeps to_vec sha256_hex sign_b64 org_value config_value
      keys_value group_value Horg Hto_value _ _ op Hi Hn Hop) as (s' & r & -> & _ & Hr). done.
Qed.

(** Paging is transparent: a read pinned to a revision, collected in
    pages of 100 events and stopping as soon as the revision is covered,
    gives the same state or the same error as folding the whole log at
    once. *)
Theorem fold_at_paging_transparent ops o r fuel :
  Forall EventStore.op_wf ops → (N.of_nat (length ops) < 2 ^ 64)%N →
  length ops < fuel * Replay.FOLD_PAGE_SIZE → (0 < Revision.value r)%N →
  let s := run ops EventStore.new in
  (EventStore.fold_at fuel o (Some r) s).2 =
  map_err store_err (Fold.fold_events (EventStoreFacts.log_of s o) r).
Proof.
  intros Hw Hn Hf Hr. simpl.
  pose proof (EventStoreFacts.run_inv to_vec sha256_hex sign_b64 org_value config_value keys_value
    group_value Horg Hto_value ops 0 _ (EventStoreFacts.store_inv_new _ _ _ _ _ _ _) Hn Hw) as Hi.
  by destruct (EventStoreFacts.fold_at_pinned _ _ _ _ _ _ _ fuel _ _ o r Hi Hf Hr)
    as (s' & -> & _).
Qed.
End theorems.

(** Witness: the sample run read at revision 3. *)
Lemma fold_at_paging_transparent_witness :
  let s := EventStore.run EventStoreSample.to_vec id id EventStoreSample.org_value
    EventStoreSample.config_value EventStoreSample.keys_value EventStoreSample.group_value
             EventStoreSample.ops EventStore.new in
  (EventStore.fold_at 1 "acme" (Some (Revision.new 3)) s).2 =
  map_err store_err (Fold.fold_events (EventStoreFacts.log_of s "acme") (Revision.new 3)).
Proof.
  apply (fold_at_paging_transparent EventStoreSample.to_vec id id EventStoreSample.org_value
    EventStoreSample.config_value EventStoreSample.keys_value EventStoreSample.group_value
    EventStoreSample.org_is_object EventStoreSample.to_value_returns
    EventStoreSample.ops "acme" (Revision.new 3) 1).
  - apply EventStoreSample.ops_wf.
  - reflexivity.
  - apply Nat.ltb_lt. reflexivity.
  - reflexivity.
Defined.

(** Witness: the sample run followed by a revocation. *)
Lemma event_store_logs_sound_witness :
  gap_free (EventStoreFacts.log_of
    (EventStore.run EventStoreSample.to_vec id id EventStoreSample.org_value
    EventStoreSample.config_value EventStoreSample.keys_value EventStoreSample.group_value EventStoreSample.ops EventStore.new) "acme").
Proof.
  apply (event_store_logs_sound EventStoreSample.to_vec id id EventStoreSample.org_value
    EventStoreSample.config_value EventStoreSample.keys_value EventStoreSample.group_value
    EventStoreSample.org_is_object EventStoreSample.to_value_returns
    EventStoreSample.ops
    (EventStore.RevokeKey EventStoreSample.st "acme" "k1" Envelope.System) "acme").
  - apply Forall_app. split; [apply EventStoreSample.ops_wf|]. repeat constructor; discriminate.
  - reflexivity.
Defined.

(** Witness: the sample run, whose second mutation is rejected and whose log has six events. *)
Lemma event_store_replays_to_live_witness :
  let s := EventStore.run EventStoreSample.to_vec id id EventStoreSample.org_value
    EventStoreSample.config_value EventStoreSample.keys_value EventStoreSample.group_value
             EventStoreSample.ops EventStore.new in
  length (EventStoreFacts.log_of s "acme") = 6 ∧
  ∃ s' st, EventStore.fold_at 1 "acme" None s = (s', Ok st) ∧
    EventStoreFacts.matches EventStoreSample.org_value EventStoreSample.config_value
      EventStoreSample.keys_value EventStoreSample.group_value s "acme" st.
Proof.
  intros s. split; [by_eval|].
  destruct (event_store_replays_to_live EventStoreSample.to_vec id id EventStoreSample.org_value
    EventStoreSample.config_value EventStoreSample.keys_value EventStoreSample.group_value
    EventStoreSample.org_is_object EventStoreSample.to_value_returns
    EventStoreSample.ops "acme" 1) as (s' & st & Hf & Hm & _).
  - apply EventStoreSample.ops_wf.
  - reflexivity.
  - apply Nat.ltb_lt. reflexivity.
  - exists s', st. split; [exact Hf|exact Hm].
Defined.
