(* ===== verification/Dynamo.v ===== *)
(** The DynamoDB side of the control plane: what its code relies on.  The
    service is an interface: requests as the code builds them (items,
    conditions, transactions), a class with the documented behaviour of the
    calls the code makes, and programs over those calls, run concurrently
    against one table.  Decimal attributes and zero-padded sort keys
    ([event_log.rs], [event_sk]) are at the end. *)

From S2P Require Import Prelude RustStr Org.
From stdpp Require Import pretty.

(** * Requests *)
Module Dynamo.
Inductive AttributeValue := S (s : string) | N (n : string) | Bool (b : bool).
#[global] Instance AttributeValue_eq_dec : EqDecision AttributeValue.
Proof. solve_decision. Defined.

Abbreviation item := (gmap string AttributeValue).
(** Partition key and sort key. *)
Definition key : Type := string * string.

(** The key attribute names of the schema file. *)
Definition pk : string := "PK".
Definition sk : string := "SK".

Definition as_s (v : AttributeValue) : option string :=
  match v with S s => Some s | _ => None end.
Definition as_n (v : AttributeValue) : option string :=
  match v with N n => Some n | _ => None end.

(** The condition expressions the code writes. *)
Inductive condition :=
| Always
| AttributeNotExists (attr : string)
| AttributeExists (attr : string)
| AttributeEquals (attr : string) (v : AttributeValue).
#[global] Instance condition_eq_dec : EqDecision condition.
Proof. solve_decision. Defined.

(** One item of a transaction: [SET attr = v] on a key, a put, a delete. *)
Inductive write :=
| Update (k : key) (attr : string) (v : AttributeValue) (c : condition)
| Put (i : item) (c : condition)
| Delete (k : key) (c : condition).
#[global] Instance write_eq_dec : EqDecision write.
Proof. solve_decision. Defined.

(** What a transaction or a conditional put answers.  A cancelled
    transaction lists a reason code per item. *)
Inductive outcome :=
| Committed
| Cancelled (msg : string) (reasons : list (option string))
| Failed (msg : string).
Inductive put_outcome :=
| Stored
| ConditionFailed (msg : string)
| PutFailed (msg : string).

Definition key_of (i : item) : option key :=
  p ← i !! pk ≫= as_s; s ← i !! sk ≫= as_s; Some (p, s).
Definition write_key (w : write) : option key :=
  match w with Update k _ _ _ | Delete k _ => Some k | Put i _ => key_of i end.
Definition write_condition (w : write) : condition :=
  match w with Update _ _ _ c | Put _ c | Delete _ c => c end.

(** ** The meaning of a request on the item at its key *)
Definition holds (c : condition) (current : option item) : bool :=
  match c with
  | Always => true
  | AttributeNotExists a => bool_decide ((current ≫= lookup a) = None)
  | AttributeExists a => bool_decide (is_Some (current ≫= lookup a))
  | AttributeEquals a v => bool_decide ((current ≫= lookup a) = Some v)
  end.
(** An update of a missing item creates it with its key attributes. *)
Definition effect (w : write) (current : option item) : option item :=
  match w with
  | Update (p, s) a v _ =>
      Some (<[a := v]> (default (<[pk := S p]> (<[sk := S s]> ∅)) current))
  | Put i _ => Some i
  | Delete _ _ => None
  end.
End Dynamo.

(** * The service *)

(** The calls the code makes.  [transact] and [put_item] relate the table
    before and after to the answer; their boolean says whether the request
    took effect, which a failed answer does not tell the caller. *)
Class DynamoService (T : Type) := {
  get_item : T → Dynamo.key → option Dynamo.item;
  transact : T → list Dynamo.write → T → Dynamo.outcome → bool → Prop;
  put_item : T → Dynamo.item → Dynamo.condition → T → Dynamo.put_outcome → bool → Prop;
}.

Section laws.
Context {T : Type} `{DynamoService T}.
Implicit Types (t : T) (ws : list Dynamo.write).

Definition condition_holds t (w : Dynamo.write) : Prop :=
  ∃ k, Dynamo.write_key w = Some k ∧
       Dynamo.holds (Dynamo.write_condition w) (get_item t k) = true.
(** All the writes of a request are in the table, and nothing else changed. *)
Definition applied t ws t' : Prop :=
  (∀ w k, w ∈ ws → Dynamo.write_key w = Some k →
     get_item t' k = Dynamo.effect w (get_item t k)) ∧
  (∀ k, (∀ w, w ∈ ws → Dynamo.write_key w ≠ Some k) → get_item t' k = get_item t k).
Definition unchanged t t' : Prop := ∀ k, get_item t' k = get_item t k.
End laws.

(** Documented behaviour: a transaction takes effect as a whole, only when
    all its conditions hold, or not at all; a commit took effect and a
    cancellation did not; the reason [ConditionalCheckFailed] at a position
    means that the condition there did not hold.  A conditional put is alike;
    it is refused when its condition does not hold (the client may have
    repeated a put whose answer was lost, so the table is the one after). *)
Class DynamoLaws (T : Type) `{DynamoService T} : Prop := {
  law_effect t ws t' out : transact t ws t' out true →
    Forall (condition_holds t) ws ∧ applied t ws t' ∧ NoDup (Dynamo.write_key <$> ws);
  law_no_effect t ws t' out : transact t ws t' out false → unchanged t t';
  law_committed t ws t' b : transact t ws t' Dynamo.Committed b → b = true;
  law_cancelled t ws t' msg rs b : transact t ws t' (Dynamo.Cancelled msg rs) b → b = false;
  law_reason t ws t' msg rs b i w : transact t ws t' (Dynamo.Cancelled msg rs) b →
    rs !! i = Some (Some "ConditionalCheckFailed") → ws !! i = Some w →
    ¬ condition_holds t w;
  law_put_effect t i c t' out : put_item t i c t' out true →
    condition_holds t (Dynamo.Put i c) ∧ applied t [Dynamo.Put i c] t';
  law_put_no_effect t i c t' out : put_item t i c t' out false → unchanged t t';
  law_stored t i c t' b : put_item t i c t' Dynamo.Stored b → b = true;
  law_refused t i c t' msg b : put_item t i c t' (Dynamo.ConditionFailed msg) b →
    ¬ condition_holds t' (Dynamo.Put i c);
}.

(** * Programs *)

(** A computation that awaits calls to the service. *)
Inductive prog (A : Type) : Type :=
| Done (r : result CpError.t A)
| GetItem (k : Dynamo.key) (cont : result string (option Dynamo.item) → prog A)
| PutItem (i : Dynamo.item) (c : Dynamo.condition) (cont : Dynamo.put_outcome → prog A)
| Transact (ws : list Dynamo.write) (cont : Dynamo.outcome → prog A).
Arguments Done {_} _.
Arguments GetItem {_} _ _.
Arguments PutItem {_} _ _ _.
Arguments Transact {_} _ _.

#[global] Instance prog_ret : MRet prog := λ A a, Done (Ok a).
Fixpoint prog_bind_fn {A B} (f : A → prog B) (p : prog A) : prog B :=
  match p with
  | Done (Ok a) => f a
  | Done (Err e) => Done (Err e)
  | Done (Stuck w) => Done (Stuck w)
  | GetItem k cont => GetItem k (λ r, prog_bind_fn f (cont r))
  | PutItem i c cont => PutItem i c (λ r, prog_bind_fn f (cont r))
  | Transact ws cont => Transact ws (λ r, prog_bind_fn f (cont r))
  end.
#[global] Instance prog_bind : MBind prog := @prog_bind_fn.
(** The awaited value of a pure step. *)
Definition pure {A} (r : result CpError.t A) : prog A := Done r.

(** The result of a program as a value, for code that handles errors. *)
Fixpoint attempt {A} (p : prog A) : prog (result CpError.t A) :=
  match p with
  | Done r => Done (Ok r)
  | GetItem k cont => GetItem k (λ r, attempt (cont r))
  | PutItem i c cont => PutItem i c (λ r, attempt (cont r))
  | Transact ws cont => Transact ws (λ r, attempt (cont r))
  end.

(** ** Interleaving *)

(** Requests in flight against one table; a step answers one call of one
    request.  Its label is the transaction that took effect, with the
    request that sent it. *)
Section pool.
Context {T : Type} `{DynamoService T} {A : Type}.

Record world := { table : T; pool : list (prog A) }.
Definition label : Type := nat * list Dynamo.write.

Inductive step : world → list label → world → Prop :=
| step_get t p n k cont :
    p !! n = Some (GetItem k cont) →
    step {| table := t; pool := p |} []
         {| table := t; pool := <[n := cont (Ok (get_item t k))]> p |}
| step_get_failed t p n k cont e :
    p !! n = Some (GetItem k cont) →
    step {| table := t; pool := p |} []
         {| table := t; pool := <[n := cont (Err e)]> p |}
| step_put t p n i c cont t' out b :
    p !! n = Some (PutItem i c cont) → put_item t i c t' out b →
    step {| table := t; pool := p |} []
         {| table := t'; pool := <[n := cont out]> p |}
| step_transact t p n ws cont t' out b :
    p !! n = Some (Transact ws cont) → transact t ws t' out b →
    step {| table := t; pool := p |} (if b then [(n, ws)] else [])
         {| table := t'; pool := <[n := cont out]> p |}.

Inductive steps : world → list label → world → Prop :=
| steps_nil w : steps w [] w
| steps_cons w l w' h w'' : step w l w' → steps w' h w'' → steps w (l ++ h) w''.

(** The run of one request: the transactions it landed and what is left of it. *)
Inductive residual : prog A → list (list Dynamo.write) → prog A → Prop :=
| residual_nil p : residual p [] p
| residual_get k cont r h p : residual (cont r) h p → residual (GetItem k cont) h p
| residual_put i c cont out h p : residual (cont out) h p → residual (PutItem i c cont) h p
| residual_landed ws cont out h p :
    (∀ msg rs, out ≠ Dynamo.Cancelled msg rs) →
    residual (cont out) h p → residual (Transact ws cont) (ws :: h) p
| residual_not_landed ws cont out h p :
    out ≠ Dynamo.Committed → residual (cont out) h p → residual (Transact ws cont) h p.
End pool.
Arguments world : clear implicits.

(** The transactions of a history that one request landed. *)
Definition sent_by (n : nat) (h : list label) : list (list Dynamo.write) :=
  omap (λ l, if bool_decide (l.1 = n) then Some l.2 else None) h.

Module DynamoFacts.
Section facts.
Context {T : Type} `{DynamoLaws T} {A : Type}.
Implicit Types (w : world T A) (p : prog A).

Lemma sent_by_app n h h' : sent_by n (h ++ h') = sent_by n h ++ sent_by n h'.
Proof. apply omap_app. Qed.

(** One step of a request, seen from that request. *)
Lemma step_local w l w' n p :
  step w l w' → pool w !! n = Some p →
  ∃ p', pool w' !! n = Some p' ∧
    ∀ h q, residual p' h q → residual p (sent_by n l ++ h) q.
Proof.
  intros Hs Hp.
  assert (∀ m q (pl : list (prog A)), pl !! n = Some p → m ≠ n → <[m := q]> pl !! n = Some p) as Hne.
  { intros m q pl Hpl Hm. by rewrite list_lookup_insert_ne. }
  destruct Hs as [t pl m k cont Hm|t pl m k cont e Hm|t pl m i c cont t' out b Hm Hput|
                  t pl m ws cont t' out b Hm Htx]; simpl in *;
    (destruct (decide (m = n)) as [->|Hmn];
     [simplify_eq; eexists; split; [apply list_lookup_insert_eq; by eapply lookup_lt_Some|]
     |exists p; split; [by apply Hne|]]);
    try (intros h q Hq; by eauto using @residual).
  - intros h q Hq. destruct b; simpl.
    + unfold sent_by; simpl. rewrite bool_decide_eq_true_2 by done.
      apply residual_landed with out; [|done]. intros msg rs ->.
      by discriminate (law_cancelled _ _ _ _ _ _ Htx).
    + apply residual_not_landed with out; [|done]. intros ->.
      by discriminate (law_committed _ _ _ _ Htx).
  - intros h q Hq. destruct b; simpl; [|done].
    unfold sent_by; simpl. by rewrite bool_decide_eq_false_2.
Qed.

Lemma steps_local w h w' n p :
  steps w h w' → pool w !! n = Some p →
  ∃ q, pool w' !! n = Some q ∧ residual p (sent_by n h) q.
Proof.
  intros Hs. revert p. induction Hs as [w|w l w' h w'' Hstep _ IH]; intros p Hp.
  - exists p. split; [done|constructor].
  - destruct (step_local _ _ _ _ _ Hstep Hp) as (p' & Hp' & Hres).
    destruct (IH _ Hp') as (q & Hq & Hr). exists q. split; [done|].
    rewrite sent_by_app. by apply Hres.
Qed.

(** ** Running a bind *)
Lemma residual_bind_inv {B} (f : A → prog B) p h q :
  residual (p ≫= f) h q →
  (∃ p', residual p h p' ∧ q = p' ≫= f) ∨
  (∃ a h1 h2, residual p h1 (Done (Ok a)) ∧ residual (f a) h2 q ∧ h = h1 ++ h2).
Proof.
  revert h. induction p as [[a|e|why]|k cont IH|i c cont IH|ws cont IH]; intros h Hr.
  - right. exists a, [], h. split_and!; [constructor|done|done].
  - left. inversion Hr; subst. exists (Done (Err e)). split; [constructor|done].
  - left. inversion Hr; subst. exists (Done (Stuck why)). split; [constructor|done].
  - inversion Hr as [|? ? out ? ? Hx| | |]; subst; [left; eexists; split; [constructor|done]|].
    destruct (IH out _ Hx) as [(p' & ? & ->)|(a & h1 & h2 & ? & ? & ->)];
      [left; eauto using @residual|right; exists a, h1, h2; eauto using @residual].
  - inversion Hr as [| |? ? ? out ? ? Hx| |]; subst; [left; eexists; split; [constructor|done]|].
    destruct (IH out _ Hx) as [(p' & ? & ->)|(a & h1 & h2 & ? & ? & ->)];
      [left; eauto using @residual|right; exists a, h1, h2; eauto using @residual].
  - inversion Hr as [| | |? ? out h' ? Hout Hx|? ? out ? ? Hout Hx]; subst;
      [left; eexists; split; [constructor|done]|..];
      destruct (IH out _ Hx) as [(p' & ? & ->)|(a & h1 & h2 & ? & ? & ->)].
    + left. eauto using @residual.
    + right. exists a, (ws :: h1), h2. eauto using @residual.
    + left. eauto using @residual.
    + right. exists a, h1, h2. eauto using @residual.
Qed.

(** A run of a bind that is over is a run of each half. *)
Lemma residual_bind_done {B} (f : A → prog B) p h r :
  residual (p ≫= f) h (Done r) →
  (∃ h1 h2 a, residual p h1 (Done (Ok a)) ∧ residual (f a) h2 (Done r) ∧ h = h1 ++ h2) ∨
  (∃ e, residual p h (Done (Err e)) ∧ r = Err e) ∨
  (∃ why, residual p h (Done (Stuck why)) ∧ r = Stuck why).
Proof.
  intros [(p' & Hp & He)|(a & h1 & h2 & ? & ? & ->)]%residual_bind_inv.
  - destruct p' as [[a|e|why]|? ?|? ? ?|? ?]; simplify_eq/=.
    + left. exists h, [], a. rewrite app_nil_r, <-He. split_and!; [done|constructor|done].
    + right; left. eauto.
    + right; right. eauto.
  - left. eauto 10.
Qed.
End facts.
End DynamoFacts.

(** * A table *)

(** A service that satisfies the laws: a finite map, where a transaction
    commits when its conditions hold and is cancelled otherwise, or fails
    with or without effect. *)
Module GmapTable.
Abbreviation t := (gmap Dynamo.key Dynamo.item).

Definition write_ok (tb : t) (w : Dynamo.write) : bool :=
  match Dynamo.write_key w with
  | Some k => Dynamo.holds (Dynamo.write_condition w) (tb !! k)
  | None => false
  end.
Definition write_one (tb : t) (w : Dynamo.write) : t :=
  match Dynamo.write_key w with
  | Some k => partial_alter (Dynamo.effect w) k tb
  | None => tb
  end.
Definition write_all (tb : t) (ws : list Dynamo.write) : t := foldl write_one tb ws.
Definition accepts (tb : t) (ws : list Dynamo.write) : bool :=
  forallb (write_ok tb) ws && bool_decide (NoDup (Dynamo.write_key <$> ws)).
Definition reasons (tb : t) (ws : list Dynamo.write) : list (option string) :=
  (λ w, if write_ok tb w then None else Some "ConditionalCheckFailed") <$> ws.

Inductive transact : t → list Dynamo.write → t → Dynamo.outcome → bool → Prop :=
| transact_commit tb ws :
    accepts tb ws = true → transact tb ws (write_all tb ws) Dynamo.Committed true
| transact_cancel tb ws :
    accepts tb ws = false →
    transact tb ws tb (Dynamo.Cancelled "transaction cancelled" (reasons tb ws)) false
| transact_lost tb ws msg : transact tb ws tb (Dynamo.Failed msg) false
| transact_unknown tb ws msg :
    accepts tb ws = true → transact tb ws (write_all tb ws) (Dynamo.Failed msg) true.
Inductive put_item : t → Dynamo.item → Dynamo.condition → t → Dynamo.put_outcome → bool → Prop :=
| put_stored tb i c :
    write_ok tb (Dynamo.Put i c) = true →
    put_item tb i c (write_one tb (Dynamo.Put i c)) Dynamo.Stored true
| put_refused tb i c :
    write_ok tb (Dynamo.Put i c) = false →
    put_item tb i c tb (Dynamo.ConditionFailed "the conditional request failed") false.

#[global] Instance service : DynamoService t := {
  get_item tb k := tb !! k;
  transact := transact;
  put_item := put_item;
}.

Lemma write_ok_true (tb : t) w : write_ok tb w = true ↔ condition_holds tb w.
Proof.
  unfold write_ok, condition_holds. destruct (Dynamo.write_key w) as [k|]; naive_solver.
Qed.
Lemma write_all_other tb ws k :
  (∀ w, w ∈ ws → Dynamo.write_key w ≠ Some k) → write_all tb ws !! k = tb !! k.
Proof.
  revert tb. induction ws as [|w ws IH]; intros tb Hk; [done|]. simpl.
  rewrite IH by set_solver. unfold write_one.
  destruct (Dynamo.write_key w) as [k'|] eqn:Hw; [|done].
  apply lookup_partial_alter_ne. intros ->. apply (Hk w); [set_solver|done].
Qed.
Lemma write_all_applied tb ws :
  NoDup (Dynamo.write_key <$> ws) → applied tb ws (write_all tb ws).
Proof.
  intros Hnd. split; [|apply write_all_other]. revert tb.
  induction ws as [|w' ws IH]; intros tb w k Hw Hk; [by apply elem_of_nil in Hw|].
  simpl in Hnd. apply NoDup_cons in Hnd as [Hni Hnd]. simpl in *.
  apply elem_of_cons in Hw as [<-|Hw].
  - rewrite write_all_other.
    + unfold write_one. by rewrite Hk, lookup_partial_alter_eq.
    + intros v Hv Hvk. apply Hni, list_elem_of_fmap. exists v. split; [congruence|done].
  - rewrite (IH Hnd _ w k Hw Hk). f_equal. unfold write_one.
    destruct (Dynamo.write_key w') as [k'|] eqn:Hw'; [|done].
    apply lookup_partial_alter_ne. intros ->. apply Hni, list_elem_of_fmap.
    exists w. split; [congruence|done].
Qed.
Lemma accepts_true tb ws :
  accepts tb ws = true → Forall (condition_holds tb) ws ∧ NoDup (Dynamo.write_key <$> ws).
Proof.
  unfold accepts. intros [Hf Hn]%andb_true_iff. split; [|by apply bool_decide_eq_true in Hn].
  apply Forall_forall. intros w Hw%list_elem_of_In. rewrite forallb_forall in Hf.
  by apply write_ok_true, Hf.
Qed.

#[global] Instance laws : DynamoLaws t.
Proof.
  split.
  - intros tb ws tb' out H. inversion H; subst;
      (destruct (accepts_true tb ws) as [? ?]; [done|]; split_and!; [done|by apply write_all_applied|done]).
  - intros tb ws tb' out H. inversion H; subst; by intros k.
  - intros tb ws tb' b H. by inversion H.
  - intros tb ws tb' msg rs b H. by inversion H.
  - intros tb ws tb' msg rs b i w H Hi Hw Hc. inversion H; subst. unfold reasons in Hi.
    rewrite list_lookup_fmap, Hw in Hi. simpl in Hi. apply write_ok_true in Hc.
    by rewrite Hc in Hi.
  - intros tb i c tb' out H. inversion H; subst. split; [by apply write_ok_true|].
    apply (write_all_applied tb [Dynamo.Put i c]). simpl. apply NoDup_singleton.
  - intros tb i c tb' out H. inversion H; subst. by intros k.
  - intros tb i c tb' b H. by inversion H.
  - intros tb i c tb' msg b H Hc. inversion H; subst. apply write_ok_true in Hc. congruence.
Qed.

(** ** Schedules *)

(** Let request [n] make its next call, without failures. *)
Definition advance {A} (n : nat) (w : world t A) : option (list label * world t A) :=
  p ← pool w !! n;
  match p with
  | Done _ => None
  | GetItem k cont =>
      Some ([], {| table := table w; pool := <[n := cont (Ok (table w !! k))]> (pool w) |})
  | PutItem i c cont =>
      if write_ok (table w) (Dynamo.Put i c)
      then Some ([], {| table := write_one (table w) (Dynamo.Put i c);
                        pool := <[n := cont Dynamo.Stored]> (pool w) |})
      else Some ([], {| table := table w;
                        pool := <[n := cont (Dynamo.ConditionFailed
                                   "the conditional request failed")]> (pool w) |})
  | Transact ws cont =>
      if accepts (table w) ws
      then Some ([(n, ws)], {| table := write_all (table w) ws;
                               pool := <[n := cont Dynamo.Committed]> (pool w) |})
      else Some ([], {| table := table w;
                        pool := <[n := cont (Dynamo.Cancelled "transaction cancelled"
                                   (reasons (table w) ws))]> (pool w) |})
  end.
Fixpoint run_schedule {A} (schedule : list nat) (w : world t A)
    : option (list label * world t A) :=
  match schedule with
  | [] => Some ([], w)
  | n :: schedule =>
      '(l, w') ← advance n w;
      '(h, w'') ← run_schedule schedule w';
      Some (l ++ h, w'')
  end.

Lemma advance_step {A} (n : nat) (w : world t A) l w' : advance n w = Some (l, w') → step w l w'.
Proof.
  unfold advance. destruct w as [tb pl]. simpl. intros (p & Hp & Ha)%bind_Some.
  destruct p as [r|k cont|i c cont|ws cont]; simplify_eq.
  - exact (step_get tb pl n k cont Hp).
  - destruct (write_ok tb _) eqn:Hok; simplify_eq;
      (eapply step_put; [done|]); by constructor.
  - destruct (accepts tb ws) eqn:Hok; simplify_eq.
    + by eapply (step_transact _ _ _ _ _ _ _ true); [|constructor].
    + by eapply (step_transact _ _ _ _ _ _ _ false); [|constructor].
Qed.
Lemma run_schedule_steps {A} (schedule : list nat) (w : world t A) h w' :
  run_schedule schedule w = Some (h, w') → steps w h w'.
Proof.
  revert w h. induction schedule as [|n schedule IH]; intros w h Hr; simpl in Hr; simplify_eq.
  - constructor.
  - apply bind_Some in Hr as ([l w1] & Ha & Hr). apply bind_Some in Hr as ([h' w2] & Hr & [= <- <-]).
    econstructor; [by eapply advance_step|by apply IH].
Qed.
End GmapTable.
