(* ===== verification/DynamoLog.v ===== *)
(** The DynamoDB event log of the control plane
    ([control-plane/src/event_log.rs]): event items and their sort keys, and
    the append transaction (compare-and-swap on the organization's counter,
    event put and state write in one transaction, with retries).  The main
    theorems are about any number of appends interleaved against one table:
    the log is the sequence of the transactions that took effect. *)

From S2P Require Import Prelude RustStr Decimal Ident Fgrn Store Event Org EventStore Dynamo.
From stdpp Require Import pretty.

(** [Display] of the control plane's errors. *)
Definition cp_error_str (e : CpError.t) : string :=
  match e with
  | CpError.Config m => "config error: " +:+ m
  | CpError.Conflict m => "conflict: " +:+ m
  | CpError.NotFound m => "not found: " +:+ m
  | CpError.RevisionMismatch n => "revision mismatch (current revision: " +:+ pretty n +:+ ")"
  | CpError.InvalidEtag raw => "invalid etag: " +:+ raw
  | CpError.Store m => "store error: " +:+ m
  end.

(** UTF-8 validation of a byte string ([String::from_utf8]). *)
Definition in_range (lo hi : N) (a : ascii) : bool :=
  bool_decide (lo ≤ byte_val a)%N && bool_decide (byte_val a ≤ hi)%N.
Fixpoint valid_utf8 (s : string) : bool :=
  match s with
  | EmptyString => true
  | String a r =>
      if in_range 0 127 a then valid_utf8 r
      else
        match r with
        | EmptyString => false
        | String b r1 =>
            if in_range 194 223 a then in_range 128 191 b && valid_utf8 r1
            else
              match r1 with
              | EmptyString => false
              | String c r2 =>
                  if in_range 224 239 a
                  then in_range (if bool_decide (byte_val a = 224%N) then 160 else 128)
                                (if bool_decide (byte_val a = 237%N) then 159 else 191) b &&
                       in_range 128 191 c && valid_utf8 r2
                  else
                    match r2 with
                    | EmptyString => false
                    | String d r3 =>
                        in_range 240 244 a &&
                        in_range (if bool_decide (byte_val a = 240%N) then 144 else 128)
                                 (if bool_decide (byte_val a = 244%N) then 143 else 191) b &&
                        in_range 128 191 c && in_range 128 191 d && valid_utf8 r3
                    end
              end
        end
  end.

(** * The event log *)
Module EventLog.
Section log.
(** [serde_json] on payloads and actors. *)
Context (json_from_str : string → result string Json.t).
Context (actor_to_string : Envelope.Actor → result string string).
Context (actor_from_str : string → result string Envelope.Actor).

Definition SK_SEQ : string := "SEQ".
Definition EVT_PREFIX : string := "EVT#".
Definition EVT_SK_MAX : string := "EVT#99999999999999999999".
Definition MAX_APPEND_ATTEMPTS : nat := 50.

Inductive StateGuard := NoGuard | MustNotExist.
#[global] Instance StateGuard_eq_dec : EqDecision StateGuard.
Proof. solve_decision. Defined.
Record StatePut := {
  put_pk : string;
  put_sk : string;
  attributes : Dynamo.item;
  guard : StateGuard;
}.
Record StateDelete := { del_pk : string; del_sk : string }.

Definition event_sk (seq : N) : string := EVT_PREFIX +:+ zero_pad 20 (pretty seq).

Definition event_item (org_pk : string) (envelope : Envelope.t) (payload_bytes : string)
    : result CpError.t Dynamo.item :=
  actor_json ← map_err (λ e, CpError.Store ("serialize event actor: " +:+ e))
                 (actor_to_string (Envelope.actor envelope));
  payload_str ← (if valid_utf8 payload_bytes then Ok payload_bytes
                 else Err (CpError.Store "event payload is not valid UTF-8"));
  Ok (<["signature" := Dynamo.S (Envelope.signature envelope)]>
     (<["key_id" := Dynamo.S (Envelope.key_id envelope)]>
     (<["payload" := Dynamo.S payload_str]>
     (<["schema_version" := Dynamo.N (pretty (Envelope.schema_version envelope))]>
     (<["narrowing" := Dynamo.Bool (Envelope.narrowing envelope)]>
     (<["actor" := Dynamo.S actor_json]>
     (<["occurred_at" := Dynamo.S (Envelope.occurred_at envelope)]>
     (<["kind" := Dynamo.S (EventKind.as_str (Envelope.kind envelope))]>
     (<["seq" := Dynamo.N (pretty (Revision.value (Envelope.seq envelope)))]>
     (<["event_id" := Dynamo.S (Envelope.id_str (Envelope.event_id envelope))]>
     (<[Dynamo.sk := Dynamo.S (event_sk (Revision.value (Envelope.seq envelope)))]>
     (<[Dynamo.pk := Dynamo.S org_pk]> ∅)))))))))))).

Definition get_s (item : Dynamo.item) (key : string) : result CpError.t string :=
  ok_or (match item !! key with Some (Dynamo.S v) => Some v | _ => None end)
    (CpError.Store ("missing or non-string attribute: " +:+ key)).

(** [item.get("seq").and_then(as_n).and_then(parse::<u64>)]. *)
Definition seq_attr (item : Dynamo.item) : option N :=
  match item !! "seq" with Some (Dynamo.N n) => parse_u64 n | _ => None end.

Definition envelope_from_item (item : Dynamo.item) : result CpError.t Envelope.t :=
  payload_str ← get_s item "payload";
  payload ← map_err (λ e, CpError.Store ("deserialize event payload: " +:+ e))
              (json_from_str payload_str);
  actor_json ← get_s item "actor";
  actor ← map_err (λ e, CpError.Store ("deserialize event actor: " +:+ e))
            (actor_from_str actor_json);
  event_id_str ← get_s item "event_id";
  event_id ← map_err (λ e, CpError.Store ("invalid stored event_id: " +:+ authz_error_str e))
               (Envelope.event_id_try_new event_id_str);
  seq ← ok_or (seq_attr item)
          (CpError.Store "missing or invalid 'seq' attribute");
  kind_str ← get_s item "kind";
  kind ← map_err (λ e, CpError.Store ("invalid stored event kind: " +:+ authz_error_str e))
           (EventKind.from_str kind_str);
  occurred_at ← get_s item "occurred_at";
  key_id ← get_s item "key_id";
  signature ← get_s item "signature";
  let draft := Envelope.draft_new {|
    Envelope.p_event_id := event_id; Envelope.p_seq := Revision.new seq;
    Envelope.p_kind := kind; Envelope.p_occurred_at := occurred_at;
    Envelope.p_actor := actor; Envelope.p_payload := payload |} in
  Ok (Envelope.from_signed draft key_id signature).

(** A consistent read, with [map_sdk_error] on failure. *)
Definition get (k : Dynamo.key) : prog (option Dynamo.item) :=
  GetItem k (λ r, pure (map_err CpError.Store r)).
Definition send (ws : list Dynamo.write) : prog Dynamo.outcome :=
  Transact ws (λ out, pure (Ok out)).

Definition read_counter (org_pk : string) : prog N :=
  item ← get (org_pk, SK_SEQ);
  match item with
  | None => mret 0%N
  | Some item =>
      pure (ok_or (seq_attr item)
              (CpError.Store "missing or invalid counter 'seq' attribute"))
  end.

Definition counter_update (org_pk : string) (current candidate : N) : Dynamo.write :=
  Dynamo.Update (org_pk, SK_SEQ) "seq" (Dynamo.N (pretty candidate))
    (if bool_decide (current = 0%N) then Dynamo.AttributeNotExists "seq"
     else Dynamo.AttributeEquals "seq" (Dynamo.N (pretty current))).

Definition check_expected_revision (current : N) (expected : option Revision.t)
    : result CpError.t () :=
  match expected with
  | Some e =>
      if negb (bool_decide (current = Revision.value e))
      then Err (CpError.RevisionMismatch current) else Ok ()
  | None => Ok ()
  end.

Definition event_put (org_pk : string) (envelope : Envelope.t) (payload_bytes : string)
    : result CpError.t Dynamo.write :=
  event_attrs ← event_item org_pk envelope payload_bytes;
  Ok (Dynamo.Put event_attrs (Dynamo.AttributeNotExists Dynamo.sk)).

Definition state_put (state : StatePut) : Dynamo.write :=
  Dynamo.Put (<[Dynamo.sk := Dynamo.S (put_sk state)]>
               (<[Dynamo.pk := Dynamo.S (put_pk state)]> (attributes state)))
    (if bool_decide (guard state = MustNotExist)
     then Dynamo.AttributeNotExists Dynamo.pk else Dynamo.Always).
Definition state_delete (state : StateDelete) : Dynamo.write :=
  Dynamo.Delete (del_pk state, del_sk state) (Dynamo.AttributeExists Dynamo.pk).

(** [sdk_err.to_string()], the reasons of a cancellation, and whether the
    third item's condition failed. *)
Definition sdk_message (out : Dynamo.outcome) : string :=
  match out with
  | Dynamo.Committed => ""
  | Dynamo.Cancelled msg _ | Dynamo.Failed msg => msg
  end.
Definition cancellation_reasons (out : Dynamo.outcome) : option (list (option string)) :=
  match out with Dynamo.Cancelled _ reasons => Some reasons | _ => None end.
Definition state_failed (reasons : option (list (option string))) : bool :=
  bool_decide ((reasons ≫= lookup 2) = Some (Some "ConditionalCheckFailed")).

Definition exhausted (what org_pk : string) : CpError.t :=
  CpError.Store (what +:+ ": exhausted " +:+ pretty MAX_APPEND_ATTEMPTS +:+ " attempts for '" +:+
                 org_pk +:+ "'").

(** The retry loop of [append]; [remaining] counts the attempts left, [attempt]
    the ones made.  [build] is called anew on each attempt. *)
Section append.
Context (org_pk : string) (expected : option Revision.t).
Context (build : nat → Revision.t → result CpError.t (Envelope.t * string)).

Fixpoint append_loop (state : StatePut) (remaining attempt : nat) : prog Revision.t :=
  match remaining with
  | 0 => pure (Err (exhausted "append" org_pk))
  | S remaining =>
      current ← read_counter org_pk;
      _ ← pure (check_expected_revision current expected);
      let revision := Revision.next (Revision.new current) in
      built ← pure (build attempt revision);
      event_put ← pure (event_put org_pk built.1 built.2);
      out ← send [counter_update org_pk current (Revision.value revision); event_put;
                  state_put state];
      match out with
      | Dynamo.Committed => mret revision
      | _ =>
          let reasons := cancellation_reasons out in
          if bool_decide (guard state = MustNotExist) && state_failed reasons
          then pure (Err (CpError.Conflict
                 ("state item already exists for '" +:+ org_pk +:+ "'")))
          else if bool_decide (is_Some reasons) && negb (bool_decide (remaining = 0))
          then append_loop state remaining (S attempt)
          else pure (Err (CpError.Store (sdk_message out)))
      end
  end.
Definition append (state : StatePut) : prog Revision.t :=
  append_loop state MAX_APPEND_ATTEMPTS 0.

Fixpoint append_with_delete_loop (state : StateDelete) (remaining attempt : nat)
    : prog (option Revision.t) :=
  match remaining with
  | 0 => pure (Err (exhausted "append_with_delete" org_pk))
  | S remaining =>
      current ← read_counter org_pk;
      _ ← pure (check_expected_revision current expected);
      let revision := Revision.next (Revision.new current) in
      built ← pure (build attempt revision);
      event_put ← pure (event_put org_pk built.1 built.2);
      out ← send [counter_update org_pk current (Revision.value revision); event_put;
                  state_delete state];
      match out with
      | Dynamo.Committed => mret (Some revision)
      | Dynamo.Cancelled msg reasons =>
          if state_failed (Some reasons) then mret None
          else if negb (bool_decide (remaining = 0))
          then append_with_delete_loop state remaining (S attempt)
          else pure (Err (CpError.Store msg))
      | Dynamo.Failed msg => pure (Err (CpError.Store msg))
      end
  end.
Definition append_with_delete (state : StateDelete) : prog (option Revision.t) :=
  append_with_delete_loop state MAX_APPEND_ATTEMPTS 0.
End append.

Definition latest_revision (org_pk : string) : prog (result AuthzError.t Revision.t) :=
  n ← attempt (read_counter org_pk);
  mret (map_err (λ e, AuthzError.EvaluationFailed (cp_error_str e)) (Revision.new <$> n)).
End log.
End EventLog.

(** * Facts about sort keys *)
Module SortKeyFacts.
Import EventLog.
Lemma event_sk_inj (a b : N) : event_sk a = event_sk b → a = b.
Proof.
  unfold event_sk. intros H%DecimalFacts.string_append_inj.
  apply (f_equal (dec_value 0)) in H. unfold zero_pad in H.
  rewrite !DecimalFacts.dec_value_zeros, !DecimalFacts.dec_value_pretty in H. congruence.
Qed.
Lemma event_sk_compare (a b : N) :
  (a < 10 ^ 20)%N → (b < 10 ^ 20)%N → String.compare (event_sk a) (event_sk b) = N.compare a b.
Proof.
  intros Ha Hb. unfold event_sk. rewrite DecimalFacts.append_compare.
  apply DecimalFacts.digits_compare with 0%N.
  - rewrite !DecimalFacts.zero_pad_length; [done|apply (DecimalFacts.pretty_length b 20); [lia|done]
      |apply (DecimalFacts.pretty_length a 20); [lia|done]].
  - unfold zero_pad. by rewrite DecimalFacts.dec_value_zeros, DecimalFacts.dec_value_pretty.
  - unfold zero_pad. by rewrite DecimalFacts.dec_value_zeros, DecimalFacts.dec_value_pretty.
Qed.
End SortKeyFacts.

(** * Transactions *)

(** An append transaction: what [append] and [append_with_delete] send. *)
Record txn := {
  x_org : string;
  x_current : N;
  x_event : Dynamo.item;
  x_state : Dynamo.write;
}.
Definition x_seq (x : txn) : N := Revision.value (Revision.next (Revision.new (x_current x))).
Definition txn_writes (x : txn) : list Dynamo.write :=
  [EventLog.counter_update (x_org x) (x_current x) (x_seq x);
   Dynamo.Put (x_event x) (Dynamo.AttributeNotExists Dynamo.sk);
   x_state x].

(** The sort keys of state items: neither the counter's, nor an event's,
    nor the signing key's. *)
Definition SK_EVENT_SIGNING_KEY : string := "EVENT_SIGNING_KEY".
Definition state_sk (s : string) : bool :=
  negb (bool_decide (s = EventLog.SK_SEQ)) && negb (bool_decide (s = SK_EVENT_SIGNING_KEY)) &&
  bool_decide (RustStr.strip_prefix EventLog.EVT_PREFIX s = None).
Record txn_wf (x : txn) : Prop := {
  txn_event_key : Dynamo.key_of (x_event x) = Some (x_org x, EventLog.event_sk (x_seq x));
  txn_state_key : ∃ s, Dynamo.write_key (x_state x) = Some (x_org x, s) ∧ state_sk s = true;
}.

(** A program all of whose transactions are appends that satisfy [P], whose
    only other writes are conditional puts of signing keys, and whose results
    satisfy [V]. *)
Inductive appends {A} (P : txn → Prop) (V : result CpError.t A → Prop) : prog A → Prop :=
| only_done r : V r → appends P V (Done r)
| only_get k cont : (∀ r, returns r → appends P V (cont r)) → appends P V (GetItem k cont)
| only_put i c cont :
    (∃ o, Dynamo.key_of i = Some (o, SK_EVENT_SIGNING_KEY)) →
    c = Dynamo.AttributeNotExists Dynamo.sk →
    (∀ out, appends P V (cont out)) → appends P V (PutItem i c cont)
| only_transact x cont :
    txn_wf x → P x → (∀ out, appends P V (cont out)) →
    appends P V (Transact (txn_writes x) cont).
Abbreviation appends_only := (appends (λ _, True) (λ _, True)).

(** ** The log a sequence of transactions writes *)

(** The state item at a sort key: each transaction in turn. *)
Definition state_after (o s : string) (before : option Dynamo.item) (xs : list txn)
    : option Dynamo.item :=
  foldl (λ current x,
    if bool_decide (Dynamo.write_key (x_state x) = Some (o, s))
    then Dynamo.effect (x_state x) current else current) before xs.

(** A table holds exactly the log [xs] of an organization, over [before]. *)
Record holds_log {T} `{DynamoService T} (before t : T) (o : string) (xs : list txn) : Prop := {
  log_counter :
    (get_item t (o, EventLog.SK_SEQ) ≫= lookup "seq") =
    match xs with [] => None | _ => Some (Dynamo.N (pretty (N.of_nat (length xs)))) end;
  log_events n :
    get_item t (o, EventLog.event_sk n) =
    if bool_decide (n = 0%N) then None else x_event <$> xs !! (N.to_nat (n - 1));
  log_state s : state_sk s = true →
    get_item t (o, s) = state_after o s (get_item before (o, s)) xs;
  log_seq i x : xs !! i = Some x → x_current x = N.of_nat i;
}.

(** The transactions of one organization in a history. *)
Definition of_org (o : string) (h : list (nat * txn)) : list txn :=
  filter (λ x, x_org x = o) h.*2.

Module LogFacts.
Section facts.
Context {T : Type} `{DynamoLaws T}.
Implicit Types (before t : T) (x : txn) (xs : list txn).

Lemma state_sk_spec s : state_sk s = true →
  s ≠ EventLog.SK_SEQ ∧ s ≠ SK_EVENT_SIGNING_KEY ∧ ∀ n, s ≠ EventLog.event_sk n.
Proof.
  unfold state_sk. intros Hs. bool_prop. split_and!; [done..|]. intros n ->.
  match goal with Hp : RustStr.strip_prefix _ _ = None |- _ => discriminate Hp end.
Qed.
Lemma event_sk_not_seq n : EventLog.event_sk n ≠ EventLog.SK_SEQ.
Proof. discriminate. Qed.
Lemma event_sk_not_key n : EventLog.event_sk n ≠ SK_EVENT_SIGNING_KEY.
Proof. discriminate. Qed.

Lemma of_org_snoc o h n x :
  of_org o (h ++ [(n, x)]) = of_org o h ++ (if bool_decide (x_org x = o) then [x] else []).
Proof.
  unfold of_org. rewrite fmap_app, filter_app. f_equal. simpl.
  rewrite filter_cons, filter_nil. by repeat case_decide; case_bool_decide.
Qed.

(** The keys of a transaction. *)
Lemma txn_keys x w k :
  txn_wf x → w ∈ txn_writes x → Dynamo.write_key w = Some k →
  k = (x_org x, EventLog.SK_SEQ) ∨ k = (x_org x, EventLog.event_sk (x_seq x)) ∨
  (w = x_state x ∧ ∃ s, k = (x_org x, s) ∧ state_sk s = true).
Proof.
  intros [He (s & Hs & Hsk)] Hw Hk. unfold txn_writes in Hw.
  rewrite !elem_of_cons in Hw. destruct Hw as [->|[->|[->|[]%not_elem_of_nil]]]; simpl in *.
  - left. congruence.
  - right; left. congruence.
  - right; right. split; [done|]. exists s. split; [congruence|done].
Qed.

(** The compare-and-swap: a transaction lands only on the counter it read. *)
Lemma landed_current before t o xs x :
  holds_log before t o xs → x_org x = o → Forall (condition_holds t) (txn_writes x) →
  x_current x = N.of_nat (length xs).
Proof.
  intros Hl Ho Hc. apply Forall_inv in Hc as (k & [= <-] & Hh). rewrite Ho in Hh.
  pose proof (log_counter _ _ _ _ Hl) as Hcnt. simpl in Hh. case_bool_decide as Hz; simpl in Hh.
  - apply bool_decide_eq_true in Hh. rewrite Hh in Hcnt.
    destruct xs; [|done]. by rewrite Hz.
  - apply bool_decide_eq_true in Hh. rewrite Hh in Hcnt. destruct xs; [done|].
    injection Hcnt as Hp. by apply (inj pretty) in Hp.
Qed.

(** Another organization's transaction leaves a log alone. *)
Lemma landed_other before t t' o xs x :
  holds_log before t o xs → txn_wf x → x_org x ≠ o → applied t (txn_writes x) t' →
  holds_log before t' o xs.
Proof.
  intros [Hcnt Hev Hst Hseq] Hx Ho [_ Hsame].
  assert (∀ s, get_item t' (o, s) = get_item t (o, s)) as Heq.
  { intros s. apply Hsame. intros w Hw Hk.
    destruct (txn_keys x w _ Hx Hw Hk) as [?|[?|(_ & ? & ? & _)]]; congruence. }
  split; [by rewrite Heq|intros; by rewrite Heq|intros; by rewrite Heq, Hst|done].
Qed.

(** Its own transaction extends it by one event. *)
Lemma landed_own before t t' o xs x :
  holds_log before t o xs → txn_wf x → x_org x = o → (N.of_nat (S (length xs)) < 2 ^ 64)%N →
  Forall (condition_holds t) (txn_writes x) → applied t (txn_writes x) t' →
  holds_log before t' o (xs ++ [x]).
Proof.
  intros Hl Hx Ho Hlen Hc [Hset Hsame]. pose proof (landed_current _ _ _ _ _ Hl Ho Hc) as Hcur.
  assert (x_seq x = N.of_nat (S (length xs))) as Hseq.
  { unfold x_seq. simpl. rewrite Hcur, N.mod_small; lia. }
  destruct Hl as [Hcnt Hev Hst Hidx]. pose proof Hx as [Hek (s0 & Hsk & Hs0)]. subst o.
  apply state_sk_spec in Hs0 as Hs0'. destruct Hs0' as (Hn1 & Hn2 & Hn3).
  assert (∀ s, s ≠ EventLog.SK_SEQ → s ≠ EventLog.event_sk (x_seq x) → s ≠ s0 →
            get_item t' (x_org x, s) = get_item t (x_org x, s)) as Hother.
  { intros s H1 H2 H3. apply Hsame. intros w Hw Hk.
    destruct (txn_keys x w _ Hx Hw Hk) as [?|[?|(-> & ? & ? & _)]]; congruence. }
  split.
  - rewrite (Hset (EventLog.counter_update (x_org x) (x_current x) (x_seq x)) _
               ltac:(left) eq_refl). simpl.
    etrans; [apply (lookup_insert_eq (M := gmap string))|].
    rewrite Hseq. destruct xs; simpl; [done|]. rewrite length_app. simpl. do 3 f_equal. lia.
  - intros n. destruct (decide (n = x_seq x)) as [->|Hn].
    + rewrite (Hset (Dynamo.Put (x_event x) (Dynamo.AttributeNotExists Dynamo.sk)) _
                 ltac:(right; left) Hek). simpl.
      rewrite bool_decide_eq_false_2 by lia. rewrite Hseq.
      replace (N.to_nat (N.of_nat (S (length xs)) - 1)) with (length xs) by lia.
      by rewrite list_lookup_middle.
    + rewrite Hother; [|done| |].
      * rewrite Hev. case_bool_decide; [done|]. f_equal.
        destruct (decide (N.to_nat (n - 1) < length xs)) as [Hlt|Hge];
          [by rewrite lookup_app_l|].
        rewrite (lookup_ge_None_2 xs) by lia. symmetry. apply lookup_ge_None_2.
        rewrite length_app. simpl. lia.
      * intros ?%SortKeyFacts.event_sk_inj. congruence.
      * by apply not_eq_sym.
  - intros s Hs. unfold state_after. rewrite foldl_app. simpl.
    fold (state_after (x_org x) s (get_item before (x_org x, s)) xs). rewrite <-(Hst s Hs).
    case_bool_decide as Hk.
    + apply (Hset (x_state x)); [right; right; left|done].
    + apply state_sk_spec in Hs as (? & ? & ?). apply Hother; [done|auto|congruence].
  - intros i y [[_ Hi]|[-> <-]]%lookup_snoc_Some; [by eapply Hidx|done].
Qed.

Lemma unchanged_log before t t' o xs :
  holds_log before t o xs → unchanged t t' → holds_log before t' o xs.
Proof.
  intros [Hcnt Hev Hst Hseq] Hu.
  split; [by rewrite Hu|intros; by rewrite Hu|intros; by rewrite Hu, Hst|done].
Qed.
(** Storing a signing key leaves every log alone. *)
Lemma signing_key_log before t t' o xs i c o' :
  holds_log before t o xs → Dynamo.key_of i = Some (o', SK_EVENT_SIGNING_KEY) →
  applied t [Dynamo.Put i c] t' → holds_log before t' o xs.
Proof.
  intros [Hcnt Hev Hst Hseq] Hk [_ Hsame].
  assert (∀ s, s ≠ SK_EVENT_SIGNING_KEY → get_item t' (o, s) = get_item t (o, s)) as Heq.
  { intros s Hs. apply Hsame. intros w ->%list_elem_of_singleton. simpl. congruence. }
  split; [by rewrite Heq|intros; by rewrite Heq| |done].
  intros s Hs. apply state_sk_spec in Hs as Hs'. rewrite Heq by naive_solver. by apply Hst.
Qed.

(** One step of the pool against all the logs. *)
Lemma step_logs {A} before (w w' : world T A) l (xs : list (nat * txn)) :
  (∀ o, holds_log before (table w) o (of_org o xs)) → Forall appends_only (pool w) →
  step w l w' → (N.of_nat (length xs + length l) < 2 ^ 64)%N →
  Forall appends_only (pool w') ∧
  ∃ ys, l = (λ y, (y.1, txn_writes y.2)) <$> ys ∧ Forall (λ y, txn_wf y.2) ys ∧
        ∀ o, holds_log before (table w') o (of_org o (xs ++ ys)).
Proof.
  intros Hl Hp Hs Hlen. rewrite Forall_lookup in Hp.
  destruct Hs as [t pl m k cont Hm|t pl m k cont e Hm|t pl m i c cont t' out b Hm Hput|
                  t pl m ws cont t' out b Hm Htx]; simpl in *;
    apply Hp in Hm as Honly; inversion Honly; subst;
    (split; [apply Forall_insert; [by apply Forall_lookup|
       first [done|match goal with Hr : ∀ r, returns r → _ |- _ => by apply Hr end]]|]).
  - exists []. split_and!; [done|constructor|]. by rewrite app_nil_r.
  - exists []. split_and!; [done|constructor|]. by rewrite app_nil_r.
  - exists []. split_and!; [done|constructor|]. rewrite app_nil_r. intros o.
    match goal with Hk : ∃ _, _ |- _ => destruct Hk as [o' Hk] end. destruct b.
    + apply law_put_effect in Hput as [_ Ha]. by eapply signing_key_log.
    + apply law_put_no_effect in Hput. by eapply unchanged_log.
  - destruct b; simpl in *.
    + match goal with Hx : txn_wf ?x |- _ => rename Hx into Hwf; exists [(m, x)] end.
      split_and!; [done|by constructor|]. intros o. rewrite of_org_snoc.
      apply law_effect in Htx as (Hc & Ha & _). case_bool_decide as Ho.
      * apply landed_own with t; [done..| |done|done].
        assert (length (of_org o xs) ≤ length xs); [|lia].
        unfold of_org. rewrite <-(length_fmap snd xs). apply length_filter.
      * rewrite app_nil_r. by eapply landed_other.
    + exists []. split_and!; [done|constructor|]. rewrite app_nil_r. intros o.
      apply law_no_effect in Htx. by eapply unchanged_log.
Qed.

Lemma steps_logs {A} before (w w' : world T A) h (xs : list (nat * txn)) :
  (∀ o, holds_log before (table w) o (of_org o xs)) → Forall appends_only (pool w) →
  steps w h w' → (N.of_nat (length xs + length h) < 2 ^ 64)%N →
  ∃ ys, h = (λ y, (y.1, txn_writes y.2)) <$> ys ∧ Forall (λ y, txn_wf y.2) ys ∧
        ∀ o, holds_log before (table w') o (of_org o (xs ++ ys)).
Proof.
  intros Hl Hp Hs. revert xs Hl Hp.
  induction Hs as [w|w l w' h w'' Hstep _ IH]; intros xs Hl Hp Hlen.
  - exists []. split_and!; [done|constructor|]. by rewrite app_nil_r.
  - rewrite length_app in Hlen.
    destruct (step_logs _ _ _ _ _ Hl Hp Hstep) as (Hp' & ys & -> & Hys & Hl'); [lia|].
    rewrite length_fmap in Hlen.
    destruct (IH _ Hl' Hp') as (zs & -> & Hzs & Hl''); [rewrite length_app; lia|].
    exists (ys ++ zs). rewrite fmap_app, app_assoc, Forall_app. done.
Qed.
End facts.
End LogFacts.

(** * Facts about append *)
Module AppendFacts.
Section facts.
Context (actor_to_string : Envelope.Actor → result string string).
Context (org_pk : string) (expected : option Revision.t).
Context (build : nat → Revision.t → result CpError.t (Envelope.t * string)).
(** The envelope is built for the revision asked for. *)
Context (Hbuild : ∀ a r e b, build a r = Ok (e, b) → Envelope.seq e = r).

(** A transaction sent by an append of this request. *)
Record sends (state : Dynamo.write) (x : txn) : Prop := {
  sends_org : x_org x = org_pk;
  sends_state : x_state x = state;
  sends_expected e : expected = Some e → x_current x = Revision.value e;
  sends_event : ∃ attempt env bytes,
    build attempt (Revision.new (x_seq x)) = Ok (env, bytes) ∧
    EventLog.event_item actor_to_string org_pk env bytes = Ok (x_event x);
}.

Lemma event_item_key env bytes i :
  EventLog.event_item actor_to_string org_pk env bytes = Ok i →
  Dynamo.key_of i = Some (org_pk, EventLog.event_sk (Revision.value (Envelope.seq env))).
Proof.
  unfold EventLog.event_item. intros Hi. inv_ok. unfold Dynamo.key_of, Dynamo.pk, Dynamo.sk.
  by simplify_map_eq.
Qed.

Lemma appends_bind {A B} P V W (p : prog A) (f : A → prog B) :
  appends P V p → (∀ a, V (Ok a) → appends P W (f a)) →
  (∀ e, V (Err e) → W (Err e)) → (∀ w, V (Stuck w) → W (Stuck w)) → appends P W (p ≫= f).
Proof.
  intros Hp Hf He Hw.
  induction Hp as [[a|e|why] Hv|k cont _ IH|i c cont Hk Hc _ IH|x cont Hx HP _ IH].
  - by apply Hf.
  - constructor. by apply He.
  - constructor. by apply Hw.
  - constructor. exact IH.
  - constructor; [done|done|exact IH].
  - constructor; [done|done|exact IH].
Qed.
Lemma appends_mono {A} (P P' : txn → Prop) (V V' : result CpError.t A → Prop) (p : prog A) :
  (∀ x, P x → P' x) → (∀ r, V r → V' r) → appends P V p → appends P' V' p.
Proof.
  intros HP HV Hp. induction Hp; econstructor; eauto.
Qed.
Lemma only_bind {A B} (p : prog A) (f : A → prog B) :
  appends_only p → (∀ a, appends_only (f a)) → appends_only (p ≫= f).
Proof. intros Hp Hf. by eapply appends_bind; eauto. Qed.
Lemma only_attempt {A} P V (p : prog A) :
  appends P V p → appends P (λ r, ∃ r', r = Ok r' ∧ V r') (attempt p).
Proof. induction 1; simpl; econstructor; eauto. Qed.
Lemma appends_pure {A B} P V (r : result CpError.t A) (f : A → prog B) :
  (∀ a, r = Ok a → appends P V (f a)) → (∀ e, r = Err e → V (Err e)) →
  (∀ w, r = Stuck w → V (Stuck w)) → appends P V (pure r ≫= f).
Proof. destruct r; intros Ha He Hw; [by apply Ha|constructor; by apply He|constructor; by apply Hw]. Qed.
(** The same for programs that never panic. *)
Lemma appends_pure_returns {A B} P (r : result CpError.t A) (f : A → prog B) :
  returns r → (∀ a, r = Ok a → appends P returns (f a)) → appends P returns (pure r ≫= f).
Proof.
  intros Hr Hf. apply appends_pure; [done|intros; apply returns_Err|intros w Hw; by destruct (Hr w)].
Qed.
Lemma appends_bind_returns {A B} P V (p : prog A) (f : A → prog B) :
  appends P V p → (∀ w, ¬ V (Stuck w)) → (∀ a, V (Ok a) → appends P returns (f a)) →
  appends P returns (p ≫= f).
Proof.
  intros Hp Hs Hf. eapply appends_bind; [done|done|intros; apply returns_Err|].
  intros w Hw. by destruct (Hs w).
Qed.

Lemma only_get_item P k : appends P returns (EventLog.get k).
Proof.
  constructor. intros [i|e|w] Hr; constructor; [apply returns_Ok|apply returns_Err|by destruct (Hr w)].
Qed.
Lemma only_read_counter P o : appends P returns (EventLog.read_counter o).
Proof.
  eapply appends_bind_returns; [apply only_get_item|intros w Hw; by destruct (Hw w)|].
  intros [i|] _; [|constructor; apply returns_Ok].
  destruct (EventLog.seq_attr i); constructor; [apply returns_Ok|apply returns_Err].
Qed.
(** The transaction of one attempt. *)
Lemma attempt_txn state current attempt env bytes ep :
  (∀ e, expected = Some e → current = Revision.value e) →
  build attempt (Revision.next (Revision.new current)) = Ok (env, bytes) →
  EventLog.event_put actor_to_string org_pk env bytes = Ok ep →
  ∃ x, sends state x ∧ x_current x = current ∧
    [EventLog.counter_update org_pk current
       (Revision.value (Revision.next (Revision.new current))); ep; state] = txn_writes x ∧
    Dynamo.key_of (x_event x) = Some (org_pk, EventLog.event_sk (x_seq x)).
Proof.
  intros He Hb Hp. unfold EventLog.event_put in Hp. inv_ok.
  match goal with Hi : EventLog.event_item _ _ _ _ = Ok ?i |- _ =>
    rename Hi into Hitem;
    exists {| x_org := org_pk; x_current := current; x_event := i; x_state := state |} end.
  split_and!; [|done|done|].
  - split; [done|done|done|]. simpl. exists attempt, env, bytes. split; [|done].
    exact Hb.
  - simpl. rewrite (event_item_key _ _ _ Hitem), (Hbuild _ _ _ _ Hb). done.
Qed.
Lemma check_Ok current : EventLog.check_expected_revision current expected = Ok () →
  ∀ e, expected = Some e → current = Revision.value e.
Proof.
  unfold EventLog.check_expected_revision. intros Hc e ->. by case_bool_decide.
Qed.

(** An append only sends append transactions, and returns. *)
Context (Hreturns : (∀ a r, returns (build a r)) ∧ ∀ a, returns (actor_to_string a)).

Lemma event_put_returns env bytes : returns (EventLog.event_put actor_to_string org_pk env bytes).
Proof.
  unfold EventLog.event_put, EventLog.event_item. destruct Hreturns as [_ Ha].
  specialize (Ha (Envelope.actor env)). destruct (actor_to_string (Envelope.actor env)) as [s|e|w];
    [|apply returns_Err|by destruct (Ha w)].
  simpl. by destruct (valid_utf8 bytes).
Qed.
Lemma check_returns current : returns (EventLog.check_expected_revision current expected).
Proof. unfold EventLog.check_expected_revision. by repeat case_match. Qed.

(** One attempt, up to the answer of its transaction. *)
Lemma attempt_only {A} state (k : N → Dynamo.outcome → prog A) attempt :
  (∃ s, Dynamo.write_key state = Some (org_pk, s) ∧ state_sk s = true) →
  (∀ current out, appends (sends state) returns (k current out)) →
  appends (sends state) returns
    (current ← EventLog.read_counter org_pk;
     _ ← pure (EventLog.check_expected_revision current expected);
     built ← pure (build attempt (Revision.next (Revision.new current)));
     event_put ← pure (EventLog.event_put actor_to_string org_pk built.1 built.2);
     out ← EventLog.send [EventLog.counter_update org_pk current
              (Revision.value (Revision.next (Revision.new current))); event_put; state];
     k current out).
Proof.
  intros Hs Hk. eapply appends_bind_returns; [apply only_read_counter|intros w Hw; by destruct (Hw w)|].
  intros current _. apply appends_pure_returns; [apply check_returns|]. intros [] Hchk.
  apply appends_pure_returns; [apply Hreturns|]. intros [env bytes] Hb.
  apply appends_pure_returns; [apply event_put_returns|]. intros ep Hep.
  destruct (attempt_txn state _ _ _ _ _ (check_Ok _ Hchk) Hb Hep) as (x & Hx & _ & Hws & Hkey).
  cbn in Hws |- *. rewrite Hws. constructor; [|done|by intros out].
  split; [by rewrite (sends_org _ _ Hx)|]. destruct Hs as (s & Hs & Hsk). exists s.
  by rewrite (sends_state _ _ Hx), (sends_org _ _ Hx).
Qed.
Lemma append_loop_only state remaining attempt :
  EventLog.put_pk state = org_pk → state_sk (EventLog.put_sk state) = true →
  appends (sends (EventLog.state_put state)) returns
    (EventLog.append_loop actor_to_string org_pk expected build state remaining attempt).
Proof.
  intros Hpk Hsk. revert attempt. induction remaining as [|n IH]; intros attempt;
    [constructor; apply returns_Err|].
  apply attempt_only.
  - exists (EventLog.put_sk state). split; [|done]. simpl. unfold Dynamo.key_of, Dynamo.pk, Dynamo.sk.
    simplify_map_eq. by rewrite Hpk.
  - intros current out. destruct out; [apply only_done, returns_Ok|..]; cbv zeta;
      repeat case_match; try (apply only_done, returns_Err); apply IH.
Qed.
Lemma append_with_delete_loop_only state remaining attempt :
  EventLog.del_pk state = org_pk → state_sk (EventLog.del_sk state) = true →
  appends (sends (EventLog.state_delete state)) returns
    (EventLog.append_with_delete_loop actor_to_string org_pk expected build state remaining attempt).
Proof.
  intros Hpk Hsk. revert attempt. induction remaining as [|n IH]; intros attempt;
    [constructor; apply returns_Err|].
  apply attempt_only.
  - exists (EventLog.del_sk state). split; [|done]. simpl. by rewrite Hpk.
  - intros current out. destruct out; [apply only_done, returns_Ok|..]; cbv zeta;
      repeat case_match; try (apply only_done; first [apply returns_Err | apply returns_Ok]); apply IH.
Qed.
Lemma only_append state :
  EventLog.put_pk state = org_pk → state_sk (EventLog.put_sk state) = true →
  appends (sends (EventLog.state_put state)) returns
    (EventLog.append actor_to_string org_pk expected build state).
Proof. exact (append_loop_only state EventLog.MAX_APPEND_ATTEMPTS 0). Qed.
Lemma only_append_with_delete state :
  EventLog.del_pk state = org_pk → state_sk (EventLog.del_sk state) = true →
  appends (sends (EventLog.state_delete state)) returns
    (EventLog.append_with_delete actor_to_string org_pk expected build state).
Proof. exact (append_with_delete_loop_only state EventLog.MAX_APPEND_ATTEMPTS 0). Qed.

(** ** What a finished append did *)

Local Ltac split_ifs_in H :=
  repeat match type of H with context [if ?b then _ else _] => destruct b end.


Lemma residual_done {A} (r : result CpError.t A) h q : residual (Done r) h q → h = [] ∧ q = Done r.
Proof. by inversion 1. Qed.
Lemma residual_read_counter o h (q : prog N) :
  residual (EventLog.read_counter o) h q → h = [].
Proof.
  intros Hr. inversion Hr as [|? ? r ? ? Hx| | |]; subst; [done|]. clear Hr.
  destruct r as [[i|]|e|w]; cbn in Hx; [|by apply residual_done in Hx as [-> _]..].
  destruct (EventLog.seq_attr i); by apply residual_done in Hx as [-> _].
Qed.
(** The last call of an attempt. *)
Lemma residual_transact {A} ws (cont : Dynamo.outcome → prog A) h r :
  residual (Transact ws cont) h (Done r) →
  ∃ out h', residual (cont out) h' (Done r) ∧
    ((h = ws :: h' ∧ ∀ msg rs, out ≠ Dynamo.Cancelled msg rs) ∨
     (h = h' ∧ out ≠ Dynamo.Committed)).
Proof. inversion 1; subst; eauto 10. Qed.

(** A request appended at most one transaction, its own; exactly one, at the
    revision it returns, when it succeeded. *)
Definition append_result (state : Dynamo.write) (h : list (list Dynamo.write))
    (revision : option Revision.t) : Prop :=
  match revision with
  | Some rev => ∃ x, h = [txn_writes x] ∧ sends state x ∧ rev = Revision.new (x_seq x)
  | None => h = [] ∨ ∃ x, h = [txn_writes x] ∧ sends state x
  end.

Lemma append_loop_result state remaining attempt h r :
  residual (EventLog.append_loop actor_to_string org_pk expected build state remaining attempt)
    h (Done r) →
  append_result (EventLog.state_put state) h (match r with Ok rev => Some rev | _ => None end).
Proof.
  revert attempt h. induction remaining as [|n IH]; intros attempt h Hr.
  { apply residual_done in Hr as [-> [= ->]]. by left. }
  cbn [EventLog.append_loop] in Hr.
  apply DynamoFacts.residual_bind_done in Hr
    as [(h1 & h2 & current & Hc & Hr & ->)|[(e & Hc & ->)|(w & Hc & ->)]];
    apply residual_read_counter in Hc as ->; [|by left..]. simpl.
  destruct (EventLog.check_expected_revision current expected) as [[]|e|w] eqn:Hchk;
    [|by apply residual_done in Hr as [-> [= ->]]; left..].
  pose proof (check_Ok _ Hchk) as He. cbn in Hr.
  destruct (build attempt _) as [[env bytes]|e|w] eqn:Hb;
    [|by apply residual_done in Hr as [-> [= ->]]; left..]. cbn in Hr.
  destruct (EventLog.event_put _ _ _ _) as [ep|e|w] eqn:Hep;
    [|by apply residual_done in Hr as [-> [= ->]]; left..].
  destruct (attempt_txn (EventLog.state_put state) _ _ _ _ _ He Hb Hep) as (x & Hx & Hxc & Hws & _).
  cbn in Hr, Hws. rewrite Hws in Hr.
  apply residual_transact in Hr as (out & h' & Hr & Hout). cbn in Hr.
  destruct out as [|msg reasons|msg]; destruct Hout as [[-> Hout]|[-> Hout]];
    try (by destruct Hout); try (by destruct (Hout msg reasons)).
  - apply residual_done in Hr as [-> [= ->]]. exists x. split_and!; [done..|].
    unfold x_seq. by rewrite Hxc.
  - split_ifs_in Hr; [by apply residual_done in Hr as [-> [= ->]]; left|by eapply IH|].
    by apply residual_done in Hr as [-> [= ->]]; left.
  - rewrite (bool_decide_eq_false_2 (is_Some (EventLog.cancellation_reasons (Dynamo.Failed _)))) in Hr by (by intros [? ?]). simpl in Hr.
    split_ifs_in Hr; apply residual_done in Hr as [-> [= ->]]; right; eauto.
  - rewrite (bool_decide_eq_false_2 (is_Some (EventLog.cancellation_reasons (Dynamo.Failed _)))) in Hr by (by intros [? ?]). simpl in Hr.
    split_ifs_in Hr; apply residual_done in Hr as [-> [= ->]]; by left.
Qed.

Lemma append_result_of state h r :
  residual (EventLog.append actor_to_string org_pk expected build state) h (Done r) →
  append_result (EventLog.state_put state) h (match r with Ok rev => Some rev | _ => None end).
Proof. exact (append_loop_result state EventLog.MAX_APPEND_ATTEMPTS 0 h r). Qed.

(** A delete that finds nothing to delete appends nothing. *)
Lemma append_with_delete_loop_result state remaining attempt h r :
  residual (EventLog.append_with_delete_loop actor_to_string org_pk expected build state
              remaining attempt) h (Done r) →
  append_result (EventLog.state_delete state) h
    (match r with Ok (Some rev) => Some rev | _ => None end) ∧
  (r = Ok None → h = []).
Proof.
  revert attempt h. induction remaining as [|n IH]; intros attempt h Hr.
  { apply residual_done in Hr as [-> [= ->]]. by split; [left|]. }
  cbn [EventLog.append_with_delete_loop] in Hr.
  apply DynamoFacts.residual_bind_done in Hr
    as [(h1 & h2 & current & Hc & Hr & ->)|[(e & Hc & ->)|(w & Hc & ->)]];
    apply residual_read_counter in Hc as ->; [|by split; [left|]..]. simpl.
  destruct (EventLog.check_expected_revision current expected) as [[]|e|w] eqn:Hchk;
    [|by apply residual_done in Hr as [-> [= ->]]; split; [left|]..].
  pose proof (check_Ok _ Hchk) as He. cbn in Hr.
  destruct (build attempt _) as [[env bytes]|e|w] eqn:Hb;
    [|by apply residual_done in Hr as [-> [= ->]]; split; [left|]..]. cbn in Hr.
  destruct (EventLog.event_put _ _ _ _) as [ep|e|w] eqn:Hep;
    [|by apply residual_done in Hr as [-> [= ->]]; split; [left|]..].
  destruct (attempt_txn (EventLog.state_delete state) _ _ _ _ _ He Hb Hep)
    as (x & Hx & Hxc & Hws & _).
  cbn in Hr, Hws. rewrite Hws in Hr.
  apply residual_transact in Hr as (out & h' & Hr & Hout). cbn in Hr.
  destruct out as [|msg reasons|msg]; destruct Hout as [[-> Hout]|[-> Hout]];
    try (by destruct Hout); try (by destruct (Hout msg reasons)).
  - apply residual_done in Hr as [-> [= ->]]. split; [|done]. exists x. split_and!; [done..|].
    unfold x_seq. by rewrite Hxc.
  - split_ifs_in Hr; [by apply residual_done in Hr as [-> [= ->]]; split; [left|]|by eapply IH|].
    by apply residual_done in Hr as [-> [= ->]]; split; [left|].
  - apply residual_done in Hr as [-> [= ->]]. split; [right; eauto|done].
  - apply residual_done in Hr as [-> [= ->]]. by split; [left|].
Qed.
End facts.
End AppendFacts.

(** * Positions in a history *)
Module HistoryFacts.
Lemma txn_writes_inj x y : txn_writes x = txn_writes y → x = y.
Proof.
  destruct x as [o c e s], y as [o' c' e' s']. unfold txn_writes, EventLog.counter_update; simpl.
  intros [= -> _ Hc -> ->]. f_equal. revert Hc. repeat case_bool_decide; simpl; intros Hc; simplify_eq.
  - done.
  - by apply (inj pretty).
Qed.

Lemma of_org_position o xs i n x :
  xs !! i = Some (n, x) → x_org x = o →
  of_org o xs !! length (of_org o (take i xs)) = Some x.
Proof.
  intros Hi Ho.
  assert (of_org o xs = of_org o (take i xs) ++ x :: of_org o (drop (S i) xs)) as ->;
    [|by rewrite list_lookup_middle].
  rewrite <-(take_drop_middle xs i (n, x) Hi) at 1.
  unfold of_org. rewrite fmap_app, filter_app. simpl. by rewrite filter_cons_True.
Qed.
Lemma of_org_take_lt o xs i j n x :
  xs !! i = Some (n, x) → x_org x = o → i < j →
  length (of_org o (take i xs)) < length (of_org o (take j xs)).
Proof.
  intros Hi Ho Hij.
  assert (take j xs !! i = Some (n, x)) as Hi' by (by rewrite lookup_take_lt).
  pose proof (of_org_position o (take j xs) i n x Hi' Ho) as Hp.
  rewrite take_take, Nat.min_l in Hp by lia. by apply lookup_lt_Some in Hp.
Qed.

(** In a log, a transaction's revision is one more than the number of
    transactions of its organization before it. *)
Lemma log_position {T} `{DynamoLaws T} (before t : T) o xs i n x :
  holds_log before t o (of_org o xs) → xs !! i = Some (n, x) → x_org x = o →
  x_current x = N.of_nat (length (of_org o (take i xs))).
Proof. intros Hl Hi Ho. by eapply (log_seq _ _ _ _ Hl), of_org_position. Qed.

(** The transactions of one request, as positions. *)
Lemma sent_by_one n xs ws :
  sent_by n ((λ y, (y.1, txn_writes y.2)) <$> xs) = [ws] →
  ∃ i x, xs !! i = Some (n, x) ∧ ws = txn_writes x ∧
    ∀ j y, xs !! j = Some (n, y) → j = i.
Proof.
  assert (∀ ys, sent_by n ((λ y, (y.1, txn_writes y.2)) <$> ys) = [] →
            ∀ j y, ys !! j ≠ Some (n, y)) as Hnil.
  { induction ys as [|[m z] ys IH]; [done|]. unfold sent_by; simpl.
    case_bool_decide as Hm; [done|]. intros Hs [|j] y; simpl; [congruence|]. by apply IH. }
  induction xs as [|[m z] xs IH]; [done|]. unfold sent_by; simpl. case_bool_decide as Hm.
  - intros [= <- Hs]. subst m. exists 0, z. split_and!; [done..|].
    intros [|j] y Hj; [done|]. by destruct (Hnil _ Hs j y).
  - intros Hs. destruct (IH Hs) as (i & x & Hi & -> & Hu). exists (S i), x. split_and!; [done..|].
    intros [|j] y Hj; simpl in Hj; [congruence|]. f_equal. by eapply Hu.
Qed.
End HistoryFacts.

(** * Theorems *)

Section theorems.
Context {T : Type} `{DynamoLaws T}.

(** C19: Concurrent appends linearize.  However many requests (appends with a
    state put or delete, with or without an expected revision, signing-key
    writes, reads) interleave their calls to DynamoDB, whatever calls fail,
    and even when a failed call took effect, every organization's part of
    the table is at every moment what its transactions that took effect
    write one after the other: the counter is their number, the events are
    theirs at revisions 1, 2, 3, ... without gap or overwrite, and each state
    item is as the last of them to touch it left it. *)
Theorem dynamo_log_linearizes {A} (before : T) (requests : list (prog A)) h w :
  (∀ o, holds_log before before o []) → Forall appends_only requests →
  steps {| table := before; pool := requests |} h w → (N.of_nat (length h) < 2 ^ 64)%N →
  ∃ xs, h = (λ y, (y.1, txn_writes y.2)) <$> xs ∧ Forall (λ y, txn_wf y.2) xs ∧
        ∀ o, holds_log before (table w) o (of_org o xs).
Proof.
  intros Hb Hr Hs Hlen.
  exact (LogFacts.steps_logs before {| table := before; pool := requests |} w h [] Hb Hr Hs Hlen).
Qed.

(** C20: A successful append took effect exactly once.  When a request that runs
    [append] returns a revision, in any interleaving with other requests,
    exactly one of the transactions that took effect is its own; it carries
    the event built for that revision and the request's state item; the
    revision is one more than the number of the organization's earlier
    transactions (and than the expected revision, when one was given); and no
    other transaction of the organization has it. *)
Theorem append_takes_effect_once {A} actor_to_string (f : Revision.t → A) before requests h w n
    org_pk expected build state a :
  (∀ o, holds_log before before o []) → Forall appends_only requests →
  steps {| table := before; pool := requests |} h w → (N.of_nat (length h) < 2 ^ 64)%N →
  requests !! n = Some (EventLog.append actor_to_string org_pk expected build state
                          ≫= λ r, mret (f r)) →
  (∀ k r e b, build k r = Ok (e, b) → Envelope.seq e = r) →
  pool w !! n = Some (Done (Ok a)) →
  ∃ xs i x, h = (λ y, (y.1, txn_writes y.2)) <$> xs ∧ xs !! i = Some (n, x) ∧
    AppendFacts.sends actor_to_string org_pk expected build (EventLog.state_put state) x ∧
    a = f (Revision.new (x_seq x)) ∧
    x_seq x = N.of_nat (S (length (of_org org_pk (take i xs)))) ∧
    (∀ e, expected = Some e → x_seq x = (Revision.value e + 1)%N) ∧
    ∀ j m y, xs !! j = Some (m, y) → m = n ∨ (x_org y = org_pk ∧ x_seq y = x_seq x) → j = i.
Proof.
  intros Hb Hr Hs Hlen Hn Hbuild Hdone.
  destruct (LogFacts.steps_logs before {| table := before; pool := requests |} w h []
              Hb Hr Hs Hlen) as (xs & -> & Hwf & Hl). simpl in Hl.
  destruct (DynamoFacts.steps_local _ _ _ _ _ Hs Hn) as (q & Hq & Hres).
  assert (q = Done (Ok a)) as -> by congruence.
  apply DynamoFacts.residual_bind_done in Hres
    as [(h1 & h2 & rev & H1 & H2 & Heq)|[(e & _ & ?)|(why & _ & ?)]]; [|done..].
  apply AppendFacts.residual_done in H2 as [-> [= ->]]. rewrite app_nil_r in Heq.
  apply (AppendFacts.append_result_of _ _ _ _ Hbuild) in H1 as (x & Hh1 & Hx & ->).
  rewrite Hh1 in Heq. apply HistoryFacts.sent_by_one in Heq as (i & x' & Hi & Hws & Hu).
  apply HistoryFacts.txn_writes_inj in Hws as <-.
  pose proof (AppendFacts.sends_org _ _ _ _ _ _ Hx) as Ho.
  assert (∀ j m y, xs !! j = Some (m, y) → x_org y = org_pk →
            x_current y = N.of_nat (length (of_org org_pk (take j xs))) ∧
            x_seq y = N.of_nat (S (length (of_org org_pk (take j xs))))) as Hpos.
  { intros j m y Hj Hy. pose proof (HistoryFacts.log_position _ _ _ _ _ _ _ (Hl org_pk) Hj Hy) as Hc.
    split; [done|]. unfold x_seq. simpl. rewrite Hc.
    assert (length (of_org org_pk (take j xs)) < length xs).
    { apply lookup_lt_Some in Hj. unfold of_org.
      pose proof (length_filter (λ x, x_org x = org_pk) (take j xs).*2) as Hf.
      rewrite length_fmap, length_take in Hf. lia. }
    rewrite length_fmap in Hlen. rewrite N.mod_small; lia. }
  destruct (Hpos i n x Hi Ho) as [Hxc Hxs].
  exists xs, i, x. split_and!; [done..| |].
  - intros e He. rewrite Hxs. rewrite <-(AppendFacts.sends_expected _ _ _ _ _ _ Hx e He), Hxc. lia.
  - intros j m y Hj [->|[Hy Hseq]]; [by eapply Hu|].
    destruct (Hpos j m y Hj Hy) as [_ Hys].
    destruct (Nat.lt_trichotomy j i) as [Hlt|[?|Hgt]]; [|done|].
    + pose proof (HistoryFacts.of_org_take_lt _ _ _ _ _ _ Hj Hy Hlt). lia.
    + pose proof (HistoryFacts.of_org_take_lt _ _ _ _ _ _ Hi Ho Hgt). lia.
Qed.
End theorems.

(** A program that is over after at most [n] calls, whatever the answers. *)
Inductive calls_within {A} : nat → prog A → Prop :=
| within_done n r : calls_within n (Done r)
| within_get n k cont : (∀ r, calls_within n (cont r)) → calls_within (S n) (GetItem k cont)
| within_put n i c cont : (∀ r, calls_within n (cont r)) → calls_within (S n) (PutItem i c cont)
| within_transact n ws cont :
    (∀ r, calls_within n (cont r)) → calls_within (S n) (Transact ws cont).

Module ProgressFacts.
Lemma within_mono {A} n m (p : prog A) : calls_within n p → n ≤ m → calls_within m p.
Proof.
  intros Hp. revert m. induction Hp as [n r|n k cont _ IH|n i c cont _ IH|n ws cont _ IH];
    intros m Hm; [constructor|destruct m as [|m]; [lia|]; constructor; intros r; apply IH; lia..].
Qed.
Lemma within_bind {A B} n m (p : prog A) (f : A → prog B) :
  calls_within n p → (∀ a, calls_within m (f a)) → calls_within (n + m) (p ≫= f).
Proof.
  intros Hp Hf. induction Hp as [n [a|e|w]|n k cont _ IH|n i c cont _ IH|n ws cont _ IH]; simpl;
    try constructor; try apply IH.
  apply within_mono with m; [apply Hf|lia].
Qed.
Lemma within_read_counter o : calls_within 1 (EventLog.read_counter o).
Proof.
  constructor. intros [[i|]|e|w]; simpl; [|constructor..]. destruct (EventLog.seq_attr i); constructor.
Qed.
Lemma within_append_loop ats org_pk expected build state remaining attempt :
  calls_within (2 * remaining)
    (EventLog.append_loop ats org_pk expected build state remaining attempt).
Proof.
  revert attempt. induction remaining as [|n IH]; intros attempt; [constructor|].
  cbn [EventLog.append_loop]. replace (2 * S n) with (1 + S (2 * n)) by lia.
  apply within_bind; [apply within_read_counter|]. intros current.
  destruct (EventLog.check_expected_revision current expected) as [[]|e|w]; [|constructor..]. cbn.
  destruct (build attempt _) as [[env bytes]|e|w]; [|constructor..]. cbn.
  destruct (EventLog.event_put _ _ _ _) as [ep|e|w]; [|constructor..].
  constructor. intros out. cbn. destruct out; [constructor|..]; repeat case_match;
    first [apply IH|constructor].
Qed.
Lemma within_append ats org_pk expected build state :
  calls_within 100 (EventLog.append ats org_pk expected build state).
Proof. exact (within_append_loop ats org_pk expected build state EventLog.MAX_APPEND_ATTEMPTS 0). Qed.

(** What the counter reads on a log. *)
Lemma read_counter_log {T} `{DynamoLaws T} (before t : T) o xs :
  holds_log before t o xs → (N.of_nat (length xs) < 2 ^ 64)%N →
  (∀ s, get_item t (o, EventLog.SK_SEQ) = Some s → is_Some (s !! "seq")) →
  ∃ cont, EventLog.read_counter o = GetItem (o, EventLog.SK_SEQ) cont ∧
    cont (Ok (get_item t (o, EventLog.SK_SEQ))) = Done (Ok (N.of_nat (length xs))).
Proof.
  intros Hl Hlen Hseq. eexists. split; [reflexivity|].
  pose proof (log_counter _ _ _ _ Hl) as Hc.
  destruct (get_item t (o, EventLog.SK_SEQ)) as [s|] eqn:Hs; simpl in *.
  - destruct (Hseq s eq_refl) as [v Hv]. rewrite Hv in Hc. destruct xs as [|x xs]; [done|].
    injection Hc as ->. unfold EventLog.seq_attr.
    rewrite Hv, DecimalFacts.parse_u64_pretty by done. done.
  - by destruct xs.
Qed.

(** The first attempt, when nothing interferes. *)
Lemma attempt_alone {T} `{DynamoLaws T} actor_to_string (before t : T) org_pk xs expected build state env bytes i n :
  let revision := Revision.new (N.of_nat (S (length xs))) in
  holds_log before t org_pk xs → (N.of_nat (S (length xs)) < 2 ^ 64)%N →
  (∀ s, get_item t (org_pk, EventLog.SK_SEQ) = Some s → is_Some (s !! "seq")) →
  (∀ e, expected = Some e → Revision.value e = N.of_nat (length xs)) →
  build 0 revision = Ok (env, bytes) → Envelope.seq env = revision →
  EventLog.event_item actor_to_string org_pk env bytes = Ok i →
  EventLog.put_pk state = org_pk → state_sk (EventLog.put_sk state) = true →
  (EventLog.guard state = EventLog.MustNotExist →
     get_item t (org_pk, EventLog.put_sk state) = None) →
  ∃ get ws answer,
    EventLog.append_loop actor_to_string org_pk expected build state (S n) 0 =
      GetItem (org_pk, EventLog.SK_SEQ) get ∧
    get (Ok (get_item t (org_pk, EventLog.SK_SEQ))) = Transact ws answer ∧
    Forall (condition_holds t) ws ∧ NoDup (Dynamo.write_key <$> ws) ∧
    answer Dynamo.Committed = Done (Ok revision).
Proof.
  intros revision Hl Hlen Hseq Hexp Hb Henv Hi Hpk Hsk Hguard.
  destruct (read_counter_log before t org_pk xs Hl ltac:(lia) Hseq)
    as (cont & Hrc & Hcont).
  cbn [EventLog.append_loop]. rewrite Hrc. cbn [mbind prog_bind prog_bind_fn].
  assert (Revision.next (Revision.new (N.of_nat (length xs))) = revision) as Hnext.
  { unfold Revision.next, revision. simpl. f_equal. rewrite N.mod_small; lia. }
  assert (EventLog.check_expected_revision (N.of_nat (length xs)) expected = Ok ()) as Hchk.
  { unfold EventLog.check_expected_revision. destruct expected as [e|]; [|done].
    by rewrite (Hexp e eq_refl), bool_decide_eq_true_2. }
  eexists _, _, _. split_and!; [reflexivity| | | |].
  - cbv beta. rewrite Hcont. cbn [mbind prog_bind prog_bind_fn]. rewrite Hchk.
    rewrite Hnext, Hb. cbv [mbind prog_bind pure]. cbn [prog_bind_fn fst snd].
    unfold EventLog.event_put. rewrite Hi. reflexivity.
  - pose proof (AppendFacts.event_item_key _ _ _ _ _ Hi) as Hk. rewrite Henv in Hk.
    assert (Dynamo.write_key (EventLog.state_put state) = Some (org_pk, EventLog.put_sk state)) as Hsp.
    { simpl. unfold Dynamo.key_of, Dynamo.pk, Dynamo.sk. simplify_map_eq. done. }
    repeat constructor.
    + exists (org_pk, EventLog.SK_SEQ). split; [done|]. simpl.
      pose proof (log_counter _ _ _ _ Hl) as Hc. case_bool_decide as Hz; simpl; rewrite Hc.
      * destruct xs; [done|simpl in Hz; lia].
      * destruct xs; [done|]. by rewrite bool_decide_eq_true_2.
    + exists (org_pk, EventLog.event_sk (Revision.value revision)). split; [done|]. simpl.
      rewrite (log_events _ _ _ _ Hl).
      rewrite (bool_decide_eq_false_2 (Revision.value revision = 0%N)) by done.
      rewrite lookup_ge_None_2 by (unfold revision; cbn [Revision.value]; lia). done.
    + exists (org_pk, EventLog.put_sk state). split; [done|]. simpl.
      case_bool_decide as Hg; [|done]. by rewrite Hguard.
  - pose proof (AppendFacts.event_item_key _ _ _ _ _ Hi) as Hk.
    assert (Dynamo.write_key (EventLog.state_put state) = Some (org_pk, EventLog.put_sk state)) as Hsp.
    { simpl. unfold Dynamo.key_of, Dynamo.pk, Dynamo.sk. simplify_map_eq. done. }
    apply LogFacts.state_sk_spec in Hsk as (H1 & _ & H3).
    change (NoDup [Some (org_pk, EventLog.SK_SEQ); Dynamo.key_of i;
                   Dynamo.write_key (EventLog.state_put state)]).
    rewrite Hk, Hsp. repeat constructor; set_unfold; naive_solver.
  - reflexivity.
Qed.
End ProgressFacts.

Section more_theorems.
Context {T : Type} `{DynamoLaws T}.

(** C21: Appends make progress.  [append] is over after at most 100 calls
    whatever the service answers; and on a table that holds a log, when
    nothing interferes, the first attempt already sends a transaction all of
    whose conditions hold, on three different items, and a commit of it
    returns the next revision. *)
Theorem append_progress actor_to_string before t org_pk xs expected build state env bytes i :
  let revision := Revision.new (N.of_nat (S (length xs))) in
  holds_log before t org_pk xs → (N.of_nat (S (length xs)) < 2 ^ 64)%N →
  (∀ s, get_item t (org_pk, EventLog.SK_SEQ) = Some s → is_Some (s !! "seq")) →
  (∀ e, expected = Some e → Revision.value e = N.of_nat (length xs)) →
  build 0 revision = Ok (env, bytes) → Envelope.seq env = revision →
  EventLog.event_item actor_to_string org_pk env bytes = Ok i →
  EventLog.put_pk state = org_pk → state_sk (EventLog.put_sk state) = true →
  (EventLog.guard state = EventLog.MustNotExist →
     get_item t (org_pk, EventLog.put_sk state) = None) →
  calls_within 100 (EventLog.append actor_to_string org_pk expected build state) ∧
  ∃ get ws answer,
    EventLog.append actor_to_string org_pk expected build state =
      GetItem (org_pk, EventLog.SK_SEQ) get ∧
    get (Ok (get_item t (org_pk, EventLog.SK_SEQ))) = Transact ws answer ∧
    Forall (condition_holds t) ws ∧ NoDup (Dynamo.write_key <$> ws) ∧
    answer Dynamo.Committed = Done (Ok revision).
Proof.
  intros revision Hl Hlen Hseq Hexp Hb Henv Hi Hpk Hsk Hguard.
  split; [apply ProgressFacts.within_append|].
  exact (ProgressFacts.attempt_alone actor_to_string before t org_pk xs expected build state env
           bytes i 49 Hl Hlen Hseq Hexp Hb Henv Hi Hpk Hsk Hguard).
Qed.
End more_theorems.

(** * Samples *)

(** Two appends to an empty table that race for revision 1. *)
Module LogSample.
Definition actor_to_string (_ : Envelope.Actor) : result string string := Ok "system".
Definition build (_ : nat) (r : Revision.t) : result CpError.t (Envelope.t * string) :=
  Ok (EventSample.event (Revision.value r) EventKind.GroupPut Json.Null, "null").
Definition state (s : string) : EventLog.StatePut :=
  {| EventLog.put_pk := "ORG#acme"; EventLog.put_sk := s; EventLog.attributes := ∅;
     EventLog.guard := EventLog.NoGuard |}.
Definition append (s : string) : prog Revision.t :=
  EventLog.append actor_to_string "ORG#acme" None build (state s) ≫= λ r, mret r.
Definition requests : list (prog Revision.t) := [append "META"; append "GROUP#admins"].
(** Both read the counter; the first commits, the second retries. *)
Definition schedule : list nat := [0; 1; 0; 1; 1; 1].

Definition run : option (list label * world GmapTable.t Revision.t) :=
  GmapTable.run_schedule schedule {| table := (∅ : GmapTable.t); pool := requests |}.
Definition finished {A} (p : prog A) : option (result CpError.t A) :=
  match p with Done r => Some r | _ => None end.

Lemma build_seq k r e b : build k r = Ok (e, b) → Envelope.seq e = r.
Proof. intros [= <- _]. by destruct r. Qed.
Lemma empty_log o : holds_log (∅ : GmapTable.t) (∅ : GmapTable.t) o [].
Proof. split; [done|intros n; by case_bool_decide|done|done]. Qed.
Lemma append_only s : state_sk s = true → appends_only (append s).
Proof.
  intros Hs. apply AppendFacts.only_bind; [|by constructor].
  eapply AppendFacts.appends_mono;
    [done|done|by apply (AppendFacts.only_append actor_to_string "ORG#acme" None build build_seq)].
Qed.
Lemma requests_only : Forall appends_only requests.
Proof. apply Forall_cons; split; [|apply Forall_singleton]; by apply append_only. Qed.

Lemma run_steps h w :
  run = Some (h, w) → steps {| table := (∅ : GmapTable.t); pool := requests |} h w.
Proof. exact (GmapTable.run_schedule_steps schedule _ h w). Qed.
(** The run ends, with two transactions and both requests finished. *)
Lemma run_ends : ∃ h w, run = Some (h, w) ∧ length h = 2 ∧
  finished <$> pool w = [Some (Ok (Revision.new 1)); Some (Ok (Revision.new 2))].
Proof.
  assert (match run with
          | Some (h, w) => length h = 2 ∧
              finished <$> pool w = [Some (Ok (Revision.new 1)); Some (Ok (Revision.new 2))]
          | None => False end) as Hr by (vm_compute; split; reflexivity).
  destruct run as [[h w]|]; [|done]. exists h, w. done.
Qed.
End LogSample.

(** Witness: the two racing appends of the sample. *)
Lemma dynamo_log_linearizes_witness :
  ∃ h w xs, LogSample.run = Some (h, w) ∧ length xs = 2 ∧
    holds_log ∅ (table w) "ORG#acme" (of_org "ORG#acme" xs).
Proof.
  destruct LogSample.run_ends as (h & w & Hr & Hl & _).
  destruct (dynamo_log_linearizes (∅ : GmapTable.t) LogSample.requests h w)
    as (xs & Hh & _ & Ho).
  - apply LogSample.empty_log.
  - apply LogSample.requests_only.
  - exact (LogSample.run_steps h w Hr).
  - rewrite Hl. reflexivity.
  - exists h, w, xs. split_and!; [exact Hr| |apply Ho].
    rewrite Hh, length_fmap in Hl. exact Hl.
Defined.

(** Witness: in that run the second request got revision 2. *)
Lemma append_takes_effect_once_witness :
  ∃ h w xs i x, LogSample.run = Some (h, w) ∧
    h = (λ y, (y.1, txn_writes y.2)) <$> xs ∧ xs !! i = Some (1, x) ∧ x_seq x = 2%N.
Proof.
  destruct LogSample.run_ends as (h & w & Hr & Hl & Hf).
  assert (pool w !! 1 = Some (Done (Ok (Revision.new 2)))) as Hp.
  { apply (f_equal (lookup 1)) in Hf. rewrite list_lookup_fmap in Hf.
    destruct (pool w !! 1) as [[r| | |]|]; simpl in Hf; congruence. }
  destruct (append_takes_effect_once LogSample.actor_to_string (λ r, r) (∅ : GmapTable.t)
    LogSample.requests h w 1 "ORG#acme" None LogSample.build (LogSample.state "GROUP#admins")
    (Revision.new 2)) as (xs & i & x & Hh & Hi & _ & Hx & _).
  - apply LogSample.empty_log.
  - apply LogSample.requests_only.
  - exact (LogSample.run_steps h w Hr).
  - rewrite Hl. reflexivity.
  - reflexivity.
  - apply LogSample.build_seq.
  - exact Hp.
  - exists h, w, xs, i, x. split_and!; [exact Hr|exact Hh|exact Hi|]. congruence.
Defined.

(** Witness: the first append to an empty table. *)
Lemma append_progress_witness :
  ∃ get ws answer,
    EventLog.append LogSample.actor_to_string "ORG#acme" None LogSample.build
      (LogSample.state "META") = GetItem ("ORG#acme", EventLog.SK_SEQ) get ∧
    get (Ok None) = Transact ws answer ∧
    answer Dynamo.Committed = Done (Ok (Revision.new 1)).
Proof.
  destruct (append_progress LogSample.actor_to_string (∅ : GmapTable.t) ∅ "ORG#acme" [] None
    LogSample.build (LogSample.state "META")
    (EventSample.event 1 EventKind.GroupPut Json.Null) "null"
    (default ∅ (match EventLog.event_item LogSample.actor_to_string "ORG#acme"
       (EventSample.event 1 EventKind.GroupPut Json.Null) "null" with
       Ok i => Some i | _ => None end)))
    as (_ & get & ws & answer & Hg & Ht & _ & _ & Ha).
  - apply LogSample.empty_log.
  - reflexivity.
  - discriminate.
  - discriminate.
  - reflexivity.
  - reflexivity.
  - reflexivity.
  - reflexivity.
  - reflexivity.
  - discriminate.
  - exists get, ws, answer. split_and!; [exact Hg|exact Ht|exact Ha].
Defined.

(** Stored events read back.  For every signed envelope with a
    representable sequence number, the item [event_item] builds under the
    organization's key parses with [envelope_from_item] to the same envelope,
    signature included, provided the JSON library reads back what it writes. *)
Theorem event_item_roundtrip to_vec json_from_str actor_to_string actor_from_str org_pk
    (p : Envelope.EventDraftParams) key_id sig i :
  (∀ s, actor_to_string (Envelope.p_actor p) = Ok s →
     actor_from_str s = Ok (Envelope.p_actor p)) →
  json_from_str (to_vec (Envelope.p_payload p)) = Ok (Envelope.p_payload p) →
  Envelope.id_str (Envelope.p_event_id p) ≠ "" → (Revision.value (Envelope.p_seq p) < 2 ^ 64)%N →
  let e := Envelope.from_signed (Envelope.draft_new p) key_id sig in
  EventLog.event_item actor_to_string org_pk e (to_vec (Envelope.p_payload p)) = Ok i →
  Dynamo.key_of i =
    Some (org_pk, EventLog.event_sk (Revision.value (Envelope.p_seq p))) ∧
  EventLog.envelope_from_item json_from_str actor_from_str i = Ok e.
Proof.
  intros Hactor Hjson Hid Hseq e Hi. split; [by apply (AppendFacts.event_item_key _ _ _ _ _ Hi)|].
  unfold EventLog.event_item in Hi. simpl in Hi. inv_ok.
  match goal with Ha : actor_to_string _ = Ok _ |- _ => apply Hactor in Ha; rename Ha into Hact end.
  unfold EventLog.envelope_from_item, EventLog.get_s, EventLog.seq_attr, Dynamo.pk, Dynamo.sk.
  simplify_map_eq. rewrite Hjson. simpl. rewrite Hact. simpl.
  unfold Envelope.event_id_try_new. rewrite bool_decide_eq_false_2 by done. simpl.
  rewrite DecimalFacts.parse_u64_pretty by done. simpl.
  rewrite EventKindFacts.event_kind_from_str_as_str. simpl. subst e.
  by destruct p as [[] [] ? ? ? ?].
Qed.

(** Witness: a stored group event. *)
Lemma event_item_roundtrip_witness :
  ∃ i, EventLog.envelope_from_item (λ s, Ok (Json.String s)) (λ s, Ok (Envelope.Machine s)) i =
       Ok (Envelope.from_signed (Envelope.draft_new
             {| Envelope.p_event_id := Envelope.mk_id "01J"; Envelope.p_seq := Revision.new 7;
                Envelope.p_kind := EventKind.GroupPut; Envelope.p_occurred_at := "t";
                Envelope.p_actor := Envelope.Machine "m"; Envelope.p_payload := Json.String "x" |})
             "k" "sig") ∧
    Dynamo.key_of i = Some ("ORG#acme", "EVT#00000000000000000007").
Proof.
  set (p := {| Envelope.p_event_id := Envelope.mk_id "01J"; Envelope.p_seq := Revision.new 7;
               Envelope.p_kind := EventKind.GroupPut; Envelope.p_occurred_at := "t";
               Envelope.p_actor := Envelope.Machine "m"; Envelope.p_payload := Json.String "x" |}).
  set (to_vec := λ j, match j with Json.String s => s | _ => "" end).
  set (ats := λ a : Envelope.Actor,
         match a with Envelope.Machine k => Ok k | _ => Err "not a machine" end : result string string).
  destruct (EventLog.event_item ats "ORG#acme"
              (Envelope.from_signed (Envelope.draft_new p) "k" "sig")
              (to_vec (Envelope.p_payload p))) as [i|e|w] eqn:Hi;
    [|vm_compute in Hi; discriminate Hi..].
  destruct (event_item_roundtrip to_vec (λ s, Ok (Json.String s)) ats
              (λ s, Ok (Envelope.Machine s)) "ORG#acme" p "k" "sig" i) as [Hk He].
  - intros s [= <-]. reflexivity.
  - reflexivity.
  - discriminate.
  - reflexivity.
  - exact Hi.
  - exists i. split; [exact He|exact Hk].
Defined.

(** Sort keys order the log.  For 64-bit sequence numbers the zero-padded
    event keys are distinct and compare as strings the way the numbers do, so
    a key-range query returns events in order; every event key lies in the
    range up to [EVT_SK_MAX], and the counter, the signing key and the state
    items of the organization lie outside it. *)
Theorem event_sk_order (a b : N) :
  (a < 2 ^ 64)%N → (b < 2 ^ 64)%N →
  String.compare (EventLog.event_sk a) (EventLog.event_sk b) = N.compare a b ∧
  String.compare (EventLog.event_sk a) EventLog.EVT_SK_MAX = Lt ∧
  String.compare (EventLog.event_sk a) SK_EVENT_SIGNING_KEY = Gt ∧
  String.compare EventLog.EVT_SK_MAX EventLog.SK_SEQ = Lt ∧
  (∀ s, String.compare EventLog.EVT_SK_MAX ("META" +:+ s) = Lt ∧
        String.compare EventLog.EVT_SK_MAX ("PRINCIPAL#" +:+ s) = Lt ∧
        String.compare EventLog.EVT_SK_MAX ("PROMO#" +:+ s) = Lt ∧
        String.compare EventLog.EVT_SK_MAX ("GROUP#" +:+ s) = Lt).
Proof.
  intros Ha Hb. assert (2 ^ 64 < 10 ^ 20 - 1)%N as Hw by done.
  split_and!; [|change EventLog.EVT_SK_MAX with (EventLog.event_sk (10 ^ 20 - 1))|..].
  - apply SortKeyFacts.event_sk_compare; lia.
  - rewrite SortKeyFacts.event_sk_compare by lia. apply N.compare_lt_iff. lia.
  - reflexivity.
  - reflexivity.
  - intros s. split_and!; reflexivity.
Qed.

(** Witness: the last 64-bit sequence number. *)
Lemma event_sk_order_witness :
  EventLog.event_sk (2 ^ 64 - 1) = "EVT#18446744073709551615" ∧
  String.compare (EventLog.event_sk 9) (EventLog.event_sk 10) = Lt.
Proof.
  split; [vm_compute; reflexivity|].
  apply (event_sk_order 9 10); reflexivity.
Defined.
