(* ===== verification/DynamoStore.v ===== *)
(** The DynamoDB model event store of the control plane
    ([control-plane/src/model_event_store/mod.rs], [groups.rs], [support.rs])
    and the codecs of its items ([dynamo_store/mod.rs], [promotion_store.rs],
    [handlers/groups/codec.rs]).  Its operations are programs over the
    service; each appends through the event log, and the theorems say what
    that gives under concurrency, and where it does not give enough. *)

From S2P Require Import Prelude RustStr Ident Fgrn Store Event Org Rbac EventStore Dynamo.
From S2P Require Import DynamoLog.
From stdpp Require Import pretty.

(** The libraries the store calls: JSON, timestamps, digests, keys. *)
Record Libs (OrgConfig SigningKeyT : Type) := {
  to_vec : Json.t → string;
  sha256_hex : string → string;
  json_from_str : string → result string Json.t;
  actor_to_string : Envelope.Actor → result string string;
  org_value : Organization.t → result string Json.t;
  config_value : OrgConfig → result string Json.t;
  keys_value : list SigningKey.entry → result string Json.t;
  group_value : Rbac.RbacEntry → result string Json.t;
  config_to_string : OrgConfig → result string string;
  config_from_str : string → result string OrgConfig;
  keys_to_string : list SigningKey.entry → result string string;
  keys_from_str : string → result string (list SigningKey.entry);
  group_to_string : Rbac.RbacEntry → result string string;
  group_from_str : string → result string Rbac.RbacEntry;
  to_rfc3339 : instant → string;
  parse_from_rfc3339 : string → result string instant;
  xxh64_hex : string → string;
  key_from_pem : string → result string SigningKeyT;
  sign_b64 : SigningKeyT → string → string;
}.
Arguments to_vec {_ _}. Arguments sha256_hex {_ _}. Arguments json_from_str {_ _}.
Arguments actor_to_string {_ _}. Arguments org_value {_ _}. Arguments config_value {_ _}.
Arguments keys_value {_ _}. Arguments group_value {_ _}. Arguments config_to_string {_ _}.
Arguments config_from_str {_ _}. Arguments keys_to_string {_ _}. Arguments keys_from_str {_ _}.
Arguments group_to_string {_ _}. Arguments group_from_str {_ _}. Arguments to_rfc3339 {_ _}.
Arguments parse_from_rfc3339 {_ _}. Arguments xxh64_hex {_ _}. Arguments key_from_pem {_ _}.
Arguments sign_b64 {_ _}.

(** What the shell provides to one request: an event id per attempt, the
    time, and key pairs in case the event-signing key has to be minted. *)
Record Shell := {
  ulids : nat → string;
  now_str : string;
  minted_pem : nat → string;
}.

Module DynamoStore.
Definition SK_META : string := "META".
Definition ORG_PREFIX : string := "ORG#".
Definition EVENT_SIGNING_KEY_ID : string := "event-signing-key-1".
Definition MAX_KEY_APPEND_ATTEMPTS : nat := 3.
Definition PRINCIPAL_PREFIX : string := "PRINCIPAL#".
Definition PROMO_PREFIX : string := "PROMO#".
Definition SK_GROUP_PREFIX : string := "GROUP#".

Section store.
Context {OrgConfig SigningKeyT : Type} (L : Libs OrgConfig SigningKeyT).
Abbreviation OrgRecord := (@EventStore.OrgRecord OrgConfig).

(** ** Item codecs *)

Definition put_s (key value : string) (item : Dynamo.item) : Dynamo.item :=
  <[key := Dynamo.S value]> item.
Definition put_s_opt (key : string) (value : option string) (item : Dynamo.item) : Dynamo.item :=
  match value with Some v => put_s key v item | None => item end.

Definition to_item (org : Organization.t)
    (configured : option (@EventStore.ConfiguredConfig OrgConfig))
    (signing_keys : list SigningKey.entry) : result CpError.t Dynamo.item :=
  let item := put_s Dynamo.pk (ORG_PREFIX +:+ Id.as_str (Organization.org_id org)) ∅ in
  let item := put_s Dynamo.sk SK_META item in
  let item := put_s "name" (Organization.name org) item in
  let item := put_s "status" (OrgStatus.to_string (Organization.status org)) item in
  let item := put_s "created_at" (to_rfc3339 L (Organization.created_at org)) item in
  let item := put_s "updated_at" (to_rfc3339 L (Organization.updated_at org)) item in
  let item := put_s_opt "cognito_pool_id" (Organization.cognito_pool_id org) item in
  let item := put_s_opt "cognito_jwks_url" (Organization.cognito_jwks_url org) item in
  let item := put_s_opt "policy_store_id" (Organization.policy_store_id org) item in
  item ← match configured with
         | Some c =>
             config_json ← map_err (λ e, CpError.Store ("serialize config: " +:+ e))
                             (config_to_string L (EventStore.cc_config c));
             Ok (put_s "etag" (Etag.as_str (EventStore.cc_etag c))
                   (put_s "config" config_json item))
         | None => Ok item
         end;
  match signing_keys with
  | [] => Ok item
  | _ =>
      keys_json ← map_err (λ e, CpError.Store ("serialize signing_keys: " +:+ e))
                    (keys_to_string L signing_keys);
      Ok (put_s "signing_keys" keys_json item)
  end.

Definition get_s_opt (item : Dynamo.item) (key : string) : option string :=
  match item !! key with Some (Dynamo.S v) => Some v | _ => None end.
Definition parse_datetime (item : Dynamo.item) (key : string) : result CpError.t instant :=
  s ← EventLog.get_s item key;
  map_err (λ e, CpError.Store ("invalid datetime for " +:+ key +:+ ": " +:+ e))
    (parse_from_rfc3339 L s).

Definition from_item (item : Dynamo.item) : result CpError.t OrgRecord :=
  pk ← EventLog.get_s item Dynamo.pk;
  org_id_str ← ok_or (RustStr.strip_prefix ORG_PREFIX pk)
                 (CpError.Store ("pk missing " +:+ ORG_PREFIX +:+ " prefix: " +:+ pk));
  org_id ← map_err (λ e, CpError.Store ("invalid org_id in pk: " +:+ core_error_str e))
             (Id.new org_id_str);
  name ← EventLog.get_s item "name";
  status_str ← EventLog.get_s item "status";
  status ← map_err (λ e, CpError.Store ("invalid status: " +:+ core_error_str e))
             (OrgStatus.from_str status_str);
  created_at ← parse_datetime item "created_at";
  updated_at ← parse_datetime item "updated_at";
  let cognito_pool_id := get_s_opt item "cognito_pool_id" in
  let cognito_jwks_url := get_s_opt item "cognito_jwks_url" in
  let policy_store_id := get_s_opt item "policy_store_id" in
  configured ←
    match get_s_opt item "config", get_s_opt item "etag" with
    | Some config_json, Some etag_raw =>
        config ← map_err (λ e, CpError.Store ("deserialize config: " +:+ e))
                   (config_from_str L config_json);
        etag ← map_err (λ e, CpError.Store ("invalid stored etag for org '" +:+ Id.as_str org_id +:+
                                            "': " +:+ cp_error_str e)) (Etag.try_new etag_raw);
        Ok (Some {| EventStore.cc_config := config; EventStore.cc_etag := etag |})
    | None, None => Ok None
    | Some _, None =>
        Err (CpError.Store ("org '" +:+ Id.as_str org_id +:+
                            "' has 'config' attribute but no matching 'etag'"))
    | None, Some _ =>
        Err (CpError.Store ("org '" +:+ Id.as_str org_id +:+
                            "' has 'etag' attribute but no matching 'config'"))
    end;
  let org := Organization.with_aws_resources
               (Organization.with_updated_at
                  (Organization.new org_id name status created_at) updated_at)
               cognito_pool_id cognito_jwks_url policy_store_id in
  Ok {| EventStore.org := org; EventStore.configured := configured |}.

Definition signing_keys_from_item (item : Dynamo.item)
    : result CpError.t (list SigningKey.entry) :=
  match get_s_opt item "signing_keys" with
  | Some json => map_err (λ e, CpError.Store ("deserialize signing_keys: " +:+ e))
                   (keys_from_str L json)
  | None => Ok []
  end.

Definition principal_state_put (org_id : string) (native_id : NativeId.t)
    (payload_bytes updated_at : string) : result CpError.t EventLog.StatePut :=
  payload ← (if valid_utf8 payload_bytes then Ok payload_bytes
             else Err (CpError.Store "principal payload is not valid UTF-8"));
  _ ← map_err (λ e, CpError.Store ("principal payload is not valid JSON: " +:+ e))
        (json_from_str L payload);
  Ok {| EventLog.put_pk := ORG_PREFIX +:+ org_id;
        EventLog.put_sk := PRINCIPAL_PREFIX +:+ NativeId.as_str native_id;
        EventLog.attributes := put_s "updated_at" updated_at (put_s "payload" payload ∅);
        EventLog.guard := EventLog.NoGuard |}.

Definition promotion_sk (resource_type : Segment.t) (native_id : NativeId.t) : string :=
  PROMO_PREFIX +:+ Segment.as_str resource_type +:+ "#" +:+ NativeId.as_str native_id.
Definition promotion_state_put (org_id : string) (resource_type : Segment.t)
    (native_id : NativeId.t) (fgrn : Fgrn.t) (promoted_at : string) : EventLog.StatePut :=
  {| EventLog.put_pk := ORG_PREFIX +:+ org_id;
     EventLog.put_sk := promotion_sk resource_type native_id;
     EventLog.attributes :=
       put_s "promoted_at" promoted_at
         (put_s "native_id" (NativeId.as_str native_id)
           (put_s "fgrn" (Fgrn.to_string fgrn) ∅));
     EventLog.guard := EventLog.NoGuard |}.

Definition group_pk (org_id : OrganizationId) : string := ORG_PREFIX +:+ Id.as_str org_id.
Definition group_sk (name : string) : string := SK_GROUP_PREFIX +:+ name.
Definition to_group_item (org_id : OrganizationId) (entry : Rbac.RbacEntry) (etag : string)
    : result CpError.t Dynamo.item :=
  let item := put_s Dynamo.sk (group_sk (Rbac.name entry)) (put_s Dynamo.pk (group_pk org_id) ∅) in
  config_json ← map_err (λ e, CpError.Store ("serialize group entry: " +:+ e))
                  (group_to_string L entry);
  Ok (put_s "etag" etag (put_s "config" config_json item)).
Definition group_get_s (item : Dynamo.item) (key : string) : result CpError.t string :=
  ok_or (get_s_opt item key)
    (CpError.Store ("missing or non-string group attribute: " +:+ key)).
Definition from_group_item (item : Dynamo.item) : result CpError.t (Rbac.RbacEntry * string) :=
  sort_key ← group_get_s item Dynamo.sk;
  sk_name ← ok_or (RustStr.strip_prefix SK_GROUP_PREFIX sort_key)
              (CpError.Store ("group item has unexpected SK (missing " +:+ SK_GROUP_PREFIX +:+
                              " prefix): " +:+ Rbac.debug_str sort_key));
  config_json ← group_get_s item "config";
  entry ← map_err (λ e, CpError.Store ("deserialize group config: " +:+ e))
            (group_from_str L config_json);
  etag ← group_get_s item "etag";
  if negb (bool_decide (Rbac.name entry = sk_name))
  then Err (CpError.Store ("group item name mismatch: SK says " +:+ Rbac.debug_str sk_name +:+
                           " but config.name is " +:+ Rbac.debug_str (Rbac.name entry)))
  else Ok (entry, etag).
Definition compute_group_etag (entry : Rbac.RbacEntry) : result CpError.t string :=
  json ← map_err (λ e, CpError.Config ("etag serial: " +:+ e)) (group_to_string L entry);
  Ok (String Rbac.quote (xxh64_hex L json +:+ String Rbac.quote "")).
(** ** The event-signing key *)

Definition key_item (pk_value private_pem : string) : Dynamo.item :=
  put_s "private_key_pem" private_pem
    (put_s "key_id" EVENT_SIGNING_KEY_ID
      (put_s Dynamo.sk SK_EVENT_SIGNING_KEY (put_s Dynamo.pk pk_value ∅))).

(** Each recursive call follows a refused put; [fuel] bounds them. *)
Fixpoint ensure_signing_key (fuel : nat) (sh : Shell) (org_id : string)
    : prog (SigningKeyT * string) :=
  match fuel with
  | 0 => pure (Stuck "ensure_signing_key: recursion bound")
  | S fuel =>
      let pk_value := ORG_PREFIX +:+ org_id in
      existing ← EventLog.get (pk_value, SK_EVENT_SIGNING_KEY);
      match existing with
      | Some item =>
          private_pem ← pure (EventLog.get_s item "private_key_pem");
          key_id ← pure (EventLog.get_s item "key_id");
          signing_key ← pure (map_err (λ e, CpError.Store
                                ("stored event signing key invalid: " +:+ e))
                                (key_from_pem L private_pem));
          mret (signing_key, key_id)
      | None =>
          let private_pem := minted_pem sh fuel in
          PutItem (key_item pk_value private_pem) (Dynamo.AttributeNotExists Dynamo.sk) (λ out,
            match out with
            | Dynamo.Stored =>
                signing_key ← pure (map_err (λ e, CpError.Store
                                      ("generated event signing key invalid: " +:+ e))
                                      (key_from_pem L private_pem));
                mret (signing_key, EVENT_SIGNING_KEY_ID)
            | Dynamo.PutFailed msg => pure (Err (CpError.Store msg))
            | Dynamo.ConditionFailed _ => ensure_signing_key fuel sh org_id
            end)
      end
  end.
(** A put is refused only when the key is there, so one re-read is enough. *)
Definition SIGNING_KEY_CALLS : nat := 2.

(** ** Shared bodies *)

(** The [build] closure of an append: each attempt mints its own event id. *)
Definition build_event (sh : Shell) (org_id : string) (kind : EventKind.t)
    (actor : Envelope.Actor) (payload : Json.t) (key : SigningKeyT * string)
    (attempt : nat) (revision : Revision.t) : result CpError.t (Envelope.t * string) :=
  EventStore.build_model_event (to_vec L) (sha256_hex L) (sign_b64 L key.1)
    (EventStore.Build_stamp (ulids sh attempt) (now_str sh)) org_id kind actor payload key.2
    revision.

Definition latest_revision (org_id : string) : prog Revision.t :=
  r ← EventLog.latest_revision (ORG_PREFIX +:+ org_id);
  pure (map_err store_err r).
Definition get_raw_org_item (org_id : string) : prog (option Dynamo.item) :=
  EventLog.get (ORG_PREFIX +:+ org_id, SK_META).

(** [attributes.remove(pk()); attributes.remove(sk())]. *)
Definition without_keys (attributes : Dynamo.item) : Dynamo.item :=
  delete Dynamo.sk (delete Dynamo.pk attributes).

Definition append_org_state (sh : Shell) (record : OrgRecord) (kind : EventKind.t)
    (actor : Envelope.Actor) (expected : option Revision.t) : prog Revision.t :=
  let org_id := EventStore.record_id record in
  key ← ensure_signing_key SIGNING_KEY_CALLS sh org_id;
  let guard := if bool_decide (kind = EventKind.OrgCreated)
               then EventLog.MustNotExist else EventLog.NoGuard in
  item ← get_raw_org_item org_id;
  existing_keys ← pure match item with
                       | Some item => signing_keys_from_item item
                       | None => Ok []
                       end;
  payload ← pure (EventStore.org_payload (org_value L) (config_value L) record);
  attributes ← pure (to_item (EventStore.org record) (EventStore.configured record) existing_keys);
  let state := {| EventLog.put_pk := ORG_PREFIX +:+ org_id; EventLog.put_sk := SK_META;
                  EventLog.attributes := without_keys attributes; EventLog.guard := guard |} in
  EventLog.append (actor_to_string L) (ORG_PREFIX +:+ org_id) expected
    (build_event sh org_id kind actor payload key) state.

(** The retry loop of [append_org_keys]; [sh] gives each round its shell. *)
Fixpoint append_org_keys_loop (remaining : nat) (sh : nat → Shell) (org_id : string)
    (kind : EventKind.t) (actor : Envelope.Actor)
    (transition : list SigningKey.entry → SigningKey.transition_result)
    : prog (option Revision.t) :=
  match remaining with
  | 0 => pure (Err (CpError.Store ("org '" +:+ org_id +:+ "' key mutation did not converge after " +:+
                                   pretty MAX_KEY_APPEND_ATTEMPTS +:+ " attempts")))
  | S remaining =>
      found ← get_raw_org_item org_id;
      item ← pure (ok_or found (CpError.NotFound ("organization '" +:+ org_id +:+ "' not found")));
      record ← pure (from_item item);
      existing_keys ← pure (signing_keys_from_item item);
      outcome ← pure (transition existing_keys);
      match outcome with
      | None => mret None
      | Some (affected_key_id, new_keys) =>
          key ← ensure_signing_key SIGNING_KEY_CALLS (sh remaining) org_id;
          keys_json ← pure (map_err (λ e, CpError.Store ("serialize signing_keys: " +:+ e))
                              (keys_value L new_keys));
          let payload := Fold.key_event_payload affected_key_id keys_json in
          attributes ← pure (to_item (EventStore.org record) (EventStore.configured record) new_keys);
          let state := {| EventLog.put_pk := ORG_PREFIX +:+ org_id; EventLog.put_sk := SK_META;
                          EventLog.attributes := without_keys attributes;
                          EventLog.guard := EventLog.NoGuard |} in
          expected ← latest_revision org_id;
          r ← attempt (EventLog.append (actor_to_string L) (ORG_PREFIX +:+ org_id) (Some expected)
                         (build_event (sh remaining) org_id kind actor payload key) state);
          match r with
          | Ok revision => mret (Some revision)
          | Err (CpError.RevisionMismatch _) =>
              append_org_keys_loop remaining sh org_id kind actor transition
          | Err e => pure (Err e)
          | Stuck w => pure (Stuck w)
          end
      end
  end.
Definition append_org_keys (sh : nat → Shell) (org_id : string) (kind : EventKind.t)
    (actor : Envelope.Actor)
    (transition : list SigningKey.entry → SigningKey.transition_result)
    : prog (option Revision.t) :=
  append_org_keys_loop MAX_KEY_APPEND_ATTEMPTS sh org_id kind actor transition.

(** ** The trait's operations *)

Definition get_principal (org_id : string) (native_id : NativeId.t) : prog (option Json.t) :=
  item ← EventLog.get (ORG_PREFIX +:+ org_id, PRINCIPAL_PREFIX +:+ NativeId.as_str native_id);
  match item with
  | None => mret None
  | Some item =>
      payload ← pure (EventLog.get_s item "payload");
      doc ← pure (map_err (λ e, CpError.Store ("deserialize principal payload: " +:+ e))
                    (json_from_str L payload));
      mret (Some doc)
  end.

Definition upsert_changed (sh : Shell) (org_id : string) (native_id : NativeId.t)
    (actor : Envelope.Actor) (payload : Json.t) : prog Revision.t :=
  key ← ensure_signing_key SIGNING_KEY_CALLS sh org_id;
  let event_payload := Fold.principal_event_payload native_id payload in
  state ← pure (principal_state_put org_id native_id (to_vec L payload) (now_str sh));
  EventLog.append (actor_to_string L) (ORG_PREFIX +:+ org_id) None
    (build_event sh org_id EventKind.PrincipalUpserted actor event_payload key) state.

Definition get_promotion (org_id : string) (resource_type : Segment.t) (native_id : NativeId.t)
    : prog (option string) :=
  item ← EventLog.get (ORG_PREFIX +:+ org_id, promotion_sk resource_type native_id);
  match item with
  | None => mret None
  | Some item => fgrn ← pure (EventLog.get_s item "fgrn"); mret (Some fgrn)
  end.

Definition put_promotion (sh : Shell) (org_id : string) (resource_type : Segment.t)
    (native_id : NativeId.t) (actor : Envelope.Actor) : prog Revision.t :=
  key ← ensure_signing_key SIGNING_KEY_CALLS sh org_id;
  fgrn ← pure (PromotionStore.promotion_fgrn org_id resource_type native_id);
  let payload := PromotionStore.promotion_event_payload fgrn resource_type native_id in
  let state := promotion_state_put org_id resource_type native_id fgrn (now_str sh) in
  EventLog.append (actor_to_string L) (ORG_PREFIX +:+ org_id) None
    (build_event sh org_id EventKind.ResourcePromoted actor payload key) state.

Definition tombstone_promotion (sh : Shell) (org_id : string) (resource_type : Segment.t)
    (native_id : NativeId.t) (actor : Envelope.Actor) : prog (option Revision.t) :=
  key ← ensure_signing_key SIGNING_KEY_CALLS sh org_id;
  fgrn ← pure (PromotionStore.promotion_fgrn org_id resource_type native_id);
  let payload := PromotionStore.promotion_event_payload fgrn resource_type native_id in
  let state := {| EventLog.del_pk := ORG_PREFIX +:+ org_id;
                  EventLog.del_sk := promotion_sk resource_type native_id |} in
  EventLog.append_with_delete (actor_to_string L) (ORG_PREFIX +:+ org_id) None
    (build_event sh org_id EventKind.ResourceTombstoned actor payload key) state.

Definition create_org (sh : Shell) (record : OrgRecord) (actor : Envelope.Actor)
    : prog Revision.t :=
  append_org_state sh record EventKind.OrgCreated actor None.
Definition update_org (sh : Shell) (record : OrgRecord) (actor : Envelope.Actor)
    (expected : option Revision.t) : prog Revision.t :=
  append_org_state sh record EventKind.OrgUpdated actor expected.
(** The [debug_assert_ne!] on the kind is not compiled in release builds. *)
Definition transition_org (sh : Shell) (record : OrgRecord) (kind : EventKind.t)
    (actor : Envelope.Actor) (expected : Revision.t) : prog Revision.t :=
  append_org_state sh record kind actor (Some expected).

Definition expect_some {A} (why : string) (o : option A) : prog A :=
  match o with Some a => mret a | None => pure (Stuck why) end.
(** The key material is generated by the shell, before the first await. *)
Definition generate_org_key (sh : nat → Shell) (org_id : string) (new_entry : SigningKey.entry)
    (actor : Envelope.Actor) : prog Revision.t :=
  outcome ← append_org_keys sh org_id EventKind.OrgKeyGenerated actor
              (SigningKey.generate_key_transition new_entry);
  expect_some "generate_org_key never no-ops" outcome.
Definition revoke_org_key (sh : nat → Shell) (org_id key_id : string) (actor : Envelope.Actor)
    : prog (option Revision.t) :=
  append_org_keys sh org_id EventKind.OrgKeyRevoked actor
    (SigningKey.revoke_key_transition key_id).
Definition rotate_org_key (sh : nat → Shell) (org_id key_id : string)
    (new_entry : SigningKey.entry) (now grace : Z) (actor : Envelope.Actor) : prog Revision.t :=
  outcome ← append_org_keys sh org_id EventKind.OrgKeyRotated actor
              (SigningKey.rotate_key_transition key_id new_entry now grace);
  expect_some "rotate_org_key never no-ops" outcome.

Definition typed_org_id (org_id : string) : result CpError.t OrganizationId :=
  map_err (λ e, CpError.Store ("invalid org_id '" +:+ org_id +:+ "': " +:+ core_error_str e))
    (Id.new org_id).
Definition get_group_item (org_id : OrganizationId) (name : string) : prog (option Dynamo.item) :=
  EventLog.get (group_pk org_id, group_sk name).

Definition put_group (sh : Shell) (org_id : string) (entry : Rbac.RbacEntry)
    (actor : Envelope.Actor) (expected : option Revision.t) : prog EventStore.GroupWriteOutcome :=
  org_id_typed ← pure (typed_org_id org_id);
  let name := Rbac.name entry in
  existing_item ← get_group_item org_id_typed name;
  existing ← pure match existing_item with
                  | Some item => Some <$> from_group_item item
                  | None => Ok None
                  end;
  existing_value ←
    pure match existing with
         | Some (e, _) => Some <$> map_err (λ x, CpError.Store
                                       ("serialize existing group entry: " +:+ x)) (group_value L e)
         | None => Ok None
         end;
  new_value ← pure (map_err (λ x, CpError.Store ("serialize group entry: " +:+ x))
                      (group_value L entry));
  match Upsert.decide_upsert existing_value new_value with
  | Upsert.NoOp =>
      current ← latest_revision org_id;
      mret (EventStore.NoOp current)
  | Upsert.Changed payload =>
      etag ← pure (compute_group_etag entry);
      attributes ← pure (to_group_item org_id_typed entry etag);
      key ← ensure_signing_key SIGNING_KEY_CALLS sh org_id;
      let event_payload := Fold.group_put_payload name payload in
      let state := {| EventLog.put_pk := group_pk org_id_typed; EventLog.put_sk := group_sk name;
                      EventLog.attributes := without_keys attributes;
                      EventLog.guard := EventLog.NoGuard |} in
      revision ← EventLog.append (actor_to_string L) (ORG_PREFIX +:+ org_id) expected
                   (build_event sh org_id EventKind.GroupPut actor event_payload key) state;
      mret (EventStore.Applied revision)
  end.

Definition delete_group (sh : Shell) (org_id name : string) (actor : Envelope.Actor)
    (expected : option Revision.t) : prog EventStore.GroupWriteOutcome :=
  org_id_typed ← pure (typed_org_id org_id);
  existing_item ← get_group_item org_id_typed name;
  match existing_item with
  | None => current ← latest_revision org_id; mret (EventStore.NoOp current)
  | Some _ =>
      key ← ensure_signing_key SIGNING_KEY_CALLS sh org_id;
      let event_payload := Fold.group_deleted_payload name in
      let state := {| EventLog.del_pk := group_pk org_id_typed;
                      EventLog.del_sk := group_sk name |} in
      r ← EventLog.append_with_delete (actor_to_string L) (ORG_PREFIX +:+ org_id) expected
            (build_event sh org_id EventKind.GroupDeleted actor event_payload key) state;
      match r with
      | Some revision => mret (EventStore.Applied revision)
      | None => current ← latest_revision org_id; mret (EventStore.NoOp current)
      end
  end.

(** ** Requests *)

(** One call of the store, with what the shell provides to it. *)
Inductive Request :=
| UpsertChanged (sh : Shell) (org_id : string) (id : NativeId.t) (a : Envelope.Actor) (p : Json.t)
| PutPromotion (sh : Shell) (org_id : string) (rt : Segment.t) (n : NativeId.t) (a : Envelope.Actor)
| TombstonePromotion (sh : Shell) (org_id : string) (rt : Segment.t) (n : NativeId.t)
    (a : Envelope.Actor)
| CreateOrg (sh : Shell) (r : OrgRecord) (a : Envelope.Actor)
| UpdateOrg (sh : Shell) (r : OrgRecord) (a : Envelope.Actor) (expected : option Revision.t)
| TransitionOrg (sh : Shell) (r : OrgRecord) (v : LifecycleVerb.t) (a : Envelope.Actor)
    (expected : Revision.t)
| GenerateKey (sh : nat → Shell) (org_id : string) (e : SigningKey.entry) (a : Envelope.Actor)
| RevokeKey (sh : nat → Shell) (org_id key_id : string) (a : Envelope.Actor)
| RotateKey (sh : nat → Shell) (org_id key_id : string) (e : SigningKey.entry) (now grace : Z)
    (a : Envelope.Actor)
| PutGroup (sh : Shell) (org_id : string) (e : Rbac.RbacEntry) (a : Envelope.Actor)
    (expected : option Revision.t)
| DeleteGroup (sh : Shell) (org_id name : string) (a : Envelope.Actor)
    (expected : option Revision.t)
| GetPrincipal (org_id : string) (id : NativeId.t)
| GetPromotion (org_id : string) (rt : Segment.t) (n : NativeId.t)
| LatestRevision (org_id : string).

Inductive Response :=
| Revised (r : Revision.t)
| MaybeRevised (r : option Revision.t)
| Grouped (o : EventStore.GroupWriteOutcome)
| Document (d : option Json.t)
| Promotion (f : option string).

Definition answer {A} (f : A → Response) (p : prog A) : prog Response := a ← p; mret (f a).
Definition serve (r : Request) : prog Response :=
  match r with
  | UpsertChanged sh org_id id a p => answer Revised (upsert_changed sh org_id id a p)
  | PutPromotion sh org_id rt n a => answer Revised (put_promotion sh org_id rt n a)
  | TombstonePromotion sh org_id rt n a =>
      answer MaybeRevised (tombstone_promotion sh org_id rt n a)
  | CreateOrg sh r a => answer Revised (create_org sh r a)
  | UpdateOrg sh r a e => answer Revised (update_org sh r a e)
  | TransitionOrg sh r v a e =>
      answer Revised (transition_org sh r (EventStore.verb_kind v) a e)
  | GenerateKey sh org_id e a => answer Revised (generate_org_key sh org_id e a)
  | RevokeKey sh org_id k a => answer MaybeRevised (revoke_org_key sh org_id k a)
  | RotateKey sh org_id k e now grace a => answer Revised (rotate_org_key sh org_id k e now grace a)
  | PutGroup sh org_id e a x => answer Grouped (put_group sh org_id e a x)
  | DeleteGroup sh org_id name a x => answer Grouped (delete_group sh org_id name a x)
  | GetPrincipal org_id id => answer Document (get_principal org_id id)
  | GetPromotion org_id rt n => answer Promotion (get_promotion org_id rt n)
  | LatestRevision org_id => answer Revised (latest_revision org_id)
  end.

Definition shell_wf (sh : Shell) : Prop := ∀ n, ulids sh n ≠ "".
(** ULIDs are not empty and typed arguments are what their constructors build. *)
Definition request_wf (r : Request) : Prop :=
  match r with
  | UpsertChanged sh _ _ _ _ | CreateOrg sh _ _ | UpdateOrg sh _ _ _ | TransitionOrg sh _ _ _ _
  | PutGroup sh _ _ _ _ | DeleteGroup sh _ _ _ _ => shell_wf sh
  | PutPromotion sh _ rt n _ | TombstonePromotion sh _ rt n _ =>
      shell_wf sh ∧ Segment.wf rt ∧ NativeId.wf n
  | GenerateKey sh _ _ _ | RevokeKey sh _ _ _ | RotateKey sh _ _ _ _ _ _ => ∀ k, shell_wf (sh k)
  | GetPrincipal _ _ | GetPromotion _ _ _ | LatestRevision _ => True
  end.
(** Every payload the request may log satisfies [ok]. *)
Definition request_logs (ok : Json.t → Prop) (r : Request) : Prop :=
  match r with
  | UpsertChanged _ _ id _ p => ok (Fold.principal_event_payload id p)
  | PutPromotion _ org_id rt n _ | TombstonePromotion _ org_id rt n _ =>
      ∀ fgrn, PromotionStore.promotion_fgrn org_id rt n = Ok fgrn →
        ok (PromotionStore.promotion_event_payload fgrn rt n)
  | CreateOrg _ r _ | UpdateOrg _ r _ _ | TransitionOrg _ r _ _ _ =>
      ∀ j, EventStore.org_payload (org_value L) (config_value L) r = Ok j → ok j
  | GenerateKey _ _ _ _ | RevokeKey _ _ _ _ | RotateKey _ _ _ _ _ _ _ =>
      ∀ id keys j, keys_value L keys = Ok j → ok (Fold.key_event_payload id j)
  | PutGroup _ _ e _ _ => ∀ j, group_value L e = Ok j → ok (Fold.group_put_payload (Rbac.name e) j)
  | DeleteGroup _ _ name _ _ => ok (Fold.group_deleted_payload name)
  | GetPrincipal _ _ | GetPromotion _ _ _ | LatestRevision _ => True
  end.
End store.
End DynamoStore.

(** * Facts about the codecs *)
Module CodecFacts.
Import DynamoStore.
Lemma get_s_get_s_opt i k :
  EventLog.get_s i k =
  ok_or (get_s_opt i k) (CpError.Store ("missing or non-string attribute: " +:+ k)).
Proof. done. Qed.
Lemma get_put_eq k v i : get_s_opt (put_s k v i) k = Some v.
Proof. unfold get_s_opt, put_s. by rewrite lookup_insert_eq. Qed.
Lemma get_put_ne k k' v i : k ≠ k' → get_s_opt (put_s k v i) k' = get_s_opt i k'.
Proof. intros Hk. unfold get_s_opt, put_s. by rewrite lookup_insert_ne. Qed.
Lemma get_put_opt_eq k v i : get_s_opt i k = None → get_s_opt (put_s_opt k v i) k = v.
Proof. intros Hi. destruct v; simpl; [apply get_put_eq|done]. Qed.
Lemma get_put_opt_ne k k' v i : k ≠ k' → get_s_opt (put_s_opt k v i) k' = get_s_opt i k'.
Proof. intros Hk. destruct v; simpl; [by apply get_put_ne|done]. Qed.
Lemma get_empty k : get_s_opt ∅ k = None.
Proof. done. Qed.
(** Reads an attribute of an item under construction. *)
Ltac read_attr :=
  repeat first
    [ rewrite get_put_eq | rewrite get_put_ne by discriminate
    | rewrite get_put_opt_ne by discriminate | rewrite get_empty
    | rewrite get_put_opt_eq by (read_attr; reflexivity) ].

Lemma key_of_attrs i :
  Dynamo.key_of i = (p ← get_s_opt i Dynamo.pk; s ← get_s_opt i Dynamo.sk; Some (p, s)).
Proof.
  unfold Dynamo.key_of, get_s_opt. by destruct (i !! Dynamo.pk) as [[]|], (i !! Dynamo.sk) as [[]|].
Qed.
Lemma org_status_roundtrip s : OrgStatus.from_str (OrgStatus.to_string s) = Ok s.
Proof. by destruct s. Qed.
Lemma strip_own_prefix p s : RustStr.strip_prefix p (p +:+ s) = Some s.
Proof. induction p as [|c p IH]; [done|]. simpl. by rewrite Ascii.eqb_refl. Qed.

Section codecs.
Context {OrgConfig SigningKeyT : Type} (L : Libs OrgConfig SigningKeyT).

(** The attributes that do not depend on the configuration and the keys. *)
Definition base_item (o : Organization.t) : Dynamo.item :=
  put_s_opt "policy_store_id" (Organization.policy_store_id o)
  (put_s_opt "cognito_jwks_url" (Organization.cognito_jwks_url o)
  (put_s_opt "cognito_pool_id" (Organization.cognito_pool_id o)
  (put_s "updated_at" (to_rfc3339 L (Organization.updated_at o))
  (put_s "created_at" (to_rfc3339 L (Organization.created_at o))
  (put_s "status" (OrgStatus.to_string (Organization.status o))
  (put_s "name" (Organization.name o)
  (put_s Dynamo.sk SK_META
  (put_s Dynamo.pk (ORG_PREFIX +:+ Id.as_str (Organization.org_id o)) ∅)))))))).
Definition with_config (c : option (string * string)) (i : Dynamo.item) : Dynamo.item :=
  match c with Some (config, etag) => put_s "etag" etag (put_s "config" config i) | None => i end.

Lemma to_item_shape o c keys i :
  to_item L o c keys = Ok i →
  ∃ cj kj, i = put_s_opt "signing_keys" kj (with_config cj (base_item o)) ∧
    match c, cj with
    | Some c, Some (config, etag) =>
        config_to_string L (EventStore.cc_config c) = Ok config ∧
        etag = Etag.as_str (EventStore.cc_etag c)
    | None, None => True
    | _, _ => False
    end ∧
    match kj with Some j => keys_to_string L keys = Ok j | None => keys = [] end.
Proof.
  unfold to_item. intros (i1 & Hc & Hk)%bind_Ok.
  assert (∃ cj, i1 = with_config cj (base_item o) ∧
            match c, cj with
            | Some c, Some (config, etag) =>
                config_to_string L (EventStore.cc_config c) = Ok config ∧
                etag = Etag.as_str (EventStore.cc_etag c)
            | None, None => True
            | _, _ => False
            end) as (cj & -> & Hcj).
  { destruct c as [c|].
    - apply bind_Ok in Hc as (cfg & Hc%map_err_Ok & [= <-]).
      by exists (Some (cfg, Etag.as_str (EventStore.cc_etag c))).
    - injection Hc as <-. by exists None. }
  destruct keys as [|k ks].
  - injection Hk as <-. by exists cj, None.
  - apply bind_Ok in Hk as (j & Hj%map_err_Ok & [= <-]). by exists cj, (Some j).
Qed.
End codecs.
End CodecFacts.

(** Stored organizations read back.  For every organization, with any
    configuration, key list and resources, the item [to_item] builds has the
    key of the organization's META item; [from_item] parses it to the same
    record and [signing_keys_from_item] to the same key list, provided the
    libraries read back what they write. *)
Theorem org_item_roundtrip {OrgConfig SigningKeyT} (L : Libs OrgConfig SigningKeyT) o c keys i :
  (∀ x s, c = Some x → config_to_string L (EventStore.cc_config x) = Ok s →
     config_from_str L s = Ok (EventStore.cc_config x)) →
  (∀ s, keys_to_string L keys = Ok s → keys_from_str L s = Ok keys) →
  (∀ x, x = Organization.created_at o ∨ x = Organization.updated_at o →
     parse_from_rfc3339 L (to_rfc3339 L x) = Ok x) →
  Id.new (Id.as_str (Organization.org_id o)) = Ok (Organization.org_id o) →
  (∀ x, c = Some x → Etag.as_str (EventStore.cc_etag x) ≠ "") →
  DynamoStore.to_item L o c keys = Ok i →
  Dynamo.key_of i = Some (DynamoStore.ORG_PREFIX +:+ Id.as_str (Organization.org_id o),
                          DynamoStore.SK_META) ∧
  DynamoStore.from_item L i = Ok {| EventStore.org := o; EventStore.configured := c |} ∧
  DynamoStore.signing_keys_from_item L i = Ok keys.
Proof.
  intros Hconf Hkeys Htime Hid Hetag (cj & kj & -> & Hc & Hk)%CodecFacts.to_item_shape.
  assert (∀ k, k ≠ "etag" → k ≠ "config" →
    DynamoStore.get_s_opt (CodecFacts.with_config cj (CodecFacts.base_item L o)) k =
    DynamoStore.get_s_opt (CodecFacts.base_item L o) k) as Hbase.
  { intros k H1 H2. destruct cj as [[]|]; [|done]. simpl.
    by rewrite !CodecFacts.get_put_ne by congruence. }
  assert (DynamoStore.get_s_opt (CodecFacts.with_config cj (CodecFacts.base_item L o)) "config" =
          fst <$> cj ∧
          DynamoStore.get_s_opt (CodecFacts.with_config cj (CodecFacts.base_item L o)) "etag" =
          snd <$> cj) as [Hcfg Het].
  { destruct cj as [[]|]; simpl; unfold CodecFacts.base_item; by split; CodecFacts.read_attr. }
  set (item := DynamoStore.put_s_opt _ _ _).
  assert (∀ k, k ≠ "etag" → k ≠ "config" → k ≠ "signing_keys" →
    DynamoStore.get_s_opt item k = DynamoStore.get_s_opt (CodecFacts.base_item L o) k) as Hitem.
  { intros k H1 H2 H3. unfold item. rewrite CodecFacts.get_put_opt_ne by congruence. by apply Hbase. }
  split_and!.
  - rewrite CodecFacts.key_of_attrs, !Hitem by discriminate. unfold CodecFacts.base_item.
    CodecFacts.read_attr. done.
  - unfold DynamoStore.from_item, DynamoStore.parse_datetime.
    rewrite !CodecFacts.get_s_get_s_opt.
    rewrite (Hitem Dynamo.pk), (Hitem "name"), (Hitem "status"), (Hitem "created_at"),
      (Hitem "updated_at"), (Hitem "cognito_pool_id"), (Hitem "cognito_jwks_url"),
      (Hitem "policy_store_id") by discriminate. unfold item.
    rewrite !(CodecFacts.get_put_opt_ne "signing_keys"), Hcfg, Het by discriminate.
    unfold CodecFacts.base_item. CodecFacts.read_attr.
    cbv [ok_or mbind result_bind map_err]. rewrite CodecFacts.strip_own_prefix, Hid.
    rewrite CodecFacts.org_status_roundtrip, (Htime (Organization.created_at o)), (Htime (Organization.updated_at o)) by auto.
    destruct c as [c|], cj as [[cfg etag]|]; simpl; try done.
    + destruct Hc as [Hc ->]. rewrite (Hconf _ _ eq_refl Hc). unfold Etag.try_new.
      specialize (Hetag c eq_refl). destruct c as [cc [e]]. simpl in *. destruct e; [done|].
      by destruct o.
    + by destruct o.
  - unfold DynamoStore.signing_keys_from_item, item. rewrite CodecFacts.get_put_opt_eq.
    + destruct kj as [j|]; simpl; [by rewrite (Hkeys _ Hk)|by rewrite Hk].
    + rewrite Hbase by discriminate. unfold CodecFacts.base_item. by CodecFacts.read_attr.
Qed.
