(* ===== verification/DynamoSigned.v ===== *)
(** Concurrent requests against the DynamoDB model event store
    ([control-plane/src/model_event_store]).  A small rely-guarantee logic
    over programs of service calls gives what every interleaving of store
    operations preserves; the theorems say that the logs are the landed
    transactions in order, that an organization's event-signing key is minted
    once, and that every event in a log is signed with it. *)

From S2P Require Import Prelude RustStr Ident Fgrn Store Event Org Rbac EventStore Dynamo.
From S2P Require Import DynamoLog DynamoStore.
From stdpp Require Import pretty.

(** * Rely-guarantee *)

(** [I] holds of the table at all times, [R] relates it to any later table,
    and [J] says what a transaction that landed is.  [wp t p Q]: from [t],
    whatever the other requests do within [R], [p] keeps [I] and [R], lands
    only [J] transactions, and ends in [Q]. *)
Module Rely.
Section wp.
Context {T : Type} `{DynamoService T}.
Context (I : T → Prop) (R : T → T → Prop) (J : T → list Dynamo.write → Prop).

Fixpoint wp {A} (t : T) (p : prog A) (Q : T → result CpError.t A → Prop) : Prop :=
  match p with
  | Done r => Q t r
  | GetItem k cont =>
      ∀ t', I t' → R t t' →
        wp t' (cont (Ok (get_item t' k))) Q ∧ ∀ e, wp t' (cont (Err e)) Q
  | PutItem i c cont =>
      ∀ t' t'' out b, I t' → R t t' → put_item t' i c t'' out b →
        I t'' ∧ R t' t'' ∧ wp t'' (cont out) Q
  | Transact ws cont =>
      ∀ t' t'' out b, I t' → R t t' → transact t' ws t'' out b →
        I t'' ∧ R t' t'' ∧ (b = true → J t'' ws) ∧ wp t'' (cont out) Q
  end.

Definition stable {B} (Q : T → B → Prop) : Prop := ∀ t t' b, I t' → R t t' → Q t b → Q t' b.
End wp.

Section rules.
Context {T : Type} `{DynamoLaws T}.
Context (I : T → Prop) (R : T → T → Prop) `{!PreOrder R} (J : T → list Dynamo.write → Prop).
Abbreviation wp := (wp I R J).
Abbreviation stable := (stable I R).

Lemma wp_stable {A} (p : prog A) (Q : T → result CpError.t A → Prop) t t' :
  stable Q → I t' → R t t' → wp t p Q → wp t' p Q.
Proof.
  intros Hq HI HR. destruct p as [r|k cont|i c cont|ws cont]; simpl.
  - by apply Hq.
  - intros Hw u Hu Hr. apply Hw; [done|by transitivity t'].
  - intros Hw u u' out b Hu Hr. apply Hw; [done|by transitivity t'].
  - intros Hw u u' out b Hu Hr. apply Hw; [done|by transitivity t'].
Qed.
Lemma wp_mono {A} (p : prog A) (Q Q' : T → result CpError.t A → Prop) t :
  (∀ t r, Q t r → Q' t r) → wp t p Q → wp t p Q'.
Proof.
  intros HQ. revert t. induction p as [r|k cont IH|i c cont IH|ws cont IH]; intros t; simpl.
  - apply HQ.
  - intros Hw t' Ht Hr. destruct (Hw t' Ht Hr). split; [by apply IH|]. intros e. by apply IH.
  - intros Hw t' t'' out b Ht Hr Hp. destruct (Hw _ _ _ _ Ht Hr Hp) as (? & ? & ?).
    split_and!; [done..|by apply IH].
  - intros Hw t' t'' out b Ht Hr Hp. destruct (Hw _ _ _ _ Ht Hr Hp) as (? & ? & ? & ?).
    split_and!; [done..|by apply IH].
Qed.

(** What a bind needs of its first half. *)
Definition after {A B} (f : A → prog B) (Q : T → result CpError.t B → Prop)
    (t : T) (r : result CpError.t A) : Prop :=
  match r with Ok a => wp t (f a) Q | Err e => Q t (Err e) | Stuck w => Q t (Stuck w) end.
Lemma wp_bind {A B} (p : prog A) (f : A → prog B) (Q : T → result CpError.t B → Prop) t :
  wp t p (after f Q) → wp t (p ≫= f) Q.
Proof.
  revert t. induction p as [[a|e|w]|k cont IH|i c cont IH|ws cont IH]; intros t; [done..| | |].
  - intros Hw t' Ht Hr. destruct (Hw t' Ht Hr) as [H1 H2]. split; [exact (IH _ _ H1)|].
    intros e. exact (IH _ _ (H2 e)).
  - intros Hw t' t'' out b Ht Hr Hp. destruct (Hw _ _ _ _ Ht Hr Hp) as (? & ? & H1).
    split_and!; [done..|exact (IH _ _ H1)].
  - intros Hw t' t'' out b Ht Hr Hp. destruct (Hw _ _ _ _ Ht Hr Hp) as (? & ? & ? & H1).
    split_and!; [done..|exact (IH _ _ H1)].
Qed.
Lemma wp_attempt {A} (p : prog A) (Q : T → result CpError.t (result CpError.t A) → Prop) t :
  wp t p (λ t r, Q t (Ok r)) → wp t (attempt p) Q.
Proof.
  revert t. induction p as [r|k cont IH|i c cont IH|ws cont IH]; intros t; [done|..].
  - intros Hw t' Ht Hr. destruct (Hw t' Ht Hr) as [H1 H2]. split; [exact (IH _ _ H1)|].
    intros e. exact (IH _ _ (H2 e)).
  - intros Hw t' t'' out b Ht Hr Hp. destruct (Hw _ _ _ _ Ht Hr Hp) as (? & ? & H1).
    split_and!; [done..|exact (IH _ _ H1)].
  - intros Hw t' t'' out b Ht Hr Hp. destruct (Hw _ _ _ _ Ht Hr Hp) as (? & ? & ? & H1).
    split_and!; [done..|exact (IH _ _ H1)].
Qed.

(** A pool of programs that respect one another. *)
Lemma pool_step {A} (Q : T → result CpError.t A → Prop) (w w' : world T A) l :
  stable Q → I (table w) → Forall (λ p, wp (table w) p Q) (pool w) → step w l w' →
  I (table w') ∧ R (table w) (table w') ∧ Forall (λ p, wp (table w') p Q) (pool w') ∧
  Forall (λ x, J (table w') x.2) l.
Proof.
  intros Hq HI Hp Hs.
  assert (∀ t' n q, I t' → R (table w) t' → wp t' q Q →
            Forall (λ p, wp t' p Q) (<[n := q]> (pool w))) as Hins.
  { intros t' n q HI' HR' Hwp. apply Forall_insert; [|done].
    eapply Forall_impl; [exact Hp|]. intros p. by apply wp_stable. }
  destruct Hs as [t pl m k cont Hm|t pl m k cont e Hm|t pl m i c cont t' out b Hm Hput|
                  t pl m ws cont t' out b Hm Htx]; simpl in *;
    apply (Forall_lookup_1 _ _ _ _ Hp) in Hm as Hw; simpl in Hw.
  - destruct (Hw t HI) as [Hok _]; [reflexivity|]. split_and!; [done|reflexivity| |constructor].
    apply Hins; [done|reflexivity|done].
  - destruct (Hw t HI) as [_ He]; [reflexivity|]. split_and!; [done|reflexivity| |constructor].
    apply Hins; [done|reflexivity|done].
  - destruct (Hw t t' out b HI) as (? & ? & ?); [reflexivity|done|].
    split_and!; [done|done| |constructor]. by apply Hins.
  - destruct (Hw t t' out b HI) as (? & ? & HJ & ?); [reflexivity|done|].
    split_and!; [done|done|by apply Hins|]. destruct b; [|constructor].
    apply Forall_singleton. by apply HJ.
Qed.
Lemma pool_steps {A} (Q : T → result CpError.t A → Prop) (w w' : world T A) h :
  stable Q → stable J → I (table w) → Forall (λ p, wp (table w) p Q) (pool w) → steps w h w' →
  I (table w') ∧ R (table w) (table w') ∧ Forall (λ p, wp (table w') p Q) (pool w') ∧
  Forall (λ x, J (table w') x.2) h.
Proof.
  intros Hq HJ HI Hp Hs. induction Hs as [w|w l w' h w'' Hstep _ IH].
  - split_and!; [done|reflexivity|done|constructor].
  - destruct (pool_step Q _ _ _ Hq HI Hp Hstep) as (HI' & HR & Hp' & Hl).
    destruct (IH HI' Hp') as (HI'' & HR' & Hp'' & Hh).
    split_and!; [done|by transitivity (table w')|done|]. apply Forall_app. split; [|done].
    eapply Forall_impl; [exact Hl|]. intros x. by apply HJ.
Qed.
(** A stable fact is carried along. *)
Lemma wp_frame {A} (p : prog A) (Q : T → result CpError.t A → Prop) (F : T → Prop) t :
  (∀ t t', I t' → R t t' → F t → F t') → F t → wp t p Q → wp t p (λ t r, Q t r ∧ F t).
Proof.
  intros HF. revert t. induction p as [r|k cont IH|i c cont IH|ws cont IH]; intros t Ht; simpl.
  - done.
  - intros Hw t' HI Hr. destruct (Hw t' HI Hr) as [H1 H2]. pose proof (HF _ _ HI Hr Ht).
    split; [by apply IH|]. intros e. by apply IH.
  - intros Hw t' t'' out b HI Hr Hp. destruct (Hw _ _ _ _ HI Hr Hp) as (HI' & Hr' & H1).
    split_and!; [done|done|]. apply IH; [exact (HF _ _ HI' Hr' (HF _ _ HI Hr Ht))|done].
  - intros Hw t' t'' out b HI Hr Hp. destruct (Hw _ _ _ _ HI Hr Hp) as (HI' & Hr' & HJ & H1).
    split_and!; [done..|]. apply IH; [exact (HF _ _ HI' Hr' (HF _ _ HI Hr Ht))|done].
Qed.
End rules.
End Rely.

(** * Signed logs *)
Module Signed.
Section signed.
Context {T : Type} `{DynamoLaws T}.
Context {OrgConfig SigningKeyT : Type} (L : Libs OrgConfig SigningKeyT).
(** What is known of the payloads the requests log. *)
Context (logged : Json.t → Prop).

(** Stored signing keys have their key attribute, and stay as they are. *)
Definition keys_wf (t : T) : Prop :=
  ∀ o i, get_item t (o, SK_EVENT_SIGNING_KEY) = Some i → is_Some (i !! Dynamo.sk).
Definition keys_kept (t t' : T) : Prop :=
  ∀ o i, get_item t (o, SK_EVENT_SIGNING_KEY) = Some i →
         get_item t' (o, SK_EVENT_SIGNING_KEY) = Some i.
#[global] Instance keys_kept_preorder : PreOrder keys_kept.
Proof. split; [by intros t o i|]. intros t u v Htu Huv o i Hi. by apply Huv, Htu. Qed.

(** The key an organization's events are signed with, as stored. *)
Definition stored_key (t : T) (o : string) (key : SigningKeyT * string) : Prop :=
  ∃ i pem, get_item t (o, SK_EVENT_SIGNING_KEY) = Some i ∧
    EventLog.get_s i "private_key_pem" = Ok pem ∧ EventLog.get_s i "key_id" = Ok key.2 ∧
    key_from_pem L pem = Ok key.1.

(** The event of a transaction is the item of an envelope signed, over its
    canonical bytes for the organization, with the organization's key. *)
Definition signed (t : T) (x : txn) : Prop :=
  ∃ org_id key p,
    let draft := Envelope.draft_new p in
    x_org x = DynamoStore.ORG_PREFIX +:+ org_id ∧ stored_key t (x_org x) key ∧
    Envelope.p_seq p = Revision.new (x_seq x) ∧ Envelope.id_str (Envelope.p_event_id p) ≠ "" ∧
    logged (Envelope.p_payload p) ∧
    EventLog.event_item (actor_to_string L) (x_org x)
      (Envelope.from_signed draft key.2
         (sign_b64 L key.1 (Canonical.canonical_event_bytes (to_vec L) (sha256_hex L) draft org_id)))
      (to_vec L (Envelope.p_payload p)) = Ok (x_event x).
Definition landed (t : T) (ws : list Dynamo.write) : Prop :=
  ∃ x, ws = txn_writes x ∧ txn_wf x ∧ signed t x.

Lemma stored_key_kept t t' o key : keys_kept t t' → stored_key t o key → stored_key t' o key.
Proof. intros Hk (i & pem & Hi & ?). exists i, pem. split; [by apply Hk|done]. Qed.
Lemma signed_kept t t' x : keys_kept t t' → signed t x → signed t' x.
Proof.
  intros Hk (o & key & p & Ho & Hs & ?). exists o, key, p.
  split_and!; [done|by eapply stored_key_kept|naive_solver..].
Qed.
Lemma landed_stable : Rely.stable keys_wf keys_kept landed.
Proof. intros t t' ws _ Hk (x & -> & Hx & Hs). exists x. split_and!; [done..|by eapply signed_kept]. Qed.

Abbreviation wp := (Rely.wp keys_wf keys_kept landed).

Lemma stored_key_unique t o k1 k2 : stored_key t o k1 → stored_key t o k2 → k1 = k2.
Proof.
  intros (i & p & Hi & Hp & Hk & He) (i' & p' & Hi' & Hp' & Hk' & He').
  destruct k1, k2. simplify_eq/=. congruence.
Qed.

(** Tables that differ outside the signing keys. *)
Lemma keys_same t t' :
  (∀ o, get_item t' (o, SK_EVENT_SIGNING_KEY) = get_item t (o, SK_EVENT_SIGNING_KEY)) →
  keys_wf t → keys_wf t' ∧ keys_kept t t'.
Proof.
  intros He Hw. split; intros o i; [rewrite He; apply Hw|by rewrite He].
Qed.
Lemma txn_keeps_keys t t' x :
  txn_wf x → applied t (txn_writes x) t' →
  ∀ o, get_item t' (o, SK_EVENT_SIGNING_KEY) = get_item t (o, SK_EVENT_SIGNING_KEY).
Proof.
  intros Hx [_ Hs] o. apply Hs. intros w Hw Hk.
  destruct (LogFacts.txn_keys x w _ Hx Hw Hk) as [Heq|[Heq|(_ & s & Heq & Hsk)]].
  - discriminate (f_equal snd Heq).
  - injection Heq as _ Heq. by apply (LogFacts.event_sk_not_key (x_seq x)).
  - injection Heq as _ Heq. subst s. apply LogFacts.state_sk_spec in Hsk. naive_solver.
Qed.
Lemma transact_keeps t t' x out b :
  keys_wf t → txn_wf x → transact t (txn_writes x) t' out b → keys_wf t' ∧ keys_kept t t'.
Proof.
  intros Hw Hx Ht. apply keys_same; [|done]. destruct b.
  - apply law_effect in Ht as (_ & Ha & _). by eapply txn_keeps_keys.
  - apply law_no_effect in Ht. intros o. apply Ht.
Qed.
(** A conditional put of a key stores it only where there is none. *)
Lemma put_keeps t t' i out b o :
  keys_wf t → Dynamo.key_of i = Some (o, SK_EVENT_SIGNING_KEY) →
  put_item t i (Dynamo.AttributeNotExists Dynamo.sk) t' out b → keys_wf t' ∧ keys_kept t t'.
Proof.
  intros Hw Hk Hp. destruct b; [|apply law_put_no_effect in Hp; apply keys_same; [intros; apply Hp|done]].
  apply law_put_effect in Hp as [(k & Hk' & Hc) [Hset Hsame]]. simpl in Hk', Hc.
  rewrite Hk in Hk'. injection Hk' as <-. apply bool_decide_eq_true in Hc.
  assert (get_item t (o, SK_EVENT_SIGNING_KEY) = None) as Hnone.
  { destruct (get_item t (o, SK_EVENT_SIGNING_KEY)) as [j|] eqn:Hj; [|done].
    apply Hw in Hj as [v Hv]. simpl in Hc. congruence. }
  pose proof (Hset (Dynamo.Put i _) _ ltac:(left) Hk) as Hi. simpl in Hi.
  assert (∀ o', o' ≠ o → get_item t' (o', SK_EVENT_SIGNING_KEY) =
                         get_item t (o', SK_EVENT_SIGNING_KEY)) as Ho.
  { intros o' Ho. apply Hsame. intros w ->%list_elem_of_singleton. simpl. congruence. }
  split.
  - intros o' j. destruct (decide (o' = o)) as [->|Hne]; [|rewrite Ho by done; apply Hw].
    rewrite Hi. intros [= <-]. unfold Dynamo.key_of in Hk.
    destruct (i !! Dynamo.sk); [done|]. by destruct (i !! Dynamo.pk ≫= Dynamo.as_s).
  - intros o' j Hj. destruct (decide (o' = o)) as [->|Hne]; [congruence|by rewrite Ho].
Qed.

(** Programs of appends respect the others. *)
Lemma wp_appends {A} (P : txn → Prop) (V : result CpError.t A → Prop) (p : prog A) t :
  appends P V p → (∀ x t', keys_kept t t' → P x → signed t' x) → wp t p (λ _, V).
Proof.
  intros Hp. revert t. induction Hp as [r Hv|k cont _ IH|i c cont (o & Hk) -> _ IH|x cont Hx HP _ IH];
    intros t HJ; simpl.
  - done.
  - intros t' _ Hr. split; [apply IH; [done|]|intros e; apply IH; [done|]];
      intros y u Hu; apply HJ; by transitivity t'.
  - intros t' t'' out b Hi Hr Hput. destruct (put_keeps _ _ _ _ _ _ Hi Hk Hput) as [? ?].
    split_and!; [done..|]. apply IH. intros y u Hu. apply HJ.
    transitivity t'; [done|]. by transitivity t''.
  - intros t' t'' out b Hi Hr Htx. destruct (transact_keeps _ _ _ _ _ Hi Hx Htx) as [? ?].
    assert (keys_kept t t'') as Hk by (by transitivity t').
    split_and!; [done|done|intros _; exists x; by eauto|]. apply IH. intros y u Hu. apply HJ.
    by transitivity t''.
Qed.

Lemma stored_key_read t o i pem kid key :
  get_item t (o, SK_EVENT_SIGNING_KEY) = Some i → EventLog.get_s i "private_key_pem" = Ok pem →
  EventLog.get_s i "key_id" = Ok kid → key_from_pem L pem = Ok key → stored_key t o (key, kid).
Proof. intros. by exists i, pem. Qed.
Lemma key_item_key o pem :
  Dynamo.key_of (DynamoStore.key_item o pem) = Some (o, SK_EVENT_SIGNING_KEY).
Proof.
  unfold DynamoStore.key_item, DynamoStore.put_s, Dynamo.key_of, Dynamo.pk, Dynamo.sk.
  by simplify_map_eq.
Qed.
(** The libraries return. *)
Record libs_return : Prop := {
  ret_json : ∀ s, returns (json_from_str L s);
  ret_actor : ∀ a, returns (actor_to_string L a);
  ret_org : ∀ o, returns (org_value L o);
  ret_config : ∀ c, returns (config_value L c);
  ret_keys : ∀ k, returns (keys_value L k);
  ret_group : ∀ g, returns (group_value L g);
  ret_config_str : ∀ c, returns (config_to_string L c);
  ret_config_from : ∀ s, returns (config_from_str L s);
  ret_keys_str : ∀ k, returns (keys_to_string L k);
  ret_keys_from : ∀ s, returns (keys_from_str L s);
  ret_group_str : ∀ g, returns (group_to_string L g);
  ret_group_from : ∀ s, returns (group_from_str L s);
  ret_instant : ∀ s, returns (parse_from_rfc3339 L s);
  ret_pem : ∀ s, returns (key_from_pem L s);
}.
Context (HL : libs_return).

(** ** Minting and reading the key *)
Definition key_post (org_id : string) (t : T) (r : result CpError.t (SigningKeyT * string)) : Prop :=
  match r with
  | Ok key => stored_key t (DynamoStore.ORG_PREFIX +:+ org_id) key
  | Err _ => True
  | Stuck _ => False
  end.
Lemma key_post_stable o : Rely.stable keys_wf keys_kept (key_post o).
Proof. intros t t' [key|e|w] _ Hk; simpl; [by apply stored_key_kept|done..]. Qed.

Lemma get_s_returns i k : returns (EventLog.get_s i k).
Proof. apply returns_ok_or. Qed.
Lemma wp_pure {A B} t (r : result CpError.t A) (f : A → prog B) Q :
  returns r → (∀ a, r = Ok a → wp t (f a) Q) → (∀ e, Q t (Err e)) → wp t (pure r ≫= f) Q.
Proof. destruct r as [a|e|w]; intros Hr Hf He; [by apply Hf|apply He|by destruct (Hr w)]. Qed.
Lemma wp_get {B} t k (f : option Dynamo.item → prog B) Q :
  (∀ t', keys_wf t' → keys_kept t t' → wp t' (f (get_item t' k)) Q) → (∀ e t', Q t' (Err e)) →
  wp t (EventLog.get k ≫= f) Q.
Proof. intros Hf He t' Hi Hk. split; [by apply Hf|intros e; apply He]. Qed.

(** Reading a stored key. *)
Lemma wp_key_found org_id t i :
  get_item t (DynamoStore.ORG_PREFIX +:+ org_id, SK_EVENT_SIGNING_KEY) = Some i →
  wp t (private_pem ← pure (EventLog.get_s i "private_key_pem");
        key_id ← pure (EventLog.get_s i "key_id");
        signing_key ← pure (map_err (λ e, CpError.Store
                              ("stored event signing key invalid: " +:+ e))
                              (key_from_pem L private_pem));
        mret (signing_key, key_id)) (key_post org_id).
Proof.
  intros Hi. apply wp_pure; [apply get_s_returns| |done]. intros pem Hp.
  apply wp_pure; [apply get_s_returns| |done]. intros kid Hk.
  apply wp_pure; [apply returns_map_err, ret_pem, HL| |done].
  intros key He%map_err_Ok. by eapply stored_key_read.
Qed.
(** With a key in the table the first read finds it. *)
Lemma wp_ensure_present fuel sh org_id t :
  is_Some (get_item t (DynamoStore.ORG_PREFIX +:+ org_id, SK_EVENT_SIGNING_KEY)) →
  wp t (DynamoStore.ensure_signing_key L (S fuel) sh org_id) (key_post org_id).
Proof.
  intros [i Hi]. apply wp_get; [|done]. intros t' _ Hk. apply Hk in Hi.
  rewrite Hi. by apply wp_key_found.
Qed.
Lemma wp_ensure sh org_id t :
  wp t (DynamoStore.ensure_signing_key L DynamoStore.SIGNING_KEY_CALLS sh org_id) (key_post org_id).
Proof.
  apply wp_get; [|done]. intros t1 _ _.
  destruct (get_item t1 _) as [i|] eqn:Hi; [by apply wp_key_found|].
  intros t2 t3 out b HI _ Hput. set (o := DynamoStore.ORG_PREFIX +:+ org_id) in *.
  set (item := DynamoStore.key_item o (minted_pem sh 1)) in *.
  destruct (put_keeps _ _ _ _ _ _ HI (key_item_key o (minted_pem sh 1)) Hput) as [Hwf Hk].
  split_and!; [done|done|]. destruct out as [|msg|msg]; [| |done].
  - assert (b = true) as -> by (by eapply law_stored).
    apply law_put_effect in Hput as [_ [Hset _]].
    pose proof (Hset (Dynamo.Put item _) _ ltac:(left) (key_item_key _ _)) as Hst. simpl in Hst.
    apply wp_pure; [apply returns_map_err, ret_pem, HL| |done].
    intros key He%map_err_Ok. eapply stored_key_read; [exact Hst| | |exact He];
      unfold item, DynamoStore.key_item, DynamoStore.put_s, EventLog.get_s, Dynamo.pk, Dynamo.sk;
      by simplify_map_eq.
  - apply wp_ensure_present. apply law_refused in Hput.
    destruct (get_item t3 (o, SK_EVENT_SIGNING_KEY)) as [j|] eqn:Hj; [done|].
    destruct Hput. exists (o, SK_EVENT_SIGNING_KEY). split; [apply key_item_key|].
    simpl. unfold o in *. by rewrite Hj.
Qed.

(** ** Appending with the key *)
Section with_key.
Context (sh : Shell) (Hulid : ∀ n, ulids sh n ≠ "").

Lemma build_event_Ok org_id kind actor payload key attempt r :
  ∃ p, let draft := Envelope.draft_new p in
    Envelope.p_seq p = r ∧ Envelope.id_str (Envelope.p_event_id p) ≠ "" ∧
    Envelope.p_payload p = payload ∧
    DynamoStore.build_event L sh org_id kind actor payload key attempt r =
    Ok (Envelope.from_signed draft key.2
          (sign_b64 L key.1
             (Canonical.canonical_event_bytes (to_vec L) (sha256_hex L) draft org_id)),
        to_vec L (Envelope.p_payload p)).
Proof.
  unfold DynamoStore.build_event, EventStore.build_model_event, Envelope.event_id_try_new. simpl.
  rewrite bool_decide_eq_false_2 by apply Hulid. simpl.
  exists {| Envelope.p_event_id := Envelope.mk_id (ulids sh attempt); Envelope.p_seq := r;
            Envelope.p_kind := kind; Envelope.p_occurred_at := now_str sh;
            Envelope.p_actor := actor; Envelope.p_payload := payload |}.
  split_and!; [done|apply Hulid|done|done].
Qed.
Lemma build_event_seq org_id kind actor payload key a r e b :
  DynamoStore.build_event L sh org_id kind actor payload key a r = Ok (e, b) → Envelope.seq e = r.
Proof.
  destruct (build_event_Ok org_id kind actor payload key a r) as (d & Hd & _ & _ & ->).
  intros [= <- _]. exact Hd.
Qed.
Lemma build_event_returns org_id kind actor payload key :
  (∀ a r, returns (DynamoStore.build_event L sh org_id kind actor payload key a r)) ∧
  ∀ a, returns (actor_to_string L a).
Proof.
  split; [|apply HL]. intros a r.
  by destruct (build_event_Ok org_id kind actor payload key a r) as (d & _ & _ & _ & ->).
Qed.
Lemma sends_signed t org_id kind actor payload key expected state x :
  logged payload → stored_key t (DynamoStore.ORG_PREFIX +:+ org_id) key →
  AppendFacts.sends (actor_to_string L) (DynamoStore.ORG_PREFIX +:+ org_id) expected
    (DynamoStore.build_event L sh org_id kind actor payload key) state x → signed t x.
Proof.
  intros Hp Hk [Ho _ _ (a & env & bytes & Hb & Hi)].
  destruct (build_event_Ok org_id kind actor payload key a (Revision.new (x_seq x)))
    as (d & Hd & Hid & Hdp & Hb'). rewrite Hb' in Hb. injection Hb as <- <-.
  exists org_id, key, d. rewrite Ho. cbv zeta. split_and!; try done. by rewrite Hdp.
Qed.
Lemma wp_append t org_id kind actor payload key expected state :
  logged payload → stored_key t (DynamoStore.ORG_PREFIX +:+ org_id) key →
  EventLog.put_pk state = DynamoStore.ORG_PREFIX +:+ org_id →
  state_sk (EventLog.put_sk state) = true →
  wp t (EventLog.append (actor_to_string L) (DynamoStore.ORG_PREFIX +:+ org_id) expected
          (DynamoStore.build_event L sh org_id kind actor payload key) state) (λ _, returns).
Proof.
  intros Hp Hk Hpk Hsk. eapply wp_appends.
  - apply AppendFacts.only_append; [intros; by eapply build_event_seq|apply build_event_returns|done..].
  - intros x t' Hkept. apply sends_signed; [done|]. by eapply stored_key_kept.
Qed.
Lemma wp_append_with_delete t org_id kind actor payload key expected state :
  logged payload → stored_key t (DynamoStore.ORG_PREFIX +:+ org_id) key →
  EventLog.del_pk state = DynamoStore.ORG_PREFIX +:+ org_id →
  state_sk (EventLog.del_sk state) = true →
  wp t (EventLog.append_with_delete (actor_to_string L) (DynamoStore.ORG_PREFIX +:+ org_id) expected
          (DynamoStore.build_event L sh org_id kind actor payload key) state) (λ _, returns).
Proof.
  intros Hp Hk Hpk Hsk. eapply wp_appends.
  - apply AppendFacts.only_append_with_delete;
      [intros; by eapply build_event_seq|apply build_event_returns|done..].
  - intros x t' Hkept. apply sends_signed; [done|]. by eapply stored_key_kept.
Qed.
End with_key.
(** ** The operations *)
Hint Resolve get_s_returns : returns.
Hint Resolve ret_json ret_actor ret_org ret_config ret_keys ret_group ret_config_str
  ret_config_from ret_keys_str ret_keys_from ret_group_str ret_group_from ret_instant ret_pem
  : returns.

Lemma to_item_returns o c k : returns (DynamoStore.to_item L o c k).
Proof. unfold DynamoStore.to_item. solve_returns. Qed.
Lemma signing_keys_returns i : returns (DynamoStore.signing_keys_from_item L i).
Proof. unfold DynamoStore.signing_keys_from_item. solve_returns. Qed.
Lemma parse_datetime_returns i k : returns (DynamoStore.parse_datetime L i k).
Proof. unfold DynamoStore.parse_datetime. solve_returns. Qed.
Hint Resolve to_item_returns signing_keys_returns parse_datetime_returns : returns.
Lemma org_status_returns s : returns (OrgStatus.from_str s).
Proof. unfold OrgStatus.from_str. solve_returns. Qed.
Lemma etag_returns s : returns (Etag.try_new s).
Proof. unfold Etag.try_new. solve_returns. Qed.
Hint Resolve org_status_returns etag_returns id_new_returns : returns.
Lemma from_item_returns i : returns (DynamoStore.from_item L i).
Proof. unfold DynamoStore.from_item. solve_returns. Qed.
Lemma payload_returns (r : @EventStore.OrgRecord OrgConfig) :
  returns (EventStore.org_payload (org_value L) (config_value L) r).
Proof. unfold EventStore.org_payload. solve_returns. Qed.
Lemma principal_put_returns o n b u : returns (DynamoStore.principal_state_put L o n b u).
Proof. unfold DynamoStore.principal_state_put. solve_returns. Qed.
Lemma fgrn_resource_returns o rt n :
  Segment.wf rt → NativeId.wf n → returns (PromotionStore.promotion_fgrn o rt n).
Proof.
  intros Hrt Hn. unfold PromotionStore.promotion_fgrn. apply returns_bind; [solve_returns|].
  intros os _. by rewrite FgrnFacts.resource_Ok.
Qed.
Lemma from_group_returns i : returns (DynamoStore.from_group_item L i).
Proof. unfold DynamoStore.from_group_item, DynamoStore.group_get_s. solve_returns. Qed.
Lemma to_group_returns o e t : returns (DynamoStore.to_group_item L o e t).
Proof. unfold DynamoStore.to_group_item. solve_returns. Qed.
Lemma group_etag_returns e : returns (DynamoStore.compute_group_etag L e).
Proof. unfold DynamoStore.compute_group_etag. solve_returns. Qed.
Lemma typed_id_returns o : returns (DynamoStore.typed_org_id o).
Proof. unfold DynamoStore.typed_org_id. solve_returns. Qed.
Hint Resolve from_item_returns payload_returns principal_put_returns fgrn_resource_returns
  from_group_returns to_group_returns group_etag_returns typed_id_returns : returns.
Lemma wp_with_key {B} sh org_id t (f : SigningKeyT * string → prog B) Q :
  (∀ t' key, stored_key t' (DynamoStore.ORG_PREFIX +:+ org_id) key → wp t' (f key) Q) →
  (∀ t' e, Q t' (Err e)) →
  wp t (DynamoStore.ensure_signing_key L DynamoStore.SIGNING_KEY_CALLS sh org_id ≫= f) Q.
Proof.
  intros Hf He. apply Rely.wp_bind. eapply Rely.wp_mono; [|apply wp_ensure].
  intros t' [key|e|w] Hk; simpl in *; [by apply Hf|apply He|done].
Qed.
Lemma only_latest org_id : appends (λ _, False) returns (DynamoStore.latest_revision org_id).
Proof.
  unfold DynamoStore.latest_revision, EventLog.latest_revision.
  eapply AppendFacts.appends_bind_returns with (V := λ r, ∃ r', r = Ok r' ∧ returns r').
  - eapply AppendFacts.appends_bind;
      [apply AppendFacts.only_attempt, AppendFacts.only_read_counter|..].
    + intros r (r' & [= <-] & Hr'). constructor. eexists. split; [done|].
      by apply returns_map_err, returns_fmap.
    + intros e (r' & Hx & _). discriminate Hx.
    + intros w (r' & Hx & _). discriminate Hx.
  - intros w (r' & Hx & _). discriminate Hx.
  - intros r (r' & [= <-] & Hr'). constructor. by apply returns_map_err.
Qed.
Lemma wp_latest {B} t org_id (F : T → Prop) (f : Revision.t → prog B) Q :
  (∀ t t', keys_wf t' → keys_kept t t' → F t → F t') → F t →
  (∀ t' r, F t' → wp t' (f r) Q) → (∀ t' e, Q t' (Err e)) →
  wp t (DynamoStore.latest_revision org_id ≫= f) Q.
Proof.
  intros HF Ht Hf He. apply Rely.wp_bind.
  eapply Rely.wp_mono; [|apply (Rely.wp_frame _ _ _ _ (λ _, returns) F); [done..|]].
  - intros t' [r|e|w] [Hr HF']; simpl; [by apply Hf|apply He|by destruct (Hr w)].
  - eapply wp_appends; [apply only_latest|done].
Qed.

Lemma state_sk_principal n : state_sk (DynamoStore.PRINCIPAL_PREFIX +:+ n) = true.
Proof. done. Qed.
Lemma state_sk_promotion rt n : state_sk (DynamoStore.promotion_sk rt n) = true.
Proof. done. Qed.
Lemma state_sk_group n : state_sk (DynamoStore.group_sk n) = true.
Proof. done. Qed.

Lemma wp_append_org_state sh t r kind actor expected :
  (∀ n, ulids sh n ≠ "") →
  (∀ j, EventStore.org_payload (org_value L) (config_value L) r = Ok j → logged j) →
  wp t (DynamoStore.append_org_state L sh r kind actor expected) (λ _, returns).
Proof.
  intros Hu Hl. apply wp_with_key; [|done]. intros t' key Hk. apply wp_get; [|done].
  intros t1 _ Hk1. apply (stored_key_kept _ _ _ _ Hk1) in Hk.
  apply wp_pure; [destruct (get_item _ _); solve_returns| |done]. intros keys _.
  apply wp_pure; [auto with returns| |done]. intros payload Hpl%Hl.
  apply wp_pure; [auto with returns| |done]. intros attrs _. by apply wp_append.
Qed.
Lemma wp_upsert sh t org_id n actor payload :
  (∀ n, ulids sh n ≠ "") → logged (Fold.principal_event_payload n payload) →
  wp t (DynamoStore.upsert_changed L sh org_id n actor payload) (λ _, returns).
Proof.
  intros Hu Hl. apply wp_with_key; [|done]. intros t' key Hk.
  apply wp_pure; [auto with returns| |done]. intros state Hs.
  apply bind_Ok in Hs as (pl & _ & (doc & _ & [= <-])%bind_Ok). by apply wp_append.
Qed.
Lemma wp_put_promotion sh t org_id rt n actor :
  (∀ n, ulids sh n ≠ "") → Segment.wf rt → NativeId.wf n →
  (∀ fgrn, PromotionStore.promotion_fgrn org_id rt n = Ok fgrn →
     logged (PromotionStore.promotion_event_payload fgrn rt n)) →
  wp t (DynamoStore.put_promotion L sh org_id rt n actor) (λ _, returns).
Proof.
  intros Hu Hrt Hn Hl. apply wp_with_key; [|done]. intros t' key Hk.
  apply wp_pure; [auto with returns| |done]. intros f Hf%Hl. by apply wp_append.
Qed.
Lemma wp_tombstone sh t org_id rt n actor :
  (∀ n, ulids sh n ≠ "") → Segment.wf rt → NativeId.wf n →
  (∀ fgrn, PromotionStore.promotion_fgrn org_id rt n = Ok fgrn →
     logged (PromotionStore.promotion_event_payload fgrn rt n)) →
  wp t (DynamoStore.tombstone_promotion L sh org_id rt n actor) (λ _, returns).
Proof.
  intros Hu Hrt Hn Hl. apply wp_with_key; [|done]. intros t' key Hk.
  apply wp_pure; [auto with returns| |done]. intros f Hf%Hl. by apply wp_append_with_delete.
Qed.
(** A key operation ends with no revision only when its transition says so. *)
Definition keys_post (transition : list SigningKey.entry → SigningKey.transition_result)
    (r : result CpError.t (option Revision.t)) : Prop :=
  returns r ∧ (r = Ok None → ∃ keys, transition keys = Ok None).
Lemma keys_post_Err transition e : keys_post transition (Err e).
Proof. done. Qed.
(** Every payload of a key event may be logged. *)
Definition keys_logged : Prop :=
  ∀ id keys j, keys_value L keys = Ok j → logged (Fold.key_event_payload id j).
Lemma wp_append_org_keys n sh t org_id kind actor transition :
  (∀ k n, ulids (sh k) n ≠ "") → (∀ keys, returns (transition keys)) → keys_logged →
  wp t (DynamoStore.append_org_keys_loop L n sh org_id kind actor transition)
    (λ _, keys_post transition).
Proof.
  intros Hu Htr Hl. revert t. induction n as [|n IH]; intros t; [apply keys_post_Err|].
  apply wp_get; [|intros; apply keys_post_Err]. intros t1 _ _.
  apply wp_pure; [apply returns_ok_or| |intros; apply keys_post_Err]. intros item _.
  apply wp_pure; [auto with returns| |intros; apply keys_post_Err]. intros record _.
  apply wp_pure; [auto with returns| |intros; apply keys_post_Err]. intros keys _.
  apply wp_pure; [apply Htr| |intros; apply keys_post_Err]. intros [[affected new_keys]|] Hout.
  - apply wp_with_key; [|intros; apply keys_post_Err]. intros t2 key Hk.
    apply wp_pure; [auto with returns| |intros; apply keys_post_Err]. intros json Hj%map_err_Ok.
    apply wp_pure; [auto with returns| |intros; apply keys_post_Err]. intros attrs _.
    eapply wp_latest with (F := λ t, stored_key t (DynamoStore.ORG_PREFIX +:+ org_id) key);
      [intros ? ? _; by apply stored_key_kept|done| |intros; apply keys_post_Err].
    intros t3 expected Hk3. apply Rely.wp_bind, Rely.wp_attempt.
    eapply Rely.wp_mono; [|apply wp_append; [apply Hu|by eapply Hl|done..]]. intros t4 [rev|e|w] Hr.
    + change (keys_post transition (Ok (Some rev))). done.
    + destruct e; try exact (keys_post_Err transition _). exact (IH t4).
    + by destruct (Hr w).
  - change (keys_post transition (Ok None)). split; [done|]. intros _. by exists keys.
Qed.

Lemma wp_returns {A} t (p : prog A) (V : result CpError.t A → Prop) :
  (∀ r, V r → returns r) → wp t p (λ _, V) → wp t p (λ _, returns).
Proof. intros HV. by apply Rely.wp_mono. Qed.
(** The operations that never no-op. *)
Lemma wp_keys_expect n sh t org_id kind actor transition why :
  (∀ k n, ulids (sh k) n ≠ "") → (∀ keys, returns (transition keys) ∧ transition keys ≠ Ok None) →
  keys_logged →
  wp t (outcome ← DynamoStore.append_org_keys_loop L n sh org_id kind actor transition;
        DynamoStore.expect_some why outcome) (λ _, returns).
Proof.
  intros Hu Htr Hl. apply Rely.wp_bind.
  eapply Rely.wp_mono; [|apply wp_append_org_keys; [done|apply Htr|done]].
  intros t' [[r|]|e|w] [Hr Hn]; [done| |done|by destruct (Hr w)].
  destruct (Hn eq_refl) as [keys Hk]. by destruct (Htr keys).
Qed.

Lemma typed_id_as_str o i : DynamoStore.typed_org_id o = Ok i → Id.as_str i = o.
Proof.
  unfold DynamoStore.typed_org_id, Id.new. intros Hi. inv_ok.
  by eapply SegmentFacts.segment_try_new_as_str.
Qed.
Lemma wp_put_group sh t org_id entry actor expected :
  (∀ n, ulids sh n ≠ "") →
  (∀ j, group_value L entry = Ok j → logged (Fold.group_put_payload (Rbac.name entry) j)) →
  wp t (DynamoStore.put_group L sh org_id entry actor expected) (λ _, returns).
Proof.
  intros Hu Hl. apply wp_pure; [auto with returns| |done]. intros i Hi%typed_id_as_str.
  apply wp_get; [|done]. intros t1 _ _.
  apply wp_pure; [destruct (get_item _ _); solve_returns| |done]. intros existing _.
  apply wp_pure; [destruct existing as [[]|]; solve_returns| |done]. intros ev _.
  apply wp_pure; [auto with returns| |done]. intros nv Hnv%map_err_Ok%Hl.
  destruct (Upsert.decide_upsert ev nv) as [|payload] eqn:Hd.
  - by apply wp_latest with (F := λ _, True).
  - apply wp_pure; [auto with returns| |done]. intros etag _.
    apply wp_pure; [auto with returns| |done]. intros attrs _.
    apply wp_with_key; [|done]. intros t2 key Hk. apply Rely.wp_bind.
    assert (payload = nv) as -> by (unfold Upsert.decide_upsert in Hd; by repeat case_match; simplify_eq).
    eapply Rely.wp_mono; [|apply wp_append; [done|done|done| |done]].
    + intros t3 [r|e|w] Hr; [done..|by destruct (Hr w)].
    + simpl. unfold DynamoStore.group_pk. by rewrite Hi.
Qed.
Lemma wp_delete_group sh t org_id name actor expected :
  (∀ n, ulids sh n ≠ "") → logged (Fold.group_deleted_payload name) →
  wp t (DynamoStore.delete_group L sh org_id name actor expected) (λ _, returns).
Proof.
  intros Hu Hl. apply wp_pure; [auto with returns| |done]. intros i Hi%typed_id_as_str.
  apply wp_get; [|done]. intros t1 _ _. destruct (get_item t1 _) as [item|].
  - apply wp_with_key; [|done]. intros t2 key Hk. apply Rely.wp_bind.
    eapply Rely.wp_mono; [|apply wp_append_with_delete; [done|done|done| |done]].
    + intros t3 [[r|]|e|w] Hr; [done| |done|by destruct (Hr w)].
      by apply wp_latest with (F := λ _, True).
    + simpl. unfold DynamoStore.group_pk. by rewrite Hi.
  - by apply wp_latest with (F := λ _, True).
Qed.
(** ** Every request *)
Lemma wp_answer {A} t (p : prog A) (f : A → DynamoStore.Response) :
  wp t p (λ _, returns) → wp t (DynamoStore.answer f p) (λ _, returns).
Proof.
  intros Hp. apply Rely.wp_bind. eapply Rely.wp_mono; [|exact Hp].
  intros t' [a|e|w] Hr; [done..|by destruct (Hr w)].
Qed.
Lemma rotate_transition_total k ne now grace keys :
  returns (SigningKey.rotate_key_transition k ne now grace keys) ∧
  SigningKey.rotate_key_transition k ne now grace keys ≠ Ok None.
Proof.
  unfold SigningKey.rotate_key_transition. split.
  - apply returns_bind; [apply SigningKeyFacts.rotate_returns|done].
  - intros Hx. inv_ok.
Qed.
Lemma wp_serve t (r : DynamoStore.Request) :
  DynamoStore.request_wf r → DynamoStore.request_logs L logged r →
  wp t (DynamoStore.serve L r) (λ _, returns).
Proof.
  destruct r as [sh o id a pl|sh o rt n a|sh o rt n a|sh r a|sh r a x|sh r v a x|sh o e a|sh o k a
                |sh o k e now grace a|sh o e a x|sh o name a x|o id|o rt n|o];
    intros Hwf Hl; apply wp_answer.
  - by apply wp_upsert.
  - apply wp_put_promotion; [apply Hwf..|exact Hl].
  - apply wp_tombstone; [apply Hwf..|exact Hl].
  - by apply wp_append_org_state.
  - by apply wp_append_org_state.
  - by apply wp_append_org_state.
  - by apply wp_keys_expect.
  - apply wp_returns with (keys_post (SigningKey.revoke_key_transition k));
      [by intros r Hr; apply Hr|apply wp_append_org_keys; [done| |done]].
    intros keys. unfold SigningKey.revoke_key_transition. solve_returns.
  - apply wp_keys_expect; [done| |done]. intros keys. apply rotate_transition_total.
  - by apply wp_put_group.
  - by apply wp_delete_group.
  - apply wp_get; [|done]. intros t' _ _. destruct (get_item t' _) as [i|]; [|done].
    apply wp_pure; [apply get_s_returns| |done]. intros d _.
    by apply wp_pure; [auto with returns| |done].
  - apply wp_get; [|done]. intros t' _ _. destruct (get_item t' _) as [i|]; [|done].
    by apply wp_pure; [apply get_s_returns| |done].
  - eapply wp_appends; [apply only_latest|done].
Qed.
(** ** Every request only appends *)
Lemma only_pure {A B} (r : result CpError.t A) (f : A → prog B) :
  (∀ a, r = Ok a → appends_only (f a)) → appends_only (pure r ≫= f).
Proof. intros Hf. by apply AppendFacts.appends_pure. Qed.
Lemma only_of {A} P V (p : prog A) : appends P V p → appends_only p.
Proof. by apply AppendFacts.appends_mono. Qed.
Lemma only_read {A} k (f : option Dynamo.item → prog A) :
  (∀ i, appends_only (f i)) → appends_only (EventLog.get k ≫= f).
Proof. apply AppendFacts.only_bind. exact (only_of (λ _, True) _ _ (AppendFacts.only_get_item _ k)). Qed.
Lemma only_ensure n sh o : appends_only (DynamoStore.ensure_signing_key L n sh o).
Proof.
  induction n as [|n IH]; [by constructor|]. apply only_read. intros [i|].
  - apply only_pure. intros pem _. apply only_pure. intros kid _. apply only_pure.
    intros key _. by constructor.
  - constructor; [eexists; apply key_item_key|done|]. intros [|m|m].
    + apply only_pure. intros key _. by constructor.
    + apply IH.
    + by constructor.
Qed.
Lemma only_with_key {B} sh o (f : SigningKeyT * string → prog B) :
  (∀ key, appends_only (f key)) →
  appends_only (DynamoStore.ensure_signing_key L DynamoStore.SIGNING_KEY_CALLS sh o ≫= f).
Proof. apply AppendFacts.only_bind, only_ensure. Qed.
Lemma only_event_append sh o kind actor payload key expected state :
  DynamoStore.shell_wf sh → EventLog.put_pk state = DynamoStore.ORG_PREFIX +:+ o →
  state_sk (EventLog.put_sk state) = true →
  appends_only (EventLog.append (actor_to_string L) (DynamoStore.ORG_PREFIX +:+ o) expected
    (DynamoStore.build_event L sh o kind actor payload key) state).
Proof.
  intros Hu Hpk Hsk. eapply only_of. apply AppendFacts.only_append;
    [intros; by eapply build_event_seq|by apply build_event_returns|done..].
Qed.
Lemma only_event_delete sh o kind actor payload key expected state :
  DynamoStore.shell_wf sh → EventLog.del_pk state = DynamoStore.ORG_PREFIX +:+ o →
  state_sk (EventLog.del_sk state) = true →
  appends_only (EventLog.append_with_delete (actor_to_string L) (DynamoStore.ORG_PREFIX +:+ o)
    expected (DynamoStore.build_event L sh o kind actor payload key) state).
Proof.
  intros Hu Hpk Hsk. eapply only_of. apply AppendFacts.only_append_with_delete;
    [intros; by eapply build_event_seq|by apply build_event_returns|done..].
Qed.
Lemma only_org_state sh r kind actor expected :
  DynamoStore.shell_wf sh → appends_only (DynamoStore.append_org_state L sh r kind actor expected).
Proof.
  intros Hu. apply only_with_key. intros key. apply only_read. intros i.
  apply only_pure. intros keys _. apply only_pure. intros payload _. apply only_pure. intros attrs _.
  by apply only_event_append.
Qed.
Lemma only_org_keys n sh o kind actor tr :
  (∀ k, DynamoStore.shell_wf (sh k)) →
  appends_only (DynamoStore.append_org_keys_loop L n sh o kind actor tr).
Proof.
  intros Hu. induction n as [|n IH]; [by constructor|].
  apply only_read. intros found. apply only_pure. intros item _. apply only_pure. intros record _.
  apply only_pure. intros keys _. apply only_pure. intros [[affected new_keys]|] _; [|by constructor].
  apply only_with_key. intros key. apply only_pure. intros json _. apply only_pure. intros attrs _.
  apply AppendFacts.only_bind; [eapply only_of, only_latest|]. intros expected.
  apply AppendFacts.only_bind;
    [eapply only_of, AppendFacts.only_attempt, only_event_append; [apply Hu|done..]|].
  intros [r|[]|w]; first [apply IH|by apply only_done].
Qed.
Lemma only_put_group sh o e actor expected :
  DynamoStore.shell_wf sh → appends_only (DynamoStore.put_group L sh o e actor expected).
Proof.
  intros Hu. apply only_pure. intros i Hi%typed_id_as_str. apply only_read. intros found.
  apply only_pure. intros existing _. apply only_pure. intros ev _. apply only_pure. intros nv _.
  destruct (Upsert.decide_upsert ev nv) as [|payload].
  - apply AppendFacts.only_bind; [eapply only_of, only_latest|by constructor].
  - apply only_pure. intros etag _. apply only_pure. intros attrs _. apply only_with_key. intros key.
    apply AppendFacts.only_bind; [|by constructor]. apply only_event_append; [done| |done].
    simpl. unfold DynamoStore.group_pk. by rewrite Hi.
Qed.
Lemma only_delete_group sh o name actor expected :
  DynamoStore.shell_wf sh → appends_only (DynamoStore.delete_group L sh o name actor expected).
Proof.
  intros Hu. apply only_pure. intros i Hi%typed_id_as_str. apply only_read. intros [item|].
  - apply only_with_key. intros key. apply AppendFacts.only_bind.
    + apply only_event_delete; [done| |done]. simpl. unfold DynamoStore.group_pk. by rewrite Hi.
    + intros [r|]; [by constructor|].
      apply AppendFacts.only_bind; [eapply only_of, only_latest|by constructor].
  - apply AppendFacts.only_bind; [eapply only_of, only_latest|by constructor].
Qed.
Lemma only_expect {A} why (o : option A) : appends_only (DynamoStore.expect_some why o).
Proof. destruct o; by constructor. Qed.
Lemma only_serve (r : DynamoStore.Request) :
  DynamoStore.request_wf r → appends_only (DynamoStore.serve L r).
Proof.
  destruct r as [sh o id a pl|sh o rt n a|sh o rt n a|sh r a|sh r a x|sh r v a x|sh o e a|sh o k a
                |sh o k e now grace a|sh o e a x|sh o name a x|o id|o rt n|o];
    intros Hwf; (apply AppendFacts.only_bind; [|by constructor]).
  - apply only_with_key. intros key. apply only_pure.
    intros state (pl' & _ & (doc & _ & [= <-])%bind_Ok)%bind_Ok. by apply only_event_append.
  - apply only_with_key. intros key. apply only_pure. intros f _. by apply only_event_append; [apply Hwf|..].
  - apply only_with_key. intros key. apply only_pure. intros f _. by apply only_event_delete; [apply Hwf|..].
  - by apply only_org_state.
  - by apply only_org_state.
  - by apply only_org_state.
  - apply AppendFacts.only_bind; [by apply only_org_keys|apply only_expect].
  - by apply only_org_keys.
  - apply AppendFacts.only_bind; [by apply only_org_keys|apply only_expect].
  - by apply only_put_group.
  - by apply only_delete_group.
  - apply only_read. intros [i|]; [|by constructor]. apply only_pure. intros d _.
    apply only_pure. by constructor.
  - apply only_read. intros [i|]; [|by constructor]. apply only_pure. by constructor.
  - eapply only_of, only_latest.
Qed.
End signed.
End Signed.

(** * Theorems *)

Section theorems.
Context {T : Type} `{DynamoLaws T}.
Context {OrgConfig SigningKeyT : Type} (L : Libs OrgConfig SigningKeyT).
Context (HL : Signed.libs_return L).

Lemma anything_logged (requests : list DynamoStore.Request) :
  Forall (DynamoStore.request_logs L (λ _, True)) requests.
Proof. apply Forall_forall. by intros [] _. Qed.
(** What a run of well-formed requests keeps. *)
Lemma run_keeps (logged : Json.t → Prop) (requests : list DynamoStore.Request) (before : T) h w :
  Signed.keys_wf before → Forall DynamoStore.request_wf requests →
  Forall (DynamoStore.request_logs L logged) requests →
  steps {| table := before; pool := DynamoStore.serve L <$> requests |} h w →
  Signed.keys_wf (table w) ∧
  Forall (λ p, Rely.wp Signed.keys_wf Signed.keys_kept (Signed.landed L logged) (table w) p (λ _, returns))
    (pool w) ∧
  Forall (λ l, Signed.landed L logged (table w) l.2) h.
Proof.
  intros Hkeys Hwf Hlg Hs.
  destruct (Rely.pool_steps Signed.keys_wf Signed.keys_kept (Signed.landed L logged) (λ _, returns)
              {| table := before; pool := DynamoStore.serve L <$> requests |} w h)
    as (? & _ & ? & ?); [by intros ? ? ? _ _|apply Signed.landed_stable|done| |done|done].
  apply Forall_fmap. eapply Forall_impl; [exact (proj2 (Forall_and _ _) (conj Hwf Hlg))|].
  intros r []. by apply Signed.wp_serve.
Qed.

(** Concurrent requests write signed logs.  Any number of store operations
    (organization, key, group, principal and promotion writes, and reads),
    interleaved in any way against one table with failures at any point: the
    transactions that took effect, in the order they took effect, are the
    organizations' logs, numbered without gaps from 1 with the state items
    they carry; each event is signed, over the canonical bytes of its draft
    for its organization, whose payload is one a request logs, with the one key stored for that organization; and
    no request panics. *)
Theorem concurrent_requests_signed (logged : Json.t → Prop) (before : T)
    (requests : list DynamoStore.Request) h w :
  (∀ o, holds_log before before o []) → Signed.keys_wf before →
  Forall DynamoStore.request_wf requests →
  Forall (DynamoStore.request_logs L logged) requests →
  steps {| table := before; pool := DynamoStore.serve L <$> requests |} h w →
  (N.of_nat (length h) < 2 ^ 64)%N →
  ∃ xs, h = (λ y, (y.1, txn_writes y.2)) <$> xs ∧
    (∀ o, holds_log before (table w) o (of_org o xs)) ∧
    Forall (λ y, Signed.signed L logged (table w) y.2) xs ∧
    (∀ n r, pool w !! n = Some (Done r) → returns r).
Proof.
  intros Hlog Hkeys Hwf Hlg Hs Hlen.
  destruct (LogFacts.steps_logs before
              {| table := before; pool := DynamoStore.serve L <$> requests |} w h [] Hlog)
    as (xs & Hh & _ & Ho); [|done|done|].
  { apply Forall_fmap. eapply Forall_impl; [exact Hwf|]. intros r. by apply Signed.only_serve. }
  destruct (run_keeps logged _ _ _ _ Hkeys Hwf Hlg Hs) as (_ & Hp & Hl).
  exists xs. split_and!; [done|done| |].
  - subst h. rewrite Forall_fmap in Hl. eapply Forall_impl; [exact Hl|].
    intros [n x] (x' & Hx & _ & Hsig). simpl in *. by apply HistoryFacts.txn_writes_inj in Hx as ->.
  - intros n r Hn. exact (Forall_lookup_1 _ _ _ _ Hp Hn).
Qed.

(** An event-signing key is minted once.  While any store operations run
    concurrently, a signing key that is in the table at some point is the
    same item at every later point: requests that race to mint the first key
    agree on the one that was stored, and no operation replaces it. *)
Theorem signing_key_minted_once (before : T) (requests : list DynamoStore.Request) h w h' w' o i :
  Signed.keys_wf before → Forall DynamoStore.request_wf requests →
  steps {| table := before; pool := DynamoStore.serve L <$> requests |} h w → steps w h' w' →
  get_item (table w) (o, SK_EVENT_SIGNING_KEY) = Some i →
  get_item (table w') (o, SK_EVENT_SIGNING_KEY) = Some i.
Proof.
  intros Hkeys Hwf Hs Hs' Hi.
  destruct (run_keeps (λ _, True) _ _ _ _ Hkeys Hwf (anything_logged _) Hs) as (Hk & Hp & _).
  destruct (Rely.pool_steps Signed.keys_wf Signed.keys_kept (Signed.landed L (λ _, True)) (λ _, returns) w w' h')
    as (_ & Hkept & _); [by intros ? ? ? _ _|apply Signed.landed_stable|done|done|done|].
  by apply Hkept.
Qed.
End theorems.

(** * A run *)
Module StoreSample.
Definition write_keys (l : list SigningKey.entry) : result string string :=
  Ok (RustStr.join "," (SigningKey.key_id <$> l)).
Definition read_keys (s : string) : result string (list SigningKey.entry) :=
  Ok ((λ k, SigningKey.mk k "pem" SigningKey.Active 0 None) <$> RustStr.split "," s).
Definition libs : Libs () string := {|
  to_vec := EventStoreSample.to_vec;
  sha256_hex s := "sha256:" +:+ s;
  json_from_str s := Ok (Json.String s);
  actor_to_string _ := Ok "system";
  org_value := EventStoreSample.org_value;
  config_value := EventStoreSample.config_value;
  keys_value := EventStoreSample.keys_value;
  group_value := EventStoreSample.group_value;
  config_to_string _ := Ok "{}";
  config_from_str _ := Ok ();
  keys_to_string := write_keys;
  keys_from_str := read_keys;
  group_to_string g := Ok (Rbac.name g);
  group_from_str s := Ok RbacSample.viewer;
  to_rfc3339 _ := "2025-01-01T00:00:00+00:00";
  parse_from_rfc3339 _ := Ok 0%Z;
  xxh64_hex s := s;
  key_from_pem s := Ok s;
  sign_b64 k s := k +:+ ":" +:+ s;
|}.
Definition shell (pem : string) : Shell :=
  {| ulids _ := "01J"; now_str := "2025-01-01T00:00:00+00:00"; minted_pem _ := pem |}.
Definition entry (k : string) : SigningKey.entry := SigningKey.mk k "pem" SigningKey.Active 0 None.
Abbreviation request := (@DynamoStore.Request ()).
Definition create : request :=
  DynamoStore.CreateOrg (shell "pem0") EventStoreSample.acme Envelope.System.
Definition generate (k : string) : request :=
  DynamoStore.GenerateKey (λ _, shell "pem1") "acme" (entry k) Envelope.System.
Definition update : request :=
  DynamoStore.UpdateOrg (shell "pem2") EventStoreSample.acme Envelope.System None.

Definition start (requests : list request) : world GmapTable.t DynamoStore.Response :=
  {| table := ∅; pool := DynamoStore.serve libs <$> requests |}.
Definition run (requests : list request) (schedule : list nat)
    : option (list label * world GmapTable.t DynamoStore.Response) :=
  GmapTable.run_schedule schedule (start requests).
(** What a run shows: the answers and the organization's stored key list. *)
Definition shown (requests : list request) (schedule : list nat)
    : option (list (option (result CpError.t DynamoStore.Response)) * option string) :=
  '(_, w) ← run requests schedule;
  Some (LogSample.finished <$> pool w,
        table w !! ("ORG#acme", "META") ≫= λ i, DynamoStore.get_s_opt i "signing_keys").

Lemma libs_ok : Signed.libs_return libs.
Proof. by split. Qed.
Lemma no_keys : Signed.keys_wf (∅ : GmapTable.t).
Proof. intros o i Hi. discriminate Hi. Qed.

(** Two requests that race to mint the key, then to append. *)
Definition race : list request := [create; update].
Definition race_schedule : list nat := [0; 1; 0; 1; 0; 0; 0; 1; 1; 1; 1].
Lemma race_wf : Forall DynamoStore.request_wf race.
Proof. repeat constructor; by intros n. Qed.
Lemma race_ends : ∃ h w, run race race_schedule = Some (h, w) ∧ length h = 2.
Proof.
  assert (match run race race_schedule with Some (h, _) => length h = 2 | None => False end)
    as Hr by (vm_compute; reflexivity).
  destruct (run race race_schedule) as [[h w]|]; [|done]. by exists h, w.
Qed.
Lemma race_steps h w : run race race_schedule = Some (h, w) → steps (start race) h w.
Proof. exact (GmapTable.run_schedule_steps race_schedule (start race) h w). Qed.

(** A run, with what it shows. *)
Lemma shown_steps requests schedule answers keys :
  shown requests schedule = Some (answers, keys) →
  ∃ h w, steps (start requests) h w ∧ LogSample.finished <$> pool w = answers ∧
    (table w !! ("ORG#acme", "META") ≫= λ i, DynamoStore.get_s_opt i "signing_keys") = keys.
Proof.
  unfold shown, run. intros ([h w] & Hr & [= <- <-])%bind_Some. exists h, w.
  split_and!; [exact (GmapTable.run_schedule_steps schedule (start requests) h w Hr)|done|done].
Qed.
End StoreSample.

(** Witness: the race of the sample. *)
Lemma concurrent_requests_signed_witness :
  ∃ h w xs, StoreSample.run StoreSample.race StoreSample.race_schedule = Some (h, w) ∧
    h = (λ y : nat * txn, (y.1, txn_writes y.2)) <$> xs ∧ length xs = 2 ∧
    Forall (λ y : nat * txn, Signed.signed StoreSample.libs (λ _, True) (table w) y.2) xs.
Proof.
  destruct StoreSample.race_ends as (h & w & Hr & Hl).
  destruct (concurrent_requests_signed StoreSample.libs StoreSample.libs_ok (λ _, True) (∅ : GmapTable.t)
              StoreSample.race h w) as (xs & Hh & _ & Hs & _).
  - apply LogSample.empty_log.
  - apply StoreSample.no_keys.
  - apply StoreSample.race_wf.
  - apply anything_logged.
  - exact (StoreSample.race_steps h w Hr).
  - rewrite Hl. reflexivity.
  - exists h, w, xs. split_and!; [exact Hr|exact Hh| |exact Hs].
    rewrite Hh, length_fmap in Hl. exact Hl.
Defined.

(** Witness: the key of that race stays. *)
Lemma signing_key_minted_once_witness :
  ∃ h w i, StoreSample.run StoreSample.race StoreSample.race_schedule = Some (h, w) ∧
    i = DynamoStore.key_item "ORG#acme" "pem0" ∧
    table w !! ("ORG#acme", SK_EVENT_SIGNING_KEY) = Some i.
Proof.
  destruct StoreSample.race_ends as (h & w & Hr & Hl).
  assert (table w !! ("ORG#acme", SK_EVENT_SIGNING_KEY) =
          Some (DynamoStore.key_item "ORG#acme" "pem0")) as Hi.
  { assert (((λ x, table x.2) <$> StoreSample.run StoreSample.race StoreSample.race_schedule) ≫=
              lookup ("ORG#acme", SK_EVENT_SIGNING_KEY) =
            Some (DynamoStore.key_item "ORG#acme" "pem0")) as He by by_eval.
    rewrite Hr in He. exact He. }
  exists h, w, (DynamoStore.key_item "ORG#acme" "pem0"). split_and!; [exact Hr|reflexivity|].
  exact (signing_key_minted_once StoreSample.libs StoreSample.libs_ok (∅ : GmapTable.t)
           StoreSample.race h w [] w "ORG#acme" _ StoreSample.no_keys StoreSample.race_wf
           (StoreSample.race_steps h w Hr) (steps_nil w) Hi).
Defined.

(** Concurrent key writes can be lost.  [append_org_keys] reads the key
    list before it reads the revision it then expects, and [append_org_state]
    without an expected revision copies a key list it read earlier: two
    interleavings in which every request succeeds, with increasing revisions,
    and a key that was generated is absent from the stored list (of two
    concurrently generated keys only the second is there; a concurrent update
    of the organization drops the generated key).  Run one after the other,
    the same requests keep the keys. *)
Theorem concurrent_key_writes_lost :
  let ok n := Some (Ok (DynamoStore.Revised (Revision.new n))) in
  (∃ h w, steps (StoreSample.start [StoreSample.create; StoreSample.generate "k1";
                                    StoreSample.generate "k2"]) h w ∧
     LogSample.finished <$> pool w = [ok 1%N; ok 2%N; ok 3%N] ∧
     (table w !! ("ORG#acme", "META") ≫= λ i, DynamoStore.get_s_opt i "signing_keys") =
     Some "k2") ∧
  (∃ h w, steps (StoreSample.start [StoreSample.create; StoreSample.generate "k1";
                                    StoreSample.update]) h w ∧
     LogSample.finished <$> pool w = [ok 1%N; ok 2%N; ok 3%N] ∧
     (table w !! ("ORG#acme", "META") ≫= λ i, DynamoStore.get_s_opt i "signing_keys") = None) ∧
  (∃ h w, steps (StoreSample.start [StoreSample.create; StoreSample.generate "k1";
                                    StoreSample.generate "k2"; StoreSample.update]) h w ∧
     LogSample.finished <$> pool w = [ok 1%N; ok 2%N; ok 3%N; ok 4%N] ∧
     (table w !! ("ORG#acme", "META") ≫= λ i, DynamoStore.get_s_opt i "signing_keys") =
     Some "k1,k2").
Proof.
  split_and!.
  - apply (StoreSample.shown_steps _ [0; 0; 0; 0; 0; 2; 1; 1; 1; 1; 1; 2; 2; 2; 2]).
    vm_compute. reflexivity.
  - apply (StoreSample.shown_steps _ [0; 0; 0; 0; 0; 2; 2; 1; 1; 1; 1; 1; 2; 2]).
    vm_compute. reflexivity.
  - apply (StoreSample.shown_steps _ [0; 0; 0; 0; 0; 1; 1; 1; 1; 1; 2; 2; 2; 2; 2; 3; 3; 3; 3]).
    vm_compute. reflexivity.
Qed.

(** Witness: the sample organization with two keys. *)
Lemma org_item_roundtrip_witness :
  ∃ i, DynamoStore.from_item StoreSample.libs i = Ok EventStoreSample.acme ∧
       DynamoStore.signing_keys_from_item StoreSample.libs i =
       Ok [StoreSample.entry "k1"; StoreSample.entry "k2"].
Proof.
  assert (is_ok (DynamoStore.to_item StoreSample.libs (EventStore.org EventStoreSample.acme)
              (EventStore.configured EventStoreSample.acme)
              [StoreSample.entry "k1"; StoreSample.entry "k2"]) = true) as Hok by by_eval.
  apply is_ok_true in Hok as [i Hi].
  destruct (org_item_roundtrip StoreSample.libs (EventStore.org EventStoreSample.acme)
              (EventStore.configured EventStoreSample.acme)
              [StoreSample.entry "k1"; StoreSample.entry "k2"] i) as (_ & Hf & Hk).
  - intros x s _ _. by destruct (EventStore.cc_config x).
  - intros s Hs. injection Hs as <-. vm_compute. reflexivity.
  - intros x [->| ->]; reflexivity.
  - vm_compute. reflexivity.
  - intros x [= <-]. discriminate.
  - exact Hi.
  - exists i. split; [exact Hf|exact Hk].
Defined.
