(* ===== verification/Action.v ===== *)
(** The action vocabulary of [crates/core]: namespaces, actions, entities and
    qualified actions ([action.rs]), resource and principal references, and
    the six-part resource names of the Verified Permissions path
    ([vp_fgrn.rs]). *)

From S2P Require Import Prelude RustStr Ident.

(** * Namespaces *)
Module Namespace.
Inductive t := User (s : Segment.t) | Reserved (s : Segment.t).
#[global] Instance t_eq_dec : EqDecision t.
Proof. solve_decision. Defined.

Definition RESERVED_NAMESPACES : list string := ["iam"; "forgeguard"].

Definition parse (s : string) : result Error.t t :=
  if bool_decide (s ∈ RESERVED_NAMESPACES)
  then Err (Error.Parse "namespace" s
              "reserved namespace — 'iam' and 'forgeguard' cannot be used by customers")
  else User <$> Segment.try_new s.

Definition iam : t := Reserved (Segment.mk "iam").
Definition forgeguard : t := Reserved (Segment.mk "forgeguard").
Definition as_segment (n : t) : Segment.t := match n with User s | Reserved s => s end.
Definition is_reserved (n : t) : bool := match n with Reserved _ => true | User _ => false end.
Definition as_str (n : t) : string := Segment.as_str (as_segment n).
(** [PartialEq]: by the string alone. *)
Definition eqb (a b : t) : bool := bool_decide (as_str a = as_str b).

(** A value the constructors build. *)
Definition wf (n : t) : Prop := parse (as_str n) = Ok n ∨ n = iam ∨ n = forgeguard.
End Namespace.

(** * Actions and entities: newtypes of segments *)
Module Action.
Record t := mk { as_segment : Segment.t }.
#[global] Instance t_eq_dec : EqDecision t.
Proof. solve_decision. Defined.
Definition parse (s : string) : result Error.t t := mk <$> Segment.try_new s.
Definition as_str (a : t) : string := Segment.as_str (as_segment a).
End Action.

Module Entity.
Record t := mk { as_segment : Segment.t }.
#[global] Instance t_eq_dec : EqDecision t.
Proof. solve_decision. Defined.
Definition parse (s : string) : result Error.t t := mk <$> Segment.try_new s.
Definition as_str (e : t) : string := Segment.as_str (as_segment e).
Definition cedar_entity_type (e : t) (ns : Namespace.t) : string :=
  Namespace.as_str ns +:+ "::" +:+ as_str e.
End Entity.

Module ResourceId.
Record t := mk { as_segment : Segment.t }.
#[global] Instance t_eq_dec : EqDecision t.
Proof. solve_decision. Defined.
Definition parse (s : string) : result Error.t t := mk <$> Segment.try_new s.
Definition as_str (r : t) : string := Segment.as_str (as_segment r).
End ResourceId.

(** [CedarEntityType::new]. *)
Definition cedar_entity_type_new (ns : Namespace.t) (e : Entity.t) : CedarEntityType.t :=
  let ns_ident := Segment.to_cedar_ident (Namespace.as_segment ns) in
  let entity_ident := Segment.to_cedar_ident (Entity.as_segment e) in
  CedarEntityType.mk (CedarIdent.as_str ns_ident +:+ "__" +:+ CedarIdent.as_str entity_ident).

(** * Qualified actions *)
Module QualifiedAction.
Record t := mk { namespace : Namespace.t; action : Action.t; entity : Entity.t }.
#[global] Instance t_eq_dec : EqDecision t.
Proof. solve_decision. Defined.

Definition parse (s : string) : result Error.t t :=
  match splitn 4 ":" s with
  | [ns; entity; action] =>
      namespace ← Namespace.parse ns;
      action ← Action.parse action;
      entity ← Entity.parse entity;
      Ok (mk namespace action entity)
  | _ => Err (Error.Parse "qualified_action" s
                "expected namespace:entity:action (e.g., 'todo:list:read')")
  end.
Definition to_string (q : t) : string :=
  Namespace.as_str (namespace q) +:+ ":" +:+ Entity.as_str (entity q) +:+ ":" +:+
  Action.as_str (action q).

Definition vp_action_type (q : t) (project : ProjectId) : string :=
  CedarNamespace.as_str (CedarNamespace.from_project project) +:+ "::Action".
Definition vp_action_id (q : t) : string :=
  Namespace.as_str (namespace q) +:+ "-" +:+ Entity.as_str (entity q) +:+ "-" +:+
  Action.as_str (action q).
Definition cedar_action_ref (q : t) (project : ProjectId) : string :=
  CedarNamespace.as_str (CedarNamespace.from_project project) +:+ "::Action::" +:+
  String "034" (vp_action_id q +:+ String "034" EmptyString).
Definition vp_entity_type (q : t) (project : ProjectId) : string :=
  CedarNamespace.as_str (CedarNamespace.from_project project) +:+ "::" +:+
  CedarEntityType.as_str (cedar_entity_type_new (namespace q) (entity q)).
End QualifiedAction.

(** * Resource names of the Verified Permissions path *)
Module FgrnSegment.
Inductive t := Value (s : Segment.t) | Wildcard.
#[global] Instance t_eq_dec : EqDecision t.
Proof. solve_decision. Defined.

Definition parse (s : string) : result Error.t t :=
  if bool_decide (s = "*") then Ok Wildcard else Value <$> Segment.try_new s.
Definition from_segment (s : Segment.t) : t := Value s.
(** Does the segment match the pattern? *)
Definition matches (self pattern : t) : bool :=
  match pattern with
  | Wildcard => true
  | Value v => match self with Value sv => bool_decide (sv = v) | Wildcard => false end
  end.
Definition as_str (x : t) : string :=
  match x with Value v => Segment.as_str v | Wildcard => "*" end.
Definition wf (x : t) : Prop := match x with Value v => Segment.wf v | Wildcard => True end.
End FgrnSegment.

Module VpFgrn.
Record t := mk {
  project : option FgrnSegment.t;
  tenant : option FgrnSegment.t;
  namespace : FgrnSegment.t;
  resource_type : FgrnSegment.t;
  resource_id : FgrnSegment.t;
  raw : string;
}.
#[global] Instance t_eq_dec : EqDecision t.
Proof. solve_decision. Defined.

Definition parse_optional_segment (s : string) : result Error.t (option FgrnSegment.t) :=
  if bool_decide (s = "-") then Ok None else Some <$> FgrnSegment.parse s.
Definition optional_segment_str (o : option FgrnSegment.t) : string :=
  match o with Some s => FgrnSegment.as_str s | None => "-" end.
Definition optional_matches (value pattern : option FgrnSegment.t) : bool :=
  match pattern, value with
  | None, None => true
  | None, Some _ => false
  | Some FgrnSegment.Wildcard, _ => true
  | Some _, None => false
  | Some p, Some v => FgrnSegment.matches v p
  end.

Definition parse_error (s : string) : Error.t :=
  Error.Parse "fgrn" s
    "expected fgrn:<project>:<tenant>:<namespace>:<resource-type>:<resource-id>".
Definition parse (s : string) : result Error.t t :=
  match splitn 6 ":" s with
  | [scheme; project; tenant; namespace; rtype; rid] =>
      _ ← (if bool_decide (scheme = "fgrn") then Ok () else Err (parse_error s)) ;
      project ← parse_optional_segment project;
      tenant ← parse_optional_segment tenant;
      namespace ← FgrnSegment.parse namespace;
      resource_type ← FgrnSegment.parse rtype;
      resource_id ← FgrnSegment.parse rid;
      Ok (mk project tenant namespace resource_type resource_id s)
  | _ => Err (parse_error s)
  end.
Definition new (project tenant : option FgrnSegment.t)
    (namespace resource_type resource_id : FgrnSegment.t) : t :=
  mk project tenant namespace resource_type resource_id
    ("fgrn:" +:+ optional_segment_str project +:+ ":" +:+ optional_segment_str tenant +:+ ":" +:+
     FgrnSegment.as_str namespace +:+ ":" +:+ FgrnSegment.as_str resource_type +:+ ":" +:+
     FgrnSegment.as_str resource_id).

Definition iam_resource (project : ProjectId) (tenant : TenantId) (kind id : Segment.t) : t :=
  new (Some (FgrnSegment.from_segment (Id.as_segment project)))
      (Some (FgrnSegment.from_segment (Id.as_segment tenant)))
      (FgrnSegment.from_segment (Segment.mk "iam")) (FgrnSegment.from_segment kind)
      (FgrnSegment.from_segment id).
Definition user (p : ProjectId) (t : TenantId) (u : UserId) : VpFgrn.t :=
  iam_resource p t (Segment.mk "user") (Id.as_segment u).
Definition machine (p : ProjectId) (t : TenantId) (u : UserId) : VpFgrn.t :=
  iam_resource p t (Segment.mk "machine") (Id.as_segment u).
Definition group (p : ProjectId) (t : TenantId) (g : GroupName) : VpFgrn.t :=
  iam_resource p t (Segment.mk "group") (Id.as_segment g).
Definition policy (p : ProjectId) (name : PolicyName) : t :=
  new (Some (FgrnSegment.from_segment (Id.as_segment p))) None
      (FgrnSegment.from_segment (Segment.mk "forgeguard"))
      (FgrnSegment.from_segment (Segment.mk "policy"))
      (FgrnSegment.from_segment (Id.as_segment name)).
Definition resource (p : ProjectId) (t : TenantId) (ns : Namespace.t) (e : Entity.t)
    (id : ResourceId.t) : VpFgrn.t :=
  new (Some (FgrnSegment.from_segment (Id.as_segment p)))
      (Some (FgrnSegment.from_segment (Id.as_segment t)))
      (FgrnSegment.from_segment (Namespace.as_segment ns))
      (FgrnSegment.from_segment (Entity.as_segment e))
      (FgrnSegment.from_segment (ResourceId.as_segment id)).

Definition as_vp_entity_id (x : t) : string := raw x.
Definition cedar_entity_type (x : t) : option string :=
  match namespace x, resource_type x with
  | FgrnSegment.Value ns, FgrnSegment.Value rt =>
      Some (Segment.as_str ns +:+ "::" +:+ Segment.as_str rt)
  | _, _ => None
  end.
Definition matches (self pattern : t) : bool :=
  optional_matches (project self) (project pattern) &&
  optional_matches (tenant self) (tenant pattern) &&
  FgrnSegment.matches (namespace self) (namespace pattern) &&
  FgrnSegment.matches (resource_type self) (resource_type pattern) &&
  FgrnSegment.matches (resource_id self) (resource_id pattern).

Definition opt_wf (o : option FgrnSegment.t) : Prop :=
  match o with Some s => FgrnSegment.wf s | None => True end.
(** The parts a name is built from are valid. *)
Definition parts_wf (x : t) : Prop :=
  opt_wf (project x) ∧ opt_wf (tenant x) ∧ FgrnSegment.wf (namespace x) ∧
  FgrnSegment.wf (resource_type x) ∧ FgrnSegment.wf (resource_id x).
End VpFgrn.

(** * Resources and principals *)
Module ResourceRef.
Inductive ResourceOrgSource := OwnId | RequestTenant.
#[global] Instance ResourceOrgSource_eq_dec : EqDecision ResourceOrgSource.
Proof. solve_decision. Defined.

Record t := mk {
  namespace : Namespace.t;
  entity : Entity.t;
  id : ResourceId.t;
  cedar_entity_type : option string;
  org_source : ResourceOrgSource;
}.
#[global] Instance t_eq_dec : EqDecision t.
Proof. solve_decision. Defined.
Definition from_route (a : QualifiedAction.t) (id : ResourceId.t) : t :=
  mk (QualifiedAction.namespace a) (QualifiedAction.entity a) id None RequestTenant.
Definition from_route_with_entity_type (a : QualifiedAction.t) (id : ResourceId.t)
    (cedar_entity_type : string) : t :=
  mk (QualifiedAction.namespace a) (QualifiedAction.entity a) id (Some cedar_entity_type)
    RequestTenant.
Definition scoped_by_own_id (r : t) : t :=
  mk (namespace r) (entity r) (id r) (cedar_entity_type r) OwnId.
Definition vp_entity_type (r : t) (project : ProjectId) : string :=
  let ns := CedarNamespace.as_str (CedarNamespace.from_project project) in
  match cedar_entity_type r with
  | Some override_type => ns +:+ "::" +:+ override_type
  | None => ns +:+ "::" +:+
            CedarEntityType.as_str (cedar_entity_type_new (namespace r) (entity r))
  end.
Definition to_fgrn (r : t) (p : ProjectId) (tenant : TenantId) : VpFgrn.t :=
  VpFgrn.resource p tenant (namespace r) (entity r) (id r).
Definition to_string (r : t) : string :=
  Namespace.as_str (namespace r) +:+ ":" +:+ Entity.as_str (entity r) +:+ ":" +:+
  ResourceId.as_str (id r).
End ResourceRef.

Module PrincipalRef.
Inductive PrincipalKind := User | Machine.
#[global] Instance PrincipalKind_eq_dec : EqDecision PrincipalKind.
Proof. solve_decision. Defined.
Record t := mk { user_id : UserId; kind : PrincipalKind }.
#[global] Instance t_eq_dec : EqDecision t.
Proof. solve_decision. Defined.
Definition new (u : UserId) : t := mk u User.
Definition machine (u : UserId) : t := mk u Machine.
Definition vp_entity_type (x : t) (project : ProjectId) : string :=
  let ns := CedarNamespace.as_str (CedarNamespace.from_project project) in
  match kind x with User => ns +:+ "::User" | Machine => ns +:+ "::Machine" end.
Definition vp_group_entity_type (project : ProjectId) : string :=
  CedarNamespace.as_str (CedarNamespace.from_project project) +:+ "::Group".
Definition to_fgrn (x : t) (p : ProjectId) (tenant : TenantId) : VpFgrn.t :=
  match kind x with
  | User => VpFgrn.user p tenant (user_id x)
  | Machine => VpFgrn.machine p tenant (user_id x)
  end.
End PrincipalRef.

(** * Facts *)
Module ActionFacts.
Lemma seg_no_colon s : Segment.wf s → contains_char ":" (Segment.as_str s) = false.
Proof. by apply SegmentFacts.wf_no_byte. Qed.

Lemma namespace_parse_Ok s n :
  Namespace.parse s = Ok n ↔
  (s ∉ Namespace.RESERVED_NAMESPACES) ∧ ∃ x, n = Namespace.User x ∧ Segment.try_new s = Ok x.
Proof.
  unfold Namespace.parse. case_bool_decide as Hr.
  - split; [done|]. by intros [? _].
  - split; [intros (x & Hx & ->)%fmap_Ok; eauto|]. intros (_ & x & -> & Hx). by rewrite Hx.
Qed.
Lemma namespace_wf_segment n : Namespace.wf n → Segment.wf (Namespace.as_segment n).
Proof.
  intros [Hp|[->| ->]]; [|done..].
  apply namespace_parse_Ok in Hp as (_ & x & -> & Hx). by apply SegmentFacts.segment_try_new_wf in Hx.
Qed.
(** A namespace is determined by its string. *)
Lemma namespace_as_str_inj a b :
  Namespace.wf a → Namespace.wf b → Namespace.as_str a = Namespace.as_str b → a = b.
Proof.
  assert (∀ x, Namespace.parse (Namespace.as_str x) = Ok x →
               Namespace.as_str x ≠ "iam" ∧ Namespace.as_str x ≠ "forgeguard") as Hres.
  { intros x (Hr & _)%namespace_parse_Ok. split; intros Hx; apply Hr; rewrite Hx; set_solver. }
  intros [Ha|[->| ->]] [Hb|[->| ->]] Heq; try done; try (rewrite Heq in Ha; congruence);
    first [by destruct (Hres a Ha)|by destruct (Hres b Hb)].
Qed.

Lemma fgrn_segment_roundtrip x : FgrnSegment.wf x → FgrnSegment.parse (FgrnSegment.as_str x) = Ok x.
Proof.
  destruct x as [v|]; [|done]. simpl. intros Hv. unfold FgrnSegment.parse.
  rewrite bool_decide_eq_false_2; [by rewrite Hv|].
  intros Hs. apply (SegmentFacts.wf_no_byte "*") in Hv; [|done]. by rewrite Hs in Hv.
Qed.
Lemma fgrn_segment_parse_Ok s x :
  FgrnSegment.parse s = Ok x → FgrnSegment.wf x ∧ FgrnSegment.as_str x = s.
Proof.
  unfold FgrnSegment.parse. case_bool_decide as Hs; [by intros [= <-]|].
  intros (v & Hv & ->)%fmap_Ok. split;
    [by eapply SegmentFacts.segment_try_new_wf|by apply SegmentFacts.segment_try_new_as_str].
Qed.
Lemma fgrn_segment_no_colon x : FgrnSegment.wf x → contains_char ":" (FgrnSegment.as_str x) = false.
Proof. destruct x; [apply seg_no_colon|done]. Qed.
Lemma optional_roundtrip o :
  VpFgrn.opt_wf o → VpFgrn.parse_optional_segment (VpFgrn.optional_segment_str o) = Ok o.
Proof.
  destruct o as [x|]; [|done]. simpl. intros Hx. unfold VpFgrn.parse_optional_segment.
  rewrite bool_decide_eq_false_2; [by rewrite fgrn_segment_roundtrip|].
  intros Hs. destruct x as [v|]; [|done]. simpl in *.
  pose proof (SegmentFacts.wf_no_end v Hx) as He. by rewrite Hs in He.
Qed.
Lemma optional_parse_Ok s o :
  VpFgrn.parse_optional_segment s = Ok o →
  VpFgrn.opt_wf o ∧ VpFgrn.optional_segment_str o = s.
Proof.
  unfold VpFgrn.parse_optional_segment. case_bool_decide as Hs; [by intros [= <-]|].
  intros (x & Hx & ->)%fmap_Ok. by apply fgrn_segment_parse_Ok.
Qed.
Lemma optional_no_colon o :
  VpFgrn.opt_wf o → contains_char ":" (VpFgrn.optional_segment_str o) = false.
Proof. destruct o; [apply fgrn_segment_no_colon|done]. Qed.
(** The pieces of a split without a separator in the last. *)
Lemma splitn_6_inv s a b c d e f :
  splitn 6 ":" s = [a; b; c; d; e; f] →
  s = a +:+ ":" +:+ b +:+ ":" +:+ c +:+ ":" +:+ d +:+ ":" +:+ e +:+ ":" +:+ f.
Proof.
  intros H. rewrite !str_one.
  apply splitn_cons_inv in H as (y1 & -> & _ & H); [|done]. f_equal. f_equal. symmetry in H.
  apply splitn_cons_inv in H as (y2 & -> & _ & H); [|done]. f_equal. f_equal. symmetry in H.
  apply splitn_cons_inv in H as (y3 & -> & _ & H); [|done]. f_equal. f_equal. symmetry in H.
  apply splitn_cons_inv in H as (y4 & -> & _ & H); [|done]. f_equal. f_equal. symmetry in H.
  apply splitn_cons_inv in H as (y5 & -> & _ & H); [|done]. f_equal. f_equal.
  rewrite splitn_1 in H. congruence.
Qed.
Lemma vp_parse_Ok s x :
  VpFgrn.parse s = Ok x →
  VpFgrn.parts_wf x ∧ s = VpFgrn.as_vp_entity_id x ∧
  x = VpFgrn.new (VpFgrn.project x) (VpFgrn.tenant x) (VpFgrn.namespace x)
        (VpFgrn.resource_type x) (VpFgrn.resource_id x).
Proof.
  unfold VpFgrn.parse.
  destruct (splitn 6 ":" s) as [|f [|p [|t [|n [|r [|i [|? ?]]]]]]] eqn:Hsp; try done.
  case_bool_decide as Hf; [|done]. subst f. simpl.
  intros (p' & [Hp <-]%optional_parse_Ok & H)%bind_Ok.
  apply bind_Ok in H as (t' & [Ht <-]%optional_parse_Ok & H).
  apply bind_Ok in H as (n' & [Hn <-]%fgrn_segment_parse_Ok & H).
  apply bind_Ok in H as (r' & [Hr <-]%fgrn_segment_parse_Ok & H).
  apply bind_Ok in H as (i' & [Hi <-]%fgrn_segment_parse_Ok & [= <-]).
  apply splitn_6_inv in Hsp. split_and!; [done|done|]. unfold VpFgrn.new. simpl.
  f_equal. exact Hsp.
Qed.
Lemma vp_parse_new p t n r i :
  let x := VpFgrn.new p t n r i in
  VpFgrn.parts_wf x → VpFgrn.parse (VpFgrn.raw x) = Ok x.
Proof.
  intros x (Hp & Ht & Hn & Hr & Hi). unfold VpFgrn.parse, x, VpFgrn.new. cbn [VpFgrn.raw].
  simpl in Hp, Ht, Hn, Hr, Hi.
  match goal with |- context [splitn 6 ":" ("fgrn:" +:+ ?y)] =>
    change (splitn 6 ":" ("fgrn:" +:+ y)) with (splitn 6 ":" ("fgrn" +:+ String ":" y)) end.
  rewrite (splitn_app 4 ":" "fgrn"), !str_one by done.
  assert (∀ k a b, contains_char ":" a = false →
            splitn (S (S k)) ":" (a +:+ String ":" b) = a :: splitn (S k) ":" b) as Hs.
  { intros. by apply splitn_app. }
  rewrite !Hs by first [by apply optional_no_colon|by apply fgrn_segment_no_colon].
  rewrite splitn_1. simpl.
  by rewrite !optional_roundtrip, !fgrn_segment_roundtrip by done.
Qed.
Lemma optional_matches_refl o : VpFgrn.optional_matches o o = true.
Proof. destruct o as [[v|]|]; [|done..]. simpl. by apply bool_decide_eq_true. Qed.
Lemma segment_matches_refl x : FgrnSegment.matches x x = true.
Proof. destruct x; [|done]. simpl. by apply bool_decide_eq_true. Qed.
Lemma segment_matches_trans x y z :
  FgrnSegment.matches x y = true → FgrnSegment.matches y z = true → FgrnSegment.matches x z = true.
Proof. destruct x, y, z; simpl; intros; repeat case_bool_decide; naive_solver. Qed.
Lemma optional_matches_trans x y z :
  VpFgrn.optional_matches x y = true → VpFgrn.optional_matches y z = true →
  VpFgrn.optional_matches x z = true.
Proof.
  destruct x as [[x|]|], y as [[y|]|], z as [[z|]|]; simpl; intros;
    repeat case_bool_decide; naive_solver.
Qed.
End ActionFacts.

(** Qualified actions parse and print inversely: [parse] accepts exactly
    the strings [ns:entity:action] of three valid segments whose namespace is
    not reserved, and the parsed action prints as the string it came from. *)
Theorem qualified_action_parse_print s q :
  QualifiedAction.parse s = Ok q ↔
  s = QualifiedAction.to_string q ∧
  Namespace.parse (Namespace.as_str (QualifiedAction.namespace q)) =
    Ok (QualifiedAction.namespace q) ∧
  Segment.wf (Entity.as_segment (QualifiedAction.entity q)) ∧
  Segment.wf (Action.as_segment (QualifiedAction.action q)).
Proof.
  unfold QualifiedAction.parse, QualifiedAction.to_string. split.
  - destruct (splitn 4 ":" s) as [|n [|e [|a [|? ?]]]] eqn:Hsp; try done.
    intros (ns & Hn & (ac & Ha & (en & He & [= <-])%bind_Ok)%bind_Ok)%bind_Ok. simpl.
    apply fmap_Ok in Ha as (a' & Ha & ->). apply fmap_Ok in He as (e' & He & ->).
    pose proof Hn as (_ & n' & -> & Hn')%ActionFacts.namespace_parse_Ok.
    unfold Namespace.as_str, Entity.as_str, Action.as_str. simpl.
    rewrite (SegmentFacts.segment_try_new_as_str _ _ Hn'), (SegmentFacts.segment_try_new_as_str _ _ He),
      (SegmentFacts.segment_try_new_as_str _ _ Ha).
    split_and!; [|done|by eapply SegmentFacts.segment_try_new_wf..].
    rewrite ?str_one. apply splitn_cons_inv in Hsp as (y & -> & _ & Hsp); [|done].
    symmetry in Hsp. apply splitn_cons_inv in Hsp as (z & -> & _ & Hsp); [|done]. symmetry in Hsp.
    destruct (split_once ":" z) as [[u v]|] eqn:Hz.
    + by rewrite (splitn_S 0), Hz in Hsp.
    + rewrite (splitn_S 0), Hz in Hsp. congruence.
  - destruct q as [ns [a] [e]]. unfold Entity.as_str, Action.as_str.
    cbn [QualifiedAction.namespace QualifiedAction.entity QualifiedAction.action Entity.as_segment
         Action.as_segment]. intros (-> & Hn & He & Ha).
    pose proof Hn as (_ & n' & Hx & Hn')%ActionFacts.namespace_parse_Ok. subst ns.
    unfold Namespace.as_str in *. cbn [Namespace.as_segment] in *.
    apply SegmentFacts.segment_try_new_wf in Hn'.
    rewrite ?str_one, !splitn_app by (by apply ActionFacts.seg_no_colon).
    rewrite splitn_none by (by apply ActionFacts.seg_no_colon).
    rewrite Hn. simpl. unfold Action.parse, Entity.parse. by rewrite Ha, He.
Qed.

(** Resource names of the Verified Permissions path are faithful: parsing
    accepts exactly the names the constructor builds from valid parts (values,
    wildcards, absent project or tenant) and returns them, so two names with
    the same entity id are the same name; and [matches] is a preorder in
    which every name matches itself. *)
Theorem vp_fgrn_faithful :
  (∀ s x, VpFgrn.parse s = Ok x ↔
     VpFgrn.parts_wf x ∧ s = VpFgrn.as_vp_entity_id x ∧
     x = VpFgrn.new (VpFgrn.project x) (VpFgrn.tenant x) (VpFgrn.namespace x)
           (VpFgrn.resource_type x) (VpFgrn.resource_id x)) ∧
  (∀ x, VpFgrn.matches x x = true) ∧
  (∀ x y z, VpFgrn.matches x y = true → VpFgrn.matches y z = true → VpFgrn.matches x z = true).
Proof.
  split_and!.
  - intros s x. split; [apply ActionFacts.vp_parse_Ok|]. intros (Hwf & -> & Hx).
    pose proof (ActionFacts.vp_parse_new (VpFgrn.project x) (VpFgrn.tenant x) (VpFgrn.namespace x)
      (VpFgrn.resource_type x) (VpFgrn.resource_id x)) as Hp. cbv zeta in Hp. rewrite <-Hx in Hp.
    by apply Hp.
  - intros x. unfold VpFgrn.matches.
    by rewrite !ActionFacts.optional_matches_refl, !ActionFacts.segment_matches_refl.
  - intros x y z. unfold VpFgrn.matches. intros Hxy Hyz. bool_prop.
    repeat (apply andb_true_iff; split); by eauto using ActionFacts.optional_matches_trans,
      ActionFacts.segment_matches_trans.
Qed.
