(* ===== verification/Features.v ===== *)
(** Feature flags of [crates/core] ([features/mod.rs], [percentage.rs]):
    flag names, definitions with overrides and rollout, and the pure
    evaluation of all flags for a user.  The hash is a library; it is given
    the bytes the code writes into it. *)

From S2P Require Import Prelude RustStr Ident Action.

Module Percentage.
Record t := mk { value : N }.
#[global] Instance t_eq_dec : EqDecision t.
Proof. solve_decision. Defined.
(** The argument is a [u8]. *)
Definition try_new (value : N) : result Error.t t :=
  if bool_decide (100 < value)%N then Err (Error.InvalidPercentage value) else Ok (mk value).
End Percentage.

Module FlagName.
Inductive t := Global (s : Segment.t) | Scoped (namespace : Namespace.t) (name : Segment.t).
#[global] Instance t_eq_dec : EqDecision t.
Proof. solve_decision. Defined.

Definition parse (s : string) : result Error.t t :=
  if is_empty s then Err (Error.Parse "flag_name" s "cannot be empty")
  else match split_once ":" s with
       | Some (ns, name) =>
           namespace ← Namespace.parse ns;
           name ← Segment.try_new name;
           Ok (Scoped namespace name)
       | None => Global <$> Segment.try_new s
       end.
Definition to_string (f : t) : string :=
  match f with
  | Global s => Segment.as_str s
  | Scoped ns name => Namespace.as_str ns +:+ ":" +:+ Segment.as_str name
  end.
Definition is_in_namespace (f : t) (ns : Namespace.t) : bool :=
  match f with Global _ => false | Scoped n _ => Namespace.eqb n ns end.
Definition wf (f : t) : Prop := parse (to_string f) = Ok f.
End FlagName.

Module Features.
(** A number is kept as the bits of its [f64]: it is only copied. *)
Inductive FlagValue := Bool (b : bool) | String_ (s : string) | Number (bits : N).
#[global] Instance FlagValue_eq_dec : EqDecision FlagValue.
Proof. solve_decision. Defined.
Inductive FlagType := BooleanT | StringT | NumberT.

Record FlagOverride := {
  ov_tenant : option TenantId;
  ov_user : option UserId;
  ov_group : option GroupName;
  ov_value : FlagValue;
}.
Record FlagDefinition := {
  flag_type : FlagType;
  default_value : FlagValue;
  enabled : bool;
  overrides : list FlagOverride;
  rollout_percentage : option Percentage.t;
  rollout_variant : option FlagValue;
}.
(** The entries of the map in the order it iterates, which is unspecified. *)
Record FlagConfig := { flags : list (FlagName.t * FlagDefinition) }.
Definition config_wf (c : FlagConfig) : Prop :=
  NoDup (flags c).*1 ∧ Forall FlagName.wf (flags c).*1.

Definition ResolvedFlags : Type := gmap string FlagValue.
Definition is_enabled (r : ResolvedFlags) (flag : string) : bool :=
  bool_decide (r !! flag = Some (Bool true)).

Inductive ResolutionReason :=
| KillSwitch
| Override (tenant user group : option string)
| Rollout (bucket threshold : N)
| RolloutExcluded (bucket threshold : N)
| Default.
Record ResolvedFlag := { value : FlagValue; reason : ResolutionReason }.

Section eval.
(** xxHash-64 with seed 0 of the bytes written to the hasher. *)
Context (xxh64 : string → N).

Definition sep : ascii := "255".
Definition bucket_bytes (flag : string) (tenant : option TenantId) (user : UserId) : string :=
  flag +:+ String sep ((match tenant with Some t => Id.as_str t | None => EmptyString end) +:+
  String sep (Id.as_str user)).
Definition deterministic_bucket (flag : string) (tenant : option TenantId) (user : UserId) : N :=
  (xxh64 (bucket_bytes flag tenant user) mod 100)%N.

Section one.
Context (name : FlagName.t) (flag : FlagDefinition).
Context (tenant_id : option TenantId) (user_id : UserId) (groups : list GroupName).

Definition override_matches (ov : FlagOverride) : bool :=
  let user_matches := match ov_user ov with Some u => bool_decide (u = user_id) | None => true end in
  let tenant_matches :=
    match ov_tenant ov, tenant_id with
    | Some t, Some tid => bool_decide (t = tid)
    | Some _, None => false
    | None, _ => true
    end in
  let group_matches :=
    match ov_group ov with Some g => existsb (λ ug, bool_decide (ug = g)) groups | None => true end in
  user_matches && tenant_matches && group_matches.

(** The loop over the overrides, as an early return. *)
Fixpoint first_override (l : list FlagOverride) : option FlagOverride :=
  match l with
  | [] => None
  | ov :: l => if override_matches ov then Some ov else first_override l
  end.

Definition resolve_single_flag_detailed : ResolvedFlag :=
  if negb (enabled flag)
  then {| value := default_value flag; reason := KillSwitch |}
  else match first_override (overrides flag) with
       | Some ov => {| value := ov_value ov;
                       reason := Override (Id.as_str <$> ov_tenant ov) (Id.as_str <$> ov_user ov)
                                   (Id.as_str <$> ov_group ov) |}
       | None =>
           match rollout_percentage flag with
           | Some pct =>
               let bucket := deterministic_bucket (FlagName.to_string name) tenant_id user_id in
               if bool_decide (bucket < Percentage.value pct)%N
               then {| value := default (Bool true) (rollout_variant flag);
                       reason := Rollout bucket (Percentage.value pct) |}
               else {| value := default_value flag;
                       reason := RolloutExcluded bucket (Percentage.value pct) |}
           | None => {| value := default_value flag; reason := Default |}
           end
       end.

Definition resolve_single_flag : FlagValue :=
  if negb (enabled flag) then default_value flag
  else match first_override (overrides flag) with
       | Some ov => ov_value ov
       | None =>
           match rollout_percentage flag with
           | Some pct =>
               let bucket := deterministic_bucket (FlagName.to_string name) tenant_id user_id in
               if bool_decide (bucket < Percentage.value pct)%N
               then default (Bool true) (rollout_variant flag) else default_value flag
           | None => default_value flag
           end
       end.
End one.

Definition evaluate_flags (config : FlagConfig) (tenant_id : option TenantId) (user_id : UserId)
    (groups : list GroupName) : ResolvedFlags :=
  foldl (λ m entry, <[FlagName.to_string entry.1 :=
                       resolve_single_flag entry.1 entry.2 tenant_id user_id groups]> m)
    ∅ (flags config).
Definition evaluate_flags_detailed (config : FlagConfig) (tenant_id : option TenantId)
    (user_id : UserId) (groups : list GroupName) : gmap string ResolvedFlag :=
  foldl (λ m entry, <[FlagName.to_string entry.1 :=
                       resolve_single_flag_detailed entry.1 entry.2 tenant_id user_id groups]> m)
    ∅ (flags config).
End eval.
End Features.

(** * Facts *)
Module FeatureFacts.
Import Features.

Lemma percentage_bound v p : Percentage.try_new v = Ok p → (v ≤ 100)%N.
Proof. unfold Percentage.try_new. case_bool_decide; [done|lia]. Qed.
Lemma flag_parse_Ok s f :
  FlagName.parse s = Ok f →
  s = FlagName.to_string f.
Proof.
  unfold FlagName.parse. destruct (is_empty s); [done|].
  destruct (split_once ":" s) as [[ns name]|] eqn:Hs.
  - apply split_once_Some in Hs as [-> _].
    intros (n & (_ & x & -> & Hx)%ActionFacts.namespace_parse_Ok & (y & Hy & [= <-])%bind_Ok)%bind_Ok.
    simpl. unfold Namespace.as_str. simpl.
    by rewrite (SegmentFacts.segment_try_new_as_str _ _ Hx), (SegmentFacts.segment_try_new_as_str _ _ Hy).
  - intros (x & Hx & ->)%fmap_Ok. simpl. by rewrite (SegmentFacts.segment_try_new_as_str _ _ Hx).
Qed.
Lemma flag_to_string_inj f g :
  FlagName.wf f → FlagName.wf g → FlagName.to_string f = FlagName.to_string g → f = g.
Proof. unfold FlagName.wf. intros Hf Hg He. rewrite He in Hf. congruence. Qed.

Lemma foldl_insert_lookup {A V} (k : A → string) (v : A → V) l (m : gmap string V) x :
  NoDup (k <$> l) → x ∈ l → foldl (λ m e, <[k e := v e]> m) m l !! k x = Some (v x).
Proof.
  revert m. induction l as [|y l IH]; intros m Hnd Hx; [by apply elem_of_nil in Hx|].
  simpl in *. apply NoDup_cons in Hnd as [Hni Hnd]. apply elem_of_cons in Hx as [<-|Hx].
  - clear IH. assert (∀ m' : gmap string V, m' !! k x = Some (v x) →
      foldl (λ m e, <[k e := v e]> m) m' l !! k x = Some (v x)) as H; [|apply H, lookup_insert_eq].
    induction l as [|z l IH]; intros m' Hm; [done|]. simpl. apply IH.
    + by apply not_elem_of_cons in Hni as [_ ?].
    + by apply NoDup_cons in Hnd as [_ ?].
    + rewrite lookup_insert_ne; [done|]. by apply not_elem_of_cons in Hni as [? _].
  - by apply IH.
Qed.
Lemma foldl_insert_None {A V} (k : A → string) (v : A → V) l (m : gmap string V) s :
  (∀ x, x ∈ l → k x ≠ s) → foldl (λ m e, <[k e := v e]> m) m l !! s = m !! s.
Proof.
  revert m. induction l as [|y l IH]; intros m Hs; [done|]. simpl.
  rewrite IH by set_solver. apply lookup_insert_ne. apply Hs. set_solver.
Qed.
Lemma config_keys c :
  config_wf c → NoDup ((λ e, FlagName.to_string e.1) <$> flags c).
Proof.
  intros [Hnd Hwf]. change (NoDup (FlagName.to_string ∘ fst <$> flags c)).
  rewrite (list_fmap_compose fst FlagName.to_string).
  apply NoDup_fmap_2_strong; [|done]. rewrite Forall_forall in Hwf.
  intros f g Hf Hg. apply flag_to_string_inj; by apply Hwf.
Qed.
(** The entry a printed name stands for. *)
Definition entry_for (s : string) (c : FlagConfig) : option (FlagName.t * FlagDefinition) :=
  snd <$> list_find (λ e, FlagName.to_string e.1 = s) (flags c).
Lemma entry_for_in c e : config_wf c → e ∈ flags c → entry_for (FlagName.to_string e.1) c = Some e.
Proof.
  intros Hc He. unfold entry_for.
  destruct (list_find _ (flags c)) as [[i e']|] eqn:Hf; simpl.
  - apply list_find_Some in Hf as (Hi & Heq & _). f_equal.
    apply list_elem_of_lookup in He as [j Hj].
    assert (j = i) as ->; [|congruence].
    eapply (NoDup_lookup ((λ e, FlagName.to_string e.1) <$> flags c)); [by apply config_keys|..];
      rewrite list_lookup_fmap; [by rewrite Hj|]. by rewrite Hi, <-Heq.
  - apply list_find_None in Hf. rewrite Forall_forall in Hf. by destruct (Hf e He).
Qed.
Lemma entry_for_none c s :
  (∀ n, n ∈ (flags c).*1 → FlagName.to_string n ≠ s) → entry_for s c = None.
Proof.
  intros Hs. unfold entry_for. destruct (list_find _ (flags c)) as [[i e]|] eqn:Hf; [|done].
  apply list_find_Some in Hf as (Hi & Heq & _). exfalso. apply (Hs e.1); [|done].
  apply list_elem_of_fmap_2. by eapply list_elem_of_lookup_2.
Qed.
Lemma entry_for_Some c s e : entry_for s c = Some e → e ∈ flags c ∧ FlagName.to_string e.1 = s.
Proof.
  unfold entry_for. intros ([i e'] & (Hi & Heq & _)%list_find_Some & ->)%fmap_Some.
  split; [by eapply list_elem_of_lookup_2|done].
Qed.
Lemma config_wf_perm c c' : flags c ≡ₚ flags c' → config_wf c → config_wf c'.
Proof. intros Hp [? ?]. by split; [rewrite <-Hp|rewrite <-Hp]. Qed.
Lemma entry_for_perm c c' s :
  config_wf c → flags c ≡ₚ flags c' → entry_for s c = entry_for s c'.
Proof.
  intros Hc Hp. destruct (entry_for s c) as [e|] eqn:He.
  - apply entry_for_Some in He as [He <-]. symmetry. apply entry_for_in.
    + by eapply config_wf_perm.
    + by rewrite <-Hp.
  - destruct (entry_for s c') as [e'|] eqn:He'; [|done].
    apply entry_for_Some in He' as [Hin <-]. rewrite <-Hp in Hin.
    by rewrite (entry_for_in c e' Hc Hin) in He.
Qed.
Lemma eval_lookup {V} (v : FlagName.t * FlagDefinition → V) c s :
  config_wf c →
  foldl (λ m e, <[FlagName.to_string e.1 := v e]> m) (∅ : gmap string V) (flags c) !! s =
  v <$> entry_for s c.
Proof.
  intros Hc. destruct (entry_for s c) as [e|] eqn:He; simpl.
  - apply entry_for_Some in He as [He <-].
    exact (foldl_insert_lookup (λ e, FlagName.to_string e.1) v (flags c) ∅ e (config_keys c Hc) He).
  - rewrite (foldl_insert_None (λ e, FlagName.to_string e.1) v (flags c) ∅ s); [done|].
    intros x Hx Heq. subst s. by rewrite (entry_for_in c x Hc Hx) in He.
Qed.
Lemma detailed_value xxh64 name flag tenant user groups :
  value (resolve_single_flag_detailed xxh64 name flag tenant user groups) =
  resolve_single_flag xxh64 name flag tenant user groups.
Proof.
  unfold resolve_single_flag_detailed, resolve_single_flag. destruct (enabled flag); simpl; [|done].
  destruct (first_override _ _ _ _); [done|]. destruct (rollout_percentage flag); [|done].
  cbv zeta. by case_bool_decide.
Qed.
Lemma seg_no_sep s : Segment.wf s → contains_char sep (Segment.as_str s) = false.
Proof. by apply SegmentFacts.wf_no_byte. Qed.
Lemma flag_no_sep f : FlagName.wf f → contains_char sep (FlagName.to_string f) = false.
Proof.
  unfold FlagName.wf, FlagName.parse. destruct (is_empty _); [done|].
  destruct (split_once ":" _) as [[ns name]|].
  - intros (n & (_ & x & -> & Hx)%ActionFacts.namespace_parse_Ok & (y & Hy & [= <-])%bind_Ok)%bind_Ok.
    apply SegmentFacts.segment_try_new_wf in Hx, Hy. simpl. unfold Namespace.as_str. simpl.
    rewrite contains_char_app, contains_char_cons.
    by rewrite !seg_no_sep.
  - intros (x & Hx & ->)%fmap_Ok. apply seg_no_sep. by eapply SegmentFacts.segment_try_new_wf.
Qed.
Lemma first_override_spec tenant user groups l :
  match first_override tenant user groups l with
  | Some ov => ∃ before after, l = before ++ ov :: after ∧
      override_matches tenant user groups ov = true ∧
      Forall (λ o, override_matches tenant user groups o = false) before
  | None => Forall (λ o, override_matches tenant user groups o = false) l
  end.
Proof.
  induction l as [|ov l IH]; simpl; [constructor|].
  destruct (override_matches tenant user groups ov) eqn:Ho.
  - by exists [], l.
  - destruct (first_override tenant user groups l) as [o|].
    + destruct IH as (b & a & -> & ? & ?). exists (ov :: b), a. by split_and!; [|done|constructor].
    + by constructor.
Qed.
End FeatureFacts.

(** A flag resolves by kill switch, then the first matching override, then
    the rollout bucket, then the default; the plain and the detailed
    evaluation agree, and the reason reported by the detailed one is the rule
    that applied. *)
Theorem flag_resolution_rules (xxh64 : string → N) name flag tenant user groups :
  let r := Features.resolve_single_flag_detailed xxh64 name flag tenant user groups in
  let bucket := Features.deterministic_bucket xxh64 (FlagName.to_string name) tenant user in
  let matches := Features.override_matches tenant user groups in
  Features.resolve_single_flag xxh64 name flag tenant user groups = Features.value r ∧
  match Features.reason r with
  | Features.KillSwitch => Features.enabled flag = false ∧ Features.value r = Features.default_value flag
  | Features.Override t u g =>
      Features.enabled flag = true ∧
      ∃ before ov after, Features.overrides flag = before ++ ov :: after ∧ matches ov = true ∧
        Forall (λ o, matches o = false) before ∧ Features.value r = Features.ov_value ov ∧
        t = (Id.as_str <$> Features.ov_tenant ov) ∧ u = (Id.as_str <$> Features.ov_user ov) ∧
        g = (Id.as_str <$> Features.ov_group ov)
  | Features.Rollout b p =>
      Features.enabled flag = true ∧ Forall (λ o, matches o = false) (Features.overrides flag) ∧
      Features.rollout_percentage flag = Some (Percentage.mk p) ∧ b = bucket ∧ (b < p)%N ∧
      Features.value r = default (Features.Bool true) (Features.rollout_variant flag)
  | Features.RolloutExcluded b p =>
      Features.enabled flag = true ∧ Forall (λ o, matches o = false) (Features.overrides flag) ∧
      Features.rollout_percentage flag = Some (Percentage.mk p) ∧ b = bucket ∧ (p ≤ b)%N ∧
      Features.value r = Features.default_value flag
  | Features.Default =>
      Features.enabled flag = true ∧ Forall (λ o, matches o = false) (Features.overrides flag) ∧
      Features.rollout_percentage flag = None ∧ Features.value r = Features.default_value flag
  end.
Proof.
  intros r bucket matches. split; [symmetry; apply FeatureFacts.detailed_value|].
  unfold r, Features.resolve_single_flag_detailed.
  destruct (Features.enabled flag); simpl; [|done].
  pose proof (FeatureFacts.first_override_spec tenant user groups (Features.overrides flag)) as Hf.
  destruct (Features.first_override tenant user groups (Features.overrides flag)) as [ov|]; simpl.
  - destruct Hf as (b & a & ? & ? & ?). split; [done|]. by exists b, ov, a.
  - destruct (Features.rollout_percentage flag) as [[p]|]; simpl; [|done].
    case_bool_decide; simpl; split_and!; try done. lia.
Qed.

(** Evaluating all flags is exact and does not depend on the iteration
    order of the map: every configured flag resolves under its printed name
    to its own value, no other name is present, and any two iteration orders
    give the same result. *)
Theorem evaluate_flags_exact (xxh64 : string → N) config config' tenant user groups :
  Features.config_wf config → Features.flags config ≡ₚ Features.flags config' →
  let r := Features.evaluate_flags xxh64 config tenant user groups in
  (∀ name flag, (name, flag) ∈ Features.flags config →
     r !! FlagName.to_string name =
     Some (Features.resolve_single_flag xxh64 name flag tenant user groups)) ∧
  (∀ s, (∀ name, name ∈ (Features.flags config).*1 → FlagName.to_string name ≠ s) → r !! s = None) ∧
  Features.evaluate_flags xxh64 config' tenant user groups = r ∧
  Features.value <$> Features.evaluate_flags_detailed xxh64 config tenant user groups = r.
Proof.
  intros Hwf Hp r.
  assert (∀ c, Features.config_wf c → ∀ s,
    Features.evaluate_flags xxh64 c tenant user groups !! s =
    (λ e, Features.resolve_single_flag xxh64 e.1 e.2 tenant user groups) <$>
      FeatureFacts.entry_for s c) as Hget by (intros; by apply FeatureFacts.eval_lookup).
  split_and!.
  - intros name flag Hin. unfold r. rewrite (Hget config Hwf).
    pose proof (FeatureFacts.entry_for_in config (name, flag) Hwf Hin) as He. simpl in He.
    by rewrite He.
  - intros s Hs. unfold r. rewrite (Hget config Hwf). by rewrite FeatureFacts.entry_for_none.
  - apply map_eq. intros s. unfold r. rewrite (Hget config Hwf), (Hget config').
    + by rewrite (FeatureFacts.entry_for_perm config config' s).
    + by eapply FeatureFacts.config_wf_perm.
  - apply map_eq. intros s. rewrite lookup_fmap. unfold r. rewrite (Hget config Hwf).
    unfold Features.evaluate_flags_detailed. rewrite FeatureFacts.eval_lookup by done.
    destruct (FeatureFacts.entry_for s config) as [[n f]|]; [|done]. simpl. f_equal.
    apply FeatureFacts.detailed_value.
Qed.

Module FeatureSample.
Definition def (pct : option Percentage.t) : Features.FlagDefinition := {|
  Features.flag_type := Features.BooleanT; Features.default_value := Features.Bool false;
  Features.enabled := true; Features.overrides := [];
  Features.rollout_percentage := pct; Features.rollout_variant := None |}.
Definition beta : FlagName.t := FlagName.Global (Segment.mk "beta").
Definition ai : FlagName.t :=
  FlagName.Scoped (Namespace.User (Segment.mk "todo")) (Segment.mk "ai").
Definition config : Features.FlagConfig :=
  {| Features.flags := [(beta, def None); (ai, def (Some (Percentage.mk 100)))] |}.
Definition config' : Features.FlagConfig :=
  {| Features.flags := [(ai, def (Some (Percentage.mk 100))); (beta, def None)] |}.
Definition hash (s : string) : N := N.of_nat (String.length s).
Definition alice : UserId := Id.mk (Segment.mk "alice").
Definition acme : TenantId := Id.mk (Segment.mk "acme").
Lemma config_ok : Features.config_wf config.
Proof. split; [repeat constructor; set_solver|repeat constructor]. Qed.
End FeatureSample.

(** Witness: two flags, in two iteration orders. *)
Lemma evaluate_flags_exact_witness :
  Features.evaluate_flags FeatureSample.hash FeatureSample.config' None FeatureSample.alice [] =
  Features.evaluate_flags FeatureSample.hash FeatureSample.config None FeatureSample.alice [].
Proof.
  apply (evaluate_flags_exact FeatureSample.hash FeatureSample.config FeatureSample.config' None
           FeatureSample.alice []).
  - apply FeatureSample.config_ok.
  - apply perm_swap.
Defined.

(** Rollout is bounded, stable and monotone.  A bucket is below 100, so
    100 percent includes every user and 0 percent none; raising the
    percentage of a flag never takes it away from a user who had it; and the
    bytes hashed determine the flag, the tenant and the user, so that no two
    different subjects share their hash input. *)
Theorem rollout_monotone (xxh64 : string → N) name tenant user p p' :
  Percentage.try_new p = Ok (Percentage.mk p) → Percentage.try_new p' = Ok (Percentage.mk p') →
  (p ≤ p')%N →
  let bucket := Features.deterministic_bucket xxh64 (FlagName.to_string name) tenant user in
  (bucket < 100)%N ∧ (p' ≤ 100)%N ∧
  (bool_decide (bucket < p)%N = true → bool_decide (bucket < p')%N = true) ∧
  (p = 100%N → bool_decide (bucket < p)%N = true) ∧ (p = 0%N → bool_decide (bucket < p)%N = false) ∧
  (∀ name' tenant' user',
     FlagName.wf name → FlagName.wf name' → Id.wf user → Id.wf user' →
     (∀ t, tenant = Some t → Id.wf t) → (∀ t, tenant' = Some t → Id.wf t) →
     Features.bucket_bytes (FlagName.to_string name) tenant user =
     Features.bucket_bytes (FlagName.to_string name') tenant' user' →
     name = name' ∧ tenant = tenant' ∧ user = user').
Proof.
  intros Hp%FeatureFacts.percentage_bound Hp'%FeatureFacts.percentage_bound Hle bucket.
  assert (bucket < 100)%N as Hb by (by apply N.mod_lt).
  split_and!; [done|lia| | | |].
  - intros H%bool_decide_eq_true. apply bool_decide_eq_true. lia.
  - intros ->. by apply bool_decide_eq_true.
  - intros ->. apply bool_decide_eq_false. lia.
  - intros name' tenant' user' Hn Hn' Hu Hu' Ht Ht' He. unfold Features.bucket_bytes in He.
    apply sep_inj in He as [He1 He2]; [|by apply FeatureFacts.flag_no_sep..].
    apply sep_inj in He2 as [He2 He3].
    + split_and!; [by apply FeatureFacts.flag_to_string_inj| |].
      * destruct tenant as [[t]|], tenant' as [[t']|]; try done.
        -- f_equal. f_equal. by apply SegmentFacts.segment_as_str_inj.
        -- by destruct (SegmentFacts.wf_nonempty t (Ht _ eq_refl)).
        -- by destruct (SegmentFacts.wf_nonempty t' (Ht' _ eq_refl)).
      * destruct user as [u], user' as [u']. f_equal. by apply SegmentFacts.segment_as_str_inj.
    + destruct tenant as [t|]; [|done]. apply FeatureFacts.seg_no_sep, Ht, eq_refl.
    + destruct tenant' as [t|]; [|done]. apply FeatureFacts.seg_no_sep, Ht', eq_refl.
Qed.

(** Witness: raising a rollout from 30 to 50 percent. *)
Lemma rollout_monotone_witness :
  let bucket := Features.deterministic_bucket FeatureSample.hash "beta" (Some FeatureSample.acme)
                  FeatureSample.alice in
  bucket = 15%N ∧ bool_decide (bucket < 50)%N = true.
Proof.
  split; [reflexivity|].
  destruct (rollout_monotone FeatureSample.hash FeatureSample.beta (Some FeatureSample.acme)
           FeatureSample.alice 30 50) as (_ & _ & H & _); [reflexivity|reflexivity|lia|].
  apply H. reflexivity.
Defined.
