(* ===== verification/Authn.v ===== *)
(** Authentication: credentials, identities and the resolver chain of
    [crates/authn-core] ([credential.rs], [identity.rs], [chain.rs],
    [static_api_key.rs]), request signing ([signing.rs]), the Ed25519
    resolver of [crates/authn] ([ed25519_resolver.rs]), and the credential
    extraction of [crates/http] ([credential.rs]).  Signatures, base64 and the
    key store are parameters. *)

From S2P Require Import Prelude RustStr Decimal Ident Rbac Event Action.
From stdpp Require Import pretty.

(** * More of Rust's [str] *)

Definition ascii_lower (c : ascii) : ascii :=
  if is_ascii_uppercase c then ascii_of_N (byte_val c + 32) else c.
Definition ascii_upper (c : ascii) : ascii :=
  if is_ascii_lowercase c then ascii_of_N (byte_val c - 32) else c.
Fixpoint str_map (f : ascii → ascii) (s : string) : string :=
  match s with EmptyString => EmptyString | String a s => String (f a) (str_map f s) end.
Definition to_ascii_lowercase (s : string) : string := str_map ascii_lower s.
Definition to_ascii_uppercase (s : string) : string := str_map ascii_upper s.
Definition eq_ignore_ascii_case (a b : string) : bool :=
  bool_decide (to_ascii_lowercase a = to_ascii_lowercase b).
Definition starts_with_str (p s : string) : bool := String.prefix p s.

(** [trim]: the UTF-8 encodings of the White_Space code points. *)
Definition bytes (l : list N) : string :=
  foldr (λ n s, String (ascii_of_N n) s) EmptyString l.
Definition white_space : list string := (λ n, bytes [n]) <$> [9; 10; 11; 12; 13; 32]%N.
Definition white_space_wide : list string :=
  bytes <$> ([[194; 133]; [194; 160]; [225; 154; 128]; [226; 128; 168]; [226; 128; 169];
             [226; 128; 175]; [226; 129; 159]; [227; 128; 128]]%N ++
            ((λ k, [226; 128; 128 + k]%N) <$> [0; 1; 2; 3; 4; 5; 6; 7; 8; 9; 10]%N)).
Fixpoint str_rev_app (s acc : string) : string :=
  match s with EmptyString => acc | String a s => str_rev_app s (String a acc) end.
Definition str_rev (s : string) : string := str_rev_app s EmptyString.
Definition strip_any (l : list string) (s : string) : option string :=
  head (omap (λ w, RustStr.strip_prefix w s) l).
Fixpoint trim_start_loop (fuel : nat) (l : list string) (s : string) : string :=
  match fuel with
  | 0 => s
  | S fuel => match strip_any l s with Some s' => trim_start_loop fuel l s' | None => s end
  end.
Definition trim_start_of (l : list string) (s : string) : string :=
  trim_start_loop (String.length s) l s.
Definition trim (s : string) : string :=
  let ws := white_space ++ white_space_wide in
  let s := trim_start_of ws s in
  str_rev (trim_start_of (str_rev <$> ws) (str_rev s)).

(** [s[..n]] and [s[n..]] panic unless [n] is a character boundary. *)
Definition is_continuation (c : ascii) : bool :=
  bool_decide (128 ≤ byte_val c)%N && bool_decide (byte_val c < 192)%N.
Fixpoint str_take (n : nat) (s : string) : string :=
  match n, s with S n, String a s => String a (str_take n s) | _, _ => EmptyString end.
Fixpoint str_drop (n : nat) (s : string) : string :=
  match n, s with S n, String _ s => str_drop n s | _, s => s end.
Definition is_char_boundary (n : nat) (s : string) : bool :=
  match str_drop n s with
  | EmptyString => bool_decide (n ≤ String.length s)
  | String c _ => negb (is_continuation c)
  end.

(** * Errors *)
Module AuthnError.
Inductive t :=
| NoResolver (credential_type : string)
| TokenExpired
| InvalidIssuer (expected actual : string)
| InvalidAudience
| MissingClaim (claim : string)
| MalformedToken (msg : string)
| InvalidCredential (msg : string)
| SignatureInvalid
| TimestampDrift (diff : N)
| InvalidSigningKey (msg : string)
| InvalidVerifyingKey (msg : string)
| InvalidKeyId
| MissingOrgId
| InvalidCustomAttrName (raw reason : string)
| InvalidStandardAttrName (raw : string)
| InvalidPoolId (raw : string).
#[global] Instance t_eq_dec : EqDecision t.
Proof. solve_decision. Defined.
End AuthnError.
(** [Display]. *)
Definition authn_error_str (e : AuthnError.t) : string :=
  match e with
  | AuthnError.NoResolver t => "no resolver available for credential type: " +:+ t
  | AuthnError.TokenExpired => "token expired"
  | AuthnError.InvalidIssuer expected actual =>
      "invalid issuer: expected '" +:+ expected +:+ "', got '" +:+ actual +:+ "'"
  | AuthnError.InvalidAudience => "invalid audience"
  | AuthnError.MissingClaim c => "missing required claim: " +:+ c
  | AuthnError.MalformedToken m => "malformed token: " +:+ m
  | AuthnError.InvalidCredential m => "invalid credential: " +:+ m
  | AuthnError.SignatureInvalid => "signature verification failed"
  | AuthnError.TimestampDrift d => "timestamp outside allowed drift window: " +:+ pretty d +:+ "ms"
  | AuthnError.InvalidSigningKey m => "invalid signing key: " +:+ m
  | AuthnError.InvalidVerifyingKey m => "invalid verifying key: " +:+ m
  | AuthnError.InvalidKeyId => "invalid key ID: must be non-empty"
  | AuthnError.MissingOrgId => "missing X-Fg-Org-Id header in signed request"
  | AuthnError.InvalidCustomAttrName raw reason =>
      "invalid custom attribute name " +:+ Rbac.debug_str raw +:+ ": " +:+ reason
  | AuthnError.InvalidStandardAttrName raw =>
      "invalid standard attribute name: " +:+ Rbac.debug_str raw
  | AuthnError.InvalidPoolId raw =>
      "invalid pool ID " +:+ Rbac.debug_str raw +:+ ": must be non-empty and must not contain '#'"
  end.

(** * Credentials and identities *)
Module Credential.
Inductive t :=
| Bearer (token : string)
| ApiKey (key : string)
| SignedRequest (key_id : string) (timestamp : N) (signature trace_id : string)
    (identity_headers : list (string * string)).
#[global] Instance t_eq_dec : EqDecision t.
Proof. solve_decision. Defined.
Definition type_name (c : t) : string :=
  match c with
  | Bearer _ => "bearer" | ApiKey _ => "api-key" | SignedRequest _ _ _ _ _ => "signed-request"
  end.
End Credential.

Module Identity.
Record t := mk {
  user_id : UserId;
  tenant_id : option TenantId;
  groups : list GroupName;
  expiry : option Z;
  resolver : string;
  extra : option Json.t;
  principal_kind : PrincipalRef.PrincipalKind;
}.
Definition is_expired (i : t) (now : Z) : bool :=
  match expiry i with Some e => bool_decide (e < now)%Z | None => false end.
End Identity.

(** A resolver: the trait's operations. *)
Record IdentityResolver := {
  resolver_name : string;
  can_resolve : Credential.t → bool;
  resolve_credential : Credential.t → result AuthnError.t Identity.t;
}.

Module IdentityChain.
(** The chain: the first resolver that can resolve the credential owns it. *)
Fixpoint resolve (resolvers : list IdentityResolver) (c : Credential.t)
    : result AuthnError.t Identity.t :=
  match resolvers with
  | [] => Err (AuthnError.NoResolver (Credential.type_name c))
  | r :: rest => if negb (can_resolve r c) then resolve rest c else r.(resolve_credential) c
  end.
End IdentityChain.

(** * Static API keys *)
Module StaticApiKey.
Record ApiKeyEntry := {
  key_user_id : UserId;
  key_tenant_id : option TenantId;
  key_groups : list GroupName;
}.
Definition resolve (keys : gmap string ApiKeyEntry) (c : Credential.t)
    : result AuthnError.t Identity.t :=
  match c with
  | Credential.ApiKey key =>
      match keys !! key with
      | Some entry =>
          Ok {| Identity.user_id := key_user_id entry; Identity.tenant_id := key_tenant_id entry;
                Identity.groups := key_groups entry; Identity.expiry := None;
                Identity.resolver := "static_api_key"; Identity.extra := None;
                Identity.principal_kind := PrincipalRef.User |}
      | None => Err (AuthnError.InvalidCredential "unknown API key")
      end
  | Credential.Bearer _ | Credential.SignedRequest _ _ _ _ _ =>
      Err (AuthnError.InvalidCredential "expected ApiKey credential")
  end.
Definition resolver (keys : gmap string ApiKeyEntry) : IdentityResolver := {|
  resolver_name := "static_api_key";
  can_resolve c := match c with Credential.ApiKey _ => true | _ => false end;
  resolve_credential := resolve keys;
|}.
End StaticApiKey.

(** * Request signing *)
Module Signing.
Module KeyId.
Record t := mk { as_str : string }.
Definition try_from (value : string) : result AuthnError.t t :=
  if is_empty value then Err AuthnError.InvalidKeyId else Ok (mk value).
End KeyId.

(** [sort_by_key(|(k, _)| *k)]: stable. *)
Fixpoint insert_header (h : string * string) (l : list (string * string))
    : list (string * string) :=
  match l with
  | [] => [h]
  | h' :: l' =>
      match String.compare h.1 h'.1 with
      | Gt => h' :: insert_header h l'
      | _ => h :: h' :: l'
      end
  end.
Definition sort_headers (l : list (string * string)) : list (string * string) :=
  foldr insert_header [] l.

Definition newline : string := String "010" EmptyString.
Definition header_line (h : string * string) : string := h.1 +:+ ":" +:+ h.2 +:+ newline.
(** [CanonicalPayload::new]. *)
Definition canonical_payload (trace_id : string) (timestamp : N)
    (headers : list (string * string)) : string :=
  "forgeguard-sig-v1" +:+ newline +:+
  ("trace-id:" +:+ trace_id +:+ newline) +:+
  ("timestamp:" +:+ pretty timestamp +:+ newline) +:+
  foldr (λ h acc, header_line h +:+ acc) EmptyString (sort_headers headers).

(** [TimestampValidator::check]; [max_drift] is [as_millis()] of a duration,
    truncated to 64 bits. *)
Definition check_timestamp (max_drift request_ts now : N) : result AuthnError.t () :=
  let drift_ms := (max_drift mod 2 ^ 64)%N in
  let diff := (if bool_decide (now ≤ request_ts) then request_ts - now else now - request_ts)%N in
  if bool_decide (drift_ms < diff)%N then Err (AuthnError.TimestampDrift diff) else Ok ().

(** What [sign] produces. *)
Record SignedPayload := {
  signed_key_id : KeyId.t;
  signed_signature : string;
  signed_timestamp : N;
  signed_trace_id : string;
}.
Definition timestamp_header_value (p : SignedPayload) : string := pretty (signed_timestamp p).
Definition key_id_header_value (p : SignedPayload) : string := KeyId.as_str (signed_key_id p).
Definition trace_id_header_value (p : SignedPayload) : string := signed_trace_id p.

Section crypto.
(** Base64 and Ed25519: a signature is its 64 bytes. *)
Context {SK VK : Type}.
Context (b64_encode : string → string) (b64_decode : string → result string string).
Context (ed_sign : SK → string → string) (ed_verify : VK → string → string → bool).

Definition sign (key : SK) (key_id : KeyId.t) (payload : string) (timestamp : N)
    (trace_id : string) : SignedPayload := {|
  signed_key_id := key_id; signed_signature := ed_sign key payload;
  signed_timestamp := timestamp; signed_trace_id := trace_id |}.
Definition signature_header_value (p : SignedPayload) : string :=
  "v1:" +:+ b64_encode (signed_signature p).
Definition parse_signature_header (value : string) : result AuthnError.t string :=
  b64 ← ok_or (RustStr.strip_prefix "v1:" value)
          (AuthnError.InvalidCredential "signature header must start with 'v1:'");
  bytes ← map_err (λ e, AuthnError.InvalidCredential ("invalid base64 in signature: " +:+ e))
            (b64_decode b64);
  if bool_decide (String.length bytes = 64) then Ok bytes
  else Err (AuthnError.InvalidCredential "signature must be 64 bytes").
Definition verify (key : VK) (payload signature : string) : result AuthnError.t () :=
  if ed_verify key payload signature then Ok () else Err AuthnError.SignatureInvalid.

(** ** The Ed25519 resolver *)
Definition DEFAULT_MAX_DRIFT : N := 300000.
Context (get_key : string → string → result AuthnError.t VK).
(** Reading the clock: the time the check is made at. *)
Context (now max_drift : N).

Definition X_FG_ORG_ID : string := "x-fg-org-id".
Definition org_id (identity_headers : list (string * string)) : result AuthnError.t string :=
  ok_or (snd <$> List.find (λ h, eq_ignore_ascii_case h.1 X_FG_ORG_ID) identity_headers)
    AuthnError.MissingOrgId.

Definition verify_signed_request (key_id : string) (timestamp : N) (signature trace_id : string)
    (identity_headers : list (string * string)) : result AuthnError.t Identity.t :=
  org_id ← org_id identity_headers;
  public_key ← get_key org_id key_id;
  let payload := canonical_payload trace_id timestamp identity_headers in
  parsed_sig ← parse_signature_header signature;
  _ ← verify public_key payload parsed_sig;
  _ ← check_timestamp max_drift timestamp now;
  user_id ← map_err (λ e, AuthnError.InvalidCredential ("invalid key_id: " +:+ core_error_str e)) (Id.new key_id);
  tenant_id ← map_err (λ e, AuthnError.InvalidCredential ("invalid org_id: " +:+ core_error_str e)) (Id.new org_id);
  Ok {| Identity.user_id := user_id; Identity.tenant_id := Some tenant_id;
        Identity.groups := []; Identity.expiry := None; Identity.resolver := "ed25519";
        Identity.extra := None; Identity.principal_kind := PrincipalRef.Machine |}.

Definition ed25519_resolver : IdentityResolver := {|
  resolver_name := "ed25519";
  can_resolve c := match c with Credential.SignedRequest _ _ _ _ _ => true | _ => false end;
  resolve_credential c :=
    match c with
    | Credential.SignedRequest k t s tr h => verify_signed_request k t s tr h
    | _ => Err (AuthnError.InvalidCredential
                  ("expected SignedRequest credential, got " +:+ Credential.type_name c))
    end;
|}.
End crypto.
End Signing.

(** * Credential extraction ([crates/http]) *)
Module Extract.
Definition X_FG_PREFIX : string := "x-fg-".
Definition X_FG_SIGNATURE : string := "x-fg-signature".
Definition X_FG_TIMESTAMP : string := "x-fg-timestamp".
Definition X_FG_KEY_ID : string := "x-fg-key-id".
Definition X_FG_TRACE_ID : string := "x-fg-trace-id".

Definition find_header (headers : list (string * string)) (name : string) : option string :=
  snd <$> List.find (λ h, eq_ignore_ascii_case h.1 name) headers.
Definition SIGNED_REQUEST_HEADERS : list string :=
  [X_FG_SIGNATURE; X_FG_TIMESTAMP; X_FG_KEY_ID; X_FG_TRACE_ID].
Definition is_protocol_header (name : string) : bool :=
  existsb (λ h, eq_ignore_ascii_case h name) SIGNED_REQUEST_HEADERS.

(** The headers that are part of the signed payload. *)
Definition is_identity_header (h : string * string) : bool :=
  starts_with_str X_FG_PREFIX (to_ascii_lowercase h.1) && negb (is_protocol_header h.1).
Definition identity_headers (headers : list (string * string)) : list (string * string) :=
  List.filter is_identity_header headers.

(** [trimmed[..7]]: panics inside a character. *)
Definition bearer_token (auth : string) : result Empty_set (option string) :=
  let trimmed := trim auth in
  if bool_decide (7 < String.length trimmed) then
    if negb (is_char_boundary 7 trimmed)
    then Stuck "byte index 7 is not a char boundary"
    else if eq_ignore_ascii_case (str_take 7 trimmed) "bearer " then
      let token := trim (str_drop 7 trimmed) in
      Ok (if negb (is_empty token) then Some token else None)
    else Ok None
  else Ok None.

Definition signed_request (headers : list (string * string)) : option Credential.t :=
  sig ← find_header headers X_FG_SIGNATURE;
  ts ← find_header headers X_FG_TIMESTAMP;
  key_id ← find_header headers X_FG_KEY_ID;
  trace_id ← find_header headers X_FG_TRACE_ID;
  timestamp ← parse_u64 ts;
  Some (Credential.SignedRequest key_id timestamp sig trace_id (identity_headers headers)).

Definition extract_credential (headers : list (string * string))
    : result Empty_set (option Credential.t) :=
  bearer ← match find_header headers "authorization" with
           | Some auth => bearer_token auth
           | None => Ok None
           end;
  match bearer with
  | Some token => Ok (Some (Credential.Bearer token))
  | None =>
      let api_key :=
        key ← find_header headers "x-api-key";
        let trimmed := trim key in
        if negb (is_empty trimmed) then Some trimmed else None in
      match api_key with
      | Some key => Ok (Some (Credential.ApiKey key))
      | None => Ok (signed_request headers)
      end
  end.
End Extract.

(** * The client ([xtask]'s signing [curl]) *)
Module Client.
(** The protocol headers of a signed request. *)
Definition protocol_headers (b64_encode : string → string) (p : Signing.SignedPayload)
    : list (string * string) :=
  [(Extract.X_FG_SIGNATURE, Signing.signature_header_value b64_encode p);
   (Extract.X_FG_TIMESTAMP, Signing.timestamp_header_value p);
   (Extract.X_FG_KEY_ID, Signing.key_id_header_value p);
   (Extract.X_FG_TRACE_ID, Signing.trace_id_header_value p)].
End Client.

(** * Facts about headers *)
Lemma ascii_lower_idem c : ascii_lower (ascii_lower c) = ascii_lower c.
Proof. by destruct c as [[] [] [] [] [] [] [] []]. Qed.

Lemma eq_ignore_ascii_case_true a b :
  eq_ignore_ascii_case a b = true ↔ to_ascii_lowercase a = to_ascii_lowercase b.
Proof. apply bool_decide_eq_true. Qed.

(** The header a lookup finds, when one header only has the name. *)
Lemma find_header_unique (hs : list (string * string)) name h :
  h ∈ hs → eq_ignore_ascii_case h.1 name = true →
  (∀ h', h' ∈ hs → eq_ignore_ascii_case h'.1 name = true → h' = h) →
  List.find (λ h, eq_ignore_ascii_case h.1 name) hs = Some h.
Proof.
  intros Hin Hn Huniq. destruct (List.find _ hs) as [h'|] eqn:Hf.
  - apply List.find_some in Hf as [Hin' Hn']. f_equal.
    apply Huniq; [by apply list_elem_of_In|done].
  - apply list_elem_of_In in Hin. by rewrite (List.find_none _ _ Hf _ Hin) in Hn.
Qed.
Lemma find_header_absent (hs : list (string * string)) name :
  (∀ h, h ∈ hs → eq_ignore_ascii_case h.1 name = false) →
  List.find (λ h, eq_ignore_ascii_case h.1 name) hs = None.
Proof.
  intros Hall. destruct (List.find _ hs) as [h'|] eqn:Hf; [|done].
  apply List.find_some in Hf as [Hin%list_elem_of_In Hn']. by rewrite Hall in Hn'.
Qed.

(** * The canonical payload *)
Module PayloadFacts.
Import Signing.

(** A header as the wire carries it. *)
Definition wire_header (h : string * string) : Prop :=
  contains_char ":" h.1 = false ∧ contains_char "010" h.1 = false ∧
  contains_char "010" h.2 = false.
#[global] Instance wire_header_dec h : Decision (wire_header h).
Proof. unfold wire_header. apply _. Defined.

Lemma insert_header_perm h l : insert_header h l ≡ₚ h :: l.
Proof.
  induction l as [|h' l IH]; simpl; [done|].
  destruct (String.compare h.1 h'.1); [done..|]. rewrite IH. constructor.
Qed.
Lemma sort_headers_perm l : sort_headers l ≡ₚ l.
Proof. induction l as [|h l IH]; simpl; [done|]. by rewrite insert_header_perm, IH. Qed.

Definition name_le (h h' : string * string) : Prop := cmp_le String.compare h.1 h'.1.
#[global] Instance name_le_trans : Transitive name_le.
Proof. intros x y z. unfold name_le. apply transitivity. Qed.
Lemma insert_header_sorted h l : Sorted name_le l → Sorted name_le (insert_header h l).
Proof.
  induction 1 as [|h' l Hs IH Hrel]; simpl; [by repeat constructor|].
  destruct (String.compare h.1 h'.1) eqn:Hc.
  1,2: constructor; [by constructor|]; constructor; unfold name_le, cmp_le; by rewrite Hc.
  assert (name_le h' h) as Hle.
  { unfold name_le, cmp_le. rewrite (cmp_opp String.compare h.1 h'.1), Hc. done. }
  constructor; [done|]. destruct Hrel as [|h'' l Hr]; simpl; [by constructor|].
  destruct (String.compare h.1 h''.1); by constructor.
Qed.
Lemma sort_headers_sorted l : Sorted name_le (sort_headers l).
Proof. induction l; simpl; [constructor|]. by apply insert_header_sorted. Qed.

(** Sorting forgets the order of headers with distinct names. *)
Lemma sort_headers_Permutation l k :
  NoDup (fst <$> l) → l ≡ₚ k → sort_headers l = sort_headers k.
Proof.
  intros Hnd Hp. apply (Sorted_unique_strong name_le).
  - intros x y Hx Hy Hxy Hyx. rewrite sort_headers_perm in Hx, Hy. rewrite <-Hp in Hy.
    eapply (NoDup_key_inj fst); [done..|]. by apply (anti_symm (cmp_le String.compare)).
  - apply sort_headers_sorted.
  - apply sort_headers_sorted.
  - by rewrite !sort_headers_perm.
Qed.

Lemma pretty_no_newline (n : N) : contains_char "010" (pretty n) = false.
Proof. by eapply str_all_not_contains; [|apply DecimalFacts.pretty_digits]. Qed.

Lemma header_lines_inj l k :
  Forall wire_header l → Forall wire_header k →
  foldr (λ h acc, header_line h +:+ acc) EmptyString l =
  foldr (λ h acc, header_line h +:+ acc) EmptyString k → l = k.
Proof.
  assert (∀ h acc, header_line h +:+ acc = h.1 +:+ String ":" (h.2 +:+ String "010" acc))
    as Hline.
  { intros h acc. unfold header_line, newline. by rewrite !str_app_assoc. }
  assert (∀ h acc, header_line h +:+ acc ≠ EmptyString) as Hne.
  { intros h acc. rewrite Hline. by destruct (h.1). }
  intros Hl. revert k.
  induction Hl as [|[n v] l (Hn & _ & Hv) Hl IH]; intros [|[n' v'] k] Hk; cbn [foldr].
  - done.
  - intros Heq. by destruct (Hne (n', v') (foldr (λ h acc, header_line h +:+ acc) EmptyString k)).
  - intros Heq. by destruct (Hne (n, v) (foldr (λ h acc, header_line h +:+ acc) EmptyString l)).
  - apply Forall_cons in Hk as [(Hn' & _ & Hv') Hk]. rewrite !Hline. cbn [fst snd] in *.
    intros [-> [-> Heq]%sep_inj]%sep_inj; [|done..]. f_equal. by apply IH.
Qed.

Lemma wire_sort l : Forall wire_header l → Forall wire_header (sort_headers l).
Proof. by rewrite sort_headers_perm. Qed.

Lemma canonical_payload_inj trace trace' ts ts' hs hs' :
  contains_char "010" trace = false → contains_char "010" trace' = false →
  Forall wire_header hs → Forall wire_header hs' →
  canonical_payload trace ts hs = canonical_payload trace' ts' hs' →
  trace = trace' ∧ ts = ts' ∧ sort_headers hs = sort_headers hs'.
Proof.
  intros Ht Ht' Hh Hh'. unfold canonical_payload, newline. rewrite !str_app_assoc, !str_one.
  intros Heq%str_app_inj_l. injection Heq as Heq.
  apply sep_inj in Heq as [-> Heq]; [|done..]. injection Heq as Heq.
  apply sep_inj in Heq as [Hts Heq]; [|apply pretty_no_newline..].
  split_and!; [done|by apply (inj pretty)|]. by apply header_lines_inj; [apply wire_sort..|].
Qed.
Lemma canonical_payload_Permutation trace ts hs hs' :
  NoDup (fst <$> hs) → hs ≡ₚ hs' →
  canonical_payload trace ts hs = canonical_payload trace ts hs'.
Proof.
  intros. unfold canonical_payload. by rewrite (sort_headers_Permutation hs hs').
Qed.
End PayloadFacts.

(** the bytes that are signed say exactly what the request says: two
    requests whose trace ids and header values hold no newline, and whose
    header names are distinct and hold neither a newline nor a colon, have the
    same canonical payload exactly when they have the same trace id, the same
    timestamp and the same identity headers up to order. *)
Theorem canonical_payload_binding trace trace' ts ts' hs hs' :
  contains_char "010" trace = false → contains_char "010" trace' = false →
  Forall PayloadFacts.wire_header hs → Forall PayloadFacts.wire_header hs' →
  NoDup (fst <$> hs) →
  Signing.canonical_payload trace ts hs = Signing.canonical_payload trace' ts' hs' ↔
  trace = trace' ∧ ts = ts' ∧ hs ≡ₚ hs'.
Proof.
  intros Ht Ht' Hh Hh' Hnd. split.
  - intros (-> & -> & Hs)%PayloadFacts.canonical_payload_inj; [|done..]. split_and!; [done..|].
    by rewrite <-(PayloadFacts.sort_headers_perm hs), Hs, PayloadFacts.sort_headers_perm.
  - intros (-> & -> & Hp). by apply PayloadFacts.canonical_payload_Permutation.
Qed.

(** * Signed requests, end to end *)
Module SignedFacts.
Import Signing Extract.

Lemma list_filter_Permutation {A} (f : A → bool) l k :
  l ≡ₚ k → List.filter f l ≡ₚ List.filter f k.
Proof.
  induction 1 as [|x l k _ IH|x y l|l k m _ IH1 _ IH2]; simpl; [done|..].
  - destruct (f x); [by constructor|done].
  - destruct (f x), (f y); [apply perm_swap|done..].
  - by etrans.
Qed.
Lemma list_filter_all {A} (f : A → bool) l :
  Forall (λ x, f x = true) l → List.filter f l = l.
Proof. induction 1 as [|x l Hx _ IH]; simpl; [done|]. by rewrite Hx, IH. Qed.
Lemma list_filter_none {A} (f : A → bool) l :
  Forall (λ x, f x = false) l → List.filter f l = [].
Proof. induction 1 as [|x l Hx _ IH]; simpl; [done|]. by rewrite Hx. Qed.

(** A header that says nothing to the extraction. *)
Definition is_other_header (h : string * string) : bool :=
  negb (starts_with_str X_FG_PREFIX (to_ascii_lowercase h.1)) &&
  negb (eq_ignore_ascii_case h.1 "authorization") &&
  negb (eq_ignore_ascii_case h.1 "x-api-key").

(** [name] is one of the protocol's, so no identity header and no other
    header has it. *)
Lemma protocol_name_only name h :
  name ∈ SIGNED_REQUEST_HEADERS →
  is_identity_header h = true ∨ is_other_header h = true →
  eq_ignore_ascii_case h.1 name = false.
Proof.
  intros Hname Hh. apply not_true_is_false. intros Heq%eq_ignore_ascii_case_true.
  destruct Hh as [Hh|Hh]; unfold is_identity_header, is_other_header in Hh; bool_prop.
  - assert (is_protocol_header h.1 = true) as Hp; [|congruence].
    apply existsb_exists. exists name. split; [by apply list_elem_of_In|].
    by apply eq_ignore_ascii_case_true.
  - assert (Forall (λ n, starts_with_str X_FG_PREFIX (to_ascii_lowercase n) = true)
              SIGNED_REQUEST_HEADERS) as Hall by by_eval.
    rewrite Forall_forall in Hall. specialize (Hall name Hname).
    rewrite <-Heq in Hall. congruence.
Qed.

(** No identity header carries a credential of another kind. *)
Lemma identity_no_credential h name :
  is_identity_header h = true → starts_with_str X_FG_PREFIX (to_ascii_lowercase name) = false →
  eq_ignore_ascii_case h.1 name = false.
Proof.
  intros Hh Hn. apply not_true_is_false. intros Heq%eq_ignore_ascii_case_true.
  unfold is_identity_header in Hh. bool_prop. rewrite Heq in *. congruence.
Qed.

Section request.
Context (hs protocol ids others : list (string * string)).
Context (Hhs : hs ≡ₚ protocol ++ ids ++ others).
Context (Hids : Forall (λ h, is_identity_header h = true) ids).
Context (Hothers : Forall (λ h, is_other_header h = true) others).
Context (Hproto : fst <$> protocol = SIGNED_REQUEST_HEADERS).

Lemma request_identity_headers : identity_headers hs ≡ₚ ids.
Proof.
  unfold identity_headers. rewrite (list_filter_Permutation _ _ _ Hhs), !List.filter_app.
  rewrite (list_filter_all _ ids) by done.
  rewrite (list_filter_none _ protocol), (list_filter_none _ others), app_nil_r; [done|..].
  - eapply Forall_impl; [done|]. intros h Hh. unfold is_other_header in Hh. bool_prop.
    unfold is_identity_header. by destruct (starts_with_str _ _).
  - assert (Forall (λ n, is_protocol_header n = true) (fst <$> protocol)) as Hp.
    { rewrite Hproto. by_eval. }
    rewrite Forall_fmap in Hp. eapply Forall_impl; [done|]. simpl. intros h Hh.
    unfold is_identity_header. by rewrite Hh, andb_false_r.
Qed.

Lemma request_protocol_header name v :
  (name, v) ∈ protocol → find_header hs name = Some v.
Proof.
  intros Hin. unfold find_header.
  assert (name ∈ SIGNED_REQUEST_HEADERS) as Hname.
  { rewrite <-Hproto. apply list_elem_of_fmap. by exists (name, v). }
  rewrite (find_header_unique hs name (name, v)); [done|..].
  - rewrite Hhs. set_solver.
  - by apply eq_ignore_ascii_case_true.
  - intros h Hh Heq. rewrite Hhs, !elem_of_app in Hh.
    destruct Hh as [Hh|[Hh|Hh]].
    + assert (NoDup (to_ascii_lowercase <$> (fst <$> protocol))) as Hnd.
      { rewrite Hproto. by_eval. }
      rewrite <-list_fmap_compose in Hnd. apply (NoDup_key_inj _ _ _ _ Hnd); [done..|].
      by apply eq_ignore_ascii_case_true in Heq.
    + rewrite Forall_forall in Hids.
      rewrite (protocol_name_only name h) in Heq; [done..|]. left. by apply Hids.
    + rewrite Forall_forall in Hothers.
      rewrite (protocol_name_only name h) in Heq; [done..|]. right. by apply Hothers.
Qed.

Lemma request_no_header name :
  name = "authorization" ∨ name = "x-api-key" → find_header hs name = None.
Proof.
  intros Hname. unfold find_header. rewrite find_header_absent; [done|]. intros h Hh.
  assert (starts_with_str X_FG_PREFIX (to_ascii_lowercase name) = false) as Hpre.
  { by destruct Hname as [-> | ->]. }
  rewrite Hhs, !elem_of_app in Hh. rewrite Forall_forall in Hids, Hothers.
  destruct Hh as [Hh|[Hh|Hh]].
  - apply not_true_is_false. intros Heq%eq_ignore_ascii_case_true.
    assert (Forall (λ n, starts_with_str X_FG_PREFIX (to_ascii_lowercase n) = true)
              (fst <$> protocol)) as Hall by (rewrite Hproto; by_eval).
    rewrite Forall_fmap, Forall_forall in Hall. specialize (Hall h Hh). simpl in Hall.
    rewrite Heq in Hall. congruence.
  - apply identity_no_credential; [by apply Hids|done].
  - specialize (Hothers h Hh). unfold is_other_header in Hothers. bool_prop.
    by destruct Hname as [-> | ->].
Qed.
End request.

(** Extraction of a signed request, its headers in any order. *)
Lemma extract_signed b64_encode (p : SignedPayload) hs ids others :
  (signed_timestamp p < 2 ^ 64)%N →
  Forall (λ h, is_identity_header h = true) ids →
  Forall (λ h, is_other_header h = true) others →
  hs ≡ₚ Client.protocol_headers b64_encode p ++ ids ++ others →
  extract_credential hs = Ok (Some (Credential.SignedRequest (key_id_header_value p)
    (signed_timestamp p) (signature_header_value b64_encode p) (trace_id_header_value p)
    (identity_headers hs))).
Proof.
  intros Hts Hids Hothers Hhs.
  assert (∀ n v, (n, v) ∈ Client.protocol_headers b64_encode p → find_header hs n = Some v)
    as Hfind by by eapply request_protocol_header.
  unfold extract_credential.
  rewrite !(request_no_header hs _ ids others Hhs Hids Hothers eq_refl) by auto.
  cbn [mbind result_bind option_bind]. unfold signed_request.
  rewrite (Hfind X_FG_SIGNATURE _) by (left; done).
  rewrite (Hfind X_FG_TIMESTAMP _) by (right; left; done).
  rewrite (Hfind X_FG_KEY_ID _) by (do 2 right; left; done).
  rewrite (Hfind X_FG_TRACE_ID _) by (do 3 right; left; done).
  cbn [mbind option_bind]. unfold timestamp_header_value.
  by rewrite DecimalFacts.parse_u64_pretty.
Qed.

(** The organization named in identity headers does not depend on their order. *)
Lemma org_id_found ids name org :
  NoDup ((to_ascii_lowercase ∘ fst) <$> ids) → (name, org) ∈ ids →
  eq_ignore_ascii_case name X_FG_ORG_ID = true → org_id ids = Ok org.
Proof.
  intros Hnd Hin Hn. unfold org_id. rewrite (find_header_unique ids X_FG_ORG_ID (name, org));
    [done|done|done|].
  intros h Hh Heq. apply (NoDup_key_inj _ _ _ _ Hnd); [done..|]. simpl.
  apply eq_ignore_ascii_case_true in Heq, Hn. congruence.
Qed.
End SignedFacts.

Section signed_requests.
Import Signing Extract SignedFacts.
Context {SK VK : Type} (vk_of : SK → VK).
Context (b64_encode : string → string) (b64_decode : string → result string string).
Context (ed_sign : SK → string → string) (ed_verify : VK → string → string → bool).
Context (get_key : string → string → result AuthnError.t VK) (now max_drift : N).
(** Documented behaviour of the base64 and Ed25519 libraries. *)
Context (b64_roundtrip : ∀ s, b64_decode (b64_encode s) = Ok s).
Context (sign_length : ∀ k m, String.length (ed_sign k m) = 64).
Context (verify_sign : ∀ k m, ed_verify (vk_of k) m (ed_sign k m) = true).

Abbreviation resolver := (ed25519_resolver b64_decode ed_verify get_key now max_drift).

Lemma parse_signature_roundtrip sk key_id payload ts trace :
  parse_signature_header b64_decode
    (signature_header_value b64_encode (sign ed_sign sk key_id payload ts trace)) =
  Ok (ed_sign sk payload).
Proof.
  unfold parse_signature_header, signature_header_value.
  rewrite (proj2 (strip_prefix_Some "v1:" _ _) eq_refl). cbn [ok_or mbind result_bind].
  rewrite b64_roundtrip. cbn [map_err mbind result_bind signed_signature sign].
  by rewrite bool_decide_eq_true_2 by apply sign_length.
Qed.

Lemma check_timestamp_Ok ts :
  check_timestamp max_drift ts now = Ok () ↔
  (ts ≤ now + max_drift mod 2 ^ 64 ∧ now ≤ ts + max_drift mod 2 ^ 64)%N.
Proof.
  unfold check_timestamp. repeat case_bool_decide; split; intros; try done; lia.
Qed.

(** C24: a request signed by the client is authenticated.  The client signs its
    trace id, its timestamp and its identity headers with a key registered
    for its organization, and sends the protocol headers, the identity headers
    and any headers that are neither ForgeGuard's nor credentials; the headers
    arrive in any order.  Then extraction yields the signed-request
    credential, and a chain whose first resolver for such credentials is the
    Ed25519 resolver resolves it to the key's identity in that organization,
    provided the timestamp is within the drift. *)
Theorem signed_request_roundtrip
    (sk : SK) (key_id : KeyId.t) trace ts ids others hs name org user tenant pre post :
  (ts < 2 ^ 64)%N →
  NoDup ((to_ascii_lowercase ∘ fst) <$> ids) →
  Forall (λ h, is_identity_header h = true) ids →
  Forall (λ h, is_other_header h = true) others →
  (name, org) ∈ ids → eq_ignore_ascii_case name X_FG_ORG_ID = true →
  get_key org (KeyId.as_str key_id) = Ok (vk_of sk) →
  Id.new (KeyId.as_str key_id) = Ok user → Id.new org = Ok tenant →
  (ts ≤ now + max_drift mod 2 ^ 64)%N → (now ≤ ts + max_drift mod 2 ^ 64)%N →
  let signed := sign ed_sign sk key_id (canonical_payload trace ts ids) ts trace in
  hs ≡ₚ Client.protocol_headers b64_encode signed ++ ids ++ others →
  Forall (λ r, ∀ k t s tr h, can_resolve r (Credential.SignedRequest k t s tr h) = false) pre →
  ∃ c, extract_credential hs = Ok (Some c) ∧
    IdentityChain.resolve (pre ++ resolver :: post) c =
    Ok {| Identity.user_id := user; Identity.tenant_id := Some tenant; Identity.groups := [];
          Identity.expiry := None; Identity.resolver := "ed25519"; Identity.extra := None;
          Identity.principal_kind := PrincipalRef.Machine |}.
Proof.
  intros Hts Hnd Hids Hothers Hin Hn Hkey Huser Htenant Hd1 Hd2 signed Hhs Hpre.
  pose proof (request_identity_headers hs _ ids others Hhs Hids Hothers eq_refl) as Hperm.
  eexists. split; [exact (extract_signed b64_encode signed hs ids others Hts Hids Hothers Hhs)|].
  induction Hpre as [|r pre Hr _ IH]; simpl; [|by rewrite Hr].
  unfold verify_signed_request, key_id_header_value, trace_id_header_value.
  cbn [signed sign signed_key_id signed_timestamp signed_trace_id].
  rewrite (org_id_found _ name org) by (rewrite ?Hperm; done). cbn [mbind result_bind].
  rewrite Hkey. cbn [mbind result_bind].
  unfold signed. rewrite parse_signature_roundtrip. cbn [mbind result_bind].
  unfold verify. rewrite (PayloadFacts.canonical_payload_Permutation _ _ _ ids);
    [|rewrite Hperm|done].
  - rewrite verify_sign. cbn [mbind result_bind].
    rewrite (proj2 (check_timestamp_Ok ts)) by done. cbn [mbind result_bind].
    rewrite Huser. cbn [map_err mbind result_bind]. by rewrite Htenant.
  - apply (NoDup_fmap_1 to_ascii_lowercase). by rewrite <-list_fmap_compose.
Qed.

(** C25: the identity the Ed25519 resolver returns is the one the signature
    vouches for: it authenticates a credential exactly when it is a signed
    request, the key registered for the organization of the identity headers
    and the key id verifies the signature over the canonical payload of those
    same headers, the timestamp is within the drift, and the key id and
    organization are well formed; the identity is then that key in that
    organization, with no groups, as a machine. *)
Theorem ed25519_authenticates_iff c id :
  resolve_credential resolver c = Ok id ↔
  ∃ key_id ts sig trace headers org name key bytes user tenant,
    c = Credential.SignedRequest key_id ts sig trace headers ∧
    List.find (λ h, eq_ignore_ascii_case h.1 X_FG_ORG_ID) headers = Some (name, org) ∧
    get_key org key_id = Ok key ∧
    parse_signature_header b64_decode sig = Ok bytes ∧
    ed_verify key (canonical_payload trace ts headers) bytes = true ∧
    (ts ≤ now + max_drift mod 2 ^ 64)%N ∧ (now ≤ ts + max_drift mod 2 ^ 64)%N ∧
    Id.new key_id = Ok user ∧ Id.new org = Ok tenant ∧
    id = {| Identity.user_id := user; Identity.tenant_id := Some tenant; Identity.groups := [];
            Identity.expiry := None; Identity.resolver := "ed25519"; Identity.extra := None;
            Identity.principal_kind := PrincipalRef.Machine |}.
Proof.
  simpl. split.
  - destruct c as [|?|key_id ts sig trace headers]; [done..|]. unfold verify_signed_request.
    intros (org & Horg & (key & Hkey & (bytes & Hb & ([] & Hv & ([] & Ht &
      (user & Hu & (tenant & Htn & [= <-])%bind_Ok)%bind_Ok)%bind_Ok)%bind_Ok)%bind_Ok)%bind_Ok)%bind_Ok.
    unfold org_id in Horg. apply ok_or_Ok in Horg.
    apply fmap_Some in Horg as ([name org'] & Hf & ->). cbn [snd] in *.
    apply check_timestamp_Ok in Ht as [? ?]. apply map_err_Ok in Hu, Htn.
    unfold verify in Hv. destruct (ed_verify _ _ _) eqn:Hver; [|done].
    exists key_id, ts, sig, trace, headers, org', name, key, bytes, user, tenant.
    by split_and!.
  - intros (key_id & ts & sig & trace & headers & org & name & key & bytes & user & tenant & -> &
      Hf & Hkey & Hb & Hv & Ht1 & Ht2 & Hu & Htn & ->).
    unfold verify_signed_request, org_id. rewrite Hf.
    cbn [fmap option_fmap option_map snd ok_or mbind result_bind].
    rewrite Hkey. cbn [mbind result_bind]. rewrite Hb. cbn [mbind result_bind].
    unfold verify. rewrite Hv. cbn [mbind result_bind].
    rewrite (proj2 (check_timestamp_Ok ts)) by done. cbn [mbind result_bind].
    rewrite Hu. cbn [map_err mbind result_bind]. by rewrite Htn.
Qed.
End signed_requests.

(** * Extraction returns *)
Module ExtractFacts.
Import Extract.
Section preserved.
Context (p : ascii → bool).
Lemma str_all_rev_app s acc :
  str_all p (str_rev_app s acc) = str_all p s && str_all p acc.
Proof.
  revert acc. induction s as [|a s IH]; intros acc; simpl; [done|]. rewrite IH. simpl.
  by destruct (p a), (str_all p s).
Qed.
Lemma str_all_rev s : str_all p (str_rev s) = str_all p s.
Proof. unfold str_rev. rewrite str_all_rev_app. simpl. apply andb_true_r. Qed.
Lemma str_all_strip_any l s s' :
  strip_any l s = Some s' → str_all p s = true → str_all p s' = true.
Proof.
  intros Hs Hp. unfold strip_any in Hs. apply head_Some_elem_of in Hs.
  apply list_elem_of_omap in Hs as (w & _ & ->%strip_prefix_Some).
  rewrite str_all_app in Hp. by bool_prop.
Qed.
Lemma str_all_trim_start fuel l s :
  str_all p s = true → str_all p (trim_start_loop fuel l s) = true.
Proof.
  revert s. induction fuel as [|fuel IH]; intros s Hp; simpl; [done|].
  destruct (strip_any l s) as [s'|] eqn:Hs; [|done]. apply IH.
  by eapply str_all_strip_any.
Qed.
Lemma str_all_trim s : str_all p s = true → str_all p (trim s) = true.
Proof.
  intros Hp. unfold trim, trim_start_of. rewrite str_all_rev.
  apply str_all_trim_start. rewrite str_all_rev. by apply str_all_trim_start.
Qed.
Lemma str_all_drop n s : str_all p s = true → str_all p (str_drop n s) = true.
Proof.
  revert s. induction n as [|n IH]; intros [|a s] Hp; simpl in *; [done..|].
  bool_prop. by apply IH.
Qed.
End preserved.

Definition is_ascii (c : ascii) : bool := bool_decide (byte_val c < 128)%N.
(** Every position of an ASCII string is a character boundary. *)
Lemma ascii_char_boundary n s :
  n ≤ String.length s → str_all is_ascii s = true → is_char_boundary n s = true.
Proof.
  intros Hn Hs. unfold is_char_boundary. apply (str_all_drop is_ascii n) in Hs.
  destruct (str_drop n s) as [|c s']; [by apply bool_decide_eq_true|].
  simpl in Hs. unfold is_continuation, is_ascii in *. bool_prop.
  rewrite bool_decide_eq_false_2 by lia. done.
Qed.
Lemma bearer_token_total auth :
  str_all is_ascii auth = true → ∃ t, bearer_token auth = Ok t.
Proof.
  intros Ha. unfold bearer_token. case_bool_decide; [|eauto].
  rewrite ascii_char_boundary; [|lia|by apply str_all_trim]. cbn [negb].
  destruct (eq_ignore_ascii_case _ _); eauto.
Qed.
Lemma extract_total hs :
  (∀ auth, find_header hs "authorization" = Some auth → str_all is_ascii auth = true) →
  ∃ c, extract_credential hs = Ok c.
Proof.
  intros Hauth. unfold extract_credential.
  assert (∃ b, match find_header hs "authorization" with
               | Some auth => bearer_token auth | None => Ok None end = Ok b) as [b ->].
  { destruct (find_header hs "authorization") as [auth|]; [|eauto].
    by apply bearer_token_total, Hauth. }
  cbn [mbind result_bind]. destruct b; [eauto|]. destruct (_ ≫= _); eauto.
Qed.
End ExtractFacts.

(** extracting a credential returns, for every request whose
    [authorization] value is ASCII, the credential of the first kind present
    in the order bearer token, API key, signed request: a bearer token is
    taken before anything else, an API key only without one, and a signed
    request only without either. *)
Theorem extract_credential_returns hs :
  (∀ auth, Extract.find_header hs "authorization" = Some auth →
     str_all ExtractFacts.is_ascii auth = true) →
  ∃ c, Extract.extract_credential hs = Ok c ∧
    (∀ auth, Extract.find_header hs "authorization" = Some auth →
       eq_ignore_ascii_case (str_take 7 (trim auth)) "bearer " = true →
       7 < String.length (trim auth) → trim (str_drop 7 (trim auth)) ≠ EmptyString →
       c = Some (Credential.Bearer (trim (str_drop 7 (trim auth))))) ∧
    (Extract.find_header hs "authorization" = None → ∀ key,
       Extract.find_header hs "x-api-key" = Some key → trim key ≠ EmptyString →
       c = Some (Credential.ApiKey (trim key))) ∧
    (Extract.find_header hs "authorization" = None →
     Extract.find_header hs "x-api-key" = None → c = Extract.signed_request hs).
Proof.
  intros Hauth. unfold Extract.extract_credential.
  destruct (Extract.find_header hs "authorization") as [auth|] eqn:Ha.
  - unfold Extract.bearer_token. specialize (Hauth _ eq_refl).
    assert (∀ b : option string, ∃ c,
      (match b with
       | Some token => Ok (Some (Credential.Bearer token))
       | None =>
           match (key ← Extract.find_header hs "x-api-key";
                  if negb (is_empty (trim key)) then Some (trim key) else None) with
           | Some key => Ok (Some (Credential.ApiKey key))
           | None => Ok (Extract.signed_request hs)
           end
       end : result Empty_set _) = Ok c ∧
      (∀ t, b = Some t → c = Some (Credential.Bearer t))) as Hrest.
    { intros [t|]; [eexists; split; [done|naive_solver]|].
      destruct (Extract.find_header hs "x-api-key" ≫= _); eexists; (split; [done|naive_solver]). }
    case_bool_decide as Hlen; cbn [mbind result_bind].
    + rewrite ExtractFacts.ascii_char_boundary; [|lia|by apply ExtractFacts.str_all_trim].
      cbn [negb]. destruct (eq_ignore_ascii_case _ _) eqn:Heq; cbn [mbind result_bind].
      * destruct (Hrest (if negb (is_empty (trim (str_drop 7 (trim auth))))
                         then Some (trim (str_drop 7 (trim auth))) else None)) as (c & Hc & Hb).
        exists c. split; [exact Hc|]. split; [|by split].
        intros auth' [= <-] _ _ Hne. apply Hb. by rewrite (proj2 (is_empty_false _)).
      * destruct (Hrest None) as (c & Hc & _). exists c. split; [exact Hc|]. split; [intros ? [= <-]; congruence|by split].
    + destruct (Hrest None) as (c & Hc & _). exists c. split; [exact Hc|]. split; [by intros ? [= <-]|by split].
  - cbn [mbind result_bind]. destruct (Extract.find_header hs "x-api-key") as [key|] eqn:Hk;
      cbn [mbind option_bind].
    + destruct (is_empty (trim key)) eqn:He; cbn [negb].
      * eexists. split; [done|]. apply is_empty_true in He. naive_solver.
      * eexists. split; [done|]. naive_solver.
    + eexists. split; [done|]. naive_solver.
Qed.

(** an [authorization] value with a multi-byte character across its
    seventh byte makes the extraction panic. *)
Theorem extract_credential_panics :
  Extract.extract_credential [("authorization", "aaaaaa" +:+ bytes [195; 169; 97]%N)] =
  Stuck "byte index 7 is not a char boundary".
Proof. vm_compute. reflexivity. Qed.

(** * Samples *)
Module AuthnSample.
(** A toy signature scheme: the signature is the key and the message, cut and
    padded to 64 bytes; base64 is the identity. *)
Definition sample_sign (k m : string) : string := str_take 64 (k +:+ m +:+ zeros 64).
Definition sample_verify (k m s : string) : bool := bool_decide (s = sample_sign k m).
Definition sample_decode (s : string) : result string string := Ok s.
Definition sample_keys (org key_id : string) : result AuthnError.t string :=
  if bool_decide (org = "acme") && bool_decide (key_id = "key-1") then Ok "secret"
  else Err (AuthnError.InvalidCredential "unknown key").
Definition ids : list (string * string) := [("X-Fg-Org-Id", "acme"); ("x-fg-user-id", "ann")].
Definition others : list (string * string) := [("host", "api.example.com")].
Definition key : Signing.KeyId.t := Signing.KeyId.mk "key-1".
Definition signed : Signing.SignedPayload :=
  Signing.sign sample_sign "secret" key (Signing.canonical_payload "t-1" 1000000 ids) 1000000 "t-1".

Lemma str_take_length n s : n ≤ String.length s → String.length (str_take n s) = n.
Proof.
  revert s. induction n as [|n IH]; intros [|a s] Hn; simpl in *; [done|done|lia|].
  f_equal. apply IH. lia.
Qed.
Lemma sample_sign_length k m : String.length (sample_sign k m) = 64.
Proof.
  apply str_take_length. rewrite !str_app_length.
  assert (String.length (zeros 64) = 64) as -> by done. lia.
Qed.
End AuthnSample.

Lemma canonical_payload_binding_witness :
  Signing.canonical_payload "t-1" 5 [("b", "2"); ("a", "1")] =
  Signing.canonical_payload "t-1" 5 [("a", "1"); ("b", "2")].
Proof.
  apply (canonical_payload_binding "t-1" "t-1" 5 5 [("b", "2"); ("a", "1")] [("a", "1"); ("b", "2")]);
    [done|done|by_eval|by_eval|by_eval|]. split_and!; [done|done|]. apply perm_swap.
Defined.

Lemma signed_request_roundtrip_witness :
  ∃ c i, Extract.extract_credential
      (AuthnSample.ids ++ AuthnSample.others ++
       Client.protocol_headers id AuthnSample.signed) = Ok (Some c) ∧
    IdentityChain.resolve
      [StaticApiKey.resolver ∅;
       Signing.ed25519_resolver AuthnSample.sample_decode AuthnSample.sample_verify
         AuthnSample.sample_keys 1200000 Signing.DEFAULT_MAX_DRIFT] c = Ok i ∧
    Id.as_str (Identity.user_id i) = "key-1".
Proof.
  destruct (Id.new (k := UserIdK) "key-1") as [user| |] eqn:Hu; [|discriminate Hu..].
  destruct (Id.new (k := TenantIdK) "acme") as [tenant| |] eqn:Ht; [|discriminate Ht..].
  destruct (signed_request_roundtrip (λ k, k) id AuthnSample.sample_decode
    AuthnSample.sample_sign AuthnSample.sample_verify AuthnSample.sample_keys 1200000
    Signing.DEFAULT_MAX_DRIFT (λ s, eq_refl) AuthnSample.sample_sign_length
    (λ k m, bool_decide_eq_true_2 _ eq_refl) "secret" AuthnSample.key "t-1" 1000000
    AuthnSample.ids AuthnSample.others
    (AuthnSample.ids ++ AuthnSample.others ++ Client.protocol_headers id AuthnSample.signed)
    "X-Fg-Org-Id" "acme" user tenant [StaticApiKey.resolver ∅] []) as (c & Hc & Hid).
  - lia.
  - by_eval.
  - by_eval.
  - by_eval.
  - left.
  - by_eval.
  - by_eval.
  - exact Hu.
  - exact Ht.
  - by_eval.
  - by_eval.
  - rewrite app_assoc, (Permutation_app_comm _ (Client.protocol_headers _ _)). done.
  - repeat constructor.
  - exists c. eexists. split; [exact Hc|]. split; [exact Hid|]. cbn [Identity.user_id].
    injection Hu as <-. reflexivity.
Defined.

Lemma extract_credential_returns_witness :
  ∃ c, Extract.extract_credential [("Authorization", "Bearer abc"); ("x-api-key", "k")] = Ok c ∧
    c = Some (Credential.Bearer "abc").
Proof.
  destruct (extract_credential_returns [("Authorization", "Bearer abc"); ("x-api-key", "k")])
    as (c & Hc & Hb & _).
  - intros auth [= <-]. reflexivity.
  - exists c. split; [exact Hc|]. exact (Hb "Bearer abc" eq_refl eq_refl ltac:(vm_compute; lia) ltac:(vm_compute; discriminate)).
Defined.
