(* ===== verification/Jwt.v ===== *)
(** JWT identity resolution ([crates/authn]): the configuration ([config.rs]),
    the mapping of claims to an identity ([claims.rs]), the cache of the
    issuer's keys ([jwks.rs]) and the resolver ([resolver.rs]).  Requests share
    the cache and run concurrently, a step at a time between the points where
    the code waits; the theorems say which tokens become identities, and how
    old the key that vouched for one can be. *)

From stdpp Require Import pretty.
From S2P Require Import Prelude RustStr Decimal Ident Fgrn Event Action Authn.

(** * Errors and claims *)
Module JwtError.
Inductive t :=
| Core (e : AuthnError.t)
| JwksFetch (msg : string)
| KeyNotFound (kid : string)
| SignatureInvalid
| TokenDecode (msg : string).
(** The text of the errors of this crate. *)
Definition to_string (e : t) : string :=
  match e with
  | Core e => authn_error_str e
  | JwksFetch m => "JWKS fetch failed: " +:+ m
  | KeyNotFound kid => "key not found in JWKS: " +:+ kid
  | SignatureInvalid => "invalid JWT signature"
  | TokenDecode m => "token decode error: " +:+ m
  end.
End JwtError.

Record JwtClaims := {
  sub : string;
  iss : string;
  aud : option string;
  exp : N;
  iat : N;
  token_use : string;
  scope : option string;
  custom_claims : gmap string Json.t;
}.

(** [cache_ttl] in nanoseconds. *)
Record JwtResolverConfig := {
  jwks_url : string;
  issuer : string;
  audience : option string;
  user_id_claim : string;
  cache_ttl : N;
}.
Definition config_new (jwks_url issuer : string) : JwtResolverConfig :=
  {| jwks_url := jwks_url; issuer := issuer; audience := None; user_id_claim := "sub";
     cache_ttl := 3600 * 10 ^ 9 |}.
Definition with_audience (a : string) (c : JwtResolverConfig) : JwtResolverConfig :=
  {| jwks_url := jwks_url c; issuer := issuer c; audience := Some a;
     user_id_claim := user_id_claim c; cache_ttl := cache_ttl c |}.
Definition with_user_id_claim (u : string) (c : JwtResolverConfig) : JwtResolverConfig :=
  {| jwks_url := jwks_url c; issuer := issuer c; audience := audience c; user_id_claim := u;
     cache_ttl := cache_ttl c |}.
Definition with_cache_ttl (t : N) (c : JwtResolverConfig) : JwtResolverConfig :=
  {| jwks_url := jwks_url c; issuer := issuer c; audience := audience c;
     user_id_claim := user_id_claim c; cache_ttl := t |}.

(** * Libraries *)
(** [Validation::new(RS256)] with what the code sets. *)
Record Validation := { issuers : list string; audiences : option (list string) }.
Inductive DecodeError :=
| InvalidSignature | ExpiredSignature | InvalidIssuer | InvalidAudience | OtherError (msg : string).
(** The [jsonwebtoken] crate, timestamps of [chrono], [serde_json] values. *)
Class JwtLib := {
  DecodingKey : Type;
  decode_header : string → result string (option string);
  from_rsa_components : string → string → result string DecodingKey;
  decode : N → string → DecodingKey → Validation → result DecodeError JwtClaims;
  from_timestamp : Z → option Z;
  claims_value : gmap string Json.t → option Json.t;
}.

(** * From claims to an identity *)
Section claims.
Context `{JwtLib}.
(** [exp as i64]. *)
Definition as_i64 (n : N) : Z :=
  let z := (Z.of_N n mod 2 ^ 64)%Z in if bool_decide (z < 2 ^ 63)%Z then z else (z - 2 ^ 64)%Z.
Definition extract_user_id (claims : JwtClaims) (config : JwtResolverConfig) : result JwtError.t UserId :=
  let claim_name := user_id_claim config in
  raw ← (if bool_decide (claim_name = "sub") then Ok (sub claims)
         else match custom_claims claims !! claim_name with
              | Some (Json.String s) => Ok s
              | _ => Err (JwtError.Core (AuthnError.MissingClaim claim_name))
              end);
  map_err (λ e, JwtError.Core (AuthnError.MalformedToken ("invalid user_id: " +:+ core_error_str e)))
    (Id.new raw).
Definition build_extra (claims : JwtClaims) : option Json.t :=
  if bool_decide (custom_claims claims = ∅) then None else claims_value (custom_claims claims).
Definition map_claims (claims : JwtClaims) (config : JwtResolverConfig) : result JwtError.t Identity.t :=
  user_id ← extract_user_id claims config;
  expiry ← ok_or (from_timestamp (as_i64 (exp claims)))
    (JwtError.Core (AuthnError.MalformedToken ("invalid exp timestamp: " +:+ pretty (exp claims))));
  Ok {| Identity.user_id := user_id; Identity.tenant_id := None; Identity.groups := [];
        Identity.expiry := Some expiry; Identity.resolver := "cognito_jwt";
        Identity.extra := build_extra claims; Identity.principal_kind := PrincipalRef.User |}.

(** ** Decoding *)
Definition validation_of (config : JwtResolverConfig) : Validation :=
  {| issuers := [issuer config]; audiences := (λ a, [a]) <$> audience config |}.
Definition decode_error (config : JwtResolverConfig) (e : DecodeError) : JwtError.t :=
  match e with
  | InvalidSignature => JwtError.SignatureInvalid
  | ExpiredSignature => JwtError.Core AuthnError.TokenExpired
  | InvalidIssuer => JwtError.Core (AuthnError.InvalidIssuer (issuer config) "unknown")
  | InvalidAudience => JwtError.Core AuthnError.InvalidAudience
  | OtherError m => JwtError.TokenDecode m
  end.
Definition decode_token (now : N) (token : string) (key : DecodingKey) (config : JwtResolverConfig)
    : result JwtError.t JwtClaims :=
  map_err (decode_error config) (decode now token key (validation_of config)).
End claims.

(** * The key cache *)
Module JwksCache.
Record Jwk := { kty : string; kid : option string; n : option string; e : option string }.
Record CachedJwk := { c_n : string; c_e : string }.
Record t := { cache : gmap string CachedJwk; last_fetch : option N }.
Definition new : t := {| cache := ∅; last_fetch := None |}.
Section cache.
Context `{JwtLib} (config : JwtResolverConfig).
Definition is_expired (now : N) (c : t) : bool :=
  match last_fetch c with
  | Some instant => bool_decide (cache_ttl config < now - instant)%N
  | None => true
  end.
Definition insert_key (m : gmap string CachedJwk) (k : Jwk) : gmap string CachedJwk :=
  if bool_decide (kty k = "RSA") then
    match kid k, n k, e k with
    | Some kid, Some n, Some e => <[kid := {| c_n := n; c_e := e |}]> m
    | _, _, _ => m
    end
  else m.
(** A response replaces the keys. *)
Definition store (now : N) (keys : list Jwk) : t :=
  {| cache := foldl insert_key ∅ keys; last_fetch := Some now |}.
Definition decoding_key (k : CachedJwk) : result JwtError.t DecodingKey :=
  map_err (λ e, JwtError.TokenDecode ("failed to build decoding key: " +:+ e))
    (from_rsa_components (c_n k) (c_e k)).
End cache.
End JwksCache.

(** * The resolver *)
Module CognitoJwtResolver.
Section resolver.
Context `{JwtLib} (config : JwtResolverConfig).
(** Where [get_key] waits: before the test of the TTL, before reading the
    cache, for the endpoint, for the write lock, before reading again. *)
Inductive progress :=
| Checking | Reading | Fetching | Storing (keys : list JwksCache.Jwk) | Rereading
| Resolved (r : result JwtError.t Identity.t).
Definition can_resolve (c : Credential.t) : bool :=
  match c with Credential.Bearer _ => true | _ => false end.

Definition finish (now : N) (token : string) (key : result JwtError.t DecodingKey)
    : result JwtError.t Identity.t :=
  key ← key;
  claims ← decode_token now token key config;
  map_claims claims config.
(** [verify_token] up to its first wait, with the [kid] it looks for. *)
Definition start (token : string) : result JwtError.t string :=
  header ← map_err (λ e, JwtError.TokenDecode ("invalid JWT header: " +:+ e)) (decode_header token);
  ok_or header (JwtError.TokenDecode "JWT header missing 'kid' field").
Definition check (now : N) (c : JwksCache.t) : progress :=
  if JwksCache.is_expired config now c then Fetching else Reading.
Definition read (now : N) (token kid : string) (c : JwksCache.t) : progress :=
  match JwksCache.cache c !! kid with
  | Some jwk => Resolved (finish now token (JwksCache.decoding_key jwk))
  | None => Fetching
  end.
(** [Err]: sending or parsing failed. *)
Definition respond (reply : result string (list JwksCache.Jwk)) : progress :=
  match reply with
  | Ok keys => Storing keys
  | Err e => Resolved (Err (JwtError.JwksFetch e))
  | Stuck w => Resolved (Stuck w)
  end.
Definition reread (now : N) (token kid : string) (c : JwksCache.t) : progress :=
  Resolved (match JwksCache.cache c !! kid with
            | Some jwk => finish now token (JwksCache.decoding_key jwk)
            | None => Err (JwtError.KeyNotFound kid)
            end).
(** The trait's error. *)
Definition resolve_error (e : JwtError.t) : AuthnError.t :=
  match e with
  | JwtError.Core e => e
  | e => AuthnError.MalformedToken (JwtError.to_string e)
  end.
Definition not_bearer (c : Credential.t) : AuthnError.t :=
  AuthnError.InvalidCredential ("expected Bearer credential, got " +:+ Credential.type_name c).
End resolver.
End CognitoJwtResolver.

(** * Concurrent requests *)
Module JwtRun.
Import CognitoJwtResolver.
Section world.
Context `{JwtLib} (config : JwtResolverConfig).
(** A request past its header: its token, the key it looks for, when it began.
    One clock, in nanoseconds, stands for the [Instant]s and the system time. *)
Record Request := { token : string; key_id : string; started : N; state : progress }.
(** [received]: the endpoint's responses, by when they were stored. *)
Record World := {
  clock : N;
  keys : JwksCache.t;
  requests : list Request;
  received : list (N * list JwksCache.Jwk);
}.
Definition fresh_world (now : N) : World :=
  {| clock := now; keys := JwksCache.new; requests := []; received := [] |}.
Inductive event :=
| Tick (d : N) | Start (token : string) | Run (i : nat)
| Reply (i : nat) (reply : result string (list JwksCache.Jwk)).

Definition go (r : Request) (p : progress) : Request :=
  {| token := token r; key_id := key_id r; started := started r; state := p |}.
Definition set_request (w : World) (i : nat) (r : Request) (p : progress) : World :=
  {| clock := clock w; keys := keys w; requests := <[i := go r p]> (requests w);
     received := received w |}.
(** One step of a request, which may store a response. *)
Definition run_request (w : World) (i : nat) (r : Request) : option World :=
  match state r with
  | Checking => Some (set_request w i r (check config (clock w) (keys w)))
  | Reading => Some (set_request w i r (read config (clock w) (token r) (key_id r) (keys w)))
  | Storing ks =>
      Some {| clock := clock w; keys := JwksCache.store (clock w) ks;
              requests := <[i := go r Rereading]> (requests w);
              received := received w ++ [(clock w, ks)] |}
  | Rereading => Some (set_request w i r (reread config (clock w) (token r) (key_id r) (keys w)))
  | Fetching | Resolved _ => None
  end.
Definition next (w : World) (ev : event) : option World :=
  match ev with
  | Tick d => Some {| clock := clock w + d; keys := keys w; requests := requests w;
                      received := received w |}
  | Start t =>
      match CognitoJwtResolver.start t with
      | Ok kid => Some {| clock := clock w; keys := keys w;
                          requests := requests w ++
                            [{| token := t; key_id := kid; started := clock w; state := Checking |}];
                          received := received w |}
      | _ => None
      end
  | Run i => r ← requests w !! i; run_request w i r
  | Reply i reply =>
      r ← requests w !! i;
      match state r with
      | Fetching => Some (set_request w i r (respond reply))
      | _ => None
      end
  end.
Definition reachable (now : N) : World → Prop :=
  rtc (λ w w', ∃ ev, next w ev = Some w') (fresh_world now).
Fixpoint run_all (w : World) (evs : list event) : option World :=
  match evs with [] => Some w | ev :: evs => w ← next w ev; run_all w evs end.
End world.
End JwtRun.

(** Documented behaviour of [decode]: the token's claims under a valid RS256
    signature by the key, from one of the issuers, for one of the audiences
    when it names one, and at most a minute expired. *)
Class JwtLaws `{JwtLib} := {
  vouches : DecodingKey → string → JwtClaims → Prop;
  decode_sound now token key v claims :
    decode now token key v = Ok claims →
    vouches key token claims ∧ iss claims ∈ issuers v ∧
    (∀ l a, audiences v = Some l → aud claims = Some a → a ∈ l) ∧
    (now `div` 10 ^ 9 ≤ exp claims + 60)%N;
}.

Module JwtFacts.
Import CognitoJwtResolver JwtRun.
Section facts.
Context `{JwtLib} (config : JwtResolverConfig).
Implicit Types (w : World) (r : Request) (ks : list JwksCache.Jwk).

(** The keys of a response, by id: of several the last. *)
Definition offers (k : JwksCache.Jwk) (kid : string) (c : JwksCache.CachedJwk) : Prop :=
  JwksCache.kty k = "RSA" ∧ JwksCache.kid k = Some kid ∧
  JwksCache.n k = Some (JwksCache.c_n c) ∧ JwksCache.e k = Some (JwksCache.c_e c).
Lemma store_offers now ks kid c : JwksCache.cache (JwksCache.store now ks) !! kid = Some c →
  ∃ k, k ∈ ks ∧ offers k kid c.
Proof.
  cbn [JwksCache.store JwksCache.cache].
  assert (∀ m, foldl JwksCache.insert_key m ks !! kid = Some c →
    m !! kid = Some c ∨ ∃ k, k ∈ ks ∧ offers k kid c) as Hgo.
  { induction ks as [|k ks IH]; intros m; simpl; [by left|]. intros [Hm|(k' & Hk & Ho)]%IH.
    - unfold JwksCache.insert_key in Hm. case_bool_decide as Hty; [|by left].
      destruct (JwksCache.kid k) as [kid'|] eqn:Hkid, (JwksCache.n k) as [n|] eqn:Hn,
        (JwksCache.e k) as [e|] eqn:He; try by left.
      apply lookup_insert_Some in Hm as [[-> <-]|[_ Hm]]; [|by left].
      right. exists k. split; [left|]. by split_and!.
    - right. exists k'. split; [by right|done]. }
  intros [Hm|?]%Hgo; [|done]. by rewrite lookup_empty in Hm.
Qed.

(** What vouches for a resolved identity. *)
Definition vouched w r (id : Identity.t) : Prop :=
  ∃ stored ks c key claims t, (stored, ks) ∈ received w ∧ (started r ≤ stored + cache_ttl config)%N ∧
    JwksCache.cache (JwksCache.store stored ks) !! key_id r = Some c ∧
    JwksCache.decoding_key c = Ok key ∧ (started r ≤ t ≤ clock w)%N ∧
    decode_token t (token r) key config = Ok claims ∧ map_claims claims config = Ok id.
(** The last response was stored late enough for the request. *)
Definition fresh_for w r : Prop :=
  ∃ stored ks, last (received w) = Some (stored, ks) ∧ (started r ≤ stored + cache_ttl config)%N.
Definition request_ok w r : Prop :=
  CognitoJwtResolver.start (token r) = Ok (key_id r) ∧ (started r ≤ clock w)%N ∧
  match state r with
  | Reading | Rereading => fresh_for w r
  | Resolved (Ok id) => vouched w r id
  | _ => True
  end.
Record jwt_ok w : Prop := {
  jo_keys : keys w = match last (received w) with
                     | Some (t, ks) => JwksCache.store t ks
                     | None => JwksCache.new
                     end;
  jo_requests : Forall (request_ok w) (requests w);
}.

(** A world that differs from [w] by time and stored responses. *)
Definition later w w' : Prop :=
  (clock w ≤ clock w')%N ∧
  (received w' = received w ∨ ∃ ks, received w' = received w ++ [(clock w, ks)] ∧ clock w' = clock w).
Lemma later_ok w w' r : later w w' → request_ok w r → request_ok w' r.
Proof.
  intros [Hc Hr] (Hst & Hs & Hp). split; [done|]. split; [lia|].
  destruct (state r) as [| | | | |[id| |]]; try done.
  1, 2: destruct Hp as (t & ks & Hl & Ht); destruct Hr as [Hr|(ks' & Hr & _)];
    [exists t, ks; by rewrite Hr|exists (clock w), ks'; rewrite Hr, last_snoc; split; [done|lia]].
  destruct Hp as (t & ks & c & key & claims & t' & Hin & ? & ? & ? & ? & ? & ?).
  exists t, ks, c, key, claims, t'. split_and!; try done; [|lia..].
  destruct Hr as [->|(ks' & -> & _)]; set_solver.
Qed.
Lemma finish_vouched w r c : jwt_ok w → fresh_for w r → (started r ≤ clock w)%N →
  JwksCache.cache (keys w) !! key_id r = Some c →
  ∀ id, finish config (clock w) (token r) (JwksCache.decoding_key c) = Ok id → vouched w r id.
Proof.
  intros Hw (t & ks & Hl & Ht) Hs Hc id. unfold finish.
  intros (key & Hkey & (claims & Hcl & Hid)%bind_Ok)%bind_Ok.
  rewrite (jo_keys _ Hw), Hl in Hc. exists t, ks, c, key, claims, (clock w).
  split_and!; try done. by apply last_Some_elem_of.
Qed.
Lemma set_ok w w' i r p : jwt_ok w → later w w' →
  keys w' = match last (received w') with
            | Some (t, ks) => JwksCache.store t ks
            | None => JwksCache.new
            end →
  requests w !! i = Some r → requests w' = <[i := go r p]> (requests w) →
  request_ok w' (go r p) → jwt_ok w'.
Proof.
  intros Hw Hl Hk Hi Hr Hp. split; [done|]. rewrite Hr. apply Forall_insert; [|done].
  eapply Forall_impl; [apply (jo_requests _ Hw)|]. intros r' Hr'. by eapply later_ok.
Qed.
Lemma later_refl w i r p : later w (set_request w i r p).
Proof. split; simpl; [lia|by left]. Qed.
Lemma next_ok w w' ev : jwt_ok w → next config w ev = Some w' → jwt_ok w'.
Proof.
  intros Hw Hn. destruct ev as [d|t|i|i reply]; simpl in Hn.
  - injection Hn as <-. split; [apply Hw|]. eapply Forall_impl; [apply Hw|].
    intros r. apply later_ok. split; simpl; [lia|by left].
  - destruct (CognitoJwtResolver.start t) as [kid| |] eqn:Hst; [|done..]. injection Hn as <-.
    split; [apply Hw|]. simpl. apply Forall_app. split.
    + eapply Forall_impl; [apply Hw|]. intros r. apply later_ok. split; simpl; [lia|by left].
    + apply Forall_singleton. split_and!; simpl; [done|lia|done].
  - apply bind_Some in Hn as (r & Hi & Hn).
    pose proof (Forall_lookup_1 _ _ _ _ (jo_requests _ Hw) Hi) as (Hst & Hs & Hp).
    assert (∀ p, match p with
                 | Reading | Rereading => fresh_for w r
                 | Resolved (Ok id) => vouched w r id
                 | _ => True
                 end → jwt_ok (set_request w i r p)) as Hset.
    { intros p Hok. eapply (set_ok w); [done|apply later_refl|apply Hw|done|done|]. by split_and!. }
    unfold run_request in Hn. destruct (state r) as [| | |ks| |]; try done; injection Hn as <-.
    + apply Hset. unfold check. destruct (JwksCache.is_expired _ _ _) eqn:He; [done|].
      unfold JwksCache.is_expired in He. rewrite (jo_keys _ Hw) in He. unfold fresh_for.
      destruct (last (received w)) as [[t ks]|]; [|done]. simpl in He. bool_prop.
      exists t, ks. split; [done|lia].
    + apply Hset. unfold read. destruct (JwksCache.cache _ !! _) as [c|] eqn:Hc; [|done].
      destruct (finish _ _ _ _) as [id| |] eqn:Hf; [|done..]. by eapply finish_vouched.
    + eapply (set_ok w); [done|split; simpl; [lia|right; by exists ks]|simpl; by rewrite last_snoc|done|done|].
      split_and!; simpl; [done|done|]. exists (clock w), ks. simpl. rewrite last_snoc. split; [done|lia].
    + apply Hset. unfold reread. destruct (JwksCache.cache _ !! _) as [c|] eqn:Hc; [|done].
      destruct (finish _ _ _ _) as [id| |] eqn:Hf; [|done..]. by eapply finish_vouched.
  - apply bind_Some in Hn as (r & Hi & Hn).
    pose proof (Forall_lookup_1 _ _ _ _ (jo_requests _ Hw) Hi) as (Hst & Hs & _).
    destruct (state r); try done. injection Hn as <-.
    eapply (set_ok w); [done|apply later_refl|apply Hw|done|done|].
    split_and!; [done|done|]. by destruct reply.
Qed.
Lemma reachable_ok now w : reachable config now w → jwt_ok w.
Proof.
  unfold reachable. intros Hr. apply rtc_ind_r with (P := jwt_ok) in Hr; [done|by split|].
  intros w1 w2 _ [ev Hn] Hok. by eapply next_ok.
Qed.

(** ** A request on its own *)
(** The cached key while fresh. *)
Definition cached w kid : option JwksCache.CachedJwk :=
  if JwksCache.is_expired config (clock w) (keys w) then None else JwksCache.cache (keys w) !! kid.
(** The steps of the request that starts now, when the endpoint answers [ks]. *)
Definition steps w t kid ks : list event :=
  let i := length (requests w) in
  [Start t; Run i] ++ (if JwksCache.is_expired config (clock w) (keys w) then [] else [Run i]) ++
  match cached w kid with Some _ => [] | None => [Reply i (Ok ks); Run i; Run i] end.
(** What it returns: by the cached key, or else the endpoint's. *)
Definition answer w (t kid : string) ks : result JwtError.t Identity.t :=
  match (match cached w kid with
         | Some c => Some c
         | None => JwksCache.cache (JwksCache.store (clock w) ks) !! kid
         end) with
  | Some c => finish config (clock w) t (JwksCache.decoding_key c)
  | None => Err (JwtError.KeyNotFound kid)
  end.

(** A world whose last request is [r]. *)
Section alone.
Context (c : N) (rs : list Request).
Implicit Types (k : JwksCache.t) (rc : list (N * list JwksCache.Jwk)).
Definition with_last k rc r : World :=
  {| clock := c; keys := k; requests := rs ++ [r]; received := rc |}.
Lemma last_lookup r : (rs ++ [r]) !! length rs = Some r.
Proof. by rewrite lookup_app_r, Nat.sub_diag by lia. Qed.
Lemma last_insert r r' : <[length rs := r']> (rs ++ [r]) = rs ++ [r'].
Proof. by rewrite insert_app_r_alt, Nat.sub_diag by lia. Qed.
Ltac run_last Hp :=
  unfold next, with_last; cbn [requests]; rewrite last_lookup; cbn [mbind option_bind];
  unfold run_request; rewrite Hp; unfold set_request; simpl; by rewrite last_insert.
Lemma run_checking k rc r : state r = Checking → next config (with_last k rc r) (Run (length rs)) =
  Some (with_last k rc (go r (check config c k))).
Proof. intros Hp. run_last Hp. Qed.
Lemma run_reading k rc r : state r = Reading → next config (with_last k rc r) (Run (length rs)) =
  Some (with_last k rc (go r (read config c (token r) (key_id r) k))).
Proof. intros Hp. run_last Hp. Qed.
Lemma run_reply k rc r ks : state r = Fetching →
  next config (with_last k rc r) (Reply (length rs) (Ok ks)) = Some (with_last k rc (go r (Storing ks))).
Proof. intros Hp. run_last Hp. Qed.
Lemma run_storing k rc r ks : state r = Storing ks → next config (with_last k rc r) (Run (length rs)) =
  Some (with_last (JwksCache.store c ks) (rc ++ [(c, ks)]) (go r Rereading)).
Proof. intros Hp. run_last Hp. Qed.
Lemma run_rereading k rc r : state r = Rereading → next config (with_last k rc r) (Run (length rs)) =
  Some (with_last k rc (go r (reread config c (token r) (key_id r) k))).
Proof. intros Hp. run_last Hp. Qed.
(** From the endpoint's reply to the end. *)
Lemma run_fetching k rc r ks : state r = Fetching →
  run_all config (with_last k rc r) [Reply (length rs) (Ok ks); Run (length rs); Run (length rs)] =
  Some (with_last (JwksCache.store c ks) (rc ++ [(c, ks)])
    (go r (reread config c (token r) (key_id r) (JwksCache.store c ks)))).
Proof.
  intros Hp. cbn [run_all]. rewrite run_reply by done. cbn [mbind option_bind].
  rewrite (run_storing _ _ _ ks) by done. cbn [mbind option_bind].
  by rewrite run_rereading by done.
Qed.
End alone.
Lemma run_all_app w evs1 evs2 :
  run_all config w (evs1 ++ evs2) = (w ← run_all config w evs1; run_all config w evs2).
Proof.
  revert w. induction evs1 as [|ev evs1 IH]; intros w; simpl; [done|].
  destruct (next config w ev); simpl; [apply IH|done].
Qed.
Lemma request_alone w t kid ks : CognitoJwtResolver.start t = Ok kid →
  ∃ w', run_all config w (steps w t kid ks) = Some w' ∧ clock w' = clock w ∧
    received w' = received w ++ match cached w kid with Some _ => [] | None => [(clock w, ks)] end ∧
    requests w' = requests w ++ [{| token := t; key_id := kid; started := clock w;
                                    state := Resolved (answer w t kid ks) |}].
Proof.
  intros Hst. unfold answer, steps, cached. set (i := length (requests w)).
  set (r := {| token := t; key_id := kid; started := clock w; state := Checking |}).
  assert (run_all config w [Start t; Run i] = Some (with_last (clock w) (requests w) (keys w) (received w)
    (go r (check config (clock w) (keys w))))) as Hstart.
  { cbn [run_all]. assert (next config w (Start t) =
      Some (with_last (clock w) (requests w) (keys w) (received w) r)) as -> by (simpl; by rewrite Hst).
    cbn [mbind option_bind]. unfold i. by rewrite run_checking. }
  rewrite run_all_app, Hstart. cbn [mbind option_bind]. unfold check.
  destruct (JwksCache.is_expired _ _ _); cbn [app].
  - unfold i. rewrite run_fetching by done. eexists. by split_and!.
  - change ([Run i] ++ ?l) with (Run i :: l). cbn [run_all]. unfold i. rewrite run_reading by done.
    cbn [mbind option_bind]. unfold read. cbn [key_id go r].
    destruct (JwksCache.cache (keys w) !! kid) as [ck|] eqn:Hk.
    + eexists. split_and!; [done..| |done]. by rewrite app_nil_r.
    + rewrite run_fetching by done. eexists. by split_and!.
Qed.
Lemma map_claims_ok claims id : map_claims claims config = Ok id →
  Identity.tenant_id id = None ∧ Identity.groups id = [] ∧
  Identity.principal_kind id = PrincipalRef.User ∧
  Identity.expiry id = from_timestamp (as_i64 (exp claims)) ∧
  ∃ raw, Id.new raw = Ok (Identity.user_id id) ∧
    (if decide (user_id_claim config = "sub") then raw = sub claims
     else custom_claims claims !! user_id_claim config = Some (Json.String raw)).
Proof.
  unfold map_claims, extract_user_id. intros (u & (raw & Hraw & Hu)%bind_Ok & (ts & Hts & Hid)%bind_Ok)%bind_Ok.
  apply map_err_Ok in Hu. apply ok_or_Ok in Hts. injection Hid as <-. simpl. split_and!; try done.
  exists raw. split; [done|]. destruct (decide _) as [Hd|Hd].
  - rewrite bool_decide_eq_true_2 in Hraw by done. by injection Hraw as ->.
  - rewrite bool_decide_eq_false_2 in Hraw by done. by destruct (_ !! _) as [[]|]; simplify_eq.
Qed.
Lemma decode_token_ok `{!JwtLaws} now t key claims : decode_token now t key config = Ok claims →
  vouches key t claims ∧ iss claims = issuer config ∧
  (∀ a a', audience config = Some a → aud claims = Some a' → a' = a) ∧
  (now `div` 10 ^ 9 ≤ exp claims + 60)%N.
Proof.
  unfold decode_token. intros (Hv & Hi & Ha & He)%map_err_Ok%decode_sound.
  apply list_elem_of_singleton in Hi. split_and!; try done. intros a a' Hc Haud.
  specialize (Ha [a] a'). simpl in Ha. rewrite Hc in Ha.
  by apply list_elem_of_singleton, Ha.
Qed.
End facts.
End JwtFacts.
Import CognitoJwtResolver JwtRun JwtFacts.

(** * A sample library *)
(** Tokens are [k1]'s, or expire at the first second past the epoch. *)
Module JwtSample.
Definition claims (e : N) : JwtClaims :=
  {| sub := "user-1"; iss := "https://idp"; aud := None; exp := e; iat := 0; token_use := "access";
     scope := None; custom_claims := ∅ |}.
#[local] Instance lib : JwtLib := {|
  DecodingKey := string;
  decode_header t := if bool_decide (t = "junk") then Err "junk" else Ok (Some "k1");
  from_rsa_components n e := Ok n;
  decode now t key v :=
    if bool_decide (key = "n1" ∧ issuers v = ["https://idp"]) then
      let e := if bool_decide (t = "old") then 1%N else 10000%N in
      if bool_decide (e + 60 < now `div` 10 ^ 9)%N then Err ExpiredSignature else Ok (claims e)
    else Err InvalidSignature;
  from_timestamp z := Some z;
  claims_value _ := None;
|}.
Definition has_claims (key t : string) (c : JwtClaims) : Prop :=
  key = "n1" ∧ c = claims (if bool_decide (t = "old") then 1 else 10000).
#[local] Instance laws : JwtLaws.
Proof.
  apply (Build_JwtLaws lib has_claims). intros now t key v c. simpl.
  case_bool_decide as Hv; [|done]. destruct Hv as [-> Hi].
  unfold has_claims. generalize (if bool_decide (t = "old") then 1%N else 10000%N). intros e.
  case_bool_decide as He; [done|]. injection 1 as <-. cbn [iss aud exp claims]. rewrite Hi.
  split_and!; [done..|left|done|lia].
Defined.
Definition config : JwtResolverConfig := config_new "https://idp/jwks" "https://idp".
Definition jwk : JwksCache.Jwk :=
  {| JwksCache.kty := "RSA"; JwksCache.kid := Some "k1"; JwksCache.n := Some "n1"; JwksCache.e := Some "AQAB" |}.
(** Two requests at once, the second with the key the first fetched. *)
Definition trace : list event :=
  [Start "a"; Start "b"; Run 0; Reply 0 (Ok [jwk]); Run 0; Tick 5; Run 1; Run 1; Run 0].
Definition run := run_all config (fresh_world 0) trace.
Definition end_world : World := default (fresh_world 0) run.
Lemma jwt_run_reachable w evs w' : run_all config w evs = Some w' →
  rtc (λ w w', ∃ ev, next config w ev = Some w') w w'.
Proof.
  revert w. induction evs as [|ev evs IH]; intros w; simpl; [by intros [= ->]|].
  intros (w1 & Hn & Hr)%bind_Some. eapply rtc_l; [by exists ev|by apply IH].
Qed.
Lemma end_reachable : reachable config 0 end_world.
Proof. apply (jwt_run_reachable _ trace). vm_compute. reflexivity. Qed.
End JwtSample.

(** C8: Whatever the requests running at once, the replies of the endpoint and the
    passing of time: an identity the resolver returned is that of a token which
    a key vouched for after the request began, while at most a minute expired;
    the issuer published that key, under the id in the token's header, in a
    response stored no longer than the cache's TTL before the request began
    (or after it began); the token names the configured issuer, and the
    configured audience if it names one.  The identity has the user of the
    configured claim and the token's expiry, and neither tenant nor groups. *)
Theorem jwt_identities_vouched `{JwtLaws} config now w i r id :
  reachable config now w → requests w !! i = Some r → state r = Resolved (Ok id) →
  ∃ stored ks k c key claims t,
    (stored, ks) ∈ received w ∧ k ∈ ks ∧ offers k (key_id r) c ∧
    JwksCache.decoding_key c = Ok key ∧ vouches key (token r) claims ∧
    decode_header (token r) = Ok (Some (key_id r)) ∧
    (started r ≤ stored + cache_ttl config ∧ started r ≤ t ≤ clock w ∧
     t `div` 10 ^ 9 ≤ exp claims + 60)%N ∧
    iss claims = issuer config ∧
    (∀ a a', audience config = Some a → aud claims = Some a' → a' = a) ∧
    Identity.tenant_id id = None ∧ Identity.groups id = [] ∧
    Identity.expiry id = from_timestamp (as_i64 (exp claims)) ∧
    ∃ raw, Id.new raw = Ok (Identity.user_id id) ∧
      (if decide (user_id_claim config = "sub") then raw = sub claims
       else custom_claims claims !! user_id_claim config = Some (Json.String raw)).
Proof.
  intros Hw%reachable_ok Hi Hr. pose proof (Forall_lookup_1 _ _ _ _ (jo_requests _ _ Hw) Hi) as (Hs & _ & Hv).
  rewrite Hr in Hv. destruct Hv as (stored & ks & c & key & claims & t & Hin & Hst & Hc & Hk & Ht & Hd & Hm).
  apply store_offers in Hc as (k & Hkin & Ho). destruct (decode_token_ok _ _ _ _ _ Hd) as (? & ? & ? & ?).
  apply map_claims_ok in Hm as (? & ? & _ & ? & ?). exists stored, ks, k, c, key, claims, t.
  split_and!; try done; [|lia..]. revert Hs. unfold CognitoJwtResolver.start.
  intros (h & Hh%map_err_Ok & Hkid%ok_or_Ok)%bind_Ok. by rewrite Hh, Hkid.
Qed.

Lemma jwt_identities_vouched_witness : ∃ r id,
  requests JwtSample.end_world !! 1 = Some r ∧ state r = Resolved (Ok id) ∧
  ∃ stored ks, (stored, ks) ∈ received JwtSample.end_world ∧ Identity.groups id = [].
Proof.
  destruct (requests JwtSample.end_world !! 1) as [r|] eqn:Hr; [|discriminate].
  destruct (state r) as [| | | | |[id| |]] eqn:Hs;
    (try by exfalso; revert Hr Hs; vm_compute; intros [= <-]).
  exists r, id. destruct (jwt_identities_vouched (H0:=JwtSample.laws) JwtSample.config 0
    JwtSample.end_world 1 r id JwtSample.end_reachable Hr Hs)
    as (stored & ks & _ & _ & _ & _ & _ & ? & _ & _ & _ & _ & _ & _ & _ & _ & _ & Hg & _).
  repeat split; try done. by exists stored, ks.
Defined.

(** A request that runs while no other does ends within six steps: of them at
    most one asks the endpoint, and that only when the cache is older than its
    TTL or lacks the key.  It decodes the token with the cached key while that
    is fresh, else with the key of that id that the endpoint returned last, and
    returns what the claims map to, or the error of the first of these that
    failed ([KeyNotFound] when neither has the key); other requests' results
    stay. *)
Theorem jwt_resolution_exact `{JwtLib} config w t kid ks :
  decode_header t = Ok (Some kid) →
  let i := length (requests w) in
  let stale := JwksCache.is_expired config (clock w) (keys w) in
  let fresh_key := if stale then None else JwksCache.cache (keys w) !! kid in
  let fetches := bool_decide (fresh_key = None) in
  ∃ w', run_all config w ([Start t; Run i] ++ (if stale then [] else [Run i]) ++
      (if fetches then [Reply i (Ok ks); Run i; Run i] else [])) = Some w' ∧
    received w' = received w ++ (if fetches then [(clock w, ks)] else []) ∧
    take i (requests w') = requests w ∧
    (λ r, (token r, state r)) <$> requests w' !! i = Some (t, Resolved
      (match (if fetches then JwksCache.cache (JwksCache.store (clock w) ks) !! kid else fresh_key) with
       | Some c =>
           key ← JwksCache.decoding_key c;
           claims ← decode_token (clock w) t key config;
           map_claims claims config
       | None => Err (JwtError.KeyNotFound kid)
       end)).
Proof.
  intros Hh i stale fresh_key fetches. assert (CognitoJwtResolver.start t = Ok kid) as Hst.
  { unfold CognitoJwtResolver.start. by rewrite Hh. }
  destruct (request_alone config w t kid ks Hst) as (w' & Hrun & _ & Hrec & Hreq).
  unfold steps, cached in Hrun, Hrec. fold stale in Hrun, Hrec. fold fresh_key in Hrun, Hrec.
  exists w'. rewrite Hreq. unfold i. rewrite take_app_length, lookup_app_r, Nat.sub_diag by lia.
  unfold answer, cached. fold stale fresh_key. unfold fetches.
  destruct fresh_key; by split_and!.
Qed.

Lemma jwt_resolution_exact_witness : ∃ w',
  run_all (H:=JwtSample.lib) JwtSample.config JwtSample.end_world [Start "c"; Run 2; Run 2] = Some w' ∧
  received w' = received JwtSample.end_world.
Proof.
  destruct (jwt_resolution_exact (H:=JwtSample.lib) JwtSample.config JwtSample.end_world "c" "k1" [] eq_refl)
    as (w' & Hrun & Hrec & _).
  exists w'. split; [exact Hrun|]. rewrite Hrec. reflexivity.
Defined.
