(* ===== verification/UserSchema.v ===== *)
(** User attributes ([crates/authn-core/src/user_schema]): an organization's
    schema and its evolution ([mod.rs]), the validation of attributes against
    it ([validation.rs]) and what the user pool is told ([cognito_mapping.rs]). *)

From stdpp Require Import pretty.
From S2P Require Import Prelude RustStr Ident Org Authn.

(** A [BTreeMap] in iteration order. *)
Definition btree_entries {K V} `{Countable K} (cmp : K → K → comparison) (m : gmap K V) : list (K * V) :=
  omap (λ k, pair k <$> m !! k) (btree_iter cmp (dom m)).

(** * Names *)
Module StandardAttrName.
Inductive t :=
| Address | Birthdate | FamilyName | Gender | GivenName | Locale | MiddleName | Name | Nickname
| PhoneNumber | Picture | PreferredUsername | Profile | Website | Zoneinfo.
#[global] Instance t_eq_dec : EqDecision t.
Proof. solve_decision. Defined.
Definition ALL : list t :=
  [Address; Birthdate; FamilyName; Gender; GivenName; Locale; MiddleName; Name; Nickname;
   PhoneNumber; Picture; PreferredUsername; Profile; Website; Zoneinfo].
Definition as_str (n : t) : string :=
  match n with
  | Address => "address" | Birthdate => "birthdate" | FamilyName => "family_name"
  | Gender => "gender" | GivenName => "given_name" | Locale => "locale"
  | MiddleName => "middle_name" | Name => "name" | Nickname => "nickname"
  | PhoneNumber => "phone_number" | Picture => "picture"
  | PreferredUsername => "preferred_username" | Profile => "profile" | Website => "website"
  | Zoneinfo => "zoneinfo"
  end.
Definition from_str (s : string) : result AuthnError.t t :=
  match s with
  | "address" => Ok Address | "birthdate" => Ok Birthdate | "family_name" => Ok FamilyName
  | "gender" => Ok Gender | "given_name" => Ok GivenName | "locale" => Ok Locale
  | "middle_name" => Ok MiddleName | "name" => Ok Name | "nickname" => Ok Nickname
  | "phone_number" => Ok PhoneNumber | "picture" => Ok Picture
  | "preferred_username" => Ok PreferredUsername | "profile" => Ok Profile
  | "website" => Ok Website | "zoneinfo" => Ok Zoneinfo
  | other => Err (AuthnError.InvalidStandardAttrName other)
  end.
Lemma from_str_as_str n : from_str (as_str n) = Ok n.
Proof. by destruct n. Qed.
Definition parse_opt (s : string) : option t := match from_str s with Ok n => Some n | _ => None end.
Lemma parse_as_str n : parse_opt (as_str n) = Some n.
Proof. by destruct n. Qed.
#[global] Instance t_countable : Countable t := inj_countable as_str parse_opt parse_as_str.
(** The derived order, that of the declarations. *)
Definition index (n : t) : nat := default 0 (fst <$> list_find (eq n) ALL).
Definition cmp : t → t → comparison := cmp_key index Nat.compare.
End StandardAttrName.

Module CustomAttrName.
Record t := mk { as_str : string }.
#[global] Instance t_eq_dec : EqDecision t.
Proof. solve_decision. Defined.
#[global] Program Instance t_countable : Countable t := inj_countable' as_str mk _.
Next Obligation. by intros []. Qed.
Definition MAX_LENGTH : nat := 20.
Definition name_byte (b : ascii) : bool :=
  is_ascii_lowercase b || is_ascii_digit b || Ascii.eqb b "-".
Definition try_new (s : string) : result AuthnError.t t :=
  if is_empty s then Err (AuthnError.InvalidCustomAttrName s "must not be empty")
  else if bool_decide (MAX_LENGTH < String.length s)
  then Err (AuthnError.InvalidCustomAttrName s "must not exceed 20 characters")
  else if negb (str_all name_byte s)
  then Err (AuthnError.InvalidCustomAttrName s
              "must contain only lowercase letters, digits, and dashes")
  else Ok (mk s).
Definition cmp : t → t → comparison := cmp_key as_str String.compare.
Definition wf (n : t) : Prop := try_new (as_str n) = Ok n.
Lemma try_new_ok s n : try_new s = Ok n → as_str n = s ∧ wf n.
Proof.
  unfold wf. intros Hn. assert (as_str n = s) as <-; [|done].
  unfold try_new in Hn. by repeat case_match; simplify_eq.
Qed.
End CustomAttrName.

(** * Schemas *)
Record StandardAttrSpec := { std_required : bool }.
Inductive AttrType := StringType (min_length max_length : option N) (required : bool).
Record CustomAttrSpec := { ty : AttrType }.
#[global] Instance standard_attr_spec_eq_dec : EqDecision StandardAttrSpec.
Proof. solve_decision. Defined.
#[global] Instance attr_type_eq_dec : EqDecision AttrType.
Proof. solve_decision. Defined.
#[global] Instance custom_attr_spec_eq_dec : EqDecision CustomAttrSpec.
Proof. solve_decision. Defined.

Module UserSchema.
Record t := new {
  standard : gmap StandardAttrName.t StandardAttrSpec;
  custom : gmap CustomAttrName.t CustomAttrSpec;
}.
Record SchemaDelta := { added_custom : list CustomAttrName.t }.
Inductive ViolationKind :=
| Removed | TypeChanged | RequiredToggled | LengthBoundsChanged | StandardMapEdited.
Record FieldViolation := { field : string; reason : ViolationKind }.
(** [AppendOnlyViolation] *)
Definition Violations : Type := list FieldViolation.

Definition custom_field (name : CustomAttrName.t) : string := "custom." +:+ CustomAttrName.as_str name.
Definition check_custom_attr_compat (name : CustomAttrName.t) (old_spec new_spec : CustomAttrSpec)
    (violations : Violations) : Violations :=
  let 'StringType old_min old_max old_required := ty old_spec in
  let 'StringType new_min new_max new_required := ty new_spec in
  let violations :=
    if bool_decide (old_required ≠ new_required)
    then violations ++ [{| field := custom_field name; reason := RequiredToggled |}] else violations in
  if bool_decide (old_min ≠ new_min ∨ old_max ≠ new_max)
  then violations ++ [{| field := custom_field name; reason := LengthBoundsChanged |}] else violations.
Definition diff_custom (new : t) (violations : Violations) (entry : CustomAttrName.t * CustomAttrSpec)
    : Violations :=
  match custom new !! entry.1 with
  | None => violations ++ [{| field := custom_field entry.1; reason := Removed |}]
  | Some new_spec => check_custom_attr_compat entry.1 entry.2 new_spec violations
  end.
Definition collect_violations (old new : t) : Violations :=
  let violations :=
    if bool_decide (standard old ≠ standard new)
    then [{| field := "standard"; reason := StandardMapEdited |}] else [] in
  foldl (diff_custom new) violations (btree_entries CustomAttrName.cmp (custom old)).
Definition diff_schema (old new : t) (org_status : OrgStatus.t) : result Violations SchemaDelta :=
  let added := filter (λ k, custom old !! k = None) (btree_iter CustomAttrName.cmp (dom (custom new))) in
  if bool_decide (org_status = OrgStatus.Draft) then Ok {| added_custom := added |}
  else
    let violations := collect_violations old new in
    if bool_decide (violations = []) then Ok {| added_custom := added |} else Err violations.
End UserSchema.

(** * Attributes *)
Abbreviation RawAttrMap := (gmap string string).
Module UserAttributes.
Record t := from_validated { as_map : RawAttrMap }.
End UserAttributes.

Module Validation.
Inductive FieldErrorKind := Unknown | MissingRequired | TooShort (min : N) | TooLong (max : N).
Record FieldError := { field : string; reason : FieldErrorKind }.
(** [ValidationErrors] *)
Definition Errors : Type := list FieldError.
Definition ALWAYS_ACCEPTED : list string := ["email"; "email_verified"].

Definition required_of (spec : CustomAttrSpec) : bool := let 'StringType _ _ r := ty spec in r.
Definition collect_missing_required (schema : UserSchema.t) (attrs : RawAttrMap) (errors : Errors) : Errors :=
  let standard_fields := (λ e, (StandardAttrName.as_str e.1, std_required e.2)) <$>
    btree_entries StandardAttrName.cmp (UserSchema.standard schema) in
  let custom_fields := (λ e, (CustomAttrName.as_str e.1, required_of e.2)) <$>
    btree_entries CustomAttrName.cmp (UserSchema.custom schema) in
  foldl (λ errors f,
      if f.2 && bool_decide (attrs !! f.1 = None)
      then errors ++ [{| field := f.1; reason := MissingRequired |}] else errors)
    errors (standard_fields ++ custom_fields).
(** [s.chars().count()]: the bytes that start a character. *)
Fixpoint chars_count (s : string) : N :=
  match s with
  | EmptyString => 0
  | String c s => (if is_continuation c then 0 else 1) + chars_count s
  end%N.
Definition check_string_bounds (key value : string) (ty : AttrType) (errors : Errors) : Errors :=
  let 'StringType min_length max_length _ := ty in
  let len := N.min (chars_count value) (2 ^ 32 - 1) in
  let too_long :=
    match max_length with
    | Some max => if bool_decide (max < len)%N
                  then errors ++ [{| field := key; reason := TooLong max |}] else errors
    | None => errors
    end in
  match min_length with
  | Some min => if bool_decide (len < min)%N
                then errors ++ [{| field := key; reason := TooShort min |}] else too_long
  | None => too_long
  end.
Definition classify_provided_key (schema : UserSchema.t) (key value : string) (errors : Errors) : Errors :=
  if bool_decide (key ∈ ALWAYS_ACCEPTED) then errors
  else if match StandardAttrName.from_str key with
          | Ok std_name => bool_decide (is_Some (UserSchema.standard schema !! std_name))
          | _ => false
          end
  then errors
  else
    let unknown := errors ++ [{| field := key; reason := Unknown |}] in
    match CustomAttrName.try_new key with
    | Ok custom_name =>
        match UserSchema.custom schema !! custom_name with
        | Some spec => check_string_bounds key value (ty spec) errors
        | None => unknown
        end
    | _ => unknown
    end.
Definition validate_attributes (schema : UserSchema.t) (attrs : RawAttrMap)
    : result Errors UserAttributes.t :=
  let errors := collect_missing_required schema attrs [] in
  let errors := foldl (λ errors e, classify_provided_key schema e.1 e.2 errors) errors
    (btree_entries String.compare attrs) in
  if bool_decide (errors = []) then Ok (UserAttributes.from_validated attrs) else Err errors.
End Validation.

(** * What the pool is told *)
Module CognitoMapping.
Record CognitoStringConstraints := { min_length : option string; max_length : option string }.
Record CognitoAttrDef := {
  name : string;
  attribute_data_type : string;
  mutable : bool;
  required : bool;
  string_attribute_constraints : option CognitoStringConstraints;
}.
Definition custom_attr_to_cognito (name : string) (spec : CustomAttrSpec) : CognitoAttrDef :=
  let 'StringType min_length max_length required := ty spec in
  {| name := "custom:" +:+ name; attribute_data_type := "String"; mutable := true;
     required := required;
     string_attribute_constraints :=
       Some {| min_length := pretty <$> min_length; max_length := pretty <$> max_length |} |}.
Definition schema_to_cognito_attrs (schema : UserSchema.t) : list CognitoAttrDef :=
  (λ e, custom_attr_to_cognito (CustomAttrName.as_str e.1) e.2) <$>
    btree_entries CustomAttrName.cmp (UserSchema.custom schema).
End CognitoMapping.

(** * What the operations decide *)
Module SchemaFacts.
Import UserSchema.

Lemma elem_of_btree_entries {K V} `{Countable K} (cmp : K → K → comparison) (m : gmap K V) k v :
  (k, v) ∈ btree_entries cmp m ↔ m !! k = Some v.
Proof.
  unfold btree_entries. rewrite list_elem_of_omap. setoid_rewrite elem_of_btree_iter. split.
  - intros (k' & _ & Hk). destruct (m !! k') eqn:He; by simplify_eq/=.
  - intros Hk. exists k. rewrite Hk. split; [by apply elem_of_dom|done].
Qed.
(** What a loop that appends collects. *)
Lemma elem_of_foldl {A B} (f : list A → B → list A) (Q : B → A → Prop) l es x :
  (∀ es b x, x ∈ f es b ↔ x ∈ es ∨ Q b x) →
  x ∈ foldl f es l ↔ x ∈ es ∨ ∃ b, b ∈ l ∧ Q b x.
Proof.
  intros Hf. revert es. induction l as [|b l IH]; intros es; simpl; [set_solver|].
  rewrite IH, Hf. set_solver.
Qed.
Lemma elem_of_if_push {A} (b : bool) (l : list A) y x :
  x ∈ (if b then l ++ [y] else l) ↔ x ∈ l ∨ (b = true ∧ x = y).
Proof. destruct b; rewrite ?elem_of_app, ?list_elem_of_singleton; naive_solver. Qed.
Lemma list_nil_iff {A} (l : list A) : l = [] ↔ ∀ x, x ∉ l.
Proof. split; [intros ->; set_solver|]. destruct l; [done|]. intros Hl. destruct (Hl a). left. Qed.
Lemma nil_when {A} (l : list A) (P : A → Prop) : (∀ x, x ∈ l ↔ P x) → l = [] ↔ ∀ x, ¬ P x.
Proof. intros Hl. rewrite list_nil_iff. by setoid_rewrite Hl. Qed.

(** ** Schema changes *)
Definition compat_violation (name : CustomAttrName.t) (old new : CustomAttrSpec) (v : FieldViolation) : Prop :=
  let 'StringType old_min old_max old_required := ty old in
  let 'StringType new_min new_max new_required := ty new in
  (old_required ≠ new_required ∧ v = {| field := custom_field name; reason := RequiredToggled |}) ∨
  ((old_min ≠ new_min ∨ old_max ≠ new_max) ∧
   v = {| field := custom_field name; reason := LengthBoundsChanged |}).
Definition entry_violation (new : UserSchema.t) (e : CustomAttrName.t * CustomAttrSpec)
    (v : FieldViolation) : Prop :=
  match custom new !! e.1 with
  | None => v = {| field := custom_field e.1; reason := Removed |}
  | Some spec => compat_violation e.1 e.2 spec v
  end.
(** What makes a change not append-only, as reported. *)
Definition violation (old new : UserSchema.t) (v : FieldViolation) : Prop :=
  (standard old ≠ standard new ∧ v = {| field := "standard"; reason := StandardMapEdited |}) ∨
  ∃ name spec, custom old !! name = Some spec ∧ entry_violation new (name, spec) v.
Definition append_only (old new : UserSchema.t) : Prop :=
  standard old = standard new ∧ custom old ⊆ custom new.

Lemma elem_of_compat name o n vs v :
  v ∈ check_custom_attr_compat name o n vs ↔ v ∈ vs ∨ compat_violation name o n v.
Proof.
  unfold check_custom_attr_compat, compat_violation. destruct (ty o), (ty n).
  rewrite !elem_of_if_push, !bool_decide_eq_true. tauto.
Qed.
Lemma elem_of_diff_custom new vs e v :
  v ∈ diff_custom new vs e ↔ v ∈ vs ∨ entry_violation new e v.
Proof.
  unfold diff_custom, entry_violation. destruct (_ !! _); [apply elem_of_compat|].
  by rewrite elem_of_app, list_elem_of_singleton.
Qed.
Lemma elem_of_violations old new v :
  v ∈ collect_violations old new ↔ violation old new v.
Proof.
  unfold collect_violations. rewrite (elem_of_foldl _ (entry_violation new)) by apply elem_of_diff_custom.
  assert (v ∈ (if bool_decide (standard old ≠ standard new)
               then [{| field := "standard"; reason := StandardMapEdited |}] else []) ↔
    standard old ≠ standard new ∧ v = {| field := "standard"; reason := StandardMapEdited |}) as ->.
  { case_bool_decide; rewrite ?list_elem_of_singleton; set_solver. }
  unfold violation. apply or_iff_compat_l. split.
  - intros ([name spec] & He%elem_of_btree_entries & Hv). by exists name, spec.
  - intros (name & spec & He & Hv). exists (name, spec). by rewrite elem_of_btree_entries.
Qed.
Lemma no_compat_violation name o n : (∀ v, ¬ compat_violation name o n v) ↔ o = n.
Proof.
  destruct o as [[omin omax oreq]], n as [[nmin nmax nreq]]. unfold compat_violation. simpl. split.
  - intros Hn. destruct (decide (oreq = nreq)) as [->|]; [|exfalso; naive_solver].
    destruct (decide (omin = nmin)) as [->|]; [|exfalso; naive_solver].
    destruct (decide (omax = nmax)) as [->|]; [done|exfalso; naive_solver].
  - intros [= -> -> ->] v. naive_solver.
Qed.
Lemma no_violation old new : (∀ v, ¬ violation old new v) ↔ append_only old new.
Proof.
  unfold violation, append_only. split.
  - intros Hn. split; [destruct (decide (standard old = standard new)); naive_solver|].
    apply map_subseteq_spec. intros name spec Hs. destruct (custom new !! name) as [spec'|] eqn:Hs'.
    + f_equal. symmetry. apply (no_compat_violation name). intros v Hv. apply (Hn v). right.
      exists name, spec. unfold entry_violation. cbn [fst snd]. by rewrite Hs'.
    + exfalso. eapply Hn. right. exists name, spec. unfold entry_violation. cbn [fst snd]. by rewrite Hs'.
  - intros [Hs Hc] v [[? _]|(name & spec & Ho & Hv)]; [done|].
    unfold entry_violation in Hv. cbn [fst snd] in Hv. rewrite (lookup_weaken _ _ _ _ Ho Hc) in Hv.
    by eapply (proj2 (no_compat_violation name spec spec)).
Qed.

(** ** Validation *)
Import Validation.
Definition length_of (value : string) : N := N.min (chars_count value) (2 ^ 32 - 1).
(** The attributes a schema requires. *)
Definition requires (schema : UserSchema.t) (name : string) : Prop :=
  (∃ n spec, standard schema !! n = Some spec ∧ std_required spec = true ∧
     name = StandardAttrName.as_str n) ∨
  ∃ n spec, custom schema !! n = Some spec ∧ required_of spec = true ∧ name = CustomAttrName.as_str n.
(** The keys that are accepted with any value. *)
Definition free_key (schema : UserSchema.t) (key : string) : Prop :=
  key ∈ ALWAYS_ACCEPTED ∨
  ∃ n spec, StandardAttrName.from_str key = Ok n ∧ standard schema !! n = Some spec.
Definition custom_key (schema : UserSchema.t) (key : string) : option CustomAttrSpec :=
  match CustomAttrName.try_new key with Ok n => custom schema !! n | _ => None end.
Definition bounds_problem (ty : AttrType) (value : string) (kind : FieldErrorKind) : Prop :=
  let 'StringType min_length max_length _ := ty in
  (∃ min, min_length = Some min ∧ (length_of value < min)%N ∧ kind = TooShort min) ∨
  (¬ (∃ min, min_length = Some min ∧ (length_of value < min)%N) ∧
   ∃ max, max_length = Some max ∧ (max < length_of value)%N ∧ kind = TooLong max).
Definition key_problem (schema : UserSchema.t) (e : string * string) (er : FieldError) : Prop :=
  ¬ free_key schema e.1 ∧ field er = e.1 ∧
  match custom_key schema e.1 with
  | Some spec => bounds_problem (ty spec) e.2 (reason er)
  | None => reason er = Unknown
  end.
(** The errors to report. *)
Definition problem (schema : UserSchema.t) (attrs : RawAttrMap) (er : FieldError) : Prop :=
  (requires schema (field er) ∧ attrs !! field er = None ∧ reason er = MissingRequired) ∨
  ∃ key value, attrs !! key = Some value ∧ key_problem schema (key, value) er.
Definition in_bounds (spec : CustomAttrSpec) (value : string) : Prop :=
  let 'StringType min_length max_length _ := ty spec in
  (∀ min, min_length = Some min → min ≤ length_of value)%N ∧
  (∀ max, max_length = Some max → length_of value ≤ max)%N.
(** The attributes that fit a schema. *)
Definition fits (schema : UserSchema.t) (attrs : RawAttrMap) : Prop :=
  (∀ name, requires schema name → is_Some (attrs !! name)) ∧
  ∀ key value, attrs !! key = Some value →
    free_key schema key ∨ ∃ spec, custom_key schema key = Some spec ∧ in_bounds spec value.

Lemma elem_of_missing schema attrs es er :
  er ∈ collect_missing_required schema attrs es ↔
  er ∈ es ∨ (requires schema (field er) ∧ attrs !! field er = None ∧ reason er = MissingRequired).
Proof.
  unfold collect_missing_required.
  rewrite (elem_of_foldl _ (λ (f : string * bool) er, (f.2 = true ∧ attrs !! f.1 = None) ∧
    er = {| field := f.1; reason := MissingRequired |})).
  2:{ intros es' f x. rewrite elem_of_if_push, andb_true_iff, bool_decide_eq_true. tauto. }
  apply or_iff_compat_l. unfold requires. setoid_rewrite elem_of_app. setoid_rewrite list_elem_of_fmap. split.
  - intros ([name req] & [([n spec] & [= -> ->] & He%elem_of_btree_entries)
                         |([n spec] & [= -> ->] & He%elem_of_btree_entries)] & [Hr Ha] & ->);
      simpl in *; naive_solver.
  - destruct er as [f k]. simpl. intros ([(n & spec & He & Hr & ->)|(n & spec & He & Hr & ->)] & Ha & ->).
    + exists (StandardAttrName.as_str n, true). split; [left|done].
      exists (n, spec). simpl. rewrite Hr. by rewrite elem_of_btree_entries.
    + exists (CustomAttrName.as_str n, true). split; [right|done].
      exists (n, spec). simpl. rewrite Hr. by rewrite elem_of_btree_entries.
Qed.
Lemma elem_of_bounds key value ty es er :
  er ∈ check_string_bounds key value ty es ↔
  er ∈ es ∨ (field er = key ∧ bounds_problem ty value (reason er)).
Proof.
  destruct er as [f k], ty as [omin omax req]. unfold check_string_bounds, bounds_problem.
  fold (length_of value). cbn [field reason].
  destruct omin as [mn|], omax as [mx|]; repeat case_bool_decide;
    rewrite ?elem_of_app, ?list_elem_of_singleton; naive_solver.
Qed.
Lemma elem_of_classify schema key value es er :
  er ∈ classify_provided_key schema key value es ↔ er ∈ es ∨ key_problem schema (key, value) er.
Proof.
  unfold classify_provided_key, key_problem, free_key, custom_key. cbn [fst snd].
  case_bool_decide as Ha; [tauto|].
  assert (match StandardAttrName.from_str key with
          | Ok n => bool_decide (is_Some (standard schema !! n))
          | _ => false
          end = true ↔ ∃ n spec, StandardAttrName.from_str key = Ok n ∧ standard schema !! n = Some spec) as Hs.
  { destruct (StandardAttrName.from_str key); [rewrite bool_decide_eq_true; unfold is_Some|..];
      naive_solver. }
  destruct (match StandardAttrName.from_str key with Ok _ => _ | _ => _ end); [naive_solver|].
  assert (er ∈ es ++ [{| field := key; reason := Unknown |}] ↔
    er ∈ es ∨ (field er = key ∧ reason er = Unknown)) as Hu.
  { rewrite elem_of_app, list_elem_of_singleton. destruct er. naive_solver. }
  destruct (CustomAttrName.try_new key) as [n| |]; [destruct (custom schema !! n)|..];
    rewrite ?Hu, ?elem_of_bounds; naive_solver.
Qed.
Lemma elem_of_errors schema attrs er :
  er ∈ foldl (λ errors e, classify_provided_key schema e.1 e.2 errors)
         (collect_missing_required schema attrs []) (btree_entries String.compare attrs) ↔
  problem schema attrs er.
Proof.
  rewrite (elem_of_foldl _ (key_problem schema)).
  2:{ intros es [k v] x. apply elem_of_classify. }
  rewrite elem_of_missing. unfold problem. split.
  - intros [[?%elem_of_nil|?]|([k v] & He%elem_of_btree_entries & Hp)]; [done|by left|].
    right. by exists k, v.
  - intros [?|(k & v & He & Hp)]; [by left; right|]. right. exists (k, v).
    by rewrite elem_of_btree_entries.
Qed.
Lemma free_key_dec schema key : free_key schema key ∨ ¬ free_key schema key.
Proof.
  unfold free_key. destruct (decide (key ∈ ALWAYS_ACCEPTED)) as [|Hk]; [by left; left|].
  destruct (StandardAttrName.from_str key) as [n| |] eqn:Hn; [|right; naive_solver..].
  destruct (standard schema !! n) eqn:Hs; [left|right]; naive_solver.
Qed.
Lemma no_bounds_problem spec value :
  (∀ kind, ¬ bounds_problem (ty spec) value kind) ↔ in_bounds spec value.
Proof.
  unfold bounds_problem, in_bounds. destruct (ty spec) as [mn mx req]. split.
  - intros Hn. assert (∀ m, mn = Some m → (m ≤ length_of value)%N) as Hmin.
    { intros m Hm. destruct (decide (m ≤ length_of value)%N); [done|].
      destruct (Hn (TooShort m)). left. exists m. split; [done|]. split; [lia|done]. }
    split; [done|]. intros m Hm. destruct (decide (length_of value ≤ m)%N); [done|].
    destruct (Hn (TooLong m)). right. split.
    + intros (m' & Hm' & ?). specialize (Hmin m' Hm'). lia.
    + exists m. split; [done|]. split; [lia|done].
  - intros [Hmin Hmax] kind [(m & Hm & ? & _)|(_ & m & Hm & ? & _)];
      [specialize (Hmin m Hm)|specialize (Hmax m Hm)]; lia.
Qed.
Lemma no_problem schema attrs : (∀ er, ¬ problem schema attrs er) ↔ fits schema attrs.
Proof.
  unfold problem, fits. split.
  - intros Hn. split.
    + intros name Hr. destruct (attrs !! name) eqn:Ha; [done|].
      destruct (Hn {| field := name; reason := MissingRequired |}). by left.
    + intros key value Ha. destruct (free_key_dec schema key) as [|Hf]; [by left|right].
      assert (∀ kind, ¬ key_problem schema (key, value) {| field := key; reason := kind |}) as Hk.
      { intros kind Hk. eapply Hn. right. exists key, value. by split. }
      unfold key_problem in Hk. cbn [fst snd field reason] in Hk.
      destruct (custom_key schema key) as [spec|]; [|naive_solver].
      exists spec. split; [done|]. apply no_bounds_problem. naive_solver.
  - intros [Hr Hk] er [(Hreq & Ha & _)|(key & value & Ha & Hf & _ & Hp)].
    + destruct (Hr _ Hreq). congruence.
    + destruct (Hk _ _ Ha) as [?|(spec & Hs & Hb)]; [done|]. cbn [fst snd] in *.
      rewrite Hs in Hp. by eapply no_bounds_problem.
Qed.
Lemma validate_ok schema attrs ua : validate_attributes schema attrs = Ok ua ↔
  fits schema attrs ∧ ua = UserAttributes.from_validated attrs.
Proof.
  rewrite <-no_problem. setoid_rewrite <-elem_of_errors. unfold validate_attributes. cbv zeta.
  case_bool_decide as He; rewrite (list_nil_iff (A:=FieldError)) in He; naive_solver.
Qed.

(** ** Evolution *)
Definition evolves : UserSchema.t → UserSchema.t → Prop :=
  rtc (λ old new, ∃ st d, st ≠ OrgStatus.Draft ∧ diff_schema old new st = Ok d).
Lemma diff_ok old new st d : st ≠ OrgStatus.Draft → diff_schema old new st = Ok d → append_only old new.
Proof.
  intros Hst. unfold diff_schema. rewrite (bool_decide_eq_false_2 (st = _)) by done.
  rewrite <-no_violation. setoid_rewrite <-elem_of_violations.
  case_bool_decide as Hv; [|done]. rewrite (list_nil_iff (A:=FieldViolation)) in Hv. done.
Qed.
Lemma evolves_append_only old new : evolves old new → append_only old new.
Proof.
  intros Hr. unfold evolves in Hr. induction Hr as [|s1 s2 s3 (st & d & Hst & Hd) _ [IH1 IH2]]; [done|].
  apply diff_ok in Hd as [H1 H2]; [|done]. split; [congruence|by etrans].
Qed.
Lemma fits_evolves old new attrs : append_only old new → fits old attrs →
  (fits new attrs ↔ ∀ n spec, custom new !! n = Some spec → custom old !! n = None →
     required_of spec = true → is_Some (attrs !! CustomAttrName.as_str n)).
Proof.
  intros [Hs Hc] [Hr Hk]. split.
  - intros [Hr' _] n spec Hn _ Hreq. apply Hr'. right. by exists n, spec.
  - intros Hnew. split.
    + intros name [(n & spec & Hn & Hreq & ->)|(n & spec & Hn & Hreq & ->)].
      * apply Hr. left. exists n, spec. by rewrite Hs.
      * destruct (custom old !! n) as [spec'|] eqn:Ho; [|by eapply Hnew].
        apply Hr. right. exists n, spec'. split; [done|]. split; [|done].
        by rewrite (lookup_weaken _ _ _ _ Ho Hc) in Hn; simplify_eq.
    + intros key value Ha. destruct (Hk _ _ Ha) as [[?|(n & spec & ? & ?)]|(spec & Hspec & Hb)].
      * by left; left.
      * left. right. exists n, spec. by rewrite <-Hs.
      * right. exists spec. split; [|done]. unfold custom_key in *.
        destruct (CustomAttrName.try_new key); [|done..]. by eapply lookup_weaken.
Qed.
End SchemaFacts.
Import SchemaFacts.

(** A change of schema is accepted exactly when the organization is a draft or
    the change only adds custom attributes, and reports the names it adds;
    otherwise every way in which it is not append-only is reported, and nothing
    else is. *)
Theorem schema_changes_append_only old new st :
  match UserSchema.diff_schema old new st with
  | Ok d => (st = OrgStatus.Draft ∨ append_only old new) ∧
      ∀ n, n ∈ UserSchema.added_custom d ↔
        is_Some (UserSchema.custom new !! n) ∧ UserSchema.custom old !! n = None
  | Err vs => st ≠ OrgStatus.Draft ∧ ¬ append_only old new ∧ ∀ v, v ∈ vs ↔ violation old new v
  | Stuck _ => False
  end.
Proof.
  assert (∀ n, n ∈ filter (λ k, UserSchema.custom old !! k = None)
      (btree_iter CustomAttrName.cmp (dom (UserSchema.custom new))) ↔
    is_Some (UserSchema.custom new !! n) ∧ UserSchema.custom old !! n = None) as Hadded.
  { intros n. rewrite list_elem_of_filter, elem_of_btree_iter, elem_of_dom. tauto. }
  pose proof (elem_of_violations old new) as Hv. unfold UserSchema.diff_schema. cbv zeta.
  destruct (decide (st = OrgStatus.Draft)) as [Hst|Hst].
  { rewrite bool_decide_eq_true_2 by done. split; [by left|apply Hadded]. }
  rewrite (bool_decide_eq_false_2 (st = _)) by done.
  pose proof (nil_when _ _ Hv) as Hn. rewrite no_violation in Hn.
  revert Hv Hn. generalize (UserSchema.collect_violations old new). intros vs Hv Hn.
  destruct (decide (vs = [])) as [He|He].
  - rewrite (bool_decide_eq_true_2 (vs = _)) by done. split; [right; by apply Hn|apply Hadded].
  - rewrite (bool_decide_eq_false_2 (vs = _)) by done. split; [done|]. by rewrite <-Hn.
Qed.

(** C29: Attributes are accepted, unchanged, exactly when they fit the schema: they
    have every required one, and each is one of the two always accepted, or a
    standard attribute of the schema, or a custom one within its bounds, its
    length counted in characters and capped at [u32::MAX].  Otherwise the
    errors are exactly the missing names and the keys that are unknown or out
    of bounds. *)
Theorem validate_attributes_exact schema attrs :
  match Validation.validate_attributes schema attrs with
  | Ok ua => UserAttributes.as_map ua = attrs ∧ fits schema attrs
  | Err es => ¬ fits schema attrs ∧ ∀ e, e ∈ es ↔ problem schema attrs e
  | Stuck _ => False
  end.
Proof.
  pose proof (elem_of_errors schema attrs) as Hp. pose proof (nil_when _ _ Hp) as Hn.
  rewrite no_problem in Hn. unfold Validation.validate_attributes. cbv zeta.
  case_bool_decide as He; [split; [done|by apply Hn]|]. by rewrite <-Hn.
Qed.

(** C28: After any accepted changes of an organization's schema past its draft, the
    attributes of its users stay acceptable, unless a change added a required
    custom attribute which they lack. *)
Theorem schema_evolution_keeps_users old new attrs ua :
  evolves old new → Validation.validate_attributes old attrs = Ok ua →
  (Validation.validate_attributes new attrs = Ok ua ↔
   ∀ n spec, UserSchema.custom new !! n = Some spec → UserSchema.custom old !! n = None →
     Validation.required_of spec = true → is_Some (attrs !! CustomAttrName.as_str n)).
Proof.
  intros He%evolves_append_only [Hf ->]%validate_ok. rewrite validate_ok, <-(fits_evolves old) by done.
  naive_solver.
Qed.

Module SchemaSample.
Definition spec (min max : option N) (req : bool) : CustomAttrSpec := {| ty := StringType min max req |}.
Definition v1 : UserSchema.t :=
  UserSchema.new {[StandardAttrName.Name := {| std_required := true |}]}
    {[CustomAttrName.mk "team" := spec (Some 2%N) (Some 8%N) false]}.
Definition v2 : UserSchema.t :=
  UserSchema.new (UserSchema.standard v1)
    (<[CustomAttrName.mk "badge" := spec None None true]> (UserSchema.custom v1)).
Definition attrs : RawAttrMap := list_to_map [("name", "Ann"); ("team", "core"); ("email", "a@x")].
End SchemaSample.
(** An accepted change that adds a required attribute the user lacks. *)
Lemma schema_evolution_keeps_users_witness :
  UserSchema.diff_schema SchemaSample.v1 SchemaSample.v2 OrgStatus.Active =
    Ok {| UserSchema.added_custom := [CustomAttrName.mk "badge"] |} ∧
  Validation.validate_attributes SchemaSample.v2 SchemaSample.attrs ≠
    Ok (UserAttributes.from_validated SchemaSample.attrs).
Proof.
  assert (UserSchema.diff_schema SchemaSample.v1 SchemaSample.v2 OrgStatus.Active =
    Ok {| UserSchema.added_custom := [CustomAttrName.mk "badge"] |}) as Hd by (vm_compute; reflexivity).
  split; [exact Hd|]. intros Hv.
  assert (evolves SchemaSample.v1 SchemaSample.v2) as He
    by (apply rtc_once; exists OrgStatus.Active; eexists; split; [done|exact Hd]).
  pose proof (proj1 (schema_evolution_keeps_users SchemaSample.v1 SchemaSample.v2 SchemaSample.attrs
    (UserAttributes.from_validated SchemaSample.attrs) He ltac:(vm_compute; reflexivity)) Hv
    (CustomAttrName.mk "badge") (SchemaSample.spec None None true) ltac:(vm_compute; reflexivity)
    ltac:(vm_compute; reflexivity) eq_refl) as [v Hbadge].
  vm_compute in Hbadge. discriminate.
Defined.
