(* ===== verification/UserPool.v ===== *)
(** User pools: the identifiers and parameters
    ([crates/authn-core/src/user_pool]), the [UserPoolClient] interface with
    its in-memory implementation, and what the Cognito implementation sends
    and how it reads the answers ([crates/authn/src/user_pool]). *)

From S2P Require Import Prelude RustStr Ident Authn UserSchema.

Module UserPoolError.
(** A boxed source is its text. *)
Inductive t :=
| UsernameExists
| AttributeAlreadyExists (name : string)
| UserNotFound
| Transient (source : string)
| Permanent (source : string).
#[global] Instance t_eq_dec : EqDecision t.
Proof. solve_decision. Defined.
End UserPoolError.

Module PoolId.
Record t := mk { as_str : string }.
#[global] Instance t_eq_dec : EqDecision t.
Proof. solve_decision. Defined.
#[global] Program Instance t_countable : Countable t := inj_countable' as_str mk _.
Next Obligation. by intros []. Qed.
Definition try_new (s : string) : result AuthnError.t t :=
  if is_empty s || contains_char "#" s then Err (AuthnError.InvalidPoolId s) else Ok (mk s).
Definition cmp : t → t → comparison := cmp_key as_str String.compare.
End PoolId.

Record CreateUserParams := { cu_pool_id : PoolId.t; cu_email : string; cu_attributes : RawAttrMap }.
Record UpdatePoolParams := { up_pool_id : PoolId.t; up_schema_attrs : list CognitoMapping.CognitoAttrDef }.

(** The client, whose state is [P]. *)
Class UserPoolClient (P : Type) := {
  admin_create_user : CreateUserParams → P → result UserPoolError.t UserId * P;
  admin_delete_user : PoolId.t → UserId → P → result UserPoolError.t () * P;
  admin_get_user : PoolId.t → string → P → result UserPoolError.t UserId * P;
  update_user_pool : UpdatePoolParams → P → result UserPoolError.t () * P;
}.

(** * The pool in memory *)
Module InMemoryUserPoolClient.
Record t := {
  users : gmap (PoolId.t * string) UserId;
  fail_create : option UserPoolError.t;
  fail_delete : option UserPoolError.t;
  fail_update_pool : option UserPoolError.t;
  drawn : nat;
}.
Definition new : t :=
  {| users := ∅; fail_create := None; fail_delete := None; fail_update_pool := None; drawn := 0 |}.
Definition key_cmp : PoolId.t * string → PoolId.t * string → comparison :=
  cmp_pair PoolId.cmp String.compare.
(** [Ulid::new().to_string()], the [n]-th time. *)
Section client.
Context (ulid : nat → string).
Definition set_users (us : gmap (PoolId.t * string) UserId) (s : t) : t :=
  {| users := us; fail_create := fail_create s; fail_delete := fail_delete s;
     fail_update_pool := fail_update_pool s; drawn := drawn s |}.
Definition take_create (s : t) : t :=
  {| users := users s; fail_create := None; fail_delete := fail_delete s;
     fail_update_pool := fail_update_pool s; drawn := drawn s |}.
Definition take_delete (s : t) : t :=
  {| users := users s; fail_create := fail_create s; fail_delete := None;
     fail_update_pool := fail_update_pool s; drawn := drawn s |}.
Definition take_update (s : t) : t :=
  {| users := users s; fail_create := fail_create s; fail_delete := fail_delete s;
     fail_update_pool := None; drawn := drawn s |}.
Definition draw (s : t) : t :=
  {| users := users s; fail_create := fail_create s; fail_delete := fail_delete s;
     fail_update_pool := fail_update_pool s; drawn := S (drawn s) |}.

Definition create (params : CreateUserParams) (s : t) : result UserPoolError.t UserId * t :=
  match fail_create s with
  | Some err => (Err err, take_create s)
  | None =>
      let key := (cu_pool_id params, cu_email params) in
      match users s !! key with
      | Some _ => (Err UserPoolError.UsernameExists, s)
      | None =>
          match Id.new (to_ascii_lowercase (ulid (drawn s))) with
          | Ok sub => (Ok sub, set_users (<[key := sub]> (users s)) (draw s))
          | Err e => (Err (UserPoolError.Permanent (core_error_str e)), draw s)
          | Stuck w => (Stuck w, s)
          end
      end
  end.
Definition delete (pool_id : PoolId.t) (sub : UserId) (s : t) : result UserPoolError.t () * t :=
  match fail_delete s with
  | Some err => (Err err, take_delete s)
  | None =>
      match list_find (λ e, e.1.1 = pool_id ∧ e.2 = sub) (btree_entries key_cmp (users s)) with
      | Some (_, (k, _)) => (Ok (), set_users (base.delete k (users s)) s)
      | None => (Ok (), s)
      end
  end.
Definition get (pool_id : PoolId.t) (email : string) (s : t) : result UserPoolError.t UserId * t :=
  (ok_or (users s !! (pool_id, email)) UserPoolError.UserNotFound, s).
Definition update (params : UpdatePoolParams) (s : t) : result UserPoolError.t () * t :=
  match fail_update_pool s with
  | Some err => (Err err, take_update s)
  | None => (Ok (), s)
  end.
#[local] Instance client : UserPoolClient t := {|
  admin_create_user := create;
  admin_delete_user := delete;
  admin_get_user := get;
  update_user_pool := update;
|}.
End client.
End InMemoryUserPoolClient.

(** * Cognito *)
Module AwsCognitoUserPoolClient.
(** The SDK's errors.  A service error's text is its [Display], another's its
    [Debug]. *)
Inductive ServiceError :=
| UsernameExistsException | UserNotFoundException | TooManyRequestsException (text : string)
| InvalidParameterException (message : option string) (text : string) | OtherException (text : string).
Inductive SdkError :=
| ServiceErr (e : ServiceError)
| TimeoutError (debug : string) | DispatchFailure (debug : string) | ResponseError (debug : string)
| ConstructionFailure (debug : string) | OtherSdkError.
Definition text_of (e : ServiceError) : string :=
  match e with
  | UsernameExistsException => "UsernameExistsException"
  | UserNotFoundException => "UserNotFoundException"
  | TooManyRequestsException t | InvalidParameterException _ t | OtherException t => t
  end.

Definition transient_or_permanent (err : SdkError) : UserPoolError.t :=
  match err with
  | TimeoutError e => UserPoolError.Transient ("cognito SDK timeout: " +:+ e)
  | DispatchFailure e => UserPoolError.Transient ("cognito SDK dispatch failure: " +:+ e)
  | ResponseError e => UserPoolError.Transient ("cognito SDK response error: " +:+ e)
  | ConstructionFailure e => UserPoolError.Permanent ("cognito SDK construction failure: " +:+ e)
  | ServiceErr _ => UserPoolError.Permanent "cognito SDK service error (unmapped variant)"
  | OtherSdkError => UserPoolError.Permanent "cognito SDK error (unclassified variant)"
  end.
Definition map_admin_create_error (err : SdkError) : UserPoolError.t :=
  match err with
  | ServiceErr UsernameExistsException => UserPoolError.UsernameExists
  | ServiceErr (TooManyRequestsException t) => UserPoolError.Transient t
  | ServiceErr other => UserPoolError.Permanent (text_of other)
  | other => transient_or_permanent other
  end.
Definition map_admin_delete_error (err : SdkError) : UserPoolError.t :=
  match err with
  | ServiceErr UserNotFoundException => UserPoolError.UserNotFound
  | ServiceErr (TooManyRequestsException t) => UserPoolError.Transient t
  | ServiceErr other => UserPoolError.Permanent (text_of other)
  | other => transient_or_permanent other
  end.
Definition map_admin_get_error (err : SdkError) : UserPoolError.t :=
  match err with
  | ServiceErr UserNotFoundException => UserPoolError.UserNotFound
  | ServiceErr (TooManyRequestsException t) => UserPoolError.Transient t
  | ServiceErr other => UserPoolError.Permanent (text_of other)
  | other => transient_or_permanent other
  end.
Definition parse_existing_attr_name (message : string) : option string :=
  '(_, rest) ← split_once "'" message;
  '(name, _) ← split_once "'" rest;
  Some name.
Definition map_add_custom_attributes_error (err : SdkError) : UserPoolError.t :=
  match err with
  | ServiceErr svc_err =>
      let rest :=
        match svc_err with
        | TooManyRequestsException t => UserPoolError.Transient t
        | other => UserPoolError.Permanent (text_of other)
        end in
      match svc_err with
      | InvalidParameterException message _ =>
          let message := default "" message in
          if contains_str "already exists" message then
            match parse_existing_attr_name message with
            | Some name => UserPoolError.AttributeAlreadyExists name
            | None => rest
            end
          else rest
      | _ => rest
      end
  | other => transient_or_permanent other
  end.

(** The attributes of a user as sent, and as answered. *)
Definition create_attrs (params : CreateUserParams) : list (string * string) :=
  ("email", cu_email params) :: btree_entries String.compare (cu_attributes params).
Definition MissingSubAttribute : string := "cognito response missing required `sub` attribute".
Definition sub_of (attributes : option (list (string * option string))) : result UserPoolError.t UserId :=
  sub ← ok_or (l ← attributes; e ← list_find (λ a, a.1 = "sub") l; e.2.2)
    (UserPoolError.Permanent MissingSubAttribute);
  map_err (λ e, UserPoolError.Permanent (core_error_str e)) (Id.new sub).
(** The three calls on a user, from the answer of the service. *)
Definition create_result (answer : result SdkError (option (option (list (string * option string)))))
    : result UserPoolError.t UserId :=
  user ← map_err map_admin_create_error answer;
  sub_of (mjoin user).
Definition get_result (answer : result SdkError (option (list (string * option string))))
    : result UserPoolError.t UserId :=
  attributes ← map_err map_admin_get_error answer;
  sub_of attributes.
Definition delete_result (answer : result SdkError ()) : result UserPoolError.t () :=
  match map_err map_admin_delete_error answer with
  | Err UserPoolError.UserNotFound => Ok ()
  | r => r
  end.

(** [SchemaAttributeType], of the fields the code sets. *)
Record SchemaAttribute := {
  sa_name : string; sa_type : string; sa_mutable : bool; sa_required : bool;
  sa_constraints : option CognitoMapping.CognitoStringConstraints;
}.
Definition build_schema_attribute (def : CognitoMapping.CognitoAttrDef) : SchemaAttribute :=
  {| sa_name := CognitoMapping.name def; sa_type := CognitoMapping.attribute_data_type def;
     sa_mutable := CognitoMapping.mutable def; sa_required := CognitoMapping.required def;
     sa_constraints := None |}.
Definition update_request (params : UpdatePoolParams) : list SchemaAttribute :=
  build_schema_attribute <$> up_schema_attrs params.
Definition update_result (answer : result SdkError ()) : result UserPoolError.t () :=
  map_err map_add_custom_attributes_error answer.
End AwsCognitoUserPoolClient.

(** What a pool promises: it maps emails to subs, creating one never replaces
    another; while [ready], requests succeed but for names that exist. *)
Class UserPoolLaws (P : Type) `{UserPoolClient P} := {
  subs : P → gmap (PoolId.t * string) UserId;
  ready : P → Prop;
  create_law params p r p' : admin_create_user params p = (r, p') →
    match r with
    | Ok sub => subs p !! (cu_pool_id params, cu_email params) = None ∧
        subs p' = <[(cu_pool_id params, cu_email params) := sub]> (subs p)
    | _ => subs p' = subs p
    end;
  get_law pool_id email p r p' : admin_get_user pool_id email p = (r, p') →
    subs p' = subs p ∧ ∀ sub, r = Ok sub → subs p !! (pool_id, email) = Some sub;
  update_law params p r p' : update_user_pool params p = (r, p') → subs p' = subs p;
  create_ready params p : ready p → ∃ r p', admin_create_user params p = (r, p') ∧ ready p' ∧
    (if decide (subs p !! (cu_pool_id params, cu_email params) = None) then ∃ sub, r = Ok sub
     else r = Err UserPoolError.UsernameExists);
  get_ready pool_id email p : ready p → ∃ p', ready p' ∧
    admin_get_user pool_id email p =
      (ok_or (subs p !! (pool_id, email)) UserPoolError.UserNotFound, p');
  update_ready params p : ready p → ∃ r p', update_user_pool params p = (r, p') ∧ ready p' ∧
    (r = Ok () ∨ ∃ name, r = Err (UserPoolError.AttributeAlreadyExists name));
}.

(** The pool in memory, when ULIDs are identifiers and nothing is armed. *)
Module InMemoryFacts.
Import InMemoryUserPoolClient.
Section laws.
Context (ulid : nat → string) (ulid_ok : ∀ n, is_ok (Id.new (k:=UserIdK) (to_ascii_lowercase (ulid n))) = true).
#[local] Instance in_memory : UserPoolClient t := client ulid.
#[local] Instance in_memory_laws : UserPoolLaws t.
Proof.
  apply (Build_UserPoolLaws t _ users (λ s, fail_create s = None ∧ fail_update_pool s = None)).
  - intros params s r s'. simpl. unfold create.
    destruct (fail_create s) as [err|]; [by intros [= <- <-]|].
    destruct (users s !! _) eqn:Hk; [by intros [= <- <-]|].
    destruct (Id.new _); by intros [= <- <-].
  - intros pool_id email s r s'. simpl. unfold get. intros [= <- <-]. split; [done|].
    by intros sub ->%ok_or_Ok.
  - intros params s r s'. simpl. unfold update. by destruct (fail_update_pool s); intros [= <- <-].
  - intros params s [Hc Hu]. simpl. unfold create. rewrite Hc.
    destruct (users s !! _) as [u|] eqn:Hk.
    + eexists _, _. split; [done|]. by case_decide.
    + destruct (proj1 (is_ok_true _) (ulid_ok (drawn s))) as [sub Hs].
      rewrite Hs. eexists _, _. split; [done|]. split; [done|]. case_decide; [by exists sub|done].
  - intros pool_id email s Hs. by exists s.
  - intros params s [Hc Hu]. simpl. unfold update. rewrite Hu. eexists _, _. split_and!; try done. by left.
Defined.
End laws.
End InMemoryFacts.
