(* ===== verification/Seed.v ===== *)
(** Memberships: the row of a member ([crates/authn-core/src/membership]), how
    the control plane resolves it ([crates/control-plane/src/membership_store.rs]),
    and the seeding of organizations' users, which writes them
    ([xtask/src/control_plane/seed]). *)

From S2P Require Import Prelude RustStr Ident Dynamo Rbac Authn UserSchema UserPool.

(** * Membership rows *)
Module Membership.
(** [groups] is the one list attribute of the table. *)
Inductive Attr := One (v : Dynamo.AttributeValue) | L (vs : list Dynamo.AttributeValue).
Abbreviation item := (gmap string Attr).
Abbreviation Table := (gmap Dynamo.key item).
Definition as_l (v : Attr) : option (list Dynamo.AttributeValue) :=
  match v with L vs => Some vs | One _ => None end.

Record MembershipRow := {
  sub : UserId;
  org_id : OrganizationId;
  groups : list GroupName;
  email : string;
  created_at : string;
  created_by : UserId;
}.
Definition USER_PREFIX : string := "USER#".
Definition ORG_PREFIX : string := "ORG#".
Definition row_key (user_id : UserId) (org_id : OrganizationId) : Dynamo.key :=
  (USER_PREFIX +:+ Id.as_str user_id, ORG_PREFIX +:+ Id.as_str org_id).
Definition membership_pk_for_user (sub : string) : string := "USER#" +:+ sub.
Definition membership_row_to_dynamo_attrs (row : MembershipRow) : list (string * Attr) :=
  let s v := One (Dynamo.S v) in
  [("PK", s (membership_pk_for_user (Id.as_str (sub row))));
   ("SK", s ("ORG#" +:+ Id.as_str (org_id row)));
   ("user_id", s (Id.as_str (sub row)));
   ("org_id", s (Id.as_str (org_id row)));
   ("groups", L ((λ g, Dynamo.S (Id.as_str g)) <$> groups row));
   ("joined_at", s (created_at row));
   ("email", s (email row));
   ("created_by", s (Id.as_str (created_by row)))].

(** Values that are no string or no group name are skipped. *)
Definition group_of (s : string) : option GroupName :=
  match Id.new s with Ok g => Some g | _ => None end.
Definition parse_groups (i : item) : option (list GroupName) :=
  match i !! "groups" ≫= as_l with
  | Some l => Some (omap group_of (omap Dynamo.as_s l))
  | None => None
  end.
(** [answer]: of [GetItem], [None] if it failed. *)
Definition resolve (answer : option (option item)) : result string (option (list GroupName)) :=
  match answer with
  | None => Err "GetItem failed"
  | Some None => Ok None
  | Some (Some i) =>
      match parse_groups i with
      | Some groups => Ok (Some groups)
      | None => Err "malformed groups attribute"
      end
  end.
(** The resolver, while the table answers. *)
Definition resolver (t : Table) (user_id : UserId) (org_id : OrganizationId)
    : result string (option (list GroupName)) :=
  resolve (Some (t !! row_key user_id org_id)).
End Membership.

(** * Seeding *)
Module Seed.
Record SeedUser := { su_email : string; su_groups : list string; su_attributes : RawAttrMap }.
Record SeedUserSchema := { ss_standard : gmap string bool; ss_custom : gmap string bool }.
(** [SeedGroup] has the fields of [RbacEntry]. *)
Record SeedOrg := {
  so_org_id : string;
  so_pool_id : string;
  so_user_schema : SeedUserSchema;
  so_users : list SeedUser;
  so_groups : list Rbac.RbacEntry;
}.

(** ** Validation before any request *)
Inductive SchemaError := InvalidStandardAttr (name reason : string) | InvalidCustomAttr (name reason : string).
Inductive GroupError :=
| InvalidName (group reason : string) | Cycle (msg : string) | DanglingInherit (group parent : string).
Inductive PreflightError :=
| InvalidOrgId (org reason : string) | InvalidPoolId (org reason : string)
| Schema (org : string) (source : SchemaError)
| Attrs (org user : string) (errors : Validation.Errors)
| InvalidGroupName (org group reason : string)
| Groups (org : string) (source : GroupError).

Definition insert_standard (m : gmap StandardAttrName.t StandardAttrSpec) (e : string * bool)
    : result SchemaError (gmap StandardAttrName.t StandardAttrSpec) :=
  attr ← map_err (λ er, InvalidStandardAttr e.1 (authn_error_str er)) (StandardAttrName.from_str e.1);
  Ok (<[attr := {| std_required := e.2 |}]> m).
Definition insert_custom (m : gmap CustomAttrName.t CustomAttrSpec) (e : string * bool)
    : result SchemaError (gmap CustomAttrName.t CustomAttrSpec) :=
  attr ← map_err (λ er, InvalidCustomAttr e.1 (authn_error_str er)) (CustomAttrName.try_new e.1);
  Ok (<[attr := {| ty := StringType None None e.2 |}]> m).
Definition seed_user_schema_to_domain (s : SeedUserSchema) : result SchemaError UserSchema.t :=
  standard ← try_fold insert_standard (btree_entries String.compare (ss_standard s)) ∅;
  custom ← try_fold insert_custom (btree_entries String.compare (ss_custom s)) ∅;
  Ok (UserSchema.new standard custom).

Definition parse_dangling_parent (msg : string) : option string :=
  '(_, rest) ← split_once "'" msg;
  '(name, _) ← split_once "'" rest;
  Some name.
Definition classify_resolve_err (group msg : string) : GroupError :=
  if starts_with_str Rbac.CYCLE_PREFIX msg then Cycle msg
  else match parse_dangling_parent msg with
       | Some parent => DanglingInherit group parent
       | None => DanglingInherit group msg
       end.
Definition validate_seed_groups (entries : list Rbac.RbacEntry) : result GroupError () :=
  _ ← for_each (λ e, map_err (λ er, InvalidName (Rbac.name e) (Rbac.Validation.message er))
                       (Rbac.Validation.validate_group_name (Rbac.name e))) entries;
  for_each (λ e, _ ← map_err (classify_resolve_err (Rbac.name e))
                       (Rbac.resolve_inherits entries (Rbac.name e)); Ok ()) entries.

Definition preflight_user (org : SeedOrg) (schema : UserSchema.t) (user : SeedUser)
    : result PreflightError () :=
  _ ← map_err (Attrs (so_org_id org) (su_email user))
        (Validation.validate_attributes schema (su_attributes user));
  for_each (λ group, _ ← map_err (λ er, InvalidGroupName (so_org_id org) group (core_error_str er))
                           (Id.new (k:=GroupNameK) group); Ok ()) (su_groups user).
Definition preflight_org (org : SeedOrg) : result PreflightError UserSchema.t :=
  _ ← map_err (λ er, InvalidOrgId (so_org_id org) (core_error_str er)) (Id.new (k:=OrganizationIdK) (so_org_id org));
  _ ← map_err (λ er, InvalidPoolId (so_org_id org) (authn_error_str er)) (PoolId.try_new (so_pool_id org));
  schema ← map_err (Schema (so_org_id org)) (seed_user_schema_to_domain (so_user_schema org));
  _ ← for_each (preflight_user org schema) (so_users org);
  _ ← map_err (Groups (so_org_id org)) (validate_seed_groups (so_groups org));
  Ok schema.
Fixpoint preflight_validate (orgs : list SeedOrg) : result PreflightError (list UserSchema.t) :=
  match orgs with
  | [] => Ok []
  | org :: orgs =>
      schema ← preflight_org org;
      schemas ← preflight_validate orgs;
      Ok (schema :: schemas)
  end.

(** ** Provisioning *)
(** The causes the reports name. *)
Inductive SeedError :=
| BadPoolId (e : AuthnError.t) | BadOrgId (e : Error.t) | UpdatePool (e : UserPoolError.t) | BadAttrs (errors : Validation.Errors)
| CreateUser (e : UserPoolError.t) | GetUser (e : UserPoolError.t) | BadGroup (e : Error.t)
| BadCreator (e : Error.t) | PutItem (msg : string).
Section provision.
Context {P : Type} `{UserPoolClient P}.
Record State := { pool : P; table : Membership.Table }.
(** [now] of the context, in RFC 3339; a put that fails, and whether the item
    was stored nonetheless. *)
Context (now : string) (fault : Dynamo.key → option (string * bool)).
Definition with_pool (p : P) (s : State) : State := {| pool := p; table := table s |}.
Definition with_table (t : Membership.Table) (s : State) : State := {| pool := pool s; table := t |}.

Definition SEED_CREATED_BY : string := "xtask-seed".
Definition sync_pool_custom_attrs (pool_id : PoolId.t) (schema : UserSchema.t) (s : State)
    : result SeedError () * State :=
  if bool_decide (UserSchema.custom schema = ∅) then (Ok (), s)
  else
    let '(r, p) := update_user_pool {| up_pool_id := pool_id;
      up_schema_attrs := CognitoMapping.schema_to_cognito_attrs schema |} (pool s) in
    (match r with
     | Ok () | Err (UserPoolError.AttributeAlreadyExists _) => Ok ()
     | Err err => Err (UpdatePool err)
     | Stuck w => Stuck w
     end, with_pool p s).
(** [PutItem] unless the table has an item at the key. *)
Definition put_membership (row : Membership.MembershipRow) (s : State) : result SeedError () * State :=
  let item := list_to_map (Membership.membership_row_to_dynamo_attrs row) in
  let key := (Membership.membership_pk_for_user (Id.as_str (Membership.sub row)),
              "ORG#" +:+ Id.as_str (Membership.org_id row)) in
  let stored := match table s !! key with
                | Some _ => s
                | None => with_table (<[key := item]> (table s)) s
                end in
  match fault key with
  | Some (msg, was_stored) => (Err (PutItem msg), if was_stored then stored else s)
  | None => (Ok (), stored)
  end.
(** The attributes sent for a user. *)
Definition sent_attributes (user : SeedUser) : RawAttrMap :=
  <["email_verified" := "true"]> (su_attributes user).
Definition obtain_sub (pool_id : PoolId.t) (user : SeedUser) (s : State) : result SeedError UserId * State :=
  let '(r, p) := admin_create_user {| cu_pool_id := pool_id; cu_email := su_email user;
    cu_attributes := sent_attributes user |} (pool s) in
  match r with
  | Ok sub => (Ok sub, with_pool p s)
  | Err UserPoolError.UsernameExists =>
      let '(r, p) := admin_get_user pool_id (su_email user) p in
      (map_err GetUser r, with_pool p s)
  | Err err => (Err (CreateUser err), with_pool p s)
  | Stuck w => (Stuck w, with_pool p s)
  end.
Definition provision_user (pool_id : PoolId.t) (org_id : OrganizationId) (schema : UserSchema.t)
    (user : SeedUser) (s : State) : result SeedError () * State :=
  match Validation.validate_attributes schema (su_attributes user) with
  | Ok _ =>
      let '(r, s) := obtain_sub pool_id user s in
      match (sub ← r; groups ← map_err BadGroup (mapM Id.new (su_groups user));
             created_by ← map_err BadCreator (Id.new SEED_CREATED_BY);
             Ok {| Membership.sub := sub; Membership.org_id := org_id; Membership.groups := groups;
                   Membership.email := su_email user; Membership.created_at := now;
                   Membership.created_by := created_by |}) with
      | Ok row => put_membership row s
      | Err e => (Err e, s)
      | Stuck w => (Stuck w, s)
      end
  | Err errs => (Err (BadAttrs errs), s)
  | Stuck w => (Stuck w, s)
  end.
Fixpoint each {A} (f : A → State → result SeedError () * State) (l : list A) (s : State)
    : result SeedError () * State :=
  match l with
  | [] => (Ok (), s)
  | a :: l => match f a s with (Ok (), s) => each f l s | stop => stop end
  end.
Definition write_users (org : SeedOrg) (schema : UserSchema.t) (s : State) : result SeedError () * State :=
  match (pool_id ← map_err BadPoolId (PoolId.try_new (so_pool_id org));
         org_id ← map_err BadOrgId (Id.new (so_org_id org)); Ok (pool_id, org_id)) with
  | Ok (pool_id, org_id) =>
      match sync_pool_custom_attrs pool_id schema s with
      | (Ok (), s) => each (provision_user pool_id org_id schema) (so_users org) s
      | stop => stop
      end
  | Err e => (Err e, s)
  | Stuck w => (Stuck w, s)
  end.
(** The last phase of [run], for the organizations and their schemas. *)
Definition seed_users (orgs : list SeedOrg) (schemas : list UserSchema.t) (s : State)
    : result SeedError () * State :=
  each (λ e, write_users e.1 e.2) (zip orgs schemas) s.
End provision.
End Seed.

(** * What seeding does *)
Module SeedFacts.
Import Seed.
Section seeding.
Context {P : Type} `{UserPoolLaws P} (now : string) (fault : Dynamo.key → option (string * bool)).
Implicit Types (s : State (P:=P)) (user : SeedUser) (org : SeedOrg) (schema : UserSchema.t).

(** The state grows, and what the table gains is accounted for. *)
Definition extends s s' : Prop := table s ⊆ table s' ∧ subs (pool s) ⊆ subs (pool s').
Definition accounted (Q : State (P:=P) → Dynamo.key → Membership.item → Prop) s s' : Prop :=
  extends s s' ∧
  ∀ k i, table s' !! k = Some i → table s !! k = Some i ∨ Q s' k i.
#[local] Instance extends_preorder : PreOrder extends.
Proof. split; unfold extends; [done|]. intros ??? [??] [??]. split; by etrans. Qed.

(** The user has a sub, and there is a row for it in the organization. *)
Definition settled (pool_id : PoolId.t) (org_id : OrganizationId) schema user s : Prop :=
  is_ok (Validation.validate_attributes schema (su_attributes user)) = true ∧
  is_ok (mapM (Id.new (k:=GroupNameK)) (su_groups user)) = true ∧
  ∃ sub, subs (pool s) !! (pool_id, su_email user) = Some sub ∧
    is_Some (table s !! Membership.row_key sub org_id).
(** The row of a user with its declared groups. *)
Definition row_of (pool_id : PoolId.t) (org_id : OrganizationId) user s (k : Dynamo.key)
    (i : Membership.item) : Prop :=
  ∃ sub groups row, subs (pool s) !! (pool_id, su_email user) = Some sub ∧
    mapM Id.new (su_groups user) = Ok groups ∧ k = Membership.row_key sub org_id ∧
    i = list_to_map (Membership.membership_row_to_dynamo_attrs row) ∧
    Membership.groups row = groups.
Lemma settled_extends pool_id org_id schema user s s' :
  extends s s' → settled pool_id org_id schema user s → settled pool_id org_id schema user s'.
Proof.
  intros [Ht Hp] (? & ? & sub & Hs & [i Hi]). split_and!; [done..|]. exists sub.
  split; [by eapply lookup_weaken|]. exists i. by eapply lookup_weaken.
Qed.
Lemma row_of_extends pool_id org_id user s s' k i :
  extends s s' → row_of pool_id org_id user s k i → row_of pool_id org_id user s' k i.
Proof.
  intros [_ Hp] (sub & groups & row & Hs & ?). exists sub, groups, row. split; [|done].
  by eapply lookup_weaken.
Qed.

(** ** Loops *)
Lemma each_accounted {A} (f : A → State → result SeedError () * State)
    (Q : A → State → Dynamo.key → Membership.item → Prop) (D : A → State → Prop) l s s' :
  (∀ a s s' k i, extends s s' → Q a s k i → Q a s' k i) →
  (∀ a s s', extends s s' → D a s → D a s') →
  (∀ a s s', f a s = (Ok (), s') → accounted (Q a) s s' ∧ D a s') →
  each f l s = (Ok (), s') →
  accounted (λ s k i, ∃ a, a ∈ l ∧ Q a s k i) s s' ∧ ∀ a, a ∈ l → D a s'.
Proof.
  intros HQ HD Hf. revert s. induction l as [|a l IH]; intros s; simpl.
  - intros [= <-]. split; [split; [done|by left]|set_solver].
  - destruct (f a s) as [[[]| |] s1] eqn:Ha; [|discriminate..]. intros Hl.
    destruct (Hf _ _ _ Ha) as [[He1 Hq1] Hd1], (IH _ Hl) as [[He2 Hq2] Hd2].
    split; [split; [by etrans|]|].
    + intros k i [Hi|(b & Hb & Hq)]%Hq2; [|right; exists b; split; [by right|done]].
      apply Hq1 in Hi as [?|Hq]; [by left|]. right. exists a. split; [left|by eapply HQ].
    + intros b [->|Hb]%elem_of_cons; [by eapply HD|by apply Hd2].
Qed.
Lemma each_completes {A} (f : A → State → result SeedError () * State) (I : State → Prop) l s :
  (∀ a s, a ∈ l → I s → ∃ s', f a s = (Ok (), s') ∧ I s') → I s →
  ∃ s', each f l s = (Ok (), s') ∧ I s'.
Proof.
  revert s. induction l as [|a l IH]; intros s Hf Hs; simpl; [by exists s|].
  destruct (Hf a s) as (s1 & -> & Hs1); [left|done|]. apply IH; [|done].
  intros b s2 Hb. apply Hf. by right.
Qed.

(** ** A user *)
Lemma sync_keeps pool_id schema s r s' :
  sync_pool_custom_attrs pool_id schema s = (r, s') → table s' = table s ∧ subs (pool s') = subs (pool s).
Proof.
  unfold sync_pool_custom_attrs. case_bool_decide; [by intros [= <- <-]|].
  destruct (update_user_pool _ _) as [r0 p] eqn:Hu. intros [= <- <-]. simpl.
  split; [done|]. by eapply update_law.
Qed.
Lemma obtain_sub_ok pool_id user s sub s' : obtain_sub pool_id user s = (Ok sub, s') →
  table s' = table s ∧ subs (pool s) ⊆ subs (pool s') ∧
  subs (pool s') !! (pool_id, su_email user) = Some sub.
Proof.
  unfold obtain_sub. destruct (admin_create_user _ _) as [r p] eqn:Hc. apply create_law in Hc.
  cbn [cu_pool_id cu_email] in Hc. destruct r as [sub'|[]|]; try discriminate.
  - intros [= <- <-]. destruct Hc as [Hn Hs]. cbn [table pool with_pool]. rewrite Hs.
    split; [done|]. split; [by apply insert_subseteq|by rewrite lookup_insert_eq].
  - destruct (admin_get_user _ _ p) as [r' p'] eqn:Hg. apply get_law in Hg as [Hp Hsub].
    destruct r' as [sub'| |]; intros [= <- <-]. cbn [table pool with_pool].
    rewrite Hp. split_and!; [done|by rewrite <-Hc|by apply Hsub].
Qed.
Lemma put_membership_ok row s s' : put_membership fault row s = (Ok (), s') →
  let k := Membership.row_key (Membership.sub row) (Membership.org_id row) in
  let i := list_to_map (Membership.membership_row_to_dynamo_attrs row) in
  pool s' = pool s ∧ is_Some (table s' !! k) ∧
  table s' = match table s !! k with Some _ => table s | None => <[k := i]> (table s) end.
Proof.
  unfold put_membership. destruct (fault _) as [[msg st]|]; [discriminate|]. intros [= <-].
  change (Membership.membership_pk_for_user (Id.as_str (Membership.sub row)),
    "ORG#" +:+ Id.as_str (Membership.org_id row))
    with (Membership.row_key (Membership.sub row) (Membership.org_id row)).
  destruct (table s !! _) eqn:Hk; [by split_and!|]. simpl. rewrite lookup_insert_eq. by split_and!.
Qed.
Lemma provision_accounted pool_id org_id schema user s s' :
  provision_user now fault pool_id org_id schema user s = (Ok (), s') →
  accounted (row_of pool_id org_id user) s s' ∧ settled pool_id org_id schema user s'.
Proof.
  unfold provision_user, settled. destruct (Validation.validate_attributes _ _); [|discriminate..].
  destruct (obtain_sub _ _ _) as [r s1] eqn:Ho.
  destruct r as [sub| |]; [|discriminate..]. apply obtain_sub_ok in Ho as (Ht & Hp & Hs).
  cbn [mbind result_bind]. destruct (mapM Id.new (su_groups user)) as [groups| |] eqn:Hg; [|discriminate..].
  cbn [map_err mbind result_bind].
  destruct (Id.new SEED_CREATED_BY) as [creator| |]; [|discriminate..].
  cbn [map_err mbind result_bind].
  match goal with |- context [put_membership _ ?r] => set (row := r) end.
  intros (Hp' & Hk & Ht')%put_membership_ok.
  rewrite Ht in Ht'. unfold accounted, extends. rewrite Hp'. split; [split; [split; [|done]|]|].
  - rewrite Ht'. case_match; [done|by apply insert_subseteq].
  - intros k i Hi. rewrite Ht' in Hi. case_match; [by left|].
    apply lookup_insert_Some in Hi as [[<- <-]|[_ ?]]; [right|by left].
    exists sub, groups, row. rewrite Hp'. split; [exact Hs|]. split; [exact Hg|].
    split; [reflexivity|]. split; reflexivity.
  - split; [done|]. split; [done|]. exists sub. split; [exact Hs|exact Hk].
Qed.

(** ** An organization *)
Definition ids_of org (pool_id : PoolId.t) (org_id : OrganizationId) : Prop :=
  PoolId.try_new (so_pool_id org) = Ok pool_id ∧ Id.new (so_org_id org) = Ok org_id.
Definition org_rows (e : SeedOrg * UserSchema.t) s (k : Dynamo.key) (i : Membership.item) : Prop :=
  ∃ pool_id org_id user, ids_of e.1 pool_id org_id ∧ user ∈ so_users e.1 ∧
    row_of pool_id org_id user s k i.
Definition org_settled (e : SeedOrg * UserSchema.t) s : Prop :=
  ∃ pool_id org_id, ids_of e.1 pool_id org_id ∧
    ∀ user, user ∈ so_users e.1 → settled pool_id org_id e.2 user s.
Lemma write_users_ids org schema s : ∀ s', write_users now fault org schema s = (Ok (), s') →
  ∃ pool_id org_id s1, ids_of org pool_id org_id ∧ sync_pool_custom_attrs pool_id schema s = (Ok (), s1) ∧
    each (provision_user now fault pool_id org_id schema) (so_users org) s1 = (Ok (), s').
Proof.
  intros s'. unfold write_users, ids_of. destruct (PoolId.try_new _) as [pool_id| |]; [|discriminate..].
  cbn [map_err mbind result_bind]. destruct (Id.new _) as [org_id| |]; [|discriminate..].
  cbn [map_err mbind result_bind]. destruct (sync_pool_custom_attrs _ _ _) as [[[]| |] s1] eqn:Hs;
    [|discriminate..]. intros He. by exists pool_id, org_id, s1.
Qed.
Lemma write_users_accounted (e : SeedOrg * UserSchema.t) s s' :
  write_users now fault e.1 e.2 s = (Ok (), s') → accounted (org_rows e) s s' ∧ org_settled e s'.
Proof.
  intros (pool_id & org_id & s1 & Hids & Hsync & He)%write_users_ids.
  apply sync_keeps in Hsync as [Ht Hp].
  apply (each_accounted _ (row_of pool_id org_id) (settled pool_id org_id e.2)) in He
    as [[[Hx1 Hx2] Hq] Hd].
  - rewrite Ht in Hx1, Hq. rewrite Hp in Hx2. split; [split; [by split|]|by exists pool_id, org_id].
    intros k i [?|(user & Hu & Hr)]%Hq; [by left|right]. by exists pool_id, org_id, user.
  - intros user s2 s3 k i. apply row_of_extends.
  - intros user s2 s3. apply settled_extends.
  - intros user s2 s3. apply provision_accounted.
Qed.
Lemma seed_users_accounted orgs schemas s s' : seed_users now fault orgs schemas s = (Ok (), s') →
  accounted (λ s k i, ∃ e, e ∈ zip orgs schemas ∧ org_rows e s k i) s s' ∧
  ∀ e, e ∈ zip orgs schemas → org_settled e s'.
Proof.
  apply each_accounted.
  - intros e s1 s2 k i Hx (pool_id & org_id & user & ? & ? & ?). exists pool_id, org_id, user.
    split_and!; [done..|]. by eapply row_of_extends.
  - intros e s1 s2 Hx (pool_id & org_id & ? & Hs). exists pool_id, org_id. split; [done|].
    intros user Hu. eapply settled_extends, Hs; done.
  - intros e s1 s2. apply write_users_accounted.
Qed.

(** ** Completion *)
(** Nothing changed but the pool's internal state. *)
Definition unchanged s s' : Prop := table s' = table s ∧ subs (pool s') = subs (pool s).
Context (no_fault : ∀ k, fault k = None).
Lemma sync_completes pool_id schema s : ready (pool s) →
  ∃ s', sync_pool_custom_attrs pool_id schema s = (Ok (), s') ∧ ready (pool s').
Proof.
  intros Hr. unfold sync_pool_custom_attrs. case_bool_decide; [by exists s|].
  edestruct (update_ready (P:=P)) as (r & p & -> & Hr' & Hres); [exact Hr|].
  destruct Hres as [->|[name ->]]; by eexists.
Qed.
Lemma obtain_completes pool_id user s : ready (pool s) →
  ∃ sub s', obtain_sub pool_id user s = (Ok sub, s') ∧ ready (pool s') ∧ table s' = table s ∧
    (is_Some (subs (pool s) !! (pool_id, su_email user)) → subs (pool s') = subs (pool s)).
Proof.
  intros Hr. unfold obtain_sub.
  edestruct (create_ready (P:=P)) as (r & p & Hc & Hr' & Hres); [exact Hr|]. rewrite Hc.
  apply create_law in Hc. cbn [cu_pool_id cu_email] in *. destruct (decide _) as [Hn|Hn].
  - destruct Hres as [sub ->]. eexists _, _. split; [done|]. split; [done|]. split; [done|].
    rewrite Hn. by intros [].
  - subst r. destruct (get_ready pool_id (su_email user) p Hr') as (p' & Hrp & Hg).
    rewrite Hg, Hc. pose proof (proj1 (get_law _ _ _ _ _ Hg)) as Hp.
    destruct (subs (pool s) !! _) as [sub|]; [|done]. eexists _, _. split; [done|].
    cbn [table pool with_pool]. rewrite Hp. by split_and!.
Qed.
Lemma put_completes row s : ∃ s', put_membership fault row s = (Ok (), s').
Proof. unfold put_membership. rewrite no_fault. by eexists. Qed.
Lemma provision_completes pool_id org_id schema user s :
  is_ok (Validation.validate_attributes schema (su_attributes user)) = true →
  is_ok (mapM (Id.new (k:=GroupNameK)) (su_groups user)) = true → ready (pool s) →
  ∃ s', provision_user now fault pool_id org_id schema user s = (Ok (), s') ∧ ready (pool s') ∧
    (settled pool_id org_id schema user s → unchanged s s').
Proof.
  intros [ua Hv]%is_ok_true [groups Hg]%is_ok_true Hr. unfold provision_user. rewrite Hv.
  destruct (obtain_completes pool_id user s Hr) as (sub & s1 & Ho & Hr1 & Ht1 & Hs1). rewrite Ho.
  cbn [mbind result_bind]. rewrite Hg. cbn [map_err mbind result_bind].
  destruct (Id.new SEED_CREATED_BY) as [creator| |] eqn:Hcr; [|discriminate..].
  cbn [map_err mbind result_bind].
  match goal with |- context [put_membership _ ?r] => set (row := r) end.
  destruct (put_completes row s1) as [s2 Hput]. exists s2. split; [exact Hput|].
  apply put_membership_ok in Hput as (Hp2 & _ & Ht2). rewrite Hp2. split; [exact Hr1|].
  intros (_ & _ & sub' & Hsub & [i Hi]). unfold unchanged. rewrite Hp2, Hs1 by done. split; [|done].
  apply obtain_sub_ok in Ho as (_ & _ & Hsub'). rewrite Hs1 in Hsub' by done.
  assert (sub' = sub) as -> by congruence. rewrite Ht2, Ht1.
  change (Membership.row_key (Membership.sub row) (Membership.org_id row))
    with (Membership.row_key sub org_id). by rewrite Hi.
Qed.
Lemma write_users_completes org schema pool_id org_id s : ids_of org pool_id org_id →
  (∀ user, user ∈ so_users org →
     is_ok (Validation.validate_attributes schema (su_attributes user)) = true ∧
     is_ok (mapM (Id.new (k:=GroupNameK)) (su_groups user)) = true) →
  ready (pool s) →
  ∃ s', write_users now fault org schema s = (Ok (), s') ∧ ready (pool s') ∧
    (org_settled (org, schema) s → unchanged s s').
Proof.
  intros [Hpool Horg] Hus Hr. unfold write_users. rewrite Hpool, Horg. cbn [map_err mbind result_bind].
  destruct (sync_completes pool_id schema s Hr) as (s1 & Hs & Hr1). rewrite Hs.
  apply sync_keeps in Hs as [Ht1 Hp1].
  edestruct (each_completes (provision_user now fault pool_id org_id schema)
    (λ s', ready (pool s') ∧ (org_settled (org, schema) s → unchanged s s'))) as (s' & -> & Hr' & Hu).
  2:{ split; [exact Hr1|]. by split. }
  - intros user s2 Hu [Hr2 Hun]. destruct (Hus user Hu) as [Hv Hg].
    destruct (provision_completes pool_id org_id schema user s2 Hv Hg Hr2) as (s3 & Hp & Hr3 & Hun3).
    exists s3. split; [exact Hp|]. split; [exact Hr3|]. intros Hset.
    destruct (Hun Hset) as [Ht2 Hp2]. destruct Hset as (pool_id' & org_id' & [Hpool' Horg'] & Hset).
    cbn [fst snd] in *. assert (pool_id' = pool_id) as -> by congruence.
    assert (org_id' = org_id) as -> by congruence.
    destruct Hun3 as [Ht3 Hp3]; [|split; congruence].
    eapply settled_extends, Hset, Hu. split; by rewrite ?Ht2, ?Hp2.
  - by exists s'.
Qed.
(** What a run needs of an organization. *)
Definition checked (e : SeedOrg * UserSchema.t) : Prop :=
  ∃ pool_id org_id, ids_of e.1 pool_id org_id ∧ ∀ user, user ∈ so_users e.1 →
    is_ok (Validation.validate_attributes e.2 (su_attributes user)) = true ∧
    is_ok (mapM (Id.new (k:=GroupNameK)) (su_groups user)) = true.
Lemma seed_users_completes orgs schemas s : (∀ e, e ∈ zip orgs schemas → checked e) →
  ready (pool s) →
  ∃ s', seed_users now fault orgs schemas s = (Ok (), s') ∧ ready (pool s') ∧
    ((∀ e, e ∈ zip orgs schemas → org_settled e s) → unchanged s s').
Proof.
  intros Hall Hr. unfold seed_users.
  edestruct (each_completes (λ e : SeedOrg * UserSchema.t, write_users now fault e.1 e.2)
    (λ s', ready (pool s') ∧ ((∀ e, e ∈ zip orgs schemas → org_settled e s) → unchanged s s')))
    as (s' & -> & Hr' & Hu).
  2:{ split; [exact Hr|]. by split. }
  - intros [org schema] s2 He [Hr2 Hun]. destruct (Hall _ He) as (pool_id & org_id & Hids & Hus).
    destruct (write_users_completes org schema pool_id org_id s2 Hids Hus Hr2) as (s3 & Hw & Hr3 & Hun3).
    exists s3. split; [exact Hw|]. split; [exact Hr3|]. intros Hset.
    destruct (Hun Hset) as [Ht2 Hp2]. destruct Hun3 as [Ht3 Hp3]; [|split; congruence].
    destruct (Hset _ He) as (pool_id' & org_id' & Hids' & Hset'). exists pool_id', org_id'.
    split; [done|]. intros user Hu. eapply settled_extends, Hset', Hu. split; by rewrite ?Ht2, ?Hp2.
  - by exists s'.
Qed.
End seeding.

(** ** Preflight *)
Lemma mapM_is_ok {E A B} (f : A → result E B) l :
  (∀ x, x ∈ l → is_ok (f x) = true) → is_ok (mapM f l) = true.
Proof.
  induction l as [|x l IH]; intros Hl; simpl; [done|].
  destruct (proj1 (is_ok_true _) (Hl x ltac:(left))) as [y ->]. simpl.
  destruct (proj1 (is_ok_true _) (IH ltac:(intros; apply Hl; by right))) as [k ->]. done.
Qed.
Lemma preflight_checked orgs schemas : preflight_validate orgs = Ok schemas →
  length schemas = length orgs ∧ ∀ e, e ∈ zip orgs schemas → checked e.
Proof.
  revert schemas. induction orgs as [|org orgs IH]; intros schemas; simpl.
  { intros [= <-]. split; [done|]. intros e He. by apply elem_of_nil in He. }
  intros (schema & Horg & (rest & [Hlen Hrest]%IH & [= <-])%bind_Ok)%bind_Ok.
  split; [simpl; by rewrite Hlen|]. simpl. intros e [->|He]%elem_of_cons; [|by apply Hrest].
  unfold preflight_org in Horg.
  apply bind_Ok in Horg as (org_id & Hid%map_err_Ok & Horg).
  apply bind_Ok in Horg as (pool_id & Hpool%map_err_Ok & Horg).
  apply bind_Ok in Horg as (schema' & _ & Horg).
  apply bind_Ok in Horg as ([] & Husers & Horg).
  apply bind_Ok in Horg as (_ & _ & [= ->]).
  exists pool_id, org_id. split; [done|]. cbn [fst snd]. intros user Hu.
  pose proof (proj1 (for_each_Ok _ _) Husers user Hu) as Hok. unfold preflight_user in Hok.
  apply bind_Ok in Hok as (ua & Hv%map_err_Ok & Hgs). rewrite Hv. split; [done|].
  apply mapM_is_ok. intros g Hg. apply is_ok_true.
  pose proof (proj1 (for_each_Ok _ _) Hgs g Hg) as (x & Hx%map_err_Ok & _)%bind_Ok. by exists x.
Qed.

(** ** Reading rows back *)
Lemma parse_row row : Forall Id.wf (Membership.groups row) →
  Membership.parse_groups (list_to_map (Membership.membership_row_to_dynamo_attrs row)) =
  Some (Membership.groups row).
Proof.
  intros Hwf. unfold Membership.parse_groups.
  assert ((list_to_map (Membership.membership_row_to_dynamo_attrs row) : Membership.item) !! "groups" =
    Some (Membership.L ((λ g, Dynamo.S (Id.as_str g)) <$> Membership.groups row))) as ->.
  { apply elem_of_list_to_map_1; [|unfold Membership.membership_row_to_dynamo_attrs; set_solver].
    change (NoDup ["PK"; "SK"; "user_id"; "org_id"; "groups"; "joined_at"; "email"; "created_by"]).
    apply (bool_decide_unpack _). vm_compute. exact I. }
  cbn [mbind option_bind Membership.as_l]. f_equal.
  induction Hwf as [|g gs Hg _ IH]; [done|]. cbn [fmap list_fmap omap list_omap Dynamo.as_s].
  unfold Membership.group_of at 1. rewrite (proj2 (id_new_Ok _ g)) by done. by rewrite IH.
Qed.
End SeedFacts.
Import SeedFacts.

(** * A sample seed *)
Module SeedSample.
Definition ulid (n : nat) : string :=
  match n with 0 => "01JA" | 1 => "01JB" | _ => "01JC" end.
Lemma ulid_ok n : is_ok (Id.new (k:=UserIdK) (to_ascii_lowercase (ulid n))) = true.
Proof. destruct n as [|[|n]]; reflexivity. Qed.
#[global] Instance pool : UserPoolClient InMemoryUserPoolClient.t := InMemoryUserPoolClient.client ulid.
#[global] Instance pool_laws : UserPoolLaws InMemoryUserPoolClient.t :=
  InMemoryFacts.in_memory_laws ulid ulid_ok.
Definition user (email : string) (groups : list string) : Seed.SeedUser :=
  {| Seed.su_email := email; Seed.su_groups := groups;
     Seed.su_attributes := list_to_map [("name", email); ("team", "core")] |}.
Definition role (name : string) (inherits : list string) : Rbac.RbacEntry :=
  {| Rbac.name := name; Rbac.description := None; Rbac.inherits := inherits;
     Rbac.allow := ["app:doc:read"]; Rbac.tenant_scoped := true |}.
Definition acme : Seed.SeedOrg :=
  {| Seed.so_org_id := "org-acme"; Seed.so_pool_id := "us-east-2_Acme";
     Seed.so_user_schema := {| Seed.ss_standard := {["name" := true]}; Seed.ss_custom := {["team" := false]} |};
     Seed.so_users := [user "ann@acme" ["admin"; "member"]; user "bob@acme" ["member"]];
     Seed.so_groups := [role "member" []; role "admin" ["member"]] |}.
Definition schemas : list UserSchema.t := unwrap_or (Seed.preflight_validate [acme]) [].
Definition start : Seed.State (P:=InMemoryUserPoolClient.t) :=
  {| Seed.pool := InMemoryUserPoolClient.new; Seed.table := ∅ |}.
Definition outcome := Seed.seed_users "2026-01-01T00:00:00+00:00" (λ _, None) [acme] schemas start.
Definition bob_row : Dynamo.key := ("USER#01jb", "ORG#org-acme").
Lemma preflight_ok : Seed.preflight_validate [acme] = Ok schemas.
Proof.
  assert (is_ok (Seed.preflight_validate [acme]) = true) as Hok by (vm_compute; reflexivity).
  unfold schemas. destruct (Seed.preflight_validate [acme]); [reflexivity|discriminate Hok..].
Qed.
Lemma outcome_ok : outcome = (Ok (), outcome.2).
Proof.
  assert (is_ok outcome.1 = true) as Hok by (vm_compute; reflexivity).
  destruct outcome as [[[]| |] s]; [reflexivity|discriminate Hok..].
Qed.
Lemma start_ready : ready (Seed.pool start).
Proof. by split. Qed.
Lemma bob_stored : bool_decide (is_Some (Seed.table outcome.2 !! bob_row)) = true.
Proof. vm_compute. reflexivity. Qed.
End SeedSample.

(** C15: When seeding the users of the organizations succeeds, whatever the pool
    held: no membership and no sub that existed has changed; every declared
    user has a sub in its organization's pool, and a membership row under it;
    and a row that is new is that of a declared user, for whom the control
    plane then resolves exactly the groups declared, each a group name. *)
Theorem seeded_members_resolve `{UserPoolLaws P} now fault orgs schemas (s s' : Seed.State (P:=P)) :
  Seed.seed_users now fault orgs schemas s = (Ok (), s') →
  Seed.table s ⊆ Seed.table s' ∧ subs (Seed.pool s) ⊆ subs (Seed.pool s') ∧
  (∀ org schema user, (org, schema) ∈ zip orgs schemas → user ∈ Seed.so_users org →
     ∃ pool_id org_id sub, ids_of org pool_id org_id ∧
       subs (Seed.pool s') !! (pool_id, Seed.su_email user) = Some sub ∧
       is_Some (Seed.table s' !! Membership.row_key sub org_id)) ∧
  ∀ k, Seed.table s !! k = None → is_Some (Seed.table s' !! k) →
    ∃ org schema user pool_id org_id sub groups,
      (org, schema) ∈ zip orgs schemas ∧ user ∈ Seed.so_users org ∧ ids_of org pool_id org_id ∧
      subs (Seed.pool s') !! (pool_id, Seed.su_email user) = Some sub ∧
      k = Membership.row_key sub org_id ∧
      Membership.resolver (Seed.table s') sub org_id = Ok (Some groups) ∧
      Id.as_str <$> groups = Seed.su_groups user.
Proof.
  intros [[[Ht Hp] Hq] Hd]%seed_users_accounted. split; [done|]. split; [done|]. split.
  - intros org schema user He Hu. destruct (Hd _ He) as (pool_id & org_id & Hids & Hset).
    destruct (Hset user Hu) as (_ & _ & sub & Hs & Hi). by exists pool_id, org_id, sub.
  - intros k Hk [i Hi]. pose proof Hi as Hi'.
    apply Hq in Hi' as [?|([org schema] & He & pool_id & org_id & user & Hids & Hu & Hrow)]; [congruence|].
    destruct Hrow as (sub & groups & row & Hs & Hg%mapM_Ok & -> & -> & <-).
    assert (Forall Id.wf (Membership.groups row) ∧ Id.as_str <$> Membership.groups row = Seed.su_groups user)
      as [Hwf Hgs].
    { clear -Hg. induction Hg as [|x g l k Hx _ [IH1 IH2]]; [done|]. apply id_new_Ok in Hx as [<- Hx].
      split; [by constructor|]. cbn. by rewrite IH2. }
    exists org, schema, user, pool_id, org_id, sub, (Membership.groups row).
    split_and!; try done. unfold Membership.resolver. rewrite Hi. cbn [Membership.resolve].
    by rewrite parse_row.
Qed.

Lemma seeded_members_resolve_witness : ∃ sub groups,
  SeedSample.bob_row = Membership.row_key sub (Id.mk (Segment.mk "org-acme")) ∧
  Membership.resolver (Seed.table SeedSample.outcome.2) sub (Id.mk (Segment.mk "org-acme")) = Ok (Some groups) ∧
  Id.as_str <$> groups = ["member"].
Proof.
  destruct (seeded_members_resolve "2026-01-01T00:00:00+00:00" (λ _, None) [SeedSample.acme]
    SeedSample.schemas SeedSample.start SeedSample.outcome.2 SeedSample.outcome_ok)
    as (_ & _ & _ & Hnew).
  destruct (Hnew SeedSample.bob_row eq_refl (bool_decide_eq_true_1 _ SeedSample.bob_stored))
    as (org & schema & user & pool_id & org_id & sub & groups & He & Hu & [Hpool Horg] & Hs & Hk & Hr & Hg).
  exists sub, groups. apply list_elem_of_singleton in He. injection He as -> ->.
  assert (org_id = Id.mk (Segment.mk "org-acme")) as ->
    by (apply id_as_str_inj; apply id_new_Ok in Horg as [Horg _]; exact Horg).
  split; [exact Hk|]. split; [exact Hr|].
  apply elem_of_cons in Hu as [->|Hu%list_elem_of_singleton]; [exfalso|subst user; exact Hg].
  cbn [fst] in Hpool. unfold PoolId.try_new in Hpool. injection Hpool as <-.
  assert (Id.as_str <$> Some sub = Some "01ja") as Hsub by (rewrite <-Hs; vm_compute; reflexivity).
  injection Hsub as Hsub. unfold Membership.row_key in Hk. rewrite Hsub in Hk. discriminate Hk.
Defined.

(** A seed file that passes the validation can be seeded: when the pool and
    the table answer, provisioning ends with success, and a second run, at any
    time, succeeds too and leaves the memberships and the pool's users as they
    are. *)
Theorem seeding_completes `{UserPoolLaws P} now orgs schemas (s : Seed.State (P:=P)) :
  Seed.preflight_validate orgs = Ok schemas → ready (Seed.pool s) →
  length schemas = length orgs ∧
  ∃ s', Seed.seed_users now (λ _, None) orgs schemas s = (Ok (), s') ∧
    ∀ later, ∃ s'', Seed.seed_users later (λ _, None) orgs schemas s' = (Ok (), s'') ∧
      Seed.table s'' = Seed.table s' ∧ subs (Seed.pool s'') = subs (Seed.pool s').
Proof.
  intros [Hlen Hc]%preflight_checked Hr. split; [done|].
  destruct (seed_users_completes now (λ _, None) (λ _, eq_refl) orgs schemas s Hc Hr) as (s' & Hs & Hr' & _).
  exists s'. split; [done|]. intros later.
  destruct (seed_users_completes later (λ _, None) (λ _, eq_refl) orgs schemas s' Hc Hr')
    as (s'' & Hs'' & _ & Hun).
  exists s''. split; [done|]. apply Hun. by apply seed_users_accounted in Hs as [_ Hs].
Qed.

Lemma seeding_completes_witness :
  ∃ s', Seed.seed_users "2026-01-01T00:00:00+00:00" (λ _, None) [SeedSample.acme] SeedSample.schemas
    SeedSample.start = (Ok (), s').
Proof.
  destruct (seeding_completes "2026-01-01T00:00:00+00:00" [SeedSample.acme] SeedSample.schemas
    SeedSample.start SeedSample.preflight_ok SeedSample.start_ready) as [_ (s' & Hs & _)].
  exists s'. exact Hs.
Defined.

(** No attribute that a seeded user is created with has the name under which
    the pool got a custom attribute of the schema: that name has a prefix, the
    one sent has none. *)
Theorem custom_attributes_sent_bare schema user ua def :
  Validation.validate_attributes schema (Seed.su_attributes user) = Ok ua →
  def ∈ CognitoMapping.schema_to_cognito_attrs schema →
  Seed.sent_attributes user !! CognitoMapping.name def = None.
Proof.
  intros [[_ Hk] _]%SchemaFacts.validate_ok Hdef.
  assert (∃ n, CognitoMapping.name def = "custom:" +:+ n) as [n ->].
  { apply list_elem_of_fmap in Hdef as ([name [[mn mx req]]] & -> & _). by eexists. }
  unfold Seed.sent_attributes. rewrite lookup_insert_ne by done.
  destruct (Seed.su_attributes user !! _) as [v|] eqn:Hv; [|done]. exfalso.
  destruct (Hk _ _ Hv) as [[Ha|(m & sp & Hm & _)]|(sp & Hsp & _)].
  - revert Ha. unfold Validation.ALWAYS_ACCEPTED. set_solver.
  - discriminate Hm.
  - unfold SchemaFacts.custom_key in Hsp. destruct (CustomAttrName.try_new _) eqn:Ht; try discriminate.
    unfold CustomAttrName.try_new in Ht. cbn [is_empty String.append str_all] in Ht.
    case_bool_decide; [discriminate|]. discriminate Ht.
Qed.

