(* ===== verification/ReadModel.v ===== *)
(** The stores behind the control plane's handlers: entity tags
    ([control-plane/src/etag.rs]), the organization read model and its traits
    ([store/mod.rs], [store/groups.rs]), and the in-memory event store that
    writes through to it ([model_event_store/in_memory.rs],
    [new_with_org_store]).  The handlers are written against the two traits,
    here classes; [OrgStoreLaws] and [ModelEventStoreLaws] state what they promise, and the in-memory
    pair is proved to keep the promise. *)

From stdpp Require Import pretty.
From S2P Require Import Prelude RustStr Decimal Ident Fgrn Store Event Org Rbac EventStore Action Authn.

(** * Entity tags *)
Module EtagRules.
Inductive IfMatch := Wildcard | Strong (e : Etag.t).
Inductive IfNoneMatchResult := NotMatched | Matched | WildcardMatched | WildcardOnDraft.

Definition parse_if_match (raw : string) : option IfMatch :=
  let trimmed := trim raw in
  if is_empty trimmed then None
  else if bool_decide (trimmed = "*") then Some Wildcard
  else match Etag.try_new trimmed with Ok e => Some (Strong e) | _ => None end.
Definition check_if_none_match (header : option IfMatch) (stored_etag : option Etag.t)
    : IfNoneMatchResult :=
  match header, stored_etag with
  | None, _ => NotMatched
  | Some Wildcard, Some _ => WildcardMatched
  | Some Wildcard, None => WildcardOnDraft
  | Some (Strong h), Some s => if bool_decide (h = s) then Matched else NotMatched
  | Some (Strong _), None => NotMatched
  end.
End EtagRules.

(** Libraries: JSON values and text, digest, signature, xxHash, timestamps.
    The configuration of an organization is opaque. *)
Class CpLib (OrgConfig : Type) := {
  to_vec : Json.t → string;
  sha256_hex : string → string;
  sign_b64 : string → string;
  org_value : Organization.t → result string Json.t;
  config_value : OrgConfig → result string Json.t;
  keys_value : list SigningKey.entry → result string Json.t;
  group_value : Rbac.RbacEntry → result string Json.t;
  envelope_value : Envelope.t → result string Json.t;
  config_text : OrgConfig → result string string;
  group_text : Rbac.RbacEntry → result string string;
  xxh64 : string → N;
  to_rfc3339 : instant → string;
  verifying_key_pem : result CpError.t string;
}.

(** [{hash:016x}]. *)
Fixpoint hex_loop (digits : nat) (n : N) (acc : string) : string :=
  match digits with
  | 0 => acc
  | S digits => hex_loop digits (n / 16) (String (Rbac.hex_digit (n mod 16)) acc)
  end.
Definition hex16 (n : N) : string := hex_loop 16 n "".

Record GenerateKeyResult := {
  gk_key_id : string;
  gk_private_key_pem : string;
  gk_public_key_pem : string;
  gk_created_at : instant;
}.
Definition to_entry (r : GenerateKeyResult) : result CpError.t SigningKey.entry :=
  SigningKey.new (gk_key_id r) (gk_public_key_pem r) SigningKey.Active (gk_created_at r) None.
(** In nanoseconds, the unit of [instant]. *)
Definition ROTATION_GRACE_HOURS : Z := 24.
Definition rotation_grace : Z := (ROTATION_GRACE_HOURS * 3600 * 10 ^ 9)%Z.

Record EventSigningKey := { esk_key_id : string; esk_public_key_pem : string }.

(** * The read model *)
Module OrgStore.
Section store.
Context `{CpLib OrgConfig}.
Abbreviation OrgRecord := (EventStore.OrgRecord (OrgConfig:=OrgConfig)).

Definition strong_etag (json : string) : string :=
  String Rbac.quote (hex16 (xxh64 json) +:+ String Rbac.quote "").
(** An unserializable value hashes as the empty text. *)
Definition compute_etag_json (json : result string string) : Etag.t :=
  Etag.mk (strong_etag (unwrap_or json "")).
Definition compute_etag (c : OrgConfig) : Etag.t := compute_etag_json (config_text c).
Definition configured_compute (c : OrgConfig) : EventStore.ConfiguredConfig :=
  EventStore.Build_ConfiguredConfig c (compute_etag c).

Record EtagedGroup := { entry : Rbac.RbacEntry; etag : Etag.t }.
Definition compute_group_etag (e : Rbac.RbacEntry) : result CpError.t string :=
  json ← map_err (λ x, CpError.Config ("etag serial: " +:+ x)) (group_text e);
  Ok (strong_etag json).
Definition etaged_compute (e : Rbac.RbacEntry) : result CpError.t EtagedGroup :=
  tag ← compute_group_etag e;
  Ok {| entry := e; etag := Etag.mk tag |}.

Record t := mk {
  orgs : gmap OrganizationId OrgRecord;
  signing_keys : gmap OrganizationId (list SigningKey.entry);
  groups : gmap (OrganizationId * string) EtagedGroup;
  memberships_to_groups : gmap (OrganizationId * string) (list string);
}.
Definition new (orgs : gmap OrganizationId OrgRecord) : t := mk orgs ∅ ∅ ∅.

Definition id_cmp : OrganizationId → OrganizationId → comparison := cmp_key Id.as_str String.compare.
Definition key_cmp : OrganizationId * string → OrganizationId * string → comparison :=
  cmp_pair id_cmp String.compare.

Definition get (org_id : OrganizationId) (s : t) : option OrgRecord := orgs s !! org_id.
Definition list (offset limit : nat) (s : t) : list OrgRecord :=
  take limit (drop offset (omap (λ o, orgs s !! o) (btree_iter id_cmp (dom (orgs s))))).
Definition write_through_org (org : Organization.t) (config : option OrgConfig) (s : t) : t :=
  let configured := configured_compute <$> config in
  mk (<[Organization.org_id org := EventStore.Build_OrgRecord org configured]> (orgs s))
     (signing_keys s) (groups s) (memberships_to_groups s).
Definition write_through_signing_keys (org_id : OrganizationId) (keys : Datatypes.list SigningKey.entry)
    (s : t) : t :=
  mk (orgs s) (<[org_id := keys]> (signing_keys s)) (groups s) (memberships_to_groups s).
Definition list_keys (org_id : OrganizationId) (s : t) : Datatypes.list SigningKey.entry :=
  default [] (signing_keys s !! org_id).
Definition write_through_group (org_id : OrganizationId) (g : EtagedGroup) (s : t) : t :=
  mk (orgs s) (signing_keys s) (<[(org_id, Rbac.name (entry g)) := g]> (groups s))
     (memberships_to_groups s).
Definition write_through_group_delete (org_id : OrganizationId) (name : string) (s : t) : t :=
  mk (orgs s) (signing_keys s) (delete (org_id, name) (groups s)) (memberships_to_groups s).
Definition get_group (org_id : OrganizationId) (name : string) (s : t) : option EtagedGroup :=
  groups s !! (org_id, name).

(** [range(from..).take_while(org)] over the sorted keys. *)
Fixpoint take_while {A} (p : A → bool) (l : Datatypes.list A) : Datatypes.list A :=
  match l with
  | [] => []
  | x :: l => if p x then x :: take_while p l else []
  end.
Definition keys_of (org_id : OrganizationId) (s : t) : Datatypes.list (OrganizationId * string) :=
  take_while (λ k, bool_decide (k.1 = org_id))
    (filter (λ k, key_cmp (org_id, "") k ≠ Gt) (btree_iter key_cmp (dom (groups s)))).
Definition list_groups (org_id : OrganizationId) (s : t) : Datatypes.list EtagedGroup :=
  omap (λ k, groups s !! k) (keys_of org_id s).
Definition list_inheritors (org_id : OrganizationId) (name : string) (s : t) : Datatypes.list string :=
  omap (λ k, g ← groups s !! k;
             if bool_decide (name ∈ Rbac.inherits (entry g)) then Some k.2 else None)
       (keys_of org_id s).
Definition count_memberships_for_group (org_id : OrganizationId) (name : string) (s : t)
    : gmap string N :=
  foldl (λ counts '((oid, user_id), gs),
           if bool_decide (oid = org_id) && bool_decide (name ∈ gs)
           then <[user_id := (default 0 (counts !! user_id) + 1)%N]> counts else counts)
        ∅ (map_to_list (memberships_to_groups s)).
End store.
Arguments t : clear implicits.
End OrgStore.

(** * The traits *)
Section traits.
Context (S OrgConfig : Type).
Abbreviation op A := (M S CpError.t A).
Abbreviation OrgRecord := (EventStore.OrgRecord (OrgConfig:=OrgConfig)).

Class OrgStoreI := {
  get : OrganizationId → op (option OrgRecord);
  list_orgs : nat → nat → op (list OrgRecord);
  list_keys : OrganizationId → op (list SigningKey.entry);
  get_group : OrganizationId → string → op (option OrgStore.EtagedGroup);
  list_groups : OrganizationId → op (list OrgStore.EtagedGroup);
  list_inheritors : OrganizationId → string → op (list string);
  count_memberships_for_group : OrganizationId → string → op (gmap string N);
}.

(** The operations that append take the stamp of the event; those that make a
    key take the key material. *)
Class ModelEventStoreI := {
  get_principal : string → NativeId.t → op (option Json.t);
  latest_revision : string → op Revision.t;
  upsert_changed : EventStore.stamp → string → NativeId.t → Envelope.Actor → Json.t →
    op Revision.t;
  events_after : string → Revision.t → nat → op (list Envelope.t);
  get_promotion : string → Segment.t → NativeId.t → op (option string);
  tombstone_promotion : EventStore.stamp → string → Segment.t → NativeId.t → Envelope.Actor →
    op (option Revision.t);
  list_promotions : string → Segment.t → option NativeId.t → nat →
    op (list PromotionStore.PromotionEntry);
  list_signing_keys : string → op (list EventSigningKey);
  generate_org_key : EventStore.stamp → result CpError.t GenerateKeyResult → string →
    Envelope.Actor → op (GenerateKeyResult * Revision.t);
  revoke_org_key : EventStore.stamp → string → string → Envelope.Actor → op (option Revision.t);
  rotate_org_key : EventStore.stamp → result CpError.t GenerateKeyResult → instant → string →
    string → Envelope.Actor → op (GenerateKeyResult * Revision.t);
  create_org : EventStore.stamp → OrgRecord → Envelope.Actor → op Revision.t;
  update_org : EventStore.stamp → OrgRecord → Envelope.Actor → option Revision.t → op Revision.t;
  transition_org : EventStore.stamp → OrgRecord → EventKind.t → Envelope.Actor → Revision.t →
    op Revision.t;
  put_group : EventStore.stamp → string → Rbac.RbacEntry → Envelope.Actor → option Revision.t →
    op EventStore.GroupWriteOutcome;
  delete_group : EventStore.stamp → string → string → Envelope.Actor → option Revision.t →
    op EventStore.GroupWriteOutcome;
}.
End traits.
Arguments get {S OrgConfig _} _.
Arguments list_orgs {S OrgConfig _} _ _.
Arguments list_keys {S OrgConfig _} _.
Arguments get_group {S OrgConfig _} _ _.
Arguments list_groups {S OrgConfig _} _.
Arguments list_inheritors {S OrgConfig _} _ _.
Arguments count_memberships_for_group {S OrgConfig _} _ _.
Arguments get_principal {S OrgConfig _} _ _.
Arguments latest_revision {S OrgConfig _} _.
Arguments upsert_changed {S OrgConfig _} _ _ _ _ _.
Arguments events_after {S OrgConfig _} _ _ _.
Arguments get_promotion {S OrgConfig _} _ _ _.
Arguments tombstone_promotion {S OrgConfig _} _ _ _ _ _.
Arguments list_promotions {S OrgConfig _} _ _ _ _.
Arguments list_signing_keys {S OrgConfig _} _.
Arguments generate_org_key {S OrgConfig _} _ _ _ _.
Arguments revoke_org_key {S OrgConfig _} _ _ _ _.
Arguments rotate_org_key {S OrgConfig _} _ _ _ _ _ _.
Arguments create_org {S OrgConfig _} _ _ _.
Arguments update_org {S OrgConfig _} _ _ _ _.
Arguments transition_org {S OrgConfig _} _ _ _ _ _.
Arguments put_group {S OrgConfig _} _ _ _ _ _.
Arguments delete_group {S OrgConfig _} _ _ _ _ _.

(** * The in-memory pair *)
Module Mirrored.
Section store.
Context `{CpLib OrgConfig}.
Abbreviation OrgRecord := (EventStore.OrgRecord (OrgConfig:=OrgConfig)).

Record t := mk { events : EventStore.t (OrgConfig:=OrgConfig); read : OrgStore.t OrgConfig }.
(** [memory_router]: the read model loaded from the file, an empty event store. *)
Definition start (orgs : gmap OrganizationId OrgRecord) : t :=
  mk EventStore.new (OrgStore.new orgs).

Abbreviation op A := (M t CpError.t A).
Definition on_events {A} (m : M EventStore.t CpError.t A) : op A := λ s,
  let '(es, r) := m (events s) in (mk es (read s), r).
Definition on_read {A} (f : OrgStore.t OrgConfig → A) : op A := gets (λ s, f (read s)).
Definition write_through (f : OrgStore.t OrgConfig → OrgStore.t OrgConfig) : op () :=
  modify (λ s, mk (events s) (f (read s))).
(** [if let Ok(typed) = OrganizationId::new(org_id)]. *)
Definition typed (org_id : string) (f : OrganizationId → OrgStore.t OrgConfig → OrgStore.t OrgConfig)
    : op () :=
  match Id.new org_id with Ok o => write_through (f o) | _ => mret () end.

Definition create_org (st : EventStore.stamp) (record : OrgRecord) (actor : Envelope.Actor)
    : op Revision.t :=
  revision ← on_events (EventStore.create_org to_vec sha256_hex sign_b64 org_value config_value
                          st record actor);
  _ ← write_through (OrgStore.write_through_org (EventStore.org record) (EventStore.config record));
  mret revision.
Definition append_org_state (st : EventStore.stamp) (record : OrgRecord) (kind : EventKind.t)
    (actor : Envelope.Actor) (expected : option Revision.t) : op Revision.t :=
  revision ← on_events (EventStore.append_org_state to_vec sha256_hex sign_b64 org_value
                          config_value st record kind actor expected);
  _ ← write_through (OrgStore.write_through_org (EventStore.org record) (EventStore.config record));
  mret revision.
Definition append_org_keys (st : EventStore.stamp) (org_id : string) (kind : EventKind.t)
    (actor : Envelope.Actor) (transition : list SigningKey.entry → SigningKey.transition_result)
    : op (option Revision.t) :=
  outcome ← on_events (EventStore.append_org_keys to_vec sha256_hex sign_b64 keys_value st org_id
                         kind actor transition);
  match outcome with
  | None => mret None
  | Some revision =>
      new_keys ← gets (λ s, default [] (EventStore.signing_keys (events s) !! org_id));
      _ ← typed org_id (λ o, OrgStore.write_through_signing_keys o new_keys);
      mret (Some revision)
  end.
Definition expect_some {A} (why : string) (o : option A) : op A :=
  match o with Some a => mret a | None => lift (Stuck why) end.
Definition generate_org_key (st : EventStore.stamp) (material : result CpError.t GenerateKeyResult)
    (org_id : string) (actor : Envelope.Actor) : op (GenerateKeyResult * Revision.t) :=
  result ← lift material;
  new_entry ← lift (to_entry result);
  outcome ← append_org_keys st org_id EventKind.OrgKeyGenerated actor
              (SigningKey.generate_key_transition new_entry);
  revision ← expect_some "generate_org_key never no-ops" outcome;
  mret (result, revision).
Definition revoke_org_key (st : EventStore.stamp) (org_id key_id : string) (actor : Envelope.Actor)
    : op (option Revision.t) :=
  append_org_keys st org_id EventKind.OrgKeyRevoked actor (SigningKey.revoke_key_transition key_id).
Definition rotate_org_key (st : EventStore.stamp) (material : result CpError.t GenerateKeyResult)
    (now : instant) (org_id key_id : string) (actor : Envelope.Actor)
    : op (GenerateKeyResult * Revision.t) :=
  result ← lift material;
  new_entry ← lift (to_entry result);
  outcome ← append_org_keys st org_id EventKind.OrgKeyRotated actor
              (SigningKey.rotate_key_transition key_id new_entry now rotation_grace);
  revision ← expect_some "rotate_org_key never no-ops" outcome;
  mret (result, revision).
(** An etag that cannot be computed skips the write-through. *)
Definition put_group (st : EventStore.stamp) (org_id : string) (e : Rbac.RbacEntry)
    (actor : Envelope.Actor) (expected : option Revision.t) : op EventStore.GroupWriteOutcome :=
  outcome ← on_events (EventStore.put_group to_vec sha256_hex sign_b64 group_value st org_id e
                         actor expected);
  match outcome with
  | EventStore.NoOp current => mret (EventStore.NoOp current)
  | EventStore.Applied revision =>
      _ ← typed org_id (λ o, match OrgStore.etaged_compute e with
                             | Ok g => OrgStore.write_through_group o g
                             | _ => λ s, s
                             end);
      mret (EventStore.Applied revision)
  end.
Definition delete_group (st : EventStore.stamp) (org_id name : string) (actor : Envelope.Actor)
    (expected : option Revision.t) : op EventStore.GroupWriteOutcome :=
  outcome ← on_events (EventStore.delete_group to_vec sha256_hex sign_b64 st org_id name actor
                         expected);
  match outcome with
  | EventStore.NoOp current => mret (EventStore.NoOp current)
  | EventStore.Applied revision =>
      _ ← typed org_id (λ o, OrgStore.write_through_group_delete o name);
      mret (EventStore.Applied revision)
  end.

Definition entry_le (a b : PromotionStore.PromotionEntry) : Prop :=
  cmp_le String.compare (PromotionStore.entry_native_id a) (PromotionStore.entry_native_id b).
#[global] Instance entry_le_dec : RelDecision entry_le.
Proof. intros a b. unfold entry_le. apply _. Defined.
(** A page of the promotions of a type, over the map of promotions. *)
Definition promotions_page (promotions : gmap (string * string * string) string) (org_id : string)
    (resource_type : Segment.t) (after : option NativeId.t) (limit : nat)
    : list PromotionStore.PromotionEntry :=
  let entries := omap (λ '((o, t, native_id), fgrn),
    if bool_decide (o = org_id) && bool_decide (t = Segment.as_str resource_type)
    then Some {| PromotionStore.entry_fgrn := fgrn; PromotionStore.entry_native_id := native_id |}
    else None) (map_to_list promotions) in
  let entries := merge_sort entry_le entries in
  let entries := match after with
    | Some a => filter (λ e, String.compare (PromotionStore.entry_native_id e) (NativeId.as_str a) = Gt)
                  entries
    | None => entries
    end in
  take limit entries.
Definition list_promotions (org_id : string) (resource_type : Segment.t) (after : option NativeId.t)
    (limit : nat) : op (list PromotionStore.PromotionEntry) :=
  gets (λ s, promotions_page (EventStore.promotions (events s)) org_id resource_type after limit).
Definition list_signing_keys (org_id : string) : op (list EventSigningKey) :=
  lift (pem ← verifying_key_pem;
        Ok [{| esk_key_id := EventStore.IN_MEMORY_KEY_ID; esk_public_key_pem := pem |}]).

#[global] Instance org_store : OrgStoreI t OrgConfig := {|
  ReadModel.get o := on_read (OrgStore.get o);
  ReadModel.list_orgs offset limit := on_read (OrgStore.list offset limit);
  ReadModel.list_keys o := on_read (OrgStore.list_keys o);
  ReadModel.get_group o name := on_read (OrgStore.get_group o name);
  ReadModel.list_groups o := on_read (OrgStore.list_groups o);
  ReadModel.list_inheritors o name := on_read (OrgStore.list_inheritors o name);
  ReadModel.count_memberships_for_group o name :=
    on_read (OrgStore.count_memberships_for_group o name);
|}.
#[global] Instance model_event_store : ModelEventStoreI t OrgConfig := {|
  ReadModel.get_principal o n := on_events (EventStore.get_principal o n);
  ReadModel.latest_revision o := on_events (EventStore.latest_revision o);
  ReadModel.upsert_changed st o n a p :=
    on_events (EventStore.upsert_changed to_vec sha256_hex sign_b64 st o n a p);
  ReadModel.events_after o after limit := on_events (EventStore.events_after o after limit);
  ReadModel.get_promotion o rt n := on_events (EventStore.get_promotion o rt n);
  ReadModel.tombstone_promotion st o rt n a :=
    on_events (EventStore.tombstone_promotion to_vec sha256_hex sign_b64 st o rt n a);
  ReadModel.list_promotions := list_promotions;
  ReadModel.list_signing_keys := list_signing_keys;
  ReadModel.generate_org_key := generate_org_key;
  ReadModel.revoke_org_key := revoke_org_key;
  ReadModel.rotate_org_key := rotate_org_key;
  ReadModel.create_org := create_org;
  ReadModel.update_org st r a x := append_org_state st r EventKind.OrgUpdated a x;
  ReadModel.transition_org st r k a x := append_org_state st r k a (Some x);
  ReadModel.put_group := put_group;
  ReadModel.delete_group := delete_group;
|}.
End store.
Arguments t : clear implicits.
End Mirrored.

(** * What the traits promise *)

(** The state a store shows, by organization id. *)
Record Live (OrgConfig : Type) := {
  l_orgs : gmap string (EventStore.OrgRecord (OrgConfig:=OrgConfig));
  l_logged : gset string;
  l_keys : gmap string (list SigningKey.entry);
  l_groups : gmap (string * string) Rbac.RbacEntry;
  l_principals : gmap (string * NativeId.t) Json.t;
  l_promotions : gmap (string * string * string) string;
}.
Arguments l_orgs {_} _.
Arguments l_logged {_} _.
Arguments l_keys {_} _.
Arguments l_groups {_} _.
Arguments l_principals {_} _.
Arguments l_promotions {_} _.

Module Live.
Section live.
Context {OrgConfig : Type}.
Implicit Types (l : Live OrgConfig).
Definition put_org (r : EventStore.OrgRecord) l : Live OrgConfig :=
  let o := EventStore.record_id r in
  {| l_orgs := <[o := r]> (l_orgs l); l_logged := {[o]} ∪ l_logged l; l_keys := l_keys l;
     l_groups := l_groups l; l_principals := l_principals l; l_promotions := l_promotions l |}.
Definition put_keys (o : string) (ks : list SigningKey.entry) l : Live OrgConfig :=
  {| l_orgs := l_orgs l; l_logged := l_logged l; l_keys := <[o := ks]> (l_keys l);
     l_groups := l_groups l; l_principals := l_principals l; l_promotions := l_promotions l |}.
Definition alter_groups (f : gmap (string * string) Rbac.RbacEntry → gmap (string * string) Rbac.RbacEntry)
    l : Live OrgConfig :=
  {| l_orgs := l_orgs l; l_logged := l_logged l; l_keys := l_keys l;
     l_groups := f (l_groups l); l_principals := l_principals l; l_promotions := l_promotions l |}.
Definition put_group (o : string) (e : Rbac.RbacEntry) : Live OrgConfig → Live OrgConfig :=
  alter_groups <[(o, Rbac.name e) := e]>.
Definition delete_group (o name : string) : Live OrgConfig → Live OrgConfig :=
  alter_groups (delete (o, name)).
Definition put_principal (o : string) (n : NativeId.t) (p : Json.t) l : Live OrgConfig :=
  {| l_orgs := l_orgs l; l_logged := l_logged l; l_keys := l_keys l; l_groups := l_groups l;
     l_principals := <[(o, n) := p]> (l_principals l); l_promotions := l_promotions l |}.
Definition delete_promotion (k : string * string * string) l : Live OrgConfig :=
  {| l_orgs := l_orgs l; l_logged := l_logged l; l_keys := l_keys l; l_groups := l_groups l;
     l_principals := l_principals l; l_promotions := delete k (l_promotions l) |}.

(** The groups of an organization, by name. *)
Definition groups_of l (o : string) (names : list string) (entries : list Rbac.RbacEntry) : Prop :=
  StronglySorted (cmp_le String.compare) names ∧ NoDup names ∧
  Forall2 (λ n e, l_groups l !! (o, n) = Some e) names entries ∧
  ∀ n, is_Some (l_groups l !! (o, n)) → n ∈ names.
End live.
End Live.

(** A group write that changes nothing: the stored entry has the same JSON. *)
Definition same_group `{CpLib OrgConfig} (stored : option Rbac.RbacEntry) (e : Rbac.RbacEntry)
    : bool :=
  match stored with
  | Some e' => match group_value e', group_value e with
               | Ok v', Ok v => match Upsert.decide_upsert (Some v') v with
                                | Upsert.NoOp => true
                                | Upsert.Changed _ => false
                                end
               | _, _ => false
               end
  | None => false
  end.

Section laws.
Context (S OrgConfig : Type).

(** The interpretation of a store's states.  [store_faults] says whether its
    calls can fail without a reason in the state. *)
Class StoreView := {
  store_wf : S → Prop;
  live : S → Live OrgConfig;
  revision_of : S → string → Revision.t;
  log_of : S → string → list Envelope.t;
  store_faults : Prop;
}.
Context `{StoreView}.

Record unchanged (s s' : S) : Prop := {
  u_wf : store_wf s';
  u_live : live s' = live s;
  u_revision : ∀ o, revision_of s' o = revision_of s o;
  u_log : ∀ o, log_of s' o = log_of s o;
}.
(** One event was appended to the log of [o], and the state changed by [f]. *)
Record appended (o : string) (f : Live OrgConfig → Live OrgConfig) (r : Revision.t) (s s' : S)
    : Prop := {
  a_wf : store_wf s';
  a_live : live s' = f (live s);
  a_next : r = Revision.next (revision_of s o);
  a_revision : ∀ o', revision_of s' o' = if decide (o' = o) then r else revision_of s o';
  a_log : ∃ e, Envelope.seq e = r ∧
    ∀ o', log_of s' o' = if decide (o' = o) then log_of s o ++ [e] else log_of s o';
}.

(** What a call does: it succeeds in one of the ways of [Q], or fails and
    changes nothing, for one of the reasons [E] or through a fault. *)
Definition calls {A} (m : M S CpError.t A) (s : S) (Q : A → S → Prop) (E : CpError.t → Prop)
    : Prop :=
  match m s with
  | (s', Ok a) => Q a s'
  | (s', Err e) => unchanged s s' ∧ (E e ∨ store_faults ∧ ∃ msg, e = CpError.Store msg)
  | (_, Stuck _) => False
  end.
Definition reads {A} (m : M S CpError.t A) (f : A → S → Prop) : Prop :=
  ∀ s, store_wf s → calls m s (λ a s', unchanged s s' ∧ f a s) (λ _, False).
Definition valid_id (o : string) : Prop := ∃ x : OrganizationId, Id.new o = Ok x.
(** The reason of a failed revision precondition. *)
Definition mismatch (s : S) (o : string) (expected : option Revision.t) (e : CpError.t) : Prop :=
  ∃ x, expected = Some x ∧ x ≠ revision_of s o ∧
       e = CpError.RevisionMismatch (Revision.value (revision_of s o)).
Definition meets (s : S) (o : string) (expected : option Revision.t) : Prop :=
  ∀ x, expected = Some x → x = revision_of s o.

Context `{CpLib OrgConfig, OrgStoreI S OrgConfig, ModelEventStoreI S OrgConfig}.
Abbreviation OrgRecord := (EventStore.OrgRecord (OrgConfig:=OrgConfig)).

Class OrgStoreLaws : Prop := {
  get_law o : Id.wf o → reads (get o) (λ r s, r = l_orgs (live s) !! Id.as_str o);
  list_orgs_law offset limit : reads (list_orgs offset limit) (λ rs s,
    length rs ≤ limit ∧ ∀ r, r ∈ rs → ∃ o, l_orgs (live s) !! o = Some r);
  list_keys_law o : Id.wf o → reads (list_keys o) (λ ks s,
    ks = default [] (l_keys (live s) !! Id.as_str o));
  get_group_law o n : Id.wf o → reads (get_group o n) (λ g s,
    OrgStore.entry <$> g = l_groups (live s) !! (Id.as_str o, n));
  list_groups_law o : Id.wf o → reads (list_groups o) (λ gs s,
    ∃ names, Live.groups_of (live s) (Id.as_str o) names (OrgStore.entry <$> gs));
  list_inheritors_law o n : Id.wf o → reads (list_inheritors o n) (λ names s, ∀ m,
    m ∈ names ↔ ∃ e, l_groups (live s) !! (Id.as_str o, m) = Some e ∧ n ∈ Rbac.inherits e);
  count_memberships_law o n : Id.wf o → reads (count_memberships_for_group o n) (λ _ _, True);
}.

Class ModelEventStoreLaws : Prop := {
  get_principal_law o n : reads (get_principal o n) (λ p s, p = l_principals (live s) !! (o, n));
  latest_revision_law o : reads (latest_revision o) (λ r s, r = revision_of s o);
  events_after_law o after limit : reads (events_after o after limit) (λ es s,
    es = take limit (filter (λ e, Revision.value after < Revision.value (Envelope.seq e))%N
                       (log_of s o)));
  get_promotion_law o rt n : reads (get_promotion o rt n) (λ p s,
    p = l_promotions (live s) !! (o, Segment.as_str rt, NativeId.as_str n));
  list_promotions_law o rt after limit : reads (list_promotions o rt after limit) (λ ps s,
    ps = Mirrored.promotions_page (l_promotions (live s)) o rt after limit);
  list_signing_keys_law o : ∀ s, store_wf s →
    calls (list_signing_keys o) s (λ _ s', unchanged s s') (λ e, verifying_key_pem = Err e);
  upsert_changed_law st o n a p s : store_wf s → EventStore.ulid st ≠ "" → valid_id o →
    calls (upsert_changed st o n a p) s
      (λ r, appended o (Live.put_principal o n p) r s) (λ _, False);
  tombstone_promotion_law st o rt n a s : store_wf s → EventStore.ulid st ≠ "" → valid_id o →
    let k := (o, Segment.as_str rt, NativeId.as_str n) in
    calls (tombstone_promotion st o rt n a) s
      (λ res s', match res with
                 | Some r => is_Some (l_promotions (live s) !! k) ∧
                             appended o (Live.delete_promotion k) r s s'
                 | None => l_promotions (live s) !! k = None ∧ unchanged s s'
                 end)
      (λ e, ∃ raw msg, l_promotions (live s) !! k = Some raw ∧ e = CpError.Store msg ∧
                       ∀ f, Fgrn.parse raw ≠ Ok f);
  generate_org_key_law st mat o a s : store_wf s → EventStore.ulid st ≠ "" → valid_id o →
    returns mat →
    calls (generate_org_key st mat o a) s
      (λ res s', o ∈ l_logged (live s) ∧ mat = Ok res.1 ∧ ∃ e, to_entry res.1 = Ok e ∧
         appended o (Live.put_keys o (default [] (l_keys (live s) !! o) ++ [e])) res.2 s s')
      (λ e, mat = Err e ∨ (∃ g, mat = Ok g ∧ to_entry g = Err e) ∨
            (o ∉ l_logged (live s)) ∧ ∃ msg, e = CpError.NotFound msg);
  revoke_org_key_law st o k a s : store_wf s → EventStore.ulid st ≠ "" → valid_id o →
    let keys := default [] (l_keys (live s) !! o) in
    calls (revoke_org_key st o k a) s
      (λ res s', match res with
                 | Some r => ∃ ks, SigningKey.revoke_entries keys k = Some ks ∧
                                   appended o (Live.put_keys o ks) r s s'
                 | None => SigningKey.revoke_entries keys k = None ∧ unchanged s s'
                 end)
      (λ e, (o ∉ l_logged (live s)) ∧ ∃ msg, e = CpError.NotFound msg);
  rotate_org_key_law st mat now o k a s : store_wf s → EventStore.ulid st ≠ "" → valid_id o →
    returns mat →
    let keys := default [] (l_keys (live s) !! o) in
    calls (rotate_org_key st mat now o k a) s
      (λ res s', mat = Ok res.1 ∧ ∃ e ks, to_entry res.1 = Ok e ∧
         SigningKey.rotate_entries keys k e now rotation_grace = Ok ks ∧
         appended o (Live.put_keys o ks) res.2 s s')
      (λ e, mat = Err e ∨ (∃ g, mat = Ok g ∧ to_entry g = Err e) ∨
            ((o ∉ l_logged (live s)) ∧ ∃ msg, e = CpError.NotFound msg) ∨
            ∃ ne, SigningKey.rotate_entries keys k ne now rotation_grace = Err e);
  create_org_law st (r : OrgRecord) a s : store_wf s → EventStore.ulid st ≠ "" →
    valid_id (EventStore.record_id r) →
    calls (create_org st r a) s
      (λ rev s', (EventStore.record_id r ∉ l_logged (live s)) ∧
         ∃ r', EventStore.org r' = EventStore.org r ∧ EventStore.config r' = EventStore.config r ∧
         appended (EventStore.record_id r) (Live.put_org r') rev s s')
      (λ e, EventStore.record_id r ∈ l_logged (live s) ∧ ∃ msg, e = CpError.Conflict msg);
  update_org_law st (r : OrgRecord) a x s : store_wf s → EventStore.ulid st ≠ "" →
    valid_id (EventStore.record_id r) →
    calls (update_org st r a x) s
      (λ rev s', meets s (EventStore.record_id r) x ∧
         ∃ r', EventStore.org r' = EventStore.org r ∧ EventStore.config r' = EventStore.config r ∧
         appended (EventStore.record_id r) (Live.put_org r') rev s s')
      (mismatch s (EventStore.record_id r) x);
  transition_org_law st (r : OrgRecord) k a x s : store_wf s → EventStore.ulid st ≠ "" →
    valid_id (EventStore.record_id r) →
    calls (transition_org st r k a x) s
      (λ rev s', x = revision_of s (EventStore.record_id r) ∧
         ∃ r', EventStore.org r' = EventStore.org r ∧ EventStore.config r' = EventStore.config r ∧
         appended (EventStore.record_id r) (Live.put_org r') rev s s')
      (mismatch s (EventStore.record_id r) (Some x));
  put_group_law st o e a x s : store_wf s → EventStore.ulid st ≠ "" → valid_id o →
    calls (put_group st o e a x) s
      (λ res s', match res with
         | EventStore.NoOp r => same_group (l_groups (live s) !! (o, Rbac.name e)) e = true ∧
                                r = revision_of s o ∧ unchanged s s'
         | EventStore.Applied r => same_group (l_groups (live s) !! (o, Rbac.name e)) e = false ∧
                                   meets s o x ∧ appended o (Live.put_group o e) r s s'
         end)
      (λ err, same_group (l_groups (live s) !! (o, Rbac.name e)) e = false ∧ mismatch s o x err);
  delete_group_law st o n a x s : store_wf s → EventStore.ulid st ≠ "" → valid_id o →
    calls (delete_group st o n a x) s
      (λ res s', match res with
         | EventStore.NoOp r => l_groups (live s) !! (o, n) = None ∧ r = revision_of s o ∧
                                unchanged s s'
         | EventStore.Applied r => is_Some (l_groups (live s) !! (o, n)) ∧ meets s o x ∧
                                   appended o (Live.delete_group o n) r s s'
         end)
      (λ err, is_Some (l_groups (live s) !! (o, n)) ∧ mismatch s o x err);
}.
End laws.
Arguments store_wf {S OrgConfig _} _.
Arguments live {S OrgConfig _} _.
Arguments revision_of {S OrgConfig _} _ _.
Arguments log_of {S OrgConfig _} _ _.
Arguments store_faults S {OrgConfig _}.
Arguments unchanged {S OrgConfig _} _ _.
Arguments appended {S OrgConfig _} _ _ _ _ _.
Arguments u_wf {S OrgConfig _ s s'} _.
Arguments u_live {S OrgConfig _ s s'} _.
Arguments u_revision {S OrgConfig _ s s'} _ _.
Arguments u_log {S OrgConfig _ s s'} _ _.
Arguments a_wf {S OrgConfig _ o f r s s'} _.
Arguments a_live {S OrgConfig _ o f r s s'} _.
Arguments a_revision {S OrgConfig _ o f r s s'} _ _.
Arguments a_next {S OrgConfig _ o f r s s'} _.
Arguments calls {S OrgConfig _ A} _ _ _ _.
Arguments reads {S OrgConfig _ A} _ _.
Arguments mismatch {S OrgConfig _} _ _ _ _.
Arguments meets {S OrgConfig _} _ _ _.

(** What the libraries promise: the structs serialize. *)
Class CpLibLaws (OrgConfig : Type) `{CpLib OrgConfig} : Prop := {
  org_value_total o : ∃ v, org_value o = Ok v;
  config_value_total c : ∃ v, config_value c = Ok v;
  keys_value_total ks : ∃ v, keys_value ks = Ok v;
  group_value_total g : ∃ v, group_value g = Ok v;
  group_text_total g : ∃ v, group_text g = Ok v;
  envelope_value_total e : ∃ v, envelope_value e = Ok v;
  verifying_key_pem_returns : returns verifying_key_pem;
}.

(** * The in-memory event store, call by call *)
Module EventRuns.
Import EventStore.
Section runs.
Context `{CpLibLaws OrgConfig}.
Abbreviation store := (EventStore.t (OrgConfig:=OrgConfig)).
Implicit Types (s : store).

Definition locks_ok s : Prop := ∀ o log, logs s !! o = Some log → InMemoryEventLog.poisoned log = false.
Definition log_of s (o : string) : list Envelope.t :=
  default [] (InMemoryEventLog.events <$> logs s !! o).
Definition revision_of s (o : string) : Revision.t :=
  default (Revision.new 0) (Envelope.seq <$> last (log_of s o)).

(** Only log entries differ. *)
Definition relogged s s' : Prop := locks_ok s' ∧ s' = with_logs (λ _, logs s') s.
Definition grew (o : string) (r : Revision.t) s s' : Prop :=
  r = Revision.next (revision_of s o) ∧ relogged s s' ∧
  ∃ e, Envelope.seq e = r ∧
       ∀ o', log_of s' o' = if decide (o' = o) then log_of s o ++ [e] else log_of s o'.

Lemma log_now s o log : locks_ok s → logs s !! o = Some log →
  log = InMemoryEventLog.mk (log_of s o) false.
Proof.
  intros Hs Hl. pose proof (Hs o log Hl). unfold log_of. rewrite Hl. destruct log; simpl in *.
  by subst.
Qed.
Lemma log_for_run s o : locks_ok s → ∃ s',
  log_for o s = (s', Ok (InMemoryEventLog.mk (log_of s o) false)) ∧ relogged s s' ∧
  logs s' !! o = Some (InMemoryEventLog.mk (log_of s o) false) ∧
  ∀ o', log_of s' o' = log_of s o'.
Proof.
  intros Hs. unfold log_for. destruct (logs s !! o) as [log|] eqn:Hl.
  - pose proof (log_now s o log Hs Hl) as ->. exists s. split_and!; [done|split; [done|by destruct s]|done..].
  - assert (log_of s o = []) as Hnil by (unfold log_of; by rewrite Hl). rewrite Hnil.
    eexists. split; [done|]. split_and!.
    + split; [|done]. intros o' log. simpl. rewrite lookup_insert. case_decide; [|apply Hs].
      by intros [= <-].
    + simpl. by rewrite lookup_insert_eq.
    + intros o'. unfold log_of. simpl. rewrite lookup_insert. case_decide as Ho; [subst o'|done].
      by rewrite Hl.
Qed.
Lemma latest_run s o : locks_ok s → ∃ s',
  latest_revision o s = (s', Ok (revision_of s o)) ∧ relogged s s' ∧
  ∀ o', log_of s' o' = log_of s o'.
Proof.
  intros Hs. destruct (log_for_run s o Hs) as (s' & Hl & Hr & _ & Hlog). exists s'.
  unfold latest_revision, mbind, M_bind. by rewrite Hl.
Qed.
Lemma events_after_run s o after limit : locks_ok s → ∃ s',
  events_after o after limit s = (s', Ok (take limit (filter (λ e,
    Revision.value after < Revision.value (Envelope.seq e))%N (log_of s o)))) ∧
  relogged s s' ∧ ∀ o', log_of s' o' = log_of s o'.
Proof.
  intros Hs. destruct (log_for_run s o Hs) as (s' & Hl & Hr & _ & Hlog). exists s'.
  unfold events_after, mbind, M_bind. by rewrite Hl.
Qed.
Lemma mint_run s st o k a p : locks_ok s → ulid st ≠ "" → ∃ s',
  mint_and_push to_vec sha256_hex sign_b64 st o k a p s =
    (s', Ok (Revision.next (revision_of s o))) ∧
  grew o (Revision.next (revision_of s o)) s s'.
Proof.
  intros Hs Hu. destruct (log_for_run s o Hs) as (s1 & Hl & [Hk1 Hr1] & Hlk & Hlog).
  destruct (EventStoreFacts.build_spec to_vec sha256_hex sign_b64 st o k a p IN_MEMORY_KEY_ID
    (Revision.next (revision_of s o)) Hu) as (e & b & Hb & _ & _ & Hseq & _).
  eexists. split.
  { unfold mint_and_push, mbind, M_bind. rewrite Hl. unfold lift. cbn [map_err].
    unfold InMemoryEventLog.latest_revision, InMemoryEventLog.locked. cbn [fmap result_fmap].
    cbn. unfold revision_of in Hb |- *. rewrite Hb. unfold push, modify, mret, M_ret. done. }
  split; [done|]. split.
  - split.
    + intros o' log. simpl. destruct (decide (o = o')) as [<-|Hne].
      * rewrite lookup_alter_eq, Hlk. by intros [= <-].
      * rewrite lookup_alter_ne by done. apply Hk1.
    + rewrite Hr1. done.
  - exists e. split; [done|]. intros o'. unfold log_of at 1. simpl.
    destruct (decide (o' = o)) as [->|Hne].
    + by rewrite lookup_alter_eq, Hlk.
    + rewrite lookup_alter_ne by done. apply Hlog.
Qed.

Lemma mint_then {B} s st o k a p (upd : store → store) (ret : Revision.t → B) :
  locks_ok s → ulid st ≠ "" → ∃ s1,
  (r ← mint_and_push to_vec sha256_hex sign_b64 st o k a p; _ ← modify upd; mret (ret r)) s =
    (upd s1, Ok (ret (Revision.next (revision_of s o)))) ∧
  grew o (Revision.next (revision_of s o)) s s1.
Proof.
  intros Hs Hu. destruct (mint_run s st o k a p Hs Hu) as (s1 & Hm & Hg). exists s1.
  split; [|done]. unfold mbind, M_bind. by rewrite Hm.
Qed.
Lemma latest_then {B} s o (f : Revision.t → M store CpError.t B) : locks_ok s → ∃ s1,
  (current ← latest_revision o; f current) s = f (revision_of s o) s1 ∧ relogged s s1 ∧
  ∀ o', log_of s1 o' = log_of s o'.
Proof.
  intros Hs. destruct (latest_run s o Hs) as (s1 & Hl & Hr). exists s1. split; [|done].
  unfold mbind, M_bind. by rewrite Hl.
Qed.
Lemma grew_after o r s s1 s2 :
  relogged s s1 → (∀ o', log_of s1 o' = log_of s o') → grew o r s1 s2 → grew o r s s2.
Proof.
  intros [_ Hr] Hlog (-> & [Hk2 Hr2] & e & Hseq & Hl2). unfold grew, revision_of. rewrite Hlog.
  split; [done|]. split.
  - split; [done|]. by rewrite Hr2, Hr.
  - exists e. split; [by rewrite Hseq; unfold revision_of; rewrite Hlog|]. intros o'.
    by rewrite Hl2, !Hlog.
Qed.

Lemma payload_total r : ∃ p, org_payload org_value config_value r = Ok p.
Proof.
  unfold org_payload. destruct (org_value_total (org r)) as [v ->]. simpl.
  destruct (config r) as [c|]; simpl; [|eauto]. destruct (config_value_total c) as [w ->].
  simpl. eauto.
Qed.

(** The outcome of a conditional write: a mismatch, or an append. *)
Definition conditional {A} s (o : string) (x : option Revision.t) (out : store * result CpError.t A)
    (ok : A) (upd : store → store) : Prop :=
  (∃ s1 y, x = Some y ∧ y ≠ revision_of s o ∧ relogged s s1 ∧
     (∀ o', log_of s1 o' = log_of s o') ∧
     out = (s1, Err (CpError.RevisionMismatch (Revision.value (revision_of s o))))) ∨
  ((∀ y, x = Some y → y = revision_of s o) ∧
   ∃ s1, grew o (Revision.next (revision_of s o)) s s1 ∧ out = (upd s1, Ok ok)).

Lemma conditional_run {B} s st o k a p x (upd : store → store) (ret : Revision.t → B) :
  locks_ok s → ulid st ≠ "" →
  conditional s o x
    ((current ← latest_revision o; _ ← lift (check_expected_revision current x);
      r ← mint_and_push to_vec sha256_hex sign_b64 st o k a p; _ ← modify upd; mret (ret r)) s)
    (ret (Revision.next (revision_of s o))) upd.
Proof.
  intros Hs Hu.
  destruct (latest_then s o (λ current, _ ← lift (check_expected_revision current x);
    r ← mint_and_push to_vec sha256_hex sign_b64 st o k a p; _ ← modify upd; mret (ret r)) Hs)
    as (s1 & -> & Hr & Hlog).
  destruct (mint_then s1 st o k a p upd ret) as (s2 & Hm & Hg); [by destruct Hr|done|].
  assert (revision_of s1 o = revision_of s o) as Hrev by (unfold revision_of; by rewrite Hlog).
  unfold check_expected_revision. destruct x as [y|]; [case_bool_decide as Hy|].
  - right. split; [naive_solver|]. exists s2. rewrite Hrev in Hm, Hg.
    split; [by eapply grew_after|]. exact Hm.
  - left. exists s1, y. by split_and!.
  - right. split; [done|]. exists s2. rewrite Hrev in Hm, Hg. split; [by eapply grew_after|]. exact Hm.
Qed.
End runs.
End EventRuns.

(** * The in-memory pair keeps the promises *)
Module MirrorFacts.
Import Mirrored.
Section facts.
Context `{CpLibLaws OrgConfig}.
Abbreviation state := (Mirrored.t OrgConfig).
Implicit Types (s : state).

(** The read model has what the event store has, for every valid id. *)
Record mirrors s : Prop := {
  mi_locks : EventRuns.locks_ok (events s);
  mi_orgs x r : Id.wf x → EventStore.orgs (events s) !! Id.as_str x = Some r →
    ∃ r', OrgStore.orgs (read s) !! x = Some r' ∧ EventStore.org r' = EventStore.org r ∧
          EventStore.config r' = EventStore.config r;
  mi_keys x : Id.wf x →
    OrgStore.signing_keys (read s) !! x = EventStore.signing_keys (events s) !! Id.as_str x;
  mi_groups x n : Id.wf x →
    OrgStore.entry <$> OrgStore.groups (read s) !! (x, n) =
    EventStore.groups (events s) !! (Id.as_str x, n);
  mi_names o n e : EventStore.groups (events s) !! (o, n) = Some e → Rbac.name e = n;
}.
#[global] Instance mirrored_view : StoreView state OrgConfig := {|
  store_wf := mirrors;
  live s := {|
    l_orgs := kmap Id.as_str (OrgStore.orgs (read s));
    l_logged := dom (EventStore.orgs (events s));
    l_keys := EventStore.signing_keys (events s);
    l_groups := EventStore.groups (events s);
    l_principals := EventStore.principals (events s);
    l_promotions := EventStore.promotions (events s);
  |};
  revision_of s := EventRuns.revision_of (events s);
  log_of s := EventRuns.log_of (events s);
  store_faults := False;
|}.

Lemma relogged_unchanged es es' rd :
  mirrors (mk es rd) → EventRuns.relogged es es' →
  (∀ o, EventRuns.log_of es' o = EventRuns.log_of es o) → unchanged (mk es rd) (mk es' rd).
Proof.
  intros [H1 H2 H3 H4 H5] [Hk Hr] Hlog. simpl in *. split; simpl.
  - split; simpl; [done|..]; rewrite Hr; simpl; done.
  - by rewrite Hr.
  - intros o. unfold EventRuns.revision_of. by rewrite Hlog.
  - done.
Qed.
Lemma unchanged_refl s : mirrors s → unchanged s s.
Proof. by split. Qed.

(** An append whose effect on both halves is given. *)
Lemma grew_appended es es1 rd o r (upd : EventStore.t → EventStore.t) rd' f :
  mirrors (mk es rd) → EventRuns.grew o r es es1 →
  (∀ g e, upd (EventStore.with_logs g e) = EventStore.with_logs g (upd e)) →
  mirrors (mk (upd es) rd') →
  live (mk (upd es) rd') = f (live (mk es rd)) →
  appended o f r (mk es rd) (mk (upd es1) rd').
Proof.
  intros Hm (-> & [Hk Hr] & e & Hseq & Hlog) Hupd Hm' Hlive.
  assert (upd es1 = EventStore.with_logs (λ _, EventStore.logs es1) (upd es)) as Heq
    by (rewrite Hr; apply Hupd).
  assert (∀ o', EventRuns.log_of (upd es1) o' = EventRuns.log_of es1 o') as Hlog'
    by (intros; by rewrite Heq).
  split; simpl.
  - destruct Hm' as [_ H2 H3 H4 H5]. simpl in *. rewrite Heq. by split; simpl.
  - rewrite Heq. exact Hlive.
  - done.
  - intros o'. unfold EventRuns.revision_of. rewrite Hlog', Hlog. case_decide; [|done].
    rewrite last_snoc. simpl. done.
  - exists e. split; [done|]. intros o'. by rewrite Hlog', Hlog.
Qed.

(** ** Sorted keys *)
#[local] Instance id_cmp_ok : Comparator OrgStore.id_cmp := _.
#[local] Instance key_cmp_ok : Comparator OrgStore.key_cmp := _.
Lemma key_cmp_fst (x y : OrganizationId * string) :
  cmp_le OrgStore.key_cmp x y → cmp_le OrgStore.id_cmp x.1 y.1.
Proof.
  unfold cmp_le, OrgStore.key_cmp, cmp_pair. destruct (OrgStore.id_cmp x.1 y.1); simpl; done.
Qed.
Lemma take_while_filter (o : OrganizationId) l :
  StronglySorted (cmp_le OrgStore.key_cmp) l → (∀ k, k ∈ l → cmp_le OrgStore.id_cmp o k.1) →
  OrgStore.take_while (λ k, bool_decide (k.1 = o)) l = filter (λ k, k.1 = o) l.
Proof.
  induction 1 as [|x l Hs IH Hx]; intros Hle; [done|]. simpl. rewrite filter_cons.
  case_bool_decide as Hxo; [rewrite decide_True by done|rewrite decide_False by done].
  - rewrite IH; [done|]. intros k Hk. apply Hle. by right.
  - symmetry. apply elem_of_nil_inv. intros y [Hyo Hy]%list_elem_of_filter. apply Hxo.
    rewrite Forall_forall in Hx.
    apply (anti_symm (cmp_le OrgStore.id_cmp)).
    + rewrite <-Hyo. by apply key_cmp_fst, Hx.
    + apply Hle. left.
Qed.
Lemma sorted_filter {A} (R : A → A → Prop) (P : A → Prop) `{∀ x, Decision (P x)} l :
  StronglySorted R l → StronglySorted R (filter P l).
Proof.
  induction 1 as [|x l Hs IH Hx]; [constructor|]. rewrite filter_cons. case_decide; [|done].
  constructor; [done|]. rewrite Forall_forall in *. intros y [_ Hy]%list_elem_of_filter. auto.
Qed.
Lemma sorted_names (o : OrganizationId) names :
  StronglySorted (cmp_le OrgStore.key_cmp) ((o,.) <$> names) →
  StronglySorted (cmp_le String.compare) names.
Proof.
  induction names as [|n names IH]; [constructor|]. rewrite fmap_cons.
  intros Hs. inv Hs as [|? ? Hs' Hx]. constructor; [auto|].
  apply Forall_forall. intros m Hm. pose proof (proj1 (Forall_forall _ _) Hx (o, m)) as Hom.
  revert Hom. unfold cmp_le, OrgStore.key_cmp, cmp_pair. simpl.
  rewrite (proj2 (cmp_eq OrgStore.id_cmp o o)) by done. simpl. intros Hom. apply Hom.
  by apply list_elem_of_fmap_2.
Qed.
Lemma keys_of_spec (o : OrganizationId) (rd : OrgStore.t OrgConfig) : ∃ names,
  OrgStore.keys_of o rd = (o,.) <$> names ∧ StronglySorted (cmp_le String.compare) names ∧
  NoDup names ∧ ∀ n, n ∈ names ↔ is_Some (OrgStore.groups rd !! (o, n)).
Proof.
  unfold OrgStore.keys_of. set (l := filter _ _).
  assert (StronglySorted (cmp_le OrgStore.key_cmp) l) as Hs.
  { apply sorted_filter, StronglySorted_merge_sort; apply _. }
  assert (∀ k, k ∈ l ↔ k ∈ dom (OrgStore.groups rd) ∧ cmp_le OrgStore.key_cmp (o, "") k) as Hl.
  { intros k. unfold l. rewrite list_elem_of_filter, elem_of_btree_iter. unfold cmp_le. tauto. }
  assert (NoDup l) as Hnd.
  { apply NoDup_filter. unfold btree_iter. rewrite merge_sort_Permutation. apply NoDup_elements. }
  rewrite take_while_filter; [|done|].
  2:{ intros k [_ Hk]%Hl. by apply key_cmp_fst in Hk. }
  apply (sorted_filter _ (λ k, k.1 = o)) in Hs. apply (NoDup_filter (λ k, k.1 = o)) in Hnd.
  assert (∀ k, k ∈ filter (λ k, k.1 = o) l ↔ k.1 = o ∧ is_Some (OrgStore.groups rd !! k)) as Hk.
  { intros [o' n]. rewrite list_elem_of_filter, Hl, elem_of_dom. simpl. split; [tauto|].
    intros [-> Hg]. split_and!; [done..|]. unfold cmp_le, OrgStore.key_cmp, cmp_pair. simpl.
    rewrite (proj2 (cmp_eq OrgStore.id_cmp o o)) by done. by destruct n. }
  clear Hl. set (ks := filter _ l) in *. exists (snd <$> ks).
  assert (ks = (o,.) <$> (snd <$> ks)) as Heq.
  { rewrite <-list_fmap_compose. rewrite <-(list_fmap_id ks) at 1. apply list_fmap_ext.
    intros i [o' n] Hi%list_elem_of_lookup_2. apply Hk in Hi as [<- _]. done. }
  split_and!; [done|..].
  - rewrite Heq in Hs. by eapply sorted_names.
  - rewrite Heq in Hnd. by apply NoDup_fmap_1 in Hnd.
  - intros n. split.
    + intros ([o' m] & -> & Hm)%list_elem_of_fmap. by apply Hk in Hm as [<- ?].
    + intros Hg. apply list_elem_of_fmap. exists (o, n). split; [done|]. by apply Hk.
Qed.

Lemma read_law {A} (f : OrgStore.t OrgConfig → A) (Q : A → state → Prop) :
  (∀ s, mirrors s → Q (f (read s)) s) → reads (on_read f) Q.
Proof. intros HQ s Hs. unfold calls, on_read, gets. split; [by apply unchanged_refl|auto]. Qed.
Lemma omap_present (rd : OrgStore.t OrgConfig) (o : OrganizationId) names :
  (∀ n, n ∈ names → is_Some (OrgStore.groups rd !! (o, n))) →
  Forall2 (λ n (g : OrgStore.EtagedGroup), OrgStore.groups rd !! (o, n) = Some g) names
    (omap (λ k, OrgStore.groups rd !! k) ((o,.) <$> names)).
Proof.
  induction names as [|n names IH]; intros Hin; [constructor|]. simpl.
  destruct (Hin n) as [g Hg]; [left|]. rewrite Hg. constructor; [done|]. apply IH.
  intros m Hm. apply Hin. by right.
Qed.

#[global] Instance mirrored_org_store_laws : OrgStoreLaws state OrgConfig.
Proof.
  split.
  - intros o Ho. apply read_law. intros s _. unfold OrgStore.get. cbn [l_orgs live mirrored_view]. by rewrite (lookup_kmap Id.as_str).
  - intros offset limit. apply read_law. intros s _. unfold OrgStore.list.
    split; [rewrite length_take; lia|].
    intros r (i & Hi & _)%elem_of_take. rewrite lookup_drop in Hi.
    apply list_elem_of_lookup_2, list_elem_of_omap in Hi as (o & _ & Ho). exists (Id.as_str o).
    cbn [l_orgs live mirrored_view]. by rewrite (lookup_kmap Id.as_str).
  - intros o Ho. apply read_law. intros s Hs. unfold OrgStore.list_keys.
    by rewrite (mi_keys s Hs o Ho).
  - intros o n Ho. apply read_law. intros s Hs. by apply mi_groups.
  - intros o Ho. apply read_law. intros s Hs.
    destruct (keys_of_spec o (read s)) as (names & Hk & Hsort & Hnd & Hin). exists names.
    unfold OrgStore.list_groups. rewrite Hk. split_and!; [done..| |].
    + apply Forall2_fmap_r. eapply Forall2_impl; [apply omap_present; intros n; apply Hin|].
      intros n g Hg. simpl. by rewrite <-(mi_groups s Hs o n Ho), Hg.
    + intros n Hn. apply Hin. simpl in Hn. rewrite <-(mi_groups s Hs o n Ho) in Hn.
      by apply fmap_is_Some in Hn.
  - intros o n Ho. apply read_law. intros s Hs m.
    destruct (keys_of_spec o (read s)) as (names & Hk & _ & _ & Hin).
    unfold OrgStore.list_inheritors. rewrite Hk, list_elem_of_omap. simpl.
    rewrite <-(mi_groups s Hs o m Ho). split.
    + intros (k & (m' & -> & Hm)%list_elem_of_fmap & Hg). simpl in Hg.
      destruct (OrgStore.groups (read s) !! (o, m')) as [g|] eqn:Hg'; [|done]. simpl in Hg.
      case_bool_decide; [|done]. injection Hg as <-. rewrite Hg'. simpl. eauto.
    + intros (e & He & Hn). destruct (OrgStore.groups (read s) !! (o, m)) as [g|] eqn:Hg; [|done].
      simpl in He. injection He as <-. exists (o, m). split; [|by rewrite Hg; simpl; rewrite bool_decide_eq_true_2].
      apply list_elem_of_fmap. exists m. split; [done|]. apply Hin. by rewrite Hg.
  - intros o n _. by apply read_law.
Qed.

(** ** The calls of the event store *)
Lemma gets_law {A} (f : EventStore.t → A) (Q : A → state → Prop) :
  (∀ s, mirrors s → Q (f (events s)) s) → reads (on_events (gets f)) Q.
Proof.
  intros HQ [es rd] Hs. unfold calls, on_events, gets. simpl. split; [by apply unchanged_refl|].
  by apply (HQ (mk es rd)).
Qed.
Lemma latest_law o : reads (on_events (EventStore.latest_revision o)) (λ r s, r = revision_of s o).
Proof.
  intros [es rd] Hs. destruct (EventRuns.latest_run es o (mi_locks _ Hs)) as (es' & Hl & Hr & Hlog).
  unfold calls, on_events. simpl. rewrite Hl. split; [by apply relogged_unchanged|done].
Qed.
Lemma events_law o after limit : reads (on_events (EventStore.events_after o after limit))
  (λ es s, es = take limit (filter (λ e,
     Revision.value after < Revision.value (Envelope.seq e))%N (log_of s o))).
Proof.
  intros [es rd] Hs.
  destruct (EventRuns.events_after_run es o after limit (mi_locks _ Hs)) as (es' & Hl & Hr & Hlog).
  unfold calls, on_events. simpl. rewrite Hl. split; [by apply relogged_unchanged|done].
Qed.

(** An append that writes nothing through. *)
Lemma mint_law {B} st o k a p (upd : EventStore.t → EventStore.t) (ret : Revision.t → B) es rd f
    (Q : B → state → Prop) E :
  mirrors (mk es rd) → EventStore.ulid st ≠ "" →
  (∀ g e, upd (EventStore.with_logs g e) = EventStore.with_logs g (upd e)) →
  mirrors (mk (upd es) rd) → live (mk (upd es) rd) = f (live (mk es rd)) →
  (∀ r s', appended o f r (mk es rd) s' → Q (ret r) s') →
  calls (on_events (r ← EventStore.mint_and_push to_vec sha256_hex sign_b64 st o k a p;
                    _ ← modify upd; mret (ret r))) (mk es rd) Q E.
Proof.
  intros Hm Hu Hupd Hm' Hlive HQ.
  destruct (EventRuns.mint_then es st o k a p upd ret (mi_locks _ Hm) Hu) as (es1 & Hr & Hg).
  unfold calls, on_events. simpl. rewrite Hr. eapply HQ, grew_appended; eauto.
Qed.
Lemma upsert_law st o n a p s : mirrors s → EventStore.ulid st ≠ "" →
  calls (on_events (EventStore.upsert_changed to_vec sha256_hex sign_b64 st o n a p)) s
    (λ r, appended o (Live.put_principal o n p) r s) (λ _, False).
Proof.
  intros Hs Hu. destruct s as [es rd].
  apply (mint_law st o _ a _ (EventStore.with_principals <[(o, n) := p]>) (λ r, r) es rd
    (Live.put_principal o n p)); [done..| |done|done].
  by destruct Hs.
Qed.
Lemma tombstone_law st o rt n a s : mirrors s → EventStore.ulid st ≠ "" →
  let k := (o, Segment.as_str rt, NativeId.as_str n) in
  calls (on_events (EventStore.tombstone_promotion to_vec sha256_hex sign_b64 st o rt n a)) s
    (λ res s', match res with
               | Some r => is_Some (l_promotions (live s) !! k) ∧
                           appended o (Live.delete_promotion k) r s s'
               | None => l_promotions (live s) !! k = None ∧ unchanged s s'
               end)
    (λ e, ∃ raw msg, l_promotions (live s) !! k = Some raw ∧ e = CpError.Store msg ∧
                     ∀ f, Fgrn.parse raw ≠ Ok f).
Proof.
  intros Hs Hu k. destruct s as [es rd]. cbn [l_promotions live mirrored_view events].
  assert (EventStore.promotion_key o rt n = k) as Hk by done.
  destruct (EventStore.promotions es !! k) as [raw|] eqn:Hraw.
  2:{ unfold calls, on_events, EventStore.tombstone_promotion, EventStore.get_promotion, mbind,
        M_bind, gets. simpl. rewrite Hk, Hraw. simpl. split; [done|by apply unchanged_refl]. }
  destruct (Fgrn.parse raw) as [f|e|w] eqn:Hf; [|..|by apply FgrnFacts.parse_returns in Hf].
  - pose proof (mint_law st o EventKind.ResourceTombstoned a
      (PromotionStore.promotion_event_payload f rt n)
      (EventStore.with_promotions (delete k)) Some es rd (Live.delete_promotion k)
      (λ res s', match res with
               | Some r => is_Some (Some raw) ∧ appended o (Live.delete_promotion k) r (mk es rd) s'
               | None => Some raw = None ∧ unchanged (mk es rd) s'
               end)
      (λ e, ∃ raw0 msg, Some raw = Some raw0 ∧ e = CpError.Store msg ∧
                       ∀ f, Fgrn.parse raw0 ≠ Ok f)) as Hlaw.
    unfold calls, on_events, EventStore.tombstone_promotion, EventStore.get_promotion, mbind, M_bind,
      gets in Hlaw |- *. simpl in *. rewrite Hk, Hraw, Hf. simpl.
    apply Hlaw; [done..| |done|]; [by destruct Hs|]. intros r s' Ha. split; [by eexists|done].
  - unfold calls, on_events, EventStore.tombstone_promotion, EventStore.get_promotion, mbind, M_bind,
      gets. simpl. rewrite Hk, Hraw, Hf. simpl. split; [by apply unchanged_refl|]. left.
    eexists raw, _. split_and!; [done..|]. intros f'. congruence.
Qed.

(** ** Organizations *)
Definition stored (r : EventStore.OrgRecord (OrgConfig:=OrgConfig)) : EventStore.OrgRecord :=
  EventStore.Build_OrgRecord (EventStore.org r) (OrgStore.configured_compute <$> EventStore.config r).
Lemma stored_config r : EventStore.config (stored r) = EventStore.config r.
Proof. unfold EventStore.config, stored. by destruct r as [org [c|]]. Qed.
Lemma org_written es es1 rd r rev :
  mirrors (mk es rd) → EventRuns.grew (EventStore.record_id r) rev es es1 →
  appended (EventStore.record_id r) (Live.put_org (stored r)) rev (mk es rd)
    (mk (EventStore.with_orgs <[EventStore.record_id r := r]> es1)
        (OrgStore.write_through_org (EventStore.org r) (EventStore.config r) rd)).
Proof.
  intros Hm Hg. apply (grew_appended es es1 rd _ _
    (EventStore.with_orgs <[EventStore.record_id r := r]>)); [done..| |].
  - destruct Hm as [H1 H2 H3 H4 H5]. split; simpl; [done| |done..]. intros x r0 Hx.
    unfold EventStore.record_id. rewrite !lookup_insert.
    case_decide as Ho; case_decide as Ho'.
    + intros [= <-]. eexists. split; [done|]. split; [done|]. apply stored_config.
    + by apply id_as_str_inj in Ho.
    + by subst.
    + by apply H2.
  - unfold Live.put_org. simpl. f_equal.
    + by rewrite (kmap_insert Id.as_str).
    + by rewrite dom_insert_L.
Qed.
Lemma create_law st r a s : mirrors s → EventStore.ulid st ≠ "" →
  calls (create_org st r a) s
    (λ rev s', (EventStore.record_id r ∉ l_logged (live s)) ∧
       ∃ r', EventStore.org r' = EventStore.org r ∧ EventStore.config r' = EventStore.config r ∧
       appended (EventStore.record_id r) (Live.put_org r') rev s s')
    (λ e, EventStore.record_id r ∈ l_logged (live s) ∧ ∃ msg, e = CpError.Conflict msg).
Proof.
  intros Hs Hu. destruct s as [es rd]. cbn [l_logged live mirrored_view events].
  destruct (EventRuns.payload_total r) as [p Hp].
  destruct (EventRuns.mint_then es st (EventStore.record_id r) EventKind.OrgCreated a p
    (EventStore.with_orgs <[EventStore.record_id r := r]>) (λ r, r) (mi_locks _ Hs) Hu)
    as (es1 & Hr & Hg).
  unfold calls, create_org, on_events. unfold mbind at 1, M_bind at 1. cbn [events read].
  unfold EventStore.create_org. unfold mbind at 1, M_bind at 1, gets.
  case_bool_decide as Hk.
  { simpl. split; [by apply unchanged_refl|]. left. split; [by apply elem_of_dom|eauto]. }
  unfold mbind at 1, M_bind at 1. rewrite Hp. unfold lift at 1. rewrite Hr. simpl.
  split; [by rewrite elem_of_dom|]. exists (stored r).
  split_and!; [done|apply stored_config|]. by apply org_written.
Qed.
Lemma append_state_law st r k a x s : mirrors s → EventStore.ulid st ≠ "" →
  calls (append_org_state st r k a x) s
    (λ rev s', meets s (EventStore.record_id r) x ∧
       ∃ r', EventStore.org r' = EventStore.org r ∧ EventStore.config r' = EventStore.config r ∧
       appended (EventStore.record_id r) (Live.put_org r') rev s s')
    (mismatch s (EventStore.record_id r) x).
Proof.
  intros Hs Hu. destruct s as [es rd]. destruct (EventRuns.payload_total r) as [p Hp].
  pose proof (EventRuns.conditional_run es st (EventStore.record_id r) k a p x
    (EventStore.with_orgs <[EventStore.record_id r := r]>) (λ r, r) (mi_locks _ Hs) Hu) as Hc.
  unfold calls, append_org_state, on_events. unfold mbind at 1, M_bind at 1.
  assert (EventStore.append_org_state to_vec sha256_hex sign_b64 org_value config_value st r k a x es =
    (current ← EventStore.latest_revision (EventStore.record_id r);
     _ ← lift (EventStore.check_expected_revision current x);
     r0 ← EventStore.mint_and_push to_vec sha256_hex sign_b64 st (EventStore.record_id r) k a p;
     _ ← modify (EventStore.with_orgs <[EventStore.record_id r := r]>); mret r0) es) as Heq.
  { unfold EventStore.append_org_state, mbind, M_bind. rewrite Hp.
    destruct (EventStore.latest_revision _ es) as [es' [c|e|w]]; [|done..].
    unfold lift. by destruct (EventStore.check_expected_revision c x) as [[]|e|w]. }
  simpl. rewrite Heq.
  destruct Hc as [(es1 & y & -> & Hy & Hr & Hlog & ->)|(Hmeet & es1 & Hg & ->)]; simpl.
  - split; [by apply relogged_unchanged|]. left. exists y. done.
  - split; [done|]. exists (stored r). split_and!; [done|apply stored_config|]. by apply org_written.
Qed.

(** ** Keys *)
Lemma keys_written es es1 rd o (x : OrganizationId) ks r :
  mirrors (mk es rd) → EventRuns.grew o r es es1 → Id.new o = Ok x →
  appended o (Live.put_keys o ks) r (mk es rd)
    (mk (EventStore.with_keys <[o := ks]> es1) (OrgStore.write_through_signing_keys x ks rd)).
Proof.
  intros Hm Hg [<- Hx]%id_new_Ok. apply (grew_appended es es1 rd _ _
    (EventStore.with_keys <[Id.as_str x := ks]>)); [done..| |done].
  destruct Hm as [H1 H2 H3 H4 H5]. split; simpl; [done..| |done|done]. intros y Hy.
  rewrite !lookup_insert. case_decide as Ho; case_decide as Ho'; [done|..|by apply H3].
  - by subst.
  - by apply id_as_str_inj in Ho'.
Qed.
Lemma append_keys_known (es : EventStore.t (OrgConfig:=OrgConfig)) st o k a tr :
  is_Some (EventStore.orgs es !! o) →
  EventStore.append_org_keys to_vec sha256_hex sign_b64 keys_value st o k a tr es =
  match tr (default [] (EventStore.signing_keys es !! o)) with
  | Ok (Some (aff, ks)) =>
      match map_err (λ e, CpError.Store ("serialize signing_keys: " +:+ e)) (keys_value ks) with
      | Ok v => (r ← EventStore.mint_and_push to_vec sha256_hex sign_b64 st o k a
                       (Fold.key_event_payload aff v);
                 _ ← modify (EventStore.with_keys <[o := ks]>); mret (Some r)) es
      | Err e => (es, Err e)
      | Stuck w => (es, Stuck w)
      end
  | Ok None => (es, Ok None)
  | Err e => (es, Err e)
  | Stuck w => (es, Stuck w)
  end.
Proof.
  intros Hk. unfold EventStore.append_org_keys, mbind, M_bind, gets, lift.
  rewrite bool_decide_eq_true_2 by done. simpl.
  destruct (tr _) as [[[aff ks]|]|e|w]; [|done..]. by destruct (map_err _ (keys_value ks)).
Qed.
Lemma append_keys_law st o k a tr s : mirrors s → EventStore.ulid st ≠ "" → valid_id o →
  let keys := default [] (l_keys (live s) !! o) in
  returns (tr keys) →
  calls (append_org_keys st o k a tr) s
    (λ res s', o ∈ l_logged (live s) ∧
       match res with
       | Some r => ∃ aff ks, tr keys = Ok (Some (aff, ks)) ∧ appended o (Live.put_keys o ks) r s s'
       | None => tr keys = Ok None ∧ unchanged s s'
       end)
    (λ e, ((o ∉ l_logged (live s)) ∧ ∃ msg, e = CpError.NotFound msg) ∨ tr keys = Err e).
Proof.
  intros Hs Hu [x Hx] keys Htr. destruct s as [es rd].
  cbn [l_logged l_keys live mirrored_view events] in *.
  unfold calls, append_org_keys, on_events. unfold mbind at 1, M_bind at 1. cbn [events read].
  destruct (decide (is_Some (EventStore.orgs es !! o))) as [Hk|Hk].
  2:{ unfold EventStore.append_org_keys, mbind, M_bind, gets. rewrite bool_decide_eq_false_2 by done.
      simpl. split; [by apply unchanged_refl|]. left. left. split; [by rewrite elem_of_dom|eauto]. }
  pose proof (append_keys_known es st o k a tr Hk) as Heq. fold keys in Heq.
  apply elem_of_dom in Hk. rewrite Heq.
  destruct (tr keys) as [[[aff ks]|]|e|w] eqn:Ht; [|..|by destruct (Htr w)].
  - destruct (keys_value_total ks) as [v Hv].
    destruct (EventRuns.mint_then es st o k a (Fold.key_event_payload aff v)
      (EventStore.with_keys <[o := ks]>) Some (mi_locks _ Hs) Hu) as (es1 & Hr & Hg).
    rewrite Hv. cbn [map_err expect_ok]. rewrite Hr. simpl.
    unfold mbind, M_bind, gets, typed. rewrite Hx. simpl. rewrite lookup_insert_eq. simpl.
    split; [done|]. exists aff, ks. split; [done|]. by apply keys_written.
  - simpl. split; [done|]. split; [done|]. by apply unchanged_refl.
  - simpl. split; [by apply unchanged_refl|]. left. by right.
Qed.

(** ** Groups *)
Lemma group_written es es1 rd o (x : OrganizationId) g r :
  mirrors (mk es rd) → EventRuns.grew o r es es1 → Id.new o = Ok x →
  let e := OrgStore.entry g in
  appended o (Live.put_group o e) r (mk es rd)
    (mk (EventStore.with_groups <[(o, Rbac.name e) := e]> es1) (OrgStore.write_through_group x g rd)).
Proof.
  intros Hm Hg [<- Hx]%id_new_Ok e. apply (grew_appended es es1 rd _ _
    (EventStore.with_groups <[(Id.as_str x, Rbac.name e) := e]>)); [done..| |done].
  destruct Hm as [H1 H2 H3 H4 H5]. split; simpl; [done..| |].
  - intros y n Hy. rewrite !lookup_insert. case_decide as Ho; case_decide as Ho'; [done|..|by apply H4].
    + destruct Ho'. by simplify_eq.
    + destruct Ho. by simplify_eq.
  - intros o n e0. rewrite lookup_insert. case_decide; [|apply H5]. intros. by simplify_eq.
Qed.
Lemma group_deleted es es1 rd o (x : OrganizationId) n r :
  mirrors (mk es rd) → EventRuns.grew o r es es1 → Id.new o = Ok x →
  appended o (Live.delete_group o n) r (mk es rd)
    (mk (EventStore.with_groups (delete (o, n)) es1) (OrgStore.write_through_group_delete x n rd)).
Proof.
  intros Hm Hg [<- Hx]%id_new_Ok. apply (grew_appended es es1 rd _ _
    (EventStore.with_groups (delete (Id.as_str x, n)))); [done..| |done].
  destruct Hm as [H1 H2 H3 H4 H5]. split; simpl; [done..| |].
  - intros y m Hy. rewrite !lookup_delete. case_decide as Ho; case_decide as Ho'; [done|..|by apply H4].
    + destruct Ho'. by simplify_eq.
    + destruct Ho. by simplify_eq.
  - intros o m e0. rewrite lookup_delete. case_decide; [done|apply H5].
Qed.

Lemma put_group_law' st o e a x s : mirrors s → EventStore.ulid st ≠ "" → valid_id o →
  calls (put_group st o e a x) s
    (λ res s', match res with
       | EventStore.NoOp r => same_group (l_groups (live s) !! (o, Rbac.name e)) e = true ∧
                              r = revision_of s o ∧ unchanged s s'
       | EventStore.Applied r => same_group (l_groups (live s) !! (o, Rbac.name e)) e = false ∧
                                 meets s o x ∧ appended o (Live.put_group o e) r s s'
       end)
    (λ err, same_group (l_groups (live s) !! (o, Rbac.name e)) e = false ∧ mismatch s o x err).
Proof.
  intros Hs Hu [oid Ho]. destruct s as [es rd]. cbn [l_groups live mirrored_view events].
  destruct (group_value_total e) as [v Hv], (group_text_total e) as [txt Htxt].
  set (old := EventStore.groups es !! (o, Rbac.name e)).
  assert (∃ ov, match old with
      | Some e' => Some <$> map_err (λ x, CpError.Store
                     ("serialize existing group entry: " +:+ x)) (group_value e')
      | None => Ok None end = Ok ov ∧
    same_group old e = match Upsert.decide_upsert ov v with Upsert.NoOp => true | _ => false end)
    as (ov & Hov & Hsame).
  { destruct old as [e'|]; simpl.
    - destruct (group_value_total e') as [v' Hv']. exists (Some v'). by rewrite Hv', Hv.
    - exists None. split; [done|]. done. }
  pose proof (EventRuns.conditional_run es st o EventKind.GroupPut a
    (Fold.group_put_payload (Rbac.name e) v) x
    (EventStore.with_groups <[(o, Rbac.name e) := e]>) EventStore.Applied (mi_locks _ Hs) Hu) as Hc.
  assert (EventStore.put_group to_vec sha256_hex sign_b64 group_value st o e a x es =
    match Upsert.decide_upsert ov v with
    | Upsert.NoOp => (current ← EventStore.latest_revision o; mret (EventStore.NoOp current)) es
    | Upsert.Changed _ =>
        (current ← EventStore.latest_revision o;
         _ ← lift (EventStore.check_expected_revision current x);
         r ← EventStore.mint_and_push to_vec sha256_hex sign_b64 st o EventKind.GroupPut a
               (Fold.group_put_payload (Rbac.name e) v);
         _ ← modify (EventStore.with_groups <[(o, Rbac.name e) := e]>);
         mret (EventStore.Applied r)) es
    end) as Heq.
  { unfold EventStore.put_group. unfold mbind at 1, M_bind at 1, gets at 1.
    unfold mbind at 1, M_bind at 1, lift at 1. fold old. rewrite Hov.
    unfold mbind at 1, M_bind at 1, lift at 1. rewrite Hv. cbn [map_err].
    by destruct (Upsert.decide_upsert ov v). }
  unfold calls, put_group, on_events. unfold mbind at 1, M_bind at 1. cbn [events read].
  rewrite Heq, Hsame. destruct (Upsert.decide_upsert ov v) as [|p].
  - destruct (EventRuns.latest_then es o (λ c, mret (EventStore.NoOp c)) (mi_locks _ Hs))
      as (es1 & -> & Hr & Hlog). simpl. split_and!; [done..|]. by apply relogged_unchanged.
  - destruct Hc as [(es1 & y & -> & Hy & Hr & Hlog & ->)|(Hmeet & es1 & Hg & ->)]; simpl.
    + split; [by apply relogged_unchanged|]. left. split; [done|]. by exists y.
    + unfold mbind, M_bind, typed. rewrite Ho. unfold OrgStore.etaged_compute.
      unfold OrgStore.compute_group_etag. rewrite Htxt. simpl. split_and!; [done..|].
      by apply (group_written es es1 rd o oid
        {| OrgStore.entry := e; OrgStore.etag := Etag.mk (OrgStore.strong_etag txt) |}).
Qed.
Lemma delete_group_law' st o n a x s : mirrors s → EventStore.ulid st ≠ "" → valid_id o →
  calls (delete_group st o n a x) s
    (λ res s', match res with
       | EventStore.NoOp r => l_groups (live s) !! (o, n) = None ∧ r = revision_of s o ∧
                              unchanged s s'
       | EventStore.Applied r => is_Some (l_groups (live s) !! (o, n)) ∧ meets s o x ∧
                                 appended o (Live.delete_group o n) r s s'
       end)
    (λ err, is_Some (l_groups (live s) !! (o, n)) ∧ mismatch s o x err).
Proof.
  intros Hs Hu [oid Ho]. destruct s as [es rd]. cbn [l_groups live mirrored_view events].
  pose proof (EventRuns.conditional_run es st o EventKind.GroupDeleted a
    (Fold.group_deleted_payload n) x
    (EventStore.with_groups (delete (o, n))) EventStore.Applied (mi_locks _ Hs) Hu) as Hc.
  unfold calls, delete_group, on_events. unfold mbind at 1, M_bind at 1. cbn [events read].
  unfold EventStore.delete_group. unfold mbind at 1, M_bind at 1, gets at 1.
  case_bool_decide as Hk; cbn [negb].
  - destruct Hc as [(es1 & y & -> & Hy & Hr & Hlog & ->)|(Hmeet & es1 & Hg & ->)]; simpl.
    + split; [by apply relogged_unchanged|]. left. split; [done|]. by exists y.
    + unfold mbind, M_bind, typed. rewrite Ho. simpl. split_and!; [done..|].
      by apply (group_deleted es es1 rd o oid n).
  - destruct (EventRuns.latest_then es o (λ c, mret (EventStore.NoOp c)) (mi_locks _ Hs))
      as (es1 & -> & Hr & Hlog). simpl. split_and!; [by apply eq_None_not_Some|done|].
    by apply relogged_unchanged.
Qed.

Lemma calls_mono {A} (m : M state CpError.t A) s Q Q' E E' :
  calls m s Q E → (∀ a s', Q a s' → Q' a s') → (∀ e, E e → E' e) → calls m s Q' E'.
Proof. unfold calls. destruct (m s) as [s' [a|e|w]]; naive_solver. Qed.
(** A call after a pure step. *)
Lemma calls_lift {A B} (r : result CpError.t A) (f : A → M state CpError.t B) s Q E :
  mirrors s → returns r → (∀ e, r = Err e → E e) → (∀ a, r = Ok a → calls (f a) s Q E) →
  calls (lift r ≫= f) s Q E.
Proof.
  intros Hs Hr He Hf. unfold calls, lift, mbind, M_bind. destruct r as [a|e|w].
  - by apply Hf.
  - split; [by apply unchanged_refl|]. left. by apply He.
  - by destruct (Hr w).
Qed.
Lemma to_entry_returns g : returns (to_entry g).
Proof. unfold to_entry, SigningKey.new. solve_returns. Qed.
(** A key call that returns the material with the revision. *)
Lemma calls_key st o k a tr s (g : GenerateKeyResult) why :
  mirrors s → EventStore.ulid st ≠ "" → valid_id o →
  let keys := default [] (l_keys (live s) !! o) in
  returns (tr keys) → tr keys ≠ Ok None →
  calls (outcome ← append_org_keys st o k a tr; r ← expect_some why outcome; mret (g, r)) s
    (λ res s', o ∈ l_logged (live s) ∧ res.1 = g ∧ ∃ aff ks, tr keys = Ok (Some (aff, ks)) ∧
       appended o (Live.put_keys o ks) res.2 s s')
    (λ e, ((o ∉ l_logged (live s)) ∧ ∃ msg, e = CpError.NotFound msg) ∨ tr keys = Err e).
Proof.
  intros Hs Hu Ho keys Htr Hn. pose proof (append_keys_law st o k a tr s Hs Hu Ho Htr) as Hl.
  fold keys in Hl. unfold calls in *. unfold mbind at 1, M_bind at 1.
  destruct (append_org_keys st o k a tr s) as [s' [[r|]|e|w]]; [| |done..].
  - destruct Hl as (Hlog & aff & ks & Heq & Ha). simpl. split_and!; [done..|]. eauto.
  - by destruct Hl as (_ & Heq & _).
Qed.

#[global] Instance mirrored_event_store_laws : ModelEventStoreLaws state OrgConfig.
Proof.
  split.
  - intros o n. by apply gets_law.
  - apply latest_law.
  - apply events_law.
  - intros o rt n. by apply gets_law.
  - intros o rt after limit s Hs. unfold calls. simpl. split; [by apply unchanged_refl|done].
  - intros o s Hs. unfold calls. simpl. unfold list_signing_keys, lift.
    destruct verifying_key_pem as [p|e|w] eqn:Hp; simpl.
    + by apply unchanged_refl.
    + split; [by apply unchanged_refl|by left].
    + by apply verifying_key_pem_returns in Hp.
  - intros st o n a p s Hs Hu _. by apply upsert_law.
  - intros st o rt n a s Hs Hu _. by apply tombstone_law.
  - intros st mat o a s Hs Hu Ho Hmat. simpl. apply calls_lift; [done..| |].
    { intros e ->. by left. }
    intros g ->. apply calls_lift; [done|apply to_entry_returns|naive_solver|]. intros ne Hne.
    eapply calls_mono; [by apply (calls_key st o _ a _ s g)|..].
    + intros [g' r] s' (Hlog & -> & aff & ks & [= _ <-] & Ha). simpl in *. eauto 10.
    + intros e [He|He]; [auto|done].
  - intros st o k a s Hs Hu Ho keys.
    pose proof (append_keys_law st o EventKind.OrgKeyRevoked a (SigningKey.revoke_key_transition k) s
      Hs Hu Ho (returns_Ok _)) as Hl. fold keys in Hl. unfold SigningKey.revoke_key_transition in Hl.
    eapply calls_mono; [exact Hl|..].
    + intros [r|] s' (_ & Hr).
      * destruct Hr as (aff & ks & Heq & Ha). exists ks. split; [|done].
        destruct (SigningKey.revoke_entries keys k); simpl in Heq; congruence.
      * destruct Hr as (Heq & Hun). split; [|done].
        destruct (SigningKey.revoke_entries keys k); simpl in Heq; congruence.
    + intros e [He|He]; [done|]. done.
  - intros st mat now o k a s Hs Hu Ho Hmat keys. simpl. apply calls_lift; [done..| |].
    { intros e ->. by left. }
    intros g ->. apply calls_lift; [done|apply to_entry_returns|naive_solver|]. intros ne Hne.
    assert (returns (SigningKey.rotate_key_transition k ne now rotation_grace keys)) as Hret.
    { apply returns_bind; [apply SigningKeyFacts.rotate_returns|done]. }
    eapply calls_mono; [apply (calls_key st o _ a _ s g); [done..|]|..].
    + fold keys. unfold SigningKey.rotate_key_transition.
      by destruct (SigningKey.rotate_entries keys k ne now rotation_grace).
    + intros [g' r] s' (Hlog & -> & aff & ks & Heq & Ha). simpl in *. fold keys in Heq.
      apply bind_Ok in Heq as (ks' & Hks & [= <- <-]). split; [done|]. eauto 10.
    + intros e [He|He]; [auto|]. fold keys in He. apply bind_Err in He as [He|(? & _ & ?)]; [eauto 10|done].
  - intros st r a s Hs Hu _. by apply create_law.
  - intros st r a x s Hs Hu _. by apply append_state_law.
  - intros st r k a x s Hs Hu _. eapply calls_mono; [by apply append_state_law|..].
    + intros rev s' [Hm Hr]. split; [by apply Hm|done].
    + done.
  - intros st o e a x s Hs Hu Ho. by apply put_group_law'.
  - intros st o n a x s Hs Hu Ho. by apply delete_group_law'.
Qed.

(** [memory_router]: the pair starts mirrored. *)
Lemma start_mirrors orgs : mirrors (start orgs).
Proof.
  split; simpl.
  - intros o log Hl. simpl in Hl. by rewrite lookup_empty in Hl.
  - intros x r _. by rewrite lookup_empty.
  - intros x _. by rewrite !lookup_empty.
  - intros x n _. by rewrite !lookup_empty.
  - intros o n e. by rewrite lookup_empty.
Qed.
End facts.
End MirrorFacts.
