(* ===== verification/Handlers.v ===== *)
(** The control plane's HTTP handlers ([control-plane/src/handlers]), written
    against the two store traits of [ReadModel]: organizations ([mod.rs]),
    lifecycle verbs ([lifecycle.rs]), request-signing keys ([keys.rs]), groups
    ([groups/mod.rs], [groups/pure.rs]), principals, promotions, the event feed
    with its watch loop, and event-signing keys.  A handler is a stateful
    computation whose error is an early [return]; path, query and body come
    decoded, as the extractors hand them over. *)

From stdpp Require Import pretty.
From S2P Require Import Prelude RustStr Decimal Ident Fgrn Store Event Org Rbac EventStore Action Authn.
From S2P Require Import ReadModel.

(** The [http] crate: the text of a header value, and which texts are header
    values. *)
Class HttpLib := {
  header_to_str : string → option string;
  header_value_ok : string → bool;
}.

(** * Requests and responses *)
Section http.
Context `{HttpLib}.

(** The tuple a handler turns into a response; [Json]'s payload is the
    serialization of its value. *)
Definition HeaderMap := list (string * string).
Record Response := mkResponse {
  status : N;
  headers : HeaderMap;
  body : option (result string Json.t);
}.
Definition status_only (code : N) : Response := mkResponse code [] None.
Definition INTERNAL_SERVER_ERROR : Response := status_only 500.
Definition json (code : N) (hs : HeaderMap) (v : Json.t) : Response := mkResponse code hs (Some (Ok v)).
Definition num (n : N) : Json.t := Json.Number (Json.PosInt n).
Definition opt_num (n : option N) : Json.t := match n with Some n => num n | None => Json.Null end.
Definition str (s : string) : Json.t := Json.String s.
Definition strs (l : list string) : Json.t := Json.Array (str <$> l).
Definition error (code : N) (msg : string) : Response :=
  json code [] (Json.object [("error", str msg)]).

(** What the shell hands to one request: the time, the stamp of the event it
    may append, fresh key material, and the caller. *)
Record Shell := {
  now : instant;
  stamp : EventStore.stamp;
  material : result CpError.t GenerateKeyResult;
  identity : option Identity.t;
}.

(** [headers.get(name)]: the first value. *)
Definition header (name : string) (hs : HeaderMap) : option string :=
  match list_find (λ h, h.1 = name) hs with Some (_, (_, v)) => Some v | None => None end.
Definition header_str (name : string) (hs : HeaderMap) : option string :=
  header name hs ≫= header_to_str.
Definition header_str_or_empty (name : string) (hs : HeaderMap) : option string :=
  (λ v, default "" (header_to_str v)) <$> header name hs.

Definition REVISION_HEADER : string := "x-fg-revision".
Definition MAX_LIMIT : N := 1000.
Definition DEFAULT_LIMIT : N := 100.
Definition actor_for (org_id : string) (identity : option Identity.t) : Envelope.Actor :=
  match identity with
  | None => Envelope.System
  | Some i =>
      match Segment.try_new org_id, NativeId.try_new (Id.as_str (Identity.user_id i)) with
      | Ok segment, Ok native_id => Envelope.Principal (Fgrn.principal segment native_id)
      | _, _ => Envelope.System
      end
  end.
Definition clamp_limit (requested : N) : nat :=
  if bool_decide (MAX_LIMIT < requested)%N then N.to_nat MAX_LIMIT
  else if bool_decide (requested = 0)%N then 1
  else N.to_nat requested.
Definition not_found : Response := error 404 "not found".
Definition revision_header_map (revision : N) : HeaderMap :=
  if header_value_ok (pretty revision) then [(REVISION_HEADER, pretty revision)] else [].
Definition etag_header (e : Etag.t) : HeaderMap :=
  if header_value_ok (Etag.as_str e) then [("etag", Etag.as_str e)] else [].
Definition etag_header_map (stored_etag : option Etag.t) : HeaderMap :=
  match stored_etag with Some e => etag_header e | None => [] end.
Definition merged_headers (a b : HeaderMap) : HeaderMap :=
  filter (λ h, h.1 ∉ b.*1) a ++ b.
Definition if_none_match (hs : HeaderMap) : option EtagRules.IfMatch :=
  header_str "if-none-match" hs ≫= EtagRules.parse_if_match.

(** ** Revision headers ([if_revision.rs], [min_revision.rs]) *)
Definition IF_REVISION_HEADER : string := "x-fg-if-revision".
Definition MIN_REVISION_HEADER : string := "x-fg-min-revision".
Definition parse_revision (raw : option string) : result () (option Revision.t) :=
  match raw with
  | None => Ok None
  | Some value => (λ n, Some (Revision.new n)) <$> ok_or (parse_u64 (trim value)) ()
  end.
Definition parse_if_revision : option string → result () (option Revision.t) := parse_revision.
Definition parse_min_revision : option string → result () (option Revision.t) := parse_revision.
Inductive MinRevisionCheck := Fresh | Behind (current required : Revision.t).
Definition check_min_revision (current required : Revision.t) : MinRevisionCheck :=
  if bool_decide (Revision.value required ≤ Revision.value current)%N then Fresh
  else Behind current required.

(** ** Handlers as computations *)
Section monad.
Context {S : Type}.
Abbreviation handler := (M S Response).
(** [match store.op().await { Ok(a) => a, Err(e) => return .. }]. *)
Definition call {A} (m : M S CpError.t A) (on_err : CpError.t → Response) : handler A := λ s,
  let '(s', r) := m s in (s', map_err on_err r).
(** The outcome itself, for code that looks at it later. *)
Definition attempt {A} (m : M S CpError.t A) : handler (result CpError.t A) := λ s,
  match m s with
  | (s', Stuck w) => (s', Stuck w)
  | (s', r) => (s', Ok r)
  end.
Definition or_500 {A} (m : M S CpError.t A) : handler A := call m (λ _, INTERNAL_SERVER_ERROR).
Definition fail {A} (r : Response) : handler A := lift (Err r).
(** [let Ok(x) = r else { return resp }]. *)
Definition let_ok {E A} (r : result E A) (resp : Response) : handler A := lift (map_err (λ _, resp) r).
Definition let_some {A} (o : option A) (resp : Response) : handler A := lift (ok_or o resp).
(** A value inside [json!]: its serialization is unwrapped. *)
Definition json_value (r : result string Json.t) : handler Json.t := lift (expect_ok r "json!").
(** The response of the whole handler. *)
Definition finish (m : handler Response) : M S Empty_set Response := λ s,
  match m s with
  | (s', Ok r) | (s', Err r) => (s', Ok r)
  | (s', Stuck w) => (s', Stuck w)
  end.
End monad.
End http.

(** * Organizations ([handlers/mod.rs]) *)
Module OrgHandlers.
Section handlers.
Context `{HttpLib, CpLib OrgConfig} {S : Type}.
Context `{OrgStoreI S OrgConfig, ModelEventStoreI S OrgConfig}.
Abbreviation OrgRecord := (EventStore.OrgRecord (OrgConfig:=OrgConfig)).
Abbreviation handler := (M S Response).
Implicit Types (sh : Shell).

Record CreateOrgRequest := {
  create_org_id : string;
  create_name : string;
  create_config : option OrgConfig;
}.
Record UpdateOrgRequest := { update_name : option string; update_config : option OrgConfig }.
Record ListParams := { offset : option nat; limit : option nat }.

Definition health_handler : Response := json 200 [] (Json.object [("status", str "ok")]).

(** [{"organization": .., "revision": ..}]. *)
Definition org_body (org : Organization.t) (revision : N) : handler Json.t :=
  v ← json_value (org_value org);
  mret (Json.object [("organization", v); ("revision", num revision)]).
Definition create_handler sh (req : CreateOrgRequest) : handler Response :=
  org_id ← let_ok (Id.new (create_org_id req)) (error 422 "invalid org_id");
  let raw_org_id := Id.as_str org_id in
  let org := Organization.new org_id (create_name req) OrgStatus.Draft (now sh) in
  let record := EventStore.Build_OrgRecord org (OrgStore.configured_compute <$> create_config req) in
  let actor := actor_for raw_org_id (identity sh) in
  revision ← call (create_org (stamp sh) record actor) (λ e,
    match e with
    | CpError.Conflict msg => error 409 msg
    | _ => INTERNAL_SERVER_ERROR
    end);
  b ← org_body org (Revision.value revision);
  mret (json 201 (revision_header_map (Revision.value revision)) b).

Definition get_handler (raw_org_id : string) (hs : HeaderMap) : handler Response :=
  org_id ← let_ok (Id.new raw_org_id) not_found;
  found ← or_500 (get org_id);
  record ← let_some (found : option OrgRecord) not_found;
  let stored_etag := EventStore.cc_etag <$> EventStore.configured record in
  let response_headers := etag_header_map stored_etag in
  mret (match EtagRules.check_if_none_match (if_none_match hs) stored_etag with
        | EtagRules.Matched | EtagRules.WildcardMatched => mkResponse 304 response_headers None
        | EtagRules.NotMatched | EtagRules.WildcardOnDraft =>
            mkResponse 200 response_headers (Some (org_value (EventStore.org record)))
        end).

Definition list_handler (params : ListParams) : handler Response :=
  let offset := default 0 (offset params) in
  let limit := default 20 (limit params) `min` 100 in
  records ← or_500 (list_orgs offset limit);
  mret (mkResponse 200 [] (Some (Json.Array <$>
    mapM (λ r : OrgRecord, org_value (EventStore.org r)) records))).

Definition proxy_config_handler (raw_org_id : string) (hs : HeaderMap) : handler Response :=
  org_id ← let_ok (Id.new raw_org_id) not_found;
  found ← or_500 (get org_id);
  record ← let_some (found : option OrgRecord) not_found;
  configured ← let_some (EventStore.configured record)
    (error 409 ("organization '" +:+ Id.as_str org_id +:+ "' has no proxy config"));
  let response_headers := etag_header_map (Some (EventStore.cc_etag configured)) in
  mret (match EtagRules.check_if_none_match (if_none_match hs) (Some (EventStore.cc_etag configured)) with
        | EtagRules.Matched | EtagRules.WildcardMatched => mkResponse 304 response_headers None
        | EtagRules.NotMatched | EtagRules.WildcardOnDraft =>
            mkResponse 200 response_headers (Some (config_value (EventStore.cc_config configured)))
        end).

Definition org_payload_json (org : Organization.t) (config : option OrgConfig)
    : result string Json.t :=
  organization ← org_value org;
  config ← match config with Some c => Some <$> config_value c | None => Ok None end;
  Ok (Fold.org_event_payload organization config).

(** The parsed precondition, or the 400. *)
Definition parse_if_revision_header (hs : HeaderMap) : handler (option Revision.t) :=
  let_ok (parse_if_revision (header_str IF_REVISION_HEADER hs))
    (error 400 "invalid X-Fg-If-Revision header").
Definition revision_mismatch (current : N) (expected : option Revision.t) : Response :=
  json 412 (revision_header_map current)
    (Json.object [("error", str "revision_mismatch"); ("current_revision", num current);
                  ("expected_revision", opt_num (Revision.value <$> expected))]).
Definition update_handler sh (raw_org_id : string) (hs : HeaderMap) (req : UpdateOrgRequest)
    : handler Response :=
  org_id ← let_ok (Id.new raw_org_id) not_found;
  if_revision ← parse_if_revision_header hs;
  found ← or_500 (get org_id);
  record ← let_some (found : option OrgRecord) not_found;
  let candidate_org := match update_name req with
    | Some name => Organization.update_name (EventStore.org record) name (now sh)
    | None => EventStore.org record
    end in
  let candidate_config := match update_config req with
    | Some c => Some c
    | None => EventStore.config record
    end in
  stored_payload ← let_ok (org_payload_json (EventStore.org record) (EventStore.config record))
    INTERNAL_SERVER_ERROR;
  candidate_payload ← let_ok (org_payload_json candidate_org candidate_config)
    INTERNAL_SERVER_ERROR;
  match Upsert.decide_upsert (Some (Fold.org_semantic_view stored_payload))
          (Fold.org_semantic_view candidate_payload) with
  | Upsert.NoOp =>
      current ← or_500 (latest_revision raw_org_id);
      b ← org_body (EventStore.org record) (Revision.value current);
      mret (json 200 (revision_header_map (Revision.value current)) b)
  | Upsert.Changed _ =>
      let org := Organization.with_updated_at candidate_org (now sh) in
      let updated_record :=
        EventStore.Build_OrgRecord org (OrgStore.configured_compute <$> candidate_config) in
      let actor := actor_for raw_org_id (identity sh) in
      revision ← call (update_org (stamp sh) updated_record actor if_revision) (λ e,
        match e with
        | CpError.NotFound msg => error 404 msg
        | CpError.RevisionMismatch current => revision_mismatch current if_revision
        | _ => INTERNAL_SERVER_ERROR
        end);
      b ← org_body org (Revision.value revision);
      mret (json 200 (revision_header_map (Revision.value revision)) b)
  end.
End handlers.
Arguments CreateOrgRequest : clear implicits.
Arguments UpdateOrgRequest : clear implicits.
End OrgHandlers.

(** * Lifecycle verbs ([handlers/lifecycle.rs]) *)
Module LifecycleHandlers.
Section handlers.
Context `{HttpLib, CpLib OrgConfig} {S : Type}.
Context `{OrgStoreI S OrgConfig, ModelEventStoreI S OrgConfig}.
Abbreviation OrgRecord := (EventStore.OrgRecord (OrgConfig:=OrgConfig)).
Abbreviation handler := (M S Response).

Definition invalid_transition (from to : OrgStatus.t) : Response :=
  json 409 [] (Json.object [("error", str "invalid_transition");
    ("from", str (OrgStatus.to_string from)); ("to", str (OrgStatus.to_string to))]).
Definition current_revision (raw_org_id : string) : handler Revision.t :=
  or_500 (latest_revision raw_org_id).
Definition transition_handler (verb : LifecycleVerb.t) (sh : Shell) (raw_org_id : string)
    : handler Response :=
  org_id ← let_ok (Id.new raw_org_id) not_found;
  found ← or_500 (get org_id);
  record ← let_some (found : option OrgRecord) not_found;
  let from := Organization.status (EventStore.org record) in
  if bool_decide (from = OrgStatus.Deleted) then fail not_found else
  let target := LifecycleVerb.target verb in
  if bool_decide (from = target) then
    revision ← current_revision raw_org_id;
    b ← OrgHandlers.org_body (EventStore.org record) (Revision.value revision);
    mret (json 200 (revision_header_map (Revision.value revision)) b)
  else if negb (LifecycleVerb.valid_from verb from) then fail (invalid_transition from target)
  else
    expected_revision ← current_revision raw_org_id;
    org ← let_ok (Organization.transition_to (EventStore.org record) target (now sh))
      (invalid_transition from target);
    let updated_record := EventStore.Build_OrgRecord org (EventStore.configured record) in
    let actor := actor_for raw_org_id (identity sh) in
    revision ← call (transition_org (stamp sh) updated_record (EventStore.verb_kind verb) actor
                       expected_revision) (λ e,
      match e with
      | CpError.RevisionMismatch current =>
          json 409 (revision_header_map current)
            (Json.object [("error", str "transition_conflict"); ("current_revision", num current)])
      | _ => INTERNAL_SERVER_ERROR
      end);
    b ← OrgHandlers.org_body org (Revision.value revision);
    mret (json 200 (revision_header_map (Revision.value revision)) b).
Definition activate_handler : Shell → string → handler Response :=
  transition_handler LifecycleVerb.Activate.
Definition suspend_handler : Shell → string → handler Response :=
  transition_handler LifecycleVerb.Suspend.
Definition restore_handler : Shell → string → handler Response :=
  transition_handler LifecycleVerb.Restore.
End handlers.
End LifecycleHandlers.

(** * Request-signing keys ([handlers/keys.rs]) *)
Module KeyHandlers.
Section handlers.
Context `{HttpLib, CpLib OrgConfig} {S : Type}.
Context `{OrgStoreI S OrgConfig, ModelEventStoreI S OrgConfig}.
Abbreviation OrgRecord := (EventStore.OrgRecord (OrgConfig:=OrgConfig)).
Abbreviation handler := (M S Response).
Implicit Types (sh : Shell).

Definition key_result_response (r : GenerateKeyResult) (revision : N) : Response :=
  json 201 (revision_header_map revision)
    (Json.object [("key_id", str (gk_key_id r)); ("private_key", str (gk_private_key_pem r));
                  ("public_key", str (gk_public_key_pem r));
                  ("created_at", str (to_rfc3339 (gk_created_at r))); ("revision", num revision)]).
Definition status_string (st : SigningKey.status) : string :=
  match st with
  | SigningKey.Active => "Active"
  | SigningKey.Rotating expires_at => "Rotating(" +:+ to_rfc3339 expires_at +:+ ")"
  | SigningKey.Revoked => "Revoked"
  end.
Definition key_entry_json (e : SigningKey.entry) : Json.t :=
  let fields := [("key_id", str (SigningKey.key_id e));
                 ("public_key", str (SigningKey.public_key_pem e));
                 ("status", str (status_string (SigningKey.key_status e)));
                 ("created_at", str (to_rfc3339 (SigningKey.created_at e)))] in
  Json.object (match SigningKey.expires_at e with
               | Some t => fields ++ [("expires_at", str (to_rfc3339 t))]
               | None => fields
               end).

Definition generate_key_handler sh (raw_org_id : string) : handler Response :=
  _ ← let_ok (Id.new raw_org_id : result _ OrganizationId) not_found;
  let actor := actor_for raw_org_id (identity sh) in
  '(r, revision) ← call (generate_org_key (stamp sh) (material sh) raw_org_id actor) (λ e,
    match e with
    | CpError.NotFound msg => error 404 msg
    | _ => INTERNAL_SERVER_ERROR
    end);
  mret (key_result_response r (Revision.value revision)).
Definition revoke_key_handler sh (raw_org_id key_id : string) : handler Response :=
  _ ← let_ok (Id.new raw_org_id : result _ OrganizationId) not_found;
  let actor := actor_for raw_org_id (identity sh) in
  outcome ← call (revoke_org_key (stamp sh) raw_org_id key_id actor) (λ e,
    match e with
    | CpError.NotFound msg => error 404 msg
    | _ => INTERNAL_SERVER_ERROR
    end);
  revision ← match outcome with
             | Some revision => mret revision
             | None => or_500 (latest_revision raw_org_id)
             end;
  mret (mkResponse 204 (revision_header_map (Revision.value revision)) None).
Definition rotate_key_handler sh (raw_org_id key_id : string) : handler Response :=
  _ ← let_ok (Id.new raw_org_id : result _ OrganizationId) not_found;
  let actor := actor_for raw_org_id (identity sh) in
  '(r, revision) ← call (rotate_org_key (stamp sh) (material sh) (now sh) raw_org_id key_id actor)
    (λ e, match e with
          | CpError.NotFound msg => error 404 msg
          | CpError.Conflict msg => error 409 msg
          | _ => INTERNAL_SERVER_ERROR
          end);
  mret (key_result_response r (Revision.value revision)).
Definition list_keys_handler (raw_org_id : string) : handler Response :=
  org_id ← let_ok (Id.new raw_org_id) not_found;
  found ← or_500 (get org_id);
  _ ← let_some (found : option OrgRecord) not_found;
  keys ← or_500 (list_keys org_id);
  mret (json 200 [] (Json.Array (key_entry_json <$> keys))).
End handlers.
End KeyHandlers.

(** * Groups ([handlers/groups]) *)
Module GroupHandlers.
Import Rbac Validation.

(** ** The functional core ([groups/pure.rs]) *)
Record CreateGroupRequest := {
  c_name : string;
  c_description : option string;
  c_inherits : list string;
  c_allow : list string;
  c_tenant_scoped : bool;
}.
Record UpdateGroupRequest := {
  u_name : option string;
  u_description : option string;
  u_inherits : list string;
  u_allow : list string;
  u_tenant_scoped : bool;
}.
Definition rbac_from_create (req : CreateGroupRequest) : RbacEntry :=
  {| name := c_name req; description := c_description req; inherits := c_inherits req;
     allow := c_allow req; tenant_scoped := c_tenant_scoped req |}.
Definition rbac_from_update (path_name : string) (req : UpdateGroupRequest)
    : result GroupValidationError RbacEntry :=
  let entry := {| name := path_name; description := u_description req; inherits := u_inherits req;
                  allow := u_allow req; tenant_scoped := u_tenant_scoped req |} in
  match u_name req with
  | Some body_name =>
      if negb (bool_decide (body_name = path_name)) then Err (NameMismatch path_name body_name)
      else Ok entry
  | None => Ok entry
  end.
Definition group_resource_from (e : RbacEntry) (etag : string) : Json.t :=
  Json.object [("name", str (name e));
    ("description", match description e with Some d => str d | None => Json.Null end);
    ("inherits", strs (inherits e)); ("allow", strs (allow e));
    ("tenant_scoped", Json.Bool (tenant_scoped e)); ("etag", str etag)].

Inductive GroupHandlerError :=
| ValidationFailed (reason : GroupValidationError)
| NotFound
| AlreadyExists
| RevisionMismatch (current_revision : N) (expected_revision : option N)
| DeleteConflict (blocking_inheritors : list string) (memberships_count : gmap string N)
| Internal.
Definition validation_label (e : GroupValidationError) : string * string :=
  match e with
  | BadNameRegex _ => ("bad_name_regex", "name")
  | BadActionFormat _ => ("bad_action_format", "allow")
  | BadActionId _ => ("bad_action_id", "allow")
  | EmptyAllow => ("empty_allow", "allow")
  | InheritCycle _ => ("inherit_cycle", "inherits")
  | UnknownInherit _ => ("unknown_inherit", "inherits")
  | DescriptionTooLong => ("description_too_long", "description")
  | NameMismatch _ _ => ("name_mismatch", "name")
  end.
Section pure.
Context `{HttpLib}.
Definition shape_group_error_response (e : GroupHandlerError) : Response :=
  match e with
  | ValidationFailed reason =>
      let '(label, field) := validation_label reason in
      json 422 [] (Json.object [("error", str "validation_failed"); ("reason", str label);
        ("field", str field); ("message", str (Validation.message reason))])
  | NotFound => not_found
  | AlreadyExists => error 409 "already_exists"
  | RevisionMismatch current expected =>
      json 412 (revision_header_map current)
        (Json.object [("error", str "revision_mismatch"); ("current_revision", num current);
                      ("expected_revision", opt_num expected)])
  | DeleteConflict inheritors memberships =>
      json 409 [] (Json.object [("error", str "delete_conflict");
        ("blocking_inheritors", strs inheritors);
        ("memberships_count", Json.object (prod_map id num <$> map_to_list memberships))])
  | Internal => error 500 "internal"
  end.
End pure.

(** ** The shell ([groups/mod.rs]) *)
Section handlers.
Context `{HttpLib, CpLib OrgConfig} {S : Type}.
Context `{OrgStoreI S OrgConfig, ModelEventStoreI S OrgConfig}.
Abbreviation OrgRecord := (EventStore.OrgRecord (OrgConfig:=OrgConfig)).
Abbreviation handler := (M S Response).
Implicit Types (sh : Shell).

Definition require_org (org_id : OrganizationId) : handler OrgRecord :=
  found ← or_500 (get org_id);
  let_some found not_found.
Definition list_existing_entries (org_id : OrganizationId) : handler (list RbacEntry) :=
  gs ← or_500 (list_groups org_id);
  mret (OrgStore.entry <$> gs).
Definition all_after_with_proposed (existing : list RbacEntry) (proposed : RbacEntry)
    : list RbacEntry :=
  filter (λ e, name e ≠ name proposed) existing ++ [proposed].
Definition group_write_response_body (e : RbacEntry) (etag : string) (revision : N) : Json.t :=
  Json.object [("group", group_resource_from e etag); ("revision", num revision)].
Definition outcome_revision (outcome : EventStore.GroupWriteOutcome) : N :=
  match outcome with
  | EventStore.NoOp current => Revision.value current
  | EventStore.Applied revision => Revision.value revision
  end.
Definition map_group_write_error (if_revision : option Revision.t) (e : CpError.t)
    : GroupHandlerError :=
  match e with
  | CpError.RevisionMismatch current => RevisionMismatch current (Revision.value <$> if_revision)
  | CpError.NotFound _ => NotFound
  | _ => Internal
  end.
Definition require_group (org_id : OrganizationId) (name : string)
    : handler OrgStore.EtagedGroup :=
  found ← or_500 (get_group org_id name);
  let_some found (shape_group_error_response NotFound).
Definition invalid (reason : GroupValidationError) : Response :=
  shape_group_error_response (ValidationFailed reason).

(** The end of a create or an update: validate against the groups after the
    write, append, respond. *)
Definition put_validated (code : N) sh (org_id : OrganizationId) (actor : Envelope.Actor)
    (if_revision : option Revision.t) (existing : list RbacEntry) (proposed : RbacEntry)
    : handler Response :=
  let all_after := all_after_with_proposed existing proposed in
  entry ← lift (map_err invalid (validate_rbac_entry proposed all_after));
  etaged ← let_ok (OrgStore.etaged_compute entry) (shape_group_error_response Internal);
  outcome ← call (put_group (stamp sh) (Id.as_str org_id) entry actor if_revision)
    (λ e, shape_group_error_response (map_group_write_error if_revision e));
  let revision := outcome_revision outcome in
  mret (json code
    (merged_headers (etag_header (OrgStore.etag etaged)) (revision_header_map revision))
    (group_write_response_body (OrgStore.entry etaged) (Etag.as_str (OrgStore.etag etaged))
       revision)).
Definition create_handler sh (raw_org_id : string) (hs : HeaderMap) (req : CreateGroupRequest)
    : handler Response :=
  org_id ← let_ok (Id.new raw_org_id) not_found;
  if_revision ← OrgHandlers.parse_if_revision_header hs;
  let actor := actor_for raw_org_id (identity sh) in
  _ ← require_org org_id;
  let proposed := rbac_from_create req in
  existing ← list_existing_entries org_id;
  if existsb (λ e, bool_decide (name e = name proposed)) existing
  then fail (shape_group_error_response AlreadyExists)
  else put_validated 201 sh org_id actor if_revision existing proposed.
Definition list_handler (raw_org_id : string) (hs : HeaderMap) : handler Response :=
  org_id ← let_ok (Id.new raw_org_id) not_found;
  _ ← require_org org_id;
  groups ← or_500 (list_groups org_id);
  match groups, if_none_match hs with
  | _ :: _, Some EtagRules.Wildcard => fail (status_only 304)
  | _, _ =>
      mret (json 200 [] (Json.Array ((λ g, group_resource_from (OrgStore.entry g)
                                            (Etag.as_str (OrgStore.etag g))) <$> groups)))
  end.
Definition get_handler (raw_org_id name : string) (hs : HeaderMap) : handler Response :=
  org_id ← let_ok (Id.new raw_org_id) not_found;
  _ ← require_org org_id;
  g ← require_group org_id name;
  match EtagRules.check_if_none_match (if_none_match hs) (Some (OrgStore.etag g)) with
  | EtagRules.Matched | EtagRules.WildcardMatched =>
      fail (mkResponse 304 (etag_header (OrgStore.etag g)) None)
  | EtagRules.NotMatched | EtagRules.WildcardOnDraft =>
      mret (json 200 (etag_header (OrgStore.etag g))
              (group_resource_from (OrgStore.entry g) (Etag.as_str (OrgStore.etag g))))
  end.
Definition update_handler sh (raw_org_id name : string) (hs : HeaderMap) (req : UpdateGroupRequest)
    : handler Response :=
  org_id ← let_ok (Id.new raw_org_id) not_found;
  if_revision ← OrgHandlers.parse_if_revision_header hs;
  let actor := actor_for raw_org_id (identity sh) in
  _ ← require_org org_id;
  _ ← require_group org_id name;
  proposed ← lift (map_err invalid (rbac_from_update name req));
  existing ← list_existing_entries org_id;
  put_validated 200 sh org_id actor if_revision existing proposed.
Definition delete_handler sh (raw_org_id name : string) (hs : HeaderMap) : handler Response :=
  org_id ← let_ok (Id.new raw_org_id) not_found;
  if_revision ← OrgHandlers.parse_if_revision_header hs;
  let actor := actor_for raw_org_id (identity sh) in
  let internal := λ _ : CpError.t, shape_group_error_response Internal in
  _ ← require_org org_id;
  found ← call (get_group org_id name) internal;
  match found with
  | None =>
      current ← call (latest_revision (Id.as_str org_id)) internal;
      mret (mkResponse 204 (revision_header_map (Revision.value current)) None)
  | Some _ =>
      memberships_result ← attempt (count_memberships_for_group org_id name);
      inheritors_result ← attempt (list_inheritors org_id name);
      memberships ← let_ok memberships_result INTERNAL_SERVER_ERROR;
      inheritors ← let_ok inheritors_result INTERNAL_SERVER_ERROR;
      if negb (bool_decide (memberships = ∅)) || negb (bool_decide (inheritors = []))
      then fail (shape_group_error_response (DeleteConflict inheritors memberships))
      else
        outcome ← call (delete_group (stamp sh) (Id.as_str org_id) name actor if_revision)
          (λ e, shape_group_error_response (map_group_write_error if_revision e));
        mret (mkResponse 204 (revision_header_map (outcome_revision outcome)) None)
  end.
End handlers.
End GroupHandlers.

(** * Principals ([handlers/principals]) *)
Section gates.
Context `{HttpLib, CpLib OrgConfig} {S : Type}.
Context `{OrgStoreI S OrgConfig, ModelEventStoreI S OrgConfig}.
Abbreviation OrgRecord := (EventStore.OrgRecord (OrgConfig:=OrgConfig)).
Abbreviation handler := (M S Response).

Definition state_conflict (st : OrgStatus.t) : Response :=
  json 409 [] (Json.object [("error", str "org_state_conflict");
                            ("reason", str (OrgStatus.to_string st))]).
Definition require_active_org (raw_org_id : string) : handler () :=
  org_id ← let_ok (Id.new raw_org_id) not_found;
  found ← or_500 (get org_id);
  record ← let_some (found : option OrgRecord) not_found;
  match Organization.status (EventStore.org record) with
  | OrgStatus.Active => mret ()
  | OrgStatus.Deleted => fail not_found
  | st => fail (state_conflict st)
  end.
Definition require_not_deleted_org (raw_org_id : string) : handler () :=
  org_id ← let_ok (Id.new raw_org_id) not_found;
  found ← or_500 (get org_id);
  record ← let_some (found : option OrgRecord) not_found;
  if bool_decide (Organization.status (EventStore.org record) = OrgStatus.Deleted)
  then fail not_found else mret ().
(** The min-revision guard: 412 when the log is behind. *)
Definition require_min_revision (raw_org_id : string) (min_revision : option Revision.t)
    : handler () :=
  match min_revision with
  | None => mret ()
  | Some required =>
      current ← or_500 (latest_revision raw_org_id);
      match check_min_revision current required with
      | Fresh => mret ()
      | Behind current required =>
          fail (json 412 (revision_header_map (Revision.value current))
            (Json.object [("error", str "revision_behind");
              ("current_revision", num (Revision.value current));
              ("min_revision", num (Revision.value required))]))
      end
  end.
Definition parse_min_revision_header (hs : HeaderMap) : handler (option Revision.t) :=
  let_ok (parse_min_revision (header_str_or_empty MIN_REVISION_HEADER hs))
    (error 400 "invalid X-Fg-Min-Revision header").
End gates.

Module PrincipalHandlers.
Section handlers.
Context `{HttpLib, CpLib OrgConfig} {S : Type}.
Context `{OrgStoreI S OrgConfig, ModelEventStoreI S OrgConfig}.
Abbreviation handler := (M S Response).

Definition respond (code : N) (principal : Json.t) (revision : N) : Response :=
  json code (revision_header_map revision)
    (Json.object [("principal", principal); ("revision", num revision)]).
Definition upsert_principal (sh : Shell) (raw_org_id raw_native_id : string) (b : Json.t)
    : handler Response :=
  native_id ← let_ok (NativeId.try_new raw_native_id) (error 422 "invalid native_id");
  _ ← require_active_org raw_org_id;
  existing ← or_500 (get_principal raw_org_id native_id);
  match Upsert.decide_upsert existing b with
  | Upsert.NoOp =>
      revision ← or_500 (latest_revision raw_org_id);
      mret (respond 200 (default b existing) (Revision.value revision))
  | Upsert.Changed payload =>
      let actor := actor_for raw_org_id (identity sh) in
      revision ← or_500 (upsert_changed (stamp sh) raw_org_id native_id actor payload);
      let code := if bool_decide (is_Some existing) then 200%N else 201%N in
      mret (respond code payload (Revision.value revision))
  end.
End handlers.
End PrincipalHandlers.

(** * Promotions ([handlers/promotions]) *)
Module PromotionHandlers.
Section handlers.
Context `{HttpLib, CpLib OrgConfig} {S : Type}.
Context `{OrgStoreI S OrgConfig, ModelEventStoreI S OrgConfig}.
Abbreviation handler := (M S Response).

Record PromotionsQuery := {
  q_type : option string;
  q_after : option string;
  q_limit : option N;
}.
Definition current_revision_no_content (raw_org_id : string) : handler Response :=
  revision ← or_500 (latest_revision raw_org_id);
  mret (mkResponse 204 (revision_header_map (Revision.value revision)) None).
Definition tombstone_promotion_handler (sh : Shell) (raw_org_id raw_type raw_native_id : string)
    : handler Response :=
  resource_type ← let_ok (Segment.try_new raw_type) (error 422 "invalid resource_type");
  native_id ← let_ok (NativeId.try_new raw_native_id) (error 422 "invalid native_id");
  _ ← require_active_org raw_org_id;
  existing ← or_500 (get_promotion raw_org_id resource_type native_id);
  match existing with
  | None => current_revision_no_content raw_org_id
  | Some fgrn =>
      let actor := actor_for raw_org_id (identity sh) in
      outcome ← or_500 (tombstone_promotion (stamp sh) raw_org_id resource_type native_id actor);
      match outcome with
      | Some revision =>
          mret (json 200 (revision_header_map (Revision.value revision))
            (Json.object [("fgrn", str fgrn); ("revision", num (Revision.value revision))]))
      | None => current_revision_no_content raw_org_id
      end
  end.
Definition promotion_json (e : PromotionStore.PromotionEntry) : Json.t :=
  Json.object [("fgrn", str (PromotionStore.entry_fgrn e));
               ("native_id", str (PromotionStore.entry_native_id e))].
Definition list_promotions_handler (raw_org_id : string) (q : PromotionsQuery) (hs : HeaderMap)
    : handler Response :=
  raw_type ← let_some (q_type q) (error 400 "type query parameter is required");
  resource_type ← let_ok (Segment.try_new raw_type) (error 400 "invalid type");
  after ← lift (match q_after q with
                | None => Ok None
                | Some raw =>
                    Some <$> map_err (λ _, error 400 "invalid after cursor") (NativeId.try_new raw)
                end);
  min_revision ← parse_min_revision_header hs;
  _ ← require_active_org raw_org_id;
  _ ← require_min_revision raw_org_id min_revision;
  let limit := clamp_limit (default DEFAULT_LIMIT (q_limit q)) in
  entries ← or_500 (list_promotions raw_org_id resource_type after limit);
  revision ← or_500 (latest_revision raw_org_id);
  let next_after := match last entries with
    | Some e => str (PromotionStore.entry_native_id e)
    | None => Json.Null
    end in
  mret (json 200 (revision_header_map (Revision.value revision))
    (Json.object [("promotions", Json.Array (promotion_json <$> entries));
                  ("next_after", next_after); ("revision", num (Revision.value revision))])).
End handlers.
End PromotionHandlers.

(** * The event feed ([handlers/events]) *)
Module EventHandlers.
Section handlers.
Context `{HttpLib, CpLib OrgConfig} {S : Type}.
Context `{OrgStoreI S OrgConfig, ModelEventStoreI S OrgConfig}.
Abbreviation handler := (M S Response).

Record EventsQuery := { q_after : option N; q_limit : option N; q_wait : option string }.
Inductive WaitMode := Immediate | Watch.
Definition parse_wait (raw : option string) : result () WaitMode :=
  match raw with
  | None => Ok Immediate
  | Some w => if bool_decide (w = "1") then Ok Watch else Err ()
  end.

(** Milliseconds. *)
Definition WATCH_TICK : N := 200.
Definition WATCH_DEADLINE : N := 1000.
(** One round of the loop: what other requests do while it sleeps, and the time
    that passed when the deadline is checked. *)
Record Tick := { others : S → S; elapsed : N }.
(** The rounds are given; the loop is stuck when they run out. *)
Fixpoint watch_loop (org_id : string) (after : Revision.t) (limit : nat) (clock : N)
    (ticks : list Tick) : M S CpError.t (list Envelope.t) :=
  match ticks with
  | [] => lift (Stuck "watch_for_events")
  | t :: ticks =>
      _ ← modify (others t);
      current ← latest_revision org_id;
      if bool_decide (Revision.value after < Revision.value current)%N
      then events_after org_id after limit
      else
        let clock := (clock + elapsed t)%N in
        if bool_decide (WATCH_DEADLINE ≤ clock)%N then mret []
        else watch_loop org_id after limit clock ticks
  end.
Definition watch_for_events (org_id : string) (after : Revision.t) (limit : nat)
    (ticks : list Tick) : M S CpError.t (list Envelope.t) :=
  watch_loop org_id after limit 0 ticks.

Definition list_events_handler (ticks : list Tick) (raw_org_id : string) (q : EventsQuery)
    (hs : HeaderMap) : handler Response :=
  wait ← let_ok (parse_wait (q_wait q)) (error 400 "wait must be '1'");
  min_revision ← parse_min_revision_header hs;
  _ ← require_not_deleted_org raw_org_id;
  _ ← require_min_revision raw_org_id min_revision;
  let after := Revision.new (default 0%N (q_after q)) in
  let limit := clamp_limit (default DEFAULT_LIMIT (q_limit q)) in
  events ← or_500 (events_after raw_org_id after limit);
  events ← match events, wait with
           | [], Watch => or_500 (watch_for_events raw_org_id after limit ticks)
           | _, _ => mret events
           end;
  revision ← or_500 (latest_revision raw_org_id);
  let next_after := match last events with
    | Some e => Revision.value (Envelope.seq e)
    | None => Revision.value after
    end in
  events_json ← json_value (Json.Array <$> mapM envelope_value events);
  mret (json 200 (revision_header_map (Revision.value revision))
    (Json.object [("events", events_json); ("next_after", num next_after);
                  ("revision", num (Revision.value revision))])).
End handlers.
Arguments Tick : clear implicits.
End EventHandlers.

(** * Event-signing keys ([handlers/signing_keys]) *)
Module SigningKeyHandlers.
Section handlers.
Context `{HttpLib, CpLib OrgConfig} {S : Type}.
Context `{OrgStoreI S OrgConfig, ModelEventStoreI S OrgConfig}.
Definition signing_key_dto (k : EventSigningKey) : Json.t :=
  Json.object [("key_id", str (esk_key_id k)); ("public_key", str (esk_public_key_pem k))].
Definition list_signing_keys_handler (raw_org_id : string) : M S Response Response :=
  _ ← require_not_deleted_org raw_org_id;
  keys ← or_500 (list_signing_keys raw_org_id);
  mret (json 200 [] (Json.object [("keys", Json.Array (signing_key_dto <$> keys))])).
End handlers.
End SigningKeyHandlers.

(** * The API *)
Module Api.
(** One constructor per route of [API_ROUTES], with the extracted arguments. *)
Inductive ApiRequest (S OrgConfig : Type) :=
| CreateOrg (req : OrgHandlers.CreateOrgRequest OrgConfig)
| ListOrgs (params : OrgHandlers.ListParams)
| GetOrg (org_id : string)
| UpdateOrg (org_id : string) (req : OrgHandlers.UpdateOrgRequest OrgConfig)
| ProxyConfig (org_id : string)
| Transition (verb : LifecycleVerb.t) (org_id : string)
| GenerateKey (org_id : string)
| ListKeys (org_id : string)
| RevokeKey (org_id key_id : string)
| RotateKey (org_id key_id : string)
| CreateGroup (org_id : string) (req : GroupHandlers.CreateGroupRequest)
| ListGroups (org_id : string)
| GetGroup (org_id name : string)
| UpdateGroup (org_id name : string) (req : GroupHandlers.UpdateGroupRequest)
| DeleteGroup (org_id name : string)
| UpsertPrincipal (org_id native_id : string) (principal : Json.t)
| TombstonePromotion (org_id resource_type native_id : string)
| ListPromotions (org_id : string) (q : PromotionHandlers.PromotionsQuery)
| ListEvents (ticks : list (EventHandlers.Tick S)) (org_id : string)
    (q : EventHandlers.EventsQuery)
| ListSigningKeys (org_id : string).
Arguments CreateOrg {_ _} _.
Arguments ListOrgs {_ _} _.
Arguments GetOrg {_ _} _.
Arguments UpdateOrg {_ _} _ _.
Arguments ProxyConfig {_ _} _.
Arguments Transition {_ _} _ _.
Arguments GenerateKey {_ _} _.
Arguments ListKeys {_ _} _.
Arguments RevokeKey {_ _} _ _.
Arguments RotateKey {_ _} _ _.
Arguments CreateGroup {_ _} _ _.
Arguments ListGroups {_ _} _.
Arguments GetGroup {_ _} _ _.
Arguments UpdateGroup {_ _} _ _ _.
Arguments DeleteGroup {_ _} _ _.
Arguments UpsertPrincipal {_ _} _ _ _.
Arguments TombstonePromotion {_ _} _ _ _.
Arguments ListPromotions {_ _} _ _.
Arguments ListEvents {_ _} _ _ _.
Arguments ListSigningKeys {_ _} _.

Section api.
Context `{HttpLib, CpLib OrgConfig} {S : Type}.
Context `{OrgStoreI S OrgConfig, ModelEventStoreI S OrgConfig}.
Definition handler_of (sh : Shell) (hs : HeaderMap) (r : ApiRequest S OrgConfig)
    : M S Response Response :=
  match r with
  | CreateOrg req => OrgHandlers.create_handler sh req
  | ListOrgs params => OrgHandlers.list_handler params
  | GetOrg o => OrgHandlers.get_handler o hs
  | UpdateOrg o req => OrgHandlers.update_handler sh o hs req
  | ProxyConfig o => OrgHandlers.proxy_config_handler o hs
  | Transition v o => LifecycleHandlers.transition_handler v sh o
  | GenerateKey o => KeyHandlers.generate_key_handler sh o
  | ListKeys o => KeyHandlers.list_keys_handler o
  | RevokeKey o k => KeyHandlers.revoke_key_handler sh o k
  | RotateKey o k => KeyHandlers.rotate_key_handler sh o k
  | CreateGroup o req => GroupHandlers.create_handler sh o hs req
  | ListGroups o => GroupHandlers.list_handler o hs
  | GetGroup o n => GroupHandlers.get_handler o n hs
  | UpdateGroup o n req => GroupHandlers.update_handler sh o n hs req
  | DeleteGroup o n => GroupHandlers.delete_handler sh o n hs
  | UpsertPrincipal o n p => PrincipalHandlers.upsert_principal sh o n p
  | TombstonePromotion o t n => PromotionHandlers.tombstone_promotion_handler sh o t n
  | ListPromotions o q => PromotionHandlers.list_promotions_handler o q hs
  | ListEvents ticks o q => EventHandlers.list_events_handler ticks o q hs
  | ListSigningKeys o => SigningKeyHandlers.list_signing_keys_handler o
  end.
Definition handle (sh : Shell) (hs : HeaderMap) (r : ApiRequest S OrgConfig)
    : M S Empty_set Response := finish (handler_of sh hs r).
End api.
End Api.
