(* ===== verification/MachineAuth.v ===== *)
(** Machine credentials over the table
    ([crates/control-plane/src/signing_key_store.rs]): the Ed25519 resolver of
    [Authn] with the keys that [DynamoStore] keeps on organization items, and
    what a key's life ([Org]'s [SigningKey]) means for the requests it signs. *)

From stdpp Require Import pretty.
From S2P Require Import Prelude RustStr Ident Org Rbac Event EventStore Dynamo DynamoLog DynamoStore Authn.

Module DynamoSigningKeyStore.
Section keys.
Context {OrgConfig SigningKeyT VK : Type} (L : Libs OrgConfig SigningKeyT).
(** [ed25519_dalek]'s reading of a public key. *)
Context (vk_from_pem : string → result string VK).
Definition invalid_credential (msg : string) : AuthnError.t := AuthnError.InvalidCredential msg.
Definition from_public_key_pem (pem : string) : result AuthnError.t VK :=
  map_err AuthnError.InvalidVerifyingKey (vk_from_pem pem).
(** [Display] of a status. *)
Definition status_text (st : SigningKey.status) : string :=
  match st with
  | SigningKey.Active => "Active"
  | SigningKey.Rotating expires_at => "Rotating(" +:+ to_rfc3339 L expires_at +:+ ")"
  | SigningKey.Revoked => "Revoked"
  end.
(** [answer]: of [GetItem] on an organization's item. *)
Definition get_key (answer : string → result string (option Dynamo.item)) (now : instant)
    (org_id key_id : string) : result AuthnError.t VK :=
  found ← map_err invalid_credential (answer org_id);
  item ← ok_or found (invalid_credential ("organization '" +:+ org_id +:+ "' not found"));
  keys ← map_err (λ e, invalid_credential (cp_error_str e)) (DynamoStore.signing_keys_from_item L item);
  entry ← ok_or (snd <$> list_find (λ k, SigningKey.key_id k = key_id) keys)
    (invalid_credential ("signing key '" +:+ key_id +:+ "' not found for org '" +:+ org_id +:+ "'"));
  if negb (SigningKey.is_active entry now)
  then Err (invalid_credential ("key '" +:+ key_id +:+ "' for org '" +:+ org_id +:+
    "' is not active (status: " +:+
    status_text (SigningKey.key_status entry) +:+ ")"))
  else from_public_key_pem (SigningKey.public_key_pem entry).
End keys.
End DynamoSigningKeyStore.

Module MachineFacts.
Import DynamoSigningKeyStore.
(** The key of an id, as the store finds it. *)
Definition first_key (key_id : string) (keys : list SigningKey.entry) : option SigningKey.entry :=
  snd <$> list_find (λ k, SigningKey.key_id k = key_id) keys.

Section machine.
Context {OrgConfig SigningKeyT VK : Type} (L : Libs OrgConfig SigningKeyT).
Context (vk_from_pem : string → result string VK).
Lemma get_key_ok answer now org_id key_id vk :
  get_key L vk_from_pem answer now org_id key_id = Ok vk ↔
  ∃ item keys e, answer org_id = Ok (Some item) ∧ DynamoStore.signing_keys_from_item L item = Ok keys ∧
    first_key key_id keys = Some e ∧ SigningKey.is_active e now = true ∧
    vk_from_pem (SigningKey.public_key_pem e) = Ok vk.
Proof.
  unfold get_key, from_public_key_pem, first_key. rewrite bind_Ok. setoid_rewrite bind_Ok.
  setoid_rewrite bind_Ok. setoid_rewrite bind_Ok. setoid_rewrite map_err_Ok. setoid_rewrite ok_or_Ok.
  split.
  - intros (found & Ha & item & -> & keys & Hk & e & He & Hv). exists item, keys, e.
    destruct (SigningKey.is_active e now); [|discriminate]. by apply map_err_Ok in Hv.
  - intros (item & keys & e & Ha & Hk & He & Hact & Hv). exists (Some item). split; [done|].
    exists item. split; [done|]. exists keys. split; [done|]. exists e. split; [done|].
    rewrite Hact. by apply map_err_Ok.
Qed.

(** ** The first key of an id through mutations *)
Lemma first_key_position key_id keys e : first_key key_id keys = Some e →
  ∃ i, keys !! i = Some e ∧ SigningKey.key_id e = key_id ∧
    ∀ j e', j < i → keys !! j = Some e' → SigningKey.key_id e' ≠ key_id.
Proof.
  unfold first_key. destruct (list_find _ keys) as [[i e']|] eqn:Hf; [|done]. intros [= ->].
  apply list_find_Some in Hf as (Hi & Hk & Hj). exists i. split_and!; [done..|].
  intros j e' Hlt He'. by eapply Hj.
Qed.
Lemma first_key_at key_id keys i e : keys !! i = Some e → SigningKey.key_id e = key_id →
  (∀ j e', j < i → keys !! j = Some e' → SigningKey.key_id e' ≠ key_id) → first_key key_id keys = Some e.
Proof.
  intros Hi Hk Hj. unfold first_key.
  rewrite (proj2 (list_find_Some _ keys i e)); [done|]. split_and!; [done..|]. intros j e' Hj' Hlt.
  by eapply Hj.
Qed.
(** It stays the first, and its status only moves forward. *)
Lemma first_key_runs key_id keys ops e : first_key key_id keys = Some e →
  ∃ e', first_key key_id (foldl SigningKey.run keys ops) = Some e' ∧
    SigningKey.public_key_pem e' = SigningKey.public_key_pem e ∧
    SigningKey.status_le (SigningKey.key_status e) (SigningKey.key_status e').
Proof.
  intros (i & Hi & Hk & Hj)%first_key_position.
  destruct (SigningKeyFacts.run_all_step ops keys i e Hi) as (e' & Hi' & Hk' & Hp & Hs).
  exists e'. split; [|done]. apply (first_key_at _ _ i); [done|congruence|].
  intros j x Hlt Hx.
  assert (j < length keys) as Hlen by (apply lookup_lt_Some in Hi; lia).
  apply lookup_lt_is_Some in Hlen as [y Hy].
  destruct (SigningKeyFacts.run_all_step ops keys j y Hy) as (y' & Hy' & Hky & _).
  assert (x = y') as -> by congruence. rewrite Hky. by eapply Hj.
Qed.
Lemma inactive_forward e e' now later :
  SigningKey.status_le (SigningKey.key_status e) (SigningKey.key_status e') →
  SigningKey.is_active e now = false → (now ≤ later)%Z → SigningKey.is_active e' later = false.
Proof.
  unfold SigningKey.is_active. destruct (SigningKey.key_status e), (SigningKey.key_status e'); simpl; try done.
  intros -> Hn Hle. bool_prop. apply bool_decide_eq_false. lia.
Qed.

(** ** A machine's request *)
Context (b64_decode : string → result string string) (ed_verify : VK → string → string → bool).
Definition machine_resolver (answer : string → result string (option Dynamo.item)) (now : instant)
    (now_ms max_drift : N) : IdentityResolver :=
  Signing.ed25519_resolver b64_decode ed_verify (get_key L vk_from_pem answer now) now_ms max_drift.
Lemma machine_resolves answer now now_ms max_drift c id :
  resolve_credential (machine_resolver answer now now_ms max_drift) c = Ok id →
  ∃ key_id ts sig trace headers org vk bytes tenant user,
    c = Credential.SignedRequest key_id ts sig trace headers ∧
    Signing.org_id headers = Ok org ∧
    get_key L vk_from_pem answer now org key_id = Ok vk ∧
    Signing.parse_signature_header b64_decode sig = Ok bytes ∧
    ed_verify vk (Signing.canonical_payload trace ts headers) bytes = true ∧
    Id.new key_id = Ok user ∧ Id.new org = Ok tenant ∧
    Identity.user_id id = user ∧ Identity.tenant_id id = Some tenant.
Proof.
  simpl. destruct c as [|?|key_id ts sig trace headers]; [done..|]. unfold Signing.verify_signed_request.
  intros (org & Horg & (key & Hkey & (bytes & Hb & ([] & Hv & ([] & _ &
    (user & Hu%map_err_Ok & (tenant & Htn%map_err_Ok & [= <-])%bind_Ok)%bind_Ok)%bind_Ok)%bind_Ok)%bind_Ok)%bind_Ok)%bind_Ok.
  unfold Signing.verify in Hv. destruct (ed_verify _ _ _) eqn:Hver; [|done].
  by exists key_id, ts, sig, trace, headers, org, key, bytes, tenant, user.
Qed.
(** The item stored for an organization, under that organization's key. *)
Definition stored_item (answer : string → result string (option Dynamo.item)) (o : Organization.t)
    (c : option EventStore.ConfiguredConfig) (keys : list SigningKey.entry) : Prop :=
  ∃ i, DynamoStore.to_item L o c keys = Ok i ∧ answer (Id.as_str (Organization.org_id o)) = Ok (Some i).
Lemma stored_keys answer o c keys i : stored_item answer o c keys →
  (∀ s, keys_to_string L keys = Ok s → keys_from_str L s = Ok keys) →
  answer (Id.as_str (Organization.org_id o)) = Ok (Some i) →
  DynamoStore.signing_keys_from_item L i = Ok keys.
Proof.
  intros (i' & (cj & kj & -> & _ & Hk)%CodecFacts.to_item_shape & Ha) Hkeys Hi.
  assert (i = DynamoStore.put_s_opt "signing_keys" kj
    (CodecFacts.with_config cj (CodecFacts.base_item L o))) as -> by congruence.
  unfold DynamoStore.signing_keys_from_item. rewrite CodecFacts.get_put_opt_eq.
  - destruct kj as [j|]; simpl; [by rewrite (Hkeys _ Hk)|by rewrite Hk].
  - destruct cj as [[]|]; simpl; [rewrite !CodecFacts.get_put_ne by discriminate|];
      unfold CodecFacts.base_item; by CodecFacts.read_attr.
Qed.
End machine.
End MachineFacts.
Import MachineFacts.

(** C9: A disabled key is of no use any more.  Once the key of an id in an
    organization is unusable at an instant (revoked, or rotated out and past
    its deadline), then from that instant on, whatever keys are generated,
    rotated and revoked in the organization, even under the same id, and as
    long as the item the table answers with holds the resulting list: no
    request resolves to that key in that organization. *)
Theorem disabled_keys_stay_disabled {OrgConfig SigningKeyT VK : Type} (L : Libs OrgConfig SigningKeyT)
    (vk_from_pem : string → result string VK) b64_decode ed_verify
    answer (at_ later : instant) now_ms max_drift o c keys ops key_id e credential id :
  first_key key_id keys = Some e → SigningKey.is_active e at_ = false → (at_ ≤ later)%Z →
  stored_item L answer o c (foldl SigningKey.run keys ops) →
  (∀ s, keys_to_string L (foldl SigningKey.run keys ops) = Ok s →
     keys_from_str L s = Ok (foldl SigningKey.run keys ops)) →
  resolve_credential (machine_resolver L vk_from_pem b64_decode ed_verify answer later
    now_ms max_drift) credential = Ok id →
  Identity.tenant_id id = Some (Id.tenant_of_org (Organization.org_id o)) →
  Id.as_str (Identity.user_id id) ≠ key_id.
Proof.
  intros Hf Hn Hle Hst Hkeys Hr Ht Hid.
  apply machine_resolves in Hr as (k & ts & sig & trace & headers & org & vk & bytes & tenant & user &
    _ & _ & Hkey & _ & _ & Hu & Hten & Huser & Hten').
  apply id_new_Ok in Hu as [Hu _], Hten as [Hten _].
  assert (k = key_id) as -> by congruence.
  assert (org = Id.as_str (Organization.org_id o)) as ->.
  { rewrite <-Hten. rewrite Hten' in Ht. by injection Ht as ->. }
  apply get_key_ok in Hkey as (i & ks & e' & Ha & Hks & He' & Hact & _).
  rewrite (stored_keys L answer o c _ i Hst Hkeys Ha) in Hks. injection Hks as <-.
  destruct (first_key_runs key_id keys ops e Hf) as (e2 & He2 & _ & Hs).
  assert (e2 = e') as -> by congruence.
  by rewrite (inactive_forward e e' at_ later) in Hact.
Qed.

(** * A sample organization *)
Module MachineSample.
Definition write_key (e : SigningKey.entry) : string :=
  SigningKey.key_id e +:+ (if SigningKey.is_active e 0 then "" else "!").
Definition read_key (s : string) : SigningKey.entry :=
  match RustStr.split_once "!" s with
  | Some (k, _) => SigningKey.mk k "pem" SigningKey.Revoked 0 None
  | None => SigningKey.mk s "pem" SigningKey.Active 0 None
  end.
Definition libs : Libs () string := {|
  to_vec _ := "";
  sha256_hex s := s;
  json_from_str s := Ok (Json.String s);
  actor_to_string _ := Ok "system";
  org_value _ := Ok Json.Null;
  config_value _ := Ok Json.Null;
  keys_value _ := Ok Json.Null;
  group_value _ := Ok Json.Null;
  config_to_string _ := Ok "{}";
  config_from_str _ := Ok ();
  keys_to_string l := Ok (RustStr.join "," (write_key <$> l));
  keys_from_str s := Ok (read_key <$> RustStr.split "," s);
  group_to_string g := Ok (Rbac.name g);
  group_from_str s := Err s;
  to_rfc3339 _ := "2025-01-01T00:00:00+00:00";
  parse_from_rfc3339 _ := Ok 0%Z;
  xxh64_hex s := s;
  key_from_pem s := Ok s;
  sign_b64 k s := k +:+ ":" +:+ s;
|}.
Definition key (k : string) : SigningKey.entry := SigningKey.mk k "pem" SigningKey.Active 0 None.
Definition acme : Organization.t := Organization.new (Id.mk (Segment.mk "acme")) "Acme" OrgStatus.Active 0.
Definition revoked : SigningKey.entry := SigningKey.revoke (key "k1").
(** After the revocation of [k1], a second key of that id and [k2]. *)
Definition ops : list SigningKey.op := [SigningKey.Generate (key "k1"); SigningKey.Generate (key "k2")].
Definition stored : Dynamo.item :=
  unwrap_or (DynamoStore.to_item libs acme None (foldl SigningKey.run [revoked] ops)) ∅.
Definition answer (o : string) : result string (option Dynamo.item) := Ok (Some stored).
(** Every 64-byte signature verifies. *)
Definition b64 (s : string) : result string string :=
  Ok (String.concat "" (repeat "8bytes.." 8)).
Definition request (k : string) : Credential.t :=
  Credential.SignedRequest k 1000 "v1:sig" "trace" [("x-fg-org-id", "acme")].
Definition resolver : IdentityResolver :=
  machine_resolver libs (λ pem, Ok pem) b64 (λ _ _ _, true) answer 1 1000 300000.
End MachineSample.
(** [k2] authenticates; it is not [k1], which no longer does. *)
Lemma disabled_keys_stay_disabled_witness : ∃ id,
  resolve_credential MachineSample.resolver (MachineSample.request "k2") = Ok id ∧
  Id.as_str (Identity.user_id id) ≠ "k1" ∧
  is_ok (resolve_credential MachineSample.resolver (MachineSample.request "k1")) = false.
Proof.
  destruct (resolve_credential MachineSample.resolver (MachineSample.request "k2")) as [id| |] eqn:Hid;
    [|exfalso; vm_compute in Hid; discriminate Hid..].
  exists id. split; [reflexivity|]. split; [|vm_compute; reflexivity].
  apply (disabled_keys_stay_disabled MachineSample.libs (λ pem, Ok pem) MachineSample.b64
    (λ _ _ _, true) MachineSample.answer 0 1 1000 300000 MachineSample.acme None [MachineSample.revoked]
    MachineSample.ops "k1" MachineSample.revoked (MachineSample.request "k2") id).
  - reflexivity.
  - reflexivity.
  - discriminate.
  - exists MachineSample.stored. split; [vm_compute; reflexivity|reflexivity].
  - intros s Hs. injection Hs as <-. vm_compute. reflexivity.
  - exact Hid.
  - vm_compute in Hid. injection Hid as <-. reflexivity.
Defined.
