(* ===== verification/Api.v ===== *)
(** What the control plane's API does, proved against the promises of the two
    stores: the abstract specification of a request ([Change], [allowed]) and
    its refinement by every handler, the invariants that follow for any
    sequence of requests, conditional requests, and the watch loop. *)

From stdpp Require Import pretty.
From S2P Require Import Prelude RustStr Decimal Ident Fgrn Store Event Org Rbac EventStore Action Authn.
From S2P Require Import ReadModel Handlers.

(** Decimal numbers are header values. *)
Class HttpLibLaws `{HttpLib} : Prop := {
  header_value_number (n : N) : header_value_ok (pretty n) = true;
}.

(** * The abstract specification *)
Module ApiSpec.
Import Api.

(** What one event changes. *)
Inductive Change (OrgConfig : Type) :=
| PutOrg (r : EventStore.OrgRecord (OrgConfig:=OrgConfig))
| PutKeys (o : string) (ks : list SigningKey.entry)
| PutGroup (o : string) (e : Rbac.RbacEntry)
| DropGroup (o name : string)
| PutPrincipal (o : string) (n : NativeId.t) (p : Json.t)
| DropPromotion (o : string) (rt : Segment.t) (n : NativeId.t).
Arguments PutOrg {_} _.
Arguments PutKeys {_} _ _.
Arguments PutGroup {_} _ _.
Arguments DropGroup {_} _ _.
Arguments PutPrincipal {_} _ _ _.
Arguments DropPromotion {_} _ _ _.

Section spec.
Context `{HttpLib} {OrgConfig S : Type}.
Implicit Types (l : Live OrgConfig) (c : Change OrgConfig) (req : ApiRequest S OrgConfig).

Definition subject c : string :=
  match c with
  | PutOrg r => EventStore.record_id r
  | PutKeys o _ | PutGroup o _ | DropGroup o _ | PutPrincipal o _ _ | DropPromotion o _ _ => o
  end.
Definition apply c : Live OrgConfig → Live OrgConfig :=
  match c with
  | PutOrg r => Live.put_org r
  | PutKeys o ks => Live.put_keys o ks
  | PutGroup o e => Live.put_group o e
  | DropGroup o n => Live.delete_group o n
  | PutPrincipal o n p => Live.put_principal o n p
  | DropPromotion o rt n => Live.delete_promotion (o, Segment.as_str rt, NativeId.as_str n)
  end.

(** Records are stored under their own ids. *)
Definition keyed l : Prop := ∀ o r, l_orgs l !! o = Some r → EventStore.record_id r = o.
(** The caller's [X-Fg-If-Revision], when present, is the log's revision. *)
Definition revision_guard (hs : HeaderMap) (current : Revision.t) : Prop :=
  ∃ x, parse_if_revision (header_str IF_REVISION_HEADER hs) = Ok x ∧
       ∀ y, x = Some y → y = current.
Definition active l (o : string) : Prop :=
  ∃ r, l_orgs l !! o = Some r ∧ Organization.status (EventStore.org r) = OrgStatus.Active.
(** The entry passes validation among the groups the write leaves behind. *)
Definition validated l (o : string) (e : Rbac.RbacEntry) : Prop :=
  ∃ names entries, Live.groups_of l o names entries ∧
    Validation.validate_rbac_entry e (GroupHandlers.all_after_with_proposed entries e) = Ok e.
Definition keys_at l (o : string) : list SigningKey.entry := default [] (l_keys l !! o).

(** When a request makes a change, and the status of its response. *)
Definition allowed (sh : Shell) (hs : HeaderMap) req l (rev : Revision.t) c (code : N) : Prop :=
  match req, c with
  | CreateOrg q, PutOrg r =>
      code = 201%N ∧ ∃ o, Id.new (OrgHandlers.create_org_id q) = Ok o ∧
      (Id.as_str o ∉ l_logged l) ∧
      EventStore.org r = Organization.new o (OrgHandlers.create_name q) OrgStatus.Draft (now sh) ∧
      EventStore.config r = OrgHandlers.create_config q
  | UpdateOrg o q, PutOrg r =>
      code = 200%N ∧ revision_guard hs rev ∧ ∃ r0, l_orgs l !! o = Some r0 ∧
      EventStore.org r = Organization.with_updated_at
        (match OrgHandlers.update_name q with
         | Some n => Organization.update_name (EventStore.org r0) n (now sh)
         | None => EventStore.org r0
         end) (now sh) ∧
      EventStore.config r = match OrgHandlers.update_config q with
                            | Some cfg => Some cfg
                            | None => EventStore.config r0
                            end
  | Transition v o, PutOrg r =>
      code = 200%N ∧ ∃ r0, l_orgs l !! o = Some r0 ∧
      LifecycleVerb.valid_from v (Organization.status (EventStore.org r0)) = true ∧
      Organization.transition_to (EventStore.org r0) (LifecycleVerb.target v) (now sh) =
        Ok (EventStore.org r) ∧
      EventStore.config r = EventStore.config r0
  | GenerateKey o, PutKeys o' ks =>
      o' = o ∧ code = 201%N ∧ o ∈ l_logged l ∧ ∃ g e, material sh = Ok g ∧ to_entry g = Ok e ∧
      ks = keys_at l o ++ [e]
  | RevokeKey o k, PutKeys o' ks =>
      o' = o ∧ code = 204%N ∧ SigningKey.revoke_entries (keys_at l o) k = Some ks
  | RotateKey o k, PutKeys o' ks =>
      o' = o ∧ code = 201%N ∧ ∃ g e, material sh = Ok g ∧ to_entry g = Ok e ∧
      SigningKey.rotate_entries (keys_at l o) k e (now sh) rotation_grace = Ok ks
  | CreateGroup o q, PutGroup o' e =>
      o' = o ∧ code = 201%N ∧ e = GroupHandlers.rbac_from_create q ∧ revision_guard hs rev ∧
      is_Some (l_orgs l !! o) ∧ validated l o e ∧
      ∀ n e', l_groups l !! (o, n) = Some e' → Rbac.name e' ≠ Rbac.name e
  | UpdateGroup o n q, PutGroup o' e =>
      o' = o ∧ code = 200%N ∧ GroupHandlers.rbac_from_update n q = Ok e ∧ revision_guard hs rev ∧
      is_Some (l_orgs l !! o) ∧ validated l o e ∧ is_Some (l_groups l !! (o, n))
  | DeleteGroup o n, DropGroup o' n' =>
      o' = o ∧ n' = n ∧ code = 204%N ∧ revision_guard hs rev ∧ is_Some (l_orgs l !! o) ∧
      is_Some (l_groups l !! (o, n)) ∧
      ∀ m e, l_groups l !! (o, m) = Some e → n ∉ Rbac.inherits e
  | UpsertPrincipal o n p, PutPrincipal o' n' p' =>
      o' = o ∧ NativeId.try_new n = Ok n' ∧ p' = p ∧ active l o ∧
      code = (if bool_decide (is_Some (l_principals l !! (o, n'))) then 200 else 201)%N
  | TombstonePromotion o t n, DropPromotion o' t' n' =>
      o' = o ∧ Segment.try_new t = Ok t' ∧ NativeId.try_new n = Ok n' ∧ active l o ∧
      code = 200%N ∧ is_Some (l_promotions l !! (o, t, n))
  | _, _ => False
  end.

(** The organization a write addresses; reads have none. *)
Definition written_org req : option string :=
  match req with
  | CreateOrg q => Some (OrgHandlers.create_org_id q)
  | UpdateOrg o _ | Transition _ o | GenerateKey o | RevokeKey o _ | RotateKey o _
  | CreateGroup o _ | UpdateGroup o _ _ | DeleteGroup o _ | UpsertPrincipal o _ _
  | TombstonePromotion o _ _ => Some o
  | _ => None
  end.
(** The organization whose revision [X-Fg-If-Revision] guards. *)
Definition guarded_org req : option string :=
  match req with
  | UpdateOrg o _ | CreateGroup o _ | UpdateGroup o _ _ | DeleteGroup o _ => Some o
  | _ => None
  end.
Definition stamped (resp : Response) (r : Revision.t) : Prop :=
  (REVISION_HEADER, pretty (Revision.value r)) ∈ headers resp.
(** A watch makes at most five rounds; nobody else writes meanwhile. *)
Definition fair (ticks : list (EventHandlers.Tick S)) : Prop :=
  5 ≤ length ticks ∧ Forall (λ t, EventHandlers.WATCH_TICK ≤ EventHandlers.elapsed t)%N ticks.
Definition quiet req : Prop :=
  match req with
  | ListEvents ticks _ _ => fair ticks ∧ Forall (λ t, ∀ s, EventHandlers.others t s = s) ticks
  | _ => True
  end.
End spec.

Section refinement.
Context {S OrgConfig : Type} `{HttpLib, StoreView S OrgConfig}.
(** The outcome of a request: no change, and then a successful write answers
    with the current revision; or one allowed change, in one event. *)
Definition outcome (sh : Shell) (hs : HeaderMap) (req : ApiRequest S OrgConfig) (s : S)
    (resp : Response) (s' : S) : Prop :=
  (unchanged s s' ∧
   ∀ o, written_org req = Some o → (status resp < 300)%N → stamped resp (revision_of s o)) ∨
  (∃ c r, allowed sh hs req (live s) (revision_of s (subject c)) c (status resp) ∧
     written_org req = Some (subject c) ∧ appended (subject c) (apply c) r s s' ∧ stamped resp r).
End refinement.
End ApiSpec.

(** * Rules for handlers *)
Module ApiRules.
Section rules.
Context {S OrgConfig : Type} `{HttpLib, StoreView S OrgConfig}.
Implicit Types (s : S).

(** The handler continues with [Q] or returns early with [R]; it is not stuck. *)
Definition wp {A} (m : M S Response A) (Q : A → S → Prop) (R : Response → S → Prop) s : Prop :=
  match m s with
  | (s', Ok a) => Q a s'
  | (s', Err r) => R r s'
  | (_, Stuck _) => False
  end.

Lemma unchanged_self s : store_wf s → unchanged s s.
Proof. by split. Qed.
Lemma unchanged_trans s1 s2 s3 : unchanged s1 s2 → unchanged s2 s3 → unchanged s1 s3.
Proof.
  intros [_ H2 H3 H4] [H5 H6 H7 H8]. split; [done|by rewrite H6| |].
  - intros o. by rewrite H7.
  - intros o. by rewrite H8.
Qed.
Lemma appended_after s1 s2 s3 o f r :
  unchanged s1 s2 → appended o f r s2 s3 → appended o f r s1 s3.
Proof.
  intros [_ H2 H3 H4] [H5 H6 H7 H8 (e & He & H9)]. split; [done|by rewrite H6, H2|by rewrite H7, H3|..].
  - intros o'. rewrite H8. by case_decide.
  - exists e. split; [done|]. intros o'. rewrite H9. by rewrite !H4.
Qed.

Section wp.
Context {A : Type} (Q : A → S → Prop) (R : Response → S → Prop).
Lemma wp_ret (a : A) s : Q a s → wp (mret a) Q R s.
Proof. done. Qed.
Lemma wp_fail r s : R r s → wp (fail (A:=A) r) Q R s.
Proof. done. Qed.
Lemma wp_then {B} (m : M S Response B) (k : B → M S Response A) s :
  wp m (λ b, wp (k b) Q R) R s → wp (m ≫= k) Q R s.
Proof. unfold wp, mbind, M_bind. by destruct (m s) as [s' [b|r|w]]. Qed.
Lemma wp_lift (r : result Response A) s :
  returns r → (∀ a, r = Ok a → Q a s) → (∀ e, r = Err e → R e s) → wp (lift r) Q R s.
Proof. unfold wp, lift. destruct r as [a|e|w]; [auto..|]. intros Hr. by destruct (Hr w). Qed.
Lemma wp_let_ok {E} (r : result E A) resp s :
  returns r → (∀ a, r = Ok a → Q a s) → R resp s → wp (let_ok r resp) Q R s.
Proof.
  intros Hr Ha He. apply wp_lift; [by apply returns_map_err|..].
  - intros a Hm%map_err_Ok. auto.
  - destruct r; simpl; naive_solver.
Qed.
Lemma wp_let_some (o : option A) resp s :
  (∀ a, o = Some a → Q a s) → R resp s → wp (let_some o resp) Q R s.
Proof. intros Ha He. destruct o as [a|]; [by apply Ha|done]. Qed.
(** Store calls. *)
Lemma wp_call (m : M S CpError.t A) on_err s P E :
  calls m s P E → (∀ a s', P a s' → Q a s') →
  (∀ e s', unchanged s s' → E e ∨ store_faults S ∧ (∃ msg, e = CpError.Store msg) → R (on_err e) s') →
  wp (call m on_err) Q R s.
Proof.
  unfold calls, wp, call. intros Hm Hq Hr.
  destruct (m s) as [s' [a|e|w]]; simpl; [by apply Hq| |done].
  destruct Hm. by apply Hr.
Qed.
Lemma wp_read (m : M S CpError.t A) on_err s0 s f :
  reads m f → unchanged s0 s → (∀ a s', unchanged s0 s' → f a s → Q a s') →
  (∀ e s', unchanged s0 s' → R (on_err e) s') → wp (call m on_err) Q R s.
Proof.
  intros Hm Hu Hq Hr. eapply wp_call; [apply Hm, Hu|..].
  - intros a s' [Hs' Hf]. apply Hq; [by eapply unchanged_trans|done].
  - intros e s' Hs' _. apply Hr. by eapply unchanged_trans.
Qed.
Lemma wp_json_value (r : result string Json.t) (Q' : Json.t → S → Prop) s :
  (∃ v, r = Ok v) → (∀ v, r = Ok v → Q' v s) → wp (json_value r) Q' R s.
Proof. intros [v ->] Hq. by apply Hq. Qed.
End wp.
Lemma wp_attempted {A} (Q : result CpError.t A → S → Prop) R (m : M S CpError.t A) s0 s f :
  reads m f → unchanged s0 s →
  (∀ a s', unchanged s0 s' → f a s → Q (Ok a) s') → (∀ e s', unchanged s0 s' → Q (Err e) s') →
  wp (attempt m) Q R s.
Proof.
  intros Hm Hu Hq Hr. assert (store_wf s) as Hs by apply Hu. pose proof (Hm s Hs) as Hc. unfold wp, attempt, calls in *.
  destruct (m s) as [s' [a|e|w]]; [|by apply Hr; eapply unchanged_trans, Hc|done].
  destruct Hc as [Hs' Hf]. apply Hq; [by eapply unchanged_trans|done].
Qed.
(** The whole handler returns a response. *)
Lemma wp_finish (m : M S Response Response) R s :
  wp m R R s → ∃ s' resp, finish m s = (s', Ok resp) ∧ R resp s'.
Proof. unfold wp, finish. destruct (m s) as [s' [r|r|w]]; [eauto..|done]. Qed.
End rules.
End ApiRules.

(** * Every handler refines the specification *)
Module ApiFacts.
Import Api ApiSpec ApiRules.
Section facts.
Context {S OrgConfig : Type} `{HttpLibLaws, CpLibLaws OrgConfig, StoreView S OrgConfig}.
Context `{OrgStoreI S OrgConfig, ModelEventStoreI S OrgConfig}.
Context `{!OrgStoreLaws S OrgConfig, !ModelEventStoreLaws S OrgConfig}.
Implicit Types (s : S) (sh : Shell) (hs : HeaderMap).
Abbreviation OrgRecord := (EventStore.OrgRecord (OrgConfig:=OrgConfig)).

(** ** Responses *)
Lemma in_revision_header r : (REVISION_HEADER, pretty (Revision.value r)) ∈
  revision_header_map (Revision.value r).
Proof. unfold revision_header_map. rewrite header_value_number. by left. Qed.
Lemma outcome_failed sh hs req s s' resp :
  unchanged s s' → (300 ≤ status resp)%N → outcome sh hs req s resp s'.
Proof. intros Hu Hs. left. split; [done|]. intros; lia. Qed.
Lemma outcome_read sh hs req s s' resp :
  written_org req = None → unchanged s s' → outcome sh hs req s resp s'.
Proof. intros Hw Hu. left. split; [done|]. intros o Ho. congruence. Qed.
Lemma outcome_noop sh hs req s s' code o b :
  written_org req = Some o → unchanged s s' →
  outcome sh hs req s (mkResponse code (revision_header_map (Revision.value (revision_of s o))) b) s'.
Proof.
  intros Hw Hu. left. split; [done|]. intros o' Ho' _. rewrite Hw in Ho'. injection Ho' as <-.
  apply in_revision_header.
Qed.
Lemma outcome_change sh hs req s s1 s' code c r b :
  allowed sh hs req (live s) (revision_of s (subject c)) c code → written_org req = Some (subject c) →
  unchanged s s1 → appended (subject c) (apply c) r s1 s' →
  outcome sh hs req s (mkResponse code (revision_header_map (Revision.value r)) b) s'.
Proof.
  intros Hall Hw Hu Ha. right. exists c, r. split_and!; [done..| |apply in_revision_header].
  by eapply appended_after.
Qed.

(** ** Store calls, seen from the request's first state *)
Section calls.
Variables (R : Response → S → Prop) (s0 s : S).
Hypothesis Hu : unchanged s0 s.
Lemma wp_org_id raw resp (Q : OrganizationId → S → Prop) :
  (∀ o, Id.new raw = Ok o → Id.wf o → Id.as_str o = raw → Q o s) → R resp s →
  wp (let_ok (Id.new raw) resp) Q R s.
Proof.
  intros Hq Hr. apply wp_let_ok; [apply id_new_returns| |done].
  intros o Ho. pose proof Ho as [? ?]%id_new_Ok. auto.
Qed.
Lemma wp_get_org (o : OrganizationId) on_err (Q : option OrgRecord → S → Prop) : Id.wf o →
  (∀ s', unchanged s0 s' → Q (l_orgs (live s0) !! Id.as_str o) s') →
  (∀ e s', unchanged s0 s' → R (on_err e) s') → wp (call (get o) on_err) Q R s.
Proof.
  intros Hw Hq Hr. eapply wp_read; [by apply get_law|done| |done].
  intros a s' Hs' ->. rewrite (u_live Hu). auto.
Qed.
Lemma wp_latest_revision o on_err (Q : Revision.t → S → Prop) :
  (∀ s', unchanged s0 s' → Q (revision_of s0 o) s') →
  (∀ e s', unchanged s0 s' → R (on_err e) s') → wp (call (latest_revision o) on_err) Q R s.
Proof.
  intros Hq Hr. eapply wp_read; [apply (latest_revision_law S OrgConfig)|done| |done].
  intros a s' Hs' ->. rewrite (u_revision Hu). auto.
Qed.
Lemma wp_org_body org n (Q : Json.t → S → Prop) :
  (∀ v, Q v s) → wp (OrgHandlers.org_body org n) Q R s.
Proof.
  intros Hq. apply wp_then, wp_json_value; [apply org_value_total|]. intros v _. by apply wp_ret.
Qed.
Lemma wp_if_revision h (Q : option Revision.t → S → Prop) :
  (∀ x, parse_if_revision (header_str IF_REVISION_HEADER h) = Ok x → Q x s) →
  R (error 400 "invalid X-Fg-If-Revision header") s →
  wp (OrgHandlers.parse_if_revision_header h) Q R s.
Proof.
  intros Hq Hr. apply wp_let_ok; [|done..]. unfold parse_if_revision, parse_revision.
  solve_returns.
Qed.
End calls.

Lemma shaped_status e : (300 ≤ status (GroupHandlers.shape_group_error_response e))%N.
Proof. destruct e as [[]| | | | |]; simpl; lia. Qed.
(** Closes a branch that answers with an error and left the store alone. *)
Ltac failed := apply outcome_failed; [first [done|by eapply unchanged_trans]|
  first [apply shaped_status|repeat case_match; simpl; lia]].

Lemma config_computed org (c : option OrgConfig) :
  EventStore.config (EventStore.Build_OrgRecord org (OrgStore.configured_compute <$> c)) = c.
Proof. by destruct c. Qed.
Lemma same_record_id (r r' : OrgRecord) :
  EventStore.org r = EventStore.org r' → EventStore.record_id r = EventStore.record_id r'.
Proof. unfold EventStore.record_id. by intros ->. Qed.
Lemma payload_json_total org (c : option OrgConfig) :
  ∃ v, OrgHandlers.org_payload_json org c = Ok v.
Proof.
  unfold OrgHandlers.org_payload_json. destruct (org_value_total org) as [v ->]. simpl.
  destruct c as [c|]; simpl; [|eauto]. destruct (config_value_total c) as [w ->]. simpl. eauto.
Qed.

(** ** Organizations *)
Lemma create_org_ok sh hs q s : store_wf s → EventStore.ulid (stamp sh) ≠ "" →
  wp (OrgHandlers.create_handler sh q) (outcome sh hs (CreateOrg q) s)
     (outcome sh hs (CreateOrg q) s) s.
Proof.
  intros Hs Hst. pose proof (unchanged_self s Hs) as Hu.
  apply wp_then, wp_org_id; [|failed]. intros o Ho Hw Has.
  eapply wp_then, wp_call; [apply (create_org_law S OrgConfig); [done..|]|..].
  { exists o. unfold EventStore.record_id. simpl. by rewrite Has. }
  - intros r s' (Hlog & r' & Horg & Hcfg & Ha). apply wp_then, wp_org_body. intros v. apply wp_ret.
    rewrite <-(same_record_id _ _ Horg) in Ha, Hlog. rewrite config_computed in Hcfg.
    assert (EventStore.record_id r' = Id.as_str o) as Hid by by (unfold EventStore.record_id; rewrite Horg).
    apply (outcome_change _ _ _ _ s _ _ (PutOrg r')); simpl; [|by rewrite Hid, Has|done..].
    split; [done|]. exists o. by rewrite Hid in Hlog.
  - intros e s' Hu' _. failed.
Qed.
Lemma update_org_ok sh hs o q s :
  store_wf s → keyed (live s) → EventStore.ulid (stamp sh) ≠ "" →
  wp (OrgHandlers.update_handler sh o hs q) (outcome sh hs (UpdateOrg o q) s)
     (outcome sh hs (UpdateOrg o q) s) s.
Proof.
  intros Hs Hk Hst. pose proof (unchanged_self s Hs) as Hu.
  apply wp_then, wp_org_id; [|failed]. intros x Hx Hw Has.
  apply wp_then, wp_if_revision; [|failed]. intros if_rev Hrev.
  apply wp_then. eapply wp_get_org; [done..| |intros; failed]. intros s1 Hu1. rewrite Has.
  apply wp_then, wp_let_some; [|failed]. intros r0 Hr0. pose proof (Hk o r0 Hr0) as Hid.
  destruct (payload_json_total (EventStore.org r0) (EventStore.config r0)) as [sp Hsp].
  apply wp_then, wp_let_ok; [by rewrite Hsp| |failed]. intros sp' _.
  apply wp_then, wp_let_ok; [| |failed].
  { by edestruct payload_json_total as [v ->]. }
  intros cp _. destruct (Upsert.decide_upsert _ _).
  - apply wp_then. eapply wp_latest_revision; [done|intros s2 Hu2|intros; failed].
    apply wp_then, wp_org_body. intros v. apply wp_ret. by apply outcome_noop.
  - cbv zeta. set (r1 := EventStore.Build_OrgRecord _ _).
    assert (EventStore.record_id r1 = o) as Hid1
      by by (rewrite <-Hid; unfold EventStore.record_id; simpl; destruct (OrgHandlers.update_name q)).
    eapply wp_then, wp_call; [apply (update_org_law S OrgConfig); [apply Hu1|done|]|..].
    { exists x. by rewrite Hid1. }
    + intros r s' (Hm & r' & Horg & Hcfg & Ha). apply wp_then, wp_org_body. intros v. apply wp_ret.
      pose proof (same_record_id _ _ Horg) as Hid'. rewrite Hid1 in *.
      apply (outcome_change _ _ _ _ s1 _ _ (PutOrg r')); simpl; rewrite ?Hid'; [|done..].
      split; [done|]. split.
      * exists if_rev. split; [done|]. intros y Hy. rewrite <-(u_revision Hu1). by apply Hm.
      * exists r0. rewrite Horg, Hcfg. unfold r1. by rewrite config_computed.
    + intros e s' Hu' _. failed.
Qed.
Lemma transition_ok sh hs v o s :
  store_wf s → keyed (live s) → EventStore.ulid (stamp sh) ≠ "" →
  wp (LifecycleHandlers.transition_handler v sh o) (outcome sh hs (Transition v o) s)
     (outcome sh hs (Transition v o) s) s.
Proof.
  intros Hs Hk Hst. pose proof (unchanged_self s Hs) as Hu.
  apply wp_then, wp_org_id; [|failed]. intros x Hx Hw Has.
  apply wp_then. eapply wp_get_org; [done..| |intros; failed]. intros s1 Hu1. rewrite Has.
  apply wp_then, wp_let_some; [|failed]. intros r0 Hr0. pose proof (Hk o r0 Hr0) as Hid.
  cbv zeta. case_bool_decide; [apply wp_fail; failed|].
  case_bool_decide as Ht.
  { apply wp_then. eapply wp_latest_revision; [done|intros s2 Hu2|intros; failed].
    apply wp_then, wp_org_body. intros b. apply wp_ret. by apply outcome_noop. }
  destruct (LifecycleVerb.valid_from v _) eqn:Hv; simpl; [|apply wp_fail; failed].
  apply wp_then. eapply wp_latest_revision; [done|intros s2 Hu2|intros; failed].
  apply wp_then, wp_let_ok; [unfold Organization.transition_to; solve_returns| |failed].
  intros org Horg. cbv zeta. set (r1 := EventStore.Build_OrgRecord _ _).
  assert (EventStore.record_id r1 = o) as Hid1.
  { rewrite <-Hid. unfold EventStore.record_id. simpl. unfold Organization.transition_to in Horg.
    by destruct (OrgStatus.can_transition_to _ _); simplify_eq/=. }
  eapply wp_then, wp_call; [apply (transition_org_law S OrgConfig); [apply Hu2|done|]|..].
  { exists x. by rewrite Hid1. }
  - intros r s' (_ & r' & Horg' & Hcfg & Ha). apply wp_then, wp_org_body. intros b. apply wp_ret.
    pose proof (same_record_id _ _ Horg') as Hid'. rewrite Hid1 in *.
    apply (outcome_change _ _ _ _ s2 _ _ (PutOrg r')); simpl; rewrite ?Hid'; [|done..].
    split; [done|]. exists r0. by rewrite Horg', Hcfg.
  - intros e s' Hu' _. failed.
Qed.

(** ** Request-signing keys *)
Lemma generate_key_ok sh hs o s :
  store_wf s → EventStore.ulid (stamp sh) ≠ "" → returns (material sh) →
  wp (KeyHandlers.generate_key_handler sh o) (outcome sh hs (GenerateKey o) s)
     (outcome sh hs (GenerateKey o) s) s.
Proof.
  intros Hs Hst Hmat. pose proof (unchanged_self s Hs) as Hu.
  apply wp_then, wp_org_id; [|failed]. intros x Hx Hw Has.
  eapply wp_then, wp_call; [apply (generate_org_key_law S OrgConfig); [done..|by exists x|done]|..].
  - intros [g r] s' (Hlog & Hm & e & He & Ha). apply wp_ret.
    apply (outcome_change _ _ _ _ s _ _ (PutKeys o (keys_at (live s) o ++ [e]))); simpl; [|done..].
    split_and!; [done..|]. by exists g, e.
  - intros e s' Hu' _. failed.
Qed.
Lemma revoke_key_ok sh hs o k s : store_wf s → EventStore.ulid (stamp sh) ≠ "" →
  wp (KeyHandlers.revoke_key_handler sh o k) (outcome sh hs (RevokeKey o k) s)
     (outcome sh hs (RevokeKey o k) s) s.
Proof.
  intros Hs Hst. pose proof (unchanged_self s Hs) as Hu.
  apply wp_then, wp_org_id; [|failed]. intros x Hx Hw Has.
  eapply wp_then, wp_call; [apply (revoke_org_key_law S OrgConfig); [done..|by exists x]|..].
  - intros [r|] s'.
    + intros (ks & Hks & Ha). apply wp_then, wp_ret, wp_ret.
      by apply (outcome_change _ _ _ _ s _ _ (PutKeys o ks)).
    + intros [_ Hu']. apply wp_then. eapply wp_latest_revision; [done|intros s2 Hu2|intros; failed].
      apply wp_ret. by apply outcome_noop.
  - intros e s' Hu' _. failed.
Qed.
Lemma rotate_key_ok sh hs o k s :
  store_wf s → EventStore.ulid (stamp sh) ≠ "" → returns (material sh) →
  wp (KeyHandlers.rotate_key_handler sh o k) (outcome sh hs (RotateKey o k) s)
     (outcome sh hs (RotateKey o k) s) s.
Proof.
  intros Hs Hst Hmat. pose proof (unchanged_self s Hs) as Hu.
  apply wp_then, wp_org_id; [|failed]. intros x Hx Hw Has.
  eapply wp_then, wp_call; [apply (rotate_org_key_law S OrgConfig); [done..|by exists x|done]|..].
  - intros [g r] s' (Hm & e & ks & He & Hks & Ha). apply wp_ret.
    apply (outcome_change _ _ _ _ s _ _ (PutKeys o ks)); simpl; [|done..].
    split_and!; [done..|]. by exists g, e.
  - intros e s' Hu' _. failed.
Qed.

(** ** Groups *)
Section groups.
Variables (R : Response → S → Prop) (s0 s : S).
Hypothesis Hu : unchanged s0 s.
Lemma wp_require_org (o : OrganizationId) (Q : OrgRecord → S → Prop) : Id.wf o →
  (∀ r s', unchanged s0 s' → l_orgs (live s0) !! Id.as_str o = Some r → Q r s') →
  (∀ resp s', unchanged s0 s' → (300 ≤ status resp)%N → R resp s') →
  wp (GroupHandlers.require_org o) Q R s.
Proof.
  intros Hw Hq Hr. apply wp_then. eapply wp_get_org; [done..| |].
  - intros s' Hu'. apply wp_let_some; [auto|]. by apply Hr.
  - intros e s' Hu'. by apply Hr.
Qed.
Lemma wp_get_group (o : OrganizationId) n on_err (Q : option OrgStore.EtagedGroup → S → Prop) :
  Id.wf o →
  (∀ g s', unchanged s0 s' → OrgStore.entry <$> g = l_groups (live s0) !! (Id.as_str o, n) → Q g s') →
  (∀ e s', unchanged s0 s' → R (on_err e) s') → wp (call (get_group o n) on_err) Q R s.
Proof.
  intros Hw Hq Hr. eapply wp_read; [by apply get_group_law|done| |done].
  intros g s' Hs' Hg. cbv beta in Hg. rewrite (u_live Hu) in Hg. auto.
Qed.
Lemma wp_require_group (o : OrganizationId) n (Q : OrgStore.EtagedGroup → S → Prop) : Id.wf o →
  (∀ g s', unchanged s0 s' → l_groups (live s0) !! (Id.as_str o, n) = Some (OrgStore.entry g) →
     Q g s') →
  (∀ resp s', unchanged s0 s' → (300 ≤ status resp)%N → R resp s') →
  wp (GroupHandlers.require_group o n) Q R s.
Proof.
  intros Hw Hq Hr. apply wp_then. apply wp_get_group; [done| |].
  - intros g s' Hu' Hg. apply wp_let_some; [intros g' ->; by apply Hq|by apply Hr].
  - intros e s' Hu'. by apply Hr.
Qed.
Lemma wp_list_groups (o : OrganizationId) on_err (Q : list OrgStore.EtagedGroup → S → Prop) :
  Id.wf o →
  (∀ gs names s', unchanged s0 s' →
     Live.groups_of (live s0) (Id.as_str o) names (OrgStore.entry <$> gs) → Q gs s') →
  (∀ e s', unchanged s0 s' → R (on_err e) s') → wp (call (list_groups o) on_err) Q R s.
Proof.
  intros Hw Hq Hr. eapply wp_read; [by apply list_groups_law|done| |done].
  intros gs s' Hs' [names Hn]. rewrite (u_live Hu) in Hn. by eapply Hq.
Qed.
Lemma wp_list_existing (o : OrganizationId) (Q : list Rbac.RbacEntry → S → Prop) : Id.wf o →
  (∀ es names s', unchanged s0 s' → Live.groups_of (live s0) (Id.as_str o) names es → Q es s') →
  (∀ resp s', unchanged s0 s' → (300 ≤ status resp)%N → R resp s') →
  wp (GroupHandlers.list_existing_entries o) Q R s.
Proof.
  intros Hw Hq Hr. apply wp_then, wp_list_groups; [done| |].
  - intros gs names s' Hu' Hn. apply wp_ret. by eapply Hq.
  - intros e s' Hu'. by apply Hr.
Qed.
End groups.

Lemma resolve_returns all target : returns (Rbac.resolve_inherits all target).
Proof.
  unfold Rbac.resolve_inherits. case_match; [done|]. apply returns_fmap. intros w.
  apply (RbacFacts.collect_not_Stuck (Rbac.rbac_map all) target);
    [apply RbacFacts.walker_inv_new|apply RbacFacts.on_path_new|lia].
Qed.
Lemma validate_returns e all : returns (Validation.validate_rbac_entry e all).
Proof.
  unfold Validation.validate_rbac_entry, Validation.validate_group_name.
  repeat (apply returns_bind; [|intros ? _]); [solve_returns..| | |done].
  - intros w Hw. apply for_each_stop in Hw as (act & _ & Ha); [|done].
    revert Ha. unfold Validation.validate_action_format. by case_match.
  - apply returns_map_err, resolve_returns.
Qed.
Lemma in_merged_revision hs r : (REVISION_HEADER, pretty (Revision.value r)) ∈
  merged_headers hs (revision_header_map (Revision.value r)).
Proof. apply elem_of_app. right. apply in_revision_header. Qed.

(** The shared end of create and update. *)
Lemma put_validated_ok code sh hs req (x : OrganizationId) o actor if_rev names existing proposed s s1 :
  Id.new o = Ok x → Id.as_str x = o → EventStore.ulid (stamp sh) ≠ "" → unchanged s s1 →
  Live.groups_of (live s) o names existing → written_org req = Some o →
  parse_if_revision (header_str IF_REVISION_HEADER hs) = Ok if_rev →
  (validated (live s) o proposed → revision_guard hs (revision_of s o) →
   allowed sh hs req (live s) (revision_of s o) (PutGroup o proposed) code) →
  wp (GroupHandlers.put_validated code sh x actor if_rev existing proposed)
     (outcome sh hs req s) (outcome sh hs req s) s1.
Proof.
  intros Hx Has Hst Hu1 Hg Hreq Hrev Hall.
  apply wp_then, wp_lift; [apply returns_map_err, validate_returns| |].
  2:{ intros e He. destruct (Validation.validate_rbac_entry _ _); simplify_eq/=. failed. }
  intros e He%map_err_Ok. pose proof He as (-> & _)%ValidationFacts.validate_rbac_Ok.
  destruct (group_text_total proposed) as [txt Htxt].
  apply wp_then, wp_let_ok; [| |failed].
  { unfold OrgStore.etaged_compute, OrgStore.compute_group_etag. by rewrite Htxt. }
  intros etaged _. rewrite Has.
  eapply wp_then, wp_call; [apply (put_group_law S OrgConfig); [apply Hu1|done|by exists x]|..].
  - intros [r|r] s'; intros (_ & Hr & Ha); apply wp_ret.
    + left. split; [by eapply unchanged_trans|]. intros o' Ho' _. rewrite Hreq in Ho'.
      simplify_eq. rewrite <-(u_revision Hu1). apply in_merged_revision.
    + right. exists (PutGroup o proposed), r. split_and!; [|done| |apply in_merged_revision].
      * apply Hall; [by exists names, existing|]. exists if_rev. split; [done|].
        intros y Hy. rewrite <-(u_revision Hu1). by apply Hr.
      * by eapply appended_after.
  - intros e s' Hu' _. failed.
Qed.
Lemma create_group_ok sh hs o q s : store_wf s → EventStore.ulid (stamp sh) ≠ "" →
  wp (GroupHandlers.create_handler sh o hs q) (outcome sh hs (CreateGroup o q) s)
     (outcome sh hs (CreateGroup o q) s) s.
Proof.
  intros Hs Hst. pose proof (unchanged_self s Hs) as Hu.
  apply wp_then, wp_org_id; [|failed]. intros x Hx Hw Has.
  apply wp_then, wp_if_revision; [|failed]. intros if_rev Hrev.
  apply wp_then. eapply wp_require_org; [done..| |by intros; apply outcome_failed].
  intros r0 s1 Hu1 Hr0.
  apply wp_then. eapply wp_list_existing; [done..| |by intros; apply outcome_failed].
  intros es names s2 Hu2 Hg. rewrite Has in *.
  destruct (existsb _ es) eqn:Hex; [apply wp_fail; failed|].
  eapply put_validated_ok; [done..|]. intros Hv Hgd. simpl. split_and!; [done..|by eexists|done|].
  intros n e' He' Heq. destruct Hg as (_ & _ & Hall & Hin).
  apply not_true_iff_false in Hex. apply Hex, existsb_exists. exists e'.
  split; [|by apply bool_decide_eq_true].
  assert (n ∈ names) as Hn by by (apply Hin; eexists).
  apply list_elem_of_lookup in Hn as [i Hi]. destruct (Forall2_lookup_l _ _ _ _ _ Hall Hi) as (e1 & He1 & Hl).
  rewrite He' in Hl. simplify_eq. by eapply list_elem_of_In, list_elem_of_lookup_2.
Qed.
Lemma update_group_ok sh hs o n q s : store_wf s → EventStore.ulid (stamp sh) ≠ "" →
  wp (GroupHandlers.update_handler sh o n hs q) (outcome sh hs (UpdateGroup o n q) s)
     (outcome sh hs (UpdateGroup o n q) s) s.
Proof.
  intros Hs Hst. pose proof (unchanged_self s Hs) as Hu.
  apply wp_then, wp_org_id; [|failed]. intros x Hx Hw Has.
  apply wp_then, wp_if_revision; [|failed]. intros if_rev Hrev.
  apply wp_then. eapply wp_require_org; [done..| |by intros; apply outcome_failed].
  intros r0 s1 Hu1 Hr0.
  apply wp_then. eapply wp_require_group; [done..| |by intros; apply outcome_failed].
  intros g s2 Hu2 Hgr.
  apply wp_then, wp_lift; [unfold GroupHandlers.rbac_from_update; solve_returns| |].
  2:{ intros e He. destruct (GroupHandlers.rbac_from_update n q); simplify_eq/=. failed. }
  intros proposed Hp%map_err_Ok.
  apply wp_then. eapply wp_list_existing; [done..| |by intros; apply outcome_failed].
  intros es names s3 Hu3 Hg. rewrite Has in *.
  eapply put_validated_ok; [done..|]. intros Hv Hgd. simpl. by split_and!.
Qed.
Lemma delete_group_ok sh hs o n s : store_wf s → EventStore.ulid (stamp sh) ≠ "" →
  wp (GroupHandlers.delete_handler sh o n hs) (outcome sh hs (DeleteGroup o n) s)
     (outcome sh hs (DeleteGroup o n) s) s.
Proof.
  intros Hs Hst. pose proof (unchanged_self s Hs) as Hu.
  apply wp_then, wp_org_id; [|failed]. intros x Hx Hw Has.
  apply wp_then, wp_if_revision; [|failed]. intros if_rev Hrev.
  apply wp_then. eapply wp_require_org; [done..| |by intros; apply outcome_failed].
  intros r0 s1 Hu1 Hr0.
  apply wp_then. eapply wp_get_group; [done..| |intros; failed].
  intros [g|] s2 Hu2 Hgr; rewrite Has in *.
  2:{ apply wp_then. eapply wp_latest_revision; [done|intros s3 Hu3|intros; failed]. apply wp_ret.
      by apply outcome_noop. }
  apply wp_then. eapply wp_attempted; [by apply count_memberships_law|done|..].
  2:{ intros e s3 Hu3. apply wp_then. eapply wp_attempted; [by apply list_inheritors_law|done|..];
      intros; (apply wp_then, wp_let_ok; [done|done|failed]). }
  intros ms s3 Hu3 _. apply wp_then. eapply wp_attempted; [by apply list_inheritors_law|done|..].
  2:{ intros e s4 Hu4. apply wp_then, wp_let_ok; [done| |failed]. intros ? _.
      apply wp_then, wp_let_ok; [done|done|failed]. }
  intros inh s4 Hu4 Hinh. cbv beta in Hinh. rewrite (u_live Hu3), Has in Hinh.
  apply wp_then, wp_let_ok; [done| |failed]. intros ms' [= <-].
  apply wp_then, wp_let_ok; [done| |failed]. intros inh' [= <-].
  destruct (_ || _) eqn:Hc; [apply wp_fail; failed|]. bool_prop. subst inh.
  eapply wp_then, wp_call; [apply (delete_group_law S OrgConfig); [apply Hu4|done|by exists x]|..].
  - intros [r|r] s' (Hpre & Hr & Ha); apply wp_ret; simpl.
    + rewrite Hr, (u_revision Hu4). apply outcome_noop; [done|]. by eapply unchanged_trans.
    + apply (outcome_change _ _ _ _ s4 _ _ (DropGroup o n)); simpl; [|done..].
      split_and!; [done..| |by eexists|by rewrite <-Hgr|].
      * exists if_rev. split; [done|]. intros y Hy. rewrite <-(u_revision Hu4). by apply Hr.
      * intros m e Hm Hin. eapply elem_of_nil, Hinh. eauto.
  - intros e s' Hu' _. failed.
Qed.

(** ** Principals and promotions *)
Section gates.
Variables (R : Response → S → Prop) (s0 s : S).
Hypothesis Hu : unchanged s0 s.
Hypothesis HR : ∀ resp s', unchanged s0 s' → (300 ≤ status resp)%N → R resp s'.
Lemma wp_require_active raw (Q : () → S → Prop) :
  (∀ (x : OrganizationId) s', Id.new raw = Ok x → unchanged s0 s' → active (live s0) raw → Q () s') →
  wp (require_active_org raw) Q R s.
Proof.
  intros Hq. apply wp_then, wp_org_id; [|by apply HR]. intros x Hx Hw Has.
  apply wp_then. eapply wp_get_org; [done..| |by intros; apply HR]. intros s1 Hu1. rewrite Has.
  apply wp_then, wp_let_some; [|by apply HR]. intros r0 Hr0.
  destruct (Organization.status _) eqn:Hst;
    [apply wp_fail; by apply HR|apply wp_ret|apply wp_fail; by apply HR..].
  eapply Hq; [done..|]. by exists r0.
Qed.
Lemma wp_require_not_deleted raw (Q : () → S → Prop) :
  (∀ s', unchanged s0 s' → Q () s') → wp (require_not_deleted_org raw) Q R s.
Proof.
  intros Hq. apply wp_then, wp_org_id; [|by apply HR]. intros x Hx Hw Has.
  apply wp_then. eapply wp_get_org; [done..| |by intros; apply HR]. intros s1 Hu1. rewrite Has.
  apply wp_then, wp_let_some; [|by apply HR]. intros r0 Hr0.
  case_bool_decide; [apply wp_fail; by apply HR|]. by apply wp_ret, Hq.
Qed.
Lemma wp_require_min raw min (Q : () → S → Prop) :
  (∀ s', unchanged s0 s' → Q () s') → wp (require_min_revision raw min) Q R s.
Proof.
  intros Hq. destruct min as [m|]; [|by apply wp_ret, Hq]. apply wp_then.
  eapply wp_latest_revision; [done|intros s1 Hu1|by intros; apply HR].
  destruct (check_min_revision _ _); [by apply wp_ret, Hq|]. apply wp_fail. by apply HR.
Qed.
Lemma wp_parse_min h (Q : option Revision.t → S → Prop) :
  (∀ x, Q x s) → wp (parse_min_revision_header h) Q R s.
Proof.
  intros Hq. apply wp_let_ok; [|done|by apply HR]. unfold parse_min_revision, parse_revision.
  solve_returns.
Qed.
End gates.

Lemma upsert_principal_ok sh hs o n p s : store_wf s → EventStore.ulid (stamp sh) ≠ "" →
  wp (PrincipalHandlers.upsert_principal sh o n p) (outcome sh hs (UpsertPrincipal o n p) s)
     (outcome sh hs (UpsertPrincipal o n p) s) s.
Proof.
  intros Hs Hst. pose proof (unchanged_self s Hs) as Hu.
  apply wp_then, wp_let_ok; [apply native_id_try_new_returns| |failed]. intros n' Hn'.
  apply wp_then. eapply wp_require_active; [done|by intros; apply outcome_failed|].
  intros x s1 Hx Hu1 Hact.
  apply wp_then. eapply wp_read; [apply (get_principal_law S OrgConfig)|done| |intros; failed].
  intros ex s2 Hu2 ->. rewrite (u_live Hu1).
  unfold Upsert.decide_upsert. destruct (l_principals (live s) !! (o, n')) as [old|] eqn:Hold;
    [destruct (Json.eqb old p)|].
  1: { apply wp_then. eapply wp_latest_revision; [done|intros s3 Hu3|intros; failed]. apply wp_ret.
       by apply outcome_noop. }
  all: eapply wp_then, wp_call;
    [apply (upsert_changed_law S OrgConfig); [apply Hu2|done|by exists x]| |intros e s' Hu' _; failed].
  all: intros r s' Ha; apply wp_ret.
  all: apply (outcome_change _ _ _ _ s2 _ _ (PutPrincipal o n' p)); simpl; [|done..].
  all: by rewrite Hold.
Qed.
Lemma tombstone_ok sh hs o t n s : store_wf s → EventStore.ulid (stamp sh) ≠ "" →
  wp (PromotionHandlers.tombstone_promotion_handler sh o t n)
     (outcome sh hs (TombstonePromotion o t n) s) (outcome sh hs (TombstonePromotion o t n) s) s.
Proof.
  intros Hs Hst. pose proof (unchanged_self s Hs) as Hu.
  apply wp_then, wp_let_ok; [apply segment_try_new_returns| |failed]. intros t' Ht'.
  apply wp_then, wp_let_ok; [apply native_id_try_new_returns| |failed]. intros n' Hn'.
  apply wp_then. eapply wp_require_active; [done|by intros; apply outcome_failed|].
  intros x s1 Hx Hu1 Hact.
  assert (∀ s', unchanged s s' → wp (PromotionHandlers.current_revision_no_content o)
    (outcome sh hs (TombstonePromotion o t n) s) (outcome sh hs (TombstonePromotion o t n) s) s')
    as Hnoop.
  { intros s' Hu'. apply wp_then. eapply wp_latest_revision; [done|intros s3 Hu3|intros; failed].
    apply wp_ret. by apply outcome_noop. }
  apply wp_then. eapply wp_read; [apply (get_promotion_law S OrgConfig)|done| |intros; failed].
  intros ex s2 Hu2 ->. rewrite (u_live Hu1).
  destruct (l_promotions _ !! _) as [f|] eqn:Hf; [|by apply Hnoop].
  eapply wp_then, wp_call; [apply (tombstone_promotion_law S OrgConfig); [apply Hu2|done|by exists x]|..].
  - intros [r|] s'.
    + intros [_ Ha]. apply wp_ret.
      apply (outcome_change _ _ _ _ s2 _ _ (DropPromotion o t' n')); simpl; [|done..].
      split_and!; [done..|]. rewrite (SegmentFacts.segment_try_new_as_str _ _ Ht'), (NativeIdFacts.native_id_try_new_as_str _ _ Hn') in Hf.
      by eexists.
    + intros [_ Hu']. apply Hnoop. by eapply unchanged_trans.
  - intros e s' Hu' _. failed.
Qed.

(** ** Reads *)
Definition harmless (req : ApiRequest S OrgConfig) (m : M S Response Response) s : Prop :=
  ∀ sh hs, wp m (outcome sh hs req s) (outcome sh hs req s) s.
Ltac read := apply outcome_read; [done|first [done|by eapply unchanged_trans]].

Lemma list_orgs_ok q s : store_wf s → harmless (ListOrgs q) (OrgHandlers.list_handler q) s.
Proof.
  intros Hs sh hs. pose proof (unchanged_self s Hs) as Hu.
  eapply wp_then, wp_read; [by apply list_orgs_law|done| |intros; read].
  intros rs s' Hu' _. apply wp_ret. read.
Qed.
Lemma get_org_ok o h s : store_wf s → harmless (GetOrg o) (OrgHandlers.get_handler o h) s.
Proof.
  intros Hs sh hs. pose proof (unchanged_self s Hs) as Hu.
  apply wp_then, wp_org_id; [|read]. intros x Hx Hw Has.
  apply wp_then. eapply wp_get_org; [done..| |intros; read]. intros s1 Hu1.
  apply wp_then, wp_let_some; [|read]. intros r Hr. apply wp_ret. read.
Qed.
Lemma proxy_config_ok o h s :
  store_wf s → harmless (ProxyConfig o) (OrgHandlers.proxy_config_handler o h) s.
Proof.
  intros Hs sh hs. pose proof (unchanged_self s Hs) as Hu.
  apply wp_then, wp_org_id; [|read]. intros x Hx Hw Has.
  apply wp_then. eapply wp_get_org; [done..| |intros; read]. intros s1 Hu1.
  apply wp_then, wp_let_some; [|read]. intros r Hr.
  apply wp_then, wp_let_some; [|read]. intros c Hc. apply wp_ret. read.
Qed.
Lemma list_keys_ok o s : store_wf s → harmless (ListKeys o) (KeyHandlers.list_keys_handler o) s.
Proof.
  intros Hs sh hs. pose proof (unchanged_self s Hs) as Hu.
  apply wp_then, wp_org_id; [|read]. intros x Hx Hw Has.
  apply wp_then. eapply wp_get_org; [done..| |intros; read]. intros s1 Hu1.
  apply wp_then, wp_let_some; [|read]. intros r Hr.
  eapply wp_then, wp_read; [by apply list_keys_law|done| |intros; read].
  intros ks s' Hu' _. apply wp_ret. read.
Qed.
Lemma list_groups_ok o h s : store_wf s → harmless (ListGroups o) (GroupHandlers.list_handler o h) s.
Proof.
  intros Hs sh hs. pose proof (unchanged_self s Hs) as Hu.
  apply wp_then, wp_org_id; [|read]. intros x Hx Hw Has.
  apply wp_then. eapply wp_require_org; [done..| |intros; read]. intros r s1 Hu1 _.
  apply wp_then. eapply wp_list_groups; [done..| |intros; read]. intros gs names s2 Hu2 _.
  repeat case_match; try (apply wp_ret; read); apply wp_fail; read.
Qed.
Lemma get_group_ok o n h s : store_wf s → harmless (GetGroup o n) (GroupHandlers.get_handler o n h) s.
Proof.
  intros Hs sh hs. pose proof (unchanged_self s Hs) as Hu.
  apply wp_then, wp_org_id; [|read]. intros x Hx Hw Has.
  apply wp_then. eapply wp_require_org; [done..| |intros; read]. intros r s1 Hu1 _.
  apply wp_then. eapply wp_require_group; [done..| |intros; read]. intros g s2 Hu2 _.
  repeat case_match; try (apply wp_ret; read); apply wp_fail; read.
Qed.
Lemma list_promotions_ok o q h s :
  store_wf s → harmless (ListPromotions o q) (PromotionHandlers.list_promotions_handler o q h) s.
Proof.
  intros Hs sh hs. pose proof (unchanged_self s Hs) as Hu.
  apply wp_then, wp_let_some; [|read]. intros t Ht.
  apply wp_then, wp_let_ok; [apply segment_try_new_returns| |read]. intros t' Ht'.
  apply wp_then, wp_lift; [solve_returns| |intros; read]. intros after _.
  apply wp_then. eapply wp_parse_min; [done|by intros; apply outcome_failed|]. intros min.
  apply wp_then. eapply wp_require_active; [done|by intros; apply outcome_failed|].
  intros x s1 _ Hu1 _.
  apply wp_then. eapply wp_require_min; [done|by intros; apply outcome_failed|]. intros s2 Hu2.
  eapply wp_then, wp_read; [apply (list_promotions_law S OrgConfig)|done| |intros; read].
  intros ps s3 Hu3 _. apply wp_then. eapply wp_latest_revision; [done| |intros; read].
  intros s4 Hu4. apply wp_ret. read.
Qed.
Lemma list_signing_keys_ok o s :
  store_wf s → harmless (ListSigningKeys o) (SigningKeyHandlers.list_signing_keys_handler o) s.
Proof.
  intros Hs sh hs. pose proof (unchanged_self s Hs) as Hu.
  apply wp_then. eapply wp_require_not_deleted; [done|by intros; apply outcome_failed|].
  intros s1 Hu1. eapply wp_then, wp_call; [apply (list_signing_keys_law S OrgConfig), Hu1|..].
  - intros ks s' Hu'. apply wp_ret. read.
  - intros e s' Hu' _. read.
Qed.

(** ** The event feed *)
Definition waited (ticks : list (EventHandlers.Tick S)) : N :=
  foldr (λ t n, EventHandlers.elapsed t + n)%N 0%N ticks.
Definition page (o : string) (after : Revision.t) (limit : nat) s : list Envelope.t :=
  take limit (filter (λ e, Revision.value after < Revision.value (Envelope.seq e))%N (log_of s o)).
(** The page an answer shows, or the empty page of a log that has not moved. *)
Definition watched (o : string) (after : Revision.t) (limit : nat) (time : N) s
    (es : list Envelope.t) : Prop :=
  ((Revision.value after < Revision.value (revision_of s o))%N ∧ es = page o after limit s) ∨
  (es = [] ∧ (Revision.value (revision_of s o) ≤ Revision.value after)%N ∧
   (EventHandlers.WATCH_DEADLINE ≤ time)%N).

Lemma waited_ge ticks :
  Forall (λ t, EventHandlers.WATCH_TICK ≤ EventHandlers.elapsed t)%N ticks →
  (EventHandlers.WATCH_TICK * N.of_nat (length ticks) ≤ waited ticks)%N.
Proof.
  unfold EventHandlers.WATCH_TICK, waited. induction 1 as [|t ticks Ht _ IH]; simpl in *; lia.
Qed.

Section watch.
Variable (I : S → Prop).
Hypothesis I_wf : ∀ s, I s → store_wf s.
Hypothesis I_unchanged : ∀ s s', I s → unchanged s s' → I s'.
Variables (o : string) (after : Revision.t) (limit : nat).
Let settles (clock : N) (ticks : list (EventHandlers.Tick S)) s : Prop := ∃ k s' r,
  EventHandlers.watch_loop o after limit clock ticks s = (s', r) ∧
  EventHandlers.watch_loop o after limit clock (take k ticks) s = (s', r) ∧ 1 ≤ k ∧
  (clock + waited (take (k - 1) ticks) < EventHandlers.WATCH_DEADLINE)%N ∧ I s' ∧ returns r ∧
  ∀ es, r = Ok es → watched o after limit (clock + waited (take k ticks)) s' es.

(** A reading that fails stops the loop. *)
Lemma settles_now clock t ticks s s' r :
  (clock < EventHandlers.WATCH_DEADLINE)%N → I s' → returns r →
  (∀ ts, EventHandlers.watch_loop o after limit clock (t :: ts) s = (s', r)) →
  (∀ es, r = Ok es → watched o after limit (clock + EventHandlers.elapsed t) s' es) →
  settles clock (t :: ticks) s.
Proof.
  intros Hc HI Hr Hrun Hw. exists 1, s', r. split_and!; [apply Hrun|apply Hrun|lia|..].
  - simpl. lia.
  - done.
  - done.
  - simpl. by rewrite N.add_0_r.
Qed.
Lemma watch_loop_spec ticks : ∀ clock s,
  Forall (λ t, EventHandlers.WATCH_TICK ≤ EventHandlers.elapsed t)%N ticks →
  Forall (λ t, ∀ s, I s → I (EventHandlers.others t s)) ticks → I s →
  (clock < EventHandlers.WATCH_DEADLINE)%N →
  (EventHandlers.WATCH_DEADLINE ≤ clock + EventHandlers.WATCH_TICK * N.of_nat (length ticks))%N →
  settles clock ticks s.
Proof.
  induction ticks as [|t ticks IH]; intros clock s Hel Hot HI Hc Hd; [simpl in Hd; lia|].
  apply Forall_cons in Hel as [Ht Hel], Hot as [Hot Hots].
  pose proof (Hot s HI) as HI1. set (s1 := EventHandlers.others t s) in *.
  pose proof (latest_revision_law S OrgConfig o s1 (I_wf _ HI1)) as Hl. unfold calls in Hl.
  assert (∀ ts, EventHandlers.watch_loop o after limit clock (t :: ts) s =
    (current ← latest_revision o;
     if bool_decide (Revision.value after < Revision.value current)%N
     then events_after o after limit
     else let clock := (clock + EventHandlers.elapsed t)%N in
          if bool_decide (EventHandlers.WATCH_DEADLINE ≤ clock)%N then mret []
          else EventHandlers.watch_loop o after limit clock ts) s1) as Hrun by done.
  unfold mbind, M_bind in Hrun.
  destruct (latest_revision o s1) as [s2 [cur|e|w]]; [| |done].
  2:{ apply (settles_now _ _ _ _ s2 (Err e)); [done|by eapply I_unchanged, Hl|done|done|done]. }
  destruct Hl as [Hu2 ->]. assert (I s2) as HI2 by by eapply I_unchanged.
  case_bool_decide as Hadv.
  { pose proof (events_after_law S OrgConfig o after limit s2 (I_wf _ HI2)) as He. unfold calls in He.
    destruct (events_after o after limit s2) as [s3 [es|e|w]] eqn:Hev; [| |done].
    - destruct He as [Hu3 ->]. apply (settles_now _ _ _ _ s3 (Ok (page o after limit s2)));
        [done|by eapply I_unchanged|done|done|].
      intros es [= <-]. left. unfold page. rewrite (u_revision Hu3), (u_log Hu3), (u_revision Hu2).
      done.
    - apply (settles_now _ _ _ _ s3 (Err e)); [done|by eapply I_unchanged, He|done|done|done]. }
  cbv zeta in Hrun. case_bool_decide as Hdl.
  { apply (settles_now _ _ _ _ s2 (Ok [])); [done..|]. intros es [= <-]. right.
    rewrite (u_revision Hu2). split_and!; [done|lia|done]. }
  destruct (IH (clock + EventHandlers.elapsed t)%N s2) as (k & s' & r & Hr1 & Hr2 & Hk & Hw & HI' & Hret & Hout);
    [done|done|done|lia|simpl length in Hd; unfold EventHandlers.WATCH_TICK in *; lia|].
  exists (Datatypes.S k), s', r. cbn [take]. rewrite !Hrun, Hr1, Hr2. split_and!; [done|done|lia| |done|done|].
  - replace (Datatypes.S k - 1) with (Datatypes.S (k - 1)) by lia. cbn [take waited foldr]. 
    unfold waited in Hw. lia.
  - cbn [waited foldr]. unfold waited in Hout. by rewrite N.add_assoc.
Qed.
End watch.

Lemma envelopes_total es : ∃ v, Json.Array <$> mapM envelope_value es = Ok v.
Proof.
  assert (∃ vs, mapM envelope_value es = Ok vs) as [vs ->]; [|by eexists].
  induction es as [|e es [vs IH]]; [by eexists|]. destruct (envelope_value_total e) as [v Hv].
  exists (v :: vs). simpl. rewrite Hv. simpl. by rewrite IH.
Qed.
Lemma list_events_ok ticks o q h s : store_wf s → quiet (ListEvents (OrgConfig:=OrgConfig) ticks o q) →
  harmless (ListEvents ticks o q) (EventHandlers.list_events_handler ticks o q h) s.
Proof.
  intros Hs [[Hlen Hel] Hid] sh hs. pose proof (unchanged_self s Hs) as Hu.
  apply wp_then, wp_let_ok; [unfold EventHandlers.parse_wait; solve_returns| |read]. intros wait _.
  apply wp_then. eapply wp_parse_min; [done|by intros; apply outcome_failed|]. intros min.
  apply wp_then. eapply wp_require_not_deleted; [done|by intros; apply outcome_failed|].
  intros s1 Hu1.
  apply wp_then. eapply wp_require_min; [done|by intros; apply outcome_failed|]. intros s2 Hu2.
  eapply wp_then, wp_read; [apply (events_after_law S OrgConfig)|done| |intros; read].
  intros es s3 Hu3 _.
  assert (∀ es s', unchanged s s' → wp (revision ← or_500 (latest_revision o);
    let next_after := match last es with
      | Some e => Revision.value (Envelope.seq e)
      | None => Revision.value (Revision.new (default 0%N (EventHandlers.q_after q)))
      end in
    events_json ← json_value (Json.Array <$> mapM envelope_value es);
    mret (json 200 (revision_header_map (Revision.value revision))
      (Json.object [("events", events_json); ("next_after", num next_after);
                    ("revision", num (Revision.value revision))])))
    (outcome sh hs (ListEvents ticks o q) s) (outcome sh hs (ListEvents ticks o q) s) s') as Hend.
  { intros es' s' Hu'. apply wp_then. eapply wp_latest_revision; [done|intros s4 Hu4|intros; read].
    apply wp_then, wp_json_value; [apply envelopes_total|]. intros v _. apply wp_ret. read. }
  apply wp_then. cbv zeta. destruct es as [|e es], wait; try by apply wp_ret, Hend.
  destruct (watch_loop_spec (unchanged s) (λ s', u_wf) (λ s1 s2, unchanged_trans s s1 s2) o
    (Revision.new (default 0%N (EventHandlers.q_after q)))
    (clamp_limit (default DEFAULT_LIMIT (EventHandlers.q_limit q))) ticks 0 s3)
    as (k & s4 & r & Hrun & _ & _ & _ & Hu4 & Hret & _); [done| |done|done| |].
  { eapply Forall_impl; [exact Hid|]. intros t Ht s' Hs'. by rewrite Ht. }
  { unfold EventHandlers.WATCH_DEADLINE, EventHandlers.WATCH_TICK. lia. }
  unfold wp, or_500, call, EventHandlers.watch_for_events. rewrite Hrun.
  destruct r as [es|e|w]; simpl; [by apply Hend|read|by destruct (Hret w)].
Qed.

(** ** Any request *)
Lemma handler_ok sh hs req s :
  store_wf s → keyed (live s) → EventStore.ulid (stamp sh) ≠ "" → returns (material sh) →
  quiet req → wp (handler_of sh hs req) (outcome sh hs req s) (outcome sh hs req s) s.
Proof.
  intros Hs Hk Hst Hmat Hq. destruct req; cbn [handler_of];
    eauto using create_org_ok, update_org_ok, transition_ok, generate_key_ok, revoke_key_ok,
      rotate_key_ok, create_group_ok, update_group_ok, delete_group_ok, upsert_principal_ok,
      tombstone_ok.
  - by apply list_orgs_ok.
  - by apply get_org_ok.
  - by apply proxy_config_ok.
  - by apply list_keys_ok.
  - by apply list_groups_ok.
  - by apply get_group_ok.
  - by apply list_promotions_ok.
  - by apply list_events_ok.
  - by apply list_signing_keys_ok.
Qed.
End facts.
End ApiFacts.

(** * Groups stay well formed *)
Module GroupFacts.
Import Rbac Validation.

Lemma rbac_map_lookup entries e : NoDup (name <$> entries) → e ∈ entries →
  rbac_map entries !! name e = Some e.
Proof.
  unfold rbac_map. generalize (∅ : gmap string RbacEntry).
  induction entries as [|e0 entries IH]; intros m Hnd He; [by apply elem_of_nil in He|].
  rewrite fmap_cons in Hnd. apply NoDup_cons in Hnd as [Hn Hnd]. simpl.
  apply elem_of_cons in He as [->|He]; [|by apply IH].
  assert (∀ m : gmap string RbacEntry, m !! name e0 = Some e0 →
    foldl (λ m e, <[name e := e]> m) m entries !! name e0 = Some e0) as Hgen.
  { clear IH Hnd. induction entries as [|e1 entries IH]; intros m' Hm'; [done|]. simpl.
    rewrite fmap_cons, elem_of_cons in Hn. apply IH; [tauto|].
    rewrite lookup_insert_ne; [done|]. intros Heq. apply Hn. by left. }
  apply Hgen. by rewrite lookup_insert_eq.
Qed.
(** The map of a list that has each entry of [lk] once. *)
Lemma rbac_map_of all (lk : string → option RbacEntry) x : NoDup (name <$> all) →
  (∀ y e, e ∈ all ∧ name e = y ↔ lk y = Some e) → rbac_map all !! x = lk x.
Proof.
  intros Hnd Hlk. destruct (rbac_map all !! x) as [e|] eqn:Hm.
  - symmetry. apply Hlk. by apply RbacFacts.rbac_map_Some.
  - destruct (lk x) as [e|] eqn:Hl; [|done]. apply Hlk in Hl as [He <-].
    by rewrite rbac_map_lookup in Hm.
Qed.
Lemma tc_impl {A} (R R' : A → A → Prop) x y : (∀ a b, R a b → R' a b) → tc R x y → tc R' x y.
Proof. intros Hsub. induction 1; [by apply tc_once, Hsub|]. eapply tc_l; [by apply Hsub|done]. Qed.
Lemma rtc_impl {A} (R R' : A → A → Prop) x y : (∀ a b, R a b → R' a b) → rtc R x y → rtc R' x y.
Proof. intros Hsub. induction 1; [done|]. eapply rtc_l; [by apply Hsub|done]. Qed.
(** A path in the new graph that is not a path of the old one passes the node
    whose edges changed. *)
Lemma tc_changed {A} (R R' : A → A → Prop) (n x y : A) :
  (∀ a b, R' a b → a = n ∨ R a b) → tc R' x y → tc R x y ∨ rtc R' n y.
Proof.
  intros Hsub. induction 1 as [x y Hxy|x y z Hxy Hyz IH].
  - destruct (Hsub x y Hxy) as [->|HR]; [right; by apply rtc_once|left; by apply tc_once].
  - destruct IH as [IH|IH]; [|by right].
    destruct (Hsub x y Hxy) as [->|HR]; [|left; by eapply tc_l].
    right. eapply rtc_l; [exact Hxy|]. by apply tc_rtc.
Qed.

Section graph.
Context {OrgConfig : Type}.
Implicit Types (l : Live OrgConfig).
Definition edge l (o x y : string) : Prop :=
  ∃ e, l_groups l !! (o, x) = Some e ∧ y ∈ inherits e.
Definition valid_fields (e : RbacEntry) : Prop :=
  GROUP_NAME_RE (name e) = true ∧ allow e ≠ [] ∧
  (∀ d, description e = Some d → String.length d ≤ 1024) ∧
  (∀ a, a ∈ allow e → ACTION_FORMAT_RE a = true).
Record groups_ok l : Prop := {
  g_name o n e : l_groups l !! (o, n) = Some e → name e = n;
  g_fields o n e : l_groups l !! (o, n) = Some e → valid_fields e;
  g_defined o x y : edge l o x y → is_Some (l_groups l !! (o, y));
  g_acyclic o x : ¬ tc (edge l o) x x;
}.

Lemma groups_of_elem l o names entries e : groups_ok l → Live.groups_of l o names entries →
  e ∈ entries ↔ l_groups l !! (o, name e) = Some e.
Proof.
  intros Hok (_ & _ & Hall & Hin). split.
  - intros [i Hi]%list_elem_of_lookup. destruct (Forall2_lookup_r _ _ _ _ _ Hall Hi) as (n & _ & Hn).
    by rewrite (g_name l Hok _ _ _ Hn).
  - intros Hl. assert (name e ∈ names) as [i Hi]%list_elem_of_lookup by (apply Hin; by eexists).
    destruct (Forall2_lookup_l _ _ _ _ _ Hall Hi) as (e' & He' & Hl'). rewrite Hl in Hl'.
    simplify_eq. by eapply list_elem_of_lookup_2.
Qed.
Lemma groups_of_names l o names entries : groups_ok l → Live.groups_of l o names entries →
  name <$> entries = names.
Proof.
  intros Hok (_ & _ & Hall & _). induction Hall as [|n e names entries Hn _ IH]; [done|].
  by rewrite fmap_cons, IH, (g_name l Hok _ _ _ Hn).
Qed.
(** The map the resolver builds is the state after the write. *)
Lemma all_after_map l o names entries e x : groups_ok l → Live.groups_of l o names entries →
  rbac_map (GroupHandlers.all_after_with_proposed entries e) !! x =
  l_groups (Live.put_group o e l) !! (o, x).
Proof.
  intros Hok Hg. set (all := GroupHandlers.all_after_with_proposed entries e).
  assert (NoDup (name <$> all)) as Hnd.
  { unfold all, GroupHandlers.all_after_with_proposed. rewrite fmap_app. apply NoDup_app. split_and!.
    - pose proof (groups_of_names _ _ _ _ Hok Hg) as Hn. destruct Hg as (_ & Hnd & _).
      rewrite <-Hn in Hnd. clear -Hnd.
      induction entries as [|e0 entries IH]; [constructor|]. rewrite fmap_cons in Hnd.
      apply NoDup_cons in Hnd as [H0 Hnd]. rewrite filter_cons. case_decide; [|auto].
      rewrite fmap_cons. constructor; [|auto].
      intros (e1 & Heq & [_ He1]%list_elem_of_filter)%list_elem_of_fmap. apply H0. rewrite Heq.
      by apply list_elem_of_fmap_2.
    - intros y (e1 & -> & [Hne _]%list_elem_of_filter)%list_elem_of_fmap. simpl.
      by rewrite list_elem_of_singleton.
    - apply NoDup_singleton. }
  apply (rbac_map_of all (λ x, l_groups (Live.put_group o e l) !! (o, x))); [done|]. intros y e'.
  unfold all, GroupHandlers.all_after_with_proposed. rewrite elem_of_app, list_elem_of_filter,
    list_elem_of_singleton, (groups_of_elem _ _ _ _ _ Hok Hg). simpl. rewrite lookup_insert_Some.
  split.
  - intros [[[Hne Hl]|Heq] <-]; [right|subst; by left]. split; [congruence|done].
  - intros [[Heq <-]|[Hne Hl]]; [split; [by right|congruence]|].
    pose proof (g_name l Hok _ _ _ Hl) as <-. split; [left; split; [congruence|done]|done].
Qed.
Lemma entries_map l o names entries x : groups_ok l → Live.groups_of l o names entries →
  rbac_map entries !! x = l_groups l !! (o, x).
Proof.
  intros Hok Hg. apply (rbac_map_of entries (λ x, l_groups l !! (o, x))).
  - rewrite (groups_of_names _ _ _ _ Hok Hg). apply Hg.
  - intros y e. rewrite (groups_of_elem _ _ _ _ _ Hok Hg). split.
    + by intros [? <-].
    + intros Hl. by pose proof (g_name l Hok _ _ _ Hl) as <-.
Qed.

Lemma put_group_fits l o e : groups_ok l → ApiSpec.validated l o e → groups_ok (Live.put_group o e l).
Proof.
  intros Hok (names & entries & Hg & Hv).
  apply ValidationFacts.validate_rbac_Ok in Hv as (_ & Hn & Ha & Hd & Hact & acts & Hres).
  pose proof (RbacFacts.resolve_Ok _ _ _ Hres) as (_ & Hreach & _).
  assert (∀ x y, parent (rbac_map (GroupHandlers.all_after_with_proposed entries e)) x y ↔
    edge (Live.put_group o e l) o x y) as Hpar.
  { intros x y. unfold parent, edge. by setoid_rewrite (all_after_map l o names entries e x Hok Hg). }
  set (P := parent _) in *.
  assert (∀ a b, edge (Live.put_group o e l) o a b → a = name e ∨ edge l o a b) as Hsub.
  { intros a b (e' & Hl & Hb). simpl in Hl. apply lookup_insert_Some in Hl as [[[= <-] _]|[_ Hl]];
      [by left|right; by exists e']. }
  split.
  - intros o' n e' Hl. simpl in Hl. apply lookup_insert_Some in Hl as [[[= _ <-] <-]|[_ Hl]];
      [done|by eapply g_name].
  - intros o' n e' Hl. simpl in Hl. apply lookup_insert_Some in Hl as [[_ <-]|[_ Hl]];
      [done|by eapply g_fields].
  - intros o' x y He. assert (is_Some (l_groups l !! (o', y)) →
      is_Some (l_groups (Live.put_group o e l) !! (o', y))) as Hup.
    { intros Hy. simpl. rewrite lookup_insert_is_Some. destruct (decide ((o, name e) = (o', y))); auto. }
    destruct (decide (o' = o)) as [->|Hne].
    + destruct (Hsub x y He) as [->|Hl]; [|by eapply Hup, g_defined].
      rewrite <-(all_after_map l o names entries e y Hok Hg). apply Hreach.
      by apply rtc_once, Hpar.
    + apply Hup. destruct He as (e' & Hl & Hy). simpl in Hl. rewrite lookup_insert_ne in Hl by congruence.
      apply (g_defined l Hok o' x y). by exists e'.
  - intros o' x Hc. destruct (decide (o' = o)) as [->|Hne].
    + destruct (tc_changed (edge l o) _ (name e) x x Hsub Hc) as [Hl|Hr]; [by eapply g_acyclic|].
      apply (Hreach x); [eapply rtc_impl, Hr|eapply tc_impl, Hc]; apply Hpar.
    + eapply (g_acyclic l Hok o' x), tc_impl, Hc. intros a b (e' & Hl & Hb). simpl in Hl.
      rewrite lookup_insert_ne in Hl by congruence. by exists e'.
Qed.
Lemma drop_keeps l o n : groups_ok l →
  (∀ m e, l_groups l !! (o, m) = Some e → n ∉ inherits e) → groups_ok (Live.delete_group o n l).
Proof.
  intros Hok Hn.
  assert (∀ o' x y, edge (Live.delete_group o n l) o' x y → edge l o' x y) as Hsub.
  { intros o' x y (e & Hl & Hy). simpl in Hl. simpl in Hl. apply lookup_delete_Some in Hl as [_ Hl]. by exists e. }
  split.
  - intros o' m e Hl. simpl in Hl. apply lookup_delete_Some in Hl as [_ Hl]. by eapply g_name.
  - intros o' m e Hl. simpl in Hl. apply lookup_delete_Some in Hl as [_ Hl]. by eapply g_fields.
  - intros o' x y He. destruct (g_defined l Hok o' x y (Hsub _ _ _ He)) as [e' He'].
    exists e'. simpl. apply lookup_delete_Some. split; [|done]. intros [= <- <-].
    destruct He as (e & Hl & Hy). simpl in Hl. apply lookup_delete_Some in Hl as [_ Hl].
    exact (Hn _ _ Hl Hy).
  - intros o' x Hc. eapply (g_acyclic l Hok o' x), tc_impl, Hc. apply Hsub.
Qed.

(** Other changes leave the groups alone. *)
Lemma groups_ok_same l l' : l_groups l' = l_groups l → groups_ok l → groups_ok l'.
Proof.
  intros Heq [H1 H2 H3 H4].
  assert (∀ o x y, edge l' o x y ↔ edge l o x y) as He by (intros; unfold edge; by rewrite Heq).
  split; rewrite ?Heq; [done..| |].
  - intros o x y Hxy%He. by eapply H3.
  - intros o x Hc. eapply (H4 o x), tc_impl, Hc. apply He.
Qed.
(** Every group of an organization resolves and compiles. *)
Lemma groups_ok_usable l o names entries e ns : groups_ok l → Live.groups_of l o names entries →
  e ∈ entries → (∃ acts, resolve_inherits entries (name e) = Ok acts) ∧
  compile_rbac_to_cedar e tenant_default ns = Ok (statement e tenant_default ns).
Proof.
  intros Hok Hg He. pose proof (proj1 (groups_of_elem _ _ _ _ _ Hok Hg) He) as Hl. split.
  - unfold resolve_inherits. set (m := rbac_map entries).
    assert (∀ x, m !! x = l_groups l !! (o, x)) as Hm by (intros; by eapply entries_map).
    rewrite bool_decide_eq_true_2 by (rewrite Hm, Hl; by eexists). cbn [negb].
    pose proof (RbacFacts.walker_inv_new m (name e)) as Hi.
    pose proof (RbacFacts.on_path_new m (name e)) as Hp.
    destruct (collect _ m _ (name e)) as [w|err|why] eqn:Hc; [by eexists|exfalso..].
    + assert (∀ x y, parent m x y → edge l o x y) as Hpar.
      { intros x y (e' & He' & Hy). rewrite Hm in He'. by exists e'. }
      destruct (RbacFacts.collect_Err _ _ _ _ _ _ Hi Hp Hc) as (x & Hx & [[_ Hcyc]|[_ Hnone]]).
      * by eapply (g_acyclic l Hok o x), tc_impl, Hcyc.
      * rewrite Hm in Hnone. apply rtc_inv_r in Hx as [Heq|(y & _ & Hy)]; [by rewrite <-Heq, Hl in Hnone|].
        apply Hpar, (g_defined l Hok) in Hy. rewrite Hnone in Hy. by destruct Hy.
    + eapply (RbacFacts.collect_not_Stuck m (name e)), Hc; [done..|lia].
  - destruct (g_fields l Hok _ _ _ Hl) as (Hn & Ha & _ & Hacts).
    apply CompileFacts.compile_Ok. split; [|done]. split; [|done|..].
    + apply ValidationFacts.name_plain in Hn as [??]. by apply ValidationFacts.plain_valid.
    + intros a Hin. apply Hacts, ValidationFacts.action_plain in Hin as [??].
      by apply ValidationFacts.plain_valid.
    + intros _. split; by apply ValidationFacts.plain_valid.
Qed.
End graph.
End GroupFacts.

(** * Sequences of requests *)
Module ApiRuns.
Import Api ApiSpec GroupFacts.
Section serve.
Context `{HttpLib, CpLib OrgConfig} {S : Type}.
Context `{OrgStoreI S OrgConfig, ModelEventStoreI S OrgConfig}.
Fixpoint serve (reqs : list (Shell * HeaderMap * ApiRequest S OrgConfig))
    : M S Empty_set (list Response) :=
  match reqs with
  | [] => mret []
  | (sh, hs, req) :: reqs =>
      resp ← handle sh hs req;
      resps ← serve reqs;
      mret (resp :: resps)
  end.
End serve.

Section runs.
Context {S OrgConfig : Type} `{HttpLibLaws, CpLibLaws OrgConfig, StoreView S OrgConfig}.
Context `{OrgStoreI S OrgConfig, ModelEventStoreI S OrgConfig}.
Context `{!OrgStoreLaws S OrgConfig, !ModelEventStoreLaws S OrgConfig}.
Implicit Types (s : S) (l : Live OrgConfig) (req : ApiRequest S OrgConfig).

(** What the shell hands over: a fresh id, and key material that was made. *)
Definition admissible (r : Shell * HeaderMap * ApiRequest S OrgConfig) : Prop :=
  let '(sh, hs, req) := r in
  EventStore.ulid (stamp sh) ≠ "" ∧ returns (material sh) ∧ quiet req.
Record api_ok s : Prop := {
  ok_wf : store_wf s;
  ok_keyed : keyed (live s);
  ok_groups : groups_ok (live s);
}.
Lemma api_ok_unchanged s s' : api_ok s → unchanged s s' → api_ok s'.
Proof. intros [H1' H2' H3'] Hu. split; [apply Hu|by rewrite (u_live Hu)..]. Qed.
(** One verb's edge of the lifecycle. *)
Definition verb_edge (a b : OrgStatus.t) : Prop :=
  ∃ v, LifecycleVerb.valid_from v a = true ∧ b = LifecycleVerb.target v.
(** The organizations on the log persist, keep their identity and creation
    time, and their status moves along the verbs. *)
Definition lives_on l l' : Prop := ∀ o r, o ∈ l_logged l → l_orgs l !! o = Some r →
  o ∈ l_logged l' ∧ ∃ r', l_orgs l' !! o = Some r' ∧
    rtc verb_edge (Organization.status (EventStore.org r)) (Organization.status (EventStore.org r')) ∧
    Organization.created_at (EventStore.org r') = Organization.created_at (EventStore.org r).

Lemma lives_on_refl l : lives_on l l.
Proof. intros o r Ho Hr. split; [done|]. by exists r. Qed.
Lemma lives_on_trans l1 l2 l3 : lives_on l1 l2 → lives_on l2 l3 → lives_on l1 l3.
Proof.
  intros H12 H23 o r Ho Hr. destruct (H12 o r Ho Hr) as (Ho2 & r2 & Hr2 & Hs2 & Hc2).
  destruct (H23 o r2 Ho2 Hr2) as (Ho3 & r3 & Hr3 & Hs3 & Hc3). split; [done|].
  exists r3. split_and!; [done|by etrans|by rewrite Hc3].
Qed.
(** A change to a record that keeps its id, its creation time, and moves its
    status along at most one verb. *)
Lemma lives_on_put l r0 r : keyed l → l_orgs l !! EventStore.record_id r0 = Some r0 →
  EventStore.record_id r = EventStore.record_id r0 →
  rtc verb_edge (Organization.status (EventStore.org r0)) (Organization.status (EventStore.org r)) →
  Organization.created_at (EventStore.org r) = Organization.created_at (EventStore.org r0) →
  lives_on l (Live.put_org r l).
Proof.
  intros Hk Hr0 Hid Hs Hc o r1 Ho Hr1. simpl. rewrite Hid. split; [set_solver|].
  destruct (decide (EventStore.record_id r0 = o)) as [<-|Hne].
  - rewrite Hr0 in Hr1. injection Hr1 as <-. exists r. by rewrite lookup_insert_eq.
  - exists r1. by rewrite lookup_insert_ne.
Qed.
Lemma lives_on_same l l' : l_orgs l' = l_orgs l → l_logged l' = l_logged l → lives_on l l'.
Proof. intros Ho Hl o r. rewrite Ho, Hl. intros ??. split; [done|]. by exists r. Qed.

Lemma transition_same org target now org' : Organization.transition_to org target now = Ok org' →
  Organization.org_id org' = Organization.org_id org ∧ Organization.status org' = target ∧
  Organization.created_at org' = Organization.created_at org.
Proof. unfold Organization.transition_to. case_match; [done|]. by intros [= <-]. Qed.
Lemma allowed_lives_on sh hs req l rev c code :
  keyed l → allowed sh hs req l rev c code → lives_on l (apply c l).
Proof.
  intros Hk Hall. destruct c; try by apply lives_on_same. destruct req; try done; simpl in Hall.
  - destruct Hall as (_ & o & Ho & Hlog & Horg & _). intros o' r' Hl' Hr'. simpl.
    unfold EventStore.record_id. rewrite Horg. simpl. split; [set_solver|].
    exists r'. rewrite lookup_insert_ne; [done|]. intros Heq. apply Hlog. by rewrite <-Heq in Hl'.
  - destruct Hall as (_ & _ & r0 & Hr0 & Horg & _). pose proof (Hk _ _ Hr0) as Hid. subst.
    apply (lives_on_put l r0); [done..| | |].
    + unfold EventStore.record_id. rewrite Horg. by destruct (OrgHandlers.update_name req).
    + rewrite Horg. by destruct (OrgHandlers.update_name req).
    + rewrite Horg. by destruct (OrgHandlers.update_name req).
  - destruct Hall as (_ & r0 & Hr0 & Hv & Ht & _). pose proof (Hk _ _ Hr0) as Hid. subst.
    apply transition_same in Ht as (Hoid & Hst & Hc). apply (lives_on_put l r0); [done..| | |done].
    + unfold EventStore.record_id. by rewrite Hoid.
    + apply rtc_once. by exists verb.
Qed.
Lemma allowed_keyed sh hs req l rev c code : keyed l → allowed sh hs req l rev c code → keyed (apply c l).
Proof.
  intros Hk _ o r. destruct c; simpl; try apply Hk. rewrite lookup_insert_Some.
  intros [[<- ->]|[_ Hr]]; [done|by apply Hk].
Qed.
Lemma allowed_groups sh hs req l rev c code :
  groups_ok l → allowed sh hs req l rev c code → groups_ok (apply c l).
Proof.
  intros Hok Hall. destruct c; try by apply (groups_ok_same l).
  - destruct req; try done; simpl in Hall; destruct_and!; subst; by apply put_group_fits.
  - destruct req; try done; simpl in Hall. destruct Hall as (-> & -> & _ & _ & _ & _ & Hn).
    by apply drop_keeps.
Qed.

Lemma step_ok sh hs req s : api_ok s → admissible (sh, hs, req) →
  ∃ s' resp, handle sh hs req s = (s', Ok resp) ∧ outcome sh hs req s resp s' ∧
    api_ok s' ∧ lives_on (live s) (live s').
Proof.
  intros [Hs Hk Hg] (Hst & Hmat & Hq).
  destruct (ApiRules.wp_finish _ _ _ (ApiFacts.handler_ok sh hs req s Hs Hk Hst Hmat Hq))
    as (s' & resp & Hrun & Hout). exists s', resp. split_and!; [done..| |].
  - destruct Hout as [[Hu _]|(c & r & Hall & _ & Ha & _)].
    + split; [apply Hu|by rewrite (u_live Hu)..].
    + split; [apply Ha|rewrite (a_live Ha)..]; [by eapply allowed_keyed|by eapply allowed_groups].
  - destruct Hout as [[Hu _]|(c & r & Hall & _ & Ha & _)].
    + rewrite (u_live Hu). apply lives_on_refl.
    + rewrite (a_live Ha). by eapply allowed_lives_on.
Qed.
Lemma serve_ok reqs : ∀ s, api_ok s → Forall admissible reqs →
  ∃ s' resps, serve reqs s = (s', Ok resps) ∧ length resps = length reqs ∧ api_ok s' ∧
    lives_on (live s) (live s').
Proof.
  induction reqs as [|[[sh hs] req] reqs IH]; intros s Hs Hreqs.
  { exists s, []. split_and!; [done..|apply lives_on_refl]. }
  apply Forall_cons in Hreqs as [Hr Hreqs].
  destruct (step_ok sh hs req s Hs Hr) as (s1 & resp & Hrun & _ & Hs1 & Hl1).
  destruct (IH s1 Hs1 Hreqs) as (s2 & resps & Hserve & Hlen & Hs2 & Hl2).
  exists s2, (resp :: resps). split_and!; [|by simpl; rewrite Hlen|done|by eapply lives_on_trans].
  simpl. unfold mbind at 1, M_bind at 1. rewrite Hrun. unfold mbind, M_bind. by rewrite Hserve.
Qed.

(** A conditional write that changed the store found its revision. *)
Lemma guarded_change sh hs req o x s s' resp :
  api_ok s → admissible (sh, hs, req) → guarded_org req = Some o →
  parse_if_revision (header_str IF_REVISION_HEADER hs) = Ok (Some x) →
  handle sh hs req s = (s', Ok resp) →
  unchanged s s' ∨ x = revision_of s o ∧ revision_of s' o = Revision.next x ∧ api_ok s'.
Proof.
  intros Hs Hadm Hgo Hx Hrun.
  destruct (step_ok sh hs req s Hs Hadm) as (s1 & resp1 & Hrun1 & Hout & Hs1 & _).
  rewrite Hrun in Hrun1. injection Hrun1 as <- <-.
  destruct Hout as [[Hu _]|(c & r & Hall & Hw & Ha & _)]; [by left|right].
  assert (subject c = o) as Hsub by (destruct req; simplify_eq/=; congruence). rewrite Hsub in *.
  assert (revision_guard hs (revision_of s o)) as (y & Hy & Hyx)
    by (destruct req, c; try done; simpl in Hall; by destruct_and!).
  rewrite Hx in Hy. injection Hy as <-. pose proof (Hyx x eq_refl) as ->. split_and!; [done| |done].
  rewrite (a_revision Ha), decide_True by done. apply Ha.
Qed.
Lemma next_ne (r : Revision.t) : Revision.next r ≠ r.
Proof.
  intros Heq%(f_equal Revision.value). simpl in Heq.
  destruct (decide (Revision.value r + 1 < 2 ^ 64)%N).
  - rewrite N.mod_small in Heq by done. lia.
  - pose proof (N.mod_lt (Revision.value r + 1) (2 ^ 64)). assert (Revision.value r + 1 = 2 ^ 64)%N as Hv by lia.
    rewrite Hv, N.Div0.mod_same in Heq. lia.
Qed.
End runs.
End ApiRuns.

Section theorems.
Context {S OrgConfig : Type} `{HttpLibLaws, CpLibLaws OrgConfig, StoreView S OrgConfig}.
Context `{OrgStoreI S OrgConfig, ModelEventStoreI S OrgConfig}.
Context `{!OrgStoreLaws S OrgConfig, !ModelEventStoreLaws S OrgConfig}.

(** C2: The API refines its specification, over every store that keeps the two
    traits' promises.  Each request is answered, with no panic.  Either the
    store is unchanged, and a write answered with success reports the current
    revision; or exactly one event was appended to the log of the organization
    the request names, with exactly the change and the status the specification
    allows for that request in that state, and the response carries the
    revision of the event.  In particular an error response changes nothing. *)
Theorem api_refines sh hs (req : Api.ApiRequest S OrgConfig) (s : S) :
  store_wf s → ApiSpec.keyed (live s) → EventStore.ulid (stamp sh) ≠ "" →
  returns (material sh) → ApiSpec.quiet req →
  ∃ s' resp, Api.handle sh hs req s = (s', Ok resp) ∧ ApiSpec.outcome sh hs req s resp s' ∧
    ((400 ≤ status resp)%N → unchanged s s').
Proof.
  intros Hs Hk Hst Hmat Hq.
  destruct (ApiRules.wp_finish _ _ _ (ApiFacts.handler_ok sh hs req s Hs Hk Hst Hmat Hq))
    as (s' & resp & Hrun & Hout).
  exists s', resp. split_and!; [done..|]. intros Hc.
  destruct Hout as [[Hu _]|(c & r & Hall & _)]; [done|]. exfalso. revert Hall.
  destruct req, c; simpl; try done; intros; destruct_and?; repeat case_bool_decide; lia.
Qed.

(** C6: The groups an API client can store are always usable.  Whatever sequence of
    requests is served, every request is answered, and afterwards, in every
    organization, every stored group is under its own name and has valid fields,
    every group it inherits is stored, no group inherits itself, inheritance
    resolves and the group compiles to a Cedar permit. *)
Theorem served_groups_usable reqs (s : S) :
  ApiRuns.api_ok s → Forall ApiRuns.admissible reqs →
  ∃ s' resps, ApiRuns.serve reqs s = (s', Ok resps) ∧ length resps = length reqs ∧
    GroupFacts.groups_ok (live s') ∧
    ∀ o names entries e ns, Live.groups_of (live s') o names entries → e ∈ entries →
      (∃ acts, Rbac.resolve_inherits entries (Rbac.name e) = Ok acts) ∧
      Rbac.compile_rbac_to_cedar e Rbac.tenant_default ns =
        Ok (Rbac.statement e Rbac.tenant_default ns).
Proof.
  intros Hs Hreqs. destruct (ApiRuns.serve_ok reqs s Hs Hreqs) as (s' & resps & Hrun & Hlen & Hs' & _).
  exists s', resps. split_and!; [done..|apply Hs'|]. intros o names entries e ns.
  apply GroupFacts.groups_ok_usable, Hs'.
Qed.

(** C12: The lifecycle over the API.  Whatever sequence of requests is served, an
    organization on the event log stays there with its creation time, and its
    status moves only along activate (from Draft), suspend (from Active) and
    restore (from Suspended); an organization that is Deleting or Deleted never
    changes status. *)
Theorem served_status_lifecycle reqs (s : S) o r :
  ApiRuns.api_ok s → Forall ApiRuns.admissible reqs →
  o ∈ l_logged (live s) → l_orgs (live s) !! o = Some r →
  ∃ s' resps r', ApiRuns.serve reqs s = (s', Ok resps) ∧ o ∈ l_logged (live s') ∧
    l_orgs (live s') !! o = Some r' ∧
    Organization.created_at (EventStore.org r') = Organization.created_at (EventStore.org r) ∧
    let from := Organization.status (EventStore.org r) in
    let to := Organization.status (EventStore.org r') in
    rtc ApiRuns.verb_edge from to ∧
    (from = OrgStatus.Deleting ∨ from = OrgStatus.Deleted → to = from) ∧
    (to = OrgStatus.Draft → from = OrgStatus.Draft).
Proof.
  intros Hs Hreqs Ho Hr.
  destruct (ApiRuns.serve_ok reqs s Hs Hreqs) as (s' & resps & Hrun & _ & _ & Hl).
  destruct (Hl o r Ho Hr) as (Ho' & r' & Hr' & Hst & Hc). exists s', resps, r'. cbv zeta.
  split_and!; [done..| |].
  - intros Hfrom. apply rtc_inv in Hst as [->|(b & (v & Hv & _) & _)]; [done|].
    destruct Hfrom as [Hf|Hf]; rewrite Hf in Hv; by destruct v.
  - intros Hto. apply rtc_inv_r in Hst as [->|(b & _ & (v & _ & Hv))]; [done|].
    rewrite Hto in Hv. by destruct v.
Qed.

(** C13: No lost updates.  Of two requests that carry the same revision in
    [X-Fg-If-Revision] and address the same organization, at most one changes
    the store: the second finds the log one revision further. *)
Theorem conditional_writes_exclusive sh1 hs1 req1 sh2 hs2 req2 o x (s s1 s2 : S) resp1 resp2 :
  ApiRuns.api_ok s → ApiRuns.admissible (sh1, hs1, req1) → ApiRuns.admissible (sh2, hs2, req2) →
  ApiSpec.guarded_org req1 = Some o → ApiSpec.guarded_org req2 = Some o →
  parse_if_revision (header_str IF_REVISION_HEADER hs1) = Ok (Some x) →
  parse_if_revision (header_str IF_REVISION_HEADER hs2) = Ok (Some x) →
  Api.handle sh1 hs1 req1 s = (s1, Ok resp1) → Api.handle sh2 hs2 req2 s1 = (s2, Ok resp2) →
  unchanged s s1 ∨ unchanged s1 s2.
Proof.
  intros Hs Ha1 Ha2 Hg1 Hg2 Hx1 Hx2 Hr1 Hr2.
  destruct (ApiRuns.guarded_change _ _ _ _ _ _ _ _ Hs Ha1 Hg1 Hx1 Hr1) as [Hu|(_ & Hn & Hs1)]; [by left|].
  destruct (ApiRuns.guarded_change _ _ _ _ _ _ _ _ Hs1 Ha2 Hg2 Hx2 Hr2) as [Hu|(Heq & _)]; [by right|].
  rewrite Hn in Heq. by destruct (ApiRuns.next_ne x).
Qed.

(** C14: The watch of the event feed ends.  With rounds of at least one tick each,
    at most five are made, whatever other requests do meanwhile, and none
    starts past the deadline.  The answer is the page of the log as it stands
    then, or the empty page when the log has still not moved past the cursor
    and the deadline has passed. *)
Theorem watch_settles (ticks : list (EventHandlers.Tick S)) o after limit (s : S) :
  ApiSpec.fair ticks → ApiRuns.api_ok s →
  Forall (λ t, ∀ s, ApiRuns.api_ok s → ApiRuns.api_ok (EventHandlers.others t s)) ticks →
  ∃ k s' r, EventHandlers.watch_for_events o after limit ticks s = (s', r) ∧
    EventHandlers.watch_for_events o after limit (take k ticks) s = (s', r) ∧
    1 ≤ k ≤ 5 ∧ (ApiFacts.waited (take (k - 1) ticks) < EventHandlers.WATCH_DEADLINE)%N ∧
    returns r ∧
    ∀ es, r = Ok es → ApiFacts.watched o after limit (ApiFacts.waited (take k ticks)) s' es.
Proof.
  intros [Hlen Hel] Hs Hot.
  destruct (ApiFacts.watch_loop_spec ApiRuns.api_ok ApiRuns.ok_wf ApiRuns.api_ok_unchanged o after
    limit ticks 0 s)
    as (k & s' & r & Hr1 & Hr2 & Hk & Hw & _ & Hret & Hout); [done..| |].
  { unfold EventHandlers.WATCH_DEADLINE, EventHandlers.WATCH_TICK. lia. }
  exists k, s', r. split_and!; [done..| | |done|done].
  - destruct (decide (k ≤ 5)) as [|Hgt]; [done|]. exfalso.
    pose proof (ApiFacts.waited_ge (take (k - 1) ticks) (Forall_take _ _ _ Hel)) as Hge.
    rewrite length_take in Hge. unfold EventHandlers.WATCH_TICK, EventHandlers.WATCH_DEADLINE in *. lia.
  - done.
Qed.
End theorems.

(** * The development server *)

(** [memory_router]'s first state: records from the file, under their ids. *)
Lemma start_ok `{CpLib OrgConfig} (orgs : gmap OrganizationId EventStore.OrgRecord) :
  (∀ x r, orgs !! x = Some r → Organization.org_id (EventStore.org r) = x) →
  ApiRuns.api_ok (OrgConfig:=OrgConfig) (Mirrored.start orgs).
Proof.
  intros Hid. split.
  - apply MirrorFacts.start_mirrors.
  - intros o r Hr. simpl in Hr. apply lookup_kmap_Some in Hr as (x & -> & Hx); [|apply _].
    unfold EventStore.record_id. by rewrite (Hid x r Hx).
  - split; simpl.
    + intros o n e. by rewrite lookup_empty.
    + intros o n e. by rewrite lookup_empty.
    + intros o x y (e & He & _). simpl in He. by rewrite lookup_empty in He.
    + intros o x Hc. destruct Hc as [x y (e & He & _)|x y z (e & He & _) _]; simpl in He;
        by rewrite lookup_empty in He.
Qed.

Module ApiSample.
Import Api.
#[export] Instance http : HttpLib := {| header_to_str := Some; header_value_ok := λ _, true |}.
#[export] Instance http_laws : HttpLibLaws.
Proof. done. Qed.
(** Configurations are numbers; values serialize to what identifies them. *)
#[export] Instance cp : CpLib N := {|
  to_vec _ := ""; sha256_hex s := s; sign_b64 s := s;
  org_value o := Ok (Json.object [("org_id", str (Id.as_str (Organization.org_id o)));
                                  ("name", str (Organization.name o));
                                  ("status", str (OrgStatus.to_string (Organization.status o)))]);
  config_value c := Ok (num c);
  keys_value ks := Ok (strs (SigningKey.key_id <$> ks));
  group_value g := Ok (GroupHandlers.group_resource_from g "");
  envelope_value e := Ok (num (Revision.value (Envelope.seq e)));
  config_text c := Ok (pretty c);
  group_text g := Ok (Rbac.name g);
  xxh64 s := N.of_nat (String.length s);
  to_rfc3339 _ := "2026-01-01T00:00:00+00:00";
  verifying_key_pem := Ok "pem";
|}.
#[export] Instance cp_laws : CpLibLaws N.
Proof. split; try (intros; by eexists). done. Qed.

Definition shell (id : string) : Shell :=
  {| now := 0%Z; stamp := {| EventStore.ulid := id; EventStore.occurred_at := "t" |};
     material := Ok {| gk_key_id := "k"; gk_private_key_pem := "private"; gk_public_key_pem := "public";
                       gk_created_at := 0%Z |};
     identity := None |}.
Definition request : Type := Shell * HeaderMap * ApiRequest (Mirrored.t N) N.
Definition group (name : string) (inherits : list string) : GroupHandlers.CreateGroupRequest :=
  {| GroupHandlers.c_name := name; GroupHandlers.c_description := None;
     GroupHandlers.c_inherits := inherits; GroupHandlers.c_allow := ["ns:doc:read"];
     GroupHandlers.c_tenant_scoped := true |}.
Definition acme : OrganizationId := Id.mk (Segment.mk "acme").
Definition create_acme : ApiRequest (Mirrored.t N) N := CreateOrg
  {| OrgHandlers.create_org_id := "acme"; OrgHandlers.create_name := "Acme";
     OrgHandlers.create_config := Some 7%N |}.
Definition active_acme : EventStore.OrgRecord (OrgConfig:=N) :=
  EventStore.Build_OrgRecord (Organization.new acme "Acme" OrgStatus.Active 0%Z)
    (Some (OrgStore.configured_compute 7%N)).
(** A group, a group that inherits it, and the cycle that is refused. *)
Definition script : list request :=
  [(shell "e1", [], create_acme);
   (shell "e2", [], CreateGroup "acme" (group "viewer" []));
   (shell "e3", [("x-fg-if-revision", "2")], CreateGroup "acme" (group "editor" ["viewer"]));
   (shell "e4", [], UpdateGroup "acme" "viewer"
      {| GroupHandlers.u_name := None; GroupHandlers.u_description := None;
         GroupHandlers.u_inherits := ["editor"]; GroupHandlers.u_allow := ["ns:doc:read"];
         GroupHandlers.u_tenant_scoped := true |});
   (shell "e5", [], DeleteGroup "acme" "viewer");
   (shell "e6", [], Transition LifecycleVerb.Activate "acme")].
Definition codes {A} (out : A * result Empty_set (list Response)) : list N :=
  match out.2 with Ok rs => status <$> rs | _ => [] end.
End ApiSample.

Section witnesses.
Import ApiSample.

Lemma script_admissible : Forall ApiRuns.admissible script.
Proof. by repeat constructor. Qed.
Lemma empty_ok : ApiRuns.api_ok (OrgConfig:=N) (Mirrored.start ∅).
Proof. apply start_ok. intros x r. by rewrite lookup_empty. Qed.

(** Witness: the first organization of an empty store. *)
Lemma api_refines_witness : ∃ s' resp,
  Api.handle (shell "e1") [] create_acme (Mirrored.start ∅) = (s', Ok resp) ∧
  ApiSpec.outcome (shell "e1") [] create_acme (Mirrored.start ∅) resp s' ∧ status resp = 201%N.
Proof.
  destruct (api_refines (shell "e1") [] create_acme (Mirrored.start ∅)) as (s' & resp & Hrun & Hout & _).
  - apply empty_ok.
  - apply empty_ok.
  - done.
  - done.
  - done.
  - exists s', resp. split_and!; [exact Hrun|exact Hout|]. vm_compute in Hrun.
    injection Hrun as _ <-. reflexivity.
Defined.

(** Witness: two groups, a refused cycle and a refused deletion. *)
Lemma served_groups_usable_witness :
  codes (ApiRuns.serve script (Mirrored.start ∅)) = [201; 201; 201; 422; 409; 200]%N ∧
  ∃ s' resps, ApiRuns.serve script (Mirrored.start ∅) = (s', Ok resps) ∧
    GroupFacts.groups_ok (OrgConfig:=N) (live s').
Proof.
  split; [vm_compute; reflexivity|].
  destruct (served_groups_usable script (Mirrored.start ∅) empty_ok script_admissible)
    as (s' & resps & Hrun & _ & Hok & _).
  exists s', resps. split; [exact Hrun|exact Hok].
Defined.

Definition after_create : Mirrored.t N := (Api.handle (shell "e1") [] create_acme (Mirrored.start ∅)).1.
Lemma after_create_ok : ApiRuns.api_ok after_create.
Proof.
  destruct (ApiRuns.step_ok (shell "e1") [] create_acme (Mirrored.start ∅) empty_ok)
    as (s' & resp & Hrun & _ & Hok & _); [done|].
  unfold after_create. by rewrite Hrun.
Qed.
(** Witness: activate the organization just created. *)
Lemma served_status_lifecycle_witness : ∃ r s' resps r',
  l_orgs (live after_create) !! "acme" = Some r ∧
  ApiRuns.serve (drop 5 script) after_create = (s', Ok resps) ∧
  l_orgs (live s') !! "acme" = Some r' ∧
  rtc ApiRuns.verb_edge (Organization.status (EventStore.org r))
    (Organization.status (EventStore.org r')).
Proof.
  assert (∃ r, l_orgs (live after_create) !! "acme" = Some r) as [r Hr]
    by (eexists; vm_compute; reflexivity).
  destruct (served_status_lifecycle (drop 5 script) after_create "acme" r after_create_ok)
    as (s' & resps & r' & Hrun & _ & Hr' & _ & Hst & _).
  - repeat constructor; done.
  - apply (bool_decide_unpack _). vm_compute. exact I.
  - exact Hr.
  - exists r, s', resps, r'. split_and!; assumption.
Defined.

(** Witness: two renames from revision 1. *)
Definition rename (name : string) : Api.ApiRequest (Mirrored.t N) N := Api.UpdateOrg "acme"
  {| OrgHandlers.update_name := Some name; OrgHandlers.update_config := None |}.
Definition from_1 : HeaderMap := [("x-fg-if-revision", "1")].
Definition renamed : Mirrored.t N := (Api.handle (shell "e2") from_1 (rename "A") after_create).1.
Definition renamed_twice : Mirrored.t N := (Api.handle (shell "e3") from_1 (rename "B") renamed).1.
Lemma conditional_writes_exclusive_witness :
  unchanged after_create renamed ∨ unchanged renamed renamed_twice.
Proof.
  assert (∃ resp1, Api.handle (shell "e2") from_1 (rename "A") after_create = (renamed, Ok resp1))
    as [resp1 Hr1] by (eexists; vm_compute; reflexivity).
  assert (∃ resp2, Api.handle (shell "e3") from_1 (rename "B") renamed = (renamed_twice, Ok resp2))
    as [resp2 Hr2] by (eexists; vm_compute; reflexivity).
  eapply (conditional_writes_exclusive (shell "e2") from_1 (rename "A") (shell "e3") from_1 (rename "B")
            "acme" (Revision.new 1) _ _ _ _ _ after_create_ok);
    [| |reflexivity|reflexivity| | |exact Hr1|exact Hr2].
  - split; [discriminate|]. split; [discriminate|exact I].
  - split; [discriminate|]. split; [discriminate|exact I].
  - vm_compute. reflexivity.
  - vm_compute. reflexivity.
Defined.

(** Witness: somebody activates the organization during the second round. *)
Definition activate (s : Mirrored.t N) : Mirrored.t N :=
  (Api.handle (shell "e2") [] (Api.Transition LifecycleVerb.Activate "acme") s).1.
Definition rounds : list (EventHandlers.Tick (Mirrored.t N)) :=
  {| EventHandlers.others := id; EventHandlers.elapsed := 201 |} ::
  {| EventHandlers.others := activate; EventHandlers.elapsed := 203 |} ::
  replicate 3 {| EventHandlers.others := id; EventHandlers.elapsed := 200 |}.
Lemma watch_settles_witness :
  ∃ k s' r, EventHandlers.watch_for_events "acme" (Revision.new 1) 10 rounds after_create = (s', r) ∧
    1 ≤ k ≤ 5 ∧ (∃ es, r = Ok es ∧ Envelope.seq <$> es = [Revision.new 2]) ∧
    ∀ es, r = Ok es → ApiFacts.watched "acme" (Revision.new 1) 10
                        (ApiFacts.waited (take k rounds)) s' es.
Proof.
  destruct (watch_settles rounds "acme" (Revision.new 1) 10 after_create)
    as (k & s' & r & Hrun & _ & Hk & _ & _ & Hout).
  - split; [simpl; lia|]. by repeat constructor.
  - apply after_create_ok.
  - assert (∀ s, ApiRuns.api_ok s → ApiRuns.api_ok (activate s)) as Hact.
    { intros s Hs. destruct (ApiRuns.step_ok (shell "e2") [] (Api.Transition LifecycleVerb.Activate "acme")
        s Hs) as (s1 & resp & Hr & _ & Hok & _); [done|]. unfold activate. by rewrite Hr. }
    repeat (apply Forall_cons; split; [first [exact Hact|done]|]). by apply Forall_nil.
  - exists k, s', r. split_and!; [exact Hrun|lia|lia| |exact Hout].
    vm_compute in Hrun. injection Hrun as _ <-. eexists. split; reflexivity.
Defined.

(** The development server loads organizations into the read model only: its
    event store does not know them.  Creating such an organization again is
    answered 201 and resets it to Draft without its configuration; making a key
    for it is answered 404, although reading it is answered 200. *)
Theorem memory_mode_create_resets :
  let s := Mirrored.start {[acme := active_acme]} in
  let again := Api.CreateOrg {| OrgHandlers.create_org_id := "acme"; OrgHandlers.create_name := "Acme";
                                OrgHandlers.create_config := None |} in
  let code (req : Api.ApiRequest (Mirrored.t N) N) :=
    match (Api.handle (shell "e1") [] req s).2 with Ok resp => status resp | _ => 0%N end in
  let after := (Api.handle (shell "e1") [] again s).1 in
  code (Api.GetOrg "acme") = 200%N ∧ code (Api.GenerateKey "acme") = 404%N ∧
  code again = 201%N ∧
  (Organization.status ∘ EventStore.org) <$> (l_orgs (live s) !! "acme") = Some OrgStatus.Active ∧
  (λ r, (Organization.status (EventStore.org r), EventStore.config r)) <$>
    (l_orgs (live after) !! "acme") = Some (OrgStatus.Draft, None).
Proof. split_and!; vm_compute; reflexivity. Qed.
End witnesses.
