(* ===== verification/Http.v ===== *)
(** The HTTP adapter of [crates/http]: methods ([method.rs]), route and
    public-route matching ([route.rs], [public.rs]).  The
    radix-trie router is a library: a class states what the code relies on,
    and the matchers are proved against it. *)

From S2P Require Import Prelude RustStr Decimal Ident Event Action Features Authn.
From stdpp Require Import pretty.

(** * Errors *)
Module ValidationError.
Inductive kind :=
| DuplicateRoute | UndefinedFeatureGate | InvalidPolicyReference | InvalidGroupReference
| CircularGroupNesting | InvalidCorsConfig.
#[global] Instance kind_eq_dec : EqDecision kind.
Proof. solve_decision. Defined.
Record t := new { kind_of : kind; message : string; path : string }.
#[global] Instance t_eq_dec : EqDecision t.
Proof. solve_decision. Defined.
End ValidationError.

Module HttpError.
Inductive t :=
| Config (msg : string)
| Validation (errors : list ValidationError.t)
| RouteNotFound
| InvalidQuery (msg : string)
| Core (e : Error.t).
End HttpError.

(** * Methods *)
Module HttpMethod.
Inductive t := Get | Post | Put | Patch | Delete | Any.
#[global] Instance t_eq_dec : EqDecision t.
Proof. solve_decision. Defined.
Definition code (m : t) : nat :=
  match m with Get => 0 | Post => 1 | Put => 2 | Patch => 3 | Delete => 4 | Any => 5 end.
Definition of_code (n : nat) : t :=
  match n with 0 => Get | 1 => Post | 2 => Put | 3 => Patch | 4 => Delete | _ => Any end.
#[global] Program Instance t_countable : Countable t := inj_countable' code of_code _.
Next Obligation. by intros []. Qed.

Definition matches (self other : t) : bool :=
  match self, other with
  | Any, _ | _, Any | Get, Get | Post, Post | Put, Put | Patch, Patch | Delete, Delete => true
  | _, _ => false
  end.
Definition from_str (s : string) : result HttpError.t t :=
  let u := to_ascii_uppercase s in
  if bool_decide (u = "GET") then Ok Get
  else if bool_decide (u = "POST") then Ok Post
  else if bool_decide (u = "PUT") then Ok Put
  else if bool_decide (u = "PATCH") then Ok Patch
  else if bool_decide (u = "DELETE") then Ok Delete
  else if bool_decide (u = "ANY") || bool_decide (u = "*") then Ok Any
  else Err (HttpError.Config ("unknown HTTP method: '" +:+ s +:+ "'")).
Definition to_string (m : t) : string :=
  match m with
  | Get => "GET" | Post => "POST" | Put => "PUT" | Patch => "PATCH" | Delete => "DELETE" | Any => "ANY"
  end.
End HttpMethod.

(** * The router library *)
Class Matchit := {
  router : Type → Type;
  router_new {V} : router V;
  router_insert {V} : router V → string → V → result string (router V);
  router_at {V} : router V → string → option (V * list (string * string));
  (** The pattern matches the path with these parameters. *)
  pattern_matches : string → string → list (string * string) → Prop;
}.
(** Documented behaviour: a lookup returns a route that was inserted and
    matches, with its parameters, and fails only when none matches. *)
Class MatchitLaws `{Matchit} := {
  contents {V} : router V → list (string * V);
  contents_new {V} : contents (router_new (V := V)) = [];
  contents_insert {V} (r : router V) p v r' :
    router_insert r p v = Ok r' → contents r' = contents r ++ [(p, v)];
  at_Some {V} (r : router V) path v params :
    router_at r path = Some (v, params) →
    ∃ p, (p, v) ∈ contents r ∧ pattern_matches p path params;
  at_None {V} (r : router V) path p v params :
    router_at r path = None → (p, v) ∈ contents r → ¬ pattern_matches p path params;
}.

(** * Paths and patterns *)
Module Path.
Definition normalize_path (path : string) : string :=
  if bool_decide (1 < String.length path) && ends_with_char "/" path
  then str_take (String.length path - 1) path else path.

(** The characters of a UTF-8 string. *)
Definition char_length (c : ascii) : nat :=
  if bool_decide (byte_val c < 128)%N then 1
  else if bool_decide (byte_val c < 224)%N then 2
  else if bool_decide (byte_val c < 240)%N then 3 else 4.
Fixpoint chars_loop (fuel : nat) (s : string) : list string :=
  match fuel, s with
  | S fuel, String c _ =>
      str_take (char_length c) s :: chars_loop fuel (str_drop (char_length c) s)
  | _, _ => []
  end.
Definition chars (s : string) : list string := chars_loop (String.length s) s.

Section normalize.
(** [char::is_alphanumeric] outside ASCII: the Unicode tables. *)
Context (wide_alphanumeric : string → bool).
Definition is_alphanumeric (c : string) : bool :=
  match c with
  | String a EmptyString => is_ascii_alphanumeric a
  | _ => wide_alphanumeric c
  end.
Definition name_char (c : string) : bool := is_alphanumeric c || bool_decide (c = "_").
(** What a colon and the name after it become. *)
Definition flush (name : string) : string :=
  if is_empty name then ":" else "{" +:+ name +:+ "}".
(** [name] is the parameter name being read, if any. *)
Fixpoint normalize_chars (name : option string) (cs : list string) : string :=
  match cs with
  | [] => match name with Some n => flush n | None => EmptyString end
  | c :: cs =>
      let plain := if bool_decide (c = ":") then normalize_chars (Some EmptyString) cs
                   else c +:+ normalize_chars None cs in
      match name with
      | Some n => if name_char c then normalize_chars (Some (n +:+ c)) cs else flush n +:+ plain
      | None => plain
      end
  end.
Definition normalize_pattern (pattern : string) : string := normalize_chars None (chars pattern).
End normalize.
End Path.

(** * Routes *)
Module Route.
Record RouteMapping := {
  method : HttpMethod.t;
  path_pattern : string;
  action : QualifiedAction.t;
  resource_param : option string;
  feature_gate : option FlagName.t;
  resource_entity_type : option string;
  default_resource_id : option ResourceId.t;
  resource_org_source : ResourceRef.ResourceOrgSource;
}.
Record MatchedRoute := {
  m_action : QualifiedAction.t;
  m_resource : option ResourceRef.t;
  m_path_params : gmap string string;
  m_feature_gate : option FlagName.t;
}.
Record RouteValue := {
  v_action : QualifiedAction.t;
  v_resource_param : option string;
  v_feature_gate : option FlagName.t;
  v_resource_entity_type : option string;
  v_default_resource_id : option ResourceId.t;
  v_resource_org_source : ResourceRef.ResourceOrgSource;
}.

Definition new (method : HttpMethod.t) (path_pattern : string) (action : QualifiedAction.t)
    (resource_param : option string) (feature_gate : option FlagName.t) : RouteMapping :=
  {| method := method; path_pattern := path_pattern; action := action;
     resource_param := resource_param; feature_gate := feature_gate;
     resource_entity_type := None; default_resource_id := None;
     resource_org_source := ResourceRef.RequestTenant |}.
Definition with_resource_entity_type (entity_type : string) (r : RouteMapping) : RouteMapping :=
  {| method := method r; path_pattern := path_pattern r; action := action r;
     resource_param := resource_param r; feature_gate := feature_gate r;
     resource_entity_type := Some entity_type; default_resource_id := default_resource_id r;
     resource_org_source := resource_org_source r |}.
(** [debug]: the text of [{id:?}]. *)
Definition with_default_resource_id (debug : string → string) (id : string) (r : RouteMapping)
    : result HttpError.t RouteMapping :=
  rid ← map_err (λ e, HttpError.Config ("invalid default_resource_id " +:+ debug id +:+ ": " +:+
                                        core_error_str e)) (ResourceId.parse id);
  Ok {| method := method r; path_pattern := path_pattern r; action := action r;
        resource_param := resource_param r; feature_gate := feature_gate r;
        resource_entity_type := resource_entity_type r; default_resource_id := Some rid;
        resource_org_source := resource_org_source r |}.
Definition with_org_resource (r : RouteMapping) : RouteMapping :=
  {| method := method r; path_pattern := path_pattern r; action := action r;
     resource_param := resource_param r; feature_gate := feature_gate r;
     resource_entity_type := resource_entity_type r; default_resource_id := default_resource_id r;
     resource_org_source := ResourceRef.OwnId |}.

Definition value_of (r : RouteMapping) : RouteValue := {|
  v_action := action r; v_resource_param := resource_param r; v_feature_gate := feature_gate r;
  v_resource_entity_type := resource_entity_type r;
  v_default_resource_id := default_resource_id r;
  v_resource_org_source := resource_org_source r |}.

(** Later parameters of the same name win, as in a collected map. *)
Definition params_map (params : list (string * string)) : gmap string string :=
  foldl (λ m kv, <[kv.1 := kv.2]> m) ∅ params.

Definition build_matched_route (value : RouteValue) (params : list (string * string))
    : MatchedRoute :=
  let params := params_map params in
  let from_path :=
    param_name ← v_resource_param value;
    id_str ← params !! param_name;
    match ResourceId.parse id_str with Ok id => Some id | _ => None end in
  let resolved_id := match from_path with Some id => Some id | None => v_default_resource_id value end in
  let resource := (λ rid,
    let base := match v_resource_entity_type value with
                | Some entity_type =>
                    ResourceRef.from_route_with_entity_type (v_action value) rid entity_type
                | None => ResourceRef.from_route (v_action value) rid
                end in
    match v_resource_org_source value with
    | ResourceRef.OwnId => ResourceRef.scoped_by_own_id base
    | ResourceRef.RequestTenant => base
    end) <$> resolved_id in
  {| m_action := v_action value; m_resource := resource; m_path_params := params;
     m_feature_gate := v_feature_gate value |}.

Section matcher.
Context `{Matchit} (wide_alphanumeric : string → bool).

(** One router per method and one for [Any]. *)
Record Matcher (V : Type) := { routers : gmap HttpMethod.t (router V); any_router : router V }.
Arguments routers {_} _. Arguments any_router {_} _.
Definition pattern_of (path_pattern : string) : string :=
  Path.normalize_pattern wide_alphanumeric (Path.normalize_path path_pattern).

(** The insertion loop shared by the two matchers; [what] begins the message. *)
Definition insert_route {V} (what : string) (m : Matcher V) (mt : HttpMethod.t)
    (path_pattern : string) (v : V) : result HttpError.t (Matcher V) :=
  if bool_decide (mt = HttpMethod.Any)
  then r ← map_err (λ e, HttpError.Config (what +:+ " ANY " +:+ path_pattern +:+ ": " +:+ e))
             (router_insert (any_router m) (pattern_of path_pattern) v);
       Ok {| routers := routers m; any_router := r |}
  else r ← map_err (λ e, HttpError.Config (what +:+ " " +:+ HttpMethod.to_string mt +:+ " " +:+
                                           path_pattern +:+ ": " +:+ e))
             (router_insert (default router_new (routers m !! mt)) (pattern_of path_pattern) v);
       Ok {| routers := <[mt := r]> (routers m); any_router := any_router m |}.
Fixpoint insert_routes {V} (what : string) (m : Matcher V)
    (routes : list (HttpMethod.t * string * V)) : result HttpError.t (Matcher V) :=
  match routes with
  | [] => Ok m
  | (mt, p, v) :: rest => m ← insert_route what m mt p v; insert_routes what m rest
  end.
Definition empty_matcher {V} : Matcher V := {| routers := ∅; any_router := router_new |}.

(** The lookup shared by the two matchers. *)
Definition lookup_route {V} (m : Matcher V) (mt : HttpMethod.t) (path : string)
    : option (V * list (string * string)) :=
  let normalized := Path.normalize_path path in
  match routers m !! mt ≫= λ r, router_at r normalized with
  | Some found => Some found
  | None => router_at (any_router m) normalized
  end.

Definition RouteMatcher := Matcher RouteValue.
Definition matcher_new (routes : list RouteMapping) : result HttpError.t RouteMatcher :=
  insert_routes "failed to insert route" empty_matcher
    ((λ r, (method r, path_pattern r, value_of r)) <$> routes).
Definition match_request (m : RouteMatcher) (method path : string) : option MatchedRoute :=
  match HttpMethod.from_str method with
  | Ok mt => (λ found, build_matched_route found.1 found.2) <$> lookup_route m mt path
  | _ => None
  end.

(** ** Public routes *)
Inductive PublicAuthMode := AnonymousMode | OpportunisticMode.
Record PublicRoute := {
  p_method : HttpMethod.t;
  p_path_pattern : string;
  auth_mode : PublicAuthMode;
}.
Inductive PublicMatch := NotPublic | Anonymous | Opportunistic.
Definition is_public (p : PublicMatch) : bool :=
  match p with Anonymous | Opportunistic => true | NotPublic => false end.
Definition PublicRouteMatcher := Matcher PublicAuthMode.
Definition public_new (routes : list PublicRoute) : result HttpError.t PublicRouteMatcher :=
  insert_routes "failed to insert public route" empty_matcher
    ((λ r, (p_method r, p_path_pattern r, auth_mode r)) <$> routes).
Definition check (m : PublicRouteMatcher) (method path : string) : PublicMatch :=
  match HttpMethod.from_str method with
  | Ok mt =>
      match lookup_route m mt path with
      | Some (AnonymousMode, _) => Anonymous
      | Some (OpportunisticMode, _) => Opportunistic
      | None => NotPublic
      end
  | _ => NotPublic
  end.
End matcher.
End Route.

(** * What the matchers match *)
Section matcher_facts.
Import Route.
Context `{MatchitLaws} (wide : string → bool).
Implicit Types (mt : HttpMethod.t) (path p : string).

(** The routes a matcher holds for a method. *)
Definition method_contents {V} (m : Matcher V) mt : list (string * V) :=
  if bool_decide (mt = HttpMethod.Any) then contents (any_router _ m)
  else match routers _ m !! mt with Some r => contents r | None => [] end.
Definition routes_for {V} (routes : list (HttpMethod.t * string * V)) mt : list (string * V) :=
  omap (λ '(mt', p, v), if bool_decide (mt' = mt) then Some (pattern_of wide p, v) else None) routes.

Lemma insert_route_contents {V} what (m m' : Matcher V) mt p v mt' :
  insert_route wide what m mt p v = Ok m' →
  method_contents m' mt' =
  method_contents m mt' ++ (if bool_decide (mt = mt') then [(pattern_of wide p, v)] else []).
Proof.
  unfold insert_route, method_contents.
  case_bool_decide as Hany; intros (r & Hr%map_err_Ok & [= <-])%bind_Ok;
    apply contents_insert in Hr; cbn [routers any_router].
  - subst mt. case_bool_decide as Hmt; [by subst mt'; rewrite bool_decide_eq_true_2|].
    rewrite bool_decide_eq_false_2 by congruence. by rewrite app_nil_r.
  - case_bool_decide as Hmt.
    { rewrite bool_decide_eq_false_2 by congruence. by rewrite app_nil_r. }
    case_bool_decide as Heq.
    + subst mt'. rewrite lookup_insert_eq, Hr. destruct (routers _ m !! mt); simpl; [done|].
      by rewrite contents_new.
    + rewrite lookup_insert_ne by done. by rewrite app_nil_r.
Qed.
Lemma insert_route_no_any {V} what (m m' : Matcher V) mt p v :
  insert_route wide what m mt p v = Ok m' →
  routers _ m !! HttpMethod.Any = None → routers _ m' !! HttpMethod.Any = None.
Proof.
  unfold insert_route. case_bool_decide; intros (r & _ & [= <-])%bind_Ok; simpl; [done|].
  by rewrite lookup_insert_ne.
Qed.
Lemma insert_routes_contents {V} what routes : ∀ m m' : Matcher V,
  insert_routes wide what m routes = Ok m' →
  routers _ m !! HttpMethod.Any = None →
  routers _ m' !! HttpMethod.Any = None ∧
  ∀ mt, method_contents m' mt = method_contents m mt ++ routes_for routes mt.
Proof.
  induction routes as [|[[mt0 p] v] routes IH]; intros m m'; simpl.
  - intros [= <-] Hany. split; [done|]. intros. by rewrite app_nil_r.
  - intros (m1 & H1 & Hrest)%bind_Ok Hany.
    destruct (IH _ _ Hrest (insert_route_no_any _ _ _ _ _ _ H1 Hany)) as [Hany' IHc].
    split; [done|]. intros mt. rewrite IHc, (insert_route_contents _ _ _ _ _ _ mt H1), <-app_assoc.
    f_equal. unfold routes_for. simpl. by case_bool_decide.
Qed.

Lemma elem_of_routes_for {V} (routes : list (HttpMethod.t * string * V)) mt q v :
  (q, v) ∈ routes_for routes mt ↔ ∃ p, (mt, p, v) ∈ routes ∧ q = pattern_of wide p.
Proof.
  unfold routes_for. rewrite list_elem_of_omap. split.
  - intros ([[mt' p] v'] & Hin & Heq). case_bool_decide; [|done]. simplify_eq. eauto.
  - intros (p & Hin & ->). exists (mt, p, v). split; [done|]. by rewrite bool_decide_eq_true_2.
Qed.

(** A configured route applies to the request. *)
Definition applies {V} (routes : list (HttpMethod.t * string * V)) mt path (v : V)
    (params : list (string * string)) : Prop :=
  ∃ p, (mt, p, v) ∈ routes ∧
    pattern_matches (pattern_of wide p) (Path.normalize_path path) params.

(** What applies is what the matcher's routers hold. *)
Lemma applies_contents {V} what routes (m : Matcher V) :
  insert_routes wide what empty_matcher routes = Ok m →
  routers _ m !! HttpMethod.Any = None ∧
  ∀ mt path v params, applies routes mt path v params ↔
    ∃ q, (q, v) ∈ method_contents m mt ∧ pattern_matches q (Path.normalize_path path) params.
Proof.
  intros Hm. destruct (insert_routes_contents _ _ _ _ Hm) as [Hany Hc]; [done|].
  split; [done|]. intros mt path v params.
  assert (method_contents m mt = routes_for routes mt) as ->.
  { rewrite Hc. unfold method_contents, empty_matcher. simpl.
    case_bool_decide; [by rewrite contents_new|]. by rewrite lookup_empty. }
  unfold applies. split.
  - intros (p & Hin & Hp). exists (pattern_of wide p). split; [|done].
    apply elem_of_routes_for. eauto.
  - intros (q & (p & Hin & ->)%elem_of_routes_for & Hp). eauto.
Qed.

(** A router answers for the routes it holds. *)
Lemma at_applies {V} (r : router V) path :
  match router_at r path with
  | Some (v, params) => ∃ q, (q, v) ∈ contents r ∧ pattern_matches q path params
  | None => ∀ v params, ¬ ∃ q, (q, v) ∈ contents r ∧ pattern_matches q path params
  end.
Proof.
  destruct (router_at r path) as [[v params]|] eqn:Hat; [by apply at_Some|].
  intros v params (q & Hq & Hp). by eapply (at_None r).
Qed.

Lemma lookup_route_spec {V} what routes (m : Matcher V) mt path :
  insert_routes wide what empty_matcher routes = Ok m →
  match lookup_route m mt path with
  | Some (v, params) =>
      applies routes mt path v params ∨
      (applies routes HttpMethod.Any path v params ∧
       ∀ v' params', ¬ applies routes mt path v' params')
  | None =>
      ∀ v params, ¬ applies routes mt path v params ∧
                  ¬ applies routes HttpMethod.Any path v params
  end.
Proof.
  intros Hm. destruct (applies_contents _ _ _ Hm) as [Hany Happ].
  pose proof (at_applies (any_router _ m) (Path.normalize_path path)) as HA.
  assert (method_contents m HttpMethod.Any = contents (any_router _ m)) as HanyC by done.
  rewrite <-HanyC in HA. unfold lookup_route.
  destruct (decide (mt = HttpMethod.Any)) as [->|Hne].
  { rewrite Hany. simpl. destruct (router_at _ _) as [[v params]|].
    - left. by apply Happ.
    - intros v params. rewrite !Happ. split; apply HA. }
  assert (match routers _ m !! mt ≫= λ r, router_at r (Path.normalize_path path) with
          | Some (v, params) => applies routes mt path v params
          | None => ∀ v params, ¬ applies routes mt path v params
          end) as HR.
  { specialize (Happ mt path). unfold method_contents in Happ.
    rewrite bool_decide_eq_false_2 in Happ by done.
    destruct (routers _ m !! mt) as [r|]; simpl.
    - pose proof (at_applies r (Path.normalize_path path)) as Hat.
      destruct (router_at r _) as [[v params]|]; [by apply Happ|].
      intros v params. rewrite Happ. apply Hat.
    - intros v params (q & Hq & _)%Happ. by apply not_elem_of_nil in Hq. }
  destruct (routers _ m !! mt ≫= _) as [[v params]|]; [by left|].
  destruct (router_at (any_router _ m) _) as [[v params]|].
  - right. split; [by apply Happ|done].
  - intros v params. split; [apply HR|]. rewrite Happ. apply HA.
Qed.
End matcher_facts.

Section matcher_theorems.
Import Route.
Context `{MatchitLaws} (wide : string → bool).

(** The configured route and the request's method agree with this pattern. *)
Definition route_applies (r : RouteMapping) (mt : HttpMethod.t) (path : string)
    (params : list (string * string)) : Prop :=
  method r = mt ∧
  pattern_matches (pattern_of wide (path_pattern r)) (Path.normalize_path path) params.
Definition public_applies (r : PublicRoute) (mt : HttpMethod.t) (path : string) : Prop :=
  ∃ params, p_method r = mt ∧
    pattern_matches (pattern_of wide (p_path_pattern r)) (Path.normalize_path path) params.

Lemma applies_route routes mt path v params :
  applies wide ((λ r, (method r, path_pattern r, value_of r)) <$> routes) mt path v params ↔
  ∃ r, r ∈ routes ∧ v = value_of r ∧ route_applies r mt path params.
Proof.
  unfold applies, route_applies. split.
  - intros (p & (r & [= -> -> ->] & Hr)%list_elem_of_fmap & Hp). eauto.
  - intros (r & Hr & -> & <- & Hp). exists (path_pattern r). split; [|done].
    apply list_elem_of_fmap. eauto.
Qed.
Lemma applies_public routes mt path v :
  (∃ params, applies wide ((λ r, (p_method r, p_path_pattern r, auth_mode r)) <$> routes)
               mt path v params) ↔
  ∃ r, r ∈ routes ∧ v = auth_mode r ∧ public_applies r mt path.
Proof.
  unfold applies, public_applies. split.
  - intros (params & p & (r & [= -> -> ->] & Hr)%list_elem_of_fmap & Hp). eauto 8.
  - intros (r & Hr & -> & params & <- & Hp). exists params, (p_path_pattern r). split; [|done].
    apply list_elem_of_fmap. eauto.
Qed.

(** route matching is exact.  A request matches a route exactly when its
    method is known and some configured route for that method, or for any
    method, has a pattern that matches its path; the match is then built from
    such a route with the parameters of the pattern, and a route for any method
    is used only when no route for the request's own method applies. *)
Theorem route_matcher_exact routes m meth path :
  matcher_new wide routes = Ok m →
  match match_request m meth path with
  | Some mr => ∃ mt r params,
      HttpMethod.from_str meth = Ok mt ∧ r ∈ routes ∧
      mr = build_matched_route (value_of r) params ∧
      (route_applies r mt path params ∨
       (route_applies r HttpMethod.Any path params ∧
        ∀ r' params', r' ∈ routes → ¬ route_applies r' mt path params'))
  | None => ∀ mt, HttpMethod.from_str meth = Ok mt → ∀ r params, r ∈ routes →
      ¬ route_applies r mt path params ∧ ¬ route_applies r HttpMethod.Any path params
  end.
Proof.
  intros Hm. unfold match_request.
  destruct (HttpMethod.from_str meth) as [mt| |]; [|naive_solver..].
  pose proof (lookup_route_spec wide _ _ _ mt path Hm) as Hl.
  destruct (lookup_route m mt path) as [[v params]|]; simpl.
  - destruct Hl as [Hl|[Hl Hno]]; apply applies_route in Hl as (r & Hr & -> & Ha);
      exists mt, r, params; split_and!; [done..|by left|done|done|done|].
    right. split; [done|]. intros r' params' Hr' Ha'. eapply Hno. apply applies_route. eauto.
  - intros mt' [= <-] r params Hr. destruct (Hl (value_of r) params) as [H1 H2].
    split; intros Ha; [apply H1|apply H2]; apply applies_route; eauto.
Qed.

(** a request is public exactly when it is configured to be: the check
    answers [NotPublic] unless the method is known and a configured public
    route for that method, or for any method, matches the path, and otherwise
    gives the authentication mode of such a route, the method's own first. *)
Theorem public_check_exact routes m meth path :
  public_new wide routes = Ok m →
  match check m meth path with
  | NotPublic => ∀ mt r, HttpMethod.from_str meth = Ok mt → r ∈ routes →
      ¬ public_applies r mt path ∧ ¬ public_applies r HttpMethod.Any path
  | public => ∃ mt r,
      HttpMethod.from_str meth = Ok mt ∧ r ∈ routes ∧
      public = match auth_mode r with
               | AnonymousMode => Anonymous | OpportunisticMode => Opportunistic end ∧
      (public_applies r mt path ∨
       (public_applies r HttpMethod.Any path ∧
        ∀ r', r' ∈ routes → ¬ public_applies r' mt path))
  end.
Proof.
  intros Hm. unfold check.
  destruct (HttpMethod.from_str meth) as [mt| |]; [|naive_solver..].
  pose proof (lookup_route_spec wide _ _ _ mt path Hm) as Hl.
  destruct (lookup_route m mt path) as [[v params]|]; simpl.
  - assert (∃ r, r ∈ routes ∧ v = auth_mode r ∧
      (public_applies r mt path ∨ (public_applies r HttpMethod.Any path ∧
        ∀ r', r' ∈ routes → ¬ public_applies r' mt path))) as (r & Hr & -> & Hcase).
    { destruct Hl as [Hl|[Hl Hno]].
      - destruct (proj1 (applies_public routes mt path v) (ex_intro _ params Hl))
          as (r & Hr & -> & Ha). exists r. auto.
      - destruct (proj1 (applies_public routes _ path v) (ex_intro _ params Hl))
          as (r & Hr & -> & Ha). exists r. split_and!; [done..|]. right. split; [done|].
        intros r' Hr' Ha'. destruct (proj2 (applies_public routes mt path (auth_mode r')))
          as [params' Happ]; [eauto|]. by eapply Hno. }
    destruct (auth_mode r) eqn:Hmode; exists mt, r; rewrite Hmode; eauto.
  - intros mt' r [= <-] Hr.
    split; intros Ha.
    + destruct (proj2 (applies_public routes mt path (auth_mode r))) as [params Happ]; [eauto|].
      by destruct (Hl (auth_mode r) params).
    + destruct (proj2 (applies_public routes HttpMethod.Any path (auth_mode r)))
        as [params Happ]; [eauto|]. by destruct (Hl (auth_mode r) params).
Qed.
End matcher_theorems.

(** * A router *)

(** Patterns match segment by segment; [{name}] takes one non-empty segment.
    Routes are tried in order. *)
Module ListRouter.
Definition param_name (seg : string) : option string :=
  rest ← RustStr.strip_prefix "{" seg; RustStr.strip_suffix "}" rest.
Fixpoint match_segments (pat path : list string) : option (list (string * string)) :=
  match pat, path with
  | [], [] => Some []
  | p :: pat, s :: path =>
      match param_name p with
      | Some name =>
          if is_empty s then None else cons (name, s) <$> match_segments pat path
      | None => if bool_decide (p = s) then match_segments pat path else None
      end
  | _, _ => None
  end.
Definition pattern_match (pattern path : string) : option (list (string * string)) :=
  match_segments (RustStr.split "/" pattern) (RustStr.split "/" path).
Fixpoint list_at {V} (r : list (string * V)) (path : string)
    : option (V * list (string * string)) :=
  match r with
  | [] => None
  | (p, v) :: r =>
      match pattern_match p path with Some params => Some (v, params) | None => list_at r path end
  end.
Definition list_insert {V} (r : list (string * V)) (p : string) (v : V)
    : result string (list (string * V)) :=
  if bool_decide (p ∈ r.*1) then Err "insertion failed due to conflict" else Ok (r ++ [(p, v)]).

#[export] Instance list_router : Matchit := {|
  router V := list (string * V);
  router_new V := [];
  router_insert V := list_insert;
  router_at V := list_at;
  pattern_matches p path params := pattern_match p path = Some params;
|}.
Lemma list_at_spec {V} (r : list (string * V)) path :
  match list_at r path with
  | Some (v, params) => ∃ p, (p, v) ∈ r ∧ pattern_match p path = Some params
  | None => ∀ p v, (p, v) ∈ r → pattern_match p path = None
  end.
Proof.
  induction r as [|[p v] r IH]; simpl; [by intros ? ? ?%not_elem_of_nil|].
  destruct (pattern_match p path) eqn:Hp; [exists p; split; [left|done]|].
  destruct (list_at r path) as [[v' params]|].
  - destruct IH as (q & Hq & Hm). exists q. split; [by right|done].
  - intros q v' [[= -> ->]|Hq]%elem_of_cons; [done|]. by eapply IH.
Qed.
#[export] Program Instance list_router_laws : MatchitLaws := {| contents V r := r |}.
Next Obligation. done. Qed.
Next Obligation. intros V r p v r'. simpl. unfold list_insert. by case_bool_decide; intros [= <-]. Qed.
Next Obligation.
  intros V r path v params. simpl. intros Hat. pose proof (list_at_spec r path) as Hs.
  by rewrite Hat in Hs.
Qed.
Next Obligation.
  intros V r path p v params. simpl. intros Hat Hin Hm. pose proof (list_at_spec r path) as Hs.
  rewrite Hat in Hs. by rewrite (Hs _ _ Hin) in Hm.
Qed.
End ListRouter.

(** * Samples *)
Module RouteSample.
Import Route ListRouter.
Definition no_wide : string → bool := λ _, false.
Definition act (s : string) : QualifiedAction.t :=
  match QualifiedAction.parse s with Ok a => a | _ => {|
    QualifiedAction.namespace := Namespace.User (Segment.mk "n");
    QualifiedAction.action := Action.mk (Segment.mk "a");
    QualifiedAction.entity := Entity.mk (Segment.mk "e") |} end.
Definition routes : list RouteMapping :=
  [new HttpMethod.Any "/lists/:id" (act "todo:list:any") None None;
   new HttpMethod.Get "/lists/:id/" (act "todo:list:read") (Some "id") None].
Definition public_routes : list PublicRoute :=
  [{| p_method := HttpMethod.Get; p_path_pattern := "/about"; auth_mode := AnonymousMode |}].
Definition m : result HttpError.t RouteMatcher := matcher_new no_wide routes.
End RouteSample.
Import ListRouter.

Lemma route_matcher_exact_witness :
  ∃ m mt r params, Route.matcher_new RouteSample.no_wide RouteSample.routes = Ok m ∧
    r ∈ RouteSample.routes ∧ HttpMethod.from_str "get" = Ok mt ∧
    route_applies RouteSample.no_wide r mt "/lists/7/" params.
Proof.
  destruct (Route.matcher_new RouteSample.no_wide RouteSample.routes) as [m| |] eqn:Hm;
    [|vm_compute in Hm; discriminate Hm..].
  pose proof (route_matcher_exact RouteSample.no_wide RouteSample.routes m "get" "/lists/7/" Hm) as H.
  assert (is_Some (Route.match_request m "get" "/lists/7/")) as [mr Hmr].
  { vm_compute in Hm. injection Hm as <-. vm_compute. eauto. }
  rewrite Hmr in H. destruct H as (mt & r & params & Hmt & Hr & _ & [Ha|[_ Hno]]).
  - exists m, mt, r, params. split; [done|]. split; [done|]. split; [done|]. exact Ha.
  - exfalso. injection Hmt as <-.
    refine (Hno (Route.new HttpMethod.Get "/lists/:id/" (RouteSample.act "todo:list:read") (Some "id") None)
      [("id", "7")] _ _).
    + right; left.
    + split; vm_compute; reflexivity.
Defined.

Lemma public_check_exact_witness :
  ∃ m, Route.public_new RouteSample.no_wide RouteSample.public_routes = Ok m ∧
    Route.is_public (Route.check m "GET" "/about") = true ∧
    Route.check m "GET" "/secret" = Route.NotPublic ∧
    ¬ public_applies RouteSample.no_wide
        {| Route.p_method := HttpMethod.Get; Route.p_path_pattern := "/about";
           Route.auth_mode := Route.AnonymousMode |} HttpMethod.Get "/secret".
Proof.
  destruct (Route.public_new RouteSample.no_wide RouteSample.public_routes) as [m| |] eqn:Hm;
    [|vm_compute in Hm; discriminate Hm..].
  pose proof (public_check_exact RouteSample.no_wide _ m "GET" "/secret" Hm) as H.
  assert (Route.check m "GET" "/secret" = Route.NotPublic) as Hc.
  { vm_compute in Hm. injection Hm as <-. reflexivity. }
  exists m. split; [done|]. split.
  { vm_compute in Hm. injection Hm as <-. reflexivity. }
  split; [exact Hc|]. rewrite Hc in H. eapply H; [reflexivity|left].
Defined.
