(* ===== verification/Cors.v ===== *)
(** Cross-origin requests ([crates/http/src/cors.rs]): origin patterns, the
    validated configuration and the response headers. *)

From stdpp Require Import pretty.
From S2P Require Import Prelude RustStr Decimal Ident Http.

(** [split_once] on a string. *)
Fixpoint split_once_str (p s : string) : option (string * string) :=
  match RustStr.strip_prefix p s with
  | Some rest => Some (EmptyString, rest)
  | None =>
      match s with
      | EmptyString => None
      | String a s => '(x, y) ← split_once_str p s; Some (String a x, y)
      end
  end.
Definition ends_with (suffix s : string) : bool :=
  match RustStr.strip_suffix suffix s with Some _ => true | None => false end.

Module Cors.
Inductive AllowedOrigin := Exact (origin : string) | Suffix (suffix : string) | Any.
#[global] Instance AllowedOrigin_eq_dec : EqDecision AllowedOrigin.
Proof. solve_decision. Defined.

Definition parse (s : string) : result string AllowedOrigin :=
  if bool_decide (s = "*") then Ok Any
  else match RustStr.strip_prefix "*." s with
  | Some suffix =>
      if is_empty suffix
      then Err "suffix origin '*.' must have at least one character after '*.'"
      else if negb (contains_char "." suffix)
      then Err "suffix origin must have at least two labels (e.g. '*.example.com', not '*.com')"
      else Ok (Suffix ("." +:+ suffix))
  | None =>
      if is_empty s then Err "origin must not be empty"
      else match split_once_str "://" s with
      | None => Err "exact origin must include a scheme (e.g. 'https://example.com')"
      | Some (_, rest) =>
          if is_empty rest then Err "exact origin must contain a host after the scheme"
          else if contains_char "/" rest then Err "exact origin must not contain a path"
          else Ok (Exact s)
      end
  end.

Definition matches (o : AllowedOrigin) (origin : string) : option string :=
  match o with
  | Exact expected => if bool_decide (origin = expected) then Some expected else None
  | Suffix suffix => if ends_with suffix origin then Some origin else None
  | Any => Some "*"
  end.

Record RawCorsConfig := {
  enabled : bool;
  raw_allowed_origins : list string;
  raw_allowed_methods : list string;
  raw_allowed_headers : list string;
  raw_expose_headers : list string;
  raw_allow_credentials : bool;
  raw_max_age_secs : N;
}.
Record CorsConfig := {
  origins : list AllowedOrigin;
  allowed_methods : list string;
  allowed_headers : list string;
  expose_headers : list string;
  allow_credentials : bool;
  max_age_secs : N;
}.

Definition matches_origin (c : CorsConfig) (origin : string) : option string :=
  head (omap (λ o, matches o origin) (origins c)).
Definition is_wildcard_only (c : CorsConfig) : bool :=
  match origins c with [Any] => true | _ => false end.
Definition push_common_headers (c : CorsConfig) (origin : string) : list (string * string) :=
  (if is_wildcard_only c then [] else [("Vary", "Origin")]) ++
  [("Access-Control-Allow-Origin", origin)] ++
  (if allow_credentials c then [("Access-Control-Allow-Credentials", "true")] else []) ++
  match expose_headers c with
  | [] => []
  | hs => [("Access-Control-Expose-Headers", RustStr.join ", " hs)]
  end.
Definition preflight_headers (c : CorsConfig) (origin : string) : list (string * string) :=
  push_common_headers c origin ++
  [("Access-Control-Allow-Methods", RustStr.join ", " (allowed_methods c));
   ("Access-Control-Allow-Headers", RustStr.join ", " (allowed_headers c));
   ("Access-Control-Max-Age", pretty (max_age_secs c))].
Definition response_headers (c : CorsConfig) (origin : string) : list (string * string) :=
  push_common_headers c origin.

(** The loop over the configured origins: those that parse, and the errors. *)
Fixpoint parse_origins (i : N) (raw : list string)
    : list AllowedOrigin * list ValidationError.t :=
  match raw with
  | [] => ([], [])
  | s :: raw =>
      let '(os, errs) := parse_origins (i + 1) raw in
      match parse s with
      | Ok o => (o :: os, errs)
      | Err msg => (os, ValidationError.new ValidationError.InvalidCorsConfig msg
                          ("cors.allowed_origins[" +:+ pretty i +:+ "]") :: errs)
      | Stuck _ => (os, errs)
      end
  end.
Definition cors_error (msg path : string) : ValidationError.t :=
  ValidationError.new ValidationError.InvalidCorsConfig msg path.
Definition try_from (raw : RawCorsConfig) : result (list ValidationError.t) CorsConfig :=
  let '(os, errors) :=
    if enabled raw then
      let '(os, parse_errors) := parse_origins 0 (raw_allowed_origins raw) in
      (os,
       (match raw_allowed_origins raw with
        | [] => [cors_error "allowed_origins must not be empty when cors is enabled"
                   "cors.allowed_origins"]
        | _ => []
        end) ++ parse_errors ++
       (if bool_decide (Any ∈ os) && raw_allow_credentials raw
        then [cors_error "wildcard origin '*' cannot be used with allow_credentials = true" "cors"]
        else []) ++
       (if bool_decide (raw_max_age_secs raw = 0%N)
        then [cors_error "max_age_secs must be greater than zero" "cors.max_age_secs"] else []))
    else ([], []) in
  match errors with
  | [] => Ok {| origins := os; allowed_methods := raw_allowed_methods raw;
                allowed_headers := raw_allowed_headers raw;
                expose_headers := raw_expose_headers raw;
                allow_credentials := raw_allow_credentials raw;
                max_age_secs := raw_max_age_secs raw |}
  | _ => Err errors
  end.

(** ** Facts *)
(** Every outcome of parsing an origin. *)
Lemma parse_cases s :
  match parse s with
  | Ok Any => s = "*"
  | Ok (Exact e) => e = s
  | Ok (Suffix x) => ∃ domain, s = "*." +:+ domain ∧ x = "." +:+ domain
  | Err _ => True
  | Stuck _ => False
  end.
Proof.
  unfold parse. case_bool_decide; [done|].
  destruct (RustStr.strip_prefix _ s) as [suffix|] eqn:Hs.
  { apply strip_prefix_Some in Hs. destruct (is_empty suffix); [done|].
    destruct (negb _); [done|]. eauto. }
  destruct (is_empty s); [done|]. destruct (split_once_str _ _) as [[? rest]|]; [|done].
  destruct (is_empty rest); [done|]. by destruct (contains_char _ _).
Qed.
Lemma parse_star : parse "*" = Ok Any.
Proof. done. Qed.
Lemma ends_with_true suffix s : ends_with suffix s = true ↔ ∃ x, s = x +:+ suffix.
Proof.
  unfold ends_with. destruct (RustStr.strip_suffix suffix s) as [x|] eqn:Hs.
  - apply strip_suffix_Some in Hs. split; [eauto|done].
  - split; [done|]. intros [x Hx%strip_suffix_Some]. congruence.
Qed.
Lemma parse_origins_ok i raw os :
  parse_origins i raw = (os, []) ↔ Forall2 (λ s o, parse s = Ok o) raw os.
Proof.
  revert i os. induction raw as [|s raw IH]; intros i os; simpl.
  { split; [intros [= <-]; constructor|by inversion 1]. }
  specialize (IH (i + 1)%N). destruct (parse_origins (i + 1) raw) as [os' errs]. split.
  - destruct (parse s) as [o|e|w] eqn:Hs.
    + intros [= <- ->]. constructor; [done|]. by apply IH.
    + done.
    + pose proof (parse_cases s) as Hc. by rewrite Hs in Hc.
  - inversion 1 as [|? o ? os'' Hs Hos]; subst. rewrite Hs. apply IH in Hos. by simplify_eq.
Qed.
Lemma try_from_Ok raw c :
  try_from raw = Ok c →
  allow_credentials c = raw_allow_credentials raw ∧
  max_age_secs c = raw_max_age_secs raw ∧
  if enabled raw
  then raw_allowed_origins raw ≠ [] ∧
       Forall2 (λ s o, parse s = Ok o) (raw_allowed_origins raw) (origins c) ∧
       (Any ∈ origins c → allow_credentials c = false) ∧ max_age_secs c ≠ 0%N
  else origins c = [].
Proof.
  unfold try_from. destruct (enabled raw); [|by intros [= <-]].
  destruct (parse_origins 0 (raw_allowed_origins raw)) as [os errs] eqn:Hp.
  destruct (_ ++ _) as [|] eqn:Herr; [|done]. intros [= <-]. simpl.
  apply app_nil in Herr as [H1 [-> [H3 H4]%app_nil]%app_nil].
  split_and!; [done|done| |by apply parse_origins_ok in Hp| |].
  - by destruct (raw_allowed_origins raw).
  - intros Hany. rewrite bool_decide_eq_true_2 in H3 by done. by destruct (raw_allow_credentials raw).
  - by case_bool_decide.
Qed.
End Cors.

(** C40: a validated configuration grants cross-origin access exactly as
    configured and never unsafely.  An origin is granted exactly when
    cross-origin requests are enabled and one of the configured patterns is the
    wildcard, is the origin itself, or is a suffix pattern whose domain the
    origin's host is strictly below; the value granted is the origin itself, or
    the wildcard only when credentials are not allowed. *)
Theorem cors_grants_exact raw c origin :
  Cors.try_from raw = Ok c →
  (is_Some (Cors.matches_origin c origin) ↔
   Cors.enabled raw = true ∧ ∃ s, s ∈ Cors.raw_allowed_origins raw ∧
     (s = "*" ∨ (s = origin ∧ Cors.parse s = Ok (Cors.Exact s)) ∨
      ∃ domain below, s = "*." +:+ domain ∧ Cors.parse s = Ok (Cors.Suffix ("." +:+ domain)) ∧
        origin = below +:+ "." +:+ domain)) ∧
  ∀ v, Cors.matches_origin c origin = Some v →
    v = origin ∨ (v = "*" ∧ Cors.allow_credentials c = false).
Proof.
  intros Hok. apply Cors.try_from_Ok in Hok as (Hcred & _ & Hen).
  assert (∀ v, Cors.matches_origin c origin = Some v →
    ∃ o, o ∈ Cors.origins c ∧ Cors.matches o origin = Some v) as Hfound.
  { intros v Hv. apply head_Some_elem_of, list_elem_of_omap in Hv. naive_solver. }
  destruct (Cors.enabled raw) eqn:Henabled; last first.
  { unfold Cors.matches_origin in *. rewrite Hen in *. simpl.
    split; [|done]. split; [by intros [? ?]|by intros [? _]]. }
  destruct Hen as (_ & Hparse & Hany & _). split; [split|].
  - intros [v (o & Ho & Hm)%Hfound]. split; [done|].
    apply list_elem_of_lookup in Ho as [i Hi].
    destruct (Forall2_lookup_r _ _ _ _ _ Hparse Hi) as (s & Hs & Hps).
    exists s. split; [by eapply list_elem_of_lookup_2|].
    pose proof (Cors.parse_cases s) as Hc. rewrite Hps in Hc. destruct o as [e|x|]; simpl in Hm.
    + subst e. case_bool_decide; [|done]. right; left. by subst s.
    + destruct Hc as (domain & Hdom & ->). destruct (ends_with _ _) eqn:He; [|done].
      apply Cors.ends_with_true in He as [below He]. right; right. exists domain, below. done.
    + by left.
  - intros (_ & s & Hs & Hcase). apply list_elem_of_lookup in Hs as [i Hs].
    destruct (Forall2_lookup_l _ _ _ _ _ Hparse Hs) as (o & Ho & Hps).
    apply list_elem_of_lookup_2 in Ho.
    assert (∃ v, v ∈ omap (λ o, Cors.matches o origin) (Cors.origins c)) as [v Hv].
    { setoid_rewrite list_elem_of_omap. destruct Hcase as [->|[[-> He]|(d & b & -> & He & ->)]].
      - exists "*", o. split; [done|]. rewrite Cors.parse_star in Hps. by simplify_eq.
      - exists origin, o. split; [done|]. rewrite He in Hps. simplify_eq. simpl.
        by rewrite bool_decide_eq_true_2.
      - exists (b +:+ "." +:+ d), o. split; [done|]. rewrite He in Hps. simplify_eq. simpl.
        rewrite (proj2 (Cors.ends_with_true _ _)); [done|]. eauto. }
    unfold Cors.matches_origin. destruct (omap _ _); [by apply not_elem_of_nil in Hv|]. done.
  - intros v (o & Ho & Hm)%Hfound. destruct o as [e|x|]; simpl in Hm.
    + case_bool_decide; [|done]. left. by simplify_eq.
    + destruct (ends_with _ _); [|done]. left. by simplify_eq.
    + right. split; [by simplify_eq|]. by apply Hany.
Qed.

Module CorsSample.
Import Cors.
Definition raw : RawCorsConfig := {|
  enabled := true; raw_allowed_origins := ["https://app.example.org"; "*.example.com"];
  raw_allowed_methods := ["GET"]; raw_allowed_headers := []; raw_expose_headers := [];
  raw_allow_credentials := true; raw_max_age_secs := 3600 |}.
End CorsSample.
Lemma cors_grants_exact_witness :
  ∃ c, Cors.try_from CorsSample.raw = Ok c ∧
    is_Some (Cors.matches_origin c "https://a.example.com") ∧
    ¬ is_Some (Cors.matches_origin c "https://example.com") ∧
    ∀ v, Cors.matches_origin c "https://a.example.com" = Some v →
      v = "https://a.example.com" ∨ (v = "*" ∧ Cors.allow_credentials c = false).
Proof.
  destruct (Cors.try_from CorsSample.raw) as [c| |] eqn:Hc; [|discriminate Hc..].
  exists c. split; [done|]. split_and!.
  - apply (cors_grants_exact CorsSample.raw c); [exact Hc|]. split; [done|].
    exists "*.example.com". split; [right; left|]. right; right.
    exists "example.com", "https://a". split_and!; reflexivity.
  - injection Hc as <-. vm_compute. intros [v Hv]. discriminate Hv.
  - apply (cors_grants_exact CorsSample.raw c). exact Hc.
Defined.
