(* ===== verification/Pipeline.v ===== *)
(** The request pipeline of [crates/proxy-core] ([pipeline.rs] and the types
    around it), with the query it builds ([crates/http/src/query.rs]), the
    decisions it reads ([crates/authz-core]) and the debug endpoint
    ([crates/http/src/debug.rs]).  The identity chain, the membership resolver
    and the policy engine are the objects the code calls through traits: each is
    the function from its argument to what the awaited call returned. *)

From stdpp Require Import pretty.
From S2P Require Import Prelude RustStr Decimal Ident Event Store Action Features Authn Http.

(** An address, by the text it displays as. *)
Record IpAddr := { ip_text : string }.

(** * Queries and decisions ([authz-core]) *)
Module PolicyContext.
Record t := {
  tenant_id : option TenantId;
  groups : list GroupName;
  ip_address : option IpAddr;
  attributes : gmap string Json.t;
}.
Definition new : t :=
  {| tenant_id := None; groups := []; ip_address := None; attributes := ∅ |}.
Definition with_tenant (x : TenantId) (c : t) : t :=
  {| tenant_id := Some x; groups := groups c; ip_address := ip_address c;
     attributes := attributes c |}.
Definition with_groups (x : list GroupName) (c : t) : t :=
  {| tenant_id := tenant_id c; groups := x; ip_address := ip_address c;
     attributes := attributes c |}.
Definition with_ip_address (x : IpAddr) (c : t) : t :=
  {| tenant_id := tenant_id c; groups := groups c; ip_address := Some x;
     attributes := attributes c |}.
Definition with_attribute (k : string) (v : Json.t) (c : t) : t :=
  {| tenant_id := tenant_id c; groups := groups c; ip_address := ip_address c;
     attributes := <[k := v]> (attributes c) |}.
End PolicyContext.

Module PolicyQuery.
Record t := new {
  principal : PrincipalRef.t;
  action : QualifiedAction.t;
  resource : option ResourceRef.t;
  context : PolicyContext.t;
}.
End PolicyQuery.

Module Decision.
Inductive DenyReason :=
| NoMatchingPolicy | ExplicitDeny (policy_id : string) | EvaluationError (msg : string).
Inductive PolicyDecision := Allow | Deny (reason : DenyReason).
Definition is_allowed (d : PolicyDecision) : bool := match d with Allow => true | Deny _ => false end.
Definition is_denied (d : PolicyDecision) : bool := match d with Deny _ => true | Allow => false end.

(** [R] is the record an engine may attach. *)
Record EvaluatedDecision (R : Type) := { decision : PolicyDecision; record : option R }.
Arguments decision {R} _. Arguments record {R} _.
Definition bare {R} (d : PolicyDecision) : EvaluatedDecision R := {| decision := d; record := None |}.
Definition with_record {R} (d : PolicyDecision) (r : R) : EvaluatedDecision R :=
  {| decision := d; record := Some r |}.
Definition evaluated_is_denied {R} (e : EvaluatedDecision R) : bool := is_denied (decision e).
Definition into_record {R} (e : EvaluatedDecision R) : option R := record e.
End Decision.

Record CacheStats := {
  hits : N; misses : N; l2_hits : option N; l2_misses : option N; l2_errors : option N }.
(** The trait's operations. *)
Record PolicyEngine (R : Type) := {
  evaluate : PolicyQuery.t → result AuthzError.t (Decision.EvaluatedDecision R);
  cache_stats : option CacheStats;
}.
Arguments evaluate {R} _ _. Arguments cache_stats {R} _.

(** The in-memory engine. *)
Module StaticPolicyEngine.
Record t := {
  default_decision : Decision.PolicyDecision;
  overrides : gmap string Decision.PolicyDecision;
}.
Definition new (d : Decision.PolicyDecision) : t := {| default_decision := d; overrides := ∅ |}.
Definition with_override (a : QualifiedAction.t) (d : Decision.PolicyDecision) (e : t) : t :=
  {| default_decision := default_decision e;
     overrides := <[QualifiedAction.to_string a := d]> (overrides e) |}.
Definition engine {R} (e : t) : PolicyEngine R := {|
  evaluate q := Ok (Decision.bare
    (default (default_decision e) (overrides e !! QualifiedAction.to_string (PolicyQuery.action q))));
  cache_stats := None;
|}.
End StaticPolicyEngine.

(** * Queries from requests ([http/src/query.rs]) *)
Definition build_query (identity : Identity.t) (matched_route : Route.MatchedRoute)
    (_project_id : ProjectId) (client_ip : option IpAddr) : PolicyQuery.t :=
  let principal := match Identity.principal_kind identity with
                   | PrincipalRef.User => PrincipalRef.new (Identity.user_id identity)
                   | PrincipalRef.Machine => PrincipalRef.machine (Identity.user_id identity)
                   end in
  let context := PolicyContext.with_groups (Identity.groups identity) PolicyContext.new in
  let context := match Identity.tenant_id identity with
                 | Some tenant => PolicyContext.with_tenant tenant context | None => context end in
  let context := match client_ip with
                 | Some ip => PolicyContext.with_ip_address ip context | None => context end in
  let context := match Identity.extra identity with
                 | Some extra => PolicyContext.with_attribute "extra_claims" extra context
                 | None => context end in
  PolicyQuery.new principal (Route.m_action matched_route) (Route.m_resource matched_route) context.

(** * The request ([request_input.rs]) *)
Module RequestInput.
Inductive Error := InvalidRequest (msg : string) | InvalidRejectStatus (status : N).
Record t := {
  method : HttpMethod.t;
  path : string;
  query_string : option string;
  headers : list (string * string);
  client_ip : option IpAddr;
}.
Definition new (method path : string) (headers : list (string * string))
    (client_ip : option IpAddr) : result Error t :=
  method ← map_err (λ _, InvalidRequest ("unrecognized HTTP method: '" +:+ method +:+ "'"))
             (HttpMethod.from_str method);
  if is_empty path then Err (InvalidRequest "path cannot be empty")
  else if negb (starts_with_str "/" path)
  then Err (InvalidRequest ("path must start with '/': '" +:+ path +:+ "'"))
  else Ok {| method := method; path := path; query_string := None; headers := headers;
             client_ip := client_ip |}.
Definition with_query_string (query : string) (r : t) : t :=
  {| method := method r; path := path r; query_string := Some query; headers := headers r;
     client_ip := client_ip r |}.
End RequestInput.

(** * The debug endpoint ([http/src/debug.rs]) *)
Module FlagDebugQuery.
Record t := { user_id : UserId; tenant_id : option TenantId; groups : list GroupName }.
Definition invalid (what : string) (e : Error.t) : HttpError.t :=
  HttpError.InvalidQuery (what +:+ core_error_str e).
(** [fields]: the pairs the query string decodes to; the last of a name wins. *)
Definition field (fields : list (string * string)) (name : string) : option string :=
  foldl (λ acc kv, if bool_decide (kv.1 = name) then Some kv.2 else acc) None fields.
Definition parse (fields : list (string * string)) : result HttpError.t t :=
  user_id_str ← ok_or (field fields "user_id")
                  (HttpError.InvalidQuery "missing required parameter: user_id");
  user_id ← map_err (invalid "invalid user_id: ") (Id.new user_id_str);
  tenant_id ← match field fields "tenant_id" with
              | Some t => x ← map_err (invalid "invalid tenant_id: ") (Id.new t); Ok (Some x)
              | None => Ok None
              end;
  groups ← match field fields "groups" with
           | Some raw =>
               if is_empty raw then Ok []
               else mapM (λ g, map_err (invalid ("invalid group name '" +:+ g +:+ "': "))
                                 (Id.new (trim g))) (RustStr.split "," raw)
           | None => Ok []
           end;
  Ok {| user_id := user_id; tenant_id := tenant_id; groups := groups |}.
End FlagDebugQuery.
Definition http_error_str (e : HttpError.t) : string :=
  match e with
  | HttpError.Config m => "config error: " +:+ m
  | HttpError.Validation errors =>
      "validation failed: " +:+ pretty (N.of_nat (length errors)) +:+ " error(s)"
  | HttpError.RouteNotFound => "no route matched the request"
  | HttpError.InvalidQuery m => "invalid query: " +:+ m
  | HttpError.Core e => core_error_str e
  end.

(** * The pipeline *)
Module Pipeline.
Inductive EnforcementMode := Enforce | Observe.
Inductive PolicyEffect := NotEvaluated | Allowed | WouldAllow | WouldDeny.
Inductive DefaultPolicy := DenyByDefault | Passthrough.
#[global] Instance EnforcementMode_eq_dec : EqDecision EnforcementMode.
Proof. solve_decision. Defined.
#[global] Instance DefaultPolicy_eq_dec : EqDecision DefaultPolicy.
Proof. solve_decision. Defined.

(** Bodies are the text of a JSON value; [record] is the engine's. *)
Inductive PipelineOutcome (R : Type) :=
| Health (body : string)
| Debug (body : string)
| Reject (status : N) (body : string) (policy_denied : bool) (record : option R)
| Forward (identity : option Identity.t) (flags : option Features.ResolvedFlags)
    (matched_route : option Route.MatchedRoute) (record : option R) (effect : PolicyEffect).
Arguments Health {R} _. Arguments Debug {R} _. Arguments Reject {R} _ _ _ _.
Arguments Forward {R} _ _ _ _ _.

Definition UNAUTHORIZED : N := 401.
Definition BAD_REQUEST : N := 400.
Definition FORBIDDEN : N := 403.
Definition NOT_FOUND : N := 404.
Definition INTERNAL_SERVER_ERROR : N := 500.
Definition HEALTH_PATH : string := "/.well-known/forgeguard/health".
Definition FLAGS_DEBUG_PATH : string := "/.well-known/forgeguard/flags".

(** What a membership lookup returns: the groups of a member. *)
Definition MembershipResolver : Type :=
  UserId → OrganizationId → result string (option (list GroupName)).

Section pipeline.
Context {R : Type} `{Matchit}.
(** Libraries: the hash of the rollout, JSON text, form decoding. *)
Context (xxh64 : string → N) (json_to_string : Json.t → string).
Context (detailed_to_string : gmap string Features.ResolvedFlag → option string).
Context (form_urlencoded : string → list (string * string)).

Record PipelineConfig := {
  route_matcher : Route.RouteMatcher;
  public_route_matcher : Route.PublicRouteMatcher;
  flag_config : Features.FlagConfig;
  project_id : ProjectId;
  default_policy : DefaultPolicy;
  debug_mode : bool;
  auth_providers : list string;
  membership_resolver : option MembershipResolver;
}.

Definition reject_json (status : N) (error : string) : PipelineOutcome R :=
  Reject status (json_to_string (Json.Object [("error", Json.String error)])) false None.
Definition reject_forbidden_with_action_and_record (action : string) (record : option R)
    : PipelineOutcome R :=
  Reject FORBIDDEN
    (json_to_string (Json.Object [("error", Json.String "Forbidden"); ("action", Json.String action)]))
    true record.

Definition json_u64 (n : N) : Json.t := Json.Number (Json.PosInt n).
Definition health_response (config : PipelineConfig) (engine : PolicyEngine R)
    : PipelineOutcome R :=
  let optional name (o : option N) := match o with Some n => [(name, json_u64 n)] | None => [] end in
  Health (json_to_string (Json.Object
    ([("status", Json.String "ok");
      ("providers", Json.Array (Json.String <$> auth_providers config));
      ("flags", json_u64 (N.of_nat (length (Features.flags (flag_config config)))))] ++
     match cache_stats engine with
     | Some stats =>
         [("cache_hits", json_u64 (hits stats)); ("cache_misses", json_u64 (misses stats))] ++
         optional "l2_cache_hits" (l2_hits stats) ++
         optional "l2_cache_misses" (l2_misses stats) ++
         optional "l2_cache_errors" (l2_errors stats)
     | None => []
     end))).
Definition debug_response (config : PipelineConfig) (input : RequestInput.t)
    : PipelineOutcome R :=
  let query_str := default EmptyString (RequestInput.query_string input) in
  match FlagDebugQuery.parse (form_urlencoded query_str) with
  | Ok q =>
      let result := Features.evaluate_flags_detailed xxh64 (flag_config config)
                      (FlagDebugQuery.tenant_id q) (FlagDebugQuery.user_id q)
                      (FlagDebugQuery.groups q) in
      match detailed_to_string result with
      | Some json => Debug json
      | None => reject_json INTERNAL_SERVER_ERROR "Internal Server Error"
      end
  | Err e => reject_json BAD_REQUEST (http_error_str e)
  | Stuck w => reject_json BAD_REQUEST w
  end.

(** A phase continues with a value ([Ok]) or returns an outcome ([Err]). *)
Abbreviation phase := (result (PipelineOutcome R)).

Section request.
Context (config : PipelineConfig) (input : RequestInput.t).
Context (chain : Credential.t → result AuthnError.t Identity.t).
Context (engine : PolicyEngine R) (mode : EnforcementMode).

(** Phases 4 and 5: credential extraction and identity resolution. *)
Definition authenticate (public_match : Route.PublicMatch) : phase (option Identity.t) :=
  let require_credential := match public_match with Route.NotPublic => true | _ => false end in
  let try_credential := match public_match with
                        | Route.NotPublic | Route.Opportunistic => true
                        | Route.Anonymous => false end in
  if try_credential then
    match Extract.extract_credential (RequestInput.headers input) with
    | Ok (Some cred) =>
        match chain cred with
        | Ok id => Ok (Some id)
        | Err _ => if require_credential then Err (reject_json UNAUTHORIZED "Unauthorized")
                   else Ok None
        | Stuck w => Stuck w
        end
    | Ok None => if require_credential then Err (reject_json UNAUTHORIZED "Unauthorized")
                 else Ok None
    | Err e => match e with end
    | Stuck w => Stuck w
    end
  else Ok None.

(** Phase 5b: organization membership. *)
Definition enrich (require_credential : bool) (identity : option Identity.t)
    : phase (option Identity.t) :=
  match membership_resolver config, identity with
  | Some resolver, Some id =>
      match Identity.tenant_id id with
      | Some _ => Ok identity
      | None =>
          org_id ← match Extract.find_header (RequestInput.headers input) Signing.X_FG_ORG_ID with
                   | None => if require_credential
                             then Err (reject_json BAD_REQUEST "Missing X-Fg-Org-Id header")
                             else Ok None
                   | Some org_str =>
                       match Id.new org_str with
                       | Ok id => Ok (Some id)
                       | _ => Err (reject_json BAD_REQUEST "Invalid X-Fg-Org-Id header")
                       end
                   end;
          match org_id with
          | None => Ok identity
          | Some org_id =>
              match resolver (Identity.user_id id) org_id with
              | Ok (Some groups) =>
                  Ok (Some {| Identity.user_id := Identity.user_id id;
                              Identity.tenant_id := Some (Id.tenant_of_org org_id);
                              Identity.groups := groups;
                              Identity.expiry := Identity.expiry id;
                              Identity.resolver := Identity.resolver id;
                              Identity.extra := Identity.extra id;
                              Identity.principal_kind := Identity.principal_kind id |})
              | Ok None => Err (reject_json FORBIDDEN "Not a member of this organization")
              | Err _ => Err (reject_json INTERNAL_SERVER_ERROR "Internal Server Error")
              | Stuck w => Stuck w
              end
          end
      end
  | _, _ => Ok identity
  end.

(** Phase 8: the feature gate. *)
Definition feature_gate (flags : option Features.ResolvedFlags) (matched : Route.MatchedRoute)
    : phase () :=
  match Route.m_feature_gate matched with
  | Some gate =>
      let gate_enabled := match flags with
                          | Some f => Features.is_enabled f (FlagName.to_string gate)
                          | None => false end in
      if negb gate_enabled then Err (reject_json NOT_FOUND "Not Found") else Ok ()
  | None => Ok ()
  end.

(** Phase 9: the policy. *)
Definition authorize (identity : option Identity.t) (matched : Route.MatchedRoute)
    : phase (option R * PolicyEffect) :=
  match identity with
  | None => Ok (None, NotEvaluated)
  | Some id =>
      let query := build_query id matched (project_id config) (RequestInput.client_ip input) in
      '(allowed, decision_record) ←
        match evaluate engine query with
        | Ok evaluated => Ok (negb (Decision.evaluated_is_denied evaluated),
                              Decision.into_record evaluated)
        | Err _ => Ok (false, None)
        | Stuck w => Stuck w
        end;
      match mode, (allowed : bool) with
      | Enforce, true => Ok (decision_record, Allowed)
      | Observe, true => Ok (decision_record, WouldAllow)
      | Observe, false => Ok (decision_record, WouldDeny)
      | Enforce, false =>
          Err (reject_forbidden_with_action_and_record
                 (QualifiedAction.to_string (Route.m_action matched)) decision_record)
      end
  end.

Definition flags_of (identity : option Identity.t) : option Features.ResolvedFlags :=
  (λ id, Features.evaluate_flags xxh64 (flag_config config) (Identity.tenant_id id)
           (Identity.user_id id) (Identity.groups id)) <$> identity.

Definition phases : phase (PipelineOutcome R) :=
  let method := HttpMethod.to_string (RequestInput.method input) in
  let path := RequestInput.path input in
  if bool_decide (path = HEALTH_PATH) then Err (health_response config engine)
  else if debug_mode config && bool_decide (path = FLAGS_DEBUG_PATH)
  then Err (debug_response config input)
  else
    let public_match := Route.check (public_route_matcher config) method path in
    let require_credential := match public_match with Route.NotPublic => true | _ => false end in
    identity ← authenticate public_match;
    identity ← enrich require_credential identity;
    let flags := flags_of identity in
    match Route.match_request (route_matcher config) method path with
    | Some matched =>
        _ ← feature_gate flags matched;
        '(decision_record, effect) ← authorize identity matched;
        Ok (Forward identity flags (Some matched) decision_record effect)
    | None =>
        if Route.is_public public_match
        then Ok (Forward identity flags None None NotEvaluated)
        else match default_policy config with
        | DenyByDefault =>
            Err (Reject FORBIDDEN
                   (json_to_string (Json.Object [("error", Json.String "Forbidden");
                                                 ("reason", Json.String "no matching route")]))
                   false None)
        | Passthrough => Ok (Forward identity flags None None NotEvaluated)
        end
    end.
Definition evaluate_pipeline : result Empty_set (PipelineOutcome R) :=
  match phases with Ok o => Ok o | Err o => Ok o | Stuck w => Stuck w end.
End request.
End pipeline.
End Pipeline.

(** * What the pipeline decides *)
Section pipeline_facts.
Import Pipeline.
Context {R : Type} `{Matchit}.
Context (xxh64 : string → N) (json_to_string : Json.t → string).
Context (detailed_to_string : gmap string Features.ResolvedFlag → option string).
Context (form_urlencoded : string → list (string * string)).
Context (config : PipelineConfig) (input : RequestInput.t).
Context (chain : Credential.t → result AuthnError.t Identity.t) (engine : PolicyEngine R).

Abbreviation headers := (RequestInput.headers input).
Abbreviation run := (evaluate_pipeline xxh64 json_to_string detailed_to_string form_urlencoded
                       config input chain engine).
Definition public_match : Route.PublicMatch :=
  Route.check (public_route_matcher config) (HttpMethod.to_string (RequestInput.method input))
    (RequestInput.path input).
Definition matched_route : option Route.MatchedRoute :=
  Route.match_request (route_matcher config) (HttpMethod.to_string (RequestInput.method input))
    (RequestInput.path input).
(** The endpoints the pipeline answers itself. *)
Definition own_endpoint : bool :=
  bool_decide (RequestInput.path input = HEALTH_PATH) ||
  (debug_mode config && bool_decide (RequestInput.path input = FLAGS_DEBUG_PATH)).

(** The identity [id'] a resolved identity [id] is forwarded as. *)
Inductive enriched (id : Identity.t) : Identity.t → Prop :=
| enriched_same :
    membership_resolver config = None ∨ is_Some (Identity.tenant_id id) ∨
      (Extract.find_header headers Signing.X_FG_ORG_ID = None ∧ public_match ≠ Route.NotPublic) →
    enriched id id
| enriched_member resolver org_str org groups :
    membership_resolver config = Some resolver → Identity.tenant_id id = None →
    Extract.find_header headers Signing.X_FG_ORG_ID = Some org_str → Id.new org_str = Ok org →
    resolver (Identity.user_id id) org = Ok (Some groups) →
    enriched id {| Identity.user_id := Identity.user_id id;
                   Identity.tenant_id := Some (Id.tenant_of_org org);
                   Identity.groups := groups; Identity.expiry := Identity.expiry id;
                   Identity.resolver := Identity.resolver id; Identity.extra := Identity.extra id;
                   Identity.principal_kind := Identity.principal_kind id |}.

(** The identity a request acts under. *)
Inductive identified : option Identity.t → Prop :=
| identified_anonymous : public_match = Route.Anonymous → identified None
| identified_no_credential :
    public_match = Route.Opportunistic → Extract.extract_credential headers = Ok None →
    identified None
| identified_unresolved cred e :
    public_match = Route.Opportunistic → Extract.extract_credential headers = Ok (Some cred) →
    chain cred = Err e → identified None
| identified_resolved cred id id' :
    public_match ≠ Route.Anonymous → Extract.extract_credential headers = Ok (Some cred) →
    chain cred = Ok id → enriched id id' → identified (Some id').

Lemma enrich_Ok require oid oid' :
  require = (match public_match with Route.NotPublic => true | _ => false end) →
  enrich json_to_string (R := R) config input require oid = Ok oid' ↔
  match oid with
  | None => oid' = None
  | Some id => ∃ id', oid' = Some id' ∧ enriched id id'
  end.
Proof.
  intros Hreq. unfold enrich. destruct (membership_resolver config) as [resolver|] eqn:Hres; last first.
  { destruct oid as [id|]; [|naive_solver]. split.
    - intros [= <-]. exists id. split; [done|]. constructor. auto.
    - intros (id' & -> & He). destruct He; [done|congruence]. }
  destruct oid as [id|]; [|naive_solver].
  destruct (Identity.tenant_id id) as [tenant|] eqn:Ht.
  { split.
    - intros [= <-]. exists id. split; [done|]. constructor. rewrite Ht. eauto.
    - intros (id' & -> & He). destruct He; [done|congruence]. }
  destruct (Extract.find_header headers _) as [org_str|] eqn:Hh; simpl; last first.
  { destruct require; simpl; (split; [|intros (id' & -> & He)]).
    - done.
    - destruct He as [[?|[[? ?]|[_ Hpub]]]|]; [congruence..| |congruence].
      by destruct public_match.
    - intros [= <-]. exists id. split; [done|]. constructor. right; right.
      split; [done|]. by destruct public_match.
    - destruct He; [done|congruence]. }
  destruct (Id.new org_str) as [org| |] eqn:Horg; simpl; last first.
  1,2: split; [done|]; intros (id' & -> & He);
       destruct He as [[?|[[? ?]|[? _]]]|]; congruence.
  split.
  - destruct (resolver _ _) as [[groups|]| |] eqn:Hr; try done. intros [= <-].
    eexists. split; [done|]. by eapply enriched_member.
  - intros (id' & -> & He). destruct He as [[?|[[? ?]|[? _]]]|r o org' groups Hr _ Ho Hnew Hg];
      [congruence..|]. simplify_eq. rewrite Horg in Hnew. simplify_eq. by rewrite Hg.
Qed.

Lemma identified_spec oid' :
  (∃ oid, authenticate json_to_string (R := R) input chain public_match = Ok oid ∧
     enrich json_to_string (R := R) config input
       (match public_match with Route.NotPublic => true | _ => false end) oid = Ok oid') ↔
  identified oid'.
Proof.
  setoid_rewrite enrich_Ok; [|done]. unfold authenticate. split.
  - intros (oid & Ha & He). destruct public_match eqn:Hpub.
    + destruct (Extract.extract_credential headers) as [[cred|]|[]|] eqn:Hx; [|done..].
      destruct (chain cred) as [id| |] eqn:Hc; [|done..]. simplify_eq.
      destruct He as (id' & -> & He). eapply identified_resolved; [by rewrite Hpub|done..].
    + simplify_eq. by apply identified_anonymous.
    + destruct (Extract.extract_credential headers) as [[cred|]|[]|] eqn:Hx; [|simplify_eq|done].
      * destruct (chain cred) as [id|e|] eqn:Hc; [|simplify_eq|done].
        -- simplify_eq. destruct He as (id' & -> & He).
           eapply identified_resolved; [by rewrite Hpub|done..].
        -- by eapply identified_unresolved.
      * by apply identified_no_credential.
  - intros Hid. destruct Hid as [Hp|Hp Hx|cred e Hp Hx Hc|cred id id' Hp Hx Hc He].
    + exists None. by rewrite Hp.
    + exists None. by rewrite Hp, Hx.
    + exists None. by rewrite Hp, Hx, Hc.
    + exists (Some id). rewrite Hx, Hc. split; [by destruct public_match|eauto].
Qed.

Lemma identified_det i i' : identified i → identified i' → i = i'.
Proof.
  rewrite <-!identified_spec. intros (oid & Ha & He) (oid' & Ha' & He'). congruence.
Qed.

Definition gate_open (flags : option Features.ResolvedFlags) (mr : Route.MatchedRoute) : Prop :=
  ∀ gate, Route.m_feature_gate mr = Some gate →
    ∃ f, flags = Some f ∧ Features.is_enabled f (FlagName.to_string gate) = true.
Lemma feature_gate_Ok flags mr :
  feature_gate json_to_string (R := R) flags mr = Ok () ↔ gate_open flags mr.
Proof.
  unfold feature_gate, gate_open. destruct (Route.m_feature_gate mr) as [gate|]; [|naive_solver].
  assert (∀ P : FlagName.t → Prop, (∀ g, Some gate = Some g → P g) ↔ P gate) as ->.
  { naive_solver. }
  destruct flags as [f|]; simpl; [|split; [done|by intros (? & ? & _)]].
  destruct (Features.is_enabled f _) eqn:He; simpl.
  - split; [eauto|done].
  - split; [done|]. intros (f' & [= <-] & He'). congruence.
Qed.

Abbreviation phases' :=
  (phases xxh64 json_to_string detailed_to_string form_urlencoded config input chain engine).
Abbreviation flags' := (flags_of xxh64 config).

(** The phases before the policy, which do not depend on the mode. *)
Definition admission : result (PipelineOutcome R) (option Identity.t * option Route.MatchedRoute) :=
  if bool_decide (RequestInput.path input = HEALTH_PATH)
  then Err (health_response json_to_string config engine)
  else if debug_mode config && bool_decide (RequestInput.path input = FLAGS_DEBUG_PATH)
  then Err (debug_response xxh64 json_to_string detailed_to_string form_urlencoded config input)
  else
    identity ← authenticate json_to_string input chain public_match;
    identity ← enrich json_to_string config input
                 (match public_match with Route.NotPublic => true | _ => false end) identity;
    match matched_route with
    | Some mr => _ ← feature_gate json_to_string (flags' identity) mr; Ok (identity, Some mr)
    | None =>
        if Route.is_public public_match then Ok (identity, None)
        else match default_policy config with
        | DenyByDefault =>
            Err (Reject FORBIDDEN
                   (json_to_string (Json.Object [("error", Json.String "Forbidden");
                                                 ("reason", Json.String "no matching route")]))
                   false None)
        | Passthrough => Ok (identity, None)
        end
    end.
(** The policy and the outcome. *)
Definition conclude mode (i : option Identity.t) (omr : option Route.MatchedRoute)
    : result (PipelineOutcome R) (PipelineOutcome R) :=
  match omr with
  | Some mr =>
      '(rec, effect) ← authorize json_to_string config input engine mode i mr;
      Ok (Forward i (flags' i) (Some mr) rec effect)
  | None => Ok (Forward i (flags' i) None None NotEvaluated)
  end.

Lemma phases_admission mode : phases' mode = ('(i, omr) ← admission; conclude mode i omr).
Proof.
  unfold phases, admission. fold public_match. fold matched_route.
  case_bool_decide; [done|]. destruct (debug_mode config && _); [done|].
  destruct (authenticate _ _ _ _) as [oid| |]; [|done..]. cbn [mbind result_bind].
  destruct (enrich _ _ _ _ _) as [oid'| |]; [|done..]. cbn [mbind result_bind].
  destruct matched_route as [mr|].
  - by destruct (feature_gate _ _ _) as [[]| |].
  - destruct (Route.is_public _); [done|]. by destruct (default_policy config).
Qed.

Lemma admission_Ok i omr :
  admission = Ok (i, omr) ↔
  own_endpoint = false ∧ identified i ∧ omr = matched_route ∧
    match omr with
    | Some mr => gate_open (flags' i) mr
    | None => Route.is_public public_match = true ∨ default_policy config = Passthrough
    end.
Proof.
  unfold admission, own_endpoint. case_bool_decide; [naive_solver|]. cbn [orb].
  destruct (debug_mode config && _); [naive_solver|]. rewrite <-identified_spec, bind_Ok. split.
  - intros (oid & Ha & (oid' & He & Hrest)%bind_Ok). destruct matched_route as [mr|].
    + apply bind_Ok in Hrest as ([] & Hg%feature_gate_Ok & [= -> <-]). eauto 6.
    + destruct (Route.is_public public_match); [|destruct (default_policy config); [done|]].
      all: simplify_eq; split_and!; eauto.
  - intros (_ & (oid & Ha & He) & -> & Hrest). exists oid. split; [done|].
    apply bind_Ok. exists i. split; [done|]. destruct matched_route as [mr|].
    + apply feature_gate_Ok in Hrest. by rewrite Hrest.
    + destruct Hrest as [-> | ->]; [done|]. by destruct (Route.is_public _).
Qed.

Definition is_forward (o : PipelineOutcome R) : bool :=
  match o with Forward _ _ _ _ _ => true | _ => false end.
Definition denied (o : PipelineOutcome R) : bool :=
  match o with Reject _ _ policy_denied _ => policy_denied | _ => false end.

(** Early returns before the policy are neither forwards nor policy denials. *)
Lemma admission_Err o : admission = Err o → is_forward o = false ∧ denied o = false.
Proof.
  unfold admission. case_bool_decide; [by intros [= <-]|].
  destruct (debug_mode config && _).
  { intros [= <-]. unfold debug_response. destruct (FlagDebugQuery.parse _); [|done..].
    by destruct (detailed_to_string _). }
  intros [Ha|(oid & _ & [He|(oid' & _ & Hr)]%bind_Err)]%bind_Err.
  - unfold authenticate in Ha. destruct public_match; [|done|].
    all: destruct (Extract.extract_credential _) as [[cred|]|[]|]; [|by simplify_eq..].
    all: destruct (chain cred); by simplify_eq.
  - unfold enrich in He. destruct (membership_resolver config) as [resolver|], oid as [id|]; [|done..].
    destruct (Identity.tenant_id id); [done|].
    destruct (Extract.find_header _ _) as [org_str|]; simpl in He.
    + destruct (Id.new org_str); simpl in He; [|by simplify_eq..].
      destruct (resolver _ _) as [[]| |]; by simplify_eq.
    + destruct public_match; simpl in He; by simplify_eq.
  - destruct matched_route as [mr|].
    + apply bind_Err in Hr as [Hg|([] & _ & ?)]; [|done].
      unfold feature_gate in Hg. destruct (Route.m_feature_gate mr); [|done].
      destruct (negb _); by simplify_eq.
    + destruct (Route.is_public _); [done|]. destruct (default_policy config); by simplify_eq.
Qed.

(** The verdict of the engine on a query: whether it allows, and its record;
    an error counts as a denial. *)
Definition verdict (id : Identity.t) (mr : Route.MatchedRoute) : option (bool * option R) :=
  match evaluate engine (build_query id mr (project_id config) (RequestInput.client_ip input)) with
  | Ok ev => Some (negb (Decision.evaluated_is_denied ev), Decision.into_record ev)
  | Err _ => Some (false, None)
  | Stuck _ => None
  end.
Lemma conclude_verdict mode id mr :
  conclude mode (Some id) (Some mr) =
  match verdict id mr with
  | Some (true, rec) => Ok (Forward (Some id) (flags' (Some id)) (Some mr) rec
                              (match mode with Enforce => Allowed | Observe => WouldAllow end))
  | Some (false, rec) =>
      match mode with
      | Observe => Ok (Forward (Some id) (flags' (Some id)) (Some mr) rec WouldDeny)
      | Enforce => Err (reject_forbidden_with_action_and_record json_to_string
                          (QualifiedAction.to_string (Route.m_action mr)) rec)
      end
  | None => conclude mode (Some id) (Some mr)
  end.
Proof.
  unfold conclude, authorize, verdict.
  destruct (evaluate engine _) as [ev| |]; [|by destruct mode|done].
  cbn [mbind result_bind]. by destruct mode, (negb _).
Qed.
Lemma conclude_stuck mode id mr :
  verdict id mr = None → ∃ w, conclude mode (Some id) (Some mr) = Stuck w.
Proof.
  unfold conclude, authorize, verdict. destruct (evaluate engine _); [done..|]. eauto.
Qed.
(** Without an identity or a route the policy is not evaluated. *)
Lemma conclude_skips mode i omr :
  i = None ∨ omr = None →
  conclude mode i omr = Ok (Forward i (flags' i) omr None NotEvaluated).
Proof. unfold conclude. intros [-> | ->]; [by destruct omr|done]. Qed.

(** What the run returns, by phase. *)
Lemma run_spec mode :
  run mode = match admission with
             | Err o => Ok o
             | Stuck w => Stuck w
             | Ok (i, omr) => match conclude mode i omr with
                              | Ok o | Err o => Ok o | Stuck w => Stuck w end
             end.
Proof. unfold evaluate_pipeline. rewrite phases_admission. by destruct admission as [[i omr]| |]. Qed.

(** What the policy lets through in enforce mode. *)
Lemma conclude_enforce i omr i' f omr' rec eff :
  match conclude Enforce i omr with
  | Ok o | Err o => (Ok o : result Empty_set _) | Stuck w => Stuck w
  end = Ok (Forward i' f omr' rec eff) ↔
  i' = i ∧ f = flags' i ∧ omr' = omr ∧
  match omr, i with
  | Some mr, Some id => ∃ ev,
      evaluate engine (build_query id mr (project_id config) (RequestInput.client_ip input)) =
        Ok ev ∧ Decision.decision ev = Decision.Allow ∧ rec = Decision.record ev ∧ eff = Allowed
  | _, _ => rec = None ∧ eff = NotEvaluated
  end.
Proof.
  destruct omr as [mr|], i as [id|]; [|rewrite conclude_skips by auto; naive_solver..].
  unfold conclude, authorize. destruct (evaluate engine _) as [ev| |]; [|naive_solver..].
  cbn [mbind result_bind]. unfold Decision.evaluated_is_denied, Decision.into_record.
  destruct (Decision.decision ev) eqn:Hd; simpl.
  - split; [intros [= <- <- <- <- <-]; eauto 10|].
    by intros (-> & -> & -> & ev' & [= <-] & _ & -> & ->).
  - split; [done|]. intros (_ & _ & _ & ev' & [= <-] & ? & _). congruence.
Qed.

(** The enforced forwards. *)
Lemma enforced_forward_spec i f omr rec eff :
  run Enforce = Ok (Forward i f omr rec eff) ↔
  own_endpoint = false ∧ identified i ∧ f = flags' i ∧ omr = matched_route ∧
  match omr with
  | Some mr =>
      gate_open f mr ∧
      match i with
      | Some id => ∃ ev,
          evaluate engine (build_query id mr (project_id config) (RequestInput.client_ip input)) =
            Ok ev ∧ Decision.decision ev = Decision.Allow ∧
          rec = Decision.record ev ∧ eff = Allowed
      | None => rec = None ∧ eff = NotEvaluated
      end
  | None =>
      (Route.is_public public_match = true ∨ default_policy config = Passthrough) ∧
      rec = None ∧ eff = NotEvaluated
  end.
Proof.
  rewrite run_spec. split.
  - destruct admission as [[i0 omr0]|o|w] eqn:Ha; [|intros [= ->]|done].
    + intros (-> & -> & -> & Hc)%conclude_enforce.
      apply admission_Ok in Ha as (Ho & Hi & -> & Hr). split_and!; [done..|].
      by destruct matched_route, i0.
    + by apply admission_Err in Ha as [? _].
  - intros (Ho & Hi & -> & -> & Hr).
    rewrite (proj2 (admission_Ok i matched_route)).
    + apply conclude_enforce. split_and!; [done..|]. destruct matched_route, i; by destruct Hr.
    + split_and!; [done..|]. by destruct matched_route; destruct Hr.
Qed.

(** C5: in enforce mode the pipeline forwards exactly the requests it should.
    A request is forwarded, with this identity, flags, route, record and
    effect, if and only if: it is not for the pipeline's own endpoints; the
    identity is the one its credential resolves to (enriched with the verified
    organization), or none where the route is public and anonymous or the
    opportunistic credential is missing or unresolved; the flags are those of
    the identity; and either a route matches, its feature gate is open, and for
    an identified request the engine returned, and did not deny, the query
    built from that identity and route; or no route matches and the route is
    public or the default policy passes requests through. *)
Theorem enforced_forward_iff i f omr rec eff :
  run Enforce = Ok (Forward i f omr rec eff) ↔
  own_endpoint = false ∧ identified i ∧ f = flags' i ∧ omr = matched_route ∧
  match omr with
  | Some mr =>
      gate_open f mr ∧
      match i with
      | Some id => ∃ ev,
          evaluate engine (build_query id mr (project_id config) (RequestInput.client_ip input)) =
            Ok ev ∧ Decision.decision ev = Decision.Allow ∧
          rec = Decision.record ev ∧ eff = Allowed
      | None => rec = None ∧ eff = NotEvaluated
      end
  | None =>
      (Route.is_public public_match = true ∨ default_policy config = Passthrough) ∧
      rec = None ∧ eff = NotEvaluated
  end.
Proof. apply enforced_forward_spec. Qed.

(** a rejection is reported as a policy denial exactly when the policy
    denied: in enforce mode, for an identified request that matched a route
    whose gate is open, when the engine denied the query built from them or
    failed to evaluate it; it carries the engine's record, and status 403. *)
Theorem policy_denied_iff mode status body rec :
  run mode = Ok (Reject status body true rec) ↔
  mode = Enforce ∧ own_endpoint = false ∧ status = FORBIDDEN ∧
  ∃ id mr, identified (Some id) ∧ matched_route = Some mr ∧ gate_open (flags' (Some id)) mr ∧
    body = json_to_string (Json.Object [("error", Json.String "Forbidden");
             ("action", Json.String (QualifiedAction.to_string (Route.m_action mr)))]) ∧
    verdict id mr = Some (false, rec).
Proof.
  rewrite run_spec. split.
  - destruct admission as [[i omr]|o|w] eqn:Ha; [|intros [= ->]|done]; last first.
    { by apply admission_Err in Ha as [_ ?]. }
    apply admission_Ok in Ha as (Ho & Hi & -> & Hr).
    destruct i as [id|]; [|by rewrite conclude_skips by auto].
    destruct matched_route as [mr|]; [|by rewrite conclude_skips by auto].
    destruct (verdict id mr) as [[[] r]|] eqn:Hv.
    + by rewrite conclude_verdict, Hv.
    + rewrite conclude_verdict, Hv. destruct mode; [|done]. intros [= <- <- <-]. eauto 12.
    + destruct (conclude_stuck mode _ _ Hv) as [w ->]. done.
  - intros (-> & Ho & -> & id & mr & Hi & Hm & Hg & -> & Hv).
    rewrite (proj2 (admission_Ok (Some id) (Some mr))) by done.
    by rewrite conclude_verdict, Hv.
Qed.

(** C27: observing differs from enforcing only where the policy denies.  For the
    same request, the observing pipeline forwards what the enforcing one
    forwards, with the effect [WouldAllow] for [Allowed]; what the enforcing one
    rejects as a policy denial it forwards with the effect [WouldDeny] and the
    same record; and every other outcome is the same. *)
Theorem observe_mirrors_enforce o :
  run Observe = Ok o ↔
  match o with
  | Forward i f omr rec WouldDeny =>
      ∃ id mr, i = Some id ∧ omr = Some mr ∧ f = flags' i ∧ identified i ∧
        run Enforce = Ok (reject_forbidden_with_action_and_record json_to_string
                            (QualifiedAction.to_string (Route.m_action mr)) rec) ∧
        matched_route = Some mr
  | Forward i f omr rec WouldAllow => run Enforce = Ok (Forward i f omr rec Allowed)
  | Forward i f omr rec Allowed => False
  | o => run Enforce = Ok o ∧ denied o = false
  end.
Proof.
  rewrite !run_spec. destruct admission as [[i omr]|oe|w] eqn:Ha; last first.
  { destruct o as [| | |? ? ? ? []]; naive_solver. }
  { apply admission_Err in Ha as [Hf Hd].
    destruct o as [| | |i f omr rec []]; split; [intros [= ->]; done|naive_solver|..];
      try (by intros [= ->]); try naive_solver; intros (? & ? & ? & ? & ? & ? & [= ->] & ?); done. }
  apply admission_Ok in Ha as (Ho & Hi & -> & Hr).
  assert ((i = None ∨ matched_route = None) ∨ ∃ id mr, i = Some id ∧ matched_route = Some mr)
    as [Hskip|(id & mr & -> & Hm)] by (destruct i, matched_route; eauto 6).
  { rewrite !conclude_skips by done. split; [by intros [= <-]|].
    destruct o as [| | |? ? ? ? []]; naive_solver. }
  rewrite Hm. destruct (verdict id mr) as [[[] r]|] eqn:Hv.
  1,2: rewrite (conclude_verdict Enforce), (conclude_verdict Observe), Hv.
  - split; [by intros [= <-]|]. destruct o as [| | |? ? ? ? []]; naive_solver.
  - split; [intros [= <-]; eauto 10|]. destruct o as [| | |? ? ? ? []]; try naive_solver.
    intros (id' & mr' & -> & -> & -> & Hi' & [= _ ->] & [= <-]).
    by pose proof (identified_det _ _ Hi Hi') as [= <-].
  - destruct (conclude_stuck Enforce _ _ Hv) as [w ->], (conclude_stuck Observe _ _ Hv) as [w' ->].
    split; [done|]. destruct o as [| | |? ? ? ? []]; naive_solver.
Qed.

Lemma phases_forward mode o : phases' mode = Ok o → is_forward o = true.
Proof.
  rewrite phases_admission. intros ([i omr] & _ & Hc)%bind_Ok. unfold conclude in Hc.
  destruct omr; [|by simplify_eq]. apply bind_Ok in Hc as ([rec eff] & _ & ?). by simplify_eq.
Qed.
Lemma forward_identified mode i f omr rec eff :
  run mode = Ok (Forward i f omr rec eff) → identified i.
Proof.
  rewrite run_spec. destruct admission as [[i0 omr0]|o|w] eqn:Ha; [|intros [= ->]|done].
  - apply admission_Ok in Ha as (_ & Hi & _). destruct i0 as [id|], omr0 as [mr|].
    2-4: rewrite conclude_skips by auto; by intros [= <- _ _ _].
    destruct (verdict id mr) as [[[] r]|] eqn:Hv.
    3: by destruct (conclude_stuck mode _ _ Hv) as [w ->].
    all: rewrite conclude_verdict, Hv; destruct mode; by intros [= <- _ _ _].
  - by apply admission_Err in Ha as [? _].
Qed.

(** a forwarded identity is authenticated and its tenant is verified, in
    either mode.  It is the identity the chain resolved the request's
    credential to, or that identity moved into the organization named by the
    organization header after the membership resolver confirmed the user as a
    member, with exactly the groups of that membership; the user and the kind
    of principal are always the credential's.  Where a membership resolver is
    configured, a route that is not public is only forwarded with a tenant. *)
Theorem forwarded_tenant_verified mode id f omr rec eff :
  run mode = Ok (Forward (Some id) f omr rec eff) →
  public_match ≠ Route.Anonymous ∧
  (∃ cred id0, Extract.extract_credential headers = Ok (Some cred) ∧ chain cred = Ok id0 ∧
     Identity.user_id id = Identity.user_id id0 ∧
     Identity.principal_kind id = Identity.principal_kind id0 ∧
     (id = id0 ∨
      ∃ resolver org_str org, membership_resolver config = Some resolver ∧
        Identity.tenant_id id0 = None ∧
        Extract.find_header headers Signing.X_FG_ORG_ID = Some org_str ∧ Id.new org_str = Ok org ∧
        Identity.tenant_id id = Some (Id.tenant_of_org org) ∧
        resolver (Identity.user_id id0) org = Ok (Some (Identity.groups id)))) ∧
  (is_Some (membership_resolver config) → public_match = Route.NotPublic →
   is_Some (Identity.tenant_id id)).
Proof.
  intros Hid%forward_identified. inversion Hid as [| | |cred id0 id' Hpub Hx Hc He Heq]; subst.
  split; [done|]. split.
  - exists cred, id0. destruct He; simpl; eauto 15.
  - intros [resolver Hres] Hnot. destruct He as [[?|[?|[_ ?]]]|]; [congruence|done|done|].
    simpl. eauto.
Qed.

(** a request that needs no credential is the only one forwarded without an
    identity: an unidentified forward is of a public route. *)
Theorem unauthenticated_forward_public mode f omr rec eff :
  run mode = Ok (Forward None f omr rec eff) →
  Route.is_public public_match = true ∧ f = None ∧ rec = None ∧ eff = NotEvaluated ∧
  ∀ mr, omr = Some mr → Route.m_feature_gate mr = None.
Proof.
  rewrite run_spec. destruct admission as [[i0 omr0]|o|w] eqn:Ha; [|intros [= ->]|done]; last first.
  { by apply admission_Err in Ha as [? _]. }
  apply admission_Ok in Ha as (_ & Hi & _ & Hr). intros Hrun.
  assert (i0 = None) as ->.
  { destruct i0 as [id|]; [|done]. destruct omr0 as [mr|].
    - destruct (verdict id mr) as [[[] r]|] eqn:Hv.
      3: by destruct (conclude_stuck mode _ _ Hv) as [w Hw]; rewrite Hw in Hrun.
      all: rewrite conclude_verdict, Hv in Hrun; by destruct mode.
    - by rewrite conclude_skips in Hrun by auto. }
  rewrite conclude_skips in Hrun by auto. injection Hrun as <- <- <- <-.
  split_and!; [|done..|].
  - inversion Hi as [Hp|Hp|? ? Hp|]; by rewrite Hp.
  - intros mr ->. destruct (Route.m_feature_gate mr) eqn:Hg; [|done].
    by destruct (Hr _ Hg) as (? & ? & _).
Qed.

(** A phase that settles continues, or returns with a proper status. *)
Definition proper (o : PipelineOutcome R) : Prop :=
  ∀ status body d rec, o = Reject status body d rec →
    status ∈ [BAD_REQUEST; UNAUTHORIZED; FORBIDDEN; NOT_FOUND; INTERNAL_SERVER_ERROR].
Definition settles {A} (r : result (PipelineOutcome R) A) : Prop :=
  match r with Ok _ => True | Err o => proper o | Stuck _ => False end.
Lemma settles_bind {A B} (r : result (PipelineOutcome R) A) (k : A → result _ B) :
  settles r → (∀ a, r = Ok a → settles (k a)) → settles (r ≫= k).
Proof. destruct r; simpl; auto. Qed.
Lemma proper_reject s b d rec :
  s ∈ [BAD_REQUEST; UNAUTHORIZED; FORBIDDEN; NOT_FOUND; INTERNAL_SERVER_ERROR] →
  proper (Reject s b d rec).
Proof. by intros ? ? ? ? ? [= -> _ _ _]. Qed.

Section returns.
Context (Hascii : ∀ auth, Extract.find_header headers "authorization" = Some auth →
  str_all ExtractFacts.is_ascii auth = true).
Context (Hchain : ∀ cred w, chain cred ≠ Stuck w).
Context (Hres : ∀ resolver u org w,
  membership_resolver config = Some resolver → resolver u org ≠ Stuck w).
Context (Heng : ∀ q w, evaluate engine q ≠ Stuck w).

Lemma authenticate_settles : settles (authenticate json_to_string input chain public_match).
Proof.
  unfold authenticate. destruct (ExtractFacts.extract_total headers Hascii) as [c ->].
  destruct public_match; [|done|]; destruct c as [cred|]; simpl; try done.
  - destruct (chain cred) eqn:Hc; [done|apply proper_reject; set_solver|by apply Hchain in Hc].
  - apply proper_reject. set_solver.
  - destruct (chain cred) eqn:Hc; [done..|by apply Hchain in Hc].
Qed.
Lemma enrich_settles b i : settles (enrich json_to_string config input b i).
Proof.
  unfold enrich. destruct (membership_resolver config) as [resolver|] eqn:Hm, i as [id|]; try done.
  destruct (Identity.tenant_id id); [done|]. apply settles_bind.
  - destruct (Extract.find_header _ Signing.X_FG_ORG_ID) as [org_str|].
    + destruct (Id.new (k := OrganizationIdK) org_str); [done|apply proper_reject; set_solver..].
    + destruct b; [apply proper_reject; set_solver|done].
  - intros [org|] _; [|done]. destruct (resolver _ _) as [[]| |w] eqn:Hr; simpl.
    + done.
    + apply proper_reject. set_solver.
    + apply proper_reject. set_solver.
    + by apply (Hres _ _ _ w eq_refl) in Hr.
Qed.
Lemma feature_gate_settles flags mr : settles (feature_gate json_to_string flags mr).
Proof.
  unfold feature_gate. destruct (Route.m_feature_gate mr); [|done].
  destruct (negb _); [apply proper_reject; set_solver|done].
Qed.
Lemma authorize_settles mode i mr :
  settles (authorize json_to_string config input engine mode i mr).
Proof.
  unfold authorize. destruct i as [id|]; [|done]. apply settles_bind.
  - destruct (evaluate engine _) eqn:He; [done..|by apply Heng in He].
  - intros [[] rec] _; destruct mode; try done. apply proper_reject. set_solver.
Qed.
Lemma phases_settles mode : settles (phases' mode).
Proof.
  unfold phases. fold public_match. case_bool_decide; [done|].
  destruct (debug_mode config && _).
  { unfold debug_response. destruct (FlagDebugQuery.parse _).
    - destruct (detailed_to_string _); [done|]. apply proper_reject. set_solver.
    - apply proper_reject. set_solver.
    - apply proper_reject. set_solver. }
  apply settles_bind; [apply authenticate_settles|]. intros i _.
  apply settles_bind; [apply enrich_settles|]. intros i' _.
  destruct (Route.match_request _ _ _) as [mr|].
  - apply settles_bind; [apply feature_gate_settles|]. intros _ _.
    apply settles_bind; [apply authorize_settles|]. by intros [rec eff] _.
  - destruct (Route.is_public _); [done|]. destruct (default_policy config); [|done].
    apply proper_reject. set_solver.
Qed.
End returns.

Lemma pipeline_settles mode :
  (∀ auth, Extract.find_header headers "authorization" = Some auth →
     str_all ExtractFacts.is_ascii auth = true) →
  (∀ cred w, chain cred ≠ Stuck w) →
  (∀ resolver u org w, membership_resolver config = Some resolver → resolver u org ≠ Stuck w) →
  (∀ q w, evaluate engine q ≠ Stuck w) →
  ∃ o, run mode = Ok o ∧
    ∀ status body d rec, o = Reject status body d rec →
      status ∈ [BAD_REQUEST; UNAUTHORIZED; FORBIDDEN; NOT_FOUND; INTERNAL_SERVER_ERROR].
Proof.
  intros Hascii Hchain Hres Heng.
  pose proof (phases_settles Hascii Hchain Hres Heng mode) as Hs.
  pose proof (λ o, phases_forward mode o) as Hf.
  unfold evaluate_pipeline. destruct (phases' mode) as [o|o|w]; simpl in Hs; [..|done].
  - exists o. split; [done|]. intros ? ? ? ? ->. by pose proof (Hf _ eq_refl).
  - exists o. split; [done|]. exact Hs.
Qed.

(** the pipeline answers every request.  When the identity chain, the
    membership resolver and the engine return and the authorization value is
    ASCII, it returns an outcome, and a rejection has status 400, 401, 403, 404
    or 500. *)
Theorem pipeline_returns mode :
  (∀ auth, Extract.find_header headers "authorization" = Some auth →
     str_all ExtractFacts.is_ascii auth = true) →
  (∀ cred w, chain cred ≠ Stuck w) →
  (∀ resolver u org w, membership_resolver config = Some resolver → resolver u org ≠ Stuck w) →
  (∀ q w, evaluate engine q ≠ Stuck w) →
  ∃ o, run mode = Ok o ∧
    ∀ status body d rec, o = Reject status body d rec →
      status ∈ [BAD_REQUEST; UNAUTHORIZED; FORBIDDEN; NOT_FOUND; INTERNAL_SERVER_ERROR].
Proof. apply pipeline_settles. Qed.
End pipeline_facts.

(** * Samples *)
Module PipelineSample.
Import Pipeline ListRouter.
Definition seg (k : id_kind) (s : string) : Id.t k := Id.mk (Segment.mk s).
Definition matcher : Route.RouteMatcher :=
  match Route.matcher_new RouteSample.no_wide RouteSample.routes with
  | Ok m => m | _ => Route.empty_matcher end.
Definition public_matcher : Route.PublicRouteMatcher :=
  match Route.public_new RouteSample.no_wide RouteSample.public_routes with
  | Ok m => m | _ => Route.empty_matcher end.
(** Ann belongs to [acme], in one group. *)
Definition members : MembershipResolver := λ u org,
  if bool_decide (Id.as_str u = "ann") && bool_decide (Id.as_str org = "acme")
  then Ok (Some [seg GroupNameK "writers"]) else Ok None.
Definition config : PipelineConfig := {|
  route_matcher := matcher; public_route_matcher := public_matcher;
  flag_config := {| Features.flags := [] |}; project_id := seg ProjectIdK "todo";
  default_policy := DenyByDefault; debug_mode := false; auth_providers := ["api-key"];
  membership_resolver := Some members |}.
Definition chain : Credential.t → result AuthnError.t Identity.t :=
  IdentityChain.resolve [StaticApiKey.resolver
    {[ "k1" := {| StaticApiKey.key_user_id := seg UserIdK "ann";
                  StaticApiKey.key_tenant_id := None; StaticApiKey.key_groups := [] |} ]}].
Definition engine : PolicyEngine () :=
  StaticPolicyEngine.engine (StaticPolicyEngine.new Decision.Allow).
Definition request (path : string) (headers : list (string * string)) : RequestInput.t :=
  {| RequestInput.method := HttpMethod.Get; RequestInput.path := path;
     RequestInput.query_string := None; RequestInput.headers := headers;
     RequestInput.client_ip := None |}.
Definition no_json : Json.t → string := λ _, EmptyString.
Definition run (input : RequestInput.t) : result Empty_set (PipelineOutcome ()) :=
  evaluate_pipeline (λ _, 0%N) no_json (λ _, None) (λ _, []) config input chain engine Enforce.
Definition ann : RequestInput.t :=
  request "/lists/7" [("x-api-key", "k1"); ("X-Fg-Org-Id", "acme")].

(** The identity of an outcome, if it forwards. *)
Definition forwarded (r : result Empty_set (PipelineOutcome ())) : option (option string) :=
  match r with
  | Ok (Forward (Some id) _ _ _ _) => Some (Id.as_str <$> Identity.tenant_id id)
  | Ok (Forward None _ _ _ _) => Some None
  | _ => None
  end.
Lemma run_ann : forwarded (run ann) = Some (Some "acme").
Proof. vm_compute. reflexivity. Qed.
Lemma run_about : forwarded (run (request "/about" [])) = Some None.
Proof. vm_compute. reflexivity. Qed.
End PipelineSample.

Lemma forwarded_tenant_verified_witness :
  ∃ id f omr rec eff,
    PipelineSample.run PipelineSample.ann = Ok (Pipeline.Forward (Some id) f omr rec eff) ∧
    is_Some (Identity.tenant_id id).
Proof.
  pose proof PipelineSample.run_ann as Hrun.
  destruct (PipelineSample.run PipelineSample.ann) as [[| | |[id|] f omr rec eff]| |] eqn:Hr;
    try discriminate Hrun.
  exists id, f, omr, rec, eff. split; [reflexivity|].
  refine (proj2 (proj2 (forwarded_tenant_verified (λ _, 0%N) PipelineSample.no_json (λ _, None)
    (λ _, []) PipelineSample.config PipelineSample.ann PipelineSample.chain PipelineSample.engine
    Pipeline.Enforce id f omr rec eff Hr)) _ _).
  - exists PipelineSample.members. reflexivity.
  - vm_compute. reflexivity.
Defined.

Lemma unauthenticated_forward_public_witness :
  ∃ f omr rec eff,
    PipelineSample.run (PipelineSample.request "/about" []) =
      Ok (Pipeline.Forward None f omr rec eff) ∧ eff = Pipeline.NotEvaluated.
Proof.
  pose proof PipelineSample.run_about as Hrun.
  destruct (PipelineSample.run (PipelineSample.request "/about" [])) as [[| | |[id|] f omr rec eff]| |]
    eqn:Hr; try discriminate Hrun.
  - exfalso. vm_compute in Hr. discriminate Hr.
  - exists f, omr, rec, eff. split; [reflexivity|].
    exact (proj1 (proj2 (proj2 (proj2 (unauthenticated_forward_public (λ _, 0%N)
      PipelineSample.no_json (λ _, None) (λ _, []) PipelineSample.config
      (PipelineSample.request "/about" []) PipelineSample.chain PipelineSample.engine
      Pipeline.Enforce f omr rec eff Hr))))).
Defined.

Lemma pipeline_returns_witness :
  ∃ o, PipelineSample.run PipelineSample.ann = Ok o.
Proof.
  destruct (pipeline_returns (λ _, 0%N) PipelineSample.no_json (λ _, None) (λ _, [])
    PipelineSample.config PipelineSample.ann PipelineSample.chain PipelineSample.engine
    Pipeline.Enforce) as (o & Ho & _).
  - intros auth Ha. vm_compute in Ha. discriminate Ha.
  - intros [t|k|? ? ? ? ?] w; [done| |done]. unfold PipelineSample.chain. simpl.
    destruct (_ !! k); done.
  - intros resolver u org w [= <-]. unfold PipelineSample.members. by destruct (_ && _).
  - intros q w. done.
  - exists o. exact Ho.
Defined.
