(* ===== verification/Engine.v ===== *)
(** The embedded policy engine of [crates/authz-core]: the translation of
    entity slices and grants to Cedar ([engine_cedar/translate.rs]), the
    enrichment of decision records ([enrich.rs], [record.rs],
    [scope_path.rs]), decisions over delegation chains ([engine.rs]), the
    adapter from flat queries ([adapter.rs]) and policy snapshots
    ([snapshot/]).  Cedar itself is a library behind a class. *)

From stdpp Require Import pretty.
From S2P Require Import Prelude RustStr Decimal Ident Fgrn Forest Spine Grants Delegation Store.
From S2P Require Import Rbac Event Action Features Authn Http Pipeline.

(** * The Cedar library *)
Abbreviation EntityUid := (string * string)%type.
(** An entity without attributes. *)
Record CedarEntity := new_no_attrs { entity_uid : EntityUid; parents : gset EntityUid }.
Class Cedar := {
  PolicySet : Type;
  Entities : Type;
  Request : Type;
  policy_set_from_str : string → result string PolicySet;
  from_entities : list CedarEntity → result string Entities;
  request_new : EntityUid → EntityUid → EntityUid → result string Request;
  (** The authorizer's decision: does it allow? *)
  is_authorized : Request → PolicySet → Entities → bool;
}.

(** * Snapshots *)
Module SnapshotVersion.
Definition FNV_OFFSET : N := 0xcbf29ce484222325.
Definition FNV_PRIME : N := 0x100000001b3.
Fixpoint fnv (hash : N) (s : string) : N :=
  match s with
  | EmptyString => hash
  | String c s => fnv ((N.lxor hash (byte_val c) * FNV_PRIME) mod 2 ^ 64) s
  end.
(** [{:016x}]. *)
Fixpoint hex (digits : nat) (n : N) (acc : string) : string :=
  match digits with
  | 0 => acc
  | S digits => hex digits (n / 16) (String (Rbac.hex_digit (n mod 16)) acc)
  end.
Definition of_text (policy_text : string) : string := hex 16 (fnv FNV_OFFSET policy_text) EmptyString.
End SnapshotVersion.

Section snapshot.
Context `{Cedar}.
Record Snapshot := { policies : PolicySet; policy_text : string; version : string }.
Definition from_policy_text (text : string) : result AuthzError.t Snapshot :=
  policies ← map_err AuthzError.InvalidPolicy (policy_set_from_str text);
  Ok {| policies := policies; policy_text := text; version := SnapshotVersion.of_text text |}.
Definition from_rbac (entries : list Rbac.RbacEntry) (tenant : Rbac.TenantConfig)
    (namespace : string) : result AuthzError.t Snapshot :=
  statements ← mapM (λ entry,
    allow ← map_err AuthzError.InvalidPolicy (Rbac.resolve_inherits entries (Rbac.name entry));
    map_err AuthzError.InvalidPolicy
      (Rbac.compile_rbac_to_cedar
         {| Rbac.name := Rbac.name entry; Rbac.description := Rbac.description entry;
            Rbac.inherits := []; Rbac.allow := allow;
            Rbac.tenant_scoped := Rbac.tenant_scoped entry |} tenant namespace)) entries;
  from_policy_text (RustStr.join (Rbac.nl +:+ Rbac.nl) statements).
End snapshot.

(** * Records *)
Module ScopePath.
Record t := mk { units : list Fgrn.t }.
Definition try_new (units : list Fgrn.t) : result AuthzError.t t :=
  match units with
  | [] => Err (AuthzError.InvalidScopePath "empty path")
  | first :: _ =>
      let org := Fgrn.organization first in
      _ ← for_each (λ unit,
        if negb (bool_decide (Fgrn.kind unit = FgrnKind.OrgUnit))
        then Err (AuthzError.InvalidScopePath (Fgrn.to_string unit +:+ " is not an org unit"))
        else if negb (bool_decide (Fgrn.organization unit = org))
        then Err (AuthzError.InvalidScopePath (Fgrn.to_string unit +:+ " is not in organization " +:+
                                               Segment.as_str org))
        else Ok ()) units;
      Ok (mk units)
  end.
Definition leaf (p : t) : option Fgrn.t := last (units p).
Definition to_string (p : t) : string :=
  RustStr.join "/" ((λ u, NativeId.as_str (Fgrn.id u)) <$> units p).
End ScopePath.

Module DecisionQuery.
Record t := mk {
  principal : Fgrn.t;
  action : Verb.t;
  resource : Fgrn.t;
  revision : option Revision.t;
  chain : option DelegationChain.t;
}.
Definition new (principal : Fgrn.t) (action : Verb.t) (resource : Fgrn.t) : t :=
  mk principal action resource None None.
Definition at_revision (q : t) (r : Revision.t) : t :=
  mk (principal q) (action q) (resource q) (Some r) (chain q).
Definition with_chain (q : t) (c : DelegationChain.t) : result AuthzError.t t :=
  actor ← map_err AuthzError.Core (DelegationChain.actor c);
  if negb (bool_decide (actor = principal q))
  then Err (AuthzError.ChainActorMismatch (Fgrn.to_string (principal q)) (Fgrn.to_string actor))
  else Ok (mk (principal q) (action q) (resource q) (revision q) (Some c)).
End DecisionQuery.

Module EngineDecision.
Inductive t := Allow | Deny.
#[global] Instance t_eq_dec : EqDecision t.
Proof. solve_decision. Defined.
End EngineDecision.

Module DecisionRecord.
Record t := mk {
  decision : EngineDecision.t;
  snapshot_version : string;
  revision : Revision.t;
  scope_path : ScopePath.t;
  entitlements : list Verb.t;
  granted_ids : list NativeId.t;
}.
Definition is_allow (r : t) : bool := bool_decide (decision r = EngineDecision.Allow).
End DecisionRecord.

(** * Enrichment *)
Module Enrich.
Definition parents_of (units : list OrgUnit.t) : gmap Fgrn.t (option Fgrn.t) :=
  foldl (λ m u, <[OrgUnit.fgrn u := OrgUnit.parent u]> m) ∅ units.
(** The [while let] walk to the root, bounded by [fuel]. *)
Fixpoint scope_loop (fuel : nat) (parents : gmap Fgrn.t (option Fgrn.t)) (chain : list Fgrn.t)
    (cursor : Fgrn.t) (seen : gset Fgrn.t) : result AuthzError.t (list Fgrn.t) :=
  match parents !! cursor with
  | Some (Some parent) =>
      if bool_decide (parent ∈ seen) then Ok chain
      else match fuel with
           | 0 => Stuck "scope_path_of: loop bound"
           | S fuel => scope_loop fuel parents (chain ++ [parent]) parent ({[parent]} ∪ seen)
           end
  | _ => Ok chain
  end.
Definition scope_path_of (slice : EntitySlice.t) : result AuthzError.t ScopePath.t :=
  let anchor := Principal.anchor (EntitySlice.principal slice) in
  chain ← scope_loop (length (EntitySlice.org_units slice))
            (parents_of (EntitySlice.org_units slice)) [anchor] anchor {[anchor]};
  expect_ok (ScopePath.try_new (reverse chain)) "principal anchor chain is always a valid ScopePath".

Definition grantees (slice : EntitySlice.t) : gset Fgrn.t :=
  {[Principal.fgrn (EntitySlice.principal slice)]} ∪
  list_to_set (PrincipalSet.fgrn <$> EntitySlice.principal_sets slice) ∪
  list_to_set (OrgUnit.fgrn <$> EntitySlice.org_units slice).
Definition entitlements_of (slice : EntitySlice.t) : list Verb.t :=
  let granted := filter (λ g, Grant.to g ∈ grantees slice) (EntitySlice.grants slice) in
  btree_iter Grant.verb_cmp (⋃ (Grant.actions <$> granted)).

(** [dedup] on a sorted vector: consecutive equal elements. *)
Fixpoint dedup (l : list NativeId.t) : list NativeId.t :=
  match l with
  | x :: (y :: _) as rest => if bool_decide (x = y) then dedup rest else x :: dedup rest
  | l => l
  end.
Definition id_le (x y : NativeId.t) : Prop :=
  cmp_le String.compare (NativeId.as_str x) (NativeId.as_str y).
#[global] Instance id_le_dec : RelDecision id_le.
Proof. intros x y. unfold id_le. apply _. Defined.
Definition granted_ids_of (slice : EntitySlice.t) : list NativeId.t :=
  let principal := Principal.fgrn (EntitySlice.principal slice) in
  let direct := filter (λ g, Grant.to g = principal) (EntitySlice.grants slice) in
  dedup (merge_sort id_le
    (omap (λ g, snd <$> Fgrn.resource_parts (Grant.resource g)) direct)).
End Enrich.

(** * Translation to Cedar *)
Module Translate.
Definition cedar_principal_type (k : PrincipalKind.t) : string :=
  match k with PrincipalKind.Human => "User" | PrincipalKind.Service | PrincipalKind.Agent => "Machine" end.
(** The entity types are constants that are valid type names. *)
Definition uid (entity_type : string) (fgrn : Fgrn.t) : EntityUid :=
  (entity_type, Fgrn.to_string fgrn).
Definition promotion_anchor_type (k : FgrnKind.t) : string :=
  match k with
  | FgrnKind.OrgUnit => "OrgUnit" | FgrnKind.Principal => "User" | _ => "Resource" end.

(** [Type::"id"]. *)
Definition entity_ref (entity_type id : string) : string :=
  entity_type +:+ "::" +:+ String Rbac.quote (id +:+ String Rbac.quote EmptyString).
Definition grant_principal_clause (to : Fgrn.t) (slice : EntitySlice.t) : string :=
  match Fgrn.kind to with
  | FgrnKind.PrincipalSet => "principal in " +:+ entity_ref "PSet" (Fgrn.to_string to)
  | FgrnKind.OrgUnit => "principal in " +:+ entity_ref "OrgUnit" (Fgrn.to_string to)
  | _ =>
      let p := EntitySlice.principal slice in
      let entity_type := if bool_decide (Principal.fgrn p = to)
                         then cedar_principal_type (Principal.kind p) else "User" in
      "principal == " +:+ entity_ref entity_type (Fgrn.to_string to)
  end.
Definition action_clause (verb : Verb.t) : result AuthzError.t string :=
  _ ← map_err AuthzError.InvalidPolicy
        (Rbac.validate_cedar_ident (Verb.as_str verb) "grant action");
  Ok (entity_ref "Action" (Verb.as_str verb)).

(** The entities of one decision, in the order they are pushed. *)
Definition unit_entity (slice : EntitySlice.t) (u : OrgUnit.t) : CedarEntity :=
  new_no_attrs (uid "OrgUnit" (OrgUnit.fgrn u))
    match OrgUnit.parent u with
    | Some parent =>
        if existsb (λ u, bool_decide (OrgUnit.fgrn u = parent)) (EntitySlice.org_units slice)
        then {[uid "OrgUnit" parent]} else ∅
    | None => ∅
    end.
Definition set_entity (s : PrincipalSet.t) : CedarEntity :=
  new_no_attrs (uid "PSet" (PrincipalSet.fgrn s)) ∅.
Definition principal_entity (slice : EntitySlice.t) : CedarEntity :=
  let p := EntitySlice.principal slice in
  new_no_attrs (uid (cedar_principal_type (Principal.kind p)) (Principal.fgrn p))
    (list_to_set ((λ s, uid "PSet" (PrincipalSet.fgrn s)) <$>
       filter (λ s, PrincipalSet.contains s (Principal.fgrn p) = true)
         (EntitySlice.principal_sets slice)) ∪
     if bool_decide (Fgrn.kind (Principal.anchor p) = FgrnKind.OrgUnit)
     then {[uid "OrgUnit" (Principal.anchor p)]} else ∅).
Definition resource_entity (slice : EntitySlice.t) (resource : Fgrn.t) : CedarEntity :=
  new_no_attrs (uid "Resource" resource)
    match EntitySlice.promotion slice with
    | Some promo =>
        let anchor := PromotedResource.anchor promo in
        {[uid (promotion_anchor_type (Fgrn.kind anchor)) anchor]}
    | None => ∅
    end.
Definition slice_entities (slice : EntitySlice.t) (resource : Fgrn.t) : list CedarEntity :=
  (unit_entity slice <$> EntitySlice.org_units slice) ++
  (set_entity <$> EntitySlice.principal_sets slice) ++
  [principal_entity slice; resource_entity slice resource].
Definition slice_to_entities `{Cedar} (slice : EntitySlice.t) (resource : Fgrn.t)
    : result AuthzError.t Entities :=
  map_err (λ e, AuthzError.EvaluationFailed ("entity slice invalid: " +:+ e))
    (from_entities (slice_entities slice resource)).

Definition grant_statement (slice : EntitySlice.t) (grant : Grant.t) : result AuthzError.t string :=
  let to := Grant.to grant in
  _ ← map_err AuthzError.InvalidPolicy
        (Rbac.validate_cedar_ident (Fgrn.to_string to) "grant target");
  let principal_clause := grant_principal_clause to slice in
  let resource := Grant.resource grant in
  _ ← map_err AuthzError.InvalidPolicy
        (Rbac.validate_cedar_ident (Fgrn.to_string resource) "grant resource");
  actions ← mapM action_clause (Grant.action_list grant);
  Ok ("permit(" +:+ Rbac.nl +:+ "  " +:+ principal_clause +:+ "," +:+ Rbac.nl +:+
      "  action in [" +:+ RustStr.join ", " actions +:+ "]," +:+ Rbac.nl +:+
      "  resource == " +:+ entity_ref "Resource" (Fgrn.to_string resource) +:+ Rbac.nl +:+ ");").
Definition grant_policies (slice : EntitySlice.t) : result AuthzError.t string :=
  statements ← mapM (grant_statement slice) (EntitySlice.grants slice);
  Ok (RustStr.join (Rbac.nl +:+ Rbac.nl) statements).
End Translate.

(** * Decisions *)
Module CedarEngine.
Section engine.
Context `{Cedar} {S : Type} `{AuthzStore S}.
Context (snapshot : Snapshot) (store : S).

Definition build_request (slice : EntitySlice.t) (action : Verb.t) (resource : Fgrn.t)
    : result AuthzError.t Request :=
  let principal := EntitySlice.principal slice in
  map_err (λ e, AuthzError.EvaluationFailed ("invalid request: " +:+ e))
    (request_new
       (Translate.uid (Translate.cedar_principal_type (Principal.kind principal))
          (Principal.fgrn principal))
       ("Action", Verb.as_str action)
       (Translate.uid "Resource" resource)).

(** One link of the chain, read at the pinned revision. *)
Definition evaluate_link (action : Verb.t) (resource : Fgrn.t) (revision : Revision.t)
    (principal : Fgrn.t) : result AuthzError.t (EngineDecision.t * EntitySlice.t) :=
  slice ← slice store (SliceQuery.at_revision (SliceQuery.new principal resource) revision);
  entities ← Translate.slice_to_entities slice resource;
  grants ← Translate.grant_policies slice;
  let combined := policy_text snapshot +:+ Rbac.nl +:+ Rbac.nl +:+ grants in
  policies ← map_err (λ e, AuthzError.InvalidPolicy ("snapshot+grants: " +:+ e))
               (policy_set_from_str combined);
  request ← build_request slice action resource;
  let decision := if is_authorized request policies entities
                  then EngineDecision.Allow else EngineDecision.Deny in
  Ok (decision, slice).

(** The loop over the remaining links, left at the first denial. *)
Fixpoint decide_rest (action : Verb.t) (resource : Fgrn.t) (revision : Revision.t)
    (decision : EngineDecision.t) (rest : list Fgrn.t) : result AuthzError.t EngineDecision.t :=
  match rest with
  | [] => Ok decision
  | link :: rest =>
      if bool_decide (decision = EngineDecision.Deny) then Ok decision
      else
        '(link_decision, _) ← evaluate_link action resource revision link;
        decide_rest action resource revision link_decision rest
  end.

Definition links_of (query : DecisionQuery.t) : list Fgrn.t :=
  match DecisionQuery.chain query with
  | Some chain => DelegationChain.links chain
  | None => [DecisionQuery.principal query]
  end.
Definition decide (query : DecisionQuery.t) : result AuthzError.t DecisionRecord.t :=
  revision ← match DecisionQuery.revision query with
             | Some revision => Ok revision
             | None => latest_revision store
             end;
  match links_of query with
  | [] => Err (AuthzError.EvaluationFailed "delegation chain produced no links")
  | first :: rest =>
      '(decision, principal_slice) ←
        evaluate_link (DecisionQuery.action query) (DecisionQuery.resource query) revision first;
      decision ← decide_rest (DecisionQuery.action query) (DecisionQuery.resource query) revision
                   decision rest;
      scope_path ← Enrich.scope_path_of principal_slice;
      Ok (DecisionRecord.mk decision (version snapshot) revision scope_path
            (Enrich.entitlements_of principal_slice) (Enrich.granted_ids_of principal_slice))
  end.
End engine.
End CedarEngine.

(** * The adapter *)
Module Adapter.
Definition map_query (org : Segment.t) (query : PolicyQuery.t)
    : result AuthzError.t DecisionQuery.t :=
  principal_id ← map_err AuthzError.Core
    (NativeId.try_new (Id.as_str (PrincipalRef.user_id (PolicyQuery.principal query))));
  let principal := Fgrn.principal org principal_id in
  let a := PolicyQuery.action query in
  action ← map_err AuthzError.Core (Verb.try_new
    (Namespace.as_str (QualifiedAction.namespace a) +:+ "--" +:+
     Entity.as_str (QualifiedAction.entity a) +:+ "--" +:+
     Action.as_str (QualifiedAction.action a)));
  '(resource_type, native_id) ←
    match PolicyQuery.resource query with
    | Some r =>
        t ← map_err AuthzError.Core (Segment.try_new (Entity.as_str (ResourceRef.entity r)));
        n ← map_err AuthzError.Core (NativeId.try_new (ResourceId.as_str (ResourceRef.id r)));
        Ok (t, n)
    | None =>
        t ← map_err AuthzError.Core (Segment.try_new "app");
        n ← map_err AuthzError.Core (NativeId.try_new "app");
        Ok (t, n)
    end;
  resource ← map_err AuthzError.Core (Fgrn.resource org resource_type native_id);
  Ok (DecisionQuery.new principal action resource).

Section embedded.
Context `{Cedar} {S : Type} `{AuthzStore S}.
Context (error_str : AuthzError.t → string).
(** [EmbeddedPolicyEngine]: the engine over a store, as a policy engine. *)
Definition embedded (snapshot : Snapshot) (store : S) (org : Segment.t)
    : PolicyEngine DecisionRecord.t := {|
  evaluate query :=
    match map_query org query with
    | Err e => Ok (Decision.bare (Decision.Deny (Decision.EvaluationError (error_str e))))
    | Stuck w => Stuck w
    | Ok decision_query =>
        record ← CedarEngine.decide snapshot store decision_query;
        let decision := if DecisionRecord.is_allow record then Decision.Allow
                        else Decision.Deny Decision.NoMatchingPolicy in
        Ok (Decision.with_record decision record)
    end;
  cache_stats := None;
|}.
End embedded.
End Adapter.

(** * Decisions over a chain *)
Section decide_facts.
Import CedarEngine.
Context `{Cedar} {S : Type} `{AuthzStore S}.
Context (snapshot : Snapshot).
Implicit Types (s : S) (q : DecisionQuery.t).

(** What one link answers. *)
Definition link_answer s q rev (link : Fgrn.t) : result AuthzError.t (EngineDecision.t * EntitySlice.t) :=
  evaluate_link snapshot s (DecisionQuery.action q) (DecisionQuery.resource q) rev link.
Definition link_allows s q rev (link : Fgrn.t) : Prop :=
  ∃ sl, link_answer s q rev link = Ok (EngineDecision.Allow, sl).
Definition query_revision s q : result AuthzError.t Revision.t :=
  match DecisionQuery.revision q with Some r => Ok r | None => latest_revision s end.

(** The links from a decision on: all of them allow, the first that does not
    denies, or the first that neither allows nor denies fails. *)
Lemma decide_rest_spec s q rev d rest r :
  decide_rest snapshot s (DecisionQuery.action q) (DecisionQuery.resource q) rev d rest = r →
  (d = EngineDecision.Deny ∧ r = Ok EngineDecision.Deny) ∨
  (d = EngineDecision.Allow ∧
   ((r = Ok EngineDecision.Allow ∧ ∀ l, l ∈ rest → link_allows s q rev l) ∨
    ∃ before l after, rest = before ++ l :: after ∧
      (∀ x, x ∈ before → link_allows s q rev x) ∧
      ((∃ sl, r = Ok EngineDecision.Deny ∧ link_answer s q rev l = Ok (EngineDecision.Deny, sl)) ∨
       (∃ e, r = Err e ∧ link_answer s q rev l = Err e) ∨
       (∃ w, r = Stuck w ∧ link_answer s q rev l = Stuck w)))).
Proof.
  revert d. induction rest as [|l rest IH]; intros d; simpl.
  { intros <-. destruct d; [right|left; done]. split; [done|]. left. split; [done|]. set_solver. }
  destruct d; simpl; [right|intros <-; by left]. split; [done|].
  fold (link_answer s q rev l) in *.
  change (evaluate_link snapshot s (DecisionQuery.action q) (DecisionQuery.resource q) rev l)
    with (link_answer s q rev l) in *.
  destruct (link_answer s q rev l) as [[d sl]|e|w] eqn:Hl; simpl in *.
  - destruct (IH d) as [[-> Hr]|[-> Hr]]; [done|..].
    + right. exists [], l, rest. split_and!; [done|set_solver|]. left. eauto.
    + destruct Hr as [[Hr Hall]|(before & x & after & -> & Hb & Hx)].
      * left. split; [done|]. intros y [->|Hy]%elem_of_cons; [by exists sl|auto].
      * right. exists (l :: before), x, after. split_and!; [done| |done].
        intros y [->|Hy]%elem_of_cons; [by exists sl|auto].
  - right. exists [], l, rest. subst r. split_and!; [done|set_solver|]. eauto.
  - right. exists [], l, rest. subst r. split_and!; [done|set_solver|]. eauto 6.
Qed.

(** The parts of a decision that was made. *)
Lemma decide_Ok s q rec :
  decide snapshot s q = Ok rec ↔
  ∃ rev first rest d0 sl d sp,
    query_revision s q = Ok rev ∧ links_of q = first :: rest ∧
    link_answer s q rev first = Ok (d0, sl) ∧
    decide_rest snapshot s (DecisionQuery.action q) (DecisionQuery.resource q) rev d0 rest = Ok d ∧
    Enrich.scope_path_of sl = Ok sp ∧
    rec = DecisionRecord.mk d (version snapshot) rev sp (Enrich.entitlements_of sl)
            (Enrich.granted_ids_of sl).
Proof.
  unfold decide, query_revision, link_answer. split.
  - intros (rev & Hrev & Hr)%bind_Ok. destruct (links_of q) as [|first rest]; [done|].
    apply bind_Ok in Hr as ([d0 sl] & Hf & (d & Hd & (sp & Hsp & [= <-])%bind_Ok)%bind_Ok).
    exists rev, first, rest, d0, sl, d, sp. done.
  - intros (rev & first & rest & d0 & sl & d & sp & Hrev & Hl & Hf & Hd & Hsp & ->).
    rewrite Hrev. cbn [mbind result_bind]. rewrite Hl, Hf. cbn [mbind result_bind].
    rewrite Hd. cbn [mbind result_bind]. by rewrite Hsp.
Qed.

(** C18: a chained decision is the intersection of its links.  A decision that is
    made names the snapshot's version and one revision, the pinned one or the
    store's latest; it allows exactly when every link, from the actor to the
    subject, is allowed by Cedar on its own slice read at that revision; and a
    denial is the denial of one link after all the links before it allowed. *)
Theorem decide_intersects_chain s q rec :
  decide snapshot s q = Ok rec →
  query_revision s q = Ok (DecisionRecord.revision rec) ∧
  DecisionRecord.snapshot_version rec = version snapshot ∧
  (DecisionRecord.decision rec = EngineDecision.Allow ↔
   ∀ link, link ∈ links_of q → link_allows s q (DecisionRecord.revision rec) link) ∧
  (DecisionRecord.decision rec = EngineDecision.Deny →
   ∃ before link after sl, links_of q = before ++ link :: after ∧
     (∀ x, x ∈ before → link_allows s q (DecisionRecord.revision rec) x) ∧
     link_answer s q (DecisionRecord.revision rec) link = Ok (EngineDecision.Deny, sl)).
Proof.
  intros (rev & first & rest & d0 & sl & d & sp & Hrev & Hl & Hf & Hd & Hsp & ->)%decide_Ok.
  simpl. rewrite Hl. split; [done|]. split; [done|].
  assert (d0 = EngineDecision.Allow → link_allows s q rev first) as Hfirst.
  { intros ->. by exists sl. }
  destruct (decide_rest_spec _ _ _ _ _ _ Hd) as [[-> [= ->]]|[-> Hcases]].
  { split; [|intros _; exists [], first, rest, sl; split_and!; [done|set_solver|done]].
    split; [done|]. intros Hall. destruct (Hall first) as [sl' Hsl']; [left|]. congruence. }
  destruct Hcases as [[[= ->] Hall]|(before & l & after & -> & Hb & Hl')].
  { split; [|done]. split; [|done]. intros _ x [->|Hx]%elem_of_cons; auto. }
  destruct Hl' as [(sl' & [= ->] & Hden)|[(e & ? & _)|(w & ? & _)]]; [|done..]. split.
  - split; [done|]. intros Hall. destruct (Hall l) as [sl2 Hsl2]; [set_solver|]. congruence.
  - intros _. exists (first :: before), l, after, sl'. split_and!; [done| |done].
    intros x [->|Hx]%elem_of_cons; auto.
Qed.
End decide_facts.

(** * Replaying decisions *)
Section replay_facts.
Import CedarEngine.
Context `{Cedar} {S : Type} `{AuthzStoreLaws S valid}.
Context (snapshot : Snapshot).
Implicit Types (s : S) (q : DecisionQuery.t).

Lemma evaluate_link_known s a r rev link x l :
  valid s → latest_revision s = Ok l →
  evaluate_link snapshot s a r rev link = Ok x →
  (0 < Revision.value rev ≤ Revision.value l)%N.
Proof.
  intros Hs Hl (sl & Hsl & _)%bind_Ok.
  destruct (base.decide (0 < Revision.value rev ≤ Revision.value l)%N) as [?|Hno]; [done|].
  pose proof (law_unknown s (SliceQuery.new link r) rev l Hs Hl) as Hu.
  rewrite Hu in Hsl; [done|lia].
Qed.
(** A revision the store has produced answers the same after any writes. *)
Lemma evaluate_link_stable s ws a r rev link l :
  valid s → latest_revision s = Ok l → (0 < Revision.value rev ≤ Revision.value l)%N →
  evaluate_link snapshot (run_writes s ws) a r rev link =
  evaluate_link snapshot s a r rev link.
Proof. intros Hs Hl Hr. unfold evaluate_link. by rewrite (run_writes_stable s ws _ rev l). Qed.
Lemma decide_rest_stable s ws a r rev l d rest :
  valid s → latest_revision s = Ok l → (0 < Revision.value rev ≤ Revision.value l)%N →
  decide_rest snapshot (run_writes s ws) a r rev d rest = decide_rest snapshot s a r rev d rest.
Proof.
  intros Hs Hl Hr. revert d. induction rest as [|x rest IH]; intros d; simpl; [done|].
  case_bool_decide; [done|]. rewrite (evaluate_link_stable s ws a r rev x l) by done.
  destruct (evaluate_link snapshot s a r rev x) as [[d' sl]| |]; [|done..]. apply IH.
Qed.

Lemma decide_replay s ws q rec l :
  valid s → latest_revision s = Ok l → decide snapshot s q = Ok rec →
  decide snapshot (run_writes s ws) (DecisionQuery.at_revision q (DecisionRecord.revision rec)) =
  Ok rec.
Proof.
  intros Hs Hl (rev & first & rest & d0 & sl & d & sp & Hrev & Hlk & Hf & Hd & Hsp & ->)%decide_Ok.
  pose proof (evaluate_link_known _ _ _ _ _ _ _ Hs Hl Hf) as Hr.
  apply decide_Ok. exists rev, first, rest, d0, sl, d, sp. split_and!; [done|done|..|done|done].
  - unfold link_answer in *. simpl. by rewrite (evaluate_link_stable s ws _ _ rev first l).
  - simpl. by rewrite (decide_rest_stable s ws _ _ rev l).
Qed.

(** a recorded decision can be replayed.  For every store that keeps the
    store interface's promises, asking the same question at the revision a
    decision record names, after any sequence of accepted and rejected writes,
    gives the same record: the same verdict, scope path, entitlements and
    granted ids. *)
Theorem decision_replays s ws q rec l :
  valid s → latest_revision s = Ok l → decide snapshot s q = Ok rec →
  decide snapshot (run_writes s ws) (DecisionQuery.at_revision q (DecisionRecord.revision rec)) =
  Ok rec.
Proof. apply decide_replay. Qed.
End replay_facts.

(** * Enrichment of slices *)
Module EnrichFacts.
Import Enrich.
Section slice.
Context (m : ModelState.t) (pr : Principal.t) (r : Fgrn.t) (sl : EntitySlice.t).
Context (Hm : ModelState.wf m) (Hpr : Principal.wf pr) (Hsl : slice_of m pr r sl).
Abbreviation sp := (ModelState.spine m).

Lemma parents_of_lookup us u :
  NoDup (OrgUnit.fgrn <$> us) → u ∈ us → parents_of us !! OrgUnit.fgrn u = Some (OrgUnit.parent u).
Proof.
  unfold parents_of. induction us as [|u' us IH] using rev_ind; intros Hnd Hu; [by apply not_elem_of_nil in Hu|].
  rewrite foldl_snoc. rewrite fmap_app in Hnd. apply NoDup_app in Hnd as (Hnd & Hnot & _).
  apply elem_of_app in Hu as [Hu| ->%list_elem_of_singleton]; [|by rewrite lookup_insert_eq].
  rewrite lookup_insert_ne; [by apply IH|]. intros Heq.
  apply (Hnot (OrgUnit.fgrn u)); [apply list_elem_of_fmap; eauto|]. simpl. rewrite Heq. left.
Qed.
(** The slice's units hold the spine's parents for the principal's ancestry. *)
Lemma parents_of_spine x :
  rtc (Spine.edge sp) (Principal.anchor pr) x →
  parents_of (EntitySlice.org_units sl) !! x = Spine.units sp !! x.
Proof.
  intros Hx. apply Principal.wf_iff in Hpr as (_ & Hk & _).
  assert (is_Some (Spine.units sp !! x)) as [o Ho].
  { destruct (slice_anchor_known _ _ _ _ Hsl (Principal.anchor pr)) as [o Ho]; [left|done|].
    destruct (SpineFacts.wf_up_path sp (Principal.anchor pr) (ModelState.wf_spine _ Hm)) as [l Hl];
      [by eexists|].
    eapply up_path_dom; [exact Hl|]. by apply (up_path_ancestors _ _ _ _ Hl). }
  rewrite Ho. apply (parents_of_lookup _ (OrgUnit.mk x o)).
  - apply (slice_units_once _ _ _ _ Hsl).
  - apply (slice_units _ _ _ _ Hsl). split; [done|]. exists (Principal.anchor pr).
    split_and!; [left|done|done].
Qed.

Lemma scope_loop_path fuel chain x l seen :
  up_path (Spine.units sp) x (x :: l) → rtc (Spine.edge sp) (Principal.anchor pr) x →
  length l ≤ fuel → (∀ y, y ∈ l → y ∉ seen) →
  scope_loop fuel (parents_of (EntitySlice.org_units sl)) chain x seen = Ok (chain ++ l).
Proof.
  revert chain x l seen. induction fuel as [|fuel IH]; intros chain x l seen Hup Hx Hlen Hseen.
  - destruct l; [|simpl in *; lia]. inversion Hup as [? Hroot|? ? ? ? Hp]; subst.
    + simpl. rewrite parents_of_spine, Hroot by done. by rewrite app_nil_r.
    + by destruct (up_path_head _ _ _ Hp).
  - inversion Hup as [? Hroot|? y l' Hedge Hp]; subst; simpl.
    + rewrite parents_of_spine, Hroot by done. by rewrite app_nil_r.
    + destruct (up_path_head _ _ _ Hp) as [l' ->].
      rewrite parents_of_spine by done. rewrite Hedge.
      rewrite bool_decide_eq_false_2 by (apply Hseen; left).
      pose proof (up_path_NoDup _ _ _ Hp) as Hnd. apply NoDup_cons in Hnd as [Hy _].
      rewrite (IH _ y l'); [by rewrite <-app_assoc|done| | |].
      * by eapply rtc_r.
      * simpl in Hlen. lia.
      * intros z Hz. rewrite not_elem_of_union, not_elem_of_singleton.
        split; [by intros ->|]. apply Hseen. by right.
Qed.

Lemma scope_path_spec :
  ∃ path, Spine.path sp (Principal.anchor pr) = Ok path ∧
    scope_path_of sl = Ok (ScopePath.mk path).
Proof.
  pose proof (ModelState.wf_spine _ Hm) as Hwf.
  pose proof Hpr as (_ & Hk & _)%Principal.wf_iff.
  assert (is_Some (Spine.units sp !! Principal.anchor pr)) as Hanchor.
  { apply (slice_anchor_known _ _ _ _ Hsl); [left|done]. }
  destruct (SpineFacts.path_total sp _ Hwf Hanchor) as [path Hpath]. exists path. split; [done|].
  pose proof Hpath as Hup%SpineFacts.path_Ok; [|done].
  destruct (up_path_head _ _ _ Hup) as [l Hl]. rewrite Hl in Hup.
  unfold scope_path_of. rewrite (slice_principal _ _ _ _ Hsl).
  assert (∀ y, y ∈ Principal.anchor pr :: l → is_Some (Spine.units sp !! y)) as Hdom.
  { intros y Hy. by eapply up_path_dom. }
  rewrite (scope_loop_path _ _ _ l); [|done|done| |].
  - simpl. rewrite <-Hl, reverse_involutive. unfold ScopePath.try_new.
    destruct path as [|first path]; [done|].
    rewrite (proj2 (for_each_Ok _ _)); [done|]. intros x Hx.
    assert (∀ y, y ∈ first :: path → is_Some (Spine.units sp !! y)) as Hd.
    { intros y Hy. apply Hdom. rewrite <-Hl. by apply elem_of_reverse. }
    rewrite bool_decide_eq_true_2 by (eapply Spine.wf_kind; [done|by apply Hd]).
    rewrite bool_decide_eq_true_2; [done|].
    rewrite !(Spine.wf_org sp Hwf); [done|apply Hd; left|by apply Hd].
  - pose proof (up_path_NoDup _ _ _ Hup) as Hnd. apply NoDup_cons in Hnd as [_ Hnd].
    rewrite <-(length_fmap OrgUnit.fgrn). apply submseteq_length, NoDup_submseteq; [done|].
    intros y Hy. destruct (Hdom y) as [o Ho]; [by right|].
    apply list_elem_of_fmap. exists (OrgUnit.mk y o). split; [done|].
    apply (slice_units _ _ _ _ Hsl). split; [done|]. exists (Principal.anchor pr).
    split_and!; [left|done|]. apply (up_path_ancestors _ _ _ _ Hup). by right.
  - pose proof (up_path_NoDup _ _ _ Hup) as Hnd. apply NoDup_cons in Hnd as [Hnot _].
    intros y Hy. rewrite not_elem_of_singleton. by intros ->.
Qed.
End slice.
End EnrichFacts.

(** the scope path of a decision record is the principal's place in the
    organization: for every slice selected from a well-formed model it is, root
    first, the path of the principal's anchor in the spine, and computing it
    neither loops nor panics. *)
Theorem scope_path_exact m p r rev sl :
  ModelState.wf m → Slice.select_slice m p r rev = Ok sl →
  ∃ pr path, ModelState.principal m p = Some pr ∧
    Spine.path (ModelState.spine m) (Principal.anchor pr) = Ok path ∧
    Enrich.scope_path_of sl = Ok (ScopePath.mk path).
Proof.
  intros Hm (pr & Hp & _ & Hsl & _)%select_slice_of; [|done].
  destruct (EnrichFacts.scope_path_spec m pr r sl Hm) as (path & Hpath & Hsp); [|done|eauto].
  apply (ModelState.wf_principal _ Hm). by apply find_key_Some in Hp as [? _].
Qed.

(** * The hierarchy Cedar sees *)
Module HierarchyFacts.
Import Translate.
(** [u] has the parent [v] among the entities; Cedar's [in] is the reflexive
    and transitive closure. *)
Definition entity_edge (es : list CedarEntity) (u v : EntityUid) : Prop :=
  ∃ e, e ∈ es ∧ entity_uid e = u ∧ v ∈ parents e.
Definition entity_in (es : list CedarEntity) : EntityUid → EntityUid → Prop := rtc (entity_edge es).

Section slice.
Context (m : ModelState.t) (pr : Principal.t) (r : Fgrn.t) (sl : EntitySlice.t).
Context (Hm : ModelState.wf m) (Hpr : Principal.wf pr) (Hsl : slice_of m pr r sl).
Abbreviation sp := (ModelState.spine m).
Context (Hfgrn : ∀ x, is_Some (Spine.units sp !! x) → Fgrn.wf x).
Abbreviation es := (slice_entities sl r).

Lemma elem_of_slice_entities e :
  e ∈ es ↔ (∃ u, u ∈ EntitySlice.org_units sl ∧ e = unit_entity sl u) ∨
    (∃ s, s ∈ EntitySlice.principal_sets sl ∧ e = set_entity s) ∨
    e = principal_entity sl ∨ e = resource_entity sl r.
Proof.
  unfold slice_entities. rewrite !elem_of_app, !list_elem_of_fmap, !elem_of_cons.
  rewrite elem_of_nil. naive_solver.
Qed.
Lemma cedar_type_cases k : cedar_principal_type k = "User" ∨ cedar_principal_type k = "Machine".
Proof. destruct k; auto. Qed.

Lemma edge_unit x v :
  is_Some (Spine.units sp !! x) → rtc (Spine.edge sp) (Principal.anchor pr) x →
  entity_edge es (uid "OrgUnit" x) v ↔ ∃ y, Spine.edge sp x y ∧ v = uid "OrgUnit" y.
Proof.
  intros Hx Hanc. pose proof Hpr as (_ & Hk & _)%Principal.wf_iff. split.
  - intros (e & He & Huid & Hv). apply elem_of_slice_entities in He
      as [(u & Hu & ->)|[(s & _ & ->)|[->| ->]]].
    + apply (slice_units _ _ _ _ Hsl) in Hu as [Hu _]. simpl in *. injection Huid as Hraw.
      assert (OrgUnit.fgrn u = x) as <-.
      { pose proof (Hfgrn _ Hx) as Hw. pose proof (Hfgrn (OrgUnit.fgrn u)) as Hw'.
        unfold Fgrn.wf, Fgrn.to_string in *. rewrite <-Hraw, Hw' in Hw; [congruence|by eexists]. }
      destruct (OrgUnit.parent u) as [y|]; [|set_solver].
      destruct (existsb _ _); [|set_solver]. exists y. split; [done|set_solver].
    + done.
    + simpl in Huid. destruct (cedar_type_cases (Principal.kind (EntitySlice.principal sl))) as [E|E];
        by rewrite E in Huid.
    + done.
  - intros (y & Hedge & ->). exists (unit_entity sl (OrgUnit.mk x (Some y))). split_and!.
    + apply elem_of_slice_entities. left. eexists. split; [|done].
      apply (slice_units _ _ _ _ Hsl). split; [done|]. exists (Principal.anchor pr).
      split_and!; [left|done|done].
    + done.
    + simpl. rewrite (proj2 (existsb_exists _ _)); [set_solver|].
      assert (is_Some (Spine.units sp !! y)) as [o Ho].
      { by eapply Spine.wf_parents; [apply (ModelState.wf_spine _ Hm)|]. }
      exists (OrgUnit.mk y o). split; [|by apply bool_decide_eq_true].
      apply list_elem_of_In, (slice_units _ _ _ _ Hsl). split; [done|].
      exists (Principal.anchor pr). split_and!; [left|done|by eapply rtc_r].
Qed.
Lemma edge_set f v : ¬ entity_edge es (uid "PSet" f) v.
Proof.
  intros (e & He & Huid & Hv). apply elem_of_slice_entities in He
    as [(u & Hu & ->)|[(s & _ & ->)|[->| ->]]]; simpl in *; [done|set_solver| |done].
  destruct (cedar_type_cases (Principal.kind (EntitySlice.principal sl))) as [E|E];
    by rewrite E in Huid.
Qed.
Lemma edge_principal v :
  entity_edge es (uid (cedar_principal_type (Principal.kind pr)) (Principal.fgrn pr)) v ↔
  v = uid "OrgUnit" (Principal.anchor pr) ∨
  ∃ s, s ∈ ModelState.sets m ∧ Principal.fgrn pr ∈ PrincipalSet.members s ∧
    v = uid "PSet" (PrincipalSet.fgrn s).
Proof.
  pose proof Hpr as (_ & Hk & _)%Principal.wf_iff.
  assert (v ∈ parents (principal_entity sl) ↔ v = uid "OrgUnit" (Principal.anchor pr) ∨
    ∃ s, s ∈ ModelState.sets m ∧ Principal.fgrn pr ∈ PrincipalSet.members s ∧
      v = uid "PSet" (PrincipalSet.fgrn s)) as Hpar.
  { simpl. rewrite (slice_principal _ _ _ _ Hsl), bool_decide_eq_true_2 by done.
    rewrite elem_of_union, elem_of_list_to_set, list_elem_of_fmap, elem_of_singleton.
    setoid_rewrite list_elem_of_filter. unfold PrincipalSet.contains.
    setoid_rewrite bool_decide_eq_true. setoid_rewrite (slice_sets _ _ _ _ Hsl). split.
    - intros [(s & -> & Hc & Hs & _)|?]; [right; eauto|by left].
    - intros [?|(s & Hs & Hc & ->)]; [by right|left]. exists s. split_and!; [done..|].
      eapply Delegation.member_direct; [|done].
      apply (find_key_In PrincipalSet.fgrn); [apply (ModelState.wf_sets _ Hm)|done]. }
  rewrite <-Hpar. split.
  - intros (e & He & Huid & Hv). apply elem_of_slice_entities in He
      as [(u & Hu & ->)|[(s & _ & ->)|[->| ->]]]; [..|done|];
      destruct (cedar_type_cases (Principal.kind pr)) as [E|E]; by rewrite E in Huid.
  - intros Hv. exists (principal_entity sl). split_and!; [|simpl; by rewrite (slice_principal _ _ _ _ Hsl)|done].
    apply elem_of_slice_entities. auto.
Qed.

(** Every ancestor of the principal's entity. *)
Lemma principal_in v :
  entity_in es (uid (cedar_principal_type (Principal.kind pr)) (Principal.fgrn pr)) v ↔
  v = uid (cedar_principal_type (Principal.kind pr)) (Principal.fgrn pr) ∨
  (∃ x, rtc (Spine.edge sp) (Principal.anchor pr) x ∧ v = uid "OrgUnit" x) ∨
  (∃ s, s ∈ ModelState.sets m ∧ Principal.fgrn pr ∈ PrincipalSet.members s ∧
     v = uid "PSet" (PrincipalSet.fgrn s)).
Proof.
  pose proof Hpr as (_ & Hk & _)%Principal.wf_iff.
  assert (∀ x, rtc (Spine.edge sp) (Principal.anchor pr) x → is_Some (Spine.units sp !! x)) as Hdom.
  { intros x Hx. destruct (slice_anchor_known _ _ _ _ Hsl (Principal.anchor pr)) as [o Ho]; [left|done|].
    destruct (SpineFacts.wf_up_path sp (Principal.anchor pr) (ModelState.wf_spine _ Hm)) as [l Hl];
      [by eexists|].
    eapply up_path_dom; [exact Hl|]. by apply (up_path_ancestors _ _ _ _ Hl). }
  split.
  - intros Hin. unfold entity_in in Hin.
    apply rtc_inv in Hin as [<-|(v1 & H1 & Hrest)]; [by left|right].
    apply edge_principal in H1 as [->|(s & Hs & Hc & ->)].
    + left. assert (∀ u w, rtc (entity_edge es) u w →
        ∀ x, rtc (Spine.edge sp) (Principal.anchor pr) x → u = uid "OrgUnit" x →
        ∃ y, rtc (Spine.edge sp) (Principal.anchor pr) y ∧ w = uid "OrgUnit" y) as Hup.
      { induction 1 as [u|u w z Huw _ IH]; intros x Hx ->; [eauto|].
        apply edge_unit in Huw as (y & Hy & ->); [|by apply Hdom|done].
        eapply IH; [by eapply rtc_r|done]. }
      by eapply Hup.
    + right. apply rtc_inv in Hrest as [<-|(v2 & H2 & _)]; [eauto|]. by apply edge_set in H2.
  - intros [->|[(x & Hx & ->)|(s & Hs & Hc & ->)]]; [apply rtc_refl|..].
    + apply rtc_l with (uid "OrgUnit" (Principal.anchor pr)); [apply edge_principal; by left|].
      revert x Hx. apply (rtc_ind_r (λ x, rtc (entity_edge es)
        (uid "OrgUnit" (Principal.anchor pr)) (uid "OrgUnit" x)) (Principal.anchor pr));
        [apply rtc_refl|]. intros x y Hx Hy IH. eapply rtc_r; [exact IH|]. apply edge_unit; [by apply Hdom|done|eauto].
    + apply rtc_once, edge_principal. right. eauto.
Qed.
End slice.
End HierarchyFacts.

(** the hierarchy given to Cedar places the principal exactly where the
    model does, as far as its own records say: in the entities built from a
    slice of a well-formed model, the principal is in (Cedar's reflexive and
    transitive [in]) itself, exactly the org units at and above its anchor, and
    exactly the principal sets that list it as a member directly. *)
Theorem cedar_hierarchy_exact m p r rev sl pr v :
  ModelState.wf m → (∀ x, is_Some (Spine.units (ModelState.spine m) !! x) → Fgrn.wf x) →
  Slice.select_slice m p r rev = Ok sl → ModelState.principal m p = Some pr →
  HierarchyFacts.entity_in (Translate.slice_entities sl r)
    (Translate.uid (Translate.cedar_principal_type (Principal.kind pr)) (Principal.fgrn pr)) v ↔
  v = Translate.uid (Translate.cedar_principal_type (Principal.kind pr)) (Principal.fgrn pr) ∨
  (∃ x, rtc (Spine.edge (ModelState.spine m)) (Principal.anchor pr) x ∧
     v = Translate.uid "OrgUnit" x) ∨
  (∃ s, s ∈ ModelState.sets m ∧ Principal.fgrn pr ∈ PrincipalSet.members s ∧
     v = Translate.uid "PSet" (PrincipalSet.fgrn s)).
Proof.
  intros Hm Hf (pr' & Hp' & _ & Hsl & _)%select_slice_of Hp; [|done].
  assert (pr' = pr) as -> by congruence. apply HierarchyFacts.principal_in; [done| |done|done].
  apply (ModelState.wf_principal _ Hm). by apply find_key_Some in Hp as [? _].
Qed.

(** * The adapter *)
Module AdapterFacts.
Import Adapter.
(** What the constructors of a query's parts guarantee. *)
Record query_wf (q : PolicyQuery.t) : Prop := {
  wf_namespace : Namespace.wf (QualifiedAction.namespace (PolicyQuery.action q));
  wf_entity : Segment.wf (Entity.as_segment (QualifiedAction.entity (PolicyQuery.action q)));
  wf_action : Segment.wf (Action.as_segment (QualifiedAction.action (PolicyQuery.action q)));
}.
(** The type and id of the resource a query maps to. *)
Definition target (q : PolicyQuery.t) : string * string :=
  match PolicyQuery.resource q with
  | Some r => (Entity.as_str (ResourceRef.entity r), ResourceId.as_str (ResourceRef.id r))
  | None => ("app", "app")
  end.
Definition action_verb (a : QualifiedAction.t) : string :=
  Namespace.as_str (QualifiedAction.namespace a) +:+ "--" +:+
  Entity.as_str (QualifiedAction.entity a) +:+ "--" +:+
  Action.as_str (QualifiedAction.action a).

Lemma action_verb_inj a b :
  Namespace.wf (QualifiedAction.namespace a) → Namespace.wf (QualifiedAction.namespace b) →
  Segment.wf (Entity.as_segment (QualifiedAction.entity a)) →
  Segment.wf (Entity.as_segment (QualifiedAction.entity b)) →
  action_verb a = action_verb b → a = b.
Proof.
  intros Ha Hb Ha' Hb' Heq. unfold action_verb in Heq.
  pose proof (ActionFacts.namespace_wf_segment _ Ha) as Hna.
  pose proof (ActionFacts.namespace_wf_segment _ Hb) as Hnb.
  change "--" with (dd "-") in Heq.
  apply dsep_inj in Heq as [Hns Heq]; 
    [|first [by apply SegmentFacts.wf_no_dd|by apply SegmentFacts.wf_no_end]..].
  apply dsep_inj in Heq as [He Hac]; 
    [|first [by apply SegmentFacts.wf_no_dd|by apply SegmentFacts.wf_no_end]..].
  destruct a as [na [[aa]] [[ea]]], b as [nb [[ab]] [[eb]]]. simpl in *.
  unfold Entity.as_str, Action.as_str in *. simpl in *. subst.
  f_equal. by apply ActionFacts.namespace_as_str_inj.
Qed.

Lemma map_query_Ok org q d :
  map_query org q = Ok d →
  Fgrn.principal org (NativeId.mk (Id.as_str (PrincipalRef.user_id (PolicyQuery.principal q)))) =
    DecisionQuery.principal d ∧
  action_verb (PolicyQuery.action q) = Verb.as_str (DecisionQuery.action d) ∧
  (∃ t n, Fgrn.resource_parts (DecisionQuery.resource d) = Some (t, n) ∧
     target q = (Segment.as_str t, NativeId.as_str n)) ∧
  DecisionQuery.revision d = None ∧ DecisionQuery.chain d = None.
Proof.
  unfold map_query. fold (action_verb (PolicyQuery.action q)).
  intros (pid & Hpid%map_err_Ok & (verb & Hverb%map_err_Ok & Hr)%bind_Ok)%bind_Ok.
  apply NativeIdFacts.native_id_try_new_as_str in Hpid.
  apply VerbFacts.verb_try_new_as_str in Hverb.
  apply bind_Ok in Hr as ([t n] & Htn & (res & Hres%map_err_Ok & [= <-])%bind_Ok). simpl.
  split; [destruct pid; simpl in *; by subst|]. split; [done|]. split; [|done].
  exists t, n. split.
  - unfold Fgrn.resource in Hres. apply bind_Ok in Hres as (c & _ & [= <-]). done.
  - unfold target. destruct (PolicyQuery.resource q) as [r|].
    + apply bind_Ok in Htn as (t' & Ht%map_err_Ok & (n' & Hn%map_err_Ok & [= <- <-])%bind_Ok).
      apply SegmentFacts.segment_try_new_as_str in Ht.
      apply NativeIdFacts.native_id_try_new_as_str in Hn. congruence.
    + apply bind_Ok in Htn as (t' & Ht%map_err_Ok & (n' & Hn%map_err_Ok & [= <- <-])%bind_Ok).
      apply SegmentFacts.segment_try_new_as_str in Ht.
      apply NativeIdFacts.native_id_try_new_as_str in Hn. congruence.
Qed.
End AdapterFacts.

(** the adapter does not confuse questions: two well-formed queries that map
    to the same decision query are about the same user id, the same qualified
    action (namespace, entity and action: the doubled hyphen separates them
    unambiguously), and the same resource type and id, where a query without
    resource is about the application itself. *)
Theorem map_query_injective org q q' d :
  AdapterFacts.query_wf q → AdapterFacts.query_wf q' →
  Adapter.map_query org q = Ok d → Adapter.map_query org q' = Ok d →
  Id.as_str (PrincipalRef.user_id (PolicyQuery.principal q)) =
    Id.as_str (PrincipalRef.user_id (PolicyQuery.principal q')) ∧
  PolicyQuery.action q = PolicyQuery.action q' ∧
  AdapterFacts.target q = AdapterFacts.target q'.
Proof.
  intros [Hn He _] [Hn' He' _] (Hp & Hv & (t & i & Hr & Ht) & _)%AdapterFacts.map_query_Ok
    (Hp' & Hv' & (t' & i' & Hr' & Ht') & _)%AdapterFacts.map_query_Ok. split_and!.
  - rewrite <-Hp' in Hp. unfold Fgrn.principal, Fgrn.new in Hp. by injection Hp.
  - apply AdapterFacts.action_verb_inj; [done..|congruence].
  - rewrite Hr in Hr'. injection Hr' as <- <-. congruence.
Qed.

(** * The pipeline over the embedded engine *)
Section end_to_end.
Context `{Matchit} `{Cedar} {S : Type} `{AuthzStoreLaws S valid}.
Context (xxh64 : string → N) (json_to_string : Json.t → string).
Context (detailed_to_string : gmap string Features.ResolvedFlag → option string).
Context (form_urlencoded : string → list (string * string)).
Context (error_str : AuthzError.t → string).
Context (config : Pipeline.PipelineConfig) (input : RequestInput.t).
Context (chain : Credential.t → result AuthnError.t Identity.t).
Context (snapshot : Snapshot) (org : Segment.t).

(** C11: what the enforcing pipeline forwards on the embedded engine's word can be
    replayed.  When it forwards an identified request on a matched route, the
    forward carries a decision record that allows; the question it answers is
    the identity's, on the route's action and resource, in the engine's
    organization; Cedar allowed that principal on the slice read at the
    record's revision; and the same question at that revision gives the same
    record after any later writes to the store. *)
Theorem forwarded_decision_replays (s : S) ws id f mr rec eff l :
  valid s → latest_revision s = Ok l →
  Pipeline.evaluate_pipeline xxh64 json_to_string detailed_to_string form_urlencoded config input
    chain (Adapter.embedded error_str snapshot s org) Pipeline.Enforce =
    Ok (Pipeline.Forward (Some id) f (Some mr) rec eff) →
  ∃ r q, rec = Some r ∧ DecisionRecord.decision r = EngineDecision.Allow ∧
    Adapter.map_query org (build_query id mr (Pipeline.project_id config)
                             (RequestInput.client_ip input)) = Ok q ∧
    link_allows snapshot s q (DecisionRecord.revision r) (DecisionQuery.principal q) ∧
    DecisionRecord.revision r = l ∧
    CedarEngine.decide snapshot (run_writes s ws)
      (DecisionQuery.at_revision q (DecisionRecord.revision r)) = Ok r.
Proof.
  intros Hs Hl (_ & _ & _ & _ & _ & ev & Hev & Hal & -> & _)%enforced_forward_spec.
  simpl in Hev. destruct (Adapter.map_query org _) as [q| |] eqn:Hq; [|by simplify_eq|done].
  apply bind_Ok in Hev as (r & Hd & [= <-]). simpl in *. exists r, q.
  unfold DecisionRecord.is_allow in Hal. case_bool_decide as Hallow; [|done].
  pose proof Hd as (rev & first & rest & d0 & sl & d & sp & Hrev & Hlk & Hf & Hr & Hsp & ->)%decide_Ok.
  apply AdapterFacts.map_query_Ok in Hq as (_ & _ & _ & Hnone & Hch). simpl in *.
  unfold CedarEngine.links_of in Hlk. rewrite Hch in Hlk. injection Hlk as <- <-.
  unfold query_revision in Hrev. rewrite Hnone, Hl in Hrev. injection Hrev as <-.
  simpl in Hr. injection Hr as <-. subst d0. split_and!; [done..| |done|].
  - by exists sl.
  - by apply (decide_replay snapshot s ws q _ l Hs Hl Hd).
Qed.
End end_to_end.

(** * Samples *)
Module EngineSample.
(** A stand-in authorizer: any permit in the text allows. *)
#[export] Instance toy_cedar : Cedar := {|
  PolicySet := string; Entities := list CedarEntity; Request := EntityUid * EntityUid * EntityUid;
  policy_set_from_str s := Ok s;
  from_entities es := Ok es;
  request_new p a r := Ok (p, a, r);
  is_authorized _ policies _ := contains_str "permit(" policies;
|}.
Definition snapshot : Snapshot :=
  {| policies := EmptyString : PolicySet; policy_text := EmptyString;
     version := SnapshotVersion.of_text EmptyString |}.
Definition store : MemoryStore.t := MemoryStore.new StoreSample.model.
Definition query : DecisionQuery.t :=
  DecisionQuery.new GrantSample.alice GrantSample.read GrantSample.doc.

Lemma store_valid : MemoryStore.valid store.
Proof. by split. Qed.
Lemma decide_ok : is_ok (CedarEngine.decide snapshot store query) = true.
Proof. vm_cast_no_check (eq_refl true). Qed.

(** The team is a member of [all], and the document is shared with [all]. *)
Definition all : Fgrn.t := Fgrn.principal_set GrantSample.acme (NativeId.mk "all").
Definition all_set : PrincipalSet.t := PrincipalSet.mk all SpineSample.eng {[GrantSample.team]}.
Definition all_grant : Grant.t := Grant.mk GrantSample.doc {[GrantSample.read]} all.
Definition nested : ModelState.t :=
  ModelState.mk SpineSample.spine [GrantSample.alice_principal] [GrantSample.team_set; all_set]
    [all_grant] [].
Lemma nested_wf : ModelState.wf nested.
Proof.
  split; simpl.
  - apply SpineSample.spine_wf.
  - apply NoDup_singleton.
  - intros p ->%list_elem_of_singleton. reflexivity.
  - by_eval.
  - intros s [->|[->|[]%not_elem_of_nil]%elem_of_cons]%elem_of_cons; [apply GrantSample.team_set_wf|].
    split; [reflexivity..| | |].
    + change (set_Forall (λ m, Fgrn.kind m = FgrnKind.Principal ∨
                             Fgrn.kind m = FgrnKind.PrincipalSet) (PrincipalSet.members all_set)).
      by_eval.
    + by_eval.
    + change (set_Forall (λ m, Fgrn.organization m = GrantSample.acme)
                (PrincipalSet.members all_set)). by_eval.
  - intros g ->%list_elem_of_singleton.
    apply (GrantFacts.grant_try_new_wf GrantSample.doc [GrantSample.read] all). by_eval.
  - constructor.
Qed.
Lemma spine_fgrns x : is_Some (Spine.units SpineSample.spine !! x) → Fgrn.wf x.
Proof.
  intros Hx%elem_of_dom. assert (x ∈ elements (dom (Spine.units SpineSample.spine))) as Hin
    by by apply elem_of_elements.
  assert (Forall Fgrn.wf (elements (dom (Spine.units SpineSample.spine)))) as Hall
    by by_eval.
  by rewrite Forall_forall in Hall; apply Hall.
Qed.
End EngineSample.

(** a grant to a set the principal is in only through another set is
    reported and not decided: alice is in the team, the team is a member of
    [all], and the document is shared with [all]; the slice selects both sets
    and the record's entitlements list the verb, but in the entities given to
    Cedar alice is not in [all], whose grant therefore does not apply to her. *)
Theorem transitive_set_grant_lost :
  ∃ sl, Slice.select_slice EngineSample.nested GrantSample.alice GrantSample.doc (Revision.new 1) =
      Ok sl ∧
    EntitySlice.grants sl = [EngineSample.all_grant] ∧
    Enrich.entitlements_of sl = [GrantSample.read] ∧
    Delegation.member_of (ModelState.sets EngineSample.nested) GrantSample.alice EngineSample.all ∧
    ¬ HierarchyFacts.entity_in (Translate.slice_entities sl GrantSample.doc)
        (Translate.uid "User" GrantSample.alice) (Translate.uid "PSet" EngineSample.all).
Proof.
  assert (is_ok (Slice.select_slice EngineSample.nested GrantSample.alice GrantSample.doc
                   (Revision.new 1)) = true ∧
          (EntitySlice.grants <$> Slice.select_slice EngineSample.nested GrantSample.alice
             GrantSample.doc (Revision.new 1)) = Ok [EngineSample.all_grant] ∧
          (Enrich.entitlements_of <$> Slice.select_slice EngineSample.nested GrantSample.alice
             GrantSample.doc (Revision.new 1)) = Ok [GrantSample.read]) as (Hok & Hg & He)
    by (split_and!; by_eval).
  apply is_ok_true in Hok as [sl Hsl]. rewrite Hsl in Hg, He. cbv [fmap result_fmap] in Hg, He.
  injection Hg as Hg. injection He as He. exists sl. split_and!; [done..| |].
  - eapply (Delegation.member_nested _ _ _ EngineSample.all_set GrantSample.team);
      [reflexivity|by_eval|reflexivity|].
    eapply (Delegation.member_direct _ _ _ GrantSample.team_set); [reflexivity|by_eval].
  - pose proof Hsl as (pr & Hp & _ & Hof & _)%select_slice_of; [|apply EngineSample.nested_wf].
    assert (pr = GrantSample.alice_principal) as ->.
    { assert (ModelState.principal EngineSample.nested GrantSample.alice =
        Some GrantSample.alice_principal) as E by reflexivity. congruence. }
    intros Hin. apply (HierarchyFacts.principal_in EngineSample.nested GrantSample.alice_principal
      GrantSample.doc sl EngineSample.nested_wf) in Hin as [Hx|[(x & _ & Hx)|(s & Hs & Hc & Hx)]];
      [discriminate Hx|discriminate Hx| |reflexivity|done|apply EngineSample.spine_fgrns].
    apply elem_of_cons in Hs as [->|[->|[]%not_elem_of_nil]%elem_of_cons].
    + discriminate Hx.
    + revert Hc. by_eval.
Qed.

Lemma scope_path_exact_witness :
  ∃ sl pr path,
    Slice.select_slice StoreSample.model GrantSample.alice GrantSample.doc (Revision.new 1) = Ok sl ∧
    Spine.path SpineSample.spine (Principal.anchor pr) = Ok path ∧
    Enrich.scope_path_of sl = Ok (ScopePath.mk path).
Proof.
  assert (is_ok (Slice.select_slice StoreSample.model GrantSample.alice GrantSample.doc
                   (Revision.new 1)) = true) as Hok by by_eval.
  apply is_ok_true in Hok as [sl Hsl].
  destruct (scope_path_exact StoreSample.model _ _ _ sl StoreSample.model_wf Hsl)
    as (pr & path & _ & Hp & Hs).
  exists sl, pr, path. split; [exact Hsl|]. split; [exact Hp|exact Hs].
Defined.
Lemma cedar_hierarchy_exact_witness :
  ∃ sl, Slice.select_slice StoreSample.model GrantSample.alice GrantSample.doc (Revision.new 1) =
      Ok sl ∧
    HierarchyFacts.entity_in (Translate.slice_entities sl GrantSample.doc)
      (Translate.uid "User" GrantSample.alice) (Translate.uid "PSet" GrantSample.team).
Proof.
  assert (is_ok (Slice.select_slice StoreSample.model GrantSample.alice GrantSample.doc
                   (Revision.new 1)) = true) as Hok by by_eval.
  apply is_ok_true in Hok as [sl Hsl]. exists sl. split; [exact Hsl|].
  apply (cedar_hierarchy_exact StoreSample.model GrantSample.alice GrantSample.doc (Revision.new 1)
    sl GrantSample.alice_principal (Translate.uid "PSet" GrantSample.team) StoreSample.model_wf
    EngineSample.spine_fgrns Hsl eq_refl).
  right; right. exists GrantSample.team_set. split; [left|]. split; [by_eval|reflexivity].
Defined.
Lemma decide_intersects_chain_witness :
  ∃ rec, CedarEngine.decide EngineSample.snapshot EngineSample.store EngineSample.query = Ok rec ∧
    query_revision EngineSample.store EngineSample.query = Ok (DecisionRecord.revision rec).
Proof.
  destruct (proj1 (is_ok_true _) EngineSample.decide_ok) as [rec Hrec].
  exists rec. split; [exact Hrec|].
  exact (proj1 (decide_intersects_chain EngineSample.snapshot EngineSample.store
    EngineSample.query rec Hrec)).
Defined.
Lemma decision_replays_witness :
  ∃ rec, CedarEngine.decide EngineSample.snapshot EngineSample.store EngineSample.query = Ok rec ∧
    CedarEngine.decide EngineSample.snapshot (run_writes EngineSample.store StoreSample.writes)
      (DecisionQuery.at_revision EngineSample.query (DecisionRecord.revision rec)) = Ok rec.
Proof.
  destruct (proj1 (is_ok_true _) EngineSample.decide_ok) as [rec Hrec].
  exists rec. split; [exact Hrec|].
  apply (decision_replays (valid := MemoryStore.valid) EngineSample.snapshot EngineSample.store
    StoreSample.writes EngineSample.query rec (Revision.new 1)).
  - exact EngineSample.store_valid.
  - reflexivity.
  - exact Hrec.
Defined.

Lemma map_query_injective_witness :
  ∃ q d, Adapter.map_query (Segment.mk "acme") q = Ok d ∧ AdapterFacts.target q = ("app", "app").
Proof.
  set (a := RouteSample.act "todo:list:read").
  set (q := PolicyQuery.new (PrincipalRef.new (PipelineSample.seg UserIdK "ann")) a None
              PolicyContext.new).
  set (q' := PolicyQuery.new (PrincipalRef.machine (PipelineSample.seg UserIdK "ann")) a None
               PolicyContext.new).
  assert (AdapterFacts.query_wf q) as Hq by (split; [left|..]; vm_compute; reflexivity).
  assert (AdapterFacts.query_wf q') as Hq' by (split; [left|..]; vm_compute; reflexivity).
  destruct (Adapter.map_query (Segment.mk "acme") q) as [d| |] eqn:Hd;
    [|vm_compute in Hd; discriminate Hd..].
  exists q, d. split; [exact Hd|].
  rewrite (proj2 (proj2 (map_query_injective (Segment.mk "acme") q q' d Hq Hq' Hd Hd))).
  reflexivity.
Defined.

Module EmbeddedSample.
Import EngineSample PipelineSample ListRouter.
Definition permit_all : Snapshot :=
  {| policies := EmptyString : PolicySet; policy_text := "permit(principal, action, resource);";
     version := SnapshotVersion.of_text "permit(principal, action, resource);" |}.
Definition alone : Pipeline.PipelineConfig := {|
  Pipeline.route_matcher := matcher; Pipeline.public_route_matcher := public_matcher;
  Pipeline.flag_config := {| Features.flags := [] |};
  Pipeline.project_id := seg ProjectIdK "todo";
  Pipeline.default_policy := Pipeline.DenyByDefault; Pipeline.debug_mode := false;
  Pipeline.auth_providers := []; Pipeline.membership_resolver := None |}.
Definition alice_chain : Credential.t → result AuthnError.t Identity.t :=
  IdentityChain.resolve [StaticApiKey.resolver
    {[ "k1" := {| StaticApiKey.key_user_id := seg UserIdK "alice";
                  StaticApiKey.key_tenant_id := None; StaticApiKey.key_groups := [] |} ]}].
Definition embedded : PolicyEngine DecisionRecord.t :=
  Adapter.embedded (λ _, EmptyString) permit_all EngineSample.store (Segment.mk "acme").
Definition run : result Empty_set (Pipeline.PipelineOutcome DecisionRecord.t) :=
  Pipeline.evaluate_pipeline (λ _, 0%N) no_json (λ _, None) (λ _, []) alone
    (request "/lists/7" [("x-api-key", "k1")]) alice_chain embedded Pipeline.Enforce.
Definition forwards : bool :=
  match run with Ok (Pipeline.Forward (Some _) _ (Some _) _ _) => true | _ => false end.
Lemma run_forwards : forwards = true.
Proof. vm_cast_no_check (eq_refl true). Qed.
End EmbeddedSample.

Lemma forwarded_decision_replays_witness :
  ∃ r q, DecisionRecord.decision r = EngineDecision.Allow ∧
    CedarEngine.decide EmbeddedSample.permit_all
      (run_writes EngineSample.store StoreSample.writes)
      (DecisionQuery.at_revision q (DecisionRecord.revision r)) = Ok r.
Proof.
  pose proof EmbeddedSample.run_forwards as Hf. unfold EmbeddedSample.forwards in Hf.
  destruct EmbeddedSample.run as [[| | |[id|] f [mr|] rec eff]| |] eqn:Hrun; try discriminate Hf.
  destruct (forwarded_decision_replays (valid := MemoryStore.valid) (λ _, 0%N)
    PipelineSample.no_json (λ _, None) (λ _, []) (λ _, EmptyString) EmbeddedSample.alone
    (PipelineSample.request "/lists/7" [("x-api-key", "k1")]) EmbeddedSample.alice_chain
    EmbeddedSample.permit_all (Segment.mk "acme") EngineSample.store StoreSample.writes id f mr rec
    eff (Revision.new 1)) as (r & q & _ & Hr & _ & _ & _ & Hd).
  - exact EngineSample.store_valid.
  - reflexivity.
  - exact Hrun.
  - exists r, q. split; [exact Hr|exact Hd].
Defined.
