(* ===== verification/CedarPolicy.v ===== *)
(** The part of the Cedar policy language that the compiled policies of the
    control plane are written in, as the language documents it: its concrete
    syntax, as a parser, and when a permit applies to a request.  What the
    engine promises ([CpEngine.CedarMeaning]) is said in these terms, so that
    what a compiled text means has to be proved of the text. *)

From S2P Require Import Prelude RustStr Ident Rbac Engine.

(** * Syntax *)
Module CedarSyntax.
Inductive Mark := LParen | RParen | LBracket | RBracket | LBrace | RBrace
| Comma | Semicolon | Colon | Dot | Equals.
#[global] Instance Mark_eq_dec : EqDecision Mark.
Proof. solve_decision. Defined.
Inductive Token := Word (w : string) | Literal (s : string) | Punct (m : Mark).

Inductive Scope := Any | Is (ty : string) | In (u : EntityUid) | Eq (u : EntityUid).
Inductive ActionScope := AnyAction | ActionEq (u : EntityUid) | ActionIn (us : list EntityUid).
Inductive Var := Principal | Resource.
(** [when { x.a == y.b }]. *)
Record Condition := { left : Var * string; right : Var * string }.
Record Permit := {
  principal : Scope;
  action : ActionScope;
  resource : Scope;
  conditions : list Condition;
}.

(** ** Tokens *)
Definition word_byte (a : ascii) : bool :=
  is_ascii_lowercase a || is_ascii_uppercase a || is_ascii_digit a || Ascii.eqb a "_".
Definition blank (a : ascii) : bool :=
  Ascii.eqb a " " || Ascii.eqb a "010" || Ascii.eqb a "009" || Ascii.eqb a "013".
Definition marks : list (ascii * Mark) :=
  [("(", LParen); (")", RParen); ("[", LBracket); ("]", RBracket); ("{", LBrace); ("}", RBrace);
   (",", Comma); (";", Semicolon); (":", Colon); (".", Dot); ("=", Equals)]%char.
Definition mark (a : ascii) : option Mark :=
  snd <$> List.find (λ am, Ascii.eqb am.1 a) marks.
(** Where the lexer is: between tokens, in a word, or in a string literal.
    Escapes, comments and the other marks are outside the part modelled. *)
Inductive Mode := Between | InWord (w : string) | InLiteral (s : string).
Definition begin (a : ascii) : option (list Token * Mode) :=
  if blank a then Some ([], Between)
  else if Ascii.eqb a Rbac.quote then Some ([], InLiteral EmptyString)
  else if word_byte a then Some ([], InWord (String a EmptyString))
  else (λ m, ([Punct m], Between)) <$> mark a.
Definition step (m : Mode) (a : ascii) : option (list Token * Mode) :=
  match m with
  | Between => begin a
  | InWord w =>
      if word_byte a then Some ([], InWord (w +:+ String a EmptyString))
      else '(ts, m) ← begin a; Some (Word w :: ts, m)
  | InLiteral s =>
      if Ascii.eqb a Rbac.quote then Some ([Literal s], Between)
      else if Ascii.eqb a Rbac.backslash then None
      else Some ([], InLiteral (s +:+ String a EmptyString))
  end.
(** The tokens completed by a text, and where it leaves the lexer. *)
Fixpoint run (m : Mode) (s : string) : option (list Token * Mode) :=
  match s with
  | EmptyString => Some ([], m)
  | String a s =>
      '(ts, m) ← step m a;
      '(us, m) ← run m s;
      Some (ts ++ us, m)
  end.
Definition lex (s : string) : option (list Token) :=
  '(ts, m) ← run Between s;
  match m with
  | Between => Some ts
  | InWord w => Some (ts ++ [Word w])
  | InLiteral _ => None
  end.

(** ** Grammar *)
Definition punct (m : Mark) (ts : list Token) : option (list Token) :=
  match ts with
  | Punct m' :: ts => if bool_decide (m = m') then Some ts else None
  | _ => None
  end.
Definition word (w : string) (ts : list Token) : option (list Token) :=
  match ts with
  | Word w' :: ts => if bool_decide (w = w') then Some ts else None
  | _ => None
  end.
(** [Path ::= IDENT {'::' IDENT}] *)
Fixpoint path_rest (acc : string) (ts : list Token) : string * list Token :=
  match ts with
  | Punct Colon :: Punct Colon :: Word w :: ts => path_rest (acc +:+ "::" +:+ w) ts
  | _ => (acc, ts)
  end.
Definition path (ts : list Token) : option (string * list Token) :=
  match ts with Word w :: ts => Some (path_rest w ts) | _ => None end.
(** [Entity ::= Path '::' STR] *)
Definition entity (ts : list Token) : option (EntityUid * list Token) :=
  '(ty, ts) ← path ts;
  match ts with
  | Punct Colon :: Punct Colon :: Literal id :: ts => Some ((ty, id), ts)
  | _ => None
  end.
(** [EntList ::= Entity {',' Entity}], up to the bracket; an entity takes a
    token at least, so the number of tokens bounds their number. *)
Fixpoint entity_list (fuel : nat) (ts : list Token) : option (list EntityUid * list Token) :=
  match fuel with
  | 0 => None
  | S fuel =>
      '(e, ts) ← entity ts;
      match ts with
      | Punct Comma :: ts => '(es, ts) ← entity_list fuel ts; Some (e :: es, ts)
      | Punct RBracket :: ts => Some ([e], ts)
      | _ => None
      end
  end.
(** [principal ['is' Path | 'in' Entity | '==' Entity]], and the same of a resource. *)
Definition scope (var : string) (ts : list Token) : option (Scope * list Token) :=
  ts ← word var ts;
  match ts with
  | Word k :: ts =>
      if bool_decide (k = "in") then '(u, ts) ← entity ts; Some (In u, ts)
      else if bool_decide (k = "is") then '(ty, ts) ← path ts; Some (Is ty, ts)
      else None
  | Punct Equals :: Punct Equals :: ts => '(u, ts) ← entity ts; Some (Eq u, ts)
  | _ => Some (Any, ts)
  end.
Definition action_scope (ts : list Token) : option (ActionScope * list Token) :=
  ts ← word "action" ts;
  match ts with
  | Word k :: ts =>
      if bool_decide (k = "in") then
        match ts with
        | Punct LBracket :: ts =>
            '(us, ts) ← entity_list (length ts) ts; Some (ActionIn us, ts)
        | _ => '(u, ts) ← entity ts; Some (ActionIn [u], ts)
        end
      else None
  | Punct Equals :: Punct Equals :: ts => '(u, ts) ← entity ts; Some (ActionEq u, ts)
  | _ => Some (AnyAction, ts)
  end.
Definition attribute (ts : list Token) : option (Var * string * list Token) :=
  match ts with
  | Word x :: Punct Dot :: Word a :: ts =>
      if bool_decide (x = "principal") then Some ((Principal, a), ts)
      else if bool_decide (x = "resource") then Some ((Resource, a), ts)
      else None
  | _ => None
  end.
(** [{'when' '{' Expr '}'}], of the expressions [x.a == y.b]. *)
Fixpoint condition_list (fuel : nat) (ts : list Token) : option (list Condition * list Token) :=
  match fuel, ts with
  | S fuel, Word k :: ts =>
      if bool_decide (k = "when") then
        ts ← punct LBrace ts;
        '(l, ts) ← attribute ts;
        ts ← punct Equals ts;
        ts ← punct Equals ts;
        '(r, ts) ← attribute ts;
        ts ← punct RBrace ts;
        '(cs, ts) ← condition_list fuel ts;
        Some ({| left := l; right := r |} :: cs, ts)
      else None
  | _, _ => Some ([], ts)
  end.
Definition permit (ts : list Token) : option (Permit * list Token) :=
  ts ← word "permit" ts;
  ts ← punct LParen ts;
  '(p, ts) ← scope "principal" ts;
  ts ← punct Comma ts;
  '(a, ts) ← action_scope ts;
  ts ← punct Comma ts;
  '(r, ts) ← scope "resource" ts;
  ts ← punct RParen ts;
  '(cs, ts) ← condition_list (length ts) ts;
  ts ← punct Semicolon ts;
  Some ({| principal := p; action := a; resource := r; conditions := cs |}, ts).
Fixpoint permits (fuel : nat) (ts : list Token) : option (list Permit) :=
  match ts, fuel with
  | [], _ => Some []
  | _, 0 => None
  | _, S fuel => '(p, ts) ← permit ts; ps ← permits fuel ts; Some (p :: ps)
  end.
(** The policies of a text, when it is within the part modelled. *)
Definition parse (text : string) : option (list Permit) :=
  ts ← lex text; permits (length ts) ts.
End CedarSyntax.

(** * Meaning *)
Record AttrEntity := { ae_uid : EntityUid; ae_attrs : gmap string string; ae_parents : gset EntityUid }.
Module CedarSemantics.
Import CedarSyntax.
Definition has_attr (l : list AttrEntity) (u : EntityUid) (k v : string) : Prop :=
  ∃ e, e ∈ l ∧ ae_uid e = u ∧ ae_attrs e !! k = Some v.
Definition entity_edge (l : list AttrEntity) (u v : EntityUid) : Prop :=
  ∃ e, e ∈ l ∧ ae_uid e = u ∧ v ∈ ae_parents e.
(** [u in v]: an entity is in itself and in what its parents are in. *)
Definition entity_in (l : list AttrEntity) : EntityUid → EntityUid → Prop := rtc (entity_edge l).

Section request.
Context (l : list AttrEntity) (p a r : EntityUid).
Definition scope_holds (s : Scope) (u : EntityUid) : Prop :=
  match s with Any => True | Is ty => u.1 = ty | In v => entity_in l u v | Eq v => u = v end.
Definition action_holds (s : ActionScope) : Prop :=
  match s with
  | AnyAction => True
  | ActionEq v => a = v
  | ActionIn vs => ∃ v, v ∈ vs ∧ entity_in l a v
  end.
Definition var (x : Var) : EntityUid := match x with Principal => p | Resource => r end.
(** Both attributes are there and are equal; a condition that fails to
    evaluate does not hold. *)
Definition condition_holds (c : Condition) : Prop :=
  ∃ v, has_attr l (var (left c).1) (left c).2 v ∧ has_attr l (var (right c).1) (right c).2 v.
Definition applies (x : Permit) : Prop :=
  scope_holds (principal x) p ∧ action_holds (action x) ∧ scope_holds (resource x) r ∧
  Forall condition_holds (conditions x).
End request.
End CedarSemantics.

(** * What the texts of the compiler say *)
Module CedarFacts.
Import CedarSyntax.

Lemma run_app m s ts m1 t us m2 :
  run m s = Some (ts, m1) → run m1 t = Some (us, m2) → run m (s +:+ t) = Some (ts ++ us, m2).
Proof.
  revert m ts. induction s as [|a s IH]; intros m ts; simpl.
  { by intros [= <- <-] ->. }
  destruct (step m a) as [[xs m']|]; [|done]. simpl.
  destruct (run m' s) as [[ys m'']|] eqn:Hs; [|done]. intros [= <- <-] Ht.
  rewrite (IH m' ys Hs Ht). simpl. by rewrite app_assoc.
Qed.
Lemma run_word_on w x : str_all word_byte x = true → run (InWord w) x = Some ([], InWord (w +:+ x)).
Proof.
  revert w. induction x as [|a x IH]; intros w; simpl; [by rewrite str_app_nil_r|].
  intros [-> Hx]%andb_true_iff. simpl. by rewrite (IH _ Hx), str_app_assoc.
Qed.
Lemma word_begins a : word_byte a = true → begin a = Some ([], InWord (String a EmptyString)).
Proof. revert a. all_bytes. Qed.
Definition is_word (w : string) : Prop := w ≠ EmptyString ∧ str_all word_byte w = true.
Lemma run_word w : is_word w → run Between w = Some ([], InWord w).
Proof.
  intros [Hne Hw]. destruct w as [|a w]; [done|]. cbn [str_all] in Hw. apply andb_true_iff in Hw as [Ha Hw].
  cbn [run step]. rewrite (word_begins a Ha). simpl. by rewrite (run_word_on _ w Hw).
Qed.
Definition literal_text (x : string) : string := String Rbac.quote (x +:+ String Rbac.quote EmptyString).
Lemma run_literal_on y x : contains_char Rbac.quote x = false → contains_char Rbac.backslash x = false →
  run (InLiteral y) (x +:+ String Rbac.quote EmptyString) = Some ([Literal (y +:+ x)], Between).
Proof.
  revert y. induction x as [|a x IH]; intros y; [by rewrite str_app_nil_r|].
  rewrite !contains_char_cons, !orb_false_iff. intros [Hq Hx] [Hb Hx'].
  rewrite str_app_cons. cbn [run step]. rewrite (Ascii.eqb_sym a Rbac.quote), (Ascii.eqb_sym a Rbac.backslash), Hq, Hb.
  cbn [mbind option_bind]. rewrite IH by done. cbn [mbind option_bind app]. by rewrite str_app_assoc.
Qed.
Lemma run_literal x : contains_char Rbac.quote x = false → contains_char Rbac.backslash x = false →
  run Between (literal_text x) = Some ([Literal x], Between).
Proof. intros Hq Hb. unfold literal_text. cbn [run step begin]. exact (eq_trans (f_equal _ (run_literal_on EmptyString x Hq Hb)) eq_refl). Qed.

(** ** One permit *)
(** A text that reads as one permit, and can be followed by others. *)
Definition permit_text (t : string) (p : Permit) : Prop :=
  ∃ ts, ts ≠ [] ∧ run Between t = Some (ts, Between) ∧ ∀ rest, permit (ts ++ rest) = Some (p, rest).

Lemma run_app_to m s ts m1 t us m2 r :
  run m s = Some (ts, m1) → run m1 t = Some (us, m2) → r = ts ++ us → run m (s +:+ t) = Some (r, m2).
Proof. intros Hs Ht ->. by eapply run_app. Qed.
Lemma literal_text_app x r : literal_text x +:+ r = String Rbac.quote (x +:+ String Rbac.quote r).
Proof. unfold literal_text. by rewrite str_app_cons, str_app_assoc. Qed.

Definition quotable (x : string) : Prop :=
  contains_char Rbac.quote x = false ∧ contains_char Rbac.backslash x = false.
Definition action_tokens (ns a : string) : list Token :=
  [Word ns; Punct Colon; Punct Colon; Word "Action"; Punct Colon; Punct Colon; Literal a].
Fixpoint actions_tokens (ns : string) (l : list string) : list Token :=
  match l with
  | [] => []
  | [a] => action_tokens ns a
  | a :: l => action_tokens ns a ++ Punct Comma :: actions_tokens ns l
  end.
Definition action_uid (ns a : string) : EntityUid := (ns +:+ "::Action", a).

Lemma run_action_ref ns a : is_word ns → quotable a →
  run Between (Rbac.action_ref ns a) = Some (action_tokens ns a, Between).
Proof.
  intros Hns [Hq Hb]. unfold Rbac.action_ref. fold (literal_text a).
  eapply run_app_to; [by apply run_word| |done].
  eapply run_app_to; [reflexivity|by apply run_literal|done].
Qed.
Lemma run_action_refs ns l : is_word ns → (∀ a, a ∈ l → quotable a) →
  run Between (join ", " (Rbac.action_ref ns <$> l)) = Some (actions_tokens ns l, Between).
Proof.
  intros Hns. induction l as [|a l IH]; intros Hl; [done|]. destruct l as [|b l].
  { simpl. rewrite join_singleton. apply run_action_ref; [done|]. apply Hl. left. }
  rewrite fmap_cons, join_cons by done.
  eapply run_app_to; [apply run_action_ref; [done|apply Hl; left]| |reflexivity].
  eapply run_app_to; [reflexivity| |reflexivity]. apply IH. intros x Hx. apply Hl. by right.
Qed.
Lemma entity_list_actions ns l rest fuel : l ≠ [] → length l ≤ fuel →
  entity_list fuel (actions_tokens ns l ++ Punct RBracket :: rest) = Some (action_uid ns <$> l, rest).
Proof.
  revert fuel. induction l as [|a l IH]; intros fuel Hl Hfuel; [done|].
  destruct fuel as [|fuel]; [simpl in Hfuel; lia|]. destruct l as [|b l]; [reflexivity|].
  specialize (IH fuel ltac:(done) ltac:(simpl in *; lia)).
  change (actions_tokens ns (a :: b :: l)) with (action_tokens ns a ++ Punct Comma :: actions_tokens ns (b :: l)).
  rewrite <-app_assoc. cbn [app]. unfold action_tokens at 1. cbn [app entity_list].
  change (entity _) with (Some ((action_uid ns a), Punct Comma :: actions_tokens ns (b :: l) ++ Punct RBracket :: rest)).
  cbn [mbind option_bind]. rewrite IH. done.
Qed.
Lemma actions_tokens_length ns l : length l ≤ length (actions_tokens ns l).
Proof.
  induction l as [|a [|b l] IH]; [done|simpl; lia|].
  change (actions_tokens ns (a :: b :: l)) with (action_tokens ns a ++ Punct Comma :: actions_tokens ns (b :: l)).
  rewrite length_app. simpl in *. lia.
Qed.

Ltac take :=
  cbn [word punct mbind option_bind];
  repeat (rewrite bool_decide_eq_true_2 by done; cbn [word punct mbind option_bind]).
Lemma permit_parts ts1 p ts2 a ts3 r ts4 cs rest :
  scope "principal" ts1 = Some (p, Punct Comma :: ts2) →
  action_scope ts2 = Some (a, Punct Comma :: ts3) →
  scope "resource" ts3 = Some (r, Punct RParen :: ts4) →
  condition_list (length ts4) ts4 = Some (cs, Punct Semicolon :: rest) →
  permit (Word "permit" :: Punct LParen :: ts1) =
    Some ({| principal := p; action := a; resource := r; conditions := cs |}, rest).
Proof.
  intros Hp Ha Hr Hc. unfold permit. take. rewrite Hp. take. rewrite Ha. take. rewrite Hr. take.
  rewrite Hc. by take.
Qed.
Lemma action_list_read ns l rest : l ≠ [] →
  action_scope (Word "action" :: Word "in" :: Punct LBracket ::
                actions_tokens ns l ++ Punct RBracket :: Punct Comma :: rest) =
    Some (ActionIn (action_uid ns <$> l), Punct Comma :: rest).
Proof.
  intros Hl. unfold action_scope. cbn [word app].
  rewrite !bool_decide_eq_true_2 by done. cbn [mbind option_bind].
  rewrite entity_list_actions; [done|done|].
  rewrite length_app. pose proof (actions_tokens_length ns l). lia.
Qed.

(** The permit a role is to compile to. *)
Definition role_permit (ns : string) (e : Rbac.RbacEntry) (tenant : Rbac.TenantConfig) : Permit := {|
  principal := In (ns +:+ "::Group", Rbac.name e);
  action := ActionIn (action_uid ns <$> Rbac.allow e);
  resource := Any;
  conditions :=
    if Rbac.tenant_scoped e && Rbac.enabled tenant
    then [{| left := (Principal, Rbac.principal_attribute tenant);
             right := (Resource, Rbac.resource_attribute tenant) |}]
    else [];
|}.
Definition role_head (ns n : string) : list Token :=
  [Word "permit"; Punct LParen; Word "principal"; Word "in"; Word ns; Punct Colon; Punct Colon;
   Word "Group"; Punct Colon; Punct Colon; Literal n; Punct Comma; Word "action"; Word "in";
   Punct LBracket].
Definition when_tokens (x y : string) : list Token :=
  [Word "when"; Punct LBrace; Word "principal"; Punct Dot; Word x; Punct Equals; Punct Equals;
   Word "resource"; Punct Dot; Word y; Punct RBrace].
Definition role_tail (e : Rbac.RbacEntry) (tenant : Rbac.TenantConfig) : list Token :=
  [Word "resource"; Punct RParen] ++
  (if Rbac.tenant_scoped e && Rbac.enabled tenant
   then when_tokens (Rbac.principal_attribute tenant) (Rbac.resource_attribute tenant) else []) ++
  [Punct Semicolon].

Section role.
Context (ns : string) (e : Rbac.RbacEntry) (tenant : Rbac.TenantConfig).
Hypothesis Hattrs : Rbac.tenant_scoped e && Rbac.enabled tenant = true →
  is_word (Rbac.principal_attribute tenant) ∧ is_word (Rbac.resource_attribute tenant).

Lemma run_scope_clause : run Between (Rbac.scope_clause e tenant) = Some (role_tail e tenant, Between).
Proof.
  unfold Rbac.scope_clause, role_tail. destruct (_ && _) eqn:Hsc; [|reflexivity].
  destruct (Hattrs eq_refl) as [Hx Hy].
  do 3 (eapply run_app_to; [reflexivity| |reflexivity]).
  eapply run_app_to; [by apply run_word| |done].
  eapply run_app_to; [reflexivity| |reflexivity].
  eapply run_app_to; [by apply run_word|reflexivity|done].
Qed.
Lemma run_statement : is_word ns → quotable (Rbac.name e) → (∀ a, a ∈ Rbac.allow e → quotable a) →
  run Between (Rbac.statement e tenant ns) =
    Some (role_head ns (Rbac.name e) ++
          (actions_tokens ns (Rbac.allow e) ++ [Punct RBracket; Punct Comma]) ++ role_tail e tenant, Between).
Proof.
  intros Hns [Hq Hb] Hacts. unfold Rbac.statement. rewrite <-literal_text_app.
  do 3 (eapply run_app_to; [reflexivity| |reflexivity]).
  eapply run_app_to; [by apply run_word| |done].
  eapply run_app_to; [reflexivity| |reflexivity].
  eapply run_app_to; [by apply run_literal| |reflexivity].
  do 3 (eapply run_app_to; [reflexivity| |reflexivity]).
  eapply run_app_to; [by apply run_action_refs| |rewrite <-app_assoc; reflexivity].
  do 2 (eapply run_app_to; [reflexivity| |reflexivity]). apply run_scope_clause.
Qed.
Lemma role_permit_read rest : Rbac.allow e ≠ [] →
  permit ((role_head ns (Rbac.name e) ++
           (actions_tokens ns (Rbac.allow e) ++ [Punct RBracket; Punct Comma]) ++ role_tail e tenant) ++ rest) =
  Some (role_permit ns e tenant, rest).
Proof.
  intros Hne. rewrite <-!app_assoc. unfold role_head. cbn [app].
  eapply permit_parts; [reflexivity|by apply action_list_read|reflexivity|].
  unfold role_permit. cbn [conditions]. by destruct (_ && _).
Qed.
Lemma role_text text : is_word ns → Rbac.compile_rbac_to_cedar e tenant ns = Ok text →
  permit_text text (role_permit ns e tenant).
Proof.
  intros Hns (Hc & ->)%CompileFacts.compile_Ok. destruct Hc as [Hn Hne Hacts _].
  apply CompileFacts.validate_Ok in Hn as (_ & Hq & Hb & _). eexists. split_and!.
  2: { apply run_statement; [done|done|]. intros a (_ & ? & ? & _)%Hacts%CompileFacts.validate_Ok. done. }
  - done.
  - intros rest. by apply role_permit_read.
Qed.
End role.

(** ** A text of several *)
Lemma run_join l ps : Forall2 permit_text l ps → ∃ tss,
  run Between (join (Rbac.nl +:+ Rbac.nl) l) = Some (concat tss, Between) ∧
  Forall2 (λ ts p, ts ≠ [] ∧ ∀ rest, permit (ts ++ rest) = Some (p, rest)) tss ps.
Proof.
  induction 1 as [|t p l ps (ts & Hne & Hrun & Hp) Hl IH]; [by exists []|].
  destruct IH as (tss & Hr & Hps). exists (ts :: tss). split; [|by constructor].
  destruct Hl as [|t' p' l ps ? ?].
  { apply Forall2_nil_inv_r in Hps as ->. simpl. by rewrite app_nil_r, join_singleton. }
  rewrite join_cons by done. eapply run_app_to; [exact Hrun| |reflexivity].
  eapply run_app_to; [reflexivity|exact Hr|reflexivity].
Qed.
Lemma permits_concat tss ps fuel :
  Forall2 (λ ts p, ts ≠ [] ∧ ∀ rest, permit (ts ++ rest) = Some (p, rest)) tss ps →
  length (concat tss) ≤ fuel → permits fuel (concat tss) = Some ps.
Proof.
  intros Hall. revert fuel. induction Hall as [|ts p tss ps [Hne Hp] _ IH]; intros fuel; [by destruct fuel|].
  cbn [concat]. rewrite length_app. specialize (Hp (concat tss)).
  destruct ts as [|x ts]; [done|]. cbn [app length] in *. destruct fuel as [|fuel]; [lia|].
  intros Hf. cbn [permits]. rewrite Hp. cbn [mbind option_bind]. by rewrite IH by lia.
Qed.
(** The policies of a joined text are those of its parts, in order. *)
Lemma parse_join l ps : Forall2 permit_text l ps → parse (join (Rbac.nl +:+ Rbac.nl) l) = Some ps.
Proof.
  intros (tss & Hr & Hps)%run_join. unfold parse, lex. rewrite Hr. cbn [mbind option_bind].
  by apply permits_concat.
Qed.
End CedarFacts.

(** * The meaning, executable *)
Module CedarEval.
Import CedarSyntax.
Section eval.
Context (l : list AttrEntity).
Definition attr_of (u : EntityUid) (k : string) : option string :=
  '(_, e) ← list_find (λ e, ae_uid e = u) l; ae_attrs e !! k.
Fixpoint within (fuel : nat) (u v : EntityUid) : bool :=
  bool_decide (u = v) ||
  match fuel with
  | 0 => false
  | S fuel => existsb (λ e, bool_decide (ae_uid e = u) &&
                existsb (λ w, within fuel w v) (elements (ae_parents e))) l
  end.
Context (p a r : EntityUid).
(** A chain of parents without a repetition is no longer than the list. *)
Definition inside (u v : EntityUid) : bool := within (length l) u v.
Definition scope_ok (s : Scope) (u : EntityUid) : bool :=
  match s with
  | Any => true
  | Is ty => bool_decide (u.1 = ty)
  | In v => inside u v
  | Eq v => bool_decide (u = v)
  end.
Definition action_ok (s : ActionScope) : bool :=
  match s with
  | AnyAction => true
  | ActionEq v => bool_decide (a = v)
  | ActionIn vs => existsb (inside a) vs
  end.
Definition condition_ok (c : Condition) : bool :=
  match attr_of (CedarSemantics.var p r (left c).1) (left c).2,
        attr_of (CedarSemantics.var p r (right c).1) (right c).2 with
  | Some v, Some w => bool_decide (v = w)
  | _, _ => false
  end.
Definition applies (x : Permit) : bool :=
  scope_ok (principal x) p && action_ok (action x) && scope_ok (resource x) r &&
  forallb condition_ok (conditions x).

Lemma attr_of_has u k v : attr_of u k = Some v → CedarSemantics.has_attr l u k v.
Proof.
  unfold attr_of. intros ([i e] & (Hi & Hu & _)%list_find_Some & Hv)%bind_Some. exists e.
  split_and!; [by eapply list_elem_of_lookup_2|done..].
Qed.
Lemma within_sound fuel u v : within fuel u v = true → CedarSemantics.entity_in l u v.
Proof.
  revert u. induction fuel as [|fuel IH]; intros u; cbn [within];
    (intros [->%bool_decide_eq_true|Hin]%orb_true_iff; [apply rtc_refl|]); [done|].
  apply existsb_exists in Hin as (e & He & [Hu Hw]%andb_true_iff).
  apply bool_decide_eq_true in Hu. apply existsb_exists in Hw as (w & Hw & Hwv).
  apply list_elem_of_In in Hw, He. apply elem_of_elements in Hw.
  eapply rtc_l; [by exists e|by apply IH].
Qed.
Lemma scope_ok_sound s u : scope_ok s u = true → CedarSemantics.scope_holds l s u.
Proof.
  destruct s; simpl; [done|apply bool_decide_eq_true|apply within_sound|apply bool_decide_eq_true].
Qed.
Lemma applies_sound x : applies x = true → CedarSemantics.applies l p a r x.
Proof.
  unfold applies. intros [[[Hp Ha]%andb_true_iff Hr]%andb_true_iff Hc]%andb_true_iff. split_and!.
  - by apply scope_ok_sound.
  - destruct (action x) as [|v|vs]; simpl in *; [done|by apply bool_decide_eq_true in Ha|].
    apply existsb_exists in Ha as (v & Hv%list_elem_of_In & Hav). exists v.
    split; [done|by eapply within_sound].
  - by apply scope_ok_sound.
  - apply Forall_forall. intros c Hin. rewrite forallb_forall in Hc. apply list_elem_of_In, Hc in Hin.
    unfold condition_ok in Hin. destruct (attr_of _ _) as [v|] eqn:Hv; [|done].
    destruct (attr_of (CedarSemantics.var p r (right c).1) _) as [w|] eqn:Hw; [|done].
    apply bool_decide_eq_true in Hin as <-. exists v. split; by apply attr_of_has.
Qed.
End eval.
End CedarEval.
