(* ===== verification/CpEngine.v ===== *)
(** The control plane's own authorization: the model compiled from
    [forgeguard.toml] at build time ([authz-core/src/cp_model.rs]) and the
    embedded Cedar engine that evaluates it ([authz-core/src/engine_cp]), with
    the isolation of tenants it gives.  TOML and Cedar are libraries. *)

From stdpp Require Import pretty.
From S2P Require Import Prelude RustStr Decimal Ident Fgrn Forest Spine Grants Delegation Store.
From S2P Require Import Rbac Event Action Features Authn Http Pipeline Engine CedarPolicy.

(** * Cedar with attributes *)
Class CedarAttrs `{Cedar} := {
  (** [EntityTypeName::from_str]: is the text a type name? *)
  entity_type_from_str : string → result string ();
  entity_new : AttrEntity → result string AttrEntity;
  from_attr_entities : list AttrEntity → result string Entities;
}.

(** * The engine *)
Module CpCedarEngine.
Section engine.
Context `{CedarAttrs}.

Definition uid (entity_type id : string) : result string EntityUid :=
  _ ← map_err (λ e, "bad entity type " +:+ entity_type +:+ ": " +:+ e)
        (entity_type_from_str entity_type);
  Ok (entity_type, id).
Definition org_id_attr (value : string) : gmap string string := {["org_id" := value]}.

(** The loop over the groups: their entities, and the parents they make. *)
Fixpoint group_entities (group_type : string) (groups : list GroupName)
    : result string (list AttrEntity * gset EntityUid) :=
  match groups with
  | [] => Ok ([], ∅)
  | group :: groups =>
      group_uid ← uid group_type (Id.as_str group);
      e ← map_err (λ e, "group entity: " +:+ e)
            (entity_new {| ae_uid := group_uid; ae_attrs := ∅; ae_parents := ∅ |});
      '(es, parents) ← group_entities group_type groups;
      Ok (e :: es, {[group_uid]} ∪ parents)
  end.
Definition principal_entities (principal : PrincipalRef.t) (groups : list GroupName)
    (project : ProjectId) (tenant : TenantId) : result string (list AttrEntity) :=
  principal_uid ← uid (PrincipalRef.vp_entity_type principal project)
    (VpFgrn.as_vp_entity_id (PrincipalRef.to_fgrn principal project tenant));
  match PrincipalRef.kind principal with
  | PrincipalRef.Machine =>
      e ← map_err (λ e, "machine entity: " +:+ e)
            (entity_new {| ae_uid := principal_uid; ae_attrs := org_id_attr (Id.as_str tenant);
                           ae_parents := ∅ |});
      Ok [e]
  | PrincipalRef.User =>
      '(es, parents) ← group_entities (PrincipalRef.vp_group_entity_type project) groups;
      e ← map_err (λ e, "user entity: " +:+ e)
            (entity_new {| ae_uid := principal_uid; ae_attrs := org_id_attr (Id.as_str tenant);
                           ae_parents := parents |});
      Ok (es ++ [e])
  end.
Definition resource_entities (resource : option ResourceRef.t) (project : ProjectId)
    (tenant : TenantId) : result string (list AttrEntity) :=
  match resource with
  | None => Ok []
  | Some res =>
      let org_id := match ResourceRef.org_source res with
        | ResourceRef.OwnId => ResourceId.as_str (ResourceRef.id res)
        | ResourceRef.RequestTenant => Id.as_str tenant
        end in
      res_uid ← uid (ResourceRef.vp_entity_type res project)
        (VpFgrn.as_vp_entity_id (ResourceRef.to_fgrn res project tenant));
      e ← map_err (λ e, "resource entity: " +:+ e)
            (entity_new {| ae_uid := res_uid; ae_attrs := org_id_attr org_id; ae_parents := ∅ |});
      Ok [e]
  end.
Definition build_cp_entities (principal : PrincipalRef.t) (groups : list GroupName)
    (resource : option ResourceRef.t) (project : ProjectId) (tenant : TenantId)
    : result string Entities :=
  ps ← principal_entities principal groups project tenant;
  rs ← resource_entities resource project tenant;
  map_err (λ e, "entities: " +:+ e) (from_attr_entities (ps ++ rs)).

Definition build_cp_request (principal : PrincipalRef.t) (action : QualifiedAction.t)
    (resource : option ResourceRef.t) (project : ProjectId) (tenant : TenantId)
    : result string Request :=
  principal_uid ← uid (PrincipalRef.vp_entity_type principal project)
    (VpFgrn.as_vp_entity_id (PrincipalRef.to_fgrn principal project tenant));
  action_uid ← uid (QualifiedAction.vp_action_type action project)
    (QualifiedAction.vp_action_id action);
  res ← ok_or resource "cp:* queries always carry a resource";
  resource_uid ← uid (ResourceRef.vp_entity_type res project)
    (VpFgrn.as_vp_entity_id (ResourceRef.to_fgrn res project tenant));
  map_err (λ e, "request: " +:+ e) (request_new principal_uid action_uid resource_uid).

Record t := new { snapshot : Snapshot; project : ProjectId }.
(** A library call that panics would leave no decision. *)
Definition decide (self : t) (q : PolicyQuery.t) : result Empty_set Decision.PolicyDecision :=
  match PolicyContext.tenant_id (PolicyQuery.context q) with
  | None => Ok (Decision.Deny Decision.NoMatchingPolicy)
  | Some tenant =>
      let built :=
        entities ← build_cp_entities (PolicyQuery.principal q)
          (PolicyContext.groups (PolicyQuery.context q)) (PolicyQuery.resource q) (project self) tenant;
        request ← build_cp_request (PolicyQuery.principal q) (PolicyQuery.action q)
          (PolicyQuery.resource q) (project self) tenant;
        Ok (entities, request) in
      match built with
      | Ok (entities, request) =>
          Ok (if is_authorized request (policies (snapshot self)) entities then Decision.Allow
              else Decision.Deny Decision.NoMatchingPolicy)
      | Err e => Ok (Decision.Deny (Decision.EvaluationError e))
      | Stuck w => Stuck w
      end
  end.
Definition engine {R} (self : t) : PolicyEngine R := {|
  evaluate q := match decide self q with
                | Ok d => Ok (Decision.bare d)
                | Err e => match e with end
                | Stuck w => Stuck w
                end;
  cache_stats := None;
|}.
End engine.
Arguments t {_}.
End CpCedarEngine.

(** * The model *)
Module CpModel.
Section model.
Context `{Cedar}.
(** The sections of the file, as deserialized. *)
Inductive PolicySection := RbacSection (e : Rbac.RbacEntry) | CedarSection (body : string).
Record CpModelToml := {
  namespace : option string;
  tenant : option Rbac.TenantConfig;
  policies : list PolicySection;
}.

Definition rbac_entries (m : CpModelToml) : list Rbac.RbacEntry :=
  omap (λ p, match p with RbacSection e => Some e | CedarSection _ => None end) (policies m).
Definition describe (e : Rbac.RbacEntry) {A} (r : result Validation.GroupValidationError A)
    : result string A :=
  map_err (λ err, "policy " +:+ Rbac.debug_str (Rbac.name e) +:+ ": " +:+ Validation.message err) r.
Definition validate_entry (e : Rbac.RbacEntry) : result string () :=
  _ ← describe e (Validation.validate_group_name (Rbac.name e));
  for_each (λ a, describe e (Validation.validate_action_id a)) (Rbac.allow e).
Definition flattened (e : Rbac.RbacEntry) (allow : list string) : Rbac.RbacEntry :=
  {| Rbac.name := Rbac.name e; Rbac.description := Rbac.description e; Rbac.inherits := [];
     Rbac.allow := allow; Rbac.tenant_scoped := Rbac.tenant_scoped e |}.
Definition section_text (entries : list Rbac.RbacEntry) (tenant : Rbac.TenantConfig)
    (namespace : string) (p : PolicySection) : result string string :=
  match p with
  | RbacSection e =>
      allow ← Rbac.resolve_inherits entries (Rbac.name e);
      Rbac.compile_rbac_to_cedar (flattened e allow) tenant namespace
  | CedarSection body => Ok (trim body)
  end.
(** [error_str]: the [Display] of an engine error. *)
Definition compile_cp_model (error_str : AuthzError.t → string) (m : CpModelToml)
    : result string string :=
  ns ← ok_or (namespace m) "missing [schema] namespace";
  let tenant := default Rbac.tenant_default (tenant m) in
  let entries := rbac_entries m in
  _ ← for_each validate_entry entries;
  statements ← mapM (section_text entries tenant ns) (policies m);
  let text := RustStr.join (Rbac.nl +:+ Rbac.nl) statements in
  _ ← map_err error_str (from_policy_text text);
  Ok text.
End model.
End CpModel.

(** * What the policies mean *)
Module CpSpec.
Definition ns_of (project : ProjectId) : string :=
  CedarNamespace.as_str (CedarNamespace.from_project project).
(** The raw policies of [forgeguard.toml]: machines of an organization. *)
Definition machine_permit (ns act : string) : string :=
  "permit(" +:+ Rbac.nl +:+
  "  principal is " +:+ ns +:+ "::Machine," +:+ Rbac.nl +:+
  "  action == " +:+ ns +:+ "::Action::" +:+ String Rbac.quote (act +:+ String Rbac.quote (
  "," +:+ Rbac.nl +:+ "  resource" +:+ Rbac.nl +:+
  ") when { resource.org_id == principal.org_id };")).
End CpSpec.

(** Documented Cedar: an entity is made as given, and an allowed request
    satisfies a permit of the policy text (all policies of the part of the
    language read by [CedarSyntax.parse] are permits, and nothing is allowed
    by default). *)
Class CedarMeaning `{CedarAttrs} := {
  entity_new_same e e' : entity_new e = Ok e' → e' = e;
  allow_satisfies text ps pols p a r l req es :
    policy_set_from_str text = Ok ps → CedarSyntax.parse text = Some pols →
    request_new p a r = Ok req → from_attr_entities l = Ok es →
    is_authorized req ps es = true → ∃ pol, pol ∈ pols ∧ CedarSemantics.applies l p a r pol;
}.

Module CpFacts.
Import CpCedarEngine CpModel CpSpec CedarSemantics.
Section facts.
Context `{CedarMeaning}.
Implicit Types (project : ProjectId) (tenant : TenantId) (m : CpModelToml).

(** Every policy compares the organizations of principal and resource. *)
Record scoped m project : Prop := {
  sc_project : Id.wf project;
  sc_namespace : namespace m = Some (ns_of project);
  sc_tenant : ∃ t, CpModel.tenant m = Some t ∧ Rbac.enabled t = true ∧
    Rbac.principal_attribute t = "org_id" ∧ Rbac.resource_attribute t = "org_id";
  sc_rbac e : RbacSection e ∈ policies m → Rbac.tenant_scoped e = true;
  sc_machine body : CedarSection body ∈ policies m →
    ∃ act, Validation.GROUP_NAME_RE act = true ∧ trim body = machine_permit (ns_of project) act;
}.
(** A role grants an action through itself or what it inherits. *)
Definition role_grants m (role act : string) : Prop :=
  let g := Rbac.rbac_map (rbac_entries m) in
  ∃ x, rtc (Rbac.parent g) role x ∧ Rbac.grants g x act.
Definition machine_grants m project (act : string) : Prop :=
  ∃ body, CedarSection body ∈ policies m ∧ trim body = machine_permit (ns_of project) act.

Lemma uid_Ok ty id u : uid ty id = Ok u → u = (ty, id).
Proof. unfold uid. by intros (? & _ & [= <-])%bind_Ok. Qed.
Lemma group_entities_Ok ty groups es parents : group_entities ty groups = Ok (es, parents) →
  (∀ e, e ∈ es → ∃ g, g ∈ groups ∧ e = {| ae_uid := (ty, Id.as_str g); ae_attrs := ∅; ae_parents := ∅ |}) ∧
  ∀ u, u ∈ parents → ∃ g, g ∈ groups ∧ u = (ty, Id.as_str g).
Proof.
  revert es parents. induction groups as [|g groups IH]; intros es parents; simpl.
  - intros [= <- <-]. split; [by intros e ?%elem_of_nil|set_solver].
  - intros (u & Hu%uid_Ok & (e & He%map_err_Ok%entity_new_same & ([es' ps] & Hr & [= <- <-])%bind_Ok)%bind_Ok)%bind_Ok.
    subst u e. destruct (IH es' ps Hr) as [Hes Hps]. split.
    + intros e [->|He]%elem_of_cons; [exists g; split; [left|done]|].
      destruct (Hes e He) as (g' & Hg' & ->). exists g'. split; [by right|done].
    + intros u [->%elem_of_singleton|Hu]%elem_of_union; [exists g; split; [left|done]|].
      destruct (Hps u Hu) as (g' & Hg' & ->). exists g'. split; [by right|done].
Qed.

(** The entities of a query about an organization. *)
Record entities_of (pr : PrincipalRef.t) (groups : list GroupName) (res : ResourceRef.t)
    project tenant (l : list AttrEntity) : Prop := {
  en_uids e : e ∈ l → (ae_uid e).1 = PrincipalRef.vp_group_entity_type project ∨
    (ae_uid e).1 = PrincipalRef.vp_entity_type pr project ∨
    (ae_uid e).1 = ResourceRef.vp_entity_type res project;
  en_attrs e k v : e ∈ l → ae_attrs e !! k = Some v →
    ((ae_uid e).1 = PrincipalRef.vp_entity_type pr project ∧ v = Id.as_str tenant) ∨
    ((ae_uid e).1 = ResourceRef.vp_entity_type res project ∧
     v = match ResourceRef.org_source res with
         | ResourceRef.OwnId => ResourceId.as_str (ResourceRef.id res)
         | ResourceRef.RequestTenant => Id.as_str tenant
         end);
  en_parents e u : e ∈ l → u ∈ ae_parents e → PrincipalRef.kind pr = PrincipalRef.User ∧
    ∃ g, g ∈ groups ∧ u = (PrincipalRef.vp_group_entity_type project, Id.as_str g);
}.
Lemma org_attr_Some v k w : org_id_attr v !! k = Some w → w = v.
Proof. unfold org_id_attr. rewrite lookup_singleton_Some. by intros [_ <-]. Qed.
Lemma build_entities_Ok pr groups res project tenant es :
  build_cp_entities pr groups (Some res) project tenant = Ok es →
  ∃ l, from_attr_entities l = Ok es ∧ entities_of pr groups res project tenant l.
Proof.
  unfold build_cp_entities, principal_entities, resource_entities.
  intros (ps & (u & ->%uid_Ok & Hp)%bind_Ok & (rs & (ru & ->%uid_Ok & (re & ->%map_err_Ok%entity_new_same
    & [= <-])%bind_Ok)%bind_Ok & Hes%map_err_Ok)%bind_Ok)%bind_Ok.
  exists (ps ++ [{| ae_uid := (ResourceRef.vp_entity_type res project,
      VpFgrn.as_vp_entity_id (ResourceRef.to_fgrn res project tenant));
    ae_attrs := org_id_attr match ResourceRef.org_source res with
                            | ResourceRef.OwnId => ResourceId.as_str (ResourceRef.id res)
                            | ResourceRef.RequestTenant => Id.as_str tenant
                            end; ae_parents := ∅ |}]). split; [done|]. clear Hes es.
  assert (∀ e, e ∈ ps → ((ae_uid e).1 = PrincipalRef.vp_group_entity_type project ∧ ae_attrs e = ∅ ∧
      ae_parents e = ∅) ∨
    ((ae_uid e).1 = PrincipalRef.vp_entity_type pr project ∧ ae_attrs e = org_id_attr (Id.as_str tenant) ∧
     ∀ u, u ∈ ae_parents e → PrincipalRef.kind pr = PrincipalRef.User ∧
       ∃ g, g ∈ groups ∧ u = (PrincipalRef.vp_group_entity_type project, Id.as_str g))) as Hps.
  { destruct (PrincipalRef.kind pr).
    - apply bind_Ok in Hp as ([ges parents] & Hg & (e & ->%map_err_Ok%entity_new_same & [= <-])%bind_Ok).
      destruct (group_entities_Ok _ _ _ _ Hg) as [Hes Hpar].
      intros e [He| ->%list_elem_of_singleton]%elem_of_app.
      + destruct (Hes e He) as (g & _ & ->). by left.
      + right. split_and!; [done..|]. intros u Hu. by split; [|apply Hpar].
    - apply bind_Ok in Hp as (e & ->%map_err_Ok%entity_new_same & [= <-]).
      intros e ->%list_elem_of_singleton. right. split_and!; [done..|]. set_solver. }
  split.
  - intros e [He| ->%list_elem_of_singleton]%elem_of_app; [|by right; right].
    destruct (Hps e He) as [(Hu & _)|(Hu & _)]; auto.
  - intros e k v [He| ->%list_elem_of_singleton]%elem_of_app Hk.
    + destruct (Hps e He) as [(_ & Ha & _)|(Hu & Ha & _)]; rewrite Ha in Hk; [by rewrite lookup_empty in Hk|].
      left. split; [done|]. by eapply org_attr_Some.
    + right. split; [done|]. by eapply org_attr_Some.
  - intros e u [He| ->%list_elem_of_singleton]%elem_of_app Hu; [|set_solver].
    destruct (Hps e He) as [(_ & _ & Hn)|(_ & _ & Hpar)]; [set_solver|by apply Hpar].
Qed.

(** ** The meaning of an allowed query *)
Section allowed.
Variables (pr : PrincipalRef.t) (groups : list GroupName) (res : ResourceRef.t).
Variables (project : ProjectId) (tenant : TenantId) (l : list AttrEntity).
Hypothesis Hl : entities_of pr groups res project tenant l.
Hypothesis Hres : ResourceRef.cedar_entity_type res = Some "Organization".
Let p : EntityUid := (PrincipalRef.vp_entity_type pr project,
                      VpFgrn.as_vp_entity_id (PrincipalRef.to_fgrn pr project tenant)).
Let r : EntityUid := (ResourceRef.vp_entity_type res project,
                      VpFgrn.as_vp_entity_id (ResourceRef.to_fgrn res project tenant)).

Lemma resource_type : r.1 = ns_of project +:+ "::Organization".
Proof. unfold r, ResourceRef.vp_entity_type. simpl. by rewrite Hres. Qed.
Lemma types_differ : p.1 ≠ r.1.
Proof.
  rewrite resource_type. unfold p, PrincipalRef.vp_entity_type. simpl.
  destruct (PrincipalRef.kind pr); by intros ?%(inj (String.append _)).
Qed.
Lemma principal_attr v : has_attr l p "org_id" v → v = Id.as_str tenant.
Proof.
  intros (e & He & Hu & Ha). destruct (en_attrs _ _ _ _ _ _ Hl e _ v He Ha) as [[_ ?]|[Hr _]]; [done|].
  destruct types_differ. rewrite <-Hu. exact Hr.
Qed.
Lemma resource_attr v : has_attr l r "org_id" v → ResourceRef.org_source res = ResourceRef.OwnId →
  v = ResourceId.as_str (ResourceRef.id res).
Proof.
  intros (e & He & Hu & Ha) Ho. destruct (en_attrs _ _ _ _ _ _ Hl e _ v He Ha) as [[Hp _]|[_ Hv]].
  - destruct types_differ. rewrite <-Hu. symmetry. exact Hp.
  - by rewrite Ho in Hv.
Qed.
Lemma member_of n : entity_in l p (PrincipalRef.vp_group_entity_type project, n) →
  PrincipalRef.kind pr = PrincipalRef.User ∧ ∃ g, g ∈ groups ∧ Id.as_str g = n.
Proof.
  intros [Heq|(u & _ & e & He & _ & Hu)]%rtc_inv_r.
  - exfalso. apply (f_equal fst) in Heq. revert Heq. unfold p, PrincipalRef.vp_entity_type,
      PrincipalRef.vp_group_entity_type. simpl.
    destruct (PrincipalRef.kind pr); by intros ?%(inj (String.append _)).
  - destruct (en_parents _ _ _ _ _ _ Hl e _ He Hu) as (Hk & g & Hg & [= ->]). eauto.
Qed.
Lemma same_action id x : entity_in l (ns_of project +:+ "::Action", id) x → x = (ns_of project +:+ "::Action", id).
Proof.
  intros [Heq|(u & (e & He & Hu & _) & _)]%rtc_inv; [done|]. exfalso.
  destruct (en_uids _ _ _ _ _ _ Hl e He) as [Ht|[Ht|Ht]]; rewrite Hu in Ht; simpl in Ht; revert Ht.
  - by intros ?%(inj (String.append _)).
  - unfold PrincipalRef.vp_entity_type. destruct (PrincipalRef.kind pr); by intros ?%(inj (String.append _)).
  - unfold ResourceRef.vp_entity_type. rewrite Hres. by intros ?%(inj (String.append _)).
Qed.
End allowed.

(** The statements of a compiled model are its sections', one by one. *)
Lemma compile_model_Ok error_str m text : compile_cp_model error_str m = Ok text → ∃ ns ts,
  namespace m = Some ns ∧ text = RustStr.join (Rbac.nl +:+ Rbac.nl) ts ∧
  ∀ t, t ∈ ts → ∃ sec, sec ∈ policies m ∧
    section_text (rbac_entries m) (default Rbac.tenant_default (CpModel.tenant m)) ns sec = Ok t.
Proof.
  intros (ns & Hns%ok_or_Ok & (? & _ & (ts & Hts%mapM_Ok & (snap & _ & [= <-])%bind_Ok)%bind_Ok)%bind_Ok)%bind_Ok.
  exists ns, ts. split_and!; [done..|]. intros t [i Hi]%list_elem_of_lookup.
  destruct (Forall2_lookup_r _ _ _ _ _ Hts Hi) as (sec & Hsec & Hsec').
  exists sec. split; [by eapply list_elem_of_lookup_2|done].
Qed.

(** ** The permits of a compiled model *)
Lemma ns_is_word project : Id.wf project → CedarFacts.is_word (ns_of project).
Proof.
  intros Hw. unfold ns_of. simpl. split.
  - intros Hnil. apply (SegmentFacts.wf_nonempty (Id.as_segment project) Hw).
    revert Hnil. unfold CedarNamespace.as_str, CedarNamespace.from_project. simpl.
    unfold Segment.to_cedar_ident. simpl. by destruct (Segment.as_str (Id.as_segment project)).
  - apply str_all_replace_char; [done|]. eapply str_all_impl, SegmentFacts.wf_bytes, Hw. all_bytes.
Qed.
Definition machine_rule (ns act : string) : CedarSyntax.Permit := {|
  CedarSyntax.principal := CedarSyntax.Is (ns +:+ "::Machine");
  CedarSyntax.action := CedarSyntax.ActionEq (CedarFacts.action_uid ns act);
  CedarSyntax.resource := CedarSyntax.Any;
  CedarSyntax.conditions := [{| CedarSyntax.left := (CedarSyntax.Resource, "org_id");
                                CedarSyntax.right := (CedarSyntax.Principal, "org_id") |}];
|}.
Lemma machine_text ns act : CedarFacts.is_word ns → CedarFacts.quotable act →
  CedarFacts.permit_text (machine_permit ns act) (machine_rule ns act).
Proof.
  intros Hns [Hq Hb]. unfold machine_permit. rewrite <-CedarFacts.literal_text_app. eexists. split_and!.
  2: { do 3 (eapply CedarFacts.run_app; [reflexivity|]).
       eapply CedarFacts.run_app; [by apply CedarFacts.run_word|].
       do 3 (eapply CedarFacts.run_app; [reflexivity|]).
       eapply CedarFacts.run_app; [by apply CedarFacts.run_word|].
       eapply CedarFacts.run_app; [reflexivity|].
       eapply CedarFacts.run_app; [by apply CedarFacts.run_literal|]. reflexivity. }
  - done.
  - intros rest. cbn [app]. by eapply CedarFacts.permit_parts.
Qed.
(** What a section of the model is to permit. *)
Definition section_permit (ns : string) (tenant : Rbac.TenantConfig) m (sec : PolicySection)
    (pol : CedarSyntax.Permit) : Prop :=
  match sec with
  | RbacSection e => ∃ allow, Rbac.resolve_inherits (rbac_entries m) (Rbac.name e) = Ok allow ∧
      pol = CedarFacts.role_permit ns (flattened e allow) tenant
  | CedarSection body => ∃ act, trim body = machine_permit ns act ∧ pol = machine_rule ns act
  end.
Lemma compiled_permits error_str m project text : scoped m project →
  compile_cp_model error_str m = Ok text → ∃ pols, CedarSyntax.parse text = Some pols ∧
    ∀ pol, pol ∈ pols → ∃ sec, sec ∈ policies m ∧
      section_permit (ns_of project) (default Rbac.tenant_default (CpModel.tenant m)) m sec pol.
Proof.
  intros Hsc (ns & ts & Hns & -> & Hts)%compile_model_Ok.
  rewrite (sc_namespace _ _ Hsc) in Hns. injection Hns as <-.
  destruct (sc_tenant _ _ Hsc) as (tc & Htc & Hen & Hpa & Hra).
  pose proof (ns_is_word _ (sc_project _ _ Hsc)) as Hns. rewrite Htc in *. cbn [default] in *.
  assert (∃ pols, Forall2 (λ t pol, CedarFacts.permit_text t pol ∧ ∃ sec, sec ∈ policies m ∧
    section_permit (ns_of project) tc m sec pol) ts pols) as [pols Hall].
  { induction ts as [|t ts IH]; [by exists []|].
    destruct IH as [pols Hpols]; [intros t' Ht'; apply Hts; by right|].
    destruct (Hts t ltac:(left)) as (sec & Hsec & Htext).
    assert (∃ pol, CedarFacts.permit_text t pol ∧ section_permit (ns_of project) tc m sec pol) as (pol & Ht & Hp);
      [|exists (pol :: pols); constructor; [by eauto|done]].
    destruct sec as [e|body]; simpl in Htext.
    - apply bind_Ok in Htext as (allow & Hres & Hc). eexists. split; [|by exists allow].
      apply CedarFacts.role_text; [|done..]. intros _. rewrite Hpa, Hra. by split.
    - injection Htext as <-. destruct (sc_machine _ _ Hsc body Hsec) as (act & Hre & Hbody).
      exists (machine_rule (ns_of project) act). split; [|by exists act].
      rewrite Hbody. apply machine_text; [done|]. apply ValidationFacts.name_plain in Hre as [_ Hre].
      split; by apply (str_all_not_contains ValidationFacts.plain_byte). }
  exists pols. split.
  - apply CedarFacts.parse_join. eapply Forall2_impl; [exact Hall|]. by intros t pol [Ht _].
  - intros pol [i Hi]%list_elem_of_lookup. by destruct (Forall2_lookup_r _ _ _ _ _ Hall Hi) as (t & _ & _ & Hsec).
Qed.
End facts.
End CpFacts.

Section isolation.
Import CpCedarEngine CpModel CpFacts.
Context `{CedarMeaning} (error_str : AuthzError.t → string).

Lemma engine_isolates m project text snap q :
  scoped m project → compile_cp_model error_str m = Ok text → from_policy_text text = Ok snap →
  decide (CpCedarEngine.new snap project) q = Ok Decision.Allow →
  (∀ res, PolicyQuery.resource q = Some res → ResourceRef.cedar_entity_type res = Some "Organization") →
  ∃ tenant res, PolicyContext.tenant_id (PolicyQuery.context q) = Some tenant ∧
    PolicyQuery.resource q = Some res ∧
    (ResourceRef.org_source res = ResourceRef.OwnId →
     ResourceId.as_str (ResourceRef.id res) = Id.as_str tenant) ∧
    let act := QualifiedAction.vp_action_id (PolicyQuery.action q) in
    match PrincipalRef.kind (PolicyQuery.principal q) with
    | PrincipalRef.User => ∃ g, g ∈ PolicyContext.groups (PolicyQuery.context q) ∧
        role_grants m (Id.as_str g) act
    | PrincipalRef.Machine => machine_grants m project act
    end.
Proof.
  intros Hsc Hm Hsnap Hd Hty. unfold decide in Hd.
  destruct (PolicyContext.tenant_id _) as [tenant|]; [|done].
  destruct (entities ← _; _) as [[es req]|e|w] eqn:Hb; [|done..].
  apply bind_Ok in Hb as (es' & Hes & (req' & Hreq & [= -> ->])%bind_Ok).
  destruct (is_authorized _ _ _) eqn:Hauth; [|done].
  unfold build_cp_request in Hreq.
  apply bind_Ok in Hreq as (pu & ->%uid_Ok & (au & ->%uid_Ok & (res & Hr%ok_or_Ok &
    (ru & ->%uid_Ok & Hreq%map_err_Ok)%bind_Ok)%bind_Ok)%bind_Ok).
  rewrite Hr in *. pose proof (Hty res eq_refl) as Hot.
  apply build_entities_Ok in Hes as (l & Hfrom & Hl).
  destruct (compiled_permits error_str m project text Hsc Hm) as (pols & Hparse & Hpols).
  apply bind_Ok in Hsnap as (ps & Hps%map_err_Ok & [= <-]). simpl in Hauth.
  destruct (allow_satisfies text ps pols _ _ _ l req es Hps Hparse Hreq Hfrom Hauth) as (pol & Hpol & Happ).
  destruct (Hpols pol Hpol) as (sec & Hsec & Hmeans).
  destruct (sc_tenant _ _ Hsc) as (tc & Htc & Hen & Hpa & Hra). rewrite Htc in Hmeans. simpl in Hmeans.
  exists tenant, res. split; [done|]. split; [done|]. destruct sec as [e|body]; simpl in Hmeans.
  - destruct Hmeans as (allow & Hres & ->). destruct Happ as (Hin & (au & Hau & Ha) & _ & Hv).
    simpl in Hin, Hau, Hv. rewrite (sc_rbac _ _ Hsc e Hsec), Hen, Hpa, Hra in Hv.
    apply Forall_singleton in Hv as (v & Hvp & Hvr). simpl in Hvp, Hvr. split.
    { intros Hown. rewrite <-(resource_attr _ _ _ _ _ _ Hl Hot v Hvr Hown). by eapply principal_attr. }
    destruct (member_of _ _ _ _ _ _ Hl _ Hin) as (-> & g & Hg & Hname). exists g. split; [done|].
    apply list_elem_of_fmap in Hau as (act & -> & Hact).
    apply (same_action _ _ _ _ _ _ Hl Hot) in Ha. injection Ha as Ha. subst act.
    destruct (RbacFacts.resolve_Ok _ _ _ Hres) as (_ & _ & Hgr). rewrite Hname. by apply Hgr.
  - destruct Hmeans as (act & Hbody & ->). destruct Happ as (Hk & Ha & _ & Hv).
    apply Forall_singleton in Hv as (v & Hvr & Hvp). simpl in Hk, Hvp, Hvr, Ha. injection Ha as Ha. split.
    { intros Hown. rewrite <-(resource_attr _ _ _ _ _ _ Hl Hot v Hvr Hown). by eapply principal_attr. }
    revert Hk. unfold PrincipalRef.vp_entity_type. simpl.
    destruct (PrincipalRef.kind (PolicyQuery.principal q)); [by intros ?%(inj (String.append _))|].
    intros _. exists body. by rewrite Ha.
Qed.

(** C7: The control plane's engine isolates organizations.  With a model all of
    whose policies compare the organization of the principal with that of the
    resource, compiled and loaded, an allowed query has a tenant; where the
    resource is scoped by its own id, that id is the tenant's; and the action
    is granted, to a user by a role that is one of the caller's groups, itself
    or through inheritance, or to a machine by one of the machine policies. *)
Theorem cp_engine_isolates m project text snap q :
  scoped m project → compile_cp_model error_str m = Ok text → from_policy_text text = Ok snap →
  decide (CpCedarEngine.new snap project) q = Ok Decision.Allow →
  (∀ res, PolicyQuery.resource q = Some res → ResourceRef.cedar_entity_type res = Some "Organization") →
  ∃ tenant res, PolicyContext.tenant_id (PolicyQuery.context q) = Some tenant ∧
    PolicyQuery.resource q = Some res ∧
    (ResourceRef.org_source res = ResourceRef.OwnId →
     ResourceId.as_str (ResourceRef.id res) = Id.as_str tenant) ∧
    let act := QualifiedAction.vp_action_id (PolicyQuery.action q) in
    match PrincipalRef.kind (PolicyQuery.principal q) with
    | PrincipalRef.User => ∃ g, g ∈ PolicyContext.groups (PolicyQuery.context q) ∧
        role_grants m (Id.as_str g) act
    | PrincipalRef.Machine => machine_grants m project act
    end.
Proof. apply engine_isolates. Qed.
End isolation.

(** * A sample *)
Module CpSample.
Import CpSpec CpModel.
Definition forgeguard : ProjectId := Id.mk (Segment.mk "forgeguard").

(** Cedar for the texts that [CedarSyntax.parse] reads. *)
#[export] Instance cedar : Cedar := {|
  PolicySet := list CedarSyntax.Permit; Entities := list AttrEntity;
  Request := EntityUid * EntityUid * EntityUid;
  policy_set_from_str text := ok_or (CedarSyntax.parse text) "unexpected token";
  from_entities _ := Ok []; request_new p a r := Ok (p, a, r);
  is_authorized '(p, a, r) pols l := existsb (CedarEval.applies l p a r) pols;
|}.
#[export] Instance cedar_attrs : CedarAttrs :=
  {| entity_type_from_str _ := Ok (); entity_new := Ok; from_attr_entities := Ok |}.
#[export] Program Instance cedar_meaning : CedarMeaning.
Next Obligation. by intros e e' [= <-]. Qed.
Next Obligation.
  intros text ps pols p a r l req es Hps%ok_or_Ok Hp. rewrite Hp in Hps. injection Hps as <-.
  intros [= <-] [= <-] (pol & Hpol & Happ)%existsb_exists. exists pol.
  split; [by apply list_elem_of_In|by apply CedarEval.applies_sound].
Qed.

(** The model of [forgeguard.toml]. *)
Definition role (name : string) (inherits allow : list string) : PolicySection :=
  RbacSection {| Rbac.name := name; Rbac.description := None; Rbac.inherits := inherits;
                 Rbac.allow := allow; Rbac.tenant_scoped := true |}.
Definition machine (act : string) : PolicySection := CedarSection (machine_permit "forgeguard" act).
Definition org_scoping : Rbac.TenantConfig :=
  {| Rbac.enabled := true; Rbac.principal_attribute := "org_id"; Rbac.resource_attribute := "org_id" |}.
Definition forgeguard_toml : CpModelToml := {|
  namespace := Some "forgeguard"; tenant := Some org_scoping;
  policies :=
    [role "member" []
       ["cp-organization-read"; "cp-key-read"; "cp-config-read"; "cp-group-read"; "cp-events-read";
        "cp-promotion-list"; "cp-signing-key-read"];
     role "admin" ["member"]
       ["cp-organization-create"; "cp-organization-update"; "cp-member-invite"; "cp-member-remove";
        "cp-member-change-role"; "cp-config-write"; "cp-key-generate"; "cp-key-revoke";
        "cp-key-rotate"; "cp-group-create"; "cp-group-update"; "cp-group-delete";
        "cp-principal-upsert"; "cp-resource-tombstone"; "cp-organization-activate";
        "cp-organization-suspend"; "cp-organization-restore"];
     role "owner" ["admin"] ["cp-member-promote-owner"];
     machine "cp-proxy-config-read"; machine "cp-events-read"; machine "cp-resource-tombstone";
     machine "cp-promotion-list"; machine "cp-signing-key-read"] |}.
(** Its text and permits, evaluated. *)
Definition cp_text : string := Eval vm_compute in
  match compile_cp_model (λ _, EmptyString) forgeguard_toml with Ok text => text | _ => EmptyString end.
Definition cp_permits : list CedarSyntax.Permit := Eval vm_compute in
  default [] (CedarSyntax.parse cp_text).
End CpSample.

Section samples.
Import CpSample CpFacts CpModel.

(** The model compares organizations in every policy, and compiles. *)
Lemma machine_scoped act : Validation.GROUP_NAME_RE act = true →
  trim (CpSpec.machine_permit "forgeguard" act) = CpSpec.machine_permit "forgeguard" act →
  ∃ act', Validation.GROUP_NAME_RE act' = true ∧
    trim (CpSpec.machine_permit "forgeguard" act) = CpSpec.machine_permit (CpSpec.ns_of forgeguard) act'.
Proof. intros Hre Ht. by exists act. Qed.
Lemma forgeguard_toml_scoped : scoped forgeguard_toml forgeguard.
Proof.
  split; [by vm_compute|by vm_compute|by exists org_scoping|
    intros e He; cbv [policies forgeguard_toml] in He;
      rewrite !elem_of_cons, elem_of_nil in He; destruct_or! He; try done; by injection He as ->|
    intros body He; cbv [policies forgeguard_toml] in He;
      rewrite !elem_of_cons, elem_of_nil in He; destruct_or! He; try done;
      injection He as ->; apply machine_scoped; vm_compute; reflexivity].
Qed.
Lemma cp_text_compiled : compile_cp_model (λ _, EmptyString) forgeguard_toml = Ok cp_text.
Proof. vm_cast_no_check (eq_refl (Ok (E:=string) cp_text)). Qed.

Definition acme : TenantId := Id.mk (Segment.mk "acme").
Definition cp_action (entity verb : string) : QualifiedAction.t :=
  QualifiedAction.mk (Namespace.User (Segment.mk "cp")) (Action.mk (Segment.mk verb))
    (Entity.mk (Segment.mk entity)).
(** A principal of [acme], in groups, asks for an action on [org]. *)
Definition asks (pr : PrincipalRef.t) (groups : list string) (act : QualifiedAction.t) (org : string)
    : PolicyQuery.t :=
  PolicyQuery.new pr act
    (Some (ResourceRef.scoped_by_own_id (ResourceRef.from_route_with_entity_type act
             (ResourceId.mk (Segment.mk org)) "Organization")))
    (PolicyContext.with_groups (Id.mk ∘ Segment.mk <$> groups)
       (PolicyContext.with_tenant acme PolicyContext.new)).
Definition m1 : PrincipalRef.t := PrincipalRef.machine (Id.mk (Segment.mk "m1")).
Definition ann : PrincipalRef.t := PrincipalRef.new (Id.mk (Segment.mk "ann")).
Definition loaded : Snapshot := {|
  Engine.policies := cp_permits : PolicySet; policy_text := cp_text;
  version := SnapshotVersion.of_text cp_text;
|}.
Lemma cp_text_loaded : from_policy_text cp_text = Ok loaded.
Proof.
  assert (CedarSyntax.parse cp_text = Some cp_permits) as Hp by (vm_cast_no_check (eq_refl (Some cp_permits))).
  unfold from_policy_text. cbn [policy_set_from_str cedar]. by rewrite Hp.
Qed.
Definition decision (q : PolicyQuery.t) : bool :=
  match CpCedarEngine.decide (CpCedarEngine.new loaded CpSample.forgeguard) q with
  | Ok Decision.Allow => true
  | _ => false
  end.
End samples.
Import CpSample.

(** Witness: an administrator and a machine of an organization, their own
    organization and another one, and a member who may not rotate keys. *)
Lemma cp_engine_isolates_witness :
  decision (asks ann ["admin"] (cp_action "key" "rotate") "other") = false ∧
  decision (asks ann ["member"] (cp_action "key" "rotate") "acme") = false ∧
  decision (asks m1 [] (cp_action "events" "read") "other") = false ∧
  (∃ g : GroupName, g ∈ [Id.mk (Segment.mk "admin")] ∧
     CpFacts.role_grants CpSample.forgeguard_toml (Id.as_str g) "cp-events-read") ∧
  CpFacts.machine_grants CpSample.forgeguard_toml CpSample.forgeguard "cp-events-read".
Proof.
  split_and!; [vm_compute; reflexivity..| |].
  - destruct (cp_engine_isolates (λ _, EmptyString) CpSample.forgeguard_toml CpSample.forgeguard
      CpSample.cp_text loaded (asks ann ["admin"] (cp_action "events" "read") "acme"))
      as (tenant & res & Ht & Hr & _ & Hg).
    + apply forgeguard_toml_scoped.
    + apply cp_text_compiled.
    + apply cp_text_loaded.
    + vm_compute. reflexivity.
    + intros res [= <-]. reflexivity.
    + exact Hg.
  - destruct (cp_engine_isolates (λ _, EmptyString) CpSample.forgeguard_toml CpSample.forgeguard
      CpSample.cp_text loaded (asks m1 [] (cp_action "events" "read") "acme"))
      as (tenant & res & Ht & Hr & _ & Hg).
    + apply forgeguard_toml_scoped.
    + apply cp_text_compiled.
    + apply cp_text_loaded.
    + vm_compute. reflexivity.
    + intros res [= <-]. reflexivity.
    + exact Hg.
Defined.
