(* ===== verification/Adapters.v ===== *)
(** The protocol adapters around the pipeline: identity headers for upstream
    requests ([crates/http/src/headers.rs]), the Axum middleware
    ([lib/forgeguard-axum]: [middleware.rs], [headers.rs], [outcome.rs],
    [guard.rs], [rls.rs]).  Sending bytes is not
    modelled; what is sent is. *)

From stdpp Require Import pretty.
From S2P Require Import Prelude RustStr Decimal Ident Fgrn Grants Store Rbac Event Action.
From S2P Require Import Features Authn Http Cors Pipeline Engine.

(** * Header maps *)

(** A header map: names are stored in lower case. *)
Abbreviation HeaderMap := (list (string * string)).
Module Headers.
Definition remove (name : string) (h : HeaderMap) : HeaderMap := filter (λ kv, kv.1 ≠ name) h.
Definition insert (name value : string) (h : HeaderMap) : HeaderMap :=
  remove name h ++ [(name, value)].
Definition append (name value : string) (h : HeaderMap) : HeaderMap := h ++ [(name, value)].
Definition get (name : string) (h : HeaderMap) : option string :=
  snd <$> List.find (λ kv, bool_decide (kv.1 = name)) h.

Definition X_FG_USER_ID : string := "x-fg-user-id".
Definition X_FG_TENANT_ID : string := "x-fg-tenant-id".
Definition X_FG_GROUPS : string := "x-fg-groups".
Definition X_FG_AUTH_PROVIDER : string := "x-fg-auth-provider".
Definition X_FG_PRINCIPAL : string := "x-fg-principal".
Definition X_FG_FEATURES : string := "x-fg-features".
Definition X_FG_CLIENT_IP : string := "x-fg-client-ip".
Definition X_FG_SCOPE_PATH : string := "x-fg-scope-path".
Definition X_FG_ENTITLEMENTS : string := "x-fg-entitlements".
Definition X_FG_REVISION : string := "x-fg-revision".

(** ** Identity headers of the proxy *)
Record IdentityProjection := {
  user_id : string;
  tenant_id : option string;
  groups : list string;
  auth_provider : string;
  principal_fgrn : option string;
  features_json : option string;
  client_ip : option IpAddr;
}.
Definition projection_new (flags_to_string : Features.ResolvedFlags → option string)
    (identity : Identity.t) (resolved_flags : option Features.ResolvedFlags)
    (client_ip : option IpAddr) : IdentityProjection := {|
  user_id := Id.as_str (Identity.user_id identity);
  tenant_id := Id.as_str <$> Identity.tenant_id identity;
  groups := Id.as_str <$> Identity.groups identity;
  auth_provider := Identity.resolver identity;
  principal_fgrn := None;
  features_json := flags ← resolved_flags;
                   if bool_decide (flags = ∅) then None else flags_to_string flags;
  client_ip := client_ip;
|}.
Definition with_principal_fgrn (fgrn : string) (p : IdentityProjection) : IdentityProjection := {|
  user_id := user_id p; tenant_id := tenant_id p; groups := groups p;
  auth_provider := auth_provider p; principal_fgrn := Some fgrn;
  features_json := features_json p; client_ip := client_ip p |}.
Definition optional (name : string) (v : option string) : HeaderMap :=
  match v with Some v => [(name, v)] | None => [] end.
Definition inject_headers (p : IdentityProjection) : HeaderMap :=
  [(X_FG_USER_ID, user_id p)] ++
  optional X_FG_TENANT_ID (tenant_id p) ++
  (match groups p with [] => [] | gs => [(X_FG_GROUPS, RustStr.join "," gs)] end) ++
  [(X_FG_AUTH_PROVIDER, auth_provider p)] ++
  optional X_FG_PRINCIPAL (principal_fgrn p) ++
  optional X_FG_FEATURES (features_json p) ++
  optional X_FG_CLIENT_IP (ip_text <$> client_ip p).

Section signed.
Context {SK : Type} (b64_encode : string → string) (ed_sign : SK → string → string).
(** The four headers appended after the signed ones. *)
Definition signature_headers (p : Signing.SignedPayload) : HeaderMap :=
  [(Extract.X_FG_TRACE_ID, Signing.trace_id_header_value p);
   (Extract.X_FG_TIMESTAMP, Signing.timestamp_header_value p);
   (Extract.X_FG_KEY_ID, Signing.key_id_header_value p);
   (Extract.X_FG_SIGNATURE, Signing.signature_header_value b64_encode p)].
Definition inject_signed_headers (p : IdentityProjection) (signing : option (SK * Signing.KeyId.t))
    (trace_id : string) (now : N) : HeaderMap :=
  let headers := inject_headers p in
  match signing with
  | Some (key, key_id) =>
      let payload := Signing.canonical_payload trace_id now headers in
      headers ++ signature_headers (Signing.sign ed_sign key key_id payload now trace_id)
  | None => headers
  end.
Definition inject_client_ip (ip : IpAddr) : string * string := (X_FG_CLIENT_IP, ip_text ip).
End signed.
End Headers.

(** * The Axum middleware *)
Module Axum.
Import Headers.
Definition PROTECTED_FG_HEADERS : list string :=
  [X_FG_USER_ID; X_FG_TENANT_ID; X_FG_GROUPS; X_FG_AUTH_PROVIDER; X_FG_PRINCIPAL;
   X_FG_SCOPE_PATH; X_FG_ENTITLEMENTS; X_FG_REVISION].

Inductive Effect := Allowed | Denied | WouldAllow | WouldDeny.
Record EnforcementOutcome := {
  out_record : option DecisionRecord.t;
  out_mode : Pipeline.EnforcementMode;
  out_effect : Effect;
}.
Definition effect_from_forward (e : Pipeline.PolicyEffect) : option Effect :=
  match e with
  | Pipeline.NotEvaluated => None
  | Pipeline.Allowed => Some Allowed
  | Pipeline.WouldAllow => Some WouldAllow
  | Pipeline.WouldDeny => Some WouldDeny
  end.

Definition identity_headers (identity : Identity.t) : HeaderMap :=
  [(X_FG_USER_ID, Id.as_str (Identity.user_id identity))] ++
  optional X_FG_TENANT_ID (Id.as_str <$> Identity.tenant_id identity) ++
  (match Identity.groups identity with
   | [] => []
   | gs => [(X_FG_GROUPS, RustStr.join "," (Id.as_str <$> gs))]
   end) ++
  [(X_FG_AUTH_PROVIDER, Identity.resolver identity)].
Definition record_headers (r : DecisionRecord.t) : HeaderMap :=
  [(X_FG_SCOPE_PATH, ScopePath.to_string (DecisionRecord.scope_path r))] ++
  (match Verb.as_str <$> DecisionRecord.entitlements r with
   | [] => []
   | verbs => [(X_FG_ENTITLEMENTS, RustStr.join "," verbs)]
   end) ++
  [(X_FG_REVISION, pretty (Revision.value (DecisionRecord.revision r)))].

(** The identity projection and the decision projection. *)
Definition projected_headers (identity : option Identity.t) (record : option DecisionRecord.t)
    : HeaderMap :=
  (match identity with Some i => identity_headers i | None => [] end) ++
  (match record with Some r => record_headers r | None => [] end).

(** The literal body for a request that cannot be parsed. *)
Definition quoted (s : string) : string :=
  String "034" (s +:+ String "034" EmptyString).
Definition INVALID_REQUEST : string :=
  "{" +:+ quoted "error" +:+ ":" +:+ quoted "invalid request" +:+ "}".

Section layer.
Context {SK : Type} (b64_encode : string → string) (ed_sign : SK → string → string).
Definition build_fg_headers (identity : option Identity.t) (record : option DecisionRecord.t)
    (signing : option (SK * Signing.KeyId.t)) (trace_id : string) (now : N) : HeaderMap :=
  let headers := projected_headers identity record in
  match signing, headers with
  | None, _ => headers
  | Some _, [] => headers
  | Some (key, key_id), _ =>
      let payload := Signing.canonical_payload trace_id now headers in
      headers ++ signature_headers b64_encode (Signing.sign ed_sign key key_id payload now trace_id)
  end.

(** Libraries: header values that are text, and that may be sent. *)
Context `{Matchit} (to_str header_name_ok header_value_ok : string → bool).
Context (xxh64 : string → N) (json_to_string : Json.t → string).
Context (detailed_to_string : gmap string Features.ResolvedFlag → option string).
Context (form_urlencoded : string → list (string * string)).

Record ForgeGuard := {
  config : Pipeline.PipelineConfig;
  identity_chain : Credential.t → result AuthnError.t Identity.t;
  policy_engine : PolicyEngine DecisionRecord.t;
  signing : option (SK * Signing.KeyId.t);
  default_mode : Pipeline.EnforcementMode;
}.
Record AxumRequest := {
  method : string;
  path : string;
  query : option string;
  headers : HeaderMap;
  peer : option IpAddr;
  mode_override : option Pipeline.EnforcementMode;
}.
(** What the middleware does with the request, and what it tells the sink. *)
Inductive Response :=
| Respond (status : N) (body : string)
| Next (headers : HeaderMap) (identity : option Identity.t)
    (flags : option Features.ResolvedFlags) (record : option DecisionRecord.t).
Record Handled := { response : Response; sunk : list EnforcementOutcome }.

Definition strip_protected (h : HeaderMap) : HeaderMap :=
  foldl (λ h name, remove name h) h PROTECTED_FG_HEADERS.
(** Headers that are not valid are skipped. *)
Definition insert_all (fg_headers h : HeaderMap) : HeaderMap :=
  foldl (λ h kv, if header_name_ok kv.1 && header_value_ok kv.2 then insert kv.1 kv.2 h else h)
    h fg_headers.

Definition request_input (request : AxumRequest) : result RequestInput.Error RequestInput.t :=
  let headers := filter (λ kv, to_str kv.2 = true) (headers request) in
  input ← RequestInput.new (method request) (path request) headers (peer request);
  Ok match query request with
     | Some qs => RequestInput.with_query_string qs input
     | None => input
     end.

(** [trace_id] and [now] are drawn by the middleware. *)
Definition forgeguard_layer (fg : ForgeGuard) (request : AxumRequest) (trace_id : string) (now : N)
    : result Empty_set Handled :=
  match request_input request with
  | Ok input =>
      let mode := default (default_mode fg) (mode_override request) in
      outcome ← Pipeline.evaluate_pipeline xxh64 json_to_string detailed_to_string form_urlencoded
                  (config fg) input (identity_chain fg) (policy_engine fg) mode;
      Ok match outcome with
         | Pipeline.Forward id flags _ record effect =>
             let fg_headers := build_fg_headers id record (signing fg) trace_id now in
             {| response := Next (insert_all fg_headers (strip_protected (headers request)))
                              id flags record;
                sunk := match effect_from_forward effect with
                        | Some e => [{| out_record := record; out_mode := mode; out_effect := e |}]
                        | None => []
                        end |}
         | Pipeline.Reject status body policy_denied record =>
             {| response := Respond status body;
                sunk := if policy_denied
                        then [{| out_record := record; out_mode := mode; out_effect := Denied |}]
                        else [] |}
         | Pipeline.Health body | Pipeline.Debug body =>
             {| response := Respond 200 body; sunk := [] |}
         end
  | Err _ =>
      Ok {| response := Respond 400 INVALID_REQUEST; sunk := [] |}
  | Stuck w => Stuck w
  end.
End layer.

(** ** Row-level security ([rls.rs]) *)
Record RlsContext := { scope_path : string; granted_ids : list string; principal_id : string }.
Record Statement := { sql : string; params : list string }.
Definition session_statements (c : RlsContext) : list Statement :=
  (λ '(var, value), {| sql := "SELECT set_config('" +:+ var +:+ "', $1, true)"; params := [value] |})
  <$> [("fg.scope_path", scope_path c);
       ("fg.granted_ids", RustStr.join "," (granted_ids c));
       ("fg.principal_id", principal_id c)].
Definition rls_from_request (record : option DecisionRecord.t) (identity : option Identity.t)
    : RlsContext := {|
  scope_path := default EmptyString
    ((λ r, ScopePath.to_string (DecisionRecord.scope_path r)) <$> record);
  granted_ids := default [] ((λ r, NativeId.as_str <$> DecisionRecord.granted_ids r) <$> record);
  principal_id := default EmptyString ((λ i, Id.as_str (Identity.user_id i)) <$> identity);
|}.
End Axum.

(** ** What reaches the handler *)
Module AxumSpec.
(** The names a handler reads the caller and the decision from, which no
    client may choose a value for, and the names of a signature. *)
Definition reserved : list string :=
  ["x-fg-user-id"; "x-fg-tenant-id"; "x-fg-groups"; "x-fg-auth-provider"; "x-fg-principal";
   "x-fg-scope-path"; "x-fg-entitlements"; "x-fg-revision"].
Definition signature : list string :=
  ["x-fg-signature"; "x-fg-timestamp"; "x-fg-key-id"; "x-fg-trace-id"].
(** The facts about a caller and a decision, each under its name. *)
Inductive vouched (i : option Identity.t) (r : option DecisionRecord.t) : string → string → Prop :=
| vouched_user caller :
    i = Some caller → vouched i r "x-fg-user-id" (Id.as_str (Identity.user_id caller))
| vouched_tenant caller tenant :
    i = Some caller → Identity.tenant_id caller = Some tenant →
    vouched i r "x-fg-tenant-id" (Id.as_str tenant)
| vouched_groups caller :
    i = Some caller → Identity.groups caller ≠ [] →
    vouched i r "x-fg-groups" (RustStr.join "," (Id.as_str <$> Identity.groups caller))
| vouched_provider caller :
    i = Some caller → vouched i r "x-fg-auth-provider" (Identity.resolver caller)
| vouched_scope d :
    r = Some d → vouched i r "x-fg-scope-path" (ScopePath.to_string (DecisionRecord.scope_path d))
| vouched_entitlements d :
    r = Some d → DecisionRecord.entitlements d ≠ [] →
    vouched i r "x-fg-entitlements"
      (RustStr.join "," (Verb.as_str <$> DecisionRecord.entitlements d))
| vouched_revision d :
    r = Some d → vouched i r "x-fg-revision" (pretty (Revision.value (DecisionRecord.revision d))).
End AxumSpec.

Module AxumFacts.
Import Headers Axum.

Lemma elem_of_remove kv name h : kv ∈ remove name h ↔ kv ∈ h ∧ kv.1 ≠ name.
Proof. unfold remove. rewrite list_elem_of_filter. naive_solver. Qed.
Lemma elem_of_insert kv name v h :
  kv ∈ insert name v h ↔ kv = (name, v) ∨ (kv ∈ h ∧ kv.1 ≠ name).
Proof.
  unfold insert. rewrite elem_of_app, elem_of_remove, list_elem_of_singleton. naive_solver.
Qed.
Lemma elem_of_strip names h kv :
  kv ∈ foldl (λ h name, remove name h) h names ↔ kv ∈ h ∧ kv.1 ∉ names.
Proof.
  revert h. induction names as [|n names IH]; intros h; simpl; [set_solver|].
  rewrite IH, elem_of_remove, not_elem_of_cons. naive_solver.
Qed.
Lemma elem_of_insert_all (ok : string * string → bool) fg h kv :
  NoDup fg.*1 →
  kv ∈ foldl (λ h kv, if ok kv then insert kv.1 kv.2 h else h) h fg ↔
  (kv ∈ fg ∧ ok kv = true) ∨ (kv ∈ h ∧ ∀ kv', kv' ∈ fg → ok kv' = true → kv'.1 ≠ kv.1).
Proof.
  revert h. induction fg as [|x fg IH]; intros h Hnd; simpl; [set_solver|].
  apply NoDup_cons in Hnd as [Hx Hnd]. rewrite IH by done.
  setoid_rewrite elem_of_cons. destruct (ok x) eqn:Hok.
  - rewrite elem_of_insert. rewrite <-surjective_pairing. split.
    + intros [[Hin Hk]|[[->|[Hin Hne]] Hall]]; [by left; auto|by left; auto|].
      right. split; [done|]. intros kv' [->|Hin'] Hk; [congruence|auto].
    + intros [[[->|Hin] Hk]|[Hin Hall]]; [|by left|].
      * right. split; [by left|]. intros kv' Hin' _ Heq. apply Hx. rewrite <-Heq.
        apply list_elem_of_fmap. eauto.
      * right. split; [|auto]. right. split; [done|]. intros Heq. by destruct (Hall x (or_introl eq_refl) Hok).
  - split.
    + intros [[Hin Hk]|[Hin Hall]]; [by left; auto|]. right. split; [done|].
      intros kv' [->|Hin'] Hk; [congruence|auto].
    + intros [[[->|Hin] Hk]|[Hin Hall]]; [congruence|by left|]. right. split; [done|auto].
Qed.

(** The names a middleware may produce are distinct. *)
Lemma fg_headers_names {SK} b64 (sgn : SK → string → string) i r s trace now :
  NoDup (build_fg_headers b64 sgn i r s trace now).*1.
Proof.
  unfold build_fg_headers.
  assert (∀ rest, NoDup rest → (∀ n, n ∈ rest → n ∈ Extract.SIGNED_REQUEST_HEADERS) →
    NoDup ((projected_headers i r).*1 ++ rest)) as Hnd.
  { unfold projected_headers. intros rest Hr Hin. apply NoDup_app. split_and!; [| |done].
    - destruct i as [i|], r as [r|]; unfold identity_headers, record_headers; simpl;
        try destruct (Identity.tenant_id i); try destruct (Identity.groups i);
        try destruct (DecisionRecord.entitlements r); simpl; by_eval.
    - intros n Hn Hr'. apply Hin in Hr'. revert n Hn Hr'.
      assert (∀ l : list string, Forall (λ n, n ∉ Extract.SIGNED_REQUEST_HEADERS) l →
        ∀ n, n ∈ l → n ∈ Extract.SIGNED_REQUEST_HEADERS → False) as Hall.
      { intros l Hl n Hn Hs. rewrite Forall_forall in Hl. by apply (Hl n). }
      apply Hall. destruct i as [i|], r as [r|]; unfold identity_headers, record_headers; simpl;
        try destruct (Identity.tenant_id i); try destruct (Identity.groups i);
        try destruct (DecisionRecord.entitlements r); simpl; by_eval. }
  assert (∀ l, NoDup (l ++ ([] : list string)) → NoDup l) as Hnil
    by (intros l; by rewrite app_nil_r).
  destruct s as [[key key_id]|]; [|apply Hnil, Hnd; [constructor|set_solver]].
  destruct (projected_headers i r) as [|x l]; [constructor|]. rewrite fmap_app.
  apply Hnd; [by_eval|]. intros n Hn. unfold signature_headers in Hn. simpl in Hn. set_solver.
Qed.

(** The two projections say the facts, and only those. *)
Lemma optional_Some name o n v : (n, v) ∈ optional name o ↔ n = name ∧ o = Some v.
Proof. destruct o; simpl; rewrite ?list_elem_of_singleton, ?elem_of_nil; naive_solver. Qed.
Lemma identity_vouched i n v :
  (n, v) ∈ identity_headers i ↔ AxumSpec.vouched (Some i) None n v.
Proof.
  unfold identity_headers. rewrite !elem_of_app, !list_elem_of_singleton, optional_Some. split.
  - intros [[= -> ->]|[[-> (t & Ht & ->)%fmap_Some]|[Hg|[= -> ->]]]]; [by econstructor..| |by econstructor].
    destruct (Identity.groups i) as [|g gs] eqn:Hgs; [by apply elem_of_nil in Hg|].
    apply list_elem_of_singleton in Hg as [= -> Hv].
    assert (v = RustStr.join "," (Id.as_str <$> Identity.groups i)) as -> by (by rewrite Hgs).
    constructor; [done|by rewrite Hgs].
  - intros Hv. inversion Hv as [? [= <-]|? t [= <-] Ht|? [= <-] Hg|? [= <-]|? [=]|? [=]|? [=]]; subst.
    + by left.
    + right; left. by rewrite Ht.
    + right; right; left. destruct (Identity.groups i); [done|]. by left.
    + by do 3 right.
Qed.
Lemma record_vouched r n v : (n, v) ∈ record_headers r ↔ AxumSpec.vouched None (Some r) n v.
Proof.
  unfold record_headers. rewrite !elem_of_app, !list_elem_of_singleton. split.
  - intros [[= -> ->]|[Hg|[= -> ->]]]; [by econstructor| |by econstructor].
    destruct (DecisionRecord.entitlements r) as [|e es] eqn:He; [by apply elem_of_nil in Hg|].
    apply list_elem_of_singleton in Hg as [= -> Hv].
    assert (v = RustStr.join "," (Verb.as_str <$> DecisionRecord.entitlements r)) as ->
      by (by rewrite He).
    constructor; [done|by rewrite He].
  - intros Hv. inversion Hv as [? [=]|? ? [=]|? [=]|? [=]|? [= <-]|? [= <-] He|? [= <-]]; subst.
    + by left.
    + right; left. destruct (DecisionRecord.entitlements r); [done|]. by left.
    + by do 2 right.
Qed.
Lemma vouched_split i r n v :
  AxumSpec.vouched i r n v ↔ AxumSpec.vouched i None n v ∨ AxumSpec.vouched None r n v.
Proof.
  split.
  - intros []; [left..|right|right|right]; by econstructor.
  - intros [[]|[]]; try done; by econstructor.
Qed.
Lemma projected_vouched i r n v : (n, v) ∈ projected_headers i r ↔ AxumSpec.vouched i r n v.
Proof.
  unfold projected_headers. rewrite elem_of_app, vouched_split.
  assert (¬ AxumSpec.vouched None None n v) as Hno by (intros []; done).
  destruct i, r; rewrite ?identity_vouched, ?record_vouched, ?elem_of_nil; tauto.
Qed.
Lemma vouched_reserved i r n v : AxumSpec.vouched i r n v → n ∈ AxumSpec.reserved.
Proof. intros []; by_eval. Qed.
Lemma signature_not_reserved n : n ∈ AxumSpec.signature → n ∉ AxumSpec.reserved.
Proof.
  assert (Forall (λ n, n ∉ AxumSpec.reserved) AxumSpec.signature) as Hall by by_eval.
  rewrite Forall_forall in Hall. apply Hall.
Qed.
Section built.
Context {SK : Type} (b64 : string → string) (sgn : SK → string → string).
(** Signing adds headers under the names of a signature only. *)
Lemma built_headers i r s trace now n v :
  (n, v) ∈ build_fg_headers b64 sgn i r s trace now →
  AxumSpec.vouched i r n v ∨ n ∈ AxumSpec.signature.
Proof.
  unfold build_fg_headers. destruct s as [[key key_id]|]; [|by left; apply projected_vouched].
  destruct (projected_headers i r) as [|x l] eqn:Hp; [by intros ?%elem_of_nil|].
  rewrite <-Hp, elem_of_app. intros [Hin|Hin]; [by left; apply projected_vouched|right].
  apply (list_elem_of_fmap_2 fst) in Hin. revert Hin. unfold signature_headers. simpl. set_solver.
Qed.
Lemma built_reserved i r s trace now n v :
  n ∈ AxumSpec.reserved →
  (n, v) ∈ build_fg_headers b64 sgn i r s trace now ↔ AxumSpec.vouched i r n v.
Proof.
  intros Hn. split.
  - intros [?|Hs]%built_headers; [done|]. by destruct (signature_not_reserved n).
  - rewrite <-projected_vouched. unfold build_fg_headers. destruct s as [[key key_id]|]; [|done].
    destruct (projected_headers i r) as [|x l]; [done|]. rewrite elem_of_app. by left.
Qed.
Lemma built_names i r s trace now n v :
  (n, v) ∈ build_fg_headers b64 sgn i r s trace now →
  n ∈ AxumSpec.reserved ∨ n ∈ AxumSpec.signature.
Proof. intros [?%vouched_reserved|?]%built_headers; auto. Qed.
End built.
End AxumFacts.

Section axum_theorems.
Import Headers Axum.
Context {SK : Type} (b64_encode : string → string) (ed_sign : SK → string → string).
Context `{Matchit} (to_str header_name_ok header_value_ok : string → bool).
Context (xxh64 : string → N) (json_to_string : Json.t → string).
Context (detailed_to_string : gmap string Features.ResolvedFlag → option string).
Context (form_urlencoded : string → list (string * string)).
Abbreviation layer := (forgeguard_layer b64_encode ed_sign to_str header_name_ok header_value_ok xxh64
                         json_to_string detailed_to_string form_urlencoded).
Abbreviation run fg input mode :=
  (Pipeline.evaluate_pipeline xxh64 json_to_string detailed_to_string form_urlencoded
     (config fg) input (identity_chain fg) (policy_engine fg) mode).

(** What the handler sees, in terms of the headers that were built. *)
Lemma layer_headers fg request trace_id now hs i f r outs :
  layer fg request trace_id now = Ok {| response := Next hs i f r; sunk := outs |} →
  (∃ input omr eff, request_input to_str request = Ok input ∧
     run fg input (default (default_mode fg) (mode_override request)) =
       Ok (Pipeline.Forward i f omr r eff)) ∧
  ∀ name v, (name, v) ∈ hs ↔
    ((name, v) ∈ build_fg_headers b64_encode ed_sign i r (signing fg) trace_id now ∧
     header_name_ok name && header_value_ok v = true) ∨
    ((name, v) ∈ headers request ∧ (name ∉ PROTECTED_FG_HEADERS) ∧
     ∀ v', (name, v') ∈ build_fg_headers b64_encode ed_sign i r (signing fg) trace_id now →
       header_name_ok name && header_value_ok v' = false).
Proof.
  unfold forgeguard_layer. destruct (request_input to_str request) as [input| |]; [|done..].
  intros (o & Ho & Heq)%bind_Ok. destruct o as [| | |i' f' omr rec eff]; [done..|].
  simplify_eq. split; [eauto|]. intros name v. unfold insert_all.
  rewrite (AxumFacts.elem_of_insert_all (λ kv, header_name_ok kv.1 && header_value_ok kv.2))
    by apply AxumFacts.fg_headers_names.
  unfold strip_protected. rewrite AxumFacts.elem_of_strip. simpl. split.
  - intros [?|[[Hin Hp] Hall]]; [by left|right]. split_and!; [done..|]. intros v' Hv'.
    apply not_true_is_false. intros Hok. by destruct (Hall _ Hv' Hok).
  - intros [?|(Hin & Hp & Hall)]; [by left|right]. split; [done|].
    intros [n' v'] Hv' Hok Heq. simpl in *. subst n'. by rewrite (Hall _ Hv') in Hok.
Qed.
(** C30: no client can forge what the Axum middleware vouches for.  Whatever
    headers a request carries, the request the handler sees has, under each of
    the eight names that tell it who the caller is and what was decided, the
    facts about the identity and the decision record the pipeline forwarded
    (those that may be sent as header values) and nothing else: where there is
    no identity, or no tenant, or no decision, no header of that name at all.
    Under the four names of a signature the middleware's own headers replace
    the client's where it signs; every other header is the client's. *)
Theorem axum_headers_authentic fg request trace_id now hs i f r outs :
  layer fg request trace_id now = Ok {| response := Next hs i f r; sunk := outs |} →
  (∃ input omr eff, request_input to_str request = Ok input ∧
     run fg input (default (default_mode fg) (mode_override request)) =
       Ok (Pipeline.Forward i f omr r eff)) ∧
  (∀ name v, name ∈ AxumSpec.reserved →
     (name, v) ∈ hs ↔
     AxumSpec.vouched i r name v ∧ header_name_ok name && header_value_ok v = true) ∧
  (∀ name v, name ∈ AxumSpec.signature →
     (name, v) ∈ hs ↔
     ((name, v) ∈ build_fg_headers b64_encode ed_sign i r (signing fg) trace_id now ∧
      header_name_ok name && header_value_ok v = true) ∨
     ((name, v) ∈ headers request ∧
      ∀ v', (name, v') ∈ build_fg_headers b64_encode ed_sign i r (signing fg) trace_id now →
        header_name_ok name && header_value_ok v' = false)) ∧
  (∀ name v, (name ∉ AxumSpec.reserved) → (name ∉ AxumSpec.signature) →
     (name, v) ∈ hs ↔ (name, v) ∈ headers request).
Proof.
  intros Hl. destruct (layer_headers _ _ _ _ _ _ _ _ _ Hl) as [Hrun Hhs].
  pose proof (AxumFacts.built_names b64_encode ed_sign i r (signing fg) trace_id now) as Hnames.
  change PROTECTED_FG_HEADERS with AxumSpec.reserved in Hhs.
  split_and!; [done|intros name v Hn|intros name v Hn|intros name v Hn Hn']; rewrite Hhs.
  - rewrite (AxumFacts.built_reserved _ _ _ _ _ _ _ _ _ Hn). naive_solver.
  - pose proof (AxumFacts.signature_not_reserved _ Hn). naive_solver.
  - specialize (Hnames name). naive_solver.
Qed.
(** the decision sink hears exactly the evaluated decisions.  The middleware
    records one outcome when the policy was evaluated, and none otherwise: a
    denial is recorded exactly when the client is refused by policy, and
    carries the effective mode and the engine's record. *)
Theorem axum_sink_exact fg request trace_id now h :
  layer fg request trace_id now = Ok h →
  let mode := default (default_mode fg) (mode_override request) in
  (∀ x, x ∈ sunk h → out_mode x = mode) ∧ length (sunk h) ≤ 1 ∧
  (∀ x, x ∈ sunk h → (out_effect x = Denied ↔ ∃ status body, response h = Respond status body)) ∧
  (∀ input, request_input to_str request = Ok input →
   (sunk h = [] ↔ ∀ o, run fg input mode = Ok o →
      match o with
      | Pipeline.Reject _ _ denied _ => denied = false
      | Pipeline.Forward _ _ _ _ eff => eff = Pipeline.NotEvaluated
      | _ => True
      end)).
Proof.
  cbv zeta. unfold forgeguard_layer. destruct (request_input to_str request) as [input|e|w].
  - intros (o & Ho & [= <-])%bind_Ok.
    assert (∀ P : Pipeline.PipelineOutcome DecisionRecord.t → Prop,
      (∀ o', run fg input (default (default_mode fg) (mode_override request)) = Ok o' → P o') ↔ P o)
      as Hrun. { intros P. rewrite Ho. naive_solver. }
    destruct o as [b|b|st b [] rec|i f omr rec eff]; [..|destruct eff]; simpl;
      setoid_rewrite list_elem_of_singleton || setoid_rewrite elem_of_nil; split_and!;
      first [lia|naive_solver|idtac].
    all: intros ? [= <-]; rewrite Hrun; naive_solver.
  - intros [= <-]. simpl. setoid_rewrite elem_of_nil. split_and!; first [lia|naive_solver].
  - done.
Qed.
End axum_theorems.

(** * Signed headers, from the adapter to the verifier *)
Section upstream_theorems.
Import Headers SignedFacts.
Context {SK VK : Type} (vk_of : SK → VK).
Context (b64_encode : string → string) (b64_decode : string → result string string).
Context (ed_sign : SK → string → string) (ed_verify : VK → string → string → bool).
(** Documented behaviour of the base64 and Ed25519 libraries. *)
Context (b64_roundtrip : ∀ s, b64_decode (b64_encode s) = Ok s).
Context (sign_length : ∀ k m, String.length (ed_sign k m) = 64).
Context (verify_sign : ∀ k m, ed_verify (vk_of k) m (ed_sign k m) = true).

(** The verifier of a signed request: what extraction yields, under the key. *)
Definition verifies (key : VK) (hs : HeaderMap) (key_id : string) (ids : HeaderMap) : Prop :=
  ∃ ts sig trace bytes covered,
    Extract.extract_credential hs =
      Ok (Some (Credential.SignedRequest key_id ts sig trace covered)) ∧
    covered ≡ₚ ids ∧
    Signing.parse_signature_header b64_decode sig = Ok bytes ∧
    ed_verify key (Signing.canonical_payload trace ts covered) bytes = true.

Lemma signed_headers_verify (key : SK) (key_id : Signing.KeyId.t) trace now ids others hs :
  (now < 2 ^ 64)%N → NoDup ids.*1 → Forall (λ h, Extract.is_identity_header h = true) ids →
  Forall (λ h, is_other_header h = true) others →
  hs ≡ₚ (ids ++ signature_headers b64_encode
          (Signing.sign ed_sign key key_id (Signing.canonical_payload trace now ids) now trace)) ++
        others →
  verifies (vk_of key) hs (Signing.KeyId.as_str key_id) ids.
Proof.
  intros Hnow Hnd Hids Hothers Hhs.
  set (signed := Signing.sign ed_sign key key_id (Signing.canonical_payload trace now ids) now trace)
    in *.
  assert (hs ≡ₚ Client.protocol_headers b64_encode signed ++ ids ++ others) as Hp.
  { rewrite Hhs, (Permutation_app_comm ids), <-app_assoc. f_equiv.
    unfold signature_headers, Client.protocol_headers. solve_Permutation. }
  pose proof (request_identity_headers hs _ ids others Hp Hids Hothers eq_refl) as Hperm.
  eexists _, _, _, (ed_sign key (Signing.canonical_payload trace now ids)), _. split_and!.
  - exact (extract_signed b64_encode signed hs ids others Hnow Hids Hothers Hp).
  - done.
  - by apply parse_signature_roundtrip.
  - rewrite (PayloadFacts.canonical_payload_Permutation _ _ _ ids); [apply verify_sign| |done].
    by rewrite Hperm.
Qed.

Lemma inject_headers_names p : NoDup (inject_headers p).*1.
Proof.
  unfold inject_headers, optional. rewrite !fmap_app.
  destruct (tenant_id p), (groups p), (principal_fgrn p), (features_json p), (client_ip p);
    simpl; by_eval.
Qed.
Lemma inject_headers_identity p :
  Forall (λ h, Extract.is_identity_header h = true) (inject_headers p).
Proof.
  unfold inject_headers, optional. rewrite !Forall_app. split_and!.
  - by repeat constructor.
  - destruct (tenant_id p); by repeat constructor.
  - destruct (groups p); by repeat constructor.
  - by repeat constructor.
  - destruct (principal_fgrn p); by repeat constructor.
  - destruct (features_json p); by repeat constructor.
  - destruct (client_ip p); by repeat constructor.
Qed.
Lemma fg_headers_identity (i : option Identity.t) (r : option DecisionRecord.t) :
  Forall (λ h, Extract.is_identity_header h = true)
    (Axum.projected_headers i r).
Proof.
  unfold Axum.projected_headers. apply Forall_app. split.
  - destruct i as [i|]; [|constructor]. unfold Axum.identity_headers, optional.
    rewrite !Forall_app. split_and!; [by repeat constructor|..|by repeat constructor].
    + destruct (Identity.tenant_id i); by repeat constructor.
    + destruct (Identity.groups i); by repeat constructor.
  - destruct r as [r|]; [|constructor]. unfold Axum.record_headers.
    rewrite !Forall_app. split_and!; [by repeat constructor|..|by repeat constructor].
    destruct (Verb.as_str <$> _); by repeat constructor.
Qed.

(** C31: what an adapter signs, a recipient can verify.  The headers the proxy
    injects for an identity, and those the Axum middleware builds for an
    identity or a decision record, are extracted from the request they are sent
    in, among headers that are neither ForgeGuard's nor credentials and in any
    order, as a signed request by the configured key whose signature verifies
    and covers exactly the injected headers. *)
Theorem injected_headers_verify (key : SK) (key_id : Signing.KeyId.t) trace now others :
  (now < 2 ^ 64)%N → Forall (λ h, is_other_header h = true) others →
  (∀ p hs, hs ≡ₚ inject_signed_headers b64_encode ed_sign p (Some (key, key_id)) trace now ++ others →
     verifies (vk_of key) hs (Signing.KeyId.as_str key_id) (inject_headers p)) ∧
  (∀ i r hs, (i, r) ≠ (None, None) →
     hs ≡ₚ Axum.build_fg_headers b64_encode ed_sign i r (Some (key, key_id)) trace now ++ others →
     verifies (vk_of key) hs (Signing.KeyId.as_str key_id)
       (Axum.build_fg_headers b64_encode ed_sign i r None trace now)).
Proof.
  intros Hnow Hothers. split.
  - intros p hs Hhs. eapply signed_headers_verify;
      [done|apply inject_headers_names|apply inject_headers_identity|done|exact Hhs].
  - intros i r hs Hne Hhs.
    pose proof (AxumFacts.fg_headers_names b64_encode ed_sign i r None trace now) as Hnd.
    pose proof (fg_headers_identity i r) as Hid. unfold Axum.build_fg_headers in *.
    eapply signed_headers_verify; [done|exact Hnd|exact Hid|done|].
    assert (Axum.projected_headers i r ≠ []) as Hnil by (by destruct i, r).
    by destruct (Axum.projected_headers i r).
Qed.
End upstream_theorems.

(** * Samples *)
Module AxumSample.
Import ListRouter.
Definition yes : string → bool := λ _, true.
Definition guard : Axum.ForgeGuard (SK := string) := {|
  Axum.config := PipelineSample.config; Axum.identity_chain := PipelineSample.chain;
  Axum.policy_engine := StaticPolicyEngine.engine (StaticPolicyEngine.new Decision.Allow);
  Axum.signing := Some ("secret", AuthnSample.key); Axum.default_mode := Pipeline.Enforce |}.
(** Ann's request, with a user it claims to be. *)
Definition request : Axum.AxumRequest := {|
  Axum.method := "GET"; Axum.path := "/lists/7"; Axum.query := None;
  Axum.headers := [("x-api-key", "k1"); ("x-fg-org-id", "acme"); ("x-fg-user-id", "root")];
  Axum.peer := None; Axum.mode_override := None |}.
Definition handled : result Empty_set Axum.Handled :=
  Axum.forgeguard_layer id AuthnSample.sample_sign yes yes yes (λ _, 0%N) PipelineSample.no_json
    (λ _, None) (λ _, []) guard request "t-1" 1000000.
Definition user_of (r : result Empty_set Axum.Handled) : option (option string * nat) :=
  match r with
  | Ok {| Axum.response := Axum.Next hs _ _ _; Axum.sunk := outs |} =>
      Some (Headers.get Headers.X_FG_USER_ID hs, length outs)
  | _ => None
  end.
Lemma handled_user : user_of handled = Some (Some "ann", 1).
Proof. vm_cast_no_check (eq_refl (Some (Some "ann", 1))). Qed.
Definition ann : Identity.t := {|
  Identity.user_id := PipelineSample.seg UserIdK "ann"; Identity.tenant_id := None;
  Identity.groups := []; Identity.expiry := None; Identity.resolver := "api-key";
  Identity.extra := None; Identity.principal_kind := PrincipalRef.User |}.
Definition projection : Headers.IdentityProjection :=
  Headers.projection_new (λ _, None) ann None None.
End AxumSample.

Lemma axum_headers_authentic_witness :
  ∃ hs i f r outs,
    AxumSample.handled = Ok {| Axum.response := Axum.Next hs i f r; Axum.sunk := outs |} ∧
    ("x-fg-user-id", "ann") ∈ hs ∧ ("x-fg-user-id", "root") ∉ hs.
Proof.
  pose proof AxumSample.handled_user as Hu.
  destruct AxumSample.handled as [[[st b|hs i f r] outs]| |] eqn:Hh; try discriminate Hu.
  exists hs, i, f, r, outs. split; [reflexivity|].
  destruct (axum_headers_authentic id AuthnSample.sample_sign AxumSample.yes AxumSample.yes
    AxumSample.yes (λ _, 0%N) PipelineSample.no_json (λ _, None) (λ _, []) AxumSample.guard
    AxumSample.request "t-1" 1000000 hs i f r outs Hh) as [(input & omr & eff & Hi & Hrun) [Hhs _]].
  clear Hu Hh. vm_compute in Hi. injection Hi as <-.
  vm_compute in Hrun. injection Hrun as <- <- <- <- <-. split.
  - apply Hhs; [left|]. split; [|reflexivity]. 
    match goal with |- AxumSpec.vouched (Some ?c) ?r _ _ =>
      exact (AxumSpec.vouched_user (Some c) r c eq_refl) end.
  - intros [Hv _]%Hhs; [|left]. inversion Hv as [c Hc Hn Heq| | | | | |]. injection Hc as <-. discriminate Heq.
Defined.

Lemma axum_sink_exact_witness :
  ∃ h x, AxumSample.handled = Ok h ∧ x ∈ Axum.sunk h ∧ Axum.out_mode x = Pipeline.Enforce.
Proof.
  pose proof AxumSample.handled_user as Hu.
  destruct AxumSample.handled as [[[st b|hs i f r] [|x outs]]| |] eqn:Hh; try discriminate Hu.
  exists {| Axum.response := Axum.Next hs i f r; Axum.sunk := x :: outs |}, x.
  split; [reflexivity|]. split; [left|].
  exact (proj1 (axum_sink_exact id AuthnSample.sample_sign AxumSample.yes AxumSample.yes
    AxumSample.yes (λ _, 0%N) PipelineSample.no_json (λ _, None) (λ _, []) AxumSample.guard
    AxumSample.request "t-1" 1000000 _ Hh) x (list_elem_of_here _ _)).
Defined.

Lemma injected_headers_verify_witness :
  verifies AuthnSample.sample_decode AuthnSample.sample_verify "secret"
    (Headers.inject_signed_headers id AuthnSample.sample_sign AxumSample.projection
       (Some ("secret", AuthnSample.key)) "t-1" 1000000 ++ AuthnSample.others)
    "key-1" (Headers.inject_headers AxumSample.projection).
Proof.
  apply (injected_headers_verify (λ k, k) id AuthnSample.sample_decode AuthnSample.sample_sign
    AuthnSample.sample_verify (λ s, eq_refl) AuthnSample.sample_sign_length
    (λ k m, bool_decide_eq_true_2 _ eq_refl) "secret" AuthnSample.key "t-1" 1000000
    AuthnSample.others); [lia|by_eval|reflexivity].
Defined.
