(* ===== verification/App.v ===== *)
(** The control plane's application ([control-plane/src/app.rs]): the table of
    API routes, their mapping to actions and resources, the ForgeGuard built
    from them, and the router that dispatches to the handlers behind the
    middleware.  The theorems follow a request through all of it. *)

From stdpp Require Import pretty.
From S2P Require Import Prelude RustStr Decimal Ident Fgrn Store Event Org Rbac EventStore Action Features.
From S2P Require Import Authn ReadModel Handlers Api Http Pipeline Engine CpEngine Adapters.

(** * Routes *)
Definition API_ROUTES : list (string * string) :=
  [("POST", "/api/v1/organizations");
   ("GET", "/api/v1/organizations");
   ("GET", "/api/v1/organizations/{org_id}");
   ("PUT", "/api/v1/organizations/{org_id}");
   ("GET", "/api/v1/organizations/{org_id}/proxy-config");
   ("POST", "/api/v1/organizations/{org_id}/keys");
   ("GET", "/api/v1/organizations/{org_id}/keys");
   ("DELETE", "/api/v1/organizations/{org_id}/keys/{key_id}");
   ("POST", "/api/v1/organizations/{org_id}/keys/{key_id}/rotate");
   ("POST", "/api/v1/organizations/{org_id}/groups");
   ("GET", "/api/v1/organizations/{org_id}/groups");
   ("GET", "/api/v1/organizations/{org_id}/groups/{name}");
   ("PUT", "/api/v1/organizations/{org_id}/groups/{name}");
   ("DELETE", "/api/v1/organizations/{org_id}/groups/{name}");
   ("PUT", "/api/v1/organizations/{org_id}/principals/{native_id}");
   ("GET", "/api/v1/organizations/{org_id}/events");
   ("DELETE", "/api/v1/organizations/{org_id}/promoted-resources/{resource_type}/{native_id}");
   ("GET", "/api/v1/organizations/{org_id}/promoted-resources");
   ("GET", "/api/v1/organizations/{org_id}/signing-keys");
   ("POST", "/api/v1/organizations/{org_id}/activate");
   ("POST", "/api/v1/organizations/{org_id}/suspend");
   ("POST", "/api/v1/organizations/{org_id}/restore")].

Definition anon_route (method path : string) : result HttpError.t Route.PublicRoute :=
  m ← HttpMethod.from_str method;
  Ok {| Route.p_method := m; Route.p_path_pattern := path; Route.auth_mode := Route.AnonymousMode |}.

(** (method, path, action, resource parameter). *)
Definition route_entries : list (string * string * string * option string) :=
  let org := Some "org_id" in
  [("POST", "/api/v1/organizations", "cp:organization:create", None);
   ("GET", "/api/v1/organizations", "cp:organization:read", None);
   ("GET", "/api/v1/organizations/{org_id}", "cp:organization:read", org);
   ("PUT", "/api/v1/organizations/{org_id}", "cp:organization:update", org);
   ("GET", "/api/v1/organizations/{org_id}/proxy-config", "cp:proxy-config:read", org);
   ("POST", "/api/v1/organizations/{org_id}/keys", "cp:key:generate", org);
   ("GET", "/api/v1/organizations/{org_id}/keys", "cp:key:read", org);
   ("DELETE", "/api/v1/organizations/{org_id}/keys/{key_id}", "cp:key:revoke", org);
   ("POST", "/api/v1/organizations/{org_id}/keys/{key_id}/rotate", "cp:key:rotate", org);
   ("POST", "/api/v1/organizations/{org_id}/groups", "cp:group:create", org);
   ("GET", "/api/v1/organizations/{org_id}/groups", "cp:group:read", org);
   ("GET", "/api/v1/organizations/{org_id}/groups/{name}", "cp:group:read", org);
   ("PUT", "/api/v1/organizations/{org_id}/groups/{name}", "cp:group:update", org);
   ("DELETE", "/api/v1/organizations/{org_id}/groups/{name}", "cp:group:delete", org);
   ("PUT", "/api/v1/organizations/{org_id}/principals/{native_id}", "cp:principal:upsert", org);
   ("GET", "/api/v1/organizations/{org_id}/events", "cp:events:read", org);
   ("DELETE", "/api/v1/organizations/{org_id}/promoted-resources/{resource_type}/{native_id}",
      "cp:resource:tombstone", org);
   ("GET", "/api/v1/organizations/{org_id}/promoted-resources", "cp:promotion:list", org);
   ("GET", "/api/v1/organizations/{org_id}/signing-keys", "cp:signing-key:read", org);
   ("POST", "/api/v1/organizations/{org_id}/activate", "cp:organization:activate", org);
   ("POST", "/api/v1/organizations/{org_id}/suspend", "cp:organization:suspend", org);
   ("POST", "/api/v1/organizations/{org_id}/restore", "cp:organization:restore", org)].
Definition entry_mapping (entry : string * string * string * option string)
    : result HttpError.t Route.RouteMapping :=
  let '(method, path, action, resource_param) := entry in
  method ← map_err (λ e, HttpError.Config ("invalid method: " +:+ http_error_str e))
             (HttpMethod.from_str method);
  action ← map_err (λ e, HttpError.Config ("invalid action: " +:+ core_error_str e))
             (QualifiedAction.parse action);
  let mapping := Route.with_resource_entity_type "Organization"
                   (Route.new method path action resource_param None) in
  match resource_param with
  | None => Route.with_default_resource_id Rbac.debug_str "collection" mapping
  | Some _ => Ok (Route.with_org_resource mapping)
  end.
Definition cp_route_actions : result HttpError.t (list Route.RouteMapping) :=
  mapM entry_mapping route_entries.

(** * The guard *)
Inductive AppError := Http (e : HttpError.t) | Core (e : Error.t) | Policy (e : AuthzError.t).
Section build.
Context `{Matchit} `{CedarAttrs} (wide_alphanumeric : string → bool) {SK : Type}.

(** [ForgeGuard::new]: no signing key, enforcing. *)
Definition forge_guard_new (config : Pipeline.PipelineConfig)
    (chain : Credential.t → result AuthnError.t Identity.t)
    (engine : PolicyEngine DecisionRecord.t) : Axum.ForgeGuard (SK:=SK) :=
  {| Axum.config := config; Axum.identity_chain := chain; Axum.policy_engine := engine;
     Axum.signing := None; Axum.default_mode := Pipeline.Enforce |}.

(** [auth]: the JWT resolver of the configuration, or the development mode;
    [policy_text]: the text compiled into the binary. *)
Definition build_forgeguard (policy_text : string) (auth : option IdentityResolver)
    (ed25519_resolver : option IdentityResolver)
    (membership_resolver : option Pipeline.MembershipResolver)
    : result AppError (Axum.ForgeGuard (SK:=SK)) :=
  health_route ← map_err Http (anon_route "GET" "/health");
  metrics_route ← map_err Http (anon_route "GET" "/metrics");
  project_id ← map_err Core (Id.new "forgeguard");
  '(route_matcher, public_routes, chain, auth_providers, default_policy, engine) ←
    (match auth with
     | Some cognito_resolver =>
         let resolvers := cognito_resolver :: option_list ed25519_resolver in
         let providers := "jwt" :: (if bool_decide (is_Some ed25519_resolver) then ["ed25519"] else []) in
         mappings ← map_err Http cp_route_actions;
         route_matcher ← map_err Http (Route.matcher_new wide_alphanumeric mappings);
         snapshot ← map_err Policy (from_policy_text policy_text);
         Ok (route_matcher, [health_route; metrics_route], IdentityChain.resolve resolvers, providers,
             Pipeline.DenyByDefault,
             CpCedarEngine.engine (CpCedarEngine.new snapshot project_id))
     | None =>
         api ← map_err Http (mapM (λ '(method, path), anon_route method path) API_ROUTES);
         route_matcher ← map_err Http (Route.matcher_new wide_alphanumeric []);
         Ok (route_matcher, [health_route; metrics_route] ++ api, IdentityChain.resolve [], [],
             Pipeline.Passthrough,
             StaticPolicyEngine.engine (StaticPolicyEngine.new Decision.Allow))
     end);
  public_route_matcher ← map_err Http (Route.public_new wide_alphanumeric public_routes);
  Ok (forge_guard_new
        {| Pipeline.route_matcher := route_matcher;
           Pipeline.public_route_matcher := public_route_matcher;
           Pipeline.flag_config := {| Features.flags := [] |}; Pipeline.project_id := project_id;
           Pipeline.default_policy := default_policy; Pipeline.debug_mode := false;
           Pipeline.auth_providers := auth_providers;
           Pipeline.membership_resolver := membership_resolver |} chain engine).
End build.

(** * The router *)
Module Router.
(** One constructor per handler of the table. *)
Inductive Endpoint :=
| Health | Metrics
| CreateOrg | ListOrgs | GetOrg | UpdateOrg | ProxyConfig
| GenerateKey | ListKeys | RevokeKey | RotateKey
| CreateGroup | ListGroups | GetGroup | UpdateGroup | DeleteGroup
| UpsertPrincipal | ListEvents | TombstonePromotion | ListPromotions | ListSigningKeys
| Activate | Suspend | Restore.
#[global] Instance Endpoint_eq_dec : EqDecision Endpoint.
Proof. solve_decision. Defined.
Definition Methods : Type := list (string * Endpoint).

Definition table : list (string * Methods) :=
  [("/health", [("GET", Health)]);
   ("/metrics", [("GET", Metrics)]);
   ("/api/v1/organizations", [("POST", CreateOrg); ("GET", ListOrgs)]);
   ("/api/v1/organizations/{org_id}", [("GET", GetOrg); ("PUT", UpdateOrg)]);
   ("/api/v1/organizations/{org_id}/proxy-config", [("GET", ProxyConfig)]);
   ("/api/v1/organizations/{org_id}/keys", [("POST", GenerateKey); ("GET", ListKeys)]);
   ("/api/v1/organizations/{org_id}/keys/{key_id}", [("DELETE", RevokeKey)]);
   ("/api/v1/organizations/{org_id}/keys/{key_id}/rotate", [("POST", RotateKey)]);
   ("/api/v1/organizations/{org_id}/groups", [("POST", CreateGroup); ("GET", ListGroups)]);
   ("/api/v1/organizations/{org_id}/groups/{name}",
      [("GET", GetGroup); ("PUT", UpdateGroup); ("DELETE", DeleteGroup)]);
   ("/api/v1/organizations/{org_id}/principals/{native_id}", [("PUT", UpsertPrincipal)]);
   ("/api/v1/organizations/{org_id}/events", [("GET", ListEvents)]);
   ("/api/v1/organizations/{org_id}/promoted-resources/{resource_type}/{native_id}",
      [("DELETE", TombstonePromotion)]);
   ("/api/v1/organizations/{org_id}/promoted-resources", [("GET", ListPromotions)]);
   ("/api/v1/organizations/{org_id}/signing-keys", [("GET", ListSigningKeys)]);
   ("/api/v1/organizations/{org_id}/activate", [("POST", Activate)]);
   ("/api/v1/organizations/{org_id}/suspend", [("POST", Suspend)]);
   ("/api/v1/organizations/{org_id}/restore", [("POST", Restore)])].

Section router.
Context `{Matchit}.
Fixpoint add_routes (r : router Methods) (rows : list (string * Methods))
    : result string (router Methods) :=
  match rows with
  | [] => Ok r
  | (pattern, methods) :: rows => r ← router_insert r pattern methods; add_routes r rows
  end.
Definition build_router : result string (router Methods) := add_routes router_new table.

(** No pattern, a pattern without the method, or a handler. *)
Inductive Dispatch := NotFound | MethodNotAllowed | Routed (e : Endpoint) (params : list (string * string)).
Definition dispatch (r : router Methods) (method path : string) : Dispatch :=
  match router_at r path with
  | None => NotFound
  | Some (methods, params) =>
      match list_find (λ row, row.1 = method) methods with
      | Some (_, (_, e)) => Routed e params
      | None => MethodNotAllowed
      end
  end.
End router.
End Router.

(** * Serving *)
Record HttpRequest := { parts : Axum.AxumRequest; payload : string }.
Definition with_headers (hs : HeaderMap) (r : HttpRequest) : HttpRequest :=
  let p := parts r in
  {| parts := {| Axum.method := Axum.method p; Axum.path := Axum.path p; Axum.query := Axum.query p;
                 Axum.headers := hs; Axum.peer := Axum.peer p;
                 Axum.mode_override := Axum.mode_override p |};
     payload := payload r |}.
(** axum's extractors: a path parameter decoded, and the query or body of each
    request type or a rejection. *)
Class AxumExtract (OrgConfig : Type) := {
  percent_decode : string → option string;
  create_org_body : HttpRequest → result Response (OrgHandlers.CreateOrgRequest OrgConfig);
  list_params : HttpRequest → result Response OrgHandlers.ListParams;
  update_org_body : HttpRequest → result Response (OrgHandlers.UpdateOrgRequest OrgConfig);
  create_group_body : HttpRequest → result Response GroupHandlers.CreateGroupRequest;
  update_group_body : HttpRequest → result Response GroupHandlers.UpdateGroupRequest;
  principal_body : HttpRequest → result Response Json.t;
  promotions_query : HttpRequest → result Response PromotionHandlers.PromotionsQuery;
  events_query : HttpRequest → result Response EventHandlers.EventsQuery;
  metrics_response : Response;
}.

Section server.
Context `{HttpLib, CpLib OrgConfig} {S : Type}.
Context `{OrgStoreI S OrgConfig, ModelEventStoreI S OrgConfig}.
Context `{Matchit, !AxumExtract OrgConfig} {SK : Type}.
Context (b64_encode : string → string) (ed_sign : SK → string → string).
Context (to_str header_name_ok header_value_ok : string → bool).
Context (xxh64 : string → N) (json_to_string : Json.t → string).
Context (detailed_to_string : gmap string Features.ResolvedFlag → option string).
Context (form_urlencoded : string → list (string * string)).
Implicit Types (req : HttpRequest) (ticks : list (EventHandlers.Tick S)).

(** The decoded path parameters, in order. *)
Definition path_args (params : list (string * string)) : result Response (list string) :=
  mapM (λ kv, ok_or (percent_decode kv.2) (status_only 400)) params.
(** The handler's arguments; a wrong number of path parameters is a 500. *)
Definition request_of ticks req (e : Router.Endpoint) (args : list string)
    : result Response (Api.ApiRequest S OrgConfig) :=
  match e, args with
  | Router.CreateOrg, _ => Api.CreateOrg <$> create_org_body req
  | Router.ListOrgs, _ => Api.ListOrgs <$> list_params req
  | Router.GetOrg, [o] => Ok (Api.GetOrg o)
  | Router.UpdateOrg, [o] => Api.UpdateOrg o <$> update_org_body req
  | Router.ProxyConfig, [o] => Ok (Api.ProxyConfig o)
  | Router.GenerateKey, [o] => Ok (Api.GenerateKey o)
  | Router.ListKeys, [o] => Ok (Api.ListKeys o)
  | Router.RevokeKey, [o; k] => Ok (Api.RevokeKey o k)
  | Router.RotateKey, [o; k] => Ok (Api.RotateKey o k)
  | Router.CreateGroup, [o] => Api.CreateGroup o <$> create_group_body req
  | Router.ListGroups, [o] => Ok (Api.ListGroups o)
  | Router.GetGroup, [o; n] => Ok (Api.GetGroup o n)
  | Router.UpdateGroup, [o; n] => Api.UpdateGroup o n <$> update_group_body req
  | Router.DeleteGroup, [o; n] => Ok (Api.DeleteGroup o n)
  | Router.UpsertPrincipal, [o; n] => Api.UpsertPrincipal o n <$> principal_body req
  | Router.ListEvents, [o] => Api.ListEvents ticks o <$> events_query req
  | Router.TombstonePromotion, [o; t; n] => Ok (Api.TombstonePromotion o t n)
  | Router.ListPromotions, [o] => Api.ListPromotions o <$> promotions_query req
  | Router.ListSigningKeys, [o] => Ok (Api.ListSigningKeys o)
  | Router.Activate, [o] => Ok (Api.Transition LifecycleVerb.Activate o)
  | Router.Suspend, [o] => Ok (Api.Transition LifecycleVerb.Suspend o)
  | Router.Restore, [o] => Ok (Api.Transition LifecycleVerb.Restore o)
  | _, _ => Err (status_only 500)
  end.

(** [Blocked]: by the middleware; [Unrouted]: by the router; [Rejected]: by an
    extractor. *)
Inductive Answer :=
| Blocked (code : N) (text : string)
| Unrouted (code : N)
| Probe (resp : Response)
| Rejected (resp : Response)
| Served (i : option Identity.t) (e : Router.Endpoint) (q : Api.ApiRequest S OrgConfig) (resp : Response).

Definition run_endpoint (sh : Shell) ticks req (e : Router.Endpoint) (params : list (string * string))
    : M S Empty_set Answer :=
  match e with
  | Router.Health => mret (Probe (OrgHandlers.health_handler))
  | Router.Metrics => mret (Probe metrics_response)
  | _ =>
      match (args ← path_args params; request_of ticks req e args) with
      | Ok q => resp ← Api.handle sh (Axum.headers (parts req)) q;
                mret (Served (identity sh) e q resp)
      | Err resp => mret (Rejected resp)
      | Stuck w => lift (Stuck w)
      end
  end.
Definition with_identity (i : option Identity.t) (sh : Shell) : Shell :=
  {| now := now sh; stamp := stamp sh; material := material sh; identity := i |}.

(** The middleware around the router.  The shell's own identity is replaced. *)
Definition serve_http (fg : Axum.ForgeGuard (SK:=SK)) (r : router Router.Methods) (sh : Shell) ticks
    (trace_id : string) (unix_now : N) req : M S Empty_set Answer :=
  handled ← lift (Axum.forgeguard_layer b64_encode ed_sign to_str header_name_ok header_value_ok
                    xxh64 json_to_string detailed_to_string form_urlencoded fg (parts req)
                    trace_id unix_now);
  match Axum.response handled with
  | Axum.Respond code text => mret (Blocked code text)
  | Axum.Next hs i _ _ =>
      let req := with_headers hs req in
      match Router.dispatch r (Axum.method (parts req)) (Axum.path (parts req)) with
      | Router.NotFound => mret (Unrouted 404)
      | Router.MethodNotAllowed => mret (Unrouted 405)
      | Router.Routed e params => run_endpoint (with_identity i sh) ticks req e params
      end
  end.
End server.

(** * Patterns *)
Module Patterns.
Import ListRouter.
(** Static segments and whole-segment parameters. *)
Definition plain_byte (a : ascii) : bool :=
  negb (Ascii.eqb a "{" || Ascii.eqb a "}" || Ascii.eqb a "*").
Definition simple_segment (seg : string) : bool :=
  match param_name seg with
  | Some n => negb (is_empty n) && str_all plain_byte n
  | None => str_all plain_byte seg
  end.
Definition simple (pattern : string) : bool := forallb simple_segment (split "/" pattern).
(** The patterns may match the same path. *)
Fixpoint compatible (ps qs : list string) : bool :=
  match ps, qs with
  | [], [] => true
  | p :: ps, q :: qs =>
      (bool_decide (is_Some (param_name p)) || bool_decide (is_Some (param_name q)) ||
       bool_decide (p = q)) && compatible ps qs
  | _, _ => false
  end.

Lemma match_cons p ps x path a : match_segments (p :: ps) (x :: path) = Some a →
  (is_Some (param_name p) ∧ x ≠ "" ∨ param_name p = None ∧ p = x) ∧
  ∃ a', match_segments ps path = Some a' ∧ a.*1 = option_list (param_name p) ++ a'.*1.
Proof.
  simpl. destruct (param_name p) as [n|].
  - destruct x; [done|]. intros (a' & Ha & ->)%fmap_Some. eauto 6.
  - case_bool_decide; [|done]. eauto 6.
Qed.
Lemma match_compatible path : ∀ ps qs a b,
  match_segments ps path = Some a → match_segments qs path = Some b → compatible ps qs = true.
Proof.
  induction path as [|x path IH]; intros [|p ps] [|q qs] a b; [done..|].
  intros (Hp & a' & Ha & _)%match_cons (Hq & b' & Hb & _)%match_cons. cbn [compatible].
  rewrite (IH ps qs a' b' Ha Hb), andb_true_r.
  destruct Hp as [[Hp _]|[Hp ->]]; [by rewrite (bool_decide_eq_true_2 _ Hp)|].
  destruct Hq as [[Hq _]|[Hq ->]]; [by rewrite (bool_decide_eq_true_2 _ Hq), orb_true_r|].
  by rewrite (bool_decide_eq_true_2 (x = x)), orb_true_r.
Qed.
Lemma match_names path : ∀ ps a, match_segments ps path = Some a → a.*1 = omap param_name ps.
Proof.
  induction path as [|x path IH]; intros [|p ps] a; [by intros [= <-]|done..|].
  intros (_ & a' & Ha & ->)%match_cons. simpl. rewrite (IH ps a' Ha). by destruct (param_name p).
Qed.
Lemma match_last path : ∀ ps a x, match_segments ps path = Some a → last ps = Some x → x ≠ "" →
  ∃ y, last path = Some y ∧ y ≠ "".
Proof.
  induction path as [|y path IH]; intros [|p ps] a x; [done..|].
  intros (Hp & a' & Ha & _)%match_cons Hl Hx.
  destruct ps as [|p' ps], path as [|y' path]; [|done..|by apply (IH (p' :: ps) a' x)].
  injection Hl as ->. exists y. split; [done|]. by destruct Hp as [[_ ?]|[_ <-]].
Qed.
Lemma split_last c s : ends_with_char c s = true → last (split c s) = Some "".
Proof.
  induction s as [|a s IH]; [done|]. destruct s as [|b s].
  - simpl. by intros ->.
  - intros Hs. specialize (IH Hs). pose proof (split_nonempty c (String b s)) as Hne.
    pose proof (join_split c (String b s)) as Hj.
    change (split c (String a (String b s))) with
      (if Ascii.eqb a c then "" :: split c (String b s)
       else match split c (String b s) with x :: l => String a x :: l | [] => [String a ""] end).
    destruct (split c (String b s)) as [|x [|y l]]; [done| |by destruct (Ascii.eqb a c)].
    injection IH as ->. done.
Qed.
Lemma matched_normal p path a : pattern_match p path = Some a → last (split "/" p) ≠ Some "" →
  Path.normalize_path path = path.
Proof.
  intros Hm Hx. unfold Path.normalize_path. case_bool_decide; [|done]. simpl.
  destruct (ends_with_char "/" path) eqn:He; [|done]. apply split_last in He.
  destruct (last (split "/" p)) as [x|] eqn:Hl.
  - destruct (match_last _ _ _ _ Hm Hl) as (y & Hy & Hne); congruence.
  - apply last_None in Hl. by destruct (split_nonempty "/" p).
Qed.
End Patterns.

(** Documented behaviour: such a pattern matches segment by segment. *)
Class MatchitPatterns `{MatchitLaws} : Prop := {
  simple_matches p path params : Patterns.simple p = true →
    pattern_matches p path params ↔ ListRouter.pattern_match p path = Some params;
}.

(** * What each handler requires *)
Module AppSpec.
Import Router.
(** The id of the Cedar action a handler is guarded by. *)
Definition required_action (e : Endpoint) : option string :=
  match e with
  | Health | Metrics => None
  | CreateOrg => Some "cp-organization-create"
  | ListOrgs | GetOrg => Some "cp-organization-read"
  | UpdateOrg => Some "cp-organization-update"
  | ProxyConfig => Some "cp-proxy-config-read"
  | GenerateKey => Some "cp-key-generate"
  | ListKeys => Some "cp-key-read"
  | RevokeKey => Some "cp-key-revoke"
  | RotateKey => Some "cp-key-rotate"
  | CreateGroup => Some "cp-group-create"
  | ListGroups | GetGroup => Some "cp-group-read"
  | UpdateGroup => Some "cp-group-update"
  | DeleteGroup => Some "cp-group-delete"
  | UpsertPrincipal => Some "cp-principal-upsert"
  | ListEvents => Some "cp-events-read"
  | TombstonePromotion => Some "cp-resource-tombstone"
  | ListPromotions => Some "cp-promotion-list"
  | ListSigningKeys => Some "cp-signing-key-read"
  | Activate => Some "cp-organization-activate"
  | Suspend => Some "cp-organization-suspend"
  | Restore => Some "cp-organization-restore"
  end.
(** The organization in the URL. *)
Definition addressed {S OrgConfig} (q : Api.ApiRequest S OrgConfig) : option string :=
  match q with
  | Api.CreateOrg _ | Api.ListOrgs _ => None
  | Api.GetOrg o | Api.UpdateOrg o _ | Api.ProxyConfig o | Api.Transition _ o
  | Api.GenerateKey o | Api.ListKeys o | Api.RevokeKey o _ | Api.RotateKey o _
  | Api.CreateGroup o _ | Api.ListGroups o | Api.GetGroup o _ | Api.UpdateGroup o _ _
  | Api.DeleteGroup o _ | Api.UpsertPrincipal o _ _ | Api.TombstonePromotion o _ _
  | Api.ListPromotions o _ | Api.ListEvents _ o _ | Api.ListSigningKeys o => Some o
  end.
Definition collection (e : Endpoint) : bool :=
  bool_decide (e = CreateOrg) || bool_decide (e = ListOrgs).

Definition project : ProjectId := Id.mk (Segment.mk "forgeguard").
Definition probe (path : string) : Route.PublicRoute :=
  {| Route.p_method := HttpMethod.Get; Route.p_path_pattern := path;
     Route.auth_mode := Route.AnonymousMode |}.
Definition probes : list Route.PublicRoute := [probe "/health"; probe "/metrics"].
Definition returns_ok {E A} (r : result E A) : bool := match r with Ok _ => true | _ => false end.
Definition cp_mappings : list Route.RouteMapping :=
  match cp_route_actions with Ok l => l | _ => [] end.
(** (pattern, method, handler) *)
Definition rows : list (string * string * Endpoint) :=
  '(p, ms) ← table; (λ m, (p, m.1, m.2)) <$> ms.
(** A mapping and a handler that can serve the same request belong together. *)
Definition fits (r : Route.RouteMapping) (p : string) (e : Endpoint) : Prop :=
  Route.path_pattern r = p ∧
  required_action e = Some (QualifiedAction.vp_action_id (Route.action r)) ∧
  Route.resource_entity_type r = Some "Organization" ∧ Route.feature_gate r = None ∧
  (collection e = false →
    Route.resource_param r = Some "org_id" ∧ Route.default_resource_id r = None ∧
    Route.resource_org_source r = ResourceRef.OwnId ∧
    head (omap ListRouter.param_name (split "/" p)) = Some "org_id").
Definition meets (r : Route.RouteMapping) (p m : string) : bool :=
  match HttpMethod.from_str m with
  | Ok mt => bool_decide (mt = Route.method r) || bool_decide (Route.method r = HttpMethod.Any)
  | _ => false
  end && Patterns.compatible (split "/" p) (split "/" (Route.path_pattern r)).
End AppSpec.

(** ** The tables agree *)
Module TableFacts.
Import Router AppSpec.
Lemma mappings_eq : cp_route_actions = Ok cp_mappings.
Proof. vm_compute. reflexivity. Qed.
(** Every request one mapping and one handler can serve, they serve together. *)
Lemma meets_fits : Forall (λ r, Forall (λ '(p, m, e), meets r p m = true → fits r p e) rows) cp_mappings.
Proof. by_eval. Qed.
(** No path of a probe is another handler's. *)
Lemma probes_apart : Forall (λ '(p, m, e), e ≠ Health → e ≠ Metrics →
  Forall (λ q, Patterns.compatible (split "/" p) (split "/" q) = false) ["/health"; "/metrics"]) rows.
Proof. by_eval. Qed.
Lemma table_simple : Forall (λ '(p, ms), Patterns.simple p = true ∧
  last (split "/" p) ≠ Some "" ∧
  NoDup (omap ListRouter.param_name (split "/" p))) table.
Proof. by_eval. Qed.
(** Every handler's request has a known method and an absolute path, outside
    the pipeline's own health endpoint, and is in the list of public routes. *)
Lemma rows_reach : Forall (λ '(p, m, e), returns_ok (HttpMethod.from_str m) = true ∧
  (2 ≤ length (split "/" p)) ∧ head (split "/" p) = Some "" ∧
  Patterns.compatible (split "/" p) (split "/" Pipeline.HEALTH_PATH) = false ∧
  (m, p) ∈ [("GET", "/health"); ("GET", "/metrics")] ++ API_ROUTES) rows.
Proof. by_eval. Qed.
Definition dev_api : list Route.PublicRoute :=
  match mapM (λ '(method, path), anon_route method path) API_ROUTES with Ok l => l | _ => [] end.
Definition dev_routes : list Route.PublicRoute := probe "/health" :: probe "/metrics" :: dev_api.
Lemma dev_api_eq : mapM (λ '(method, path), anon_route method path) API_ROUTES = Ok dev_api.
Proof. vm_compute. reflexivity. Qed.
Lemma dev_routes_eq : mapM (λ '(method, path), anon_route method path)
  ([("GET", "/health"); ("GET", "/metrics")] ++ API_ROUTES) = Ok dev_routes.
Proof. vm_compute. reflexivity. Qed.
End TableFacts.

(** * Requests through the application *)
Module AppFacts.
Import Router AppSpec TableFacts.
Section routing.
Context `{MatchitPatterns} (wide : string → bool).

Lemma add_routes_contents rows' : ∀ r r' : router Methods,
  add_routes r rows' = Ok r' → contents r' = contents r ++ rows'.
Proof.
  induction rows' as [|[p ms] rows' IH]; intros r r'; simpl; [intros [= <-]; by rewrite app_nil_r|].
  intros (r1 & Hr1%contents_insert & Hr'%IH)%bind_Ok. by rewrite Hr', Hr1, <-app_assoc.
Qed.
Lemma elem_of_rows p m e ms : (p, ms) ∈ table → (m, e) ∈ ms → (p, m, e) ∈ rows.
Proof.
  intros Hp Hm. unfold rows. apply list_elem_of_bind. exists (p, ms). split; [|done].
  apply list_elem_of_fmap. by exists (m, e).
Qed.
Lemma dispatch_Routed (r : router Methods) method path e params :
  build_router = Ok r → dispatch r method path = Routed e params →
  ∃ p, (p, method, e) ∈ rows ∧ ListRouter.pattern_match p path = Some params ∧
    Path.normalize_path path = path ∧ NoDup (params.*1).
Proof.
  intros Hr%add_routes_contents Hd. rewrite contents_new in Hr. simpl in Hr. unfold dispatch in Hd.
  destruct (router_at r path) as [[ms params']|] eqn:Hat; [|done].
  destruct (list_find _ ms) as [[i [m e']]|] eqn:Hf; [|done]. injection Hd as -> ->.
  apply list_find_Some in Hf as (Hi & Hm & _). simpl in Hm. subst m.
  apply at_Some in Hat as (p & Hp & Hm). rewrite Hr in Hp.
  pose proof (proj1 (Forall_forall _ _) table_simple _ Hp) as (Hs & Hl & Hn).
  apply simple_matches in Hm; [|done]. exists p. split; [|split; [done|split]].
  - eapply elem_of_rows; [done|]. by eapply list_elem_of_lookup_2.
  - by eapply Patterns.matched_normal.
  - unfold ListRouter.pattern_match in Hm. by rewrite (Patterns.match_names _ _ _ Hm).
Qed.

(** What a matcher of simple patterns finds. *)
Definition plain (p : string) : Prop := Route.pattern_of wide p = p ∧ Patterns.simple p = true.
Lemma lookup_plain {V} what (routes : list (HttpMethod.t * string * V)) (m : Route.Matcher V) mt path v params :
  Route.insert_routes wide what Route.empty_matcher routes = Ok m →
  Forall (λ '(_, p, _), plain p) routes → Route.lookup_route m mt path = Some (v, params) →
  ∃ mt' p, (mt', p, v) ∈ routes ∧ (mt' = mt ∨ mt' = HttpMethod.Any) ∧
    ListRouter.pattern_match p (Path.normalize_path path) = Some params.
Proof.
  intros Hm Hp Hl. pose proof (lookup_route_spec wide _ _ _ mt path Hm) as Hs. rewrite Hl in Hs.
  assert (∀ mt', applies wide routes mt' path v params → mt' = mt ∨ mt' = HttpMethod.Any →
    ∃ mt' p, (mt', p, v) ∈ routes ∧ (mt' = mt ∨ mt' = HttpMethod.Any) ∧
      ListRouter.pattern_match p (Path.normalize_path path) = Some params) as Hgo.
  { intros mt' (p & Hin & Hmatch) Hmt. exists mt', p. split_and!; [done..|].
    pose proof (proj1 (Forall_forall _ _) Hp _ Hin) as [Heq Hsm]. rewrite Heq in Hmatch.
    by apply simple_matches in Hmatch. }
  destruct Hs as [Ha|[Ha _]]; eauto.
Qed.
Lemma method_roundtrip mt : HttpMethod.from_str (HttpMethod.to_string mt) = Ok mt.
Proof. by destruct mt. Qed.

Lemma rows_plain : Forall (λ '(p, _, _), plain p) rows.
Proof. repeat (constructor; [split; vm_compute; reflexivity|]). constructor. Qed.
Lemma mappings_plain : Forall (λ r, plain (Route.path_pattern r)) cp_mappings.
Proof. repeat (constructor; [split; vm_compute; reflexivity|]). constructor. Qed.
Lemma mapping_found mm mt path mr :
  Route.matcher_new wide cp_mappings = Ok mm →
  Route.match_request mm (HttpMethod.to_string mt) path = Some mr →
  ∃ r params, r ∈ cp_mappings ∧ mr = Route.build_matched_route (Route.value_of r) params ∧
    (Route.method r = mt ∨ Route.method r = HttpMethod.Any) ∧
    ListRouter.pattern_match (Route.path_pattern r) (Path.normalize_path path) = Some params.
Proof.
  unfold Route.match_request. rewrite method_roundtrip. intros Hm ([v params] & Hl & ->)%fmap_Some.
  assert (Forall (λ '(_, p, _), plain p) ((λ r, (Route.method r, Route.path_pattern r,
    Route.value_of r)) <$> cp_mappings)) as Hp.
  { apply Forall_fmap. eapply Forall_impl; [apply mappings_plain|done]. }
  destruct (lookup_plain _ _ _ _ _ _ _ Hm Hp Hl) as (mt' & p & Hin & Hmt & Hmatch).
  apply list_elem_of_fmap in Hin as (r & [= -> -> ->] & Hr). by exists r, params.
Qed.
Lemma public_found pm routes mt path :
  Route.public_new wide routes = Ok pm → Forall (λ r, plain (Route.p_path_pattern r)) routes →
  Route.check pm (HttpMethod.to_string mt) path ≠ Route.NotPublic →
  ∃ r params, r ∈ routes ∧ ListRouter.pattern_match (Route.p_path_pattern r) (Path.normalize_path path) = Some params.
Proof.
  unfold Route.check. rewrite method_roundtrip. intros Hm Hp Hne.
  destruct (Route.lookup_route pm mt path) as [[v params]|] eqn:Hl; [|done].
  assert (Forall (λ '(_, p, _), plain p) ((λ r, (Route.p_method r, Route.p_path_pattern r,
    Route.auth_mode r)) <$> routes)) as Hp'.
  { apply Forall_fmap. eapply Forall_impl; [apply Hp|done]. }
  destruct (lookup_plain _ _ _ _ _ _ _ Hm Hp' Hl) as (mt' & p & Hin & _ & Hmatch).
  apply list_elem_of_fmap in Hin as (r & [= -> -> ->] & Hr). by exists r, params.
Qed.

(** A handler's request matches its own mapping only. *)
Lemma found_fits r p m mt e path params params' :
  (p, m, e) ∈ rows → HttpMethod.from_str m = Ok mt → r ∈ cp_mappings →
  Route.method r = mt ∨ Route.method r = HttpMethod.Any →
  ListRouter.pattern_match p path = Some params →
  ListRouter.pattern_match (Route.path_pattern r) path = Some params' →
  fits r p e ∧ params' = params.
Proof.
  intros Hrow Hmt Hr Hmr Hp Hp'.
  pose proof (proj1 (Forall_forall _ _) meets_fits _ Hr) as Hf.
  pose proof (proj1 (Forall_forall _ _) Hf _ Hrow) as Hfits. cbv beta iota in Hfits.
  assert (fits r p e) as Hfit.
  { apply Hfits. unfold meets. rewrite Hmt. unfold ListRouter.pattern_match in *.
    rewrite (Patterns.match_compatible _ _ _ _ _ Hp Hp'), andb_true_r.
    destruct Hmr as [->|Hany]; [by rewrite bool_decide_eq_true_2|].
    by rewrite (bool_decide_eq_true_2 _ Hany), orb_true_r. }
  split; [done|]. destruct Hfit as [Heq _]. rewrite Heq in Hp'. congruence.
Qed.
(** The resource of an organization's route is the organization in the URL. *)
Lemma scoped_resource r p e path params :
  fits r p e → collection e = false → ListRouter.pattern_match p path = Some params → NoDup params.*1 →
  ∃ v rest, params = ("org_id", v) :: rest ∧
    ∀ res, Route.m_resource (Route.build_matched_route (Route.value_of r) params) = Some res →
      ResourceRef.org_source res = ResourceRef.OwnId ∧ ResourceId.as_str (ResourceRef.id res) = v ∧
      Segment.wf (ResourceId.as_segment (ResourceRef.id res)).
Proof.
  intros (_ & _ & Hty & _ & Hs) Hc Hm Hn. destruct (Hs Hc) as (Hparam & Hdef & Hown & Hhead).
  unfold ListRouter.pattern_match in Hm. rewrite <-(Patterns.match_names _ _ _ Hm) in Hhead.
  destruct params as [|[k v] rest]; [done|]. injection Hhead as ->.
  exists v, rest. split; [done|]. intros res.
  unfold Route.build_matched_route, Route.value_of. cbn [Route.m_resource Route.v_resource_param
    Route.v_default_resource_id Route.v_resource_entity_type Route.v_resource_org_source].
  rewrite Hparam, Hdef, Hown, Hty. cbn [mbind option_bind].
  assert (Route.params_map (("org_id", v) :: rest) !! "org_id" = Some v) as ->.
  { unfold Route.params_map. cbn [foldl fst snd].
    assert (∀ m : gmap string string, m !! "org_id" = Some v →
      foldl (λ m kv, <[kv.1 := kv.2]> m) m rest !! "org_id" = Some v) as Hgo;
      [|by apply Hgo, lookup_insert_eq].
    apply NoDup_cons in Hn as [Hnot _]. clear Hm. induction rest as [|[k' v'] rest IH]; [done|].
    intros m0 Hm0. simpl. simpl in Hnot. apply IH; [set_solver|].
    rewrite lookup_insert_ne by set_solver. done. }
  change (Some v ≫= ?f) with (f v). cbv beta.
  destruct (ResourceId.parse v) as [rid| |] eqn:Hrid; [|done..]. intros [= <-].
  apply fmap_Ok in Hrid as (sg & Hsg & ->).
  split_and!; [done|by apply SegmentFacts.segment_try_new_as_str in Hsg|
    by eapply SegmentFacts.segment_try_new_wf].
Qed.
End routing.

(** ** The guard with authentication *)
Section guarded.
Context `{CedarMeaning} `{MatchitPatterns} (wide : string → bool) {SK : Type}.

Record auth_guard (text : string) (fg : Axum.ForgeGuard (SK:=SK)) : Prop := {
  ag_routes : Route.matcher_new wide cp_mappings = Ok (Pipeline.route_matcher (Axum.config fg));
  ag_public : Route.public_new wide probes = Ok (Pipeline.public_route_matcher (Axum.config fg));
  ag_default : Pipeline.default_policy (Axum.config fg) = Pipeline.DenyByDefault;
  ag_mode : Axum.default_mode fg = Pipeline.Enforce;
  ag_engine : ∃ snap, from_policy_text text = Ok snap ∧
    Axum.policy_engine fg = CpCedarEngine.engine (CpCedarEngine.new snap project);
}.
Lemma build_auth_guard text jwt ed mem fg :
  build_forgeguard wide text (Some jwt) ed mem = Ok fg → auth_guard text fg.
Proof.
  unfold build_forgeguard. change (anon_route "GET" "/health") with (Ok (E:=HttpError.t) (probe "/health")).
  change (anon_route "GET" "/metrics") with (Ok (E:=HttpError.t) (probe "/metrics")).
  change (Id.new "forgeguard") with (Ok (E:=Error.t) project).
  rewrite mappings_eq. cbn [map_err mbind result_bind].
  intros (((((( mm & ps) & c) & prov) & dp) & eng) & Hb & Hrest)%bind_Ok.
  apply bind_Ok in Hb as (mm' & Hmm%map_err_Ok & (snap & Hsnap%map_err_Ok & [= <- <- <- <- <- <-])%bind_Ok).
  apply bind_Ok in Hrest as (pm & Hpm%map_err_Ok & [= <-]). split; simpl; [done..|]. by exists snap.
Qed.

Lemma probes_plain : Forall (λ r, plain wide (Route.p_path_pattern r)) probes.
Proof. repeat (constructor; [split; vm_compute; reflexivity|]). constructor. Qed.
Lemma handler_not_public text fg p m e mt path params : auth_guard text fg →
  (p, m, e) ∈ rows → e ≠ Health → e ≠ Metrics → ListRouter.pattern_match p path = Some params →
  Path.normalize_path path = path →
  Route.check (Pipeline.public_route_matcher (Axum.config fg)) (HttpMethod.to_string mt) path = Route.NotPublic.
Proof.
  intros Hg Hrow Hh Hm Hp Hnorm.
  assert (∀ c : Route.PublicMatch, c ≠ Route.NotPublic ∨ c = Route.NotPublic) as Hdec by (intros []; auto).
  destruct (Hdec (Route.check (Pipeline.public_route_matcher (Axum.config fg)) (HttpMethod.to_string mt) path))
    as [Hc|?]; [|done]. exfalso.
  apply (public_found wide _ _ _ _ (ag_public _ _ Hg) probes_plain) in Hc as (r & params' & Hr & Hm').
  rewrite Hnorm in Hm'. unfold ListRouter.pattern_match in *.
  pose proof (Patterns.match_compatible _ _ _ _ _ Hp Hm') as Hcomp.
  pose proof (proj1 (Forall_forall _ _) probes_apart _ Hrow) as Hap. cbv beta iota in Hap.
  specialize (Hap Hh Hm). apply list_elem_of_In in Hr. destruct Hr as [<-|[<-|[]]];
    cbn [Route.p_path_pattern probe] in Hcomp.
  - apply Forall_cons in Hap as [Hap _]. congruence.
  - apply Forall_cons in Hap as [_ [Hap _]%Forall_cons]. congruence.
Qed.
End guarded.

(** ** A served request *)
Section served.
Context {S OrgConfig : Type} `{HttpLib, CpLib OrgConfig}.
Context `{OrgStoreI S OrgConfig, ModelEventStoreI S OrgConfig}.
Context `{CedarMeaning} `{MatchitPatterns} `{!AxumExtract OrgConfig} (wide : string → bool) {SK : Type}.
Context (b64_encode : string → string) (ed_sign : SK → string → string).
Context (to_str header_name_ok header_value_ok : string → bool).
Context (xxh64 : string → N) (json_to_string : Json.t → string).
Context (detailed_to_string : gmap string Features.ResolvedFlag → option string).
Context (form_urlencoded : string → list (string * string)).
Abbreviation layer := (Axum.forgeguard_layer b64_encode ed_sign to_str header_name_ok header_value_ok
  xxh64 json_to_string detailed_to_string form_urlencoded).
Abbreviation serve := (serve_http b64_encode ed_sign to_str header_name_ok header_value_ok
  xxh64 json_to_string detailed_to_string form_urlencoded).
Abbreviation run := (Pipeline.evaluate_pipeline xxh64 json_to_string detailed_to_string form_urlencoded).

Lemma layer_Next (fg : Axum.ForgeGuard (SK:=SK)) request tr t handled hs i f rec :
  layer fg request tr t = Ok handled → Axum.response handled = Axum.Next hs i f rec →
  ∃ input omr eff, HttpMethod.from_str (Axum.method request) = Ok (RequestInput.method input) ∧
    RequestInput.path input = Axum.path request ∧
    run (Axum.config fg) input (Axum.identity_chain fg) (Axum.policy_engine fg)
      (default (Axum.default_mode fg) (Axum.mode_override request)) =
      Ok (Pipeline.Forward i f omr rec eff).
Proof.
  unfold Axum.forgeguard_layer. destruct (Axum.request_input _ _) as [input|e|w] eqn:Hin; [|by intros [= <-]|done].
  intros (o & Hrun & [= <-])%bind_Ok Hresp. exists input.
  apply bind_Ok in Hin as (input0 & Hin & [= <-]). unfold RequestInput.new in Hin.
  apply bind_Ok in Hin as (mt & Hmt%map_err_Ok & Hin).
  destruct (is_empty _); [done|]. destruct (negb _); [done|]. injection Hin as <-.
  destruct o as [| | |i' f' omr rec' eff]; try done. injection Hresp as <- <- <- <-.
  exists omr, eff. by destruct (Axum.query request).
Qed.

(** *** Without authentication *)
Lemma absolute_path p path params : ListRouter.pattern_match p path = Some params →
  2 ≤ length (split "/" p) → head (split "/" p) = Some "" →
  is_empty path = false ∧ starts_with_str "/" path = true.
Proof.
  unfold ListRouter.pattern_match. pose proof (join_split "/" path) as Hj.
  destruct (split "/" p) as [|x [|y l]]; simpl; [lia..|]. intros Hm _ [= ->]. simpl in Hm.
  destruct (split "/" path) as [|z [|w l']]; [done| |].
  - by case_bool_decide.
  - case_bool_decide as Hz; [|done]. subst z. rewrite join_cons in Hj by done. rewrite <-Hj.
    by destruct (join "/" (w :: l')).
Qed.
Lemma dev_public pm method mt p path params : Route.public_new wide dev_routes = Ok pm →
  HttpMethod.from_str method = Ok mt →
  (method, p) ∈ [("GET", "/health"); ("GET", "/metrics")] ++ API_ROUTES → Patterns.simple p = true →
  Route.pattern_of wide p = p → ListRouter.pattern_match p path = Some params →
  Path.normalize_path path = path → Route.check pm (HttpMethod.to_string mt) path = Route.Anonymous.
Proof.
  intros Hpm Hmt Hin Hs Hw Hp Hn. unfold Route.check. rewrite method_roundtrip.
  pose proof (lookup_route_spec wide _ _ _ mt path Hpm) as Hl.
  pose proof (proj1 (mapM_Ok _ _ _) dev_routes_eq) as Hall.
  destruct (Route.lookup_route pm mt path) as [[v params']|].
  - assert (v = Route.AnonymousMode) as ->; [|done].
    assert (∀ mt', applies wide ((λ r, (Route.p_method r, Route.p_path_pattern r, Route.auth_mode r)) <$> dev_routes)
      mt' path v params' → v = Route.AnonymousMode) as Hgo; [|by destruct Hl as [Ha|[Ha _]]; eapply Hgo].
    intros mt' (q & (r & [= _ _ ->] & Hr)%list_elem_of_fmap & _).
    apply list_elem_of_lookup in Hr as [i Hi].
    destruct (Forall2_lookup_r _ _ _ _ _ Hall Hi) as ([m' p'] & _ & Ha).
    unfold anon_route in Ha. by apply bind_Ok in Ha as (? & _ & [= <-]).
  - exfalso. apply list_elem_of_lookup in Hin as [i Hi].
    destruct (Forall2_lookup_l _ _ _ _ _ Hall Hi) as (r & Hr & Ha).
    unfold anon_route in Ha. rewrite Hmt in Ha. injection Ha as <-.
    destruct (Hl Route.AnonymousMode params) as [Hno _]. apply Hno. exists p. split.
    + apply list_elem_of_fmap. eexists. split; [|by eapply list_elem_of_lookup_2]. done.
    + rewrite Hn, Hw. by apply simple_matches.
Qed.

(** *** With authentication *)
(** The engine allowed the handler's action to the caller. *)
Lemma admitted text (fg : Axum.ForgeGuard (SK:=SK)) input p m e params i f omr rec eff : auth_guard wide text fg →
  run (Axum.config fg) input (Axum.identity_chain fg) (Axum.policy_engine fg) Pipeline.Enforce =
    Ok (Pipeline.Forward i f omr rec eff) →
  HttpMethod.from_str m = Ok (RequestInput.method input) → (p, m, e) ∈ rows → e ≠ Health → e ≠ Metrics →
  ListRouter.pattern_match p (RequestInput.path input) = Some params →
  Path.normalize_path (RequestInput.path input) = RequestInput.path input →
  ∃ caller r snap, i = Some caller ∧ fits r p e ∧ from_policy_text text = Ok snap ∧
    CpCedarEngine.decide (CpCedarEngine.new snap project)
      (build_query caller (Route.build_matched_route (Route.value_of r) params)
         (Pipeline.project_id (Axum.config fg)) (RequestInput.client_ip input)) = Ok Decision.Allow.
Proof.
  intros Hg Hrun Hm Hrow Hh Hme Hp Hnorm.
  apply enforced_forward_spec in Hrun as (_ & Hid & _ & Homr & Hrest).
  assert (public_match (Axum.config fg) input = Route.NotPublic) as Hnp by by eapply handler_not_public.
  destruct omr as [mr|].
  2: { rewrite Hnp, (ag_default _ _ _ Hg) in Hrest. by destruct Hrest as [[|] _]. }
  symmetry in Homr. apply (mapping_found wide _ _ _ _ (ag_routes _ _ _ Hg)) in Homr
    as (r & params' & Hr & -> & Hmr & Hp').
  rewrite Hnorm in Hp'.
  destruct (found_fits r p m _ e _ _ _ Hrow Hm Hr Hmr Hp Hp') as [Hfit ->].
  destruct i as [caller|].
  2: { exfalso. inversion Hid; congruence. }
  destruct Hrest as (_ & ev & Hev & Hallow & _ & _).
  destruct (ag_engine _ _ _ Hg) as (snap & Hsnap & Heng). rewrite Heng in Hev.
  exists caller, r, snap. split_and!; [done..|]. simpl in Hev.
  destruct (CpCedarEngine.decide _ _) as [d|[]|w]; [|done]. injection Hev as <-. by simpl in Hallow; subst d.
Qed.

Lemma request_of_addressed ticks req e args (q : Api.ApiRequest S OrgConfig) :
  request_of ticks req e args = Ok q →
  e ≠ Health ∧ e ≠ Metrics ∧
  (∀ o, addressed q = Some o → collection e = false ∧ head args = Some o) ∧
  (∀ body, q = Api.CreateOrg body → collection e = true).
Proof.
  destruct e; simpl; try done; destruct args as [|o [|k [|n [|x args]]]]; try done.
  all: try (intros (a & _ & ->)%fmap_Ok).
  all: try (intros [= <-]).
  all: by (split; [|split; [|split]]); [| |intros ? [= ->]|intros].
Qed.
Lemma serve_Served (fg : Axum.ForgeGuard (SK:=SK)) (r : router Methods) sh ticks tr t req (s s' : S) i e q resp :
  serve fg r sh ticks tr t req s = (s', Ok (Served i e q resp)) →
  ∃ handled hs f rec params args, layer fg (parts req) tr t = Ok handled ∧
    Axum.response handled = Axum.Next hs i f rec ∧
    dispatch r (Axum.method (parts req)) (Axum.path (parts req)) = Routed e params ∧
    path_args params = Ok args ∧ request_of ticks (with_headers hs req) e args = Ok q ∧
    Api.handle (with_identity i sh) hs q s = (s', Ok resp).
Proof.
  unfold serve_http. intros (s1 & handled & [= -> Hl] & Hrest)%M_bind_Ok.
  destruct (Axum.response handled) as [|hs i' f rec] eqn:Hresp; [done|].
  destruct (dispatch _ _ _) as [| |e' params] eqn:Hd; [done..|].
  exists handled, hs, f, rec, params.
  assert (∀ x : result Response (Api.ApiRequest S OrgConfig),
    match x with
    | Ok q => resp ← Api.handle (with_identity i' sh) hs q;
              mret (Served (identity (with_identity i' sh)) e' q resp)
    | Err resp => mret (Rejected resp)
    | Stuck w => lift (Stuck w)
    end s1 = (s', Ok (Served i e q resp)) →
    x = Ok q ∧ i' = i ∧ e' = e ∧ Api.handle (with_identity i sh) hs q s1 = (s', Ok resp)) as Hgo.
  { intros [q'|resp'|w]; [|done..]. intros (s2 & resp2 & Hh & [= -> <- <- <- <-])%M_bind_Ok.
    by rewrite Hh. }
  destruct e'; cbn [run_endpoint] in Hrest; try done; apply Hgo in Hrest as (Hx & <- & <- & Hh);
    apply bind_Ok in Hx as (args & Hargs & Hreq); by exists args.
Qed.
End served.
End AppFacts.

(** ** Development mode *)
Section development.
Import Router AppSpec TableFacts AppFacts.
Context {S OrgConfig : Type} `{HttpLib, CpLib OrgConfig}.
Context `{OrgStoreI S OrgConfig, ModelEventStoreI S OrgConfig}.
Context `{CedarAttrs} `{MatchitPatterns} `{!AxumExtract OrgConfig} (wide : string → bool) {SK : Type}.
Context (b64_encode : string → string) (ed_sign : SK → string → string).
Context (to_str header_name_ok header_value_ok : string → bool).
Context (xxh64 : string → N) (json_to_string : Json.t → string).
Context (detailed_to_string : gmap string Features.ResolvedFlag → option string).
Context (form_urlencoded : string → list (string * string)).

(** Without authentication every route of the router is open.  Whatever the
    request carries, credentials, organization header or enforcement mode, the
    middleware hands every request that has a handler to that handler, with the
    protected headers stripped and no caller, and reports nothing to the sink;
    so the handler acts for the system. *)
Theorem dev_mode_open text ed mem (fg : Axum.ForgeGuard (SK:=SK)) r request tr t e params :
  build_forgeguard wide text None ed mem = Ok fg → build_router = Ok r →
  dispatch r (Axum.method request) (Axum.path request) = Routed e params →
  Axum.forgeguard_layer b64_encode ed_sign to_str header_name_ok header_value_ok
    xxh64 json_to_string detailed_to_string form_urlencoded fg request tr t =
  Ok {| Axum.response := Axum.Next (Axum.strip_protected (Axum.headers request)) None None None;
        Axum.sunk := [] |}.
Proof.
  intros Hb Hr Hd. apply (dispatch_Routed r _ _ _ _ Hr) in Hd as (p & Hrow & Hp & Hnorm & _).
  pose proof (proj1 (Forall_forall _ _) rows_reach _ Hrow) as (Hm & Hlen & Hhead & Hhealth & Hin).
  destruct (HttpMethod.from_str (Axum.method request)) as [mt| |] eqn:Hmt; [|done..].
  destruct (absolute_path _ _ _ Hp Hlen Hhead) as [Hne Hsl].
  unfold build_forgeguard in Hb.
  change (anon_route "GET" "/health") with (Ok (E:=HttpError.t) (probe "/health")) in Hb.
  change (anon_route "GET" "/metrics") with (Ok (E:=HttpError.t) (probe "/metrics")) in Hb.
  change (Id.new "forgeguard") with (Ok (E:=Error.t) project) in Hb. cbn [map_err mbind result_bind] in Hb.
  apply bind_Ok in Hb as ((((((mm & ps) & c) & prov) & dp) & eng) & Hb & (pm & Hpm%map_err_Ok & [= <-])%bind_Ok).
  apply bind_Ok in Hb as (api & Hapi%map_err_Ok & (mm' & Hmm%map_err_Ok & [= <- <- <- <- <- <-])%bind_Ok).
  rewrite dev_api_eq in Hapi. injection Hapi as <-. change (_ :: _) with dev_routes in Hpm.
  assert (plain wide p) as [Hwide Hsimple].
  { revert Hrow. clear -wide. intros Hrow. pose proof (rows_plain wide) as Hf.
    by pose proof (proj1 (Forall_forall _ _) Hf _ Hrow). }
  pose proof (dev_public wide pm _ mt p _ params Hpm Hmt Hin Hsimple Hwide Hp Hnorm) as Hpub.
  assert (bool_decide (Axum.path request = Pipeline.HEALTH_PATH) = false) as Hown.
  { apply bool_decide_eq_false_2. intros Heq. rewrite Heq in Hp. unfold ListRouter.pattern_match in Hp.
    rewrite (Patterns.match_compatible _ _ (split "/" Pipeline.HEALTH_PATH) _ [] Hp) in Hhealth; [done|].
    vm_compute. reflexivity. }
  assert (∀ path, Route.match_request mm' (HttpMethod.to_string mt) path = None) as Hnone.
  { intros path. unfold Route.match_request. rewrite method_roundtrip. injection Hmm as <-.
    pose proof (lookup_route_spec (V:=Route.RouteValue) wide "" [] Route.empty_matcher mt path eq_refl) as Hl.
    destruct (Route.lookup_route (V:=Route.RouteValue) Route.empty_matcher mt path) as [[v ps]|]; [|done].
    exfalso. by destruct Hl as [(? & ?%elem_of_nil & _)|[(? & ?%elem_of_nil & _) _]]. }
  unfold Axum.forgeguard_layer, Axum.request_input, RequestInput.new. rewrite Hmt. cbn [map_err mbind result_bind].
  rewrite Hne, Hsl. cbn [negb mbind result_bind].
  unfold Pipeline.evaluate_pipeline, Pipeline.phases.
  destruct (Axum.query request), mem; cbn; rewrite Hown, Hpub; cbn; rewrite Hnone; reflexivity.
Qed.
End development.

Section theorems.
Import Router AppSpec AppFacts.
Context {S OrgConfig : Type} `{HttpLibLaws, CpLibLaws OrgConfig, StoreView S OrgConfig}.
Context `{OrgStoreI S OrgConfig, ModelEventStoreI S OrgConfig}.
Context `{!OrgStoreLaws S OrgConfig, !ModelEventStoreLaws S OrgConfig}.
Context `{CedarMeaning} `{MatchitPatterns} `{!AxumExtract OrgConfig}.
Context (wide : string → bool) {SK : Type} (error_str : AuthzError.t → string).
Context (b64_encode : string → string) (ed_sign : SK → string → string).
Context (to_str header_name_ok header_value_ok : string → bool).
Context (xxh64 : string → N) (json_to_string : Json.t → string).
Context (detailed_to_string : gmap string Features.ResolvedFlag → option string).
Context (form_urlencoded : string → list (string * string)).
Abbreviation serve := (serve_http b64_encode ed_sign to_str header_name_ok header_value_ok
  xxh64 json_to_string detailed_to_string form_urlencoded).
(** Text with nothing to decode is itself. *)
Hypothesis decode_plain : ∀ v, contains_char "%" v = false → percent_decode v = Some v.
Implicit Types (s : S) (req : HttpRequest).

(** C1: The control plane keeps organizations apart, from the socket to the log.
    With authentication on, and the policies of a model that compares
    organizations everywhere, every request a handler of the API answers has an
    identified caller with a tenant.  The model grants the caller the action the
    handler requires: to a user through one of their groups, to a machine
    through a machine policy.  The organization in the URL is the caller's own
    tenant.  And no other organization's log gains an event, except the first
    event of an organization the request creates. *)
Theorem organizations_isolated m text jwt ed mem (fg : Axum.ForgeGuard (SK:=SK)) r sh ticks tr t req s s' i e q resp :
  CpFacts.scoped m project → CpModel.compile_cp_model error_str m = Ok text →
  build_forgeguard wide text (Some jwt) ed mem = Ok fg → build_router = Ok r →
  Axum.mode_override (parts req) = None →
  store_wf s → ApiSpec.keyed (live s) → EventStore.ulid (stamp sh) ≠ "" → returns (material sh) →
  ApiSpec.quiet q →
  serve fg r sh ticks tr t req s = (s', Ok (Served i e q resp)) →
  ∃ caller tenant act, i = Some caller ∧ Identity.tenant_id caller = Some tenant ∧
    required_action e = Some act ∧
    match Identity.principal_kind caller with
    | PrincipalRef.User => ∃ g, g ∈ Identity.groups caller ∧ CpFacts.role_grants m (Id.as_str g) act
    | PrincipalRef.Machine => CpFacts.machine_grants m project act
    end ∧
    (∀ o, addressed q = Some o → o = Id.as_str tenant) ∧
    ∀ o, o ≠ Id.as_str tenant → log_of s' o = log_of s o ∨
      ∃ body, q = Api.CreateOrg body ∧ o = OrgHandlers.create_org_id body ∧ (o ∉ l_logged (live s)).
Proof.
  intros Hsc Hcm Hb Hr Hmo Hs Hk Hst Hmat Hq Hserve.
  pose proof (build_auth_guard wide _ _ _ _ _ Hb) as Hg.
  apply serve_Served in Hserve as (handled & hs & f & rec & params & args & Hl & Hn & Hd & Hargs & Hreq & Hh).
  apply request_of_addressed in Hreq as (He1 & He2 & Haddr & Hcreate).
  eapply layer_Next in Hl as (input & omr & eff & Hmeth & Hpath & Hrun); [|done].
  rewrite Hmo, (ag_mode _ _ _ Hg) in Hrun.
  apply (dispatch_Routed r _ _ _ _ Hr) in Hd as (p & Hrow & Hp & Hnorm & Hnd).
  rewrite <-Hpath in Hp, Hnorm.
  destruct (admitted wide xxh64 json_to_string detailed_to_string form_urlencoded _ _ _ _ _ _ _ _ _ _ _ _
    Hg Hrun Hmeth Hrow He1 He2 Hp Hnorm) as (caller & mr & snap & -> & Hfit & Hsnap & Hdec).
  apply (engine_isolates error_str m project text snap _ Hsc Hcm Hsnap) in Hdec
    as (tenant & res & Ht & Hres & Hown & Hgrant).
  2: { intros res. pose proof Hfit as (_ & _ & Hty & _). unfold build_query. simpl.
       unfold Route.value_of. rewrite Hty. intros Hres. apply fmap_Some in Hres as (rid & _ & ->).
       simpl. by destruct (Route.resource_org_source mr). }
  assert (Identity.tenant_id caller = Some tenant) as Htenant.
  { unfold build_query in Ht. simpl in Ht. by destruct (Identity.tenant_id caller), (RequestInput.client_ip input),
      (Identity.extra caller). }
  assert (∀ o, addressed q = Some o → o = Id.as_str tenant) as Hto.
  { intros o Ho. destruct (Haddr o Ho) as [Hc Hhead].
    destruct (scoped_resource wide _ _ _ _ _ Hfit Hc Hp Hnd) as (v & rest & Hparams & Hscoped).
    destruct (Hscoped res) as (Hos & Hid & Hwf); [done|]. subst params.
    apply bind_Ok in Hargs as (a & Ha & (b & _ & [= <-])%bind_Ok). injection Hhead as <-. simpl in Ha.
    rewrite decode_plain in Ha.
    - injection Ha as <-. by rewrite <-Hid, (Hown Hos).
    - rewrite <-Hid. by apply SegmentFacts.wf_no_byte. }
  exists caller, tenant, (QualifiedAction.vp_action_id (Route.action mr)). split_and!; [done|done| | |done|].
  - by destruct Hfit as (_ & Hact & _).
  - unfold build_query in Hgrant. simpl in Hgrant.
    destruct (Identity.principal_kind caller); simpl in Hgrant; [|done].
    by destruct (Identity.tenant_id caller), (RequestInput.client_ip input), (Identity.extra caller).
  - intros o Ho.
    destruct (ApiRules.wp_finish _ _ _ (ApiFacts.handler_ok (with_identity (Some caller) sh) hs q s Hs Hk Hst Hmat Hq))
      as (s1 & resp1 & Hrun1 & Hout).
    unfold Api.handle in Hh. rewrite Hh in Hrun1. injection Hrun1 as <- <-.
    destruct Hout as [[Hu _]|(c & rv & Hall & Hw & Happ & _)]; [left; apply (u_log Hu)|].
    destruct Happ as [_ _ _ _ (ev & _ & Hlog)]. rewrite Hlog.
    case_decide as Hoc; [|by left]. right. subst o.
    destruct q; simpl in Hw; try done; try (injection Hw as Hw; destruct Ho; by rewrite <-Hw, (Hto _ eq_refl)).
    injection Hw as Hw. exists req0. split; [done|]. split; [done|]. destruct c; simpl in Hall; try done.
    destruct Hall as (_ & o & Hid%id_new_Ok & Hnot & _). rewrite <-Hw. by destruct Hid as [<- _].
Qed.
End theorems.

(** * A sample *)
Module AppSample.
Import ListRouter ApiSample CpSample.
Lemma list_patterns : MatchitPatterns (H:=list_router).
Proof. by split. Qed.
#[export] Existing Instance list_patterns.
#[export] Instance extract : AxumExtract N := {|
  percent_decode v := Some v;
  create_org_body _ := Err (status_only 422);
  list_params _ := Ok {| OrgHandlers.offset := None; OrgHandlers.limit := None |};
  update_org_body _ := Ok {| OrgHandlers.update_name := None; OrgHandlers.update_config := None |};
  create_group_body _ := Err (status_only 422);
  update_group_body _ := Err (status_only 422);
  principal_body r := Ok (Json.String (payload r));
  promotions_query _ := Err (status_only 400);
  events_query _ := Ok {| EventHandlers.q_after := None; EventHandlers.q_limit := None;
                          EventHandlers.q_wait := None |};
  metrics_response := status_only 200;
|}.
(** The bearer token ["ann"] names an administrator of [acme], any other its
    machine [m1]. *)
Definition caller (user : string) (kind : PrincipalRef.PrincipalKind) (groups : list string) : Identity.t := {|
  Identity.user_id := Id.mk (Segment.mk user); Identity.tenant_id := Some CpEngine.acme;
  Identity.groups := Id.mk ∘ Segment.mk <$> groups; Identity.expiry := None; Identity.resolver := "jwt";
  Identity.extra := None; Identity.principal_kind := kind |}.
Definition machine : Identity.t := caller "m1" PrincipalRef.Machine [].
Definition ann : Identity.t := caller "ann" PrincipalRef.User ["admin"].
Definition jwt : IdentityResolver := {|
  resolver_name := "jwt"; can_resolve _ := true;
  resolve_credential c :=
    Ok (match c with
        | Credential.Bearer t => if bool_decide (t = "ann") then ann else machine
        | _ => machine
        end) |}.
Definition no_wide : string → bool := λ _, false.
Definition yes : string → bool := λ _, true.
Definition guard : result AppError (Axum.ForgeGuard (SK:=string)) :=
  build_forgeguard no_wide cp_text (Some jwt) None None.
Definition get (path : string) (hs : HeaderMap) : HttpRequest := {|
  parts := {| Axum.method := "GET"; Axum.path := path; Axum.query := None; Axum.headers := hs;
              Axum.peer := None; Axum.mode_override := None |};
  payload := EmptyString |}.
Definition bearer (token : string) : HeaderMap := [("authorization", "Bearer " +:+ token)].
Definition calm : list (EventHandlers.Tick (Mirrored.t N)) :=
  replicate 5 {| EventHandlers.others := id; EventHandlers.elapsed := 200 |}.
Definition serve fg (r : router Router.Methods) (req : HttpRequest) :=
  serve_http id (λ _ _ : string, EmptyString) yes yes yes (λ _, 0%N) (λ _, EmptyString) (λ _, None)
    (λ _, []) fg r (shell "e2") calm "t-1" 1000000 req after_create.
Definition answer {A} (out : A * result Empty_set (Answer (S:=Mirrored.t N) (OrgConfig:=N))) : option (N * option Router.Endpoint) :=
  match out.2 with
  | Ok (Blocked code _) | Ok (Unrouted code) => Some (code, None)
  | Ok (Probe resp) | Ok (Rejected resp) => Some (status resp, None)
  | Ok (Served _ e _ resp) => Some (status resp, Some e)
  | _ => None
  end.
Definition answers (guard : result AppError (Axum.ForgeGuard (SK:=string))) (path : string)
    (hs : HeaderMap) : option (N * option Router.Endpoint) :=
  match guard, Router.build_router with
  | Ok fg, Ok r => answer (serve fg r (get path hs))
  | _, _ => None
  end.
End AppSample.

Section witnesses.
Import ApiSample CpSample AppSample ListRouter.
Abbreviation events o := ("/api/v1/organizations/" +:+ o +:+ "/events").
Lemma decode_id v : contains_char "%" v = false → percent_decode (OrgConfig:=N) v = Some v.
Proof. done. Qed.
Definition everything : EventHandlers.EventsQuery :=
  {| EventHandlers.q_after := None; EventHandlers.q_limit := None; EventHandlers.q_wait := None |}.

(** What a handler is given of a request for the events of [acme]. *)
Definition outcome (token : string) :=
  match guard, Router.build_router with
  | Ok fg, Ok r => match (serve fg r (get (events "acme") (bearer token))).2 with
                   | Ok (Served i e q _) => Some (i, e, q)
                   | _ => None
                   end
  | _, _ => None
  end.
Lemma outcome_served token i e q : outcome token = Some (i, e, q) → ∃ fg r s' resp,
  guard = Ok fg ∧ Router.build_router = Ok r ∧
  serve fg r (get (events "acme") (bearer token)) = (s', Ok (Served i e q resp)).
Proof.
  unfold outcome. destruct guard as [fg| |]; [|done..]. destruct Router.build_router as [r| |]; [|done..].
  destruct (serve fg r _) as [s' [a| |]] eqn:Hs; [|done..]. simpl. destruct a; try done.
  intros [= -> -> ->]. by eauto 10.
Qed.

(** Witness: a machine and an administrator read the events of their
    organization, of another one, and a request has no token. *)
Lemma organizations_isolated_witness :
  answers guard (events "acme") (bearer "t") = Some (200%N, Some Router.ListEvents) ∧
  answers guard (events "other") (bearer "t") = Some (403%N, None) ∧
  answers guard (events "acme") (bearer "ann") = Some (200%N, Some Router.ListEvents) ∧
  answers guard (events "other") (bearer "ann") = Some (403%N, None) ∧
  answers guard (events "acme") [] = Some (401%N, None) ∧
  CpFacts.machine_grants forgeguard_toml AppSpec.project "cp-events-read" ∧
  (∃ g, g ∈ Identity.groups ann ∧ CpFacts.role_grants forgeguard_toml (Id.as_str g) "cp-events-read").
Proof.
  do 5 (split; [vm_compute; reflexivity|]). split.
  - destruct (outcome_served "t" (Some machine) Router.ListEvents (Api.ListEvents calm "acme" everything))
      as (fg & r & s' & resp & Hfg & Hr & Hgo); [vm_compute; reflexivity|].
    eapply (organizations_isolated no_wide (λ _, EmptyString) id (λ _ _, EmptyString) yes yes yes (λ _, 0%N)
      (λ _, EmptyString) (λ _, None) (λ _, []) decode_id forgeguard_toml cp_text jwt None None fg r
      (shell "e2") calm "t-1" 1000000) in Hgo as (c & tenant & act & [= <-] & [= <-] & [= <-] & Hgr & _);
      [exact Hgr|apply forgeguard_toml_scoped|apply cp_text_compiled|exact Hfg|exact Hr|reflexivity|
       apply after_create_ok|apply after_create_ok|discriminate|done|].
    split; [split; [simpl; lia|]|]; by repeat constructor.
  - destruct (outcome_served "ann" (Some ann) Router.ListEvents (Api.ListEvents calm "acme" everything))
      as (fg & r & s' & resp & Hfg & Hr & Hgo); [vm_compute; reflexivity|].
    eapply (organizations_isolated no_wide (λ _, EmptyString) id (λ _ _, EmptyString) yes yes yes (λ _, 0%N)
      (λ _, EmptyString) (λ _, None) (λ _, []) decode_id forgeguard_toml cp_text jwt None None fg r
      (shell "e2") calm "t-1" 1000000) in Hgo as (c & tenant & act & [= <-] & [= <-] & [= <-] & Hgr & _);
      [exact Hgr|apply forgeguard_toml_scoped|apply cp_text_compiled|exact Hfg|exact Hr|reflexivity|
       apply after_create_ok|apply after_create_ok|discriminate|done|].
    split; [split; [simpl; lia|]|]; by repeat constructor.
Defined.

Definition dev_guard : result AppError (Axum.ForgeGuard (SK:=string)) :=
  build_forgeguard no_wide cp_text None None None.
(** Witness: another organization's events, with a forged caller. *)
Lemma dev_mode_open_witness :
  answers dev_guard (events "acme") [] = Some (200%N, Some Router.ListEvents) ∧
  ∃ fg, dev_guard = Ok fg ∧
    Axum.forgeguard_layer id (λ _ _ : string, EmptyString) yes yes yes (λ _, 0%N) (λ _, EmptyString)
      (λ _, None) (λ _, []) fg (parts (get (events "acme") [("x-fg-user-id", "root")])) "t-1" 1000000 =
    Ok {| Axum.response := Axum.Next [] None None None; Axum.sunk := [] |}.
Proof.
  split; [vm_compute; reflexivity|].
  destruct dev_guard as [fg| |] eqn:Hfg; [|vm_compute in Hfg; discriminate Hfg..].
  destruct Router.build_router as [r| |] eqn:Hr; [|vm_compute in Hr; discriminate Hr..].
  exists fg. split; [reflexivity|].
  assert (Router.dispatch r "GET" (events "acme") = Router.Routed Router.ListEvents [("org_id", "acme")]) as Hd.
  { vm_compute in Hr. injection Hr as <-. vm_compute. reflexivity. }
  unfold dev_guard in Hfg.
  pose proof (dev_mode_open no_wide id (λ _ _ : string, EmptyString) yes yes yes (λ _, 0%N) (λ _, EmptyString)
    (λ _, None) (λ _, []) cp_text None None fg r (parts (get (events "acme") [("x-fg-user-id", "root")]))
    "t-1" 1000000 Router.ListEvents [("org_id", "acme")] Hfg Hr Hd) as Hopen.
  exact Hopen.
Defined.
End witnesses.
