(* ===== verification/Proxy.v ===== *)
(** The Pingora proxy ([crates/proxy/src/proxy.rs]) and tenant extraction
    ([crates/proxy-core/src/tenant.rs]).  A session is what the proxy reads of
    the request; each filter of the [ProxyHttp] implementation is a function of
    the session and the per-request context, returning the response it writes,
    the headers it leaves and the counters it increments. *)

From stdpp Require Import pretty.
From S2P Require Import Prelude RustStr Decimal Ident Event Action Features Authn Http Cors.
From S2P Require Import Pipeline Adapters.

(** * Tenant extraction *)
Module Tenant.
Definition find_header (headers : list (string * string)) (name : string) : option string :=
  snd <$> List.find (λ kv, bool_decide (kv.1 = name)) headers.
Definition strip_port (host : string) : string :=
  match RustStr.strip_prefix "[" host with
  | Some rest =>
      match RustStr.split_once "]" rest with
      | Some (inside, _) => "[" +:+ inside +:+ "]"
      | None => host
      end
  | None => match RustStr.split_once ":" host with Some (h, _) => h | None => host end
  end.
Definition split_first_segment (path : string) : option (string * string) :=
  without_leading ← RustStr.strip_prefix "/" path;
  if is_empty without_leading then None
  else match RustStr.split_once "/" without_leading with
  | Some (segment, rest) =>
      if negb (is_empty segment) then
        if is_empty rest then Some (segment, "/") else Some (segment, "/" +:+ rest)
      else None
  | None => Some (without_leading, "/")
  end.

(** [OrganizationId::new(s).ok()]. *)
Definition organization (s : string) : option OrganizationId :=
  match Id.new s with Ok id => Some id | _ => None end.
Definition TenantExtractor : Type := RequestInput.t → option OrganizationId.
Definition SubdomainExtractor : TenantExtractor := λ input,
  host ← find_header (RequestInput.headers input) "host";
  '(first_label, _) ← RustStr.split_once "." (strip_port host);
  organization first_label.
Definition HostExtractor : TenantExtractor := λ input,
  host ← find_header (RequestInput.headers input) "host";
  organization (strip_port host).
Definition HeaderExtractor (header_name : string) : TenantExtractor := λ input,
  value ← find_header (RequestInput.headers input) (to_ascii_lowercase header_name);
  organization value.
Definition stripped_path (path : string) : option string :=
  '(_, rest) ← split_first_segment path; Some rest.
Definition PathPrefixExtractor : TenantExtractor := λ input,
  '(segment, _) ← split_first_segment (RequestInput.path input);
  organization segment.
Definition TenantExtractorChain (extractors : list TenantExtractor) : TenantExtractor := λ input,
  head (omap (λ e, e input) extractors).
End Tenant.

(** * The proxy *)
Module Proxy.
Import Headers.
Inductive ClientIpSource := Peer | XForwardedFor | CfConnectingIp.

(** What the proxy reads of a request; header names are in lower case. *)
Record Session := {
  method : string;
  path : string;
  query : option string;
  headers : HeaderMap;
  client_addr : option IpAddr;
}.
Record RequestCtx := {
  identity : option Identity.t;
  flags : option Features.ResolvedFlags;
  matched_route : option Route.MatchedRoute;
  ctx_method : string;
  ctx_path : string;
  client_ip : option IpAddr;
  cors_origin : option string;
}.
Definition new_ctx : RequestCtx := {|
  identity := None; flags := None; matched_route := None; ctx_method := "GET";
  ctx_path := EmptyString; client_ip := None; cors_origin := None |}.

Record Response := { status : N; resp_headers : HeaderMap; body : string }.
(** The counters. *)
Inductive Metric := AuthOutcomes (outcome : string) | PolicyDecisions (decision : string).
Definition record_outcome_metrics (status : N) : list Metric :=
  if bool_decide (status = 401%N) then [AuthOutcomes "rejected"]
  else if bool_decide (status = 403%N) then [PolicyDecisions "deny"]
  else [].
(** The boolean a request filter returns: whether it answered the request
    (with [Some] response when the headers could be built), or lets it through. *)
Inductive Filtered := Responded (response : option Response) | Proxied.
Inductive ErrorSource := Upstream | Downstream | Internal | Unset.

Section proxy.
Context {SK : Type} (b64_encode : string → string) (ed_sign : SK → string → string).
Context {R : Type} `{Matchit} (to_str header_name_ok header_value_ok : string → bool).
Context (parse_ip : string → option IpAddr).
Context (flags_to_string : Features.ResolvedFlags → option string).
Context (xxh64 : string → N) (json_to_string : Json.t → string).
Context (detailed_to_string : gmap string Features.ResolvedFlag → option string).
Context (form_urlencoded : string → list (string * string)).

Record ForgeGuardProxy := {
  pipeline_config : Pipeline.PipelineConfig;
  identity_chain : Credential.t → result AuthnError.t Identity.t;
  policy_engine : PolicyEngine R;
  client_ip_source : ClientIpSource;
  cors : option Cors.CorsConfig;
  signing : option (SK * Signing.KeyId.t);
}.

(** A header that is there and is text. *)
Definition text_header (name : string) (h : HeaderMap) : option string :=
  v ← get name h; if to_str v then Some v else None.

Definition extract_client_ip (session : Session) (source : ClientIpSource) : option IpAddr :=
  match source with
  | Peer => client_addr session
  | XForwardedFor =>
      v ← text_header "x-forwarded-for" (headers session);
      v ← head (RustStr.split "," v);
      parse_ip (trim v)
  | CfConnectingIp =>
      v ← text_header "cf-connecting-ip" (headers session);
      parse_ip (trim v)
  end.

Definition header_text (v : string) : string := if to_str v then v else EmptyString.
(** What a request that is not accepted is replaced with. *)
Definition fallback : result RequestInput.Error RequestInput.t := RequestInput.new "GET" "/" [] None.
(** [Stuck]: the [expect] of the fallback. *)
Definition request_input_from_session (session : Session) (client_ip : option IpAddr)
    : result Empty_set RequestInput.t :=
  let headers := prod_map id header_text <$> headers session in
  input ← match RequestInput.new (method session) (path session) headers client_ip with
          | Ok input => Ok input
          | Err _ => match fallback with
                     | Ok input => Ok input
                     | _ => Stuck "fallback RequestInput must be valid"
                     end
          | Stuck w => Stuck w
          end;
  Ok match query session with
     | Some qs => RequestInput.with_query_string qs input
     | None => input
     end.

Definition cors_headers (cors : option Cors.CorsConfig) (cors_origin : option string) : HeaderMap :=
  match cors, cors_origin with
  | Some config, Some origin => Cors.response_headers config origin
  | _, _ => []
  end.

(** [insert_header], which fails on what may not be sent. *)
Definition insert_header (kv : string * string) (h : HeaderMap) : option HeaderMap :=
  if header_name_ok kv.1 && header_value_ok kv.2
  then Some (insert (to_ascii_lowercase kv.1) kv.2 h) else None.
Definition send_json_response (status : N) (body : string) (extra_headers : HeaderMap)
    : option Response :=
  let no_body := bool_decide (status = 204%N) in
  h ← if negb no_body then
        h ← insert_header ("Content-Type", "application/json") [];
        Some (insert "content-length" (pretty (N.of_nat (String.length body))) h)
      else Some [];
  h ← foldl (λ h kv, h ← h; insert_header kv h) (Some h) extra_headers;
  Some {| status := status; resp_headers := h; body := if no_body then EmptyString else body |}.

(** The preflight branch: the headers it answers with. *)
Definition preflight (proxy : ForgeGuardProxy) (session : Session) : option HeaderMap :=
  if bool_decide (method session = "OPTIONS") then
    cors ← cors proxy;
    origin ← text_header "origin" (headers session);
    _ ← get "access-control-request-method" (headers session);
    matched ← Cors.matches_origin cors origin;
    Some (Cors.preflight_headers cors matched)
  else None.
(** The origin a later response is decorated for. *)
Definition allowed_origin (proxy : ForgeGuardProxy) (session : Session) : option string :=
  cors ← cors proxy;
  origin ← text_header "origin" (headers session);
  _ ← Cors.matches_origin cors origin;
  Some origin.

Definition request_filter (proxy : ForgeGuardProxy) (session : Session)
    : result Empty_set (Filtered * RequestCtx * list Metric) :=
  let ip := extract_client_ip session (client_ip_source proxy) in
  let ctx := {| identity := None; flags := None; matched_route := None;
                ctx_method := method session; ctx_path := path session; client_ip := ip;
                cors_origin := None |} in
  match preflight proxy session with
  | Some headers => Ok (Responded (send_json_response 204 EmptyString headers), ctx, [])
  | None =>
      let origin := allowed_origin proxy session in
      let ctx := {| identity := None; flags := None; matched_route := None;
                    ctx_method := method session; ctx_path := path session; client_ip := ip;
                    cors_origin := origin |} in
      input ← request_input_from_session session ip;
      outcome ← Pipeline.evaluate_pipeline xxh64 json_to_string detailed_to_string form_urlencoded
                  (pipeline_config proxy) input (identity_chain proxy) (policy_engine proxy)
                  Pipeline.Enforce;
      let cors_hdrs := cors_headers (cors proxy) origin in
      Ok match outcome with
         | Pipeline.Health body | Pipeline.Debug body =>
             (Responded (send_json_response 200 body cors_hdrs), ctx, [])
         | Pipeline.Reject status body _ _ =>
             (Responded (send_json_response status body cors_hdrs), ctx,
              record_outcome_metrics status)
         | Pipeline.Forward id fl mr _ _ =>
             (Proxied,
              {| identity := id; flags := fl; matched_route := mr; ctx_method := method session;
                 ctx_path := path session; client_ip := ip; cors_origin := origin |},
              (match id with Some _ => [AuthOutcomes "success"] | None => [] end) ++
              (match mr with Some _ => [PolicyDecisions "allow"] | None => [] end))
         end
  end.

(** [trace_id] and [now] are drawn by the filter; a header that cannot be sent
    is dropped. *)
Definition upstream_request_filter (proxy : ForgeGuardProxy) (ctx : RequestCtx)
    (trace_id : string) (now : N) (upstream_request : HeaderMap) : HeaderMap :=
  match identity ctx with
  | Some id =>
      let projection := projection_new flags_to_string id (flags ctx) (client_ip ctx) in
      foldl (λ h kv, default h (insert_header kv h)) upstream_request
        (inject_signed_headers b64_encode ed_sign projection (signing proxy) trace_id now)
  | None => upstream_request
  end.

Definition response_filter (proxy : ForgeGuardProxy) (ctx : RequestCtx)
    (upstream_response : HeaderMap) : HeaderMap :=
  foldl (λ h kv,
    if bool_decide (kv.1 = "Vary") then
      if header_name_ok kv.1 && header_value_ok kv.2
      then append (to_ascii_lowercase kv.1) kv.2 h else h
    else default h (insert_header kv h))
    upstream_response (cors_headers (cors proxy) (cors_origin ctx)).

(** The code, and the response for one that is not zero. *)
Definition fail_to_proxy (proxy : ForgeGuardProxy) (ctx : RequestCtx) (esource : ErrorSource)
    : N * option (option Response) :=
  let '(code, error_type) := match esource with
                             | Upstream => (502%N, "upstream_unavailable")
                             | Downstream => (0%N, "downstream_error")
                             | Internal | Unset => (500%N, "internal_error")
                             end in
  (code,
   if bool_decide (code = 0%N) then None
   else Some (send_json_response code
          (json_to_string (Json.Object [("error", Json.String error_type);
                                        ("status", Pipeline.json_u64 code)]))
          (cors_headers (cors proxy) (cors_origin ctx)))).
End proxy.
End Proxy.

(** ** Facts *)
Module ProxyFacts.
Import Headers Proxy.

Lemma signed_header_names {SK} b64 (sgn : SK → string → string) p s trace now :
  let names := (inject_signed_headers b64 sgn p s trace now).*1 in
  NoDup names ∧ Forall (λ n, to_ascii_lowercase n = n) names.
Proof.
  cbv zeta. unfold inject_signed_headers, inject_headers, optional.
  destruct s as [[key key_id]|]; rewrite !fmap_app;
    destruct (tenant_id p), (groups p), (principal_fgrn p), (features_json p), (Headers.client_ip p);
    simpl; split; by_eval.
Qed.
(** Inserting under names in lower case. *)
Lemma insert_headers_lower ok vok l h :
  Forall (λ n, to_ascii_lowercase n = n) l.*1 →
  foldl (λ h kv, default h (insert_header ok vok kv h)) h l =
  foldl (λ h kv, if ok kv.1 && vok kv.2 then insert kv.1 kv.2 h else h) h l.
Proof.
  revert h. induction l as [|kv l IH]; intros h; simpl; [done|].
  intros [Hkv Hl]%Forall_cons. rewrite IH by done. f_equal. unfold insert_header. rewrite Hkv.
  by destruct (_ && _).
Qed.
Lemma upstream_headers_exact {SK R} `{Matchit} b64 (sgn : SK → string → string) nok vok fts
    (proxy : ForgeGuardProxy (R := R)) ctx trace now up name v :
  (name, v) ∈ upstream_request_filter b64 sgn nok vok fts proxy ctx trace now up ↔
  match identity ctx with
  | Some id =>
      let injected := inject_signed_headers b64 sgn
        (projection_new fts id (flags ctx) (client_ip ctx)) (signing proxy) trace now in
      ((name, v) ∈ injected ∧ nok name && vok v = true) ∨
      ((name, v) ∈ up ∧ ∀ v', (name, v') ∈ injected → nok name && vok v' = false)
  | None => (name, v) ∈ up
  end.
Proof.
  unfold upstream_request_filter. destruct (identity ctx) as [id|]; [|done]. cbv zeta.
  destruct (signed_header_names b64 sgn (projection_new fts id (flags ctx) (client_ip ctx))
              (signing proxy) trace now) as [Hnd Hlow].
  rewrite insert_headers_lower by done.
  rewrite (AxumFacts.elem_of_insert_all (λ kv, nok kv.1 && vok kv.2)) by done. simpl. split.
  - intros [?|[Hin Hall]]; [by left|right]. split; [done|]. intros v' Hv'.
    apply not_true_is_false. intros Hok. by destruct (Hall _ Hv' Hok).
  - intros [?|[Hin Hall]]; [by left|right]. split; [done|].
    intros [n' v'] Hv' Hok Heq. simpl in *. subst n'. by rewrite (Hall _ Hv') in Hok.
Qed.

(** The request the pipeline judges. *)
Lemma request_input_known to_str session ip method' :
  HttpMethod.from_str (method session) = Ok method' → starts_with_str "/" (path session) = true →
  ∃ input, request_input_from_session to_str session ip = Ok input ∧
    RequestInput.method input = method' ∧ RequestInput.path input = path session ∧
    RequestInput.headers input = prod_map id (header_text to_str) <$> headers session ∧
    RequestInput.client_ip input = ip ∧ RequestInput.query_string input = query session.
Proof.
  intros Hm Hp. unfold request_input_from_session, RequestInput.new. rewrite Hm. simpl.
  assert (is_empty (path session) = false) as -> by by destruct (path session).
  rewrite Hp. simpl. destruct (query session) as [qs|] eqn:Hq; simpl;
    (eexists; split; [reflexivity|]; simpl; by rewrite ?Hq).
Qed.
Definition root_session (query : option string) : Session := {|
  method := "GET"; path := "/"; query := query; headers := []; client_addr := None |}.
Lemma request_input_unknown to_str session ip e :
  HttpMethod.from_str (method session) = Err e →
  request_input_from_session to_str session ip =
  request_input_from_session to_str (root_session (query session)) None.
Proof.
  intros Hm. unfold request_input_from_session, RequestInput.new. rewrite Hm. reflexivity.
Qed.
Lemma request_input_returns to_str session ip :
  ∃ input, request_input_from_session to_str session ip = Ok input.
Proof.
  unfold request_input_from_session.
  assert (∀ w, RequestInput.new (method session) (path session)
    (prod_map id (header_text to_str) <$> headers session) ip ≠ Stuck w) as Hns.
  { intros w. unfold RequestInput.new. destruct (HttpMethod.from_str (method session)) eqn:Hm; simpl.
    - destruct (is_empty _); [done|]. by destruct (negb _).
    - done.
    - unfold HttpMethod.from_str in Hm.
      repeat match type of Hm with context [if ?b then _ else _] => destruct b end; done. }
  destruct (RequestInput.new _ _ _ _) as [x|e|w]; simpl; [eauto|eauto|by destruct (Hns w)].
Qed.

Lemma request_input_headers to_str session ip input :
  request_input_from_session to_str session ip = Ok input →
  RequestInput.headers input = prod_map id (header_text to_str) <$> headers session ∨
  RequestInput.headers input = [].
Proof.
  unfold request_input_from_session, RequestInput.new.
  intros (x & Hx & [= <-])%bind_Ok.
  assert (RequestInput.headers x = prod_map id (header_text to_str) <$> headers session ∨
          RequestInput.headers x = []) as Hh; [|by destruct (query session)].
  destruct (HttpMethod.from_str (method session)); simpl in Hx; [|simplify_eq; by right|done].
  repeat match type of Hx with context [if ?b then _ else _] => destruct b end;
    simplify_eq; auto.
Qed.
Lemma find_header_elem hs name v : Extract.find_header hs name = Some v → ∃ k, (k, v) ∈ hs.
Proof.
  unfold Extract.find_header. destruct (List.find _ _) as [[k v']|] eqn:Hf; [|done].
  intros [= <-]. apply find_some in Hf as [Hin _]. exists k. by apply list_elem_of_In.
Qed.
Lemma header_text_ascii (to_str : string → bool) v :
  (∀ v, to_str v = true → str_all ExtractFacts.is_ascii v = true) →
  str_all ExtractFacts.is_ascii (header_text to_str v) = true.
Proof. intros Hascii. unfold header_text. destruct (to_str v) eqn:Hv; [auto|done]. Qed.

Lemma request_filter_proxied {SK R} `{Matchit} to_str nok vok parse_ip xxh64 jts dts form
    (proxy : ForgeGuardProxy (SK := SK) (R := R)) session ctx ms :
  request_filter to_str nok vok parse_ip xxh64 jts dts form proxy session = Ok (Proxied, ctx, ms) →
  client_ip ctx = extract_client_ip to_str parse_ip session (client_ip_source proxy) ∧
  preflight to_str proxy session = None ∧
  ∃ input rec eff,
    request_input_from_session to_str session (client_ip ctx) = Ok input ∧
    Pipeline.evaluate_pipeline xxh64 jts dts form (pipeline_config proxy) input
      (identity_chain proxy) (policy_engine proxy) Pipeline.Enforce =
    Ok (Pipeline.Forward (identity ctx) (flags ctx) (matched_route ctx) rec eff).
Proof.
  unfold request_filter. destruct (preflight to_str proxy session); [done|].
  intros (input & Hi & (o & Ho & Heq)%bind_Ok)%bind_Ok.
  destruct o as [b|b|st b d r|i f omr rec eff]; simplify_eq. simpl. eauto 10.
Qed.
End ProxyFacts.

Section proxy_theorems.
Import Headers Proxy ProxyFacts.
Context {SK R : Type} `{Matchit}.
Context (b64_encode : string → string) (ed_sign : SK → string → string).
Context (to_str header_name_ok header_value_ok : string → bool).
Context (parse_ip : string → option IpAddr).
Context (flags_to_string : Features.ResolvedFlags → option string).
Context (xxh64 : string → N) (json_to_string : Json.t → string).
Context (detailed_to_string : gmap string Features.ResolvedFlag → option string).
Context (form_urlencoded : string → list (string * string)).
Abbreviation filter_request := (request_filter to_str header_name_ok header_value_ok parse_ip xxh64
  json_to_string detailed_to_string form_urlencoded).
Abbreviation upstream_headers := (upstream_request_filter b64_encode ed_sign header_name_ok
  header_value_ok flags_to_string).

(** The headers a request is judged by. *)
Definition judged_headers (session : Session) : HeaderMap :=
  prod_map id (header_text to_str) <$> headers session.

Lemma injected_user id fl ip s trace now v :
  (X_FG_USER_ID, v) ∈ inject_signed_headers b64_encode ed_sign
    (projection_new flags_to_string id fl ip) s trace now ↔
  v = Id.as_str (Identity.user_id id).
Proof.
  destruct (signed_header_names b64_encode ed_sign (projection_new flags_to_string id fl ip) s
              trace now) as [Hnd _].
  assert (∃ rest, inject_signed_headers b64_encode ed_sign (projection_new flags_to_string id fl ip)
    s trace now = (X_FG_USER_ID, Id.as_str (Identity.user_id id)) :: rest) as [rest Hl]
    by (unfold inject_signed_headers; destruct s as [[]|]; eexists; reflexivity).
  rewrite Hl in *. apply NoDup_cons in Hnd as [Hx _]. rewrite elem_of_cons. split.
  - intros [[= ->]|Hin]; [done|]. destruct Hx. apply list_elem_of_fmap. by exists (X_FG_USER_ID, v).
  - intros ->. by left.
Qed.

(** C26: what the proxy sends upstream was authorized.  When it lets a request
    with a method it knows through, the request's own method, path and headers
    were judged: it acts under the identity they resolve to; where it matches a
    route, the engine allowed the query built from that identity, that route
    and the client address, or the route is public; where it matches none, the
    path is public or the default policy passes requests through; and for an
    identified request the user header sent upstream is that identity's,
    whatever the client sent. *)
Theorem proxy_upstream_authorized (proxy : ForgeGuardProxy (SK := SK) (R := R)) session ctx ms m :
  filter_request proxy session = Ok (Proxied, ctx, ms) →
  HttpMethod.from_str (method session) = Ok m → starts_with_str "/" (path session) = true →
  let public := Route.check (Pipeline.public_route_matcher (pipeline_config proxy))
                  (HttpMethod.to_string m) (path session) in
  (∃ input, RequestInput.method input = m ∧ RequestInput.path input = path session ∧
     RequestInput.headers input = judged_headers session ∧
     identified (pipeline_config proxy) input (identity_chain proxy) (identity ctx)) ∧
  matched_route ctx = Route.match_request (Pipeline.route_matcher (pipeline_config proxy))
                        (HttpMethod.to_string m) (path session) ∧
  match matched_route ctx, identity ctx with
  | Some mr, Some id => ∃ ev,
      evaluate (policy_engine proxy)
        (build_query id mr (Pipeline.project_id (pipeline_config proxy))
           (extract_client_ip to_str parse_ip session (client_ip_source proxy))) = Ok ev ∧
      Decision.decision ev = Decision.Allow
  | Some _, None => Route.is_public public = true
  | None, _ => Route.is_public public = true ∨
      Pipeline.default_policy (pipeline_config proxy) = Pipeline.Passthrough
  end ∧
  ∀ id trace now up v, identity ctx = Some id → header_name_ok X_FG_USER_ID = true →
    header_value_ok (Id.as_str (Identity.user_id id)) = true →
    (X_FG_USER_ID, v) ∈ upstream_headers proxy ctx trace now up ↔
    v = Id.as_str (Identity.user_id id).
Proof.
  intros (Hip & _ & input & rec & eff & Hi & Hrun)%request_filter_proxied Hm Hp.
  destruct (request_input_known to_str session (client_ip ctx) m Hm Hp)
    as (input' & Hi' & Hmeth & Hpath & Hhs & Hcip & _).
  rewrite Hi in Hi'. injection Hi' as <-.
  apply enforced_forward_spec in Hrun as (_ & Hid & _ & Hmr & Hrest).
  unfold public_match, Pipeline.matched_route in *.
  cbv zeta. rewrite Hmeth, Hpath, Hcip in *. split_and!; [by exists input|done| |].
  - rewrite <-Hip. destruct (matched_route ctx) as [mr|].
    + destruct Hrest as [_ Hrest]. destruct (identity ctx) as [id|].
      * destruct Hrest as (ev & Hev & Hd & _). by exists ev.
      * inversion Hid as [Hpub|Hpub|? ? Hpub|]; unfold public_match in Hpub;
          rewrite Hmeth, Hpath in Hpub; by rewrite Hpub.
    + by destruct Hrest.
  - intros id trace now up v Hc Hn Hv. rewrite upstream_headers_exact, Hc. cbv zeta.
    rewrite injected_user. split.
    + intros [[? _]|[_ Hall]]; [done|]. specialize (Hall (Id.as_str (Identity.user_id id))).
      rewrite Hn, Hv in Hall. discriminate Hall. by apply injected_user.
    + intros ->. left. by rewrite Hn, Hv.
Qed.

(** a request whose method the proxy does not know is judged as another
    request.  Unless it is answered as a preflight, the outcome does not depend
    on its path, headers or address: the proxy filters it exactly as a request
    for [GET /] with no headers and the same query string, and sends the
    original upstream when that one would be let through. *)
Theorem unknown_method_judged_as_root (proxy : ForgeGuardProxy (SK := SK) (R := R)) session e :
  HttpMethod.from_str (method session) = Err e → preflight to_str proxy session = None →
  let judge s := r ← filter_request proxy s;
                 Ok (match r with (Proxied, ctx, _) => Some (identity ctx, matched_route ctx)
                     | _ => None end) in
  judge session = judge (root_session (query session)).
Proof.
  intros Hm Hpre. cbv zeta. unfold request_filter. rewrite Hpre.
  assert (preflight to_str proxy (root_session (query session)) = None) as -> by done.
  rewrite (request_input_unknown to_str session _ _ Hm).
  assert (extract_client_ip to_str parse_ip (root_session (query session)) (client_ip_source proxy) =
          None) as -> by by destruct (client_ip_source proxy).
  destruct (request_input_from_session to_str (root_session (query session)) None) as [x|[]|w];
    [|done]. simpl.
  destruct (Pipeline.evaluate_pipeline _ _ _ _ _ _ _ _ _) as [[| | |]|[]|]; reflexivity.
Qed.

(** the proxy answers or forwards every request.  Its filter returns,
    whatever the method, path and headers of the request, when the resolvers
    and the engine return; a header value counts as text only if it is ASCII,
    so no request makes credential extraction panic here. *)
Theorem proxy_filter_returns (proxy : ForgeGuardProxy (SK := SK) (R := R)) session :
  (∀ v, to_str v = true → str_all ExtractFacts.is_ascii v = true) →
  (∀ c w, identity_chain proxy c ≠ Stuck w) →
  (∀ resolver u org w, Pipeline.membership_resolver (pipeline_config proxy) = Some resolver →
     resolver u org ≠ Stuck w) →
  (∀ q w, evaluate (policy_engine proxy) q ≠ Stuck w) →
  ∃ f ctx ms, filter_request proxy session = Ok (f, ctx, ms).
Proof.
  intros Hascii Hchain Hres Heng. unfold request_filter.
  destruct (preflight to_str proxy session); [eauto|].
  set (ip := extract_client_ip _ _ _ _).
  destruct (request_input_returns to_str session ip) as [input Hi]. rewrite Hi.
  destruct (pipeline_settles xxh64 json_to_string detailed_to_string form_urlencoded
    (pipeline_config proxy) input (identity_chain proxy) (policy_engine proxy) Pipeline.Enforce)
    as (o & Ho & _); [|done..|].
  - intros auth [k Ha]%find_header_elem.
    destruct (request_input_headers _ _ _ _ Hi) as [Hh|Hh]; rewrite Hh in Ha;
      [|by apply not_elem_of_nil in Ha].
    apply list_elem_of_fmap in Ha as ([k' v] & [= -> ->] & _). by apply header_text_ascii.
  - simpl. rewrite Ho. destruct o; simpl; eauto.
Qed.
End proxy_theorems.

(** * Tenants *)
Section tenant_theorems.
Import Tenant.

(** the organization prefix of a path is its first segment.  A path splits
    into a segment and a rest exactly when it is a slash and a non-empty segment
    without slashes, followed by nothing or by a slash; the rest then begins
    with that slash, and putting the prefix back in front of it gives the path
    again, up to a trailing slash. *)
Theorem path_prefix_exact path segment rest :
  split_first_segment path = Some (segment, rest) ↔
  segment ≠ EmptyString ∧ contains_char "/" segment = false ∧
  ((∃ tail, rest = "/" +:+ tail ∧ path = "/" +:+ segment +:+ rest) ∨
   (rest = "/" ∧ path = "/" +:+ segment)).
Proof.
  unfold split_first_segment. split.
  - destruct (RustStr.strip_prefix "/" path) as [w|] eqn:Hw; simpl; [|done].
    apply strip_prefix_Some in Hw as ->. destruct (is_empty w) eqn:He; [done|].
    destruct (RustStr.split_once "/" w) as [[seg r]|] eqn:Hs.
    + apply split_once_Some in Hs as [-> Hc]. destruct (is_empty seg) eqn:Hseg; simpl; [done|].
      apply is_empty_false in Hseg.
      destruct (is_empty r) eqn:Hr; intros [= <- <-]; split_and!; try done; left; eauto.
      apply is_empty_true in Hr as ->. by exists EmptyString.
    + intros [= <- <-]. apply split_once_None in Hs. apply is_empty_false in He. auto.
  - intros (Hne & Hc & [(tail & -> & ->)|[-> ->]]).
    + rewrite (proj2 (strip_prefix_Some "/" _ _) eq_refl). simpl.
      assert (is_empty (segment +:+ String "/" tail) = false) as -> by by destruct segment.
      rewrite split_once_app by done. apply is_empty_false in Hne. rewrite Hne. simpl.
      destruct (is_empty tail) eqn:Ht; [|done]. by apply is_empty_true in Ht as ->.
    + rewrite (proj2 (strip_prefix_Some "/" _ _) eq_refl). simpl.
      rewrite (proj2 (is_empty_false _) Hne). by rewrite (proj2 (split_once_None _ _)).
Qed.
End tenant_theorems.

(** * Samples *)
Module ProxySample.
Import ListRouter Proxy.
Definition text : string → bool := str_all ExtractFacts.is_ascii.
Definition yes : string → bool := λ _, true.
Definition root_public : Route.PublicRouteMatcher :=
  match Route.public_new RouteSample.no_wide
    [{| Route.p_method := HttpMethod.Get; Route.p_path_pattern := "/";
        Route.auth_mode := Route.AnonymousMode |}] with
  | Ok m => m | _ => Route.empty_matcher end.
Definition config : Pipeline.PipelineConfig := {|
  Pipeline.route_matcher := PipelineSample.matcher;
  Pipeline.public_route_matcher := root_public;
  Pipeline.flag_config := {| Features.flags := [] |};
  Pipeline.project_id := PipelineSample.seg ProjectIdK "todo";
  Pipeline.default_policy := Pipeline.DenyByDefault; Pipeline.debug_mode := false;
  Pipeline.auth_providers := ["api-key"];
  Pipeline.membership_resolver := Some PipelineSample.members |}.
(** Any origin may read the responses. *)
Definition any_origin : Cors.CorsConfig := {|
  Cors.origins := [Cors.Any]; Cors.allowed_methods := ["GET"]; Cors.allowed_headers := [];
  Cors.expose_headers := []; Cors.allow_credentials := false; Cors.max_age_secs := 60 |}.
Definition proxy : ForgeGuardProxy (SK := string) (R := ()) := {|
  pipeline_config := config; identity_chain := PipelineSample.chain;
  policy_engine := PipelineSample.engine; client_ip_source := Peer; cors := Some any_origin;
  signing := None |}.
Definition session (method path : string) (headers : HeaderMap) : Session :=
  {| method := method; path := path; query := None; headers := headers; client_addr := None |}.
Definition filter_request : Session → result Empty_set (Filtered * RequestCtx * list Metric) :=
  request_filter text yes yes (λ _, None) (λ _, 0%N) PipelineSample.no_json (λ _, None) (λ _, [])
    proxy.
Definition upstream (ctx : RequestCtx) (h : HeaderMap) : HeaderMap :=
  upstream_request_filter id AuthnSample.sample_sign yes yes (λ _, None) proxy ctx "t-1" 1000000 h.
(** The headers a request reaches the upstream with, if it does. *)
Definition sent (s : Session) : option HeaderMap :=
  match filter_request s with Ok (Proxied, ctx, _) => Some (upstream ctx (headers s)) | _ => None end.
(** Ann's request, naming another user. *)
Definition ann : Session :=
  session "GET" "/lists/7" [("x-api-key", "k1"); ("x-fg-org-id", "acme"); ("x-fg-user-id", "root")].
Definition proxied (r : result Empty_set (Filtered * RequestCtx * list Metric)) : bool :=
  match r with Ok (Proxied, _, _) => true | _ => false end.
Lemma ann_proxied : proxied (filter_request ann) = true.
Proof. vm_cast_no_check (eq_refl true). Qed.
Definition purge : Session := session "PURGE" "/lists/7" [("host", "api.example.com")].
End ProxySample.

Lemma proxy_upstream_authorized_witness :
  ∃ ctx ms, ProxySample.filter_request ProxySample.ann = Ok (Proxy.Proxied, ctx, ms) ∧
    Proxy.matched_route ctx = Route.match_request PipelineSample.matcher "GET" "/lists/7".
Proof.
  pose proof ProxySample.ann_proxied as Hp.
  destruct (ProxySample.filter_request ProxySample.ann) as [[[[r|] ctx] ms]| |] eqn:Hf;
    try discriminate Hp.
  exists ctx, ms. split; [reflexivity|].
  exact (proj1 (proj2 (proxy_upstream_authorized id AuthnSample.sample_sign ProxySample.text
    ProxySample.yes ProxySample.yes (λ _, None) (λ _, None) (λ _, 0%N) PipelineSample.no_json
    (λ _, None) (λ _, []) ProxySample.proxy ProxySample.ann ctx ms HttpMethod.Get Hf eq_refl
    eq_refl))).
Defined.

Lemma unknown_method_judged_as_root_witness :
  (r ← ProxySample.filter_request ProxySample.purge;
   Ok match r with
      | (Proxy.Proxied, ctx, _) => Some (Proxy.identity ctx, Proxy.matched_route ctx)
      | _ => None
      end) = Ok (Some (None, None)).
Proof.
  etrans; [eapply (unknown_method_judged_as_root ProxySample.text ProxySample.yes ProxySample.yes
    (λ _, None) (λ _, 0%N) PipelineSample.no_json (λ _, None) (λ _, []) ProxySample.proxy
    ProxySample.purge); reflexivity|].
  vm_compute. reflexivity.
Defined.

Lemma proxy_filter_returns_witness :
  ∃ f ctx ms, ProxySample.filter_request ProxySample.ann = Ok (f, ctx, ms).
Proof.
  apply (proxy_filter_returns ProxySample.text ProxySample.yes ProxySample.yes
    (λ _, None) (λ _, 0%N) PipelineSample.no_json (λ _, None) (λ _, []) ProxySample.proxy).
  - done.
  - intros [t|k|? ? ? ? ?] w; [done| |done]. unfold ProxySample.proxy, PipelineSample.chain. simpl.
    destruct (_ !! k); done.
  - intros resolver u org w [= <-]. unfold PipelineSample.members. by destruct (_ && _).
  - intros q w. done.
Defined.

(** with [GET /] public, a request with an unknown method reaches a
    protected path without any credential, where the same request with a known
    method is refused. *)
Theorem unknown_method_bypass :
  ProxySample.sent (ProxySample.session "PURGE" "/lists/7" []) = Some [] ∧
  ProxySample.sent (ProxySample.session "HEAD" "/lists/7" []) = Some [] ∧
  ProxySample.sent (ProxySample.session "GET" "/lists/7" []) = None.
Proof. split_and!; vm_compute; reflexivity. Qed.

(** the proxy does not remove identity headers: on a public route, a request
    that names a user of its own reaches the upstream under that name. *)
Theorem forged_identity_forwarded :
  (h ← ProxySample.sent (ProxySample.session "GET" "/" [("x-fg-user-id", "root")]);
   Headers.get Headers.X_FG_USER_ID h) = Some "root".
Proof. vm_compute. reflexivity. Qed.

(** a configuration that allows any origin echoes the request's own origin,
    without [Vary], where the preflight of the same configuration answers with
    the wildcard. *)
Theorem wildcard_origin_echoed origin :
  Proxy.response_filter ProxySample.yes ProxySample.yes ProxySample.proxy
    {| Proxy.identity := None; Proxy.flags := None; Proxy.matched_route := None;
       Proxy.ctx_method := "GET"; Proxy.ctx_path := "/"; Proxy.client_ip := None;
       Proxy.cors_origin := Some origin |} [] = [("access-control-allow-origin", origin)] ∧
  Cors.matches_origin ProxySample.any_origin origin = Some "*".
Proof. split; reflexivity. Qed.
