(* ===== verification/VpEngine.v ===== *)
(** The Verified Permissions engine of [crates/authz]: the translation of a
    query to a service request ([translate.rs]), the cache keys and the
    in-memory cache ([cache.rs]), the two-tier cache ([tiered_cache.rs]) and
    the engine that puts them together ([engine.rs]).  The LRU map is a library
    behind a class; the policy service, Redis and the clock are the environment
    of a step relation over concurrent evaluations in several instances. *)

From stdpp Require Import pretty.
From S2P Require Import Prelude RustStr Ident Action Pipeline.

(** * Translation ([translate.rs]) *)
Module Vp.
Record EntityIdentifier := { entity_type : string; entity_id : string }.
Record ActionIdentifier := { action_type : string; action_id : string }.
(** All attributes are strings. *)
Record EntityItem := {
  identifier : EntityIdentifier;
  attributes : list (string * string);
  parents : list EntityIdentifier;
}.
Record VpRequestComponents := {
  principal : EntityIdentifier;
  action : ActionIdentifier;
  resource : option EntityIdentifier;
}.

Definition principal_identifier (p : PrincipalRef.t) (project : ProjectId) (tenant : TenantId)
    : EntityIdentifier := {|
  entity_type := PrincipalRef.vp_entity_type p project;
  entity_id := VpFgrn.as_vp_entity_id (PrincipalRef.to_fgrn p project tenant) |}.
Definition resource_identifier (r : ResourceRef.t) (project : ProjectId) : EntityIdentifier := {|
  entity_type := ResourceRef.vp_entity_type r project;
  entity_id := ResourceId.as_str (ResourceRef.id r) |}.

(** The builders are given every required field, and succeed. *)
Definition build_vp_request (query : PolicyQuery.t) (project : ProjectId) (tenant : TenantId)
    : VpRequestComponents := {|
  principal := principal_identifier (PolicyQuery.principal query) project tenant;
  action := {| action_type := QualifiedAction.vp_action_type (PolicyQuery.action query) project;
               action_id := QualifiedAction.vp_action_id (PolicyQuery.action query) |};
  resource := (λ r, resource_identifier r project) <$> PolicyQuery.resource query;
|}.

Definition group_identifier (project : ProjectId) (g : GroupName) : EntityIdentifier :=
  {| entity_type := PrincipalRef.vp_group_entity_type project; entity_id := Id.as_str g |}.
Definition resource_org (r : ResourceRef.t) (tenant : TenantId) : string :=
  match ResourceRef.org_source r with
  | ResourceRef.OwnId => ResourceId.as_str (ResourceRef.id r)
  | ResourceRef.RequestTenant => Id.as_str tenant
  end.
Definition build_vp_entities (principal : PrincipalRef.t) (groups : list GroupName)
    (resource : option ResourceRef.t) (project : ProjectId) (tenant : TenantId)
    : list EntityItem :=
  let org_id := [("org_id", Id.as_str tenant)] in
  (match PrincipalRef.kind principal with
   | PrincipalRef.Machine =>
       [{| identifier := principal_identifier principal project tenant;
           attributes := org_id; parents := [] |}]
   | PrincipalRef.User =>
       let group_identifiers := group_identifier project <$> groups in
       {| identifier := principal_identifier principal project tenant;
          attributes := org_id; parents := group_identifiers |} ::
       ((λ id, {| identifier := id; attributes := []; parents := [] |}) <$> group_identifiers)
   end) ++
  match resource with
  | Some res =>
      [{| identifier := resource_identifier res project;
          attributes := [("org_id", resource_org res tenant)]; parents := [] |}]
  | None => []
  end.

(** The service's decision; the SDK type is open. *)
Inductive ServiceDecision := ServiceAllow | ServiceDeny | ServiceUnknown (value : string).
Definition translate_vp_decision (d : ServiceDecision) : Decision.PolicyDecision :=
  match d with
  | ServiceAllow => Decision.Allow
  | _ => Decision.Deny Decision.NoMatchingPolicy
  end.
End Vp.

(** * Cache keys *)
Module CacheKey.
Definition group_part (groups : list GroupName) : string :=
  match groups with
  | [] => EmptyString
  | _ => RustStr.join "," (merge_sort (cmp_le String.compare) (Id.as_str <$> groups))
  end.
Definition build_cache_key (query : PolicyQuery.t) : string :=
  let kind_part := match PrincipalRef.kind (PolicyQuery.principal query) with
                   | PrincipalRef.User => "user" | PrincipalRef.Machine => "machine" end in
  let principal_id := Id.as_str (PrincipalRef.user_id (PolicyQuery.principal query)) in
  let action := QualifiedAction.to_string (PolicyQuery.action query) in
  let resource_part := match PolicyQuery.resource query with
                       | Some r => ResourceRef.to_string r | None => "none" end in
  let tenant_part := match PolicyContext.tenant_id (PolicyQuery.context query) with
                     | Some t => Id.as_str t | None => "none" end in
  kind_part +:+ "|" +:+ principal_id +:+ "|" +:+ action +:+ "|" +:+ resource_part +:+ "|" +:+
  tenant_part +:+ "|" +:+ group_part (PolicyContext.groups (PolicyQuery.context query)).
End CacheKey.

(** ** What a key says *)
Module KeyFacts.
Import CacheKey.
Definition action_wf (a : QualifiedAction.t) : Prop :=
  Namespace.wf (QualifiedAction.namespace a) ∧
  Segment.wf (Entity.as_segment (QualifiedAction.entity a)) ∧
  Segment.wf (Action.as_segment (QualifiedAction.action a)).
Definition resource_wf (r : ResourceRef.t) : Prop :=
  Namespace.wf (ResourceRef.namespace r) ∧ Segment.wf (Entity.as_segment (ResourceRef.entity r)) ∧
  Segment.wf (ResourceId.as_segment (ResourceRef.id r)).
(** What the constructors of a query's parts guarantee. *)
Record key_wf (q : PolicyQuery.t) : Prop := {
  wf_user : Id.wf (PrincipalRef.user_id (PolicyQuery.principal q));
  wf_action : action_wf (PolicyQuery.action q);
  wf_resource r : PolicyQuery.resource q = Some r → resource_wf r;
  wf_tenant t : PolicyContext.tenant_id (PolicyQuery.context q) = Some t → Id.wf t;
  wf_groups : Forall Id.wf (PolicyContext.groups (PolicyQuery.context q));
}.
(** The part of a resource that a key names. *)
Definition named (r : ResourceRef.t) : Namespace.t * Entity.t * ResourceId.t :=
  (ResourceRef.namespace r, ResourceRef.entity r, ResourceRef.id r).

Lemma no_bar x : Segment.wf x → contains_char "|" (Segment.as_str x) = false.
Proof. by apply SegmentFacts.wf_no_byte. Qed.

(** Three segments with colons between them. *)
Lemma colons_no_bar x y z :
  Segment.wf x → Segment.wf y → Segment.wf z →
  contains_char "|" (Segment.as_str x +:+ ":" +:+ Segment.as_str y +:+ ":" +:+ Segment.as_str z) =
  false.
Proof. intros Hx Hy Hz. rewrite !contains_char_app, !no_bar by done. done. Qed.
Lemma colons_inj x y z x' y' z' :
  Segment.wf x → Segment.wf y → Segment.wf x' → Segment.wf y' →
  Segment.as_str x +:+ ":" +:+ Segment.as_str y +:+ ":" +:+ Segment.as_str z =
  Segment.as_str x' +:+ ":" +:+ Segment.as_str y' +:+ ":" +:+ Segment.as_str z' →
  x = x' ∧ y = y' ∧ z = z'.
Proof.
  intros Hx Hy Hx' Hy' Heq. rewrite !str_one in Heq.
  apply sep_inj in Heq as [Hxx Heq]; [|by apply ActionFacts.seg_no_colon..].
  apply sep_inj in Heq as [Hyy Hzz]; [|by apply ActionFacts.seg_no_colon..].
  split_and!; by apply SegmentFacts.segment_as_str_inj.
Qed.
Lemma action_string_inj a b :
  action_wf a → action_wf b → QualifiedAction.to_string a = QualifiedAction.to_string b → a = b.
Proof.
  destruct a as [n [a] [e]], b as [n' [a'] [e']]. intros (Hn & He & _) (Hn' & He' & _). simpl in *.
  unfold QualifiedAction.to_string, Namespace.as_str, Entity.as_str, Action.as_str. simpl.
  intros (Hnn & -> & ->)%colons_inj; [|by try apply ActionFacts.namespace_wf_segment..].
  f_equal. apply ActionFacts.namespace_as_str_inj; [done..|]. unfold Namespace.as_str. by rewrite Hnn.
Qed.
Lemma resource_string_inj a b :
  resource_wf a → resource_wf b → ResourceRef.to_string a = ResourceRef.to_string b →
  named a = named b.
Proof.
  destruct a as [n [e] [i] ? ?], b as [n' [e'] [i'] ? ?]. intros (Hn & He & _) (Hn' & He' & _).
  simpl in *. unfold ResourceRef.to_string, Namespace.as_str, Entity.as_str, ResourceId.as_str. simpl.
  intros (Hnn & -> & ->)%colons_inj; [|by try apply ActionFacts.namespace_wf_segment..].
  unfold named. simpl. do 2 f_equal.
  apply ActionFacts.namespace_as_str_inj; [done..|]. unfold Namespace.as_str. by rewrite Hnn.
Qed.
Lemma action_string_no_bar a : action_wf a → contains_char "|" (QualifiedAction.to_string a) = false.
Proof.
  intros (Hn & He & Ha). apply colons_no_bar; [by apply ActionFacts.namespace_wf_segment|done..].
Qed.
Lemma resource_string_no_bar r : resource_wf r → contains_char "|" (ResourceRef.to_string r) = false.
Proof.
  intros (Hn & He & Ha). apply colons_no_bar; [by apply ActionFacts.namespace_wf_segment|done..].
Qed.
Lemma resource_string_not_none r : ResourceRef.to_string r ≠ "none".
Proof.
  intros Heq. assert (contains_char ":" (ResourceRef.to_string r) = true) as H.
  { unfold ResourceRef.to_string. rewrite !contains_char_app. simpl. by rewrite orb_true_r. }
  by rewrite Heq in H.
Qed.

Lemma fmap_Permutation_inj {A B} (f : A → B) `{!Inj (=) (=) f} (l k : list A) :
  f <$> l ≡ₚ f <$> k → l ≡ₚ k.
Proof.
  intros (m & Hm & Hk)%Permutation_map_inv. apply (inj (fmap f)) in Hm as ->. by symmetry.
Qed.
(** The group part is the groups as a multiset. *)
Lemma group_part_inj (l k : list GroupName) :
  Forall Id.wf l → Forall Id.wf k → group_part l = group_part k ↔ l ≡ₚ k.
Proof.
  intros Hl Hk.
  set (srt := λ l : list GroupName, merge_sort (cmp_le String.compare) (Id.as_str <$> l)).
  assert (∀ l, srt l ≡ₚ Id.as_str <$> l) as Hperm by (intros; apply merge_sort_Permutation).
  assert (∀ l, Forall Id.wf l → l ≠ [] →
    RustStr.split "," (group_part l) = srt l ∧ EmptyString ∉ srt l) as Hsplit.
  { intros m Hm Hne. rewrite Forall_forall in Hm.
    assert (∀ s, s ∈ srt m → ∃ g : GroupName, s = Id.as_str g ∧ Id.wf g) as Hs.
    { intros s. rewrite (Hperm m), list_elem_of_fmap. intros (g & -> & Hg). eauto. }
    split.
    - destruct m as [|g m]; [done|]. unfold group_part. apply split_join.
      + intros Hnil. pose proof (Hperm (g :: m)) as Hp. change (srt (g :: m) = []) in Hnil. rewrite Hnil in Hp.
        by apply Permutation_nil_cons in Hp.
      + apply Forall_forall. intros s (g' & -> & Hg)%Hs. by apply SegmentFacts.wf_no_byte.
    - intros (g & Hg & Hwf)%Hs. unfold Id.wf, Segment.wf in Hwf. unfold Id.as_str in Hg.
      by rewrite <-Hg in Hwf. }
  split.
  - intros Heq. destruct l as [|g l], k as [|h k]; [done|..].
    + destruct (Hsplit _ Hk) as [Hs Hne]; [done|]. rewrite <-Heq in Hs. simpl in Hs.
      rewrite <-Hs in Hne. by destruct Hne; left.
    + destruct (Hsplit _ Hl) as [Hs Hne]; [done|]. rewrite Heq in Hs. simpl in Hs.
      rewrite <-Hs in Hne. by destruct Hne; left.
    + destruct (Hsplit _ Hl) as [Hs _]; [done|]. destruct (Hsplit _ Hk) as [Hs' _]; [done|].
      rewrite Heq, Hs' in Hs. pose proof (Hperm (g :: l)) as Hp. rewrite <-Hs, Hperm in Hp.
      by apply (fmap_Permutation_inj Id.as_str).
  - intros Hlk. assert (srt l = srt k) as Hs.
    { apply (Sorted_unique (cmp_le String.compare)); [apply Sorted_merge_sort, _..|].
      by rewrite !Hperm, Hlk. }
    destruct l, k; [done|by apply Permutation_nil_cons in Hlk|
      by symmetry in Hlk; apply Permutation_nil_cons in Hlk|].
    unfold group_part. f_equal. exact Hs.
Qed.

Definition resource_part (o : option ResourceRef.t) : string :=
  match o with Some r => ResourceRef.to_string r | None => "none" end.
Lemma resource_part_no_bar o :
  (∀ r, o = Some r → resource_wf r) → contains_char "|" (resource_part o) = false.
Proof. destruct o; [|done]. intros Hr. apply resource_string_no_bar. auto. Qed.
Lemma resource_part_inj o o' :
  (∀ r, o = Some r → resource_wf r) → (∀ r, o' = Some r → resource_wf r) →
  resource_part o = resource_part o' → named <$> o = named <$> o'.
Proof.
  destruct o as [r|], o' as [r'|]; simpl; intros Hr Hr' Heq.
  - f_equal. apply resource_string_inj; auto.
  - by destruct (resource_string_not_none r).
  - by destruct (resource_string_not_none r').
  - done.
Qed.
Lemma key_inj q q' t t' :
  key_wf q → key_wf q' →
  PolicyContext.tenant_id (PolicyQuery.context q) = Some t →
  PolicyContext.tenant_id (PolicyQuery.context q') = Some t' →
  build_cache_key q = build_cache_key q' ↔
  PolicyQuery.principal q = PolicyQuery.principal q' ∧
  PolicyQuery.action q = PolicyQuery.action q' ∧
  named <$> PolicyQuery.resource q = named <$> PolicyQuery.resource q' ∧ t = t' ∧
  PolicyContext.groups (PolicyQuery.context q) ≡ₚ PolicyContext.groups (PolicyQuery.context q').
Proof.
  intros [Hu Ha Hr Ht Hg] [Hu' Ha' Hr' Ht' Hg'] Et Et'. unfold build_cache_key. rewrite Et, Et'.
  rewrite <-(group_part_inj _ _ Hg Hg').
  destruct (PolicyQuery.principal q) as [u k], (PolicyQuery.principal q') as [u' k']. simpl in *.
  fold (resource_part (PolicyQuery.resource q)) (resource_part (PolicyQuery.resource q')).
  split.
  - intros Heq. apply sep_inj in Heq as [Hk Heq]; [|by destruct k|by destruct k'].
    apply sep_inj in Heq as [->%id_as_str_inj Heq]; [|by apply no_bar..].
    apply sep_inj in Heq as [->%action_string_inj Heq]; [|by try apply action_string_no_bar..].
    assert (k = k') as -> by by destruct k, k'.
    apply sep_inj in Heq as [Hrr Heq]; [|by apply resource_part_no_bar..].
    apply sep_inj in Heq as [->%id_as_str_inj Hgp]; [|apply no_bar, (Ht t Et)|apply no_bar, (Ht' t' Et')].
    split_and!; try done. by apply resource_part_inj.
  - intros ([= -> ->] & -> & Hrr & -> & ->). do 6 f_equal. f_equal.
    destruct (PolicyQuery.resource q) as [[]|], (PolicyQuery.resource q') as [[]|]; try done.
    simpl in Hrr. unfold named in Hrr. simpl in Hrr. by simplify_eq.
Qed.
End KeyFacts.

(** the cache does not confuse questions.  For well-formed queries with a
    tenant, two keys are equal exactly when the queries have the same principal
    (kind and id), the same action, resources of the same namespace, entity and
    id (or none), the same tenant, and the same groups in any order. *)
Theorem cache_key_exact q q' t t' :
  KeyFacts.key_wf q → KeyFacts.key_wf q' →
  PolicyContext.tenant_id (PolicyQuery.context q) = Some t →
  PolicyContext.tenant_id (PolicyQuery.context q') = Some t' →
  CacheKey.build_cache_key q = CacheKey.build_cache_key q' ↔
  PolicyQuery.principal q = PolicyQuery.principal q' ∧
  PolicyQuery.action q = PolicyQuery.action q' ∧
  KeyFacts.named <$> PolicyQuery.resource q = KeyFacts.named <$> PolicyQuery.resource q' ∧ t = t' ∧
  PolicyContext.groups (PolicyQuery.context q) ≡ₚ PolicyContext.groups (PolicyQuery.context q').
Proof. apply KeyFacts.key_inj. Qed.

(** ** What the service is asked *)
Module RequestFacts.
Import Vp KeyFacts.
Definition tenant_of (q : PolicyQuery.t) : option TenantId :=
  PolicyContext.tenant_id (PolicyQuery.context q).
(** Everything the service is sent for a query. *)
Definition asked (project : ProjectId) (q : PolicyQuery.t) (tenant : TenantId)
    : VpRequestComponents * list EntityItem :=
  (build_vp_request q project tenant,
   build_vp_entities (PolicyQuery.principal q) (PolicyContext.groups (PolicyQuery.context q))
     (PolicyQuery.resource q) project tenant).
(** Entities are a set, and so are the parents of each. *)
Definition same_item (x y : EntityItem) : Prop :=
  identifier x = identifier y ∧ attributes x = attributes y ∧ parents x ≡ₚ parents y.
Definition same_request (x y : VpRequestComponents * list EntityItem) : Prop :=
  x.1 = y.1 ∧ ∃ items, Forall2 same_item x.2 items ∧ items ≡ₚ y.2.
(** What a route gives a resource beside its name. *)
Definition typed (r : ResourceRef.t) : option string * ResourceRef.ResourceOrgSource :=
  (ResourceRef.cedar_entity_type r, ResourceRef.org_source r).

#[global] Instance same_item_refl : Reflexive same_item.
Proof. by intros x. Qed.

Lemma items_refl l : Forall2 same_item l l.
Proof. apply Forall_Forall2_diag, Forall_true. reflexivity. Qed.
Lemma named_typed r r' : named r = named r' → typed r = typed r' → r = r'.
Proof. destruct r, r'. unfold named, typed. simpl. naive_solver. Qed.
Lemma entities_groups p g g' r project t :
  g ≡ₚ g' → ∃ items, Forall2 same_item (build_vp_entities p g r project t) items ∧
                     items ≡ₚ build_vp_entities p g' r project t.
Proof.
  intros Hg. unfold build_vp_entities. destruct (PrincipalRef.kind p); last first.
  { eexists. split; [|reflexivity]. apply items_refl. }
  eexists ({| identifier := principal_identifier p project t;
              attributes := [("org_id", Id.as_str t)];
              parents := group_identifier project <$> g' |} ::
           ((λ id, {| identifier := id; attributes := []; parents := [] |}) <$>
              (group_identifier project <$> g)) ++ _). split.
  - simpl. constructor; [|apply items_refl]. split_and!; [done..|]. simpl. by rewrite Hg.
  - simpl. by rewrite Hg.
Qed.
End RequestFacts.

(** a cached answer answers the same question.  For well-formed queries with
    the same key whose resources were given the same type and owner by their
    routes, the engine asks the service the same: the same principal, action and
    resource, and the same entities up to the order of the groups. *)
Theorem cache_key_determines_request project q q' t t' :
  KeyFacts.key_wf q → KeyFacts.key_wf q' →
  RequestFacts.tenant_of q = Some t → RequestFacts.tenant_of q' = Some t' →
  CacheKey.build_cache_key q = CacheKey.build_cache_key q' →
  RequestFacts.typed <$> PolicyQuery.resource q = RequestFacts.typed <$> PolicyQuery.resource q' →
  RequestFacts.same_request (RequestFacts.asked project q t) (RequestFacts.asked project q' t').
Proof.
  intros Hq Hq' Ht Ht' Hkey Htyped.
  apply (KeyFacts.key_inj q q' t t') in Hkey as (Hp & Ha & Hr & <- & Hg); [|done..].
  assert (PolicyQuery.resource q = PolicyQuery.resource q') as Hres.
  { destruct (PolicyQuery.resource q) as [r|], (PolicyQuery.resource q') as [r'|]; try done.
    f_equal. apply RequestFacts.named_typed; [by apply (inj Some)|by apply (inj Some)]. }
  split.
  - simpl. unfold Vp.build_vp_request. by rewrite Hp, Ha, Hres.
  - simpl. rewrite Hp, Hres. by apply RequestFacts.entities_groups.
Qed.

(** * The in-memory cache ([cache.rs]) *)

(** The LRU map: what the code calls. *)
Class Lru (C V : Type) := {
  lru_new : nat → C;
  lru_get : string → C → option V * C;
  lru_put : string → V → C → C;
  lru_pop : string → C → C;
}.
(** Documented behaviour: a lookup returns the stored value and stores nothing;
    a put stores its value and may evict others. *)
Class LruLaws (C V : Type) `{Lru C V} := {
  lru_peek : C → string → option V;
  lru_new_peek n k : lru_peek (lru_new n) k = None;
  lru_get_value k c : (lru_get k c).1 = lru_peek c k;
  lru_get_keeps k c k' : lru_peek (lru_get k c).2 k' = lru_peek c k';
  lru_put_value k v c : lru_peek (lru_put k v c) k = Some v;
  lru_put_other k v c k' : k ≠ k' →
    lru_peek (lru_put k v c) k' = lru_peek c k' ∨ lru_peek (lru_put k v c) k' = None;
  lru_pop_value k c : lru_peek (lru_pop k c) k = None;
  lru_pop_other k c k' : k ≠ k' → lru_peek (lru_pop k c) k' = lru_peek c k';
}.

(** Instants and durations are in nanoseconds. *)
Record CachedDecision := { decision : Decision.PolicyDecision; inserted_at : N }.
(** [fetch_add(1)] on an [AtomicU64]. *)
Definition bump (n : N) : N := ((n + 1) mod 2 ^ 64)%N.

Module AuthzCache.
Section cache.
Context {C : Type} `{Lru C CachedDecision}.
Record t := { inner : C; ttl : N; hits : N; misses : N }.
Definition new (ttl : N) (max_entries : nat) : t :=
  {| inner := lru_new (max_entries `max` 1); ttl := ttl; hits := 0; misses := 0 |}.
Definition get (now : N) (key : string) (c : t) : option Decision.PolicyDecision * t :=
  let '(found, inner') := lru_get key (inner c) in
  match found with
  | Some cached =>
      if bool_decide (now - inserted_at cached < ttl c)%N
      then (Some (decision cached),
            {| inner := inner'; ttl := ttl c; hits := bump (hits c); misses := misses c |})
      else (None, {| inner := lru_pop key inner'; ttl := ttl c; hits := hits c;
                     misses := bump (misses c) |})
  | None => (None, {| inner := inner'; ttl := ttl c; hits := hits c; misses := bump (misses c) |})
  end.
Definition insert (now : N) (key : string) (d : Decision.PolicyDecision) (c : t) : t :=
  {| inner := lru_put key {| decision := d; inserted_at := now |} (inner c); ttl := ttl c;
     hits := hits c; misses := misses c |}.
End cache.
Arguments t : clear implicits.
End AuthzCache.

(** * The two-tier cache ([tiered_cache.rs]) *)
(** The command of a spawned write. *)
Record SetEx := { set_key : string; set_secs : N; set_value : string }.
Module TieredCache.
Section cache.
Context {C : Type} `{Lru C CachedDecision}.
(** [serde_json] on decisions. *)
Context (to_string : Decision.PolicyDecision → result string string).
Context (from_str : string → result string Decision.PolicyDecision).
Record t := {
  l1 : AuthzCache.t C;
  l2 : bool;
  ttl : N;
  l2_hits : N;
  l2_misses : N;
  l2_errors : N;
}.
Definition new (l1 : AuthzCache.t C) (l2 : bool) (ttl : N) : t :=
  {| l1 := l1; l2 := l2; ttl := ttl; l2_hits := 0; l2_misses := 0; l2_errors := 0 |}.
Definition redis_key (key : string) : string := "forgeguard:authz:cache:" +:+ key.
Definition set_l1 (l1' : AuthzCache.t C) (c : t) : t :=
  {| l1 := l1'; l2 := l2 c; ttl := ttl c; l2_hits := l2_hits c; l2_misses := l2_misses c;
     l2_errors := l2_errors c |}.

(** The lookup up to the Redis call, and from its reply on. *)
Definition get_l1 (now : N) (key : string) (c : t) : option Decision.PolicyDecision * t :=
  let '(found, l1') := AuthzCache.get now key (l1 c) in (found, set_l1 l1' c).
Definition get_l2 (now : N) (key : string) (reply : result string (option string)) (c : t)
    : option Decision.PolicyDecision * t :=
  let errored := (None, {| l1 := l1 c; l2 := l2 c; ttl := ttl c; l2_hits := l2_hits c;
                           l2_misses := l2_misses c; l2_errors := bump (l2_errors c) |}) in
  match reply with
  | Ok (Some json) =>
      match from_str json with
      | Ok d =>
          (Some d, {| l1 := AuthzCache.insert now key d (l1 c); l2 := l2 c; ttl := ttl c;
                      l2_hits := bump (l2_hits c); l2_misses := l2_misses c;
                      l2_errors := l2_errors c |})
      | _ => errored
      end
  | Ok None => (None, {| l1 := l1 c; l2 := l2 c; ttl := ttl c; l2_hits := l2_hits c;
                         l2_misses := bump (l2_misses c); l2_errors := l2_errors c |})
  | _ => errored
  end.
(** The cache after an insert, and the write it spawns. *)
Definition insert (now : N) (key : string) (d : Decision.PolicyDecision) (c : t)
    : t * option SetEx :=
  let c := set_l1 (AuthzCache.insert now key d (l1 c)) c in
  (c, if l2 c then
        match to_string d with
        | Ok json => Some {| set_key := redis_key key; set_secs := (ttl c / 10 ^ 9) `max` 1;
                             set_value := json |}
        | _ => None
        end
      else None).
End cache.
Arguments t : clear implicits.
End TieredCache.

(** * The engine ([engine.rs]) *)
Module VpPolicyEngine.
Section engine.
Context {C : Type} `{Lru C CachedDecision}.
Context (to_string : Decision.PolicyDecision → result string string).

Definition deny_eval_error (msg : string) : Decision.PolicyDecision :=
  Decision.Deny (Decision.EvaluationError msg).
(** The decision for the service's reply: an SDK error denies. *)
Definition decision_of (reply : result string Vp.ServiceDecision) : Decision.PolicyDecision :=
  match reply with
  | Ok d => Vp.translate_vp_decision d
  | Err e | Stuck e => deny_eval_error e
  end.
(** From the reply on. *)
Definition call_vp (now : N) (key : string) (reply : result string Vp.ServiceDecision)
    (c : TieredCache.t C) : Decision.PolicyDecision * TieredCache.t C * option SetEx :=
  let d := decision_of reply in
  let '(c, write) := TieredCache.insert to_string now key d c in (d, c, write).

(** Where an evaluation waits: for Redis, for the service (with what it was
    asked), or nowhere. *)
Inductive progress :=
| AwaitRedis (key : string)
| AwaitService (key : string)
| Decided (d : Decision.PolicyDecision).
Definition evaluate (now : N) (query : PolicyQuery.t) (c : TieredCache.t C)
    : progress * TieredCache.t C :=
  match PolicyContext.tenant_id (PolicyQuery.context query) with
  | None => (Decided (deny_eval_error "no tenant_id in query context"), c)
  | Some _ =>
      let key := CacheKey.build_cache_key query in
      match TieredCache.get_l1 now key c with
      | (Some d, c) => (Decided d, c)
      | (None, c) => (if TieredCache.l2 c then AwaitRedis key else AwaitService key, c)
      end
  end.
Definition cache_stats (c : TieredCache.t C) : CacheStats :=
  let on (n : N) := if TieredCache.l2 c then Some n else None in
  {| hits := (AuthzCache.hits (TieredCache.l1 c) + TieredCache.l2_hits c) mod 2 ^ 64;
     misses := AuthzCache.misses (TieredCache.l1 c);
     l2_hits := on (TieredCache.l2_hits c); l2_misses := on (TieredCache.l2_misses c);
     l2_errors := on (TieredCache.l2_errors c) |}.
End engine.
End VpPolicyEngine.

(** * Instances that share Redis *)
Section world.
Context {C : Type} `{Lru C CachedDecision}.
Context (to_string : Decision.PolicyDecision → result string string).
Context (from_str : string → result string Decision.PolicyDecision).
Import VpPolicyEngine.

(** A write that reached Redis, when; and what the service sent back for a
    query, as it came off the wire, when. *)
Record Landed := { landed_write : SetEx; landed_at : N }.
Record Answer := { answer_query : PolicyQuery.t;
                   answer_reply : result string Vp.ServiceDecision; answer_at : N }.
(** An evaluation: its instance, its query, where it is, and since when. *)
Record Task := { task_instance : nat; task_query : PolicyQuery.t; task_progress : progress;
                 task_time : N }.
Record VpWorld := {
  clock : N;
  caches : list (TieredCache.t C);
  redis : list Landed;
  spawned : list SetEx;
  tasks : list Task;
  answers : list Answer;
}.

(** A key is served until it expires, and may be gone or unreachable before. *)
Definition redis_may_reply (w : VpWorld) (key : string) (reply : result string (option string))
    : Prop :=
  match reply with
  | Ok (Some json) => ∃ e, e ∈ redis w ∧ set_key (landed_write e) = key ∧
      set_value (landed_write e) = json ∧
      (clock w < landed_at e + set_secs (landed_write e) * 10 ^ 9)%N
  | _ => True
  end.

(** One step: time passes, an evaluation starts or gets the reply it waits for,
    a spawned write reaches Redis or is lost. *)
Inductive vp_step (w : VpWorld) : VpWorld → Prop :=
| step_tick d :
    vp_step w {| clock := clock w + d; caches := caches w; redis := redis w; spawned := spawned w;
                 tasks := tasks w; answers := answers w |}
| step_start i c query p c' :
    caches w !! i = Some c → evaluate (clock w) query c = (p, c') →
    vp_step w {| clock := clock w; caches := <[i := c']> (caches w); redis := redis w;
                 spawned := spawned w;
                 tasks := tasks w ++ [{| task_instance := i; task_query := query;
                                         task_progress := p; task_time := clock w |}];
                 answers := answers w |}
| step_redis n i query key t0 c reply found c' :
    tasks w !! n = Some {| task_instance := i; task_query := query;
                           task_progress := AwaitRedis key; task_time := t0 |} →
    caches w !! i = Some c → redis_may_reply w (TieredCache.redis_key key) reply →
    TieredCache.get_l2 from_str (clock w) key reply c = (found, c') →
    vp_step w {| clock := clock w; caches := <[i := c']> (caches w); redis := redis w;
                 spawned := spawned w;
                 tasks := <[n := {| task_instance := i; task_query := query;
                                    task_progress := match found with
                                                     | Some d => Decided d
                                                     | None => AwaitService key end;
                                    task_time := clock w |}]> (tasks w);
                 answers := answers w |}
| step_service n i query key t0 c reply d c' write :
    tasks w !! n = Some {| task_instance := i; task_query := query;
                           task_progress := AwaitService key; task_time := t0 |} →
    caches w !! i = Some c → call_vp to_string (clock w) key reply c = (d, c', write) →
    vp_step w {| clock := clock w; caches := <[i := c']> (caches w); redis := redis w;
                 spawned := spawned w ++ option_list write;
                 tasks := <[n := {| task_instance := i; task_query := query;
                                    task_progress := Decided d; task_time := clock w |}]> (tasks w);
                 answers := answers w ++ [{| answer_query := query; answer_reply := reply;
                                             answer_at := clock w |}] |}
| step_land x y s :
    spawned w = x ++ s :: y →
    vp_step w {| clock := clock w; caches := caches w;
                 redis := redis w ++ [{| landed_write := s; landed_at := clock w |}];
                 spawned := x ++ y; tasks := tasks w; answers := answers w |}
| step_lost x y s :
    spawned w = x ++ s :: y →
    vp_step w {| clock := clock w; caches := caches w; redis := redis w; spawned := x ++ y;
                 tasks := tasks w; answers := answers w |}.

(** [n] fresh instances, configured alike. *)
Definition vp_start (n entries : nat) (ttl : N) (l2 : bool) (now : N) : VpWorld := {|
  clock := now; caches := replicate n (TieredCache.new (AuthzCache.new ttl entries) l2 ttl);
  redis := []; spawned := []; tasks := []; answers := [] |}.
Definition vp_reachable (n entries : nat) (ttl : N) (l2 : bool) (now : N) (w : VpWorld) : Prop :=
  rtc vp_step (vp_start n entries ttl l2 now) w.
End world.

(** ** What a reply means *)
Module VpSpec.
(** The service permits, or it does not; a failed call denies, and says why. *)
Inductive means : result string Vp.ServiceDecision → Decision.PolicyDecision → Prop :=
| means_allow : means (Ok Vp.ServiceAllow) Decision.Allow
| means_deny : means (Ok Vp.ServiceDeny) (Decision.Deny Decision.NoMatchingPolicy)
| means_unknown v : means (Ok (Vp.ServiceUnknown v)) (Decision.Deny Decision.NoMatchingPolicy)
| means_failed e : means (Err e) (Decision.Deny (Decision.EvaluationError e))
| means_stuck e : means (Stuck e) (Decision.Deny (Decision.EvaluationError e)).
Lemma decision_of_means reply : means reply (VpPolicyEngine.decision_of reply).
Proof. destruct reply as [[| |v]|e|e]; constructor. Qed.
End VpSpec.

(** ** The invariant *)
Module VpFacts.
Section facts.
Context {C : Type} `{LruLaws C CachedDecision}.
Context (to_string : Decision.PolicyDecision → result string string).
Context (from_str : string → result string Decision.PolicyDecision).
Context (ttl : N) (l2 : bool).
Import VpPolicyEngine.

(** How long a write is kept. *)
Definition l2_ttl : N := ((ttl / 10 ^ 9) `max` 1 * 10 ^ 9)%N.
(** What a reply for a key means, and when the service gave it. *)
Definition answered (as_ : list Answer) (key : string) (d : Decision.PolicyDecision) (t0 : N)
    : Prop :=
  ∃ a, a ∈ as_ ∧ CacheKey.build_cache_key (answer_query a) = key ∧
       VpSpec.means (answer_reply a) d ∧ answer_at a = t0.
(** A write of an answered decision. *)
Definition write_of (as_ : list Answer) (s : SetEx) (key : string) (d : Decision.PolicyDecision)
    (t0 : N) : Prop :=
  answered as_ key d t0 ∧ set_key s = TieredCache.redis_key key ∧ to_string d = Ok (set_value s) ∧
  (set_secs s * 10 ^ 9 = l2_ttl)%N.
(** When an entry of the in-memory cache was made: with the answer, or from
    a write of it that Redis still held. *)
Definition entry_from (as_ : list Answer) (rs : list Landed) (key : string)
    (d : Decision.PolicyDecision) (t0 t : N) : Prop :=
  answered as_ key d t0 ∧
  (t = t0 ∨ (l2 = true ∧ ∃ e, e ∈ rs ∧ write_of as_ (landed_write e) key d t0 ∧
                (t0 ≤ landed_at e ∧ landed_at e ≤ t ∧ t < landed_at e + l2_ttl)%N)).
(** A decision served at [t]. *)
Definition served (as_ : list Answer) (rs : list Landed) (q : PolicyQuery.t)
    (d : Decision.PolicyDecision) (t : N) : Prop :=
  match PolicyContext.tenant_id (PolicyQuery.context q) with
  | None => d = deny_eval_error "no tenant_id in query context"
  | Some _ => ∃ t0 t', entry_from as_ rs (CacheKey.build_cache_key q) d t0 t' ∧
                (t' ≤ t)%N ∧ (t = t' ∨ t < t' + ttl)%N
  end.

(** A cache configured like the others, whose entries have an origin. *)
Definition cache_ok (as_ : list Answer) (rs : list Landed) (now : N) (c : TieredCache.t C) : Prop :=
  TieredCache.l2 c = l2 ∧ TieredCache.ttl c = ttl ∧ AuthzCache.ttl (TieredCache.l1 c) = ttl ∧
  ∀ key e, lru_peek (AuthzCache.inner (TieredCache.l1 c)) key = Some e →
    (inserted_at e ≤ now)%N ∧ ∃ t0, entry_from as_ rs key (decision e) t0 (inserted_at e).
Definition task_ok (as_ : list Answer) (rs : list Landed) (now : N) (t : Task) : Prop :=
  (task_time t ≤ now)%N ∧
  match task_progress t with
  | AwaitRedis key => l2 = true ∧ key = CacheKey.build_cache_key (task_query t) ∧
      is_Some (PolicyContext.tenant_id (PolicyQuery.context (task_query t)))
  | AwaitService key => key = CacheKey.build_cache_key (task_query t) ∧
      is_Some (PolicyContext.tenant_id (PolicyQuery.context (task_query t)))
  | Decided d => served as_ rs (task_query t) d (task_time t)
  end.
Record vp_inv (w : VpWorld) : Prop := {
  inv_answers a : a ∈ answers w → (answer_at a ≤ clock w)%N;
  inv_spawned s : s ∈ spawned w → ∃ key d t0, write_of (answers w) s key d t0;
  inv_redis e : e ∈ redis w → (landed_at e ≤ clock w)%N ∧
    ∃ key d t0, write_of (answers w) (landed_write e) key d t0 ∧ (t0 ≤ landed_at e)%N;
  inv_caches i c : caches w !! i = Some c → cache_ok (answers w) (redis w) (clock w) c;
  inv_tasks t : t ∈ tasks w → task_ok (answers w) (redis w) (clock w) t;
}.

Section grow.
Context (as_ as' : list Answer) (rs rs' : list Landed) (now now' : N).
Context (Has : as_ ⊆ as') (Hrs : rs ⊆ rs') (Hnow : (now ≤ now')%N).
Lemma answered_grow key d t0 : answered as_ key d t0 → answered as' key d t0.
Proof. intros (a & Ha & Hrest). exists a. auto. Qed.
Lemma write_of_grow s key d t0 : write_of as_ s key d t0 → write_of as' s key d t0.
Proof. intros (Ha & Hrest). split; [by apply answered_grow|done]. Qed.
Lemma entry_from_grow key d t0 t : entry_from as_ rs key d t0 t → entry_from as' rs' key d t0 t.
Proof.
  intros [Ha Ht]. split; [by apply answered_grow|].
  destruct Ht as [?|(? & e & He & Hw & ?)]; [by left|right]. split; [done|]. exists e.
  split_and!; [by apply Hrs|by apply write_of_grow|tauto..].
Qed.
Lemma served_grow q d t : served as_ rs q d t → served as' rs' q d t.
Proof.
  unfold served. destruct (PolicyContext.tenant_id _) as [tenant|]; [|done].
  intros (t0 & t' & He & Ht). exists t0, t'. split; [by apply entry_from_grow|done].
Qed.
Lemma cache_ok_grow c : cache_ok as_ rs now c → cache_ok as' rs' now' c.
Proof.
  intros (H1 & H2 & H3 & He). split_and!; [done..|]. intros key e (Ht & t0 & Hf)%He.
  split; [lia|]. exists t0. by apply entry_from_grow.
Qed.
Lemma task_ok_grow t : task_ok as_ rs now t → task_ok as' rs' now' t.
Proof.
  intros [Ht Hp]. split; [lia|]. destruct (task_progress t); [done..|]. by apply served_grow.
Qed.
End grow.

Section cache.
Context (as_ : list Answer) (rs : list Landed) (now : N).
Abbreviation ok := (cache_ok as_ rs now).
Abbreviation from := (entry_from as_ rs).

Lemma fresh_ok entries : ok (TieredCache.new (AuthzCache.new ttl entries) l2 ttl).
Proof. split_and!; [done..|]. intros key e. simpl. by rewrite lru_new_peek. Qed.
(** A new entry, made now. *)
Lemma insert_ok key d t0 c :
  ok c → from key d t0 now → ok (TieredCache.set_l1 (AuthzCache.insert now key d (TieredCache.l1 c)) c).
Proof.
  intros (H1 & H2 & H3 & He) Hf. split_and!; [done..|]. intros key' e. simpl.
  destruct (decide (key = key')) as [<-|Hne].
  - rewrite lru_put_value. intros [= <-]. simpl. split; [lia|]. by exists t0.
  - destruct (lru_put_other key {| decision := d; inserted_at := now |}
      (AuthzCache.inner (TieredCache.l1 c)) key' Hne) as [->| ->]; [apply He|done].
Qed.
(** A cache that differs in its counters only. *)
Lemma counters_ok c c' :
  TieredCache.l1 c' = TieredCache.l1 c → TieredCache.l2 c' = TieredCache.l2 c →
  TieredCache.ttl c' = TieredCache.ttl c → ok c → ok c'.
Proof. unfold cache_ok. intros -> -> ->. done. Qed.

Lemma get_l1_ok key c found c' :
  ok c → TieredCache.get_l1 now key c = (found, c') →
  ok c' ∧ ∀ d, found = Some d → ∃ t0 t', from key d t0 t' ∧ (t' ≤ now)%N ∧ (now < t' + ttl)%N.
Proof.
  intros (H1 & H2 & H3 & He). unfold TieredCache.get_l1, AuthzCache.get.
  destruct (lru_get key _) as [fnd inner'] eqn:Hg.
  pose proof (lru_get_value key (AuthzCache.inner (TieredCache.l1 c))) as Hv.
  pose proof (lru_get_keeps key (AuthzCache.inner (TieredCache.l1 c))) as Hk.
  rewrite Hg in Hv, Hk. simpl in Hv, Hk.
  destruct fnd as [e|]; [case_bool_decide as Ht|]; intros [= <- <-].
  - split.
    + split_and!; [done..|]. intros key' e'. simpl. rewrite Hk. apply He.
    + intros d [= <-]. destruct (He key e) as (Hle & t0 & Hf); [done|].
      exists t0, (inserted_at e). rewrite H3 in Ht. split_and!; [done|done|lia].
  - split; [|done]. split_and!; [done..|]. intros key' e'. simpl.
    destruct (decide (key = key')) as [<-|Hne]; [by rewrite lru_pop_value|].
    rewrite lru_pop_other by done. rewrite Hk. apply He.
  - split; [|done]. split_and!; [done..|]. intros key' e'. simpl. rewrite Hk. apply He.
Qed.
End cache.

Lemma elem_of_insert_inv {A} (l : list A) i x y : x ∈ <[i := y]> l → x = y ∨ x ∈ l.
Proof.
  intros [j Hj]%list_elem_of_lookup. apply list_lookup_insert_Some in Hj as [(_ & <- & _)|[_ Hj]].
  - by left.
  - right. by apply list_elem_of_lookup_2 in Hj.
Qed.
(** A step that replaces one cache and keeps the writes of the others. *)
Lemma caches_insert (w : VpWorld) as_ rs i c' :
  (∀ j c, caches w !! j = Some c → cache_ok as_ rs (clock w) c) → cache_ok as_ rs (clock w) c' →
  ∀ j c, <[i := c']> (caches w) !! j = Some c → cache_ok as_ rs (clock w) c.
Proof. intros Hall Hc' j c [(_ & <- & _)|[_ Hj]]%list_lookup_insert_Some; [done|by eapply Hall]. Qed.

(** What a reply from Redis brings. *)
Lemma reply_from (roundtrip : ∀ d json, to_string d = Ok json → from_str json = Ok d) w key json d :
  vp_inv w → l2 = true → redis_may_reply w (TieredCache.redis_key key) (Ok (Some json)) →
  from_str json = Ok d → ∃ t0, entry_from (answers w) (redis w) key d t0 (clock w).
Proof.
  intros Hinv Hl2 (e & He & Hkey & Hjson & Hexp) Hd.
  destruct (inv_redis w Hinv e He) as (Hle & key' & d' & t0 & Hw & Ht0).
  pose proof Hw as (Ha & Hk & Hto & Hsecs). rewrite Hk in Hkey.
  apply str_app_inj_l in Hkey as ->. apply roundtrip in Hto. rewrite Hjson, Hd in Hto.
  injection Hto as <-. exists t0. split; [done|]. right. split; [done|]. exists e.
  rewrite Hsecs in Hexp. done.
Qed.

Lemma start_inv n entries now : vp_inv (vp_start n entries ttl l2 now).
Proof.
  split; simpl; try (by intros ? ?%not_elem_of_nil).
  intros i c [-> _]%lookup_replicate. apply fresh_ok.
Qed.
Lemma tick_inv w d :
  vp_inv w → vp_inv {| clock := clock w + d; caches := caches w; redis := redis w;
                       spawned := spawned w; tasks := tasks w; answers := answers w |}.
Proof.
  intros [Ha Hs Hr Hc Ht]. split; simpl.
  - intros a Hin%Ha. lia.
  - exact Hs.
  - intros e (Hle & Hw)%Hr. split; [lia|done].
  - intros i c Hi%Hc. by eapply cache_ok_grow; [done|done| |exact Hi]; lia.
  - intros t Hin%Ht. by eapply task_ok_grow; [done|done| |exact Hin]; lia.
Qed.
Lemma begin_inv w i c q pr c' :
  vp_inv w → caches w !! i = Some c → evaluate (clock w) q c = (pr, c') →
  vp_inv {| clock := clock w; caches := <[i := c']> (caches w); redis := redis w;
            spawned := spawned w;
            tasks := tasks w ++ [{| task_instance := i; task_query := q;
                                    task_progress := pr; task_time := clock w |}];
            answers := answers w |}.
Proof.
  intros [Ha Hs Hr Hc Ht] Hi Hev. pose proof (Hc i c Hi) as Hok.
  assert (cache_ok (answers w) (redis w) (clock w) c' ∧
    task_ok (answers w) (redis w) (clock w)
      {| task_instance := i; task_query := q; task_progress := pr; task_time := clock w |})
    as [Hok' Htask].
  { unfold evaluate in Hev. destruct (PolicyContext.tenant_id _) as [tenant|] eqn:Hten.
    - destruct (TieredCache.get_l1 _ _ c) as [[d|] c1] eqn:Hg;
        destruct (get_l1_ok (answers w) (redis w) (clock w) _ c _ _ Hok Hg) as [Hc1 Hfound];
        simplify_eq; (split; [done|]).
      + split; [simpl; lia|]. simpl. unfold served. rewrite Hten.
        destruct (Hfound d eq_refl) as (t0 & t' & Hf & Hle & Hlt). exists t0, t'. auto.
      + split; [simpl; lia|]. simpl. pose proof Hc1 as [-> _].
        destruct l2; simpl; rewrite Hten; eauto.
    - simplify_eq. split; [done|]. split; [simpl; lia|]. simpl. unfold served. by rewrite Hten. }
  split; simpl; [done..| |].
  - by eapply caches_insert.
  - intros t [Hin| ->%list_elem_of_singleton]%elem_of_app; [by apply Ht|done].
Qed.
Lemma reply_inv (roundtrip : ∀ d json, to_string d = Ok json → from_str json = Ok d)
    w n i q key t0 c reply found c' :
  vp_inv w →
  tasks w !! n = Some {| task_instance := i; task_query := q;
                         task_progress := AwaitRedis key; task_time := t0 |} →
  caches w !! i = Some c → redis_may_reply w (TieredCache.redis_key key) reply →
  TieredCache.get_l2 from_str (clock w) key reply c = (found, c') →
  vp_inv {| clock := clock w; caches := <[i := c']> (caches w); redis := redis w;
            spawned := spawned w;
            tasks := <[n := {| task_instance := i; task_query := q;
                               task_progress := match found with
                                                | Some d => Decided d
                                                | None => AwaitService key end;
                               task_time := clock w |}]> (tasks w);
            answers := answers w |}.
Proof.
  intros Hinv Hn Hi Hreply Hget. pose proof Hinv as [Ha Hs Hr Hc Ht].
  apply list_elem_of_lookup_2, Ht in Hn as [_ (Hl2 & Hkey & [tenant Hten])]. simpl in *.
  pose proof (Hc i c Hi) as Hok.
  assert (cache_ok (answers w) (redis w) (clock w) c' ∧
    ∀ d, found = Some d → ∃ t0, entry_from (answers w) (redis w) key d t0 (clock w)) as [Hok' Hfound].
  { unfold TieredCache.get_l2 in Hget. destruct reply as [[json|]|e|e].
    - destruct (from_str json) as [d|e|e] eqn:Hd; injection Hget as <- <-.
      + destruct (reply_from roundtrip w key json d) as [t1 Hf]; [done..|]. split; [|naive_solver].
        eapply (counters_ok _ _ _ (TieredCache.set_l1
          (AuthzCache.insert (clock w) key d (TieredCache.l1 c)) c)); [done..|].
        by eapply insert_ok.
      + split; [|done]. by eapply (counters_ok _ _ _ c).
      + split; [|done]. by eapply (counters_ok _ _ _ c).
    - injection Hget as <- <-. split; [|done]. by eapply (counters_ok _ _ _ c).
    - injection Hget as <- <-. split; [|done]. by eapply (counters_ok _ _ _ c).
    - injection Hget as <- <-. split; [|done]. by eapply (counters_ok _ _ _ c). }
  split; simpl; [done..| |].
  - by eapply caches_insert.
  - intros t [->|Hin]%elem_of_insert_inv; [|by apply Ht]. split; [simpl; lia|]. simpl.
    destruct found as [d|]; [|eauto]. unfold served. rewrite Hten, <-Hkey.
    destruct (Hfound d eq_refl) as [t1 Hf]. exists t1, (clock w). split_and!; [done|lia|by left].
Qed.
Lemma service_inv w n i q key t0 c reply d c' write :
  vp_inv w →
  tasks w !! n = Some {| task_instance := i; task_query := q;
                         task_progress := AwaitService key; task_time := t0 |} →
  caches w !! i = Some c → call_vp to_string (clock w) key reply c = (d, c', write) →
  vp_inv {| clock := clock w; caches := <[i := c']> (caches w); redis := redis w;
            spawned := spawned w ++ option_list write;
            tasks := <[n := {| task_instance := i; task_query := q;
                               task_progress := Decided d; task_time := clock w |}]> (tasks w);
            answers := answers w ++ [{| answer_query := q; answer_reply := reply;
                                        answer_at := clock w |}] |}.
Proof.
  intros [Ha Hs Hr Hc Ht] Hn Hi Hcall.
  apply list_elem_of_lookup_2, Ht in Hn as [_ (Hkey & [tenant Hten])]. simpl in *.
  set (as' := answers w ++ _). assert (answers w ⊆ as') as Has by set_solver.
  assert (answered as' key d (clock w)) as Hnow.
  { eexists. split; [apply elem_of_app; right; left|]. split_and!; [done| |done].
    unfold call_vp in Hcall. destruct (TieredCache.insert _ _ _ _ _). injection Hcall as <- _ _.
    apply VpSpec.decision_of_means. }
  assert (entry_from as' (redis w) key d (clock w) (clock w)) as Hfrom by (split; auto).
  assert (cache_ok as' (redis w) (clock w) c) as Hok.
  { eapply cache_ok_grow; [exact Has|done|reflexivity|by eapply Hc]. }
  unfold call_vp, TieredCache.insert in Hcall. injection Hcall as Hd Hc' Hwrite. rewrite Hd in *.
  split; simpl.
  - intros a [Hin%Ha| ->%list_elem_of_singleton]%elem_of_app; [lia|]. simpl. lia.
  - intros s [(k & d1 & t1 & Hw)%Hs|Hin]%elem_of_app.
    + exists k, d1, t1. by eapply write_of_grow.
    + exists key, d, (clock w). subst write. pose proof Hok as (_ & Httl & _).
      destruct (TieredCache.l2 c); [|by apply not_elem_of_nil in Hin].
      destruct (to_string d) as [json| |] eqn:Hto; [|by apply not_elem_of_nil in Hin..].
      apply list_elem_of_singleton in Hin as ->. split_and!; [done..|]. simpl. by rewrite Httl.
  - intros e (Hle & k & d1 & t1 & Hw & Ht1)%Hr. split; [done|]. exists k, d1, t1.
    split; [by eapply write_of_grow|done].
  - apply caches_insert.
    + intros j c1 Hj%Hc. eapply cache_ok_grow; [exact Has|done|reflexivity|done].
    + subst c'. by eapply insert_ok.
  - intros t [->|Hin%Ht]%elem_of_insert_inv.
    + split; [simpl; lia|]. simpl. unfold served. rewrite Hten, <-Hkey.
      exists (clock w), (clock w). split_and!; [done|lia|by left].
    + eapply task_ok_grow; [exact Has|done|reflexivity|done].
Qed.
Lemma land_inv w x y s :
  vp_inv w → spawned w = x ++ s :: y →
  vp_inv {| clock := clock w; caches := caches w;
            redis := redis w ++ [{| landed_write := s; landed_at := clock w |}];
            spawned := x ++ y; tasks := tasks w; answers := answers w |}.
Proof.
  intros [Ha Hs Hr Hc Ht] Hsp. set (rs' := redis w ++ _).
  assert (redis w ⊆ rs') as Hrs by set_solver. split; simpl.
  - done.
  - intros s' Hin. apply Hs. rewrite Hsp. set_solver.
  - intros e [Hin%Hr| ->%list_elem_of_singleton]%elem_of_app; [done|]. simpl. split; [lia|].
    destruct (Hs s) as (k & d & t0 & Hw); [rewrite Hsp; set_solver|]. exists k, d, t0.
    split; [done|]. destruct Hw as ((a & Hin & _ & _ & <-) & _). by apply Ha.
  - intros i c Hi%Hc. by eapply cache_ok_grow; [done|exact Hrs|reflexivity|].
  - intros t Hin%Ht. by eapply task_ok_grow; [done|exact Hrs|reflexivity|].
Qed.
Lemma lost_inv w x y s :
  vp_inv w → spawned w = x ++ s :: y →
  vp_inv {| clock := clock w; caches := caches w; redis := redis w; spawned := x ++ y;
            tasks := tasks w; answers := answers w |}.
Proof.
  intros [Ha Hs Hr Hc Ht] Hsp. split; simpl; [done| |done..].
  intros s' Hin. apply Hs. rewrite Hsp. set_solver.
Qed.

Lemma step_inv (roundtrip : ∀ d json, to_string d = Ok json → from_str json = Ok d) w w' :
  vp_step to_string from_str w w' → vp_inv w → vp_inv w'.
Proof.
  intros [] Hinv; eauto using tick_inv, begin_inv, reply_inv, service_inv, land_inv, lost_inv.
Qed.
Lemma reachable_inv (roundtrip : ∀ d json, to_string d = Ok json → from_str json = Ok d)
    n entries now w :
  vp_reachable to_string from_str n entries ttl l2 now w → vp_inv w.
Proof.
  intros Hr. pose proof (start_inv n entries now) as Hinv.
  induction Hr; eauto using step_inv.
Qed.
End facts.
End VpFacts.

(** C23: a cached decision is a reply of the service, and not older than the two
    lifetimes.  However many evaluations run in however many instances that
    share Redis, with whatever failures, evictions and delays: the decision an
    evaluation with a tenant returns is what one reply of the service, to a
    query with the same key, means.  It is [Allow] exactly when the service
    itself replied that it permits; any other reply denies, and so does a call
    that failed, with the failure as the reason.  The reply came then and there,
    or within the lifetime of an in-memory entry before, which was itself made
    with the reply or, when there is a Redis, from a write of it no older than
    the lifetime of the write.  Without a tenant the evaluation denies. *)
Theorem cached_decisions_fresh {C : Type} `{LruLaws C CachedDecision}
    (to_string : Decision.PolicyDecision → result string string)
    (from_str : string → result string Decision.PolicyDecision)
    (ttl : N) (l2 : bool) n entries now (w : VpWorld (C := C)) t d :
  (∀ d json, to_string d = Ok json → from_str json = Ok d) →
  vp_reachable to_string from_str n entries ttl l2 now w →
  t ∈ tasks w → task_progress t = VpPolicyEngine.Decided d →
  match PolicyContext.tenant_id (PolicyQuery.context (task_query t)) with
  | None => Decision.is_denied d = true
  | Some _ => ∃ a, a ∈ answers w ∧
      (d = Decision.Allow ↔ answer_reply a = Ok Vp.ServiceAllow) ∧
      (∀ e, answer_reply a = Err e → d = Decision.Deny (Decision.EvaluationError e)) ∧
      CacheKey.build_cache_key (answer_query a) = CacheKey.build_cache_key (task_query t) ∧
      (answer_at a ≤ task_time t)%N ∧
      ((task_time t = answer_at a ∨ task_time t < answer_at a + ttl)%N ∨
       (l2 = true ∧ ∃ e, e ∈ redis w ∧
          (answer_at a ≤ landed_at e ∧
           task_time t < landed_at e + (ttl / 10 ^ 9) `max` 1 * 10 ^ 9 + ttl)%N))
  end.
Proof.
  intros Hrt Hr Hin Hd. apply VpFacts.reachable_inv in Hr; [|done].
  destruct (VpFacts.inv_tasks _ _ _ _ Hr t Hin) as [_ Htask]. rewrite Hd in Htask.
  unfold VpFacts.served in Htask.
  destruct (PolicyContext.tenant_id _) as [tenant|]; [|by subst d].
  destruct Htask as (t0 & t' & [(a & Ha & Hk & Had & Hat) Hor] & Hle & Hlt).
  exists a. split_and!; [done|by destruct Had|by destruct Had; try done; intros ? [= ->]|done| |].
  - destruct Hor as [?|(_ & e & _ & _ & ?)]; lia.
  - destruct Hor as [->|(Hl2 & e & He & _ & Hland)]; [left; lia|right]. split; [done|].
    exists e. split; [done|]. unfold VpFacts.l2_ttl in Hland. lia.
Qed.

(** * An LRU map *)
Module ListLru.
(** Most recently used first, with a capacity. *)
Record t (V : Type) := { capacity : nat; entries : list (string * V) }.
Arguments capacity {V} _. Arguments entries {V} _.
Definition find {V} (l : list (string * V)) (k : string) : option V :=
  snd <$> List.find (λ kv, bool_decide (kv.1 = k)) l.
Definition drop_key {V} (k : string) (l : list (string * V)) : list (string * V) :=
  filter (λ kv, kv.1 ≠ k) l.
#[global] Instance list_lru {V} : Lru (t V) V := {|
  lru_new n := {| capacity := n; entries := [] |};
  lru_get k c := match find (entries c) k with
                 | Some v => (Some v, {| capacity := capacity c;
                                         entries := (k, v) :: drop_key k (entries c) |})
                 | None => (None, c)
                 end;
  lru_put k v c := {| capacity := capacity c;
                      entries := (k, v) :: take (pred (capacity c)) (drop_key k (entries c)) |};
  lru_pop k c := {| capacity := capacity c; entries := drop_key k (entries c) |};
|}.

Lemma find_cons {V} k (v : V) l k' :
  find ((k, v) :: l) k' = if bool_decide (k = k') then Some v else find l k'.
Proof. unfold find. simpl. by case_bool_decide. Qed.
Lemma find_drop {V} k (l : list (string * V)) k' :
  find (drop_key k l) k' = if bool_decide (k = k') then None else find l k'.
Proof.
  induction l as [|[x v] l IH].
  - unfold find. simpl. by case_bool_decide.
  - unfold drop_key in *. rewrite filter_cons. simpl. destruct (decide (x ≠ k)) as [Hx|Hx].
    + rewrite !find_cons, IH. repeat case_bool_decide; congruence.
    + apply dec_stable in Hx as ->. rewrite IH, find_cons. by case_bool_decide.
Qed.
Lemma find_take {V} n (l : list (string * V)) k : find (take n l) k = find l k ∨ find (take n l) k = None.
Proof.
  revert n. induction l as [|[x v] l IH]; intros [|n]; simpl; [by left|by left|by right|].
  rewrite !find_cons. case_bool_decide; [by left|apply IH].
Qed.
#[global] Program Instance list_lru_laws {V} : LruLaws (t V) V :=
  {| lru_peek c k := find (entries c) k |}.
Next Obligation. done. Qed.
Next Obligation. intros V k c. simpl. by destruct (find (entries c) k). Qed.
Next Obligation.
  intros V k c k'. simpl. destruct (find (entries c) k) as [v|] eqn:Hk; [|done]. simpl.
  rewrite find_cons, find_drop. case_bool_decide; congruence.
Qed.
Next Obligation. intros. simpl. rewrite find_cons. by case_bool_decide. Qed.
Next Obligation.
  intros V k v c k' Hne. simpl. rewrite find_cons. rewrite bool_decide_eq_false_2 by done.
  destruct (find_take (pred (capacity c)) (drop_key k (entries c)) k') as [Hf|Hf]; [|by right].
  left. rewrite Hf, find_drop. by rewrite bool_decide_eq_false_2.
Qed.
Next Obligation. intros. simpl. rewrite find_drop. by case_bool_decide. Qed.
Next Obligation. intros. simpl. rewrite find_drop. by rewrite bool_decide_eq_false_2. Qed.
End ListLru.

(** * Samples *)
Module VpSample.
Import ListLru VpPolicyEngine.
Definition seg (k : id_kind) (s : string) : Id.t k := Id.mk (Segment.mk s).
Definition ns (s : string) : Namespace.t := Namespace.User (Segment.mk s).
Definition act : QualifiedAction.t :=
  QualifiedAction.mk (ns "todo") (Action.mk (Segment.mk "read")) (Entity.mk (Segment.mk "list")).
Definition doc : ResourceRef.t := ResourceRef.from_route act (ResourceId.mk (Segment.mk "initech")).
Definition query (r : ResourceRef.t) (groups : list GroupName) : PolicyQuery.t :=
  PolicyQuery.new (PrincipalRef.new (seg UserIdK "ann")) act (Some r)
    (PolicyContext.with_tenant (seg TenantIdK "acme")
       (PolicyContext.with_groups groups PolicyContext.new)).
Definition ops : GroupName := seg GroupNameK "ops".
Definition dev : GroupName := seg GroupNameK "dev".
Lemma query_ok r groups : KeyFacts.resource_wf r → Forall Id.wf groups → KeyFacts.key_wf (query r groups).
Proof.
  intros Hr Hg. split; [reflexivity|split_and!; [left; reflexivity|reflexivity..]| | |done].
  - intros r' [= <-]. done.
  - intros t [= <-]. reflexivity.
Qed.
Lemma doc_ok : KeyFacts.resource_wf doc.
Proof. split_and!; [left; reflexivity|reflexivity..]. Qed.

(** Decisions as text. *)
Definition to_string (d : Decision.PolicyDecision) : result string string :=
  match d with
  | Decision.Allow => Ok "a"
  | Decision.Deny Decision.NoMatchingPolicy => Ok "n"
  | Decision.Deny (Decision.ExplicitDeny p) => Ok ("p" +:+ p)
  | Decision.Deny (Decision.EvaluationError e) => Ok ("e" +:+ e)
  end.
Definition from_str (s : string) : result string Decision.PolicyDecision :=
  match s with
  | String "a" EmptyString => Ok Decision.Allow
  | String "n" EmptyString => Ok (Decision.Deny Decision.NoMatchingPolicy)
  | String "p" p => Ok (Decision.Deny (Decision.ExplicitDeny p))
  | String "e" e => Ok (Decision.Deny (Decision.EvaluationError e))
  | _ => Err "decision"
  end.
Lemma roundtrip d json : to_string d = Ok json → from_str json = Ok d.
Proof. destruct d as [|[| |]]; intros [= <-]; reflexivity. Qed.
End VpSample.

(** An evaluation asks the service; its answer reaches Redis, and another
    instance serves it. *)
Module VpRun.
Import ListLru VpPolicyEngine VpSample.
Abbreviation world := (VpWorld (C := ListLru.t CachedDecision)).
Inductive event := Tick (d : N) | Start (i : nat) (q : PolicyQuery.t) | Redis (n : nat)
| Service (n : nat) (reply : result string Vp.ServiceDecision) | Land.
(** The text of a key in Redis, if it is there. *)
Definition stored (w : world) (key : string) : option string :=
  (λ e, set_value (landed_write e)) <$>
  List.find (λ e, bool_decide (set_key (landed_write e) = key) &&
                  bool_decide (clock w < landed_at e + set_secs (landed_write e) * 10 ^ 9)%N) (redis w).
Definition next (w : world) (ev : event) : option world :=
  match ev with
  | Tick d => Some {| clock := clock w + d; caches := caches w; redis := redis w;
                      spawned := spawned w; tasks := tasks w; answers := answers w |}
  | Start i q =>
      c ← caches w !! i;
      let '(p, c') := evaluate (clock w) q c in
      Some {| clock := clock w; caches := <[i := c']> (caches w); redis := redis w;
              spawned := spawned w;
              tasks := tasks w ++ [{| task_instance := i; task_query := q;
                                      task_progress := p; task_time := clock w |}];
              answers := answers w |}
  | Redis n =>
      match tasks w !! n with
      | Some {| task_instance := i; task_query := q; task_progress := AwaitRedis key |} =>
          c ← caches w !! i;
          let '(found, c') := TieredCache.get_l2 from_str (clock w) key
                                (Ok (stored w (TieredCache.redis_key key))) c in
          Some {| clock := clock w; caches := <[i := c']> (caches w); redis := redis w;
                  spawned := spawned w;
                  tasks := <[n := {| task_instance := i; task_query := q;
                                     task_progress := match found with
                                                      | Some d => Decided d
                                                      | None => AwaitService key end;
                                     task_time := clock w |}]> (tasks w);
                  answers := answers w |}
      | _ => None
      end
  | Service n reply =>
      match tasks w !! n with
      | Some {| task_instance := i; task_query := q; task_progress := AwaitService key |} =>
          c ← caches w !! i;
          let '(d, c', write) := call_vp to_string (clock w) key reply c in
          Some {| clock := clock w; caches := <[i := c']> (caches w); redis := redis w;
                  spawned := spawned w ++ option_list write;
                  tasks := <[n := {| task_instance := i; task_query := q;
                                     task_progress := Decided d; task_time := clock w |}]> (tasks w);
                  answers := answers w ++ [{| answer_query := q; answer_reply := reply;
                                              answer_at := clock w |}] |}
      | _ => None
      end
  | Land =>
      match spawned w with
      | s :: rest => Some {| clock := clock w; caches := caches w;
                             redis := redis w ++ [{| landed_write := s; landed_at := clock w |}];
                             spawned := rest; tasks := tasks w; answers := answers w |}
      | [] => None
      end
  end.
Fixpoint run (w : world) (evs : list event) : option world :=
  match evs with [] => Some w | ev :: evs => w' ← next w ev; run w' evs end.

Lemma stored_replies w key : redis_may_reply w key (Ok (stored w key)).
Proof.
  unfold stored. destruct (List.find _ _) as [e|] eqn:Hf; [|done]. simpl.
  apply find_some in Hf as [Hin Hb]. bool_prop. exists e. split; [by apply list_elem_of_In|done].
Qed.
Lemma next_step w ev w' : next w ev = Some w' → vp_step to_string from_str w w'.
Proof.
  destruct ev as [d|i q|n|n reply|]; unfold next.
  - intros [= <-]. apply step_tick.
  - destruct (caches w !! i) as [c|] eqn:Hc; [|done]. cbn [mbind option_bind].
    destruct (evaluate _ _ c) as [p c'] eqn:He. intros [= <-]. by eapply step_start.
  - destruct (tasks w !! n) as [[i q [key| |] t0]|] eqn:Hn; try done.
    destruct (caches w !! i) as [c|] eqn:Hc; [|done]. cbn [mbind option_bind].
    destruct (TieredCache.get_l2 from_str _ _ _ c) as [found c'] eqn:Hg. intros [= <-].
    eapply step_redis; [done|done|apply stored_replies|done].
  - destruct (tasks w !! n) as [[i q [|key|] t0]|] eqn:Hn; try done.
    destruct (caches w !! i) as [c|] eqn:Hc; [|done]. cbn [mbind option_bind].
    destruct (call_vp _ _ _ _ c) as [[d c'] write] eqn:Hcall. intros [= <-]. by eapply step_service.
  - destruct (spawned w) as [|s rest] eqn:Hs; [done|]. intros [= <-].
    by apply (step_land _ _ _ [] rest).
Qed.
Lemma run_reachable w evs w' : run w evs = Some w' → rtc (vp_step to_string from_str) w w'.
Proof.
  revert w. induction evs as [|ev evs IH]; intros w; simpl; [by intros [= <-]|].
  destruct (next w ev) as [w1|] eqn:Hn; [|done]. simpl. intros Hr.
  eapply rtc_l; [by eapply next_step|auto].
Qed.

Definition ttl : N := 60000000000.
Definition q : PolicyQuery.t := query doc [ops].
(** The second instance serves the answer 100 seconds after it was made. *)
Definition events : list event :=
  [Start 0 q; Redis 0; Service 0 (Ok Vp.ServiceAllow); Tick 1; Land; Tick 50000000000;
   Start 1 q; Redis 1; Tick 50000000000; Start 1 q].
Definition final : option world := run (vp_start 2 10 ttl true 5) events.
Lemma final_served :
  (w ← final; (λ t, (task_progress t, task_time t)) <$> last (tasks w)) =
  Some (Decided Decision.Allow, 100000000006%N).
Proof. vm_compute. reflexivity. Qed.
End VpRun.

Lemma cached_decisions_fresh_witness :
  ∃ w t a, VpRun.final = Some w ∧ t ∈ tasks w ∧
    task_progress t = VpPolicyEngine.Decided Decision.Allow ∧
    a ∈ answers w ∧ answer_reply a = Ok Vp.ServiceAllow.
Proof.
  pose proof VpRun.final_served as Hs. destruct VpRun.final as [w|] eqn:Hf; [|discriminate Hs].
  cbn [mbind option_bind] in Hs. destruct (last (tasks w)) as [t|] eqn:Hl; [|discriminate Hs].
  injection Hs as Hp Ht. apply last_Some in Hl as [rest Hrest].
  assert (t ∈ tasks w) as Hin by (rewrite Hrest; apply elem_of_app; right; left).
  pose proof (cached_decisions_fresh VpSample.to_string VpSample.from_str VpRun.ttl true 2 10 5 w t
    Decision.Allow VpSample.roundtrip (VpRun.run_reachable _ _ _ Hf) Hin Hp) as H.
  destruct (PolicyContext.tenant_id _) as [tenant|]; [|discriminate H].
  destruct H as (a & Ha & Hd & _). exists w, t, a.
  split; [reflexivity|]. split; [exact Hin|]. split; [exact Hp|]. split; [exact Ha|].
  apply (proj1 Hd). reflexivity.
Defined.

Lemma cache_key_exact_witness :
  CacheKey.build_cache_key (VpSample.query VpSample.doc [VpSample.ops; VpSample.dev]) =
  CacheKey.build_cache_key (VpSample.query VpSample.doc [VpSample.dev; VpSample.ops]).
Proof.
  apply (cache_key_exact _ _ (VpSample.seg TenantIdK "acme") (VpSample.seg TenantIdK "acme"));
    [apply VpSample.query_ok; [apply VpSample.doc_ok|by repeat constructor]..|done|done|].
  split_and!; [done..|]. apply perm_swap.
Defined.

Lemma cache_key_determines_request_witness :
  RequestFacts.same_request
    (RequestFacts.asked (VpSample.seg ProjectIdK "todo")
       (VpSample.query VpSample.doc [VpSample.ops; VpSample.dev]) (VpSample.seg TenantIdK "acme"))
    (RequestFacts.asked (VpSample.seg ProjectIdK "todo")
       (VpSample.query VpSample.doc [VpSample.dev; VpSample.ops]) (VpSample.seg TenantIdK "acme")).
Proof.
  apply cache_key_determines_request;
    [apply VpSample.query_ok; [apply VpSample.doc_ok|by repeat constructor]..|done|done| |done].
  vm_compute. reflexivity.
Defined.

(** the key does not say who owns the resource.  Two routes for the same
    action and resource, one of which takes the owner from the resource and the
    other from the request, give queries with the same key for which the
    service is sent different owners. *)
Theorem cache_key_conflates_owners :
  let q := VpSample.query VpSample.doc [] in
  let q' := VpSample.query (ResourceRef.scoped_by_own_id VpSample.doc) [] in
  let entities x := Vp.build_vp_entities (PolicyQuery.principal x) [] (PolicyQuery.resource x)
                      (VpSample.seg ProjectIdK "todo") (VpSample.seg TenantIdK "acme") in
  CacheKey.build_cache_key q = CacheKey.build_cache_key q' ∧
  Vp.attributes <$> last (entities q) = Some [("org_id", "acme")] ∧
  Vp.attributes <$> last (entities q') = Some [("org_id", "initech")].
Proof. split_and!; vm_compute; reflexivity. Qed.
