(* ===== verification/Dfs.v ===== *)
(** The depth-first cycle search that the sources use on group nesting
    ([crates/core/src/cedar/compile.rs], [crates/http/src/validate.rs]): a
    visited set and the set of nodes on the stack, an edge to a node on the
    stack being a cycle.  [collect] reports every such edge and goes on,
    [fail_fast] stops at the first.  Both are proved to decide acyclicity, and
    to agree. *)

From S2P Require Import Prelude.

Abbreviation graph := (gmap string (list string)).
Definition edge (adjacency : graph) (x y : string) : Prop :=
  ∃ ys, adjacency !! x = Some ys ∧ y ∈ ys.
Definition acyclic (adjacency : graph) : Prop := ∀ x, ¬ tc (edge adjacency) x x.

Module Dfs.
Section dfs.
Context (adjacency : graph).
Definition neighbors (node : string) : list string := default [] (adjacency !! node).

(** What a search returns: the visited set, the stack and the back edges. *)
Abbreviation outcome := (gset string * gset string * list (string * string))%type.

(** ** Collecting *)
Fixpoint collect_loop (visit : string → gset string → gset string → result Empty_set outcome)
    (node : string) (ns : list string) (visited in_stack : gset string) : result Empty_set outcome :=
  match ns with
  | [] => Ok (visited, in_stack, [])
  | neighbor :: ns =>
      if bool_decide (neighbor ∈ in_stack) then
        '(visited, in_stack, errors) ← collect_loop visit node ns visited in_stack;
        Ok (visited, in_stack, (node, neighbor) :: errors)
      else if negb (bool_decide (neighbor ∈ visited)) then
        '(visited, in_stack, errors) ← visit neighbor visited in_stack;
        '(visited, in_stack, errors') ← collect_loop visit node ns visited in_stack;
        Ok (visited, in_stack, errors ++ errors')
      else collect_loop visit node ns visited in_stack
  end.
Fixpoint collect (fuel : nat) (node : string) (visited in_stack : gset string)
    : result Empty_set outcome :=
  match fuel with
  | 0 => Stuck "dfs_cycle_check: recursion bound"
  | S fuel =>
      '(visited, in_stack, errors) ←
        collect_loop (collect fuel) node (neighbors node) ({[node]} ∪ visited) ({[node]} ∪ in_stack);
      Ok (visited, in_stack ∖ {[node]}, errors)
  end.
Fixpoint collect_all (fuel : nat) (names : list string) (visited in_stack : gset string)
    : result Empty_set outcome :=
  match names with
  | [] => Ok (visited, in_stack, [])
  | name :: names =>
      if negb (bool_decide (name ∈ visited)) then
        '(visited, in_stack, errors) ← collect fuel name visited in_stack;
        '(visited, in_stack, errors') ← collect_all fuel names visited in_stack;
        Ok (visited, in_stack, errors ++ errors')
      else collect_all fuel names visited in_stack
  end.

(** ** Stopping at the first *)
Section fail_fast.
Context {E : Type} (cycle : string → string → E).
Fixpoint fail_fast_loop
    (visit : string → gset string → gset string → result E (gset string * gset string))
    (node : string) (ns : list string) (visited in_stack : gset string)
    : result E (gset string * gset string) :=
  match ns with
  | [] => Ok (visited, in_stack)
  | neighbor :: ns =>
      if bool_decide (neighbor ∈ in_stack) then Err (cycle node neighbor)
      else
        '(visited, in_stack) ← (if negb (bool_decide (neighbor ∈ visited))
                                then visit neighbor visited in_stack
                                else Ok (visited, in_stack));
        fail_fast_loop visit node ns visited in_stack
  end.
Fixpoint fail_fast (fuel : nat) (node : string) (visited in_stack : gset string)
    : result E (gset string * gset string) :=
  match fuel with
  | 0 => Stuck "dfs_cycle_check: recursion bound"
  | S fuel =>
      '(visited, in_stack) ←
        fail_fast_loop (fail_fast fuel) node (neighbors node) ({[node]} ∪ visited)
          ({[node]} ∪ in_stack);
      Ok (visited, in_stack ∖ {[node]})
  end.
Fixpoint fail_fast_all (fuel : nat) (names : list string) (visited in_stack : gset string)
    : result E (gset string * gset string) :=
  match names with
  | [] => Ok (visited, in_stack)
  | name :: names =>
      '(visited, in_stack) ← (if negb (bool_decide (name ∈ visited))
                              then fail_fast fuel name visited in_stack
                              else Ok (visited, in_stack));
      fail_fast_all fuel names visited in_stack
  end.
End fail_fast.

(** A bound on the depth of the search: the names that occur. *)
Definition names_of : gset string :=
  dom adjacency ∪ list_to_set (concat ((map_to_list adjacency).*2)).
Definition bound : nat := size names_of.

(** ** Correctness *)
Abbreviation edge := (edge adjacency).
Lemma edge_neighbors x y : edge x y ↔ y ∈ neighbors x.
Proof.
  unfold neighbors, Dfs.edge. destruct (adjacency !! x) as [ys|]; simpl; [naive_solver|].
  split; [naive_solver|]. by intros ?%not_elem_of_nil.
Qed.
Lemma neighbors_in_names x y : y ∈ neighbors x → y ∈ names_of.
Proof.
  intros Hy. unfold neighbors in Hy. destruct (adjacency !! x) as [ys|] eqn:Hx; [|by apply not_elem_of_nil in Hy].
  simpl in Hy. apply elem_of_union_r, elem_of_list_to_set. apply list_elem_of_In, in_concat.
  exists ys. split; apply list_elem_of_In; [|done]. apply list_elem_of_fmap. exists (x, ys).
  split; [done|]. by apply elem_of_map_to_list.
Qed.

Lemma tc_step x z : tc edge x z → ∃ y, edge x y ∧ rtc edge y z.
Proof. destruct 1 as [x y Hy|x y z Hy Hz]; exists y; eauto using tc_rtc, rtc_refl. Qed.

(** The finished nodes are closed under edges and on no cycle. *)
Definition finished (visited in_stack : gset string) : Prop :=
  ∀ x, x ∈ visited → x ∉ in_stack →
    (∀ y, edge x y → y ∈ visited ∧ y ∉ in_stack) ∧ ¬ tc edge x x.
(** A reported edge closes a cycle. *)
Definition back_edge (xy : string * string) : Prop := edge xy.1 xy.2 ∧ rtc edge xy.2 xy.1.

(** What a search from a state with this stack promises. *)
Record searched (visited in_stack : gset string) (o : outcome) : Prop := {
  s_visited : visited ⊆ o.1.1;
  s_names : visited ⊆ names_of → o.1.1 ⊆ names_of;
  s_stack : o.1.2 = in_stack;
  s_sound : Forall back_edge o.2;
  s_finished : o.2 = [] → finished visited in_stack → finished o.1.1 in_stack;
}.
Definition visits (fuel : nat) : Prop := ∀ node visited in_stack,
  node ∈ names_of → node ∉ visited → in_stack ⊆ visited → visited ⊆ names_of →
  size (names_of ∖ visited) ≤ fuel → (∀ s, s ∈ in_stack → rtc edge s node) →
  ∃ o, collect fuel node visited in_stack = Ok o ∧ searched visited in_stack o ∧ node ∈ o.1.1.

Lemma collect_loop_ok fuel node ns visited in_stack :
  visits fuel → (∀ n, n ∈ ns → edge node n) → in_stack ⊆ visited → visited ⊆ names_of →
  size (names_of ∖ visited) ≤ fuel → (∀ s, s ∈ in_stack → rtc edge s node) →
  ∃ o, collect_loop (collect fuel) node ns visited in_stack = Ok o ∧ searched visited in_stack o ∧
    (o.2 = [] → ∀ n, n ∈ ns → n ∈ o.1.1 ∧ n ∉ in_stack).
Proof.
  intros Hvisits. revert visited. induction ns as [|n ns IH]; intros visited Hns Hst Hnm Hsz Hpath.
  { eexists. split; [done|]. split; [by split|]. intros _ n ?%not_elem_of_nil. done. }
  assert (edge node n) as Hn by (apply Hns; left).
  assert (∀ m, m ∈ ns → edge node m) as Hns' by (intros; apply Hns; by right).
  simpl. case_bool_decide as Hin; [|case_bool_decide as Hv; simpl].
  - destruct (IH visited) as ([[v s] e] & -> & [H1 H2 H3 H4 H5] & H6); [done..|]. simpl in *.
    eexists. split; [done|]. split; [|done]. split; simpl; [done..| |done].
    constructor; [|done]. split; [done|]. by apply Hpath.
  - destruct (IH visited) as (o & -> & Ho & H6); [done..|]. eexists. split; [done|].
    split; [done|]. intros He m [->|Hm]%elem_of_cons; [|by apply H6].
    split; [|done]. by apply (s_visited _ _ _ Ho).
  - destruct (Hvisits n visited in_stack) as ([[v s] e] & -> & [H1 H2 H3 H4 H5] & Hnv); try done.
    { apply (neighbors_in_names node). by apply edge_neighbors. }
    { intros s Hs. eapply rtc_r; [by apply Hpath|done]. }
    simpl in *. subst s.
    destruct (IH v) as ([[v' s'] e'] & -> & [G1 G2 G3 G4 G5] & G6); [done|set_solver|auto| |done|].
    { transitivity (size (names_of ∖ visited)); [|done]. apply subseteq_size. set_solver. }
    simpl in *. subst s'. eexists. split; [done|]. split; [split|]; simpl.
    + set_solver.
    + auto.
    + done.
    + by apply Forall_app.
    + intros [-> ->]%app_nil. auto.
    + intros [-> ->]%app_nil m [->|Hm]%elem_of_cons; [|by apply G6]. split; [set_solver|done].
Qed.

Lemma finished_close visited in_stack node :
  finished visited ({[node]} ∪ in_stack) → node ∉ in_stack →
  (∀ n, edge node n → n ∈ visited ∧ n ∉ {[node]} ∪ in_stack) → finished visited in_stack.
Proof.
  intros Hf Hns Hnode. assert (∀ x y, rtc edge x y → x ∈ visited → x ∉ {[node]} ∪ in_stack →
    y ∈ visited ∧ y ∉ {[node]} ∪ in_stack) as Hclosed.
  { induction 1 as [|x y z Hxy _ IH]; [done|]. intros Hx Hxs.
    destruct (Hf x Hx Hxs) as [Hsucc _]. apply IH; by apply Hsucc. }
  intros x Hx Hxs. destruct (decide (x = node)) as [->|Hne].
  - split; [set_solver|]. intros Hcyc. apply tc_step in Hcyc as (y & Hy & Hyx).
    destruct (Hnode y Hy) as [Hyv Hys]. destruct (Hclosed y node Hyx Hyv Hys). set_solver.
  - destruct (Hf x Hx) as [Hsucc Hac]; [set_solver|]. split; [|done]. set_solver.
Qed.

Lemma collect_visits fuel : visits fuel.
Proof.
  induction fuel as [|fuel IH]; intros node visited in_stack Hn Hnv Hst Hnm Hsz Hpath.
  { assert (names_of ∖ visited ≡ ∅) as Hempty by (apply size_empty_iff; lia). set_solver. }
  simpl.
  destruct (collect_loop_ok fuel node (neighbors node) ({[node]} ∪ visited) ({[node]} ∪ in_stack))
    as ([[v s] e] & -> & [H1 H2 H3 H4 H5] & H6); simpl in *.
  - done.
  - intros n. by rewrite edge_neighbors.
  - set_solver.
  - set_solver.
  - assert (size (names_of ∖ ({[node]} ∪ visited)) < size (names_of ∖ visited)); [|lia].
    apply subset_size. set_solver.
  - intros x [->%elem_of_singleton|Hx]%elem_of_union; [reflexivity|auto].
  - subst s. eexists. split; [done|]. simpl. split; [split; simpl|set_solver].
    + set_solver.
    + intros _. apply H2. set_solver.
    + set_solver.
    + done.
    + intros -> Hf. apply (finished_close _ _ node); [|set_solver|].
      * apply H5; [done|]. intros x Hx Hxs. destruct (Hf x) as [Hsucc Hac]; [set_solver..|].
        split; [|done]. intros y Hy. destruct (Hsucc y Hy). split; [set_solver|].
        assert (y ≠ node) by set_solver. set_solver.
      * intros n Hn'%edge_neighbors. by apply H6.
Qed.

Lemma collect_all_ok fuel names visited :
  size (names_of) ≤ fuel → list_to_set names ⊆ names_of → visited ⊆ names_of →
  ∃ o, collect_all fuel names visited ∅ = Ok o ∧ searched visited ∅ o ∧
    list_to_set names ⊆ o.1.1.
Proof.
  intros Hfuel. revert visited. induction names as [|n names IH]; intros visited Hnames Hnm; simpl in *.
  { eexists. split; [done|]. split; [by split|set_solver]. }
  case_bool_decide as Hv; simpl.
  - destruct (IH visited) as (o & -> & Ho & Hin); [set_solver|done|]. eexists. split; [done|].
    split; [done|]. pose proof (s_visited _ _ _ Ho). set_solver.
  - destruct (collect_visits fuel n visited ∅) as ([[v s] e] & -> & [H1 H2 H3 H4 H5] & Hnv);
      [set_solver|done|set_solver|done| |set_solver|].
    { transitivity (size names_of); [apply subseteq_size; set_solver|done]. }
    simpl in *. subst s.
    destruct (IH v) as ([[v' s'] e'] & -> & [G1 G2 G3 G4 G5] & Hin); [set_solver|auto|].
    simpl in *. subst s'. eexists. split; [done|]. simpl. split; [split; simpl|set_solver].
    + set_solver.
    + auto.
    + done.
    + by apply Forall_app.
    + intros [-> ->]%app_nil. auto.
Qed.

Lemma collect_all_decides fuel names :
  bound ≤ fuel → (∀ x, x ∈ names ↔ x ∈ dom adjacency) →
  ∃ visited in_stack errors,
    collect_all fuel names ∅ ∅ = Ok (visited, in_stack, errors) ∧
    Forall back_edge errors ∧ (errors = [] ↔ acyclic adjacency).
Proof.
  intros Hfuel Hnames.
  destruct (collect_all_ok fuel names ∅) as ([[v s] e] & -> & [H1 H2 H3 H4 H5] & Hin);
    [done| |set_solver|].
  { intros x. rewrite elem_of_list_to_set, Hnames. set_solver. }
  simpl in *. exists v, s, e. split_and!; [done..|]. split.
  - intros -> x Hx. pose proof Hx as (y & (ys & Hy & _) & _)%tc_step.
    destruct (H5 eq_refl) with x as [_ Hac]; [set_solver| |set_solver|done].
    apply Hin, elem_of_list_to_set, Hnames, elem_of_dom. eauto.
  - intros Hac. destruct e as [|[x y] e]; [done|]. exfalso. apply (Hac x).
    apply Forall_cons in H4 as [[Hxy Hyx] _]. simpl in *.
    eapply tc_rtc_r; [by apply tc_once|done].
Qed.

(** The two searches agree, up to the first cycle. *)
Section agree.
Context {E : Type} (cycle : string → string → E).
Definition agrees (c : result Empty_set outcome) (f : result E (gset string * gset string)) : Prop :=
  match c with
  | Ok (v, s, []) => f = Ok (v, s)
  | Ok (_, _, (x, y) :: _) => f = Err (cycle x y)
  | _ => True
  end.
Lemma fail_fast_loop_agrees (cv : string → gset string → gset string → result Empty_set outcome) fv
    node ns visited in_stack :
  (∀ n v s, agrees (cv n v s) (fv n v s)) →
  agrees (collect_loop cv node ns visited in_stack) (fail_fast_loop cycle fv node ns visited in_stack).
Proof.
  intros Hv. revert visited in_stack. induction ns as [|n ns IH]; intros v s; simpl; [done|].
  case_bool_decide as Hin.
  { by destruct (collect_loop cv node ns v s) as [[[? ?] ?]| |]. }
  case_bool_decide as Hvis; simpl; [apply IH|].
  specialize (Hv n v s). destruct (cv n v s) as [[[v1 s1] [|[x y] e]]| |]; simpl in *; [|..|done|done].
  - rewrite Hv. simpl. specialize (IH v1 s1).
    by destruct (collect_loop cv node ns v1 s1) as [[[? ?] ?]| |].
  - rewrite Hv. by destruct (collect_loop cv node ns v1 s1) as [[[? ?] ?]| |].
Qed.
Lemma fail_fast_agrees fuel node visited in_stack :
  agrees (collect fuel node visited in_stack) (fail_fast cycle fuel node visited in_stack).
Proof.
  revert node visited in_stack. induction fuel as [|fuel IH]; intros node v s; simpl; [done|].
  pose proof (fail_fast_loop_agrees (collect fuel) (fail_fast cycle fuel) node (neighbors node)
    ({[node]} ∪ v) ({[node]} ∪ s) IH) as Hl.
  destruct (collect_loop _ _ _ _ _) as [[[v1 s1] [|[x y] e]]| |]; simpl in *; [..|done|done];
    by rewrite Hl.
Qed.
Lemma fail_fast_all_agrees fuel names visited in_stack :
  agrees (collect_all fuel names visited in_stack) (fail_fast_all cycle fuel names visited in_stack).
Proof.
  revert visited in_stack. induction names as [|n names IH]; intros v s; simpl; [done|].
  case_bool_decide as Hin; simpl; [apply IH|].
  pose proof (fail_fast_agrees fuel n v s) as Hv.
  destruct (collect fuel n v s) as [[[v1 s1] [|[x y] e]]| |]; simpl in *; [|..|done|done].
  - rewrite Hv. simpl. specialize (IH v1 s1).
    by destruct (collect_all fuel names v1 s1) as [[[? ?] ?]| |].
  - rewrite Hv. by destruct (collect_all fuel names v1 s1) as [[[? ?] ?]| |].
Qed.
End agree.
End dfs.
End Dfs.
