(* ===== verification/Policies.v ===== *)
(** Declared policies: the permission model of [crates/core/src/permission.rs],
    its compilation to Cedar ([cedar/compile.rs]) and to a Cedar schema
    ([cedar/schema.rs]), and the validation of a proxy configuration that
    declares them ([crates/http/src/validate.rs]). *)

From stdpp Require Import pretty.
From S2P Require Import Prelude RustStr Ident Event Rbac Action Features Http Cors Dfs.

(** [split] on a string; every piece is a step of the fuel. *)
Fixpoint split_str_loop (fuel : nat) (p s : string) : list string :=
  match fuel with
  | 0 => [s]
  | S fuel => match split_once_str p s with
              | Some (x, rest) => x :: split_str_loop fuel p rest
              | None => [s]
              end
  end.
Definition split_str (p s : string) : list string := split_str_loop (S (String.length s)) p s.
Definition quoted (s : string) : string := String Rbac.quote (s +:+ String Rbac.quote EmptyString).

(** * The permission model *)
Module Permission.
Inductive Effect := Allow | Deny.
#[global] Instance Effect_eq_dec : EqDecision Effect.
Proof. solve_decision. Defined.

Inductive PatternSegment := Exact (s : Segment.t) | Wildcard.
Definition segment_matches (p : PatternSegment) (s : Segment.t) : bool :=
  match p with Wildcard => true | Exact x => bool_decide (x = s) end.

Record ActionPattern := {
  pat_namespace : PatternSegment;
  pat_action : PatternSegment;
  pat_entity : PatternSegment;
}.
Definition parse_pattern_segment (s : string) : result Error.t PatternSegment :=
  if bool_decide (s = "*") then Ok Wildcard else Exact <$> Segment.try_new s.
Definition parse (s : string) : result Error.t ActionPattern :=
  match RustStr.splitn 4 ":" s with
  | [ns; entity; action] =>
      namespace ← parse_pattern_segment ns;
      action ← parse_pattern_segment action;
      entity ← parse_pattern_segment entity;
      Ok {| pat_namespace := namespace; pat_action := action; pat_entity := entity |}
  | _ => Err (Error.Parse "action_pattern" s
           "expected namespace:entity:action (e.g., 'todo:list:read' or 'todo:*:*')")
  end.
Definition matches (p : ActionPattern) (a : QualifiedAction.t) : bool :=
  segment_matches (pat_namespace p) (Namespace.as_segment (QualifiedAction.namespace a)) &&
  segment_matches (pat_action p) (Action.as_segment (QualifiedAction.action a)) &&
  segment_matches (pat_entity p) (Entity.as_segment (QualifiedAction.entity a)).

Record CedarEntityRef := {
  ref_namespace : Segment.t;
  ref_entity : Segment.t;
  ref_id : Segment.t;
}.
Definition ref_parse (s : string) : result Error.t CedarEntityRef :=
  match split_str "::" s with
  | [ns; entity; id] =>
      ns ← Segment.try_new ns;
      entity ← Segment.try_new entity;
      id ← Segment.try_new id;
      Ok {| ref_namespace := ns; ref_entity := entity; ref_id := id |}
  | _ => Err (Error.Parse "cedar_entity_ref" s
           "expected namespace::entity::id (e.g., 'todo::list::top-secret')")
  end.
Definition as_cedar_str (r : CedarEntityRef) : string :=
  Segment.as_str (ref_namespace r) +:+ "::" +:+ Segment.as_str (ref_entity r) +:+ "::" +:+
  Segment.as_str (ref_id r).

Inductive ResourceConstraint := All | Specific (refs : list CedarEntityRef).
(** A constraint is read from a list; an empty one constrains nothing. *)
Definition constraint_of (refs : list CedarEntityRef) : ResourceConstraint :=
  match refs with [] => All | _ => Specific refs end.

Record PolicyStatement := {
  effect : Effect;
  actions : list ActionPattern;
  resources : ResourceConstraint;
  except : list GroupName;
}.
Record Policy := {
  policy_name : Id.t PolicyNameK;
  policy_description : option string;
  statements : list PolicyStatement;
  policy_groups : list GroupName;
}.
Record GroupDefinition := {
  group_name : GroupName;
  group_description : option string;
  member_groups : list GroupName;
}.
End Permission.

(** * Compilation to Cedar *)
Module Compile.
Import Permission.
(** [Stuck]: the [unreachable!] on a wildcard. *)
Definition exact_segment (p : PatternSegment) : result Error.t Segment.t :=
  match p with Exact s => Ok s | Wildcard => Stuck "exact_segment called on wildcard" end.
Definition exact_str (p : PatternSegment) : result Error.t string :=
  match p with Exact s => Ok (Segment.as_str s) | Wildcard => Stuck "exact_str called on wildcard" end.
Definition is_all_exact (p : ActionPattern) : bool :=
  match pat_namespace p, pat_action p, pat_entity p with
  | Exact _, Exact _, Exact _ => true
  | _, _, _ => false
  end.

Definition action_ref (ns : CedarNamespace.t) (id : string) : string :=
  CedarNamespace.as_str ns +:+ "::Action::" +:+ quoted id.
(** The loop over the patterns: the references, and whether one is a wildcard. *)
Fixpoint action_loop (ns : CedarNamespace.t) (actions : list ActionPattern)
    : result Error.t (list string * bool) :=
  match actions with
  | [] => Ok ([], false)
  | ap :: actions =>
      if is_all_exact ap then
        n ← exact_str (pat_namespace ap);
        entity ← exact_str (pat_entity ap);
        act ← exact_str (pat_action ap);
        '(refs, has_wildcard) ← action_loop ns actions;
        Ok (action_ref ns (n +:+ "-" +:+ entity +:+ "-" +:+ act) :: refs, has_wildcard)
      else
        '(refs, _) ← action_loop ns actions;
        Ok (refs, true)
  end.
Definition build_action_clause (actions : list ActionPattern) (ns : CedarNamespace.t)
    : result Error.t string :=
  '(cedar_actions, has_wildcard) ← action_loop ns actions;
  Ok (match (has_wildcard : bool), cedar_actions with
      | true, _ | _, [] => "action"
      | false, _ => "action in [" +:+ RustStr.join ", " cedar_actions +:+ "]"
      end).

Definition resource_ref (ns : CedarNamespace.t) (r : CedarEntityRef) : string :=
  CedarNamespace.as_str ns +:+ "::" +:+
  CedarEntityType.as_str (CedarEntityType.new_from_segments (ref_namespace r) (ref_entity r)) +:+
  "::" +:+ quoted (Segment.as_str (ref_id r)).
Definition build_resource_clause (constraint : ResourceConstraint) (ns : CedarNamespace.t) : string :=
  match constraint with
  | All => "resource"
  | Specific [r] => "resource == " +:+ resource_ref ns r
  | Specific refs => "resource in [" +:+ RustStr.join ", " (resource_ref ns <$> refs) +:+ "]"
  end.
Definition group_clause (ns : CedarNamespace.t) (g : GroupName) : string :=
  "principal in " +:+ CedarNamespace.as_str ns +:+ "::Group::" +:+ quoted (Id.as_str g).
Definition build_unless_clause (stmt : PolicyStatement) (ns : CedarNamespace.t) : string :=
  match except stmt, effect stmt with
  | [], _ | _, Allow => EmptyString
  | groups, Deny =>
      " unless {" +:+ Rbac.nl +:+ "  " +:+ RustStr.join " || " (group_clause ns <$> groups) +:+
      Rbac.nl +:+ "}"
  end.
Definition statement_text (ns : CedarNamespace.t) (scope : option GroupName) (stmt : PolicyStatement)
    (action_clause : string) : string :=
  let keyword := match effect stmt with Allow => "permit" | Deny => "forbid" end in
  let principal_clause := match scope with Some g => group_clause ns g | None => "principal" end in
  keyword +:+ "(" +:+ Rbac.nl +:+ "  " +:+ principal_clause +:+ "," +:+ Rbac.nl +:+ "  " +:+
  action_clause +:+ "," +:+ Rbac.nl +:+ "  " +:+ build_resource_clause (resources stmt) ns +:+
  Rbac.nl +:+ ")" +:+ build_unless_clause stmt ns +:+ ";".
Definition compile_policy_to_cedar (policy : Policy) (scope : option GroupName) (project : ProjectId)
    : result Error.t (list string) :=
  let ns := CedarNamespace.from_project project in
  mapM (λ stmt, action_clause ← build_action_clause (actions stmt) ns;
                Ok (statement_text ns scope stmt action_clause)) (statements policy).

(** ** Group nesting *)
Definition adjacency (groups : list GroupDefinition) : graph :=
  list_to_map (reverse ((λ g, (Id.as_str (group_name g), Id.as_str <$> member_groups g)) <$> groups)).
Definition circular (node neighbor : string) : Error.t :=
  Error.Config ("circular group nesting detected: '" +:+ node +:+ "' -> '" +:+ neighbor +:+ "'").
Definition group_strs (groups : list GroupDefinition) : list string :=
  (λ g, Id.as_str (group_name g)) <$> groups.
Definition detect_circular_nesting (groups : list GroupDefinition) : result Error.t () :=
  let adj := adjacency groups in
  _ ← Dfs.fail_fast_all adj circular (Dfs.bound adj) (group_strs groups) ∅ ∅; Ok ().

Definition undefined_group (policy : Policy) (g : GroupName) : Error.t :=
  Error.Config ("policy '" +:+ Id.as_str (policy_name policy) +:+ "' references undefined group '" +:+
                Id.as_str g +:+ "'").
Definition compile_all_to_cedar (policies : list Policy) (groups : list GroupDefinition)
    (project : ProjectId) : result Error.t (list string) :=
  let group_names : gset string := list_to_set (group_strs groups) in
  _ ← for_each (λ policy, for_each (λ g,
         if negb (bool_decide (Id.as_str g ∈ group_names)) then Err (undefined_group policy g)
         else Ok ()) (policy_groups policy)) policies;
  _ ← detect_circular_nesting groups;
  out ← mapM (λ policy, match policy_groups policy with
                        | [] => compile_policy_to_cedar policy None project
                        | gs => texts ← mapM (λ g, compile_policy_to_cedar policy (Some g) project) gs;
                                Ok (concat texts)
                        end) policies;
  Ok (concat out).
End Compile.

(** * The Cedar schema *)
Module Schema.
Import Permission Compile.
Inductive CedarAttributeType := StringT | Long | Boolean.
Definition as_cedar_type (t : CedarAttributeType) : string :=
  match t with StringT => "String" | Long => "Long" | Boolean => "Boolean" end.
Definition try_from (s : string) : result Error.t CedarAttributeType :=
  if bool_decide (s = "String") then Ok StringT
  else if bool_decide (s = "Long") then Ok Long
  else if bool_decide (s = "Boolean") then Ok Boolean
  else Err (Error.Parse "attribute type" s "must be one of: String, Long, Boolean").
Record EntitySchemaConfig := {
  member_of : list string;
  attributes : gmap string CedarAttributeType;
}.

(** The entity types, and the types each action applies to. *)
Abbreviation collected := (gset string * gmap string (gset string))%type.
Definition add_action (entity_type action_id : string) (c : collected) : collected :=
  ({[entity_type]} ∪ c.1, <[action_id := {[entity_type]} ∪ default ∅ (c.2 !! action_id)]> c.2).
Definition add_pattern (c : collected) (ap : ActionPattern) : result Error.t collected :=
  if is_all_exact ap then
    ns_seg ← exact_segment (pat_namespace ap);
    entity_seg ← exact_segment (pat_entity ap);
    act ← exact_str (pat_action ap);
    Ok (add_action
      (CedarIdent.as_str (Segment.to_cedar_ident ns_seg) +:+ "__" +:+
       CedarIdent.as_str (Segment.to_cedar_ident entity_seg))
      (Segment.as_str ns_seg +:+ "-" +:+ Segment.as_str entity_seg +:+ "-" +:+ act) c)
  else Ok c.
Definition add_qualified (c : collected) (qa : QualifiedAction.t) : collected :=
  add_action
    (CedarIdent.as_str (Segment.to_cedar_ident (Namespace.as_segment (QualifiedAction.namespace qa)))
     +:+ "__" +:+
     CedarIdent.as_str (Segment.to_cedar_ident (Entity.as_segment (QualifiedAction.entity qa))))
    (QualifiedAction.vp_action_id qa) c.
(** The patterns of all statements, in order. *)
Definition patterns_of (policies : list Policy) : list ActionPattern :=
  p ← policies; s ← statements p; actions s.
Fixpoint add_patterns (c : collected) (aps : list ActionPattern) : result Error.t collected :=
  match aps with [] => Ok c | ap :: aps => c ← add_pattern c ap; add_patterns c aps end.

Definition strings (l : list string) : Json.t := Json.Array (Json.String <$> l).
Definition build_entity_type_value (entity_name : string) (default_member_of : option (list string))
    (entity_config : option (gmap string EntitySchemaConfig)) : Json.t :=
  let config := entity_config ≫= (λ c, c !! entity_name) in
  let member_of_set : gset string :=
    list_to_set (default [] default_member_of) ∪
    list_to_set (default [] (member_of <$> config)) in
  let attrs := default ∅ (attributes <$> config) in
  Json.object
    ((if bool_decide (member_of_set = ∅) then []
      else [("memberOfTypes", strings (btree_iter String.compare member_of_set))]) ++
     (if bool_decide (attrs = ∅) then []
      else [("shape", Json.object
              [("type", Json.String "Record");
               ("attributes", Json.object
                 ((λ '(k, t), (k, Json.object [("type", Json.String (as_cedar_type t))])) <$>
                    map_to_list attrs))])])).
Definition schema_value (c : collected) (ns : string)
    (entity_config : option (gmap string EntitySchemaConfig)) : Json.t :=
  let entity_types :=
    ("User", build_entity_type_value "User" (Some ["Group"]) entity_config) ::
    ("Group", build_entity_type_value "Group" None entity_config) ::
    ((λ et, (et, build_entity_type_value et None entity_config)) <$>
       btree_iter String.compare c.1) in
  let actions :=
    (λ '(action_id, resource_types),
       (action_id, Json.object [("appliesTo", Json.object
          [("principalTypes", strings ["User"; "Group"]);
           ("resourceTypes", strings (btree_iter String.compare resource_types))])])) <$>
    map_to_list c.2 in
  Json.object [(ns, Json.object [("entityTypes", Json.object entity_types);
                                 ("actions", Json.object actions)])].
Definition generate_cedar_schema (to_string_pretty : Json.t → string) (policies : list Policy)
    (acts : list QualifiedAction.t) (project : ProjectId)
    (entity_config : option (gmap string EntitySchemaConfig)) : result Error.t string :=
  c ← add_patterns (∅, ∅) (patterns_of policies);
  let c := foldl add_qualified c acts in
  Ok (to_string_pretty
        (schema_value c (CedarNamespace.as_str (CedarNamespace.from_project project)) entity_config)).
End Schema.

(** * Validation of a configuration *)
Module Validate.
Import Permission.
(** The fields the checks read. *)
Record ProxyConfig := {
  routes : list Route.RouteMapping;
  public_routes : list Route.PublicRoute;
  features : Features.FlagConfig;
  policies : list Policy;
  groups : list GroupDefinition;
}.
Record ValidationWarning := { warning_message : string; warning_path : string }.

Definition route_key (method : HttpMethod.t) (path_pattern : string) : string :=
  HttpMethod.to_string method +:+ " " +:+ path_pattern.
Definition key_of (r : Route.RouteMapping) : string :=
  route_key (Route.method r) (Route.path_pattern r).
(** [base[i]] and [base[i].suffix]. *)
Definition at_index (base : string) (i : nat) (suffix : string) : string :=
  base +:+ "[" +:+ pretty (N.of_nat i) +:+ "]" +:+ suffix.

Fixpoint check_duplicate_routes (i : nat) (seen : gset string) (rs : list Route.RouteMapping)
    : list ValidationError.t :=
  match rs with
  | [] => []
  | r :: rs =>
      let key := key_of r in
      (if bool_decide (key ∈ seen)
       then [ValidationError.new ValidationError.DuplicateRoute (key +:+ " is already defined")
               (at_index "routes" i EmptyString)]
       else []) ++ check_duplicate_routes (S i) ({[key]} ∪ seen) rs
  end.
Definition check_feature_gates (c : ProxyConfig) : list ValidationError.t :=
  concat (imap (λ i r, match Route.feature_gate r with
    | Some gate =>
        if negb (bool_decide (gate ∈ (Features.flags (features c)).*1))
        then [ValidationError.new ValidationError.UndefinedFeatureGate
                ("flag '" +:+ FlagName.to_string gate +:+ "' is not defined in features")
                (at_index "routes" i ".feature_gate")]
        else []
    | None => []
    end) (routes c)).
Definition group_names (c : ProxyConfig) : gset string := list_to_set (Compile.group_strs (groups c)).
Definition check_policy_group_references (c : ProxyConfig) : list ValidationError.t :=
  concat (imap (λ i policy, concat (imap (λ j group_ref,
    if negb (bool_decide (Id.as_str group_ref ∈ group_names c))
    then [ValidationError.new ValidationError.InvalidPolicyReference
            ("policy '" +:+ Id.as_str (policy_name policy) +:+ "' references undefined group '" +:+
             Id.as_str group_ref +:+ "'")
            (at_index "policies" i (at_index ".groups" j EmptyString))]
    else []) (policy_groups policy))) (policies c)).
Definition check_group_references (c : ProxyConfig) : list ValidationError.t :=
  concat (imap (λ i group, concat (imap (λ j member,
    if negb (bool_decide (Id.as_str member ∈ group_names c))
    then [ValidationError.new ValidationError.InvalidGroupReference
            ("member group '" +:+ Id.as_str member +:+ "' referenced by group '" +:+
             Id.as_str (group_name group) +:+ "' does not exist")
            (at_index "groups" i (at_index ".member_groups" j EmptyString))]
    else []) (member_groups group))) (groups c)).
Definition circular_error (edge : string * string) : ValidationError.t :=
  ValidationError.new ValidationError.CircularGroupNesting
    ("circular group nesting detected: '" +:+ edge.1 +:+ "' -> '" +:+ edge.2 +:+ "'")
    ("groups[" +:+ edge.1 +:+ "].member_groups").
Definition check_circular_group_nesting (c : ProxyConfig)
    : result Empty_set (list ValidationError.t) :=
  match groups c with
  | [] => Ok []
  | gs =>
      let adj := Compile.adjacency gs in
      o ← Dfs.collect_all adj (Dfs.bound adj) (Compile.group_strs gs) ∅ ∅;
      Ok (List.map circular_error o.2)
  end.
Definition check_public_route_overlap (c : ProxyConfig) : list ValidationWarning :=
  let auth_routes : gset string := list_to_set (key_of <$> routes c) in
  concat (imap (λ i pr,
    let key := route_key (Route.p_method pr) (Route.p_path_pattern pr) in
    if bool_decide (key ∈ auth_routes)
    then [{| warning_message := "public route " +:+ key +:+
               " also has an auth route — public route takes precedence";
             warning_path := at_index "public_routes" i EmptyString |}]
    else []) (public_routes c)).
(** [check_cors_config] adds nothing. *)
Definition validate (c : ProxyConfig)
    : result Empty_set (list ValidationError.t * list ValidationWarning) :=
  circular ← check_circular_group_nesting c;
  Ok (check_duplicate_routes 0 ∅ (routes c) ++ check_feature_gates c ++
      check_policy_group_references c ++ check_group_references c ++ circular,
      check_public_route_overlap c).
End Validate.

(** * Facts *)
Module PolicyFacts.
Import Permission Compile.

(** What an action clause ranges over. *)
Inductive ActionScope := AnyAction | ActionIn (ids : list string).
Definition exact_id (ap : ActionPattern) : option string :=
  match pat_namespace ap, pat_entity ap, pat_action ap with
  | Exact n, Exact e, Exact a =>
      Some (Segment.as_str n +:+ "-" +:+ Segment.as_str e +:+ "-" +:+ Segment.as_str a)
  | _, _, _ => None
  end.
Definition scope_of (actions : list ActionPattern) : ActionScope :=
  if forallb is_all_exact actions then
    match actions with [] => AnyAction | _ => ActionIn (omap exact_id actions) end
  else AnyAction.
Definition scope_text (ns : CedarNamespace.t) (scope : ActionScope) : string :=
  match scope with
  | AnyAction => "action"
  | ActionIn ids => "action in [" +:+ RustStr.join ", " (action_ref ns <$> ids) +:+ "]"
  end.
Definition in_scope (scope : ActionScope) (a : QualifiedAction.t) : Prop :=
  match scope with AnyAction => True | ActionIn ids => QualifiedAction.vp_action_id a ∈ ids end.

Lemma all_exact_id ap : is_all_exact ap = true ↔ is_Some (exact_id ap).
Proof.
  unfold is_all_exact, exact_id.
  destruct (pat_namespace ap), (pat_action ap), (pat_entity ap); split; intros; by eauto || inv H.
Qed.
Lemma action_loop_spec ns actions :
  action_loop ns actions =
  Ok (action_ref ns <$> omap exact_id actions, negb (forallb is_all_exact actions)).
Proof.
  induction actions as [|ap actions IH]; [done|]. cbn [action_loop omap list_omap forallb].
  unfold is_all_exact, exact_id.
  destruct (pat_namespace ap), (pat_action ap), (pat_entity ap); cbn; rewrite IH; done.
Qed.
Lemma build_action_clause_spec ns actions :
  build_action_clause actions ns = Ok (scope_text ns (scope_of actions)).
Proof.
  unfold build_action_clause, scope_of. rewrite action_loop_spec. simpl.
  destruct (forallb is_all_exact actions) eqn:Hall; [|done]. simpl.
  destruct actions as [|ap actions]; [done|]. simpl in *. apply andb_true_iff in Hall as [Hap _].
  apply all_exact_id in Hap as [id Hid]. by rewrite Hid.
Qed.
Lemma matches_exact ap a id :
  matches ap a = true → exact_id ap = Some id → id = QualifiedAction.vp_action_id a.
Proof.
  unfold matches, exact_id. destruct (pat_namespace ap), (pat_entity ap), (pat_action ap); try done.
  simpl. intros ? [= <-]. bool_prop. by subst.
Qed.

(** The texts of a policy, in the order they are emitted. *)
Definition scopes (p : Policy) : list (option GroupName) :=
  match policy_groups p with [] => [None] | gs => Some <$> gs end.
Definition policy_texts (ns : CedarNamespace.t) (p : Policy) (scope : option GroupName)
    : list string :=
  (λ stmt, statement_text ns scope stmt (scope_text ns (scope_of (actions stmt)))) <$> statements p.
Definition all_texts (ns : CedarNamespace.t) (policies : list Policy) : list string :=
  p ← policies; scope ← scopes p; policy_texts ns p scope.

Lemma mapM_total {E A B} (f : A → result E B) (g : A → B) l :
  (∀ x, f x = Ok (g x)) → mapM f l = Ok (g <$> l).
Proof. intros Hf. induction l as [|x l IH]; [done|]. simpl. by rewrite Hf, IH. Qed.
Lemma compile_policy_spec p scope project :
  compile_policy_to_cedar p scope project =
  Ok (policy_texts (CedarNamespace.from_project project) p scope).
Proof.
  unfold compile_policy_to_cedar. apply mapM_total. intros stmt.
  by rewrite build_action_clause_spec.
Qed.
Lemma compile_policies_spec policies project :
  mapM (λ policy, match policy_groups policy with
                  | [] => compile_policy_to_cedar policy None project
                  | gs => texts ← mapM (λ g, compile_policy_to_cedar policy (Some g) project) gs;
                          Ok (concat texts)
                  end) policies =
  Ok ((λ p, scope ← scopes p; policy_texts (CedarNamespace.from_project project) p scope) <$> policies).
Proof.
  apply mapM_total. intros p. unfold scopes. destruct (policy_groups p) as [|g gs].
  - rewrite compile_policy_spec. simpl. by rewrite app_nil_r.
  - rewrite (mapM_total _ (λ g, policy_texts (CedarNamespace.from_project project) p (Some g)))
      by (intros; apply compile_policy_spec).
    simpl. do 2 f_equal. induction gs as [|h gs IH]; [done|]. simpl. by rewrite IH.
Qed.

(** The nodes of the nesting graph are the groups. *)
Lemma adjacency_names groups x : x ∈ group_strs groups ↔ x ∈ dom (adjacency groups).
Proof.
  unfold adjacency, group_strs. rewrite dom_list_to_map, elem_of_list_to_set, !list_elem_of_fmap.
  split.
  - intros (g & -> & Hg). exists (Id.as_str (group_name g), Id.as_str <$> member_groups g).
    split; [done|]. apply elem_of_reverse, list_elem_of_fmap. eauto.
  - intros ([y ys] & -> & Hin). apply elem_of_reverse, list_elem_of_fmap in Hin as (g & Heq & Hg).
    simplify_eq. exists g. done.
Qed.
Lemma detect_decides groups :
  match detect_circular_nesting groups with
  | Ok _ => acyclic (adjacency groups)
  | Err _ => ¬ acyclic (adjacency groups)
  | Stuck _ => False
  end.
Proof.
  unfold detect_circular_nesting.
  destruct (Dfs.collect_all_decides (adjacency groups) (Dfs.bound (adjacency groups))
    (group_strs groups)) as (v & s & e & Hc & _ & Hiff); [done|apply adjacency_names|].
  pose proof (Dfs.fail_fast_all_agrees (adjacency groups) circular
    (Dfs.bound (adjacency groups)) (group_strs groups) ∅ ∅) as Ha.
  rewrite Hc in Ha. destruct e as [|[x y] e]; simpl in Ha; rewrite Ha; simpl.
  - by apply Hiff.
  - intros Hac. by apply Hiff in Hac.
Qed.

Lemma for_each_not_Stuck {E A} (f : A → result E ()) l :
  (∀ x, x ∈ l → ∀ w, f x ≠ Stuck w) → ∀ w, for_each f l ≠ Stuck w.
Proof.
  intros Hf w Hl. destruct (for_each_stop f l (Stuck w) Hl) as (x & Hx & Hs); [done|].
  by apply (Hf x Hx w).
Qed.
(** Every group a policy names is defined. *)
Definition groups_defined (policies : list Policy) (groups : list GroupDefinition) : Prop :=
  ∀ p g, p ∈ policies → g ∈ policy_groups p → Id.as_str g ∈ group_strs groups.
Lemma references_decide policies groups :
  match for_each (λ policy, for_each (λ g,
          if negb (bool_decide (Id.as_str g ∈ (list_to_set (group_strs groups) : gset string)))
          then Err (undefined_group policy g) else Ok ()) (policy_groups policy)) policies with
  | Ok _ => groups_defined policies groups
  | Err _ => ¬ groups_defined policies groups
  | Stuck _ => False
  end.
Proof.
  set (check := λ policy, for_each (λ g,
    if negb (bool_decide (Id.as_str g ∈ (list_to_set (group_strs groups) : gset string)))
    then Err (undefined_group policy g) else Ok ()) (policy_groups policy)).
  assert (∀ policy g, (if negb (bool_decide (Id.as_str g ∈
      (list_to_set (group_strs groups) : gset string)))
    then Err (undefined_group policy g) else Ok ()) = Ok () ↔ Id.as_str g ∈ group_strs groups) as Hg.
  { intros policy g. rewrite <-(elem_of_list_to_set (C := gset string)).
    by case_bool_decide. }
  assert (for_each check policies = Ok () ↔ groups_defined policies groups) as Hiff.
  { rewrite for_each_Ok. unfold groups_defined, check. setoid_rewrite for_each_Ok.
    setoid_rewrite Hg. naive_solver. }
  assert (∀ w, for_each check policies ≠ Stuck w) as Hns.
  { intros w. apply for_each_not_Stuck. intros p _ w'. apply for_each_not_Stuck.
    intros g _ w''. by case_bool_decide. }
  destruct (for_each check policies) as [[]|e|w] eqn:Hf; [by apply Hiff| |by apply (Hns w)].
  intros Hd. by apply Hiff in Hd.
Qed.

(** The action scopes of statements cover what their patterns match: the
    clause a statement is compiled to is the text of a scope, never the
    [unreachable!] on a wildcard, and every action one of its patterns
    matches is in that scope. *)
Theorem compiled_actions_cover ns acts :
  build_action_clause acts ns = Ok (scope_text ns (scope_of acts)) ∧
  ∀ ap a, ap ∈ acts → matches ap a = true → in_scope (scope_of acts) a.
Proof.
  split; [apply build_action_clause_spec|]. intros ap a Hap Hm. unfold scope_of.
  destruct (forallb is_all_exact acts) eqn:Hall; [|done]. destruct acts as [|ap' acts]; [done|].
  apply forallb_forall with (x := ap) in Hall; [|by apply list_elem_of_In].
  apply all_exact_id in Hall as [id Hid]. apply list_elem_of_omap. exists ap. split; [done|].
  by rewrite Hid, (matches_exact ap a id Hm Hid).
Qed.

Lemma compile_all_cases policies groups project :
  match compile_all_to_cedar policies groups project with
  | Ok out => groups_defined policies groups ∧ acyclic (adjacency groups) ∧
              out = all_texts (CedarNamespace.from_project project) policies
  | Err _ => ¬ (groups_defined policies groups ∧ acyclic (adjacency groups))
  | Stuck _ => False
  end.
Proof.
  unfold compile_all_to_cedar. pose proof (references_decide policies groups) as Href.
  destruct (for_each _ policies) as [[]|e|w]; simpl; [|naive_solver|done].
  pose proof (detect_decides groups) as Hdet.
  destruct (detect_circular_nesting groups) as [[]|e|w]; simpl; [|naive_solver|done].
  rewrite compile_policies_spec. simpl. split_and!; [done..|]. unfold all_texts.
  induction policies as [|p ps IH]; [done|]. simpl. f_equal. apply IH.
  intros q g Hq. apply Href. by right.
Qed.

(** C36: Compilation is total and rejects exactly the ill-formed declarations: it
    succeeds when every group a policy names is defined and the nesting of
    groups has no cycle, and then emits, for every policy and every group the
    policy is attached to (for all principals when there is none), one
    statement per declared statement, in order; otherwise it fails with an
    error, and it never panics. *)
Theorem compile_all_decides policies groups project :
  match compile_all_to_cedar policies groups project with
  | Ok out => groups_defined policies groups ∧ acyclic (adjacency groups) ∧
              out = all_texts (CedarNamespace.from_project project) policies
  | Err _ => ¬ (groups_defined policies groups ∧ acyclic (adjacency groups))
  | Stuck _ => False
  end.
Proof. apply compile_all_cases. Qed.

(** ** Validation *)
Import Validate.
Lemma concat_nil_iff {A} (ls : list (list A)) : concat ls = [] ↔ ∀ l, l ∈ ls → l = [].
Proof.
  induction ls as [|l ls IH]; simpl; [set_solver|]. setoid_rewrite elem_of_cons. split.
  - intros [-> H]%app_nil. naive_solver.
  - intros H. apply app_nil. split; [by apply H; left|]. apply IH. naive_solver.
Qed.
Lemma concat_imap_nil {A B} (f : nat → A → list B) (P : A → Prop) l :
  (∀ i x, f i x = [] ↔ P x) → concat (imap f l) = [] ↔ ∀ x, x ∈ l → P x.
Proof.
  intros Hf. rewrite concat_nil_iff. setoid_rewrite elem_of_lookup_imap. split.
  - intros H x [i Hi]%list_elem_of_lookup. apply (Hf i), H. eauto.
  - intros H l' (i & x & -> & Hi). apply Hf, H. by eapply list_elem_of_lookup_2.
Qed.
Lemma report_nil {A} (P : Prop) `{!Decision P} (e : A) :
  (if negb (bool_decide P) then [e] else []) = [] ↔ P.
Proof. by case_bool_decide. Qed.

Definition gates_defined (c : ProxyConfig) : Prop :=
  ∀ r, r ∈ routes c → ∀ gate, Route.feature_gate r = Some gate →
    gate ∈ (Features.flags (features c)).*1.
Definition members_defined (c : ProxyConfig) : Prop :=
  ∀ g, g ∈ groups c → ∀ m, m ∈ member_groups g → Id.as_str m ∈ group_strs (groups c).
Record valid_config (c : ProxyConfig) : Prop := {
  v_routes : NoDup (key_of <$> routes c);
  v_gates : gates_defined c;
  v_policies : groups_defined (policies c) (groups c);
  v_members : members_defined c;
  v_nesting : acyclic (adjacency (groups c));
}.

Lemma duplicate_routes_nil i seen rs :
  check_duplicate_routes i seen rs = [] ↔
  NoDup (key_of <$> rs) ∧ ∀ r, r ∈ rs → key_of r ∉ seen.
Proof.
  revert i seen. induction rs as [|r rs IH]; intros i seen; simpl.
  { split; [|done]. intros _. split; [constructor|]. by intros r ?%not_elem_of_nil. }
  rewrite NoDup_cons. setoid_rewrite elem_of_cons. case_bool_decide as Hs; simpl.
  - split; [done|]. naive_solver.
  - rewrite IH, list_elem_of_fmap. set_solver.
Qed.
Lemma feature_gates_nil c : check_feature_gates c = [] ↔ gates_defined c.
Proof.
  apply concat_imap_nil. intros i r. destruct (Route.feature_gate r) as [gate|]; [|naive_solver].
  rewrite report_nil. naive_solver.
Qed.
Lemma policy_references_nil c :
  check_policy_group_references c = [] ↔ groups_defined (policies c) (groups c).
Proof.
  unfold check_policy_group_references. rewrite concat_imap_nil.
  2:{ intros i p. apply concat_imap_nil. intros j g. apply report_nil. }
  unfold groups_defined, group_names. setoid_rewrite elem_of_list_to_set. naive_solver.
Qed.
Lemma group_references_nil c : check_group_references c = [] ↔ members_defined c.
Proof.
  unfold check_group_references. rewrite concat_imap_nil.
  2:{ intros i p. apply concat_imap_nil. intros j g. apply report_nil. }
  unfold members_defined, group_names. setoid_rewrite elem_of_list_to_set. naive_solver.
Qed.
Lemma circular_nesting_cases c : ∃ errors,
  check_circular_group_nesting c = Ok errors ∧ (errors = [] ↔ acyclic (adjacency (groups c))).
Proof.
  unfold check_circular_group_nesting. destruct (groups c) as [|g gs].
  { exists []. split; [done|]. split; [|done]. intros _ x (y & (ys & Hy & _) & _)%Dfs.tc_step.
    done. }
  destruct (Dfs.collect_all_decides (adjacency (g :: gs)) (Dfs.bound (adjacency (g :: gs)))
    (group_strs (g :: gs))) as (v & s & e & -> & _ & Hiff); [done|apply adjacency_names|].
  eexists. split; [done|]. rewrite <-Hiff. by destruct e.
Qed.
Lemma overlap_nil c : check_public_route_overlap c = [] ↔
  ∀ pr, pr ∈ public_routes c →
    route_key (Route.p_method pr) (Route.p_path_pattern pr) ∉ key_of <$> routes c.
Proof.
  apply concat_imap_nil. intros i pr. cbv zeta.
  rewrite <-(elem_of_list_to_set (C := gset string)). by case_bool_decide.
Qed.

(** Validation is exact: it always returns, reports no error exactly when the
    route keys are distinct, the feature gates, the groups of policies and the
    member groups are all defined and the nesting of groups has no cycle, and
    warns exactly when a public route has the key of a protected one; a
    configuration without errors compiles, to the texts of its policies. *)
Theorem validated_config_compiles c : ∃ errors warnings,
  validate c = Ok (errors, warnings) ∧
  (errors = [] ↔ valid_config c) ∧
  (warnings = [] ↔ ∀ pr, pr ∈ public_routes c →
     route_key (Route.p_method pr) (Route.p_path_pattern pr) ∉ key_of <$> routes c) ∧
  (errors = [] → ∀ project, compile_all_to_cedar (policies c) (groups c) project =
     Ok (all_texts (CedarNamespace.from_project project) (policies c))).
Proof.
  unfold validate. destruct (circular_nesting_cases c) as (ce & -> & Hce). do 2 eexists.
  split; [done|]. assert (check_duplicate_routes 0 ∅ (routes c) ++ check_feature_gates c ++
    check_policy_group_references c ++ check_group_references c ++ ce = [] ↔ valid_config c) as Hv.
  { rewrite !app_nil, duplicate_routes_nil, feature_gates_nil, policy_references_nil,
      group_references_nil, Hce. split; [intros ([? _] & ? & ? & ? & ?); by split|].
    by intros []. }
  split_and!; [done|apply overlap_nil|]. rewrite Hv. intros [_ _ Hp _ Hn] project.
  pose proof (compile_all_cases (policies c) (groups c) project) as Hc.
  destruct (compile_all_to_cedar _ _ _) as [out|e|w]; [|naive_solver|done].
  by destruct Hc as (_ & _ & ->).
Qed.

(** ** The schema *)
Import Schema.
(** The types an action applies to, by name. *)
Definition pattern_type (ap : ActionPattern) : option string :=
  match pat_namespace ap, pat_entity ap with
  | Exact n, Exact e => Some (CedarIdent.as_str (Segment.to_cedar_ident n) +:+ "__" +:+
                              CedarIdent.as_str (Segment.to_cedar_ident e))
  | _, _ => None
  end.
Definition action_type (qa : QualifiedAction.t) : string :=
  CedarIdent.as_str (Segment.to_cedar_ident (Namespace.as_segment (QualifiedAction.namespace qa)))
  +:+ "__" +:+
  CedarIdent.as_str (Segment.to_cedar_ident (Entity.as_segment (QualifiedAction.entity qa))).

(** The pairs of an action id and an entity type that a declaration makes. *)
Definition pattern_pair (ap : ActionPattern) : option (string * string) :=
  id ← exact_id ap; ty ← pattern_type ap; Some (id, ty).
Definition declared (policies : list Policy) (acts : list QualifiedAction.t)
    : list (string * string) :=
  omap pattern_pair (patterns_of policies) ++
  ((λ qa, (QualifiedAction.vp_action_id qa, action_type qa)) <$> acts).
(** What was collected from a list of pairs. *)
Record collects (pairs : list (string * string)) (c : collected) : Prop := {
  c_types : ∀ ty, ty ∈ c.1 ↔ ∃ id, (id, ty) ∈ pairs;
  c_applies : ∀ id, match c.2 !! id with
                    | Some types => types ≠ ∅ ∧ ∀ ty, ty ∈ types ↔ (id, ty) ∈ pairs
                    | None => ∀ ty, (id, ty) ∉ pairs
                    end;
}.
Lemma collects_nil : collects [] (∅, ∅).
Proof.
  split; simpl; [set_solver|]. intros id. rewrite lookup_empty. intros ty. apply not_elem_of_nil.
Qed.
Lemma collects_snoc pairs c id ty :
  collects pairs c → collects (pairs ++ [(id, ty)]) (add_action ty id c).
Proof.
  intros [Ht Ha].
  assert (∀ i t, (i, t) ∈ pairs ++ [(id, ty)] ↔ (i, t) ∈ pairs ∨ i = id ∧ t = ty) as Hp.
  { intros i t. rewrite elem_of_app, list_elem_of_singleton. naive_solver. }
  split; simpl.
  - intros ty'. rewrite elem_of_union, elem_of_singleton, Ht. setoid_rewrite Hp. naive_solver.
  - intros id'. specialize (Ha id'). destruct (decide (id' = id)) as [->|Hne].
    + rewrite lookup_insert_eq. split; [set_solver|]. intros ty'.
      rewrite elem_of_union, elem_of_singleton, Hp.
      destruct (c.2 !! id) as [types|]; simpl; [naive_solver|set_solver].
    + rewrite lookup_insert_ne by done.
      destruct (c.2 !! id') as [types|]; simpl; [|intros ty'; rewrite Hp; naive_solver].
      split; [apply Ha|]. intros ty'. rewrite Hp. naive_solver.
Qed.
Lemma add_pattern_spec c ap : add_pattern c ap = Ok (match pattern_pair ap with
  | Some (id, ty) => add_action ty id c | None => c end).
Proof.
  unfold add_pattern, is_all_exact, pattern_pair, exact_id, pattern_type.
  by destruct (pat_namespace ap), (pat_action ap), (pat_entity ap).
Qed.
Lemma add_patterns_collects pairs c aps : collects pairs c →
  ∃ c', add_patterns c aps = Ok c' ∧ collects (pairs ++ omap pattern_pair aps) c'.
Proof.
  revert pairs c. induction aps as [|ap aps IH]; intros pairs c Hc; simpl.
  { exists c. by rewrite app_nil_r. }
  rewrite add_pattern_spec. simpl. destruct (pattern_pair ap) as [[id ty]|].
  - destruct (IH (pairs ++ [(id, ty)]) (add_action ty id c)) as (c' & -> & Hc');
      [by apply collects_snoc|]. exists c'. by rewrite <-app_assoc in Hc'.
  - by apply IH.
Qed.
Lemma add_qualified_collects pairs c acts : collects pairs c →
  collects (pairs ++ ((λ qa, (QualifiedAction.vp_action_id qa, action_type qa)) <$> acts))
    (foldl add_qualified c acts).
Proof.
  revert pairs c. induction acts as [|qa acts IH]; intros pairs c Hc; simpl.
  { by rewrite app_nil_r. }
  rewrite (cons_middle _ pairs), app_assoc. by apply IH, collects_snoc.
Qed.
Lemma exact_pair ap id : exact_id ap = Some id → ∃ ty, pattern_pair ap = Some (id, ty).
Proof.
  unfold pattern_pair, exact_id, pattern_type.
  destruct (pat_namespace ap), (pat_entity ap), (pat_action ap); naive_solver.
Qed.
Lemma scope_declared policies acts p stmt ids id :
  p ∈ policies → stmt ∈ statements p → scope_of (actions stmt) = ActionIn ids → id ∈ ids →
  ∃ ty, (id, ty) ∈ declared policies acts.
Proof.
  intros Hp Hs Hscope Hid. unfold scope_of in Hscope.
  destruct (forallb is_all_exact _); [|done]. destruct (actions stmt) as [|ap aps] eqn:Ha; [done|].
  rewrite <-Ha in *. injection Hscope as <-. apply list_elem_of_omap in Hid as (ap' & Hap & Hid).
  destruct (exact_pair ap' id Hid) as [ty Hty]. exists ty. apply elem_of_app. left.
  apply list_elem_of_omap. exists ap'. split; [|done]. unfold patterns_of.
  apply list_elem_of_bind. exists p. split; [|done]. apply list_elem_of_bind. by exists stmt.
Qed.

(** The generated schema is complete: it is made from exactly the declared
    pairs of an action and an entity type (those of the exact patterns and
    those of the given actions), so every type an action applies to is an
    entity type of the schema, every action applies to some type, and every
    action id that a compiled statement lists is an action of the schema. *)
Theorem schema_declares_compiled policies acts project entity_config : ∃ c,
  (∀ to_string_pretty, generate_cedar_schema to_string_pretty policies acts project entity_config =
     Ok (to_string_pretty (schema_value c
       (CedarNamespace.as_str (CedarNamespace.from_project project)) entity_config))) ∧
  collects (declared policies acts) c ∧
  (∀ id types, c.2 !! id = Some types → types ≠ ∅ ∧ types ⊆ c.1) ∧
  (∀ p stmt ids id, p ∈ policies → stmt ∈ statements p →
     scope_of (actions stmt) = ActionIn ids → id ∈ ids → is_Some (c.2 !! id)).
Proof.
  destruct (add_patterns_collects [] (∅, ∅) (patterns_of policies) collects_nil) as (c & Hc & Hcc).
  exists (foldl add_qualified c acts). apply add_qualified_collects with (acts := acts) in Hcc.
  rewrite app_nil_l in Hcc. fold (declared policies acts) in Hcc. destruct Hcc as [Ht Ha].
  split_and!.
  - intros tsp. unfold generate_cedar_schema. by rewrite Hc.
  - by split.
  - intros id types Hid. specialize (Ha id). rewrite Hid in Ha. destruct Ha as [Hne Hty].
    split; [done|]. intros ty ?%Hty. apply Ht. eauto.
  - intros p stmt ids id Hp Hs Hsc Hid. destruct (scope_declared policies acts p stmt ids id)
      as [ty Hty]; [done..|]. specialize (Ha id).
    destruct (_ !! id); [eauto|]. by apply Ha in Hty.
Qed.

(** ** What the compilation widens *)
(** A partial wildcard is compiled to an unconstrained action: the pattern
    [todo:*:*] does not match [billing:invoice:pay], yet a statement with that
    pattern alone covers it. *)
Theorem wildcard_pattern_widens : ∃ ap a,
  parse "todo:*:*" = Ok ap ∧ QualifiedAction.parse "billing:invoice:pay" = Ok a ∧
  matches ap a = false ∧ ∀ ns, build_action_clause [ap] ns = Ok "action".
Proof. do 2 eexists. split_and!; [by vm_compute..|]. done. Qed.

(** Action ids are not unique: the hyphen that joins the three segments is a
    character of segments, so the distinct actions [todo:list-item:read] and
    [todo-list:item:read] have the same id, and a statement on the first
    covers the second. *)
Theorem action_ids_collide : ∃ ap a b,
  parse "todo:list-item:read" = Ok ap ∧
  QualifiedAction.parse "todo:list-item:read" = Ok a ∧
  QualifiedAction.parse "todo-list:item:read" = Ok b ∧ a ≠ b ∧
  matches ap a = true ∧ matches ap b = false ∧
  QualifiedAction.vp_action_id a = QualifiedAction.vp_action_id b ∧
  in_scope (scope_of [ap]) b.
Proof.
  do 3 eexists. split_and!; [by vm_compute..|]. by left.
Qed.
End PolicyFacts.
