(* ===== verification/Config.v ===== *)
(** The proxy's configuration: from the fields of the TOML file to validated
    values, and the overrides of the command line
    ([crates/http/src/config.rs], [config_raw.rs], [config_types.rs]). *)

From stdpp Require Import pretty.
From S2P Require Import Prelude RustStr Ident Event Action Features Authn Http Cors Pipeline Proxy.
From S2P Require Import Dfs Policies.

(** * Socket addresses: the parser of [core::net] *)
Module NetAddr.
Open Scope N_scope.
Inductive SocketAddr :=
| V4 (octets : list N) (port : N)
| V6 (segments : list N) (scope_id port : N).

(** [char::to_digit]. *)
Definition to_digit (radix : N) (c : ascii) : option N :=
  d ← (if is_ascii_digit c then Some (byte_val c - 48)
       else if is_ascii_lowercase c then Some (byte_val c - 87)
       else if is_ascii_uppercase c then Some (byte_val c - 55) else None);
  if bool_decide (d < radix) then Some d else None.
Fixpoint read_digits (radix : N) (s : string) : list N * string :=
  match s with
  | String c rest =>
      match to_digit radix c with
      | Some d => let '(ds, r) := read_digits radix rest in (d :: ds, r)
      | None => ([], s)
      end
  | EmptyString => ([], s)
  end.
Definition value_of (radix : N) (ds : list N) : N := foldl (λ n d, n * radix + d) 0 ds.
Definition read_number (radix : N) (max_digits : option nat) (allow_zero_prefix : bool) (max : N)
    (s : string) : option (N * string) :=
  let '(ds, rest) := read_digits radix s in
  if bool_decide (ds = []) || match max_digits with Some m => bool_decide (m < length ds)%nat | None => false end ||
     bool_decide (max < value_of radix ds) ||
     (negb allow_zero_prefix && bool_decide (head ds = Some 0 ∧ (1 < length ds)%nat))
  then None else Some (value_of radix ds, rest).
Definition given (c : ascii) (s : string) : option string :=
  match s with
  | String a rest => if bool_decide (a = c) then Some rest else None
  | EmptyString => None
  end.

Definition read_octet : string → option (N * string) := read_number 10 (Some 3%nat) false 255.
Definition read_ipv4_addr (s : string) : option (list N * string) :=
  '(a, s) ← read_octet s; s ← given "." s;
  '(b, s) ← read_octet s; s ← given "." s;
  '(c, s) ← read_octet s; s ← given "." s;
  '(d, s) ← read_octet s;
  Some ([a; b; c; d], s).
(** Up to [slots] groups, the last two of them perhaps an IPv4 address. *)
Fixpoint read_groups (slots : nat) (first : bool) (s : string) : list N * bool * string :=
  match slots with
  | 0%nat => ([], false, s)
  | S slots =>
      let inner := if first then Some s else given ":" s in
      let ipv4 := match slots with 0%nat => None | S _ => inner ≫= read_ipv4_addr end in
      match ipv4 with
      | Some ([a; b; c; d], rest) => ([a * 256 + b; c * 256 + d], true, rest)
      | _ =>
          match inner ≫= read_number 16 (Some 4%nat) true 65535 with
          | Some (g, rest) =>
              let '(gs, v4, rest) := read_groups slots false rest in (g :: gs, v4, rest)
          | None => ([], false, s)
          end
      end
  end.
Definition read_ipv6_addr (s : string) : option (list N * string) :=
  let '(front, front_ipv4, s) := read_groups 8 true s in
  if bool_decide (length front = 8%nat) then Some (front, s)
  else if front_ipv4 then None
  else
    s ← given ":" s; s ← given ":" s;
    let '(back, _, s) := read_groups (7 - length front) true s in
    Some (front ++ replicate (8 - length front - length back) 0 ++ back, s).
Definition read_port (s : string) : option (N * string) :=
  s ← given ":" s; read_number 10 None true 65535 s.
Definition read_scope_id (s : string) : option (N * string) :=
  s ← given "%" s; read_number 10 None true 4294967295 s.
Definition read_socket_addr_v4 (s : string) : option (SocketAddr * string) :=
  '(ip, s) ← read_ipv4_addr s; '(port, s) ← read_port s; Some (V4 ip port, s).
Definition read_socket_addr_v6 (s : string) : option (SocketAddr * string) :=
  s ← given "[" s;
  '(ip, s) ← read_ipv6_addr s;
  let '(scope_id, s) := default (0, s) (read_scope_id s) in
  s ← given "]" s;
  '(port, s) ← read_port s;
  Some (V6 ip scope_id port, s).
Definition parse (s : string) : result string SocketAddr :=
  match (match read_socket_addr_v4 s with Some r => Some r | None => read_socket_addr_v6 s end) with
  | Some (addr, EmptyString) => Ok addr
  | _ => Err "invalid socket address syntax"
  end.

(** Octets, segments and ports keep their width. *)
Definition wf (a : SocketAddr) : Prop :=
  match a with
  | V4 octets port => length octets = 4%nat ∧ Forall (λ o, o < 256) octets ∧ port < 65536
  | V6 segments scope_id port =>
      length segments = 8%nat ∧ Forall (λ g, g < 65536) segments ∧ scope_id < 4294967296 ∧
      port < 65536
  end.
Definition port (a : SocketAddr) : N := match a with V4 _ p | V6 _ _ p => p end.
End NetAddr.

(** The [url] crate. *)
Class UrlLib := {
  Url : Type;
  (** [Url::parse], with the text of its error. *)
  url_parse : string → result string Url;
  scheme : Url → string;
  host_str : Url → option string;
  port_or_known_default : Url → option N;
  url_str : Url → string;
}.
Class UrlLaws `{UrlLib} := { url_parse_returns s : returns (url_parse s) }.
#[export] Hint Resolve url_parse_returns : returns.
(** The order in which a [HashMap] is iterated. *)
Class HashOrder := hash_iter : ∀ {A : Type}, gmap string A → list (string * A).
Class HashOrderLaws `{HashOrder} :=
  { hash_iter_perm {A} (m : gmap string A) : hash_iter m ≡ₚ map_to_list m }.

(** [str::replace]. *)
Definition replace_str (p r s : string) : string := RustStr.join r (split_str p s).

(** * Supplementary types *)
Module ConfigTypes.
Record AwsConfig := { region : option string; profile : option string }.
Definition aws_default : AwsConfig := {| region := None; profile := None |}.
Record EntitySchema := { member_of : list string; attributes : gmap string string }.
Record SchemaConfig := { entities : gmap string (gmap string EntitySchema) }.
Definition schema_default : SchemaConfig := {| entities := ∅ |}.

Inductive PolicyTestExpect := Allow | Deny.
#[global] Instance PolicyTestExpect_eq_dec : EqDecision PolicyTestExpect.
Proof. solve_decision. Defined.
Record PolicyTest := {
  name : string;
  principal : string;
  groups : list GroupName;
  tenant : string;
  action : QualifiedAction.t;
  resource : option Permission.CedarEntityRef;
  expect : PolicyTestExpect;
}.

Definition ident (s : string) : string := replace_char "-" "_" s.
Definition entity_key (ns entity_name : string) : string :=
  ident ns +:+ "__" +:+ ident entity_name.
Definition member_key (m : string) : string := ident (replace_str "::" "__" m).
(** An attribute whose type is not known is left out. *)
Definition entity_schema_config (schema : EntitySchema) : Schema.EntitySchemaConfig := {|
  Schema.member_of := member_key <$> member_of schema;
  Schema.attributes :=
    omap (λ type_str, match Schema.try_from type_str with Ok t => Some t | _ => None end)
      (attributes schema);
|}.
Section to_entity_config.
Context `{HashOrder}.
Definition entity_entries (c : SchemaConfig) : list (string * Schema.EntitySchemaConfig) :=
  '(ns, entity_map) ← hash_iter (entities c);
  '(entity_name, schema) ← hash_iter entity_map;
  [(entity_key ns entity_name, entity_schema_config schema)].
(** Collecting keeps the last entry of a key. *)
Definition to_entity_config (c : SchemaConfig) : option (gmap string Schema.EntitySchemaConfig) :=
  if bool_decide (entities c = ∅) then None
  else Some (foldl (λ m kv, <[kv.1 := kv.2]> m) ∅ (entity_entries c)).
End to_entity_config.
End ConfigTypes.

(** * The file as it is written *)
Module Raw.
Record AuthConfig := { chain_order : list string }.
Record JwtConfig := {
  jwks_url : string;
  issuer : string;
  audience : option string;
  user_id_claim : option string;
  cache_ttl_secs : option N;
}.
Record AuthnConfig := { jwt : option JwtConfig }.
Record ApiKeyEntry := {
  key : string;
  key_user_id : string;
  key_tenant_id : option string;
  key_groups : list string;
}.
Record AuthzConfig := {
  policy_store_id : option string;
  authz_cache_ttl_secs : N;
  cache_max_entries : N;
}.
Record MetricsConfig := { enabled : bool; metrics_listen_addr : option string }.
Record RouteMapping := {
  method : string;
  path : string;
  action : string;
  resource_param : option string;
  feature_gate : option string;
}.
Record PublicRoute := { p_method : string; p_path : string; auth_mode : string }.
Record AwsConfig := { region : option string; profile : option string }.
Record ClusterConfig := {
  redis_url : string;
  instance_id : string;
  priority : N;
  heartbeat_interval_secs : N;
  min_quorum : N;
  listen_cluster_addr : option string;
}.
Record SigningConfig := { key_path : string; key_id : string }.
Record EntitySchema := { member_of : list string; attributes : gmap string string }.
Record SchemaConfig := { entities : gmap string (gmap string EntitySchema) }.
Record PolicyTest := {
  test_name : string;
  test_principal : string;
  test_groups : list string;
  test_tenant : string;
  test_action : string;
  test_resource : option string;
  test_expect : string;
}.
Record FlagConfig := { flags : list (FlagName.t * Features.FlagDefinition) }.
Record ProxyConfig := {
  project_id : string;
  listen_addr : string;
  upstream_url : string;
  default_policy : string;
  client_ip_source : string;
  auth : option AuthConfig;
  authz : option AuthzConfig;
  metrics : option MetricsConfig;
  routes : list RouteMapping;
  public_routes : list PublicRoute;
  policies : list Permission.Policy;
  groups : list Permission.GroupDefinition;
  features : option FlagConfig;
  aws : option AwsConfig;
  schema : option SchemaConfig;
  cors : option Cors.RawCorsConfig;
  cluster : option ClusterConfig;
  signing : option SigningConfig;
  authn : option AuthnConfig;
  api_keys : list ApiKeyEntry;
  policy_tests : list PolicyTest;
}.
(** What a missing key of the file is read as. *)
Definition default_default_policy : string := "deny".
Definition default_client_ip_source : string := "peer".
Definition default_auth_mode : string := "anonymous".
End Raw.

(** * The validated configuration *)
Module Config.
Import Permission.
Section config.
Context `{UrlLib}.

Record UpstreamTarget := { addr : string; tls : bool; sni : string }.
Definition derive_upstream_target (url : Url) : result HttpError.t UpstreamTarget :=
  host ← ok_or (host_str url)
           (HttpError.Config ("upstream_url '" +:+ url_str url +:+ "': missing host"));
  port ← ok_or (port_or_known_default url)
           (HttpError.Config ("upstream_url '" +:+ url_str url +:+ "': cannot determine port"));
  Ok {| addr := host +:+ ":" +:+ pretty port; tls := bool_decide (scheme url = "https");
        sni := host |}.

Record AuthConfig := { chain_order : list string }.
Definition auth_default : AuthConfig := {| chain_order := ["jwt"; "api-key"] |}.
Record JwtConfig := {
  jwks_url : Url;
  issuer : string;
  audience : option string;
  user_id_claim : option string;
  cache_ttl_secs : option N;
}.
Record ApiKeyConfig := {
  key : string;
  user_id : UserId;
  tenant_id : option TenantId;
  key_groups : list GroupName;
}.
(** Durations are in seconds. *)
Record AuthzConfig := { policy_store_id : string; cache_ttl : N; cache_max_entries : N }.
Record MetricsConfig := {
  metrics_enabled : bool;
  metrics_listen_addr : option NetAddr.SocketAddr;
}.
Definition metrics_default : MetricsConfig :=
  {| metrics_enabled := false; metrics_listen_addr := None |}.
Record ClusterConfig := {
  redis_url : Url;
  instance_id : string;
  priority : N;
  heartbeat_interval : N;
  min_quorum : N;
  listen_cluster_addr : option NetAddr.SocketAddr;
}.
Record SigningConfig := { key_path : string; key_id : Signing.KeyId.t }.

Record ProxyConfig := {
  project_id : ProjectId;
  listen_addr : NetAddr.SocketAddr;
  upstream_url : Url;
  upstream_target : UpstreamTarget;
  default_policy : Pipeline.DefaultPolicy;
  client_ip_source : Proxy.ClientIpSource;
  auth : AuthConfig;
  jwt_config : option JwtConfig;
  api_keys : list ApiKeyConfig;
  authz : option AuthzConfig;
  metrics : MetricsConfig;
  routes : list Route.RouteMapping;
  public_routes : list Route.PublicRoute;
  policies : list Policy;
  groups : list GroupDefinition;
  features : Features.FlagConfig;
  aws : ConfigTypes.AwsConfig;
  schema : ConfigTypes.SchemaConfig;
  policy_tests : list ConfigTypes.PolicyTest;
  cors : option Cors.CorsConfig;
  cluster : option ClusterConfig;
  signing : option SigningConfig;
}.

(** ** Parsing of the parts *)
Definition config_error (what : string) (e : Error.t) : HttpError.t :=
  HttpError.Config (what +:+ ": " +:+ core_error_str e).
(** The results of the entries with their index, up to the first error. *)
Definition try_each {A B} (f : nat → A → result HttpError.t B) (l : list A)
    : result HttpError.t (list B) :=
  mapM (λ ix, f ix.1 ix.2) (imap pair l).
(** [transpose]. *)
Definition try_option {A B} (f : A → result HttpError.t B) (o : option A)
    : result HttpError.t (option B) :=
  match o with Some x => Some <$> f x | None => Ok None end.
Definition index (base : string) (i : nat) : string := Validate.at_index base i EmptyString.

Definition parse_socket (what : string) (s : string) : result HttpError.t NetAddr.SocketAddr :=
  map_err (λ e, HttpError.Config (what +:+ ": " +:+ e)) (NetAddr.parse s).
Definition parse_groups (what : string) (gs : list string) : result HttpError.t (list GroupName) :=
  try_each (λ gi g, map_err (config_error (index (what +:+ ".groups") gi)) (Id.new g)) gs.

Definition parse_signing_config (raw : Raw.SigningConfig) : result HttpError.t SigningConfig :=
  key_id ← map_err (λ _, HttpError.Config "signing.key_id must be non-empty")
             (Signing.KeyId.try_from (Raw.key_id raw));
  Ok {| key_path := Raw.key_path raw; key_id := key_id |}.
Definition parse_cluster_config (raw : Raw.ClusterConfig) : result HttpError.t ClusterConfig :=
  redis_url ← map_err (λ e, HttpError.Config ("cluster.redis_url: invalid URL '" +:+
                              Raw.redis_url raw +:+ "': " +:+ e)) (url_parse (Raw.redis_url raw));
  listen_cluster_addr ← try_option (λ s,
    parse_socket ("cluster.listen_cluster_addr: invalid socket address '" +:+ s +:+ "'") s)
    (Raw.listen_cluster_addr raw);
  Ok {| redis_url := redis_url; instance_id := Raw.instance_id raw; priority := Raw.priority raw;
        heartbeat_interval := Raw.heartbeat_interval_secs raw; min_quorum := Raw.min_quorum raw;
        listen_cluster_addr := listen_cluster_addr |}.
Definition parse_jwt_config (raw : Raw.JwtConfig) : result HttpError.t JwtConfig :=
  jwks_url ← map_err (λ e, HttpError.Config ("authn.jwt.jwks_url: invalid URL '" +:+
                             Raw.jwks_url raw +:+ "': " +:+ e)) (url_parse (Raw.jwks_url raw));
  if is_empty (Raw.issuer raw) then Err (HttpError.Config "authn.jwt.issuer: must not be empty")
  else Ok {| jwks_url := jwks_url; issuer := Raw.issuer raw; audience := Raw.audience raw;
             user_id_claim := Raw.user_id_claim raw; cache_ttl_secs := Raw.cache_ttl_secs raw |}.
Definition parse_api_key (i : nat) (raw : Raw.ApiKeyEntry) : result HttpError.t ApiKeyConfig :=
  if is_empty (Raw.key raw)
  then Err (HttpError.Config (Validate.at_index "api_keys" i ".key: must not be empty"))
  else
    user_id ← map_err (config_error (Validate.at_index "api_keys" i ".user_id"))
                (Id.new (Raw.key_user_id raw));
    tenant_id ← try_option
      (λ t, map_err (config_error (Validate.at_index "api_keys" i ".tenant_id")) (Id.new t))
      (Raw.key_tenant_id raw);
    key_groups ← parse_groups (index "api_keys" i) (Raw.key_groups raw);
    Ok {| key := Raw.key raw; user_id := user_id; tenant_id := tenant_id;
          key_groups := key_groups |}.

Definition parse_default_policy (s : string) : result HttpError.t Pipeline.DefaultPolicy :=
  let l := to_ascii_lowercase s in
  if bool_decide (l = "passthrough") then Ok Pipeline.Passthrough
  else if bool_decide (l = "deny") then Ok Pipeline.DenyByDefault
  else Err (HttpError.Config ("invalid default_policy '" +:+ s +:+
                              "': expected 'passthrough' or 'deny'")).
Definition parse_client_ip_source (s : string) : result HttpError.t Proxy.ClientIpSource :=
  let l := to_ascii_lowercase s in
  if bool_decide (l = "peer") then Ok Proxy.Peer
  else if bool_decide (l = "x-forwarded-for") || bool_decide (l = "xforwardedfor")
  then Ok Proxy.XForwardedFor
  else if bool_decide (l = "cf-connecting-ip") || bool_decide (l = "cfconnectingip")
  then Ok Proxy.CfConnectingIp
  else Err (HttpError.Config ("invalid client_ip_source '" +:+ s +:+
              "': expected 'peer', 'x-forwarded-for', or 'cf-connecting-ip'")).

Definition parse_method (base : string) (i : nat) (s : string)
    : result HttpError.t HttpMethod.t :=
  map_err (λ _, HttpError.Config (Validate.at_index base i (".method: invalid method '" +:+
                                  s +:+ "'"))) (HttpMethod.from_str s).
Definition parse_route_mapping (i : nat) (raw : Raw.RouteMapping)
    : result HttpError.t Route.RouteMapping :=
  method ← parse_method "routes" i (Raw.method raw);
  action ← map_err (config_error (Validate.at_index "routes" i ".action"))
             (QualifiedAction.parse (Raw.action raw));
  feature_gate ← try_option
    (λ fg, map_err (config_error (Validate.at_index "routes" i ".feature_gate"))
             (FlagName.parse fg)) (Raw.feature_gate raw);
  Ok (Route.new method (Raw.path raw) action (Raw.resource_param raw) feature_gate).
Definition parse_public_route (i : nat) (raw : Raw.PublicRoute)
    : result HttpError.t Route.PublicRoute :=
  method ← parse_method "public_routes" i (Raw.p_method raw);
  let l := to_ascii_lowercase (Raw.auth_mode raw) in
  auth_mode ←
    (if bool_decide (l = "anonymous") then Ok Route.AnonymousMode
     else if bool_decide (l = "opportunistic") then Ok Route.OpportunisticMode
     else Err (HttpError.Config (Validate.at_index "public_routes" i
            (".auth_mode: expected 'anonymous' or 'opportunistic', got '" +:+
             Raw.auth_mode raw +:+ "'"))));
  Ok {| Route.p_method := method; Route.p_path_pattern := Raw.p_path raw;
        Route.auth_mode := auth_mode |}.
Definition parse_policy_test (i : nat) (raw : Raw.PolicyTest)
    : result HttpError.t ConfigTypes.PolicyTest :=
  action ← map_err (config_error (Validate.at_index "policy_tests" i ".action"))
             (QualifiedAction.parse (Raw.test_action raw));
  groups ← parse_groups (index "policy_tests" i) (Raw.test_groups raw);
  resource ← try_option
    (λ r, map_err (config_error (Validate.at_index "policy_tests" i ".resource")) (ref_parse r))
    (Raw.test_resource raw);
  let l := to_ascii_lowercase (Raw.test_expect raw) in
  expect ←
    (if bool_decide (l = "allow") then Ok ConfigTypes.Allow
     else if bool_decide (l = "deny") then Ok ConfigTypes.Deny
     else Err (HttpError.Config (Validate.at_index "policy_tests" i
            (".expect: expected 'allow' or 'deny', got '" +:+ Raw.test_expect raw +:+ "'"))));
  Ok {| ConfigTypes.name := Raw.test_name raw; ConfigTypes.principal := Raw.test_principal raw;
        ConfigTypes.groups := groups; ConfigTypes.tenant := Raw.test_tenant raw;
        ConfigTypes.action := action; ConfigTypes.resource := resource;
        ConfigTypes.expect := expect |}.

Definition parse_metrics (m : Raw.MetricsConfig) : result HttpError.t MetricsConfig :=
  addr ← try_option (parse_socket "invalid metrics.listen_addr") (Raw.metrics_listen_addr m);
  Ok {| metrics_enabled := Raw.enabled m; metrics_listen_addr := addr |}.
Definition convert_entity (s : Raw.EntitySchema) : ConfigTypes.EntitySchema :=
  {| ConfigTypes.member_of := Raw.member_of s; ConfigTypes.attributes := Raw.attributes s |}.
Definition convert_schema (s : Raw.SchemaConfig) : ConfigTypes.SchemaConfig :=
  {| ConfigTypes.entities :=
       fmap (M := gmap string) (fmap (M := gmap string) convert_entity) (Raw.entities s) |}.

(** ** The whole file *)
Definition try_from (raw : Raw.ProxyConfig) : result HttpError.t ProxyConfig :=
  project_id ← map_err (config_error "invalid project_id") (Id.new (Raw.project_id raw));
  listen_addr ← parse_socket ("invalid listen_addr '" +:+ Raw.listen_addr raw +:+ "'")
                  (Raw.listen_addr raw);
  upstream_url ← map_err (λ e, HttpError.Config ("invalid upstream_url '" +:+
                   Raw.upstream_url raw +:+ "': " +:+ e)) (url_parse (Raw.upstream_url raw));
  upstream_target ← derive_upstream_target upstream_url;
  default_policy ← parse_default_policy (Raw.default_policy raw);
  client_ip_source ← parse_client_ip_source (Raw.client_ip_source raw);
  let auth := from_option (λ a, {| chain_order := Raw.chain_order a |}) auth_default
                (Raw.auth raw) in
  jwt_config ← try_option parse_jwt_config (Raw.authn raw ≫= Raw.jwt);
  api_keys ← try_each parse_api_key (Raw.api_keys raw);
  let authz := (λ a, {| policy_store_id := default EmptyString (Raw.policy_store_id a);
                        cache_ttl := Raw.authz_cache_ttl_secs a;
                        cache_max_entries := Raw.cache_max_entries a |}) <$> Raw.authz raw in
  metrics ← try_option parse_metrics (Raw.metrics raw);
  let metrics := default metrics_default metrics in
  routes ← try_each parse_route_mapping (Raw.routes raw);
  public_routes ← try_each parse_public_route (Raw.public_routes raw);
  let features := {| Features.flags := from_option Raw.flags [] (Raw.features raw) |} in
  let aws := from_option (λ a, {| ConfigTypes.region := Raw.region a;
                                  ConfigTypes.profile := Raw.profile a |})
               ConfigTypes.aws_default (Raw.aws raw) in
  let schema := from_option convert_schema ConfigTypes.schema_default (Raw.schema raw) in
  policy_tests ← try_each parse_policy_test (Raw.policy_tests raw);
  cors ← try_option (λ c, map_err HttpError.Validation (Cors.try_from c)) (Raw.cors raw);
  cluster ← try_option parse_cluster_config (Raw.cluster raw);
  signing ← try_option parse_signing_config (Raw.signing raw);
  Ok {| project_id := project_id; listen_addr := listen_addr; upstream_url := upstream_url;
        upstream_target := upstream_target; default_policy := default_policy;
        client_ip_source := client_ip_source; auth := auth; jwt_config := jwt_config;
        api_keys := api_keys; authz := authz; metrics := metrics; routes := routes;
        public_routes := public_routes; policies := Raw.policies raw;
        groups := Raw.groups raw; features := features; aws := aws; schema := schema;
        policy_tests := policy_tests; cors := cors; cluster := cluster; signing := signing |}.

(** ** Overrides *)
Record ConfigOverrides := {
  o_listen_addr : option NetAddr.SocketAddr;
  o_upstream_url : option Url;
  o_default_policy : option Pipeline.DefaultPolicy;
}.
Definition overrides_new : ConfigOverrides :=
  {| o_listen_addr := None; o_upstream_url := None; o_default_policy := None |}.
Definition with_listen_addr (addr : NetAddr.SocketAddr) (o : ConfigOverrides) : ConfigOverrides :=
  {| o_listen_addr := Some addr; o_upstream_url := o_upstream_url o;
     o_default_policy := o_default_policy o |}.
Definition with_upstream_url (url : Url) (o : ConfigOverrides) : ConfigOverrides :=
  {| o_listen_addr := o_listen_addr o; o_upstream_url := Some url;
     o_default_policy := o_default_policy o |}.
Definition with_default_policy (policy : Pipeline.DefaultPolicy) (o : ConfigOverrides)
    : ConfigOverrides :=
  {| o_listen_addr := o_listen_addr o; o_upstream_url := o_upstream_url o;
     o_default_policy := Some policy |}.

(** The configuration with these four fields. *)
Definition update (c : ProxyConfig) (addr : NetAddr.SocketAddr) (url : Url)
    (target : UpstreamTarget) (policy : Pipeline.DefaultPolicy) : ProxyConfig := {|
  project_id := project_id c; listen_addr := addr; upstream_url := url;
  upstream_target := target; default_policy := policy; client_ip_source := client_ip_source c;
  auth := auth c; jwt_config := jwt_config c; api_keys := api_keys c; authz := authz c;
  metrics := metrics c; routes := routes c; public_routes := public_routes c;
  policies := policies c; groups := groups c; features := features c; aws := aws c;
  schema := schema c; policy_tests := policy_tests c; cors := cors c; cluster := cluster c;
  signing := signing c |}.
Definition apply_overrides (c : ProxyConfig) (o : ConfigOverrides)
    : result HttpError.t ProxyConfig :=
  let addr := default (listen_addr c) (o_listen_addr o) in
  let policy := default (default_policy c) (o_default_policy o) in
  match o_upstream_url o with
  | Some url => target ← derive_upstream_target url; Ok (update c addr url target policy)
  | None => Ok (update c addr (upstream_url c) (upstream_target c) policy)
  end.

(** [toml] decodes the text, [read] the file. *)
Definition parse_config (toml : string → result string Raw.ProxyConfig) (s : string)
    : result HttpError.t ProxyConfig :=
  raw ← map_err (λ e, HttpError.Config ("TOML parse error: " +:+ e)) (toml s); try_from raw.
Definition load_config (read : string → result string string)
    (toml : string → result string Raw.ProxyConfig) (path : string)
    : result HttpError.t ProxyConfig :=
  contents ← map_err (λ e, HttpError.Config ("failed to read config file '" +:+ path +:+ "': "
                                             +:+ e)) (read path);
  parse_config toml contents.

(** The fields [validate] reads. *)
Definition to_validate (c : ProxyConfig) : Validate.ProxyConfig := {|
  Validate.routes := routes c; Validate.public_routes := public_routes c;
  Validate.features := features c; Validate.policies := policies c;
  Validate.groups := groups c |}.
End config.
End Config.

(** * Facts *)
Module ConfigFacts.
Import Config.

(** ** Socket addresses *)
Section socket.
Import NetAddr.
Open Scope N_scope.
Lemma read_number_max radix md z max s n r : read_number radix md z max s = Some (n, r) → n ≤ max.
Proof.
  unfold read_number. destruct (read_digits radix s) as [ds rest]. case_match eqn:Hc; [done|].
  intros [= <- <-]. rewrite !orb_false_iff in Hc. destruct Hc as [[_ Hc] _].
  apply bool_decide_eq_false in Hc. lia.
Qed.
Ltac inv_option := repeat match goal with
  | H : (_ ≫= _) = Some _ |- _ => apply bind_Some in H as (? & ? & H)
  | x : (_ * _)%type |- _ => destruct x
  end.
Lemma read_ipv4_wf s o r : read_ipv4_addr s = Some (o, r) →
  length o = 4%nat ∧ Forall (λ x, x < 256) o.
Proof.
  unfold read_ipv4_addr, read_octet. intros H. inv_option. simplify_eq.
  repeat match goal with Hn : read_number _ _ _ _ _ = Some _ |- _ => apply read_number_max in Hn end.
  split; [done|]. repeat constructor; lia.
Qed.
Lemma read_groups_wf slots : ∀ first s gs b r, read_groups slots first s = (gs, b, r) →
  (length gs ≤ slots)%nat ∧ Forall (λ x, x < 65536) gs.
Proof.
  induction slots as [|slots IH]; intros first s gs b r; simpl; [by intros [= <- <- <-]|].
  set (inner := if first then Some s else given ":" s).
  destruct (match slots with 0%nat => None | S _ => inner ≫= read_ipv4_addr end) as [[o r4]|] eqn:H4.
  - destruct slots as [|slots]; [done|]. apply bind_Some in H4 as (s' & _ & H4).
    apply read_ipv4_wf in H4 as [Hl Ho].
    destruct o as [|x1 [|x2 [|x3 [|x4 [|]]]]]; try done. intros [= <- <- <-]. simpl. split; [lia|].
    rewrite !Forall_cons in *. destruct_and!. split_and!; try done; lia.
  - destruct (inner ≫= read_number _ _ _ _) as [[g r']|] eqn:Hg; [|intros [= <- <- <-]; simpl; split; [lia|constructor]].
    apply bind_Some in Hg as (s' & _ & Hg%read_number_max).
    destruct (read_groups slots false r') as [[gs' b'] r''] eqn:Hr. intros [= <- <- <-].
    apply IH in Hr as [? ?]. simpl. split; [lia|]. constructor; [lia|done].
Qed.
Lemma read_ipv6_wf s gs r : read_ipv6_addr s = Some (gs, r) →
  length gs = 8%nat ∧ Forall (λ x, x < 65536) gs.
Proof.
  unfold read_ipv6_addr. destruct (read_groups 8 true s) as [[front b] s1] eqn:Hf.
  apply read_groups_wf in Hf as [Hl Hf]. case_bool_decide as H8; [by intros [= <- <-]|].
  destruct b; [done|]. intros H. inv_option.
  destruct (read_groups _ true _) as [[back b'] s4] eqn:Hb. injection H as <- <-.
  apply read_groups_wf in Hb as [Hlb Hb]. rewrite !length_app, length_replicate.
  split; [lia|]. rewrite !Forall_app. split_and!; [done| |done]. apply Forall_replicate. lia.
Qed.
(** A parsed address keeps its widths: octets, segments, scope and port. *)
Lemma socket_addr_wf s a : parse s = Ok a → wf a.
Proof.
  unfold parse. destruct (read_socket_addr_v4 s) as [[a' rest]|] eqn:H4.
  - destruct rest; [|done]. intros [= <-]. unfold read_socket_addr_v4, read_port in H4. inv_option.
    simplify_eq. apply read_ipv4_wf in H as [? ?]. apply read_number_max in H0. simpl.
    split_and!; [done..|lia].
  - destruct (read_socket_addr_v6 s) as [[a' rest]|] eqn:H6; [|done]. destruct rest; [|done].
    intros [= <-]. unfold read_socket_addr_v6, read_port in H6.
    apply bind_Some in H6 as (s1 & _ & H6). apply bind_Some in H6 as ([ip s2] & Hip & H6).
    assert (∃ sc s3, default (0, s2) (read_scope_id s2) = (sc, s3) ∧ sc < 4294967296)
      as (sc & s3 & Hsc & Hlt).
    { unfold read_scope_id. destruct (given "%" s2 ≫= _) as [[sc s3]|] eqn:Hs; simpl; [|by exists 0, s2].
      apply bind_Some in Hs as (? & _ & Hs%read_number_max). exists sc, s3. split; [done|lia]. }
    rewrite Hsc in H6. inv_option. simplify_eq. apply read_ipv6_wf in Hip as [? ?].
    repeat match goal with Hn : read_number _ _ _ _ _ = Some _ |- _ => apply read_number_max in Hn end.
    simpl. split_and!; try done; lia.
Qed.
End socket.

Lemma try_each_Ok {A B} (f : nat → A → result HttpError.t B) l k :
  try_each f l = Ok k ↔
  length k = length l ∧ ∀ i x y, l !! i = Some x → k !! i = Some y → f i x = Ok y.
Proof.
  unfold try_each. rewrite mapM_Ok, Forall2_same_length_lookup, length_imap. split.
  - intros [Hlen Hf]. split; [done|]. intros i x y Hx Hy.
    apply (Hf i (i, x) y); [|done]. by rewrite list_lookup_imap, Hx.
  - intros [Hlen Hf]. split; [done|]. intros i [j x] y Hx Hy.
    rewrite list_lookup_imap in Hx. destruct (l !! i) as [x'|] eqn:Hi; [|done].
    injection Hx as <- <-. by eapply Hf.
Qed.
Lemma try_each_elem {A B} (f : nat → A → result HttpError.t B) l k y :
  try_each f l = Ok k → y ∈ k → ∃ i x, l !! i = Some x ∧ f i x = Ok y.
Proof.
  intros [Hlen Hf]%try_each_Ok [i Hy]%list_elem_of_lookup.
  destruct (lookup_lt_is_Some_2 l i) as [x Hx].
  { rewrite <-Hlen. by eapply lookup_lt_Some. }
  exists i, x. split; [done|]. by eapply Hf.
Qed.
Lemma try_each_returns {A B} (f : nat → A → result HttpError.t B) l :
  (∀ i x, returns (f i x)) → returns (try_each f l).
Proof.
  intros Hf. unfold try_each. induction (imap pair l) as [|[i x] l' IH]; simpl; [apply returns_Ok|].
  apply returns_bind; [apply Hf|]. intros y _. apply returns_bind; [done|]. intros. apply returns_Ok.
Qed.
Lemma try_each_Forall2 {A B} (f : nat → A → result HttpError.t B) (R : A → B → Prop) l k :
  (∀ i x y, f i x = Ok y ↔ R x y) → try_each f l = Ok k ↔ Forall2 R l k.
Proof.
  intros Hf. rewrite try_each_Ok, Forall2_same_length_lookup. setoid_rewrite Hf. naive_solver.
Qed.
Lemma try_option_Forall2 {A B} (f : A → result HttpError.t B) (R : A → B → Prop) o o' :
  (∀ x y, f x = Ok y ↔ R x y) → try_option f o = Ok o' ↔ option_Forall2 R o o'.
Proof.
  intros Hf. destruct o as [x|]; simpl.
  - rewrite fmap_Ok. setoid_rewrite Hf. split; [intros (y & Hy & ->); by constructor|].
    inversion 1; eauto.
  - split; [intros [= <-]; constructor|by inversion 1].
Qed.
Lemma try_option_returns {A B} (f : A → result HttpError.t B) o :
  (∀ x, returns (f x)) → returns (try_option f o).
Proof. intros Hf. destruct o; simpl; auto with returns. Qed.

Section parsed.
Context `{UrlLib}.
Implicit Types (c : ProxyConfig).

(** ** What an entry of the file declares *)
Definition route_declared (raw : Raw.RouteMapping) (r : Route.RouteMapping) : Prop :=
  HttpMethod.from_str (Raw.method raw) = Ok (Route.method r) ∧
  QualifiedAction.parse (Raw.action raw) = Ok (Route.action r) ∧
  option_Forall2 (λ s g, FlagName.parse s = Ok g) (Raw.feature_gate raw) (Route.feature_gate r) ∧
  r = Route.new (Route.method r) (Raw.path raw) (Route.action r) (Raw.resource_param raw)
        (Route.feature_gate r).
Definition public_declared (raw : Raw.PublicRoute) (r : Route.PublicRoute) : Prop :=
  HttpMethod.from_str (Raw.p_method raw) = Ok (Route.p_method r) ∧
  Route.p_path_pattern r = Raw.p_path raw ∧
  to_ascii_lowercase (Raw.auth_mode raw) =
    match Route.auth_mode r with
    | Route.AnonymousMode => "anonymous" | Route.OpportunisticMode => "opportunistic" end.
Definition key_declared (raw : Raw.ApiKeyEntry) (e : ApiKeyConfig) : Prop :=
  key e = Raw.key raw ∧ key e ≠ EmptyString ∧ Id.new (Raw.key_user_id raw) = Ok (user_id e) ∧
  option_Forall2 (λ s t, Id.new s = Ok t) (Raw.key_tenant_id raw) (tenant_id e) ∧
  Forall2 (λ s g, Id.new s = Ok g) (Raw.key_groups raw) (key_groups e).
Definition test_declared (raw : Raw.PolicyTest) (t : ConfigTypes.PolicyTest) : Prop :=
  QualifiedAction.parse (Raw.test_action raw) = Ok (ConfigTypes.action t) ∧
  Forall2 (λ s g, Id.new s = Ok g) (Raw.test_groups raw) (ConfigTypes.groups t) ∧
  option_Forall2 (λ s r, Permission.ref_parse s = Ok r) (Raw.test_resource raw)
    (ConfigTypes.resource t) ∧
  to_ascii_lowercase (Raw.test_expect raw) =
    match ConfigTypes.expect t with ConfigTypes.Allow => "allow" | ConfigTypes.Deny => "deny" end ∧
  ConfigTypes.name t = Raw.test_name raw ∧ ConfigTypes.principal t = Raw.test_principal raw ∧
  ConfigTypes.tenant t = Raw.test_tenant raw.
Definition jwt_declared (raw : Raw.JwtConfig) (j : JwtConfig) : Prop :=
  url_parse (Raw.jwks_url raw) = Ok (jwks_url j) ∧ issuer j = Raw.issuer raw ∧
  issuer j ≠ EmptyString ∧ audience j = Raw.audience raw ∧
  user_id_claim j = Raw.user_id_claim raw ∧ cache_ttl_secs j = Raw.cache_ttl_secs raw.
Definition cluster_declared (raw : Raw.ClusterConfig) (k : ClusterConfig) : Prop :=
  url_parse (Raw.redis_url raw) = Ok (redis_url k) ∧
  option_Forall2 (λ s a, NetAddr.parse s = Ok a) (Raw.listen_cluster_addr raw)
    (listen_cluster_addr k) ∧
  k = {| redis_url := redis_url k; instance_id := Raw.instance_id raw;
         priority := Raw.priority raw; heartbeat_interval := Raw.heartbeat_interval_secs raw;
         min_quorum := Raw.min_quorum raw; listen_cluster_addr := listen_cluster_addr k |}.
Definition signing_declared (raw : Raw.SigningConfig) (s : SigningConfig) : Prop :=
  key_path s = Raw.key_path raw ∧ Signing.KeyId.as_str (key_id s) = Raw.key_id raw ∧
  Raw.key_id raw ≠ EmptyString.
Definition target_of (url : Url) (t : UpstreamTarget) : Prop :=
  ∃ host port, host_str url = Some host ∧ port_or_known_default url = Some port ∧
    addr t = host +:+ ":" +:+ pretty port ∧ sni t = host ∧
    (tls t = true ↔ scheme url = "https").
Definition policy_text (p : Pipeline.DefaultPolicy) : string :=
  match p with Pipeline.Passthrough => "passthrough" | Pipeline.DenyByDefault => "deny" end.
Definition ip_source_texts (s : Proxy.ClientIpSource) : list string :=
  match s with
  | Proxy.Peer => ["peer"] | Proxy.XForwardedFor => ["x-forwarded-for"; "xforwardedfor"]
  | Proxy.CfConnectingIp => ["cf-connecting-ip"; "cfconnectingip"] end.

(** The schema section: the same entries, with the same parents and attributes. *)
Definition schema_declared (raw : option Raw.SchemaConfig) (s : ConfigTypes.SchemaConfig) : Prop :=
  ∀ ns, option_Forall2 (λ em em', ∀ e, option_Forall2 (λ x y,
          ConfigTypes.member_of y = Raw.member_of x ∧ ConfigTypes.attributes y = Raw.attributes x)
          (em !! e) (em' !! e))
    (raw ≫= λ s, Raw.entities s !! ns) (ConfigTypes.entities s !! ns).

(** Every field of the file is valid, and read as it is. *)
Record declared (raw : Raw.ProxyConfig) c : Prop := {
  de_project : Id.new (Raw.project_id raw) = Ok (project_id c);
  de_listen : NetAddr.parse (Raw.listen_addr raw) = Ok (listen_addr c);
  de_url : url_parse (Raw.upstream_url raw) = Ok (upstream_url c);
  de_target : target_of (upstream_url c) (upstream_target c);
  de_policy : to_ascii_lowercase (Raw.default_policy raw) = policy_text (default_policy c);
  de_ip : to_ascii_lowercase (Raw.client_ip_source raw) ∈ ip_source_texts (client_ip_source c);
  de_auth : chain_order (auth c) = from_option Raw.chain_order ["jwt"; "api-key"] (Raw.auth raw);
  de_jwt : option_Forall2 jwt_declared (Raw.authn raw ≫= Raw.jwt) (jwt_config c);
  de_keys : Forall2 key_declared (Raw.api_keys raw) (api_keys c);
  de_authz : authz c = (λ a, {| policy_store_id := default EmptyString (Raw.policy_store_id a);
                                cache_ttl := Raw.authz_cache_ttl_secs a;
                                cache_max_entries := Raw.cache_max_entries a |}) <$> Raw.authz raw;
  de_metrics : metrics_enabled (metrics c) = from_option Raw.enabled false (Raw.metrics raw);
  de_metrics_addr : option_Forall2 (λ s a, NetAddr.parse s = Ok a)
    (Raw.metrics raw ≫= Raw.metrics_listen_addr) (metrics_listen_addr (metrics c));
  de_routes : Forall2 route_declared (Raw.routes raw) (routes c);
  de_public : Forall2 public_declared (Raw.public_routes raw) (public_routes c);
  de_policies : policies c = Raw.policies raw;
  de_groups : groups c = Raw.groups raw;
  de_features : Features.flags (features c) = from_option Raw.flags [] (Raw.features raw);
  de_aws : aws c = {| ConfigTypes.region := Raw.aws raw ≫= Raw.region;
                      ConfigTypes.profile := Raw.aws raw ≫= Raw.profile |};
  de_schema : schema_declared (Raw.schema raw) (schema c);
  de_tests : Forall2 test_declared (Raw.policy_tests raw) (policy_tests c);
  de_cors : option_Forall2 (λ r v, Cors.try_from r = Ok v) (Raw.cors raw) (cors c);
  de_cluster : option_Forall2 cluster_declared (Raw.cluster raw) (cluster c);
  de_signing : option_Forall2 signing_declared (Raw.signing raw) (signing c);
}.

Lemma groups_declared what gs k :
  parse_groups what gs = Ok k ↔ Forall2 (λ s g, Id.new s = Ok g) gs k.
Proof. apply try_each_Forall2. intros i s g. apply map_err_Ok. Qed.
Lemma route_declared_Ok i raw r : parse_route_mapping i raw = Ok r ↔ route_declared raw r.
Proof.
  unfold parse_route_mapping, parse_method. rewrite bind_Ok.
  setoid_rewrite bind_Ok. setoid_rewrite bind_Ok. setoid_rewrite map_err_Ok.
  setoid_rewrite (try_option_Forall2 _ (λ s g, FlagName.parse s = Ok g)); [|intros; apply map_err_Ok].
  unfold route_declared. split.
  - by intros (m & Hm & q & Hq & g & Hg & [= <-]).
  - intros (Hm & Hq & Hg & Hr). do 3 (eexists; split; [done|]). by rewrite <-Hr.
Qed.
Lemma public_declared_Ok i raw r : parse_public_route i raw = Ok r ↔ public_declared raw r.
Proof.
  unfold parse_public_route, parse_method. rewrite bind_Ok.
  setoid_rewrite bind_Ok. setoid_rewrite map_err_Ok. unfold public_declared. split.
  - intros (m & Hm & a & Ha & [= <-]). simpl. split_and!; [done..|].
    by repeat case_bool_decide; simplify_eq.
  - intros (Hm & Hp & Ha). eexists. split; [done|]. rewrite Ha. exists (Route.auth_mode r).
    destruct r as [? ? []]; simpl in *; subst; done.
Qed.
Lemma key_declared_Ok i raw e : parse_api_key i raw = Ok e ↔ key_declared raw e.
Proof.
  unfold parse_api_key. destruct (is_empty (Raw.key raw)) eqn:Hk.
  { apply is_empty_true in Hk. split; [done|]. unfold key_declared. intros (He & Hne & _). congruence. }
  apply is_empty_false in Hk. rewrite bind_Ok. setoid_rewrite bind_Ok. setoid_rewrite bind_Ok.
  setoid_rewrite map_err_Ok. setoid_rewrite groups_declared.
  setoid_rewrite (try_option_Forall2 _ (λ s t, Id.new s = Ok t)); [|intros; apply map_err_Ok].
  unfold key_declared. split.
  - by intros (u & Hu & t & Ht & gs & Hg & [= <-]).
  - intros (He & _ & Hu & Ht & Hg). do 3 (eexists; split; [done|]). rewrite <-He. by destruct e.
Qed.
Lemma test_declared_Ok i raw t : parse_policy_test i raw = Ok t ↔ test_declared raw t.
Proof.
  unfold parse_policy_test. rewrite bind_Ok.
  setoid_rewrite bind_Ok. setoid_rewrite bind_Ok. setoid_rewrite bind_Ok.
  setoid_rewrite map_err_Ok. setoid_rewrite groups_declared.
  setoid_rewrite (try_option_Forall2 _ (λ s r, Permission.ref_parse s = Ok r));
    [|intros; apply map_err_Ok].
  unfold test_declared. split.
  - intros (q & Hq & gs & Hg & r & Hr & x & Hx & [= <-]). simpl. split_and!; [done..| |done|done|done].
    by repeat case_bool_decide; simplify_eq.
  - intros (Hq & Hg & Hr & Hx & Hn & Hp & Ht). do 3 (eexists; split; [done|]). rewrite Hx.
    exists (ConfigTypes.expect t). destruct t as [? ? ? ? ? ? []]; simpl in *; subst; done.
Qed.
Lemma jwt_declared_Ok raw j : parse_jwt_config raw = Ok j ↔ jwt_declared raw j.
Proof.
  unfold parse_jwt_config. rewrite bind_Ok. setoid_rewrite map_err_Ok.
  destruct (is_empty (Raw.issuer raw)) eqn:Hi.
  { apply is_empty_true in Hi. split; [by intros (? & _ & ?)|]. unfold jwt_declared. intros (_ & He & Hne & _).
    congruence. }
  apply is_empty_false in Hi. unfold jwt_declared. split.
  - by intros (u & Hu & [= <-]).
  - intros (Hu & He & _ & Ha & Hc & Ht). eexists. split; [done|]. by destruct j; simpl in *; subst.
Qed.
Lemma cluster_declared_Ok raw k : parse_cluster_config raw = Ok k ↔ cluster_declared raw k.
Proof.
  unfold parse_cluster_config. rewrite bind_Ok. setoid_rewrite bind_Ok.
  setoid_rewrite map_err_Ok.
  setoid_rewrite (try_option_Forall2 _ (λ s a, NetAddr.parse s = Ok a)); [|intros; apply map_err_Ok].
  unfold cluster_declared. split.
  - by intros (u & Hu & a & Ha & [= <-]).
  - intros (Hu & Ha & Hk). do 2 (eexists; split; [done|]). by rewrite <-Hk.
Qed.
Lemma signing_declared_Ok raw s : parse_signing_config raw = Ok s ↔ signing_declared raw s.
Proof.
  unfold parse_signing_config, signing_declared, Signing.KeyId.try_from.
  destruct (is_empty (Raw.key_id raw)) eqn:Hk.
  { apply is_empty_true in Hk. split; [done|]. intros (_ & _ & ?). congruence. }
  apply is_empty_false in Hk. split; [by intros [= <-]|].
  intros (Hp & Hi & _). destruct s as [? [?]]. simpl in *. by subst.
Qed.
Lemma target_of_Ok url t : derive_upstream_target url = Ok t ↔ target_of url t.
Proof.
  unfold derive_upstream_target, target_of. rewrite bind_Ok. setoid_rewrite bind_Ok.
  setoid_rewrite ok_or_Ok. split.
  - intros (h & Hh & p & Hp & [= <-]). exists h, p. simpl. by rewrite bool_decide_eq_true.
  - intros (h & p & Hh & Hp & Ha & Hs & Ht). do 2 (eexists; split; [done|]).
    destruct t as [a [] s]; simpl in *; subst; do 2 f_equal.
    + apply bool_decide_eq_true. naive_solver.
    + apply bool_decide_eq_false. naive_solver.
Qed.
Lemma policy_text_Ok s p : parse_default_policy s = Ok p ↔ to_ascii_lowercase s = policy_text p.
Proof.
  unfold parse_default_policy. cbv zeta. split.
  - repeat case_bool_decide; by intros [= <-].
  - intros ->. by destruct p.
Qed.
Lemma ip_source_Ok s p :
  parse_client_ip_source s = Ok p ↔ to_ascii_lowercase s ∈ ip_source_texts p.
Proof.
  unfold parse_client_ip_source. cbv zeta. split.
  - repeat case_bool_decide; simpl; intros [= <-]; set_solver.
  - destruct p; simpl; rewrite ?elem_of_cons, ?elem_of_nil; intros H'; destruct_or?; try done; by rewrite H'.
Qed.
Lemma metrics_declared_Ok m o :
  from_option parse_metrics (Ok metrics_default) o = Ok m ↔
  metrics_enabled m = from_option Raw.enabled false o ∧
  option_Forall2 (λ s a, NetAddr.parse s = Ok a) (o ≫= Raw.metrics_listen_addr)
    (metrics_listen_addr m).
Proof.
  destruct o as [r|]; simpl.
  - unfold parse_metrics. rewrite bind_Ok.
    setoid_rewrite (try_option_Forall2 _ (λ s a, NetAddr.parse s = Ok a)); [|intros; apply map_err_Ok].
    split; [by intros (a & Ha & [= <-])|]. intros [He Ha]. eexists. split; [done|].
    destruct m. simpl in *. by subst.
  - split; [intros [= <-]; split; [done|constructor]|]. destruct m. simpl.
    intros [-> Ha]. by inversion Ha.
Qed.
Lemma schema_declared_iff raw s :
  s = from_option convert_schema ConfigTypes.schema_default raw ↔ schema_declared raw s.
Proof.
  split.
  - intros -> ns. destruct raw as [raw|]; simpl; [|rewrite lookup_empty; constructor].
    rewrite (lookup_fmap (M := gmap string)).
    destruct (Raw.entities raw !! ns) as [em|]; constructor. intros e.
    rewrite (lookup_fmap (M := gmap string)). by destruct (em !! e); constructor.
  - intros Hs. destruct s as [es].
    transitivity {| ConfigTypes.entities := ConfigTypes.entities
                      (from_option convert_schema ConfigTypes.schema_default raw) |};
      [|by destruct raw]. f_equal. apply map_eq. intros ns. specialize (Hs ns). simpl in Hs.
    destruct raw as [raw|]; simpl in *; [|inversion Hs; by rewrite lookup_empty].
    rewrite (lookup_fmap (M := gmap string)). inversion Hs as [em em' Hem Hr Hc|Hr Hc]; [|done].
    simpl. f_equal. apply map_eq. intros e. rewrite (lookup_fmap (M := gmap string)).
    destruct (Hem e) as [x y [Hm Ha]|]; [|done]. simpl. f_equal. destruct y. simpl in *. by subst.
Qed.
Local Ltac go := cbn [mbind result_bind map_err].
Lemma config_from_Ok raw c : try_from raw = Ok c ↔ declared raw c.
Proof.
  assert (try_from raw = Ok c ↔
    Id.new (Raw.project_id raw) = Ok (project_id c) ∧
    NetAddr.parse (Raw.listen_addr raw) = Ok (listen_addr c) ∧
    url_parse (Raw.upstream_url raw) = Ok (upstream_url c) ∧
    derive_upstream_target (upstream_url c) = Ok (upstream_target c) ∧
    parse_default_policy (Raw.default_policy raw) = Ok (default_policy c) ∧
    parse_client_ip_source (Raw.client_ip_source raw) = Ok (client_ip_source c) ∧
    try_option parse_jwt_config (Raw.authn raw ≫= Raw.jwt) = Ok (jwt_config c) ∧
    try_each parse_api_key (Raw.api_keys raw) = Ok (api_keys c) ∧
    from_option parse_metrics (Ok metrics_default) (Raw.metrics raw) = Ok (metrics c) ∧
    try_each parse_route_mapping (Raw.routes raw) = Ok (routes c) ∧
    try_each parse_public_route (Raw.public_routes raw) = Ok (public_routes c) ∧
    try_each parse_policy_test (Raw.policy_tests raw) = Ok (policy_tests c) ∧
    option_Forall2 (λ r v, Cors.try_from r = Ok v) (Raw.cors raw) (cors c) ∧
    try_option parse_cluster_config (Raw.cluster raw) = Ok (cluster c) ∧
    try_option parse_signing_config (Raw.signing raw) = Ok (signing c) ∧
    chain_order (auth c) = from_option Raw.chain_order ["jwt"; "api-key"] (Raw.auth raw) ∧
    authz c = (λ a, {| policy_store_id := default EmptyString (Raw.policy_store_id a);
                       cache_ttl := Raw.authz_cache_ttl_secs a;
                       cache_max_entries := Raw.cache_max_entries a |}) <$> Raw.authz raw ∧
    policies c = Raw.policies raw ∧ groups c = Raw.groups raw ∧
    Features.flags (features c) = from_option Raw.flags [] (Raw.features raw) ∧
    aws c = {| ConfigTypes.region := Raw.aws raw ≫= Raw.region;
               ConfigTypes.profile := Raw.aws raw ≫= Raw.profile |} ∧
    schema c = from_option convert_schema ConfigTypes.schema_default (Raw.schema raw)) as ->.
  { unfold try_from, parse_socket. split.
    - intros Hc. do 15 (apply bind_Ok in Hc as (? & ? & Hc)). injection Hc as <-.
      repeat match goal with Hx : map_err _ _ = Ok _ |- _ => apply map_err_Ok in Hx end.
      simpl. split_and!; try done.
      + destruct (Raw.metrics raw) as [m|]; simpl in *; [|by simplify_eq].
        by match goal with Hx : _ <$> parse_metrics m = Ok _ |- _ => apply fmap_Ok in Hx as (? & -> & ->) end.
      + match goal with Hx : try_option _ (Raw.cors raw) = Ok ?v |- _ =>
          revert Hx; apply try_option_Forall2; intros; apply map_err_Ok end.
      + by destruct (Raw.auth raw).
      + by destruct (Raw.aws raw).
    - intros (H1 & H2 & H3 & H4 & H5 & H6 & H7 & H8 & H9 & H10 & H11 & H12 & H13 & H14 & H15 & Hrest).
      rewrite H1, H2, H3. go. rewrite H4, H5, H6. go. rewrite H7, H8. go.
      assert (∃ o, try_option parse_metrics (Raw.metrics raw) = Ok o ∧
                   metrics c = default metrics_default o) as (om & -> & Hm).
      { destruct (Raw.metrics raw) as [m|]; simpl in *; [|exists None; naive_solver].
        rewrite H9. by exists (Some (metrics c)). }
      go. rewrite H10, H11. go. rewrite H12. go.
      rewrite (proj2 (try_option_Forall2 (λ r, map_err HttpError.Validation (Cors.try_from r)) _ _ _
        (λ r v, map_err_Ok _ _ _)) H13). go. rewrite H14, H15. go. rewrite <-Hm.
      clear -Hrest. destruct c as [? ? ? ? ? ? [?] ? ? ? ? ? ? ? ? [?] ? ? ? ? ? ?]. simpl in *.
      destruct Hrest as (-> & -> & -> & -> & -> & -> & ->).
      by destruct (Raw.auth raw), (Raw.aws raw), (Raw.features raw). }
  rewrite target_of_Ok, policy_text_Ok, ip_source_Ok, metrics_declared_Ok.
  rewrite (try_option_Forall2 _ _ _ _ jwt_declared_Ok), (try_each_Forall2 _ _ _ _ key_declared_Ok),
    (try_each_Forall2 _ _ _ _ route_declared_Ok), (try_each_Forall2 _ _ _ _ public_declared_Ok),
    (try_each_Forall2 _ _ _ _ test_declared_Ok), (try_option_Forall2 _ _ _ _ cluster_declared_Ok),
    (try_option_Forall2 _ _ _ _ signing_declared_Ok), schema_declared_iff.
  split; [intros; destruct_and!; by split|]. intros []. split_and!; done.
Qed.

(** ** Parsing always returns *)
Lemma namespace_parse_returns s : returns (Namespace.parse s).
Proof. unfold Namespace.parse. case_bool_decide; auto with returns. Qed.
Lemma action_parse_returns s : returns (QualifiedAction.parse s).
Proof.
  unfold QualifiedAction.parse, Action.parse, Entity.parse.
  destruct (splitn 4 ":" s) as [|? [|? [|? [|? ?]]]]; auto with returns.
  apply returns_bind; [apply namespace_parse_returns|intros]. repeat (apply returns_bind; [auto with returns|intros]).
  auto with returns.
Qed.
Lemma flag_name_parse_returns s : returns (FlagName.parse s).
Proof.
  unfold FlagName.parse. destruct (is_empty s); [auto with returns|].
  destruct (split_once ":" s) as [[ns n]|]; [|auto with returns].
  apply returns_bind; [apply namespace_parse_returns|intros]. apply returns_bind; auto with returns.
Qed.
Lemma ref_parse_returns s : returns (Permission.ref_parse s).
Proof.
  unfold Permission.ref_parse. destruct (split_str "::" s) as [|? [|? [|? [|? ?]]]]; auto with returns.
  repeat (apply returns_bind; [auto with returns|intros]). auto with returns.
Qed.
Lemma method_parse_returns s : returns (HttpMethod.from_str s).
Proof. unfold HttpMethod.from_str. cbv zeta. repeat case_match; auto with returns. Qed.
Lemma socket_parse_returns s : returns (NetAddr.parse s).
Proof. unfold NetAddr.parse. repeat case_match; auto with returns. Qed.
Lemma cors_parse_returns r : returns (Cors.try_from r).
Proof. unfold Cors.try_from. repeat case_match; auto with returns. Qed.
Lemma id_parse_returns k s : returns (Id.new (k := k) s).
Proof. unfold Id.new. auto with returns. Qed.
#[local] Hint Resolve namespace_parse_returns action_parse_returns flag_name_parse_returns ref_parse_returns method_parse_returns
  socket_parse_returns cors_parse_returns id_parse_returns try_each_returns try_option_returns : returns.
Ltac parse_returns := repeat first
  [ solve [auto with returns] | apply returns_bind; [|intros ? _] | apply returns_map_err
  | apply returns_fmap | apply try_each_returns; intros | apply try_option_returns; intros
  | case_match ].
Lemma try_from_returns `{!UrlLaws} raw : returns (try_from raw).
Proof.
  unfold try_from, parse_socket, parse_client_ip_source, parse_default_policy,
    derive_upstream_target, parse_jwt_config, parse_api_key, parse_groups, parse_metrics,
    parse_route_mapping, parse_public_route, parse_policy_test, parse_method, parse_socket,
    parse_cluster_config, parse_signing_config, parse_socket, Signing.KeyId.try_from.
  cbv zeta. parse_returns.
Qed.

(** C32: the configuration file is read exactly.  Parsing always returns; it
    accepts a file exactly when every field is valid (the project a segment,
    addresses and URLs parsed, an upstream with host and port, known methods,
    actions, flags and groups, non-empty keys and issuer, known words in any
    case, a CORS section without errors), whatever the order the code checks
    them in; the configuration is then the one those fields declare, and its
    listen address keeps its widths. *)
Theorem config_parse_exact `{!UrlLaws} raw :
  match try_from raw with
  | Ok c => declared raw c ∧ NetAddr.wf (listen_addr c) ∧ ∀ c', declared raw c' → c' = c
  | Err _ => ∀ c, ¬ declared raw c
  | Stuck _ => False
  end.
Proof.
  pose proof (try_from_returns raw) as Hr. destruct (try_from raw) as [c|e|w] eqn:Hp.
  - pose proof (proj1 (config_from_Ok raw c) Hp) as Hd. split_and!; [done| |].
    + by eapply socket_addr_wf, de_listen.
    + intros c' Hc'%config_from_Ok. congruence.
  - intros c Hc%config_from_Ok. congruence.
  - by apply (Hr w).
Qed.

(** the upstream target is the one of the upstream URL, and stays so under
    overrides, which change no other field than those they name. *)
Lemma apply_overrides_Ok c o c' : apply_overrides c o = Ok c' ↔
  ∃ target, c' = update c (default (listen_addr c) (o_listen_addr o))
    (default (upstream_url c) (o_upstream_url o)) target
    (default (default_policy c) (o_default_policy o)) ∧
  match o_upstream_url o with
  | Some url => target_of url target
  | None => target = upstream_target c
  end.
Proof.
  unfold apply_overrides. cbv zeta. destruct (o_upstream_url o) as [url|]; simpl.
  - rewrite bind_Ok. setoid_rewrite target_of_Ok. naive_solver.
  - naive_solver.
Qed.
Lemma overrides_target c o c' : target_of (upstream_url c) (upstream_target c) →
  apply_overrides c o = Ok c' → target_of (upstream_url c') (upstream_target c').
Proof.
  intros Ht (t & -> & Hm)%apply_overrides_Ok. unfold update. simpl.
  destruct (o_upstream_url o); simpl; [done|by subst].
Qed.
End parsed.

(** ** The entities of the schema *)
Section schema.
Context `{HashOrderLaws}.
Import ConfigTypes.
Implicit Types (c : SchemaConfig).

Lemma elem_of_entity_entries c k v :
  (k, v) ∈ entity_entries c ↔ ∃ ns em e s, entities c !! ns = Some em ∧ em !! e = Some s ∧
    k = entity_key ns e ∧ v = entity_schema_config s.
Proof.
  assert (∀ A (m : gmap string A) x y, (x, y) ∈ hash_iter m ↔ m !! x = Some y) as Hi.
  { intros A m x y. by rewrite hash_iter_perm, elem_of_map_to_list. }
  unfold entity_entries. rewrite list_elem_of_bind. split.
  - intros ([ns em] & Hin & Hem%Hi). apply list_elem_of_bind in Hin as ([e s] & Hin & Hs%Hi).
    apply list_elem_of_singleton in Hin as [= -> ->]. naive_solver.
  - intros (ns & em & e & s & Hem & Hs & -> & ->). exists (ns, em). rewrite Hi. split; [|done].
    apply list_elem_of_bind. exists (e, s). rewrite Hi. split; [by left|done].
Qed.
(** Collecting a list whose keys determine their values. *)
Lemma collect_lookup {V} (l : list (string * V)) (m : gmap string V) k :
  match foldl (λ m kv, <[kv.1 := kv.2]> m) m l !! k with
  | Some v => (k, v) ∈ l ∨ m !! k = Some v
  | None => m !! k = None ∧ ∀ v, (k, v) ∉ l
  end.
Proof.
  revert m. induction l as [|[x y] l IH]; intros m; simpl.
  { destruct (m !! k); [by right|]. split; [done|]. intros v. apply not_elem_of_nil. }
  specialize (IH (<[x := y]> m)). destruct (foldl _ _ l !! k) as [v|].
  - rewrite elem_of_cons. destruct IH as [?|Hm]; [by auto|].
    apply lookup_insert_Some in Hm as [[-> ->]|[_ ?]]; auto.
  - destruct IH as [Hm Hl]. apply lookup_insert_None in Hm as [Hm Hne]. split; [done|].
    intros v [[= <- _]|Hin]%elem_of_cons; [done|by destruct (Hl v)].
Qed.

Lemma split_once_colons x y :
  contains_char ":" x = false → split_once_str "::" (x +:+ "::" +:+ y) = Some (x, y).
Proof.
  induction x as [|a x IH]; intros Hx; [done|]. rewrite contains_char_cons in Hx.
  apply orb_false_iff in Hx as [Ha Hx]. rewrite str_app_cons. cbn [split_once_str].
  assert (RustStr.strip_prefix "::" (String a (x +:+ "::" +:+ y)) = None) as ->.
  { cbn [RustStr.strip_prefix]. by rewrite Ha. }
  by rewrite IH.
Qed.
Lemma split_once_no_colon y : contains_char ":" y = false → split_once_str "::" y = None.
Proof.
  induction y as [|a y IH]; intros Hy; [done|]. rewrite contains_char_cons in Hy.
  apply orb_false_iff in Hy as [Ha Hy]. cbn [split_once_str]. rewrite IH by done.
  cbn [RustStr.strip_prefix]. by rewrite Ha.
Qed.
Lemma member_key_type (ns e : Segment.t) : Segment.wf ns → Segment.wf e →
  member_key (Segment.as_str ns +:+ "::" +:+ Segment.as_str e) =
  CedarEntityType.as_str (CedarEntityType.new_from_segments ns e).
Proof.
  intros Hns He. unfold member_key, replace_str, split_str.
  assert (S (String.length (Segment.as_str ns +:+ "::" +:+ Segment.as_str e)) =
    S (S (String.length (Segment.as_str ns) + S (String.length (Segment.as_str e))))) as ->.
  { rewrite !str_app_length. simpl. lia. }
  cbn [split_str_loop].
  rewrite split_once_colons, split_once_no_colon by (by apply SegmentFacts.wf_no_byte).
  unfold RustStr.join. simpl. unfold ident. by rewrite !replace_char_app.
Qed.

(** Namespaces and entities are named by segments. *)
Definition segment_names c : Prop := ∀ ns em, entities c !! ns = Some em →
  Segment.wf (Segment.mk ns) ∧ ∀ e s, em !! e = Some s → Segment.wf (Segment.mk e).
Definition configured c : gmap string Schema.EntitySchemaConfig := default ∅ (to_entity_config c).

Lemma configured_lookup c k :
  match configured c !! k with
  | Some v => (k, v) ∈ entity_entries c
  | None => ∀ v, (k, v) ∉ entity_entries c
  end.
Proof.
  unfold configured, to_entity_config. case_bool_decide as Hc; simpl.
  - rewrite lookup_empty. intros v (ns & em & e & s & Hem & _)%elem_of_entity_entries.
    by rewrite Hc, lookup_empty in Hem.
  - pose proof (collect_lookup (entity_entries c) ∅ k) as Hl.
    destruct (foldl _ _ _ !! k); [|by destruct Hl].
    destruct Hl as [?|Hl]; [done|]. by rewrite lookup_empty in Hl.
Qed.
Lemma key_underscore ns e : contains_char "_" (entity_key ns e) = true.
Proof. unfold entity_key. rewrite !contains_char_app, contains_char_cons. simpl. apply orb_true_r. Qed.
Lemma not_configured c k : contains_char "_" k = false → configured c !! k = None.
Proof.
  intros Hk. pose proof (configured_lookup c k) as Hl. destruct (configured c !! k) as [v|]; [|done].
  apply elem_of_entity_entries in Hl as (ns & em & e & s & _ & _ & -> & _).
  by rewrite key_underscore in Hk.
Qed.

(** What an entry of the file says of a type.  A parent written [ns::e] is the
    type of that namespace and entity, and one without separators is itself;
    an attribute is there with its type exactly when its type is one of the
    three words of the format. *)
Inductive type_word : string → Schema.CedarAttributeType → Prop :=
| word_string : type_word "String" Schema.StringT
| word_long : type_word "Long" Schema.Long
| word_boolean : type_word "Boolean" Schema.Boolean.
Record says (s : EntitySchema) (v : Schema.EntitySchemaConfig) : Prop := {
  says_number : length (Schema.member_of v) = length (member_of s);
  says_qualified i (ns e : Segment.t) : Segment.wf ns → Segment.wf e →
    member_of s !! i = Some (Segment.as_str ns +:+ "::" +:+ Segment.as_str e) →
    Schema.member_of v !! i =
      Some (CedarEntityType.as_str (CedarEntityType.new_from_segments ns e));
  says_plain i m : contains_char ":" m = false → contains_char "-" m = false →
    member_of s !! i = Some m → Schema.member_of v !! i = Some m;
  says_attribute name t : Schema.attributes v !! name = Some t ↔
    ∃ w, attributes s !! name = Some w ∧ type_word w t;
}.
Lemma type_word_Ok w t : Schema.try_from w = Ok t ↔ type_word w t.
Proof.
  unfold Schema.try_from. split.
  - do 3 (case_bool_decide as Hw; [subst; intros [= <-]; constructor|clear Hw]). done.
  - by intros [].
Qed.
Lemma replace_char_none a b m : contains_char a m = false → replace_char a b m = m.
Proof.
  induction m as [|c m IH]; [done|]. rewrite contains_char_cons. intros [Hc Hm]%orb_false_iff.
  simpl. rewrite IH by done. rewrite Ascii.eqb_sym, Hc. done.
Qed.
Lemma member_key_plain m :
  contains_char ":" m = false → contains_char "-" m = false → member_key m = m.
Proof.
  intros Hc Hd. unfold member_key, replace_str, split_str.
  assert (split_str_loop (S (String.length m)) "::" m = [m]) as ->.
  { cbn [split_str_loop]. by rewrite split_once_no_colon. }
  unfold RustStr.join. simpl. by apply replace_char_none.
Qed.
Lemma entity_schema_says s : says s (entity_schema_config s).
Proof.
  split; simpl.
  - apply length_fmap.
  - intros i ns e Hns He Hi. rewrite list_lookup_fmap, Hi.
    apply (f_equal Some). by apply member_key_type.
  - intros i m Hc Hd Hi. rewrite list_lookup_fmap, Hi.
    apply (f_equal Some). by apply member_key_plain.
  - intros name t. rewrite lookup_omap_Some. setoid_rewrite <-type_word_Ok.
    split; intros (w & H1 & H2); exists w; (split; [|done] || split); try done;
      destruct (Schema.try_from w); naive_solver.
Qed.

(** C33: the entity configuration a file declares reaches the entity types the
    schema is generated for.  When namespaces and entities are named by
    segments, then, in whatever order the hash maps are iterated, the type of
    namespace [ns] and entity [e] is configured exactly when the file has an
    entry for them, and with what that entry says: each parent, in order, one
    written [ns::e] as that type; each attribute of type String, Long or
    Boolean, as that type, and no other attribute.  No file configures the
    built-in types [User] and [Group]. *)
Theorem schema_entities_reach_types c : segment_names c →
  (∀ ns e : Segment.t, Segment.wf ns → Segment.wf e →
     option_Forall2 says (entities c !! Segment.as_str ns ≫= lookup (Segment.as_str e))
       (configured c !! CedarEntityType.as_str (CedarEntityType.new_from_segments ns e))) ∧
  configured c !! "User" = None ∧ configured c !! "Group" = None.
Proof.
  intros Hc. split; [|by split; apply not_configured]. intros ns e Hns He.
  pose proof (configured_lookup c (CedarEntityType.as_str (CedarEntityType.new_from_segments ns e)))
    as Hl.
  destruct (configured c !! _) as [v|].
  - apply elem_of_entity_entries in Hl as (ns' & em & e' & s & Hem & Hs & Hk & ->).
    destruct (Hc _ _ Hem) as [Hns' He']. specialize (He' _ _ Hs).
    destruct (cedar_entity_type_inj ns e (Segment.mk ns') (Segment.mk e')) as [-> ->]; [done..| |].
    { unfold CedarEntityType.new_from_segments. f_equal. exact Hk. }
    simpl. rewrite Hem. simpl. rewrite Hs. constructor. apply entity_schema_says.
  - destruct (entities c !! Segment.as_str ns) as [em|] eqn:Hem; [|constructor]. simpl.
    destruct (em !! Segment.as_str e) as [s|] eqn:Hs; [|constructor]. exfalso.
    apply (Hl (entity_schema_config s)), elem_of_entity_entries.
    exists (Segment.as_str ns), em, (Segment.as_str e), s. by split_and!.
Qed.
End schema.
End ConfigFacts.

(** * Samples *)
Module ConfigSample.
Import Config.
(** URLs [scheme://host] and [scheme://host:port]. *)
Record SampleUrl := { s_text : string; s_scheme : string; s_host : string; s_port : option N }.
Definition sample_parse (s : string) : result string SampleUrl :=
  match split_once_str "://" s with
  | Some (sch, rest) =>
      match split_once ":" rest with
      | Some (host, p) =>
          match NetAddr.read_number 10 None true 65535 p with
          | Some (n, EmptyString) =>
              Ok {| s_text := s; s_scheme := sch; s_host := host; s_port := Some n |}
          | _ => Err "invalid port number"
          end
      | None => Ok {| s_text := s; s_scheme := sch; s_host := rest; s_port := None |}
      end
  | None => Err "relative URL without a base"
  end.
Definition known_port (scheme : string) : option N :=
  if bool_decide (scheme = "https") then Some 443%N
  else if bool_decide (scheme = "http") then Some 80%N else None.
#[export] Instance sample_url : UrlLib := {|
  Url := SampleUrl; url_parse := sample_parse; scheme := s_scheme;
  host_str u := if is_empty (s_host u) then None else Some (s_host u);
  port_or_known_default u := match s_port u with Some p => Some p | None => known_port (s_scheme u) end;
  url_str := s_text |}.
#[export] Instance sample_url_laws : UrlLaws.
Proof. split. intros s. simpl. unfold sample_parse. solve_returns. Qed.

Definition route (method path action : string) (gate : option string) : Raw.RouteMapping := {|
  Raw.method := method; Raw.path := path; Raw.action := action;
  Raw.resource_param := Some "id"; Raw.feature_gate := gate |}.
Definition raw : Raw.ProxyConfig := {|
  Raw.project_id := "todo"; Raw.listen_addr := "[::1]:8080";
  Raw.upstream_url := "https://api.example.com"; Raw.default_policy := Raw.default_default_policy;
  Raw.client_ip_source := Raw.default_client_ip_source;
  Raw.auth := None; Raw.authz := None; Raw.metrics := None;
  Raw.routes := [route "get" "/lists/:id" "todo:list:read" None];
  Raw.public_routes := [{| Raw.p_method := "GET"; Raw.p_path := "/about";
                           Raw.auth_mode := Raw.default_auth_mode |}];
  Raw.policies := []; Raw.groups := []; Raw.features := None; Raw.aws := None;
  Raw.schema := None; Raw.cors := None; Raw.cluster := None; Raw.signing := None;
  Raw.authn := None;
  Raw.api_keys := [{| Raw.key := "k1"; Raw.key_user_id := "ann"; Raw.key_tenant_id := Some "acme";
                      Raw.key_groups := ["staff"] |}];
  Raw.policy_tests := [] |}.
Lemma sample_accepted :
  match try_from raw with
  | Ok c => bool_decide (NetAddr.port (listen_addr c) = 8080%N) &&
            bool_decide (addr (upstream_target c) = "api.example.com:443")
  | _ => false
  end = true.
Proof. vm_cast_no_check (eq_refl true). Qed.
End ConfigSample.
#[local] Existing Instances ConfigSample.sample_url ConfigSample.sample_url_laws.

Lemma config_parse_exact_witness :
  ∃ c, ConfigFacts.declared ConfigSample.raw c ∧ NetAddr.port (Config.listen_addr c) = 8080%N ∧
    Config.addr (Config.upstream_target c) = "api.example.com:443".
Proof.
  pose proof (ConfigFacts.config_parse_exact ConfigSample.raw) as H.
  pose proof ConfigSample.sample_accepted as Hs.
  destruct (Config.try_from ConfigSample.raw) as [c|e|w]; [|discriminate Hs..].
  apply andb_true_iff in Hs as [Hp Ht]. exists c. split; [apply H|].
  split; [exact (bool_decide_eq_true_1 _ Hp)|exact (bool_decide_eq_true_1 _ Ht)].
Defined.

Module SchemaSample.
Import ConfigTypes.
#[export] Instance ascending : HashOrder := λ A, map_to_list.
#[export] Instance ascending_laws : HashOrderLaws (H := ascending).
Proof. by split. Qed.
Definition descending : HashOrder := λ A m, reverse (map_to_list m).
Lemma descending_laws : HashOrderLaws (H := descending).
Proof. split. intros A m. unfold hash_iter, descending. apply reverse_Permutation. Qed.
Definition entry (parents : list string) : EntitySchema :=
  {| member_of := parents; attributes := {["owner" := "String"; "size" := "Decimal"]} |}.
Definition sample : SchemaConfig :=
  {| entities := {["todo-app" := {["list" := entry ["todo-app::team"]]}]} |}.
(** Two namespaces with one identifier. *)
Definition colliding : SchemaConfig :=
  {| entities := {["a-b" := {["c" := entry ["x"]]}; "a_b" := {["c" := entry ["y"]]}]} |}.
Definition parents_of (o : HashOrder) (c : SchemaConfig) (k : string) : option (list string) :=
  Schema.member_of <$> (default ∅ (to_entity_config (H := o) c) !! k).
End SchemaSample.

Lemma schema_entities_reach_types_witness :
  ConfigFacts.segment_names SchemaSample.sample ∧
  ∃ v, ConfigFacts.configured (H := SchemaSample.ascending) SchemaSample.sample !! "todo_app__list" =
      Some v ∧
    Schema.member_of v !! 0 = Some "todo_app__team" ∧
    Schema.attributes v !! "owner" = Some Schema.StringT ∧ Schema.attributes v !! "size" = None.
Proof.
  assert (ConfigFacts.segment_names SchemaSample.sample) as Hs.
  { intros ns em Hem. cbn [ConfigTypes.entities SchemaSample.sample] in Hem.
    apply lookup_singleton_Some in Hem as [<- <-]. split; [vm_compute; reflexivity|].
    intros e s Hs. apply lookup_singleton_Some in Hs as [<- <-]. vm_compute. reflexivity. }
  split; [exact Hs|].
  destruct (ConfigFacts.schema_entities_reach_types (H0 := SchemaSample.ascending_laws)
    SchemaSample.sample Hs) as [H _].
  specialize (H (Segment.mk "todo-app") (Segment.mk "list") eq_refl eq_refl).
  change (CedarEntityType.as_str _) with "todo_app__list" in H.
  revert H. generalize (ConfigFacts.configured (H := SchemaSample.ascending) SchemaSample.sample
                          !! "todo_app__list") as found. intros found H.
  change (_ ≫= _) with (Some (SchemaSample.entry ["todo-app::team"])) in H.
  inversion H as [s v Hv Es Ev|]. exists v. split; [reflexivity|].
  split; [exact (ConfigFacts.says_qualified _ _ Hv 0 (Segment.mk "todo-app") (Segment.mk "team")
                   eq_refl eq_refl eq_refl)|].
  split.
  - apply (ConfigFacts.says_attribute _ _ Hv). exists "String". split; [reflexivity|constructor].
  - destruct (Schema.attributes v !! "size") as [t|] eqn:Ht; [|reflexivity].
    apply (ConfigFacts.says_attribute _ _ Hv) in Ht as (w & Hw & Hword).
    injection Hw as <-. inversion Hword.
Defined.

(** The configuration of a type is not determined by the file when names are
    not segments: two orders of iteration configure it differently. *)
Theorem colliding_entities_order :
  SchemaSample.parents_of SchemaSample.ascending SchemaSample.colliding "a_b__c" ≠
  SchemaSample.parents_of SchemaSample.descending SchemaSample.colliding "a_b__c".
Proof. by_eval. Qed.
