(* ===== verification/Startup.v ===== *)
(** The start of the proxy ([crates/proxy/src/main.rs]): from the command line
    and the configuration file to the proxy that serves requests. *)

From S2P Require Import Prelude RustStr Ident Event Action Features Authn Http Cors Pipeline Proxy.
From S2P Require Import Dfs Policies Jwt Config.

Module Startup.
Import Config.

Section startup.
Context `{UrlLib, Matchit} {SK R : Type} (wide_alphanumeric : string → bool).
(** What the JWT resolver of a configuration answers to a credential; its
    steps are those of [Jwt.JwtRun]. *)
Context (jwt_resolve : JwtResolverConfig → Credential.t → result AuthnError.t Identity.t).
(** The file system, the decoders of TOML and of the key's PEM text. *)
Context (read_to_string : string → result string string).
Context (toml : string → result string Raw.ProxyConfig).
Context (from_pkcs8_pem : string → result string SK).
(** The [vp] feature: the engine of a policy store, when it is built in. *)
Context (vp_engine : option (ProxyConfig → AuthzConfig → result string (PolicyEngine R))).

(** ** Authentication *)
Definition NANOS : N := 10 ^ 9.
Definition jwt_resolver_config (jwt : JwtConfig) : JwtResolverConfig :=
  let c := config_new (url_str (jwks_url jwt)) (issuer jwt) in
  let c := match audience jwt with Some aud => with_audience aud c | None => c end in
  let c := match user_id_claim jwt with Some claim => with_user_id_claim claim c | None => c end in
  match cache_ttl_secs jwt with Some ttl => with_cache_ttl (ttl * NANOS) c | None => c end.
Definition jwt_resolver (jwt : JwtConfig) : IdentityResolver := {|
  resolver_name := "cognito_jwt";
  can_resolve := CognitoJwtResolver.can_resolve;
  resolve_credential := jwt_resolve (jwt_resolver_config jwt);
|}.
(** Collecting into a map keeps the last entry of a key. *)
Definition build_api_key_map (entries : list ApiKeyConfig) : gmap string StaticApiKey.ApiKeyEntry :=
  foldl (λ m e, <[key e := {| StaticApiKey.key_user_id := user_id e;
                              StaticApiKey.key_tenant_id := tenant_id e;
                              StaticApiKey.key_groups := key_groups e |}]> m) ∅ entries.
(** The resolver a provider of the chain adds, if any. *)
Definition provider_resolver (config : ProxyConfig) (provider : string) : option IdentityResolver :=
  if bool_decide (provider = "jwt") then jwt_resolver <$> jwt_config config
  else if bool_decide (provider = "api-key") then
    match api_keys config with
    | [] => None
    | keys => Some (StaticApiKey.resolver (build_api_key_map keys))
    end
  else None.
Definition build_identity_chain (config : ProxyConfig) : list IdentityResolver :=
  omap (provider_resolver config) (chain_order (auth config)).

(** ** Authorization *)
Definition allow_all_engine : PolicyEngine R := {|
  evaluate _ := Ok (Decision.bare Decision.Allow);
  cache_stats := None;
|}.
Definition build_policy_engine (config : ProxyConfig) : result string (PolicyEngine R) :=
  match vp_engine, authz config with
  | None, Some _ => Err "a VP policy store is configured but forgeguard_proxy was built without the vp feature"
  | Some connect, Some authz => connect config authz
  | _, None => Ok allow_all_engine
  end.

(** ** The run *)
Record RunOptions := {
  config_path : string;
  listen : option NetAddr.SocketAddr;
  upstream : option Url;
  opt_default_policy : option Pipeline.DefaultPolicy;
  debug : bool;
}.
(** The server's services: the proxy and, if enabled, the metrics. *)
Record Service := {
  proxy : Proxy.ForgeGuardProxy (SK := SK) (R := R);
  upstream_of : UpstreamTarget;
  service_addr : NetAddr.SocketAddr;
  metrics_addr : option NetAddr.SocketAddr;
}.
Definition overrides_of (opts : RunOptions) : ConfigOverrides :=
  let o := overrides_new in
  let o := match listen opts with Some addr => with_listen_addr addr o | None => o end in
  let o := match upstream opts with Some url => with_upstream_url url o | None => o end in
  match opt_default_policy opts with Some policy => with_default_policy policy o | None => o end.
Definition load_signing (config : ProxyConfig) : result string (option (SK * Signing.KeyId.t)) :=
  match signing config with
  | Some s =>
      pem ← map_err (λ e, "failed to read signing key at '" +:+ key_path s +:+ "': " +:+ e)
              (read_to_string (key_path s));
      key ← map_err (λ e, "invalid signing key: " +:+ e) (from_pkcs8_pem pem);
      Ok (Some (key, key_id s))
  | None => Ok None
  end.
Definition run (opts : RunOptions) : result string Service :=
  config ← map_err (λ e, "failed to load config: " +:+ http_error_str e)
             (load_config read_to_string toml (config_path opts));
  config ← map_err (λ e, "failed to apply config overrides: " +:+ http_error_str e)
             (apply_overrides config (overrides_of opts));
  let identity_chain := build_identity_chain config in
  policy_engine ← build_policy_engine config;
  route_matcher ← map_err (λ e, "invalid routes: " +:+ http_error_str e)
                    (Route.matcher_new wide_alphanumeric (routes config));
  public_matcher ← map_err (λ e, "invalid public routes: " +:+ http_error_str e)
                     (Route.public_new wide_alphanumeric (public_routes config));
  let pipeline_config := {|
    Pipeline.route_matcher := route_matcher; Pipeline.public_route_matcher := public_matcher;
    Pipeline.flag_config := features config; Pipeline.project_id := project_id config;
    Pipeline.default_policy := default_policy config; Pipeline.debug_mode := debug opts;
    Pipeline.auth_providers := chain_order (auth config);
    Pipeline.membership_resolver := None |} in
  signing ← load_signing config;
  Ok {| proxy := {| Proxy.pipeline_config := pipeline_config;
                    Proxy.identity_chain := IdentityChain.resolve identity_chain;
                    Proxy.policy_engine := policy_engine;
                    Proxy.client_ip_source := client_ip_source config;
                    Proxy.cors := cors config; Proxy.signing := signing |};
        upstream_of := upstream_target config;
        service_addr := listen_addr config;
        metrics_addr := if metrics_enabled (metrics config)
                        then metrics_listen_addr (metrics config) else None |}.
End startup.
End Startup.

(** * Facts *)
Module StartupFacts.
Import Config ConfigFacts Startup.

(** ** Who a file authenticates *)
Section authentication.
Context `{UrlLib} (jwt_resolve : JwtResolverConfig → Credential.t → result AuthnError.t Identity.t).
Abbreviation chain c := (IdentityChain.resolve (build_identity_chain jwt_resolve c)).

Definition chain_of (raw : Raw.ProxyConfig) : list string :=
  from_option Raw.chain_order ["jwt"; "api-key"] (Raw.auth raw).
(** The last entry of the list with the key. *)
Definition last_with_key {A} (f : A → string) (l : list A) (k : string) (e : A) : Prop :=
  ∃ i, l !! i = Some e ∧ f e = k ∧ ∀ j e', i < j → l !! j = Some e' → f e' ≠ k.

(** The file declares that the credential is the identity's. *)
Inductive authenticates (raw : Raw.ProxyConfig) : Credential.t → Identity.t → Prop :=
| by_api_key k e user tenant groups :
    "api-key" ∈ chain_of raw → last_with_key Raw.key (Raw.api_keys raw) k e →
    Id.new (Raw.key_user_id e) = Ok user →
    option_Forall2 (λ s t, Id.new s = Ok t) (Raw.key_tenant_id e) tenant →
    Forall2 (λ s g, Id.new s = Ok g) (Raw.key_groups e) groups →
    authenticates raw (Credential.ApiKey k)
      {| Identity.user_id := user; Identity.tenant_id := tenant; Identity.groups := groups;
         Identity.expiry := None; Identity.resolver := "static_api_key"; Identity.extra := None;
         Identity.principal_kind := PrincipalRef.User |}
| by_jwt token r jwt id :
    "jwt" ∈ chain_of raw → Raw.authn raw ≫= Raw.jwt = Some r → jwt_declared r jwt →
    jwt_resolve (jwt_resolver_config jwt) (Credential.Bearer token) = Ok id →
    authenticates raw (Credential.Bearer token) id.

Lemma last_with_key_cons {A} (f : A → string) x l k e :
  last_with_key f (x :: l) k e ↔
  last_with_key f l k e ∨ (e = x ∧ f x = k ∧ ∀ e', e' ∈ l → f e' ≠ k).
Proof.
  split.
  - intros ([|i] & Hi & Hk & Hlast); simpl in Hi.
    + injection Hi as ->. right. split_and!; [done..|]. intros e' [j Hj]%list_elem_of_lookup.
      apply (Hlast (S j)); [lia|done].
    + left. exists i. split_and!; [done..|]. intros j e' Hj Hl. apply (Hlast (S j)); [lia|done].
  - intros [(i & Hi & Hk & Hlast)|(-> & Hk & Hlast)].
    + exists (S i). split_and!; [done..|]. intros [|j] e' Hj Hl; [lia|]. apply (Hlast j); [lia|done].
    + exists 0. split_and!; [done..|]. intros [|j] e' Hj Hl; [lia|].
      apply Hlast. by eapply list_elem_of_lookup_2.
Qed.
Definition entry_of (e : ApiKeyConfig) : StaticApiKey.ApiKeyEntry :=
  {| StaticApiKey.key_user_id := user_id e; StaticApiKey.key_tenant_id := tenant_id e;
     StaticApiKey.key_groups := key_groups e |}.
Lemma api_key_map_lookup es k v :
  build_api_key_map es !! k = Some v ↔ ∃ e, last_with_key key es k e ∧ v = entry_of e.
Proof.
  unfold build_api_key_map.
  assert (∀ m : gmap string StaticApiKey.ApiKeyEntry,
    foldl (λ m e, <[key e := entry_of e]> m) m es !! k = Some v ↔
    (∃ e, last_with_key key es k e ∧ v = entry_of e) ∨
    (m !! k = Some v ∧ ∀ e, e ∈ es → key e ≠ k)) as Hgo.
  { induction es as [|x es IH]; intros m; simpl.
    - split; [intros; right; split; [done|]; by intros ? ?%not_elem_of_nil|].
      intros [(e & (i & Hi & _) & _)|[? _]]; [done|done].
    - rewrite IH, lookup_insert_Some. setoid_rewrite last_with_key_cons. setoid_rewrite elem_of_cons.
      naive_solver. }
  rewrite (Hgo ∅), lookup_empty. naive_solver.
Qed.

(** Declared keys and their validated entries correspond. *)
Lemma declared_last es es' k : Forall2 key_declared es es' →
  (∀ e, last_with_key Raw.key es k e → ∃ e', last_with_key key es' k e' ∧ key_declared e e') ∧
  (∀ e', last_with_key key es' k e' → ∃ e, last_with_key Raw.key es k e ∧ key_declared e e').
Proof.
  intros HF. assert (∀ i e e', es !! i = Some e → es' !! i = Some e' → key_declared e e') as Hd.
  { intros i e e'. by eapply Forall2_lookup_lr. }
  assert (∀ i, is_Some (es !! i) ↔ is_Some (es' !! i)) as Hs.
  { intros i. rewrite !lookup_lt_is_Some. by rewrite (Forall2_length _ _ _ HF). }
  split.
  - intros e (i & Hi & Hk & Hlast). destruct (proj1 (Hs i)) as [e' Hi']; [by eexists|].
    pose proof (Hd _ _ _ Hi Hi') as Hde. exists e'. split; [|done]. exists i.
    split_and!; [done|destruct Hde; congruence|]. intros j f' Hj Hf'.
    destruct (proj2 (Hs j)) as [f Hf]; [by eexists|]. pose proof (Hd _ _ _ Hf Hf') as [-> _]. eauto.
  - intros e' (i & Hi' & Hk & Hlast). destruct (proj2 (Hs i)) as [e Hi]; [by eexists|].
    pose proof (Hd _ _ _ Hi Hi') as Hde. exists e. split; [|done]. exists i.
    split_and!; [done|destruct Hde; congruence|]. intros j f Hj Hf.
    destruct (proj1 (Hs j)) as [f' Hf']; [by eexists|]. pose proof (Hd _ _ _ Hf Hf') as [<- _]. eauto.
Qed.

Lemma Forall2_det {A B} (f : A → result Error.t B) l k k' :
  Forall2 (λ x y, f x = Ok y) l k → Forall2 (λ x y, f x = Ok y) l k' → k = k'.
Proof.
  intros Hk. revert k'. induction Hk as [|x y l k Hx Hk IH]; intros k' Hk'; inversion Hk'; subst; [done|].
  f_equal; [congruence|by apply IH].
Qed.
(** The first resolver that can resolve the credential answers. *)
Lemma resolve_cases rs cred :
  (∃ r, r ∈ rs ∧ can_resolve r cred = true ∧
        IdentityChain.resolve rs cred = r.(resolve_credential) cred) ∨
  ((∀ r, r ∈ rs → can_resolve r cred = false) ∧
   IdentityChain.resolve rs cred = Err (AuthnError.NoResolver (Credential.type_name cred))).
Proof.
  induction rs as [|r rs IH]; simpl.
  { right. split; [|done]. by intros r ?%not_elem_of_nil. }
  destruct (can_resolve r cred) eqn:Hr; simpl; [left; exists r; split; [left|done]|].
  destruct IH as [(r' & Hin & ?)|[Hno ->]]; [left; exists r'; split; [by right|done]|].
  right. split; [|done]. intros r' [->|Hin]%elem_of_cons; auto.
Qed.
(** Who resolves a credential. *)
Lemma provider_can_resolve c p r cred :
  provider_resolver jwt_resolve c p = Some r → can_resolve r cred = true →
  match cred with
  | Credential.ApiKey _ => p = "api-key" ∧ r = StaticApiKey.resolver (build_api_key_map (api_keys c))
  | Credential.Bearer _ => p = "jwt" ∧ ∃ jwt, jwt_config c = Some jwt ∧ r = jwt_resolver jwt_resolve jwt
  | Credential.SignedRequest _ _ _ _ _ => False
  end.
Proof.
  unfold provider_resolver. case_bool_decide as Hj.
  - intros (jwt & Hc & ->)%fmap_Some Hcan. destruct cred; [eauto|done..].
  - case_bool_decide as Ha; [|done]. intros Hr Hcan.
    assert (r = StaticApiKey.resolver (build_api_key_map (api_keys c))) as ->
      by (destruct (api_keys c); [done|by injection Hr as <-]).
    by destruct cred.
Qed.
Lemma elem_of_chain c r :
  r ∈ build_identity_chain jwt_resolve c ↔
  ∃ p, p ∈ chain_order (auth c) ∧ provider_resolver jwt_resolve c p = Some r.
Proof. apply list_elem_of_omap. Qed.
Lemma chain_authenticates raw c cred id : declared raw c →
  chain c cred = Ok id ↔ authenticates raw cred id.
Proof.
  intros Hd. assert (chain_order (auth c) = chain_of raw) as Hco by apply Hd. split.
  - destruct (resolve_cases (build_identity_chain jwt_resolve c) cred) as [(r & Hin & Hcan & ->)|[_ ->]];
      [|done].
    apply elem_of_chain in Hin as (p & Hp & Hr). rewrite Hco in Hp.
    pose proof (provider_can_resolve c p r cred Hr Hcan) as Hwho.
    destruct cred as [token|k|]; [|..|done].
    + destruct Hwho as (-> & jwt & Hj & ->). intros Hid. pose proof (de_jwt _ _ Hd) as Hjwt.
      rewrite Hj in Hjwt. inversion Hjwt as [rj ? Hdj Hraw|]; subst. by eapply by_jwt.
    + destruct Hwho as (-> & ->). simpl.
      destruct (build_api_key_map (api_keys c) !! k) as [v|] eqn:Hk; [|done]. intros [= <-].
      apply api_key_map_lookup in Hk as (e' & Hl & ->).
      destruct (proj2 (declared_last _ _ k (de_keys _ _ Hd)) e' Hl)
        as (e & Hl' & (_ & _ & Hu & Ht & Hg)). by eapply by_api_key.
  - intros Ha. assert (∀ p r, p ∈ chain_of raw → provider_resolver jwt_resolve c p = Some r →
      can_resolve r cred = true → (∀ r', can_resolve r' cred = true →
        r' ∈ build_identity_chain jwt_resolve c → r' = r) → chain c cred = r.(resolve_credential) cred) as Hget.
    { intros p r Hp Hr Hcan Huniq.
      destruct (resolve_cases (build_identity_chain jwt_resolve c) cred) as [(r' & Hin & Hcan' & ->)|[Hno _]].
      - by rewrite (Huniq r').
      - rewrite Hno in Hcan; [done|]. apply elem_of_chain. rewrite Hco. eauto. }
    destruct Ha as [k e u t gs Hp Hl Hu Ht Hg|token rj jwt id Hp Hraw Hdj Hid].
    + destruct (proj1 (declared_last _ _ k (de_keys _ _ Hd)) e Hl) as (e' & Hl' & Hde).
      rewrite (Hget "api-key" (StaticApiKey.resolver (build_api_key_map (api_keys c)))); [|done| |done|].
      * simpl. rewrite (proj2 (api_key_map_lookup (api_keys c) k (entry_of e'))) by eauto. simpl.
        destruct Hde as (_ & _ & Hu' & Ht' & Hg').
        assert (user_id e' = u) as -> by congruence.
        assert (tenant_id e' = t) as -> by (destruct Ht; inversion Ht'; congruence).
        assert (key_groups e' = gs) as -> by (by eapply Forall2_det).
        done.
      * unfold provider_resolver. simpl. destruct (api_keys c); [by destruct Hl' as (? & ? & _)|done].
      * intros r' Hcan' (p & _ & Hr')%elem_of_chain.
        by destruct (provider_can_resolve c p r' (Credential.ApiKey k) Hr' Hcan').
    + pose proof (de_jwt _ _ Hd) as Hjwt. rewrite Hraw in Hjwt.
      inversion Hjwt as [? jwt' Hdj' Heq1 Heq2|]; subst.
      assert (jwt' = jwt) as ->.
      { destruct Hdj as (? & ? & _ & ? & ? & ?), Hdj' as (? & ? & _ & ? & ? & ?).
        destruct jwt, jwt'; simpl in *; congruence. }
      rewrite (Hget "jwt" (jwt_resolver jwt_resolve jwt)); [done|done| |done|].
      * unfold provider_resolver. simpl. by rewrite <-Heq2.
      * intros r' Hcan' (p & _ & Hr')%elem_of_chain.
        destruct (provider_can_resolve c p r' (Credential.Bearer token) Hr' Hcan')
          as (_ & jwt' & Hj & ->). congruence.
Qed.
End authentication.

(** ** What a started proxy serves *)
Section service.
Context `{UrlLib} `{MatchitLaws} {SK R : Type} (wide : string → bool).
Context (jwt_resolve : JwtResolverConfig → Credential.t → result AuthnError.t Identity.t).
Context (read : string → result string string) (toml : string → result string Raw.ProxyConfig).
Context (from_pem : string → result string SK).
Context (vp_engine : option (ProxyConfig → AuthzConfig → result string (PolicyEngine R))).
Abbreviation start := (run wide jwt_resolve read toml from_pem vp_engine).

(** The configuration a run starts with. *)
Record started (opts : RunOptions) (raw : Raw.ProxyConfig) (c : ProxyConfig)
    (svc : Service (SK := SK) (R := R)) : Prop := {
  st_declared : declared raw c;
  st_target : target_of (default (upstream_url c) (upstream opts)) (upstream_of svc);
  st_addr : service_addr svc = default (listen_addr c) (listen opts);
  st_chain : Proxy.identity_chain (proxy svc) =
    IdentityChain.resolve (build_identity_chain jwt_resolve c);
  st_engine : match authz c with
    | None => Proxy.policy_engine (proxy svc) = allow_all_engine
    | Some a => ∃ connect c', vp_engine = Some connect ∧
                  connect c' a = Ok (Proxy.policy_engine (proxy svc))
    end;
  st_routes : Route.matcher_new wide (routes c) =
    Ok (Pipeline.route_matcher (Proxy.pipeline_config (proxy svc)));
  st_public : Route.public_new wide (public_routes c) =
    Ok (Pipeline.public_route_matcher (Proxy.pipeline_config (proxy svc)));
  st_policy : Pipeline.default_policy (Proxy.pipeline_config (proxy svc)) =
    default (default_policy c) (opt_default_policy opts);
  st_project : Pipeline.project_id (Proxy.pipeline_config (proxy svc)) = project_id c;
  st_members : Pipeline.membership_resolver (Proxy.pipeline_config (proxy svc)) = None;
  st_ip : Proxy.client_ip_source (proxy svc) = client_ip_source c;
}.
Lemma overrides_of_fields opts :
  o_listen_addr (overrides_of opts) = listen opts ∧
  o_upstream_url (overrides_of opts) = upstream opts ∧
  o_default_policy (overrides_of opts) = opt_default_policy opts.
Proof.
  unfold overrides_of. by destruct (listen opts), (upstream opts), (opt_default_policy opts).
Qed.
Lemma run_started opts svc contents raw :
  start opts = Ok svc → read (config_path opts) = Ok contents → toml contents = Ok raw →
  ∃ c, started opts raw c svc.
Proof.
  unfold run, load_config, parse_config. intros Hrun Hread Htoml.
  rewrite Hread in Hrun. cbn [map_err mbind result_bind] in Hrun.
  rewrite Htoml in Hrun. cbn [map_err mbind result_bind] in Hrun.
  apply bind_Ok in Hrun as (c & Hc%map_err_Ok & Hrun).
  apply bind_Ok in Hrun as (c' & Ho%map_err_Ok & Hrun).
  apply bind_Ok in Hrun as (eng & Heng & Hrun).
  apply bind_Ok in Hrun as (rm & Hrm%map_err_Ok & Hrun).
  apply bind_Ok in Hrun as (pm & Hpm%map_err_Ok & Hrun).
  apply bind_Ok in Hrun as (sk & _ & [= <-]).
  apply config_from_Ok in Hc. destruct (overrides_of_fields opts) as (Hl & Hu & Hp).
  pose proof (overrides_target c _ c' (de_target _ _ Hc) Ho) as Ht.
  apply apply_overrides_Ok in Ho as (target & -> & _). rewrite Hl, Hu, Hp in *.
  exists c. split; try done. simpl. unfold build_policy_engine in Heng. simpl in Heng.
  destruct (authz c) as [a|], vp_engine as [connect|]; try done; [by eauto|by injection Heng as <-..].
Qed.

(** The file's entry for a route or a public route applies to the request. *)
Definition declared_route (raw : Raw.ProxyConfig) m path mr : Prop :=
  ∃ e r params, e ∈ Raw.routes raw ∧ route_declared e r ∧
    mr = Route.build_matched_route (Route.value_of r) params ∧
    (route_applies wide r m path params ∨ route_applies wide r HttpMethod.Any path params).
Definition declared_public (raw : Raw.ProxyConfig) m path : Prop :=
  ∃ e r, e ∈ Raw.public_routes raw ∧ public_declared e r ∧
    (public_applies wide r m path ∨ public_applies wide r HttpMethod.Any path).
Lemma matched_declared opts raw c svc m path mr : started opts raw c svc →
  Route.match_request (Pipeline.route_matcher (Proxy.pipeline_config (proxy svc)))
    (HttpMethod.to_string m) path = Some mr →
  declared_route raw m path mr.
Proof.
  intros Hst. unfold Route.match_request.
  replace (HttpMethod.from_str (HttpMethod.to_string m)) with (Ok (E := HttpError.t) m) by by destruct m.
  intros ([v params] & Hl & ->)%fmap_Some.
  pose proof (lookup_route_spec wide _ _ _ m path (st_routes _ _ _ _ Hst)) as Hs. rewrite Hl in Hs.
  assert (∃ mt, (mt = m ∨ mt = HttpMethod.Any) ∧
    applies wide ((λ r, (Route.method r, Route.path_pattern r, Route.value_of r)) <$> routes c) mt path v params)
    as (mt & Hmt & Ha) by (destruct Hs as [?|[? _]]; eauto).
  apply applies_route in Ha as (r & Hr & -> & Ha).
  apply list_elem_of_lookup in Hr as [i Hr].
  destruct (Forall2_lookup_r _ _ _ _ _ (de_routes _ _ (st_declared _ _ _ _ Hst)) Hr) as (e & He & Hd).
  exists e, r, params. split_and!; [by eapply list_elem_of_lookup_2|done|done|].
  destruct Hmt as [-> | ->]; auto.
Qed.
Lemma public_declared_of opts raw c svc m path : started opts raw c svc →
  Route.is_public (Route.check (Pipeline.public_route_matcher (Proxy.pipeline_config (proxy svc)))
    (HttpMethod.to_string m) path) = true →
  declared_public raw m path.
Proof.
  intros Hst. pose proof (public_check_exact wide _ _ (HttpMethod.to_string m) path (st_public _ _ _ _ Hst)) as Hp.
  replace (HttpMethod.from_str (HttpMethod.to_string m)) with (Ok (E := HttpError.t) m) in Hp by by destruct m.
  intros Hpub. assert (∃ mt r, Ok (E := HttpError.t) m = Ok mt ∧ r ∈ public_routes c ∧
    (public_applies wide r mt path ∨ public_applies wide r HttpMethod.Any path))
    as (mt & r & [= <-] & Hr & Ha).
  { destruct (Route.check _ _ _); [done| |]; destruct Hp as (mt & r & ? & ? & _ & Ha);
      exists mt, r; (split_and!; [done..|]); destruct Ha as [?|[? _]]; auto. }
  apply list_elem_of_lookup in Hr as [i Hr].
  destruct (Forall2_lookup_r _ _ _ _ _ (de_public _ _ (st_declared _ _ _ _ Hst)) Hr) as (e & He & Hd).
  exists e, r. split_and!; [by eapply list_elem_of_lookup_2|done..].
Qed.

Context (to_str header_name_ok header_value_ok : string → bool) (parse_ip : string → option IpAddr).
Context (xxh64 : string → N) (json_to_string : Json.t → string).
Context (detailed_to_string : gmap string Features.ResolvedFlag → option string).
Context (form_urlencoded : string → list (string * string)).
Abbreviation filter_request := (Proxy.request_filter to_str header_name_ok header_value_ok parse_ip
  xxh64 json_to_string detailed_to_string form_urlencoded).

(** C4: a started proxy serves what its file declares.  When a proxy started
    from a configuration file lets a request with a known method through, then
    the identity it acts under, if any, is one the file declares for the
    credential presented: of the last API key entry with that key, or of the
    configured JWT issuer, through a provider the chain lists; a request
    without an identity is for a declared public route; a matched route is one
    the file declares, and the engine, which is the configured policy store's
    when the file names one, allowed the identity's query for it; a request
    that matches no route is for a public one, or the default policy (of the
    command line, or else of the file) is passthrough. *)
Theorem proxy_serves_its_file opts svc contents raw session ctx ms m :
  start opts = Ok svc → read (config_path opts) = Ok contents → toml contents = Ok raw →
  filter_request (proxy svc) session = Ok (Proxy.Proxied, ctx, ms) →
  HttpMethod.from_str (Proxy.method session) = Ok m →
  starts_with_str "/" (Proxy.path session) = true →
  let public := declared_public raw m (Proxy.path session) in
  (∀ id, Proxy.identity ctx = Some id → ∃ cred,
     Extract.extract_credential (judged_headers to_str session) = Ok (Some cred) ∧
     authenticates jwt_resolve raw cred id) ∧
  (Proxy.identity ctx = None → public) ∧
  match Proxy.matched_route ctx with
  | Some mr =>
      declared_route raw m (Proxy.path session) mr ∧
      ∀ id, Proxy.identity ctx = Some id → ∃ project ip ev,
        Id.new (Raw.project_id raw) = Ok project ∧
        evaluate (Proxy.policy_engine (proxy svc)) (build_query id mr project ip) = Ok ev ∧
        Decision.decision ev = Decision.Allow ∧
        ∀ a, Raw.authz raw = Some a → ∃ connect c az, vp_engine = Some connect ∧
          connect c az = Ok (Proxy.policy_engine (proxy svc)) ∧
          policy_store_id az = default EmptyString (Raw.policy_store_id a)
  | None =>
      public ∨ opt_default_policy opts = Some Pipeline.Passthrough ∨
      (opt_default_policy opts = None ∧ to_ascii_lowercase (Raw.default_policy raw) = "passthrough")
  end.
Proof.
  intros Hstart Hread Htoml Hf Hm Hp public.
  destruct (run_started opts svc contents raw Hstart Hread Htoml) as (c & Hst).
  pose proof (st_declared _ _ _ _ Hst) as Hd.
  destruct (ProxyFacts.request_filter_proxied _ _ _ _ _ _ _ _ _ _ _ _ Hf)
    as (Hip & _ & input & rec & eff & Hi & Hrun).
  destruct (ProxyFacts.request_input_known to_str session (Proxy.client_ip ctx) m Hm Hp)
    as (input' & Hi' & Hmeth & Hpath & Hhs & Hcip & _).
  rewrite Hi in Hi'. injection Hi' as <-.
  apply enforced_forward_spec in Hrun as (_ & Hid & _ & Hmr & Hrest).
  assert (Route.is_public (public_match (Proxy.pipeline_config (proxy svc)) input) = true → public)
    as Hpub.
  { unfold public_match. rewrite Hmeth, Hpath. by apply (public_declared_of opts raw c). }
  split_and!.
  - intros id Heq. rewrite Heq in Hid. inversion Hid as [| | |cred id0 id' _ Hc Hch He]; subst.
    exists cred. rewrite Hhs in Hc. split; [exact Hc|].
    inversion He as [Hsame|resolver ? ? ? Hres]; subst.
    + rewrite (st_chain _ _ _ _ Hst) in Hch. by apply (chain_authenticates _ raw c).
    + by rewrite (st_members _ _ _ _ Hst) in Hres.
  - intros Heq. rewrite Heq in Hid. apply Hpub.
    inversion Hid as [Hq|Hq|? ? Hq|]; by rewrite Hq.
  - destruct (Proxy.matched_route ctx) as [mr|].
    + symmetry in Hmr. unfold matched_route in Hmr. rewrite Hmeth, Hpath in Hmr.
      split; [by apply (matched_declared opts raw c svc)|]. intros id Heq. rewrite Heq in Hrest.
      destruct Hrest as (_ & ev & Hev & Hallow & _). exists (project_id c). do 2 eexists.
      split_and!; [apply Hd|rewrite <-(st_project _ _ _ _ Hst); exact Hev|done|].
      intros a Ha. pose proof (st_engine _ _ _ _ Hst) as He. rewrite (de_authz _ _ Hd), Ha in He.
      destruct He as (connect & c' & Hvp & Hco). by eauto 10.
    + destruct Hrest as ([Hq|Hq] & _); [by left; apply Hpub|right].
      rewrite (st_policy _ _ _ _ Hst) in Hq. destruct (opt_default_policy opts) as [p|]; simpl in Hq.
      * left. congruence.
      * right. split; [done|]. by rewrite (de_policy _ _ Hd), Hq.
Qed.
End service.
End StartupFacts.

(** * A sample run *)
Module StartupSample.
Import ListRouter ProxySample Config Startup.
#[local] Existing Instance ConfigSample.sample_url.
Definition opts : RunOptions := {|
  config_path := "forgeguard.toml"; listen := None; upstream := None;
  opt_default_policy := None; debug := false |}.
Definition read (path : string) : result string string := Ok path.
Definition toml (s : string) : result string Raw.ProxyConfig := Ok ConfigSample.raw.
Definition jwt (c : JwtResolverConfig) (cred : Credential.t) : result AuthnError.t Identity.t :=
  Err (AuthnError.InvalidCredential "no keys").
Definition service : result string (Service (SK := string) (R := ())) :=
  run RouteSample.no_wide jwt read toml (λ s, Ok s) None opts.
Definition serve (svc : Service (SK := string) (R := ())) (s : Proxy.Session)
    : result Empty_set (Proxy.Filtered * Proxy.RequestCtx * list Proxy.Metric) :=
  Proxy.request_filter text yes yes (λ _, None) (λ _, 0%N) PipelineSample.no_json (λ _, None)
    (λ _, []) (proxy svc) s.
Definition lists : Proxy.Session := session "GET" "/lists/7" [("x-api-key", "k1")].
Definition user_of (ctx : Proxy.RequestCtx) : option string :=
  (λ id, Id.as_str (Identity.user_id id)) <$> Proxy.identity ctx.
Lemma lists_served :
  match service with
  | Ok svc =>
      match serve svc lists with
      | Ok (Proxy.Proxied, ctx, _) => bool_decide (user_of ctx = Some "ann")
      | _ => false
      end
  | _ => false
  end = true.
Proof. vm_cast_no_check (eq_refl true). Qed.
End StartupSample.

Lemma proxy_serves_its_file_witness :
  ∃ svc ctx ms cred id, StartupSample.service = Ok svc ∧
    StartupSample.serve svc StartupSample.lists = Ok (Proxy.Proxied, ctx, ms) ∧
    Proxy.identity ctx = Some id ∧
    StartupFacts.authenticates (H := ConfigSample.sample_url) StartupSample.jwt ConfigSample.raw cred id.
Proof.
  pose proof StartupSample.lists_served as Hs.
  destruct StartupSample.service as [svc|e|w] eqn:Hsvc; [|discriminate Hs..].
  destruct (StartupSample.serve svc StartupSample.lists) as [[[[r|] ctx] ms]|e|w] eqn:Hf;
    [discriminate Hs| |discriminate Hs..].
  apply bool_decide_eq_true_1 in Hs. unfold StartupSample.user_of in Hs.
  destruct (Proxy.identity ctx) as [id|] eqn:Hid; [|discriminate Hs].
  destruct (StartupFacts.proxy_serves_its_file (H := ConfigSample.sample_url)
    (H1 := ListRouter.list_router_laws) _ _ _ _ _ _ _ _ _ _ _ _ _ _
    StartupSample.opts svc "forgeguard.toml" ConfigSample.raw StartupSample.lists ctx ms HttpMethod.Get
    Hsvc eq_refl eq_refl Hf eq_refl eq_refl) as (Hc & _ & _).
  destruct (Hc id Hid) as (cred & _ & Ha). exists svc, ctx, ms, cred, id. by split_and!.
Defined.
