(* ===== verification/Cli.v ===== *)
(** The developer command line ([crates/cli/src]): compiling, syncing and
    testing the policies of a configuration file against a policy store
    ([policies/validate.rs], [policies/sync.rs], [policies/test.rs]) and
    [forgeguard check] ([check.rs]). *)

From stdpp Require Import pretty.
From S2P Require Import Prelude RustStr Ident Event Rbac Action Features Authn Http Cors Pipeline.
From S2P Require Import VpEngine Dfs Policies Config.

(** An error report: its messages, the outermost context first. *)
Abbreviation Report := (list string).
Definition wrap {E A} (f : E → string) (ctx : list string) (r : result E A) : result Report A :=
  map_err (λ e, ctx ++ [f e]) r.

(** * Policy tests *)
Module PolicyTests.
Import Config.
Record CliTestFlags := {
  f_principal : option string;
  f_groups : option string;
  f_tenant : option string;
  f_action : option string;
  f_resource : option string;
  f_expect : option string;
}.
Record TestScenario := {
  name : string;
  principal : UserId;
  groups : list GroupName;
  tenant : TenantId;
  action : QualifiedAction.t;
  resource : option Permission.CedarEntityRef;
  expect : ConfigTypes.PolicyTestExpect;
}.
Definition from_policy_test (test : ConfigTypes.PolicyTest) : result Report TestScenario :=
  principal ← wrap core_error_str ["invalid principal in policy test"]
                (Id.new (ConfigTypes.principal test));
  tenant ← wrap core_error_str ["invalid tenant in policy test"] (Id.new (ConfigTypes.tenant test));
  Ok {| name := ConfigTypes.name test; principal := principal; groups := ConfigTypes.groups test;
        tenant := tenant; action := ConfigTypes.action test; resource := ConfigTypes.resource test;
        expect := ConfigTypes.expect test |}.

(** [to_lowercase]: of the Unicode tables. *)
Definition parse_expect (to_lowercase : string → string) (s : string)
    : result Report ConfigTypes.PolicyTestExpect :=
  let l := to_lowercase s in
  if bool_decide (l = "allow") then Ok ConfigTypes.Allow
  else if bool_decide (l = "deny") then Ok ConfigTypes.Deny
  else Err ["invalid --expect '" +:+ l +:+ "': must be 'allow' or 'deny'"].
Definition build_scenario_from_flags (to_lowercase : string → string) (flags : CliTestFlags)
    : result Report (option TestScenario) :=
  match f_principal flags, f_action flags, f_expect flags with
  | Some principal, Some action_str, Some expect_str =>
      action ← wrap core_error_str ["invalid --action '" +:+ action_str +:+ "'"]
                 (QualifiedAction.parse action_str);
      expect ← parse_expect to_lowercase expect_str;
      groups ← match f_groups flags with
               | Some g => mapM (λ s, wrap core_error_str [] (Id.new (trim s))) (RustStr.split "," g)
               | None => Ok []
               end;
      user ← wrap core_error_str ["invalid --principal '" +:+ principal +:+ "'"] (Id.new principal);
      tenant ← wrap core_error_str ["invalid --tenant"] (Id.new (default "default" (f_tenant flags)));
      resource ← match f_resource flags with
                 | Some r => Some <$> wrap core_error_str ["invalid --resource '" +:+ r +:+ "'"]
                                        (Permission.ref_parse r)
                 | None => Ok None
                 end;
      Ok (Some {| name := "cli: " +:+ Id.as_str user +:+ " " +:+ action_str +:+ " -> " +:+ expect_str;
                  principal := user; groups := groups; tenant := tenant; action := action;
                  resource := resource; expect := expect |})
  | _, _, _ => Ok None
  end.
(** The tests of the file, then the one of the flags. *)
Definition collect_scenarios (to_lowercase : string → string) (tests : list ConfigTypes.PolicyTest)
    (flags : CliTestFlags) : result Report (list TestScenario) :=
  scenarios ← mapM from_policy_test tests;
  cli ← build_scenario_from_flags to_lowercase flags;
  Ok (scenarios ++ option_list cli).

(** ** Execution *)
Record Request := {
  policy_store_id : string;
  components : Vp.VpRequestComponents;
  entities : list Vp.EntityItem;
}.
(** The builders are given every required field, and succeed. *)
Definition build_inline_entities (principal : PrincipalRef.t) (groups : list GroupName)
    (project : ProjectId) (tenant : TenantId) : list Vp.EntityItem :=
  let group_identifiers := Vp.group_identifier project <$> groups in
  {| Vp.identifier := Vp.principal_identifier principal project tenant; Vp.attributes := [];
     Vp.parents := group_identifiers |} ::
  ((λ id, {| Vp.identifier := id; Vp.attributes := []; Vp.parents := [] |}) <$> group_identifiers).
Definition test_resource (project : ProjectId) (r : Permission.CedarEntityRef)
    : Vp.EntityIdentifier := {|
  Vp.entity_type := CedarNamespace.as_str (CedarNamespace.from_project project) +:+ "::" +:+
    CedarEntityType.as_str (CedarEntityType.new_from_segments (Permission.ref_namespace r)
                              (Permission.ref_entity r));
  Vp.entity_id := Segment.as_str (Permission.ref_id r) |}.
Definition scenario_request (policy_store_id : string) (project : ProjectId) (s : TestScenario)
    : Request :=
  let principal_ref := PrincipalRef.new (principal s) in {|
  policy_store_id := policy_store_id;
  components := {|
    Vp.principal := Vp.principal_identifier principal_ref project (tenant s);
    Vp.action := {| Vp.action_type := QualifiedAction.vp_action_type (action s) project;
                    Vp.action_id := QualifiedAction.vp_action_id (action s) |};
    Vp.resource := test_resource project <$> resource s |};
  entities := build_inline_entities principal_ref (groups s) project (tenant s) |}.
(** The service's answer to a request. *)
Definition execute_scenario (is_authorized : Request → result string Vp.ServiceDecision)
    (policy_store_id : string) (project : ProjectId) (s : TestScenario) : result Report bool :=
  decision ← wrap id ["IsAuthorized request failed"]
               (is_authorized (scenario_request policy_store_id project s));
  Ok (match decision with Vp.ServiceAllow => true | _ => false end).

Definition verdict (s : TestScenario) (allowed : bool) : bool :=
  Bool.eqb allowed (bool_decide (expect s = ConfigTypes.Allow)).
Definition verdict_line (s : TestScenario) (allowed : bool) : string :=
  let word (b : bool) := if b then "allow" else "deny" in
  if verdict s allowed then "  PASS: " +:+ name s
  else "  FAIL: " +:+ name s +:+ " (expected " +:+ word (bool_decide (expect s = ConfigTypes.Allow)) +:+
       ", got " +:+ word allowed +:+ ")".
(** What is printed. *)
Abbreviation Out := (M (list string) Report).
Definition println (line : string) : Out () := modify (λ out, out ++ [line]).
Fixpoint run_scenarios (execute : TestScenario → result Report bool) (ss : list TestScenario)
    (passed failed : N) : Out (N * N) :=
  match ss with
  | [] => mret (passed, failed)
  | s :: ss =>
      allowed ← lift (map_err (cons ("test '" +:+ name s +:+ "' failed to execute")) (execute s));
      _ ← println (verdict_line s allowed);
      if verdict s allowed then run_scenarios execute ss (passed + 1) failed
      else run_scenarios execute ss passed (failed + 1)
  end.
Definition load_error (path : string) : list string :=
  ["failed to load config from '" +:+ path +:+ "'"].

Section run.
Context `{UrlLib} (load : string → result HttpError.t ProxyConfig).
Context (to_lowercase : string → string) (is_authorized : Request → result string Vp.ServiceDecision).
Definition run (config_path : string) (flags : CliTestFlags) : Out () :=
  config ← lift (wrap http_error_str (load_error config_path) (load config_path));
  authz ← lift (ok_or (authz config) ["[authz] section missing from config"]);
  let policy_store_id := Config.policy_store_id authz in
  scenarios ← lift (collect_scenarios to_lowercase (policy_tests config) flags);
  match scenarios with
  | [] => println "No test scenarios found. Add [[policy_tests]] to config or use CLI flags."
  | _ =>
      '(passed, failed) ← run_scenarios
        (execute_scenario is_authorized policy_store_id (project_id config)) scenarios 0 0;
      _ ← println EmptyString;
      _ ← println (pretty passed +:+ " passed, " +:+ pretty failed +:+ " failed, " +:+
                   pretty (passed + failed)%N +:+ " total");
      if bool_decide (0 < failed)%N then lift (Err [pretty failed +:+ " test(s) failed"])
      else mret ()
  end.
End run.
End PolicyTests.

(** * Compiling and syncing *)
Module PolicySync.
Import Config.
(** The management operations of a policy store. *)
Class PolicyStore := {
  store : Type;
  put_schema : string → string → store → store * result string ();
  create_policy : string → string → store → store * result string ();
}.
Section commands.
Context `{UrlLib, HashOrder} (load : string → result HttpError.t ProxyConfig).
Context (to_string_pretty : Json.t → string).
Definition compile (config : ProxyConfig) : result Report (list string * string) :=
  compiled ← wrap core_error_str ["failed to compile Cedar policies"]
    (Compile.compile_all_to_cedar (policies config) (groups config) (project_id config));
  schema ← wrap core_error_str []
    (Schema.generate_cedar_schema to_string_pretty (policies config)
       (Route.action <$> routes config) (project_id config)
       (ConfigTypes.to_entity_config (schema config)));
  Ok (compiled, schema).
(** [policies validate]: the statements and the schema it prints. *)
Definition validate (config_path : string) : result Report (list string * string) :=
  config ← wrap http_error_str (PolicyTests.load_error config_path) (load config_path);
  compile config.

Context `{PolicyStore}.
Fixpoint create_policies (policy_store_id : string) (i : N) (statements : list string)
    : M store Report () :=
  match statements with
  | [] => mret ()
  | body :: rest =>
      _ ← (λ s, prod_map id (map_err (λ e, ["failed to create policy " +:+ pretty i +:+ ": " +:+ e]))
                  (create_policy policy_store_id body s));
      create_policies policy_store_id (i + 1) rest
  end.
Definition sync (config_path : string) (dry_run : bool) : M store Report () :=
  config ← lift (wrap http_error_str (PolicyTests.load_error config_path) (load config_path));
  '(compiled, schema) ← lift (compile config);
  if (dry_run : bool) then mret ()
  else
    authz ← lift (ok_or (authz config) ["[authz] section missing from config"]);
    let policy_store_id := policy_store_id authz in
    _ ← (λ s, prod_map id (wrap id ["failed to put Cedar schema"])
                (put_schema policy_store_id schema s));
    create_policies policy_store_id 1 compiled.

(** [check]: what it prints on success counts. *)
Definition check (config_path : string) : result Report (ProjectId * nat * nat * nat) :=
  config ← wrap http_error_str (PolicyTests.load_error config_path) (load config_path);
  Ok (project_id config, length (routes config), length (public_routes config),
      length (Features.flags (features config))).
End commands.
End PolicySync.

(** * Facts *)
Module CliFacts.
Import Config.

(** ** Policy tests *)
Section tests.
Import PolicyTests.
Implicit Types (s : TestScenario).

Lemma verdict_true s allowed :
  verdict s allowed = true ↔ (allowed = true ↔ expect s = ConfigTypes.Allow).
Proof.
  unfold verdict. rewrite Bool.eqb_true_iff. case_bool_decide as He; destruct allowed; naive_solver.
Qed.
(** The loop stops at the first test that cannot be executed, and counts. *)
Lemma run_scenarios_spec execute ss p f out :
  match (run_scenarios execute ss p f out).2 with
  | Ok (p', f') => (f ≤ f')%N ∧ (f' = f ↔ ∀ s, s ∈ ss → ∃ b, execute s = Ok b ∧ verdict s b = true)
  | _ => ∃ s, s ∈ ss ∧ ∀ b, execute s ≠ Ok b
  end.
Proof.
  revert p f out. induction ss as [|s ss IH]; intros p f out.
  { simpl. split; [lia|]. split; [|done]. by intros _ s ?%not_elem_of_nil. }
  cbn [run_scenarios]. unfold mbind, M_bind, lift, println, modify.
  destruct (execute s) as [b|e|w] eqn:Hs; cbn [map_err]; [|exists s; split; [left|congruence]..].
  destruct (verdict s b) eqn:Hv;
    [specialize (IH (p + 1)%N f (out ++ [verdict_line s b]))
    |specialize (IH p (f + 1)%N (out ++ [verdict_line s b]))];
    (destruct (run_scenarios _ _ _ _ _) as [out' [[p' f']|e|w]]; simpl in *;
      [|destruct IH as (s' & Hin & Hno); exists s'; split; [by right|done]..]).
  - destruct IH as [Hle Hiff]. split; [done|]. rewrite Hiff. setoid_rewrite elem_of_cons. naive_solver.
  - destruct IH as [Hle _]. split; [lia|]. split; [lia|]. intros Hall.
    destruct (Hall s) as (b' & Hb & Hv'); [left|]. congruence.
Qed.

(** a passing test run says what the store decides.  With a configuration
    that names a policy store, [policies test] succeeds exactly when the
    scenarios of the file and of the flags are valid and the service answered
    the request of every one of them, with ALLOW if and only if the scenario
    expects it; one test that fails, or cannot be executed, fails the run. *)
Theorem policy_tests_pass_iff `{UrlLib} load lower is_authorized path flags out c a :
  load path = Ok c → authz c = Some a →
  (run load lower is_authorized path flags out).2 = Ok () ↔
  ∃ ss, collect_scenarios lower (policy_tests c) flags = Ok ss ∧
    ∀ s, s ∈ ss → ∃ d,
      is_authorized (scenario_request (Config.policy_store_id a) (project_id c) s) = Ok d ∧
      (d = Vp.ServiceAllow ↔ expect s = ConfigTypes.Allow).
Proof.
  intros Hload Ha. unfold run. rewrite Hload. cbn [wrap map_err].
  unfold mbind at 1, M_bind at 1, lift at 1. unfold mbind at 1, M_bind at 1. rewrite Ha.
  unfold lift at 1. cbn [ok_or]. unfold mbind at 1, M_bind at 1, lift at 1.
  destruct (collect_scenarios _ _ _) as [ss|e|w]; [|naive_solver..].
  set (execute := execute_scenario is_authorized (Config.policy_store_id a) (project_id c)).
  assert (∀ s b, execute s = Ok b ∧ verdict s b = true ↔ ∃ d,
    is_authorized (scenario_request (Config.policy_store_id a) (project_id c) s) = Ok d ∧
    (d = Vp.ServiceAllow ↔ expect s = ConfigTypes.Allow) ∧
    b = match d with Vp.ServiceAllow => true | _ => false end) as Hex.
  { intros s b. unfold execute, execute_scenario, wrap. rewrite bind_Ok. setoid_rewrite map_err_Ok.
    split.
    - intros [(d & Hd & [= <-]) Hv%verdict_true]. exists d. split_and!; [done| |done].
      rewrite <-Hv. by destruct d.
    - intros (d & Hd & Hiff & ->). split; [by exists d|]. apply verdict_true. rewrite <-Hiff. by destruct d. }
  assert ((∀ s, s ∈ ss → ∃ b, execute s = Ok b ∧ verdict s b = true) ↔
    ∀ s, s ∈ ss → ∃ d, is_authorized (scenario_request (Config.policy_store_id a) (project_id c) s) = Ok d ∧
      (d = Vp.ServiceAllow ↔ expect s = ConfigTypes.Allow)) as Hall.
  { setoid_rewrite Hex. split; intros Hs s Hin; destruct (Hs s Hin); naive_solver. }
  split.
  - intros Hrun. exists ss. split; [done|]. apply Hall. destruct ss as [|s0 ss]; [by intros s ?%not_elem_of_nil|].
    pose proof (run_scenarios_spec execute (s0 :: ss) 0 0 out) as Hspec.
    unfold mbind, M_bind in Hrun. fold execute in Hrun.
    destruct (run_scenarios execute (s0 :: ss) 0 0 out) as [out' [[p f]|e|w]]; [|done..].
    simpl in *. case_bool_decide as Hf; [done|]. apply Hspec. lia.
  - intros (ss' & [= <-] & Hs'). pose proof (proj2 Hall Hs') as Hs. destruct ss as [|s0 ss]; [done|].
    pose proof (run_scenarios_spec execute (s0 :: ss) 0 0 out) as Hspec.
    unfold mbind, M_bind. fold execute.
    destruct (run_scenarios execute (s0 :: ss) 0 0 out) as [out' [[p f]|e|w]]; simpl in *.
    + destruct Hspec as [_ [_ Hz]]. rewrite (Hz Hs). done.
    + destruct Hspec as (s & Hin & Hno). destruct (Hs s Hin) as (b & Hb & _). by destruct (Hno b).
    + destruct Hspec as (s & Hin & Hno). destruct (Hs s Hin) as (b & Hb & _). by destruct (Hno b).
Qed.

(** The route's resource is the one the scenario names. *)
Definition same_resource (t : option Permission.CedarEntityRef) (r : option ResourceRef.t) : Prop :=
  option_Forall2 (λ t r,
    Permission.ref_namespace t = Namespace.as_segment (ResourceRef.namespace r) ∧
    Permission.ref_entity t = Entity.as_segment (ResourceRef.entity r) ∧
    Permission.ref_id t = ResourceId.as_segment (ResourceRef.id r) ∧
    ResourceRef.cedar_entity_type r = None) t r.
(** The entities of a served query: those of the test with the organization
    on the user, and the resource. *)
Definition with_organization (tenant : TenantId) (es : list Vp.EntityItem) : list Vp.EntityItem :=
  match es with
  | user :: rest =>
      {| Vp.identifier := Vp.identifier user; Vp.attributes := [("org_id", Id.as_str tenant)];
         Vp.parents := Vp.parents user |} :: rest
  | [] => []
  end.

(** C34: a policy test asks what the engine asks.  For a user, a tenant, groups,
    an action and a resource, the request of a test scenario has the
    principal, action and resource of the request the engine builds for a
    served query of that user on a route with that action and resource, and
    the same groups as parents; the engine's entities only add the
    organization of the user, and the resource with its organization. *)
Theorem policy_test_asks_as_engine store project s id mr ip :
  Identity.principal_kind id = PrincipalRef.User → Identity.user_id id = principal s →
  Identity.tenant_id id = Some (tenant s) → Identity.groups id = groups s →
  Route.m_action mr = action s → same_resource (resource s) (Route.m_resource mr) →
  let q := build_query id mr project ip in
  components (scenario_request store project s) = Vp.build_vp_request q project (tenant s) ∧
  Vp.build_vp_entities (PolicyQuery.principal q) (PolicyContext.groups (PolicyQuery.context q))
    (PolicyQuery.resource q) project (tenant s) =
  with_organization (tenant s) (entities (scenario_request store project s)) ++
  option_list ((λ r, {| Vp.identifier := Vp.resource_identifier r project;
                        Vp.attributes := [("org_id", Vp.resource_org r (tenant s))];
                        Vp.parents := [] |}) <$> Route.m_resource mr).
Proof.
  intros Hk Hu Ht Hg Ha Hr q.
  assert (PolicyQuery.principal q = PrincipalRef.new (principal s) ∧
          PolicyQuery.action q = action s ∧ PolicyQuery.resource q = Route.m_resource mr ∧
          PolicyContext.groups (PolicyQuery.context q) = groups s) as (Hqp & Hqa & Hqr & Hqg).
  { unfold q, build_query. rewrite Hk, Hu, Ht, Hg, Ha. by destruct ip, (Identity.extra id). }
  unfold Vp.build_vp_request, Vp.build_vp_entities. rewrite Hqp, Hqa, Hqr, Hqg. split.
  - unfold scenario_request. simpl. f_equal.
    destruct Hr as [t r (Hn & He & Hi & Hc)|]; [|done]. simpl. f_equal.
    unfold test_resource, Vp.resource_identifier, ResourceRef.vp_entity_type.
    by rewrite Hc, Hn, He, Hi.
  - simpl. by destruct (Route.m_resource mr).
Qed.
End tests.

(** ** Syncing *)
Section sync.
Import PolicySync.
Context `{UrlLib, HashOrder, PolicyStore}.
(** Documented behaviour of the service: creating a policy adds it, whatever
    the store holds; a failed call may have taken effect. *)
Class PolicyStoreLaws := {
  policies_of : string → store → list string;
  create_policy_spec id body s : let '(s', r) := create_policy id body s in
    match r with
    | Ok () => policies_of id s' = policies_of id s ++ [body]
    | Err _ => policies_of id s' = policies_of id s ∨ policies_of id s' = policies_of id s ++ [body]
    | Stuck _ => False
    end;
  put_schema_spec id schema s : let '(s', r) := put_schema id schema s in
    policies_of id s' = policies_of id s ∧ returns r;
}.
Context `{!PolicyStoreLaws}.

Lemma create_policies_spec id i texts s :
  let '(s', r) := create_policies id i texts s in
  ∃ n, policies_of id s' = policies_of id s ++ take n texts ∧
    match r with Ok () => length texts ≤ n | Err _ => True | Stuck _ => False end.
Proof.
  revert i s. induction texts as [|body texts IH]; intros i s.
  { simpl. exists 0. by rewrite take_nil, app_nil_r. }
  cbn [create_policies]. unfold mbind, M_bind.
  pose proof (create_policy_spec id body s) as Hc.
  destruct (create_policy id body s) as [s1 [[]|e|w]]; simpl in *; [| |done].
  - specialize (IH (i + 1)%N s1). destruct (create_policies id (i + 1) texts s1) as [s2 r].
    destruct IH as (n & Hn & Hr). exists (S n). simpl. rewrite Hn, Hc, <-app_assoc. split; [done|].
    destruct r as [[]| |]; [lia|done..].
  - destruct Hc as [->| ->]; [exists 0; by rewrite take_0, app_nil_r|by exists 1].
Qed.

Lemma compile_cases tsp c :
  match compile tsp c with
  | Ok (out, _) => out = PolicyFacts.all_texts (CedarNamespace.from_project (project_id c)) (policies c)
  | Err _ => True
  | Stuck _ => False
  end.
Proof.
  unfold compile. pose proof (PolicyFacts.compile_all_cases (policies c) (groups c) (project_id c)) as Hc.
  destruct (Compile.compile_all_to_cedar _ _ _) as [out|e|w]; [|done..]. destruct Hc as (_ & _ & ->).
  simpl. destruct (PolicyFacts.schema_declares_compiled (policies c) (Route.action <$> routes c) (project_id c)
    (ConfigTypes.to_entity_config (schema c))) as (col & -> & _). done.
Qed.

(** syncing only ever adds.  [policies sync] of a configuration leaves
    every statement the store holds in place, those of earlier syncs among
    them, and adds a prefix of the compiled statements in order; it succeeds
    only when all were added.  So a policy that was removed from the file, or
    changed, still decides after the sync; and syncing twice adds every
    statement twice. *)
Theorem sync_only_adds load tsp path s c a :
  load path = Ok c → authz c = Some a →
  let '(s', r) := sync load tsp path false s in
  let store_id := policy_store_id a in
  (∃ n, policies_of store_id s' = policies_of store_id s ++
     take n (PolicyFacts.all_texts (CedarNamespace.from_project (project_id c)) (policies c)) ∧
   (r = Ok () → policies_of store_id s' = policies_of store_id s ++
     PolicyFacts.all_texts (CedarNamespace.from_project (project_id c)) (policies c))) ∧
  returns r.
Proof.
  intros Hload Ha. unfold sync. rewrite Hload. cbn [wrap map_err].
  unfold mbind at 1, M_bind at 1, lift at 1. pose proof (compile_cases tsp c) as Hc.
  unfold mbind at 1, M_bind at 1, lift at 1.
  destruct (compile tsp c) as [[out schema]|e|w]; [subst out| |done]; last first.
  { split; [|apply returns_Err]. exists 0. split; [by rewrite take_0, app_nil_r|done]. }
  unfold mbind at 1, M_bind at 1, lift at 1. rewrite Ha. cbn [ok_or].
  unfold mbind at 1, M_bind at 1.
  pose proof (put_schema_spec (policy_store_id a) schema s) as Hput.
  destruct (put_schema _ schema s) as [s1 [[]|e|w]]; cbn [prod_map fst snd wrap map_err];
    destruct Hput as [Hput Hr]; [| |by destruct (Hr w)]; last first.
  { split; [|apply returns_Err]. exists 0. split; [by rewrite take_0, app_nil_r|done]. }
  pose proof (create_policies_spec (policy_store_id a) 1
    (PolicyFacts.all_texts (CedarNamespace.from_project (project_id c)) (policies c)) s1) as Hcr.
  change (Datatypes.id s1) with s1. destruct (create_policies _ _ _ s1) as [s2 r]. destruct Hcr as (n & Hn & Hr'). rewrite Hput in Hn.
  cbv zeta. split; [|destruct r; [apply returns_Ok|apply returns_Err|done]]. exists n.
  split; [done|]. intros ->. by rewrite Hn, take_ge.
Qed.
End sync.
End CliFacts.

(** * Samples *)
Module CliSample.
Import Config.
#[local] Existing Instances ConfigSample.sample_url SchemaSample.ascending.
Definition seg (s : string) : Segment.t := Segment.mk s.
Definition project : ProjectId := Id.mk (seg "todo").
Definition read_list : QualifiedAction.t := RouteSample.act "todo:list:read".
Definition scenario_test : ConfigTypes.PolicyTest := {|
  ConfigTypes.name := "staff read"; ConfigTypes.principal := "ann";
  ConfigTypes.groups := [Id.mk (seg "staff")]; ConfigTypes.tenant := "acme";
  ConfigTypes.action := read_list;
  ConfigTypes.resource := Some {| Permission.ref_namespace := seg "todo";
    Permission.ref_entity := seg "list"; Permission.ref_id := seg "7" |};
  ConfigTypes.expect := ConfigTypes.Allow |}.
Definition staff_policy : Permission.Policy := {|
  Permission.policy_name := Id.mk (seg "staff-read"); Permission.policy_description := None;
  Permission.statements := [{| Permission.effect := Permission.Allow;
    Permission.actions := [{| Permission.pat_namespace := Permission.Exact (seg "todo");
      Permission.pat_action := Permission.Exact (seg "read");
      Permission.pat_entity := Permission.Exact (seg "list") |}];
    Permission.resources := Permission.All; Permission.except := [] |}];
  Permission.policy_groups := [] |}.
Definition url : ConfigSample.SampleUrl := {|
  ConfigSample.s_text := "http://localhost:3000"; ConfigSample.s_scheme := "http";
  ConfigSample.s_host := "localhost"; ConfigSample.s_port := Some 3000%N |}.
Definition gated : Route.RouteMapping :=
  Route.new HttpMethod.Get "/lists/:id" read_list (Some "id") (Some (FlagName.Global (seg "beta"))).
Definition store_section : AuthzConfig :=
  {| policy_store_id := "ps-1"; cache_ttl := 300; cache_max_entries := 10000 |}.
(** A configuration with a test, a policy and a route whose flag is not defined. *)
Definition config : ProxyConfig := {|
  project_id := project; listen_addr := NetAddr.V4 [127; 0; 0; 1]%N 8080; upstream_url := url;
  upstream_target := {| addr := "localhost:3000"; tls := false; sni := "localhost" |};
  default_policy := Pipeline.DenyByDefault; client_ip_source := Proxy.Proxy.Peer;
  auth := auth_default; jwt_config := None; api_keys := []; authz := Some store_section;
  metrics := metrics_default; routes := [gated]; public_routes := [];
  policies := [staff_policy]; groups := []; features := {| Features.flags := [] |};
  aws := ConfigTypes.aws_default; schema := ConfigTypes.schema_default;
  policy_tests := [scenario_test]; cors := None; cluster := None; signing := None |}.
Definition load (path : string) : result HttpError.t ProxyConfig := Ok config.
Definition no_flags : PolicyTests.CliTestFlags := {|
  PolicyTests.f_principal := None; PolicyTests.f_groups := None; PolicyTests.f_tenant := None;
  PolicyTests.f_action := None; PolicyTests.f_resource := None; PolicyTests.f_expect := None |}.
Definition scenario : PolicyTests.TestScenario := {|
  PolicyTests.name := "staff read"; PolicyTests.principal := Id.mk (seg "ann");
  PolicyTests.groups := [Id.mk (seg "staff")]; PolicyTests.tenant := Id.mk (seg "acme");
  PolicyTests.action := read_list; PolicyTests.resource := ConfigTypes.resource scenario_test;
  PolicyTests.expect := ConfigTypes.Allow |}.
Definition allow (r : PolicyTests.Request) : result string Vp.ServiceDecision := Ok Vp.ServiceAllow.
Definition ann : Identity.t := {|
  Identity.user_id := Id.mk (seg "ann"); Identity.tenant_id := Some (Id.mk (seg "acme"));
  Identity.groups := [Id.mk (seg "staff")]; Identity.expiry := None; Identity.resolver := "jwt";
  Identity.extra := None; Identity.principal_kind := PrincipalRef.User |}.
Definition matched : Route.MatchedRoute :=
  Route.build_matched_route (Route.value_of gated) [("id", "7")].

(** A store that keeps the statements it is given. *)
Definition list_store : PolicySync.PolicyStore := {|
  PolicySync.store := list string;
  PolicySync.put_schema _ _ s := (s, Ok ());
  PolicySync.create_policy _ body s := (s ++ [body], Ok ()) |}.
Definition list_store_laws : CliFacts.PolicyStoreLaws (H1 := list_store).
Proof.
  unshelve econstructor; [exact (λ _ s, s)|done|]. intros. split; [done|apply returns_Ok].
Defined.
End CliSample.

(** [check] accepts a configuration that the validation of the crate rejects:
    no command runs it. *)
Theorem check_skips_validation : ∃ errors warnings,
  is_ok (PolicySync.check CliSample.load "forgeguard.toml") = true ∧
  Validate.validate (Config.to_validate CliSample.config) = Ok (errors, warnings) ∧ errors ≠ [].
Proof.
  assert (match Validate.validate (Config.to_validate CliSample.config) with
          | Ok (_ :: _, _) => true | _ => false end = true) as Hv by (vm_cast_no_check (eq_refl true)).
  destruct (Validate.validate _) as [[[|e errors] warnings]| |] eqn:He; try discriminate Hv.
  exists (e :: errors), warnings. by split_and!.
Qed.

Lemma policy_tests_pass_iff_witness :
  CliSample.load "forgeguard.toml" = Ok CliSample.config ∧
  (PolicyTests.run CliSample.load to_ascii_lowercase CliSample.allow "forgeguard.toml"
     CliSample.no_flags []).2 = Ok ().
Proof.
  split; [reflexivity|].
  apply (CliFacts.policy_tests_pass_iff CliSample.load to_ascii_lowercase CliSample.allow
    "forgeguard.toml" CliSample.no_flags [] CliSample.config CliSample.store_section); [reflexivity..|].
  exists [CliSample.scenario]. split; [vm_compute; reflexivity|].
  intros s Hs. apply list_elem_of_singleton in Hs as ->. exists Vp.ServiceAllow. by split.
Defined.

Lemma policy_test_asks_as_engine_witness :
  PolicyTests.components (PolicyTests.scenario_request "ps-1" CliSample.project CliSample.scenario) =
  Vp.build_vp_request (build_query CliSample.ann CliSample.matched CliSample.project None)
    CliSample.project (Id.mk (CliSample.seg "acme")).
Proof.
  apply (CliFacts.policy_test_asks_as_engine "ps-1" CliSample.project CliSample.scenario
    CliSample.ann CliSample.matched None); [reflexivity..|].
  unfold CliFacts.same_resource, CliSample.scenario, CliSample.scenario_test.
  cbn [PolicyTests.resource ConfigTypes.resource].
  assert (Route.m_resource CliSample.matched =
    Some (ResourceRef.from_route CliSample.read_list (ResourceId.mk (CliSample.seg "7")))) as ->
    by (vm_compute; reflexivity).
  constructor. split_and!; vm_compute; reflexivity.
Defined.

Lemma sync_only_adds_witness : ∃ statement,
  (PolicySync.sync (H0 := SchemaSample.ascending) (H1 := CliSample.list_store) CliSample.load
     (λ _, EmptyString) "forgeguard.toml" false ["permit(principal, action, resource);"]).1 =
  ["permit(principal, action, resource);"; statement].
Proof.
  pose proof (CliFacts.sync_only_adds (H0 := SchemaSample.ascending) (H1 := CliSample.list_store)
    (H2 := CliSample.list_store_laws) CliSample.load (λ _, EmptyString) "forgeguard.toml"
    ["permit(principal, action, resource);"] CliSample.config CliSample.store_section eq_refl eq_refl) as H.
  destruct (PolicySync.sync _ _ _ _ _) as [s' r] eqn:Hs. destruct H as [(n & _ & Hok) _].
  assert (r = Ok ()) as -> by (apply (f_equal snd) in Hs; vm_compute in Hs; by symmetry).
  simpl. eexists. exact (Hok eq_refl).
Defined.
