(* ===== verification/DynamoReads.v ===== *)
(** Reads from DynamoDB: the organization store
    ([control-plane/src/dynamo_store/mod.rs], [groups.rs]) and the reading
    half of the event log and the model event store ([event_log.rs],
    [model_event_store/mod.rs]).  The service cuts the answers to queries and
    scans into pages where it likes; the theorems say which reads hide that
    and what the others return. *)

From stdpp Require Import pretty.
From S2P Require Import Prelude RustStr Decimal Ident Fgrn Store Event Org Rbac EventStore Dynamo.
From S2P Require Import DynamoLog DynamoStore DynamoSigned ReadModel.
From S2P Require Seed.

(** * Requests and answers *)
Module Query.
(** [begins_with(#sk, :prefix)] and [#sk BETWEEN :lo AND :hi]. *)
Inductive sort_condition := BeginsWith (prefix : string) | Between (lo hi : string).
Record request := {
  partition : string;
  condition : sort_condition;
  limit : option N;
}.
(** [begins_with(#pk, :prefix) AND #sk = :sk]. *)
Record scan_filter := { pk_prefix : string; sk_equals : string }.
Record page (I : Type) := {
  items : option (list I);
  last_evaluated_key : option Dynamo.item;
}.
Arguments items {I} _.
Arguments last_evaluated_key {I} _.

Definition selects (c : sort_condition) (s : string) : bool :=
  match c with
  | BeginsWith prefix => bool_decide (is_Some (RustStr.strip_prefix prefix s))
  | Between lo hi =>
      bool_decide (cmp_le String.compare lo s) && bool_decide (cmp_le String.compare s hi)
  end.
Definition passes (f : scan_filter) (k : Dynamo.key) : bool :=
  bool_decide (is_Some (RustStr.strip_prefix (pk_prefix f) k.1)) &&
  bool_decide (k.2 = sk_equals f).

(** [Some(key) if !key.is_empty()]. *)
Definition next_start {I} (p : page I) : option Dynamo.item :=
  match last_evaluated_key p with
  | Some key => if negb (bool_decide (key = ∅)) then Some key else None
  | None => None
  end.
End Query.

(** What the service answers at one moment. *)
Record Answers := {
  answer_get : Dynamo.key → result string (option Dynamo.item);
  answer_query : Query.request → option Dynamo.item → result string (Query.page Dynamo.item);
  answer_scan : Query.scan_filter → option Dynamo.item → result string (Query.page Dynamo.item);
}.

(** * The reads *)

(** A read makes its calls one after the other; the state counts them, and
    [world] gives the answers at each moment. *)
Abbreviation rd E A := (M nat E A).
Definition map_errM {S E F A} (f : E → F) (m : M S E A) : M S F A :=
  λ s, let '(s', r) := m s in (s', map_err f r).

Section reads.
Context (world : nat → Answers).

Definition query (req : Query.request) (start : option Dynamo.item) : rd string (Query.page Dynamo.item) :=
  λ n, (S n, answer_query (world n) req start).
Definition scan (f : Query.scan_filter) (start : option Dynamo.item) : rd string (Query.page Dynamo.item) :=
  λ n, (S n, answer_scan (world n) f start).
Definition fetch_item (k : Dynamo.key) : rd string (option Dynamo.item) :=
  λ n, (S n, answer_get (world n) k).

(** A program that only reads, run against the answers. *)
Fixpoint read_prog {A} (p : prog A) : rd CpError.t A :=
  match p with
  | Done r => lift r
  | GetItem k cont => λ n, read_prog (cont (answer_get (world n) k)) (S n)
  | PutItem _ _ _ | Transact _ _ => lift (Stuck "a read does not write")
  end.

End reads.

(** [loop { ..; match last_evaluated_key { Some(key) if .. => .., _ => break } }],
    where [add] is what the loop does with the items of a page. *)
Fixpoint fold_pages {I A} (fuel : nat) (fetch : option Dynamo.item → rd string (Query.page I))
    (add : A → list I → A) (start : option Dynamo.item) (acc : A) : rd CpError.t A :=
  match fuel with
  | 0 => lift (Stuck "paging: loop bound")
  | S fuel =>
      result ← map_errM CpError.Store (fetch start);
      let acc := add acc (default [] (Query.items result)) in
      match Query.next_start result with
      | Some key => fold_pages fuel fetch add (Some key) acc
      | None => mret acc
      end
  end.
(** [all_items.extend(items)]. *)
Definition collect_pages (fuel : nat) (fetch : option Dynamo.item → rd string (Query.page Dynamo.item))
    : rd CpError.t (list Dynamo.item) := fold_pages fuel fetch app None [].

(** ** The organization store *)
Module DynamoOrgStore.
Section store.
Context (world : nat → Answers).
Context {OrgConfig SigningKeyT : Type} (L : Libs OrgConfig SigningKeyT).
Abbreviation OrgRecord := (@EventStore.OrgRecord OrgConfig).

Definition get_raw_item (org_id : OrganizationId) : rd CpError.t (option Dynamo.item) :=
  map_errM CpError.Store
    (fetch_item world (DynamoStore.ORG_PREFIX +:+ Id.as_str org_id, DynamoStore.SK_META)).

Definition get (org_id : OrganizationId) : rd CpError.t (option OrgRecord) :=
  item ← get_raw_item org_id;
  match item with
  | Some item => lift (Some <$> DynamoStore.from_item L item)
  | None => mret None
  end.

Definition org_filter : Query.scan_filter :=
  {| Query.pk_prefix := DynamoStore.ORG_PREFIX; Query.sk_equals := DynamoStore.SK_META |}.
Definition list (fuel offset limit : nat) : rd CpError.t (list OrgRecord) :=
  all_items ← collect_pages fuel (scan world org_filter);
  lift (mapM (DynamoStore.from_item L) (take limit (drop offset all_items))).

Definition list_keys (org_id : OrganizationId) : rd CpError.t (Datatypes.list SigningKey.entry) :=
  item ← get_raw_item org_id;
  match item with
  | Some item => lift (DynamoStore.signing_keys_from_item L item)
  | None => mret []
  end.

Definition etaged_group_from_item (item : Dynamo.item) : result CpError.t OrgStore.EtagedGroup :=
  group ← DynamoStore.from_group_item L item;
  etag ← Etag.try_new group.2;
  Ok {| OrgStore.entry := group.1; OrgStore.etag := etag |}.

Definition get_group (org_id : OrganizationId) (name : string)
    : rd CpError.t (option OrgStore.EtagedGroup) :=
  item ← map_errM CpError.Store
           (fetch_item world (DynamoStore.group_pk org_id, DynamoStore.group_sk name));
  match item with
  | Some item => lift (Some <$> etaged_group_from_item item)
  | None => mret None
  end.

Definition groups_query (org_id : OrganizationId) : Query.request := {|
  Query.partition := DynamoStore.group_pk org_id;
  Query.condition := Query.BeginsWith DynamoStore.SK_GROUP_PREFIX;
  Query.limit := None;
|}.
Definition list_groups (fuel : nat) (org_id : OrganizationId)
    : rd CpError.t (Datatypes.list OrgStore.EtagedGroup) :=
  all_items ← collect_pages fuel (query world (groups_query org_id));
  lift (mapM etaged_group_from_item all_items).

Definition list_inheritors (fuel : nat) (org_id : OrganizationId) (name : string)
    : rd CpError.t (Datatypes.list string) :=
  groups_list ← list_groups fuel org_id;
  mret ((λ g, Rbac.name (OrgStore.entry g)) <$>
          filter (λ g, name ∈ Rbac.inherits (OrgStore.entry g)) groups_list).
End store.
End DynamoOrgStore.

(** ** Counting members *)

(** Membership rows have a list attribute; they are items of their own type. *)
Module DynamoMembers.
Abbreviation row := Seed.Membership.item.
(** [begins_with(#pk, :user_prefix) AND #sk = :sk_val AND contains(#groups, :group_name)]. *)
Record filter := { by_key : Query.scan_filter; group_name : string }.
Definition contains (i : row) (name : string) : bool :=
  match i !! "groups" with
  | Some (Seed.Membership.L vs) => bool_decide (Dynamo.S name ∈ vs)
  | Some (Seed.Membership.One (Dynamo.S s)) => RustStr.contains_str name s
  | _ => false
  end.
Definition passes (f : filter) (x : Dynamo.key * row) : bool :=
  Query.passes (by_key f) x.1 && contains x.2 (group_name f).

Section members.
Context (scan : filter → option Dynamo.item → rd string (Query.page row)).

Definition members_filter (org_id : OrganizationId) (name : string) : filter := {|
  by_key := {| Query.pk_prefix := Seed.Membership.USER_PREFIX;
               Query.sk_equals := DynamoStore.ORG_PREFIX +:+ Id.as_str org_id |};
  group_name := name;
|}.
(** [*counts.entry(user_sub).or_insert(0) += 1], on a [u32]. *)
Definition count_row (counts : gmap string N) (i : row) : gmap string N :=
  match match i !! Dynamo.pk with
        | Some (Seed.Membership.One v) => Dynamo.as_s v ≫= RustStr.strip_prefix Seed.Membership.USER_PREFIX
        | _ => None
        end with
  | Some user_sub => <[user_sub := ((default 0 (counts !! user_sub) + 1) `mod` 2 ^ 32)%N]> counts
  | None => counts
  end.
Definition count_memberships_for_group (fuel : nat) (org_id : OrganizationId) (name : string)
    : rd CpError.t (gmap string N) :=
  fold_pages fuel (scan (members_filter org_id name)) (foldl count_row) None ∅.
End members.
End DynamoMembers.

(** ** The event log and the model event store *)
Module DynamoEvents.
Section events.
Context (world : nat → Answers).
Context {OrgConfig SigningKeyT : Type} (L : Libs OrgConfig SigningKeyT).
Context (actor_from_str : string → result string Envelope.Actor).

(** [i32::try_from(limit).unwrap_or(i32::MAX)]. *)
Definition limit_i32 (limit : nat) : N := N.min (N.of_nat limit) (2 ^ 31 - 1).
(** [saturating_add(1)] on a [u64]. *)
Definition saturating_succ (n : N) : N := N.min (n + 1) (2 ^ 64 - 1).

Definition events_query (org_pk : string) (after : Revision.t) (limit : nat) : Query.request := {|
  Query.partition := org_pk;
  Query.condition := Query.Between (EventLog.event_sk (saturating_succ (Revision.value after)))
                                   EventLog.EVT_SK_MAX;
  Query.limit := Some (limit_i32 limit);
|}.
(** [DynamoEventLog]'s read: one query; where its page ends is not looked at. *)
Definition log_events_after (org_pk : string) (after : Revision.t) (limit : nat)
    : rd AuthzError.t (list Envelope.t) :=
  result ← map_errM (λ e, AuthzError.EvaluationFailed ("event log query: " +:+ e))
             (query world (events_query org_pk after limit) None);
  lift (map_err (λ e, AuthzError.EvaluationFailed (cp_error_str e))
          (mapM (EventLog.envelope_from_item (json_from_str L) actor_from_str)
             (default [] (Query.items result)))).

(** The operations of [DynamoModelEventStore] that only read. *)
Definition latest_revision (org_id : string) : rd CpError.t Revision.t :=
  read_prog world (DynamoStore.latest_revision org_id).
Definition events_after (org_id : string) (after : Revision.t) (limit : nat)
    : rd CpError.t (list Envelope.t) :=
  map_errM store_err (log_events_after (DynamoStore.ORG_PREFIX +:+ org_id) after limit).
Definition fold_at (fuel : nat) (org_id : string) (at_rev : option Revision.t)
    : rd CpError.t Fold.FoldedState :=
  Replay.fold_at latest_revision events_after fuel org_id at_rev.

Definition type_prefix (resource_type : Segment.t) : string :=
  DynamoStore.PROMO_PREFIX +:+ Segment.as_str resource_type +:+ "#".
Definition promotions_query (org_id : string) (resource_type : Segment.t) (limit : nat)
    : Query.request := {|
  Query.partition := DynamoStore.ORG_PREFIX +:+ org_id;
  Query.condition := Query.BeginsWith (type_prefix resource_type);
  Query.limit := Some (limit_i32 limit);
|}.
Definition promotions_start (org_id : string) (resource_type : Segment.t) (after : NativeId.t)
    : Dynamo.item :=
  <[Dynamo.sk := Dynamo.S (type_prefix resource_type +:+ NativeId.as_str after)]>
    (<[Dynamo.pk := Dynamo.S (DynamoStore.ORG_PREFIX +:+ org_id)]> ∅).
Definition promotion_entry (item : Dynamo.item) : result CpError.t PromotionStore.PromotionEntry :=
  fgrn ← EventLog.get_s item "fgrn";
  native_id ← EventLog.get_s item "native_id";
  Ok {| PromotionStore.entry_fgrn := fgrn; PromotionStore.entry_native_id := native_id |}.
Definition list_promotions (org_id : string) (resource_type : Segment.t)
    (after : option NativeId.t) (limit : nat) : rd CpError.t (list PromotionStore.PromotionEntry) :=
  result ← map_errM CpError.Store
             (query world (promotions_query org_id resource_type limit)
                (promotions_start org_id resource_type <$> after));
  lift (mapM promotion_entry (default [] (Query.items result))).

(** The public half of the stored private key ([ed25519_dalek]). *)
Context {VK : Type} (verifying_key : SigningKeyT → VK).
Context (to_public_key_pem : VK → result string string).
Definition encode_verifying_key_pem (key : VK) : result CpError.t string :=
  map_err (λ e, CpError.Store ("failed to encode public key: " +:+ e)) (to_public_key_pem key).
Definition public_pem_from_private (private_pem : string) : result CpError.t string :=
  key ← map_err (λ e, CpError.Store ("stored event signing key invalid: " +:+ e))
          (key_from_pem L private_pem);
  encode_verifying_key_pem (verifying_key key).
Definition list_signing_keys (org_id : string) : rd CpError.t (list EventSigningKey) :=
  item ← map_errM CpError.Store
           (fetch_item world (DynamoStore.ORG_PREFIX +:+ org_id, SK_EVENT_SIGNING_KEY));
  match item with
  | None => mret []
  | Some item =>
      private_pem ← lift (EventLog.get_s item "private_key_pem");
      key_id ← lift (EventLog.get_s item "key_id");
      public_pem ← lift (public_pem_from_private private_pem);
      mret [{| esk_key_id := key_id; esk_public_key_pem := public_pem |}]
  end.
End events.
End DynamoEvents.

(** * What the service documents *)

Definition entry_lt (a b : string * Dynamo.item) : Prop := String.compare a.1 b.1 = Lt.

Section laws.
Context {T : Type} `{DynamoService T}.

(** The entries a query evaluates: those of the table that match, past the
    start key, in the order of the sort key. *)
Record evaluates (t : T) (req : Query.request) (after : option string)
    (l : list (string * Dynamo.item)) : Prop := {
  eval_sorted : StronglySorted entry_lt l;
  eval_elem s i : (s, i) ∈ l ↔
    get_item t (Query.partition req, s) = Some i ∧
    Query.selects (Query.condition req) s = true ∧
    (∀ a, after = Some a → String.compare a s = Lt);
}.
Definition starts_at (req : Query.request) (start : option Dynamo.item) (after : option string)
    : Prop :=
  match start, after with
  | None, None => True
  | Some k, Some a => Dynamo.key_of k = Some (Query.partition req, a)
  | _, _ => False
  end.

(** A page reads some entries; it names the last one, as a key, unless none
    is left. *)
Definition page_ends {I X} (mark : X → Dynamo.item → Prop) (p : Query.page I) (read rest : list X)
    : Prop :=
  match Query.next_start p with
  | Some k => ∃ x, last read = Some x ∧ mark x k
  | None => rest = []
  end.
Definition sort_mark (req : Query.request) (x : string * Dynamo.item) (k : Dynamo.item) : Prop :=
  Dynamo.key_of k = Some (Query.partition req, x.1).
Definition scan_mark (x : Dynamo.key * Dynamo.item) (k : Dynamo.item) : Prop :=
  Dynamo.key_of k = Some x.1.
(** A position: nothing read yet, or the entry the last page named. *)
Definition position {X} (mark : X → Dynamo.item → Prop) (start : option Dynamo.item)
    (pre : list X) : Prop :=
  match start with
  | None => pre = []
  | Some k => ∃ x, last pre = Some x ∧ mark x k
  end.

(** Documented behaviour of the answers given from a table: a query reads a
    slice of the matching entries in sort-key order and at most [Limit] of
    them, a scan a slice of the items in some order, filtered; slices may be
    short; stored items carry their keys and are finitely many. *)
Record answers_from (t : T) (order : list (Dynamo.key * Dynamo.item)) (a : Answers) : Prop := {
  from_get k o : answer_get a k = Ok o → o = get_item t k;
  from_query req start after p :
    answer_query a req start = Ok p → starts_at req start after →
    ∃ read rest, evaluates t req after (read ++ rest) ∧
      default [] (Query.items p) = read.*2 ∧ page_ends (sort_mark req) p read rest ∧
      ∀ n, Query.limit req = Some n → (N.of_nat (length read) ≤ n)%N;
  from_scan f start pre suf p :
    answer_scan a f start = Ok p → order = pre ++ suf → position scan_mark start pre →
    ∃ read rest, suf = read ++ rest ∧
      default [] (Query.items p) = (filter (λ x, Query.passes f x.1 = true) read).*2 ∧
      page_ends scan_mark p read rest;
  from_order : NoDup order.*1 ∧ ∀ k i, (k, i) ∈ order ↔ get_item t k = Some i;
  from_keyed k i : get_item t k = Some i → Dynamo.key_of i = Some k;
  from_returns : (∀ k, returns (answer_get a k)) ∧ (∀ r s, returns (answer_query a r s)) ∧
                 ∀ f s, returns (answer_scan a f s);
}.

(** The same while the table changes.  A read that asks for consistency
    (every [get_item] of the event store does) gives the item of the present
    table; a query does not ask, and gives of each item it reads a value the
    item had in some table there has been, or misses the item: it need not
    answer from one moment.  [past] holds of the tables there have been. *)
Record answers_amid (past : T → Prop) (now : T) (a : Answers) : Prop := {
  amid_get k o : answer_get a k = Ok o → o = get_item now k;
  amid_query req start after p :
    answer_query a req start = Ok p → starts_at req start after →
    ∃ read, default [] (Query.items p) = read.*2 ∧ StronglySorted entry_lt read ∧
      (∀ s i, (s, i) ∈ read →
         (∃ t, past t ∧ get_item t (Query.partition req, s) = Some i) ∧
         Query.selects (Query.condition req) s = true ∧
         ∀ x, after = Some x → String.compare x s = Lt) ∧
      ∀ n, Query.limit req = Some n → (N.of_nat (length read) ≤ n)%N;
  amid_returns : (∀ k, returns (answer_get a k)) ∧ ∀ r s, returns (answer_query a r s);
}.
(** Answers from the present table are such answers. *)
Lemma answers_from_amid (past : T → Prop) now order a :
  past now → answers_from now order a → answers_amid past now a.
Proof.
  intros Hp Ha. split; [by apply Ha| |split; apply Ha].
  intros req start after p Hq Hs.
  destruct (from_query _ _ _ Ha _ _ _ _ Hq Hs) as (read & rest & [Hsort Hel] & Hi & _ & Hl).
  exists read. split_and!; [done| | |done].
  - clear Hel Hi Hl. induction read as [|x read IH]; [constructor|].
    apply StronglySorted_inv in Hsort as [Hr Hx]. constructor; [by apply IH|].
    by apply Forall_app in Hx as [].
  - intros s i Hin. destruct (proj1 (Hel s i)) as (? & ? & ?);
      [apply elem_of_app; by left|]. split_and!; [by exists now|done..].
Qed.
End laws.

(** * Facts about pages *)
Module PageFacts.

Section sorted.
Lemma compare_lt_trans a b c :
  String.compare a b = Lt → String.compare b c = Lt → String.compare a c = Lt.
Proof. apply (cmp_lt_trans String.compare). Qed.
Lemma compare_irrefl a : String.compare a a ≠ Lt.
Proof. rewrite (proj2 (cmp_eq String.compare a a) eq_refl). done. Qed.

Lemma entries_NoDup l : StronglySorted entry_lt l → NoDup l.
Proof.
  induction 1 as [|x l _ IH Hx]; [constructor|]. apply NoDup_cons. split; [|done].
  intros Hin. rewrite Forall_forall in Hx. by apply (compare_irrefl x.1), (Hx x).
Qed.
(** Strictly sorted entries are determined by their elements. *)
Lemma entries_unique l k :
  StronglySorted entry_lt l → StronglySorted entry_lt k → (∀ x, x ∈ l ↔ x ∈ k) → l = k.
Proof.
  intros Hl Hk Heq. apply (StronglySorted_unique_strong entry_lt); [|done|done|].
  - intros x y _ _ Hxy Hyx. destruct (compare_irrefl x.1). by eapply compare_lt_trans.
  - apply NoDup_Permutation; [by apply entries_NoDup..|done].
Qed.
Lemma entries_app_lt pre suf x y :
  StronglySorted entry_lt (pre ++ suf) → x ∈ pre → y ∈ suf → entry_lt x y.
Proof.
  intros Hs Hx Hy. induction pre as [|z pre IH]; [by apply elem_of_nil in Hx|].
  simpl in Hs. apply StronglySorted_inv in Hs as [Hs Hz]. rewrite Forall_forall in Hz.
  apply elem_of_cons in Hx as [->|Hx]; [|by apply IH].
  apply Hz, elem_of_app. by right.
Qed.
End sorted.

Section queries.
Context {T : Type} `{DynamoService T}.
Implicit Types (t : T) (req : Query.request).

Lemma evaluates_unique t req after l k : evaluates t req after l → evaluates t req after k → l = k.
Proof.
  intros [Hl El] [Hk Ek]. apply entries_unique; [done..|]. intros [s i]. by rewrite El, Ek.
Qed.
(** Past a position, the entries that follow it. *)
Lemma evaluates_after t req pre suf x :
  evaluates t req None (pre ++ suf) → last pre = Some x → evaluates t req (Some x.1) suf.
Proof.
  intros [Hs He] Hx. apply last_Some in Hx as [pre' ->]. rewrite <-app_assoc in *. simpl in *.
  assert (StronglySorted entry_lt (x :: suf)) as Hxs.
  { clear He. induction pre' as [|y pre' IH]; [done|]. by apply IH, (StronglySorted_inv Hs). }
  apply StronglySorted_inv in Hxs as [Hsuf Hlt]. rewrite Forall_forall in Hlt.
  split; [done|]. intros s i. split.
  - intros Hin. assert ((s, i) ∈ pre' ++ x :: suf) as Hall by set_solver.
    apply He in Hall as (? & ? & _). split_and!; [done..|].
    intros a [= <-]. exact (Hlt _ Hin).
  - intros (Hg & Hsel & Ha). specialize (Ha _ eq_refl).
    assert ((s, i) ∈ pre' ++ x :: suf) as Hin by (apply He; done).
    apply elem_of_app in Hin as [Hin|[<-|Hin]%elem_of_cons].
    + pose proof (entries_app_lt pre' (x :: suf) _ x Hs Hin ltac:(left)) as Hsx.
      destruct (compare_irrefl s). by eapply compare_lt_trans.
    + by destruct (compare_irrefl s).
    + done.
Qed.
End queries.

(** ** The loop *)
Section loop.
Context {I A X : Type} (fetch : option Dynamo.item → rd string (Query.page I)) (add : A → list I → A).
Context (mark : X → Dynamo.item → Prop) (out : list X → A) (all : list X).
(** Each call takes one step and reads on from its position. *)
Context (Hstep : ∀ start n, (fetch start n).1 = S n).
Context (Hpage : ∀ start n pre suf p,
  all = pre ++ suf → position mark start pre → (fetch start n).2 = Ok p →
  ∃ read rest, suf = read ++ rest ∧ add (out pre) (default [] (Query.items p)) = out (pre ++ read) ∧
    page_ends mark p read rest).
Context (Hreturns : ∀ start n, returns (fetch start n).2).

Lemma fold_pages_step fuel start acc n :
  fold_pages (S fuel) fetch add start acc n =
  match fetch start n with
  | (n', Ok p) =>
      let acc := add acc (default [] (Query.items p)) in
      match Query.next_start p with
      | Some k => fold_pages fuel fetch add (Some k) acc n'
      | None => (n', Ok acc)
      end
  | (n', Err e) => (n', Err (CpError.Store e))
  | (n', Stuck w) => (n', Stuck w)
  end.
Proof.
  cbn [fold_pages]. unfold mbind, M_bind, map_errM.
  destruct (fetch start n) as [n' [p|e|w]]; simpl; [|done..]. by destruct (Query.next_start p).
Qed.

(** The loop takes everything into account, or returns the error of a call
    that failed. *)
Lemma fold_pages_spec fuel n start pre suf :
  all = pre ++ suf → position mark start pre → length suf < fuel →
  (fold_pages fuel fetch add start (out pre) n).2 = Ok (out all) ∨
  ∃ m s e, (fetch s m).2 = Err e ∧
    (fold_pages fuel fetch add start (out pre) n).2 = Err (CpError.Store e).
Proof.
  revert n start pre suf. induction fuel as [|fuel IH]; intros n start pre suf Hall Hpos Hlen; [lia|].
  rewrite fold_pages_step.
  pose proof (Hstep start n) as Hn. pose proof (Hreturns start n) as Hr.
  pose proof (Hpage start n pre suf) as Hp.
  destruct (fetch start n) as [n' [p|e|w]] eqn:Hf; simpl in *; subst n'.
  - destruct (Hp p Hall Hpos eq_refl) as (read & rest & -> & -> & He).
    unfold page_ends in He. destruct (Query.next_start p) as [k|].
    + apply (IH (S n) (Some k) (pre ++ read) rest); [by rewrite <-app_assoc| |].
      * destruct He as (x & Hx & Hk). exists x. split; [|done]. by rewrite last_app, Hx.
      * destruct He as (x & Hx & _). rewrite length_app in Hlen.
        destruct read; [done|]. simpl in *. lia.
    + left. subst rest. rewrite Hall, app_nil_r. done.
  - right. exists n, start, e. by rewrite Hf.
  - by destruct (Hr w).
Qed.
Lemma fold_all fuel n :
  length all < fuel →
  (fold_pages fuel fetch add None (out []) n).2 = Ok (out all) ∨
  ∃ m s e, (fetch s m).2 = Err e ∧
    (fold_pages fuel fetch add None (out []) n).2 = Err (CpError.Store e).
Proof. by apply (fold_pages_spec fuel n None [] all). Qed.
End loop.
End PageFacts.

(** * Facts about the organization store *)
Module OrgReadFacts.
Lemma key_of_Some i p s :
  Dynamo.key_of i = Some (p, s) → EventLog.get_s i Dynamo.pk = Ok p ∧ EventLog.get_s i Dynamo.sk = Ok s.
Proof.
  unfold Dynamo.key_of, EventLog.get_s. intros (p' & Hp & (s' & Hs & [= -> ->])%bind_Some)%bind_Some.
  apply bind_Some in Hp as ([] & -> & [= ->]), Hs as ([] & -> & [= ->]). done.
Qed.
Lemma get_s_opt_of item k v : EventLog.get_s item k = Ok v → DynamoStore.get_s_opt item k = Some v.
Proof. unfold EventLog.get_s, DynamoStore.get_s_opt. by rewrite ok_or_Ok. Qed.
Lemma mapM_failed {E A B} (f : A → result E B) l :
  is_ok (mapM f l) = false → ∃ x, x ∈ l ∧ is_ok (f x) = false.
Proof.
  induction l as [|x l IH]; [done|]. simpl. destruct (f x) as [b| |] eqn:Hx; simpl.
  - destruct (mapM f l) eqn:Hl; simpl; [done|..]; intros _;
      (destruct IH as (y & ? & ?); [done|]; exists y; split; [by right|done]).
  - exists x. rewrite Hx. split; [left|done].
  - exists x. rewrite Hx. split; [left|done].
Qed.
Lemma passes_Some f k :
  Query.passes f k = true ↔
  (∃ s, k.1 = Query.pk_prefix f +:+ s) ∧ k.2 = Query.sk_equals f.
Proof.
  unfold Query.passes. rewrite andb_true_iff, !bool_decide_eq_true. unfold is_Some.
  by setoid_rewrite strip_prefix_Some.
Qed.
Lemma map_errM_Ok {St E F A} (f : E → F) (m : M St E A) s a :
  (map_errM f m s).2 = Ok a ↔ (m s).2 = Ok a.
Proof. unfold map_errM. destruct (m s) as [s' r]. simpl. apply map_err_Ok. Qed.

Section facts.
Context {T : Type} `{DynamoService T}.
Context (t : T) (order : list (Dynamo.key * Dynamo.item)) (world : nat → Answers).
Context (Hworld : ∀ m, answers_from t order (world m)).
Context {OrgConfig SigningKeyT : Type} (L : Libs OrgConfig SigningKeyT).

(** Every evaluated entry is an item of the table. *)
Lemma evaluates_bound req after l : evaluates t req after l → length l ≤ length order.
Proof.
  intros [Hs He]. destruct (from_order _ _ _ (Hworld 0)) as [_ Ho].
  rewrite <-(length_fmap (λ x : string * Dynamo.item, ((Query.partition req, x.1), x.2)) l).
  apply submseteq_length, NoDup_submseteq.
  - apply NoDup_fmap_2; [|by apply PageFacts.entries_NoDup].
    intros [s i] [s' i'] [=]. by subst.
  - intros k ([s i] & -> & Hin)%list_elem_of_fmap. simpl. apply Ho. by apply He in Hin as [? _].
Qed.

Lemma query_pages req n start l :
  evaluates t req None l → ∀ pre suf p, l = pre ++ suf → position (sort_mark req) start pre →
  (query world req start n).2 = Ok p →
  ∃ read rest, suf = read ++ rest ∧ default [] (Query.items p) = read.*2 ∧
    page_ends (sort_mark req) p read rest.
Proof.
  intros Hl pre suf p -> Hpos Hp.
  set (after := match start with None => None | Some _ => fst <$> last pre end).
  assert (starts_at req start after ∧ evaluates t req after suf) as [Hst Hsuf].
  { unfold after, position in *. destruct start as [k|]; simpl; [|by subst].
    destruct Hpos as (x & Hlast & Hx). rewrite Hlast. split; [done|]. by eapply PageFacts.evaluates_after. }
  destruct (from_query _ _ _ (Hworld n) req start after p Hp Hst)
    as (read & rest & He & Hi & Hends & _).
  exists read, rest. split_and!; [|done..]. by eapply PageFacts.evaluates_unique.
Qed.
(** Collecting a query's pages reads every matching entry, in order. *)
Lemma collect_query fuel n req :
  length order < fuel →
  (∃ l, evaluates t req None l ∧
     (collect_pages fuel (query world req) n).2 = Ok l.*2) ∨
  ∃ m s e, (query world req s m).2 = Err e ∧
    (collect_pages fuel (query world req) n).2 = Err (CpError.Store e).
Proof.
  intros Hf. destruct (answer_query (world n) req None) as [p|e|w] eqn:Hp.
  - destruct (from_query _ _ _ (Hworld n) req None None p Hp I) as (read & rest & Hl & _).
    set (l := read ++ rest) in *.
    destruct (PageFacts.fold_all (query world req) app (sort_mark req)
                (λ l : list (string * Dynamo.item), l.*2) l) with (fuel := fuel) (n := n)
      as [Hok|Herr].
    + done.
    + intros start m pre suf p' Ha Hpos Hp'.
      destruct (query_pages req m start l Hl pre suf p' Ha Hpos Hp') as (rd & rs & -> & -> & ?).
      exists rd, rs. by rewrite fmap_app.
    + intros start m. apply (from_returns _ _ _ (Hworld m)).
    + pose proof (evaluates_bound _ _ _ Hl). lia.
    + left. by exists l.
    + by right.
  - right. exists n, None, e. split; [done|]. destruct fuel; [lia|].
    unfold collect_pages. rewrite PageFacts.fold_pages_step. unfold query at 1. by rewrite Hp.
  - by destruct (proj1 (proj2 (from_returns _ _ _ (Hworld n))) req None w).
Qed.

(** ** Groups *)
Lemma etaged_group_name o s i g :
  get_item t (DynamoStore.group_pk o, s) = Some i →
  DynamoOrgStore.etaged_group_from_item L i = Ok g →
  s = DynamoStore.group_sk (Rbac.name (OrgStore.entry g)).
Proof.
  intros Hi%(from_keyed _ _ _ (Hworld 0)) Hg. apply key_of_Some in Hi as [_ Hs%get_s_opt_of].
  unfold DynamoOrgStore.etaged_group_from_item in Hg.
  apply bind_Ok in Hg as ([e tag] & Hf & (tag' & _ & [= <-])%bind_Ok). simpl.
  unfold DynamoStore.from_group_item, DynamoStore.group_get_s in Hf. rewrite Hs in Hf.
  cbn [ok_or mbind result_bind] in Hf.
  apply bind_Ok in Hf as (x & Hx%ok_or_Ok%strip_prefix_Some & Hf).
  apply bind_Ok in Hf as (json & _ & (e' & _ & (tag'' & _ & Hf)%bind_Ok)%bind_Ok).
  destruct (bool_decide (Rbac.name e' = x)) eqn:Hn; [|done]. apply bool_decide_eq_true in Hn.
  injection Hf as <- _. by subst.
Qed.
Lemma group_sk_compare a b :
  String.compare (DynamoStore.group_sk a) (DynamoStore.group_sk b) = String.compare a b.
Proof. apply DecimalFacts.append_compare. Qed.

Definition group_lt (g h : OrgStore.EtagedGroup) : Prop :=
  String.compare (Rbac.name (OrgStore.entry g)) (Rbac.name (OrgStore.entry h)) = Lt.
Lemma group_lt_NoDup gs :
  StronglySorted group_lt gs → NoDup ((λ g, Rbac.name (OrgStore.entry g)) <$> gs).
Proof.
  induction 1 as [|g gs _ IH Hg]; [constructor|]. simpl. apply NoDup_cons. split; [|done].
  intros (h & Heq & Hh)%list_elem_of_fmap. rewrite Forall_forall in Hg. specialize (Hg h Hh).
  unfold group_lt in Hg. rewrite Heq in Hg. by apply PageFacts.compare_irrefl in Hg.
Qed.
Lemma groups_parsed o l gs :
  evaluates t (DynamoOrgStore.groups_query o) None l →
  mapM (DynamoOrgStore.etaged_group_from_item L) l.*2 = Ok gs →
  Forall2 (λ x g, x.1 = DynamoStore.group_sk (Rbac.name (OrgStore.entry g)) ∧
                  DynamoOrgStore.etaged_group_from_item L x.2 = Ok g) l gs.
Proof.
  intros [_ He] Hgs%mapM_Ok. rewrite Forall2_fmap_l in Hgs.
  apply Forall2_same_length_lookup in Hgs as [Hlen Hgs].
  apply Forall2_same_length_lookup. split; [done|]. intros k [s i] g Hx Hg.
  pose proof (Hgs _ _ _ Hx Hg) as Hp. split; [|done]. simpl in *.
  apply list_elem_of_lookup_2, He in Hx as (Hi & _). by eapply etaged_group_name.
Qed.
Lemma groups_sorted l gs :
  StronglySorted entry_lt l →
  Forall2 (λ x g, x.1 = DynamoStore.group_sk (Rbac.name (OrgStore.entry g)) ∧
                  DynamoOrgStore.etaged_group_from_item L x.2 = Ok g) l gs →
  StronglySorted group_lt gs.
Proof.
  intros Hs Hp. revert Hs. induction Hp as [|x g l gs [Hx _] Hp IH]; intros Hs; [constructor|].
  apply StronglySorted_inv in Hs as [Hs Hlt]. constructor; [by apply IH|].
  rewrite Forall_forall in Hlt. apply Forall_forall. intros h Hh.
  apply list_elem_of_lookup in Hh as [k Hk].
  destruct (Forall2_lookup_r _ _ _ _ _ Hp Hk) as (y & Hy & Hyn & _).
  apply list_elem_of_lookup_2 in Hy. specialize (Hlt y Hy). unfold entry_lt in Hlt.
  rewrite Hx, Hyn, group_sk_compare in Hlt. done.
Qed.

Lemma groups_stop o l r :
  evaluates t (DynamoOrgStore.groups_query o) None l →
  mapM (DynamoOrgStore.etaged_group_from_item L) l.*2 = r → is_ok r = false →
  ∃ s i, get_item t (DynamoStore.group_pk o, s) = Some i ∧
         is_ok (DynamoOrgStore.etaged_group_from_item L i) = false.
Proof.
  intros Hl <- Hr. apply mapM_failed in Hr as (i & ([s i'] & -> & Hx)%list_elem_of_fmap & Hi).
  apply (eval_elem _ _ _ _ Hl) in Hx as (Hx & _). by exists s, i'.
Qed.
Lemma list_groups_cases fuel n o :
  length order < fuel →
  (∃ l, evaluates t (DynamoOrgStore.groups_query o) None l ∧
     (DynamoOrgStore.list_groups world L fuel o n).2 =
     mapM (DynamoOrgStore.etaged_group_from_item L) l.*2) ∨
  ∃ m s e, (query world (DynamoOrgStore.groups_query o) s m).2 = Err e ∧
    (DynamoOrgStore.list_groups world L fuel o n).2 = Err (CpError.Store e).
Proof.
  intros Hf. unfold DynamoOrgStore.list_groups, mbind, M_bind.
  destruct (collect_query fuel n (DynamoOrgStore.groups_query o) Hf)
    as [(l & Hl & Hc)|(m & s & e & He & Hc)];
    destruct (collect_pages _ _ n) as [n' r]; simpl in Hc; subst r.
  - left. by exists l.
  - right. by exists m, s, e.
Qed.
Lemma get_group_Ok o name m r :
  (DynamoOrgStore.get_group world L o name m).2 = Ok r →
  match get_item t (DynamoStore.group_pk o, DynamoStore.group_sk name) with
  | Some i => ∃ g, DynamoOrgStore.etaged_group_from_item L i = Ok g ∧ r = Some g
  | None => r = None
  end.
Proof.
  unfold DynamoOrgStore.get_group, mbind, M_bind, map_errM, fetch_item.
  destruct (answer_get (world m) _) as [item|e|w] eqn:Hi; simpl; [|done..].
  apply (from_get _ _ _ (Hworld m)) in Hi as ->. destruct (get_item t _) as [i|]; simpl.
  - intros (g & ? & ->)%fmap_Ok. by exists g.
  - by intros [= <-].
Qed.
(** ** Organizations *)
Definition org_items : list Dynamo.item :=
  (filter (λ x, Query.passes DynamoOrgStore.org_filter x.1 = true) order).*2.

Lemma scan_pages f start n pre suf p :
  order = pre ++ suf → position scan_mark start pre → (scan world f start n).2 = Ok p →
  ∃ read rest, suf = read ++ rest ∧
    default [] (Query.items p) = (filter (λ x, Query.passes f x.1 = true) read).*2 ∧
    page_ends scan_mark p read rest.
Proof. intros Ho Hpos Hp. by apply (from_scan _ _ _ (Hworld n) f start pre suf p). Qed.
Lemma list_cases fuel n offset limit :
  length order < fuel →
  (DynamoOrgStore.list world L fuel offset limit n).2 =
    mapM (DynamoStore.from_item L) (take limit (drop offset org_items)) ∨
  ∃ m s e, answer_scan (world m) DynamoOrgStore.org_filter s = Err e ∧
    (DynamoOrgStore.list world L fuel offset limit n).2 = Err (CpError.Store e).
Proof.
  intros Hf. unfold DynamoOrgStore.list, mbind, M_bind.
  destruct (PageFacts.fold_all (scan world DynamoOrgStore.org_filter) app scan_mark
    (λ l : list (Dynamo.key * Dynamo.item),
       (filter (λ x, Query.passes DynamoOrgStore.org_filter x.1 = true) l).*2) order)
    with (fuel := fuel) (n := n) as [Hc|(m & s & e & He & Hc)]; [done| | |done|..];
    [|intros start m; apply (from_returns _ _ _ (Hworld m))
     |change (fold_pages _ _ _ _ _ n) with
        (collect_pages fuel (scan world DynamoOrgStore.org_filter) n) in Hc;
      destruct (collect_pages _ _ n) as [n' r]; simpl in Hc; subst r; simpl..].
  - intros start m pre suf p Ho Hpos Hp.
    destruct (scan_pages _ start m pre suf p Ho Hpos Hp) as (rd & rs & -> & -> & ?).
    exists rd, rs. by rewrite filter_app, fmap_app.
  - by left.
  - right. by exists m, s, e.
Qed.

Definition record_org (r : @EventStore.OrgRecord OrgConfig) : OrganizationId :=
  Organization.org_id (EventStore.org r).
(** A record's identifier is the one in its key. *)
Lemma from_item_org p s i r :
  get_item t (p, s) = Some i → DynamoStore.from_item L i = Ok r →
  p = DynamoStore.ORG_PREFIX +:+ Id.as_str (record_org r).
Proof.
  intros [Hp _]%(from_keyed _ _ _ (Hworld 0))%key_of_Some Hr. unfold DynamoStore.from_item in Hr.
  rewrite Hp in Hr. cbn [mbind result_bind] in Hr.
  apply bind_Ok in Hr as (x & ->%ok_or_Ok%strip_prefix_Some & Hr).
  apply bind_Ok in Hr as (id & [<- _]%map_err_Ok%id_new_Ok & Hr).
  do 6 apply bind_Ok in Hr as (? & _ & Hr). by injection Hr as <-.
Qed.
Lemma org_items_elem i :
  i ∈ org_items ↔ ∃ s, get_item t (DynamoStore.ORG_PREFIX +:+ s, DynamoStore.SK_META) = Some i.
Proof.
  destruct (from_order _ _ _ (Hworld 0)) as [_ Ho]. unfold org_items. rewrite list_elem_of_fmap. split.
  - intros ([[p k] i'] & -> & [Hp Hin]%list_elem_of_filter). apply Ho in Hin.
    apply passes_Some in Hp as ([s Hs] & Hk). simpl in *. subst. by exists s.
  - intros [s Hi]. exists ((DynamoStore.ORG_PREFIX +:+ s, DynamoStore.SK_META), i). split; [done|].
    apply list_elem_of_filter. split; [|by apply Ho]. apply passes_Some. split; [by exists s|done].
Qed.
Lemma org_records_NoDup rs :
  mapM (DynamoStore.from_item L) org_items = Ok rs → NoDup (record_org <$> rs).
Proof.
  intros Hrs%mapM_Ok. apply NoDup_alt. intros j k o Hj Hk.
  rewrite list_lookup_fmap in Hj, Hk.
  destruct (rs !! j) as [r1|] eqn:H1, (rs !! k) as [r2|] eqn:H2; simplify_eq/=.
  destruct (Forall2_lookup_r _ _ _ _ _ Hrs H1) as (i1 & Hi1 & Hf1),
           (Forall2_lookup_r _ _ _ _ _ Hrs H2) as (i2 & Hi2 & Hf2).
  unfold org_items in Hi1, Hi2. rewrite list_lookup_fmap in Hi1, Hi2.
  destruct (filter _ order !! j) as [[[p1 s1] i1']|] eqn:He1; [|done].
  destruct (filter _ order !! k) as [[[p2 s2] i2']|] eqn:He2; [|done]. simplify_eq/=.
  destruct (from_order _ _ _ (Hworld 0)) as [Hnd Ho].
  pose proof (list_elem_of_lookup_2 _ _ _ He1) as [Hp1 Hin1]%list_elem_of_filter.
  pose proof (list_elem_of_lookup_2 _ _ _ He2) as [Hp2 Hin2]%list_elem_of_filter.
  apply Ho in Hin1, Hin2.
  pose proof (from_item_org _ _ _ _ Hin1 Hf1) as E1. pose proof (from_item_org _ _ _ _ Hin2 Hf2) as E2.
  assert (p1 = p2) as -> by congruence.
  apply passes_Some in Hp1 as [_ Hs1], Hp2 as [_ Hs2]. simpl in *. simplify_eq.
  eapply NoDup_lookup; [|exact He1|exact He2 || congruence].
  apply NoDup_filter. by eapply NoDup_fmap_1.
Qed.
Lemma org_get_Ok o m r :
  (DynamoOrgStore.get world L o m).2 = Ok r →
  match get_item t (DynamoStore.ORG_PREFIX +:+ Id.as_str o, DynamoStore.SK_META) with
  | Some i => ∃ x, DynamoStore.from_item L i = Ok x ∧ r = Some x
  | None => r = None
  end.
Proof.
  unfold DynamoOrgStore.get, DynamoOrgStore.get_raw_item, mbind, M_bind, map_errM, fetch_item.
  destruct (answer_get (world m) _) as [item|e|w] eqn:Hi; simpl; [|done..].
  apply (from_get _ _ _ (Hworld m)) in Hi as ->. destruct (get_item t _) as [i|]; simpl.
  - intros (x & ? & ->)%fmap_Ok. by exists x.
  - by intros [= <-].
Qed.
End facts.
End OrgReadFacts.

(** * Theorems *)
Section org_theorems.
Context {T : Type} `{DynamoService T}.
Context (t : T) (order : list (Dynamo.key * Dynamo.item)) (world : nat → Answers).
Context (Hworld : ∀ m, answers_from t order (world m)).
Context {OrgConfig SigningKeyT : Type} (L : Libs OrgConfig SigningKeyT).

(** C22: Listing hides the paging.  Wherever the service cuts its answers into
    pages, [list_groups] over a table at rest returns the organization's
    groups in the order of their names, each one once, and exactly those that
    [get_group] returns name by name; otherwise it returns the error of a
    call that failed or of an item that does not parse. *)
Theorem list_groups_complete fuel n o :
  length order < fuel →
  match (DynamoOrgStore.list_groups world L fuel o n).2 with
  | Ok gs =>
      StronglySorted OrgReadFacts.group_lt gs ∧
      ∀ name m r, (DynamoOrgStore.get_group world L o name m).2 = Ok r →
        r = find_key (λ g, Rbac.name (OrgStore.entry g)) name gs
  | r =>
      (∃ m s e, answer_query (world m) (DynamoOrgStore.groups_query o) s = Err e ∧
                r = Err (CpError.Store e)) ∨
      ∃ s i, get_item t (DynamoStore.group_pk o, s) = Some i ∧
             is_ok (DynamoOrgStore.etaged_group_from_item L i) = false
  end.
Proof.
  intros Hf.
  destruct (OrgReadFacts.list_groups_cases t order world Hworld L fuel n o Hf)
    as [(l & Hl & ->)|(m & s & e & He & ->)]; [|left; by exists m, s, e].
  destruct (mapM _ l.*2) as [gs| |] eqn:Hgs.
  - pose proof (OrgReadFacts.groups_parsed t order world Hworld L o l gs Hl Hgs) as Hp.
    pose proof (OrgReadFacts.groups_sorted L l gs (eval_sorted _ _ _ _ Hl) Hp) as Hs.
    split; [done|]. intros name m r Hr.
    apply (OrgReadFacts.get_group_Ok t order world Hworld) in Hr.
    destruct (get_item t _) as [i|] eqn:Hi.
    + destruct Hr as (g & Hg & ->). symmetry.
      assert ((DynamoStore.group_sk name, i) ∈ l) as [k Hk]%list_elem_of_lookup.
      { apply (eval_elem _ _ _ _ Hl). split_and!; [done| |done].
        apply bool_decide_eq_true. exists name. by apply strip_prefix_Some. }
      destruct (Forall2_lookup_l _ _ _ _ _ Hp Hk) as (g' & Hg' & Hn & Hg''). simpl in *.
      assert (g' = g) as -> by congruence.
      apply DecimalFacts.string_append_inj in Hn as ->.
      apply (find_key_In (λ g, Rbac.name (OrgStore.entry g)));
        [by apply OrgReadFacts.group_lt_NoDup|by eapply list_elem_of_lookup_2].
    + subst r. symmetry. apply find_key_None. intros g [k Hk]%list_elem_of_lookup Hn.
      destruct (Forall2_lookup_r _ _ _ _ _ Hp Hk) as ([s i] & Hx & Hsk & _). simpl in *.
      apply list_elem_of_lookup_2, (eval_elem _ _ _ _ Hl) in Hx as (Hx & _). simpl in Hx. congruence.
  - right. by eapply OrgReadFacts.groups_stop; [done|exact Hgs|].
  - right. by eapply OrgReadFacts.groups_stop; [done|exact Hgs|].
Qed.

(** Pages of the organization listing are windows of one listing.  Over a
    table at rest, however the service cuts its scan, every answer of [list]
    is the window [offset..offset+limit] of one list of records, in which
    every organization occurs once and which [get] agrees with, organization
    by organization. *)
Theorem list_orgs_windows fuel n limit rs :
  length order < fuel → length order ≤ limit →
  (DynamoOrgStore.list world L fuel 0 limit n).2 = Ok rs →
  NoDup (OrgReadFacts.record_org <$> rs) ∧
  (∀ o m r, (DynamoOrgStore.get world L o m).2 = Ok r →
     r = find_key OrgReadFacts.record_org o rs) ∧
  (∀ m offset lim rs', (DynamoOrgStore.list world L fuel offset lim m).2 = Ok rs' →
     rs' = take lim (drop offset rs)).
Proof.
  intros Hf Hlim Hrs. set (items := OrgReadFacts.org_items order).
  destruct (OrgReadFacts.list_cases t order world Hworld L fuel n 0 limit Hf)
    as [Heq|(m & s & e & _ & Heq)]; rewrite Heq in Hrs; [|done].
  fold items in Hrs. rewrite drop_0, (take_ge items) in Hrs.
  2:{ unfold items, OrgReadFacts.org_items. rewrite length_fmap.
      etrans; [apply length_filter|done]. }
  pose proof (OrgReadFacts.org_records_NoDup t order world Hworld L rs Hrs) as Hnd.
  split_and!; [done| |].
  - intros o m r Hr. apply (OrgReadFacts.org_get_Ok t order world Hworld) in Hr.
    apply mapM_Ok in Hrs. destruct (get_item t _) as [i|] eqn:Hi.
    + destruct Hr as (x & Hx & ->). symmetry.
      assert (i ∈ items) as [k Hk]%list_elem_of_lookup
        by (apply (OrgReadFacts.org_items_elem t order world Hworld); by exists (Id.as_str o)).
      destruct (Forall2_lookup_l _ _ _ _ _ Hrs Hk) as (x' & Hx' & Hf').
      assert (x' = x) as -> by congruence.
      pose proof (OrgReadFacts.from_item_org t order world Hworld L _ _ _ _ Hi Hx) as Ho.
      apply DecimalFacts.string_append_inj, id_as_str_inj in Ho as ->.
      apply (find_key_In OrgReadFacts.record_org); [done|by eapply list_elem_of_lookup_2].
    + subst r. symmetry. apply find_key_None. intros x [k Hk]%list_elem_of_lookup Ho.
      destruct (Forall2_lookup_r _ _ _ _ _ Hrs Hk) as (i & Hin & Hx).
      apply list_elem_of_lookup_2, (OrgReadFacts.org_items_elem t order world Hworld) in Hin
        as [s Hs].
      pose proof (OrgReadFacts.from_item_org t order world Hworld L _ _ _ _ Hs Hx) as Hp.
      rewrite Hp, Ho in Hs. congruence.
  - intros m offset lim rs' Hrs'.
    destruct (OrgReadFacts.list_cases t order world Hworld L fuel m offset lim Hf)
      as [Heq'|(m' & s & e & _ & Heq')]; rewrite Heq' in Hrs'; [|done]. fold items in Hrs'.
    apply mapM_Ok in Hrs, Hrs'. apply (Forall2_drop _ _ _ offset), (Forall2_take _ _ _ lim) in Hrs.
    clear -Hrs Hrs'. revert rs' Hrs'. induction Hrs as [|i x l l' Hx _ IH]; intros rs' Hrs'.
    + by inversion Hrs'.
    + inversion Hrs' as [|? x' ? l'' Hx' Hl]; subst. f_equal; [congruence|by apply IH].
Qed.
End org_theorems.

(** * Facts about counting members *)
Module MemberFacts.
Import DynamoMembers.
Section facts.
Context (rows : list (Dynamo.key * row)).
Context (scan : filter → option Dynamo.item → rd string (Query.page row)).
(** What the service documents of the scan, over rows that carry their keys. *)
Context (Hkeyed : NoDup rows.*1 ∧
  ∀ k i, (k, i) ∈ rows → i !! Dynamo.pk = Some (Seed.Membership.One (Dynamo.S k.1))).
Context (Hscan : ∀ f start n, (scan f start n).1 = S n ∧ returns (scan f start n).2 ∧
  ∀ p pre suf, (scan f start n).2 = Ok p → rows = pre ++ suf →
    position (λ x k, Dynamo.key_of k = Some x.1) start pre →
    ∃ read rest, suf = read ++ rest ∧
      default [] (Query.items p) = (base.filter (λ x, passes f x = true) read).*2 ∧
      page_ends (λ x k, Dynamo.key_of k = Some x.1) p read rest).

Lemma count_rows_spec o name l :
  NoDup l.*1 → (∀ k i, (k, i) ∈ l → i !! Dynamo.pk = Some (Seed.Membership.One (Dynamo.S k.1))) →
  ∀ u c, foldl count_row ∅ (base.filter (λ x, passes (members_filter o name) x = true) l).*2 !! u =
      Some c ↔
    c = 1%N ∧ ∃ i, contains i name = true ∧
      ((Seed.Membership.USER_PREFIX +:+ u, DynamoStore.ORG_PREFIX +:+ Id.as_str o), i) ∈ l.
Proof.
  induction l as [|[k i] l IH] using rev_ind; intros Hnd Hk u c.
  { simpl. rewrite lookup_empty. split; [done|]. by intros (_ & i & _ & ?%elem_of_nil). }
  rewrite fmap_app in Hnd. apply NoDup_app in Hnd as (Hnd & Hni & _).
  assert (∀ j, (k, j) ∉ l) as Hfresh.
  { intros j Hj. apply (Hni k); [|simpl; left]. apply list_elem_of_fmap. by exists (k, j). }
  specialize (IH Hnd (λ k i Hin, Hk k i (proj2 (elem_of_app _ _ _) (or_introl Hin)))).
  rewrite filter_app, fmap_app, foldl_app, filter_cons, filter_nil.
  set (counts := foldl count_row ∅ _) in *.
  set (key := (Seed.Membership.USER_PREFIX +:+ u, DynamoStore.ORG_PREFIX +:+ Id.as_str o)) in *.
  assert (∀ P : row → Prop, (∃ j, P j ∧ (key, j) ∈ l ++ [(k, i)]) ↔
          (∃ j, P j ∧ (key, j) ∈ l) ∨ (k = key ∧ P i)) as Hex.
  { intros P. setoid_rewrite elem_of_app. setoid_rewrite list_elem_of_singleton. naive_solver. }
  rewrite Hex. clear Hex. case_decide as Hp; cbn [fmap list_fmap foldl snd].
  - apply andb_true_iff in Hp as [[[u0 Hpk] Hsk]%OrgReadFacts.passes_Some Hc].
    destruct k as [kp ks]. cbn [fst snd] in *. subst kp. cbn in Hsk. subst ks.
    unfold count_row.
    rewrite (Hk _ _ (proj2 (elem_of_app _ _ _) (or_intror (list_elem_of_here _ _)))).
    cbn [mbind option_bind Dynamo.as_s fst]. rewrite CodecFacts.strip_own_prefix.
    assert (counts !! u0 = None) as Hnone.
    { destruct (counts !! u0) as [c0|] eqn:Hc0; [|done].
      apply IH in Hc0 as (_ & j & _ & Hj). by destruct (Hfresh j). }
    rewrite Hnone. destruct (decide (u = u0)) as [->|Hne].
    + rewrite lookup_insert_eq. split; [intros [= <-]; naive_solver|].
      intros [-> _]. done.
    + rewrite lookup_insert_ne by done. rewrite IH. split; [naive_solver|].
      intros [-> [?|[[= Hu] _]]]; [naive_solver|]. by subst.
  - rewrite IH. split; [naive_solver|]. intros [-> [?|[-> Hc]]]; [naive_solver|].
    destruct Hp. apply andb_true_iff. split; [|done]. apply OrgReadFacts.passes_Some.
    split; [by exists u|done].
Qed.

(** Every user whose row for the organization lists the group is counted,
    once, however the scan is cut into pages. *)
Theorem member_counts_exact fuel n o name counts :
  length rows < fuel →
  (count_memberships_for_group scan fuel o name n).2 = Ok counts →
  ∀ u c, counts !! u = Some c ↔
    c = 1%N ∧ ∃ i, contains i name = true ∧
      ((Seed.Membership.USER_PREFIX +:+ u, DynamoStore.ORG_PREFIX +:+ Id.as_str o), i) ∈ rows.
Proof.
  intros Hf Hc.
  destruct (PageFacts.fold_all (scan (members_filter o name)) (foldl count_row)
    (λ x k, Dynamo.key_of k = Some x.1)
    (λ l, foldl count_row ∅ (base.filter (λ x, passes (members_filter o name) x = true) l).*2) rows)
    with (fuel := fuel) (n := n) as [Hr|(m & s & e & _ & Hr)].
  - intros start m. apply Hscan.
  - intros start m pre suf p Hrows Hpos Hp.
    destruct (proj2 (proj2 (Hscan _ start m)) p pre suf Hp Hrows Hpos) as (rd & rs & -> & Hi & He).
    exists rd, rs. split_and!; [done| |done]. by rewrite Hi, filter_app, fmap_app, foldl_app.
  - intros start m. apply Hscan.
  - done.
  - unfold count_memberships_for_group in Hc. simpl in Hr. rewrite Hr in Hc. injection Hc as <-.
    destruct Hkeyed. by apply count_rows_spec.
  - unfold count_memberships_for_group in Hc. simpl in Hr. by rewrite Hr in Hc.
Qed.
End facts.
End MemberFacts.

(** * A service *)

(** Answers from a finite map, in pages of at most [size] entries. *)
Module PagedTable.
Section service.
Context (size : nat) (t : GmapTable.t).

Definition key_item (k : Dynamo.key) : Dynamo.item :=
  <[Dynamo.sk := Dynamo.S k.2]> (<[Dynamo.pk := Dynamo.S k.1]> ∅).
Definition is_after (after : option string) (s : string) : bool :=
  match after with Some a => bool_decide (String.compare a s = Lt) | None => true end.
Definition sort_keys (req : Query.request) (after : option string) : list string :=
  merge_sort (cmp_le String.compare)
    (filter (λ k : Dynamo.key, k.1 = Query.partition req ∧
               Query.selects (Query.condition req) k.2 = true ∧ is_after after k.2 = true)
       (map_to_list t).*1).*2.
Definition entries (req : Query.request) (after : option string) : list (string * Dynamo.item) :=
  omap (λ s, (s,.) <$> t !! (Query.partition req, s)) (sort_keys req after).
Definition cut {X} (n : nat) (key : X → Dynamo.key) (out : list X → list Dynamo.item) (l : list X)
    : Query.page Dynamo.item := {|
  Query.items := Some (out (take n l));
  Query.last_evaluated_key :=
    if bool_decide (length l ≤ n) then None else (λ x, key_item (key x)) <$> last (take n l);
|}.
Definition page_size (limit : option N) : nat :=
  match limit with Some n => size `min` N.to_nat n | None => size end.
Definition query (req : Query.request) (start : option Dynamo.item) : result string (Query.page Dynamo.item) :=
  after ← match start with
          | None => Ok None
          | Some k => a ← ok_or (Dynamo.key_of k) "the exclusive start key is invalid"; Ok (Some a.2)
          end;
  if bool_decide (page_size (Query.limit req) = 0) then Err "limit must be at least 1"
  else Ok (cut (page_size (Query.limit req)) (λ x, (Query.partition req, x.1)) (λ l, l.*2)
             (entries req after)).

Definition order : list (Dynamo.key * Dynamo.item) := map_to_list t.
Fixpoint past (k : Dynamo.key) (l : list (Dynamo.key * Dynamo.item))
    : list (Dynamo.key * Dynamo.item) :=
  match l with
  | [] => []
  | x :: l => if bool_decide (x.1 = k) then l else past k l
  end.
Definition scan (f : Query.scan_filter) (start : option Dynamo.item) : result string (Query.page Dynamo.item) :=
  suf ← match start with
        | None => Ok order
        | Some k => k ← ok_or (Dynamo.key_of k) "the exclusive start key is invalid"; Ok (past k order)
        end;
  Ok (cut size fst (λ l, (filter (λ x, Query.passes f x.1 = true) l).*2) suf).

Definition service : Answers :=
  {| answer_get k := Ok (t !! k); answer_query := query; answer_scan := scan |}.

(** ** It keeps to the documentation *)
Lemma key_of_key_item k : Dynamo.key_of (key_item k) = Some k.
Proof. by destruct k. Qed.
Lemma key_item_nonempty k : key_item k ≠ ∅.
Proof. intros H%(f_equal (lookup Dynamo.sk)). by destruct k. Qed.
Lemma cut_ends {X} n (key : X → Dynamo.key) out (mark : X → Dynamo.item → Prop) l :
  n ≠ 0 → (∀ x, mark x (key_item (key x))) → page_ends mark (cut n key out l) (take n l) (drop n l).
Proof.
  intros Hn Hmark. unfold page_ends, Query.next_start, cut. simpl. case_bool_decide as Hl.
  - by apply drop_ge.
  - destruct (last (take n l)) as [x|] eqn:Hx; simpl.
    + rewrite bool_decide_eq_false_2 by apply key_item_nonempty. simpl. by exists x.
    + apply last_None, (f_equal length) in Hx. rewrite length_take in Hx. simpl in Hx. lia.
Qed.

Lemma sort_keys_elem req after s :
  s ∈ sort_keys req after ↔ is_Some (t !! (Query.partition req, s)) ∧
    Query.selects (Query.condition req) s = true ∧ is_after after s = true.
Proof.
  unfold sort_keys. rewrite merge_sort_Permutation, list_elem_of_fmap. split.
  - intros ([p s'] & -> & [(Hp & ? & ?) Hk]%list_elem_of_filter). simpl in Hp. subst p. split; [|done].
    apply list_elem_of_fmap in Hk as ([k i] & Hk & Hi%elem_of_map_to_list). simpl in Hk. subst k.
    by exists i.
  - intros ([i Hi] & ? & ?). exists (Query.partition req, s). split; [done|].
    apply list_elem_of_filter. split; [done|]. apply list_elem_of_fmap.
    exists ((Query.partition req, s), i). split; [done|]. by apply elem_of_map_to_list.
Qed.
Lemma sort_keys_sorted req after :
  StronglySorted (λ a b, String.compare a b = Lt) (sort_keys req after).
Proof.
  assert (NoDup (sort_keys req after)) as Hnd.
  { unfold sort_keys. rewrite merge_sort_Permutation. apply NoDup_fmap_2_strong.
    - intros [p s] [p' s'] Hk Hk' Hs. apply list_elem_of_filter in Hk as [[Hp _] _], Hk' as [[Hp' _] _].
      simpl in *. congruence.
    - apply NoDup_filter, NoDup_fst_map_to_list. }
  assert (StronglySorted (cmp_le String.compare) (sort_keys req after)) as Hs
    by (apply StronglySorted_merge_sort; apply _).
  induction Hs as [|s l _ IH Hle]; [constructor|]. apply NoDup_cons in Hnd as [Hni Hnd].
  constructor; [by apply IH|]. rewrite Forall_forall in Hle. apply Forall_forall. intros s' Hs'.
  specialize (Hle s' Hs'). unfold cmp_le in Hle.
  destruct (String.compare s s') eqn:Hc; [|done..]. by apply (cmp_eq String.compare) in Hc as <-.
Qed.
Lemma entries_evaluates req after : evaluates t req after (entries req after).
Proof.
  split.
  - unfold entries. pose proof (sort_keys_sorted req after) as Hs.
    induction Hs as [|s l _ IH Hlt]; [constructor|]. simpl.
    destruct (t !! (Query.partition req, s)) as [i|]; simpl; [|done]. constructor; [done|].
    apply Forall_forall. intros x (s' & Hs' & Hx)%list_elem_of_omap. rewrite Forall_forall in Hlt.
    apply fmap_Some in Hx as (j & _ & ->). by apply Hlt.
  - intros s i. unfold entries. rewrite list_elem_of_omap.
    change (get_item t (Query.partition req, s)) with (t !! (Query.partition req, s)). split.
    + intros (s' & (_ & ? & Ha)%sort_keys_elem & Hx). apply fmap_Some in Hx as (j & Hj & [= -> ->]).
      split_and!; [done..|]. intros a ->. simpl in Ha. by apply bool_decide_eq_true in Ha.
    + intros (Hi & Hsel & Ha). exists s. rewrite Hi. split; [|done].
      apply sort_keys_elem. split_and!; [by exists i|done|]. unfold is_after.
      destruct after as [a|]; [|done]. apply bool_decide_eq_true. by apply Ha.
Qed.
Lemma past_app k pre x suf :
  last pre = Some x → x.1 = k → NoDup (pre ++ suf).*1 → past k (pre ++ suf) = suf.
Proof.
  intros [pre' ->]%last_Some <- Hnd. rewrite <-app_assoc in *. simpl in *.
  induction pre' as [|y pre' IH]; simpl; [by rewrite bool_decide_eq_true_2|].
  simpl in Hnd. apply NoDup_cons in Hnd as [Hni Hnd]. rewrite bool_decide_eq_false_2; [by apply IH|].
  intros Heq. apply Hni. rewrite Heq, fmap_app. simpl. set_solver.
Qed.

Lemma service_answers :
  size ≠ 0 → (∀ k i, t !! k = Some i → Dynamo.key_of i = Some k) → answers_from t order service.
Proof.
  intros Hsize Hkeyed. assert (NoDup order.*1) as Hnd by apply NoDup_fst_map_to_list. split.
  - by intros k o [= <-].
  - intros req start after p Hp Hst. simpl in Hp. unfold query in Hp.
    apply bind_Ok in Hp as (after' & Ha & Hp).
    assert (after' = after) as ->.
    { destruct start as [k|], after as [a|]; simpl in Hst; try done.
      - rewrite Hst in Ha. by injection Ha as <-.
      - by injection Ha as <-. }
    case_bool_decide as Hn; [done|]. injection Hp as <-.
    set (n := page_size (Query.limit req)) in *. set (l := entries req after).
    exists (take n l), (drop n l). rewrite take_drop. split_and!; [apply entries_evaluates|done| |].
    + by apply cut_ends.
    + intros m Hm. rewrite length_take. unfold n. rewrite Hm. simpl. lia.
  - intros f start pre suf p Hp Ho Hpos. simpl in Hp. unfold scan in Hp.
    apply bind_Ok in Hp as (suf' & Hs & Hp). injection Hp as <-.
    assert (suf' = suf) as ->.
    { destruct start as [k|]; simpl in Hpos.
      - destruct Hpos as (x & Hx & Hk). unfold scan_mark in Hk. rewrite Hk in Hs.
        injection Hs as <-. rewrite Ho in Hnd |- *. by eapply past_app.
      - subst pre. injection Hs as <-. done. }
    exists (take size suf), (drop size suf). rewrite take_drop. split_and!; [done|done|].
    apply cut_ends; [done|]. intros x. unfold scan_mark. apply key_of_key_item.
  - split; [done|]. intros k i. apply elem_of_map_to_list.
  - done.
  - split_and!; [done| |].
    + intros req start. simpl. unfold query. solve_returns.
    + intros f start. simpl. unfold scan. solve_returns.
Qed.
End service.
End PagedTable.
