(* ===== verification/DynamoReplay.v ===== *)
(** Reading an event log back from DynamoDB
    ([control-plane/src/event_log.rs], [events_after], and
    [model_event_store/mod.rs], [fold_at]): what a page of events holds, what
    the paged replay returns while the log grows, and that the logs written
    by concurrent requests can be read this way. *)

From stdpp Require Import pretty.
From S2P Require Import Prelude RustStr Decimal Ident Fgrn Store Event Org Rbac EventStore Dynamo.
From S2P Require Import DynamoLog DynamoStore DynamoSigned DynamoReads.

(** * JSON that is read back *)
Module PlainJson.
(** [serde_json] reads back what it writes: integers of the widths it has,
    text, and arrays and objects (fields in the order of a [BTreeMap]) nested
    less deep than its limit of 128.  It does not promise that for floats. *)
Fixpoint sorted_keys (fields : list (string * Json.t)) : bool :=
  match fields with
  | (k, _) :: (((k', _) :: _) as rest) => bool_decide (String.compare k k' = Lt) && sorted_keys rest
  | _ => true
  end.
Fixpoint plain (depth : nat) (v : Json.t) : bool :=
  match depth with
  | 0 => false
  | S depth =>
      match v with
      | Json.Null | Json.Bool _ | Json.String _ => true
      | Json.Number (Json.PosInt n) => (n <? 2 ^ 64)%N
      | Json.Number (Json.NegInt z) => (- 2 ^ 63 <=? z)%Z && (z <? 0)%Z
      | Json.Number (Json.Float _) => false
      | Json.Array items => forallb (plain depth) items
      | Json.Object fields => sorted_keys fields && forallb (λ kv, plain depth kv.2) fields
      end
  end.
Definition readable (v : Json.t) : Prop := plain 128 v = true.
End PlainJson.

(** * Facts about reading the log *)
Module EventReadFacts.

(** The events of a list come in the order of their revisions. *)
Definition seq_lt (a b : Envelope.t) : Prop :=
  (Revision.value (Envelope.seq a) < Revision.value (Envelope.seq b))%N.
Lemma StronglySorted_Forall2 {A B} (P : A → B → Prop) (R : A → A → Prop) (R' : B → B → Prop) l k :
  (∀ x y x' y', P x x' → P y y' → R x y → R' x' y') → Forall2 P l k →
  StronglySorted R l → StronglySorted R' k.
Proof.
  intros HR. induction 1 as [|x x' l k Hx Hl IH]; intros Hs; [constructor|].
  apply StronglySorted_inv in Hs as [Hs Hx']. constructor; [by apply IH|].
  clear IH Hs. induction Hl as [|y y' l k Hy _ IH]; [constructor|].
  apply Forall_cons in Hx' as [Hxy Hx']. constructor; [by eapply HR|by apply IH].
Qed.

(** Between two strings with a common prefix there are only strings with it. *)
Lemma between_prefix p a b s :
  cmp_le String.compare (p +:+ a) s → cmp_le String.compare s (p +:+ b) → ∃ r, s = p +:+ r.
Proof.
  unfold cmp_le. revert s. induction p as [|c p IH]; intros s Hl Hr; [by exists s|].
  destruct s as [|d s]; [done|]. cbn in Hl, Hr.
  rewrite (cmp_opp Ascii.compare d c) in Hr || rewrite Ascii.compare_antisym in Hr.
  destruct (Ascii.compare c d) eqn:Hcd; simpl in *; try done.
  apply Ascii.compare_eq_iff in Hcd as ->.
  destruct (IH s Hl Hr) as [r ->]. by exists r.
Qed.

Section facts.
Context {T : Type} `{DynamoService T}.
Context {OrgConfig SigningKeyT : Type} (L : Libs OrgConfig SigningKeyT).
Context (actor_from_str : string → result string Envelope.Actor).

(** The table holds an organization's log, no other items under event keys,
    and its events parse. *)
Definition parses (x : txn) (e : Envelope.t) : Prop :=
  EventLog.envelope_from_item (json_from_str L) actor_from_str (x_event x) = Ok e ∧
  Envelope.seq e = Revision.new (x_seq x).
Definition no_strays (t : T) (o : string) : Prop :=
  ∀ s i, get_item t (o, EventLog.EVT_PREFIX +:+ s) = Some i →
    ∃ n, EventLog.EVT_PREFIX +:+ s = EventLog.event_sk n.
Lemma parsed_prefix n ys l es :
  Forall2 parses ys l →
  Forall2 (λ x e, EventLog.envelope_from_item (json_from_str L) actor_from_str (x_event x) = Ok e)
    (take n ys) es → es = take n l.
Proof.
  intros Hd. revert n es. induction Hd as [|x e ys l [Hx _] _ IH]; intros n es Hes.
  - rewrite take_nil in Hes. apply Forall2_nil_inv_l in Hes as ->. by rewrite take_nil.
  - destruct n as [|n]; [by apply Forall2_nil_inv_l in Hes as ->|].
    inversion Hes as [|? e' ? es' He' Hes']; subst. simpl. f_equal; [congruence|by apply IH].
Qed.
Record has_log (before t : T) (o : string) (xs : list txn) (log : list Envelope.t) : Prop := {
  has_txns : holds_log before t o xs;
  has_no_strays : no_strays t o;
  has_parsed : Forall2 parses xs log;
  has_length : (N.of_nat (length xs) < 2 ^ 64 - 1)%N;
}.

Section log.
Context (before t : T) (o : string) (xs : list txn) (log : list Envelope.t).
Context (Hlog : has_log before t o xs log).

Lemma log_x_seq i x : xs !! i = Some x → x_seq x = N.of_nat (S i).
Proof.
  intros Hi. pose proof (log_seq _ _ _ _ (has_txns _ _ _ _ _ Hlog) i x Hi) as Hc.
  pose proof (has_length _ _ _ _ _ Hlog). apply lookup_lt_Some in Hi.
  unfold x_seq. simpl. rewrite Hc, N.mod_small; lia.
Qed.
Lemma log_length : length log = length xs.
Proof. symmetry. eapply Forall2_length, has_parsed, Hlog. Qed.
Lemma read_log_gap_free : gap_free log.
Proof.
  intros i e He. destruct (Forall2_lookup_r _ _ _ _ _ (has_parsed _ _ _ _ _ Hlog) He)
    as (x & Hx & _ & ->). simpl. by rewrite (log_x_seq i x Hx).
Qed.

Definition entry_of (x : txn) : string * Dynamo.item := (EventLog.event_sk (x_seq x), x_event x).
Lemma entries_sorted base ys :
  (∀ i x, ys !! i = Some x → x_seq x = (base + N.of_nat i)%N) →
  (base + N.of_nat (length ys) < 2 ^ 64)%N → StronglySorted entry_lt (entry_of <$> ys).
Proof.
  revert base. induction ys as [|y ys IH]; intros base Hs Hlen; [constructor|]. simpl in Hlen.
  constructor.
  - apply (IH (base + 1)%N); [|lia]. intros i x Hx. rewrite (Hs (S i) x Hx). lia.
  - apply Forall_fmap, Forall_forall. intros x [i Hi]%list_elem_of_lookup.
    pose proof (lookup_lt_Some _ _ _ Hi).
    change (String.compare (EventLog.event_sk (x_seq y)) (EventLog.event_sk (x_seq x)) = Lt).
    rewrite (Hs 0 y) by done. rewrite (Hs (S i) x Hi).
    rewrite SortKeyFacts.event_sk_compare by lia. apply N.compare_lt_iff. lia.
Qed.
(** An item that the query for events past [k] selects is an event's. *)
Lemma event_at k limit s i :
  (N.of_nat k < 2 ^ 64 - 1)%N → get_item t (o, s) = Some i →
  Query.selects (Query.condition (DynamoEvents.events_query o (Revision.new (N.of_nat k)) limit)) s
    = true →
  ∃ j x, xs !! j = Some x ∧ k ≤ j ∧ s = EventLog.event_sk (x_seq x) ∧ i = x_event x.
Proof.
  intros Hk Hi. unfold DynamoEvents.events_query, DynamoEvents.saturating_succ.
  cbn [Query.partition Query.condition Query.selects Revision.value].
  replace (N.min (N.of_nat k + 1) (2 ^ 64 - 1)) with (N.of_nat (S k)) by lia.
  rewrite andb_true_iff, !bool_decide_eq_true. intros [Hlo Hhi].
  pose proof (has_length _ _ _ _ _ Hlog) as Hlen. assert (2 ^ 64 < 10 ^ 20 - 1)%N as Hw by done.
  destruct (between_prefix EventLog.EVT_PREFIX _ _ s Hlo Hhi) as [r ->].
  destruct (has_no_strays _ _ _ _ _ Hlog _ _ Hi) as [n Hn]. rewrite Hn in *.
  rewrite (log_events _ _ _ _ (has_txns _ _ _ _ _ Hlog)) in Hi.
  destruct (decide (n = 0)%N) as [H0|H0]; [rewrite bool_decide_eq_true_2 in Hi by exact H0; discriminate Hi|].
  rewrite bool_decide_eq_false_2 in Hi by exact H0.
  apply fmap_Some in Hi as (x & Hx & ->). pose proof (lookup_lt_Some _ _ _ Hx).
  unfold cmp_le in Hlo. rewrite SortKeyFacts.event_sk_compare in Hlo by lia.
  change (N.of_nat (S k) ≤ n)%N in Hlo. exists (N.to_nat (n - 1)), x. rewrite (log_x_seq _ _ Hx).
  split_and!; [done|lia| |done]. by replace (N.of_nat (S (N.to_nat (n - 1)))) with n by lia.
Qed.
Lemma events_evaluated k limit :
  (N.of_nat k < 2 ^ 64 - 1)%N →
  evaluates t (DynamoEvents.events_query o (Revision.new (N.of_nat k)) limit) None
    (entry_of <$> drop k xs).
Proof.
  intros Hk. pose proof (has_length _ _ _ _ _ Hlog) as Hlen. split.
  - apply (entries_sorted (N.of_nat (S k))).
    + intros i x Hx. rewrite lookup_drop in Hx. rewrite (log_x_seq _ _ Hx). lia.
    + rewrite length_drop. lia.
  - intros s i. unfold DynamoEvents.events_query, DynamoEvents.saturating_succ.
    cbn [Query.partition Query.condition Query.selects Revision.value].
    replace (N.min (N.of_nat k + 1) (2 ^ 64 - 1)) with (N.of_nat (S k)) by lia.
    rewrite andb_true_iff, !bool_decide_eq_true, list_elem_of_fmap.
    pose proof (log_events _ _ _ _ (has_txns _ _ _ _ _ Hlog)) as Hev.
    assert (2 ^ 64 < 10 ^ 20 - 1)%N as Hw by done. split.
    + intros (x & [= -> ->] & [j Hj]%list_elem_of_lookup). rewrite lookup_drop in Hj.
      rewrite (log_x_seq _ _ Hj). pose proof (lookup_lt_Some _ _ _ Hj).
      split_and!; [| | |done].
      * rewrite Hev, bool_decide_eq_false_2 by lia.
        replace (N.to_nat _) with (k + j) by lia. by rewrite Hj.
      * unfold cmp_le. rewrite SortKeyFacts.event_sk_compare by lia. apply N.compare_le_iff. lia.
      * change EventLog.EVT_SK_MAX with (EventLog.event_sk (10 ^ 20 - 1)).
        unfold cmp_le. rewrite SortKeyFacts.event_sk_compare by lia. apply N.compare_le_iff. lia.
    + intros (Hi & Hsel & _). destruct (event_at k limit s i) as (j & x & Hx & Hj & -> & ->);
        [done|done| |].
      { cbn [Query.condition DynamoEvents.events_query Query.selects Revision.value].
        unfold DynamoEvents.saturating_succ.
        replace (N.min (N.of_nat k + 1) (2 ^ 64 - 1)) with (N.of_nat (S k)) by lia.
        by rewrite andb_true_iff, !bool_decide_eq_true. }
      exists x. split; [done|]. apply list_elem_of_lookup. exists (j - k).
      rewrite lookup_drop, <-Hx. f_equal. lia.
Qed.

(** The events of a page: a prefix of those past the cursor. *)
Context (order : list (Dynamo.key * Dynamo.item)) (a : Answers) (Ha : answers_from t order a).

(** The service answers, and only cuts a page short when nothing is left. *)
Definition available (a : Answers) : Prop :=
  (∀ k, is_ok (answer_get a k) = true) ∧ ∀ req s, is_ok (answer_query a req s) = true.
Definition full_pages (a : Answers) : Prop :=
  ∀ req s p, answer_query a req s = Ok p → Query.next_start p = None ∨
    Query.limit req = Some (N.of_nat (length (default [] (Query.items p)))).

Lemma events_page k limit p :
  (N.of_nat k < 2 ^ 64 - 1)%N →
  answer_query a (DynamoEvents.events_query o (Revision.new (N.of_nat k)) limit) None = Ok p →
  let len := length (default [] (Query.items p)) in
  mapM (EventLog.envelope_from_item (json_from_str L) actor_from_str) (default [] (Query.items p)) =
    Ok (take len (drop k log)) ∧
  len ≤ limit ∧ len ≤ length (drop k log) ∧ (len = 0 → drop k log = []) ∧
  (full_pages a → (N.of_nat limit < 2 ^ 31)%N → len < limit → len = length (drop k log)).
Proof.
  intros Hk Hp.
  destruct (from_query _ _ _ Ha _ None None p Hp I) as (read & rest & Hev & Hi & Hends & Hlim).
  pose proof (PageFacts.evaluates_unique _ _ _ _ _ Hev (events_evaluated k limit Hk)) as Hall.
  specialize (Hlim _ eq_refl). unfold DynamoEvents.limit_i32 in Hlim. rewrite Hi, length_fmap.
  assert (Forall2 parses (drop k xs) (drop k log)) as Hd by apply Forall2_drop, Hlog.
  assert (length read + length rest = length (drop k log)) as Hlen.
  { rewrite <-length_app, Hall, length_fmap. apply (Forall2_length _ _ _ Hd). }
  assert (read = entry_of <$> take (length read) (drop k xs)) as Hread.
  { by rewrite fmap_take, <-Hall, take_app_length. }
  assert (rest = [] → length (drop k log) = length read) as Hrest
    by (intros ->; simpl in Hlen; lia).
  cbv zeta. split_and!; [|lia|lia| |].
  - apply mapM_Ok. rewrite Hread at 1. rewrite <-list_fmap_compose, Forall2_fmap_l.
    apply (Forall2_take _ _ _ (length read)) in Hd. eapply Forall2_impl; [exact Hd|].
    by intros x e [].
  - intros H0. destruct read; [|done]. unfold page_ends in Hends.
    destruct (Query.next_start p); [by destruct Hends as (? & ? & _)|].
    by apply nil_length_inv, Hrest.
  - intros Hfull Hl31 Hlt. unfold page_ends in Hends.
    destruct (Hfull _ _ _ Hp) as [Hn|Hn].
    + rewrite Hn in Hends. symmetry. by apply Hrest.
    + rewrite Hi, length_fmap in Hn. injection Hn as Hn. unfold DynamoEvents.limit_i32 in Hn.
      lia.
Qed.
End log.

(** A page read while the table changes: the events it has are those of some
    log there has been, past the cursor and in order. *)
Lemma amid_page (E : Envelope.t → Prop) before o (past : T → Prop) now a k limit p :
  answers_amid past now a → (N.of_nat k < 2 ^ 64 - 1)%N →
  (∀ t, past t → ∃ xs log, has_log before t o xs log ∧ ∀ e, e ∈ log → E e) →
  answer_query a (DynamoEvents.events_query o (Revision.new (N.of_nat k)) limit) None = Ok p →
  ∃ es, mapM (EventLog.envelope_from_item (json_from_str L) actor_from_str)
      (default [] (Query.items p)) = Ok es ∧
    Forall E es ∧ StronglySorted seq_lt es ∧ length es ≤ limit ∧
    Forall (λ e, N.of_nat k < Revision.value (Envelope.seq e) < 2 ^ 64)%N es.
Proof.
  intros Ha Hk Hpast Hp.
  destruct (amid_query _ _ _ Ha _ None None p Hp I) as (read & Hi & Hsort & Hread & Hlim).
  specialize (Hlim _ eq_refl). unfold DynamoEvents.limit_i32 in Hlim.
  assert (∃ es, Forall2 (λ x e, EventLog.envelope_from_item (json_from_str L) actor_from_str x.2 = Ok e ∧
    E e ∧ x.1 = EventLog.event_sk (Revision.value (Envelope.seq e)) ∧
    (N.of_nat k < Revision.value (Envelope.seq e) < 2 ^ 64)%N) read es) as [es Hes].
  { apply Forall_exists_Forall2_l, Forall_forall. intros [s i] Hin.
    destruct (Hread s i Hin) as ((t & Ht & Hit) & Hsel & _).
    destruct (Hpast t Ht) as (xs & log & Hlog & HE).
    destruct (event_at _ _ _ _ _ Hlog k limit s i Hk Hit Hsel) as (j & x & Hx & Hj & -> & ->).
    destruct (Forall2_lookup_l _ _ _ _ _ (has_parsed _ _ _ _ _ Hlog) Hx) as (e & He & Hpar & Hseq).
    exists e. rewrite Hseq. cbn [Revision.value fst snd].
    pose proof (log_x_seq _ _ _ _ _ Hlog j x Hx). pose proof (has_length _ _ _ _ _ Hlog).
    apply lookup_lt_Some in Hx. split_and!; [done|by eapply HE, list_elem_of_lookup_2|done|lia..]. }
  exists es. split_and!.
  - apply mapM_Ok. rewrite Hi, Forall2_fmap_l. eapply Forall2_impl; [exact Hes|]. by intros x e [].
  - apply Forall_forall. intros e [i He]%list_elem_of_lookup.
    by destruct (Forall2_lookup_r _ _ _ _ _ Hes He) as (x & _ & _ & ? & _).
  - revert Hsort. apply (StronglySorted_Forall2 _ _ _ _ _) with (2 := Hes).
    intros x y e f (_ & _ & Hx & Hbx) (_ & _ & Hy & Hby). unfold entry_lt, seq_lt. rewrite Hx, Hy.
    assert (2 ^ 64 < 10 ^ 20 - 1)%N as Hw by done.
    rewrite SortKeyFacts.event_sk_compare by lia. apply N.compare_lt_iff.
  - rewrite <-(Forall2_length _ _ _ Hes). lia.
  - apply Forall_forall. intros e [i He]%list_elem_of_lookup.
    by destruct (Forall2_lookup_r _ _ _ _ _ Hes He) as (x & _ & _ & _ & _ & ?).
Qed.
End facts.
End EventReadFacts.

(** * Facts about replaying a log that grows *)
Module ReplayFacts.
Import EventReadFacts.
Section facts.
Context {T : Type} `{DynamoService T}.
Context {OrgConfig SigningKeyT : Type} (L : Libs OrgConfig SigningKeyT).
Context (actor_from_str : string → result string Envelope.Actor).
(** At each moment the table holds the organization's log; appends extend it.
    The service answers a consistent read from the table of the moment, and a
    query from tables there have been. *)
Context (before : T) (org_id : string) (tables : nat → T) (world : nat → Answers).
Context (xs : nat → list txn) (log : nat → list Envelope.t).
Record growing : Prop := {
  grow_reads m : answers_amid (λ t, ∃ i, i ≤ m ∧ t = tables i) (tables m) (world m);
  grow_log m : has_log L actor_from_str before (tables m) (DynamoStore.ORG_PREFIX +:+ org_id)
                 (xs m) (log m);
  grow_prefix m : log m `prefix_of` log (S m);
}.
Context (Hgrow : growing).

Lemma log_prefix n m : n ≤ m → log n `prefix_of` log m.
Proof.
  induction 1 as [|m _ IH]; [done|]. etrans; [exact IH|apply (grow_prefix Hgrow)].
Qed.
Lemma take_log n m k : n ≤ m → k ≤ length (log n) → take k (log n) = take k (log m).
Proof. intros [l ->]%log_prefix Hk. by rewrite take_app_le. Qed.
Lemma log_bound m : (N.of_nat (length (log m)) < 2 ^ 64 - 1)%N.
Proof.
  rewrite (log_length L actor_from_str _ _ _ _ _ (grow_log Hgrow m)).
  apply (has_length _ _ _ _ _ _ _ (grow_log Hgrow m)).
Qed.

Lemma latest_revision_reads n :
  ∃ r, DynamoEvents.latest_revision world org_id n = (S n, r) ∧
    (r = Ok (Revision.new (N.of_nat (length (log n)))) ∨
     ∃ e, (¬ available (world n) ∨ log n = []) ∧ r = Err e).
Proof.
  unfold DynamoEvents.latest_revision, DynamoStore.latest_revision, EventLog.latest_revision,
    EventLog.read_counter, EventLog.get. simpl.
  destruct (grow_log Hgrow n) as [[Hcnt _ _ _] _ Hp Hlen].
  rewrite <-(Forall2_length _ _ _ Hp).
  destruct (answer_get (world n) _) as [item|e|w] eqn:Hi; simpl.
  - apply (amid_get _ _ _ (grow_reads Hgrow n)) in Hi as ->.
    destruct (get_item (tables n) _) as [i|]; simpl in *.
    + unfold EventLog.seq_attr. rewrite Hcnt. destruct (xs n) as [|x ys]; simpl.
      * eexists. split; [done|]. right. eexists. split; [right|done].
        by apply Forall2_nil_inv_l in Hp.
      * rewrite DecimalFacts.parse_u64_pretty by (simpl in Hlen; lia). simpl.
        eexists. split; [done|]. by left.
    + eexists. split; [done|]. left. by destruct (xs n).
  - eexists. split; [done|]. right. eexists. split; [left|done]. intros [Hg _].
    specialize (Hg (DynamoStore.ORG_PREFIX +:+ org_id, EventLog.SK_SEQ)). simpl in Hg.
    by rewrite Hi in Hg.
  - by destruct (proj1 (amid_returns _ _ _ (grow_reads Hgrow n)) _ _ Hi).
Qed.

Lemma fetch_step {St} (read : string → Revision.t → nat → M St CpError.t (list Envelope.t))
    fuel o target after acc s :
  Replay.fetch_pages read (S fuel) o target after acc s =
  match read o after Replay.FOLD_PAGE_SIZE s with
  | (s', Ok page) =>
      match last page with
      | None => (s', Ok acc)
      | Some e =>
          if bool_decide (length page < Replay.FOLD_PAGE_SIZE) ||
             bool_decide (Revision.value target ≤ Revision.value (Envelope.seq e))%N
          then (s', Ok (acc ++ page))
          else Replay.fetch_pages read fuel o target (Envelope.seq e) (acc ++ page) s'
      end
  | (s', Err e) => (s', Err e)
  | (s', Stuck w) => (s', Stuck w)
  end.
Proof.
  cbn [Replay.fetch_pages]. unfold mbind, M_bind.
  destruct (read o after _ s) as [s' [page|e|w]]; [|done..].
  destruct (last page) as [e|]; [|done]. by destruct (_ || _).
Qed.

(** ** Pages from any table there has been *)

(** What the loop has collected: events of the log, in order, up to [after]. *)
Record collected (E : Envelope.t → Prop) (after : N) (acc : list Envelope.t) : Prop := {
  col_events : Forall E acc;
  col_sorted : StronglySorted seq_lt acc;
  col_bound : Forall (λ e, Revision.value (Envelope.seq e) ≤ after)%N acc;
}.
Lemma sorted_app l k b :
  StronglySorted seq_lt l → StronglySorted seq_lt k →
  Forall (λ e, Revision.value (Envelope.seq e) ≤ b)%N l →
  Forall (λ e, b < Revision.value (Envelope.seq e))%N k → StronglySorted seq_lt (l ++ k).
Proof.
  induction 1 as [|e l Hs IH He]; intros Hk Hl Hb; [done|].
  apply Forall_cons in Hl as [Hle Hl]. simpl. constructor; [by apply IH|].
  apply Forall_app. split; [done|]. eapply Forall_impl; [exact Hb|]. unfold seq_lt. lia.
Qed.
(** Ordered events past [b] go up by one each at least; the last is the largest. *)
Lemma sorted_last l b e :
  StronglySorted seq_lt l → Forall (λ e, b < Revision.value (Envelope.seq e))%N l →
  last l = Some e →
  (b + N.of_nat (length l) ≤ Revision.value (Envelope.seq e))%N ∧
  Forall (λ f, Revision.value (Envelope.seq f) ≤ Revision.value (Envelope.seq e))%N l.
Proof.
  revert b. induction l as [|f l IH]; intros b Hs Hb Hl; [done|].
  apply StronglySorted_inv in Hs as [Hs Hf]. apply Forall_cons in Hb as [Hbf Hb].
  destruct l as [|g l].
  - injection Hl as ->. simpl. split; [lia|]. by repeat constructor.
  - rewrite last_cons_cons in Hl.
    destruct (IH (Revision.value (Envelope.seq f)) Hs) as [Hlen Hall]; [by apply Hf|done|].
    split; [simpl in *; lia|]. constructor; [|done].
    apply Forall_cons in Hf as [Hfg _], Hall as [Hg _]. unfold seq_lt in Hfg. lia.
Qed.
Lemma log_mono n m e : n ≤ m → e ∈ log n → e ∈ log m.
Proof. intros [l ->]%log_prefix He. apply elem_of_app. by left. Qed.
Lemma amid_events_after n k limit :
  (N.of_nat k < 2 ^ 64 - 1)%N →
  ∃ r, DynamoEvents.events_after world L actor_from_str org_id (Revision.new (N.of_nat k)) limit n
         = (S n, r) ∧
    ((∃ es, r = Ok es ∧ Forall (.∈ log n) es ∧ StronglySorted seq_lt es ∧ length es ≤ limit ∧
        Forall (λ e, N.of_nat k < Revision.value (Envelope.seq e) < 2 ^ 64)%N es) ∨
     ∃ e, r = Err e).
Proof.
  intros Hk.
  unfold DynamoEvents.events_after, DynamoEvents.log_events_after, mbind, M_bind, map_errM, query.
  destruct (answer_query (world n) _ None) as [p|e|w] eqn:Hp; simpl.
  - destruct (amid_page L actor_from_str (.∈ log n) before (DynamoStore.ORG_PREFIX +:+ org_id) _ _ _
                k limit p (grow_reads Hgrow n) Hk) as (es & -> & ?); [|exact Hp|].
    + intros t (i & Hi & ->). exists (xs i), (log i). split; [apply Hgrow|].
      intros e. by apply log_mono.
    + eexists. split; [done|]. left. by exists es.
  - eexists. split; [done|]. right. by eexists.
  - by destruct (proj2 (amid_returns _ _ _ (grow_reads Hgrow n)) _ _ _ Hp).
Qed.
Lemma fetch_pages_amid fuel n k acc target :
  (N.of_nat k < 2 ^ 64 - 1)%N → (Revision.value target < 2 ^ 64)%N →
  collected (.∈ log n) (N.of_nat k) acc →
  (Revision.value target ≤ N.of_nat (k + fuel * Replay.FOLD_PAGE_SIZE))%N →
  let r := (Replay.fetch_pages (DynamoEvents.events_after world L actor_from_str) (S fuel) org_id
              target (Revision.new (N.of_nat k)) acc n).2 in
  (∃ m l b, n ≤ m ∧ r = Ok l ∧ collected (.∈ log m) b l) ∨ ∃ e, r = Err e.
Proof.
  revert n k acc. induction fuel as [|fuel IH]; intros n k acc Hk Htb [Hin Hsort Hb] Ht; cbv zeta;
    rewrite fetch_step;
    destruct (amid_events_after n k Replay.FOLD_PAGE_SIZE Hk)
      as (r & -> & [(es & -> & Hes & Hss & Hlen & Hbk)|(e & ->)]); [|right; by exists e| |right; by exists e].
  all: assert (Forall (λ e, N.of_nat k < Revision.value (Envelope.seq e))%N es) as Hgt
    by (eapply Forall_impl; [exact Hbk|]; naive_solver).
  all: destruct (last es) as [e|] eqn:Hl; [|by left; exists n, acc, (N.of_nat k)].
  all: destruct (sorted_last es _ e Hss Hgt Hl) as [Hle Hall].
  all: assert (collected (.∈ log n) (Revision.value (Envelope.seq e)) (acc ++ es)) as Hcol.
  1, 3: split; [by apply Forall_app|by eapply sorted_app|apply Forall_app; split; [|done];
    eapply Forall_impl; [exact Hb|]; simpl; intros f Hf; etrans; [exact Hf|];
    apply last_Some_elem_of in Hl; rewrite Forall_forall in Hgt; specialize (Hgt e Hl); lia].
  all: destruct (bool_decide (length es < _)) eqn:Hex; bool_prop; cbn [orb];
    [left; by exists n, (acc ++ es), (Revision.value (Envelope.seq e))|].
  all: case_bool_decide as Hte; [left; by exists n, (acc ++ es), (Revision.value (Envelope.seq e))|].
  - unfold Replay.FOLD_PAGE_SIZE in *. lia.
  - apply last_Some_elem_of in Hl. rewrite Forall_forall in Hbk. specialize (Hbk e Hl).
    destruct (Envelope.seq e) as [v] eqn:Hv. cbn [Revision.value] in *.
    replace v with (N.of_nat (N.to_nat v)) by lia.
    destruct (IH (S n) (N.to_nat v) (acc ++ es)) as [(m & l & b & Hm & Hr & Hcl)|Herr];
      [lia|done| | | |by right].
    + destruct Hcol as [H1 H2 H3]. split; [|done|by rewrite N2Nat.id].
      eapply Forall_impl; [exact H1|]. intros f. apply log_mono. lia.
    + unfold Replay.FOLD_PAGE_SIZE in *. lia.
    + left. exists m, l, b. split_and!; [lia|done|done].
Qed.

(** ** What a fold that succeeds was given *)
Lemma fold_loop_contiguous l index req st st' :
  Fold.fold_loop l index req st = Ok st' → ∀ i e, l !! i = Some e → (index + N.of_nat i < req)%N →
  Revision.value (Envelope.seq e) = (index + N.of_nat (S i))%N.
Proof.
  revert index st. induction l as [|f l IH]; intros index st; [done|]. simpl.
  case_bool_decide as Hseq; simpl; [|done]. case_bool_decide as Hreq.
  - intros _ i e _ Hi. lia.
  - intros (st1 & _ & Hl)%bind_Ok [|i] e; simpl.
    + intros [= <-] _. lia.
    + intros He Hi. rewrite (IH _ _ Hl i e He) by lia. lia.
Qed.
Lemma fold_events_reaches l r st : Fold.fold_events l r = Ok st →
  (0 < Revision.value r)%N ∧ (Revision.value r ≤ N.of_nat (length l))%N ∧
  ∀ i e, l !! i = Some e → (N.of_nat i < Revision.value r)%N →
    Revision.value (Envelope.seq e) = N.of_nat (S i).
Proof.
  unfold Fold.fold_events. destruct (_ || _) eqn:Hb; [done|]. intros Hf.
  apply orb_false_iff in Hb as [H0%bool_decide_eq_false Hlt%bool_decide_eq_false].
  pose proof (fold_loop_contiguous _ _ _ _ _ Hf) as Hc. split_and!; [lia| |].
  - destruct (last l) as [e|] eqn:Hl; simpl in Hlt; [|lia]. rewrite last_lookup in Hl.
    pose proof (lookup_lt_Some _ _ _ Hl) as Hlen.
    destruct (decide (N.of_nat (length l) < Revision.value r)%N) as [Hsh|]; [|lia].
    rewrite (Hc _ _ Hl) in Hlt by lia. lia.
  - intros i e Hi Hr. rewrite (Hc i e Hi) by lia. lia.
Qed.
Lemma fold_events_returns l r : returns (Fold.fold_events l r).
Proof.
  unfold Fold.fold_events. destruct (_ || _); [done|].
  generalize (Fold.mk r ∅ ∅ None None ∅). generalize 0%N.
  induction l as [|e l IH]; intros i st; simpl; [done|].
  destruct (negb _); [done|]. case_bool_decide; [done|].
  apply returns_bind; [|by intros st' _].
  intros w. apply FoldFacts.apply_event_not_Stuck.
Qed.
(** Events of a log that a fold accepts are its first ones. *)
Lemma fold_collected m l r st :
  Forall (.∈ log m) l → Fold.fold_events l r = Ok st → Fold.fold_events (log m) r = Ok st.
Proof.
  intros Hin Hf. destruct (fold_events_reaches _ _ _ Hf) as (H0 & Hlen & Hseq).
  pose proof (read_log_gap_free L actor_from_str _ _ _ _ _ (grow_log Hgrow m)) as Hg.
  assert (∀ i e, l !! i = Some e → (N.of_nat i < Revision.value r)%N → log m !! i = Some e) as Hsame.
  { intros i e He Hi. rewrite Forall_forall in Hin. specialize (Hin e).
    destruct (proj1 (list_elem_of_lookup _ _) (Hin (list_elem_of_lookup_2 _ _ _ He))) as [j Hj].
    pose proof (Hg j e Hj) as Hsj. rewrite (Hseq i e He Hi) in Hsj. by replace i with j by lia. }
  set (q := N.to_nat (Revision.value r)).
  assert (take q l = take q (log m)) as Htake.
  { apply list_eq. intros i. destruct (decide (i < q)) as [Hi|Hi].
    - rewrite !lookup_take_lt by done. destruct (lookup_lt_is_Some_2 l i) as [e He]; [lia|].
      rewrite He. symmetry. apply Hsame; [done|lia].
    - by rewrite !lookup_take_ge by lia. }
  rewrite FoldFacts.fold_events_prefix; [|done|].
  - fold q. rewrite <-Htake. by apply FoldFacts.fold_events_Ok.
  - split; [done|]. destruct (lookup_lt_is_Some_2 l (q - 1)) as [e He]; [lia|].
    apply Hsame, lookup_lt_Some in He; lia.
Qed.

(** ** Pages from the present table *)
Context (orders : nat → list (Dynamo.key * Dynamo.item)).
Context (Hcur : ∀ m, answers_from (tables m) (orders m) (world m)).

(** One page read at moment [n], past the first [k] events. *)
Lemma events_after_page n k limit :
  k ≤ length (log n) →
  ∃ r, DynamoEvents.events_after world L actor_from_str org_id (Revision.new (N.of_nat k)) limit n
         = (S n, r) ∧
    ((∃ len, r = Ok (take len (drop k (log n))) ∧ len ≤ limit ∧ k + len ≤ length (log n) ∧
        (len = 0 → k = length (log n)) ∧
        (full_pages (world n) → (N.of_nat limit < 2 ^ 31)%N → len < limit →
           k + len = length (log n))) ∨
     ∃ e, ¬ available (world n) ∧ r = Err e).
Proof.
  intros Hk. pose proof (log_bound n) as Hlen.
  unfold DynamoEvents.events_after, DynamoEvents.log_events_after, mbind, M_bind, map_errM, query.
  destruct (answer_query (world n) _ None) as [p|e|w] eqn:Hp; simpl.
  - destruct (events_page L actor_from_str _ _ _ _ _ (grow_log Hgrow n) _ _ (Hcur n)
                k limit p) as (-> & ? & Hle & H0 & Hfull); [lia|exact Hp|].
    rewrite length_drop in *. eexists. split; [done|]. left. eexists. split; [done|].
    split_and!; [done|lia| |].
    + intros Hz%H0%(f_equal length). rewrite length_drop in Hz. simpl in Hz. lia.
    + intros Hf Hl Hlt. specialize (Hfull Hf Hl Hlt). lia.
  - eexists. split; [done|]. right. eexists. split; [|done]. intros [_ Hq].
    specialize (Hq (DynamoEvents.events_query (DynamoStore.ORG_PREFIX +:+ org_id)
                      (Revision.new (N.of_nat k)) limit) None). by rewrite Hp in Hq.
  - by destruct (proj2 (amid_returns _ _ _ (grow_reads Hgrow n)) _ _ _ Hp).
Qed.

Lemma page_last n k len :
  k + len ≤ length (log n) → len ≠ 0 →
  ∃ e, last (take len (drop k (log n))) = Some e ∧
       Envelope.seq e = Revision.new (N.of_nat (k + len)).
Proof.
  intros Hle Hne. destruct (lookup_lt_is_Some_2 (log n) (k + (len - 1))) as [e He]; [lia|].
  exists e. rewrite last_lookup, length_take, length_drop, Nat.min_l by lia. split.
  - rewrite lookup_take_lt by lia. by rewrite lookup_drop, <-Nat.sub_1_r.
  - pose proof (read_log_gap_free L actor_from_str _ _ _ _ _ (grow_log Hgrow n) _ _ He) as Hs.
    destruct (Envelope.seq e). simpl in Hs. rewrite Hs. f_equal. lia.
Qed.
Lemma app_page n k len : take k (log n) ++ take len (drop k (log n)) = take (k + len) (log n).
Proof. by rewrite take_take_drop. Qed.

(** The paging loop collects a prefix of the log; with full pages it stops
    only at the end of the log or past the revision asked for. *)
Lemma fetch_pages_prefix fuel n k target :
  k ≤ length (log n) → (Revision.value target ≤ N.of_nat (k + fuel * Replay.FOLD_PAGE_SIZE))%N →
  let r := (Replay.fetch_pages (DynamoEvents.events_after world L actor_from_str) (S fuel) org_id
              target (Revision.new (N.of_nat k)) (take k (log n)) n).2 in
  (∃ m k', n ≤ m ∧ k' ≤ length (log m) ∧ r = Ok (take k' (log m)) ∧
     ((∀ i, full_pages (world i)) →
      k' = length (log m) ∨ (Revision.value target ≤ N.of_nat k')%N)) ∨
  ∃ m e, ¬ available (world m) ∧ r = Err e.
Proof.
  revert n k. induction fuel as [|fuel IH]; intros n k Hk Htarget; cbv zeta; rewrite fetch_step;
    destruct (events_after_page n k Replay.FOLD_PAGE_SIZE Hk)
      as (r & -> & [(len & -> & Hlen & Hle & H0 & Hfull)|(e & He & ->)]);
    [|right; by exists n, e| |right; by exists n, e].
  all: destruct (decide (len = 0)) as [->|Hne];
    [left; exists n, k; rewrite H0 by done; by eauto 10|].
  all: destruct (page_last n k len Hle Hne) as (e & -> & ->);
    rewrite app_page, length_take, length_drop, Nat.min_l by lia; cbn [Revision.value].
  all: destruct (bool_decide (len < _)) eqn:Hex; bool_prop; cbn [orb];
    [left; exists n, (k + len); split_and!; [done|lia|done|intros Hf; left; by apply Hfull]|].
  all: case_bool_decide as Ht;
    [left; exists n, (k + len); split_and!; [done|lia|done|by right]|].
  - unfold Replay.FOLD_PAGE_SIZE in *. lia.
  - rewrite (take_log n (S n)) by lia.
    assert (length (log n) ≤ length (log (S n))) as Hmono by apply prefix_length, Hgrow.
    destruct (IH (S n) (k + len)) as [(m & k' & ? & ? & ? & ?)|Herr]; [lia| | |by right].
    + unfold Replay.FOLD_PAGE_SIZE in *. lia.
    + left. exists m, k'. split_and!; [lia|done..].
Qed.
Lemma fold_at_step fuel at_rev n :
  DynamoEvents.fold_at world L actor_from_str fuel org_id at_rev n =
  match DynamoEvents.latest_revision world org_id n with
  | (n', Ok latest) =>
      if match at_rev with None => bool_decide (Revision.value latest = 0%N) | Some _ => false end
      then (n', Ok Fold.empty)
      else
        let target := match at_rev with Some r => r | None => latest end in
        match Replay.fetch_pages (DynamoEvents.events_after world L actor_from_str) fuel org_id target
                (Revision.new 0) [] n' with
        | (n'', Ok events) => (n'', map_err store_err (Fold.fold_events events target))
        | (n'', Err e) => (n'', Err e)
        | (n'', Stuck w) => (n'', Stuck w)
        end
  | (n', Err e) => (n', Err e)
  | (n', Stuck w) => (n', Stuck w)
  end.
Proof.
  unfold DynamoEvents.fold_at, Replay.fold_at, mbind, M_bind.
  destruct (DynamoEvents.latest_revision world org_id n) as [n' [latest|e|w]]; [|done..].
  destruct at_rev as [r|]; simpl; [|destruct (bool_decide _); [done|]];
    by destruct (Replay.fetch_pages _ _ _ _ _ _ n') as [? []].
Qed.
End facts.
End ReplayFacts.

(** * The logs that concurrent requests write *)
Module RunFacts.
Import EventReadFacts.
Section facts.
Context {T : Type} `{DynamoLaws T}.

(** A key under the events' prefix is an event's, or its item stays as it is. *)
Lemma strays_untouched {A} (w w' : world T A) h o s :
  Forall (appends (λ _, True) (λ _, True)) (pool w) → steps w h w' →
  (∃ n, EventLog.EVT_PREFIX +:+ s = EventLog.event_sk n) ∨
  get_item (table w') (o, EventLog.EVT_PREFIX +:+ s) =
  get_item (table w) (o, EventLog.EVT_PREFIX +:+ s).
Proof.
  intros Hp Hsteps. set (k := (o, EventLog.EVT_PREFIX +:+ s)).
  assert (state_sk (EventLog.EVT_PREFIX +:+ s) = false) as Hst.
  { unfold state_sk. rewrite CodecFacts.strip_own_prefix. by rewrite andb_false_r. }
  induction Hsteps as [w|w l w' h w'' Hstep _ IH]; [by right|]. rewrite Forall_lookup in Hp.
  assert (Forall (appends (λ _, True) (λ _, True)) (pool w') ∧
          ((∃ n, EventLog.EVT_PREFIX +:+ s = EventLog.event_sk n) ∨
           get_item (table w') k = get_item (table w) k)) as [Hp' [Hk|Hk]];
    [|by left|destruct (IH Hp') as [?|IH']; [by left|right; by rewrite IH']].
  destruct Hstep as [t pl m k' cont Hm|t pl m k' cont e Hm|t pl m i c cont t' out b Hm Hput|
                     t pl m ws cont t' out b Hm Htx]; simpl in *;
    apply Hp in Hm as Honly; inversion Honly; subst;
    (split; [apply Forall_insert; [by apply Forall_lookup|
       first [done|match goal with Hr : ∀ r, returns r → _ |- _ => by apply Hr end]]|]);
    [by right|by right|..].
  - right. destruct b.
    + apply law_put_effect in Hput as [_ [_ Hsame]]. apply Hsame.
      intros u ->%list_elem_of_singleton. simpl.
      match goal with Hk : ∃ _, Dynamo.key_of _ = _ |- _ => destruct Hk as [o' ->] end.
      unfold k. intros [=].
    + by apply law_put_no_effect in Hput.
  - match goal with Hy : txn_wf ?y |- _ => rename y into tx, Hy into Hwf end.
    destruct (decide (EventLog.EVT_PREFIX +:+ s = EventLog.event_sk (x_seq tx))) as [Hs|Hs];
      [left; by exists (x_seq tx)|right]. destruct b; [|by apply law_no_effect in Htx].
    apply law_effect in Htx as (_ & [_ Hsame] & _). apply Hsame. intros u Hu Huk.
    destruct (LogFacts.txn_keys _ _ _ Hwf Hu Huk) as [Hk|[Hk|(_ & s' & Hk & Hs')]];
      unfold k in Hk; [discriminate Hk|by apply (f_equal snd) in Hk|].
    apply (f_equal snd) in Hk. simpl in Hk. rewrite <-Hk, Hst in Hs'. done.
Qed.

Context {OrgConfig SigningKeyT : Type} (L : Libs OrgConfig SigningKeyT).
Context (HL : Signed.libs_return L).
Context (actor_from_str : string → result string Envelope.Actor).
(** The JSON library reads back the payloads that are logged. *)
Context (logged : Json.t → Prop).
Context (Hjson : ∀ j, logged j → json_from_str L (to_vec L j) = Ok j).
Context (Hactor : ∀ a s, actor_to_string L a = Ok s → actor_from_str s = Ok a).

(** A signed transaction's event parses back to the envelope that was signed. *)
Lemma signed_parses t x :
  Signed.signed L logged t x → (x_seq x < 2 ^ 64)%N →
  ∃ org_id key e, x_org x = DynamoStore.ORG_PREFIX +:+ org_id ∧
    Signed.stored_key L t (x_org x) key ∧ parses L actor_from_str x e ∧
    Envelope.key_id e = key.2 ∧
    Envelope.signature e =
      sign_b64 L key.1 (Canonical.canonical_envelope_bytes (to_vec L) (sha256_hex L) e org_id).
Proof.
  intros (org_id & key & p & Ho & Hk & Hseq & Hid & Hp & Hi) Hx.
  set (sig := sign_b64 L key.1 _) in Hi.
  destruct (event_item_roundtrip (to_vec L) (json_from_str L) (actor_to_string L) actor_from_str
              (x_org x) p key.2 sig (x_event x)) as [_ He];
    [by intros s; apply Hactor|by apply Hjson|done|by rewrite Hseq|exact Hi|].
  eexists org_id, key, _. split_and!; [done|done|split; [exact He|exact Hseq]|done|done].
Qed.

(** After any run from a table without logs, each organization's log is in
    the table, parses, and is signed with the organization's stored key. *)
Lemma run_has_log (before : T) (requests : list DynamoStore.Request) h w :
  (∀ o, holds_log before before o []) → (∀ o, no_strays before o) → Signed.keys_wf before →
  Forall DynamoStore.request_wf requests →
  Forall (DynamoStore.request_logs L logged) requests →
  steps {| table := before; pool := DynamoStore.serve L <$> requests |} h w →
  (N.of_nat (length h) < 2 ^ 64 - 1)%N →
  ∀ org_id, ∃ xs log,
    has_log L actor_from_str before (table w) (DynamoStore.ORG_PREFIX +:+ org_id) xs log ∧
    ∀ e, e ∈ log → ∃ key,
      Signed.stored_key L (table w) (DynamoStore.ORG_PREFIX +:+ org_id) key ∧
      Envelope.key_id e = key.2 ∧
      Envelope.signature e =
        sign_b64 L key.1 (Canonical.canonical_envelope_bytes (to_vec L) (sha256_hex L) e org_id).
Proof.
  intros Hbefore Hstrays Hkeys Hwf Hlg Hs Hlen org_id.
  set (o := DynamoStore.ORG_PREFIX +:+ org_id).
  destruct (concurrent_requests_signed L HL logged before requests h w)
    as (ys & -> & Hlogs & Hsigned & _); [done..|lia|]. rewrite length_fmap in Hlen.
  set (xs := of_org o ys). assert (length xs ≤ length ys) as Hxs.
  { unfold xs, of_org. rewrite <-(length_fmap snd ys). apply length_filter. }
  assert (∃ log, Forall2 (λ x e, parses L actor_from_str x e ∧ ∃ key,
            Signed.stored_key L (table w) o key ∧ Envelope.key_id e = key.2 ∧
            Envelope.signature e = sign_b64 L key.1
              (Canonical.canonical_envelope_bytes (to_vec L) (sha256_hex L) e org_id)) xs log)
    as [log Hlog].
  { apply Forall_exists_Forall2_l, Forall_forall. intros x [i Hi]%list_elem_of_lookup.
    pose proof (log_seq _ _ _ _ (Hlogs o) i x Hi) as Hcur. apply lookup_lt_Some in Hi as Hlt.
    assert (x ∈ xs) as [Ho Hx]%list_elem_of_filter by by eapply list_elem_of_lookup_2.
    apply list_elem_of_fmap in Hx as ([m x'] & -> & Hx). rewrite Forall_forall in Hsigned.
    destruct (signed_parses _ _ (Hsigned _ Hx)) as (org' & key & e & Ho' & Hk & Hp & Hkid & Hsig).
    { unfold x_seq. simpl. simpl in Hcur. rewrite Hcur, N.mod_small; lia. }
    cbn [snd] in *. rewrite Ho in Ho'. unfold o in Ho'. apply DecimalFacts.string_append_inj in Ho' as <-.
    exists e. split; [done|]. exists key. by rewrite <-Ho. }
  exists xs, log. split.
  - split; [apply Hlogs| |by eapply Forall2_impl; [exact Hlog|]; intros ? ? []|lia].
    intros s i Hi.
    destruct (λ Hp, strays_untouched _ w _ o s Hp Hs) as [?|Heq]; [|done|].
    + apply Forall_fmap. eapply Forall_impl; [exact Hwf|]. intros r. by apply Signed.only_serve.
    + rewrite Heq in Hi. by apply Hstrays in Hi.
  - intros e [i Hi]%list_elem_of_lookup.
    by destruct (Forall2_lookup_r _ _ _ _ _ Hlog Hi) as (x & _ & _ & ?).
Qed.
End facts.
End RunFacts.

(** * Theorems *)
Section theorems.
Context {T : Type} `{DynamoService T}.
Context {OrgConfig SigningKeyT : Type} (L : Libs OrgConfig SigningKeyT).
Context (actor_from_str : string → result string Envelope.Actor).
Context (before : T) (org_id : string) (tables : nat → T) (world : nat → Answers).
Context (xs : nat → list txn) (log : nat → list Envelope.t).
Context (Hgrow : ReplayFacts.growing L actor_from_str before org_id tables world xs log).

(** C35: Replaying a log from DynamoDB.  Appends extend the log between the
    calls, the service cuts its pages where it likes, and its queries, which do
    not ask for consistency, answer event by event from any table there has
    been, or miss an event.  Whatever they answer, [fold_at] returns, and a
    state it returns is the fold of the log, as it stood at some moment of the
    read, at the revision asked for (at the latest one when none is): a page
    that is stale, short or has a gap makes it fail, never return another
    state.  When queries answer from the present table, in full pages, and the
    service is available, its answer is that fold, state or error. *)
Theorem dynamo_fold_at_sound fuel n at_rev target :
  target = default (Revision.new (N.of_nat (length (log n)))) at_rev →
  (0 < Revision.value target ≤ N.of_nat (fuel * Replay.FOLD_PAGE_SIZE))%N →
  (Revision.value target < 2 ^ 64)%N →
  let r := (DynamoEvents.fold_at world L actor_from_str (S fuel) org_id at_rev n).2 in
  returns r ∧
  (∀ s, r = Ok s → ∃ m, n ≤ m ∧ Fold.fold_events (log m) target = Ok s) ∧
  (∀ orders, (∀ m, answers_from (tables m) (orders m) (world m)) →
     (∀ m, EventReadFacts.full_pages (world m) ∧ EventReadFacts.available (world m)) →
     log n ≠ [] →
     ∃ m, n ≤ m ∧ ((Revision.value target ≤ N.of_nat (length (log n)))%N → m = n) ∧
       r = map_err store_err (Fold.fold_events (log m) target)).
Proof.
  intros Ht [H0 Hf] Hb. cbv zeta.
  destruct (ReplayFacts.latest_revision_reads L actor_from_str _ _ _ _ _ _ Hgrow n)
    as (r0 & Hlatest & Hr0).
  assert ((DynamoEvents.fold_at world L actor_from_str (S fuel) org_id at_rev n).2 =
    match r0 with
    | Ok _ => match (Replay.fetch_pages (DynamoEvents.events_after world L actor_from_str) (S fuel)
                       org_id target (Revision.new 0) [] (S n)).2 with
              | Ok events => map_err store_err (Fold.fold_events events target)
              | Err e => Err e | Stuck w => Stuck w end
    | Err e => Err e | Stuck w => Stuck w end) as ->.
  { rewrite ReplayFacts.fold_at_step, Hlatest. destruct Hr0 as [->|(e & _ & ->)]; [|done].
    destruct at_rev as [r|]; simpl in Ht; subst target;
      [|rewrite bool_decide_eq_false_2 by (simpl in *; lia)];
      cbv zeta; by destruct (Replay.fetch_pages _ _ _ _ _ _ (S n)) as [? []]. }
  assert (ReplayFacts.collected (.∈ log (S n)) (N.of_nat 0) []) as Hnil
    by (split; constructor).
  pose proof (ReplayFacts.fetch_pages_amid L actor_from_str _ _ _ _ _ _ Hgrow fuel (S n) 0 [] target
                eq_refl Hb Hnil Hf) as Hpages.
  change (Revision.new (N.of_nat 0)) with (Revision.new 0) in Hpages.
  cbv zeta in Hpages. split_and!.
  - destruct Hr0 as [->|(e & _ & ->)]; [|done].
    destruct Hpages as [(m & l & b & _ & Hr & _)|(e & Hr)]; rewrite Hr; [|done].
    apply returns_map_err, ReplayFacts.fold_events_returns.
  - intros st. destruct Hr0 as [->|(e & _ & ->)]; [|done].
    destruct Hpages as [(m & l & b & Hm & Hr & Hc)|(e & Hr)]; rewrite Hr; [|done].
    intros Hs%map_err_Ok. exists m. split; [lia|].
    eapply (ReplayFacts.fold_collected L actor_from_str _ _ _ _ _ _ Hgrow); [apply Hc|done].
  - intros orders Hcur Hok Hne. destruct Hr0 as [->|(e & [Hna|Hz] & ->)];
      [|destruct Hna; apply Hok|done].
    pose proof (λ i, EventReadFacts.read_log_gap_free L actor_from_str _ _ _ _ _
                  (ReplayFacts.grow_log _ _ _ _ _ _ _ _ Hgrow i)) as Hg.
    destruct (ReplayFacts.fetch_pages_prefix L actor_from_str _ _ _ _ _ _ Hgrow orders Hcur
                fuel (S n) 0 target)
      as [(m & k & Hm & Hk & Hr & Hfull)|(m & e & Hna & _)];
      [apply Nat.le_0_l|exact Hf| |destruct Hna; apply Hok].
    change (take 0 (log (S n))) with (@nil Envelope.t) in Hr.
    change (Revision.new (N.of_nat 0)) with (Revision.new 0) in Hr. rewrite Hr.
    assert (length (log n) ≤ length (log m)) as Hmono.
    { apply prefix_length, (ReplayFacts.log_prefix L actor_from_str _ _ _ _ _ _ Hgrow). lia. }
    assert (gap_free (take k (log m))) as Hgk by (intros i x [Hx _]%lookup_take_Some; by apply (Hg m)).
    destruct (Hfull (λ i, proj1 (Hok i))) as [->|Hle].
    + rewrite firstn_all. destruct (decide (Revision.value target ≤ N.of_nat (length (log n)))%N).
      * exists n. split_and!; [done|done|]. f_equal.
        rewrite !FoldFacts.fold_events_prefix by (done || lia).
        by rewrite (ReplayFacts.take_log L actor_from_str _ _ _ _ _ _ Hgrow n m) by lia.
      * exists m. split_and!; [lia|lia|done].
    + exists (if decide (Revision.value target ≤ N.of_nat (length (log n)))%N then n else m).
      case_decide as Hd; (split; [lia|]); (split; [done|]); f_equal;
        rewrite !FoldFacts.fold_events_prefix by (done || rewrite ?length_take; lia);
        rewrite take_take, Nat.min_l by lia; [|done].
      by rewrite (ReplayFacts.take_log L actor_from_str _ _ _ _ _ _ Hgrow n m) by lia.
Qed.
End theorems.
