(* ===== verification/VerifyEvents.v ===== *)
(** Verification of a served event log by a third party
    ([xtask/src/control_plane/verify_events.rs], [verify_events_core.rs]): it
    fetches the events and the published keys of an organization and checks
    each signature.  The main theorem runs through the whole chain, from the
    requests that wrote the log to the verdicts. *)

From stdpp Require Import pretty.
From S2P Require Import Prelude RustStr Decimal Ident Fgrn Store Event Org Rbac EventStore Dynamo.
From S2P Require Import DynamoLog DynamoStore DynamoSigned DynamoReads DynamoReplay.
From S2P Require ReadModel Handlers.

(** * The verifier *)
Module VerifyResult.
Inductive t := Ok | UnknownKey | BadSignatureEncoding (e : string) | Invalid.
#[global] Instance t_eq_dec : EqDecision t.
Proof. solve_decision. Defined.
Definition is_ok (r : t) : bool := match r with Ok => true | _ => false end.
Definition to_string (r : t) : string :=
  match r with
  | Ok => "OK"
  | UnknownKey => "FAIL (no published key)"
  | BadSignatureEncoding e => "FAIL (bad signature: " +:+ e +:+ ")"
  | Invalid => "FAIL (signature invalid)"
  end.
End VerifyResult.

Module VerifyEvents.
Section verifier.
(** Libraries: JSON text, digests, base64, Ed25519 and HTTP. *)
Context {VK : Type}.
Context (to_vec : Json.t → string) (sha256_hex : string → string).
Context (json_from_str : string → result string Json.t).
Context (b64_decode : string → string + string).
Context (verify_bytes : VK → string → string → bool).
Context (vk_from_pem : string → result string VK).

Record Outcome := { seq : N; kind : string; key_id : string; verdict : VerifyResult.t }.

Definition verify_one (org_id : string) (envelope : Envelope.t) (keys : gmap string VK)
    : VerifyResult.t :=
  match keys !! Envelope.key_id envelope with
  | None => VerifyResult.UnknownKey
  | Some key =>
      match b64_decode (Envelope.signature envelope) with
      | inl e => VerifyResult.BadSignatureEncoding e
      | inr decoded =>
          if negb (bool_decide (String.length decoded = 64))
          then VerifyResult.BadSignatureEncoding "signature must be 64 bytes"
          else
            let bytes := Canonical.canonical_envelope_bytes to_vec sha256_hex envelope org_id in
            if verify_bytes key bytes decoded then VerifyResult.Ok else VerifyResult.Invalid
      end
  end.
Definition verify_envelopes (org_id : string) (envelopes : list Envelope.t)
    (keys : gmap string VK) : list Outcome :=
  (λ e, {| seq := Revision.value (Envelope.seq e); kind := EventKind.as_str (Envelope.kind e);
           key_id := Envelope.key_id e; verdict := verify_one org_id e keys |}) <$> envelopes.

Definition as_array (v : Json.t) : option (list Json.t) :=
  match v with Json.Array l => Some l | _ => None end.
Definition parse_entry (entry : Json.t) : result string (string * VK) :=
  key_id ← ok_or (Json.as_str (Json.index entry "key_id")) "key entry missing key_id";
  pem ← ok_or (Json.as_str (Json.index entry "public_key")) "key entry missing public_key";
  vk ← map_err (λ e, "invalid public key PEM for '" +:+ key_id +:+ "': " +:+ e) (vk_from_pem pem);
  Ok (key_id, vk).
(** Collecting into a map: of two entries for a key the last one stays. *)
Definition parse_keys (body : Json.t) : result string (gmap string VK) :=
  entries ← ok_or (as_array (Json.index body "keys"))
              "signing-keys response missing 'keys' array";
  pairs ← mapM parse_entry entries;
  Ok (foldl (λ m kv, <[kv.1 := kv.2]> m) ∅ pairs).

(** ** The command *)
Record Args := { url : string; org_id : string; after : N; limit : N }.
(** A response is its status and the outcome of reading its body. *)
Context (http_get : string → result string (N * result string string)).
Context (status_str : N → string).
Context (envelopes_from_value : Json.t → result string (list Envelope.t)).

Definition fetch_json (u : string) : result string Json.t :=
  response ← map_err (λ _, "GET " +:+ u +:+ " failed") (http_get u);
  body ← map_err (λ _, "failed to read body") response.2;
  if negb (bool_decide (200 ≤ response.1 < 300)%N)
  then Err ("GET " +:+ u +:+ " returned " +:+ status_str response.1 +:+ ": " +:+ body)
  else map_err (λ _, "GET " +:+ u +:+ ": invalid JSON") (json_from_str body).

(** [s.trim_end_matches(c)] for a character. *)
Fixpoint trim_end_matches (c : ascii) (s : string) : string :=
  match s with
  | "" => ""
  | String a rest =>
      let rest := trim_end_matches c rest in
      if is_empty rest && bool_decide (a = c) then "" else String a rest
  end.

(** The state is what has been printed. *)
Definition println (line : string) : M (list string) string () := modify (.++ [line]).
Fixpoint print_all (lines : list string) : M (list string) string () :=
  match lines with
  | [] => mret ()
  | line :: lines => _ ← println line; print_all lines
  end.
Definition outcome_line (o : Outcome) : string :=
  "seq=" +:+ pretty (seq o) +:+ " kind=" +:+ kind o +:+ " key_id=" +:+ key_id o +:+ " " +:+
  VerifyResult.to_string (verdict o).
Definition base_url (args : Args) : string := trim_end_matches "/"%char (url args).
Definition events_url (args : Args) : string :=
  base_url args +:+ "/api/v1/organizations/" +:+ org_id args +:+ "/events?after=" +:+
  pretty (after args) +:+ "&limit=" +:+ pretty (limit args).
Definition keys_url (args : Args) : string :=
  base_url args +:+ "/api/v1/organizations/" +:+ org_id args +:+ "/signing-keys".

Definition run (args : Args) : M (list string) string () :=
  events_body ← lift (fetch_json (events_url args));
  envelopes ← lift (map_err (λ _, "failed to parse events from response")
                      (envelopes_from_value (Json.index events_body "events")));
  keys_body ← lift (fetch_json (keys_url args));
  keys ← lift (parse_keys keys_body);
  if bool_decide (envelopes = [])
  then println ("no events after seq " +:+ pretty (after args) +:+ " — nothing to verify")
  else
    let outcomes := verify_envelopes (org_id args) envelopes keys in
    let failures := length (filter (λ o, VerifyResult.is_ok (verdict o) = false) outcomes) in
    _ ← print_all (outcome_line <$> outcomes);
    if bool_decide (0 < failures)
    then lift (Err (pretty failures +:+ "/" +:+ pretty (length outcomes) +:+
                    " envelopes failed verification"))
    else println ("all " +:+ pretty (length outcomes) +:+ " envelopes verified").
End verifier.
End VerifyEvents.

(** * Facts about the verifier *)
Module VerifyFacts.
Lemma print_all_Ok lines printed :
  ∃ printed', VerifyEvents.print_all lines printed = (printed', Ok ()).
Proof.
  revert printed. induction lines as [|line lines IH]; intros printed; [by eexists|].
  destruct (IH (printed ++ [line])) as [p Hp]. exists p. exact Hp.
Qed.
Lemma no_failures outcomes :
  length (filter (λ o, VerifyResult.is_ok (VerifyEvents.verdict o) = false) outcomes) = 0 ↔
  Forall (λ o, VerifyEvents.verdict o = VerifyResult.Ok) outcomes.
Proof.
  induction outcomes as [|o os IH]; [by split|]. rewrite Forall_cons, <-IH, filter_cons.
  destruct (VerifyEvents.verdict o); simpl; naive_solver.
Qed.

Section facts.
Context {VK : Type} (to_vec : Json.t → string) (sha256_hex : string → string).
Context (b64_decode : string → string + string) (verify_bytes : VK → string → string → bool).
Context (vk_from_pem : string → result string VK).
#[local] Abbreviation verify_one :=
  (VerifyEvents.verify_one to_vec sha256_hex b64_decode verify_bytes).


End facts.

Section served.
Context {T : Type} `{DynamoService T}.
Context {OrgConfig SigningKeyT VK : Type} (L : Libs OrgConfig SigningKeyT).
Context (verifying_key : SigningKeyT → VK) (to_public_key_pem : VK → result string string).

End served.
End VerifyFacts.

(** * Theorems *)
Section theorems.
Context {T : Type} `{DynamoLaws T}.
Context {OrgConfig SigningKeyT VK : Type} (L : Libs OrgConfig SigningKeyT).
Context (actor_from_str : string → result string Envelope.Actor).
Context (verifying_key : SigningKeyT → VK) (to_public_key_pem : VK → result string string).
Context (b64_decode : string → string + string) (verify_bytes : VK → string → string → bool).
Context (vk_from_pem : string → result string VK).
(** The libraries: calls return, actors are read back as they were written, so
    are public keys and JSON without floats, and a signature is 64 bytes,
    verified by the public half of the key that made it. *)
Context (HL : Signed.libs_return L).
Context (Hjson : ∀ j, PlainJson.readable j → json_from_str L (to_vec L j) = Ok j).
Context (Hactor : ∀ a s, actor_to_string L a = Ok s → actor_from_str s = Ok a).
Context (Hpem : ∀ vk s, to_public_key_pem vk = Ok s → vk_from_pem s = Ok vk).
Context (Hsign : ∀ k m, ∃ sig, b64_decode (sign_b64 L k m) = inr sig ∧ String.length sig = 64 ∧
                               verify_bytes (verifying_key k) m sig = true).


End theorems.

(** A branch of the command that fails before the verdicts. *)
Ltac stops := split; [done|intros (? & ? & ? & ? & ? & ? & ? & ? & _); congruence].

(** The command succeeds exactly when both documents arrive and parse and
    every verdict is [Ok]. *)
Theorem verify_run_exact {VK} to_vec sha256_hex json_from_str b64_decode verify_bytes vk_from_pem
    http_get status_str envelopes_from_value (args : VerifyEvents.Args) printed :
  let fetch := VerifyEvents.fetch_json json_from_str http_get status_str in
  (VerifyEvents.run (VK := VK) to_vec sha256_hex json_from_str b64_decode verify_bytes vk_from_pem
     http_get status_str envelopes_from_value args printed).2 = Ok () ↔
  ∃ events_body es keys_body keys,
    fetch (VerifyEvents.events_url args) = Ok events_body ∧
    envelopes_from_value (Json.index events_body "events") = Ok es ∧
    fetch (VerifyEvents.keys_url args) = Ok keys_body ∧
    VerifyEvents.parse_keys vk_from_pem keys_body = Ok keys ∧
    Forall (λ o, VerifyEvents.verdict o = VerifyResult.Ok)
      (VerifyEvents.verify_envelopes to_vec sha256_hex b64_decode verify_bytes
         (VerifyEvents.org_id args) es keys).
Proof.
  intros fetch. unfold VerifyEvents.run, mbind, M_bind, lift. fold fetch.
  destruct (fetch (VerifyEvents.events_url args)) as [eb|e|w]; [|stops..].
  destruct (envelopes_from_value (Json.index eb "events")) as [es|e|w] eqn:Hes; simpl; [|stops..].
  destruct (fetch (VerifyEvents.keys_url args)) as [kb|e|w]; [|stops..].
  destruct (VerifyEvents.parse_keys vk_from_pem kb) as [keys|e|w] eqn:Hkeys; [|stops..].
  set (verify := VerifyEvents.verify_envelopes _ _ _ _ _).
  transitivity (Forall (λ o, VerifyEvents.verdict o = VerifyResult.Ok) (verify es keys)).
  2:{ split; [intros Hok; by exists eb, es, kb, keys|].
      intros (eb' & es' & kb' & keys' & [= <-] & He & [= <-] & Hk & Hok). congruence. }
  case_bool_decide as Hnil.
  { subst es. split; [by constructor|done]. }
  destruct (VerifyFacts.print_all_Ok (VerifyEvents.outcome_line <$> verify es keys) printed) as [p' ->].
  rewrite <-VerifyFacts.no_failures. case_bool_decide; simpl; split; [done|lia|lia|done].
Qed.

(** The signature does not cover the actor: envelopes that differ only in the
    actor get the same verdict. *)
Theorem actor_not_signed {VK} to_vec sha256_hex b64_decode verify_bytes org
    (e : Envelope.t) (a : Envelope.Actor) (keys : gmap string VK) :
  VerifyEvents.verify_one to_vec sha256_hex b64_decode verify_bytes org
    (Envelope.mk (Envelope.event_id e) (Envelope.seq e) (Envelope.kind e) (Envelope.occurred_at e) a
       (Envelope.narrowing e) (Envelope.schema_version e) (Envelope.payload e) (Envelope.key_id e)
       (Envelope.signature e)) keys =
  VerifyEvents.verify_one to_vec sha256_hex b64_decode verify_bytes org e keys.
Proof. done. Qed.

(** * A run *)
Module VerifySample.

(** JSON as text: a tree, numbered, in binary digits. *)
Section codec.
Abbreviation leaf := (bool + (N + (Z + N)) + string)%type.
Definition number_code (n : Json.number) : N + (Z + N) :=
  match n with Json.PosInt n => inl n | Json.NegInt z => inr (inl z) | Json.Float b => inr (inr b) end.
Definition number_of (c : N + (Z + N)) : Json.number :=
  match c with inl n => Json.PosInt n | inr (inl z) => Json.NegInt z | inr (inr b) => Json.Float b end.
Fixpoint tree (j : Json.t) : gen_tree leaf :=
  match j with
  | Json.Null => GenNode 0 []
  | Json.Bool b => GenLeaf (inl (inl b))
  | Json.Number n => GenLeaf (inl (inr (number_code n)))
  | Json.String s => GenLeaf (inr s)
  | Json.Array l => GenNode 1 (tree <$> l)
  | Json.Object l => GenNode 2 ((λ kv, GenNode 3 [GenLeaf (inr kv.1); tree kv.2]) <$> l)
  end.
Fixpoint of_tree (t : gen_tree leaf) : Json.t :=
  match t with
  | GenLeaf (inl (inl b)) => Json.Bool b
  | GenLeaf (inl (inr n)) => Json.Number (number_of n)
  | GenLeaf (inr s) => Json.String s
  | GenNode 1 l => Json.Array (of_tree <$> l)
  | GenNode 2 l =>
      Json.Object ((λ f, match f with GenNode 3 [GenLeaf (inr k); v] => (k, of_tree v)
                                    | _ => ("", Json.Null) end) <$> l)
  | GenNode _ _ => Json.Null
  end.
Definition field (kv : string * Json.t) : gen_tree leaf :=
  GenNode 3 [GenLeaf (inr kv.1); tree kv.2].
Definition of_field (f : gen_tree leaf) : string * Json.t :=
  match f with GenNode 3 [GenLeaf (inr k); v] => (k, of_tree v) | _ => ("", Json.Null) end.
Lemma fmap_inverse {A B} (f : A → B) (g : B → A) (l : list A) :
  Forall (λ x, g (f x) = x) l → g <$> (f <$> l) = l.
Proof. induction 1 as [|x l Hx _ IH]; [done|]. cbn. by rewrite Hx, IH. Qed.
Lemma of_tree_tree j : of_tree (tree j) = j.
Proof.
  induction j as [|b|n|s|l IH|l IH] using JsonFacts.json_ind; [done..|by destruct n|done| |].
  - exact (f_equal Json.Array (fmap_inverse tree of_tree l IH)).
  - apply (f_equal Json.Object), (fmap_inverse field of_field). eapply Forall_impl; [exact IH|].
    intros [k v] Hv. simpl in *. by rewrite Hv.
Qed.
End codec.

Fixpoint bits (p : positive) : string :=
  match p with
  | xH => ""
  | xO p => String "0" (bits p)
  | xI p => String "1" (bits p)
  end.
Fixpoint of_bits (s : string) : positive :=
  match s with
  | "" => xH
  | String c s => if bool_decide (c = "0"%char) then xO (of_bits s) else xI (of_bits s)
  end.
Lemma of_bits_bits p : of_bits (bits p) = p.
Proof. induction p as [p IH|p IH|]; simpl; by rewrite ?IH. Qed.

Definition to_vec (j : Json.t) : string := bits (encode (tree j)).
Definition json_from_str (s : string) : result string Json.t :=
  match decode (of_bits s) with Some t => Ok (of_tree t) | None => Err "invalid JSON" end.
Lemma json_roundtrip j : json_from_str (to_vec j) = Ok j.
Proof. unfold json_from_str, to_vec. by rewrite of_bits_bits, decode_encode, of_tree_tree. Qed.

(** Signatures: 64 characters that depend on the key and the message. *)
Fixpoint fill (n : nat) (s : string) : string :=
  match n, s with
  | 0, _ => ""
  | S n, "" => String "0" (fill n "")
  | S n, String c s => String c (fill n s)
  end.
Definition sign (k m : string) : string := fill 64 (k +:+ ":" +:+ fill 60 m).
Definition verify (k m s : string) : bool := bool_decide (s = sign k m).

Definition actor_to_string (a : Envelope.Actor) : result string string :=
  match a with
  | Envelope.System => Ok "system"
  | Envelope.Machine k => Ok ("machine:" +:+ k)
  | Envelope.Principal _ => Err "not in this sample"
  end.
Definition actor_from_str (s : string) : result string Envelope.Actor :=
  match RustStr.strip_prefix "machine:" s with
  | Some k => Ok (Envelope.Machine k)
  | None => if bool_decide (s = "system") then Ok Envelope.System else Err "unknown actor"
  end.
Lemma actor_roundtrip a s : actor_to_string a = Ok s → actor_from_str s = Ok a.
Proof.
  destruct a as [f|k|]; intros Ha; [done| |by injection Ha as <-]. unfold actor_from_str.
  injection Ha as <-. pose proof (CodecFacts.strip_own_prefix "machine:" k) as Hk.
  destruct (RustStr.strip_prefix "machine:" _); congruence.
Qed.

Definition group (n : string) : Rbac.RbacEntry := Rbac.Build_RbacEntry n None [] [] true.
Definition libs : Libs () string := {|
  DynamoStore.to_vec := to_vec;
  DynamoStore.sha256_hex := fill 64;
  DynamoStore.json_from_str := json_from_str;
  DynamoStore.actor_to_string := actor_to_string;
  DynamoStore.org_value := EventStoreSample.org_value;
  DynamoStore.config_value := EventStoreSample.config_value;
  DynamoStore.keys_value := EventStoreSample.keys_value;
  DynamoStore.group_value := EventStoreSample.group_value;
  config_to_string _ := Ok "{}";
  config_from_str _ := Ok ();
  keys_to_string := StoreSample.write_keys;
  keys_from_str := StoreSample.read_keys;
  group_to_string g := Ok (Rbac.name g);
  group_from_str s := Ok (group s);
  DynamoStore.to_rfc3339 _ := "2025-01-01T00:00:00+00:00";
  parse_from_rfc3339 _ := Ok 0%Z;
  xxh64_hex s := s;
  key_from_pem s := Ok s;
  DynamoStore.sign_b64 := sign;
|}.
Lemma sample_libs_ok : Signed.libs_return libs.
Proof. split; simpl; unfold json_from_str, actor_to_string; intros; solve_returns. Qed.

(** The race of the store's sample: two requests, two events. *)
Definition start : world GmapTable.t DynamoStore.Response :=
  {| table := ∅; pool := DynamoStore.serve libs <$> StoreSample.race |}.
Definition run : option (list label * world GmapTable.t DynamoStore.Response) :=
  GmapTable.run_schedule StoreSample.race_schedule start.
Definition keyed (tb : GmapTable.t) : bool :=
  forallb (λ x : Dynamo.key * Dynamo.item, bool_decide (Dynamo.key_of x.2 = Some x.1)) (map_to_list tb).
Lemma keyed_true tb : keyed tb = true → ∀ k i, tb !! k = Some i → Dynamo.key_of i = Some k.
Proof.
  unfold keyed. rewrite forallb_forall. intros Hk k i Hi. specialize (Hk (k, i)).
  rewrite <-list_elem_of_In in Hk. simpl in Hk. rewrite bool_decide_eq_true in Hk. apply Hk.
  by apply elem_of_map_to_list.
Qed.
(** Its requests log plain JSON. *)
Lemma race_readable : Forall (DynamoStore.request_logs libs PlainJson.readable) StoreSample.race.
Proof.
  assert (match EventStore.org_payload (org_value libs) (config_value libs) EventStoreSample.acme with
          | Ok j => PlainJson.plain 128 j | _ => false end = true) as Hp
    by (vm_cast_no_check (eq_refl true)).
  repeat constructor; intros j Hj; rewrite Hj in Hp; exact Hp.
Qed.
(** Its events and keys, read in pages of one entry. *)
Definition pages (w : world GmapTable.t DynamoStore.Response) : nat → Answers :=
  λ _, PagedTable.service 1 (table w).
Definition events (w : world GmapTable.t DynamoStore.Response) : result CpError.t (list Envelope.t) :=
  (DynamoEvents.events_after (pages w) libs actor_from_str "acme" (Revision.new 1) 10 0).2.
Definition keys (w : world GmapTable.t DynamoStore.Response)
    : result CpError.t (list ReadModel.EventSigningKey) :=
  (DynamoEvents.list_signing_keys (pages w) libs id Ok "acme" 0).2.
Definition replay (w : world GmapTable.t DynamoStore.Response) : result CpError.t Fold.FoldedState :=
  (DynamoEvents.fold_at (pages w) libs actor_from_str 1 "acme" (Some (Revision.new 2)) 0).2.
Definition latest (w : world GmapTable.t DynamoStore.Response) : result CpError.t Revision.t :=
  (DynamoEvents.latest_revision (pages w) "acme" 0).2.
(** The same, in pages with room for all, from this table and from the empty
    table the run started with. *)
Definition roomy (w : world GmapTable.t DynamoStore.Response) : nat → Answers :=
  λ _, PagedTable.service 200 (table w).
Definition full_replay (w : world GmapTable.t DynamoStore.Response)
    : result CpError.t Fold.FoldedState :=
  (DynamoEvents.fold_at (roomy w) libs actor_from_str 2 "acme" None 0).2.
Definition stale (w : world GmapTable.t DynamoStore.Response) : nat → Answers :=
  λ _, {| answer_get := answer_get (PagedTable.service 200 (table w));
          answer_query := answer_query (PagedTable.service 200 (∅ : GmapTable.t));
          answer_scan := answer_scan (PagedTable.service 200 (∅ : GmapTable.t)) |}.
Definition stale_replay (w : world GmapTable.t DynamoStore.Response)
    : result CpError.t Fold.FoldedState :=
  (DynamoEvents.fold_at (stale w) libs actor_from_str 2 "acme" None 0).2.
Definition check : bool :=
  match run with
  | Some (h, w) =>
      bool_decide (length h = 2) && keyed (table w) &&
      match events w with Ok [_] => true | _ => false end &&
      match keys w with Ok [_] => true | _ => false end &&
      match replay w with
      | Err e => bool_decide (e = store_err (AuthzError.UnknownRevision 2 1))
      | _ => false
      end &&
      match latest w with Ok r => bool_decide (r = Revision.new 2) | _ => false end &&
      is_ok (full_replay w) &&
      match stale_replay w with
      | Err e => bool_decide (e = store_err (AuthzError.UnknownRevision 2 0))
      | _ => false
      end
  | None => false
  end.

Lemma checked : ∃ h w e k, run = Some (h, w) ∧ length h = 2 ∧
  (∀ k i, table w !! k = Some i → Dynamo.key_of i = Some k) ∧ events w = Ok [e] ∧ keys w = Ok [k] ∧
  replay w = Err (store_err (AuthzError.UnknownRevision 2 1)) ∧ latest w = Ok (Revision.new 2) ∧
  is_ok (full_replay w) = true ∧
  stale_replay w = Err (store_err (AuthzError.UnknownRevision 2 0)).
Proof.
  assert (check = true) as Hc by (vm_cast_no_check (eq_refl true)). revert Hc. unfold check.
  destruct run as [[h w]|]; [|done]. rewrite !andb_true_iff.
  intros [[[[[[[Hh Hkeyed] He] Hk] Hr] Hl] Hf] Hs].
  destruct (events w) as [[|e [|]]| |] eqn:Hev; [done| |done..].
  destruct (keys w) as [[|k [|]]| |] eqn:Hks; [done| |done..].
  destruct (replay w) as [|err|] eqn:Hrp; [done| |done].
  destruct (latest w) as [r| |] eqn:Hlt; [|done..].
  destruct (stale_replay w) as [|err'|] eqn:Hst; [done| |done].
  apply bool_decide_eq_true in Hh, Hr, Hl, Hs. subst err r err'.
  exists h, w, e, k. split_and!; [done|done|by apply keyed_true|done..].
Qed.
Lemma race_run_steps h w : run = Some (h, w) → steps start h w.
Proof. exact (GmapTable.run_schedule_steps StoreSample.race_schedule start h w). Qed.
Lemma no_strays_empty o : EventReadFacts.no_strays (∅ : GmapTable.t) o.
Proof. intros s i Hi. discriminate Hi. Qed.
Lemma pages_answer (w : world GmapTable.t DynamoStore.Response) :
  (∀ k i, table w !! k = Some i → Dynamo.key_of i = Some k) →
  answers_from (table w) (PagedTable.order (table w)) (PagedTable.service 1 (table w)).
Proof. by apply PagedTable.service_answers. Qed.
(** The log those requests wrote. *)
Lemma run_log h w : run = Some (h, w) → length h = 2 →
  ∃ xs log, EventReadFacts.has_log libs actor_from_str (∅ : GmapTable.t) (table w)
    (DynamoStore.ORG_PREFIX +:+ "acme") xs log.
Proof.
  intros Hr Hl.
  destruct (RunFacts.run_has_log libs sample_libs_ok actor_from_str PlainJson.readable
              (λ j _, json_roundtrip j) actor_roundtrip (∅ : GmapTable.t) StoreSample.race h w) with (org_id := "acme") as (xs & log & Hlog & _).
  - apply LogSample.empty_log.
  - apply no_strays_empty.
  - apply StoreSample.no_keys.
  - apply StoreSample.race_wf.
  - apply race_readable.
  - by apply race_run_steps.
  - by rewrite Hl.
  - by exists xs, log.
Qed.
Lemma room_answer (w : world GmapTable.t DynamoStore.Response) :
  (∀ k i, table w !! k = Some i → Dynamo.key_of i = Some k) →
  answers_from (table w) (PagedTable.order (table w)) (PagedTable.service 200 (table w)).
Proof. apply PagedTable.service_answers. lia. Qed.
Lemma run_growing (w : world GmapTable.t DynamoStore.Response) a xs log :
  (∀ m, answers_from (table w) (PagedTable.order (table w)) (a m)) →
  EventReadFacts.has_log libs actor_from_str (∅ : GmapTable.t) (table w)
    (DynamoStore.ORG_PREFIX +:+ "acme") xs log →
  ReplayFacts.growing libs actor_from_str (∅ : GmapTable.t) "acme" (λ _, table w) a
    (λ _, xs) (λ _, log).
Proof.
  intros Ha Hlog. split; [|done|done]. intros m.
  eapply answers_from_amid; [by exists 0; split; [lia|]|apply Ha].
Qed.
Lemma run_length (w : world GmapTable.t DynamoStore.Response) xs log :
  (∀ k i, table w !! k = Some i → Dynamo.key_of i = Some k) →
  EventReadFacts.has_log libs actor_from_str (∅ : GmapTable.t) (table w)
    (DynamoStore.ORG_PREFIX +:+ "acme") xs log →
  latest w = Ok (Revision.new 2) → length log = 2.
Proof.
  intros Hk Hlog Hl.
  destruct (ReplayFacts.latest_revision_reads libs actor_from_str _ _ _ _ _ _
              (run_growing w (pages w) xs log (λ m, pages_answer w Hk) Hlog) 0)
    as (r & Hr & [->|(err & _ & ->)]);
    unfold latest in Hl; rewrite Hr in Hl; simpl in Hl; [|done].
  injection Hl. lia.
Qed.

(** ** A table of groups *)
Definition group_item (n : string) : Dynamo.item :=
  unwrap_or (DynamoStore.to_group_item libs (Id.mk (Segment.mk "acme")) (group n)
               (String Rbac.quote ("tag" +:+ String Rbac.quote ""))) ∅.
Definition counter_item : Dynamo.item :=
  <["seq" := Dynamo.N "2"]> (PagedTable.key_item ("ORG#acme", "SEQ")).
Definition groups_table : GmapTable.t :=
  list_to_map ((λ i, (default ("", "") (Dynamo.key_of i), i)) <$>
    [counter_item; group_item "viewer"; group_item "admin"]).
Lemma groups_answer (m : nat) :
  answers_from groups_table (PagedTable.order groups_table) (PagedTable.service 1 groups_table).
Proof.
  apply PagedTable.service_answers; [done|].
  assert (keyed groups_table = true) as Hk by (vm_cast_no_check (eq_refl true)).
  by apply keyed_true.
Qed.
Lemma groups_count : length (PagedTable.order groups_table) < 4.
Proof. apply Nat.ltb_lt. vm_cast_no_check (eq_refl true). Qed.
Lemma groups_listed : ∃ gs,
  (DynamoOrgStore.list_groups (λ _, PagedTable.service 1 groups_table) libs 4
     (Id.mk (Segment.mk "acme")) 0).2 = Ok gs ∧
  (λ g, Rbac.name (ReadModel.OrgStore.entry g)) <$> gs = ["admin"; "viewer"].
Proof.
  assert (match (DynamoOrgStore.list_groups (λ _, PagedTable.service 1 groups_table) libs 4
             (Id.mk (Segment.mk "acme")) 0).2 with
          | Ok gs => bool_decide ((λ g, Rbac.name (ReadModel.OrgStore.entry g)) <$> gs =
                                  ["admin"; "viewer"])
          | _ => false end = true) as Hg by (vm_cast_no_check (eq_refl true)).
  destruct (DynamoOrgStore.list_groups _ _ _ _ _).2 as [gs| |]; [|done..].
  exists gs. split; [done|]. by bool_prop.
Qed.
End VerifySample.


(** Witness: the two events of the sample, replayed at the latest revision. *)
Lemma dynamo_fold_at_sound_witness :
  ∃ w log st, VerifySample.latest w = Ok (Revision.new 2) ∧
    VerifySample.full_replay w = Ok st ∧ Fold.fold_events log (Revision.new 2) = Ok st.
Proof.
  destruct VerifySample.checked as (h & w & e & k & Hr & Hl & Hkeyed & _ & _ & _ & Hlatest & Hok & _).
  destruct (VerifySample.run_log h w Hr Hl) as (xs & log & Hlog).
  pose proof (VerifySample.run_growing w (VerifySample.roomy w) xs log
                (λ m, VerifySample.room_answer w Hkeyed) Hlog) as Hg.
  pose proof (VerifySample.run_length w xs log Hkeyed Hlog Hlatest) as Hlen.
  destruct (dynamo_fold_at_sound VerifySample.libs VerifySample.actor_from_str _ _ _ _ _ _ Hg 1 0
           None (Revision.new 2)) as (_ & Hsound & _).
  - rewrite Hlen. reflexivity.
  - split; [reflexivity|]. apply N.leb_le. reflexivity.
  - reflexivity.
  - destruct (VerifySample.full_replay w) as [st| |] eqn:Hf; [|discriminate Hok..].
    destruct (Hsound st Hf) as (m & _ & Hfold).
    exists w, log, st. split; [exact Hlatest|]. split; [exact Hf|exact Hfold].
Defined.

(** Queries that do not ask for consistency hide revisions.  A table holds an
    organization's two events and its latest revision, which is read
    consistently, is 2; the service keeps to its documentation, and answers
    the query for the events from the table before them.  Then [fold_at] at
    the latest revision answers that this revision is unknown. *)
Theorem stale_page_hides_revision :
  ∃ (t before : GmapTable.t) a xs log,
    answers_amid (λ t', t' = before ∨ t' = t) t a ∧
    EventReadFacts.has_log VerifySample.libs VerifySample.actor_from_str before t "ORG#acme" xs log ∧
    (DynamoEvents.latest_revision (λ _, a) "acme" 0).2 = Ok (Revision.new 2) ∧
    (DynamoEvents.fold_at (λ _, a) VerifySample.libs VerifySample.actor_from_str 2 "acme" None 0).2 =
    Err (store_err (AuthzError.UnknownRevision 2 0)).
Proof.
  destruct VerifySample.checked as (h & w & e & k & Hr & Hl & Hkeyed & _ & _ & _ & Hlatest & _ & Hst).
  destruct (VerifySample.run_log h w Hr Hl) as (xs & log & Hlog).
  exists (table w), ∅, (VerifySample.stale w 0), xs, log.
  split_and!; [|exact Hlog|exact Hlatest|exact Hst].
  pose proof (VerifySample.room_answer w Hkeyed) as Hw.
  assert (answers_amid (λ t', t' = ∅ ∨ t' = table w) ∅ (PagedTable.service 200 (∅ : GmapTable.t)))
    as [Hg Hq [H1 H2]].
  { eapply answers_from_amid; [by left|apply PagedTable.service_answers; [lia|]].
    intros k' i Hi. discriminate Hi. }
  split; [apply Hw|exact Hq|split; [apply Hw|exact H2]].
Qed.

(** A short page hides a revision.  A table holds an organization's two
    events, the service keeps to its documentation, and its latest revision
    is 2; yet [fold_at] at revision 2 answers that the revision is unknown,
    because a page with fewer than 100 events is taken for the last one, and
    the key it ends at is not looked at. *)
Theorem short_page_hides_revision :
  ∃ (t before : GmapTable.t) order a xs log,
    answers_from t order a ∧
    EventReadFacts.has_log VerifySample.libs VerifySample.actor_from_str before t "ORG#acme" xs log ∧
    length log = 2 ∧
    (DynamoEvents.latest_revision (λ _, a) "acme" 0).2 = Ok (Revision.new 2) ∧
    (DynamoEvents.fold_at (λ _, a) VerifySample.libs VerifySample.actor_from_str 1 "acme"
       (Some (Revision.new 2)) 0).2 =
    Err (store_err (AuthzError.UnknownRevision 2 1)).
Proof.
  destruct VerifySample.checked as (h & w & e & k & Hr & Hl & Hkeyed & _ & _ & Hf & Hlatest & _).
  destruct (VerifySample.run_log h w Hr Hl) as (xs & log & Hlog).
  exists (table w), ∅, (PagedTable.order (table w)), (PagedTable.service 1 (table w)), xs, log.
  split_and!; [by apply VerifySample.pages_answer|exact Hlog| |exact Hlatest|exact Hf].
  by apply (VerifySample.run_length w xs log).
Qed.

(** Witness: two groups and a counter, read in pages of one item. *)
Lemma list_groups_complete_witness :
  ∃ gs, (DynamoOrgStore.list_groups (λ _, PagedTable.service 1 VerifySample.groups_table)
           VerifySample.libs 4 (Id.mk (Segment.mk "acme")) 0).2 = Ok gs ∧
    (λ g, Rbac.name (ReadModel.OrgStore.entry g)) <$> gs = ["admin"; "viewer"] ∧
    StronglySorted OrgReadFacts.group_lt gs.
Proof.
  pose proof (list_groups_complete VerifySample.groups_table
    (PagedTable.order VerifySample.groups_table)
    (λ _, PagedTable.service 1 VerifySample.groups_table) VerifySample.groups_answer
    VerifySample.libs 4 0 (Id.mk (Segment.mk "acme")) VerifySample.groups_count) as Hg.
  destruct VerifySample.groups_listed as (gs & Hgs & Hn). rewrite Hgs in Hg.
  exists gs. split_and!; [exact Hgs|exact Hn|exact (proj1 Hg)].
Defined.
